(* ===== verification/_CoqProject ===== *)
-Q . S2P
Prelude.v
Programs.v
Interleaving.v
Json.v
NodeStore.v
Election.v
Dispatch.v
DispatchRuns.v
Resolution.v
Supervisor.v
HostRuntime.v
LockDomain.v
Wire.v
Guard.v
Routing.v
Residency.v
Reconciler.v
Actors.v
Maintenance.v
Coordinator.v
Restoration.v
Binding.v
Retention.v
Settlement.v
SignIn.v
Compaction.v
Generation.v
ChatRoute.v
Chunking.v
Grounding.v
Knowledge.v
KnowledgeRuns.v
KnowledgeFence.v
Sessions.v
Accounts.v
AccountRuns.v
AccountWorlds.v
Administrators.v
Lifecycle.v
LifecycleRuns.v
LifecycleWorlds.v
Limits.v
Tokens.v
Networks.v
ApiKeys.v
Gateway.v
ApiKeyRuns.v
ApiKeyWorlds.v
