(* ===== verification/Prelude.v ===== *)
(** * RCSL AI Nexus: a verification development

    The program is a control plane and gateway for locally hosted language
    models.  A gateway answers chat requests by routing them to a node; each node
    is driven by a node agent, a process that owns the node's runtime and records
    every operation it sends in PostgreSQL before it sends it; administrators put
    the platform into maintenance, and a coordinator carries that out node by
    node.  People sign in with a password and a second factor, every attempt is
    billed once, and a chat may be grounded in documents a tenant has uploaded.  This
    library models the decisions of those parts as executable definitions and proves what
    makes them correct.  Paths below are relative to
    [src/backend/app] unless they start with [scripts].

    ** How the parts interact

    The agent wins an election on its node ([Election.claim]), which gives it a
    generation number.  Every transaction of its store ([NodeStore]) proves that
    number first, so a superseded agent writes nothing.  The dispatcher
    ([Dispatch]) admits an attempt, inserts it, promotes it and only then sends;
    an attempt whose end is not known blocks the node until somebody resolves
    it ([Resolution]), on evidence that the runtime was restarted: the agent
    asks a supervisor on the host ([Supervisor]), which stops and starts the
    processes ([HostRuntime]), and a host lock ([LockDomain]) proves that no
    earlier sender is left.  The bodies the agent admits were decoded strictly
    ([Wire]) and passed the admission guard ([Guard]).

    On the other side, the chat use case ([ChatRoute]) authorises an actor
    ([Actors]), picks a node and a model from the registry and from residency
    evidence ([Routing], [Residency]), shortens the conversation when it must
    ([Compaction]), binds the request to one attempt ([Binding]) and runs the
    generation ([Generation]); [Settlement] bills the attempt afterwards and
    [Retention] says how long its rows stay.  Before a chat is routed it may be
    grounded ([Knowledge.ground_chat]) in passages retrieved from the documents of a
    knowledge base, which were cut by [Chunking] and are put into the prompt by
    [Grounding]; a fence in the database says when what was read was at rest
    ([KnowledgeFence]).  The reconciler ([Reconciler])
    keeps the registry true to what runtimes hold.  Maintenance ([Maintenance],
    [Coordinator], [Restoration]) closes admission, drains and resets each node
    through the agent, and restores it.

    ** Files

    Shared:
    - [Prelude]: the result type of Python calls, the transaction and program
      monads' notation, tactics, hint databases, generic lemmas on lists,
      finite maps and Python's stable [sorted].
    - [Programs]: methods that await calls, as trees of calls with every answer
      possible; weakest preconditions over traces, duties before each call, and
      programs interleaved.
    - [Interleaving]: any number of requests over one state, as a step relation with
      its history, induction principles for its reachable worlds, and schedules that
      play a run for the examples.
    - [Json]: JSON values and the dictionary operations the source uses.

    The node agent ([node_agent/] and [scripts/host/]):
    - [NodeStore] ([store.py] and the migration of its tables): rows
      as records, the tables as a [Record] of finite maps, one transaction per
      method of [OperationStore]; [tx] is the state-and-error monad of a
      transaction, rolled back on error.
    - [Election] ([election.py], [release_kernel.py]): the
      takeover transaction with the election locks, the release of a previous
      kernel, and [cstep], the step relation of a cluster of agents that crash,
      restart and race; its reachable states.
    - [Dispatch] ([dispatch.py]): the gate, and [submit], [exclusive],
      [_run] and [_settle] cut into segments at their suspension points; the store
      is an interface (the class [Store]) with a fault at each call.
    - [DispatchRuns]: events, runs and reachable worlds of the dispatcher, and
      its theorems; the class is instantiated with [NodeStore].
    - [Resolution] ([resolution.py]): attestation by ordered evidence, and the
      clearing of an uncertain operation.
    - [Supervisor] ([supervisor.py], the request loop of
      [scripts/host/runtime_supervisor.py]): requests and receipts as files two
      processes share, refining a machine of four states per request.
    - [HostRuntime] (the rest of [scripts/host/runtime_supervisor.py]).
    - [LockDomain] ([lock_domain.py]): a lock file under any interleaving,
      replacement and crash, refining a mutex.
    - [Wire] ([wire.py], [domain/entities/chat.py]) and [Guard] ([guard.py],
      [domain/services/validated_profiles.py], the estimates of
      [route_chat_request/estimates.py]).

    The gateway:
    - [Routing] ([domain/services/routing_service.py] and the entities it reads).
    - [Residency] ([domain/services/residency_reconciliation.py],
      [memory_budget_service.py]) and [Reconciler]
      ([application/use_cases/reconcile_residency.py]).
    - [Lifecycle] ([application/use_cases/manage_models/], [download_model.py], the
      repository of models, [model_state.py], [node_serialisation.py],
      [runtime_directory.py]): the registry, loading, unloading, pinning and downloading
      as programs over statements and calls.  [LifecycleRuns]: what each operation knows
      and owes before each call; [LifecycleWorlds]: any number of requests, downloads and
      passes of the reconciler over one registry, their invariant and theorems.
    - [Actors] ([domain/entities/actor], [adapters/authz], [grantable_roles.py]).
    - [ChatRoute], [Compaction], [Generation], [Binding]
      ([application/use_cases/route_chat_request/]).
    - [Settlement] ([domain/services/usage_settlement.py] and its repository) and
      [Retention] ([domain/entities/retention.py] and its use case and purge).
    - [SignIn] ([authenticate_local/], [login_throttle.py], [pyotp_totp.py]).
    - [Sessions] ([adapters/session/session_store.py], [interfaces/http/middleware/identity.py]
      and the session routes of [interfaces/http/routers/auth.py]).
    - [Accounts] ([manage_users.py], [issue_invitation.py], [accept_invitation.py],
      [manage_own_account.py], [bootstrap_first_admin.py], [manage_tenants.py] and the
      repositories they share): data, statements on the tables, use cases.
      [AccountRuns]: what each request owes before each call; [AccountWorlds]: any number
      of them as read-committed transactions, their invariant, links and credentials;
      [Administrators]: who is left to manage a tenant.
    - [Tokens] ([domain/services/api_key_service.py]): the tokens of API keys; [Limits]
      ([adapters/persistence/repositories/usage.py], the counter of
      [redis_adapter.py]): what a key may spend; [Networks]: Python's [ipaddress].
    - [ApiKeys] ([domain/entities/api_key.py], [manage_api_keys/], its repository): data,
      statements, use cases; [Gateway] ([api_key_auth/], [client_ip.py], [geo_filter.py]): the
      checks a caller passes.  [ApiKeyRuns]: what each request owes before each call;
      [ApiKeyWorlds]: any number of them over one table, and its theorems.

    The knowledge base:
    - [Chunking] ([domain/services/chunking.py]) and [Grounding]
      ([domain/services/prompt_assembly.py], [grounding_records.py]): pure.
    - [Knowledge] ([ingest_document/], deletion in [manage_knowledge/],
      [search_knowledge.py], [ground_chat.py], the fence of
      [adapters/persistence/knowledge_epochs.py]): programs over one set of calls.
    - [KnowledgeRuns]: what each program owes before each call, and any number of
      them over one database and one vector store; [KnowledgeFence], the invariant of
      every world they reach, and its theorems.

    Maintenance:
    - [Maintenance] ([domain/entities/maintenance.py], [maintenance_operation.py],
      the two repositories, [application/use_cases/manage_maintenance.py]).
    - [Coordinator] ([application/use_cases/maintenance_coordinator.py], entering):
      a program over transactions and calls to nodes, run by any number of
      coordinators interleaved at every call; [Restoration], its other half.

    ** What the theorems show

    Of the store and the election: an operation is promoted, so sent, at most
    once; uncertain work blocks the node until it is resolved; a superseded owner
    is fenced; every transaction keeps the tables well formed and every row moves
    only along its state machine.  Of the dispatcher: at most one send per
    attempt over all interleavings, no send across the final barrier, nothing
    promoted beside an uncertain operation that is being settled, exclusivity of lifecycle work, bounds
    on what is admitted, and settlement of every attempt that ended; one theorem
    exhibits a run that strands the node.  Of the host: a request is carried out at
    most once whatever crashes, a runtime is only said to have been restarted when
    the old processes were seen gone, the waits end, and of all who hold the host
    lock one finds it held; an operation is resolved only on evidence gathered in
    order.

    Of the gateway's rules: the codecs round-trip, the guard's bounds hold of what
    it admits, routing picks the first admissible candidate by priority with live
    evidence, the memory budget and the restore order; the reconciler writes only
    under the node's lock what it has just observed.  Of loading a model: the runtime is
    told to only when, under the lock of a node, the row was read as downloaded, the node,
    its free memory and its rows were read in this order, and the budget had room; a load
    that claimed under that lock before, and whose claim was committed, is among the
    rows counted; the wish to keep a model resident
    never changes without a new version; what a runtime refused is written down before
    anything else.  Of a chat request: nothing is
    sent that was not counted and does not fit, nothing is compacted silently, the
    slot is given back, each request is bound to one attempt, each generation is
    closed and billed once (a record whose write fails is not tried again), and each
    attempt is billed at most once, also after retention removed its row; no purge, an
    explicit one neither, reaches inside the floor of a dataset.  Of signing in: a recovery
    code opens one session, and so does a time counter of an account unless the platform
    takes the accepted counter back, every refusal looks alike, and nobody can be locked out by others; a
    session serves the account that logged in, until its absolute expiry, and no longer
    than its account is enabled and no invalidation newer than itself is recorded.
    A token of a key is recognised as it was issued; a caller is let in only after every
    check, and no edit revives a revoked key; the instant a budget recovers is exact, though
    the wait a refused caller is told falls short of it.
    The credentials of an account change only by proof, a link is redeemed at most once,
    and a request that is alone keeps a tenant its administrator; two that are not may
    leave it without one.

    Of the knowledge base: cutting a document loses only white space and keeps each
    passage within its bound; a passage cannot close the fence it is quoted in; what
    later turns of a conversation replay extends what earlier turns were sent;
    between two equal clean readings of a fence nothing behind it changed, so what
    is recorded was at rest; and an ingestion tells how it ended.

    Of maintenance: sessions older than a hold stay dead,
    stale coordinators are fenced, snapshots are written once, each phase of a
    step is earned by evidence, an entry succeeds only with every node
    observed empty, and the platform reopens only with every model back.

    Several theorems say where the code does less than it means to: they are the
    findings of the manifest.

    ** Fuel and bounds

    Loops of the source that are structural are [Fixpoint]s without fuel.  A loop
    that runs until a deadline, or while a stream yields, asks the environment how
    many rounds it will have: [Resolution]'s waits, [HostRuntime]'s polls,
    [Generation]'s reads (the answer to [EStart]).  Every number may be answered,
    so a theorem about the trace holds for every number of rounds, and each program
    ends.  [Coordinator.carry], which plays a script of answers for the examples,
    takes fuel for the number of phases of one step (an entry has four, so six is
    enough), as do the simulators of the [Play] and [Demo] modules; no theorem
    rests on their running out, since the guarantees are about the step relations
    and the programs, which have no fuel.  Integers of the source are Python's,
    unbounded, so they are [Z]; where a column or a protocol bounds them the bound
    is part of the definition.  Python's floats are [spec_float] at binary64's
    precision.

    ** Not modelled

    Advisory and row locks are the serial composition of transactions, except for the
    accounts, the keys and the registry of models, where a statement waits for the rows another
    request has written.  Audit
    records written on another connection, log lines and the text of messages
    are left out unless something reads them.  HTTP routes, relays, adapters of
    runtimes, tokenizers, SQL mappers, configuration, the document parser's process
    and the front end are I/O around these definitions.  Clocks, tokens, the
    database's clock and the answers of nodes are arguments or nondeterministic.
    The vector store and the parser are services: a failed write to the store may land
    later, and what a parser reads is any text.  Creating a collection, and an upload
    up to its row, bracket themselves in the same fence and are not modelled: a
    collection appears in one step and an upload begins with its row inserted.
    The nodes and the routing policies a request about a model reads may answer anything.
    Still to be modelled: the rebuild of the knowledge index, and the summariser a compaction
    calls, here an argument. *)

From stdpp Require Export base tactics list option gmap strings sorting.
From Stdlib Require Export ZArith Lia.

#[export] Set Default Goal Selector "!".
#[export] Set Warnings "-clear-no-such-hyp".

Declare Scope nexus_scope.
Delimit Scope nexus_scope with nexus.

(** * Sequencing

    [let! x := m in k] runs [m], then [k] on its result, in whichever of the
    monads below [m] belongs to. *)

Definition and_then {M : Type → Type} `{MBind M} {A B} (m : M A) (k : A → M B) : M B := m ≫= k.

Notation "'let!' x := m 'in' k" := (and_then m (λ x, k))
  (at level 10, x pattern, m at level 100, k at level 200,
   format "'[v' let!  x  :=  m  'in' '/' k ']'") : nexus_scope.
Open Scope nexus_scope.

(** * Results: what a Python call returns or raises *)

Inductive res (E A : Type) : Type :=
  | Raise (e : E)
  | Ret (a : A).
Arguments Raise {E A} e.
Arguments Ret {E A} a.

#[export] Instance res_ret {E} : MRet (res E) := λ A x, Ret x.
#[export] Instance res_bind {E} : MBind (res E) := λ A B f m,
  match m with Raise e => Raise e | Ret x => f x end.
#[export] Instance res_fmap {E} : FMap (res E) := λ A B f m,
  match m with Raise e => Raise e | Ret x => Ret (f x) end.

(** The check idiom [if not ok: raise e]. *)
Definition ensure {E} (ok : bool) (e : E) : res E unit := if ok then Ret tt else Raise e.

(** [[f x for x in l]] where [f] may raise: the first error wins. *)
Fixpoint res_map {E A B} (f : A → res E B) (l : list A) : res E (list B) :=
  match l with
  | [] => Ret []
  | x :: rest => let! y := f x in let! ys := res_map f rest in Ret (y :: ys)
  end.

Section Results.
Context {E : Type}.

Lemma res_bind_ret {A B} (m : res E A) (f : A → res E B) (y : B) :
  (let! x := m in f x) = Ret y ↔ ∃ x, m = Ret x ∧ f x = Ret y.
Proof. destruct m; simpl; split; [discriminate|naive_solver|eauto|naive_solver]. Qed.

Lemma ensure_ret ok (e : E) u : ensure ok e = Ret u ↔ ok = true.
Proof. destruct ok, u; simpl; split; done. Qed.

Lemma res_map_ret {A B} (f : A → res E B) l ys :
  res_map f l = Ret ys ↔ Forall2 (λ x y, f x = Ret y) l ys.
Proof.
  revert ys. induction l as [|x l IH]; intros ys; simpl.
  - split; [intros [= <-]; constructor | by inversion 1].
  - rewrite res_bind_ret. setoid_rewrite res_bind_ret. setoid_rewrite IH. split.
    + intros (y & Hy & ys' & Hys & [= <-]). by constructor.
    + inversion 1; subst; eauto 6.
Qed.

(** A round trip elementwise is a round trip on lists. *)
Lemma res_map_fmap {A B} (g : B → A) (f : A → res E B) (l : list B) :
  Forall (λ b, f (g b) = Ret b) l → res_map f (g <$> l) = Ret l.
Proof. intros H. apply res_map_ret. induction H; constructor; auto. Qed.
End Results.

(** * Transactions: state passing with rollback

    A body either raises, in which case there is no final state (the caller
    keeps the one it started from, as a rolled-back transaction does), or
    returns a value and the state it commits. *)

Definition tx (S E A : Type) : Type := S → E + A * S.

Definition commit {S E A} (x : A) : tx S E A := λ s, inr (x, s).
#[export] Instance tx_bind {S E} : MBind (tx S E) := λ A B f m s,
  match m s with inl e => inl e | inr (x, s') => f x s' end.

Definition raise {S E A} (e : E) : tx S E A := λ _, inl e.
Definition gets {S E A} (f : S → A) : tx S E A := λ s, inr (f s, s).
Definition modify {S E} (f : S → S) : tx S E unit := λ s, inr (tt, f s).
Definition tx_when {S E} (b : bool) (m : tx S E unit) : tx S E unit :=
  if b then m else commit tt.

Section Transactions.
Context {S E : Type}.

Lemma tx_bind_inr {A B} (m : tx S E A) (f : A → tx S E B) s y s' :
  (let! x := m in f x) s = inr (y, s') ↔ ∃ x s1, m s = inr (x, s1) ∧ f x s1 = inr (y, s').
Proof.
  unfold and_then, mbind, tx_bind. destruct (m s) as [e|[x s1]]; split; try done.
  - intros (?&?&?&?); done.
  - eauto.
  - intros (?&?&[= -> ->]&?); done.
Qed.

Lemma tx_gets_inr {A} (f : S → A) s y s' : gets (E:=E) f s = inr (y, s') ↔ y = f s ∧ s' = s.
Proof. unfold gets. split; [intros [= <- <-]|intros [-> ->]]; done. Qed.

Lemma tx_modify_inr (f : S → S) s u s' : modify (E:=E) f s = inr (u, s') ↔ s' = f s.
Proof. unfold modify. destruct u. split; [intros [= <-]|intros ->]; done. Qed.

Lemma tx_commit_inr {A} (x : A) s y s' : (commit x : tx S E A) s = inr (y, s') ↔ y = x ∧ s' = s.
Proof. unfold commit. split; [intros [= <- <-]|intros [-> ->]]; done. Qed.

Lemma tx_raise_inr {A} (e : E) (s : S) (y : A) s' : (raise e : tx S E A) s = inr (y, s') ↔ False.
Proof. done. Qed.
End Transactions.

(** Unfold every successful run [body s = inr (x, s')] in sight into its steps. *)
Ltac inv_tx := repeat
  match goal with
  | H : and_then _ _ _ = inr (_, _) |- _ => apply tx_bind_inr in H as (? & ? & ? & ?)
  | H : gets _ _ = inr (_, _) |- _ => apply tx_gets_inr in H as [? ?]; simplify_eq
  | H : modify _ _ = inr (_, _) |- _ => apply tx_modify_inr in H; simplify_eq
  | H : commit _ _ = inr (_, _) |- _ => apply tx_commit_inr in H as [? ?]; simplify_eq
  | H : raise _ _ = inr (_, _) |- _ => discriminate H
  end; simplify_eq/=.

(** * Python's [sorted]: stable, by a total preorder on the elements *)

Section StableSort.
Context {A : Type} (leb : A → A → bool).

(** Insert before the first element that is not smaller: inserting from the
    right end of the list, equal elements keep their order. *)
Fixpoint insert_sorted (x : A) (l : list A) : list A :=
  match l with
  | [] => [x]
  | y :: rest => if leb x y then x :: l else y :: insert_sorted x rest
  end.

Definition py_sorted (l : list A) : list A := foldr insert_sorted [] l.

Lemma insert_sorted_perm x l : insert_sorted x l ≡ₚ x :: l.
Proof.
  induction l as [|y l IH]; simpl; [done|].
  destruct (leb x y); [done|]. rewrite IH. apply Permutation_swap.
Qed.

Lemma py_sorted_perm l : py_sorted l ≡ₚ l.
Proof. induction l as [|x l IH]; simpl; [done|]. by rewrite insert_sorted_perm, IH. Qed.

Lemma elem_of_py_sorted x l : x ∈ py_sorted l ↔ x ∈ l.
Proof. by rewrite py_sorted_perm. Qed.

Context (leb_total : ∀ x y, leb x y = false → leb y x = true).
Context (leb_trans : ∀ x y z, leb x y = true → leb y z = true → leb x z = true).

Lemma insert_sorted_sorted x l :
  StronglySorted (λ a b, leb a b = true) l →
  StronglySorted (λ a b, leb a b = true) (insert_sorted x l).
Proof.
  induction 1 as [|y l Hs IH Hall]; simpl; [repeat constructor|].
  destruct (leb x y) eqn:Hxy.
  - constructor; [by constructor|]. constructor; [done|].
    eapply Forall_impl; [exact Hall|]. intros z Hz. by eapply leb_trans.
  - constructor; [done|]. rewrite insert_sorted_perm. constructor; auto.
Qed.

Lemma py_sorted_sorted l : StronglySorted (λ a b, leb a b = true) (py_sorted l).
Proof. induction l; simpl; [constructor|]. by apply insert_sorted_sorted. Qed.

(** Stability: sorting never reorders the elements of one key class. *)
Lemma insert_sorted_filter (P : A → Prop) `{!∀ x, Decision (P x)} x l :
  (∀ a b, P a → P b → leb a b = true) →
  filter P (insert_sorted x l) = filter P (x :: l).
Proof.
  intros HP. induction l as [|y l IH]; simpl; [done|].
  destruct (leb x y) eqn:Hxy; [done|].
  rewrite filter_cons, IH, !filter_cons.
  destruct (decide (P x)), (decide (P y)); try done.
  by rewrite (HP x y) in Hxy.
Qed.

Lemma py_sorted_stable (P : A → Prop) `{!∀ x, Decision (P x)} l :
  (∀ a b, P a → P b → leb a b = true) → filter P (py_sorted l) = filter P l.
Proof.
  intros HP. induction l as [|x l IH]; [done|].
  change (py_sorted (x :: l)) with (insert_sorted x (py_sorted l)).
  by rewrite insert_sorted_filter, !filter_cons, IH.
Qed.
End StableSort.

(** [next((x for x in l if p(x)), None)] *)
Fixpoint first_match {A} (p : A → bool) (l : list A) : option A :=
  match l with
  | [] => None
  | x :: rest => if p x then Some x else first_match p rest
  end.

Lemma first_match_Some {A} (p : A → bool) l x :
  first_match p l = Some x ↔
  ∃ l1 l2, l = l1 ++ x :: l2 ∧ p x = true ∧ Forall (λ y, p y = false) l1.
Proof.
  induction l as [|y l IH]; simpl.
  - split; [done|]. intros ([|]&?&?&_); done.
  - destruct (p y) eqn:Hy; [split|rewrite IH; split].
    + intros [= ->]. by exists [], l.
    + intros ([|z l1]&l2&[= -> ->]&?&Hall); [done|]. inversion Hall; congruence.
    + intros (l1&l2&->&?&?). exists (y :: l1), l2. by repeat constructor.
    + intros ([|z l1]&l2&[= -> ->]&?&Hall); [congruence|].
      inversion Hall; subst. eauto.
Qed.

Lemma first_match_None {A} (p : A → bool) l :
  first_match p l = None ↔ Forall (λ y, p y = false) l.
Proof.
  induction l as [|y l IH]; simpl; [done|].
  rewrite Forall_cons. destruct (p y) eqn:Hy.
  - split; [done|]. by intros [? _].
  - rewrite IH. split; [by split|by intros [_ ?]].
Qed.

(** * Python strings

    [str.strip] drops whitespace from both ends.  [strip_with] is it over any
    alphabet; [py_strip] is it over [string], whose characters are the code
    points below 256. *)

Fixpoint drop_while {A} (p : A → bool) (l : list A) : list A :=
  match l with
  | [] => []
  | x :: rest => if p x then drop_while p rest else l
  end.

Definition strip_with {A} (p : A → bool) (l : list A) : list A :=
  reverse (drop_while p (reverse (drop_while p l))).

(** [str.isspace] of one code point, over all of Unicode. *)
Definition is_space (c : Z) : bool :=
  ((9 <=? c) && (c <=? 13) || (28 <=? c) && (c <=? 32) || (c =? 133) || (c =? 160) ||
   (c =? 5760) || (8192 <=? c) && (c <=? 8202) || (c =? 8232) || (c =? 8233) ||
   (c =? 8239) || (c =? 8287) || (c =? 12288))%Z%bool.

Definition ascii_code (a : Ascii.ascii) : Z := Z.of_nat (Ascii.nat_of_ascii a).

Definition py_strip (s : string) : string :=
  String.string_of_list_ascii
    (strip_with (λ a, is_space (ascii_code a)) (String.list_ascii_of_string s)).

Lemma drop_while_suffix {A} (p : A → bool) l : drop_while p l `suffix_of` l.
Proof.
  induction l as [|x l IH]; simpl; [done|]. destruct (p x); [|done]. by apply suffix_cons_r.
Qed.

Lemma drop_while_head {A} (p : A → bool) l x rest : drop_while p l = x :: rest → p x = false.
Proof. induction l as [|y l IH]; simpl; [done|]. destruct (p y) eqn:?; naive_solver. Qed.

Lemma drop_while_length {A} (p : A → bool) l : length (drop_while p l) ≤ length l.
Proof. induction l; simpl; [done|]. case_match; simpl; lia. Qed.

(** Stripping leaves a contiguous part of the text, *)
Lemma strip_with_infix {A} (p : A → bool) l : ∃ l1 l2, l = l1 ++ strip_with p l ++ l2.
Proof.
  destruct (drop_while_suffix p l) as [l1 Hl].
  destruct (drop_while_suffix p (reverse (drop_while p l))) as [l2 Hr].
  exists l1, (reverse l2). unfold strip_with.
  rewrite <- reverse_app, <- Hr, reverse_involutive. done.
Qed.

(** and is not longer than it. *)
Lemma strip_with_length {A} (p : A → bool) l : length (strip_with p l) ≤ length l.
Proof.
  unfold strip_with. rewrite length_reverse.
  etrans; [apply drop_while_length|]. rewrite length_reverse. apply drop_while_length.
Qed.

Create HintDb nexus.
Create Rewrite HintDb nexus.
#[export] Hint Rewrite @res_bind_ret @ensure_ret andb_true_iff orb_true_iff negb_true_iff
  bool_decide_eq_true bool_decide_eq_false : nexus.
#[export] Hint Resolve elem_of_py_sorted : nexus.

(** Split a hypothesis that a chain of checks succeeded. *)
Ltac inv_res H :=
  repeat (first
    [ apply res_bind_ret in H as (? & ? & H)
    | apply ensure_ret in H ]).

(** Case analysis on every guard and option match in sight. *)
Ltac case_all := repeat (case_match; simplify_eq/=; try done).

(** * Counting the entries of a map *)

Section MapCount.
Context {K A : Type} `{Countable K}.
Implicit Types (m : gmap K A) (p : A → bool).

Definition map_count p m : nat := size (filter (λ kv, p kv.2 = true) m).

Lemma map_count_insert_new p m i x :
  m !! i = None → map_count p (<[i := x]> m) = Nat.b2n (p x) + map_count p m.
Proof.
  intros Hi. unfold map_count. destruct (p x) eqn:Hp; simpl.
  - rewrite map_filter_insert_True by done. apply map_size_insert_None.
    by apply map_lookup_filter_None_2; left.
  - rewrite map_filter_insert_not'; [done|simpl; by rewrite Hp|]. intros y. by rewrite Hi.
Qed.

Lemma map_count_delete p m i x :
  m !! i = Some x → map_count p m = Nat.b2n (p x) + map_count p (delete i m).
Proof.
  intros Hi. rewrite <- (insert_id m i x) at 1 by done.
  rewrite <- insert_delete_eq. apply map_count_insert_new, lookup_delete_eq.
Qed.

Lemma map_count_insert p m i x y :
  m !! i = Some x →
  Nat.b2n (p x) + map_count p (<[i := y]> m) = Nat.b2n (p y) + map_count p m.
Proof.
  intros Hi. rewrite <- insert_delete_eq, map_count_insert_new by apply lookup_delete_eq.
  rewrite (map_count_delete p m i x) by done. lia.
Qed.

Lemma map_count_empty p : map_count p (∅ : gmap K A) = 0.
Proof. unfold map_count. by rewrite map_filter_empty. Qed.
End MapCount.

(** Turn the boolean guards of the context into propositions. *)
Ltac unbool := repeat
  match goal with
  | H : negb _ = true |- _ => apply negb_true_iff in H
  | H : negb _ = false |- _ => apply negb_false_iff in H
  | H : bool_decide _ = true |- _ => apply bool_decide_eq_true in H
  | H : bool_decide _ = false |- _ => apply bool_decide_eq_false in H
  | H : _ && _ = true |- _ => apply andb_true_iff in H as [? ?]
  | H : _ || _ = false |- _ => apply orb_false_iff in H as [? ?]
  | H : (_ <=? _)%nat = true |- _ => apply Nat.leb_le in H
  | H : (_ <=? _)%nat = false |- _ => apply Nat.leb_gt in H
  | H : (_ <? _)%nat = true |- _ => apply Nat.ltb_lt in H
  | H : (_ <? _)%nat = false |- _ => apply Nat.ltb_ge in H
  | H : (_ <=? _)%Z = true |- _ => apply Z.leb_le in H
  | H : (_ <=? _)%Z = false |- _ => apply Z.leb_gt in H
  | H : (_ <? _)%Z = true |- _ => apply Z.ltb_lt in H
  | H : (_ <? _)%Z = false |- _ => apply Z.ltb_ge in H
  | H : (_ =? _)%Z = true |- _ => apply Z.eqb_eq in H
  | H : (_ =? _)%Z = false |- _ => apply Z.eqb_neq in H
  end.

(** * The first acceptable element of a sorted list

    It is the least acceptable one, and the earliest of the least: no sorting
    is needed to say which. *)

Section FirstSorted.
Context {A : Type} (leb : A → A → bool) (p : A → bool).
Context (leb_total : ∀ x y, leb x y = false → leb y x = true).
Context (leb_trans : ∀ x y z, leb x y = true → leb y z = true → leb x z = true).

Definition earliest_least (l : list A) (x : A) : Prop :=
  ∃ l1 l2, l = l1 ++ x :: l2 ∧ p x = true ∧
    (∀ y, y ∈ l1 → p y = true → leb y x = false) ∧
    (∀ y, y ∈ l2 → p y = true → leb x y = true).

Lemma first_match_insert x l :
  StronglySorted (λ a b, leb a b = true) l →
  first_match p (insert_sorted leb x l) =
    if p x then
      match first_match p l with
      | Some y => if leb x y then Some x else Some y
      | None => Some x
      end
    else first_match p l.
Proof.
  induction 1 as [|y l Hs IH Hall]; simpl; [done|].
  destruct (leb x y) eqn:Hxy; simpl.
  - destruct (p x) eqn:Hx; [|done]. destruct (p y) eqn:Hy; [by rewrite Hxy|].
    destruct (first_match p l) as [z|] eqn:Hz; [|done].
    apply first_match_Some in Hz as (l1&l2&->&_&_).
    rewrite Forall_app, Forall_cons in Hall. destruct Hall as [_ [Hyz _]].
    by rewrite (leb_trans _ _ _ Hxy Hyz).
  - rewrite IH. destruct (p y) eqn:Hy; [|done].
    destruct (p x); [by rewrite Hxy|done].
Qed.

Lemma first_match_sorted_sound l x :
  first_match p (py_sorted leb l) = Some x → earliest_least l x.
Proof.
  revert x. induction l as [|y l IH]; simpl; [done|]. intros x.
  rewrite first_match_insert by (apply py_sorted_sorted; eauto).
  destruct (p y) eqn:Hy.
  - destruct (first_match p (py_sorted leb l)) as [z|] eqn:Hz.
    + destruct (IH z eq_refl) as (l1&l2&->&Hpz&H1&H2).
      destruct (leb y z) eqn:Hyz; intros [= <-].
      * exists [], (l1 ++ z :: l2). split_and!; [done..|set_solver|].
        intros w Hw Hpw. apply elem_of_app in Hw as [Hw|Hw%elem_of_cons].
        { eapply leb_trans; [exact Hyz|]. apply leb_total. by apply H1. }
        destruct Hw as [->|Hw]; [done|]. eapply leb_trans; eauto.
      * exists (y :: l1), l2. split_and!; [done..| |done].
        intros w [->|Hw]%elem_of_cons Hpw; [done|]. by apply H1.
    + intros [= <-]. exists [], l. split_and!; [done..|set_solver|].
      intros w Hw Hpw. apply first_match_None in Hz. rewrite py_sorted_perm, Forall_forall in Hz.
      apply Hz in Hw. congruence.
  - intros Hx. destruct (IH x Hx) as (l1&l2&->&Hpx&H1&H2).
    exists (y :: l1), l2. split_and!; [done..| |done].
    intros w [->|Hw]%elem_of_cons Hpw; [congruence|]. by apply H1.
Qed.

Lemma first_match_sorted l x :
  first_match p (py_sorted leb l) = Some x ↔ earliest_least l x.
Proof.
  split; [apply first_match_sorted_sound|]. intros (l1&l2&->&Hx&H1&H2).
  induction l1 as [|y l1 IH]; simpl.
  - rewrite first_match_insert by (apply py_sorted_sorted; eauto). rewrite Hx.
    destruct (first_match _ _) as [z|] eqn:Hz; [|done].
    apply first_match_sorted_sound in Hz as (k1&k2&->&Hpz&_&_).
    rewrite H2; [done| |done]. set_solver.
  - rewrite first_match_insert by (apply py_sorted_sorted; eauto).
    rewrite IH by (intros w Hw; apply H1; set_solver).
    destruct (p y) eqn:Hy; [|done]. rewrite H1; [done|set_solver|done].
Qed.

Lemma first_match_sorted_None l :
  first_match p (py_sorted leb l) = None ↔ ∀ y, y ∈ l → p y = false.
Proof. by rewrite first_match_None, py_sorted_perm, Forall_forall. Qed.
End FirstSorted.

(** Sorting only looks at how the elements of the list compare, *)
Lemma insert_sorted_ext {A} (f g : A → A → bool) x l :
  (∀ y, y ∈ l → f x y = g x y) → insert_sorted f x l = insert_sorted g x l.
Proof.
  induction l as [|y l IH]; intros H; simpl; [done|].
  rewrite <- (H y) by set_solver. destruct (f x y); [done|].
  rewrite IH; [done|]. intros z Hz. apply H. set_solver.
Qed.

Lemma py_sorted_ext {A} (f g : A → A → bool) l :
  (∀ x y, x ∈ l → y ∈ l → f x y = g x y) → py_sorted f l = py_sorted g l.
Proof.
  induction l as [|x l IH]; intros H; simpl; [done|].
  change (foldr (insert_sorted f) [] l) with (py_sorted f l).
  change (foldr (insert_sorted g) [] l) with (py_sorted g l).
  rewrite <- IH by (intros; apply H; set_solver). apply insert_sorted_ext.
  intros y Hy. rewrite elem_of_py_sorted in Hy. apply H; set_solver.
Qed.

Lemma NoDup_key_inj {A K} (key : A → K) l x y :
  NoDup (key <$> l) → x ∈ l → y ∈ l → key x = key y → x = y.
Proof.
  intros Hnd [i Hi]%list_elem_of_lookup [j Hj]%list_elem_of_lookup Hk.
  assert (i = j) as ->; [|congruence]. eapply (NoDup_lookup (key <$> l)); [done|..].
  - by rewrite list_lookup_fmap, Hi.
  - by rewrite list_lookup_fmap, Hj, Hk.
Qed.

(** and when a key tells the elements apart, not at the order they come in. *)
Lemma py_sorted_unique {A K} (leb : A → A → bool) (key : A → K) l1 l2 :
  (∀ x y, leb x y = false → leb y x = true) →
  (∀ x y z, leb x y = true → leb y z = true → leb x z = true) →
  (∀ x y, leb x y = true → leb y x = true → key x = key y) →
  NoDup (key <$> l1) → l1 ≡ₚ l2 → py_sorted leb l1 = py_sorted leb l2.
Proof.
  intros Ht Htr Ha Hnd Hp.
  apply (StronglySorted_unique_strong (λ x y, leb x y = true)).
  - intros x y Hx Hy Hxy Hyx. rewrite elem_of_py_sorted in Hx, Hy. rewrite <- Hp in Hy.
    eapply (NoDup_key_inj key); eauto.
  - by apply py_sorted_sorted.
  - by apply py_sorted_sorted.
  - by rewrite !py_sorted_perm.
Qed.

Lemma existsb_false {A} (p : A → bool) l : existsb p l = false ↔ Forall (λ x, p x = false) l.
Proof.
  induction l as [|x l IH]; simpl; [done|]. rewrite orb_false_iff, IH. by rewrite Forall_cons.
Qed.

(** ** Filters by a boolean *)

Lemma elem_of_List_filter {A} (P : A → bool) (x : A) l : x ∈ List.filter P l ↔ P x = true ∧ x ∈ l.
Proof. rewrite !list_elem_of_In, filter_In. tauto. Qed.

Lemma NoDup_fmap_filter {A B} (f : A → B) (P : A → bool) l : NoDup (f <$> l) → NoDup (f <$> List.filter P l).
Proof.
  induction l as [|x l IH]; intros Hnd; [done|]. inversion_clear Hnd as [|? ? Hx Hl]. simpl.
  destruct (P x); [|auto]. constructor; [|auto].
  intros (y&Hy&[_ Hin]%elem_of_List_filter)%list_elem_of_fmap. apply Hx. rewrite Hy. by apply list_elem_of_fmap_2.
Qed.
