(* ===== verification/Programs.v ===== *)
(** Programs that call out.

    The use cases of the application are sequences of awaited calls: to the
    database, to a node, to a clock.  A [prog] is such a method as a tree of calls
    [Ask q k], each continued by whatever was answered, over the mutable fields of
    its object ([Get], [Put]) and with Python's exceptions.  Field updates made
    before an exception stay made, as they do in the source.

    A program is judged by its traces: the calls it made with the answers they
    got, in order.  [may] says which answers are possible after a trace; left
    unconstrained it is the most hostile environment.  [wp] is the weakest
    precondition over all those answers, [exec] the corresponding relation, and
    [run] plays a program against one environment given as a function. *)

From S2P Require Export Prelude.

Inductive prog {Eff : Type → Type} {X S : Type} (A : Type) : Type :=
  | Pure (a : A)
  | Throw (e : X)
  | Ask {R : Type} (q : Eff R) (k : R → prog A)
  | Get (k : S → prog A)
  | Put (s : S) (p : prog A).
Arguments prog : clear implicits.
Arguments Pure {Eff X S A} a.
Arguments Throw {Eff X S A} e.
Arguments Ask {Eff X S A R} q k.
Arguments Get {Eff X S A} k.
Arguments Put {Eff X S A} s p.

Section Programs.
Context {Eff : Type → Type} {X S : Type}.
Implicit Types (s : S).

Fixpoint prog_then {A B} (f : A → prog Eff X S B) (p : prog Eff X S A) : prog Eff X S B :=
  match p with
  | Pure a => f a
  | Throw e => Throw e
  | Ask q k => Ask q (λ r, prog_then f (k r))
  | Get k => Get (λ s, prog_then f (k s))
  | Put s p => Put s (prog_then f p)
  end.
#[export] Instance prog_ret : MRet (prog Eff X S) := λ A, Pure.
#[export] Instance prog_bind : MBind (prog Eff X S) := λ A B f p, prog_then f p.

(** How [p] ends, as a value. *)
Fixpoint attempt {A} (p : prog Eff X S A) : prog Eff X S (X + A) :=
  match p with
  | Pure a => Pure (inr a)
  | Throw e => Pure (inl e)
  | Ask q k => Ask q (λ r, attempt (k r))
  | Get k => Get (λ s, attempt (k s))
  | Put s p => Put s (attempt p)
  end.

Definition or_throw {A} (o : X + A) : prog Eff X S A :=
  match o with inl e => Throw e | inr a => Pure a end.

(** [try: p except X as e: h(e)] *)
Definition catch {A} (p : prog Eff X S A) (h : X → prog Eff X S A) : prog Eff X S A :=
  let! o := attempt p in match o with inl e => h e | inr a => Pure a end.

(** [try: p finally: q] *)
Definition finally {A} (p : prog Eff X S A) (q : prog Eff X S unit) : prog Eff X S A :=
  let! o := attempt p in let! _ := q in or_throw o.

(** A call whose answer may be an exception, which is raised. *)
Definition invoke {A} (q : Eff (X + A)%type) : prog Eff X S A := Ask q or_throw.

Definition ask {R} (q : Eff R) : prog Eff X S R := Ask q Pure.
Definition get_self : prog Eff X S S := Get Pure.
Definition update_self (f : S → S) : prog Eff X S unit := Get (λ s, Put (f s) (Pure tt)).

(** [for x in l: stopped = body(x); if stopped is not None: return stopped],
    where [body] also updates an accumulator. *)
Fixpoint for_each {A B P} (body : P → A → prog Eff X S (B + P)) (acc : P) (l : list A)
    : prog Eff X S (B + P) :=
  match l with
  | [] => Pure (inr acc)
  | x :: l =>
      let! r := body acc x in
      match r with inl stopped => Pure (inl stopped) | inr acc => for_each body acc l end
  end.

(** ** Traces *)

Context {Ev : Type} (log : ∀ R, Eff R → R → Ev) (may : list Ev → ∀ R, Eff R → R → Prop).

Fixpoint wp {A} (p : prog Eff X S A) (Q : X + A → S → list Ev → Prop) s (tr : list Ev) : Prop :=
  match p with
  | Pure a => Q (inr a) s tr
  | Throw e => Q (inl e) s tr
  | Ask q k => ∀ r, may tr _ q r → wp (k r) Q s (tr ++ [log _ q r])
  | Get k => wp (k s) Q s tr
  | Put s' p => wp p Q s' tr
  end.

Fixpoint exec {A} (p : prog Eff X S A) s (tr : list Ev) (o : X + A) s' (tr' : list Ev) : Prop :=
  match p with
  | Pure a => o = inr a ∧ s' = s ∧ tr' = tr
  | Throw e => o = inl e ∧ s' = s ∧ tr' = tr
  | Ask q k => ∃ r, may tr _ q r ∧ exec (k r) s (tr ++ [log _ q r]) o s' tr'
  | Get k => exec (k s) s tr o s' tr'
  | Put s1 p => exec p s1 tr o s' tr'
  end.

Fixpoint run {A} (env : list Ev → ∀ R, Eff R → R) (p : prog Eff X S A) s (tr : list Ev)
    : (X + A) * S * list Ev :=
  match p with
  | Pure a => (inr a, s, tr)
  | Throw e => (inl e, s, tr)
  | Ask q k => let r := env tr _ q in run env (k r) s (tr ++ [log _ q r])
  | Get k => run env (k s) s tr
  | Put s' p => run env p s' tr
  end.

Lemma wp_exec {A} (p : prog Eff X S A) Q s tr :
  wp p Q s tr ↔ ∀ o s' tr', exec p s tr o s' tr' → Q o s' tr'.
Proof.
  revert s tr. induction p as [a|e|R q k IH|k IH|s1 p IH]; intros s tr; simpl.
  - split; [by intros H o s' tr' (->&->&->)|intros H; by apply H].
  - split; [by intros H o s' tr' (->&->&->)|intros H; by apply H].
  - split.
    + intros H o s' tr' (r&Hr&He). specialize (H r Hr). rewrite IH in H. eauto.
    + intros H r Hr. apply IH. intros o s' tr' He. eauto.
  - apply IH.
  - apply IH.
Qed.

Lemma exec_run {A} env (p : prog Eff X S A) s tr :
  (∀ tr R q, may tr R q (env tr R q)) →
  exec p s tr (run env p s tr).1.1 (run env p s tr).1.2 (run env p s tr).2.
Proof.
  intros Henv. revert s tr. induction p as [a|e|R q k IH|k IH|s1 p IH]; intros s tr; simpl; eauto.
Qed.

Lemma wp_mono {A} (p : prog Eff X S A) (Q Q' : X + A → S → list Ev → Prop) s tr :
  (∀ o s' tr', Q o s' tr' → Q' o s' tr') → wp p Q s tr → wp p Q' s tr.
Proof. intros HQ. rewrite !wp_exec. eauto. Qed.

(** A frame for what was already done: [wp] only ever extends the trace. *)
Lemma wp_extends {A} (p : prog Eff X S A) s tr : wp p (λ _ _ tr', tr `prefix_of` tr') s tr.
Proof.
  revert s tr. induction p as [a|e|R q k IH|k IH|s1 p IH]; intros s tr; simpl; [done|done| |apply IH|apply IH].
  intros r Hr. eapply wp_mono; [|apply IH]. intros o s' tr'. simpl. apply prefix_app_l.
Qed.

Lemma exec_extends {A} (p : prog Eff X S A) s tr o s' tr' : exec p s tr o s' tr' → tr `prefix_of` tr'.
Proof. intros He. pose proof (wp_extends p s tr) as Hw. rewrite wp_exec in Hw. eauto. Qed.

Lemma wp_and {A} (p : prog Eff X S A) (Q Q' : X + A → S → list Ev → Prop) s tr :
  wp p Q s tr → wp p Q' s tr → wp p (λ o s' tr', Q o s' tr' ∧ Q' o s' tr') s tr.
Proof. rewrite !wp_exec. eauto. Qed.

Lemma wp_then {A B} (p : prog Eff X S A) (f : A → prog Eff X S B) Q s tr :
  wp (prog_then f p) Q s tr ↔
  wp p (λ o s' tr', match o with inr a => wp (f a) Q s' tr' | inl e => Q (inl e) s' tr' end) s tr.
Proof.
  revert s tr. induction p as [a|e|R q k IH|k IH|s1 p IH]; intros s tr; simpl; [done|done| |apply IH|apply IH].
  split; intros H r Hr; by apply IH, H.
Qed.

Lemma wp_bind {A B} (p : prog Eff X S A) (f : A → prog Eff X S B) Q s tr :
  wp p (λ o s' tr', match o with inr a => wp (f a) Q s' tr' | inl e => Q (inl e) s' tr' end) s tr →
  wp (let! x := p in f x) Q s tr.
Proof. apply wp_then. Qed.

Lemma wp_attempt {A} (p : prog Eff X S A) Q s tr :
  wp (attempt p) Q s tr ↔ wp p (λ o s' tr', Q (inr o) s' tr') s tr.
Proof.
  revert s tr. induction p as [a|e|R q k IH|k IH|s1 p IH]; intros s tr; simpl; [done|done| |apply IH|apply IH].
  split; intros H r Hr; by apply IH, H.
Qed.

Lemma wp_catch {A} (p : prog Eff X S A) (h : X → prog Eff X S A) Q s tr :
  wp p (λ o s' tr', match o with inr a => Q (inr a) s' tr' | inl e => wp (h e) Q s' tr' end) s tr →
  wp (catch p h) Q s tr.
Proof.
  intros H. apply wp_bind, wp_attempt. eapply wp_mono; [|exact H]. by intros [e|a] s' tr'.
Qed.

Lemma wp_finally {A} (p : prog Eff X S A) (q : prog Eff X S unit) Q s tr :
  wp p (λ o s' tr', wp q (λ u s2 tr2, match u with inr _ => Q o s2 tr2 | inl e => Q (inl e) s2 tr2 end) s' tr')
    s tr →
  wp (finally p q) Q s tr.
Proof.
  intros H. apply wp_bind, wp_attempt. eapply wp_mono; [|exact H]. intros o s' tr' H'.
  apply wp_bind. eapply wp_mono; [|exact H']. intros [e|[]] s2 tr2; [done|]. by destruct o.
Qed.

(** ** What a program has learnt when it returns *)

Definition learns {A} (p : prog Eff X S A) (K : A → list Ev → Prop) s tr : Prop :=
  wp p (λ o _ tr', tr `prefix_of` tr' ∧ match o with inr a => K a tr' | inl _ => True end) s tr.

Lemma learns_pure {A} (a : A) (K : A → list Ev → Prop) s tr : K a tr → learns (Pure a) K s tr.
Proof. by split. Qed.

Lemma learns_throw {A} e (K : A → list Ev → Prop) s tr : learns (Throw e) K s tr.
Proof. by split. Qed.

Lemma learns_bind {A B} (p : prog Eff X S A) (f : A → prog Eff X S B) (K : A → list Ev → Prop) K' s tr :
  learns p K s tr → (∀ a s' tr', tr `prefix_of` tr' → K a tr' → learns (f a) K' s' tr') →
  learns (let! x := p in f x) K' s tr.
Proof.
  intros Hp Hf. apply wp_bind. eapply wp_mono; [|exact Hp]. intros [e|a] s' tr' [Ht HK]; [done|].
  eapply wp_mono; [|by apply Hf]. intros o s2 tr2 [Ht2 ?]. split; [by etrans|done].
Qed.

Lemma learns_weaken {A} (p : prog Eff X S A) (K K' : A → list Ev → Prop) s tr :
  learns p K s tr → (∀ a tr', tr `prefix_of` tr' → K a tr' → K' a tr') → learns p K' s tr.
Proof.
  intros Hp HK. eapply wp_mono; [|exact Hp]. intros [e|a] s' tr' [Ht H]; (split; [done|]); [done|by apply HK].
Qed.

Lemma learns_invoke {A} (q : Eff (X + A)%type) (K : A → list Ev → Prop) s tr :
  (∀ a, K a (tr ++ [log _ q (inr a)])) → learns (invoke q) K s tr.
Proof. intros HK [e|a] _; (split; [by apply prefix_app_r|]); [done|apply HK]. Qed.

Lemma learns_ask {R} (q : Eff R) (K : R → list Ev → Prop) s tr :
  (∀ r, K r (tr ++ [log _ q r])) → learns (ask q) K s tr.
Proof. intros HK r _. split; [by apply prefix_app_r|apply HK]. Qed.

Lemma learns_catch {A} (p : prog Eff X S A) (h : X → prog Eff X S A) (K : A → list Ev → Prop) s tr :
  learns p K s tr → (∀ e s' tr', tr `prefix_of` tr' → learns (h e) K s' tr') → learns (catch p h) K s tr.
Proof.
  intros Hp Hh. apply wp_catch. eapply wp_mono; [|exact Hp]. intros [e|a] s' tr' [Ht HK]; [|done].
  eapply wp_mono; [|by apply Hh]. intros o s2 tr2 [Ht2 ?]. split; [by etrans|done].
Qed.

(** A program of which nothing is asked. *)
Lemma learns_nothing {A} (p : prog Eff X S A) s tr : learns p (λ _ _, True) s tr.
Proof. eapply wp_mono; [|apply wp_extends]. intros [e|a] s' tr'; by split. Qed.

(** ** The calls a program can make *)

Fixpoint only {A} (P : ∀ R, Eff R → Prop) (p : prog Eff X S A) : Prop :=
  match p with
  | Pure _ | Throw _ => True
  | Ask q k => P _ q ∧ ∀ r, only P (k r)
  | Get k => ∀ s, only P (k s)
  | Put _ p => only P p
  end.

Lemma only_then {A B} (P : ∀ R, Eff R → Prop) (p : prog Eff X S A) (f : A → prog Eff X S B) :
  only P p → (∀ a, only P (f a)) → only P (prog_then f p).
Proof. intros Hp Hf. induction p as [a|e|R q k IH|k IH|s1 p IH]; simpl in *; naive_solver. Qed.

Lemma only_mono {A} (P P' : ∀ R, Eff R → Prop) (p : prog Eff X S A) :
  (∀ R q, P R q → P' R q) → only P p → only P' p.
Proof. intros HP Hp. induction p as [a|e|R q k IH|k IH|s1 p IH]; simpl in *; naive_solver. Qed.

Lemma only_attempt {A} (P : ∀ R, Eff R → Prop) (p : prog Eff X S A) : only P p → only P (attempt p).
Proof. intros Hp. induction p as [a|e|R q k IH|k IH|s1 p IH]; simpl in *; naive_solver. Qed.

Lemma only_catch {A} (P : ∀ R, Eff R → Prop) (p : prog Eff X S A) h :
  only P p → (∀ e, only P (h e)) → only P (catch p h).
Proof. intros Hp Hh. apply only_then; [by apply only_attempt|]. by intros [e|a]. Qed.

Lemma wp_only {A} (P : ∀ R, Eff R → Prop) (p : prog Eff X S A) s tr :
  only P p →
  wp p (λ _ _ tr', ∃ evs, tr' = tr ++ evs ∧
    Forall (λ e, ∃ (R : Type) (q : Eff R) r, P R q ∧ e = log R q r) evs) s tr.
Proof.
  revert s tr. induction p as [a|e|R q k IH|k IH|s1 p IH]; intros s tr Hp; simpl in *.
  - exists []. by rewrite app_nil_r.
  - exists []. by rewrite app_nil_r.
  - intros r _. eapply wp_mono; [|by apply IH, Hp]. intros o s' tr' (evs&->&Hevs). simpl.
    exists (log R q r :: evs). rewrite <- app_assoc. split; [done|]. constructor; [|done].
    exists R, q, r. split; [apply Hp|done].
  - by apply IH.
  - by apply IH.
Qed.

(** The rule of a loop that may stop early. *)
Lemma wp_for_each {A B P} (body : P → A → prog Eff X S (B + P)) (Inv : P → S → list Ev → Prop) Q
    (l : list A) acc s tr :
  (∀ acc x s tr, x ∈ l → Inv acc s tr → wp (body acc x) (λ o s' tr',
     match o with inr (inr acc') => Inv acc' s' tr' | inr (inl b) => Q (inr (inl b)) s' tr' | inl e => Q (inl e) s' tr' end) s tr) →
  (∀ acc s tr, Inv acc s tr → Q (inr (inr acc)) s tr) →
  Inv acc s tr → wp (for_each body acc l) Q s tr.
Proof.
  revert acc s tr. induction l as [|x l IH]; intros acc s tr Hbody Hend Hinv; simpl; [by apply Hend|].
  apply wp_bind. eapply wp_mono; [|apply Hbody; [by left|done]].
  intros [e|[b|acc']] s' tr' H; [done|done|]. apply IH; [|done|done].
  intros acc1 y s1 tr1 Hy. apply Hbody. by right.
Qed.
(** ** Duties: what must be known before each call

    [must tr q] says when the call [q] may be made after the trace [tr].
    [obeys] is [wp] with that duty at every call; since it looks at each call
    and not only at the end, it also speaks of programs that never finish. *)

Context (must : list Ev → ∀ R, Eff R → Prop).

Fixpoint obeys {A} (p : prog Eff X S A) (Q : X + A → S → list Ev → Prop) s (tr : list Ev) : Prop :=
  match p with
  | Pure a => Q (inr a) s tr
  | Throw e => Q (inl e) s tr
  | Ask q k => must tr _ q ∧ ∀ r, may tr _ q r → obeys (k r) Q s (tr ++ [log _ q r])
  | Get k => obeys (k s) Q s tr
  | Put s' p => obeys p Q s' tr
  end.

Lemma obeys_mono {A} (p : prog Eff X S A) (Q Q' : X + A → S → list Ev → Prop) s tr :
  (∀ o s' tr', Q o s' tr' → Q' o s' tr') → obeys p Q s tr → obeys p Q' s tr.
Proof.
  intros HQ. revert s tr. induction p as [a|e|R q k IH|k IH|s1 p IH]; intros s tr; simpl; eauto.
  intros [Hm Hk]. split; [done|]. intros r Hr. by apply IH, Hk.
Qed.

Lemma obeys_then {A B} (p : prog Eff X S A) (f : A → prog Eff X S B) Q s tr :
  obeys (prog_then f p) Q s tr ↔
  obeys p (λ o s' tr', match o with inr a => obeys (f a) Q s' tr' | inl e => Q (inl e) s' tr' end) s tr.
Proof.
  revert s tr. induction p as [a|e|R q k IH|k IH|s1 p IH]; intros s tr; simpl; [done|done| |apply IH|apply IH].
  split; intros [Hm Hk]; (split; [done|]); intros r Hr; by apply IH, Hk.
Qed.

Lemma obeys_bind {A B} (p : prog Eff X S A) (f : A → prog Eff X S B) Q s tr :
  obeys p (λ o s' tr', match o with inr a => obeys (f a) Q s' tr' | inl e => Q (inl e) s' tr' end) s tr →
  obeys (let! x := p in f x) Q s tr.
Proof. apply obeys_then. Qed.

Lemma obeys_attempt {A} (p : prog Eff X S A) Q s tr :
  obeys (attempt p) Q s tr ↔ obeys p (λ o s' tr', Q (inr o) s' tr') s tr.
Proof.
  revert s tr. induction p as [a|e|R q k IH|k IH|s1 p IH]; intros s tr; simpl; [done|done| |apply IH|apply IH].
  split; intros [Hm Hk]; (split; [done|]); intros r Hr; by apply IH, Hk.
Qed.

Lemma obeys_catch {A} (p : prog Eff X S A) (h : X → prog Eff X S A) Q s tr :
  obeys p (λ o s' tr', match o with inr a => Q (inr a) s' tr' | inl e => obeys (h e) Q s' tr' end) s tr →
  obeys (catch p h) Q s tr.
Proof.
  intros H. apply obeys_bind, obeys_attempt. eapply obeys_mono; [|exact H]. by intros [e|a] s' tr'.
Qed.

Lemma obeys_finally {A} (p : prog Eff X S A) (q : prog Eff X S unit) Q s tr :
  obeys p (λ o s' tr', obeys q (λ u s2 tr2, match u with inr _ => Q o s2 tr2 | inl e => Q (inl e) s2 tr2 end) s' tr')
    s tr →
  obeys (finally p q) Q s tr.
Proof.
  intros H. apply obeys_bind, obeys_attempt. eapply obeys_mono; [|exact H]. intros o s' tr' H'.
  apply obeys_bind. eapply obeys_mono; [|exact H']. intros [e|[]] s2 tr2; [done|]. by destruct o.
Qed.

(** A program all of whose calls may be made at any time only learns. *)
Lemma only_obeys {A} (P : ∀ R, Eff R → Prop) (p : prog Eff X S A) s tr :
  (∀ R q tr', P R q → must tr' R q) → only P p → obeys p (λ _ _ tr', tr `prefix_of` tr') s tr.
Proof.
  intros HP. revert s tr. induction p as [a|e|R q k IH|k IH|s1 p IH]; intros s tr; simpl; [done|done| |eauto|eauto].
  intros [Hq Hk]. split; [by apply HP|]. intros r _. eapply obeys_mono; [|by apply IH].
  intros o s' tr'. simpl. apply prefix_app_l.
Qed.

(** A program all of whose calls are free obeys whatever it ends with. *)
Lemma only_wp_obeys {A} (P : ∀ R, Eff R → Prop) (p : prog Eff X S A) Q s tr :
  (∀ tr R q, P R q → must tr R q) → only P p → wp p Q s tr → obeys p Q s tr.
Proof.
  intros HP. revert s tr. induction p as [a|e|R q k IH|k IH|s1 p IH]; intros s tr; simpl; [done|done| |eauto|eauto].
  intros [Hq Hk] Hw. split; [by apply HP|]. intros r Hr. apply IH; [done|by apply Hw].
Qed.

(** A fact about the trace that no call of a program ends, and that allows each of them. *)
Lemma only_invariant {A} (P : ∀ R, Eff R → Prop) (Inv : list Ev → Prop) (p : prog Eff X S A) s tr :
  (∀ tr R q, Inv tr → P R q → must tr R q ∧ ∀ r, may tr R q r → Inv (tr ++ [log R q r])) →
  only P p → Inv tr → obeys p (λ _ _ tr', Inv tr') s tr.
Proof.
  intros HP. revert s tr. induction p as [a|e|R q k IH|k IH|s1 p IH]; intros s tr; simpl; [done|done| |eauto|eauto].
  intros [Hq Hk] Hi. destruct (HP tr R q Hi Hq) as [Hm Hi']. split; [done|]. intros r Hr. by apply IH, Hi'.
Qed.

Lemma only_bind {A B} (P : ∀ R, Eff R → Prop) (p : prog Eff X S A) (f : A → prog Eff X S B) :
  only P p → (∀ a, only P (f a)) → only P (let! x := p in f x).
Proof. apply only_then. Qed.

Lemma only_invoke {A} (P : ∀ R, Eff R → Prop) (q : Eff (X + A)%type) : P _ q → only P (invoke q : prog Eff X S A).
Proof. intros Hq. split; [done|]. by intros [e|a]. Qed.

Lemma only_ask {R} (P : ∀ R, Eff R → Prop) (q : Eff R) : P _ q → only P (ask q : prog Eff X S R).
Proof. intros Hq. by split. Qed.

Lemma obeys_wp {A} (p : prog Eff X S A) Q s tr : obeys p Q s tr → wp p Q s tr.
Proof. revert s tr. induction p as [a|e|R q k IH|k IH|s1 p IH]; intros s tr; simpl; eauto. intros [_ Hk] r Hr. eauto. Qed.

(** Duties stated of the events: everything a run adds was due when it happened. *)
Lemma obeys_due {A} (due : list Ev → Ev → Prop) (p : prog Eff X S A) Q s tr o s' tr' :
  (∀ tr1 R q r, must tr1 R q → may tr1 R q r → due tr1 (log R q r)) →
  obeys p Q s tr → exec p s tr o s' tr' →
  Q o s' tr' ∧ ∀ pre e post, tr' = pre ++ e :: post → tr `prefix_of` pre → due pre e.
Proof.
  intros Hdue. revert s tr. induction p as [a|x|R q k IH|k IH|s1 p IH]; intros s tr; simpl; [| | |apply IH|apply IH].
  - intros HQ (->&->&->). split; [done|]. intros pre e post Ht [evs ->].
    apply (f_equal length) in Ht. rewrite !length_app in Ht. simpl in Ht. lia.
  - intros HQ (->&->&->). split; [done|]. intros pre e post Ht [evs ->].
    apply (f_equal length) in Ht. rewrite !length_app in Ht. simpl in Ht. lia.
  - intros [Hm Hk] (r&Hr&He). destruct (IH r _ _ (Hk r Hr) He) as [HQ Hrest]. split; [done|].
    intros pre e post Ht [evs ->]. apply exec_extends in He as [more Hmore].
    rewrite Hmore, <- !app_assoc in Ht. apply app_inv_head in Ht. destruct evs as [|e1 evs]; simpl in Ht.
    + injection Ht as <- _. rewrite app_nil_r. by apply Hdue.
    + injection Ht as <- ->. eapply (Hrest _ e post); [|by exists evs; rewrite <- app_assoc].
      by rewrite Hmore, <- !app_assoc.
Qed.

(** What a program has already learnt it still knows at its end. *)
Lemma obeys_extends {A} (p : prog Eff X S A) Q s tr :
  obeys p Q s tr → obeys p (λ o s' tr', Q o s' tr' ∧ tr `prefix_of` tr') s tr.
Proof.
  revert s tr. induction p as [a|e|R q k IH|k IH|s1 p IH]; intros s tr; simpl; [done|done| |apply IH|apply IH].
  intros [Hm Hk]. split; [done|]. intros r Hr. eapply obeys_mono; [|by apply IH, Hk].
  intros o s' tr' [? ?]. split; [done|]. by eapply prefix_app_l.
Qed.
End Programs.

(** ** Things only one of several interleaved programs can get

    The traces of programs that run side by side.  [owns e k] says that the event
    [e] gave its program the thing [k]; [apart] that no two programs got the same
    one. *)

Section Apart.
Context {Ev K : Type} (owns : Ev → K → Prop).

Definition apart (traces : list (list Ev)) : Prop :=
  ∀ i j t1 t2 e1 e2 k, traces !! i = Some t1 → traces !! j = Some t2 →
    e1 ∈ t1 → e2 ∈ t2 → owns e1 k → owns e2 k → i = j.

Lemma apart_nil : apart [].
Proof. intros i j t1 t2 e1 e2 k Hi. by rewrite lookup_nil in Hi. Qed.

Lemma apart_spawn traces : apart traces → apart (traces ++ [[]]).
Proof.
  intros Ha i j t1 t2 e1 e2 k Hi Hj He1 He2.
  assert (∀ n t e, (traces ++ [[]]) !! n = Some t → e ∈ t → traces !! n = Some t) as Hold.
  { intros n t e [?|[_ Ht]]%lookup_app_Some He; [done|].
    apply list_lookup_singleton_Some in Ht as [_ <-]. by apply not_elem_of_nil in He. }
  eapply Ha; eauto.
Qed.

(** One program learns something: nobody had what it now owns. *)
Lemma apart_learn (taken : K → Prop) traces j t e :
  apart traces → (∀ t' e' k, t' ∈ traces → e' ∈ t' → owns e' k → taken k) →
  traces !! j = Some t → (∀ k, owns e k → ¬ taken k) →
  apart (<[j := t ++ [e]]> traces).
Proof.
  intros Ha Htaken Hj Hfresh i1 i2 t1 t2 e1 e2 k H1 H2 He1 He2 Ho1 Ho2.
  assert (∀ n u e', <[j := t ++ [e]]> traces !! n = Some u → e' ∈ u → owns e' k →
            (∃ u', traces !! n = Some u' ∧ e' ∈ u') ∨ n = j ∧ e' = e) as Hback.
  { intros n u e' [(<-&<-&_)|[_ Hu]]%list_lookup_insert_Some He' _; [|by left; exists u].
    apply elem_of_app in He' as [?|He'%list_elem_of_singleton]; [by left; exists t|by right]. }
  assert (∀ n u' e', traces !! n = Some u' → e' ∈ u' → owns e' k → ¬ owns e k) as Hno.
  { intros n u' e' Hu%list_elem_of_lookup_2 He' Ho' Ho. exact (Hfresh k Ho (Htaken _ _ _ Hu He' Ho')). }
  destruct (Hback _ _ _ H1 He1 Ho1) as [(u1&?&?)|[-> ->]], (Hback _ _ _ H2 He2 Ho2) as [(u2&?&?)|[-> ->]];
    [by eapply Ha|exfalso; by eapply Hno..|done].
Qed.
End Apart.

(** Walk to the next call of a program. *)
Ltac walk_calls :=
  cbn [wp obeys and_then mbind prog_bind prog_then invoke ask or_throw update_self get_self negb].
