(* ===== verification/Interleaving.v ===== *)
(** Programs side by side over one state.

    A world is a state and the requests being served, each with the trace of what it
    has learnt; a step is one call of one of them answered, a request that arrives or
    dies, or something the environment does.  The history keeps every call of every
    request in order with the state it left.

    If every request that is served keeps its duties ([must]), so does every call of
    every history: [history_due] gives a theorem about worlds for each duty. *)

From S2P Require Export Programs.

(** ** Histories *)

Section Histories.
Context {Ev X : Type}.
Implicit Types (h : list (nat * Ev * X)).

(** What one of the programs did. *)
Definition events_of (i : nat) h : list Ev := map (λ x, x.1.2) (filter (λ x, x.1.1 = i) h).

Lemma events_of_app i h1 h2 : events_of i (h1 ++ h2) = events_of i h1 ++ events_of i h2.
Proof. unfold events_of. by rewrite filter_app, map_app. Qed.

Lemma events_of_snoc i j e x h :
  events_of i (h ++ [(j, e, x)]) = events_of i h ++ (if bool_decide (j = i) then [e] else []).
Proof.
  rewrite events_of_app. unfold events_of at 2. rewrite filter_cons. simpl. case_decide; case_bool_decide; done.
Qed.

Lemma events_of_none i h : (∀ j e x, (j, e, x) ∈ h → j < i) → events_of i h = [].
Proof.
  induction h as [|[[j e] x] h IH] using rev_ind; intros Hw; [done|]. rewrite events_of_snoc, IH.
  - rewrite bool_decide_eq_false_2; [done|]. intros ->. enough (i < i) by lia. apply (Hw i e x), elem_of_app. right.
    by apply list_elem_of_singleton.
  - intros j' e' x' Hin. eapply Hw, elem_of_app. by left.
Qed.

Lemma events_of_elem i e x h : (i, e, x) ∈ h → e ∈ events_of i h.
Proof.
  intros Hin. unfold events_of. apply list_elem_of_fmap. exists (i, e, x). split; [done|].
  by apply list_elem_of_filter.
Qed.

Lemma elem_of_events i e h : e ∈ events_of i h → ∃ x, (i, e, x) ∈ h.
Proof.
  unfold events_of. intros ([[j e'] x]&->&Hin)%list_elem_of_fmap. apply list_elem_of_filter in Hin as [Hj Hin].
  simpl in Hj. subst j. by exists x.
Qed.

(** Where an event of one program is in the history of all. *)
Lemma events_of_split i h a e b : events_of i h = a ++ e :: b →
  ∃ h1 x h2, h = h1 ++ (i, e, x) :: h2 ∧ events_of i h1 = a ∧ events_of i h2 = b.
Proof.
  revert a. induction h as [|[[j e'] x] h IH]; intros a Hh; [by destruct a|].
  unfold events_of in *. rewrite filter_cons in Hh. simpl in Hh. case_decide as Hj.
  - subst j. destruct a as [|y a]; simpl in Hh; injection Hh as -> Hh.
    + by exists [], x, h.
    + destruct (IH a Hh) as (h1&x1&h2&->&<-&<-). exists ((i, y, x) :: h1), x1, h2.
      split_and!; [done| |done]. rewrite filter_cons. simpl. by rewrite decide_True.
  - destruct (IH a Hh) as (h1&x1&h2&->&<-&<-). exists ((j, e', x) :: h1), x1, h2.
    split_and!; [done| |done]. rewrite filter_cons. simpl. by rewrite decide_False.
Qed.
End Histories.

(** Two entries of a list, and what lies between. *)
Lemma split_twice {A} (l : list A) m n x y : l !! m = Some x → l !! n = Some y → m < n →
  l = take m l ++ x :: take (n - m - 1) (drop (S m) l) ++ y :: drop (S n) l.
Proof.
  intros Hx Hy Hlt. rewrite <- (take_drop_middle l m x Hx) at 1. f_equal. f_equal.
  rewrite <- (take_drop_middle (drop (S m) l) (n - m - 1) y) at 1.
  - rewrite drop_drop. repeat f_equal. lia.
  - rewrite lookup_drop, <- Hy. f_equal. lia.
Qed.

(** ** Worlds *)

Definition finished {Eff X S A} (p : prog Eff X S A) : bool := match p with Pure _ | Throw _ => true | _ => false end.

Section Worlds.
Context {Eff : Type → Type} {X Ev W : Type}.

Record task := mk_task { learnt : list Ev; program : prog Eff X unit unit }.
Record world := mk_world { state : W; tasks : list task; history : list (nat * Ev * W) }.

Context (log : ∀ R, Eff R → R → Ev).
(** What a call of the i-th request may be answered, and do; and what is left of it when
    it ends, however it ends. *)
Context (answers : nat → W → ∀ R, Eff R → R → W → Prop) (leave : nat → W → W).
Context (serves : prog Eff X unit unit → Prop) (environment : W → W → Prop).

Definition after_call {A} (i : nat) (p : prog Eff X unit A) (s : W) : W := if finished p then leave i s else s.

Inductive step : world → world → Prop :=
  | step_call i t R (q : Eff R) k r s' w :
      tasks w !! i = Some t → program t = Ask q k → answers i (state w) R q r s' →
      step w (mk_world (after_call i (k r) s') (<[i := mk_task (learnt t ++ [log R q r]) (k r)]> (tasks w))
                (history w ++ [(i, log R q r, s')]))
  | step_die i t e w :
      tasks w !! i = Some t →
      step w (mk_world (leave i (state w)) (<[i := mk_task (learnt t) (Throw e)]> (tasks w)) (history w))
  | step_serve p w : serves p → step w (mk_world (state w) (tasks w ++ [mk_task [] p]) (history w))
  | step_environment s' w : environment (state w) s' → step w (mk_world s' (tasks w) (history w)).

(** A world nobody is served in. *)
Definition idle (s : W) : world := mk_world s [] [].

Section Orderly.
Context (may : list Ev → ∀ R, Eff R → R → Prop) (must : list Ev → ∀ R, Eff R → Prop).
Context (answers_may : ∀ i s R q r s' tr, answers i s R q r s' → may tr R q r).
Context (serves_obey : ∀ p, serves p → obeys log may must p (λ _ _ _, True) tt []).

Definition obedient (t : task) : Prop := obeys log may must (program t) (λ _ _ _, True) tt (learnt t).

Record orderly (w : world) : Prop := {
  o_duty : ∀ t, t ∈ tasks w → obedient t;
  o_log : ∀ i t, tasks w !! i = Some t → learnt t = events_of i (history w);
  o_who : ∀ i e s, (i, e, s) ∈ history w → i < length (tasks w)
}.

Lemma orderly_idle s : orderly (idle s).
Proof. split; simpl; [by intros t ?%not_elem_of_nil|done|by intros i e s' ?%not_elem_of_nil]. Qed.

(** A call that is made is due. *)
Lemma orderly_must w i t R (q : Eff R) k : orderly w → tasks w !! i = Some t → program t = Ask q k →
  must (learnt t) R q ∧ ∀ r, may (learnt t) R q r → obeys log may must (k r) (λ _ _ _, True) tt (learnt t ++ [log R q r]).
Proof.
  intros [Hd _ _] Hi Hp. specialize (Hd t (list_elem_of_lookup_2 _ _ _ Hi)). unfold obedient in Hd.
  by rewrite Hp in Hd.
Qed.

Lemma lookup_changed {A} (l : list A) i j x y : <[i := x]> l !! j = Some y → (j = i ∧ y = x) ∨ (j ≠ i ∧ l !! j = Some y).
Proof. intros [(->&<-&_)|[? ?]]%list_lookup_insert_Some; auto. Qed.

Lemma orderly_step w w' : step w w' → orderly w → orderly w'.
Proof.
  intros Hs Ho. pose proof Ho as [Hd Hl Hw]. destruct Hs as [i t R q k r s' w Hi Hp Ha|i t e w Hi|p w Hp|s' w He].
  - destruct (orderly_must _ _ _ _ _ _ Ho Hi Hp) as [_ Hk]. split; simpl.
    + intros u [j Hj]%list_elem_of_lookup. apply lookup_changed in Hj as [[-> ->]|[_ Hj]].
      * apply Hk. by eapply answers_may.
      * by eapply Hd, list_elem_of_lookup_2.
    + intros j u Hj. rewrite events_of_snoc. apply lookup_changed in Hj as [[-> ->]|[Hne Hj]].
      * rewrite bool_decide_eq_true_2 by done. simpl. by rewrite (Hl _ _ Hi).
      * rewrite bool_decide_eq_false_2, app_nil_r by done. by apply Hl.
    + intros j e s2. rewrite length_insert. intros [?|Hx%list_elem_of_singleton]%elem_of_app; [by eapply Hw|].
      injection Hx as -> _ _. by eapply lookup_lt_Some.
  - split; simpl.
    + intros u [j Hj]%list_elem_of_lookup. apply lookup_changed in Hj as [[_ ->]|[_ Hj]]; [done|].
      by eapply Hd, list_elem_of_lookup_2.
    + intros j u Hj. apply lookup_changed in Hj as [[-> ->]|[_ Hj]]; [by apply (Hl i t)|by apply Hl].
    + intros j e' s'. rewrite length_insert. apply Hw.
  - split; simpl.
    + intros u [?| ->%list_elem_of_singleton]%elem_of_app; [by apply Hd|]. by apply serves_obey.
    + intros j u Hj. apply lookup_app_Some in Hj as [Hj|[Hlen Hj]]; [by apply Hl|].
      apply list_lookup_singleton_Some in Hj as [_ <-]. symmetry. apply events_of_none. intros j' e s Hin.
      apply Hw in Hin. lia.
    + intros j e s Hin. rewrite length_app. apply Hw in Hin. lia.
  - by split.
Qed.

(** Induction over the worlds reached, each known to be orderly. *)
Lemma steps_ind (P : world → Prop) s0 w :
  P (idle s0) → (∀ w w', rtc step (idle s0) w → orderly w → step w w' → P w → P w') →
  rtc step (idle s0) w → orderly w ∧ P w.
Proof.
  intros H0 Hstep. revert w. apply rtc_ind_r; [split; [apply orderly_idle|done]|].
  intros w w' Hr Hs [Ho HP]. split; [by eapply orderly_step|by eapply Hstep].
Qed.

Lemma steps_orderly s0 w : rtc step (idle s0) w → orderly w.
Proof. intros Hr. by destruct (steps_ind (λ _, True) s0 w). Qed.

(** Every entry of a history is what its own call made it: a fact about calls is a fact
    about histories. *)
Lemma history_call (P : nat → list Ev → Ev → W → Prop) s0 w :
  (∀ w i t R (q : Eff R) k r s', rtc step (idle s0) w → tasks w !! i = Some t → program t = Ask q k →
     must (learnt t) R q → answers i (state w) R q r s' → P i (learnt t) (log R q r) s') →
  rtc step (idle s0) w → ∀ h1 i e s h2, history w = h1 ++ (i, e, s) :: h2 → P i (events_of i h1) e s.
Proof.
  intros HP Hr. refine (proj2 (steps_ind (λ w, ∀ h1 i e s h2, history w = h1 ++ (i, e, s) :: h2 →
    P i (events_of i h1) e s) s0 w _ _ Hr)); [by intros [|] ????|].
  clear w Hr. intros w w' Hr Ho Hs IH h1 i e s h2. destruct Hs as [j t R q k r s' w Hi Hp Ha| | |]; try apply IH.
  simpl. destruct h2 as [|x h2 _] using rev_ind.
  - intros [<- [= <- <- <-]]%app_inj_tail. rewrite <- (o_log _ Ho _ _ Hi). eapply HP; [done..| |done].
    by eapply orderly_must.
  - rewrite app_comm_cons, app_assoc. intros [Hh _]%app_inj_tail. by eapply IH.
Qed.

Lemma history_due (due : list Ev → Ev → Prop) s0 w :
  (∀ tr R q r, must tr R q → due tr (log R q r)) → rtc step (idle s0) w →
  ∀ h1 i e s h2, history w = h1 ++ (i, e, s) :: h2 → due (events_of i h1) e.
Proof. intros Hdue Hr. eapply (history_call (λ _ tr e _, due tr e)); [|done]. intros. by apply Hdue. Qed.

(** A fact about the state that calls, ends and the environment keep. *)
Lemma state_invariant (I : W → Prop) s0 w :
  I s0 → (∀ i tr s R (q : Eff R) r s', must tr R q → answers i s R q r s' → I s → I s') →
  (∀ i s, I s → I (leave i s)) → (∀ s s', environment s s' → I s → I s') →
  rtc step (idle s0) w → I (state w).
Proof.
  intros H0 Hcall Hleave Henv Hr. refine (proj2 (steps_ind (λ w, I (state w)) s0 w H0 _ Hr)).
  clear w Hr. intros w w' _ Ho Hs HI. destruct Hs as [j t R q k r s' w Hi Hp Ha|j t e w Hi|p w Hp|s' w He]; simpl.
  - assert (I s') as HI' by (eapply Hcall; [by eapply orderly_must|done|done]).
    unfold after_call. destruct (finished (k r)); [by apply Hleave|done].
  - by apply Hleave.
  - done.
  - by eapply Henv.
Qed.

(** A fact about the state and the history that calls, ends and the environment keep. *)
Lemma history_invariant (I : W → list (nat * Ev * W) → Prop) s0 w :
  I s0 [] →
  (∀ i s h R (q : Eff R) r s', must (events_of i h) R q → answers i s R q r s' → I s h → I s' (h ++ [(i, log R q r, s')])) →
  (∀ i s h, I s h → I (leave i s) h) → (∀ s s' h, environment s s' → I s h → I s' h) →
  rtc step (idle s0) w → I (state w) (history w).
Proof.
  intros H0 Hcall Hleave Henv Hr. refine (proj2 (steps_ind (λ w, I (state w) (history w)) s0 w H0 _ Hr)).
  clear w Hr. intros w w' _ Ho Hs HI. destruct Hs as [j t R q k r s' w Hi Hp Ha|j t e w Hi|p w Hp|s' w He]; simpl.
  - assert (must (events_of j (history w)) R q) as Hm.
    { rewrite <- (o_log _ Ho _ _ Hi). by eapply orderly_must. }
    pose proof (Hcall _ _ _ _ _ _ _ Hm Ha HI) as HI'.
    unfold after_call. destruct (finished (k r)); [by apply Hleave|done].
  - by apply Hleave.
  - done.
  - by eapply Henv.
Qed.
End Orderly.

(** ** Playing a schedule *)

Section Schedules.
(** One answer to each call, and what the environment does. *)
Context (reply : nat → W → ∀ R, Eff R → option (R * W)).
Context (reply_answers : ∀ i s R q r s', reply i s R q = Some (r, s') → answers i s R q r s').

Inductive move : Type :=
  | Go (i n : nat)                                  (** the i-th request makes n calls *)
  | Serve (p : prog Eff X unit unit)
  | Change (f : W → W).

(** The moves that are steps. *)
Definition allowed (m : move) : Prop :=
  match m with Go _ _ => True | Serve p => serves p | Change f => ∀ s, environment s (f s) end.

Definition turn (w : world) (i : nat) : option world :=
  match tasks w !! i with
  | Some t =>
      match program t with
      | @Ask _ _ _ _ R q k =>
          match reply i (state w) R q with
          | Some (r, s') => Some (mk_world (after_call i (k r) s') (<[i := mk_task (learnt t ++ [log R q r]) (k r)]> (tasks w))
                              (history w ++ [(i, log R q r, s')]))
          | None => None
          end
      | _ => None
      end
  | None => None
  end.

Definition play_move (w : world) (m : move) : option world :=
  match m with
  | Go i n => Nat.iter n (λ o, o ≫= λ w, turn w i) (Some w)
  | Serve p => Some (mk_world (state w) (tasks w ++ [mk_task [] p]) (history w))
  | Change f => Some (mk_world (f (state w)) (tasks w) (history w))
  end.

Fixpoint play (w : world) (ms : list move) : option world :=
  match ms with
  | [] => Some w
  | m :: ms => match play_move w m with Some w' => play w' ms | None => None end
  end.

Lemma turn_step w i w' : turn w i = Some w' → step w w'.
Proof.
  unfold turn. intros Ht. repeat case_match; simplify_eq. eapply step_call; [done..|]. by apply reply_answers.
Qed.

Lemma schedule_move_steps w m w' : allowed m → play_move w m = Some w' → rtc step w w'.
Proof.
  destruct m as [i n|p|f]; simpl; intros Hm.
  - revert w'. induction n as [|n IH]; intros w'; simpl; [by intros [= <-]|].
    intros (w1&Hw1&Ht)%bind_Some. eapply rtc_r; [by apply IH|by eapply turn_step].
  - intros [= <-]. by apply rtc_once, step_serve.
  - intros [= <-]. by apply rtc_once, step_environment.
Qed.

Lemma schedule_steps w ms w' : Forall allowed ms → play w ms = Some w' → rtc step w w'.
Proof.
  intros Hms. revert w. induction Hms as [|m ms Hm _ IH]; intros w; simpl; [by intros [= ->]|].
  destruct (play_move w m) as [w1|] eqn:Hw; [|done]. intros Hp. etransitivity; [by eapply schedule_move_steps|by apply IH].
Qed.
End Schedules.
End Worlds.
#[global] Arguments move : clear implicits.
