(* ===== verification/Json.v ===== *)
(** JSON values as Python's [json] module holds them, and Python dicts.

    The node agent's wire format ([src/backend/app/node_agent/wire.py]) and
    the JSONB columns of its tables both carry these values.  An object is an
    association list in insertion order; [dict_get] and [dict_set] are
    [dict.get] and item assignment.  A float is a binary64 datum
    ([SpecFloat.spec_float]), compared the way Python compares floats.  A
    character of a [string] stands for one code point: the modelled code
    compares, concatenates and measures strings and never looks inside a
    character. *)

From S2P Require Export Prelude.
From Stdlib Require Export SpecFloat.

#[local] Set Warnings "-register-all".

Inductive json : Type :=
  | JNull
  | JBool (b : bool)
  | JInt (z : Z)
  | JFloat (f : spec_float)
  | JStr (s : string)
  | JArr (l : list json)
  | JObj (fields : list (string * json)).

Abbreviation dict := (list (string * json)).

(** * Dicts *)

Fixpoint dict_lookup {V} (k : string) (d : list (string * V)) : option V :=
  match d with
  | [] => None
  | (k', v) :: rest => if decide (k = k') then Some v else dict_lookup k rest
  end.

(** [d.get(k)]: [None] for an absent key and for an explicit null alike. *)
Definition dict_get (d : dict) (k : string) : json := default JNull (dict_lookup k d).

Fixpoint dict_set {V} (k : string) (v : V) (d : list (string * V)) : list (string * V) :=
  match d with
  | [] => [(k, v)]
  | (k', v') :: rest => if decide (k = k') then (k, v) :: rest else (k', v') :: dict_set k v rest
  end.

(** [a | b], and JSONB's [a || b] on objects: the right operand wins. *)
Definition dict_union {V} (a b : list (string * V)) : list (string * V) :=
  foldl (λ acc kv, dict_set kv.1 kv.2 acc) a b.

Lemma dict_lookup_set {V} k k' (v : V) d :
  dict_lookup k' (dict_set k v d) = if decide (k' = k) then Some v else dict_lookup k' d.
Proof.
  induction d as [|[k1 v1] d IH]; simpl; [done|].
  destruct (decide (k = k1)) as [->|]; simpl.
  - by destruct (decide (k' = k1)).
  - rewrite IH. destruct (decide (k' = k1)), (decide (k' = k)); congruence.
Qed.

Lemma dict_lookup_union {V} k (a b : list (string * V)) :
  NoDup b.*1 →
  dict_lookup k (dict_union a b) =
    match dict_lookup k b with Some v => Some v | None => dict_lookup k a end.
Proof.
  unfold dict_union. revert a. induction b as [|[k1 v1] b IH]; intros a Hnd; simpl; [done|].
  inversion_clear Hnd. rewrite IH by done. rewrite dict_lookup_set.
  destruct (decide (k = k1)) as [->|]; [|done].
  destruct (dict_lookup k1 b) as [v|] eqn:Hk; [|done].
  exfalso. simpl in H. clear -Hk H. induction b as [|[k2 v2] b IH]; simpl in *; [done|].
  case_decide; set_solver.
Qed.

(** * Truthiness, as [x or y] and [if x] use it *)

Definition truthy (j : json) : bool :=
  match j with
  | JNull => false
  | JBool b => b
  | JInt z => negb (z =? 0)%Z
  | JFloat (S754_zero _) => false
  | JFloat _ => true
  | JStr s => negb (String.eqb s "")
  | JArr l => match l with [] => false | _ => true end
  | JObj d => match d with [] => false | _ => true end
  end.

(** Optional columns and fields, [None] as null. *)
Definition jopt_str (o : option string) : json := from_option JStr JNull o.
Definition jopt_int (o : option Z) : json := from_option JInt JNull o.

(** * Python's [==] on these values

    A number equals another by value, a boolean being 0 or 1. *)

Definition float_is (f : spec_float) (z : Z) : bool :=
  match f with
  | S754_zero _ => (z =? 0)%Z
  | S754_finite s m e =>
      let v := if s then Z.neg m else Z.pos m in
      if (0 <=? e)%Z then (v * 2 ^ e =? z)%Z else (v =? z * 2 ^ (- e))%Z
  | _ => false
  end.

Definition bool_int (b : bool) : Z := if b then 1 else 0.

Fixpoint py_eq (a b : json) {struct a} : bool :=
  match a, b with
  | JNull, JNull => true
  | JBool x, JBool y => Bool.eqb x y
  | JBool x, JInt y => (bool_int x =? y)%Z
  | JInt x, JBool y => (x =? bool_int y)%Z
  | JInt x, JInt y => (x =? y)%Z
  | JInt x, JFloat y => float_is y x
  | JFloat x, JInt y => float_is x y
  | JBool x, JFloat y => float_is y (bool_int x)
  | JFloat x, JBool y => float_is x (bool_int y)
  | JFloat x, JFloat y => SFeqb x y
  | JStr x, JStr y => String.eqb x y
  | JArr l, JArr l' =>
      (fix go (l l' : list json) : bool :=
         match l, l' with
         | [], [] => true
         | x :: l, y :: l' => py_eq x y && go l l'
         | _, _ => false
         end) l l'
  | JObj d, JObj d' =>
      bool_decide (length d = length d') &&
      (fix go (d : dict) : bool :=
         match d with
         | [] => true
         | (k, x) :: d => (match dict_lookup k d' with Some y => py_eq x y | None => false end) && go d
         end) d
  | _, _ => false
  end.
