(* ===== verification/NodeStore.v ===== *)
(** The node agent's durable operations ([src/backend/app/node_agent/store.py]).

    [db] holds the tables the agent's transactions read and write, one field
    per table, with the columns of the migrations that created them.  A
    transaction is a [tx]: it raises and leaves no trace, or commits.  Every
    operation of [OperationStore] is one definition over [db]; [run_owned] is
    the [_owned] context manager they all run in.  Advisory and row locks are
    not state: the locks of the source make these transactions serial, and a
    serial execution is what composing the definitions models. *)

From S2P Require Export Json.
From stdpp Require Export pretty.

(** * Data *)

(** The [state] column's CHECK constraint. *)
Inductive op_state : Set :=
  Accepted | Running | OutcomeUnknown | OpCompleted | OpFailed | CancelledUnsent.
(** The [kind] column's CHECK constraint. *)
Inductive op_kind : Set :=
  KInference | KEmbeddingBatch | KSummary | KLoad | KUnload | KPull | KRepin | KProbe.

#[export] Instance op_state_eq_dec : EqDecision op_state.
Proof. solve_decision. Defined.
#[export] Instance op_kind_eq_dec : EqDecision op_kind.
Proof. solve_decision. Defined.

(** The column values. *)
Definition op_state_value (s : op_state) : string :=
  match s with
  | Accepted => "accepted" | Running => "running" | OutcomeUnknown => "outcome_unknown"
  | OpCompleted => "completed" | OpFailed => "failed" | CancelledUnsent => "cancelled_unsent"
  end.
Definition op_kind_value (k : op_kind) : string :=
  match k with
  | KInference => "inference" | KEmbeddingBatch => "embedding_batch" | KSummary => "summary"
  | KLoad => "load" | KUnload => "unload" | KPull => "pull" | KRepin => "repin"
  | KProbe => "probe"
  end.

Definition LIFECYCLE_KINDS : list op_kind := [KLoad; KUnload; KPull; KRepin].
Definition RESTORE_KINDS : list op_kind := [KLoad; KProbe].

Record Ownership := mk_ownership {
  own_node_id : string;
  own_generation : Z;
  own_boot_id : string
}.

(** The columns of [node_operations] that are written once, at insertion. *)
Record op_ident := mk_ident {
  kind : op_kind;
  origin_generation : Z;
  origin_boot_id : string;
  request_id : option string;
  payload_hash : option string;
  store_output : bool;
  submitted_at : Z
}.

(** A row of [node_operations]; its key is [(node_id, op_id)]. *)
Record op_row := mk_row {
  ident : op_ident;
  state : op_state;
  owner_generation : Z;
  running_at : option Z;
  resolved_at : option Z;
  resolved_by : option string;
  reason : option string;
  provenance : dict;
  observed : option json;
  terminal : option json;
  replay_unavailable : bool
}.

(** A row of [node_agents]. *)
Record agent_row := mk_agent {
  generation : Z;
  boot_id : option string;
  kernel_boot_id : option string;
  election_backend_pid : option Z;
  started_at : option Z
}.

(** The columns of [models] the agent reads or writes. *)
Record model_row := mk_model_row {
  model_node : string;
  model_runtime : string;
  model_ref : string;
  model_context_length : option Z;
  model_capabilities : list string;
  model_manifest_digest : option string
}.

Record audit_row := mk_audit {
  audit_node : string;
  audit_op : option string;
  audit_event : string;
  audit_detail : json
}.

(** [maintenance_control], the row with [id = 1]. *)
Record hold_row := mk_hold { admission_closed : bool; hold_epoch : Z }.

Record db := mk_db {
  clock : Z;
  nodes : gmap string (option string);
  agents : gmap string agent_row;
  ops : gmap (string * string) op_row;
  results : gmap (string * string) json;
  audit_log : list audit_row;
  hold : option hold_row;
  models : gmap string model_row
}.

(** What a caller sees of an operation. *)
Record Operation := mk_operation {
  o_node_id : string; o_op_id : string; o_kind : op_kind; o_state : op_state;
  o_origin_generation : Z; o_origin_boot_id : string; o_owner_generation : Z;
  o_request_id : option string; o_payload_hash : option string; o_store_output : bool;
  o_reason : option string; o_terminal : option json; o_replay_unavailable : bool
}.

Definition operation (n op : string) (r : op_row) : Operation :=
  mk_operation n op (kind (ident r)) (state r) (origin_generation (ident r))
    (origin_boot_id (ident r)) (owner_generation r) (request_id (ident r))
    (payload_hash (ident r)) (store_output (ident r)) (reason r) (terminal r)
    (replay_unavailable r).

Inductive exn : Type :=
  | NotOwner (found : option Z)
  | SummaryBusy
  | AdmissionClosed (epoch : option Z)
  | ValueError
  | UniqueViolation
  | TypeError.

Abbreviation dbtx := (tx db exn).

(** The outcome of a call, and the database it leaves behind. *)
Definition store (A : Type) : Type := db → (exn + A) * db.

(** * Columns *)

Definition set_state (st : op_state) (r : op_row) : op_row :=
  mk_row (ident r) st (owner_generation r) (running_at r) (resolved_at r) (resolved_by r)
    (reason r) (provenance r) (observed r) (terminal r) (replay_unavailable r).
Definition set_owner (g : Z) (r : op_row) : op_row :=
  mk_row (ident r) (state r) g (running_at r) (resolved_at r) (resolved_by r)
    (reason r) (provenance r) (observed r) (terminal r) (replay_unavailable r).
Definition set_running_at (t : Z) (r : op_row) : op_row :=
  mk_row (ident r) (state r) (owner_generation r) (Some t) (resolved_at r) (resolved_by r)
    (reason r) (provenance r) (observed r) (terminal r) (replay_unavailable r).
Definition set_resolved (t : Z) (by_ : string) (r : op_row) : op_row :=
  mk_row (ident r) (state r) (owner_generation r) (running_at r) (Some t) (Some by_)
    (reason r) (provenance r) (observed r) (terminal r) (replay_unavailable r).
Definition set_reason (why : option string) (r : op_row) : op_row :=
  mk_row (ident r) (state r) (owner_generation r) (running_at r) (resolved_at r) (resolved_by r)
    why (provenance r) (observed r) (terminal r) (replay_unavailable r).
Definition merge_provenance (more : dict) (r : op_row) : op_row :=
  mk_row (ident r) (state r) (owner_generation r) (running_at r) (resolved_at r) (resolved_by r)
    (reason r) (dict_union (provenance r) more) (observed r) (terminal r) (replay_unavailable r).
Definition set_observed (o : json) (r : op_row) : op_row :=
  mk_row (ident r) (state r) (owner_generation r) (running_at r) (resolved_at r) (resolved_by r)
    (reason r) (provenance r) (Some o) (terminal r) (replay_unavailable r).
Definition set_terminal (t : json) (r : op_row) : op_row :=
  mk_row (ident r) (state r) (owner_generation r) (running_at r) (resolved_at r) (resolved_by r)
    (reason r) (provenance r) (observed r) (Some t) (replay_unavailable r).
Definition set_replay_unavailable (b : bool) (r : op_row) : op_row :=
  mk_row (ident r) (state r) (owner_generation r) (running_at r) (resolved_at r) (resolved_by r)
    (reason r) (provenance r) (observed r) (terminal r) b.

Definition set_ops (f : gmap (string * string) op_row → gmap (string * string) op_row)
    (d : db) : db :=
  mk_db (clock d) (nodes d) (agents d) (f (ops d)) (results d) (audit_log d) (hold d) (models d).
Definition set_results (f : gmap (string * string) json → gmap (string * string) json)
    (d : db) : db :=
  mk_db (clock d) (nodes d) (agents d) (ops d) (f (results d)) (audit_log d) (hold d) (models d).
Definition add_audit (a : audit_row) (d : db) : db :=
  mk_db (clock d) (nodes d) (agents d) (ops d) (results d) (audit_log d ++ [a]) (hold d) (models d).
Definition set_models (f : gmap string model_row → gmap string model_row) (d : db) : db :=
  mk_db (clock d) (nodes d) (agents d) (ops d) (results d) (audit_log d) (hold d) (f (models d)).

(** [UPDATE node_operations SET ... WHERE node_id, op_id AND <guard> RETURNING op_id]:
    whether a row matched. *)
Definition update_op (n op : string) (guard : op_row → bool) (f : op_row → op_row) : dbtx bool :=
  let! row := gets (λ d, ops d !! (n, op)) in
  match row with
  | Some r => if guard r then let! _ := modify (set_ops <[(n, op) := f r]>) in commit true else commit false
  | None => commit false
  end.

(** [EXISTS (SELECT 1 FROM node_operations WHERE node_id = n AND ...)] *)
Definition exists_op (n : string) (p : string → op_row → bool) (d : db) : bool :=
  bool_decide (map_Exists (λ k r, k.1 = n ∧ p k.2 r = true) (ops d)).

Definition any_unknown (n : string) (d : db) : bool :=
  exists_op n (λ _ r, bool_decide (state r = OutcomeUnknown)) d.

(** * Reads *)

Definition observe (n op : string) (d : db) : option Operation :=
  operation n op <$> ops d !! (n, op).

Definition stored_result (n op : string) (d : db) : exn + option dict :=
  match results d !! (n, op) with
  | None => inr None
  | Some (JObj fields) => inr (Some fields)
  | Some _ => inl TypeError
  end.

Definition maintenance_hold (d : db) : bool * option Z :=
  match hold d with
  | None => (true, None)
  | Some h => (admission_closed h, Some (hold_epoch h))
  end.

Definition unknown_ops (n : string) (d : db) : list string :=
  py_sorted String.leb
    (omap (λ kr, if bool_decide (kr.1.1 = n ∧ state kr.2 = OutcomeUnknown)
                 then Some kr.1.2 else None) (map_to_list (ops d))).

(** The latest audit detail of [event] whose ["reset_id"] is the given one. *)
Definition audited (n event reset_id : string) (d : db) : option dict :=
  match
    first_match
      (λ a, bool_decide (audit_node a = n) && bool_decide (audit_event a = event) &&
            match audit_detail a with
            | JObj fields =>
                match dict_get fields "reset_id" with
                | JStr s => bool_decide (s = reset_id) | _ => false end
            | _ => false
            end)
      (rev (audit_log d))
  with
  | Some a => match audit_detail a with JObj fields => Some fields | _ => None end
  | None => None
  end.

(** * Writes *)

Section Writes.
Context (self : Ownership).

Definition prove_ownership : dbtx unit :=
  let! row := gets (λ d, agents d !! own_node_id self) in
  match row with
  | Some a =>
      if bool_decide (generation a = own_generation self) &&
         bool_decide (boot_id a = Some (own_boot_id self))
      then commit tt
      else raise (NotOwner (Some (generation a)))
  | None => raise (NotOwner None)
  end.

Definition not_owner_message (found : option Z) : string :=
  "node " +:+ own_node_id self +:+ " is owned by generation " +:+
  from_option pretty "None" found +:+ ", not " +:+ pretty (own_generation self).

(** [_owned]: prove ownership, then the body, in one transaction; a refused
    write is rolled back, audited as [stale_<action>], and raised. *)
Definition run_owned {A} (action : string) (op_id : option string) (body : dbtx A) : store A :=
  λ d,
  match (let! _ := prove_ownership in body) d with
  | inl (NotOwner found) =>
      (inl (NotOwner found),
       add_audit
         (mk_audit (own_node_id self) op_id ("stale_" +:+ action)
            (JObj [("generation", JInt (own_generation self));
                   ("boot_id", JStr (own_boot_id self));
                   ("error", JStr (not_owner_message found))])) d)
  | inl e => (inl e, d)
  | inr (a, d') => (inr a, d')
  end.

Let n := own_node_id self.

(** At most one summary outstanding on the node, beside the one asked for. *)
Definition summary_admission (op_id : string) (k : op_kind) : dbtx unit :=
  let! busy := gets (exists_op n (λ op' r,
    bool_decide (kind (ident r) = KSummary) &&
    bool_decide (state r ∈ [Accepted; Running; OutcomeUnknown]) &&
    bool_decide (op' ≠ op_id))) in
  if bool_decide (k = KSummary) && busy then raise SummaryBusy else commit tt.

Definition insert_accepted_tx (op_id : string) (k : op_kind)
    (request_id payload_hash : option string) (store_output : bool) : dbtx (option Operation) :=
  let! _ := summary_admission op_id k in
  let! existing := gets (λ d, ops d !! (n, op_id)) in
   match existing with
   | Some _ => commit None
   | None =>
       let! now := gets clock in
       let r := mk_row
         (mk_ident k (own_generation self) (own_boot_id self) request_id payload_hash
            store_output now)
         Accepted (own_generation self) None None None None [] None None false in
       let! _ := modify (set_ops <[(n, op_id) := r]>) in
       commit (Some (operation n op_id r))
   end.

Definition insert_accepted (op_id : string) (k : op_kind)
    (request_id payload_hash : option string) (store_output : bool) : store (option Operation) :=
  run_owned "insert" (Some op_id) (insert_accepted_tx op_id k request_id payload_hash store_output).

Definition owned_in (from : op_state) (r : op_row) : bool :=
  bool_decide (state r = from) && bool_decide (owner_generation r = own_generation self).

(** The maintenance hold as a promotion reads it: open for an ordinary send,
    closed at exactly [maintenance_epoch] for a restore. *)
Definition hold_admits (maintenance_epoch : option Z) : dbtx unit :=
  let! h := gets hold in
  match maintenance_epoch, h with
  | _, None => raise (AdmissionClosed None)
  | Some epoch, Some row =>
      if admission_closed row && bool_decide (hold_epoch row = epoch)
      then commit tt else raise (AdmissionClosed (Some (hold_epoch row)))
  | None, Some row =>
      if admission_closed row then raise (AdmissionClosed (Some (hold_epoch row)))
      else commit tt
  end.

Definition promote_tx (op_id : string) (prov : dict) (maintenance_epoch : option Z) : dbtx bool :=
  let! _ := hold_admits maintenance_epoch in
   let! blocked := gets (any_unknown n) in
   if blocked then commit false
   else
     let! now := gets clock in
     update_op n op_id (owned_in Accepted)
       (λ r, set_state Running (set_running_at now (merge_provenance prov r))).

Definition promote (op_id : string) (prov : dict) (maintenance_epoch : option Z) : store bool :=
  run_owned "promotion" (Some op_id) (promote_tx op_id prov maintenance_epoch).

(** [INSERT ... ON CONFLICT DO UPDATE ... WHERE]: a tombstone for an unknown
    op id; an [accepted] row of this owner is cancelled; anything else stays. *)
Definition alter_cancelled (op_id why : string) (k : op_kind) (now : Z)
    (rows : gmap (string * string) op_row) : gmap (string * string) op_row :=
  match rows !! (n, op_id) with
  | None => <[(n, op_id) := mk_row
      (mk_ident k (own_generation self) (own_boot_id self) None None false now)
      CancelledUnsent (own_generation self) None (Some now) (Some "cancel")
      (Some why) [] None None false]> rows
  | Some r =>
      if owned_in Accepted r
      then <[(n, op_id) := set_state CancelledUnsent
               (set_reason (Some why) (set_resolved now "cancel" r))]> rows
      else rows
  end.

Definition cancel_accepted (op_id why : string) (k : op_kind) : store (option Operation) :=
  run_owned "cancel" (Some op_id)
    (let! now := gets clock in
     let! _ := modify (set_ops (alter_cancelled op_id why k now)) in
     gets (observe n op_id)).

Definition mark_unknown (op_id why : string) (obs : json) : store bool :=
  run_owned "unknown" (Some op_id)
    (update_op n op_id (owned_in Running)
       (λ r, set_state OutcomeUnknown (set_reason (Some why) (set_observed obs r)))).

Definition resolve_unknown (op_id : string) (evidence : json) : store bool :=
  run_owned "resolution" (Some op_id)
    (let! now := gets clock in
     let! done := update_op n op_id (owned_in OutcomeUnknown)
       (λ r, set_state OpFailed
          (set_reason (Some "resolved_by_reset")
             (set_terminal (JObj [("resolution", JStr "operator_reset")])
                (set_resolved now "operator"
                   (merge_provenance [("resolution", evidence)] r))))) in
     let! _ := tx_when done (modify (add_audit (mk_audit n (Some op_id) "resolved_by_reset" evidence))) in
     commit done).

Definition checkpoint (op_id : string) (obs : json) : store unit :=
  run_owned "checkpoint" (Some op_id)
    (let! _ := update_op n op_id (owned_in Running) (set_observed obs) in commit tt).

(** The primary key of [attempt_results] refuses a second result. *)
Definition store_result (op_id : string) (result : option json) : dbtx unit :=
  let! stored := gets (λ d, results d !! (n, op_id)) in
  match result, stored with
  | None, _ => commit tt
  | Some _, Some _ => raise UniqueViolation
  | Some res, None => modify (set_results <[(n, op_id) := res]>)
  end.

(** The terminal state and any stored result commit together. *)
Definition finish (op_id : string) (st : op_state) (term : json) (result : option json)
    (why : option string) (replay : bool) : store bool := λ d,
  if bool_decide (st = OpCompleted) || bool_decide (st = OpFailed) then
    run_owned "completion" (Some op_id)
      (let! now := gets clock in
       let! done := update_op n op_id (owned_in Running)
         (λ r, set_state st (set_terminal term
            (set_reason why (set_replay_unavailable replay (set_resolved now "runtime" r))))) in
       let! _ := tx_when done (store_result op_id result) in
       commit done) d
  else (inl ValueError, d).

Definition unsent_after_promotion (op_id why : string) : store bool :=
  run_owned "unsent" (Some op_id)
    (let! now := gets clock in
     update_op n op_id (owned_in Running)
       (λ r, set_state CancelledUnsent
          (set_reason (Some why) (set_resolved now "promotion" r)))).

Definition pinned_by (runtime ref : string) (m : model_row) : bool :=
  bool_decide (model_node m = n) && bool_decide (model_runtime m = runtime) &&
  bool_decide (model_ref m = ref).

(** How many of this node's models on [ref] took the weights pin. *)
Definition repin (op_id runtime ref digest : string) : store nat :=
  run_owned "repin" (Some op_id)
    (let! moved := gets (λ d, size (filter (λ km, pinned_by runtime ref km.2 = true) (models d))) in
     let! _ := modify (set_models (fmap (λ m,
           if pinned_by runtime ref m
           then mk_model_row (model_node m) (model_runtime m) (model_ref m)
                  (model_context_length m) (model_capabilities m) (Some digest)
           else m))) in
     commit moved).

(** Unfenced: evidence is recorded whoever wrote it. *)
Definition audit (event : string) (op_id : option string) (detail : json) : db → db :=
  add_audit (mk_audit n op_id event detail).
End Writes.

(** Every write of the store, as one type: what a process may ask for. *)
Inductive request : Type :=
  | QInsert (op_id : string) (k : op_kind) (req hash : option string) (store : bool)
  | QPromote (op_id : string) (prov : dict) (epoch : option Z)
  | QCancel (op_id why : string) (k : op_kind)
  | QMarkUnknown (op_id why : string) (obs : json)
  | QResolve (op_id : string) (evidence : json)
  | QCheckpoint (op_id : string) (obs : json)
  | QFinish (op_id : string) (st : op_state) (term : json) (result : option json)
      (why : option string) (replay : bool)
  | QUnsent (op_id why : string)
  | QRepin (op_id runtime ref digest : string).

Inductive reply : Type :=
  | ROperation (o : option Operation) | RBool (b : bool) | RUnit | RCount (moved : nat).

Definition reply_with {A} (f : A → reply) (out : (exn + A) * db) : (exn + reply) * db :=
  (match out.1 with inl e => inl e | inr x => inr (f x) end, out.2).

Definition perform (self : Ownership) (q : request) (d : db) : (exn + reply) * db :=
  match q with
  | QInsert op k req hash st => reply_with ROperation (insert_accepted self op k req hash st d)
  | QPromote op prov epoch => reply_with RBool (promote self op prov epoch d)
  | QCancel op why k => reply_with ROperation (cancel_accepted self op why k d)
  | QMarkUnknown op why obs => reply_with RBool (mark_unknown self op why obs d)
  | QResolve op ev => reply_with RBool (resolve_unknown self op ev d)
  | QCheckpoint op obs => reply_with (λ _, RUnit) (checkpoint self op obs d)
  | QFinish op st term result why replay =>
      reply_with RBool (finish self op st term result why replay d)
  | QUnsent op why => reply_with RBool (unsent_after_promotion self op why d)
  | QRepin op runtime ref digest => reply_with RCount (repin self op runtime ref digest d)
  end.

(** * The abstract store: what a write may do to an operation *)

Definition terminal_state (s : op_state) : bool :=
  bool_decide (s ∈ [OpCompleted; OpFailed; CancelledUnsent]).

(** States whose operation the next owner must still account for. *)
Definition open_state (s : op_state) : bool := negb (terminal_state s).

(** The life of an operation. [Running → Running] is a checkpoint. *)
Inductive op_step : op_state → op_state → Prop :=
  | step_promote : op_step Accepted Running
  | step_cancel : op_step Accepted CancelledUnsent
  | step_checkpoint : op_step Running Running
  | step_uncertain : op_step Running OutcomeUnknown
  | step_complete : op_step Running OpCompleted
  | step_fail : op_step Running OpFailed
  | step_unsent : op_step Running CancelledUnsent
  | step_resolve : op_step OutcomeUnknown OpFailed.

(** One owner's update of a row at time [now]: the sender's identity and the
    owner stay, and the timestamps follow the state. *)
Record moves (now : Z) (r r' : op_row) : Prop := {
  moves_ident : ident r' = ident r;
  moves_owner : owner_generation r' = owner_generation r;
  moves_state : op_step (state r) (state r');
  moves_running : running_at r' =
    if bool_decide (state r = Accepted ∧ state r' = Running) then Some now else running_at r;
  moves_resolved : resolved_at r' =
    if terminal_state (state r') then Some now else resolved_at r
}.

Record born (self : Ownership) (now : Z) (r : op_row) : Prop := {
  born_owner : owner_generation r = own_generation self;
  born_origin : origin_generation (ident r) = own_generation self;
  born_boot : origin_boot_id (ident r) = own_boot_id self;
  born_submitted : submitted_at (ident r) = now;
  born_state : state r = Accepted ∨ state r = CancelledUnsent;
  born_running : running_at r = None;
  born_resolved : resolved_at r = if terminal_state (state r) then Some now else None
}.

Definition owns (self : Ownership) (d : db) : Prop :=
  ∃ a, agents d !! own_node_id self = Some a ∧ generation a = own_generation self ∧
       boot_id a = Some (own_boot_id self).

(** The steps of the abstract store.  All but the audit need ownership. *)
Inductive write (self : Ownership) : db → db → Prop :=
  | write_audit d a : write self d (add_audit a d)
  | write_insert d op r :
      owns self d → ops d !! (own_node_id self, op) = None → born self (clock d) r →
      write self d (set_ops <[(own_node_id self, op) := r]> d)
  | write_row d op r r' :
      owns self d → ops d !! (own_node_id self, op) = Some r →
      owner_generation r = own_generation self → moves (clock d) r r' →
      write self d (set_ops <[(own_node_id self, op) := r']> d)
  | write_result d op r res :
      owns self d → ops d !! (own_node_id self, op) = Some r →
      state r = OpCompleted ∨ state r = OpFailed →
      results d !! (own_node_id self, op) = None →
      write self d (set_results <[(own_node_id self, op) := res]> d)
  | write_models d f : owns self d → write self d (set_models f d).

(** * Theory *)

Lemma prove_ownership_inr self d u d' :
  prove_ownership self d = inr (u, d') ↔ owns self d ∧ d' = d.
Proof.
  unfold prove_ownership, owns, and_then, mbind, tx_bind, gets; simpl.
  destruct (agents d !! own_node_id self) as [a|]; simpl; [|naive_solver].
  destruct (bool_decide _ && bool_decide _) eqn:H.
  - apply andb_true_iff in H as [H1%bool_decide_eq_true H2%bool_decide_eq_true].
    unfold commit. destruct u. naive_solver.
  - unfold raise. split; [done|]. intros [(a'&[= <-]&H1&H2) _].
    by rewrite H1, H2, !bool_decide_eq_true_2 in H.
Qed.

Lemma prove_ownership_inl self d e :
  prove_ownership self d = inl e →
  e = NotOwner (generation <$> agents d !! own_node_id self) ∧ ¬ owns self d.
Proof.
  intros H. split.
  - unfold prove_ownership, and_then, mbind, tx_bind, gets, commit, raise in H; simpl in H.
    destruct (agents d !! own_node_id self) as [a|]; simpl in *; [|by injection H as <-].
    by destruct (bool_decide _ && bool_decide _); simplify_eq.
  - intros Ho. assert (prove_ownership self d = inr (tt, d)) as Hp
      by (by apply prove_ownership_inr). congruence.
Qed.

#[export] Instance owns_dec self d : Decision (owns self d).
Proof.
  destruct (prove_ownership self d) as [e|[u d']] eqn:H.
  - right. by apply prove_ownership_inl in H as [_ ?].
  - left. by apply prove_ownership_inr in H as [? _].
Defined.

(** A fenced call succeeds in its body, raises leaving nothing behind, or is
    refused and audited. *)
Lemma run_owned_cases {A} self action op (body : dbtx A) d r d' :
  run_owned self action op body d = (r, d') →
  (¬ owns self d ∧ r = inl (NotOwner (generation <$> agents d !! own_node_id self)) ∧
     ∃ detail, d' = add_audit (mk_audit (own_node_id self) op ("stale_" +:+ action) detail) d) ∨
  (owns self d ∧ ∃ e, body d = inl e ∧ r = inl e ∧
     (d' = d ∨ ∃ detail, d' = add_audit (mk_audit (own_node_id self) op ("stale_" +:+ action) detail) d)) ∨
  (owns self d ∧ ∃ x, body d = inr (x, d') ∧ r = inr x).
Proof.
  unfold run_owned, and_then, mbind, tx_bind.
  destruct (prove_ownership self d) as [e|[u d1]] eqn:Hp.
  - apply prove_ownership_inl in Hp as [-> Hno]. intros [= <- <-]. left. eauto.
  - apply prove_ownership_inr in Hp as [Ho ->].
    destruct (body d) as [e|[x d2]] eqn:Hb.
    + intros H. right; left. split; [done|]. exists e. destruct e; simplify_eq; eauto 6.
    + intros [= <- <-]. right; right. eauto.
Qed.

Lemma update_op_inr n op g f d b d' :
  update_op n op g f d = inr (b, d') ↔
  (b = true ∧ ∃ r, ops d !! (n, op) = Some r ∧ g r = true ∧
     d' = set_ops <[(n, op) := f r]> d) ∨
  (b = false ∧ d' = d ∧ ∀ r, ops d !! (n, op) = Some r → g r = false).
Proof.
  unfold update_op, and_then, mbind, tx_bind, gets, commit, modify; simpl.
  destruct (ops d !! (n, op)) as [r|]; [destruct (g r) eqn:Hg|]; split.
  - intros [= <- <-]. left. eauto.
  - intros [(->&r'&[= <-]&_&->)|(->&->&H)]; [done|]. by rewrite (H r) in Hg.
  - intros [= <- <-]. right. split_and!; [done..|]. by intros ? [= <-].
  - intros [(->&r'&[= <-]&?&->)|(->&->&H)]; [congruence|done].
  - intros [= <- <-]. by right.
  - intros [(->&r'&?&_)|(->&->&H)]; done.
Qed.

Lemma update_op_total n op g f d : ∃ b d', update_op n op g f d = inr (b, d').
Proof.
  unfold update_op, and_then, mbind, tx_bind, gets, commit, modify; simpl.
  destruct (ops d !! (n, op)) as [r|]; [destruct (g r)|]; eauto.
Qed.

Lemma owned_in_true self from r :
  owned_in self from r = true ↔ state r = from ∧ owner_generation r = own_generation self.
Proof. unfold owned_in. by rewrite andb_true_iff, !bool_decide_eq_true. Qed.

Lemma exists_op_true n p d :
  exists_op n p d = true ↔ ∃ op r, ops d !! (n, op) = Some r ∧ p op r = true.
Proof.
  unfold exists_op. rewrite bool_decide_eq_true. split.
  - intros ([n' op]&r&Hr&Hn&Hp). simpl in *. subst. eauto.
  - intros (op&r&Hr&Hp). exists (n, op), r. done.
Qed.

Lemma any_unknown_true n d :
  any_unknown n d = true ↔ ∃ op r, ops d !! (n, op) = Some r ∧ state r = OutcomeUnknown.
Proof.
  unfold any_unknown. rewrite exists_op_true. by setoid_rewrite bool_decide_eq_true.
Qed.

Lemma any_unknown_false n d :
  any_unknown n d = false ↔ ∀ op r, ops d !! (n, op) = Some r → state r ≠ OutcomeUnknown.
Proof.
  rewrite <- not_true_iff_false, any_unknown_true. naive_solver.
Qed.

(** ** The operations implement the abstract store *)

Lemma update_owned_write self op from f d b d' :
  owns self d → (∀ r, state r = from → moves (clock d) r (f r)) →
  update_op (own_node_id self) op (owned_in self from) f d = inr (b, d') →
  rtc (write self) d d' ∧
  (b = true → ∃ r, ops d !! (own_node_id self, op) = Some r ∧ state r = from ∧
     d' = set_ops <[(own_node_id self, op) := f r]> d).
Proof.
  intros Ho Hf [(->&r&Hr&[Hs Hown]%owned_in_true&->)|(->&->&_)]%update_op_inr.
  - split; [|eauto]. apply rtc_once. eapply write_row; eauto.
  - split; [constructor|done].
Qed.

(** Prove a [moves] whose source state is known. *)
Ltac solve_moves :=
  let r := fresh "r" in let Hr := fresh "Hr" in
  intros r Hr; constructor; simpl; try rewrite Hr; first [done | constructor].

(** Prove that a refused or failed call is a (possibly empty) write. *)
Ltac owned_cases H :=
  apply run_owned_cases in H as
    [(_&_&?&->)|[(_&?&_&_&[->|[? ->]])|(Ho&?&H&_)]];
  [apply rtc_once, write_audit | constructor | apply rtc_once, write_audit | ].

Lemma insert_accepted_write self op k req hash st d r d' :
  insert_accepted self op k req hash st d = (r, d') → rtc (write self) d d'.
Proof.
  unfold insert_accepted. intros H. owned_cases H. unfold insert_accepted_tx in H.
  apply tx_bind_inr in H as ([]&d1&Hs&H).
  assert (d1 = d) as ->.
  { unfold summary_admission in Hs. apply tx_bind_inr in Hs as (?&?&[-> ->]%tx_gets_inr&Hs).
    by destruct (_ && _); inv_tx. }
  apply tx_bind_inr in H as (?&?&[-> ->]%tx_gets_inr&H).
  destruct (ops d !! _) eqn:Hop; inv_tx; [constructor|].
  apply rtc_once, write_insert; [done..|]. by constructor; auto.
Qed.

Lemma promote_write self op prov epoch d r d' :
  promote self op prov epoch d = (r, d') → rtc (write self) d d'.
Proof.
  unfold promote. intros H. owned_cases H. unfold promote_tx in H.
  apply tx_bind_inr in H as ([]&d1&Hh&H).
  assert (d1 = d) as ->.
  { unfold hold_admits in Hh. apply tx_bind_inr in Hh as (?&?&[-> ->]%tx_gets_inr&Hh).
    by repeat case_match; inv_tx. }
  apply tx_bind_inr in H as (?&?&[-> ->]%tx_gets_inr&H).
  destruct (any_unknown _ d); [inv_tx; constructor|].
  apply tx_bind_inr in H as (?&?&[-> ->]%tx_gets_inr&H).
  eapply update_owned_write in H as [? _]; [done..|]. solve_moves.
Qed.

Lemma cancel_accepted_write self op why k d r d' :
  cancel_accepted self op why k d = (r, d') → rtc (write self) d d'.
Proof.
  unfold cancel_accepted. intros H. owned_cases H. inv_tx.
  unfold alter_cancelled, set_ops.
  destruct (ops d !! (own_node_id self, op)) as [r1|] eqn:Hop.
  - destruct (owned_in self Accepted r1) eqn:Hin.
    + apply owned_in_true in Hin as [Hs Hg]. apply rtc_once.
      apply (write_row self d op r1); [done..|]. revert r1 Hs Hop Hg. solve_moves.
    + destruct d; constructor.
  - apply rtc_once. apply (write_insert self d op); [done..|]. by constructor; auto.
Qed.

Lemma mark_unknown_write self op why obs d r d' :
  mark_unknown self op why obs d = (r, d') → rtc (write self) d d'.
Proof.
  unfold mark_unknown. intros H. owned_cases H.
  eapply update_owned_write in H as [? _]; [done..|]. solve_moves.
Qed.

Lemma resolve_unknown_write self op ev d r d' :
  resolve_unknown self op ev d = (r, d') → rtc (write self) d d'.
Proof.
  unfold resolve_unknown. intros H. owned_cases H.
  apply tx_bind_inr in H as (?&?&[-> ->]%tx_gets_inr&H).
  apply tx_bind_inr in H as (b&d1&Hu&H).
  eapply update_owned_write in Hu as [Hw _]; [|done|solve_moves].
  etrans; [exact Hw|]. destruct b; simpl in H; inv_tx; [|constructor].
  apply rtc_once, write_audit.
Qed.

Lemma checkpoint_write self op obs d r d' :
  checkpoint self op obs d = (r, d') → rtc (write self) d d'.
Proof.
  unfold checkpoint. intros H. owned_cases H.
  apply tx_bind_inr in H as (b&d1&Hu&H). inv_tx.
  eapply update_owned_write in Hu as [Hw _]; [done..|]. solve_moves.
Qed.

Lemma finish_write self op st term res why replay d r d' :
  finish self op st term res why replay d = (r, d') → rtc (write self) d d'.
Proof.
  unfold finish. destruct (_ || _) eqn:Hst; [|by intros [= _ <-]]. intros H.
  assert (st = OpCompleted ∨ st = OpFailed) as Hst'.
  { by rewrite orb_true_iff, !bool_decide_eq_true in Hst. }
  owned_cases H.
  apply tx_bind_inr in H as (?&?&[-> ->]%tx_gets_inr&H).
  apply tx_bind_inr in H as (b&d1&Hu&H).
  eapply update_owned_write in Hu as [Hw Hb]; [|done|].
  2:{ intros r1 Hr1. constructor; simpl; rewrite ?Hr1;
      [done|done|destruct Hst'; subst; constructor|
       by rewrite bool_decide_eq_false_2 by (by destruct Hst'; subst; intros [??])|
       by destruct Hst'; subst]. }
  etrans; [exact Hw|].
  apply tx_bind_inr in H as ([]&d2&Hs&H). inv_tx.
  destruct b; simpl in Hs; [|inv_tx; constructor].
  unfold store_result in Hs. apply tx_bind_inr in Hs as (?&?&[-> ->]%tx_gets_inr&Hs).
  destruct res as [res|]; [|inv_tx; constructor].
  destruct (results d1 !! _) eqn:Hres; inv_tx.
  destruct (Hb eq_refl) as (r1&Hr1&_&->).
  apply rtc_once. eapply write_result; [done|by apply lookup_insert_eq|done|done].
Qed.

Lemma unsent_write self op why d r d' :
  unsent_after_promotion self op why d = (r, d') → rtc (write self) d d'.
Proof.
  unfold unsent_after_promotion. intros H. owned_cases H.
  apply tx_bind_inr in H as (?&?&[-> ->]%tx_gets_inr&H).
  eapply update_owned_write in H as [Hw _]; [done..|]. solve_moves.
Qed.

Lemma repin_write self op runtime ref digest d r d' :
  repin self op runtime ref digest d = (r, d') → rtc (write self) d d'.
Proof.
  unfold repin. intros H. owned_cases H. inv_tx. by apply rtc_once, write_models.
Qed.

#[export] Hint Resolve insert_accepted_write promote_write cancel_accepted_write
  mark_unknown_write resolve_unknown_write checkpoint_write finish_write unsent_write
  repin_write : nexus.

(** ** What a promotion that returns true has established *)

(** The hold lets a send through: open, or closed at the restore's epoch. *)
Definition hold_lets (maintenance_epoch : option Z) (h : option hold_row) : Prop :=
  match maintenance_epoch, h with
  | _, None => False
  | None, Some row => admission_closed row = false
  | Some epoch, Some row => admission_closed row = true ∧ hold_epoch row = epoch
  end.

Lemma hold_admits_inr epoch d u d' :
  hold_admits epoch d = inr (u, d') ↔ hold_lets epoch (hold d) ∧ d' = d.
Proof.
  destruct u. unfold hold_admits, hold_lets, and_then, mbind, tx_bind, gets, commit, raise; simpl.
  destruct epoch as [e|], (hold d) as [row|]; try naive_solver.
  - destruct (admission_closed row); simpl; [case_bool_decide|]; naive_solver.
  - destruct (admission_closed row); naive_solver.
Qed.

Lemma promote_true self op prov epoch d d' :
  promote self op prov epoch d = (inr true, d') ↔
  owns self d ∧ hold_lets epoch (hold d) ∧ any_unknown (own_node_id self) d = false ∧
  ∃ r, ops d !! (own_node_id self, op) = Some r ∧ state r = Accepted ∧
    owner_generation r = own_generation self ∧
    d' = set_ops <[(own_node_id self, op) :=
           set_state Running (set_running_at (clock d) (merge_provenance prov r))]> d.
Proof.
  split.
  - intros H. apply run_owned_cases in H as [(_&?&_)|[(_&?&_&?&_)|(Ho&b&H&[= <-])]]; [done|done|].
    unfold promote_tx in H. apply tx_bind_inr in H as (u&d1&[Hh ->]%hold_admits_inr&H).
    apply tx_bind_inr in H as (?&?&[-> ->]%tx_gets_inr&H).
    destruct (any_unknown _ d) eqn:Hu; [by inv_tx|].
    apply tx_bind_inr in H as (?&?&[-> ->]%tx_gets_inr&H).
    apply update_op_inr in H as [(_&r&Hr&[? ?]%owned_in_true&->)|(?&_)]; [|done].
    split_and!; [done..|]. by exists r.
  - intros (Ho&Hh&Hu&r&Hr&Hs&Hg&->). unfold promote, run_owned, and_then at 1, mbind, tx_bind.
    rewrite (proj2 (prove_ownership_inr self d tt d) (conj Ho eq_refl)).
    assert (promote_tx self op prov epoch d = inr (true, set_ops <[(own_node_id self, op) :=
      set_state Running (set_running_at (clock d) (merge_provenance prov r))]> d)) as ->; [|done].
    unfold promote_tx. apply tx_bind_inr. exists tt, d. split; [by apply hold_admits_inr|].
    apply tx_bind_inr. exists false, d. split; [by rewrite <- Hu|].
    apply tx_bind_inr. exists (clock d), d. split; [done|].
    apply update_op_inr. left. split; [done|]. exists r. split_and!; [done| |done].
    by apply owned_in_true.
Qed.

(** ** What ends an unknown outcome *)

(** What [resolve_unknown] writes into the row it resolves. *)
Definition resolved_row (now : Z) (evidence : json) (r : op_row) : op_row :=
  set_state OpFailed
    (set_reason (Some "resolved_by_reset")
       (set_terminal (JObj [("resolution", JStr "operator_reset")])
          (set_resolved now "operator"
             (merge_provenance [("resolution", evidence)] r)))).

Lemma resolve_unknown_true self op ev d d' :
  resolve_unknown self op ev d = (inr true, d') →
  owns self d ∧ ∃ r, ops d !! (own_node_id self, op) = Some r ∧ state r = OutcomeUnknown ∧
    owner_generation r = own_generation self ∧
    d' = add_audit (mk_audit (own_node_id self) (Some op) "resolved_by_reset" ev)
           (set_ops <[(own_node_id self, op) := resolved_row (clock d) ev r]> d).
Proof.
  intros H. apply run_owned_cases in H as [(_&?&_)|[(_&?&_&?&_)|(Ho&b&H&[= <-])]]; [done|done|].
  split; [done|]. apply tx_bind_inr in H as (?&?&[-> ->]%tx_gets_inr&H).
  apply tx_bind_inr in H as (b&d1&Hu&H).
  apply update_op_inr in Hu as [(->&r&Hr&[Hs Hg]%owned_in_true&->)|(->&->&_)]; simpl in H; inv_tx.
  exists r. split_and!; done.
Qed.

(** A fenced call whose body keeps a row keeps it. *)
Lemma run_owned_keeps {A} self action op (body : dbtx A) k r d out d' :
  ops d !! k = Some r →
  (∀ x d1, body d = inr (x, d1) → ops d1 !! k = Some r) →
  run_owned self action op body d = (out, d') → ops d' !! k = Some r.
Proof.
  intros Hr Hb [(_&_&?&->)|[(_&?&_&_&[->|[? ->]])|(_&x&H&_)]]%run_owned_cases; eauto.
Qed.

(** An update of rows in another state keeps an unknown one. *)
Lemma update_op_keeps self n op from f k r d b d' :
  update_op n op (owned_in self from) f d = inr (b, d') →
  ops d !! k = Some r → state r = OutcomeUnknown → from ≠ OutcomeUnknown → ops d' !! k = Some r.
Proof.
  intros [(_&r1&Hr1&[Hs1 _]%owned_in_true&->)|(_&->&_)]%update_op_inr Hr Hs Hne; [|done].
  simpl. rewrite lookup_insert_ne; [done|]. intros <-. congruence.
Qed.

(** Every store call but a resolution leaves an unknown row as it is. *)
Lemma perform_keeps_unknown self q k r d out d' :
  ops d !! k = Some r → state r = OutcomeUnknown → perform self q d = (out, d') →
  ops d' !! k = Some r ∨
  ∃ op ev, k = (own_node_id self, op) ∧ resolve_unknown self op ev d = (inr true, d').
Proof.
  intros Hr Hs. destruct q as [op kd req hash st|op prov ep|op why kd|op why obs|op ev|op obs
    |op st term res why rep|op why|op rt ref dg]; simpl; unfold reply_with;
    match goal with |- context [?f d] => destruct (f d) as [o d1] eqn:H end; simpl; intros [= _ <-].
  all: lazymatch type of H with
       | resolve_unknown _ _ _ _ = _ => idtac
       | finish _ _ _ _ _ _ _ _ = _ => idtac
       | _ => left; eapply run_owned_keeps; [exact Hr| |exact H]; intros x d2 Hx
       end.
  - unfold insert_accepted_tx in Hx. apply tx_bind_inr in Hx as ([]&d3&Hsum&Hx).
    assert (d3 = d) as ->.
    { unfold summary_admission in Hsum. apply tx_bind_inr in Hsum as (?&?&[-> ->]%tx_gets_inr&Hsum).
      by destruct (_ && _); inv_tx. }
    apply tx_bind_inr in Hx as (?&?&[-> ->]%tx_gets_inr&Hx).
    destruct (ops d !! (own_node_id self, op)) eqn:Hop; inv_tx; [done|].
    simpl. rewrite lookup_insert_ne; congruence.
  - unfold promote_tx in Hx. apply tx_bind_inr in Hx as (u&d3&[_ ->]%hold_admits_inr&Hx).
    apply tx_bind_inr in Hx as (?&?&[-> ->]%tx_gets_inr&Hx).
    destruct (any_unknown _ d); [by inv_tx|].
    apply tx_bind_inr in Hx as (?&?&[-> ->]%tx_gets_inr&Hx). by eapply update_op_keeps.
  - inv_tx. unfold alter_cancelled. destruct (ops d !! (own_node_id self, op)) as [r1|] eqn:Hop.
    + destruct (owned_in self Accepted r1) eqn:Hin; [|done].
      apply owned_in_true in Hin as [? _]. simpl. rewrite lookup_insert_ne; congruence.
    + simpl. rewrite lookup_insert_ne; congruence.
  - by eapply update_op_keeps.
  - destruct (run_owned_cases _ _ _ _ _ _ _ H) as [(_&_&?&->)|[(_&?&_&_&[->|[? ->]])|(_&b&Hb&->)]];
      [by left..|]. destruct (decide (b = true ∧ k = (own_node_id self, op))) as [[-> ->]|Hne].
    { right. exists op, ev. done. }
    left. apply tx_bind_inr in Hb as (?&?&[-> ->]%tx_gets_inr&Hb).
    apply tx_bind_inr in Hb as (b1&d3&Hu&Hb).
    assert (b1 = b) as -> by (destruct b1; simpl in Hb; inv_tx; done).
    apply update_op_inr in Hu as [(->&r1&Hr1&_&->)|(->&->&_)]; simpl in Hb; inv_tx; [|done].
    simpl. rewrite lookup_insert_ne; [done|]. naive_solver.
  - apply tx_bind_inr in Hx as (b&d3&Hu&Hx). inv_tx. by eapply update_op_keeps.
  - left. unfold finish in H. destruct (_ || _); [|by injection H as _ <-].
    eapply run_owned_keeps; [exact Hr| |exact H]. intros x d2 Hx.
    apply tx_bind_inr in Hx as (?&?&[-> ->]%tx_gets_inr&Hx).
    apply tx_bind_inr in Hx as (b&d3&Hu&Hx). apply tx_bind_inr in Hx as ([]&d4&Hres&Hx).
    eapply update_op_keeps in Hu; [|done..]. inv_tx.
    destruct b; simpl in Hres; [|by inv_tx]. unfold store_result in Hres.
    apply tx_bind_inr in Hres as (?&?&[-> ->]%tx_gets_inr&Hres).
    by destruct res as [j|]; [destruct (results d3 !! _)|]; inv_tx.
  - apply tx_bind_inr in Hx as (?&?&[-> ->]%tx_gets_inr&Hx). by eapply update_op_keeps.
  - by inv_tx.
Qed.

(** A call by anyone but the owner writes its own audit row and nothing else. *)
Lemma perform_not_owner self q d r d' :
  ¬ owns self d → perform self q d = (r, d') →
  (r = inl (NotOwner (generation <$> agents d !! own_node_id self)) ∧
     ∃ a, d' = add_audit a d ∧ audit_node a = own_node_id self) ∨
  (r = inl ValueError ∧ d' = d ∧ ∃ op st t res why rep, q = QFinish op st t res why rep ∧
     st ≠ OpCompleted ∧ st ≠ OpFailed).
Proof.
  intros Hno. assert (∀ A action op (body : dbtx A),
    ∃ det, run_owned self action op body d =
      (inl (NotOwner (generation <$> agents d !! own_node_id self)),
       add_audit (mk_audit (own_node_id self) op ("stale_" +:+ action) det) d)) as Hrun.
  { intros A action op body. destruct (run_owned self action op body d) as [x dx] eqn:H.
    apply run_owned_cases in H as [(_&->&det&->)|[(?&_)|(?&_)]]; [|done..]. by exists det. }
  destruct q; simpl; unfold reply_with, insert_accepted, promote, cancel_accepted, mark_unknown,
    resolve_unknown, checkpoint, finish, unsent_after_promotion, repin.
  7: { destruct (_ || _) eqn:Hst.
       - match goal with |- context [run_owned self ?a ?o ?b d] =>
           destruct (Hrun _ a o b) as [det ->] end.
         simpl. intros [= <- <-]. left. split; [done|]. by eexists.
       - simpl. intros [= <- <-]. right. split_and!; [done..|].
         apply orb_false_iff in Hst as [?%bool_decide_eq_false ?%bool_decide_eq_false].
         by repeat eexists. }
  all: match goal with |- context [run_owned _ ?a ?o ?b _] =>
         destruct (Hrun _ a o b) as [det ->] end;
       simpl; intros [= <- <-]; left; (split; [done|]); by eexists.
Qed.

(** When exactly a promotion is granted, and all that it writes: the
    caller is the node's current agent by generation and boot, the maintenance
    hold admits it (open for an ordinary send; closed at exactly the given
    epoch for a restore), nothing on the node is unknown, and the row is its
    own and still accepted.  Then that row becomes running with its start time
    and provenance, and nothing else changes. *)
Theorem promote_grants_exactly self op prov epoch d d' :
  promote self op prov epoch d = (inr true, d') ↔
  owns self d ∧
  (∃ h, hold d = Some h ∧ match epoch with
     | None => admission_closed h = false
     | Some e => admission_closed h = true ∧ hold_epoch h = e
     end) ∧
  (∀ op2 r2, ops d !! (own_node_id self, op2) = Some r2 → state r2 ≠ OutcomeUnknown) ∧
  ∃ r, ops d !! (own_node_id self, op) = Some r ∧ state r = Accepted ∧
    owner_generation r = own_generation self ∧
    d' = set_ops <[(own_node_id self, op) :=
           set_state Running (set_running_at (clock d) (merge_provenance prov r))]> d.
Proof.
  rewrite promote_true, any_unknown_false. apply and_iff_compat_l, and_iff_compat_r.
  unfold hold_lets. destruct epoch, (hold d); naive_solver.
Qed.
