(* ===== verification/Election.v ===== *)
(** Becoming the node's agent, and releasing it from a previous kernel
    ([src/backend/app/node_agent/election.py], [release_kernel.py]).

    [claim] and [release_previous_kernel] are transactions over the tables of
    [NodeStore] plus the session advisory lock that elects the agent.  [step]
    is everything that can happen to one platform's node tables: any process
    calling any store operation under any ownership it believes it has, any
    claimant, any release, and the environment.  The invariants and the
    evolution of operations are proved by induction over it. *)

From S2P Require Export NodeStore.

(** * State *)

(** The election lock of each node: the backend that holds it, and how often. *)
Abbreviation election_locks := (gmap string (Z * nat)).

Record cluster := mk_cluster { cdb : db; locks : election_locks }.

(** What [claim] asks of the host lock it is handed. *)
Record host_lock_view := mk_host_lock { hl_still_held : bool; hl_domain_id : string }.

Record Elected := mk_elected {
  ownership : Ownership;
  backend_pid : Z;
  converted_unknown : nat;
  converted_unsent : nat
}.

Inductive refusal : Type :=
  | HostLockGone
  | AnotherAgent
  | NodeNotRegistered
  | NoAgentRow
  | BoundElsewhere (bound : option string)
  | KernelChanged (open_rows : nat)
  | NothingToRelease
  | WrongPreviousKernel (recorded : option string)
  | BadInvocation.

Abbreviation eltx := (tx db refusal).

Definition set_nodes (f : gmap string (option string) → gmap string (option string)) (d : db) : db :=
  mk_db (clock d) (f (nodes d)) (agents d) (ops d) (results d) (audit_log d) (hold d) (models d).
Definition set_agents (f : gmap string agent_row → gmap string agent_row) (d : db) : db :=
  mk_db (clock d) (nodes d) (f (agents d)) (ops d) (results d) (audit_log d) (hold d) (models d).

(** [pg_try_advisory_lock] and [pg_advisory_unlock] of one session. *)
Definition try_lock (n : string) (pid : Z) (l : election_locks) : option election_locks :=
  match l !! n with
  | None => Some (<[n := (pid, 1)]> l)
  | Some (holder, count) =>
      if bool_decide (holder = pid) then Some (<[n := (pid, S count)]> l) else None
  end.

Definition unlock (n : string) (pid : Z) (l : election_locks) : election_locks :=
  match l !! n with
  | Some (holder, S (S count)) => if bool_decide (holder = pid) then <[n := (pid, S count)]> l else l
  | Some (holder, _) => if bool_decide (holder = pid) then delete n l else l
  | None => l
  end.

(** * Operations *)

(** [UPDATE node_operations SET ... WHERE node_id = n AND state = from]. *)
Definition update_all (n : string) (from : op_state) (f : op_row → op_row)
    (rows : gmap (string * string) op_row) : gmap (string * string) op_row :=
  map_imap (λ k r, Some (if bool_decide (k.1 = n ∧ state r = from) then f r else r)) rows.

Definition count_rows (n : string) (p : op_state → bool) (d : db) : nat :=
  size (filter (λ kr, kr.1.1 = n ∧ p (state kr.2) = true) (ops d)).

(** [state IN ('running', 'outcome_unknown')] *)
Definition in_flight (s : op_state) : bool := bool_decide (s ∈ [Running; OutcomeUnknown]).

Definition orphaned_unknown (gen : Z) (takeover : dict) (r : op_row) : op_row :=
  set_state OutcomeUnknown
    (set_owner gen (set_reason (Some "orphaned_by_takeover") (merge_provenance takeover r))).

Definition orphaned_unsent (gen now : Z) (takeover : dict) (r : op_row) : op_row :=
  set_state CancelledUnsent
    (set_owner gen (set_reason (Some "orphaned_by_takeover")
      (set_resolved now "takeover" (merge_provenance takeover r)))).

(** The node's open work, handed to the new generation: running becomes
    unknown, accepted becomes unsent, every unknown is re-owned. *)
Definition take_over (n : string) (gen now : Z) (takeover : dict)
    (rows : gmap (string * string) op_row) : gmap (string * string) op_row :=
  update_all n OutcomeUnknown (set_owner gen)
    (update_all n Accepted (orphaned_unsent gen now takeover)
      (update_all n Running (orphaned_unknown gen takeover) rows)).

Section Claim.
Context (lock : host_lock_view) (node_id : string) (kernel : option string)
  (pid : Z) (new_boot_id : string).

(** Bind the node's lock domain on its first claim; it never moves after. *)
Definition bind_domain : eltx unit :=
  let! bound := gets (λ d, nodes d !! node_id) in
  match bound with
  | None => raise NodeNotRegistered
  | Some None => modify (set_nodes <[node_id := Some (hl_domain_id lock)]>)
  | Some (Some domain) =>
      if bool_decide (domain = hl_domain_id lock) then commit tt
      else raise (BoundElsewhere (Some domain))
  end.

(** Same domain, another kernel: only when nothing can be in flight. *)
Definition check_kernel (previous : agent_row) : eltx unit :=
  let! open_rows := gets (count_rows node_id in_flight) in
  if bool_decide (kernel_boot_id previous ≠ None ∧ kernel ≠ kernel_boot_id previous) &&
     negb (open_rows =? 0)%nat
  then raise (KernelChanged open_rows) else commit tt.

Definition fresh_agent : agent_row := mk_agent 0 None None None None.

(** [INSERT INTO node_agents ... ON CONFLICT DO NOTHING], then the row. *)
Definition agent_for_update : eltx agent_row :=
  let! _ := modify (set_agents (λ a,
    match a !! node_id with Some _ => a | None => <[node_id := fresh_agent]> a end)) in
  let! row := gets (λ d, agents d !! node_id) in
  match row with Some a => commit a | None => raise NoAgentRow end.

Definition claim_tx : eltx Elected :=
  let! registered := gets (λ d, nodes d !! node_id) in
  let! _ := match registered with Some _ => commit tt | None => raise NodeNotRegistered end in
  let! previous := agent_for_update in
  let! _ := bind_domain in
  let! _ := check_kernel previous in
  let! now := gets clock in
  let gen := (generation previous + 1)%Z in
  let! _ := modify (set_agents
    <[node_id := mk_agent gen (Some new_boot_id) kernel (Some pid) (Some now)]>) in
  let takeover := [("takeover_by_generation", JInt gen);
                   ("previous_generation", JInt (generation previous));
                   ("previous_boot_id", jopt_str (boot_id previous))] in
  let! unknown := gets (count_rows node_id (λ s, bool_decide (s = Running))) in
  let! unsent := gets (count_rows node_id (λ s, bool_decide (s = Accepted))) in
  let! _ := modify (set_ops (take_over node_id gen now takeover)) in
  let! _ := modify (add_audit (mk_audit node_id None "takeover"
    (JObj [("generation", JInt gen);
           ("boot_id", JStr new_boot_id);
           ("kernel_boot_id", jopt_str kernel);
           ("domain_id", JStr (hl_domain_id lock));
           ("previous_generation", JInt (generation previous));
           ("previous_boot_id", jopt_str (boot_id previous));
           ("previous_kernel_boot_id", jopt_str (kernel_boot_id previous));
           ("converted_unknown", JInt (Z.of_nat unknown));
           ("converted_unsent", JInt (Z.of_nat unsent))]))) in
  commit (mk_elected (mk_ownership node_id gen new_boot_id) pid unknown unsent).

Definition claim (c : cluster) : (refusal + Elected) * cluster :=
  if negb (hl_still_held lock) then (inl HostLockGone, c)
  else match try_lock node_id pid (locks c) with
       | None => (inl AnotherAgent, c)
       | Some held =>
           match claim_tx (cdb c) with
           | inl why => (inl why, mk_cluster (cdb c) (unlock node_id pid held))
           | inr (elected, d) => (inr elected, mk_cluster d held)
           end
       end.
End Claim.

(** [None] is a check that failed: a terminated session raises. *)
Definition still_elected (observed_pid : option Z) (won_pid : Z) : bool :=
  match observed_pid with Some pid => bool_decide (pid = won_pid) | None => false end.

(** The checks of the release command that need neither the lock nor the
    database. *)
Definition check_invocation (node current configured_node : string)
    (running_kernel : option string) : res refusal unit :=
  let! _ := ensure (bool_decide (node = configured_node)) BadInvocation in
  let! _ := ensure (bool_decide (running_kernel ≠ None)) BadInvocation in
  ensure (bool_decide (Some current = running_kernel)) BadInvocation.

Section Release.
Context (lock : host_lock_view) (node_id : string) (pid : Z)
  (previous_kernel current_kernel operator why : string).

(** The open operations, as the audit row names them. *)
Definition open_operations (d : db) : list (string * op_row) :=
  py_sorted (λ a b, match Z.compare (submitted_at (ident a.2)) (submitted_at (ident b.2)) with
                    | Lt => true | Gt => false | Eq => String.leb a.1 b.1 end)
    (omap (λ kr, if bool_decide (kr.1.1 = node_id ∧ in_flight (state kr.2) = true)
                 then Some (kr.1.2, kr.2) else None) (map_to_list (ops d))).

(** [dict(row)] of [op_id, kind, state, origin_generation]. *)
Definition op_json (row : string * op_row) : json :=
  JObj [("op_id", JStr row.1); ("kind", JStr (op_kind_value (kind (ident row.2))));
        ("state", JStr (op_state_value (state row.2)));
        ("origin_generation", JInt (origin_generation (ident row.2)))].

Definition release_next : string :=
  "start the agent, then resolve each operation with app.node_agent.resolve".

Definition set_kernel (k : string) (a : agent_row) : agent_row :=
  mk_agent (generation a) (boot_id a) (Some k) (election_backend_pid a) (started_at a).

Definition release_tx : eltx dict :=
  let! row := gets (λ d, agents d !! node_id) in
  match row with
  | None => raise NoAgentRow
  | Some agent =>
      let! bound := gets (λ d, nodes d !! node_id) in
      if negb (bool_decide (mjoin bound = Some (hl_domain_id lock)))
      then raise (BoundElsewhere (mjoin bound))
      else if negb (bool_decide (kernel_boot_id agent = Some previous_kernel))
      then raise (WrongPreviousKernel (kernel_boot_id agent))
      else
        let! rows := gets open_operations in
        match rows with
        | [] => raise NothingToRelease
        | _ =>
            let! _ := modify (set_agents (alter (set_kernel current_kernel) node_id)) in
            let detail :=
              [("operator", JStr operator); ("reason", JStr why);
               ("previous_kernel_boot_id", JStr previous_kernel);
               ("current_kernel_boot_id", JStr current_kernel);
               ("domain_id", JStr (hl_domain_id lock));
               ("generation", JInt (generation agent));
               ("boot_id", jopt_str (boot_id agent));
               ("operations", JArr (op_json <$> rows))] in
            let! _ := modify (add_audit (mk_audit node_id None "kernel_released" (JObj detail))) in
            commit (dict_set "next" (JStr release_next) detail)
        end
  end.

Definition release_previous_kernel (c : cluster) : (refusal + dict) * cluster :=
  if String.eqb (py_strip operator) "" || String.eqb (py_strip why) "" then (inl BadInvocation, c)
  else if String.eqb previous_kernel "" || String.eqb current_kernel "" then (inl BadInvocation, c)
  else if String.eqb previous_kernel current_kernel then (inl BadInvocation, c)
  else if negb (hl_still_held lock) then (inl HostLockGone, c)
  else match try_lock node_id pid (locks c) with
       | None => (inl AnotherAgent, c)
       | Some held =>
           match release_tx (cdb c) with
           | inl refused => (inl refused, mk_cluster (cdb c) (unlock node_id pid held))
           | inr (detail, d) => (inr detail, mk_cluster d (unlock node_id pid held))
           end
       end.
End Release.

(** * The system: every process, and the environment *)

Inductive step : cluster → cluster → Prop :=
  | step_claim lock n kernel pid boot c r c' :
      claim lock n kernel pid boot c = (r, c') → step c c'
  | step_release lock n pid previous current operator why c r c' :
      release_previous_kernel lock n pid previous current operator why c = (r, c') → step c c'
  | step_store self q c r d' :
      perform self q (cdb c) = (r, d') → step c (mk_cluster d' (locks c))
  | step_audit self event op detail c :
      step c (mk_cluster (audit self event op detail (cdb c)) (locks c))
  | step_session_end pid c :
      step c (mk_cluster (cdb c) (filter (λ kv, kv.2.1 ≠ pid) (locks c)))
  | step_tick t c :
      (clock (cdb c) ≤ t)%Z →
      step c (mk_cluster (mk_db t (nodes (cdb c)) (agents (cdb c)) (ops (cdb c)) (results (cdb c))
                                (audit_log (cdb c)) (hold (cdb c)) (models (cdb c))) (locks c))
  | step_hold h c :
      step c (mk_cluster (mk_db (clock (cdb c)) (nodes (cdb c)) (agents (cdb c)) (ops (cdb c))
                                (results (cdb c)) (audit_log (cdb c)) h (models (cdb c))) (locks c))
  | step_register n c :
      nodes (cdb c) !! n = None → step c (mk_cluster (set_nodes <[n := None]> (cdb c)) (locks c))
  | step_models f c : step c (mk_cluster (set_models f (cdb c)) (locks c)).

(** A platform before anything was accepted. *)
Definition initial (c : cluster) : Prop :=
  agents (cdb c) = ∅ ∧ ops (cdb c) = ∅ ∧ results (cdb c) = ∅ ∧ locks c = ∅.

Definition reachable (c : cluster) : Prop := ∃ c0, initial c0 ∧ rtc step c0 c.

(** * The invariant *)

(** What a row's timestamps say of its state. *)
Record row_times (now : Z) (r : op_row) : Prop := {
  times_submitted : (submitted_at (ident r) ≤ now)%Z;
  times_running : ∀ t, running_at r = Some t → (submitted_at (ident r) ≤ t ≤ now)%Z;
  times_resolved : ∀ t, resolved_at r = Some t →
    (submitted_at (ident r) ≤ t ≤ now)%Z ∧ ∀ t', running_at r = Some t' → (t' ≤ t)%Z;
  times_terminal : is_Some (resolved_at r) ↔ terminal_state (state r) = true;
  times_sent : state r ∈ [Running; OutcomeUnknown; OpCompleted; OpFailed] → is_Some (running_at r);
  times_accepted : state r = Accepted → running_at r = None
}.

(** A row belongs to an elected generation, and open work to the current one. *)
Record row_owned (g : Z) (r : op_row) : Prop := {
  owned_origin : (1 ≤ origin_generation (ident r) ≤ owner_generation r)%Z;
  owned_le : (owner_generation r ≤ g)%Z;
  owned_open : open_state (state r) = true → owner_generation r = g
}.

Record db_wf (d : db) : Prop := {
  wf_agents : ∀ n a, agents d !! n = Some a →
    (0 ≤ generation a)%Z ∧ is_Some (nodes d !! n) ∧
    ((1 ≤ generation a)%Z → ∃ dom, nodes d !! n = Some (Some dom)) ∧
    (is_Some (boot_id a) → (1 ≤ generation a)%Z);
  wf_ops : ∀ n op r, ops d !! (n, op) = Some r →
    row_times (clock d) r ∧ ∃ a, agents d !! n = Some a ∧ row_owned (generation a) r;
  wf_results : ∀ n op j, results d !! (n, op) = Some j →
    ∃ r, ops d !! (n, op) = Some r ∧ (state r = OpCompleted ∨ state r = OpFailed)
}.

(** * Evolution: what no step can undo *)

Record row_evolves (r r' : op_row) : Prop := {
  evolves_ident : ident r' = ident r;
  evolves_state : rtc op_step (state r) (state r');
  evolves_owner : (owner_generation r ≤ owner_generation r')%Z;
  evolves_final : terminal_state (state r) = true → r' = r
}.

#[export] Instance row_evolves_preorder : PreOrder row_evolves.
Proof.
  split.
  - intros r. split; [done|constructor|lia|done].
  - intros r1 r2 r3 [? ? ? H1] [? ? ? H2]. split; [congruence|by etrans|lia|].
    intros Ht. specialize (H1 Ht). subst r2. auto.
Qed.

Record db_evolves (d d' : db) : Prop := {
  evolves_ops : ∀ k r, ops d !! k = Some r → ∃ r', ops d' !! k = Some r' ∧ row_evolves r r';
  evolves_results : results d ⊆ results d';
  evolves_agents : ∀ n a, agents d !! n = Some a → ∃ a', agents d' !! n = Some a' ∧
    (generation a ≤ generation a')%Z ∧ (generation a = generation a' → boot_id a' = boot_id a);
  evolves_audit : audit_log d `prefix_of` audit_log d';
  evolves_domain : ∀ n dom, nodes d !! n = Some (Some dom) → nodes d' !! n = Some (Some dom)
}.

#[export] Instance db_evolves_preorder : PreOrder db_evolves.
Proof.
  split.
  - intros d. split; [intros; eexists; by split|done| |done|done].
    intros n a Ha. exists a. split_and!; [done|lia|done].
  - intros d1 d2 d3 [o1 r1 a1 l1 n1] [o2 r2 a2 l2 n2]. split.
    + intros k r (r'&Hr'&?)%o1. destruct (o2 _ _ Hr') as (r''&?&?). exists r''. split; [done|by etrans].
    + by etrans.
    + intros n a (a'&Ha'&?&Hb)%a1. destruct (a2 _ _ Ha') as (a''&?&?&Hb'). exists a''.
      split_and!; [done|lia|]. intros Heq. rewrite Hb', Hb by lia. done.
    + by etrans.
    + auto.
Qed.

(** ** Store writes keep the invariant and evolve the tables *)

Lemma op_step_open s s' : op_step s s' → open_state s = true.
Proof. by destruct 1. Qed.

Lemma moves_times now now' r r' :
  (now ≤ now')%Z → row_times now r → moves now' r r' → row_times now' r'.
Proof.
  intros Hle [Hs Hr Hres Hterm Hsent Hacc] [Hi Ho Hst Hrun Hresd].
  assert (resolved_at r = None) as Hn.
  { destruct (resolved_at r) eqn:?; [|done].
    apply op_step_open in Hst. unfold open_state in Hst.
    by rewrite (proj1 Hterm) in Hst by eauto. }
  split; rewrite ?Hi.
  - lia.
  - intros t. rewrite Hrun. case_bool_decide; [intros [= <-]; lia|].
    intros Ht%Hr. lia.
  - intros t. rewrite Hresd, Hrun, Hn. case_match; [|done]. intros [= <-].
    split; [lia|]. intros t'. case_bool_decide; [intros [= <-]; lia|]. intros ?%Hr. lia.
  - rewrite Hresd, Hn. by destruct (terminal_state (state r')); split.
  - intros Hin. rewrite Hrun. case_bool_decide as Hd; [eauto|]. apply Hsent.
    destruct Hst; set_solver.
  - intros Ha. rewrite Ha in Hst. inversion Hst.
Qed.

Lemma born_times self now r : born self now r → row_times now r.
Proof.
  intros [_ _ _ Hsub Hst Hrun Hres]. split; rewrite ?Hsub, ?Hrun, ?Hres.
  - lia.
  - done.
  - intros t. case_match; [|done]. intros [= <-]. split; [lia|done].
  - by destruct (terminal_state (state r)); split.
  - destruct Hst as [-> | ->]; set_solver.
  - done.
Qed.

Lemma moves_evolves now r r' : moves now r r' → row_evolves r r'.
Proof.
  intros [Hi Ho Hst _ _]. split; [done|by apply rtc_once|lia|].
  apply op_step_open in Hst. unfold open_state in Hst. by destruct (terminal_state _).
Qed.

(** Replacing one row, whichever the step. *)
Lemma set_ops_wf d k r :
  db_wf d →
  row_times (clock d) r ∧ (∃ a, agents d !! k.1 = Some a ∧ row_owned (generation a) r) →
  (∀ r0, ops d !! k = Some r0 → row_evolves r0 r) →
  db_wf (set_ops <[k := r]> d).
Proof.
  intros [Ha Ho Hres] Hr Hev. split; simpl; [done| |].
  - intros n op r1. rewrite lookup_insert_Some. intros [[-> <-]|[_ H]]; [done|eauto].
  - intros n op j Hj. destruct (Hres _ _ _ Hj) as (r0&Hr0&Hst).
    destruct (decide (k = (n, op))) as [->|Hne].
    + exists r. rewrite lookup_insert_eq. split; [done|].
      destruct (Hev _ Hr0) as [_ Hs _ _].
      assert (∀ s, rtc op_step (state r0) s → s = state r0) as Hstuck.
      { intros s Hs'. inversion Hs' as [|? y ? H1 _]; subst; [done|].
        destruct Hst as [E|E]; rewrite E in H1; inversion H1. }
      by rewrite (Hstuck _ Hs).
    + exists r0. by rewrite lookup_insert_ne.
Qed.

Lemma set_ops_evolves d k r :
  (∀ r0, ops d !! k = Some r0 → row_evolves r0 r) → db_evolves d (set_ops <[k := r]> d).
Proof.
  intros Hev. split; simpl; [|done| |done|done].
  - intros k' r' Hr'. destruct (decide (k = k')) as [->|Hne].
    + exists r. rewrite lookup_insert_eq. eauto.
    + exists r'. by rewrite lookup_insert_ne.
  - intros n a Ha. exists a. split_and!; [done|lia|done].
Qed.

Lemma same_tables_wf d d' :
  (clock d ≤ clock d')%Z → nodes d' = nodes d → agents d' = agents d → ops d' = ops d →
  results d' = results d → db_wf d → db_wf d'.
Proof.
  intros Hc Hn Ha Ho Hr [wa wo wr]. split; rewrite ?Hn, ?Ha, ?Ho, ?Hr; [done| |done].
  intros n op r H. destruct (wo n op r H) as [[Hs Hrun Hres ???] Ha']. split; [|done].
  split; try done; [lia| |].
  - intros t Ht%Hrun. lia.
  - intros t Ht%Hres. intuition lia.
Qed.

Lemma same_tables_evolves d d' :
  nodes d' = nodes d → agents d' = agents d → ops d' = ops d → results d ⊆ results d' →
  audit_log d `prefix_of` audit_log d' → db_evolves d d'.
Proof.
  intros Hn Ha Ho Hr Hl. split; rewrite ?Hn, ?Ha, ?Ho; [|done| |done|done].
  - intros k r H. exists r. by split.
  - intros n a H. exists a. split_and!; [done|lia|done].
Qed.

Lemma write_sound self d d' : write self d d' → db_wf d → db_wf d' ∧ db_evolves d d'.
Proof.
  destruct 1 as [d a|d op r (a&Ha&Hg&Hb) Hnone Hborn|d op r r' (a&Ha&Hg&Hb) Hr Hown Hmv
                |d op r res _ Hr Hst Hnone|d f _]; intros Hwf.
  - split; [by eapply same_tables_wf; [..|exact Hwf]|].
    apply same_tables_evolves; try done. by eexists.
  - assert (∀ r0, ops d !! (own_node_id self, op) = Some r0 → row_evolves r0 r) as Hev
      by (by rewrite Hnone).
    split; [|by apply set_ops_evolves]. apply set_ops_wf; [done| |done].
    split; [by eapply born_times|]. exists a. split; [done|]. destruct Hborn.
    destruct (wf_agents _ Hwf _ _ Ha) as (_&_&_&Hb1).
    assert (1 ≤ generation a)%Z by (apply Hb1; rewrite Hb; eauto).
    split; [lia|lia|lia].
  - destruct (wf_ops _ Hwf _ _ _ Hr) as [Ht (a'&Ha'&Hro)].
    assert (∀ r0, ops d !! (own_node_id self, op) = Some r0 → row_evolves r0 r') as Hev.
    { intros r0 Hr0. rewrite Hr in Hr0. injection Hr0 as <-. by eapply moves_evolves. }
    split; [|by apply set_ops_evolves]. apply set_ops_wf; [done| |done].
    split; [by eapply moves_times|]. exists a'. split; [done|].
    destruct Hro as [H1 H2 H3], Hmv as [Hi Ho Hs _ _].
    simpl in *. assert (a' = a) as -> by congruence.
    split; rewrite ?Hi, ?Ho; [done|done|lia].
  - split.
    + destruct Hwf as [wa wo wr]. split; simpl; [done|done|].
      intros n op' j. rewrite lookup_insert_Some. intros [[[= <- <-] _]|[_ H]]; eauto.
    + apply same_tables_evolves; try done. by apply insert_subseteq.
  - split; [by eapply same_tables_wf; [..|exact Hwf]|by apply same_tables_evolves].
Qed.

Lemma writes_sound self d d' : rtc (write self) d d' → db_wf d → db_wf d' ∧ db_evolves d d'.
Proof.
  induction 1 as [|d1 d2 d3 H _ IH]; intros Hwf; [done|].
  destruct (write_sound _ _ _ H Hwf) as [Hwf2 ?]. destruct (IH Hwf2). split; [done|by etrans].
Qed.

(** ** Takeover *)

(** What a takeover leaves of one of the node's rows. *)
Definition taken_over (gen now : Z) (takeover : dict) (r : op_row) : op_row :=
  match state r with
  | Running => orphaned_unknown gen takeover r
  | Accepted => orphaned_unsent gen now takeover r
  | OutcomeUnknown => set_owner gen r
  | _ => r
  end.

Lemma lookup_update_all n from f rows k :
  update_all n from f rows !! k =
    (λ r, if bool_decide (k.1 = n ∧ state r = from) then f r else r) <$> rows !! k.
Proof. unfold update_all. rewrite map_lookup_imap. by destruct (rows !! k). Qed.

Lemma lookup_take_over n gen now tk rows k :
  take_over n gen now tk rows !! k =
    (λ r, if bool_decide (k.1 = n) then taken_over gen now tk r else r) <$> rows !! k.
Proof.
  unfold take_over. rewrite !lookup_update_all.
  destruct (rows !! k) as [r|]; [|done]. simpl. f_equal.
  destruct (decide (k.1 = n)) as [Hn|Hn].
  - rewrite (bool_decide_eq_true_2 (k.1 = n)) by done. unfold taken_over.
    assert (∀ r' s, bool_decide (k.1 = n ∧ state r' = s) = bool_decide (state r' = s)) as Hd
      by (intros; apply bool_decide_ext; tauto).
    rewrite !Hd. by destruct (state r) eqn:Hs; repeat (simpl; rewrite ?Hs).
  - repeat (rewrite bool_decide_eq_false_2 by tauto). done.
Qed.

Lemma taken_over_evolves gen now tk r :
  (owner_generation r ≤ gen)%Z → row_evolves r (taken_over gen now tk r).
Proof.
  intros Hle. unfold taken_over. destruct (state r) eqn:Hs; split; simpl; rewrite ?Hs;
    try done; try lia; try (by destruct r; simpl in *; subst);
    first [constructor | apply rtc_once; constructor].
Qed.

Lemma taken_over_owned gen0 gen now tk r :
  (gen0 ≤ gen)%Z → row_owned gen0 r → row_owned gen (taken_over gen now tk r).
Proof.
  intros Hle [? ? Ho]. unfold taken_over, open_state, terminal_state in *.
  destruct (state r) eqn:Hs; split; simpl; rewrite ?Hs in *; simpl; try done; try lia.
Qed.

Lemma taken_over_times gen now tk r : row_times now r → row_times now (taken_over gen now tk r).
Proof.
  intros [Hsub Hrun Hres Hterm Hsent Hacc]. unfold taken_over.
  destruct (state r) eqn:Hs; try (by split; simpl; rewrite ?Hs in *);
    split; simpl; rewrite ?Hs in *; try done; try set_solver.
Qed.

(** A successful takeover, in one equation. *)
Definition claim_audit (lock : host_lock_view) (n : string) (kernel : option string)
    (boot : string) (previous : agent_row) (unknown unsent : nat) : audit_row :=
  mk_audit n None "takeover"
    (JObj [("generation", JInt (generation previous + 1));
           ("boot_id", JStr boot);
           ("kernel_boot_id", jopt_str kernel);
           ("domain_id", JStr (hl_domain_id lock));
           ("previous_generation", JInt (generation previous));
           ("previous_boot_id", jopt_str (boot_id previous));
           ("previous_kernel_boot_id", jopt_str (kernel_boot_id previous));
           ("converted_unknown", JInt (Z.of_nat unknown));
           ("converted_unsent", JInt (Z.of_nat unsent))]).

Definition takeover_note (previous : agent_row) : dict :=
  [("takeover_by_generation", JInt (generation previous + 1));
   ("previous_generation", JInt (generation previous));
   ("previous_boot_id", jopt_str (boot_id previous))].

Lemma agent_for_update_inr n d a d' :
  agent_for_update n d = inr (a, d') ↔
  a = default fresh_agent (agents d !! n) ∧ d' = set_agents <[n := a]> d.
Proof.
  unfold agent_for_update, and_then, mbind, tx_bind, modify, gets, commit, raise; simpl.
  destruct (agents d !! n) as [a0|] eqn:Ha; simpl.
  - rewrite Ha. unfold set_agents; simpl. rewrite Ha.
    split; [intros [= <- <-]|intros [-> ->]]; by rewrite insert_id.
  - rewrite lookup_insert_eq. unfold set_agents; simpl. rewrite Ha.
    split; [intros [= <- <-]|intros [-> ->]]; by rewrite ?insert_insert_eq.
Qed.

Lemma bind_domain_inr lock n d u d' :
  bind_domain lock n d = inr (u, d') ↔
  (nodes d !! n = Some None ∨ nodes d !! n = Some (Some (hl_domain_id lock))) ∧
  d' = set_nodes <[n := Some (hl_domain_id lock)]> d.
Proof.
  destruct u. unfold bind_domain, and_then, mbind, tx_bind, modify, gets, commit, raise; simpl.
  destruct (nodes d !! n) as [[dom|]|] eqn:Hn; [case_bool_decide as Hd| |].
  - subst. unfold set_nodes. rewrite insert_id by done. destruct d; simpl.
    split; [intros [= <-]; auto|intros [_ ->]; done].
  - split; [done|]. intros [[?|?] _]; congruence.
  - split; [intros [= <-]; auto|intros [_ ->]; done].
  - split; [done|]. intros [[?|?] _]; congruence.
Qed.

Lemma check_kernel_inr n kernel previous d u d' :
  check_kernel n kernel previous d = inr (u, d') ↔
  (kernel_boot_id previous = None ∨ kernel = kernel_boot_id previous ∨
   count_rows n in_flight d = 0) ∧ d' = d.
Proof.
  destruct u. unfold check_kernel, and_then, mbind, tx_bind, gets, commit, raise; simpl.
  destruct (bool_decide _) eqn:Hb; simpl.
  - apply bool_decide_eq_true in Hb as [H1 H2].
    destruct (Nat.eqb_spec (count_rows n in_flight d) 0); simpl.
    + split; [intros [= <-]; auto|intros [_ ->]; done].
    + split; [done|]. tauto.
  - apply bool_decide_eq_false in Hb.
    split; [intros [= <-]|intros [_ ->]; done]. split; [|done].
    destruct (decide (kernel_boot_id previous = None)); [by left|].
    right; left. apply dec_stable. tauto.
Qed.

Lemma claim_tx_inr lock n kernel pid boot d e d' :
  claim_tx lock n kernel pid boot d = inr (e, d') →
  ∃ previous,
    previous = default fresh_agent (agents d !! n) ∧
    (nodes d !! n = Some None ∨ nodes d !! n = Some (Some (hl_domain_id lock))) ∧
    (kernel_boot_id previous = None ∨ kernel = kernel_boot_id previous ∨
     count_rows n in_flight d = 0) ∧
    e = mk_elected (mk_ownership n (generation previous + 1) boot) pid
          (count_rows n (λ s, bool_decide (s = Running)) d)
          (count_rows n (λ s, bool_decide (s = Accepted)) d) ∧
    d' = mk_db (clock d) (<[n := Some (hl_domain_id lock)]> (nodes d))
      (<[n := mk_agent (generation previous + 1) (Some boot) kernel (Some pid) (Some (clock d))]>
         (agents d))
      (take_over n (generation previous + 1) (clock d) (takeover_note previous) (ops d))
      (results d)
      (audit_log d ++ [claim_audit lock n kernel boot previous (converted_unknown e)
                         (converted_unsent e)])
      (hold d) (models d).
Proof.
  unfold claim_tx. intros H. inv_tx.
  match goal with H : agent_for_update _ _ = _ |- _ =>
    apply agent_for_update_inr in H as [-> ->] end.
  match goal with H : bind_domain _ _ _ = _ |- _ =>
    apply bind_domain_inr in H as [Hdom ->] end.
  match goal with H : check_kernel _ _ _ _ = _ |- _ =>
    apply check_kernel_inr in H as [Hk ->] end.
  match goal with H : match nodes ?d !! _ with _ => _ end _ = _ |- _ =>
    destruct (nodes d !! n) eqn:Hn; inv_tx end.
  eexists. split; [done|]. rewrite <- Hn.
  split; [exact Hdom|]. split; [exact Hk|]. split; [reflexivity|].
  unfold set_ops, set_agents, set_nodes, add_audit; simpl. by rewrite insert_insert_eq.
Qed.

(** ** Every step keeps the invariant, and undoes nothing *)

Lemma claim_tx_sound lock n kernel pid boot d e d' :
  claim_tx lock n kernel pid boot d = inr (e, d') → db_wf d → db_wf d' ∧ db_evolves d d'.
Proof.
  intros (previous&Hp&Hdom&_&_&->)%claim_tx_inr Hwf.
  set (gen := (generation previous + 1)%Z). set (tk := takeover_note previous).
  assert (0 ≤ generation previous)%Z as Hpos.
  { subst previous. destruct (agents d !! n) as [a|] eqn:Ha; simpl; [|done].
    by destruct (wf_agents _ Hwf _ _ Ha). }
  assert (∀ op r, ops d !! (n, op) = Some r → row_owned (generation previous) r) as Hown.
  { intros op r Hr. destruct (wf_ops _ Hwf _ _ _ Hr) as [_ (a&Ha&?)].
    by rewrite Ha in Hp; subst previous. }
  split; split; simpl.
  - intros n' a'. rewrite lookup_insert_Some. intros [[<- <-]|[Hne Ha']].
    + rewrite lookup_insert_eq. simpl. split_and!; [lia|eauto|eauto|lia].
    + rewrite lookup_insert_ne by done. eauto using wf_agents.
  - intros n' op r'. rewrite lookup_take_over. intros (r&Hr&->)%fmap_Some.
    destruct (wf_ops _ Hwf _ _ _ Hr) as [Ht (a&Ha&Ho)]. simpl. case_bool_decide as Hn.
    + subst n'. split; [by apply taken_over_times|].
      eexists. rewrite lookup_insert_eq. split; [done|].
      eapply taken_over_owned; [|by eapply Hown]. simpl. lia.
    + rewrite lookup_insert_ne by done. eauto.
  - intros n' op j Hj. destruct (wf_results _ Hwf _ _ _ Hj) as (r&Hr&Hst).
    rewrite lookup_take_over, Hr. eexists. split; [done|]. simpl.
    case_bool_decide; [|done]. unfold taken_over. destruct Hst as [E|E]; rewrite E; auto.
  - intros k r Hr. rewrite lookup_take_over, Hr. eexists. split; [done|].
    case_bool_decide as Hn; [|done]. destruct k as [n' op]. simpl in Hn. subst n'.
    apply taken_over_evolves. destruct (Hown _ _ Hr). lia.
  - done.
  - intros n' a Ha. destruct (decide (n = n')) as [<-|Hne].
    + eexists. rewrite lookup_insert_eq. split; [done|]. simpl.
      rewrite Ha in Hp; simpl in Hp; subst. split; [lia|lia].
    + exists a. rewrite lookup_insert_ne by done. split_and!; [done|lia|done].
  - by eexists.
  - intros n' dom Hn'. destruct (decide (n = n')) as [<-|Hne].
    + rewrite lookup_insert_eq. destruct Hdom; congruence.
    + by rewrite lookup_insert_ne.
Qed.

Lemma release_tx_inr lock n prev cur operator why d x d' :
  release_tx lock n prev cur operator why d = inr (x, d') →
  ∃ a det, agents d !! n = Some a ∧ kernel_boot_id a = Some prev ∧
    nodes d !! n = Some (Some (hl_domain_id lock)) ∧
    (∃ op r, ops d !! (n, op) = Some r ∧ in_flight (state r) = true) ∧
    d' = add_audit (mk_audit n None "kernel_released" det)
           (set_agents (alter (set_kernel cur) n) d).
Proof.
  unfold release_tx. intros H. inv_tx.
  destruct (agents d !! n) as [a|] eqn:Ha; [|inv_tx]. inv_tx.
  destruct (negb (bool_decide (mjoin _ = _))) eqn:Hb; [inv_tx|]. inv_tx.
  destruct (negb (bool_decide (kernel_boot_id a = _))) eqn:Hk; [inv_tx|]. inv_tx.
  apply negb_false_iff, bool_decide_eq_true in Hb, Hk.
  match goal with H : match open_operations n ?d with _ => _ end _ = _ |- _ =>
    destruct (open_operations n d) as [|[op r] rest] eqn:Hops; inv_tx end.
  do 2 eexists. split; [done|]. split; [done|]. split_and!; [| |done].
  - by destruct (nodes d !! n) as [[dom|]|]; simplify_eq/=.
  - exists op, r. assert ((op, r) ∈ open_operations n d) as Hin by (rewrite Hops; by left).
    unfold open_operations in Hin. rewrite elem_of_py_sorted, list_elem_of_omap in Hin.
    destruct Hin as ([[n' op'] r']&Hr&Hd). simpl in Hd. case_bool_decide as Hif; [|done].
    simplify_eq. destruct Hif as [-> ?]. by apply elem_of_map_to_list in Hr.
Qed.

Lemma set_agents_kernel_sound n cur a det lock d :
  agents d !! n = Some a →
  let d' := add_audit (mk_audit n lock "kernel_released" det)
              (set_agents (alter (set_kernel cur) n) d) in
  db_wf d → db_wf d' ∧ db_evolves d d'.
Proof.
  intros Ha d' [wa wo wr].
  assert (∀ n' a', agents d' !! n' = Some a' → ∃ a0, agents d !! n' = Some a0 ∧
            generation a' = generation a0 ∧ boot_id a' = boot_id a0) as Hback.
  { intros n' a'. simpl. rewrite lookup_alter. case_decide as Hn; [|eauto].
    subst n'. intros (a0&Ha0&->)%fmap_Some. eauto. }
  assert (∀ n' a0, agents d !! n' = Some a0 → ∃ a', agents d' !! n' = Some a' ∧
            generation a' = generation a0 ∧ boot_id a' = boot_id a0) as Hfwd.
  { intros n' a0 Ha0. simpl. rewrite lookup_alter. case_decide as Hn; [|eauto].
    subst n'. rewrite Ha0. simpl. eauto. }
  split; split; simpl.
  - intros n' a' (a0&Ha0&->&->)%Hback. eauto.
  - intros n' op r Hr. destruct (wo _ _ _ Hr) as [? (a0&Ha0&Hro)]. split; [done|].
    destruct (Hfwd _ _ Ha0) as (a'&Ha'&Hg&_). exists a'. by rewrite Hg.
  - done.
  - intros k r Hr. by exists r.
  - done.
  - intros n' a0 Ha0. destruct (Hfwd _ _ Ha0) as (a'&Ha'&Hg&Hb). exists a'.
    split_and!; [done|lia|done].
  - by eexists.
  - done.
Qed.

Lemma perform_writes self q d r d' : perform self q d = (r, d') → rtc (write self) d d'.
Proof.
  destruct q; simpl; unfold reply_with;
    match goal with |- context [?f d] => destruct (f d) as [o d1] eqn:H end;
    simpl; intros [= _ <-]; eauto with nexus.
Qed.

(** Every step keeps [db_wf] and only lets the tables evolve. *)
Lemma step_sound c c' : step c c' → db_wf (cdb c) → db_wf (cdb c') ∧ db_evolves (cdb c) (cdb c').
Proof.
  destruct 1 as [lock n kernel pid boot c r c' H|lock n pid pk ck who why c r c' H|self q c r d' H
                |self ev op det c|pid c|t c Ht|h c|n c Hn|f c]; intros Hwf; simpl.
  - unfold claim in H. destruct (negb _); [by simplify_eq|].
    destruct (try_lock _ _ _) as [held|]; [|by simplify_eq].
    destruct (claim_tx _ _ _ _ _ _) as [w|[e d]] eqn:Hc; simplify_eq/=; [done|].
    by eapply claim_tx_sound.
  - unfold release_previous_kernel in H. repeat (case_match; [by simplify_eq|]).
    case_match; [|by simplify_eq].
    destruct (release_tx _ _ _ _ _ _ _) as [w|[e d]] eqn:Hc; simplify_eq/=; [done|].
    apply release_tx_inr in Hc as (a&det&Ha&_&_&_&->). by eapply set_agents_kernel_sound.
  - eapply writes_sound; [|done]. by eapply perform_writes.
  - split; [by eapply same_tables_wf; [..|exact Hwf]|].
    apply same_tables_evolves; try done. by eexists.
  - done.
  - split; [by eapply same_tables_wf; [..|exact Hwf]|by apply same_tables_evolves].
  - split; [by eapply same_tables_wf; [..|exact Hwf]|by apply same_tables_evolves].
  - destruct Hwf as [wa wo wr]. split; split; simpl; try done.
    + intros n' a Ha. destruct (wa _ _ Ha) as (?&[x Hx]&?&?).
      rewrite lookup_insert_ne by congruence. eauto.
    + intros k r Hr. by exists r.
    + intros n' a Ha. exists a. split_and!; [done|lia|done].
    + intros n' dom Hd. by rewrite lookup_insert_ne by congruence.
  - split; [by eapply same_tables_wf; [..|exact Hwf]|by apply same_tables_evolves].
Qed.

(** Time only passes. *)
Lemma write_clock self d d' : write self d d' → clock d' = clock d.
Proof. by destruct 1. Qed.

Lemma perform_clock self q d r d' : perform self q d = (r, d') → clock d' = clock d.
Proof.
  intros Hp%perform_writes. induction Hp as [|d1 d2 d3 Hw _ IH]; [done|].
  rewrite IH. by eapply write_clock.
Qed.

Lemma step_clock c c' : step c c' → (clock (cdb c) ≤ clock (cdb c'))%Z.
Proof.
  destruct 1 as [lock n kernel pid boot c r c' H|lock n pid pk ck who why c r c' H|self q c r d' H
                |self ev op det c|pid c|t c Ht|h c|n c Hn|f c]; simpl; try lia.
  - unfold claim in H. destruct (negb _); [by simplify_eq|].
    destruct (try_lock _ _ _) as [held|]; [|by simplify_eq].
    destruct (claim_tx _ _ _ _ _ _) as [w|[e d]] eqn:Hc; simplify_eq/=; [done|].
    apply claim_tx_inr in Hc as (previous&_&_&_&_&->). done.
  - unfold release_previous_kernel in H. repeat (case_match; [by simplify_eq|]).
    case_match; [|by simplify_eq].
    destruct (release_tx _ _ _ _ _ _ _) as [w|[e d]] eqn:Hc; simplify_eq/=; [done|].
    by apply release_tx_inr in Hc as (a&det&_&_&_&_&->).
  - by rewrite (perform_clock _ _ _ _ _ H).
Qed.

Lemma steps_sound c c' :
  rtc step c c' → db_wf (cdb c) → db_wf (cdb c') ∧ db_evolves (cdb c) (cdb c').
Proof.
  induction 1 as [|c1 c2 c3 H _ IH]; intros Hwf; [done|].
  destruct (step_sound _ _ H Hwf) as [Hwf2 ?]. destruct (IH Hwf2). split; [done|by etrans].
Qed.

Lemma initial_wf c : initial c → db_wf (cdb c).
Proof.
  intros (Ha&Ho&Hr&_). split; rewrite ?Ha, ?Ho, ?Hr.
  - intros n a. by rewrite lookup_empty.
  - intros n op r. by rewrite lookup_empty.
  - intros n op j. by rewrite lookup_empty.
Qed.

Lemma reachable_wf c : reachable c → db_wf (cdb c).
Proof. intros (c0&H0&H). eapply steps_sound; [done|]. by apply initial_wf. Qed.
#[export] Hint Resolve initial_wf reachable_wf : nexus.

(** * Guarantees *)

(** ** Lemmas the guarantees share *)

Lemma never_accepted_again s s' : rtc op_step s s' → s ≠ Accepted → s' ≠ Accepted.
Proof. induction 1 as [|s1 s2 s3 H _ IH]; [done|]. intros _. apply IH. by destruct H. Qed.

Lemma unknown_ends_failed s' : rtc op_step OutcomeUnknown s' → s' = OutcomeUnknown ∨ s' = OpFailed.
Proof.
  inversion 1 as [|? y ? H1 H2]; subst; [by left|]. inversion H1; subst. right.
  inversion H2 as [|? z ? H3]; subst; [done|]. inversion H3.
Qed.

(** Once past [accepted] in any reachable state, an operation is never
    promoted again, by any owner. *)
Lemma past_accepted_never_promoted c c2 n op r :
  db_wf (cdb c) → ops (cdb c) !! (n, op) = Some r → state r ≠ Accepted → rtc step c c2 →
  ∀ self prov ep d, own_node_id self = n → promote self op prov ep (cdb c2) ≠ (inr true, d).
Proof.
  intros Hwf Hr Hs Hsteps self prov ep d <- Hp.
  apply promote_true in Hp as (_&_&_&r2&Hr2&Hacc&_).
  destruct (steps_sound _ _ Hsteps Hwf) as [_ Hev].
  destruct (evolves_ops _ _ Hev _ _ Hr) as (r2'&Hr2'&[_ Hst _ _]).
  rewrite Hr2 in Hr2'. injection Hr2' as <-. by apply never_accepted_again in Hst.
Qed.

(** ** Only a resolution ends an unknown outcome *)

Lemma claim_keeps_unknown lock n kernel pid boot c out c' k r :
  claim lock n kernel pid boot c = (out, c') →
  ops (cdb c) !! k = Some r → state r = OutcomeUnknown →
  ∃ r', ops (cdb c') !! k = Some r' ∧ ident r' = ident r ∧ state r' = OutcomeUnknown.
Proof.
  intros H Hr Hs. unfold claim in H. destruct (negb _); [simplify_eq; eauto|].
  destruct (try_lock _ _ _) as [held|]; [|simplify_eq; eauto].
  destruct (claim_tx _ _ _ _ _ _) as [w|[e d]] eqn:Hc; simplify_eq/=; [eauto|].
  apply claim_tx_inr in Hc as (previous&_&_&_&_&->). simpl.
  rewrite lookup_take_over, Hr. eexists. split; [done|].
  case_bool_decide; [|done]. unfold taken_over. by rewrite Hs.
Qed.

(** A step leaves an unknown outcome unknown, unless it is a resolution by the
    node's current agent. *)
Lemma step_unknown c c' n op r :
  step c c' → ops (cdb c) !! (n, op) = Some r → state r = OutcomeUnknown →
  (∃ r', ops (cdb c') !! (n, op) = Some r' ∧ ident r' = ident r ∧ state r' = OutcomeUnknown) ∨
  (∃ owner ev d', own_node_id owner = n ∧ resolve_unknown owner op ev (cdb c) = (inr true, d') ∧
     c' = mk_cluster d' (locks c)).
Proof.
  intros H Hr Hs. destruct H as [lock m kernel pid boot c out c' H|lock m pid pk ck who why c out c' H
    |self q c out d' H|self ev op' det c|pid c|t c Ht|h c|m c Hn|f c]; simpl; eauto.
  - left. by eapply claim_keeps_unknown.
  - left. exists r. split; [|done]. unfold release_previous_kernel in H.
    repeat (case_match; [by simplify_eq|]). case_match; [|by simplify_eq].
    destruct (release_tx _ _ _ _ _ _ _) as [w|[e d]] eqn:Hc; simplify_eq/=; [done|].
    by apply release_tx_inr in Hc as (a&det&_&_&_&_&->).
  - destruct (perform_keeps_unknown _ _ _ _ _ _ _ Hr Hs H) as [?|(op'&ev&[= -> ->]&Hq)]; [eauto|].
    right. eauto 8.
Qed.

(** Along any run, an unknown outcome is still unknown or was resolved. *)
Lemma steps_unknown c c2 n op r :
  rtc step c c2 → ops (cdb c) !! (n, op) = Some r → state r = OutcomeUnknown →
  (∃ r2, ops (cdb c2) !! (n, op) = Some r2 ∧ state r2 = OutcomeUnknown) ∨
  (∃ ca ra owner ev d1, rtc step c ca ∧
     ops (cdb ca) !! (n, op) = Some ra ∧ ident ra = ident r ∧ state ra = OutcomeUnknown ∧
     own_node_id owner = n ∧ resolve_unknown owner op ev (cdb ca) = (inr true, d1) ∧
     rtc step (mk_cluster d1 (locks ca)) c2).
Proof.
  intros Hsteps. revert r. induction Hsteps as [c|c c1 c2 H Hrest IH]; intros r Hr Hs; [eauto|].
  destruct (step_unknown _ _ _ _ _ H Hr Hs) as [(r1&Hr1&Hi&Hs1)|(owner&ev&d1&Hn&Hq&->)].
  - destruct (IH _ Hr1 Hs1) as [?|(ca&ra&owner&ev&d1&Hto&Hra&Hi'&?)]; [by left|]. right.
    exists ca, ra, owner, ev, d1. split; [by eapply rtc_l|]. split; [done|].
    split; [congruence|done].
  - right. exists c, r, owner, ev, d1. split; [constructor|]. done.
Qed.

Lemma store_step_wf self q d r d' :
  db_wf d → perform self q d = (r, d') → db_wf d' ∧ db_evolves d d'.
Proof.
  intros Hwf H. exact (step_sound _ _ (step_store self q (mk_cluster d ∅) r d' H) Hwf).
Qed.

Definition locks_wf (l : election_locks) : Prop := ∀ n p k, l !! n = Some (p, k) → 1 ≤ k.

Lemma try_lock_wf n pid l l' : try_lock n pid l = Some l' → locks_wf l → locks_wf l'.
Proof.
  unfold try_lock. intros H Hwf n' p k.
  destruct (l !! n) as [[h c]|]; [case_bool_decide; [|done]|]; simplify_eq;
    rewrite lookup_insert_Some; intros [[<- [= <- <-]]|[_ ?]]; eauto; lia.
Qed.

Lemma unlock_wf n pid l : locks_wf l → locks_wf (unlock n pid l).
Proof.
  unfold unlock. intros Hwf n' p k. destruct (l !! n) as [[h [|[|c]]]|]; [| | |eauto];
    case_bool_decide; try (rewrite lookup_delete_Some; intros [_ ?]); eauto.
  rewrite lookup_insert_Some; intros [[<- [= <- <-]]|[_ ?]]; eauto; lia.
Qed.

Lemma unlock_try_lock n pid l l' : locks_wf l → try_lock n pid l = Some l' → unlock n pid l' = l.
Proof.
  unfold try_lock, unlock. intros Hwf H.
  destruct (l !! n) as [[h c]|] eqn:Hl; [case_bool_decide; [|done]|]; simplify_eq;
    rewrite lookup_insert_eq.
  - specialize (Hwf _ _ _ Hl). destruct c as [|c]; [lia|].
    rewrite bool_decide_eq_true_2 by done. rewrite insert_insert_eq. by apply insert_id.
  - rewrite bool_decide_eq_true_2 by done. by rewrite delete_insert_id.
Qed.

Lemma step_locks_wf c c' : step c c' → locks_wf (locks c) → locks_wf (locks c').
Proof.
  destruct 1 as [lock n kernel pid boot c r c' H|lock n pid pk ck who why c r c' H|self q c r d' H
                |self ev op det c|pid c|t c Ht|h c|n c Hn|f c]; intros Hwf; simpl; try done.
  - unfold claim in H. destruct (negb _); [by simplify_eq|].
    destruct (try_lock _ _ _) as [held|] eqn:Hl; [|by simplify_eq].
    pose proof (try_lock_wf _ _ _ _ Hl Hwf).
    destruct (claim_tx _ _ _ _ _ _) as [w|[e d]]; simplify_eq/=; auto using unlock_wf.
  - unfold release_previous_kernel in H. repeat (case_match; [by simplify_eq|]).
    destruct (try_lock _ _ _) as [held|] eqn:Hl; [|by simplify_eq].
    pose proof (try_lock_wf _ _ _ _ Hl Hwf).
    destruct (release_tx _ _ _ _ _ _ _) as [w|[e d]]; simplify_eq/=; auto using unlock_wf.
  - intros n p k [H _]%map_lookup_filter_Some. by apply Hwf in H.
Qed.

Lemma reachable_locks_wf c : reachable c → locks_wf (locks c).
Proof.
  intros (c0&(_&_&_&Hl)&H). assert (locks_wf (locks c0)) as H0 by (rewrite Hl; intros n p k; set_solver).
  clear Hl. induction H; eauto using step_locks_wf.
Qed.

(** ** A concrete history, for the witnesses

    A node is registered and claimed; its agent accepts operations [a] and
    [b] and sends [a]; the session ends and a second agent takes over. *)
Module Demo.
Definition lock := mk_host_lock true "dom".
Definition alice := mk_ownership "n" 1 "boot-a".
Definition bob := mk_ownership "n" 2 "boot-b".
Definition c0 := mk_cluster (mk_db 0 ∅ ∅ ∅ ∅ [] (Some (mk_hold false 0)) ∅) ∅.
Definition c1 := mk_cluster (set_nodes <["n" := None]> (cdb c0)) (locks c0).
Definition c2 := (claim lock "n" (Some "k1") 7 "boot-a" c1).2.
Definition after (self : Ownership) (q : request) (c : cluster) : cluster :=
  mk_cluster (perform self q (cdb c)).2 (locks c).
Definition insert_a := QInsert "a" KInference (Some "r") (Some "h") true.
Definition insert_b := QInsert "b" KInference None None false.
Definition c3 := after alice insert_b (after alice insert_a c2).
Definition c4 := after alice (QPromote "a" [] None) c3.
Definition c5 := mk_cluster (cdb c4) (filter (λ kv, kv.2.1 ≠ 7%Z) (locks c4)).
Definition c6 := (claim lock "n" (Some "k1") 8 "boot-b" c5).2.

Definition elected_bob := mk_elected bob 8 1 1.
Definition elected_alice := mk_elected (mk_ownership "n" 1 "boot-a") 7 0 0.

Lemma bob_claims : claim lock "n" (Some "k1") 8 "boot-b" c5 = (inr elected_bob, c6).
Proof. vm_compute. reflexivity. Qed.

Lemma after_step self q c : step c (after self q c).
Proof. apply (step_store self q c (perform self q (cdb c)).1), surjective_pairing. Qed.

Lemma claim_step k pid boot c : step c (claim lock "n" k pid boot c).2.
Proof.
  apply (step_claim lock "n" k pid boot c (claim lock "n" k pid boot c).1), surjective_pairing.
Qed.

Lemma c3_reachable : reachable c3.
Proof.
  exists c0. split; [by repeat split|].
  eapply rtc_l; [exact (step_register "n" c0 eq_refl)|].
  eapply rtc_l; [apply claim_step|]. unfold c3.
  eapply rtc_l; [apply after_step|]. eapply rtc_l; [apply after_step|]. constructor.
Qed.

Lemma c3_to_c6 : rtc step c3 c6.
Proof.
  eapply rtc_l; [apply after_step|]. eapply rtc_l; [apply (step_session_end 7)|].
  eapply rtc_l; [apply claim_step|]. constructor.
Qed.

Lemma c5_reachable : reachable c5.
Proof.
  destruct c3_reachable as (c&?&?). exists c. split; [done|]. etrans; [done|].
  eapply rtc_l; [apply after_step|]. eapply rtc_l; [apply (step_session_end 7)|]. constructor.
Qed.

Lemma c6_reachable : reachable c6.
Proof. destruct c3_reachable as (c&?&?). exists c. split; [done|]. etrans; [done|apply c3_to_c6]. Qed.
End Demo.

(** ** The theorems *)

(** C1: A promotion is an authorisation for exactly one sender.  Once [promote]
    has returned true for an operation, no promotion of it returns true in any
    later state, whichever process asks, under whatever generation, and across
    any number of takeovers. *)
Theorem promotion_authorises_once c self op prov epoch d1 c2 self2 prov2 epoch2 d2 :
  reachable c →
  promote self op prov epoch (cdb c) = (inr true, d1) →
  rtc step (mk_cluster d1 (locks c)) c2 →
  own_node_id self2 = own_node_id self →
  promote self2 op prov2 epoch2 (cdb c2) ≠ (inr true, d2).
Proof.
  intros Hwf%reachable_wf Hp Hsteps Hn.
  destruct (store_step_wf self (QPromote op prov epoch) (cdb c) (inr (RBool true)) d1)
    as [Hwf1 _]; [done|simpl; by rewrite Hp|].
  apply promote_true in Hp as (_&_&_&r&Hr&_&_&->).
  eapply (past_accepted_never_promoted (mk_cluster _ (locks c)));
    [exact Hwf1| | |exact Hsteps|done].
  - apply lookup_insert_eq.
  - done.
Qed.

Lemma promotion_authorises_once_witness :
  promote Demo.bob "a" [] None (cdb Demo.c6) ≠ (inr true, cdb Demo.c6).
Proof.
  apply (promotion_authorises_once Demo.c3 Demo.alice "a" [] None (cdb Demo.c4) Demo.c6).
  - apply Demo.c3_reachable.
  - vm_compute. reflexivity.
  - apply rtc_l with Demo.c5; [exact (step_session_end 7 Demo.c4)|].
    apply rtc_once, Demo.claim_step.
  - reflexivity.
Defined.

(** C3: An unknown outcome blocks its node until an operator's resolution.
    If an operation is [outcome_unknown] in a reachable state and some operation
    of the node is promoted later, then somewhere in between a resolution of
    exactly that operation was accepted: the node's agent of that moment, its
    ownership proved against the table, called [resolve_unknown] on the row
    while it was still [outcome_unknown], and the call returned true.  The row
    the promotion finds is the one that resolution wrote, failed by the operator
    at that instant with the evidence in its provenance, and its audit entry is
    in the log.  Time, takeovers, releases of a previous kernel and every other
    store call leave it unknown. *)
Theorem unknown_blocks_until_resolved c c2 n op r self op2 prov epoch d :
  reachable c →
  ops (cdb c) !! (n, op) = Some r → state r = OutcomeUnknown →
  rtc step c c2 →
  own_node_id self = n → promote self op2 prov epoch (cdb c2) = (inr true, d) →
  ∃ ca ra owner evidence d1,
    rtc step c ca ∧
    ops (cdb ca) !! (n, op) = Some ra ∧ ident ra = ident r ∧ state ra = OutcomeUnknown ∧
    own_node_id owner = n ∧ owns owner (cdb ca) ∧
    resolve_unknown owner op evidence (cdb ca) = (inr true, d1) ∧
    rtc step (mk_cluster d1 (locks ca)) c2 ∧
    (∃ r2, ops (cdb c2) !! (n, op) = Some r2 ∧ ident r2 = ident r ∧ state r2 = OpFailed ∧
       reason r2 = Some "resolved_by_reset" ∧ resolved_by r2 = Some "operator" ∧
       resolved_at r2 = Some (clock (cdb ca)) ∧
       provenance r2 = provenance (merge_provenance [("resolution", evidence)] ra)) ∧
    mk_audit n (Some op) "resolved_by_reset" evidence ∈ audit_log (cdb c2).
Proof.
  intros Hwf%reachable_wf Hr Hs Hsteps Hn Hp.
  apply promote_true in Hp as (_&_&Hno&_). rewrite any_unknown_false in Hno. subst n.
  destruct (steps_unknown _ _ _ _ _ Hsteps Hr Hs)
    as [(r2&Hr2&Hs2)|(ca&ra&owner&ev&d1&Hto&Hra&Hi&Hsa&Hown&Hq&Hrest)];
    [by destruct (Hno _ _ Hr2)|].
  exists ca, ra, owner, ev, d1.
  destruct (resolve_unknown_true _ _ _ _ _ Hq) as (Ho&ra'&Hra'&_&_&Hd1).
  rewrite Hown, Hra in Hra'. injection Hra' as <-.
  destruct (steps_sound _ _ Hto Hwf) as [Hwfa _].
  destruct (store_step_wf owner (QResolve op ev) (cdb ca) (inr (RBool true)) d1) as [Hwf1 _];
    [done|simpl; by rewrite Hq|].
  destruct (steps_sound _ _ Hrest Hwf1) as [_ Hev]. simpl in Hev.
  destruct (evolves_ops _ _ Hev (own_node_id self, op) (resolved_row (clock (cdb ca)) ev ra))
    as (r2&Hr2&[_ _ _ Hfin]); [rewrite Hd1, <- Hown; apply lookup_insert_eq|].
  specialize (Hfin eq_refl). subst r2. split_and!; try done.
  - by eexists; split_and!; [exact Hr2|..].
  - pose proof (evolves_audit _ _ Hev) as Hlog. rewrite Hd1 in Hlog. simpl in Hlog.
    eapply elem_of_prefix; [|exact Hlog]. rewrite Hown. set_solver.
Qed.

Lemma unknown_blocks_until_resolved_witness :
  ∃ ca ra owner evidence, own_node_id owner = "n" ∧ owns owner (cdb ca) ∧
    ops (cdb ca) !! ("n", "a") = Some ra ∧ state ra = OutcomeUnknown ∧
    (resolve_unknown owner "a" evidence (cdb ca)).1 = inr true.
Proof.
  set (c := Demo.after Demo.bob (QResolve "a" JNull)
              (Demo.after Demo.bob Demo.insert_b (Demo.after Demo.bob
                 (QInsert "c" KInference None None false) Demo.c6))).
  destruct (ops (cdb Demo.c6) !! ("n", "a")) as [r|] eqn:Hr; [|exfalso; by vm_compute in Hr].
  destruct (unknown_blocks_until_resolved Demo.c6 c "n" "a" r Demo.bob "c" [] None
              (promote Demo.bob "c" [] None (cdb c)).2)
    as (ca&ra&owner&ev&d1&_&H1&_&H2&H3&H4&H5&_).
  - apply Demo.c6_reachable.
  - exact Hr.
  - vm_compute in Hr. injection Hr as <-. reflexivity.
  - do 3 (eapply rtc_r; [|apply Demo.after_step]). constructor.
  - reflexivity.
  - vm_compute. reflexivity.
  - exists ca, ra, owner, ev. rewrite H5. split_and!; done.
Defined.

(** A superseded owner changes nothing, ever again.  After a successful
    claim of a node, every store call made under an older generation, in any
    later state, is refused and adds at most one audit row; the operations,
    results, agents, pins and hold it would have written are untouched. *)
Theorem superseded_owner_is_fenced lock n kernel pid boot c e c1 c2 self q r d' :
  reachable c →
  claim lock n kernel pid boot c = (inr e, c1) →
  rtc step c1 c2 →
  own_node_id self = n → (own_generation self < own_generation (ownership e))%Z →
  perform self q (cdb c2) = (r, d') →
  (r = inl ValueError ∨ ∃ g, r = inl (NotOwner (Some g)) ∧ (own_generation self < g)%Z) ∧
  (d' = cdb c2 ∨ ∃ a, audit_node a = n ∧ d' = add_audit a (cdb c2)).
Proof.
  intros Hwf%reachable_wf Hc Hsteps <- Hlt Hq.
  destruct (step_sound _ _ (step_claim _ _ _ _ _ _ _ _ Hc) Hwf) as [Hwf1 _].
  destruct (steps_sound _ _ Hsteps Hwf1) as [_ Hev].
  unfold claim in Hc. destruct (negb _); [done|]. destruct (try_lock _ _ _) as [held|]; [|done].
  destruct (claim_tx _ _ _ _ _ _) as [w|[e' d]] eqn:Htx; [done|]. injection Hc as -> <-.
  apply claim_tx_inr in Htx as (previous&_&_&_&->&->). simpl in *.
  destruct (evolves_agents _ _ Hev (own_node_id self)
    (mk_agent (generation previous + 1) (Some boot) kernel (Some pid) (Some (clock (cdb c)))))
    as (a&Ha&Hg&_); [apply lookup_insert_eq|simpl in Hg].
  assert (¬ owns self (cdb c2)) as Hno.
  { intros (a'&Ha'&Hg'&_). rewrite Ha in Ha'. injection Ha' as <-. lia. }
  destruct (perform_not_owner _ _ _ _ _ Hno Hq) as [(->&ar&->&Har)|(->&->&_)]; [|auto].
  split; [|eauto]. right. rewrite Ha. simpl. eexists. split; [done|lia].
Qed.

Definition late_finish : _ * db :=
  perform Demo.alice (QFinish "a" OpCompleted JNull None None false) (cdb Demo.c6).

Lemma superseded_owner_is_fenced_witness :
  (late_finish.1 = inl ValueError ∨ ∃ g, late_finish.1 = inl (NotOwner (Some g)) ∧ (1 < g)%Z) ∧
  (late_finish.2 = cdb Demo.c6 ∨ ∃ a, audit_node a = "n" ∧ late_finish.2 = add_audit a (cdb Demo.c6)).
Proof.
  apply (superseded_owner_is_fenced Demo.lock "n" (Some "k1") 8 "boot-b" Demo.c5
    Demo.elected_bob Demo.c6 Demo.c6 Demo.alice
    (QFinish "a" OpCompleted JNull None None false) late_finish.1 late_finish.2).
  - apply Demo.c5_reachable.
  - exact Demo.bob_claims.
  - constructor.
  - reflexivity.
  - reflexivity.
  - apply surjective_pairing.
Defined.

(** What a takeover does, completely.  A successful claim advances the
    generation by one and makes the claimant the owner; the node keeps no
    accepted and no running operation: what was running is unknown, what was
    accepted is cancelled unsent, every unknown one belongs to the new
    generation, and terminal operations, other nodes' operations and stored
    results are as they were. *)
Theorem claim_takes_over lock n kernel pid boot c e c' :
  claim lock n kernel pid boot c = (inr e, c') →
  let previous := default fresh_agent (agents (cdb c) !! n) in
  let gen := (generation previous + 1)%Z in
  ownership e = mk_ownership n gen boot ∧ owns (ownership e) (cdb c') ∧
  results (cdb c') = results (cdb c) ∧
  (∀ n' op, n' ≠ n → ops (cdb c') !! (n', op) = ops (cdb c) !! (n', op)) ∧
  (∀ op r, ops (cdb c) !! (n, op) = Some r → ∃ r', ops (cdb c') !! (n, op) = Some r' ∧
     ident r' = ident r ∧
     match state r with
     | Running | OutcomeUnknown => state r' = OutcomeUnknown ∧ owner_generation r' = gen
     | Accepted => state r' = CancelledUnsent ∧ owner_generation r' = gen
     | _ => r' = r
     end) ∧
  converted_unknown e = count_rows n (λ s, bool_decide (s = Running)) (cdb c) ∧
  converted_unsent e = count_rows n (λ s, bool_decide (s = Accepted)) (cdb c).
Proof.
  intros Hc previous gen. unfold claim in Hc. destruct (negb _); [done|].
  destruct (try_lock _ _ _) as [held|]; [|done].
  destruct (claim_tx _ _ _ _ _ _) as [w|[e' d]] eqn:Htx; [done|]. injection Hc as -> <-.
  apply claim_tx_inr in Htx as (p&Hp&_&_&->&->). subst p. fold previous gen.
  simpl. split_and!; [done| |done| | |done|done].
  - eexists. simpl. rewrite lookup_insert_eq. by split_and!.
  - intros n' op Hne. rewrite lookup_take_over. simpl. rewrite bool_decide_eq_false_2 by done.
    by destruct (ops (cdb c) !! (n', op)).
  - intros op r Hr. rewrite lookup_take_over, Hr. simpl. rewrite bool_decide_eq_true_2 by done.
    eexists. split; [done|]. unfold taken_over. by destruct (state r) eqn:Hs.
Qed.

Lemma claim_takes_over_witness :
  ownership Demo.elected_bob = Demo.bob ∧ owns Demo.bob (cdb Demo.c6) ∧
  results (cdb Demo.c6) = results (cdb Demo.c5).
Proof.
  destruct (claim_takes_over Demo.lock "n" (Some "k1") 8 "boot-b" Demo.c5
              Demo.elected_bob Demo.c6 Demo.bob_claims) as (_&Ho&Hr&_).
  split; [reflexivity|]. split; [exact Ho|exact Hr].
Defined.

(** A refused claim changes nothing: not a row of any table, and not the
    election lock, which is given back if it was taken. *)
Theorem refused_claim_changes_nothing lock n kernel pid boot c why c' :
  reachable c → claim lock n kernel pid boot c = (inl why, c') → c' = c.
Proof.
  intros Hl%reachable_locks_wf. unfold claim. destruct (negb _); [by intros [= _ <-]|].
  destruct (try_lock _ _ _) as [held|] eqn:Ht; [|by intros [= _ <-]].
  destruct (claim_tx _ _ _ _ _ _) as [w|[e d]]; intros [= _ <-].
  rewrite (unlock_try_lock _ _ _ _ Hl Ht). by destruct c.
Qed.

Lemma refused_claim_changes_nothing_witness :
  (claim Demo.lock "n" (Some "k2") 8 "boot-c" Demo.c5).2 = Demo.c5.
Proof.
  apply (refused_claim_changes_nothing Demo.lock "n" (Some "k2") 8 "boot-c" Demo.c5
           (KernelChanged 1)).
  - apply Demo.c5_reachable.
  - vm_compute. reflexivity.
Defined.

(** After a reboot of the host's kernel the node is taken over only if
    nothing can be in flight: a claim that succeeds from a kernel other than
    the recorded one found no running and no unknown operation. *)
Theorem kernel_change_needs_quiet_node lock n kernel pid boot c e c' previous :
  claim lock n kernel pid boot c = (inr e, c') →
  agents (cdb c) !! n = Some previous → kernel_boot_id previous ≠ None →
  kernel ≠ kernel_boot_id previous →
  ∀ op r, ops (cdb c) !! (n, op) = Some r → state r ≠ Running ∧ state r ≠ OutcomeUnknown.
Proof.
  intros Hc Ha Hk1 Hk2 op r Hr. unfold claim in Hc. destruct (negb _); [done|].
  destruct (try_lock _ _ _) as [held|]; [|done].
  destruct (claim_tx _ _ _ _ _ _) as [w|[e' d]] eqn:Htx; [done|].
  apply claim_tx_inr in Htx as (p&Hp&_&[Hk|[Hk|Hcount]]&_); rewrite Ha in Hp; simpl in Hp;
    subst p; [done..|].
  unfold count_rows in Hcount. apply map_size_empty_iff in Hcount.
  assert (in_flight (state r) ≠ true) as Hno.
  { intros Hif. apply (map_filter_empty_not_lookup _ _ (n, op) r) in Hcount; naive_solver. }
  unfold in_flight in Hno. rewrite bool_decide_eq_true in Hno. set_solver.
Qed.

Lemma kernel_change_needs_quiet_node_witness :
  ∃ r, ops (cdb Demo.c3) !! ("n", "a") = Some r ∧ state r ≠ Running ∧ state r ≠ OutcomeUnknown.
Proof.
  eexists. split; [vm_compute; reflexivity|].
  apply (kernel_change_needs_quiet_node Demo.lock "n" (Some "k2") 7 "boot-c" Demo.c3
           (mk_elected (mk_ownership "n" 2 "boot-c") 7 0 2)
           (claim Demo.lock "n" (Some "k2") 7 "boot-c" Demo.c3).2
           (mk_agent 1 (Some "boot-a") (Some "k1") (Some 7%Z) (Some 0%Z))) with "a".
  - vm_compute. reflexivity.
  - vm_compute. reflexivity.
  - discriminate.
  - discriminate.
  - vm_compute. reflexivity.
Defined.

(** The life of an operation, across everything that can happen.  From any
    reachable state to any later one, an operation's row keeps its identity and
    only moves along [op_step]; a terminal row never changes again; a stored
    result stays; a lock domain, once bound, never moves; the audit log only
    grows. *)
Theorem operations_evolve c c2 :
  reachable c → rtc step c c2 →
  (∀ k r, ops (cdb c) !! k = Some r → ∃ r', ops (cdb c2) !! k = Some r' ∧
     ident r' = ident r ∧ rtc op_step (state r) (state r') ∧
     (owner_generation r ≤ owner_generation r')%Z ∧
     (terminal_state (state r) = true → r' = r)) ∧
  results (cdb c) ⊆ results (cdb c2) ∧
  (∀ n dom, nodes (cdb c) !! n = Some (Some dom) → nodes (cdb c2) !! n = Some (Some dom)) ∧
  audit_log (cdb c) `prefix_of` audit_log (cdb c2).
Proof.
  intros Hwf%reachable_wf Hsteps.
  destruct (steps_sound _ _ Hsteps Hwf) as [_ [Hops Hres _ Hlog Hdom]].
  split_and!; [|done..]. intros k r Hr. destruct (Hops _ _ Hr) as (r'&Hr'&[]). eauto 10.
Qed.

Lemma operations_evolve_witness : results (cdb Demo.c3) ⊆ results (cdb Demo.c6).
Proof.
  apply (operations_evolve Demo.c3 Demo.c6); [apply Demo.c3_reachable|apply Demo.c3_to_c6].
Defined.

(** The invariant of the tables.  In every reachable state an operation's
    timestamps agree with its state, open operations belong to the node's
    current generation, no generation is below the one that submitted it, a
    claimed node has a bound lock domain, and a stored result belongs to a
    completed or failed operation. *)
Theorem reachable_tables_wf c :
  reachable c →
  (∀ n op r, ops (cdb c) !! (n, op) = Some r →
     (∃ a, agents (cdb c) !! n = Some a ∧
        (1 ≤ origin_generation (ident r) ≤ owner_generation r)%Z ∧
        (owner_generation r ≤ generation a)%Z ∧
        (open_state (state r) = true → owner_generation r = generation a)) ∧
     (is_Some (resolved_at r) ↔ terminal_state (state r) = true) ∧
     (state r ∈ [Running; OutcomeUnknown; OpCompleted; OpFailed] → is_Some (running_at r)) ∧
     (∀ t t', running_at r = Some t → resolved_at r = Some t' →
        submitted_at (ident r) ≤ t ≤ t' ∧ t' ≤ clock (cdb c))%Z) ∧
  (∀ n a, agents (cdb c) !! n = Some a → (1 ≤ generation a)%Z →
     ∃ dom, nodes (cdb c) !! n = Some (Some dom)) ∧
  (∀ n op j, results (cdb c) !! (n, op) = Some j →
     ∃ r, ops (cdb c) !! (n, op) = Some r ∧ (state r = OpCompleted ∨ state r = OpFailed)).
Proof.
  intros [wa wo wr]%reachable_wf. split_and!; [| |done].
  - intros n op r Hr. destruct (wo _ _ _ Hr) as [[_ Hrun Hres Hterm Hsent _] (a&Ha&[])].
    split_and!; [by eauto 10|done|done|]. intros t t' Ht Ht'.
    destruct (Hres _ Ht') as [? Hle]. specialize (Hrun _ Ht). specialize (Hle _ Ht). lia.
  - intros n a Ha. by apply wa.
Qed.

Lemma reachable_tables_wf_witness :
  ∃ dom, nodes (cdb Demo.c6) !! "n" = Some (Some dom).
Proof.
  destruct (reachable_tables_wf Demo.c6 Demo.c6_reachable) as (_&H&_).
  apply (H "n" (mk_agent 2 (Some "boot-b") (Some "k1") (Some 8%Z) (Some 0%Z)));
    [vm_compute; reflexivity|simpl; lia].
Defined.

(** A cancellation that reports [cancelled_unsent] is final: whoever
    cancelled the operation, before or after it was inserted, no promotion of
    it is granted in any later state. *)
Theorem cancelled_is_never_sent c self op why k o d1 c2 self2 prov epoch d2 :
  reachable c →
  cancel_accepted self op why k (cdb c) = (inr (Some o), d1) → o_state o = CancelledUnsent →
  rtc step (mk_cluster d1 (locks c)) c2 →
  own_node_id self2 = own_node_id self →
  promote self2 op prov epoch (cdb c2) ≠ (inr true, d2).
Proof.
  intros Hwf%reachable_wf Hc Ho Hsteps Hn.
  destruct (store_step_wf self (QCancel op why k) (cdb c) (inr (ROperation (Some o))) d1)
    as [Hwf1 _]; [done|simpl; by rewrite Hc|].
  assert (∃ r, ops d1 !! (own_node_id self, op) = Some r ∧ state r = CancelledUnsent) as (r&Hr&Hst).
  { apply run_owned_cases in Hc as [(_&?&_)|[(_&?&_&?&_)|(_&o'&Hc&[= <-])]]; [done|done|].
    apply tx_bind_inr in Hc as (now&?&[-> ->]%tx_gets_inr&Hc).
    apply tx_bind_inr in Hc as (u&d&_&[Hobs ->]%tx_gets_inr).
    unfold observe in Hobs. destruct (ops d !! _) as [r|]; [|done].
    injection Hobs as ->. eauto. }
  eapply (past_accepted_never_promoted (mk_cluster d1 (locks c)));
    [exact Hwf1|exact Hr|by rewrite Hst|exact Hsteps|done].
Qed.

Lemma cancelled_is_never_sent_witness :
  promote Demo.alice "z" [] None
    (cdb (Demo.after Demo.alice (QCancel "z" "gone" KInference) Demo.c3)) ≠ (inr true, cdb Demo.c3).
Proof.
  apply (cancelled_is_never_sent Demo.c3 Demo.alice "z" "gone" KInference
    (mk_operation "n" "z" KInference CancelledUnsent 1 "boot-a" 1 None None false (Some "gone")
       None false)
    (cdb (Demo.after Demo.alice (QCancel "z" "gone" KInference) Demo.c3))).
  - apply Demo.c3_reachable.
  - vm_compute. reflexivity.
  - reflexivity.
  - constructor.
  - reflexivity.
Defined.

(** Releasing a node from a previous kernel asserts one thing and changes
    one thing: the recorded kernel becomes the current one, with an audit row.
    It resolves no operation and touches no result, hold or lock, and it is
    refused unless the node is bound to this domain, was recorded under
    exactly the kernel the operator named, and has an operation in flight. *)
Theorem release_only_moves_the_kernel lock n pid previous current operator why c detail c' :
  reachable c →
  release_previous_kernel lock n pid previous current operator why c = (inr detail, c') →
  py_strip operator ≠ "" ∧ py_strip why ≠ "" ∧ previous ≠ current ∧
  locks c' = locks c ∧
  ∃ a audit_detail, agents (cdb c) !! n = Some a ∧ kernel_boot_id a = Some previous ∧
    nodes (cdb c) !! n = Some (Some (hl_domain_id lock)) ∧
    (∃ op r, ops (cdb c) !! (n, op) = Some r ∧ in_flight (state r) = true) ∧
    cdb c' = add_audit (mk_audit n None "kernel_released" audit_detail)
               (set_agents <[n := set_kernel current a]> (cdb c)).
Proof.
  intros Hl%reachable_locks_wf. unfold release_previous_kernel.
  destruct (String.eqb_spec (py_strip operator) ""); [done|].
  destruct (String.eqb_spec (py_strip why) ""); [done|]. simpl.
  destruct (_ || _); [done|].
  destruct (String.eqb_spec previous current); [done|]. destruct (negb _); [done|].
  destruct (try_lock _ _ _) as [held|] eqn:Ht; [|done].
  destruct (release_tx _ _ _ _ _ _ _) as [w|[x d]] eqn:Htx; intros [= _ <-]. simpl.
  rewrite (unlock_try_lock _ _ _ _ Hl Ht).
  apply release_tx_inr in Htx as (a&det&Ha&Hk&Hn&Hop&->).
  split_and!; [done..|]. exists a, det. split_and!; [done..|].
  unfold set_agents. do 2 f_equal. apply map_eq. intros i. rewrite lookup_alter.
  case_decide as Hi; [subst; by rewrite Ha, lookup_insert_eq|by rewrite lookup_insert_ne].
Qed.

Lemma release_only_moves_the_kernel_witness :
  locks (release_previous_kernel Demo.lock "n" 9 "k1" "k2" "ops" "host rebooted" Demo.c5).2 =
    locks Demo.c5.
Proof.
  destruct (release_only_moves_the_kernel Demo.lock "n" 9 "k1" "k2" "ops" "host rebooted" Demo.c5
    [("operator", JStr "ops"); ("reason", JStr "host rebooted");
     ("previous_kernel_boot_id", JStr "k1"); ("current_kernel_boot_id", JStr "k2");
     ("domain_id", JStr "dom"); ("generation", JInt 1); ("boot_id", JStr "boot-a");
     ("operations", JArr [JObj [("op_id", JStr "a"); ("kind", JStr "inference");
        ("state", JStr "running"); ("origin_generation", JInt 1)]]);
     ("next", JStr release_next)]
    (release_previous_kernel Demo.lock "n" 9 "k1" "k2" "ops" "host rebooted" Demo.c5).2)
    as (_&_&_&H&_).
  - apply Demo.c5_reachable.
  - vm_compute. reflexivity.
  - exact H.
Defined.
