(* ===== verification/Dispatch.v ===== *)
(** Admission, the send barrier and the life of one attempt
    ([src/backend/app/node_agent/dispatch.py]).

    The dispatcher is single-threaded: between two suspension points its code
    is one atomic segment.  Every segment is a definition here, a function of
    the gate and of the durable store; a caller of [submit] or [exclusive] and
    the task of an admitted attempt carry the phase they are suspended in.
    How segments interleave, and what holds of every interleaving, is in
    [DispatchRuns].  A section under the barrier that awaits the store is one
    segment: the fields it reads after the await are written only under the
    barrier.  A store call may answer, fail or be cancelled, in the last two
    cases having committed or not ([fault]).

    The store is used through the interface [Store], which states what the
    dispatcher relies on; [DispatchRuns.node_store] discharges it from
    [NodeStore] and [Election].  The relay is a parameter: it may end in any way.  Timers only
    choose between segments.  The cancellation of a task before its first
    step, and a second cancellation during a shielded cleanup, are left out:
    both belong to the shutdown of the event loop. *)

From S2P Require Export Election.

(** * Data *)

Inductive GateState : Set := SERVING | DRAINING | BLOCKED | MAINTENANCE | LOST.

#[export] Instance GateState_eq_dec : EqDecision GateState.
Proof. solve_decision. Defined.

Definition gate_value (s : GateState) : string :=
  match s with
  | SERVING => "serving" | DRAINING => "draining" | BLOCKED => "blocked"
  | MAINTENANCE => "maintenance" | LOST => "lost"
  end.

Definition retry_after (s : GateState) : option Z :=
  match s with
  | SERVING => Some 1%Z | DRAINING => Some 30%Z | BLOCKED => Some 60%Z
  | MAINTENANCE => Some 60%Z | LOST => None
  end.

(** What a relay reports, and what the dispatcher makes of its end. *)
Inductive Outcome : Type :=
  | Completed (term : json) (result : option json) (replay : bool)
  | RuntimeRefused (term : json) (why : string)
  | NotSent (why : string)
  | Uncertain (why : string) (seen : json)
  | Withheld (why : string).

Definition is_uncertain (o : Outcome) : bool :=
  match o with Uncertain _ _ => true | _ => false end.

(** Where the task of an admitted attempt is suspended ([_run], [_settle]):
    not started; in the relay; ended, before [_settle]; committing; about to
    report a lost role; settled, before the clean-up.  [lifecycle] is computed
    once, before settling. *)
Inductive run_phase : Type :=
  | RStart
  | RSending
  | REnded (o : Outcome)
  | RCommitting (o : Outcome) (lifecycle : bool)
  | RLosing (o : Outcome) (lifecycle : bool)
  | RSettled (o : Outcome) (lifecycle : bool).

Record running := mk_running { r_kind : op_kind; r_phase : run_phase }.

(** The fields of [Dispatcher].  [admitted] is [_admitted] with the phase of
    each task; [slots] is what the semaphore has free. *)
Record gate := mk_gate {
  gstate : GateState;
  queued : nat;
  summary_op : option string;
  admitted : gmap string running;
  idle : bool;
  exclusive : option string;
  held_by_operator : bool;
  frozen : bool;
  frozen_epoch : option Z;
  restoring : gmap string Z;
  sending : gset string;
  quiet : bool;
  interrupted : gset string;
  uncommitted_unknown : gset string;
  slots : nat
}.

Definition put_state (x : GateState) (g : gate) : gate :=
  mk_gate x (queued g) (summary_op g) (admitted g) (idle g) (exclusive g) (held_by_operator g)
    (frozen g) (frozen_epoch g) (restoring g) (sending g) (quiet g) (interrupted g)
    (uncommitted_unknown g) (slots g).
Definition put_queued (x : nat) (g : gate) : gate :=
  mk_gate (gstate g) x (summary_op g) (admitted g) (idle g) (exclusive g) (held_by_operator g)
    (frozen g) (frozen_epoch g) (restoring g) (sending g) (quiet g) (interrupted g)
    (uncommitted_unknown g) (slots g).
Definition put_summary_op (x : option string) (g : gate) : gate :=
  mk_gate (gstate g) (queued g) x (admitted g) (idle g) (exclusive g) (held_by_operator g)
    (frozen g) (frozen_epoch g) (restoring g) (sending g) (quiet g) (interrupted g)
    (uncommitted_unknown g) (slots g).
Definition put_admitted (x : gmap string running) (g : gate) : gate :=
  mk_gate (gstate g) (queued g) (summary_op g) x (idle g) (exclusive g) (held_by_operator g)
    (frozen g) (frozen_epoch g) (restoring g) (sending g) (quiet g) (interrupted g)
    (uncommitted_unknown g) (slots g).
Definition put_idle (x : bool) (g : gate) : gate :=
  mk_gate (gstate g) (queued g) (summary_op g) (admitted g) x (exclusive g) (held_by_operator g)
    (frozen g) (frozen_epoch g) (restoring g) (sending g) (quiet g) (interrupted g)
    (uncommitted_unknown g) (slots g).
Definition put_exclusive (x : option string) (g : gate) : gate :=
  mk_gate (gstate g) (queued g) (summary_op g) (admitted g) (idle g) x (held_by_operator g)
    (frozen g) (frozen_epoch g) (restoring g) (sending g) (quiet g) (interrupted g)
    (uncommitted_unknown g) (slots g).
Definition put_held (x : bool) (g : gate) : gate :=
  mk_gate (gstate g) (queued g) (summary_op g) (admitted g) (idle g) (exclusive g) x (frozen g)
    (frozen_epoch g) (restoring g) (sending g) (quiet g) (interrupted g) (uncommitted_unknown g)
    (slots g).
Definition put_frozen (x : bool) (g : gate) : gate :=
  mk_gate (gstate g) (queued g) (summary_op g) (admitted g) (idle g) (exclusive g)
    (held_by_operator g) x (frozen_epoch g) (restoring g) (sending g) (quiet g) (interrupted g)
    (uncommitted_unknown g) (slots g).
Definition put_frozen_epoch (x : option Z) (g : gate) : gate :=
  mk_gate (gstate g) (queued g) (summary_op g) (admitted g) (idle g) (exclusive g)
    (held_by_operator g) (frozen g) x (restoring g) (sending g) (quiet g) (interrupted g)
    (uncommitted_unknown g) (slots g).
Definition put_restoring (x : gmap string Z) (g : gate) : gate :=
  mk_gate (gstate g) (queued g) (summary_op g) (admitted g) (idle g) (exclusive g)
    (held_by_operator g) (frozen g) (frozen_epoch g) x (sending g) (quiet g) (interrupted g)
    (uncommitted_unknown g) (slots g).
Definition put_sending (x : gset string) (g : gate) : gate :=
  mk_gate (gstate g) (queued g) (summary_op g) (admitted g) (idle g) (exclusive g)
    (held_by_operator g) (frozen g) (frozen_epoch g) (restoring g) x (quiet g) (interrupted g)
    (uncommitted_unknown g) (slots g).
Definition put_quiet (x : bool) (g : gate) : gate :=
  mk_gate (gstate g) (queued g) (summary_op g) (admitted g) (idle g) (exclusive g)
    (held_by_operator g) (frozen g) (frozen_epoch g) (restoring g) (sending g) x (interrupted g)
    (uncommitted_unknown g) (slots g).
Definition put_interrupted (x : gset string) (g : gate) : gate :=
  mk_gate (gstate g) (queued g) (summary_op g) (admitted g) (idle g) (exclusive g)
    (held_by_operator g) (frozen g) (frozen_epoch g) (restoring g) (sending g) (quiet g) x
    (uncommitted_unknown g) (slots g).
Definition put_uncommitted (x : gset string) (g : gate) : gate :=
  mk_gate (gstate g) (queued g) (summary_op g) (admitted g) (idle g) (exclusive g)
    (held_by_operator g) (frozen g) (frozen_epoch g) (restoring g) (sending g) (quiet g)
    (interrupted g) x (slots g).
Definition put_slots (x : nat) (g : gate) : gate :=
  mk_gate (gstate g) (queued g) (summary_op g) (admitted g) (idle g) (exclusive g)
    (held_by_operator g) (frozen g) (frozen_epoch g) (restoring g) (sending g) (quiet g)
    (interrupted g) (uncommitted_unknown g) x.

(** What a caller is told. *)
Inductive answer : Type :=
  | Refused (why : string) (retry : option Z) (operation : option Operation)
  | Existing (operation : Operation)
  | AnAttempt
  | Raises.

(** A call of [submit], or of [exclusive] (with the epoch of a restore). *)
Record call_args := mk_call {
  c_op : string;
  c_kind : op_kind;
  c_exclusive : bool;
  c_epoch : option Z;
  c_request_id : option string;
  c_payload_hash : option string;
  c_store_output : bool;
  c_provenance : dict
}.

(** Where a caller is suspended. *)
Inductive call_phase : Type :=
  | Observing
  | Admitting
  | Inserting
  | Conflicted
  | Waiting
  | WaitingIdle
  | WaitingSlot
  | Holding
  | NotPromoted
  | PromotionFailed
  | PromotionFailedAs (found : option op_state)
  | PromotionUnsettled
  | Unsending (why : string)
  | Tombstone
  | Losing (a : answer)
  | Ending (a : answer).

Record caller := mk_caller { c_args : call_args; c_phase : call_phase }.

(** What a store call meets: an answer, a failing database, or the
    cancellation of the task that awaits it. *)
Inductive fault : Set := Answers | Fails (committed : bool) | Cancelled (committed : bool).
Inductive call_error : Type := Raised (e : exn) | DatabaseError | TaskCancelled.

Inductive next : Type := Goto (p : call_phase) | Done (a : answer).

(** * What the dispatcher needs of the store *)

Class Store (Disk : Type) := {
  st_observe : string → Disk → option Operation;
  st_any_unknown : Disk → bool;
  st_insert_accepted : string → op_kind → option string → option string → bool →
    Disk → (exn + option Operation) * Disk;
  st_promote : string → dict → option Z → Disk → (exn + bool) * Disk;
  st_cancel_accepted : string → string → op_kind → Disk → (exn + option Operation) * Disk;
  st_unsent_after_promotion : string → string → Disk → (exn + bool) * Disk;
  st_mark_unknown : string → string → json → Disk → (exn + bool) * Disk;
  st_finish : string → op_state → json → option json → option string → bool →
    Disk → (exn + bool) * Disk;
  (** the state of an operation's row, and what other processes may do *)
  st_state : string → Disk → option op_state;
  st_wf : Disk → Prop;
  st_others : Disk → Disk → Prop
}.

Definition past_accepted (s : option op_state) : Prop := ∃ st, s = Some st ∧ st ≠ Accepted.

(** No call and no other process takes a row back to [accepted]. *)
Definition keeps {Disk} `{Store Disk} (s s' : Disk) : Prop :=
  st_wf s' ∧ ∀ op, past_accepted (st_state op s) → past_accepted (st_state op s').

(** What it relies on: a promotion is granted only for an accepted row and
    while nothing is unknown, and whatever happens to the store [keeps] it. *)
Class StoreLaws (Disk : Type) `{Store Disk} : Prop := {
  law_promote op prov epoch s s' :
    st_wf s → st_promote op prov epoch s = (inr true, s') →
    st_state op s = Some Accepted ∧ st_state op s' = Some Running ∧ st_any_unknown s = false;
  keeps_insert op k req hash keep s :
    st_wf s → keeps s (st_insert_accepted op k req hash keep s).2;
  keeps_promote op prov epoch s : st_wf s → keeps s (st_promote op prov epoch s).2;
  keeps_cancel op why k s : st_wf s → keeps s (st_cancel_accepted op why k s).2;
  keeps_unsent op why s : st_wf s → keeps s (st_unsent_after_promotion op why s).2;
  keeps_unknown op why seen s : st_wf s → keeps s (st_mark_unknown op why seen s).2;
  keeps_finish op st term result why replay s :
    st_wf s → keeps s (st_finish op st term result why replay s).2;
  keeps_others s s' : st_wf s → st_others s s' → keeps s s'
}.

(** * The gate *)

Definition close_locked (target : GateState) (g : gate) : gate :=
  if bool_decide (gstate g = LOST) then g
  else if frozen g && negb (bool_decide (target = LOST)) then g
  else if bool_decide (target = DRAINING) && bool_decide (gstate g = BLOCKED) then g
  else put_state target g.

Definition freeze_locked (epoch : option Z) (g : gate) : gate :=
  if bool_decide (gstate g = LOST) then g
  else put_state MAINTENANCE (put_frozen_epoch epoch (put_frozen true g)).

(** Frozen at this epoch, and the node to the restore alone. *)
Definition restorable_locked (epoch : option Z) (op : option string) (g : gate) : bool :=
  bool_decide (gstate g = MAINTENANCE) && frozen g && bool_decide (frozen_epoch g = epoch) &&
  bool_decide (exclusive g = op) && bool_decide (sending g = ∅).

(** The gate of a dispatcher that has just been constructed. *)
Definition new_gate (max_inflight : nat) : gate :=
  mk_gate SERVING 0 None ∅ true None false false None ∅ ∅ true ∅ ∅ max_inflight.

(** * Segments *)

Section Dispatcher.
Context {Disk : Type} `{Store Disk}.
Context (max_queued : nat).

Record node := mk_node { gate_of : gate; store_of : Disk }.

Definition on_gate (f : gate → gate) (nd : node) : node := mk_node (f (gate_of nd)) (store_of nd).

(** One store call under a fault. *)
Definition call {A} (f : fault) (m : Disk → (exn + A) * Disk) (nd : node) : (call_error + A) * node :=
  let out := m (store_of nd) in
  match f with
  | Answers => (match out.1 with inl e => inl (Raised e) | inr x => inr x end,
                mk_node (gate_of nd) out.2)
  | Fails committed => (inl DatabaseError, mk_node (gate_of nd) (if committed then out.2 else store_of nd))
  | Cancelled committed => (inl TaskCancelled, mk_node (gate_of nd) (if committed then out.2 else store_of nd))
  end.

Definition read {A} (f : fault) (m : Disk → A) (nd : node) : call_error + A :=
  match f with
  | Answers => inr (m (store_of nd))
  | Fails _ => inl DatabaseError
  | Cancelled _ => inl TaskCancelled
  end.

(** ** Commands: the operator's, the watchdog's, the maintenance hold's *)

Definition reopen_locked (f : fault) (nd : node) : (call_error + GateState) * node :=
  let g := gate_of nd in
  if bool_decide (gstate g = LOST) || bool_decide (exclusive g ≠ None) then (inr (gstate g), nd)
  else if frozen g then (inr MAINTENANCE, on_gate (put_state MAINTENANCE) nd)
  else
    let settle (blocked : bool) :=
      let st := if blocked then BLOCKED else SERVING in (inr st, on_gate (put_state st) nd) in
    if negb (bool_decide (uncommitted_unknown g = ∅)) then settle true
    else match read f st_any_unknown nd with
         | inl e => (inl e, nd)
         | inr blocked => settle blocked
         end.

Definition block (nd : node) : node := on_gate (close_locked BLOCKED) nd.
Definition lose_role (nd : node) : node := on_gate (close_locked LOST) nd.

(** [drain] up to its wait for [idle]. *)
Definition drain (nd : node) : node := on_gate (λ g, close_locked DRAINING (put_held true g)) nd.

Definition reopen (f : fault) (nd : node) : (call_error + GateState) * node :=
  reopen_locked f (on_gate (put_held false) nd).

Definition freeze (epoch : option Z) (nd : node) : node := on_gate (freeze_locked epoch) nd.

Definition thaw (f : fault) (nd : node) : (call_error + GateState) * node :=
  if negb (frozen (gate_of nd)) then (inr (gstate (gate_of nd)), nd)
  else
    let nd := on_gate (λ g, put_interrupted ∅ (put_frozen_epoch None (put_frozen false g))) nd in
    let g := gate_of nd in
    if bool_decide (gstate g = LOST) then (inr LOST, nd)
    else if bool_decide (exclusive g ≠ None) || held_by_operator g
    then (inr DRAINING, on_gate (put_state DRAINING) nd)
    else reopen_locked f nd.

(** [interrupt] up to its wait for the senders it cancelled; [None] when it
    raises.  Each cancelled sender ends by [SenderCancelled] below, or any
    other way if its end was already on the way. *)
Definition interrupt (nd : node) : option node :=
  if frozen (gate_of nd)
  then Some (on_gate (λ g, put_interrupted (interrupted g ∪ sending g) g) nd)
  else None.

(** [recheck_drain]: the watchdog reopens a drain nothing holds any more. *)
Definition recheck_drain (f : fault) (nd : node) : (call_error + GateState) * node :=
  let g := gate_of nd in
  if negb (bool_decide (gstate g = DRAINING)) || bool_decide (exclusive g ≠ None) ||
     held_by_operator g
  then (inr (gstate g), nd)
  else reopen_locked f nd.

Definition summary_admission_refusal (nd : node) : option answer :=
  let g := gate_of nd in
  if negb (bool_decide (gstate g = SERVING))
  then Some (Refused ("node_" +:+ gate_value (gstate g)) (retry_after (gstate g)) None)
  else if bool_decide (summary_op g ≠ None) then Some (Refused "summary_busy" (Some 2%Z) None)
  else None.

(** [_end_exclusive]; a reopening that fails leaves the gate draining. *)
Definition end_exclusive (f : fault) (op : string) (nd : node) : node :=
  if negb (bool_decide (exclusive (gate_of nd) = Some op)) then nd
  else
    let nd := on_gate (put_exclusive None) nd in
    let g := gate_of nd in
    if bool_decide (gstate g = DRAINING) && negb (held_by_operator g)
    then (reopen_locked f nd).2 else nd.

Inductive command : Type :=
  | CBlock | CLoseRole | CDrain | CReopen (f : fault) | CFreeze (epoch : option Z)
  | CThaw (f : fault) | CInterrupt | CRecheckDrain (f : fault).

Definition run_command (c : command) (nd : node) : node :=
  match c with
  | CBlock => block nd
  | CLoseRole => lose_role nd
  | CDrain => drain nd
  | CReopen f => (reopen f nd).2
  | CFreeze epoch => freeze epoch nd
  | CThaw f => (thaw f nd).2
  | CInterrupt => default nd (interrupt nd)
  | CRecheckDrain f => (recheck_drain f nd).2
  end.

(** ** A caller of [submit] or [exclusive] *)

(** The [finally] of each: [submit] gives its place in the queue back;
    [exclusive], when nothing was handed off, gives the node back. *)
Definition leave (c : call_args) (a : answer) (nd : node) : next * node :=
  if c_exclusive c
  then (Goto (Ending a), on_gate (λ g, put_restoring (delete (c_op c) (restoring g)) g) nd)
  else
    (Done a, on_gate (λ g,
       let g := put_queued (queued g - 1) g in
       if bool_decide (summary_op g = Some (c_op c)) && bool_decide (admitted g !! c_op c = None)
       then put_summary_op None g else g) nd).

Definition release_slot (g : gate) : gate := put_slots (slots g + 1) g.

Definition exclusive_kinds (epoch : option Z) : list op_kind :=
  match epoch with Some _ => RESTORE_KINDS | None => LIFECYCLE_KINDS end.

Definition observe_call (c : call_args) (f : fault) (nd : node) : next * node :=
  if c_exclusive c && negb (bool_decide (c_kind c ∈ exclusive_kinds (c_epoch c)))
  then (Done Raises, nd)
  else match read f (st_observe (c_op c)) nd with
       | inl _ => (Done Raises, nd)
       | inr (Some found) => (Done (Existing found), nd)
       | inr None => (Goto Admitting, nd)
       end.

Definition node_refuses (g : gate) : answer :=
  Refused ("node_" +:+ gate_value (gstate g)) (retry_after (gstate g)) None.

(** [submit]'s admission to the queue. *)
Definition admit_submit (c : call_args) (nd : node) : next * node :=
  let g := gate_of nd in
  if negb (bool_decide (gstate g = SERVING)) then (Done (node_refuses g), nd)
  else if max_queued <=? queued g then (Done (Refused "overloaded" (Some 2%Z) None), nd)
  else if bool_decide (c_kind c = KSummary) then
    if bool_decide (summary_op g ≠ None) then (Done (Refused "summary_busy" (Some 2%Z) None), nd)
    else (Goto Inserting,
          on_gate (λ g, put_queued (queued g + 1) (put_summary_op (Some (c_op c)) g)) nd)
  else (Goto Inserting, on_gate (λ g, put_queued (queued g + 1) g) nd).

(** [exclusive] takes the node. *)
Definition admit_exclusive (c : call_args) (nd : node) : next * node :=
  let g := gate_of nd in
  match c_epoch c with
  | Some epoch =>
      if negb (restorable_locked (Some epoch) None g)
      then (Done (Refused "not_frozen_at_epoch" None None), nd)
      else (Goto Inserting, on_gate (λ g,
              put_restoring (<[c_op c := epoch]> (restoring g)) (put_exclusive (Some (c_op c)) g)) nd)
  | None =>
      if negb (bool_decide (gstate g = SERVING)) then (Done (node_refuses g), nd)
      else (Goto Inserting,
            on_gate (λ g, close_locked DRAINING (put_exclusive (Some (c_op c)) g)) nd)
  end.

(** [_unsent]: the row is cancelled, and the refusal names it. *)
Definition unsent_call (c : call_args) (f : fault) (why : string) (nd : node) : next * node :=
  match call f (st_cancel_accepted (c_op c) why (c_kind c)) nd with
  | (inl (Raised (NotOwner _)), nd) => (Goto (Losing (Refused why None None)), nd)
  | (inl _, nd) => leave c Raises nd
  | (inr operation, nd) =>
      leave c (Refused why (retry_after (gstate (gate_of nd))) operation) nd
  end.

(** [_shielded(_unsent(...))], then the cancellation goes on. *)
Definition tombstone_call (c : call_args) (f : fault) (nd : node) : next * node :=
  match call f (st_cancel_accepted (c_op c) "cancelled_before_send" (c_kind c)) nd with
  | (inl (Raised (NotOwner _)), nd) => (Goto (Losing Raises), nd)
  | (_, nd) => leave c Raises nd
  end.

Definition insert_call (c : call_args) (f : fault) (nd : node) : next * node :=
  let args := if c_exclusive c then (None, None, false)
              else (c_request_id c, c_payload_hash c, c_store_output c) in
  match call f (st_insert_accepted (c_op c) (c_kind c) args.1.1 args.1.2 args.2) nd with
  | (inl (Raised (NotOwner _)), nd) => (Goto (Losing (Refused "node_lost" None None)), nd)
  | (inl (Raised SummaryBusy), nd) =>
      leave c (if c_exclusive c then Raises else Refused "summary_busy" (Some 2%Z) None) nd
  | (inl TaskCancelled, nd) => if c_exclusive c then leave c Raises nd else (Goto Tombstone, nd)
  | (inl _, nd) => leave c Raises nd
  | (inr None, nd) => (Goto Conflicted, nd)
  | (inr (Some _), nd) => (Goto (if c_exclusive c then WaitingIdle else Waiting), nd)
  end.

Definition conflict_call (c : call_args) (f : fault) (nd : node) : next * node :=
  match read f (st_observe (c_op c)) nd with
  | inl _ => leave c Raises nd
  | inr (Some found) => leave c (Existing found) nd
  | inr None => leave c (Refused "conflict" (Some 1%Z) None) nd
  end.

(** How a wait for a slot ends: a deadline, a closed gate, a slot, or the
    cancellation of the task.  [None]: it does not end this way now. *)
Inductive wake : Set := WDeadline | WGate | WSlot | WCancelled.

#[local] Instance wake_eq_dec : EqDecision wake.
Proof. solve_decision. Defined.

Definition take_slot (g : gate) : option gate :=
  match slots g with O => None | Datatypes.S free => Some (put_slots free g) end.

Definition wait_for_slot (w : wake) (nd : node) : option (next * node) :=
  match w with
  | WDeadline => Some (Goto (Unsending "deadline_before_send"), nd)
  | WGate =>
      if bool_decide (gstate (gate_of nd) = SERVING) then None
      else Some (Goto (Unsending (gate_value (gstate (gate_of nd)) +:+ "_before_send")), nd)
  | WSlot => (λ g, (Goto Holding, mk_node g (store_of nd))) <$> take_slot (gate_of nd)
  | WCancelled => Some (Goto Tombstone, nd)
  end.

(** [exclusive] waits for the node to be idle, then for a slot. *)
Definition wait_for_idle (w : wake) (nd : node) : option (next * node) :=
  match w with
  | WCancelled => Some (Goto Tombstone, nd)
  | _ => if idle (gate_of nd) then Some (Goto WaitingSlot, nd) else None
  end.

Definition wait_for_slot_alone (w : wake) (nd : node) : option (next * node) :=
  match w with
  | WCancelled => Some (Goto Tombstone, nd)
  | _ => (λ g, (Goto Holding, mk_node g (store_of nd))) <$> take_slot (gate_of nd)
  end.

(** The slot goes back, and the attempt will not be sent. *)
Definition turn_back (why : string) (nd : node) : next * node :=
  (Goto (Unsending why), on_gate release_slot nd).

(** The task is created: it is admitted, and has not run yet. *)
Definition admit_task (c : call_args) (g : gate) : gate :=
  put_admitted (<[c_op c := mk_running (c_kind c) RStart]> (admitted g)) (put_idle false g).

(** [_promote]'s section under the barrier. *)
Definition promote_submit (c : call_args) (lock_held : bool) (f : fault) (nd : node) : next * node :=
  let g := gate_of nd in
  if negb (bool_decide (gstate g = SERVING))
  then turn_back (gate_value (gstate g) +:+ "_before_send") nd
  else if negb lock_held then turn_back "lost_before_send" (on_gate (put_state LOST) nd)
  else
    let refuse (nd : node) :=
      if bool_decide (gstate (gate_of nd) = LOST) then turn_back "lost_before_send" nd
      else if frozen (gate_of nd) then turn_back "maintenance_before_send" nd
      else (Goto NotPromoted, on_gate release_slot nd) in
    match call f (st_promote (c_op c) (c_provenance c) None) nd with
    | (inr true, nd) => leave c AnAttempt (on_gate (admit_task c) nd)
    | (inr false, nd) => refuse nd
    | (inl (Raised (NotOwner _)), nd) => refuse (on_gate (put_state LOST) nd)
    | (inl (Raised (AdmissionClosed epoch)), nd) => refuse (on_gate (freeze_locked epoch) nd)
    | (inl _, nd) => (Goto PromotionFailed, on_gate release_slot nd)
    end.

(** Not promoted with the gate open: blocked by an unknown, or cancelled. *)
Definition not_promoted_call (c : call_args) (f : fault) (nd : node) : next * node :=
  match read f (st_observe (c_op c)) nd with
  | inl _ => leave c Raises nd
  | inr (Some current) =>
      if bool_decide (o_state current = CancelledUnsent)
      then leave c (Refused "cancelled" None (Some current)) nd
      else (Goto (Unsending "node_blocked"), nd)
  | inr None => (Goto (Unsending "node_blocked"), nd)
  end.

(** [exclusive]'s section under the barrier. *)
Definition promote_exclusive (c : call_args) (lock_held : bool) (f : fault) (nd : node)
    : next * node :=
  let g := gate_of nd in
  let restoring_ := bool_decide (c_epoch c ≠ None) in
  if restoring_ && negb (restorable_locked (c_epoch c) (Some (c_op c)) g)
  then turn_back "not_frozen_at_epoch" nd
  else if negb restoring_ && negb (bool_decide (gstate g = DRAINING))
  then turn_back (gate_value (gstate g) +:+ "_before_send") nd
  else if negb lock_held then turn_back "lost_before_send" (on_gate (put_state LOST) nd)
  else
    let refuse (why : option string) (nd : node) :=
      if bool_decide (gstate (gate_of nd) = LOST) then turn_back "lost_before_send" nd
      else match why with
           | Some why => turn_back why nd
           | None => if frozen (gate_of nd) && negb restoring_
                     then turn_back "maintenance_before_send" nd else turn_back "node_blocked" nd
           end in
    match call f (st_promote (c_op c) (c_provenance c) (c_epoch c)) nd with
    | (inr true, nd) => (Done AnAttempt, on_gate (admit_task c) nd)
    | (inr false, nd) => refuse None nd
    | (inl (Raised (NotOwner _)), nd) => refuse None (on_gate (put_state LOST) nd)
    | (inl (Raised (AdmissionClosed epoch)), nd) =>
        if restoring_ then refuse (Some "hold_not_closed_at_epoch") nd
        else refuse None (on_gate (freeze_locked epoch) nd)
    | (inl _, nd) => (Goto PromotionFailed, on_gate release_slot nd)
    end.

(** [_unsent_after_failed_promotion]: nothing was sent, so the row is settled
    as unsent whichever state it reached; failing that, the node blocks. *)
Definition failed_observe (c : call_args) (f : fault) (nd : node) : next * node :=
  match read f (st_observe (c_op c)) nd with
  | inl _ => (Goto PromotionUnsettled, nd)
  | inr found => (Goto (PromotionFailedAs (o_state <$> found)), nd)
  end.

Definition failed_settle (c : call_args) (f : fault) (found : option op_state) (nd : node)
    : next * node :=
  let after {A} (out : (call_error + A) * node) :=
    match out with
    | (inl _, nd) => (Goto PromotionUnsettled, nd)
    | (inr _, nd) => leave c Raises nd
    end in
  match found with
  | None | Some Accepted => after (call f (st_cancel_accepted (c_op c) "promotion_failed" (c_kind c)) nd)
  | Some Running => after (call f (st_unsent_after_promotion (c_op c) "promotion_failed") nd)
  | Some _ => leave c Raises nd
  end.

Definition mark_uncommitted (op : string) (g : gate) : gate :=
  close_locked BLOCKED (put_uncommitted ({[op]} ∪ uncommitted_unknown g) g).

(** What a segment is given: the store's answer, the host lock's, and how a
    wait ends.  [WCancelled] also cancels a wait for the barrier. *)
Record oracle := mk_oracle { o_fault : fault; o_lock_held : bool; o_wake : wake }.

(** The next segment of a caller; [None] while it cannot be scheduled so. *)
Definition caller_segment (c : call_args) (p : call_phase) (o : oracle) (nd : node)
    : option (next * node) :=
  let f := o_fault o in
  let cancelled := bool_decide (o_wake o = WCancelled) in
  match p with
  | Observing => Some (observe_call c f nd)
  | Admitting => Some (if cancelled then (Done Raises, nd)
                       else if c_exclusive c then admit_exclusive c nd else admit_submit c nd)
  | Inserting => Some (insert_call c f nd)
  | Conflicted => Some (conflict_call c f nd)
  | Waiting => wait_for_slot (o_wake o) nd
  | WaitingIdle => wait_for_idle (o_wake o) nd
  | WaitingSlot => wait_for_slot_alone (o_wake o) nd
  | Holding => Some (if cancelled then (Goto PromotionFailed, on_gate release_slot nd)
                     else if c_exclusive c then promote_exclusive c (o_lock_held o) f nd
                     else promote_submit c (o_lock_held o) f nd)
  | NotPromoted => Some (not_promoted_call c f nd)
  | PromotionFailed => Some (failed_observe c f nd)
  | PromotionFailedAs found => Some (failed_settle c f found nd)
  | PromotionUnsettled => Some (leave c Raises (on_gate (mark_uncommitted (c_op c)) nd))
  | Unsending why => Some (unsent_call c f why nd)
  | Tombstone => Some (tombstone_call c f nd)
  | Losing a => Some (if cancelled then leave c Raises nd else leave c a (lose_role nd))
  | Ending a => Some (if cancelled then (Done Raises, nd)
                      else (Done a, end_exclusive f (c_op c) nd))
  end.

(** ** The task of an admitted attempt *)

(** How the relay ends, as its task sees it. *)
Inductive relay_end : Type :=
  | Returns (o : Outcome)
  | SenderCancelled
  | RunCancelled
  | RelayRaises (class : string).

Definition outcome_of (g : gate) (op : string) (e : relay_end) : Outcome :=
  match e with
  | Returns o => o
  | SenderCancelled =>
      if bool_decide (op ∈ interrupted g) then Uncertain "maintenance_interrupted" (JObj [])
      else Uncertain "relay_cancelled" (JObj [])
  | RunCancelled => Uncertain "relay_cancelled" (JObj [])
  | RelayRaises class => Uncertain ("relay_error:" +:+ class) (JObj [])
  end.

Definition set_phase (op : string) (r : running) (p : run_phase) (g : gate) : gate :=
  put_admitted (<[op := mk_running (r_kind r) p]> (admitted g)) g.

(** The final send barrier: withheld by a freeze, unless a restore frozen at
    its own epoch. *)
Definition withheld (op : string) (g : gate) : bool :=
  match restoring g !! op with
  | Some epoch => negb (frozen g && bool_decide (frozen_epoch g = Some epoch))
  | None => frozen g
  end.

Definition run_start (op : string) (r : running) (g : gate) : gate :=
  if withheld op g then set_phase op r (REnded (Withheld "maintenance_before_send")) g
  else set_phase op r RSending (put_quiet false (put_sending ({[op]} ∪ sending g) g)).

(** The relay has ended: this sender is gone. *)
Definition run_end (op : string) (r : running) (e : relay_end) (g : gate) : gate :=
  let left := sending g ∖ {[op]} in
  let quiet_now := if bool_decide (left = ∅) then true else quiet g in
  set_phase op r (REnded (outcome_of g op e)) (put_quiet quiet_now (put_sending left g)).

Definition is_lifecycle (op : string) (r : running) (g : gate) : bool :=
  bool_decide (r_kind r ∈ LIFECYCLE_KINDS) || bool_decide (is_Some (restoring g !! op)).

(** [_settle] up to the first commit: an uncertain attempt blocks first. *)
Definition settle_begin (op : string) (r : running) (o : Outcome) (g : gate) : gate :=
  let lifecycle := is_lifecycle op r g in
  set_phase op r (RCommitting o lifecycle) (if is_uncertain o then mark_uncommitted op g else g).

(** What [_settle] commits for an outcome. *)
Definition commit_outcome (op : string) (o : Outcome) : Disk → (exn + bool) * Disk :=
  match o with
  | Completed term result replay => st_finish op OpCompleted term result None replay
  | RuntimeRefused term why => st_finish op OpFailed term None (Some why) false
  | NotSent why => st_finish op OpFailed (JObj []) None (Some ("not_sent:" +:+ why)) false
  | Withheld why => st_unsent_after_promotion op why
  | Uncertain why seen => st_mark_unknown op why seen
  end.

(** One try of the commit; a database error is retried, never reinterpreted. *)
Definition settle_commit (op : string) (r : running) (o : Outcome) (lifecycle : bool) (f : fault)
    (nd : node) : node :=
  match call f (commit_outcome op o) nd with
  | (inl (Raised (NotOwner _)), nd) => on_gate (set_phase op r (RLosing o lifecycle)) nd
  | (inl TaskCancelled, nd) => on_gate (set_phase op r (RSettled o lifecycle)) nd
  | (inl _, nd) => on_gate (set_phase op r (RCommitting o lifecycle)) nd
  | (inr _, nd) => on_gate (λ g, set_phase op r (RSettled o lifecycle)
      (if is_uncertain o then put_uncommitted (uncommitted_unknown g ∖ {[op]}) g else g)) nd
  end.

(** The clean-up of [_run]: whether [_end_exclusive] is still to come. *)
Definition run_finally (op : string) (lifecycle : bool) (g : gate) : gate :=
  let left := delete op (admitted g) in
  let g := put_admitted left (release_slot g) in
  let g := if bool_decide (summary_op g = Some op) then put_summary_op None g else g in
  let g := if bool_decide (left = ∅) then put_idle true g else g in
  if lifecycle then put_restoring (delete op (restoring g)) g else g.

(** The next segment of an admitted attempt's task, and whether it leaves
    [_end_exclusive] to be run. *)
Definition run_segment (op : string) (r : running) (e : relay_end) (f : fault) (nd : node)
    : node * bool :=
  match r_phase r with
  | RStart => (on_gate (run_start op r) nd, false)
  | RSending => (on_gate (run_end op r e) nd, false)
  | REnded o =>
      (on_gate (match f with
                | Cancelled _ => λ g, set_phase op r (RSettled o (is_lifecycle op r g)) g
                | _ => settle_begin op r o
                end) nd, false)
  | RCommitting o lifecycle => (settle_commit op r o lifecycle f nd, false)
  | RLosing o lifecycle => (on_gate (set_phase op r (RSettled o lifecycle)) (lose_role nd), false)
  | RSettled _ lifecycle => (on_gate (run_finally op lifecycle) nd, lifecycle)
  end.
End Dispatcher.
Arguments node : clear implicits.
