(* ===== verification/DispatchRuns.v ===== *)
(** Every interleaving of the dispatcher's segments
    ([src/backend/app/node_agent/dispatch.py]).

    [dstep] lets any caller, any admitted task, any command of the operator or
    the watchdog and any other process of the platform take its next step.
    [caller_move] summarises what a caller's segment can do to the gate, and
    the invariants ([gate_shut], [gate_books], [ledger], [counts], [alone]) are
    proved over it; [world_ok] puts them together for every reachable state.
    [node_store] shows that the operation store is a store the dispatcher can
    rely on, and [exec_all] runs the model. *)

From S2P Require Export Dispatch.

(** * The dispatcher's runs *)

(** The gate and the store, the callers in flight, the lifecycle tasks about
    to end, and, in order, the operations whose relay was started. *)
Record world (Disk : Type) := mk_world {
  nd : node Disk;
  callers : gmap nat caller;
  ending : gset string;
  sent : list string
}.
Arguments mk_world {_}.
Arguments nd {_}.
Arguments callers {_}.
Arguments ending {_}.
Arguments sent {_}.

Section Runs.
Context {Disk : Type} `{Store Disk}.
Context (max_inflight max_queued : nat).
(** Which operation ids name lifecycle operations. *)
Context (lifecycle_id : string → bool).

Abbreviation W := (world Disk).

(** The discipline of the callers: an operation id names one sort of call,
    and lifecycle kinds go through [exclusive]. *)
Definition call_ok (c : call_args) : Prop :=
  c_exclusive c = lifecycle_id (c_op c) ∧
  (c_exclusive c = false → c_kind c ∉ LIFECYCLE_KINDS).

Definition resume (i : nat) (c : call_args) (n : next) (l : gmap nat caller) : gmap nat caller :=
  match n with Goto p => <[i := mk_caller c p]> l | Done _ => delete i l end.

Definition started (r : running) (op : string) (g : gate) : bool :=
  match r_phase r with RStart => negb (withheld op g) | _ => false end.

Inductive dstep : W → W → Prop :=
  | dstep_call w i c :
      callers w !! i = None → call_ok c →
      dstep w (mk_world (nd w) (<[i := mk_caller c Observing]> (callers w)) (ending w) (sent w))
  | dstep_caller w i c p o n nd' :
      callers w !! i = Some (mk_caller c p) →
      caller_segment max_queued c p o (nd w) = Some (n, nd') →
      dstep w (mk_world nd' (resume i c n (callers w)) (ending w) (sent w))
  | dstep_run w op r e f nd' ends :
      admitted (gate_of (nd w)) !! op = Some r →
      run_segment op r e f (nd w) = (nd', ends) →
      dstep w (mk_world nd' (callers w)
                 (if ends then {[op]} ∪ ending w else ending w)
                 (if started r op (gate_of (nd w)) then sent w ++ [op] else sent w))
  | dstep_end w op f :
      op ∈ ending w →
      dstep w (mk_world (end_exclusive f op (nd w)) (callers w) (ending w ∖ {[op]}) (sent w))
  | dstep_command w c :
      dstep w (mk_world (run_command c (nd w)) (callers w) (ending w) (sent w))
  | dstep_others w s' :
      st_others (store_of (nd w)) s' →
      dstep w (mk_world (mk_node (gate_of (nd w)) s') (callers w) (ending w) (sent w)).

(** A dispatcher just constructed, over any store. *)
Definition fresh (w : W) : Prop :=
  gate_of (nd w) = new_gate max_inflight ∧ st_wf (store_of (nd w)) ∧
  callers w = ∅ ∧ ending w = ∅ ∧ sent w = [].

Definition dreachable (w : W) : Prop := ∃ w0, fresh w0 ∧ rtc dstep w0 w.
End Runs.

(** * Invariants of the gate *)

(** What the gate's flags say of its state. *)
Record gate_shut (g : gate) : Prop := {
  shut_frozen : frozen g = true → gstate g = MAINTENANCE ∨ gstate g = LOST;
  shut_unknown : uncommitted_unknown g ≠ ∅ → gstate g ≠ SERVING;
  shut_exclusive : exclusive g ≠ None → gstate g ≠ SERVING
}.

(** What the gate's books say of the admitted tasks. *)
Record gate_books (g : gate) : Prop := {
  books_idle : idle g = true ↔ admitted g = ∅;
  books_quiet : quiet g = true ↔ sending g = ∅;
  books_sending : ∀ op, op ∈ sending g ↔ r_phase <$> admitted g !! op = Some RSending;
  books_unknown : ∀ op o lc, r_phase <$> admitted g !! op = Some (RCommitting o lc) →
    is_uncertain o = true → op ∈ uncommitted_unknown g
}.

Lemma close_locked_cases target g :
  close_locked target g = g ∧
    (gstate g = LOST ∨ frozen g = true ∨ (target = DRAINING ∧ gstate g = BLOCKED)) ∨
  close_locked target g = put_state target g ∧ gstate g ≠ LOST ∧
    (frozen g = true → target = LOST) ∧ (target = DRAINING → gstate g ≠ BLOCKED).
Proof.
  unfold close_locked. case_bool_decide as H1; [by left; auto|].
  destruct (frozen g) eqn:Hf, (bool_decide (target = LOST)) eqn:Ht; simpl; 
    rewrite ?bool_decide_eq_true, ?bool_decide_eq_false in *; subst; auto 10;
    destruct (bool_decide _ && bool_decide _) eqn:Hd;
    rewrite ?andb_true_iff, ?andb_false_iff, ?bool_decide_eq_true, ?bool_decide_eq_false in *;
    intuition congruence.
Qed.

Lemma close_locked_shut target g : target ≠ SERVING → gate_shut g → gate_shut (close_locked target g).
Proof.
  intros Ht [Hf Hu He].
  destruct (close_locked_cases target g) as [[-> _]|[-> (_&Hl&_)]]; [done|].
  split; simpl; auto.
Qed.

Lemma freeze_locked_shut epoch g : gate_shut g → gate_shut (freeze_locked epoch g).
Proof. intros [Hf Hu He]. unfold freeze_locked. case_bool_decide; [done|]. split; simpl; auto. Qed.

Lemma lost_shut g : gate_shut g → gate_shut (put_state LOST g).
Proof. intros []. split; simpl; auto. Qed.

Section Invariants.
Context {Disk : Type} `{Store Disk}.
Context (max_queued : nat).
Implicit Types (nd : node Disk) (g : gate).

Lemma call_gate {A} f (m : Disk → (exn + A) * Disk) nd r nd' :
  call f m nd = (r, nd') → gate_of nd' = gate_of nd.
Proof. destruct f; simpl; by intros [= <- <-]. Qed.

Lemma reopen_locked_shut f nd :
  gate_shut (gate_of nd) → gate_shut (gate_of (reopen_locked f nd).2).
Proof.
  intros Hok. unfold reopen_locked.
  destruct (bool_decide _) eqn:Hl; [done|]. apply bool_decide_eq_false in Hl. simpl.
  destruct (bool_decide (exclusive _ ≠ None)) eqn:Hx; [done|]. apply bool_decide_eq_false in Hx.
  destruct (frozen (gate_of nd)) eqn:Hfr; [split; simpl; auto|].
  destruct (bool_decide (uncommitted_unknown _ = ∅)) eqn:Hun; simpl;
    rewrite ?bool_decide_eq_true, ?bool_decide_eq_false in Hun.
  - destruct (read _ _ _) as [e|[]]; simpl; [done|..]; split; simpl; intros; congruence || tauto.
  - split; simpl; congruence.
Qed.

Lemma command_shut c nd : gate_shut (gate_of nd) → gate_shut (gate_of (run_command c nd)).
Proof.
  intros Hok. destruct c as [| | |f|epoch|f| |f]; simpl.
  - by apply close_locked_shut.
  - by apply close_locked_shut.
  - apply close_locked_shut; [done|]. by destruct Hok; split.
  - apply reopen_locked_shut. by destruct Hok; split.
  - by apply freeze_locked_shut.
  - unfold thaw. destruct (frozen (gate_of nd)) eqn:Hf; simpl; [|done].
    set (nd1 := on_gate _ nd).
    assert (gstate (gate_of nd) ≠ SERVING) as Hs by (destruct (shut_frozen _ Hok Hf); congruence).
    assert (gate_shut (gate_of nd1)) as Hok1 by (destruct Hok; split; simpl; auto).
    case_bool_decide; [done|]. case_match; [|by apply reopen_locked_shut].
    split; simpl; done.
  - unfold interrupt. case_match; [|done]. by destruct Hok; split.
  - unfold recheck_drain. case_match; [done|]. by apply reopen_locked_shut.
Qed.

Lemma end_exclusive_shut f op nd :
  gate_shut (gate_of nd) → gate_shut (gate_of (end_exclusive f op nd)).
Proof.
  intros Hok. unfold end_exclusive. case_match; [done|].
  assert (gate_shut (gate_of (on_gate (put_exclusive None) nd))) by (destruct Hok; split; simpl; done).
  case_match; [by apply reopen_locked_shut|done].
Qed.

Lemma leave_shut c a nd : gate_shut (gate_of nd) → gate_shut (gate_of (leave c a nd).2).
Proof.
  intros []. unfold leave. destruct (c_exclusive c); simpl; [by split|].
  case_match; by split.
Qed.

Lemma mark_uncommitted_shut op g : gate_shut g → gate_shut (mark_uncommitted op g).
Proof.
  intros [Hf Hu He]. unfold mark_uncommitted.
  destruct (close_locked_cases BLOCKED (put_uncommitted ({[op]} ∪ uncommitted_unknown g) g))
    as [[-> Hc]|[-> (_&Hc&_)]]; split; simpl in *; auto; try done.
  intros _. destruct Hc as [Hc|[Hc|[? _]]]; [congruence| |done]. destruct (Hf Hc); congruence.
Qed.
End Invariants.

(** * What a caller's segment does to the gate

    [caller_move] is the specification of [caller_segment]: the few ways a
    caller's progress touches the gate.  The invariants are proved of it, and
    [caller_segment_moves] shows that every segment is one of them. *)

(** Past its admission, with a [finally] to run. *)
Definition entered (p : call_phase) : bool :=
  match p with Observing | Admitting | Ending _ => false | _ => true end.

Definition holding (p : call_phase) : bool := match p with Holding => true | _ => false end.

(** A caller that waits alone found the node idle. *)
Definition waits_alone (p : call_phase) : bool :=
  match p with WaitingSlot | Holding => true | _ => false end.

(** The phases only one of the two calls goes through. *)
Definition phase_ok (c : call_args) (p : call_phase) : Prop :=
  match p with
  | Waiting => c_exclusive c = false
  | WaitingIdle | WaitingSlot | Ending _ => c_exclusive c = true
  | _ => True
  end.

(** What else may happen to the gate on a refused path. *)
Inductive gate_event (g : gate) : gate → Prop :=
  | event_none : gate_event g g
  | event_lost : gate_event g (put_state LOST g)
  | event_close : gate_event g (close_locked LOST g)
  | event_freeze epoch : gate_event g (freeze_locked epoch g)
  | event_block op : gate_event g (mark_uncommitted op g).

Section Moves.
Context {Disk : Type} `{StoreLaws Disk}.
Context (max_queued : nat).
Implicit Types (nd : node Disk) (g : gate).

Lemma keeps_refl (s : Disk) : st_wf s → keeps s s.
Proof. by split. Qed.
#[local] Hint Resolve keeps_refl keeps_insert keeps_promote keeps_cancel keeps_unsent
  keeps_unknown keeps_finish : nexus.

Inductive caller_move (c : call_args) : call_phase → node Disk → next → node Disk → Prop :=
  | move_on p p' g s s' :
      entered p' = entered p → holding p = false → holding p' = false →
      (∀ a, p ≠ Ending a) → (∀ a, p' ≠ Ending a) → phase_ok c p' →
      (p' = WaitingSlot → p = WaitingIdle ∧ idle g = true) → (st_wf s → keeps s s') →
      caller_move c p (mk_node g s) (Goto p') (mk_node g s')
  | move_away p a nd :
      entered p = false → caller_move c p nd (Done a) nd
  | move_queue g s summary :
      c_exclusive c = false → gstate g = SERVING → queued g < max_queued →
      caller_move c Admitting (mk_node g s) (Goto Inserting)
        (mk_node (put_queued (queued g + 1) (put_summary_op summary g)) s)
  | move_restore g s epoch :
      c_exclusive c = true → c_epoch c = Some epoch → restorable_locked (Some epoch) None g = true →
      caller_move c Admitting (mk_node g s) (Goto Inserting)
        (mk_node (put_restoring (<[c_op c := epoch]> (restoring g))
                    (put_exclusive (Some (c_op c)) g)) s)
  | move_claim g s :
      c_exclusive c = true → c_epoch c = None → gstate g = SERVING →
      caller_move c Admitting (mk_node g s) (Goto Inserting)
        (mk_node (close_locked DRAINING (put_exclusive (Some (c_op c)) g)) s)
  | move_slot p g s free :
      p = Waiting ∨ p = WaitingSlot → slots g = Datatypes.S free →
      caller_move c p (mk_node g s) (Goto Holding) (mk_node (put_slots free g) s)
  | move_back p' g g1 s s' :
      gate_event g g1 → entered p' = true → waits_alone p' = false → phase_ok c p' →
      (st_wf s → keeps s s') →
      caller_move c Holding (mk_node g s) (Goto p') (mk_node (release_slot g1) s')
  | move_admit_submit g s s' :
      c_exclusive c = false → gstate g = SERVING →
      st_promote (c_op c) (c_provenance c) None s = (inr true, s') →
      caller_move c Holding (mk_node g s) (leave c AnAttempt (mk_node (admit_task c g) s')).1
        (leave c AnAttempt (mk_node (admit_task c g) s')).2
  | move_admit_exclusive g s s' :
      c_exclusive c = true →
      match c_epoch c with
      | Some epoch => restorable_locked (Some epoch) (Some (c_op c)) g = true
      | None => gstate g = DRAINING
      end →
      st_promote (c_op c) (c_provenance c) (c_epoch c) s = (inr true, s') →
      caller_move c Holding (mk_node g s) (Done AnAttempt) (mk_node (admit_task c g) s')
  | move_leave p a g g1 s s' :
      gate_event g g1 → entered p = true → holding p = false → (st_wf s → keeps s s') →
      caller_move c p (mk_node g s) (leave c a (mk_node g1 s')).1 (leave c a (mk_node g1 s')).2
  | move_end a f nd :
      caller_move c (Ending a) nd (Done a) (end_exclusive f (c_op c) nd).

(** Split a segment into the ways it can end. *)
Ltac segments H :=
  unfold caller_segment, observe_call, admit_submit, admit_exclusive, insert_call, conflict_call,
    wait_for_slot, wait_for_idle, wait_for_slot_alone, promote_submit, promote_exclusive,
    not_promoted_call, failed_observe, failed_settle, unsent_call, tombstone_call, turn_back,
    take_slot, call, read in H;
  repeat (case_match; simplify_eq/=).

(** Name the result of a [leave] by the call that gives it. *)
Ltac name_leave :=
  match goal with
  | Hl : leave ?c ?a ?x = (?n, ?nd') |- _ =>
      replace n with (leave c a x).1 by (by rewrite Hl);
      replace nd' with (leave c a x).2 by (by rewrite Hl); clear Hl
  end.

Ltac caller_leaf :=
  try name_leave; unfold on_gate, lose_role; cbn [gate_of store_of]; unbool;
  first
    [ apply move_away; reflexivity
    | apply move_on; solve [done | by intros | intros; auto with nexus]
    | eapply move_slot; by eauto
    | apply move_back; solve [constructor | done | intros; auto with nexus]
    | eapply move_leave; solve [constructor | done | intros; auto with nexus]
    | idtac ].

Lemma caller_segment_moves c p o nd n nd' :
  phase_ok c p → caller_segment max_queued c p o nd = Some (n, nd') → caller_move c p nd n nd'.
Proof.
  intros Hp Hs. destruct nd as [g s]. destruct p.
  all: segments Hs; simplify_eq/=; caller_leaf.
  - by apply move_restore.
  - by apply move_claim.
  - by apply move_queue.
  - replace (put_queued _ g) with (put_queued (queued g + 1) (put_summary_op (summary_op g) g))
      by (by destruct g). by apply move_queue.
  - apply move_admit_exclusive; [done| |by apply injective_projections].
    destruct (c_epoch c) as [epoch|]; simpl in *; unbool; done.
  - apply move_admit_submit; [done..|by apply injective_projections].
  - apply move_end.
Qed.

(** ** The flags *)

Lemma gate_event_shut g g1 : gate_event g g1 → gate_shut g → gate_shut g1.
Proof.
  destruct 1; auto using lost_shut, freeze_locked_shut, mark_uncommitted_shut.
  by apply close_locked_shut.
Qed.

Lemma caller_move_shut c p nd n nd' :
  caller_move c p nd n nd' → gate_shut (gate_of nd) → gate_shut (gate_of nd').
Proof.
  destruct 1 as [| |g s summary|g s epoch Hx He Hr|g s Hx He Hs|p g s free|p' g g1 s s' Hev
                |g s s' Hx Hs|g s s' Hx Hr|p a g g1 s s' Hev|]; simpl; intros Hok; try done.
  - by destruct Hok; split.
  - unfold restorable_locked in Hr. unbool. destruct Hok. split; simpl; intros; auto; congruence.
  - destruct (close_locked_cases DRAINING (put_exclusive (Some (c_op c)) g)) as [[-> Hc]|[-> _]].
    + destruct Hok as [Hf _ _]. simpl in Hc.
      destruct Hc as [Hc|[Hc|[_ Hc]]]; [congruence|destruct (Hf Hc); congruence|congruence].
    + destruct Hok as [Hf _ _]. split; simpl; try done.
      intros Hc. destruct (Hf Hc); congruence.
  - by destruct Hok; split.
  - apply (gate_event_shut _ _ Hev) in Hok. by destruct Hok; split.
  - apply leave_shut. simpl. by destruct Hok; split.
  - by destruct Hok; split.
  - apply leave_shut. simpl. by eapply gate_event_shut.
  - by apply end_exclusive_shut.
Qed.

Lemma set_phase_shut op r ph g : gate_shut g → gate_shut (set_phase op r ph g).
Proof. intros []. by split. Qed.

Lemma run_segment_shut op r e f nd nd' ends :
  run_segment op r e f nd = (nd', ends) → gate_shut (gate_of nd) → gate_shut (gate_of nd').
Proof.
  unfold run_segment. intros Hr Hok. destruct (r_phase r) as [| |o|o lc|o lc|o lc]; simplify_eq/=.
  - unfold run_start. case_match; destruct Hok; by split.
  - destruct Hok; by split.
  - unfold settle_begin. repeat case_match; apply set_phase_shut; auto using mark_uncommitted_shut.
  - unfold settle_commit, call. destruct Hok as [Hf Hu He].
    repeat (case_match; simplify_eq/=); split; simpl; auto; intros Hne; apply Hu; set_solver.
  - by apply set_phase_shut, close_locked_shut.
  - unfold run_finally. destruct Hok. repeat case_match; by split.
Qed.
End Moves.

(** ** What most segments leave alone *)

Record untouched (g g' : gate) : Prop := {
  un_admitted : admitted g' = admitted g;
  un_idle : idle g' = idle g;
  un_sending : sending g' = sending g;
  un_quiet : quiet g' = quiet g;
  un_slots : slots g' = slots g;
  un_queued : queued g' = queued g;
  un_restoring : restoring g' = restoring g;
  un_uncommitted : uncommitted_unknown g ⊆ uncommitted_unknown g'
}.

#[export] Instance untouched_preorder : PreOrder untouched.
Proof.
  split; [by intros g; split|].
  intros g1 g2 g3 [] []. split; by etrans.
Qed.

Lemma close_locked_untouched target g : untouched g (close_locked target g).
Proof. destruct (close_locked_cases target g) as [[-> _]|[-> _]]; by split. Qed.

Lemma gate_event_untouched g g1 : gate_event g g1 → untouched g g1.
Proof.
  destruct 1 as [| | |epoch|op]; [by split|by split|apply close_locked_untouched| |].
  - unfold freeze_locked. case_match; by split.
  - unfold mark_uncommitted. etrans; [|apply close_locked_untouched]. split; simpl; set_solver.
Qed.

Lemma gate_event_exclusive g g1 : gate_event g g1 → exclusive g1 = exclusive g.
Proof.
  destruct 1 as [| | |epoch|op]; try done; unfold freeze_locked, mark_uncommitted.
  - by destruct (close_locked_cases LOST g) as [[-> _]|[-> _]].
  - by case_match.
  - by destruct (close_locked_cases BLOCKED (put_uncommitted ({[op]} ∪ uncommitted_unknown g) g))
      as [[-> _]|[-> _]].
Qed.

Lemma books_untouched g g' : untouched g g' → gate_books g → gate_books g'.
Proof.
  intros [Ha Hi Hs Hq _ _ _ Hu] [bi bq bs bu]. split; rewrite ?Ha, ?Hi, ?Hs, ?Hq; try done.
  intros op o lc Hop Ho. apply Hu. eauto.
Qed.

Section Untouched.
Context {Disk : Type} `{Store Disk}.
Implicit Types (nd : node Disk).

Lemma reopen_locked_untouched f nd :
  untouched (gate_of nd) (gate_of (reopen_locked f nd).2) ∧
  exclusive (gate_of (reopen_locked f nd).2) = exclusive (gate_of nd) ∧
  store_of (reopen_locked f nd).2 = store_of nd.
Proof. unfold reopen_locked. repeat case_match; simplify_eq/=; repeat split; set_solver. Qed.

Lemma end_exclusive_untouched f op nd :
  untouched (gate_of nd) (gate_of (end_exclusive f op nd)) ∧
  exclusive (gate_of (end_exclusive f op nd)) =
    (if bool_decide (exclusive (gate_of nd) = Some op) then None else exclusive (gate_of nd)) ∧
  store_of (end_exclusive f op nd) = store_of nd.
Proof.
  unfold end_exclusive. case_bool_decide as Hx; simpl; [|by repeat split].
  case_match; [|by repeat split].
  destruct (reopen_locked_untouched f (on_gate (put_exclusive None) nd)) as (?&->&->).
  split; [|done]. etrans; [|done]. by split.
Qed.

Lemma command_untouched c nd :
  untouched (gate_of nd) (gate_of (run_command c nd)) ∧
  exclusive (gate_of (run_command c nd)) = exclusive (gate_of nd) ∧
  store_of (run_command c nd) = store_of nd.
Proof.
  assert (∀ target (g : gate), exclusive (close_locked target g) = exclusive g) as Hc
    by (intros target g; by destruct (close_locked_cases target g) as [[-> _]|[-> _]]).
  assert (∀ f g1 s1, untouched (gate_of nd) g1 → exclusive g1 = exclusive (gate_of nd) →
            s1 = store_of nd → let nd' := (reopen_locked f (mk_node g1 s1)).2 in
            untouched (gate_of nd) (gate_of nd') ∧ exclusive (gate_of nd') = exclusive (gate_of nd) ∧
            store_of nd' = store_of nd) as Hr.
  { intros f g1 s1 Hu Hx -> nd'. destruct (reopen_locked_untouched f (mk_node g1 (store_of nd))) as (?&?&?).
    split_and!; [by etrans|by etrans|done]. }
  destruct c as [| | |f|epoch|f| |f]; simpl.
  - rewrite Hc. split_and!; [apply close_locked_untouched|done..].
  - rewrite Hc. split_and!; [apply close_locked_untouched|done..].
  - rewrite Hc. split_and!; [etrans; [|apply close_locked_untouched]|done..]. by split.
  - apply Hr; [by split|done..].
  - unfold freeze_locked. case_match; by repeat split.
  - unfold thaw. case_match; [by repeat split|]. case_match; [by repeat split|].
    case_match; [by repeat split|]. apply Hr; [by split|done..].
  - unfold interrupt. case_match; by repeat split.
  - unfold recheck_drain. case_match; [by repeat split|]. destruct nd as [g s].
    apply (Hr f g s); done.
Qed.
End Untouched.

(** * Invariants of the runs *)

(** What the store says of the operations this process has admitted or sent. *)
Record ledger {Disk} `{Store Disk} (w : world Disk) : Prop := {
  led_wf : st_wf (store_of (nd w));
  led_admitted : ∀ op, is_Some (admitted (gate_of (nd w)) !! op) →
    past_accepted (st_state op (store_of (nd w)));
  led_sent : ∀ op, op ∈ sent w → past_accepted (st_state op (store_of (nd w)));
  led_nodup : NoDup (sent w);
  led_start : ∀ op, r_phase <$> admitted (gate_of (nd w)) !! op = Some RStart → op ∉ sent w
}.

Section Ledger.
Context {Disk : Type} `{StoreLaws Disk}.
Context (max_inflight max_queued : nat) (lifecycle_id : string → bool).
Implicit Types (w : world Disk) (n : node Disk) (s : Disk).

Lemma ledger_keeps w g s l e :
  ledger w → keeps (store_of (nd w)) s → admitted g = admitted (gate_of (nd w)) →
  ledger (mk_world (mk_node g s) l e (sent w)).
Proof. intros [wf ad se nd_ st] [Hwf Hk] Ha. split; simpl; rewrite ?Ha; auto. Qed.

(** A promotion that is granted is of an operation never admitted or sent. *)
Lemma promoted_is_new w op prov epoch s' :
  ledger w → st_promote op prov epoch (store_of (nd w)) = (inr true, s') →
  admitted (gate_of (nd w)) !! op = None ∧ op ∉ sent w.
Proof.
  intros [wf ad se _ _] Hp. destruct (law_promote _ _ _ _ _ wf Hp) as (Hs&_&_). split.
  - destruct (admitted _ !! op) eqn:Ho; [|done].
    destruct (ad op) as (?&?&?); [by rewrite Ho|]. congruence.
  - intros Hin. destruct (se _ Hin) as (?&?&?). congruence.
Qed.

Lemma ledger_admit w c s' l e :
  ledger w →
  st_promote (c_op c) (c_provenance c) (c_epoch c) (store_of (nd w)) = (inr true, s') ∨
  st_promote (c_op c) (c_provenance c) None (store_of (nd w)) = (inr true, s') →
  ledger (mk_world (mk_node (admit_task c (gate_of (nd w))) s') l e (sent w)).
Proof.
  intros Hl Hp.
  assert (∃ epoch, st_promote (c_op c) (c_provenance c) epoch (store_of (nd w)) = (inr true, s'))
    as [epoch Hp'] by (destruct Hp; eauto). clear Hp.
  destruct (promoted_is_new _ _ _ _ _ Hl Hp') as [Hno Hns]. destruct Hl as [wf ad se nd_ st].
  destruct (law_promote _ _ _ _ _ wf Hp') as (_&Hs'&_).
  pose proof (keeps_promote (c_op c) (c_provenance c) epoch _ wf) as [Hwf Hk].
  rewrite Hp' in Hwf, Hk. simpl in *. split; simpl; auto.
  - intros op. destruct (decide (c_op c = op)) as [<-|Hne].
    + intros _. exists Running. by rewrite Hs'.
    + rewrite lookup_insert_ne by done. auto.
  - intros op. destruct (decide (c_op c = op)) as [<-|Hne]; [done|].
    rewrite lookup_insert_ne by done. auto.
Qed.

Lemma leave_parts c a n :
  admitted (gate_of (leave c a n).2) = admitted (gate_of n) ∧
  store_of (leave c a n).2 = store_of n.
Proof. unfold leave. destruct (c_exclusive c); simpl; [done|]. by case_match. Qed.

Lemma ledger_parts w w' :
  admitted (gate_of (nd w')) = admitted (gate_of (nd w)) → store_of (nd w') = store_of (nd w) →
  sent w' = sent w → ledger w → ledger w'.
Proof. intros Ha Hs Hn []. split; rewrite ?Ha, ?Hs, ?Hn; auto. Qed.

Lemma caller_move_ledger c p n x n' l l' e e' hist :
  caller_move max_queued c p n x n' → ledger (mk_world n l e hist) → ledger (mk_world n' l' e' hist).
Proof.
  destruct 1 as [p p' g s s' _ _ _ _ _ _ _ Hk|p a n _|g s summary|g s epoch|g s|p g s free
                |p' g g1 s s' Hev _ _ _ Hk|g s s' _ _ Hp|g s s' _ _ Hp|p a g g1 s s' Hev _ _ Hk
                |a f n]; intros Hl.
  - apply (ledger_keeps _ _ _ _ _ Hl); [|done]. apply Hk, (led_wf _ Hl).
  - by eapply ledger_parts; [..|exact Hl].
  - by eapply ledger_parts; [..|exact Hl].
  - by eapply ledger_parts; [..|exact Hl].
  - eapply ledger_parts; [..|exact Hl]; [|done..]. simpl.
    by rewrite (un_admitted _ _ (close_locked_untouched _ _)).
  - by eapply ledger_parts; [..|exact Hl].
  - apply (ledger_keeps _ _ _ _ _ Hl); [apply Hk, (led_wf _ Hl)|].
    apply (un_admitted _ _ (gate_event_untouched _ _ Hev)).
  - destruct (leave_parts c AnAttempt (mk_node (admit_task c g) s')) as [Ha Hs].
    apply (ledger_parts (mk_world (mk_node (admit_task c g) s') l' e' hist)); [done..|].
    apply (ledger_admit _ _ _ _ _ Hl). by right.
  - apply (ledger_admit _ _ _ _ _ Hl). by left.
  - destruct (leave_parts c a (mk_node g1 s')) as [Ha Hs].
    apply (ledger_parts (mk_world (mk_node g1 s') l' e' hist)); [done..|].
    apply (ledger_keeps _ _ _ _ _ Hl); [apply Hk, (led_wf _ Hl)|].
    apply (un_admitted _ _ (gate_event_untouched _ _ Hev)).
  - destruct (end_exclusive_untouched f (c_op c) n) as (Hu&_&Hs).
    eapply ledger_parts; [..|exact Hl]; [exact (un_admitted _ _ Hu)|exact Hs|done].
Qed.

Lemma commit_keeps op o s : st_wf s → keeps s (commit_outcome op o s).2.
Proof. intros Hs. destruct o; simpl; auto using keeps_finish, keeps_unknown, keeps_unsent. Qed.

(** A task's segment moves its phase on, or removes it when it is settled. *)
Lemma run_segment_admitted op r e f n n' ends :
  run_segment op r e f n = (n', ends) →
  (∃ ph, admitted (gate_of n') = <[op := mk_running (r_kind r) ph]> (admitted (gate_of n)) ∧
     ph ≠ RStart ∧ ends = false) ∨
  (∃ o, r_phase r = RSettled o ends ∧ admitted (gate_of n') = delete op (admitted (gate_of n))).
Proof.
  unfold run_segment. destruct (r_phase r) as [| |o|o lc|o lc|o lc]; intros Hr.
  - left. simplify_eq/=. unfold run_start. case_match; by eexists.
  - left. simplify_eq/=. by eexists.
  - left. simplify_eq/=. unfold settle_begin, mark_uncommitted.
    repeat case_match; simpl; try (by eexists);
      rewrite ?(un_admitted _ _ (close_locked_untouched _ _)); by eexists.
  - left. unfold settle_commit, call in Hr. repeat (case_match; simplify_eq/=); by eexists.
  - left. simplify_eq/=. rewrite (un_admitted _ _ (close_locked_untouched _ _)). by eexists.
  - right. exists o. simplify_eq/=. split; [done|]. unfold run_finally. by repeat case_match.
Qed.

Lemma run_segment_keeps op r e f n n' ends :
  run_segment op r e f n = (n', ends) → st_wf (store_of n) → keeps (store_of n) (store_of n').
Proof.
  intros Hr Hwf. pose proof (keeps_refl (store_of n) Hwf).
  pose proof (λ o, commit_keeps op o (store_of n) Hwf).
  unfold run_segment, settle_commit, call in Hr.
  destruct (r_phase r); repeat (case_match; simplify_eq/=); simplify_eq/=; auto.
Qed.

Lemma started_phase r op g : started r op g = true → r_phase r = RStart.
Proof. unfold started. by case_match. Qed.

Lemma dstep_ledger w w' : dstep max_queued lifecycle_id w w' →
  (∀ i c p, callers w !! i = Some (mk_caller c p) → phase_ok c p) → ledger w → ledger w'.
Proof.
  destruct 1 as [w i c Hi Hc|w i c p o n nd' Hi Hs|w op r e f nd' ends Hop Hr|w op f Hop|w c|w s' Ho];
    intros Hph Hl.
  - by eapply ledger_parts; [..|exact Hl].
  - destruct w as [n0 l en hist]. eapply caller_move_ledger; [|exact Hl].
    eapply caller_segment_moves; [|exact Hs]. by eapply Hph.
  - destruct Hl as [wf ad se nod st].
    destruct (run_segment_keeps _ _ _ _ _ _ _ Hr wf) as [Hwf Hk].
    pose proof (run_segment_admitted _ _ _ _ _ _ _ Hr) as Ha.
    assert (∀ o, is_Some (admitted (gate_of nd') !! o) → is_Some (admitted (gate_of (nd w)) !! o))
      as Hback.
    { intros o. destruct Ha as [(ph&->&_)|(?&_&->)].
      - destruct (decide (op = o)) as [<-|]; [by rewrite Hop|by rewrite lookup_insert_ne].
      - destruct (decide (op = o)) as [<-|]; [by rewrite Hop|by rewrite lookup_delete_ne]. }
    split; simpl; [done|by auto| | |].
    + intros o. case_match; [|by auto]. rewrite elem_of_app, list_elem_of_singleton.
      intros [?| ->]; [by auto|]. by apply Hk, ad; rewrite Hop.
    + case_match eqn:Hst; [|done]. apply NoDup_app. split_and!; [done| |apply NoDup_singleton].
      intros o Ho. rewrite list_elem_of_singleton. intros ->.
      apply (st op); [|done]. rewrite Hop. simpl. by rewrite (started_phase _ _ _ Hst).
    + intros o Hso. assert (o ≠ op) as Hne.
      { intros ->. destruct Ha as [(ph&Ha&Hph'&_)|(?&_&Ha)]; rewrite Ha in Hso.
        - rewrite lookup_insert_eq in Hso. naive_solver.
        - by rewrite lookup_delete_eq in Hso. }
      assert (r_phase <$> admitted (gate_of (nd w)) !! o = Some RStart) as Hold.
      { destruct Ha as [(ph&Ha&_)|(?&_&Ha)]; rewrite Ha in Hso.
        - by rewrite lookup_insert_ne in Hso.
        - by rewrite lookup_delete_ne in Hso. }
      case_match; [|by apply st]. rewrite elem_of_app, list_elem_of_singleton.
      intros [?| ->]; [|done]. by eapply st.
  - destruct (end_exclusive_untouched f op (nd w)) as (Hu&_&Hs).
    eapply ledger_parts; [..|exact Hl]; [exact (un_admitted _ _ Hu)|exact Hs|done].
  - destruct (command_untouched c (nd w)) as (Hu&_&Hs).
    eapply ledger_parts; [..|exact Hl]; [exact (un_admitted _ _ Hu)|exact Hs|done].
  - apply ledger_keeps; [done| |done]. by apply keeps_others, Ho; apply Hl.
Qed.
End Ledger.

(** ** The books and the counts *)

Definition in_queue (x : caller) : bool := negb (c_exclusive (c_args x)) && entered (c_phase x).

Record counts {Disk} (max_inflight max_queued : nat) (w : world Disk) : Prop := {
  cnt_slots : slots (gate_of (nd w)) + size (admitted (gate_of (nd w))) +
    map_count (λ x, holding (c_phase x)) (callers w) = max_inflight;
  cnt_queue : queued (gate_of (nd w)) = map_count in_queue (callers w);
  cnt_max : queued (gate_of (nd w)) ≤ max_queued
}.

Definition next_is (q : caller → bool) (c : call_args) (n : next) : bool :=
  match n with Goto p => q (mk_caller c p) | Done _ => false end.

Lemma resume_count q i c p n l :
  l !! i = Some (mk_caller c p) →
  Nat.b2n (q (mk_caller c p)) + map_count q (resume i c n l) =
    Nat.b2n (next_is q c n) + map_count q l.
Proof.
  intros Hi. destruct n as [p'|a]; simpl; [by apply map_count_insert|].
  rewrite (map_count_delete _ _ _ _ Hi). lia.
Qed.

Section Books.
Context {Disk : Type} `{StoreLaws Disk}.
Context (max_inflight max_queued : nat) (lifecycle_id : string → bool).
Implicit Types (w : world Disk) (n : node Disk) (s : Disk).

Lemma leave_untouched c a n :
  let g := gate_of n in let g' := gate_of (leave c a n).2 in
  admitted g' = admitted g ∧ idle g' = idle g ∧ sending g' = sending g ∧ quiet g' = quiet g ∧
  slots g' = slots g ∧ uncommitted_unknown g' = uncommitted_unknown g ∧
  exclusive g' = exclusive g ∧ gstate g' = gstate g ∧
  queued g' = (if c_exclusive c then queued g else queued g - 1) ∧
  restoring g' = (if c_exclusive c then delete (c_op c) (restoring g) else restoring g) ∧
  (leave c a n).1 = if c_exclusive c then Goto (Ending a) else Done a.
Proof. unfold leave. destruct (c_exclusive c); simpl; [done|]. by case_match. Qed.

Lemma admit_task_books c g :
  admitted g !! c_op c = None → gate_books g → gate_books (admit_task c g).
Proof.
  intros Hno [bi bq bs bu].
  assert (c_op c ∉ sending g) as Hns by (rewrite bs, Hno; done).
  split; simpl; [|done| |].
  - split; [done|]. intros He. by apply insert_non_empty in He.
  - intros op. destruct (decide (c_op c = op)) as [<-|].
    + rewrite lookup_insert_eq. split; [done|]. by intros [=].
    + rewrite lookup_insert_ne by done. apply bs.
  - intros op o lc. destruct (decide (c_op c = op)) as [<-|].
    + by rewrite lookup_insert_eq.
    + rewrite lookup_insert_ne by done. apply bu.
Qed.

Lemma books_leave c a n : gate_books (gate_of n) → gate_books (gate_of (leave c a n).2).
Proof.
  destruct (leave_untouched c a n) as (Ha&Hi&Hs&Hq&_&Hu&_). intros [].
  split; by rewrite ?Ha, ?Hi, ?Hs, ?Hq, ?Hu.
Qed.

Lemma caller_move_books c p n x n' l e hist :
  caller_move max_queued c p n x n' → ledger (mk_world n l e hist) →
  gate_books (gate_of n) → gate_books (gate_of n').
Proof.
  destruct 1 as [| |g s summary|g s epoch|g s|p g s free|p' g g1 s s' Hev|g s s' _ _ Hp
                |g s s' _ _ Hp|p a g g1 s s' Hev|a f n]; intros Hl Hb; simpl in *; try done.
  - by destruct Hb; split.
  - by destruct Hb; split.
  - eapply books_untouched; [apply close_locked_untouched|]. by destruct Hb; split.
  - by destruct Hb; split.
  - apply (books_untouched _ _ (gate_event_untouched _ _ Hev)) in Hb. by destruct Hb; split.
  - apply books_leave. apply admit_task_books; [|done].
    by destruct (promoted_is_new _ _ _ _ _ Hl Hp).
  - apply admit_task_books; [|done]. by destruct (promoted_is_new _ _ _ _ _ Hl Hp).
  - apply books_leave. exact (books_untouched _ _ (gate_event_untouched _ _ Hev) Hb).
  - eapply books_untouched; [|exact Hb]. apply end_exclusive_untouched.
Qed.

(** The sending set after one task's phase has moved on. *)
Lemma set_phase_books op r ph g :
  is_Some (admitted g !! op) → ph ≠ RSending → r_phase <$> admitted g !! op ≠ Some RSending →
  (∀ o lc, ph = RCommitting o lc → is_uncertain o = true → op ∈ uncommitted_unknown g) →
  gate_books g → gate_books (set_phase op r ph g).
Proof.
  intros [r0 Hr0] Hne Hold Hunc [bi bq bs bu]. split; simpl; [|done| |].
  - rewrite bi. split; [|intros He; by apply insert_non_empty in He].
    intros He. by rewrite He, lookup_empty in Hr0.
  - intros op'. rewrite bs. destruct (decide (op = op')) as [<-|].
    + rewrite lookup_insert_eq. simpl. split; [done|]. by intros [= ?].
    + by rewrite lookup_insert_ne.
  - intros op' o lc. destruct (decide (op = op')) as [<-|].
    + rewrite lookup_insert_eq. intros [= ->]. eauto.
    + rewrite lookup_insert_ne by done. apply bu.
Qed.

Lemma run_start_books op r g :
  admitted g !! op = Some r → r_phase r = RStart → gate_books g → gate_books (run_start op r g).
Proof.
  intros Hr Hph Hb. unfold run_start. case_match.
  - apply set_phase_books; [by rewrite Hr|done| |done|done]. rewrite Hr. simpl. congruence.
  - destruct Hb as [bi bq bs bu]. split; simpl.
    + rewrite bi. split; [|intros He; by apply insert_non_empty in He].
      intros He. by rewrite He, lookup_empty in Hr.
    + split; [done|]. set_solver.
    + intros op'. destruct (decide (op = op')) as [<-|].
      * rewrite lookup_insert_eq. split; [done|set_solver].
      * rewrite lookup_insert_ne by done. rewrite <- bs. set_solver.
    + intros op' o lc. destruct (decide (op = op')) as [<-|].
      * by rewrite lookup_insert_eq.
      * rewrite lookup_insert_ne by done. apply bu.
Qed.

Lemma run_end_books op r e g :
  admitted g !! op = Some r → gate_books g → gate_books (run_end op r e g).
Proof.
  intros Hr [bi bq bs bu]. split; simpl.
  - rewrite bi. split; [|intros He; by apply insert_non_empty in He].
    intros He. by rewrite He, lookup_empty in Hr.
  - case_bool_decide as Hl; [by split|]. rewrite bq. set_solver.
  - intros op'. destruct (decide (op = op')) as [<-|].
    + rewrite lookup_insert_eq. split; [set_solver|by intros [= ?]].
    + rewrite lookup_insert_ne by done. rewrite <- bs. set_solver.
  - intros op' o lc. destruct (decide (op = op')) as [<-|].
    + by rewrite lookup_insert_eq.
    + rewrite lookup_insert_ne by done. apply bu.
Qed.

Lemma run_finally_books op r o lc g :
  admitted g !! op = Some r → r_phase r = RSettled o lc → gate_books g →
  gate_books (run_finally op lc g).
Proof.
  intros Hr Hph [bi bq bs bu].
  assert (admitted (run_finally op lc g) = delete op (admitted g) ∧
          sending (run_finally op lc g) = sending g ∧ quiet (run_finally op lc g) = quiet g ∧
          uncommitted_unknown (run_finally op lc g) = uncommitted_unknown g ∧
          idle (run_finally op lc g) =
            if bool_decide (delete op (admitted g) = ∅) then true else idle g) as (Ha&Hs&Hq&Hu&Hi).
  { unfold run_finally. repeat case_match; by split_and!. }
  split; rewrite ?Ha, ?Hs, ?Hq, ?Hu, ?Hi.
  - case_bool_decide as Hd; [by split|]. rewrite bi. split; [|done].
    intros He. by rewrite He, lookup_empty in Hr.
  - done.
  - intros op'. rewrite bs. destruct (decide (op = op')) as [<-|].
    + rewrite Hr, lookup_delete_eq. simpl. split; [by intros [= ?]; congruence|done].
    + by rewrite lookup_delete_ne.
  - intros op' o' lc'. destruct (decide (op = op')) as [<-|].
    + by rewrite lookup_delete_eq.
    + rewrite lookup_delete_ne by done. apply bu.
Qed.

Lemma mark_uncommitted_member op g : op ∈ uncommitted_unknown (mark_uncommitted op g).
Proof.
  unfold mark_uncommitted.
  apply (un_uncommitted _ _ (close_locked_untouched BLOCKED _)). simpl. set_solver.
Qed.

Lemma mark_uncommitted_untouched op g : untouched g (mark_uncommitted op g).
Proof. exact (gate_event_untouched _ _ (event_block g op)). Qed.

Lemma run_segment_books op r e f n n' ends :
  admitted (gate_of n) !! op = Some r → run_segment op r e f n = (n', ends) →
  gate_books (gate_of n) → gate_books (gate_of n').
Proof.
  unfold run_segment. intros Hr Hs Hb.
  assert (r_phase r ≠ RSending → r_phase <$> admitted (gate_of n) !! op ≠ Some RSending) as Hns
    by (rewrite Hr; simpl; congruence).
  destruct (r_phase r) as [| |o|o lc|o lc|o lc] eqn:Hph; try specialize (Hns ltac:(done)).
  - simplify_eq/=. by apply run_start_books.
  - simplify_eq/=. by apply run_end_books.
  - simplify_eq/=.
    assert (gate_books (settle_begin op r o (gate_of n))) as Hsb.
    { unfold settle_begin. apply set_phase_books; [|done| | |].
      - case_match; [rewrite (un_admitted _ _ (mark_uncommitted_untouched _ _))|]; by rewrite Hr.
      - case_match; [rewrite (un_admitted _ _ (mark_uncommitted_untouched _ _))|]; auto.
      - intros o' lc [= <- <-] ->. apply mark_uncommitted_member.
      - case_match; [|done]. eapply books_untouched; [apply mark_uncommitted_untouched|done]. }
    destruct f; [done..|]. by apply set_phase_books.
  - assert (∀ g ph, admitted g = admitted (gate_of n) → gate_books g → ph ≠ RSending →
              (∀ o' lc', ph = RCommitting o' lc' → is_uncertain o' = true →
                op ∈ uncommitted_unknown g) → gate_books (set_phase op r ph g)) as Hset.
    { intros g ph Ha Hg Hne Hu. apply set_phase_books; rewrite ?Ha; auto. }
    assert (∀ o' lc', RCommitting o lc = RCommitting o' lc' → is_uncertain o' = true →
              op ∈ uncommitted_unknown (gate_of n)) as Hunc.
    { intros o' lc' [= <- <-]. apply (books_unknown _ Hb op o lc). by rewrite Hr; simpl; rewrite Hph. }
    unfold settle_commit, call in Hs.
    destruct f as [|b|b]; simpl in Hs; [|simplify_eq/=; by apply Hset|simplify_eq/=; by apply Hset].
    destruct (commit_outcome op o (store_of n)).1 as [[]|ok]; simplify_eq/=; try (by apply Hset).
    case_match; [|by apply Hset].
    destruct Hb as [bi bq bs bu]. split; simpl.
    + rewrite bi. split; [|intros He; by apply insert_non_empty in He].
      intros He. by rewrite He, lookup_empty in Hr.
    + done.
    + intros op'. rewrite bs. destruct (decide (op = op')) as [<-|]; [|by rewrite lookup_insert_ne].
      rewrite lookup_insert_eq, Hr. simpl. rewrite Hph. done.
    + intros op' o' lc'. destruct (decide (op = op')) as [<-|]; [by rewrite lookup_insert_eq|].
      rewrite lookup_insert_ne by done. intros Hop' Ho'. specialize (bu _ _ _ Hop' Ho'). set_solver.
  - simplify_eq/=. pose proof (close_locked_untouched LOST (gate_of n)) as Hu.
    apply set_phase_books; rewrite ?(un_admitted _ _ Hu); try done.
    by eapply books_untouched.
  - simplify_eq/=. by eapply run_finally_books.
Qed.

Lemma move_counts c p n x n' l e hist i :
  caller_move max_queued c p n x n' → ledger (mk_world n l e hist) →
  l !! i = Some (mk_caller c p) → phase_ok c p →
  counts max_inflight max_queued (mk_world n l e hist) →
  counts max_inflight max_queued (mk_world n' (resume i c x l) e hist).
Proof.
  intros Hm Hl Hi Hp [Hs Hq Hx]. simpl in *.
  pose proof (resume_count (λ y, holding (c_phase y)) i c p x l Hi) as Hh.
  pose proof (resume_count in_queue i c p x l Hi) as Hin.
  assert (Nat.b2n (in_queue (mk_caller c p)) ≤ map_count in_queue l) as Hge
    by (rewrite (map_count_delete _ _ _ _ Hi); lia).
  unfold in_queue in *. simpl in *.
  destruct Hm as [p p' g s s' He H1 H2 _ _ _ _ _|p a n He|g s summary Hc Hst Hlt|g s epoch Hc
                 |g s Hc|p g s free Hw Hfree|p' g g1 s s' Hev He Hw|g s s' Hc _ Hpr
                 |g s s' Hc _ Hpr|p a g g1 s s' Hev He Hho|a f n]; simpl in *.
  - rewrite H1, H2 in Hh. rewrite He in Hin. simpl in *. split; simpl; unfold in_queue; lia.
  - rewrite He, andb_false_r in Hin. simpl in *.
    assert (holding p = false) as Hho by (by destruct p). rewrite Hho in Hh. simpl in *.
    split; simpl; unfold in_queue; lia.
  - rewrite Hc in *. simpl in *. split; simpl; unfold in_queue; lia.
  - rewrite Hc in *. simpl in *. split; simpl; unfold in_queue; lia.
  - rewrite Hc in *. simpl in *.
    pose proof (close_locked_untouched DRAINING (put_exclusive (Some (c_op c)) g)) as [Ha _ _ _ Hsl Hqu].
    split; simpl in *; unfold in_queue; rewrite ?Ha, ?Hsl, ?Hqu; lia.
  - assert (entered p = true ∧ holding p = false) as [He Hho] by (by destruct Hw as [-> | ->]).
    rewrite He in Hin. rewrite Hho in Hh. simpl in *. split; simpl; unfold in_queue; lia.
  - rewrite He in Hin. assert (holding p' = false) as Hho by (by destruct p').
    rewrite Hho in Hh. destruct (gate_event_untouched _ _ Hev) as [Ha _ _ _ Hsl Hqu].
    split; simpl in *; unfold in_queue; rewrite ?Ha, ?Hsl, ?Hqu; lia.
  - destruct (leave_untouched c AnAttempt (mk_node (admit_task c g) s'))
      as (Ha&_&_&_&Hsl&_&_&_&Hqu&_&Hn).
    destruct (promoted_is_new _ _ _ _ _ Hl Hpr) as [Hno _]. simpl in *.
    rewrite Hc in *. rewrite Hn in *. simpl in *.
    split; simpl; unfold in_queue; rewrite ?Ha, ?Hsl, ?Hqu, ?map_size_insert_None by done; lia.
  - destruct (promoted_is_new _ _ _ _ _ Hl Hpr) as [Hno _]. simpl in *. rewrite Hc in *. simpl in *.
    split; simpl; unfold in_queue; rewrite ?map_size_insert_None by done; lia.
  - destruct (leave_untouched c a (mk_node g1 s')) as (Ha&_&_&_&Hsl&_&_&_&Hqu&_&Hn).
    destruct (gate_event_untouched _ _ Hev) as [Ha1 _ _ _ Hsl1 Hqu1 _ _].
    rewrite Hn in *. rewrite He, Hho in *.
    destruct (c_exclusive c) eqn:Hcx; simpl in *; rewrite ?Hcx in Hin; simpl in *;
      split; simpl; unfold in_queue; rewrite ?Ha, ?Hsl, ?Hqu, ?Ha1, ?Hsl1, ?Hqu1; lia.
  - destruct (end_exclusive_untouched f (c_op c) n) as ([Ha _ _ _ Hsl Hqu]&_&_).
    rewrite andb_false_r in Hin. simpl in *.
    split; simpl; unfold in_queue; rewrite ?Ha, ?Hsl, ?Hqu; lia.
Qed.
End Books.

(** ** One lifecycle operation at a time *)

Definition holds_node (x : caller) : bool :=
  c_exclusive (c_args x) && match c_phase x with Observing | Admitting => false | _ => true end.

(** The node is held by a caller, by an admitted lifecycle operation, or by
    one that is ending, and never by two of them. *)
Record alone {Disk} (lifecycle_id : string → bool) (w : world Disk) : Prop := {
  al_calls : ∀ i x, callers w !! i = Some x →
    call_ok lifecycle_id (c_args x) ∧ phase_ok (c_args x) (c_phase x);
  al_holder : ∀ i x, callers w !! i = Some x → holds_node x = true →
    exclusive (gate_of (nd w)) = Some (c_op (c_args x)) ∧ ending w = ∅ ∧
    ∀ op, is_Some (admitted (gate_of (nd w)) !! op) → lifecycle_id op = false;
  al_unique : ∀ i j x y, callers w !! i = Some x → callers w !! j = Some y →
    holds_node x = true → holds_node y = true → i = j;
  al_idle : ∀ i x, callers w !! i = Some x → c_exclusive (c_args x) = true →
    waits_alone (c_phase x) = true → admitted (gate_of (nd w)) = ∅;
  al_lifecycle : ∀ op r, admitted (gate_of (nd w)) !! op = Some r → lifecycle_id op = true →
    exclusive (gate_of (nd w)) = Some op ∧ ending w = ∅ ∧
    admitted (gate_of (nd w)) = {[op := r]};
  al_kinds : ∀ op r, admitted (gate_of (nd w)) !! op = Some r → lifecycle_id op = false →
    r_kind r ∉ LIFECYCLE_KINDS;
  al_restoring : ∀ op, is_Some (restoring (gate_of (nd w)) !! op) → lifecycle_id op = true;
  al_flags : ∀ op o, r_phase <$> admitted (gate_of (nd w)) !! op ∈
    [Some (RCommitting o true); Some (RLosing o true); Some (RSettled o true)] →
    lifecycle_id op = true;
  al_ending : ∀ op, op ∈ ending w →
    exclusive (gate_of (nd w)) = Some op ∧ lifecycle_id op = true
}.

Section Alone.
Context {Disk : Type} `{StoreLaws Disk}.
Context (max_inflight max_queued : nat) (lifecycle_id : string → bool).
Implicit Types (w : world Disk) (n : node Disk) (s : Disk).

Lemma settle_commit_gate op r o lc f n :
  ∃ ph u, gate_of (settle_commit op r o lc f n) = set_phase op r ph (put_uncommitted u (gate_of n)) ∧
    (ph = RLosing o lc ∨ ph = RSettled o lc ∨ ph = RCommitting o lc).
Proof.
  assert (gate_of n = put_uncommitted (uncommitted_unknown (gate_of n)) (gate_of n)) as Hid
    by (by destruct (gate_of n)).
  unfold settle_commit.
  destruct (call f (commit_outcome op o) n) as [out n1] eqn:Hc. apply call_gate in Hc.
  repeat case_match; simpl; rewrite Hc; try (by eexists _, _; eauto);
    eexists _, (uncommitted_unknown (gate_of n)); rewrite <- Hid; eauto.
Qed.

Lemma run_segment_counts op r e f n n' ends l en hist en' hist' :
  admitted (gate_of n) !! op = Some r → run_segment op r e f n = (n', ends) →
  counts max_inflight max_queued (mk_world n l en hist) →
  counts max_inflight max_queued (mk_world n' l en' hist').
Proof.
  unfold run_segment. intros Hr Hs [Hsl Hq Hx]. simpl in *.
  assert (∀ r', size (<[op := r']> (admitted (gate_of n))) = size (admitted (gate_of n))) as Hsz
    by (intros r'; by apply map_size_insert_Some; rewrite Hr).
  destruct (r_phase r) as [| |o|o lc|o lc|o lc] eqn:Hph; injection Hs as <- <-.
  - split; simpl; unfold run_start; case_match; simpl; rewrite ?Hsz; done.
  - split; simpl; rewrite ?Hsz; done.
  - destruct (mark_uncommitted_untouched op (gate_of n)) as [Ha _ _ _ Hs2 Hqu _ _].
    destruct f; split; simpl; unfold settle_begin; repeat case_match;
      simpl; rewrite ?Ha, ?Hs2, ?Hqu, ?Hsz; done.
  - destruct (settle_commit_gate op r o lc f n) as (ph&u&Hg&_).
    split; simpl; rewrite Hg; simpl; rewrite ?Hsz; done.
  - destruct (close_locked_untouched LOST (gate_of n)) as [Ha _ _ _ Hs2 Hqu _ _].
    split; simpl; rewrite ?Ha, ?Hs2, ?Hqu, ?Hsz; done.
  - rewrite <- (insert_delete_id (admitted (gate_of n)) op r) in Hsl by done.
    rewrite map_size_insert_None in Hsl by apply lookup_delete_eq.
    split; simpl; unfold run_finally; repeat case_match; simpl; lia.
Qed.

#[local] Arguments resume : simpl never.

Lemma resume_lookup i c x l j y :
  resume i c x l !! j = Some y →
  (j = i ∧ ∃ p', x = Goto p' ∧ y = mk_caller c p') ∨ (j ≠ i ∧ l !! j = Some y).
Proof.
  destruct x as [p'|a]; unfold resume.
  - rewrite lookup_insert_Some. intros [[-> <-]|[Hne Hy]]; [left; eauto|right; eauto].
  - rewrite lookup_delete_Some. intros [Hne Hy]. right; eauto.
Qed.

Lemma waits_alone_holds c p :
  c_exclusive c = true → waits_alone p = true → holds_node (mk_caller c p) = true.
Proof. unfold holds_node. simpl. intros ->. by destruct p. Qed.

(** A caller moves on and the node stays with whoever holds it. *)
Lemma alone_resume w i c p x g s hist :
  alone lifecycle_id w → callers w !! i = Some (mk_caller c p) →
  admitted g = admitted (gate_of (nd w)) → exclusive g = exclusive (gate_of (nd w)) →
  (∀ op, is_Some (restoring g !! op) → is_Some (restoring (gate_of (nd w)) !! op)) →
  (∀ p', x = Goto p' → phase_ok c p' ∧
     (holds_node (mk_caller c p') = true → holds_node (mk_caller c p) = true) ∧
     (c_exclusive c = true → waits_alone p' = true → admitted (gate_of (nd w)) = ∅)) →
  alone lifecycle_id (mk_world (mk_node g s) (resume i c x (callers w)) (ending w) hist).
Proof.
  intros [Hca Hho Hun Hid Hli Hki Hre Hfl Hen] Hi Ha Hx Hr Hp.
  assert (∀ j y, resume i c x (callers w) !! j = Some y → holds_node y = true →
    ∃ y', callers w !! j = Some y' ∧ holds_node y' = true ∧ c_op (c_args y') = c_op (c_args y))
    as Hback.
  { intros j y Hy Hh. apply resume_lookup in Hy as [[-> (p'&->&->)]|[_ Hy]]; [|by eauto].
    destruct (Hp p' eq_refl) as (_&Hh'&_). exists (mk_caller c p). auto. }
  split; simpl; rewrite ?Ha, ?Hx; auto.
  - intros j y Hy. apply resume_lookup in Hy as [[-> (p'&->&->)]|[_ Hy]]; [|by eauto].
    destruct (Hp p' eq_refl) as (?&_&_), (Hca _ _ Hi). by split.
  - intros j y Hy Hh. destruct (Hback _ _ Hy Hh) as (y'&Hy'&Hh'&<-). eauto.
  - intros j k y z Hy Hz Hhy Hhz.
    destruct (Hback _ _ Hy Hhy) as (y'&?&?&_), (Hback _ _ Hz Hhz) as (z'&?&?&_). eauto.
  - intros j y Hy Hxy Hw. apply resume_lookup in Hy as [[-> (p'&->&->)]|[_ Hy]]; [|by eauto].
    destruct (Hp p' eq_refl) as (_&_&?). auto.
Qed.

(** A caller takes a node nobody holds. *)
Lemma alone_claim w i c p g s hist :
  alone lifecycle_id w → callers w !! i = Some (mk_caller c p) → c_exclusive c = true →
  exclusive (gate_of (nd w)) = None → exclusive g = Some (c_op c) →
  admitted g = admitted (gate_of (nd w)) →
  (∀ op, is_Some (restoring g !! op) → op = c_op c ∨ is_Some (restoring (gate_of (nd w)) !! op)) →
  alone lifecycle_id
    (mk_world (mk_node g s) (resume i c (Goto Inserting) (callers w)) (ending w) hist).
Proof.
  intros [Hca Hho Hun Hid Hli Hki Hre Hfl Hen] Hi Hc Hnone Hx Ha Hr.
  assert (ending w = ∅) as Hend.
  { apply set_eq. intros op. split; [|set_solver]. intros Hop. destruct (Hen _ Hop). congruence. }
  assert (∀ j y, callers w !! j = Some y → holds_node y = false) as Hnh.
  { intros j y Hy. destruct (holds_node y) eqn:Hh; [|done]. destruct (Hho _ _ Hy Hh). congruence. }
  assert (∀ op, is_Some (admitted (gate_of (nd w)) !! op) → lifecycle_id op = false) as Hnl.
  { intros op [r Hop]. destruct (lifecycle_id op) eqn:Hl; [|done].
    destruct (Hli _ _ Hop Hl). congruence. }
  destruct (Hca _ _ Hi) as [[Hid_ _] _]. simpl in Hid_.
  split; simpl; rewrite ?Ha, ?Hx; auto.
  - intros j y Hy. apply resume_lookup in Hy as [[-> (p'&[= <-]&->)]|[_ Hy]]; [|by eauto].
    destruct (Hca _ _ Hi). by split.
  - intros j y Hy Hh. apply resume_lookup in Hy as [[-> (p'&[= <-]&->)]|[_ Hy]]; [done|].
    by rewrite (Hnh _ _ Hy) in Hh.
  - intros j k y z Hy Hz Hhy Hhz.
    apply resume_lookup in Hy as [[-> _]|[_ Hy]]; [|by rewrite (Hnh _ _ Hy) in Hhy].
    apply resume_lookup in Hz as [[-> _]|[_ Hz]]; [done|by rewrite (Hnh _ _ Hz) in Hhz].
  - intros j y Hy Hxy Hw. apply resume_lookup in Hy as [[-> (p'&[= <-]&->)]|[_ Hy]]; [done|].
    eauto.
  - intros op r Hop Hl. destruct (Hli _ _ Hop Hl). congruence.
  - intros op [->|Hop]%Hr; [congruence|auto].
  - rewrite Hend. set_solver.
Qed.

(** [submit] admits its task while the gate serves: nobody holds the node. *)
Lemma alone_admit_submit w i c p g s a hist :
  alone lifecycle_id w → callers w !! i = Some (mk_caller c p) → c_exclusive c = false →
  exclusive (gate_of (nd w)) = None →
  admitted g = <[c_op c := mk_running (c_kind c) RStart]> (admitted (gate_of (nd w))) →
  exclusive g = exclusive (gate_of (nd w)) → restoring g = restoring (gate_of (nd w)) →
  alone lifecycle_id
    (mk_world (mk_node g s) (resume i c (Done a) (callers w)) (ending w) hist).
Proof.
  intros [Hca Hho Hun Hid Hli Hki Hre Hfl Hen] Hi Hc Hnone Ha Hx Hr.
  destruct (Hca _ _ Hi) as [[Hid_ Hkind] _]. simpl in Hid_, Hkind. rewrite Hc in Hid_.
  assert (∀ j y, delete i (callers w) !! j = Some y → callers w !! j = Some y) as Hback
    by (intros j y; by rewrite lookup_delete_Some; intros [_ ?]).
  assert (∀ op r, admitted g !! op = Some r →
    (op = c_op c ∧ r = mk_running (c_kind c) RStart) ∨ admitted (gate_of (nd w)) !! op = Some r)
    as Had.
  { intros op r. rewrite Ha, lookup_insert_Some. intros [[<- <-]|[_ ?]]; auto. }
  split; simpl; rewrite ?Hx, ?Hr, ?Hnone; eauto.
  - intros j y Hy%Hback Hh. destruct (Hho _ _ Hy Hh). congruence.
  - intros j y Hy%Hback Hxy Hw. destruct (Hho _ _ Hy) as [? _]; [|congruence].
    destruct y. by apply waits_alone_holds.
  - intros op r [[-> ->]|Hop]%Had Hl; [congruence|]. destruct (Hli _ _ Hop Hl). congruence.
  - intros op r [[-> ->]|Hop]%Had Hl; simpl; eauto.
  - intros op o. rewrite Ha. destruct (decide (c_op c = op)) as [<-|].
    + rewrite lookup_insert_eq. simpl. set_solver.
    + rewrite lookup_insert_ne by done. apply Hfl.
  - intros op Hop. destruct (Hen _ Hop). congruence.
Qed.

(** [exclusive] admits its task: the node is idle, and passes to the task. *)
Lemma alone_admit_exclusive w i c s a hist :
  alone lifecycle_id w → callers w !! i = Some (mk_caller c Holding) → c_exclusive c = true →
  alone lifecycle_id
    (mk_world (mk_node (admit_task c (gate_of (nd w))) s) (resume i c (Done a) (callers w))
       (ending w) hist).
Proof.
  intros [Hca Hho Hun Hid Hli Hki Hre Hfl Hen] Hi Hc.
  destruct (Hca _ _ Hi) as [[Hid_ _] _]. simpl in Hid_. rewrite Hc in Hid_.
  assert (holds_node (mk_caller c Holding) = true) as Hh0 by (by apply waits_alone_holds).
  destruct (Hho _ _ Hi Hh0) as (Hexc&Hend&_).
  pose proof (Hid _ _ Hi Hc eq_refl) as Hempty.
  assert (∀ j y, delete i (callers w) !! j = Some y → callers w !! j = Some y ∧ holds_node y = false)
    as Hback.
  { intros j y. rewrite lookup_delete_Some. intros [Hne Hy]. split; [done|].
    destruct (holds_node y) eqn:Hh; [|done]. by destruct Hne; eauto. }
  simpl in *. split; simpl; rewrite ?Hempty, ?insert_empty.
  - intros j y [Hy _]%Hback. eauto.
  - intros j y [_ Hy]%Hback. congruence.
  - intros j k y z [_ Hy]%Hback. congruence.
  - intros j y [_ Hy]%Hback Hxy Hw. destruct y as [cy py].
    by rewrite (waits_alone_holds cy py Hxy Hw) in Hy.
  - intros op r. rewrite lookup_singleton_Some. by intros [<- <-].
  - intros op r. rewrite lookup_singleton_Some. intros [<- <-]. congruence.
  - done.
  - intros op o. destruct (decide (c_op c = op)) as [<-|]; [done|].
    rewrite lookup_singleton_ne by done. set_solver.
  - done.
Qed.

(** The node is given back. *)
Lemma alone_release w g s l hist :
  alone lifecycle_id w → admitted g = admitted (gate_of (nd w)) →
  restoring g = restoring (gate_of (nd w)) →
  (∀ j y, l !! j = Some y → callers w !! j = Some y ∧ holds_node y = false) →
  (∀ op, is_Some (admitted g !! op) → lifecycle_id op = false) →
  alone lifecycle_id (mk_world (mk_node g s) l ∅ hist).
Proof.
  intros [Hca Hho Hun Hid Hli Hki Hre Hfl Hen] Ha Hr Hback Hnl.
  split; simpl; rewrite ?Hr; auto.
  - intros j y [Hy _]%Hback. eauto.
  - intros j y [_ Hy]%Hback. congruence.
  - intros j k y z [_ Hy]%Hback. congruence.
  - intros j y [_ Hy]%Hback Hxy Hw. destruct y as [cy py].
    by rewrite (waits_alone_holds cy py Hxy Hw) in Hy.
  - intros op r Hop Hl. rewrite (Hnl op) in Hl; [done|by rewrite Hop].
  - intros op r. rewrite Ha. eauto.
  - intros op o. rewrite Ha. apply Hfl.
  - set_solver.
Qed.

Lemma run_segment_frame op r e f n n' ends :
  run_segment op r e f n = (n', ends) →
  exclusive (gate_of n') = exclusive (gate_of n) ∧
  ∀ o, is_Some (restoring (gate_of n') !! o) → is_Some (restoring (gate_of n) !! o).
Proof.
  assert (∀ g o, exclusive (mark_uncommitted o g) = exclusive g) as Hmx
    by (intros g o; exact (gate_event_exclusive _ _ (event_block g o))).
  unfold run_segment. intros Hs. destruct (r_phase r) as [| |o|o lc|o lc|o lc]; injection Hs as <- <-.
  - simpl. unfold run_start. by case_match.
  - done.
  - simpl. unfold settle_begin. repeat case_match; simpl;
      rewrite ?(un_restoring _ _ (mark_uncommitted_untouched _ _)), ?Hmx; done.
  - destruct (settle_commit_gate op r o lc f n) as (ph&u&->&_). done.
  - simpl. rewrite (un_restoring _ _ (close_locked_untouched _ _)). split; [|done].
    exact (gate_event_exclusive _ _ (event_close _)).
  - simpl. unfold run_finally. repeat case_match; simpl; split; try done;
      intros o'; rewrite lookup_delete_is_Some; by intros [_ ?].
Qed.

Definition flagged (o : Outcome) (ph : option run_phase) : Prop :=
  ph ∈ [Some (RCommitting o true); Some (RLosing o true); Some (RSettled o true)].

Lemma run_segment_flags op r e f n n' ends o :
  admitted (gate_of n) !! op = Some r → run_segment op r e f n = (n', ends) →
  flagged o (r_phase <$> admitted (gate_of n') !! op) →
  is_lifecycle op r (gate_of n) = true ∨ ∃ o', flagged o' (r_phase <$> admitted (gate_of n) !! op).
Proof.
  unfold run_segment, flagged. intros Hr Hs Hf. rewrite Hr. simpl.
  destruct (r_phase r) as [| |o0|o0 lc|o0 lc|o0 lc]; injection Hs as <- <-; simpl in Hf.
  - unfold run_start in Hf. case_match; simpl in Hf; rewrite lookup_insert_eq in Hf; set_solver.
  - rewrite lookup_insert_eq in Hf. set_solver.
  - left. unfold settle_begin in Hf. destruct (is_lifecycle op r (gate_of n)) eqn:Hl; [done|].
    repeat case_match; simpl in Hf; rewrite lookup_insert_eq in Hf; simpl in Hf;
      rewrite ?Hl in Hf; set_solver.
  - right. exists o0. destruct (settle_commit_gate op r o0 lc f n) as (ph&u&Hg&Hph).
    rewrite Hg in Hf. simpl in Hf. rewrite lookup_insert_eq in Hf. simpl in Hf.
    destruct Hph as [-> |[-> | ->]]; destruct lc; set_solver.
  - right. exists o0. rewrite lookup_insert_eq in Hf. simpl in Hf. destruct lc; set_solver.
  - unfold run_finally in Hf.
    repeat case_match; simpl in Hf; rewrite lookup_delete_eq in Hf; set_solver.
Qed.

Lemma is_lifecycle_id w op r :
  alone lifecycle_id w → admitted (gate_of (nd w)) !! op = Some r →
  is_lifecycle op r (gate_of (nd w)) = true → lifecycle_id op = true.
Proof.
  intros Hal Hop Hl. unfold is_lifecycle in Hl.
  apply orb_true_iff in Hl as [Hl|Hl]; apply bool_decide_eq_true in Hl.
  - destruct (lifecycle_id op) eqn:Hid; [done|]. by destruct (al_kinds _ _ Hal _ _ Hop Hid).
  - by apply (al_restoring _ _ Hal).
Qed.

Lemma alone_run w op r e f n' ends hist :
  alone lifecycle_id w → admitted (gate_of (nd w)) !! op = Some r →
  run_segment op r e f (nd w) = (n', ends) →
  alone lifecycle_id
    (mk_world n' (callers w) (if ends then {[op]} ∪ ending w else ending w) hist).
Proof.
  intros Hal Hop Hs. pose proof Hal as [Hca Hho Hun Hid Hli Hki Hre Hfl Hen].
  destruct (run_segment_frame _ _ _ _ _ _ _ Hs) as [Hx Hr].
  pose proof (λ o, run_segment_flags _ _ _ _ _ _ _ o Hop Hs) as Hflags.
  assert (∀ j y, callers w !! j = Some y → c_exclusive (c_args y) = true →
    waits_alone (c_phase y) = true → False) as Hnw.
  { intros j y Hy Hc Hw. by rewrite (Hid _ _ Hy Hc Hw), lookup_empty in Hop. }
  assert (∀ op', op' ≠ op → admitted (gate_of n') !! op' = admitted (gate_of (nd w)) !! op') as Hne.
  { intros op' Hne. destruct (run_segment_admitted _ _ _ _ _ _ _ Hs) as [(ph&->&_)|(o&_&->)];
      [by apply lookup_insert_ne|by apply lookup_delete_ne]. }
  assert (∀ o, flagged o (r_phase <$> admitted (gate_of n') !! op) → lifecycle_id op = true) as Hflop.
  { intros o [Hl|[o' Ho']]%Hflags; [by eapply is_lifecycle_id|by eapply Hfl]. }
  assert (∀ op', is_Some (admitted (gate_of n') !! op') → is_Some (admitted (gate_of (nd w)) !! op'))
    as Hback.
  { intros op'. destruct (decide (op' = op)) as [->|]; [by rewrite Hop|by rewrite Hne]. }
  destruct (run_segment_admitted _ _ _ _ _ _ _ Hs) as [(ph&Ha&_&->)|(o&Hph&Ha)].
  - split; simpl; rewrite ?Hx; auto.
    + intros j y Hy Hh. destruct (Hho _ _ Hy Hh) as (?&?&?). auto.
    + intros j y Hy Hc Hw. by destruct (Hnw _ _ Hy Hc Hw).
    + intros op' r'. rewrite Ha, lookup_insert_Some. intros [[<- <-]|[Hne' Hop']] Hl.
      * destruct (Hli _ _ Hop Hl) as (?&?&->). by rewrite insert_singleton_eq.
      * destruct (Hli _ _ Hop' Hl) as (?&?&He). rewrite He, lookup_singleton_ne in Hop by done. done.
    + intros op' r'. rewrite Ha, lookup_insert_Some. intros [[<- <-]|[Hne' Hop']] Hl; simpl; eauto.
    + intros op' o. destruct (decide (op' = op)) as [->|]; [apply Hflop|].
      rewrite Hne by done. apply Hfl.
  - assert (∀ op' r', admitted (gate_of n') !! op' = Some r' →
              op' ≠ op ∧ admitted (gate_of (nd w)) !! op' = Some r') as Hold.
    { intros op' r'. rewrite Ha, lookup_delete_Some. naive_solver. }
    destruct ends.
    + assert (lifecycle_id op = true) as Hl.
      { apply (Hfl op o). rewrite Hop. simpl. rewrite Hph. set_solver. }
      destruct (Hli _ _ Hop Hl) as (Hex&Hend&Hsing).
      assert (∀ op', admitted (gate_of n') !! op' = None) as Hnone.
      { intros op'. rewrite Ha, Hsing. destruct (decide (op = op')) as [<-|];
          [apply lookup_delete_eq|by rewrite lookup_delete_ne, lookup_singleton_ne]. }
      split; simpl; rewrite ?Hx, ?Hend; auto.
      * intros j y Hy Hh. destruct (Hho _ _ Hy Hh) as (_&_&Hnl).
        rewrite (Hnl op) in Hl; [done|by rewrite Hop].
      * intros j y Hy Hc Hw. by destruct (Hnw _ _ Hy Hc Hw).
      * intros op' r'. by rewrite Hnone.
      * intros op' r'. by rewrite Hnone.
      * intros op' o'. rewrite Hnone. set_solver.
      * intros op'. rewrite elem_of_union, elem_of_singleton. intros [->|?]; [done|set_solver].
    + split; simpl; rewrite ?Hx; auto.
      * intros j y Hy Hh. destruct (Hho _ _ Hy Hh) as (?&?&?). auto.
      * intros j y Hy Hc Hw. by destruct (Hnw _ _ Hy Hc Hw).
      * intros op' r' [Hne' Hop']%Hold Hl. destruct (Hli _ _ Hop' Hl) as (?&?&He).
        rewrite He, lookup_singleton_ne in Hop by done. done.
      * intros op' r' [_ Hop']%Hold. eauto.
      * intros op' o'. destruct (decide (op' = op)) as [->|]; [apply Hflop|].
        rewrite Hne by done. apply Hfl.
Qed.

Lemma alone_gate w g s hist :
  alone lifecycle_id w → untouched (gate_of (nd w)) g → exclusive g = exclusive (gate_of (nd w)) →
  alone lifecycle_id (mk_world (mk_node g s) (callers w) (ending w) hist).
Proof.
  intros [] [Ha _ _ _ _ _ Hr _] Hx. split; simpl; rewrite ?Ha, ?Hx, ?Hr; auto.
Qed.

Lemma shut_serving g : gate_shut g → gstate g = SERVING → exclusive g = None.
Proof. intros [_ _ He] Hs. destruct (exclusive g); [|done]. by destruct (He ltac:(done)). Qed.

Lemma move_alone w i c p x n' :
  caller_move max_queued c p (nd w) x n' → callers w !! i = Some (mk_caller c p) →
  gate_shut (gate_of (nd w)) → gate_books (gate_of (nd w)) → alone lifecycle_id w →
  alone lifecycle_id (mk_world n' (resume i c x (callers w)) (ending w) (sent w)).
Proof.
  intros Hm Hi Hok Hb Hal. destruct (al_calls _ _ Hal _ _ Hi) as [_ Hp]. simpl in Hp.
  remember (nd w) as n eqn:Hn.
  destruct Hm as [p p' g s s' He H1 H2 Hne1 Hne2 Hp' Hws _|p a n He|g s summary Hc Hst Hlt
                 |g s epoch Hc Hep Hr|g s Hc Hep Hst|p g s free Hw Hfree|p' g g1 s s' Hev He Hw Hp' _
                 |g s s' Hc Hst Hpr|g s s' Hc Hr Hpr|p a g g1 s s' Hev He Hho _|a f n];
    try (assert (gate_of (nd w) = g) as Hg by (by rewrite <- Hn)).
  - apply (alone_resume _ _ _ _ _ _ _ _ Hal Hi); rewrite ?Hg; try done.
    intros p1 [= <-]. split; [done|]. split.
    + unfold holds_node. simpl. destruct (c_exclusive c); [|done].
      destruct p; simpl in *; try done; destruct p'; simpl in *; try done; by destruct (Hne2 a).
    + intros _ Hw. destruct p'; simpl in *; try done. destruct (Hws eq_refl) as [_ Hidle].
      by apply (books_idle _ Hb).
  - destruct n as [g s]. apply (alone_resume _ _ _ _ _ _ _ _ Hal Hi); by rewrite <- ?Hn.
  - apply (alone_resume _ _ _ _ _ _ _ _ Hal Hi); rewrite ?Hg; try done.
    intros p1 [= <-]. split; [done|]. unfold holds_node. simpl. by rewrite Hc.
  - unfold restorable_locked in Hr. unbool.
    apply (alone_claim _ _ _ _ _ _ _ Hal Hi Hc); rewrite ?Hg; simpl; try done.
    intros op. rewrite lookup_insert_is_Some'. intuition.
  - assert (exclusive g = None) as Hx by (by apply shut_serving).
    pose proof (close_locked_untouched DRAINING (put_exclusive (Some (c_op c)) g)) as Hu.
    apply (alone_claim _ _ _ _ _ _ _ Hal Hi Hc); rewrite ?Hg; simpl; try done.
    + by destruct (close_locked_cases DRAINING (put_exclusive (Some (c_op c)) g)) as [[-> _]|[-> _]].
    + by rewrite (un_admitted _ _ Hu).
    + intros op. rewrite (un_restoring _ _ Hu). auto.
  - apply (alone_resume _ _ _ _ _ _ _ _ Hal Hi); rewrite ?Hg; try done.
    intros p1 [= <-]. split; [done|]. split.
    + by destruct Hw as [-> | ->].
    + intros Hc _. destruct Hw as [-> | ->]; simpl in Hp; [congruence|].
      rewrite <- Hg. by apply (al_idle _ _ Hal _ _ Hi).
  - pose proof (gate_event_untouched _ _ Hev) as Hu.
    apply (alone_resume _ _ _ _ _ _ _ _ Hal Hi); rewrite ?Hg; simpl.
    + apply (un_admitted _ _ Hu).
    + by apply gate_event_exclusive.
    + by rewrite (un_restoring _ _ Hu).
    + intros p1 [= <-]. split; [done|]. split; [|by rewrite Hw].
      unfold holds_node. simpl. by destruct (c_exclusive c).
  - destruct (leave_untouched c AnAttempt (mk_node (admit_task c g) s'))
      as (Ha&_&_&_&_&_&Hx&_&_&Hr&Hnx). rewrite Hc in *. rewrite Hnx.
    destruct (leave c AnAttempt _).2 as [g2 s2]. simpl in *.
    apply (alone_admit_submit _ _ _ _ _ _ _ _ Hal Hi Hc); rewrite ?Hg; try done.
    by apply shut_serving.
  - rewrite <- Hg. by apply alone_admit_exclusive.
  - pose proof (gate_event_untouched _ _ Hev) as Hu.
    destruct (leave_untouched c a (mk_node g1 s')) as (Ha&_&_&_&_&_&Hx&_&_&Hr&Hnx). rewrite Hnx.
    destruct (leave c a _).2 as [g2 s2]. simpl in *.
    apply (alone_resume _ _ _ _ _ _ _ _ Hal Hi); rewrite ?Hg.
    + rewrite Ha. apply (un_admitted _ _ Hu).
    + rewrite Hx. by apply gate_event_exclusive.
    + rewrite Hr, (un_restoring _ _ Hu). intros op. case_match; [|done].
      rewrite lookup_delete_is_Some. by intros [_ ?].
    + intros p1. case_match eqn:Hcx; [|done]. intros [= <-]. split; [done|]. split; [|done].
      unfold holds_node. simpl. rewrite Hcx. by destruct p.
  - simpl in Hp. destruct (end_exclusive_untouched f (c_op c) n) as (Hu&Hx&_).
    assert (holds_node (mk_caller c (Ending a)) = true) as Hh by (by unfold holds_node; simpl; rewrite Hp).
    destruct (al_holder _ _ Hal _ _ Hi Hh) as (_&Hend&Hnl).
    destruct (end_exclusive f (c_op c) n) as [g2 s2]. simpl in *. rewrite Hend.
    apply (alone_release _ _ _ _ _ Hal); rewrite <- ?Hn.
    + apply (un_admitted _ _ Hu).
    + apply (un_restoring _ _ Hu).
    + intros j y [[_ (?&[=]&_)]|[Hne Hy]]%resume_lookup. split; [done|].
      destruct (holds_node y) eqn:Hhy; [|done]. destruct Hne. by eapply (al_unique _ _ Hal).
    + intros op. rewrite (un_admitted _ _ Hu), Hn. apply Hnl.
Qed.
End Alone.

(** ** All of it, in every reachable state *)

Record world_ok {Disk} `{Store Disk} (max_inflight max_queued : nat)
    (lifecycle_id : string → bool) (w : world Disk) : Prop := {
  ok_shut : gate_shut (gate_of (nd w));
  ok_books : gate_books (gate_of (nd w));
  ok_ledger : ledger w;
  ok_counts : counts max_inflight max_queued w;
  ok_alone : alone lifecycle_id w
}.

Section Reachable.
Context {Disk : Type} `{StoreLaws Disk}.
Context (max_inflight max_queued : nat) (lifecycle_id : string → bool).
Implicit Types (w : world Disk) (n : node Disk) (s : Disk).

#[local] Abbreviation step := (dstep max_queued lifecycle_id).
#[local] Abbreviation ok := (world_ok max_inflight max_queued lifecycle_id).

Lemma dstep_ok w w' : step w w' → ok w → ok w'.
Proof.
  intros Hstep [Hs Hb Hl Hc Ha].
  assert (ledger w') as Hl'.
  { eapply dstep_ledger; [exact Hstep| |exact Hl]. intros i c p Hi.
    by destruct (al_calls _ _ Ha _ _ Hi). }
  destruct Hstep as [w i c Hi Hok|w i c p o x nd' Hi Hsg|w op r e f nd' ends Hop Hr|w op f Hop
                    |w c|w s' Ho].
  - split; try done.
    + assert (in_queue (mk_caller c Observing) = false) as Hq by apply andb_false_r.
      destruct Hc as [H1 H2 H3]. split; simpl; rewrite ?map_count_insert_new, ?Hq by done; done.
    + pose proof Ha as [Hca Hho Hun Hid Hli Hki Hre Hfl Hen].
      assert (∀ j y, <[i := mk_caller c Observing]> (callers w) !! j = Some y →
                y = mk_caller c Observing ∨ callers w !! j = Some y) as Hback
        by (intros j y; rewrite lookup_insert_Some; naive_solver).
      assert (holds_node (mk_caller c Observing) = false) as Hnh by apply andb_false_r.
      split; simpl; auto.
      * by intros j y [->|Hy]%Hback; [|eauto].
      * intros j y [->|Hy]%Hback; [congruence|eauto].
      * intros j k y z [->|Hy]%Hback [->|Hz]%Hback; [congruence..|eauto].
      * intros j y [->|Hy]%Hback; [done|eauto].
  - destruct (al_calls _ _ Ha _ _ Hi) as [_ Hp]. simpl in Hp.
    pose proof (caller_segment_moves _ _ _ _ _ _ _ Hp Hsg) as Hm. split; simpl.
    + by eapply caller_move_shut.
    + destruct w. by eapply caller_move_books.
    + done.
    + destruct w. by eapply move_counts.
    + by eapply move_alone.
  - split; simpl.
    + by eapply run_segment_shut.
    + by eapply run_segment_books.
    + done.
    + destruct w. by eapply run_segment_counts.
    + by eapply alone_run.
  - destruct (end_exclusive_untouched f op (nd w)) as (Hu&Hx&_).
    destruct (al_ending _ _ Ha _ Hop) as [Hex Hlid]. split; simpl.
    + by apply end_exclusive_shut.
    + by eapply books_untouched.
    + done.
    + destruct Hc, Hu as [Hadm _ _ _ Hsl Hq _ _]. split; simpl; rewrite ?Hadm, ?Hsl, ?Hq; done.
    + assert (ending w ∖ {[op]} = ∅) as ->.
      { apply set_eq. intros op'. split; [|set_solver]. rewrite elem_of_difference.
        intros [Hin Hne]. destruct (al_ending _ _ Ha _ Hin) as [Hex' _]. set_solver. }
      destruct (end_exclusive f op (nd w)) as [g2 s2]. simpl in *.
      apply (alone_release _ _ _ _ _ _ Ha (un_admitted _ _ Hu) (un_restoring _ _ Hu)).
      * intros j y Hy. split; [done|]. destruct (holds_node y) eqn:Hh; [|done].
        destruct (al_holder _ _ Ha _ _ Hy Hh) as (_&He&_). set_solver.
      * intros op'. rewrite (un_admitted _ _ Hu). intros [r Hr].
        destruct (lifecycle_id op') eqn:Hl1; [|done].
        destruct (al_lifecycle _ _ Ha _ _ Hr Hl1) as (_&He&_). set_solver.
  - destruct (command_untouched c (nd w)) as (Hu&Hx&_). split; simpl.
    + by apply command_shut.
    + by eapply books_untouched.
    + done.
    + destruct Hc, Hu as [Hadm _ _ _ Hsl Hq _ _]. split; simpl; rewrite ?Hadm, ?Hsl, ?Hq; done.
    + destruct (run_command c (nd w)) as [g2 s2]. by apply alone_gate.
  - split; simpl; try done.
    + by destruct Hc.
    + by apply alone_gate.
Qed.

Lemma fresh_ok w : fresh max_inflight w → ok w.
Proof.
  destruct w as [[g s] l en hist]. intros (Hg&Hs&Hl&He&Hh). simpl in *. subst.
  split; simpl.
  - by split.
  - split; simpl; try done; intros op; by rewrite ?lookup_empty; try set_solver.
  - split; simpl; try done; try constructor; intros op; rewrite ?lookup_empty; try done;
      try set_solver.
  - split; simpl; rewrite ?map_count_empty, ?map_size_empty; lia.
  - split; simpl; try done; intros; try (rewrite lookup_empty in *; done); try set_solver.
Qed.

Lemma steps_ok w w' : rtc step w w' → ok w → ok w'.
Proof. induction 1; eauto using dstep_ok. Qed.

Lemma dreachable_ok w : dreachable max_inflight max_queued lifecycle_id w → ok w.
Proof. intros (w0&Hw0&Hsteps). eapply steps_ok; [done|]. by apply fresh_ok. Qed.
End Reachable.

(** * The node agent's store is such a store *)

Section NodeStoreInstance.
Context (self : Ownership).

#[export] Instance node_store : Store db := {|
  st_observe op d := observe (own_node_id self) op d;
  st_any_unknown d := any_unknown (own_node_id self) d;
  st_insert_accepted := insert_accepted self;
  st_promote := promote self;
  st_cancel_accepted := cancel_accepted self;
  st_unsent_after_promotion := unsent_after_promotion self;
  st_mark_unknown := mark_unknown self;
  st_finish := finish self;
  st_state op d := state <$> ops d !! (own_node_id self, op);
  st_wf := db_wf;
  st_others d d' := ∃ l l', rtc step (mk_cluster d l) (mk_cluster d' l')
|}.

Lemma evolves_keeps d d' : db_wf d' → db_evolves d d' → keeps d d'.
Proof.
  intros Hwf Hev. split; [done|]. intros op (st&Hst&Hne). simpl in *.
  destruct (ops d !! (own_node_id self, op)) as [r|] eqn:Hr; [|done]. injection Hst as <-.
  destruct (evolves_ops _ _ Hev _ _ Hr) as (r'&->&[_ Hs _ _]). simpl.
  eexists. split; [done|]. by eapply never_accepted_again.
Qed.

Lemma perform_keeps q d : db_wf d → keeps d (perform self q d).2.
Proof.
  intros Hwf. destruct (perform self q d) as [r d'] eqn:Hq.
  destruct (store_step_wf _ _ _ _ _ Hwf Hq). by apply evolves_keeps.
Qed.

#[export] Instance node_store_laws : StoreLaws db.
Proof.
  split.
  - intros op prov epoch d d' _ Hp. simpl in *.
    apply promote_true in Hp as (_&_&Hu&r&Hr&Hs&_&->).
    rewrite Hr. simpl. rewrite lookup_insert_eq. simpl. by rewrite Hs.
  - intros op k req hash keep d. exact (perform_keeps (QInsert op k req hash keep) d).
  - intros op prov epoch d. exact (perform_keeps (QPromote op prov epoch) d).
  - intros op why k d. exact (perform_keeps (QCancel op why k) d).
  - intros op why d. exact (perform_keeps (QUnsent op why) d).
  - intros op why seen d. exact (perform_keeps (QMarkUnknown op why seen) d).
  - intros op st term result why replay d.
    exact (perform_keeps (QFinish op st term result why replay) d).
  - intros d d' Hwf (l&l'&Hsteps). destruct (steps_sound _ _ Hsteps Hwf). by apply evolves_keeps.
Qed.
End NodeStoreInstance.

(** * Running the model *)

Inductive event : Type :=
  | ECall (i : nat) (c : call_args)
  | ECaller (i : nat) (o : oracle)
  | ERun (op : string) (e : relay_end) (f : fault)
  | EEnd (op : string) (f : fault)
  | ECommand (c : command).

Section Execute.
Context {Disk : Type} `{Store Disk}.
Context (max_inflight max_queued : nat) (lifecycle_id : string → bool).

Definition call_okb (c : call_args) : bool :=
  bool_decide (c_exclusive c = lifecycle_id (c_op c)) &&
  (c_exclusive c || negb (bool_decide (c_kind c ∈ LIFECYCLE_KINDS))).

Definition exec (ev : event) (w : world Disk) : option (world Disk) :=
  match ev with
  | ECall i c =>
      match callers w !! i with
      | Some _ => None
      | None => if call_okb c
          then Some (mk_world (nd w) (<[i := mk_caller c Observing]> (callers w)) (ending w) (sent w))
          else None
      end
  | ECaller i o =>
      match callers w !! i with
      | None => None
      | Some x =>
          match caller_segment max_queued (c_args x) (c_phase x) o (nd w) with
          | None => None
          | Some (n, nd') => Some (mk_world nd' (resume i (c_args x) n (callers w)) (ending w) (sent w))
          end
      end
  | ERun op e f =>
      match admitted (gate_of (nd w)) !! op with
      | None => None
      | Some r =>
          let out := run_segment op r e f (nd w) in
          Some (mk_world out.1 (callers w) (if out.2 then {[op]} ∪ ending w else ending w)
                  (if started r op (gate_of (nd w)) then sent w ++ [op] else sent w))
      end
  | EEnd op f =>
      if bool_decide (op ∈ ending w)
      then Some (mk_world (end_exclusive f op (nd w)) (callers w) (ending w ∖ {[op]}) (sent w))
      else None
  | ECommand c => Some (mk_world (run_command c (nd w)) (callers w) (ending w) (sent w))
  end.

Fixpoint exec_all (evs : list event) (w : world Disk) : option (world Disk) :=
  match evs with
  | [] => Some w
  | ev :: rest => exec ev w ≫= exec_all rest
  end.

Lemma exec_dstep ev w w' : exec ev w = Some w' → dstep max_queued lifecycle_id w w'.
Proof.
  destruct ev as [i c|i o|op e f|op f|c]; simpl; intros Hev.
  - destruct (callers w !! i) eqn:Hi; [done|]. destruct (call_okb c) eqn:Hc; simplify_eq.
    apply dstep_call; [done|]. unfold call_okb in Hc. unbool.
    split; [done|]. intros Hx. rewrite Hx in *. simpl in *. by unbool.
  - destruct (callers w !! i) as [[c p]|] eqn:Hi; [|done]. simpl in Hev.
    destruct (caller_segment _ _ _ _ _) as [[n nd']|] eqn:Hs; simplify_eq. by eapply dstep_caller.
  - destruct (admitted _ !! op) as [r|] eqn:Hr; simplify_eq.
    eapply dstep_run; [done|]. apply surjective_pairing.
  - case_bool_decide; simplify_eq. by apply dstep_end.
  - simplify_eq. apply dstep_command.
Qed.

Lemma exec_all_dsteps evs w w' : exec_all evs w = Some w' → rtc (dstep max_queued lifecycle_id) w w'.
Proof.
  revert w. induction evs as [|ev evs IH]; intros w; simpl; [by intros [= <-]|].
  destruct (exec ev w) as [w1|] eqn:Hev; [|done]. simpl. intros Hrest.
  eapply rtc_l; [by eapply exec_dstep|by apply IH].
Qed.

Lemma exec_all_reachable evs s w' :
  st_wf s → exec_all evs (mk_world (mk_node (new_gate max_inflight) s) ∅ ∅ []) = Some w' →
  dreachable max_inflight max_queued lifecycle_id w'.
Proof. intros Hs Hw. eexists. split; [|by eapply exec_all_dsteps]. by repeat split. Qed.
End Execute.

(** * A run, for the witnesses

    Over the node claimed in [Election.Demo], [alice]'s dispatcher sends [x];
    the relay's connection breaks and the outcome is unknown. *)
Module Run.
Definition args (op : string) : call_args := mk_call op KInference false None None None false [].
Definition load (op : string) : call_args := mk_call op KLoad true None None None false [].
Definition go : oracle := mk_oracle Answers true WSlot.
Definition cancelled : oracle := mk_oracle Answers true WCancelled.
Definition is_load (op : string) : bool := bool_decide (op = "m").
#[export] Instance alice_store : Store db := node_store Demo.alice.
Definition start : world db := mk_world (mk_node (new_gate 1) (cdb Demo.c2)) ∅ ∅ [].
Definition run (evs : list event) : world db :=
  default start (exec_all 2 is_load evs start).
Definition submit_x : list event :=
  [ECall 0 (args "x"); ECaller 0 go; ECaller 0 go; ECaller 0 go; ECaller 0 go].
Definition admit_x : list event := submit_x ++ [ECaller 0 go].
Definition send_x : list event := admit_x ++ [ERun "x" (Returns (NotSent "")) Answers].
Definition break_x : list event :=
  send_x ++ [ERun "x" (Returns (Uncertain "eof" (JObj []))) Answers; ERun "x" RunCancelled Answers].
Definition load_m : list event :=
  [ECall 0 (load "m"); ECaller 0 go; ECaller 0 go; ECaller 0 go; ECaller 0 go; ECaller 0 go;
   ECaller 0 go].

Lemma c2_wf : db_wf (cdb Demo.c2).
Proof.
  apply reachable_wf. exists Demo.c0. split; [by repeat split|].
  eapply rtc_l; [exact (step_register "n" Demo.c0 eq_refl)|]. apply rtc_once, Demo.claim_step.
Qed.

Lemma run_reachable evs : dreachable 1 2 is_load (run evs).
Proof.
  unfold run. destruct (exec_all 2 is_load evs start) as [w|] eqn:Hw; simpl.
  - eapply exec_all_reachable; [apply c2_wf|exact Hw].
  - exists start. split; [|constructor]. split_and!; [done|apply c2_wf|done..].
Qed.

(** With two slots: the relay of [x] has broken, and its task waits for the
    barrier that the promotion of [y] holds. *)
Definition start2 : world db := mk_world (mk_node (new_gate 2) (cdb Demo.c2)) ∅ ∅ [].
Definition beside : list event :=
  submit_x ++ [ECaller 0 go; ERun "x" (Returns (NotSent "")) Answers;
   ECall 1 (args "y"); ECaller 1 go; ECaller 1 go; ECaller 1 go; ECaller 1 go;
   ERun "x" (Returns (Uncertain "eof" (JObj []))) Answers; ECaller 1 go].

(** So [y] is admitted beside an uncertain end that is not being settled yet. *)
Example an_unsettled_end_does_not_block :
  (λ w, r_phase <$> admitted (gate_of (nd w)) !! "x") <$> exec_all 2 is_load beside start2 =
    Some (Some (REnded (Uncertain "eof" (JObj [])))) ∧
  (λ w, r_phase <$> admitted (gate_of (nd w)) !! "y") <$> exec_all 2 is_load beside start2 =
    Some (Some RStart).
Proof. split; vm_compute; reflexivity. Qed.

Example sends_x : sent (run send_x) = ["x"].
Proof. vm_compute. reflexivity. Qed.

Example breaks_x : gstate (gate_of (nd (run break_x))) = BLOCKED.
Proof. vm_compute. reflexivity. Qed.

Example loads_m : is_Some (admitted (gate_of (nd (run load_m))) !! "m").
Proof. vm_compute. eauto. Qed.
End Run.

(** * Guarantees *)

Section Guarantees.
Context {Disk : Type} `{StoreLaws Disk}.
Context (max_inflight max_queued : nat) (lifecycle_id : string → bool).
Implicit Types (w : world Disk) (n : node Disk) (s : Disk).

(** When a caller's progress admits a task, and what it found. *)
Lemma caller_move_admitted c p n x n' :
  caller_move max_queued c p n x n' →
  admitted (gate_of n') = admitted (gate_of n) ∨
  (p = Holding ∧
   admitted (gate_of n') = <[c_op c := mk_running (c_kind c) RStart]> (admitted (gate_of n)) ∧
   (c_exclusive c = true ∨ gstate (gate_of n) = SERVING) ∧ gstate (gate_of n) ≠ LOST ∧
   ∃ epoch, st_promote (c_op c) (c_provenance c) epoch (store_of n) = (inr true, store_of n')).
Proof.
  destruct 1 as [| | | |g s|p g s free|p' g g1 s s' Hev|g s s' Hc Hst Hp|g s s' Hc Hr Hp
                |p a g g1 s s' Hev|a f n]; simpl; try (by left).
  - left. by rewrite (un_admitted _ _ (close_locked_untouched _ _)).
  - left. by apply gate_event_untouched.
  - right. destruct (leave_untouched c AnAttempt (mk_node (admit_task c g) s')) as (->&_).
    destruct (leave_parts c AnAttempt (mk_node (admit_task c g) s')) as [_ ->].
    split_and!; eauto; congruence.
  - right. split_and!; eauto.
    destruct (c_epoch c); [|congruence]. unfold restorable_locked in Hr. unbool. congruence.
  - left. destruct (leave_untouched c a (mk_node g1 s')) as (->&_). by apply gate_event_untouched.
  - left. apply (end_exclusive_untouched f (c_op c) n).
Qed.

(** C2: At most one send per operation.  However callers, tasks, commands and
    other processes interleave, the relay of an operation is started at most
    once. *)
Theorem sent_at_most_once w :
  dreachable max_inflight max_queued lifecycle_id w → NoDup (sent w).
Proof. intros Hw%dreachable_ok. apply (led_nodup _ (ok_ledger _ _ _ _ Hw)). Qed.

(** The final send barrier.  A relay is started only for an admitted task
    that has not run, and under a maintenance hold only for a restore admitted
    for exactly the epoch the gate is frozen at; that restore then has the node
    to itself. *)
Theorem final_send_barrier w w' :
  dreachable max_inflight max_queued lifecycle_id w →
  dstep max_queued lifecycle_id w w' → sent w' ≠ sent w →
  ∃ op r, sent w' = sent w ++ [op] ∧ (op ∉ sent w) ∧
    admitted (gate_of (nd w)) !! op = Some r ∧ r_phase r = RStart ∧
    (frozen (gate_of (nd w)) = true →
       ∃ epoch, restoring (gate_of (nd w)) !! op = Some epoch ∧
         frozen_epoch (gate_of (nd w)) = Some epoch ∧
         admitted (gate_of (nd w)) = {[op := r]}).
Proof.
  intros Hw%dreachable_ok Hstep Hne. pose proof (ok_alone _ _ _ _ Hw) as Ha.
  destruct Hstep as [| |w op r e f nd' ends Hop Hr| | |]; simpl in *; try done.
  destruct (started r op _) eqn:Hst; [|done].
  pose proof (started_phase _ _ _ Hst) as Hph.
  exists op, r. split_and!; try done.
  { apply (led_start _ (ok_ledger _ _ _ _ Hw)). by rewrite Hop; simpl; rewrite Hph. }
  intros Hf. unfold started, withheld in Hst. rewrite Hph, Hf in Hst.
  destruct (restoring _ !! op) as [epoch|] eqn:Hre; [|done]. simpl in Hst. unbool.
  exists epoch. split_and!; try done.
  apply (al_lifecycle _ _ Ha _ _ Hop). apply (al_restoring _ _ Ha). by rewrite Hre.
Qed.

(** C5: Nothing is promoted beside an uncertain attempt that is being settled.
    When a step admits an operation, its row was accepted and nothing on the
    node was unknown in the database; and either the gate was serving and the set
    of unknowns still to be committed was empty, or nothing else was admitted at
    all.  So no attempt of this process whose settlement had begun was uncertain.
    Settlement begins once the attempt has the barrier: an attempt whose relay
    has ended and which still waits for the barrier is not counted, and a
    promotion that holds the barrier may be granted beside it. *)
Theorem no_promotion_beside_uncertain w w' op r :
  dreachable max_inflight max_queued lifecycle_id w →
  dstep max_queued lifecycle_id w w' →
  admitted (gate_of (nd w)) !! op = None → admitted (gate_of (nd w')) !! op = Some r →
  st_state op (store_of (nd w)) = Some Accepted ∧ st_any_unknown (store_of (nd w)) = false ∧
  gstate (gate_of (nd w)) ≠ LOST ∧
  (gstate (gate_of (nd w)) = SERVING ∧ uncommitted_unknown (gate_of (nd w)) = ∅ ∨
   admitted (gate_of (nd w)) = ∅) ∧
  ∀ op2 o lc, r_phase <$> admitted (gate_of (nd w)) !! op2 = Some (RCommitting o lc) →
    is_uncertain o = false.
Proof.
  intros Hw%dreachable_ok Hstep Hno Hop.
  destruct Hw as [Hs Hb Hl _ Ha].
  destruct Hstep as [|w i c p o x n' Hi Hsg|w op' r' e f n' ends Hop' Hr|w op' f _|w c|];
    simpl in *; try congruence.
  - destruct (al_calls _ _ Ha _ _ Hi) as [_ Hp]. simpl in Hp.
    pose proof (caller_segment_moves _ _ _ _ _ _ _ Hp Hsg) as Hm.
    destruct (caller_move_admitted _ _ _ _ _ Hm) as [Heq|(->&Heq&Hwho&Hnl&epoch&Hpr)];
      [congruence|]. rewrite Heq, lookup_insert_Some in Hop.
    destruct Hop as [[<- _]|[_ ?]]; [|congruence].
    destruct (law_promote _ _ _ _ _ (led_wf _ Hl) Hpr) as (?&_&?).
    split_and!; try done.
    { destruct Hwho as [Hc|Hserv]; [right; by apply (al_idle _ _ Ha _ _ Hi Hc eq_refl)|].
      left. split; [done|]. apply dec_stable. intros Hne. by destruct (shut_unknown _ Hs). }
    intros op2 o2 lc Hop2. destruct (is_uncertain o2) eqn:Hu; [|done].
    pose proof (books_unknown _ Hb _ _ _ Hop2 Hu) as Hin. destruct Hwho as [Hc|Hserv].
    + rewrite (al_idle _ _ Ha _ _ Hi Hc eq_refl) in Hop2. by rewrite lookup_empty in Hop2.
    + destruct (shut_unknown _ Hs); [set_solver|done].
  - destruct (run_segment_admitted _ _ _ _ _ _ _ Hr) as [(ph&Heq&_)|(o&_&Heq)]; rewrite Heq in Hop.
    + rewrite lookup_insert_Some in Hop. destruct Hop as [[<- _]|[_ ?]]; congruence.
    + rewrite lookup_delete_Some in Hop. destruct Hop; congruence.
  - rewrite (un_admitted _ _ (proj1 (end_exclusive_untouched f op' (nd w)))) in Hop. congruence.
  - rewrite (un_admitted _ _ (proj1 (command_untouched c (nd w)))) in Hop. congruence.
Qed.

(** The bounds hold and nothing leaks.  At most [max_inflight] operations
    are admitted and at most [max_queued] callers queue; when no caller is left
    and nothing is admitted, every slot is free and the queue is empty. *)
Theorem bounded_and_leak_free w :
  dreachable max_inflight max_queued lifecycle_id w →
  size (admitted (gate_of (nd w))) ≤ max_inflight ∧ queued (gate_of (nd w)) ≤ max_queued ∧
  (callers w = ∅ → admitted (gate_of (nd w)) = ∅ →
   slots (gate_of (nd w)) = max_inflight ∧ queued (gate_of (nd w)) = 0).
Proof.
  intros Hw%dreachable_ok. destruct (ok_counts _ _ _ _ Hw) as [Hs Hq Hm].
  split_and!; [lia|done|]. intros Hc Ha. rewrite Hc, Ha, map_count_empty in *.
  rewrite map_size_empty in Hs. lia.
Qed.

(** A lifecycle operation runs alone.  While one is admitted it is the
    only admitted operation, the gate is not serving, no second lifecycle call
    has the node, and what a drain waits for is exactly that nothing is
    admitted. *)
Theorem lifecycle_runs_alone w op r :
  dreachable max_inflight max_queued lifecycle_id w →
  admitted (gate_of (nd w)) !! op = Some r → lifecycle_id op = true →
  admitted (gate_of (nd w)) = {[op := r]} ∧ exclusive (gate_of (nd w)) = Some op ∧
  gstate (gate_of (nd w)) ≠ SERVING ∧ idle (gate_of (nd w)) = false ∧
  ∀ i x, callers w !! i = Some x → holds_node x = false.
Proof.
  intros Hw%dreachable_ok Hop Hl. destruct Hw as [Hs Hb _ _ Ha].
  destruct (al_lifecycle _ _ Ha _ _ Hop Hl) as (Hx&_&Hsing).
  split_and!; try done.
  - apply (shut_exclusive _ Hs). by rewrite Hx.
  - destruct (idle _) eqn:Hi; [|done]. apply (books_idle _ Hb) in Hi.
    by rewrite Hi, lookup_empty in Hop.
  - intros i x Hi. destruct (holds_node x) eqn:Hh; [|done].
    destruct (al_holder _ _ Ha _ _ Hi Hh) as (_&_&Hn). rewrite (Hn op) in Hl; [done|by rewrite Hop].
Qed.

(** What the gate's flags mean.  A frozen gate is in maintenance or lost;
    a gate that knows an uncommitted unknown, or is held by a lifecycle
    operation, does not serve; [idle] and [quiet] are set exactly when nothing
    is admitted and no relay is talking to the runtime. *)
Theorem gate_flags_agree w :
  dreachable max_inflight max_queued lifecycle_id w →
  let g := gate_of (nd w) in
  (frozen g = true → gstate g = MAINTENANCE ∨ gstate g = LOST) ∧
  (uncommitted_unknown g ≠ ∅ → gstate g ≠ SERVING) ∧
  (exclusive g ≠ None → gstate g ≠ SERVING) ∧
  (idle g = true ↔ admitted g = ∅) ∧ (quiet g = true ↔ sending g = ∅) ∧
  (∀ op, op ∈ sending g ↔ r_phase <$> admitted g !! op = Some RSending).
Proof. intros Hw%dreachable_ok. destruct Hw as [[] [] _ _ _]. by split_and!. Qed.

(** ** A lost role *)

Lemma lost_event g g1 : gate_event g g1 → gstate g = LOST → gstate g1 = LOST.
Proof.
  destruct 1 as [| | |epoch|op]; intros Hl; try done.
  - by destruct (close_locked_cases LOST g) as [[-> _]|[-> _]].
  - unfold freeze_locked. by rewrite bool_decide_eq_true_2.
  - unfold mark_uncommitted, close_locked. simpl. by rewrite bool_decide_eq_true_2.
Qed.

Lemma lost_end f op n : gstate (gate_of n) = LOST → gstate (gate_of (end_exclusive f op n)) = LOST.
Proof.
  intros Hl. unfold end_exclusive. case_match; [done|]. simpl. rewrite Hl.
  rewrite bool_decide_eq_false_2 by done. done.
Qed.

Lemma lost_command c n : gstate (gate_of n) = LOST → gstate (gate_of (run_command c n)) = LOST.
Proof.
  intros Hl.
  assert (∀ target, gstate (close_locked target (gate_of n)) = LOST) as Hc
    by (intros target; unfold close_locked; by rewrite bool_decide_eq_true_2).
  assert (∀ f n1, gstate (gate_of n1) = LOST → gstate (gate_of (reopen_locked f n1).2) = LOST) as Hr
    by (intros f n1 H1; unfold reopen_locked; by rewrite bool_decide_eq_true_2).
  destruct c as [| | |f|epoch|f| |f]; simpl; auto.
  - unfold close_locked. simpl. by rewrite bool_decide_eq_true_2.
  - by apply Hr.
  - unfold freeze_locked. by rewrite bool_decide_eq_true_2.
  - unfold thaw. case_match; [done|]. simpl. by rewrite bool_decide_eq_true_2.
  - unfold interrupt. by case_match.
  - unfold recheck_drain. by rewrite Hl.
Qed.

Lemma lost_move c p n x n' :
  caller_move max_queued c p n x n' → gstate (gate_of n) = LOST → gstate (gate_of n') = LOST.
Proof.
  destruct 1 as [| |g s summary Hc Hs|g s epoch Hc He Hr|g s Hc He Hs|p g s free|p' g g1 s s' Hev
                |g s s' Hc Hs|g s s' Hc Hr|p a g g1 s s' Hev|]; simpl; intros Hl; try congruence.
  - by eapply lost_event.
  - destruct (leave_untouched c a (mk_node g1 s')) as (_&_&_&_&_&_&_&->&_). by eapply lost_event.
  - by apply lost_end.
Qed.

Lemma lost_run op r e f n n' ends :
  run_segment op r e f n = (n', ends) → gstate (gate_of n) = LOST → gstate (gate_of n') = LOST.
Proof.
  unfold run_segment. intros Hs Hl.
  destruct (r_phase r) as [| |o|o lc|o lc|o lc]; injection Hs as <- <-; simpl.
  - unfold run_start. by case_match.
  - done.
  - unfold settle_begin. repeat case_match; try done;
      exact (lost_event _ _ (event_block _ op) Hl).
  - destruct (settle_commit_gate op r o lc f n) as (ph&u&->&_). done.
  - exact (lost_event _ _ (event_close _) Hl).
  - unfold run_finally. by repeat case_match.
Qed.

Lemma dstep_lost w w' :
  dstep max_queued lifecycle_id w w' → world_ok max_inflight max_queued lifecycle_id w →
  gstate (gate_of (nd w)) = LOST →
  gstate (gate_of (nd w')) = LOST ∧
  ∀ op, is_Some (admitted (gate_of (nd w')) !! op) → is_Some (admitted (gate_of (nd w)) !! op).
Proof.
  intros Hstep Hok Hl.
  destruct Hstep as [|w i c p o x n' Hi Hsg|w op' r' e f n' ends Hop' Hr|w op' f _|w c|]; simpl;
    try done.
  - destruct (al_calls _ _ (ok_alone _ _ _ _ Hok) _ _ Hi) as [_ Hp]. simpl in Hp.
    pose proof (caller_segment_moves _ _ _ _ _ _ _ Hp Hsg) as Hm. split; [by eapply lost_move|].
    destruct (caller_move_admitted _ _ _ _ _ Hm) as [->|(_&_&_&?&_)]; done.
  - split; [by eapply lost_run|]. intros op.
    destruct (run_segment_admitted _ _ _ _ _ _ _ Hr) as [(ph&->&_)|(o&_&->)].
    + rewrite lookup_insert_is_Some'. intros [<-|?]; [by rewrite Hop'|done].
    + rewrite lookup_delete_is_Some. by intros [_ ?].
  - split; [by apply lost_end|]. by rewrite (un_admitted _ _ (proj1 (end_exclusive_untouched f op' (nd w)))).
  - split; [by apply lost_command|]. by rewrite (un_admitted _ _ (proj1 (command_untouched c (nd w)))).
Qed.

(** A lost role is lost for good.  From a gate that is lost no sequence of
    steps reopens it or admits another operation: what was admitted before may
    only settle. *)
Theorem lost_is_final w w' :
  dreachable max_inflight max_queued lifecycle_id w → gstate (gate_of (nd w)) = LOST →
  rtc (dstep max_queued lifecycle_id) w w' →
  gstate (gate_of (nd w')) = LOST ∧
  ∀ op, is_Some (admitted (gate_of (nd w')) !! op) → is_Some (admitted (gate_of (nd w)) !! op).
Proof.
  intros Hw%dreachable_ok Hl Hsteps. induction Hsteps as [w|w1 w2 w3 H12 _ IH]; [done|].
  destruct (dstep_lost _ _ H12 Hw Hl) as [Hl2 Had]. pose proof (dstep_ok _ _ _ _ _ H12 Hw) as Hw2.
  destruct (IH Hw2 Hl2) as [? Had3]. auto.
Qed.

(** ** Settlement *)

(** The next segment of a task, with a store that answers. *)
Definition advance (op : string) (n : node Disk) : node Disk :=
  match admitted (gate_of n) !! op with
  | Some r => (run_segment op r RunCancelled Answers n).1
  | None => n
  end.

Definition in_phase (op : string) (n : node Disk) (ph : run_phase) : Prop :=
  r_phase <$> admitted (gate_of n) !! op = Some ph.

Lemma advance_ended op n o :
  in_phase op n (REnded o) → ∃ lc, in_phase op (advance op n) (RCommitting o lc) ∧
    slots (gate_of (advance op n)) = slots (gate_of n) ∧ store_of (advance op n) = store_of n.
Proof.
  unfold in_phase, advance. intros (r&Hop&Hph)%fmap_Some. rewrite Hop. unfold run_segment.
  rewrite <- Hph. simpl. unfold settle_begin, set_phase. simpl. rewrite lookup_insert_eq.
  eexists. split_and!; [done| |done]. case_match; [|done].
  apply (un_slots _ _ (mark_uncommitted_untouched _ _)).
Qed.

Lemma advance_committing op n o lc :
  in_phase op n (RCommitting o lc) →
  store_of (advance op n) = (commit_outcome op o (store_of n)).2 ∧
  slots (gate_of (advance op n)) = slots (gate_of n) ∧
  in_phase op (advance op n)
    (match (commit_outcome op o (store_of n)).1 with
     | inr _ => RSettled o lc | inl (NotOwner _) => RLosing o lc | inl _ => RCommitting o lc end).
Proof.
  unfold in_phase, advance. intros (r&Hop&Hph)%fmap_Some. rewrite Hop. unfold run_segment.
  rewrite <- Hph. simpl. unfold settle_commit, call, on_gate, set_phase.
  destruct (commit_outcome op o (store_of n)).1 as [[]|ok], (is_uncertain o); simpl;
    by rewrite lookup_insert_eq.
Qed.

Lemma advance_losing op n o lc :
  in_phase op n (RLosing o lc) → in_phase op (advance op n) (RSettled o lc) ∧
    slots (gate_of (advance op n)) = slots (gate_of n) ∧ store_of (advance op n) = store_of n.
Proof.
  unfold in_phase, advance. intros (r&Hop&Hph)%fmap_Some. rewrite Hop. unfold run_segment.
  rewrite <- Hph. simpl. rewrite lookup_insert_eq. simpl. rewrite (un_slots _ _ (close_locked_untouched _ _)). done.
Qed.

Lemma advance_settled op n o lc :
  in_phase op n (RSettled o lc) → admitted (gate_of (advance op n)) !! op = None ∧
    slots (gate_of (advance op n)) = slots (gate_of n) + 1 ∧ store_of (advance op n) = store_of n.
Proof.
  unfold in_phase, advance. intros (r&Hop&Hph)%fmap_Some. rewrite Hop. unfold run_segment.
  rewrite <- Hph. simpl. unfold run_finally.
  repeat case_match; simpl; by rewrite lookup_delete_eq.
Qed.

Lemma advance_gone op n : admitted (gate_of n) !! op = None → advance op n = n.
Proof. unfold advance. by intros ->. Qed.

(** An ended attempt always settles.  Whatever the relay's outcome, once
    it has ended, four segments of its task suffice: the outcome is put to the
    store once, the operation is no longer admitted and its slot is free.  The
    store's answer need only not be an error the dispatcher retries. *)
Theorem ended_attempt_settles op o n :
  in_phase op n (REnded o) →
  (match (commit_outcome op o (store_of n)).1 with inr _ | inl (NotOwner _) => True | _ => False end) →
  let n' := advance op (advance op (advance op (advance op n))) in
  admitted (gate_of n') !! op = None ∧ slots (gate_of n') = slots (gate_of n) + 1 ∧
  store_of n' = (commit_outcome op o (store_of n)).2.
Proof.
  intros Hph Hst. destruct (advance_ended _ _ _ Hph) as (lc&H1&Hsl1&Hs1).
  destruct (advance_committing _ _ _ _ H1) as (Hs2&Hsl2&H2). rewrite Hs1 in *.
  destruct (commit_outcome op o (store_of n)).1 as [[]|ok]; try done.
  - destruct (advance_losing _ _ _ _ H2) as (H3&Hsl3&Hs3).
    destruct (advance_settled _ _ _ _ H3) as (H4&Hsl4&Hs4).
    split_and!; [done|lia|congruence].
  - destruct (advance_settled _ _ _ _ H2) as (H3&Hsl3&Hs3). rewrite (advance_gone _ _ H3).
    split_and!; [done|lia|congruence].
Qed.
End Guarantees.

(** What settling writes in the node agent's store: the outcome decides the
    terminal state, and nothing else does. *)
Definition settled_state (o : Outcome) : op_state :=
  match o with
  | Completed _ _ _ => OpCompleted
  | RuntimeRefused _ _ | NotSent _ => OpFailed
  | Withheld _ => CancelledUnsent
  | Uncertain _ _ => OutcomeUnknown
  end.

Definition settled_result (o : Outcome) : option json :=
  match o with Completed _ result _ => result | _ => None end.

Lemma run_owned_owns {A} self action op (body : dbtx A) d :
  owns self d → run_owned self action op body d =
    match body d with
    | inl (NotOwner found) => run_owned self action op (raise (NotOwner found)) d
    | inl e => (inl e, d)
    | inr (x, d') => (inr x, d')
    end.
Proof.
  intros Ho. unfold run_owned, and_then, mbind, tx_bind.
  assert (prove_ownership self d = inr (tt, d)) as -> by (by apply prove_ownership_inr).
  destruct (body d) as [[]|[]]; done.
Qed.

(** Settling is truthful.  For a running operation of the current owner,
    committing an outcome succeeds and records exactly it: completed only with
    the runtime's completion (and then with its result), failed with a refusal
    or an unsent request, unsent when withheld, unknown when uncertain. *)
Theorem settling_is_truthful self op o d r :
  db_wf d → owns self d → ops d !! (own_node_id self, op) = Some r → state r = Running →
  ∃ d' r', commit_outcome (H := node_store self) op o d = (inr true, d') ∧
    ops d' !! (own_node_id self, op) = Some r' ∧ ident r' = ident r ∧
    state r' = settled_state o ∧
    results d' = match settled_result o with
                 | Some res => <[(own_node_id self, op) := res]> (results d)
                 | None => results d
                 end.
Proof.
  intros Hwf Ho Hr Hs.
  assert (owned_in self Running r = true) as Hown.
  { destruct (wf_ops _ Hwf _ _ _ Hr) as [_ (a&Ha&[_ _ Hop])].
    destruct Ho as (a'&Ha'&Hg&_). rewrite Ha in Ha'. injection Ha' as <-.
    apply owned_in_true. split; [done|]. rewrite <- Hg. apply Hop. by rewrite Hs. }
  assert (results d !! (own_node_id self, op) = None) as Hres.
  { destruct (results d !! _) as [j|] eqn:Hj; [|done].
    destruct (wf_results _ Hwf _ _ _ Hj) as (r0&Hr0&Hst). rewrite Hr in Hr0.
    injection Hr0 as <-. rewrite Hs in Hst. by destruct Hst. }
  destruct o as [term [result|] replay|term why|why|why seen|why]; simpl;
    unfold finish, unsent_after_promotion, mark_unknown; simpl;
    rewrite run_owned_owns by done;
    unfold update_op, store_result, and_then, mbind, tx_bind, gets, modify, commit, tx_when;
    simpl; rewrite Hr; simpl; rewrite Hown; simpl; rewrite ?Hres; simpl;
    do 2 eexists; (split; [reflexivity|]); simpl; rewrite lookup_insert_eq; by split_and!.
Qed.

(** ** The witnesses *)

#[local] Existing Instance Run.alice_store.

Lemma run_step evs ev :
  exec 2 Run.is_load ev (Run.run evs) = Some (Run.run (evs ++ [ev])) →
  dstep 2 Run.is_load (Run.run evs) (Run.run (evs ++ [ev])).
Proof. apply exec_dstep. Qed.

Lemma sent_at_most_once_witness : NoDup (sent (Run.run Run.break_x)).
Proof. apply (sent_at_most_once 1 2 Run.is_load), Run.run_reachable. Defined.

Lemma final_send_barrier_witness :
  ∃ op r, sent (Run.run Run.send_x) = sent (Run.run Run.admit_x) ++ [op] ∧
    (op ∉ sent (Run.run Run.admit_x)) ∧
    admitted (gate_of (nd (Run.run Run.admit_x))) !! op = Some r ∧ r_phase r = RStart ∧
    (frozen (gate_of (nd (Run.run Run.admit_x))) = true →
       ∃ epoch, restoring (gate_of (nd (Run.run Run.admit_x))) !! op = Some epoch ∧
         frozen_epoch (gate_of (nd (Run.run Run.admit_x))) = Some epoch ∧
         admitted (gate_of (nd (Run.run Run.admit_x))) = {[op := r]}).
Proof.
  apply (final_send_barrier 1 2 Run.is_load).
  - apply Run.run_reachable.
  - apply run_step. vm_compute. reflexivity.
  - vm_compute. discriminate.
Defined.

Lemma no_promotion_beside_uncertain_witness :
  st_any_unknown (store_of (nd (Run.run Run.submit_x))) = false.
Proof.
  destruct (no_promotion_beside_uncertain 1 2 Run.is_load (Run.run Run.submit_x)
              (Run.run Run.admit_x) "x" (mk_running KInference RStart)) as (_&Hu&_).
  - apply Run.run_reachable.
  - apply run_step. vm_compute. reflexivity.
  - vm_compute. reflexivity.
  - vm_compute. reflexivity.
  - exact Hu.
Defined.

Lemma bounded_and_leak_free_witness : size (admitted (gate_of (nd (Run.run Run.send_x)))) ≤ 1.
Proof.
  apply (bounded_and_leak_free 1 2 Run.is_load (Run.run Run.send_x)), Run.run_reachable.
Defined.

Lemma lifecycle_runs_alone_witness :
  gstate (gate_of (nd (Run.run Run.load_m))) ≠ SERVING ∧
  idle (gate_of (nd (Run.run Run.load_m))) = false.
Proof.
  destruct (lifecycle_runs_alone 1 2 Run.is_load (Run.run Run.load_m) "m" (mk_running KLoad RStart))
    as (_&_&Hs&Hi&_).
  - apply Run.run_reachable.
  - vm_compute. reflexivity.
  - reflexivity.
  - split; [exact Hs|exact Hi].
Defined.

Lemma gate_flags_agree_witness :
  idle (gate_of (nd (Run.run Run.send_x))) = true ↔ admitted (gate_of (nd (Run.run Run.send_x))) = ∅.
Proof. apply (gate_flags_agree 1 2 Run.is_load (Run.run Run.send_x)), Run.run_reachable. Defined.

Lemma lost_is_final_witness :
  gstate (gate_of (nd (Run.run (Run.send_x ++ [ECommand CLoseRole; ECommand (CReopen Answers)])))) =
    LOST.
Proof.
  apply (lost_is_final 1 2 Run.is_load (Run.run (Run.send_x ++ [ECommand CLoseRole]))).
  - apply Run.run_reachable.
  - vm_compute. reflexivity.
  - apply rtc_once, (run_step (Run.send_x ++ [ECommand CLoseRole])). vm_compute. reflexivity.
Defined.

Definition refused_node : node db :=
  nd (Run.run (Run.send_x ++ [ERun "x" (Returns (NotSent "refused")) Answers])).

Lemma ended_attempt_settles_witness :
  admitted (gate_of (advance "x" (advance "x" (advance "x" (advance "x" refused_node))))) !! "x" = None.
Proof.
  apply (ended_attempt_settles "x" (NotSent "refused") refused_node).
  - vm_compute. reflexivity.
  - vm_compute. exact I.
Defined.

Definition sent_store : db := store_of (nd (Run.run Run.send_x)).

Lemma settling_is_truthful_witness :
  ∃ d' r', commit_outcome (H := node_store Demo.alice) "x" (Uncertain "eof" JNull) sent_store = (inr true, d') ∧
    ops d' !! ("n", "x") = Some r' ∧ state r' = OutcomeUnknown.
Proof.
  set (d := sent_store). destruct (ops d !! ("n", "x")) as [r|] eqn:Hr; [|exfalso; by vm_compute in Hr].
  destruct (settling_is_truthful Demo.alice "x" (Uncertain "eof" JNull) d r) as (d'&r'&H1&H2&_&H3&_).
  - apply (led_wf _ (ok_ledger _ _ _ _ (dreachable_ok _ _ _ _ (Run.run_reachable Run.send_x)))).
  - apply (bool_decide_unpack _). vm_compute. exact I.
  - exact Hr.
  - vm_compute in Hr. injection Hr as <-. reflexivity.
  - exists d', r'. split; [exact H1|split; [exact H2|exact H3]].
Defined.

(** ** A cancellation the clean-up of [exclusive] does not survive *)

(** C39: A cancellation can strand the node.  [exclusive] gives the node back
    by awaiting [_end_exclusive] in its [finally], unshielded (the task of an
    admitted operation shields the same call): cancelled there, the caller is
    gone, nothing is admitted or ending, and yet no command of the operator or
    the watchdog, in any sequence, makes the gate serve again. *)
Theorem cancelled_clean_up_strands_the_node :
  ∃ w, dreachable 1 2 Run.is_load w ∧ callers w = ∅ ∧ ending w = ∅ ∧
    admitted (gate_of (nd w)) = ∅ ∧ gstate (gate_of (nd w)) = DRAINING ∧
    frozen (gate_of (nd w)) = false ∧ held_by_operator (gate_of (nd w)) = false ∧
    ∀ cs : list command, gstate (gate_of (foldl (λ n c, run_command c n) (nd w) cs)) ≠ SERVING.
Proof.
  exists (Run.run ([ECall 0 (Run.load "m"); ECaller 0 Run.go; ECaller 0 Run.go; ECaller 0 Run.go;
    ECaller 0 Run.cancelled; ECaller 0 Run.go; ECaller 0 Run.cancelled])).
  set (w := Run.run _). pose proof (Run.run_reachable _ : dreachable 1 2 Run.is_load w) as Hw.
  split; [exact Hw|]. do 6 (split; [vm_compute; reflexivity|]). intros cs.
  assert (gate_shut (gate_of (nd w))) as Hs by (by apply dreachable_ok in Hw as []).
  assert (exclusive (gate_of (nd w)) ≠ None) as Hx by (vm_compute; discriminate).
  revert Hs Hx. generalize (nd w). clear w Hw. induction cs as [|c cs IH]; intros n Hs Hx; simpl.
  - by apply (shut_exclusive _ Hs).
  - apply IH; [by apply command_shut|].
    by rewrite (proj1 (proj2 (command_untouched c n))).
Qed.
