(* ===== verification/Resolution.v ===== *)
(** Clearing an uncertain operation on ordered evidence
    ([node_agent/resolution.py]).

    [Witness.attest] and the methods of [Resolutions] are programs (see
    [Programs]) over the store, the dispatcher, the runtime witness's files and the
    runtime supervisor.  The one field is [_pending].  Loops that run until a
    deadline ask the environment how many rounds fit before it.  [str] and [int]
    of a parsed JSON value are parameters: nothing depends on what they make of a
    malformed document. *)

From S2P Require Export Programs Dispatch.

(** * Data *)

(** Why a resolution is refused, one constructor per [raise] or reason. *)
Inductive refusal : Set :=
  | cannot_challenge | no_answer | not_observed | other_endpoint | malformed
  | no_operator | not_unknown | still_held | no_such_resolution | witness_restarted
  | not_restarted | no_longer_unknown | supervisor_refused | restart_failed | hold_lifted
  | hold_lifted_during | before_baseline.

Inductive exn : Type :=
  | ResolutionRefused (why : refusal)
  | ResetFailed (receipt : dict)
  | SupervisorRefused
  | OSError
  | Raised (type_name : string)
  | CancelledError.
Abbreviation answer := (sum exn).

Record Attestation := mk_attestation {
  nonce : string; incarnation : string; seq : Z; pid : Z; start_time : string; endpoint : string
}.
Definition instance (a : Attestation) : Z * string := (pid a, start_time a).

(** [asdict] *)
Definition asdict (a : Attestation) : dict :=
  [("nonce", JStr (nonce a)); ("incarnation", JStr (incarnation a)); ("seq", JInt (seq a));
   ("pid", JInt (pid a)); ("start_time", JStr (start_time a)); ("endpoint", JStr (endpoint a))].

Record Pending := mk_pending {
  p_op : string; p_evidence : string; p_operator : string; p_baseline : Attestation
}.
Definition fields : Type := gmap string Pending.

(** ** The ports *)

Inductive port : Type → Type :=
  | Token : port string
  | Write_challenge (nonce : string) : port (answer unit)
  | Rounds : port nat
  | Read_attestation : port (option dict)
  | Sleep : port (answer unit)
  | Observe (op : string) : port (answer (option Operation))
  | Holds (op : string) : port bool
  | Drain : port (answer unit)
  | Reopen : port (answer GateState)
  | Admitted_ops : port (list string)
  | Frozen_epoch : port (option Z)
  | Audit (event : string) (op : option string) (detail : dict) : port (answer unit)
  | Audited (event reset_id : string) : port (answer (option dict))
  | Resolve_unknown (op : string) (evidence : dict) : port (answer bool)
  | Unknown_ops : port (answer (list string))
  | Maintenance_hold : port (answer (bool * option Z))
  | Receipt (request_id : string) : port (option dict)
  | Run_supervisor (action reason : string) (request_id : option string) : port (answer dict).

Inductive event : Type :=
  | token_was (t : string)
  | challenged (nonce : string) (a : answer unit)
  | rounds_were (n : nat)
  | attestation_read (d : option dict)
  | slept (a : answer unit)
  | observed (op : string) (a : answer (option Operation))
  | held (op : string) (a : bool)
  | drained (a : answer unit)
  | reopened (a : answer GateState)
  | admitted_were (ops : list string)
  | frozen_was (epoch : option Z)
  | audit_made (event : string) (op : option string) (detail : dict) (a : answer unit)
  | audited_was (event reset_id : string) (a : answer (option dict))
  | resolved (op : string) (evidence : dict) (a : answer bool)
  | unknown_were (a : answer (list string))
  | hold_was (a : answer (bool * option Z))
  | receipt_was (request_id : string) (r : option dict)
  | supervisor_ran (action reason : string) (request_id : option string) (a : answer dict).

Definition log {R} (q : port R) : R → event :=
  match q with
  | Token => token_was
  | Write_challenge n => challenged n
  | Rounds => rounds_were
  | Read_attestation => attestation_read
  | Sleep => slept
  | Observe op => observed op
  | Holds op => held op
  | Drain => drained
  | Reopen => reopened
  | Admitted_ops => admitted_were
  | Frozen_epoch => frozen_was
  | Audit e op d => audit_made e op d
  | Audited e id => audited_was e id
  | Resolve_unknown op ev => resolved op ev
  | Unknown_ops => unknown_were
  | Maintenance_hold => hold_was
  | Receipt id => receipt_was id
  | Run_supervisor a why id => supervisor_ran a why id
  end.

Abbreviation method := (prog port exn fields).

Definition refuse {A} (why : refusal) : method A := Throw (ResolutionRefused why).

Definition is_str (j : json) (s : string) : bool :=
  match j with JStr t => bool_decide (t = s) | _ => false end.

(** [s.strip()] is empty. *)
Definition blank (s : string) : bool := bool_decide (py_strip s = "").

Section Resolutions.
Context (to_str : json → string) (to_int : json → option Z).
Context (self : Ownership) (expected_endpoint : string).

(** [str(x)] and [int(x)], which leave strings and integers alone. *)
Definition py_str (j : json) : string := match j with JStr s => s | _ => to_str j end.
Definition py_int (j : json) : option Z := match j with JInt z => Some z | _ => to_int j end.

(** * The witness *)

(** [_attestation] *)
Definition attestation (document : dict) (n : string) : refusal + Attestation :=
  if negb (is_str (dict_get document "status") "observed") then inl not_observed
  else if negb (is_str (dict_get document "endpoint") expected_endpoint) then inl other_endpoint
  else
    match dict_lookup "witness_incarnation" document, seq_ ← dict_lookup "seq" document; py_int seq_,
          pid_ ← dict_lookup "pid" document; py_int pid_, dict_lookup "start_time" document,
          dict_lookup "endpoint" document with
    | Some i, Some s, Some p, Some st, Some e => inr (mk_attestation n (py_str i) s p (py_str st) (py_str e))
    | _, _, _, _, _ => inl malformed
    end.

(** The polling loop of [attest], while rounds are left before the deadline. *)
Fixpoint poll (rounds : nat) (n : string) : method Attestation :=
  match rounds with
  | O => refuse no_answer
  | S rounds =>
      let! document := ask Read_attestation in
      let again := let! _ := invoke Sleep in poll rounds n in
      match document with
      | Some d =>
          if is_str (dict_get d "nonce") n then
            match attestation d n with inl why => refuse why | inr a => Pure a end
          else again
      | None => again
      end
  end.

(** [attest] *)
Definition attest : method Attestation :=
  let! n := ask Token in
  let! _ := catch (invoke (Write_challenge n))
    (λ e, match e with OSError => refuse cannot_challenge | _ => Throw e end) in
  let! rounds := ask Rounds in
  poll rounds n.

(** * Resolutions *)

Definition sender_gone (o : Operation) : string :=
  if bool_decide (o_origin_boot_id o = own_boot_id self)
  then "this agent; its task for the operation has ended"
  else "earlier agent; this agent holds the host lock".

(** [start] *)
Definition start (op_id evidence operator : string) : method (string * Attestation) :=
  if blank evidence || blank operator then refuse no_operator
  else
    let! operation := invoke (Observe op_id) in
    match operation with
    | None => refuse not_unknown
    | Some o =>
        if bool_decide (o_state o ≠ OutcomeUnknown) then refuse not_unknown
        else
          let! holds := ask (Holds op_id) in
          if (holds : bool) then refuse still_held
          else
            let! _ := invoke Drain in
            let! baseline := attest in
            let! resolution_id := ask Token in
            let! _ := update_self <[resolution_id := mk_pending op_id evidence operator baseline]> in
            let! _ := invoke (Audit "resolution_baseline" (Some op_id)
              [("resolution_id", JStr resolution_id); ("operator", JStr operator);
               ("sender", JStr (sender_gone o)); ("baseline", JObj (asdict baseline))]) in
            Pure (resolution_id, baseline)
    end.

(** [self._pending.pop(resolution_id, None)] and [del]. *)
Definition forget (resolution_id : string) : method unit := update_self (delete resolution_id).

(** [complete] *)
Definition complete (resolution_id : string) (extra : dict) : method (string * GateState) :=
  let! s := get_self in
  match s !! resolution_id with
  | None => refuse no_such_resolution
  | Some p =>
      let! after := attest in
      if bool_decide (incarnation after ≠ incarnation (p_baseline p)) then
        let! _ := forget resolution_id in refuse witness_restarted
      else if (seq after <=? seq (p_baseline p))%Z || bool_decide (instance after = instance (p_baseline p))
      then refuse not_restarted
      else
        let evidence := dict_union
          [("resolution_id", JStr resolution_id); ("operator", JStr (p_operator p));
           ("statement", JStr (p_evidence p)); ("baseline", JObj (asdict (p_baseline p)));
           ("after", JObj (asdict after)); ("resolver_generation", JInt (own_generation self));
           ("resolver_boot_id", JStr (own_boot_id self))] extra in
        let! done := invoke (Resolve_unknown (p_op p) evidence) in
        if negb done then
          let! _ := forget resolution_id in refuse no_longer_unknown
        else
          let! _ := forget resolution_id in
          let! gate := invoke Reopen in
          Pure (p_op p, gate)
  end.

(** The retries of [reset], until the deadline. *)
Fixpoint complete_by (rounds : nat) (resolution_id : string) (extra : dict) : method (string * GateState) :=
  catch (complete resolution_id extra)
    (λ e, match e with
     | ResolutionRefused _ =>
         let! s := get_self in
         match s !! resolution_id, rounds with
         | Some _, S rounds => let! _ := invoke Sleep in complete_by rounds resolution_id extra
         | _, _ => let! _ := forget resolution_id in Throw e
         end
     | _ => Throw e
     end).

(** [reset] *)
Definition reset (op_id evidence operator : string) : method (string * GateState) :=
  let! started := start op_id evidence operator in
  let '(resolution_id, _) := started in
  let! receipt := catch
    (invoke (Run_supervisor "restart" ("reset for " +:+ op_id +:+ " by " +:+ operator) None))
    (λ e, match e with
     | SupervisorRefused => let! _ := forget resolution_id in refuse supervisor_refused
     | _ => Throw e
     end) in
  let! _ := invoke (Audit "resolution_restart" (Some op_id)
    [("resolution_id", JStr resolution_id); ("receipt", JObj receipt)]) in
  if negb (is_str (dict_get receipt "result") "ok") then
    let! _ := forget resolution_id in refuse restart_failed
  else
    let! rounds := ask Rounds in
    complete_by rounds resolution_id [("supervisor_receipt", JObj receipt)].

(** ** The reset of a maintenance entry *)

(** [_after]: the second answer, retried until the deadline. *)
Fixpoint after_by (rounds : nat) (baseline : Attestation) : method (Attestation + refusal) :=
  let! seen := catch (let! a := attest in Pure (inl a))
    (λ e, match e with ResolutionRefused why => Pure (inr why) | _ => Throw e end) in
  let again (reason : refusal) : method (Attestation + refusal) :=
    match rounds with
    | O => Pure (inr reason)
    | S rounds => let! _ := invoke Sleep in after_by rounds baseline
    end in
  match seen with
  | inr reason => again reason
  | inl a =>
      if bool_decide (incarnation a ≠ incarnation baseline) then Pure (inr witness_restarted)
      else if (seq baseline <? seq a)%Z && negb (bool_decide (instance a = instance baseline)) then Pure (inl a)
      else again not_restarted
  end.

(** [Attestation( **fields )] on what [asdict] wrote. *)
Definition attestation_of (j : json) : option Attestation :=
  match j with
  | JObj [("nonce", JStr n); ("incarnation", JStr i); ("seq", JInt s); ("pid", JInt p);
          ("start_time", JStr st); ("endpoint", JStr e)] => Some (mk_attestation n i s p st e)
  | _ => None
  end.

Definition strings_of (j : json) : list string :=
  match j with JArr l => py_str <$> l | _ => [] end.

(** The baseline of a reset, the reason there is none, and the operations it can speak for. *)
Definition baseline_of (epoch : Z) (reset_id operator : string)
    : method (option Attestation * option refusal * list string) :=
  let! recorded := invoke (Audited "maintenance_reset_baseline" reset_id) in
  match recorded with
  | Some d =>
      match attestation_of (dict_get d "baseline") with
      | Some b => Pure (Some b, None, strings_of (dict_get d "cohort"))
      | None => Throw (Raised "TypeError")
      end
  | None =>
      let! receipt := ask (Receipt reset_id) in
      match receipt with
      | Some _ => Pure (None, Some before_baseline, [])
      | None =>
          let! unknown := invoke Unknown_ops in
          let! admitted := ask Admitted_ops in
          let cohort := py_sorted String.leb (elements (list_to_set unknown ∪ list_to_set admitted : gset string)) in
          let! seen := catch (let! b := attest in Pure (inl b))
            (λ e, match e with ResolutionRefused why => Pure (inr why) | _ => Throw e end) in
          match seen with
          | inr why => Pure (None, Some why, cohort)
          | inl b =>
              let! _ := invoke (Audit "maintenance_reset_baseline" None
                [("reset_id", JStr reset_id); ("epoch", JInt epoch); ("operator", JStr operator);
                 ("baseline", JObj (asdict b)); ("cohort", JArr (JStr <$> cohort))]) in
              Pure (Some b, None, cohort)
          end
      end
  end.

(** [closed and current == epoch] *)
Definition closed_at (epoch : Z) (h : bool * option Z) : bool := h.1 && bool_decide (h.2 = Some epoch).

(** The loop that resolves the cohort. *)
Fixpoint resolve_each (evidence : Operation → dict) (ops : list string) (done : list string)
    : method (list string) :=
  match ops with
  | [] => Pure done
  | op :: ops =>
      let! operation := invoke (Observe op) in
      match operation with
      | None => resolve_each evidence ops done
      | Some o =>
          let! holds := ask (Holds op) in
          if (holds : bool) then resolve_each evidence ops done
          else
            let! ok := invoke (Resolve_unknown op (evidence o)) in
            resolve_each evidence ops (if (ok : bool) then done ++ [op] else done)
      end
  end.

Definition reset_evidence (epoch : Z) (reset_id operator : string) (receipt : dict) (b a : Attestation)
    (o : Operation) : dict :=
  [("reset_id", JStr reset_id); ("maintenance_epoch", JInt epoch); ("operator", JStr operator);
   ("sender", JStr (sender_gone o)); ("baseline", JObj (asdict b)); ("after", JObj (asdict a));
   ("supervisor_receipt", JObj receipt); ("resolver_generation", JInt (own_generation self));
   ("resolver_boot_id", JStr (own_boot_id self))].

(** From the supervisor's receipt to the report: the second answer, *)
Definition second_answer (b : option Attestation) (why : option refusal)
    : method (option Attestation * option refusal) :=
  match b with
  | None => Pure (None, why)
  | Some b =>
      let! rounds := ask Rounds in
      let! r := after_by rounds b in
      match r with inl a => Pure (Some a, None) | inr why => Pure (None, Some why) end
  end.

(** which counts only if the hold was not lifted meanwhile; *)
Definition still_closed (epoch : Z) (seen : option Attestation * option refusal)
    : method (option Attestation * option refusal) :=
  match seen.1 with
  | None => Pure seen
  | Some _ =>
      let! h := invoke Maintenance_hold in
      if negb (closed_at epoch h) then Pure (None, Some hold_lifted_during)
      else
        let! frozen := ask Frozen_epoch in
        if bool_decide (frozen ≠ Some epoch) then Pure (None, Some hold_lifted_during) else Pure seen
  end.

(** the operations of the cohort that are unknown now; *)
Definition resolve_cohort (epoch : Z) (reset_id operator : string) (receipt : dict)
    (b after : option Attestation) (cohort : list string) : method (list string) :=
  match b, after with
  | Some b, Some a =>
      let! unknown := invoke Unknown_ops in
      resolve_each (reset_evidence epoch reset_id operator receipt b a)
        (List.filter (λ op, bool_decide (op ∈ unknown)) cohort) []
  | _, _ => Pure []
  end.

(** and the report. *)
Definition conclude (epoch : Z) (reset_id operator : string) (receipt : dict) (why_not : refusal → json)
    (b : option Attestation) (seen : option Attestation * option refusal) (done : list string) : method dict :=
  let! remaining := invoke Unknown_ops in
  let! admitted := ask Admitted_ops in
  let settling := Z.of_nat (length admitted) in
  let clear := bool_decide (remaining = []) && (settling =? 0)%Z in
  let report : dict :=
    [("reset_id", JStr reset_id); ("epoch", JInt epoch); ("operator", JStr operator);
     ("supervisor_receipt", JObj receipt);
     ("baseline", from_option (λ b, JObj (asdict b)) JNull b);
     ("after", from_option (λ a, JObj (asdict a)) JNull seen.1);
     ("resolved", JArr (JStr <$> done)); ("remaining_unknown", JArr (JStr <$> remaining));
     ("settling", JInt settling);
     ("accounting", JStr (if clear then "resolved" else "unresolved"));
     ("accounting_error", if clear then JNull else from_option why_not JNull seen.2)] in
  let! _ := invoke (Audit "maintenance_reset_done" None report) in
  Pure report.

Definition account (epoch : Z) (reset_id operator : string) (receipt : dict) (why_not : refusal → json)
    (b : option Attestation) (why : option refusal) (cohort : list string) : method dict :=
  let! seen := second_answer b why in
  let! seen := still_closed epoch seen in
  let! done := resolve_cohort epoch reset_id operator receipt b seen.1 cohort in
  conclude epoch reset_id operator receipt why_not b seen done.

(** [maintenance_reset] *)
Definition maintenance_reset (epoch : Z) (reset_id operator : string) (why_not : refusal → json) : method dict :=
  let! done := invoke (Audited "maintenance_reset_done" reset_id) in
  match done with
  | Some report => Pure report
  | None =>
      let! start := baseline_of epoch reset_id operator in
      let '(b, why, cohort) := start in
      let! receipt := ask (Receipt reset_id) in
      let! _ :=
        match receipt with
        | Some _ => Pure tt
        | None =>
            let! h := invoke Maintenance_hold in
            if closed_at epoch h then Pure tt else refuse hold_lifted
        end in
      let! receipt := invoke (Run_supervisor "restart" (operator +:+ ": maintenance epoch " +:+ pretty epoch) (Some reset_id)) in
      let! _ := invoke (Audit "maintenance_reset_receipt" None
        [("reset_id", JStr reset_id); ("receipt", JObj receipt)]) in
      if negb (is_str (dict_get receipt "result") "ok") then Throw (ResetFailed receipt)
      else account epoch reset_id operator receipt why_not b why cohort
  end.
End Resolutions.

(** * Histories

    What is asked of a node's [Resolutions]: one of its methods, or a restart of
    the agent, which forgets [_pending]. *)

Inductive demand : Type :=
  | to_start (op evidence operator : string)
  | to_complete (id : string) (extra : dict)
  | to_reset (op evidence operator : string)
  | to_maintain (epoch : Z) (id operator : string)
  | to_restart.

(** The methods of [Resolutions] on one node, one after another, with restarts of
    the agent between them; a restart during one is a call that ends in
    [CancelledError].  Every answer is possible, but that the store's [audited]
    finds only what was audited. *)

Definition may (tr : list event) {R} (q : port R) : R → Prop :=
  match q with
  | Audited ev id => λ a,
      match a with
      | inr (Some d) => ∃ op r, audit_made ev op d r ∈ tr ∧ dict_get d "reset_id" = JStr id
      | _ => True
      end
  | _ => λ _, True
  end.

(** The store keeps that promise. *)
Lemma audited_finds_audits n ev id d fields :
  audited n ev id d = Some fields →
  ∃ a, a ∈ audit_log d ∧ audit_event a = ev ∧ audit_detail a = JObj fields ∧
    dict_get fields "reset_id" = JStr id.
Proof.
  unfold audited. intros H. destruct (first_match _ _) as [a|] eqn:Ha; [|done].
  apply first_match_Some in Ha as (l1&l2&Hl&Hp&_). exists a.
  destruct (audit_detail a) as [| | | | | |f]; try done. injection H as ->. unbool.
  split_and!; [|done|done|].
  - apply list_elem_of_In, in_rev. rewrite Hl. apply list_elem_of_In. set_solver.
  - destruct (dict_get fields "reset_id"); try done. unbool. by subst.
Qed.

Abbreviation wp := (wp (@log) (@may)).
Abbreviation exec := (exec (@log) (@may)).

Section Histories.
Context (to_str : json → string) (to_int : json → option Z).
Context (self : Ownership) (expected_endpoint : string) (why_not : refusal → json).

Inductive act : demand → fields * list event → fields * list event → Prop :=
  | by_start op ev who o s tr s' tr' :
      exec (start to_str to_int self expected_endpoint op ev who) s tr o s' tr' →
      act (to_start op ev who) (s, tr) (s', tr')
  | by_complete id extra o s tr s' tr' :
      exec (complete to_str to_int self expected_endpoint id extra) s tr o s' tr' →
      act (to_complete id extra) (s, tr) (s', tr')
  | by_reset op ev who o s tr s' tr' :
      exec (reset to_str to_int self expected_endpoint op ev who) s tr o s' tr' →
      act (to_reset op ev who) (s, tr) (s', tr')
  | by_maintenance epoch id who o s tr s' tr' :
      exec (maintenance_reset to_str to_int self expected_endpoint epoch id who why_not) s tr o s' tr' →
      act (to_maintain epoch id who) (s, tr) (s', tr')
  | restarts s tr : act to_restart (s, tr) (∅, tr).

Definition acts (c c' : fields * list event) : Prop := ∃ q, act q c c'.

(** ** Evidence *)

Abbreviation attestation_ := (attestation to_str to_int expected_endpoint).

(** The answer of the witness to a nonce issued for it. *)
Definition answers (d : dict) (a : Attestation) : Prop :=
  is_str (dict_get d "nonce") (nonce a) = true ∧ attestation_ d (nonce a) = inr a.
Definition answer_events (d : dict) (a : Attestation) : list event :=
  [token_was (nonce a); challenged (nonce a) (inr tt); attestation_read (Some d)].

(** A later answer of the same witness that sees another runtime. *)
Definition restarted (b a : Attestation) : Prop :=
  incarnation a = incarnation b ∧ (seq b < seq a)%Z ∧ instance a ≠ instance b.

(** What [start] gathers, and the id it then draws. *)
Definition start_events (op : string) (o : Operation) (d : dict) (b : Attestation) (id : string) : list event :=
  [observed op (inr (Some o)); held op false; drained (inr tt)] ++ answer_events d b ++ [token_was id].

(** The pending resolution [id] was started so, and then came [more]. *)
Definition started (tr : list event) (id : string) (p : Pending) (more : list event) : Prop :=
  ∃ o d, o_state o = OutcomeUnknown ∧ answers d (p_baseline p) ∧
    (start_events (p_op p) o d (p_baseline p) id ++ more) `sublist_of` tr.

(** The runtime it stood on was seen gone after all of that. *)
Definition witnessed (tr : list event) (id : string) (p : Pending) (more : list event) (a : Attestation) : Prop :=
  restarted (p_baseline p) a ∧
  ∃ d, answers d a ∧ started tr id p (more ++ answer_events d a).

(** What a completion hands to the store. *)
Definition evidence_of (id : string) (p : Pending) (a : Attestation) : dict :=
  [("resolution_id", JStr id); ("operator", JStr (p_operator p));
   ("statement", JStr (p_evidence p)); ("baseline", JObj (asdict (p_baseline p)));
   ("after", JObj (asdict a)); ("resolver_generation", JInt (own_generation self));
   ("resolver_boot_id", JStr (own_boot_id self))].

(** The restart a [reset] asks for, and the one a maintenance reset asks for. *)
Definition reset_restart (op who : string) (receipt : dict) : event :=
  supervisor_ran "restart" ("reset for " +:+ op +:+ " by " +:+ who) None (inr receipt).
Definition epoch_restart (epoch : Z) (id who : string) (receipt : dict) : event :=
  supervisor_ran "restart" (who +:+ ": maintenance epoch " +:+ pretty epoch) (Some id) (inr receipt).

(** What the baseline of a maintenance reset is taken with, *)
Definition cohort_events (l1 l0 : list string) (d : dict) (b : Attestation) : list event :=
  [unknown_were (inr l1); admitted_were l0] ++ answer_events d b.

(** and the record made of it under the reset's id: [b] is its baseline and
    [cohort] the operations listed as unknown or still admitted. *)
Definition base (id : string) (cohort : list string) (b : Attestation) (evs : list event) : Prop :=
  ∃ l1 l0 d op detail r,
    evs = cohort_events l1 l0 d b ++ [audit_made "maintenance_reset_baseline" op detail r] ∧
    answers d b ∧ (∀ op, op ∈ cohort → op ∈ l1 ∨ op ∈ l0) ∧
    dict_get detail "reset_id" = JStr id ∧ attestation_of (dict_get detail "baseline") = Some b ∧
    strings_of to_str (dict_get detail "cohort") = cohort.

(** What it gathers for one operation after the restart. *)
Definition reset_events (epoch : Z) (d : dict) (a : Attestation) (op : string) (o : Operation)
    (l : list string) : list event :=
  answer_events d a ++
  [hold_was (inr (true, Some epoch)); frozen_was (Some epoch); unknown_were (inr l);
   observed op (inr (Some o)); held op false].

(** What has to have happened, in this order, before a demand clears [op] with
    the evidence it hands to the store. *)
Inductive grounded (tr : list event) (op : string) : demand → dict → Prop :=
  | by_completion id extra p a :
      p_op p = op → witnessed tr id p [] a →
      grounded tr op (to_complete id extra) (dict_union (evidence_of id p a) extra)
  | by_supervised_reset statement who id b a receipt :
      is_str (dict_get receipt "result") "ok" = true →
      witnessed tr id (mk_pending op statement who b) [reset_restart op who receipt] a →
      grounded tr op (to_reset op statement who)
        (dict_union (evidence_of id (mk_pending op statement who b) a)
                    [("supervisor_receipt", JObj receipt)])
  | by_entry epoch id who receipt cohort b evs d a o l :
      is_str (dict_get receipt "result") "ok" = true →
      base id cohort b evs → op ∈ cohort → answers d a → restarted b a → op ∈ l →
      (evs ++ [epoch_restart epoch id who receipt] ++ reset_events epoch d a op o l) `sublist_of` tr →
      grounded tr op (to_maintain epoch id who) (reset_evidence self epoch id who receipt b a o).

(** ** What a history keeps *)

Definition pending_ok (tr : list event) (id : string) (p : Pending) : Prop := started tr id p [].

Definition baseline_ok (tr : list event) (b : Attestation) (cohort : list string) : Prop :=
  ∃ l1 l0 d, answers d b ∧ (∀ op, op ∈ cohort → op ∈ l1 ∨ op ∈ l0) ∧
    cohort_events l1 l0 d b `sublist_of` tr.

(** A recorded baseline is one that was taken before. *)
Definition audits_ok (tr : list event) : Prop :=
  ∀ pre op d r post, tr = pre ++ (audit_made "maintenance_reset_baseline" op d r :: post) →
    ∃ b cohort, attestation_of (dict_get d "baseline") = Some b ∧
      strings_of to_str (dict_get d "cohort") = cohort ∧ baseline_ok pre b cohort.

(** Walk to the next call. *)
Ltac walk := unfold refuse, forget; walk_calls; cbn [log]; walk_calls.

Abbreviation attest_ := (attest to_str to_int expected_endpoint).

(** The demand [q] at work, which began when [since] events had happened. *)
Section Demand.
Context (q : demand) (since : nat).

Definition safe (tr : list event) : Prop :=
  ∀ pre op ev r post, tr = pre ++ (resolved op ev r :: post) → since ≤ length pre → grounded pre op q ev.

Record ok (s : fields) (tr : list event) : Prop := {
  ok_pending : map_Forall (pending_ok tr) s;
  ok_audits : audits_ok tr;
  ok_safe : safe tr
}.

(** Events that neither resolve nor record a baseline. *)
Definition neutral (e : event) : bool :=
  match e with
  | resolved _ _ _ => false
  | audit_made ev _ _ _ => negb (bool_decide (ev = "maintenance_reset_baseline"))
  | _ => true
  end.

Lemma started_app tr evs id p more : started tr id p more → started (tr ++ evs) id p more.
Proof. intros (o&d&?&?&?). exists o, d. split_and!; [done..|]. by apply sublist_inserts_r. Qed.

Lemma started_more tr evs id p more evs' :
  evs' `sublist_of` evs → started tr id p more → started (tr ++ evs) id p (more ++ evs').
Proof.
  intros He (o&d&?&?&?). exists o, d. split_and!; [done..|]. rewrite app_assoc. by apply sublist_app.
Qed.

Lemma baseline_ok_app tr evs b c : baseline_ok tr b c → baseline_ok (tr ++ evs) b c.
Proof. intros (l1&l0&d&?&?&?). exists l1, l0, d. split_and!; [done..|]. by apply sublist_inserts_r. Qed.

(** The last event of a history. *)
Lemma snoc_split (tr : list event) e pre x post :
  tr ++ [e] = pre ++ x :: post → (pre = tr ∧ x = e ∧ post = []) ∨ (∃ post', tr = pre ++ x :: post').
Proof.
  intros Heq. destruct post as [|y post _] using rev_ind.
  - apply app_inj_tail in Heq as [-> ->]. by left.
  - rewrite app_comm_cons, app_assoc in Heq. apply app_inj_tail in Heq as [-> _]. right. by eexists.
Qed.

Lemma ok_event s tr e :
  (∀ op d r, e = audit_made "maintenance_reset_baseline" op d r →
     ∃ b cohort, attestation_of (dict_get d "baseline") = Some b ∧
       strings_of to_str (dict_get d "cohort") = cohort ∧ baseline_ok tr b cohort) →
  (∀ op ev r, e = resolved op ev r → grounded tr op q ev) →
  ok s tr → ok s (tr ++ [e]).
Proof.
  intros Ha Hr [Hp Hau Hs]. constructor.
  - intros id p Hid. by apply started_app, (Hp id).
  - intros pre op d r post [(->&<-&_)|[post' ->]]%snoc_split; [by eapply Ha|]. by eapply Hau.
  - intros pre op ev r post [(->&<-&_)|[post' ->]]%snoc_split Hn; [by eapply Hr|]. by eapply Hs.
Qed.

Lemma ok_neutral s tr e : neutral e = true → ok s tr → ok s (tr ++ [e]).
Proof. intros He. apply ok_event; intros; subst; [by vm_compute in He|done]. Qed.

Lemma ok_delete id s tr : ok s tr → ok (delete id s) tr.
Proof. intros [Hp Ha Hs]. constructor; [by apply map_Forall_delete|done..]. Qed.

#[local] Hint Resolve ok_neutral ok_delete : core.

(** [attest] leaves the answer it returns behind it, and nothing else of note. *)
Definition attested (tr tr' : list event) (a : Attestation) : Prop :=
  ∃ evs d, tr' = tr ++ evs ∧ answers d a ∧ answer_events d a `sublist_of` evs.

Lemma attestation_nonce d n a : attestation_ d n = inr a → nonce a = n.
Proof.
  unfold attestation. destruct (negb _); [done|]. destruct (negb _); [done|].
  repeat (match goal with |- match ?x with _ => _ end = _ → _ => destruct x end; try done).
  by intros [= <-].
Qed.

Lemma wp_poll rounds n s tr0 tr :
  ok s tr → (∃ evs, tr = tr0 ++ evs ∧ [token_was n; challenged n (inr tt)] `sublist_of` evs) →
  wp (poll to_str to_int expected_endpoint rounds n)
    (λ o s' tr', s' = s ∧ ok s tr' ∧ ∀ a, o = inr a → attested tr0 tr' a) s tr.
Proof.
  revert tr. induction rounds as [|rounds IH]; intros tr Hok (evs&->&Hsub); [by split_and!|].
  cbn [poll]. walk. intros document _.
  assert (∀ d, wp (let! _ := invoke Sleep in poll to_str to_int expected_endpoint rounds n)
    (λ o s' tr', s' = s ∧ ok s tr' ∧ ∀ a, o = inr a → attested tr0 tr' a) s
    ((tr0 ++ evs) ++ [attestation_read d])) as Hagain.
  { intros d. walk. intros [e|[]] _; walk; [by split_and!; auto|].
    apply IH; [auto|]. exists (evs ++ [attestation_read d; slept (inr tt)]).
    split; [by rewrite <- !app_assoc|]. by apply sublist_inserts_r. }
  destruct document as [d|]; [|apply Hagain]. destruct (is_str _ n) eqn:Hn; [|apply Hagain].
  destruct (attestation _ _ _ d n) as [why|a] eqn:Ha; walk; split_and!; auto; [done|].
  intros a' [= <-]. pose proof (attestation_nonce _ _ _ Ha) as Hna.
  exists (evs ++ [attestation_read (Some d)]), d. split_and!; [by rewrite <- app_assoc| |].
  - split; by rewrite Hna.
  - unfold answer_events. rewrite Hna. by apply (sublist_app [token_was n; challenged n (inr tt)] evs [_] [_]).
Qed.

Lemma wp_attest s tr :
  ok s tr → wp attest_ (λ o s' tr', s' = s ∧ ok s tr' ∧ ∀ a, o = inr a → attested tr tr' a) s tr.
Proof.
  intros Hok. unfold attest. walk. intros n _. apply wp_then, wp_catch.
  walk. intros a _.
  set (tr1 := (tr ++ _) ++ _). assert (ok s tr1) as Hok1 by (unfold tr1; auto).
  destruct a as [e|[]]; walk.
  - destruct e; by split_and!.
  - intros rounds _. apply wp_poll; [auto|].
    exists [token_was n; challenged n (inr tt); rounds_were rounds]. split; [unfold tr1; by rewrite <- !app_assoc|].
    by apply (sublist_inserts_r [rounds_were rounds] _ [token_was n; challenged n (inr tt)]).
Qed.

Lemma attested_app l tr0 tr tr' a :
  l `sublist_of` tr0 → (∃ evs, tr = tr0 ++ evs) → attested tr tr' a →
  ∃ d, answers d a ∧ (l ++ answer_events d a) `sublist_of` tr'.
Proof.
  intros Hl [evs ->] (evs'&d&->&Ha&Hs). exists d. split; [done|].
  rewrite <- app_assoc. apply sublist_app; [done|]. by apply sublist_inserts_l.
Qed.

(** [start] leaves behind it what it gathered. *)
Lemma wp_start op ev who s tr :
  ok s tr →
  wp (start to_str to_int self expected_endpoint op ev who)
    (λ o s' tr', ok s' tr' ∧ ∀ id b, o = inr (id, b) →
       s' !! id = Some (mk_pending op ev who b) ∧ started tr' id (mk_pending op ev who b) []) s tr.
Proof.
  intros Hok. unfold start. destruct (_ || _); [done|].
  walk. intros [e|[o|]] _; walk; [by split; auto| |by split; auto].
  case_bool_decide as Hu; [walk; split; auto; done|].
  walk. intros [] _; walk; [by split; auto|]. intros [e|[]] _; walk; [by split; auto|].
  apply wp_then. set (tr1 := ((tr ++ _) ++ _) ++ _). assert (ok s tr1) as Hok1 by (unfold tr1; auto).
  assert ([observed op (inr (Some o)); held op false; drained (inr tt)] `sublist_of` tr1) as Hsub.
  { unfold tr1. rewrite <- !app_assoc. by apply sublist_inserts_l. }
  clearbody tr1. eapply wp_mono; [|by apply wp_attest]. intros [e|b] s' tr' (->&Hok'&Hb); [done|].
  destruct (attested_app _ _ _ _ _ Hsub (ex_intro _ [] (eq_sym (app_nil_r _))) (Hb b eq_refl)) as (d&Hd&Hsub').
  walk. intros id _. intros a _.
  assert (started (tr' ++ [token_was id]) id (mk_pending op ev who b) []) as Hst.
  { exists o, d. split_and!; [done..|]. rewrite app_nil_r. unfold start_events. rewrite app_assoc.
    by apply sublist_app. }
  assert (ok (<[id := mk_pending op ev who b]> s) (tr' ++ [token_was id])) as Hok2.
  { destruct (ok_neutral s tr' (token_was id) eq_refl Hok') as [Hp Ha Hs]. constructor; [|done..].
    by apply map_Forall_insert_2. }
  destruct a as [e|[]]; walk; (split; [auto|]); [done|].
  intros id' b' [= <- <-]. split; [apply lookup_insert_eq|by apply started_app].
Qed.

(** A completion of [id], by whatever demand it serves. *)
Lemma wp_complete id extra more s tr :
  ok s tr → (∀ p, s !! id = Some p → started tr id p more) →
  (∀ tr p a, s !! id = Some p → witnessed tr id p more a →
     grounded tr (p_op p) q (dict_union (evidence_of id p a) extra)) →
  wp (complete to_str to_int self expected_endpoint id extra)
    (λ _ s' tr', ok s' tr' ∧ ∀ p, s' !! id = Some p → s !! id = Some p) s tr.
Proof.
  intros Hok Hst Hground. unfold complete. walk. destruct (s !! id) as [p|] eqn:Hp; [|by split; [|intros; congruence]].
  assert (∀ (s' : fields) (q : Pending), delete id s' !! id = Some q → Some p = Some q) as Hgone
    by (intros s' p' Hp'; assert (delete id s' !! id = None) by apply lookup_delete_eq; congruence).
  apply wp_then. eapply wp_mono; [|by apply wp_attest].
  intros [e|a] s' tr' (->&Hok'&Ha); [by split; [|intros; congruence]|].
  case_bool_decide as Hi; [walk; split; [auto|by apply Hgone]|].
  destruct (_ || _) eqn:Hnew; [walk; by split; [|intros; congruence]|]. apply orb_false_iff in Hnew as [Hseq Hinst].
  apply Z.leb_gt in Hseq. apply bool_decide_eq_false in Hinst.
  destruct (Ha a eq_refl) as (evs&d2&->&Hd2&Hs2).
  walk. intros r _.
  match goal with |- context [resolved _ ?ev _] => set (evd := ev) end.
  assert (ok s ((tr ++ evs) ++ [resolved (p_op p) evd r])) as Hok2.
  { apply ok_event; [done| |done]. intros op ev r' [= <- <- _]. apply (Hground _ p a eq_refl).
    split; [by split_and!|]. exists d2. split; [done|].
    apply started_more; [done|by apply Hst]. }
  destruct r as [e|[]]; walk; [by split; [|intros; congruence]| |split; [auto|by apply Hgone]].
  intros [e|g] _; walk; (split; [auto|by apply Hgone]).
Qed.

Lemma wp_complete_by rounds id extra more s tr :
  ok s tr → (∀ p, s !! id = Some p → started tr id p more) →
  (∀ tr p a, s !! id = Some p → witnessed tr id p more a →
     grounded tr (p_op p) q (dict_union (evidence_of id p a) extra)) →
  wp (complete_by to_str to_int self expected_endpoint rounds id extra) (λ _ s' tr', ok s' tr') s tr.
Proof.
  revert s tr. induction rounds as [|rounds IH]; intros s tr Hok Hst Hg; cbn [complete_by];
    apply wp_catch; (eapply wp_mono; [|apply wp_and; [by apply (wp_complete id extra more)|apply wp_extends]]);
    intros [e|a] s' tr' [[Hok' Hsame] [evs ->]]; try done;
    destruct e; try done; walk; destruct (s' !! id) eqn:Hid; walk; auto.
  intros [e|[]] _; walk; auto. apply IH; [auto| |].
  - intros p' Hp'. do 2 apply started_app. apply Hst, Hsame. congruence.
  - intros tr1 p' a Hp'. apply Hg, Hsame. congruence.
Qed.

Lemma wp_reset op ev who s tr :
  q = to_reset op ev who → ok s tr →
  wp (reset to_str to_int self expected_endpoint op ev who) (λ _ s' tr', ok s' tr') s tr.
Proof.
  intros Hq Hok. unfold reset. apply wp_bind. eapply wp_mono; [|by apply wp_start].
  intros [e|[id b]] s' tr' [Hok' Hst]; [done|]. destruct (Hst id b eq_refl) as [Hid Hst'].
  apply wp_bind, wp_catch. walk. intros a _.
  destruct a as [e|receipt]; walk; [destruct e; walk; auto|].
  intros a _. destruct a as [e|[]]; walk; [by auto|].
  destruct (is_str _ "ok") eqn:Hr; walk; [|auto]. intros rounds _.
  apply (wp_complete_by rounds id _ [reset_restart op who receipt]); [auto| |].
  - intros p Hp. rewrite Hid in Hp. injection Hp as <-. do 2 apply started_app.
    by apply (started_more tr' [reset_restart op who receipt] _ _ []).
  - intros tr1 p a Hp Hw. rewrite Hid in Hp. injection Hp as <-. rewrite Hq. by apply by_supervised_reset.
Qed.

(** ** Maintenance resets *)

Lemma attestation_of_asdict a : attestation_of (JObj (asdict a)) = Some a.
Proof. by destruct a. Qed.

Lemma strings_of_strings l : strings_of to_str (JArr (JStr <$> l)) = l.
Proof. simpl. rewrite <- list_fmap_compose. by apply list_fmap_id. Qed.

Lemma attested_trans tr0 tr tr' a : (∃ evs, tr = tr0 ++ evs) → attested tr tr' a → attested tr0 tr' a.
Proof.
  intros [evs ->] (evs'&d&->&Ha&Hs). exists (evs ++ evs'), d. split_and!; [by rewrite app_assoc|done|].
  by apply sublist_inserts_l.
Qed.

(** An attempt to attest, whose refusal is a value. *)
Lemma wp_try_attest s tr (Q : exn + (Attestation + refusal) → fields → list event → Prop) :
  ok s tr →
  (∀ e tr', ok s tr' → Q (inl e) s tr') →
  (∀ why tr', (∃ evs, tr' = tr ++ evs) → ok s tr' → Q (inr (inr why)) s tr') →
  (∀ a tr', attested tr tr' a → ok s tr' → Q (inr (inl a)) s tr') →
  wp (catch (let! a := attest_ in Pure (inl a))
    (λ e, match e with ResolutionRefused why => Pure (inr why) | _ => Throw e end)) Q s tr.
Proof.
  intros Hok He Hw Ha. apply wp_catch, wp_bind.
  eapply wp_mono; [|apply wp_and; [by apply wp_attest|apply wp_extends]].
  intros [e|a] s' tr' [(->&Hok'&Hatt) [evs Hp]]; walk; [|by auto].
  destruct e; walk; auto. apply Hw; [by exists evs|done].
Qed.

Definition speaks_for (id : string) (tr : list event) (b : option Attestation) (cohort : list string) : Prop :=
  ∀ a, b = Some a → ∃ evs, base id cohort a evs ∧ evs `sublist_of` tr.

Lemma wp_baseline_of epoch id who s tr :
  ok s tr →
  wp (baseline_of to_str to_int expected_endpoint epoch id who)
    (λ o s' tr', s' = s ∧ ok s tr' ∧ ∀ b why c, o = inr (b, why, c) → speaks_for id tr' b c) s tr.
Proof.
  intros Hok. unfold baseline_of. walk. intros a Hmay. destruct a as [e|[d|]]; walk; [by split_and!; auto| |].
  - destruct Hmay as (op&r&(pre&post&Htr)%list_elem_of_split&Hid).
    destruct (ok_audits _ _ Hok pre op d r post Htr) as (b&c&Hb&Hc&(l1&l0&d0&Ha&Hcoh&Hsub)).
    rewrite Hb, Hc. walk. split_and!; [done|by auto|]. intros b' why c' [= <- <- <-] a [= <-].
    eexists. split; [by exists l1, l0, d0, op, d, r|]. rewrite Htr. apply sublist_inserts_r, sublist_app; [done|].
    by apply sublist_skip, sublist_nil_l.
  - intros r _. walk. destruct r as [r|]; walk; [split_and!; [done|by auto|]; by intros ? ? ? [= <- <- <-]|].
    intros a _. walk. destruct a as [e|l1]; walk; [by split_and!; auto|]. intros l0 _. walk.
    set (cohort := py_sorted _ _). set (tr1 := (((tr ++ _) ++ _) ++ _) ++ _).
    assert (ok s tr1) as Hok1 by (unfold tr1; auto).
    assert ([unknown_were (inr l1); admitted_were l0] `sublist_of` tr1) as Hsub.
    { unfold tr1. rewrite <- !app_assoc. do 2 apply sublist_inserts_l. apply sublist_inserts_l. done. }
    assert (∀ op, op ∈ cohort → op ∈ l1 ∨ op ∈ l0) as Hcohort.
    { intros op. unfold cohort. rewrite elem_of_py_sorted. set_solver. }
    clearbody cohort tr1. apply wp_then, wp_try_attest; [done|by intros; split_and!| |].
    + intros why tr' _ Hok'. walk. split_and!; [done|done|]. by intros ? ? ? [= <- <- <-].
    + intros b tr' Hb Hok'. walk.
      destruct (attested_app _ _ _ _ _ Hsub (ex_intro _ [] (eq_sym (app_nil_r _))) Hb) as (d&Hd&Hsub').
      assert (baseline_ok tr' b cohort) as Hbase by by exists l1, l0, d.
      intros r _. walk. set (detail := [_; _; _; _; _]).
      assert (ok s (tr' ++ [audit_made "maintenance_reset_baseline" None detail r])) as Hok2.
      { apply ok_event; [|done|done]. intros op d' r' [= _ <- _]. exists b, cohort.
        split_and!; [apply attestation_of_asdict|apply strings_of_strings|done]. }
      destruct r as [e|[]]; walk; [by split_and!|]. split_and!; [done|done|].
      intros b' why c [= <- <- <-] a [= <-]. eexists. split; [|by apply sublist_app].
      exists l1, l0, d, None, detail, (inr tt).
      split_and!; [done..|apply attestation_of_asdict|apply strings_of_strings].
Qed.

Lemma wp_after_by rounds b s tr0 tr :
  ok s tr → (∃ evs, tr = tr0 ++ evs) →
  wp (after_by to_str to_int expected_endpoint rounds b)
    (λ o s' tr', s' = s ∧ ok s tr' ∧ ∀ a, o = inr (inl a) → attested tr0 tr' a ∧ restarted b a) s tr.
Proof.
  assert (∀ tr tr' a (again : method (Attestation + refusal)), (∃ evs, tr = tr0 ++ evs) → attested tr tr' a → ok s tr' →
    wp again (λ o s' tr', s' = s ∧ ok s tr' ∧ ∀ a, o = inr (inl a) → attested tr0 tr' a ∧ restarted b a) s tr' →
    wp (if bool_decide (incarnation a ≠ incarnation b) then Pure (inr witness_restarted)
        else if (seq b <? seq a)%Z && negb (bool_decide (instance a = instance b)) then Pure (inl a) else again)
      (λ o s' tr', s' = s ∧ ok s tr' ∧ ∀ a, o = inr (inl a) → attested tr0 tr' a ∧ restarted b a) s tr') as Hnew.
  { intros tr1 tr' a again Hext1 Ha%(attested_trans tr0) Hok' Hagain; [|done].
    case_bool_decide as Hi; [walk; by split_and!|].
    destruct (_ && _) eqn:Hn; [|done]. walk. split_and!; [done..|]. intros a' [= <-]. split; [done|].
    apply andb_true_iff in Hn as [Hs Hn]. apply Z.ltb_lt in Hs. apply negb_true_iff, bool_decide_eq_false in Hn.
    by split_and!. }
  revert tr. induction rounds as [|rounds IH]; intros tr Hok Hext; cbn [after_by];
    apply wp_bind, wp_try_attest; [done|by intros; split_and!| | |done|by intros; split_and!| |].
  - intros why tr' _ Hok'. walk. by split_and!.
  - intros a tr' Ha Hok'. eapply Hnew; [exact Hext|done|done|]. walk. by split_and!.
  - intros why tr' [evs' ->] Hok'. walk. intros [e|[]] _; walk; [split_and!; auto; done|]. apply IH; [auto|].
    destruct Hext as [evs ->]. exists ((evs ++ evs') ++ [slept (inr tt)]). by rewrite !app_assoc.
  - intros a tr' Ha Hok'. eapply Hnew; [exact Hext|done|done|].
    walk. intros [e|[]] _; walk; [split_and!; auto; done|]. apply IH; [auto|].
    destruct Ha as (evs'&d&->&_), Hext as [evs ->]. exists ((evs ++ evs') ++ [slept (inr tt)]). by rewrite !app_assoc.
Qed.

(** ** The entry's reset, after the restart

    [epoch], [id] and [who] are those of the demand, [receipt] is what the
    supervisor answered. *)
Section Entry.
Context (epoch : Z) (id who : string) (receipt : dict) (Hq : q = to_maintain epoch id who).
Context (Hreceipt : is_str (dict_get receipt "result") "ok" = true).

(** The cohort, once the supervisor has run, *)
Definition released (cohort : list string) (tr : list event) (b : Attestation) : Prop :=
  ∃ evs, base id cohort b evs ∧ (evs ++ [epoch_restart epoch id who receipt]) `sublist_of` tr.

(** and once another runtime was seen, up to the events [more]. *)
Definition replaced (cohort : list string) (more tr : list event) (b a : Attestation) : Prop :=
  restarted b a ∧ ∃ evs d, base id cohort b evs ∧ answers d a ∧
    (evs ++ [epoch_restart epoch id who receipt] ++ answer_events d a ++ more) `sublist_of` tr.

Lemma released_replaced cohort tr tr' b a :
  released cohort tr b → attested tr tr' a → restarted b a → replaced cohort [] tr' b a.
Proof.
  intros (evs&Hb&Hsub) (evs'&d&->&Hd&Hs) Hr. split; [done|]. exists evs, d. split_and!; [done..|].
  rewrite app_nil_r, app_assoc. by apply sublist_app.
Qed.

Lemma replaced_app cohort more evs evs' tr b a :
  evs' `sublist_of` evs → replaced cohort more tr b a → replaced cohort (more ++ evs') (tr ++ evs) b a.
Proof.
  intros He [Hr (evs0&d&?&?&Hsub)]. split; [done|]. exists evs0, d. split_and!; [done..|].
  rewrite !app_assoc. apply sublist_app; [|done]. by rewrite <- !app_assoc.
Qed.

(** The hold and the gate, read closed at the epoch. *)
Definition closed_events : list event := [hold_was (inr (true, Some epoch)); frozen_was (Some epoch)].

Lemma wp_resolve_each b a l cohort ops done s tr :
  (∀ op, op ∈ ops → op ∈ cohort ∧ op ∈ l) →
  replaced cohort (closed_events ++ [unknown_were (inr l)]) tr b a → ok s tr →
  wp (resolve_each (reset_evidence self epoch id who receipt b a) ops done) (λ _ s' tr', s' = s ∧ ok s tr') s tr.
Proof.
  revert done tr. induction ops as [|op ops IH]; intros done tr Hops Hrep Hok; [by split|].
  cbn [resolve_each].
  assert (∀ evs done, ok s (tr ++ evs) →
    wp (resolve_each (reset_evidence self epoch id who receipt b a) ops done)
      (λ _ s' tr', s' = s ∧ ok s tr') s (tr ++ evs)) as Hrest.
  { intros evs done' Hok'. apply IH; [|rewrite <- (app_nil_r (closed_events ++ _)); apply replaced_app;
      [apply sublist_nil_l|done]|done]. intros op' Hop. apply Hops. by right. }
  walk. intros x _. destruct x as [e|[o|]]; walk; [by split; auto| |by apply Hrest; auto].
  intros h _. rewrite <- app_assoc. destruct h; walk; [apply Hrest; rewrite app_assoc; auto|].
  set (seen := [observed op (inr (Some o))] ++ [held op false]).
  assert (ok s (tr ++ seen)) as Hok2 by (unfold seen; rewrite app_assoc; auto).
  intros r _.
  assert (ok s ((tr ++ seen) ++ [resolved op (reset_evidence self epoch id who receipt b a o) r])) as Hok3.
  { apply ok_event; [done| |done]. intros op' ev r' [= <- <- _].
    destruct (replaced_app _ _ seen seen _ _ _ (reflexivity seen) Hrep) as [Hr (evs&d&Hb&Hd&Hsub)].
    destruct (Hops op) as [Hc Hl]; [by left|]. rewrite Hq.
    apply (by_entry _ _ _ _ _ _ cohort b evs d a o l); [done..|]. unfold reset_events.
    by rewrite <- !app_assoc in Hsub. }
  destruct r as [e|ok']; walk; [done|]. rewrite <- app_assoc in Hok3 |- *. apply Hrest. done.
Qed.

Lemma wp_second_answer cohort b why s tr :
  (∀ a, b = Some a → released cohort tr a) → ok s tr →
  wp (second_answer to_str to_int expected_endpoint b why)
    (λ o s' tr', s' = s ∧ ok s tr' ∧
       ∀ seen b1 a1, o = inr seen → b = Some b1 → seen.1 = Some a1 → replaced cohort [] tr' b1 a1) s tr.
Proof.
  intros Hb Hok. destruct b as [b|]; [|by split_and!]. unfold second_answer. walk. intros rounds _. apply wp_bind.
  eapply wp_mono; [|apply (wp_after_by _ b s tr); [auto|by eexists]].
  intros [e|[a|w]] s' tr' (->&Hok'&Ha); walk; split_and!; try done; [|by intros ? ? ? [= <-]].
  intros seen b1 a1 [= <-] [= <-] [= <-]. destruct (Ha a eq_refl) as [Hatt Hr].
  by apply (released_replaced _ tr); [apply Hb| |].
Qed.

Lemma wp_still_closed cohort b seen s tr :
  (∀ b1 a1, b = Some b1 → seen.1 = Some a1 → replaced cohort [] tr b1 a1) → ok s tr →
  wp (still_closed epoch seen)
    (λ o s' tr', s' = s ∧ ok s tr' ∧
       ∀ seen' b1 a1, o = inr seen' → b = Some b1 → seen'.1 = Some a1 →
         replaced cohort closed_events tr' b1 a1) s tr.
Proof.
  intros Hseen Hok. unfold still_closed. destruct seen as [[a|] why]; simpl in Hseen |- *.
  2:{ split_and!; [done|done|]. by intros ? ? ? [= <-]. }
  walk. intros r _. destruct r as [e|h]; walk; [by split_and!; auto|].
  destruct (closed_at epoch h) eqn:Hc; walk; [|split_and!; [done|auto|by intros ? ? ? [= <-]]].
  intros f _. case_bool_decide as Hf; walk; (split_and!; [done|auto|]); intros seen' b1 a1 [= <-]; [done|].
  intros Hb [= <-]. unfold closed_at in Hc. apply andb_true_iff in Hc as [Hc1 Hc2].
  apply bool_decide_eq_true in Hc2. destruct h as [c e]. simpl in Hc1, Hc2. subst c e.
  subst f. rewrite <- app_assoc. by apply (replaced_app cohort [] closed_events closed_events), Hseen.
Qed.

Lemma wp_resolve_cohort cohort b after s tr :
  (∀ b1 a1, b = Some b1 → after = Some a1 → replaced cohort closed_events tr b1 a1) →
  ok s tr →
  wp (resolve_cohort self epoch id who receipt b after cohort) (λ _ s' tr', s' = s ∧ ok s tr') s tr.
Proof.
  intros Hseen Hok. unfold resolve_cohort. destruct b as [b|]; [|done]. destruct after as [a|]; [|done].
  walk. intros r _. destruct r as [e|l]; walk; [split; auto|].
  apply (wp_resolve_each b a l cohort); [|by apply replaced_app, Hseen|auto].
  intros op [Hin Hop]%elem_of_List_filter. by apply bool_decide_eq_true in Hin.
Qed.

Lemma wp_account b why cohort s tr :
  (∀ a, b = Some a → released cohort tr a) → ok s tr →
  wp (account to_str to_int self expected_endpoint epoch id who receipt why_not b why cohort)
    (λ _ s' tr', s' = s ∧ ok s tr') s tr.
Proof.
  intros Hb Hok. unfold account. apply wp_bind.
  eapply wp_mono; [|by apply (wp_second_answer cohort)].
  intros [e|seen] s1 tr1 (->&Hok1&H1); [done|]. apply wp_bind.
  eapply wp_mono; [|apply (wp_still_closed cohort b); [|exact Hok1]; eauto].
  intros [e|seen2] s2 tr2 (->&Hok2&H2); [done|]. apply wp_bind.
  eapply wp_mono; [|apply wp_resolve_cohort; [|exact Hok2]; eauto].
  intros [e|done'] s3 tr3 [-> Hok3]; [done|]. unfold conclude. walk.
  intros r _. destruct r as [e|l]; walk; [split; auto|]. intros l0 _. intros r _.
  destruct r as [e|[]]; walk; split; auto.
Qed.
End Entry.

Lemma wp_maintenance_reset epoch id who s tr :
  q = to_maintain epoch id who → ok s tr →
  wp (maintenance_reset to_str to_int self expected_endpoint epoch id who why_not) (λ _ s' tr', s' = s ∧ ok s tr') s tr.
Proof.
  intros Hq Hok. unfold maintenance_reset. walk. intros r _. destruct r as [e|[report|]]; walk; [split; auto..|].
  apply wp_then. eapply wp_mono; [|apply wp_baseline_of; auto].
  intros [e|[[b why] cohort]] s1 tr1 (->&Hok1&Hb); [done|]. specialize (Hb b why cohort eq_refl). walk.
  intros receipt0 _.
  assert (∀ evs, ok s (tr1 ++ evs) → wp
    (let! receipt := invoke (Run_supervisor "restart" (who +:+ ": maintenance epoch " +:+ pretty epoch) (Some id)) in
     let! _ := invoke (Audit "maintenance_reset_receipt" None [("reset_id", JStr id); ("receipt", JObj receipt)]) in
     if negb (is_str (dict_get receipt "result") "ok") then Throw (ResetFailed receipt)
     else account to_str to_int self expected_endpoint epoch id who receipt why_not b why cohort)
    (λ _ s' tr', s' = s ∧ ok s tr') s (tr1 ++ evs)) as Hrun.
  { intros evs Hok2. walk. intros r _. destruct r as [e|receipt]; walk; [split; auto|].
    intros r _. destruct r as [e|[]]; walk; [split; auto|].
    destruct (is_str _ "ok") eqn:Hr; walk; [|split; auto]. apply wp_account; [done|done| |auto].
    intros a ->. destruct (Hb a eq_refl) as (evs0&Hbase&Hsub). exists evs0. split; [done|].
    apply sublist_inserts_r, sublist_app; [by apply sublist_inserts_r|done]. }
  destruct receipt0 as [r0|]; walk; [apply Hrun; auto|]. intros r _. destruct r as [e|h]; walk; [split; auto|].
  destruct (closed_at epoch h); walk; [|split; auto]. rewrite <- app_assoc. apply Hrun. rewrite app_assoc. auto.
Qed.
End Demand.

(** A demand begins with nothing of its own resolved. *)
Lemma ok_begins q q' since s tr : ok q since s tr → ok q' (length tr) s tr.
Proof.
  intros [Hp Ha _]. constructor; [done..|]. intros pre op ev r post -> Hlen.
  rewrite length_app in Hlen. simpl in Hlen. lia.
Qed.

Lemma act_ok q since c q' c' : ok q since c.1 c.2 → act q' c c' → ok q' (length c.2) c'.1 c'.2.
Proof.
  intros Hok%(ok_begins q q') Hact.
  destruct Hact as [op ev who o s tr s' tr' H|id extra o s tr s' tr' H|op ev who o s tr s' tr' H
    |epoch id who o s tr s' tr' H|s tr]; simpl in *.
  - apply (proj1 (wp_exec _ _ _ _ _ _) (wp_start _ _ op ev who s tr Hok)) in H. apply H.
  - refine (proj1 (proj1 (wp_exec _ _ _ _ _ _) (wp_complete _ _ id extra [] s tr Hok _ _) _ _ _ H)).
    + intros p Hp. by apply (ok_pending _ _ _ _ Hok).
    + intros tr1 p a _ Hw. by apply by_completion.
  - exact (proj1 (wp_exec _ _ _ _ _ _) (wp_reset _ _ op ev who s tr eq_refl Hok) _ _ _ H).
  - destruct (proj1 (wp_exec _ _ _ _ _ _) (wp_maintenance_reset _ _ epoch id who s tr eq_refl Hok) _ _ _ H)
      as [-> ?]. done.
  - destruct Hok. by constructor.
Qed.

(** C25: A block is cleared only on ordered evidence.  Take any history of
    resolutions, completions, resets and maintenance resets, with restarts of the
    agent anywhere between or inside them, and any further demand, and look at a
    [resolve_unknown] that demand makes.  A start makes none.  A completion of a
    resolution, or a reset, makes it for the operation that resolution was started
    for, after, in this order: the operation read as unknown, with no task of this
    agent for it, the agent drained, a witness's answer to a fresh nonce, the
    resolution's id drawn, for a reset the restart of this very reset answered
    [ok], and a second answer.  A maintenance reset makes it after: the operation
    listed as unknown or still admitted, a witness's answer, the record of both
    under this reset's id, the restart asked for this epoch under this id and
    answered [ok], a second answer, the hold and the gate read closed at this
    epoch, and the operation read as unknown and without a task.  In each case the
    second answer is of the same incarnation of the witness, later in its sequence,
    and sees another process or start time; and what is handed to the store is
    these very answers, the id, the operator and, where there is one, the epoch
    and the receipt. *)
Theorem cleared_only_on_ordered_evidence s0 tr0 q s tr pre op ev r post :
  rtc acts (∅, []) (s0, tr0) → act q (s0, tr0) (s, tr) →
  tr = pre ++ (resolved op ev r :: post) → length tr0 ≤ length pre → grounded pre op q ev.
Proof.
  intros Hrun Hact Heq Hlen. assert (∃ q0 since, ok q0 since s0 tr0) as (q0&since&Hok).
  { change (∃ q0 since, ok q0 since (s0, tr0).1 (s0, tr0).2).
    assert (∃ q0 since, ok q0 since (∅ : fields, [] : list event).1 (∅ : fields, [] : list event).2) as Hok.
    { exists to_restart, 0. constructor; [done|by intros []|by intros []]. }
    revert Hok. generalize (s0, tr0) Hrun. clear. intros c Hrun.
    induction Hrun as [|c1 c2 c3 [q Hq] _ IH]; [done|]. intros (q0&since&Hok). apply IH.
    eexists q, _. by eapply act_ok. }
  destruct (act_ok q0 since (s0, tr0) q (s, tr) Hok Hact) as [_ _ Hsafe]. by eapply Hsafe.
Qed.

(** ** A maintenance reset restarts only under its hold, and never reopens *)

Definition calm {R} (q : port R) : bool := match q with Reopen | Run_supervisor _ _ _ => false | _ => true end.
Definition calm_event (e : event) : bool :=
  match e with reopened _ | supervisor_ran _ _ _ _ => false | _ => true end.
Abbreviation Calm := (λ (R : Type) (q : port R), calm q = true).

(** What comes just before the supervisor is asked: its receipt, found already
    there, or the hold, read closed at the epoch. *)
Definition may_restart (epoch : Z) (id : string) (pre : list event) : Prop :=
  (∃ pre0 receipt, pre = pre0 ++ [receipt_was id (Some receipt)]) ∨
  (∃ pre0, pre = pre0 ++ [receipt_was id None; hold_was (inr (true, Some epoch))]).

Definition restarts_ok (epoch : Z) (id : string) (tr : list event) : Prop :=
  (∀ g, reopened g ∉ tr) ∧
  ∀ pre a why rid r post, tr = pre ++ (supervisor_ran a why rid r :: post) →
    a = "restart" ∧ rid = Some id ∧ may_restart epoch id pre.

Lemma restarts_ok_snoc epoch id tr e :
  (∀ g, e ≠ reopened g) →
  (∀ a why rid r, e = supervisor_ran a why rid r → a = "restart" ∧ rid = Some id ∧ may_restart epoch id tr) →
  restarts_ok epoch id tr → restarts_ok epoch id (tr ++ [e]).
Proof.
  intros Hg He [Hn Hs]. split.
  - intros g [Hin|Hin%list_elem_of_singleton]%elem_of_app; [by apply (Hn g)|by apply (Hg g)].
  - intros pre a why rid r post Heq. destruct post as [|x post _] using rev_ind.
    + apply app_inj_tail in Heq as [<- ->]. by apply (He a why rid r).
    + rewrite app_comm_cons, app_assoc in Heq. apply app_inj_tail in Heq as [-> _]. by eapply Hs.
Qed.

Lemma restarts_ok_calm epoch id tr e : calm_event e = true → restarts_ok epoch id tr → restarts_ok epoch id (tr ++ [e]).
Proof. intros He. by destruct e; simpl in He; try discriminate He; apply restarts_ok_snoc. Qed.
#[local] Hint Resolve restarts_ok_calm : core.

Lemma wp_calm {A} (p : method A) epoch id s tr :
  only Calm p → restarts_ok epoch id tr → wp p (λ _ _ tr', restarts_ok epoch id tr') s tr.
Proof.
  intros Hp Hok. eapply wp_mono; [|by apply (wp_only _ _ Calm)].
  intros _ _ tr' (evs&->&Hevs). revert tr Hok. induction Hevs as [|e evs (R&q&r&Hq&->) _ IH]; intros tr Hok.
  - by rewrite app_nil_r.
  - rewrite cons_middle, app_assoc. apply IH, restarts_ok_calm; [|done]. by destruct q.
Qed.

(** [attest] talks to the witness only. *)
Abbreviation Asks_witness := (λ (R : Type) (q : port R),
  match q with Token | Write_challenge _ | Rounds | Read_attestation | Sleep => true | _ => false end = true).

Lemma attest_asks : only Asks_witness attest_.
Proof.
  unfold attest. split; [done|]. intros n. walk. apply only_then.
  { apply only_catch; [split; [done|by intros []]|by intros []]. }
  intros []. split; [done|]. intros rounds. walk.
  induction rounds as [|rounds IH]; [done|]. split; [done|]. intros document.
  assert (only Asks_witness (let! _ := invoke Sleep in poll to_str to_int expected_endpoint rounds n)) as Hagain.
  { split; [done|]. by intros [e|[]]. }
  destruct document as [d|]; [|apply Hagain]. walk. destruct (is_str _ n); [|apply Hagain].
  by destruct (attestation _ _ _ d n).
Qed.

Lemma attest_calm : only Calm attest_.
Proof. eapply only_mono; [|apply attest_asks]. by intros R []. Qed.

Lemma try_attest_calm :
  only Calm (catch (let! a := attest_ in Pure (inl a))
    (λ e, match e with ResolutionRefused why => Pure (@inr Attestation refusal why) | _ => Throw e end)).
Proof. apply only_catch; [apply only_then; [apply attest_calm|done]|by intros []]. Qed.

Lemma baseline_of_calm epoch id who : only Calm (baseline_of to_str to_int expected_endpoint epoch id who).
Proof.
  split; [done|]. intros [e|[d|]]; walk; [done|by destruct (attestation_of _)|].
  split; [done|]. intros [r|]; walk; [done|]. split; [done|]. intros [e|l]; walk; [done|].
  split; [done|]. intros l0. walk. apply only_then; [apply try_attest_calm|]. intros [b|why]; [|done].
  split; [done|]. by intros [e|[]].
Qed.

Lemma after_by_calm rounds b : only Calm (after_by to_str to_int expected_endpoint rounds b).
Proof.
  induction rounds as [|rounds IH]; cbn [after_by]; (apply only_then; [apply try_attest_calm|]); intros [a|why];
    repeat case_match; try done; split; try done; by intros [e|[]].
Qed.

Lemma resolve_each_calm evidence ops acc : only Calm (resolve_each evidence ops acc).
Proof.
  revert acc. induction ops as [|op ops IH]; intros acc; [done|]. split; [done|].
  intros [e|[o|]]; walk; [done| |apply IH]. split; [done|]. intros [|]; walk; [apply IH|].
  split; [done|]. intros [e|ok']; walk; [done|apply IH].
Qed.

Lemma second_answer_calm b why : only Calm (second_answer to_str to_int expected_endpoint b why).
Proof.
  destruct b as [b|]; [|done]. split; [done|]. intros rounds. walk. apply only_then; [apply after_by_calm|].
  by intros [a|w].
Qed.

Lemma still_closed_calm epoch seen : only Calm (still_closed epoch seen).
Proof.
  unfold still_closed. destruct (seen.1); [|done]. split; [done|]. intros [e|h]; walk; [done|].
  destruct (closed_at _ _); walk; [|done]. split; [done|]. intros f. walk. by case_bool_decide.
Qed.

Lemma resolve_cohort_calm epoch id who receipt b after cohort :
  only Calm (resolve_cohort self epoch id who receipt b after cohort).
Proof.
  unfold resolve_cohort. destruct b as [b|], after as [a|]; try done. split; [done|].
  intros [e|l]; walk; [done|apply resolve_each_calm].
Qed.

(** What [conclude] reports. *)
Definition reported (tr : list event) (report : dict) : Prop :=
  (∃ id pre, tr = pre ++ [audited_was "maintenance_reset_done" id (inr (Some report))]) ∨
  ∃ pre remaining admitted,
    tr = pre ++ [unknown_were (inr remaining); admitted_were admitted;
                 audit_made "maintenance_reset_done" None report (inr tt)] ∧
    dict_get report "accounting" =
      JStr (if bool_decide (remaining = [] ∧ admitted = []) then "resolved" else "unresolved").

Definition reset_ok (epoch : Z) (id : string) (o : exn + dict) (tr : list event) : Prop :=
  restarts_ok epoch id tr ∧ ∀ report, o = inr report → reported tr report.

Lemma wp_conclude epoch id who receipt b seen acc s tr :
  restarts_ok epoch id tr →
  wp (conclude epoch id who receipt why_not b seen acc) (λ o _ tr', reset_ok epoch id o tr') s tr.
Proof.
  intros Hok. unfold conclude. walk. intros [e|remaining] _; walk; [by split; auto|]. intros admitted _.
  intros a _. destruct a as [e|[]]; walk; (split; [by auto|]); [done|]. intros report [= <-]. right.
  eexists tr, remaining, admitted. split; [by rewrite <- !app_assoc|]. simpl. f_equal. f_equal.
  destruct remaining, admitted; try done; by rewrite !bool_decide_false by naive_solver.
Qed.

Lemma wp_account_ok epoch id who receipt b why cohort s tr :
  restarts_ok epoch id tr →
  wp (account to_str to_int self expected_endpoint epoch id who receipt why_not b why cohort)
    (λ o _ tr', reset_ok epoch id o tr') s tr.
Proof.
  intros Hok. unfold account.
  apply wp_bind. eapply wp_mono; [|by apply (wp_calm _ epoch id), Hok; apply second_answer_calm].
  intros [e|seen] s1 tr1 Hok1; [by split|].
  apply wp_bind. eapply wp_mono; [|by apply (wp_calm _ epoch id), Hok1; apply still_closed_calm].
  intros [e|seen2] s2 tr2 Hok2; [by split|].
  apply wp_bind. eapply wp_mono; [|by apply (wp_calm _ epoch id), Hok2; apply resolve_cohort_calm].
  intros [e|acc] s3 tr3 Hok3; [by split|]. by apply wp_conclude.
Qed.

(** A maintenance reset keeps the node closed.  Whatever it meets, a
    maintenance reset never reopens the gate; it asks the supervisor for nothing but a
    restart under its own id, and only right after it found that request's receipt
    already there, or read the platform's hold closed at its epoch.  It
    reports what was reported before, or accounts [resolved] exactly when its last
    reads show no unknown operation and none admitted. *)
Theorem maintenance_reset_keeps_the_node_closed epoch id who s o s' tr :
  exec (maintenance_reset to_str to_int self expected_endpoint epoch id who why_not) s [] o s' tr →
  (∀ g, reopened g ∉ tr) ∧
  (∀ pre a why rid r post, tr = pre ++ (supervisor_ran a why rid r :: post) →
     a = "restart" ∧ rid = Some id ∧ may_restart epoch id pre) ∧
  (∀ report, o = inr report → reported tr report).
Proof.
  intros He. enough (reset_ok epoch id o tr) as [[H1 H2] H3] by done. revert o s' tr He.
  refine (proj1 (wp_exec _ _ _ _ _ _) _).
  assert (restarts_ok epoch id []) as Hok by (split; [by intros g ?%not_elem_of_nil|by intros []]).
  unfold maintenance_reset. walk. intros a _. destruct a as [e|[report|]]; walk; [by split; [apply (restarts_ok_calm _ _ [])|]| |].
  { split; [by apply (restarts_ok_calm _ _ [])|]. intros r [= <-]. left. by exists id, []. }
  apply wp_then. eapply wp_mono; [|apply (wp_calm _ epoch id), (restarts_ok_calm _ _ []); [apply baseline_of_calm|done..]].
  intros [e|[[b why] cohort]] s1 tr1 Hok1; [by split|]. walk. intros receipt0 _.
  assert (∀ tr2, restarts_ok epoch id tr2 → may_restart epoch id tr2 → wp
    (let! receipt := invoke (Run_supervisor "restart" (who +:+ ": maintenance epoch " +:+ pretty epoch) (Some id)) in
     let! _ := invoke (Audit "maintenance_reset_receipt" None [("reset_id", JStr id); ("receipt", JObj receipt)]) in
     if negb (is_str (dict_get receipt "result") "ok") then Throw (ResetFailed receipt)
     else account to_str to_int self expected_endpoint epoch id who receipt why_not b why cohort)
    (λ o _ tr', reset_ok epoch id o tr') s1 tr2) as Hrun.
  { intros tr2 Hok2 Hmay. walk. intros r _.
    assert (restarts_ok epoch id (tr2 ++ [supervisor_ran "restart" (who +:+ ": maintenance epoch " +:+ pretty epoch) (Some id) r])) as Hok3.
    { apply restarts_ok_snoc; [done| |done]. by intros a0 why0 rid r0 [= <- <- <- <-]. }
    destruct r as [e|receipt]; walk; [by split|]. intros a _. destruct a as [e|[]]; walk; [by split; auto|].
    destruct (is_str _ "ok"); walk; [|by split; auto]. apply wp_account_ok; auto. }
  destruct receipt0 as [r0|]; walk; [apply Hrun; [auto|left; by exists tr1, r0]|].
  intros r _. destruct r as [e|h]; walk; [by split; auto|].
  destruct (closed_at epoch h) eqn:Hc; walk; [|by split; auto]. apply Hrun; [auto|].
  right. exists tr1. rewrite <- app_assoc. unfold closed_at in Hc. apply andb_true_iff in Hc as [Hc1 Hc2].
  apply bool_decide_eq_true in Hc2. by destruct h; simpl in *; subst.
Qed.

(** ** A reset that fails clears nothing *)

Definition clean (e : event) : Prop :=
  match e with resolved _ _ (inr true) | reopened _ => False | _ => True end.

(** Nothing was cleared, or all that failed was the reopening. *)
Definition spared (tr : list event) : Prop :=
  Forall clean tr ∨ ((∃ e, reopened (inl e) ∈ tr) ∧ ∀ g, reopened (inr g) ∉ tr).

Lemma clean_snoc tr e : clean e → Forall clean tr → Forall clean (tr ++ [e]).
Proof. intros. apply Forall_app. split; [done|by constructor]. Qed.
#[local] Hint Resolve clean_snoc : core.
#[local] Hint Extern 0 (clean _) => exact I : core.

Lemma wp_attest_clean s tr : Forall clean tr → wp attest_ (λ _ _ tr', Forall clean tr') s tr.
Proof.
  intros Htr. eapply wp_mono; [|by apply (wp_only _ _ _ _ _ _ attest_asks)].
  intros o s' tr' (evs&->&Hevs). apply Forall_app. split; [done|].
  eapply Forall_impl; [exact Hevs|]. intros e (R&q&r&Hq&->). by destruct q.
Qed.

(** [complete] either leaves no trace of success when it raises, or has ended the
    resolution. *)
Lemma wp_complete_clean id extra s tr :
  Forall clean tr →
  wp (complete to_str to_int self expected_endpoint id extra)
    (λ o s' tr', ∀ e, o = inl e → Forall clean tr' ∨ s' !! id = None ∧ spared tr') s tr.
Proof.
  intros Htr. unfold complete. walk. destruct (s !! id) as [p|]; [|walk; by intros; left].
  apply wp_then. eapply wp_mono; [|by apply wp_attest_clean]. intros [e|a] s1 tr1 Htr1; [by intros; left|].
  case_bool_decide; [walk; by intros; left|]. destruct (_ || _); [walk; by intros; left|].
  walk. intros r _. destruct r as [e|[]]; walk; [intros; left; auto| |intros; left; auto].
  intros g _. destruct g as [e|g]; walk; [|done]. intros e' _. right.
  split; [apply lookup_delete_eq|]. right.
  split; [exists e; set_solver|]. intros g Hin. rewrite !elem_of_app, !list_elem_of_singleton in Hin.
  destruct Hin as [[Hin|?]|?]; [|done..]. rewrite Forall_forall in Htr1. by apply Htr1 in Hin.
Qed.

Lemma wp_complete_by_clean rounds id extra s tr :
  Forall clean tr →
  wp (complete_by to_str to_int self expected_endpoint rounds id extra)
    (λ o _ tr', ∀ e, o = inl e → spared tr') s tr.
Proof.
  revert s tr. induction rounds as [|rounds IH]; intros s tr Htr; cbn [complete_by];
    apply wp_catch; (eapply wp_mono; [|by apply wp_complete_clean]);
    (intros [e|a] s1 tr1 Hok; [|done]); specialize (Hok e eq_refl);
    (assert (spared tr1) as Hsp by (destruct Hok as [?|[_ ?]]; [by left|done]));
    destruct e; try done; walk; destruct (s1 !! id) eqn:Hid; walk; try done.
  destruct Hok as [Hok|[Hn _]]; [|congruence]. intros r _. destruct r as [e|[]]; walk; [intros; left; auto|].
  apply IH. auto.
Qed.

Lemma wp_start_clean op ev who s tr :
  Forall clean tr → wp (start to_str to_int self expected_endpoint op ev who) (λ _ _ tr', Forall clean tr') s tr.
Proof.
  intros Htr. unfold start. destruct (_ || _); [done|]. walk. intros [e|[o|]] _; walk; [by auto| |by auto].
  case_bool_decide; [walk; auto|]. walk. intros [] _; walk; [by auto|].
  intros [e|[]] _; walk; [by auto|]. apply wp_then. eapply wp_mono; [|apply wp_attest_clean; auto].
  intros [e|b] s1 tr1 Htr1; [done|]. walk. intros id _. intros r _. destruct r as [e|[]]; walk; auto.
Qed.

(** A reset that fails leaves the block in place.  When [reset] raises,
    whatever it raises and wherever, the operation it was asked to clear has not
    been resolved and the node has not been reopened; the one exception is a
    resolution that succeeded whose reopening itself raised. *)
Theorem failed_reset_clears_nothing op ev who s e s' tr :
  exec (reset to_str to_int self expected_endpoint op ev who) s [] (inl e) s' tr →
  (∀ g, reopened (inr g) ∉ tr) ∧
  ((∃ e', reopened (inl e') ∈ tr) ∨ ∀ op' ev', resolved op' ev' (inr true) ∉ tr).
Proof.
  intros He.
  assert (∀ o s' tr, exec (reset to_str to_int self expected_endpoint op ev who) s [] o s' tr →
    ∀ e, o = inl e → spared tr) as Hsp.
  { refine (proj1 (wp_exec _ _ _ _ _ _) _). unfold reset. apply wp_bind.
    eapply wp_mono; [|by apply wp_start_clean]. intros [e'|[id b]] s1 tr1 Htr1; [by intros; left|].
    apply wp_bind, wp_catch. walk. intros r _. destruct r as [e'|receipt]; walk.
    { destruct e'; walk; intros; left; auto. }
    intros r _. destruct r as [e'|[]]; walk; [intros; left; auto|].
    destruct (is_str _ "ok"); walk; [|intros; left; auto]. intros rounds _. apply wp_complete_by_clean; auto. }
  destruct (Hsp _ _ _ He e eq_refl) as [Hall|[Hr Hn]]; [|by split; [|left]].
  rewrite Forall_forall in Hall. split; [by intros g Hin%Hall|]. right. by intros op' ev' Hin%Hall.
Qed.
End Histories.

(** * A reset, played *)

Module Demo.
Definition to_str (j : json) : string := "?".
Definition to_int (j : json) : option Z := None.
Definition self : Ownership := mk_ownership "n" 2 "boot-b".
Definition url : string := "127.0.0.1:11434".
Definition why_not (w : refusal) : json := JNull.

Definition unknown_x : Operation :=
  mk_operation "n" "x" KInference OutcomeUnknown 1 "boot-a" 2 None None false (Some "agent_restarted") None false.

Definition last_nonce (tr : list event) : string :=
  foldl (λ n e, match e with challenged m _ => m | _ => n end) "" tr.
Definition has_restarted (tr : list event) : bool :=
  existsb (λ e, match e with supervisor_ran _ _ _ (inr _) => true | _ => false end) tr.

(** The witness answers every challenge; the runtime has a new process once the
    supervisor ran, which answers [receipt]. *)
Definition env (receipt : dict) (tr : list event) (R : Type) (q : port R) : R :=
  match q with
  | Token => "t" +:+ pretty (length tr)
  | Write_challenge _ => inr tt
  | Rounds => 2
  | Read_attestation =>
      Some [("nonce", JStr (last_nonce tr)); ("status", JStr "observed"); ("endpoint", JStr url);
            ("witness_incarnation", JStr "w"); ("seq", JInt (Z.of_nat (length tr)));
            ("pid", JInt (if has_restarted tr then 71 else 70)); ("start_time", JStr "Thu Oct 8")]
  | Sleep => inr tt
  | Observe _ => inr (Some unknown_x)
  | Holds _ => false
  | Drain => inr tt
  | Reopen => inr SERVING
  | Admitted_ops => []
  | Frozen_epoch => Some 5%Z
  | Audit _ _ _ => inr tt
  | Audited _ _ => inr None
  | Resolve_unknown _ _ => inr true
  | Unknown_ops => inr (if existsb (λ e, match e with resolved _ _ _ => true | _ => false end) tr then [] else ["x"])
  | Maintenance_hold => inr (true, Some 5%Z)
  | Receipt _ => None
  | Run_supervisor _ _ _ => inr receipt
  end.

Definition ok_receipt : dict := [("result", JStr "ok")].
Definition play {A} (receipt : dict) (p : method A) := run (@log) (env receipt) p ∅ [].

Lemma resolution_plays {A} receipt (p : method A) :
  exec p ∅ [] (play receipt p).1.1 (play receipt p).1.2 (play receipt p).2.
Proof. apply exec_run. by intros tr R []. Qed.

Definition cleared := play ok_receipt (reset to_str to_int self url "x" "it hung" "alice").
Definition entered := play ok_receipt (maintenance_reset to_str to_int self url 5 "r1" "alice" why_not).
Definition refused := play [("result", JStr "failed")] (reset to_str to_int self url "x" "it hung" "alice").

Example cleared_serves : cleared.1.1 = inr ("x", SERVING).
Proof. vm_compute. reflexivity. Qed.

Example entered_resolves :
  match entered.1.1 with inr r => dict_get r "resolved" = JArr [JStr "x"] | inl _ => False end.
Proof. vm_compute. reflexivity. Qed.

(** Where a trace resolves. *)
Fixpoint resolves_at (tr : list event) : option (list event * string * dict * answer bool * list event) :=
  match tr with
  | [] => None
  | resolved op ev r :: post => Some ([], op, ev, r, post)
  | e :: rest => (λ '(pre, op, ev, r, post), (e :: pre, op, ev, r, post)) <$> resolves_at rest
  end.
Definition the_resolution := default ([], "", [], inr false, []) (resolves_at cleared.2).

Definition the_entry := default ([], "", [], inr false, []) (resolves_at entered.2).

Lemma reset_acts :
  act to_str to_int self url why_not (to_reset "x" "it hung" "alice") (∅, []) (cleared.1.2, cleared.2).
Proof. eapply by_reset. apply resolution_plays. Qed.

Lemma entry_acts :
  act to_str to_int self url why_not (to_maintain 5 "r1" "alice") (∅, []) (entered.1.2, entered.2).
Proof. eapply by_maintenance. apply resolution_plays. Qed.
End Demo.

Lemma cleared_only_on_ordered_evidence_witness :
  grounded Demo.to_str Demo.to_int Demo.self Demo.url Demo.the_resolution.1.1.1.1 "x"
    (to_reset "x" "it hung" "alice") Demo.the_resolution.1.1.2 ∧
  grounded Demo.to_str Demo.to_int Demo.self Demo.url Demo.the_entry.1.1.1.1 "x"
    (to_maintain 5 "r1" "alice") Demo.the_entry.1.1.2.
Proof.
  split.
  - apply (cleared_only_on_ordered_evidence Demo.to_str Demo.to_int Demo.self Demo.url Demo.why_not
      ∅ [] _ _ _ _ _ _ Demo.the_resolution.1.2 Demo.the_resolution.2 (rtc_refl _ _) Demo.reset_acts).
    + vm_compute. reflexivity.
    + apply Nat.le_0_l.
  - apply (cleared_only_on_ordered_evidence Demo.to_str Demo.to_int Demo.self Demo.url Demo.why_not
      ∅ [] _ _ _ _ _ _ Demo.the_entry.1.2 Demo.the_entry.2 (rtc_refl _ _) Demo.entry_acts).
    + vm_compute. reflexivity.
    + apply Nat.le_0_l.
Defined.

Lemma maintenance_reset_keeps_the_node_closed_witness :
  (∀ g, reopened g ∉ Demo.entered.2) ∧
  (∀ pre a why rid r post, Demo.entered.2 = pre ++ (supervisor_ran a why rid r :: post) →
     a = "restart" ∧ rid = Some "r1" ∧ may_restart 5 "r1" pre) ∧
  (∀ report, Demo.entered.1.1 = inr report → reported Demo.entered.2 report).
Proof.
  apply (maintenance_reset_keeps_the_node_closed Demo.to_str Demo.to_int Demo.self Demo.url Demo.why_not
    5 "r1" "alice" ∅ Demo.entered.1.1 Demo.entered.1.2 Demo.entered.2).
  apply Demo.resolution_plays.
Defined.

Lemma failed_reset_clears_nothing_witness :
  (∀ g, reopened (inr g) ∉ Demo.refused.2) ∧
  ((∃ e', reopened (inl e') ∈ Demo.refused.2) ∨ ∀ op' ev', resolved op' ev' (inr true) ∉ Demo.refused.2).
Proof.
  apply (failed_reset_clears_nothing Demo.to_str Demo.to_int Demo.self Demo.url "x" "it hung" "alice"
    ∅ (ResolutionRefused restart_failed) Demo.refused.1.2 Demo.refused.2).
  apply (Demo.resolution_plays [("result", JStr "failed")] (reset Demo.to_str Demo.to_int Demo.self Demo.url "x" "it hung" "alice")).
Defined.
