(* ===== verification/Supervisor.v ===== *)
(** Asking the host to restart the runtime, exactly once
    ([node_agent/supervisor.py] and the request loop of
    [scripts/host/runtime_supervisor.py]).

    The agent and the supervisor are two processes that share directories: one of
    requests, which the agent writes and the supervisor claims by renaming, and
    one of receipts, which the supervisor writes.  Each file operation is one
    step, and the steps of the two interleave.  Within the agent a task keeps the
    event loop until it awaits, so at most one of its callers is between awaits;
    any number are asleep.  Either process may die at any step and start again;
    the files stay.

    The world refines a machine of four states per request ([request_state]),
    which can only be taken once. *)

From S2P Require Export Prelude.

(** * Data *)

Record request := mk_request { req_id : string; req_action : string; req_reason : string }.
Record receipt := mk_receipt { rc_request_id : string; rc_action : string; rc_result : string }.

#[export] Instance request_eq_dec : EqDecision request.
Proof. solve_decision. Defined.
#[export] Instance receipt_eq_dec : EqDecision receipt.
Proof. solve_decision. Defined.

Definition ACTIONS : list string := ["stop"; "start"; "restart"].
Definition REASON_MAX : nat := 200.

(** [<id>.json] and [.<id>.claimed] among the requests, [<id>.json] among the receipts. *)
Record files := mk_files {
  requests : gmap string request;
  claims : gmap string request;
  receipts : gmap string receipt
}.
Definition set_requests r (f : files) : files := mk_files r (claims f) (receipts f).
Definition set_claims c (f : files) : files := mk_files (requests f) c (receipts f).
Definition set_receipts r (f : files) : files := mk_files (requests f) (claims f) r.

(** [os.rename(path, claimed)], or the [FileNotFoundError] of one withdrawn. *)
Definition claim_file (id : string) (f : files) : option files :=
  r ← requests f !! id; Some (mk_files (delete id (requests f)) (<[id := r]> (claims f)) (receipts f)).

(** * The supervisor *)

(** [str.isprintable], on ASCII text. *)
Definition isprintable (s : string) : bool :=
  forallb (λ c, bool_decide (32 ≤ Ascii.nat_of_ascii c ≤ 126)) (String.list_ascii_of_string s).

(** [read_request], on a document that has exactly the three fields. *)
Definition read_request (r : request) (id : string) : bool :=
  bool_decide (req_id r = id) && bool_decide (req_action r ∈ ACTIONS) &&
  (bool_decide (String.length (req_reason r) ≤ REASON_MAX) && isprintable (req_reason r)).

(** Where [cycle] is: the requests it still has to handle, and the one it is at. *)
Inductive sup : Type :=
  | Idle
  | Next (rest : list string)
  | Discard (id : string) (rest : list string)
  | Rename (id : string) (rest : list string)
  | Read (id : string) (rest : list string)
  | Execute (id : string) (r : request) (rest : list string)
  | Publish (id : string) (rc : receipt) (rest : list string)
  | Clear (id : string) (rest : list string).

(** One step of the supervisor on the files, [result] being what executing the
    request comes to; and the request and the action it executed, if it did. *)
Definition sup_step (result : string) (s : sup) (f : files) : option (sup * files * option (string * string)) :=
  match s with
  | Idle => None
  | Next [] => Some (Idle, f, None)
  | Next (id :: rest) =>
      match receipts f !! id with
      | Some _ => Some (Discard id rest, f, None)
      | None => Some (Rename id rest, f, None)
      end
  | Discard id rest => Some (Next rest, set_requests (delete id (requests f)) f, None)
  | Rename id rest =>
      match claim_file id f with
      | Some f => Some (Read id rest, f, None)
      | None => Some (Next rest, f, None)
      end
  | Read id rest =>
      match claims f !! id with
      | Some r =>
          if read_request r id then Some (Execute id r rest, f, None)
          else Some (Publish id (mk_receipt id "" "rejected") rest, f, None)
      | None => Some (Publish id (mk_receipt id "" "rejected") rest, f, None)
      end
  | Execute id r rest => Some (Publish id (mk_receipt id (req_action r) result) rest, f, Some (id, req_action r))
  | Publish id rc rest => Some (Clear id rest, set_receipts (<[id := rc]> (receipts f)) f, None)
  | Clear id rest => Some (Next rest, set_claims (delete id (claims f)) f, None)
  end.

(** * The agent *)

Record ask := mk_ask { a_id : string; a_action : string; a_reason : string }.

Inductive outcome : Type :=
  | Answered (rc : receipt)
  | Mismatched
  | Unwritten
  | Withdrawn_by_another
  | Withdrawn
  | May_run.

(** Where [run] is. *)
Inductive at_ : Type :=
  | See_receipt | See_request | See_claim | Write
  | Poll | Poll_request | Poll_claim | Poll_again | Deadline.

Inductive turn : Type :=
  | Go (a : at_)
  | Sleep
  | Done (o : outcome).

(** [_checked] *)
Definition checked (rc : receipt) (a : ask) : outcome :=
  if bool_decide (rc_request_id rc = a_id a) && bool_decide (rc_action rc = a_action a)
  then Answered rc else Mismatched.

(** The request of a call: its reason is cut at 200 characters. *)
Definition document (a : ask) : request := mk_request (a_id a) (a_action a) (String.substring 0 200 (a_reason a)).

(** One file operation of [run]. *)
Definition ask_step (a : ask) (p : at_) (f : files) : turn * files :=
  let id := a_id a in
  match p with
  | See_receipt => (match receipts f !! id with Some rc => Done (checked rc a) | None => Go See_request end, f)
  | See_request => (if bool_decide (is_Some (requests f !! id)) then Go Poll else Go See_claim, f)
  | See_claim => (if bool_decide (is_Some (claims f !! id)) then Go Poll else Go Write, f)
  | Write => (Go Poll, set_requests (<[id := document a]> (requests f)) f)
  | Poll => (match receipts f !! id with Some rc => Done (checked rc a) | None => Go Poll_request end, f)
  | Poll_request => (if bool_decide (is_Some (requests f !! id)) then Sleep else Go Poll_claim, f)
  | Poll_claim => (if bool_decide (is_Some (claims f !! id)) then Sleep else Go Poll_again, f)
  | Poll_again => (match receipts f !! id with Some rc => Done (checked rc a) | None => Done Withdrawn_by_another end, f)
  | Deadline =>
      match requests f !! id with
      | Some _ => (Done Withdrawn, set_requests (delete id (requests f)) f)
      | None => (Done May_run, f)
      end
  end.

(** [withdraw] *)
Definition withdraw (id : string) (f : files) : bool * files :=
  (bool_decide (is_Some (requests f !! id)), set_requests (delete id (requests f)) f).

(** [receipt], whose files are the supervisor's and so are always documents *)
Definition receipt_of (id : string) (f : files) : option receipt := receipts f !! id.

(** [outstanding]: the requests not taken, and those taken and not answered *)
Definition outstanding (f : files) : list string * list string :=
  (py_sorted String.leb (elements (dom (requests f))),
   py_sorted String.leb (filter (λ id, receipt_of id f = None) (elements (dom (claims f))))).

(** * The two together *)

Record world := mk_world {
  fs : files;
  host : sup;
  sleepers : list ask;
  active : option (ask * at_);
  executed : list (string * string);
  ended : list (ask * outcome)
}.

Definition take_turn (a : ask) (t : turn) (f : files) (w : world) : world :=
  match t with
  | Go p => mk_world f (host w) (sleepers w) (Some (a, p)) (executed w) (ended w)
  | Sleep => mk_world f (host w) (a :: sleepers w) None (executed w) (ended w)
  | Done o => mk_world f (host w) (sleepers w) None (executed w) ((a, o) :: ended w)
  end.

(** A step, labelled with the request it asks for, when it is a new call.  A file
    that cannot be written is an answer; one that cannot be removed at the
    deadline is answered as if it had been.  The supervisor lists the requests
    there are, in an order of its own. *)
Inductive step : option string → world → world → Prop :=
  | calls a w :
      active w = None → a_action a ∈ ACTIONS →
      step (Some (a_id a)) w (mk_world (fs w) (host w) (sleepers w) (Some (a, See_receipt)) (executed w) (ended w))
  | wakes a l1 l2 w p :
      sleepers w = l1 ++ a :: l2 → active w = None → p = Poll ∨ p = Deadline →
      step None w (mk_world (fs w) (host w) (l1 ++ l2) (Some (a, p)) (executed w) (ended w))
  | proceeds a p w t f :
      active w = Some (a, p) → ask_step a p (fs w) = (t, f) → step None w (take_turn a t f w)
  | cannot_write a w :
      active w = Some (a, Write) → step None w (take_turn a (Done Unwritten) (fs w) w)
  | cannot_unlink a w :
      active w = Some (a, Deadline) → step None w (take_turn a (Done Withdrawn) (fs w) w)
  | times_out a w :
      active w = Some (a, Poll) → step None w (take_turn a (Go Deadline) (fs w) w)
  | withdraws id w :
      active w = None →
      step None w (mk_world (withdraw id (fs w)).2 (host w) (sleepers w) None (executed w) (ended w))
  | agent_dies w : step None w (mk_world (fs w) (host w) [] None (executed w) (ended w))
  | cycle ids w :
      host w = Idle → NoDup ids → (∀ id, id ∈ ids → is_Some (requests (fs w) !! id)) →
      step None w (mk_world (fs w) (Next ids) (sleepers w) (active w) (executed w) (ended w))
  | host_steps result w s f x :
      sup_step result (host w) (fs w) = Some (s, f, x) →
      step None w (mk_world f s (sleepers w) (active w) (option_list x ++ executed w) (ended w))
  | host_dies w : step None w (mk_world (fs w) Idle (sleepers w) (active w) (executed w) (ended w)).

Definition any_step (w w' : world) : Prop := ∃ l, step l w w'.

Definition initial : world := mk_world (mk_files ∅ ∅ ∅) Idle [] None [] [].
Definition reachable : world → Prop := rtc any_step initial.

(** * What one request goes through *)

Inductive request_state : Set := Unasked | Offered | Taken | Finished.

Definition state_of (id : string) (w : world) : request_state :=
  if bool_decide (is_Some (receipts (fs w) !! id)) then Finished
  else if bool_decide (is_Some (claims (fs w) !! id)) then Taken
  else if bool_decide (is_Some (requests (fs w) !! id)) then Offered
  else Unasked.

(** Offered and withdrawn any number of times, taken once, finished for good. *)
Inductive progress : request_state → request_state → Prop :=
  | offered : progress Unasked Offered
  | withdrawn : progress Offered Unasked
  | taken : progress Offered Taken
  | finished : progress Taken Finished.

(** ** The invariant *)

(** What the supervisor knows where it is. *)
Definition host_at (id : string) (s : sup) (f : files) (ex : list (string * string)) : Prop :=
  match s with
  | Rename i _ => i = id → receipts f !! id = None
  | Read i _ | Execute i _ _ =>
      i = id → receipts f !! id = None ∧ is_Some (claims f !! id) ∧ id ∉ ex.*1
  | Publish i rc _ =>
      i = id → receipts f !! id = None ∧ is_Some (claims f !! id) ∧
        rc_request_id rc = id ∧ (rc_action rc = "" ∨ (id, rc_action rc) ∈ ex)
  | Discard i _ | Clear i _ => i = id → is_Some (receipts f !! id)
  | Idle | Next _ => True
  end.

(** What a caller knows between its reads. *)
Definition agent_at (id : string) (p : option (ask * at_)) (f : files) : Prop :=
  match p with
  | Some (a, See_claim) => a_id a = id → requests f !! id = None
  | Some (a, Poll_claim) => a_id a = id → requests f !! id = None
  | Some (a, Write) | Some (a, Poll_again) => a_id a = id → requests f !! id = None ∧ claims f !! id = None
  | _ => True
  end.

Record inv_at (id : string) (w : world) : Prop := {
  inv_one_file : is_Some (claims (fs w) !! id) → requests (fs w) !! id = None;
  inv_executed : id ∈ (executed w).*1 → is_Some (receipts (fs w) !! id) ∨ is_Some (claims (fs w) !! id);
  inv_receipt : ∀ rc, receipts (fs w) !! id = Some rc →
    rc_request_id rc = id ∧ (rc_action rc = "" ∨ (id, rc_action rc) ∈ executed w);
  inv_host : host_at id (host w) (fs w) (executed w);
  inv_agent : agent_at id (active w) (fs w)
}.

Definition inv (w : world) : Prop := NoDup (executed w).*1 ∧ ∀ id, inv_at id w.

(** Files only ever lose requests between two reads of a caller, and gain none. *)
Definition only_deletes (id : string) (f f' : files) : Prop :=
  (requests f !! id = None → requests f' !! id = None) ∧
  (requests f !! id = None → claims f !! id = None → claims f' !! id = None).

Lemma agent_at_deletes id p f f' : only_deletes id f f' → agent_at id p f → agent_at id p f'.
Proof. intros [Hr Hc]. destruct p as [[a []]|]; simpl; try done; naive_solver. Qed.

Ltac at_id id i :=
  destruct (decide (id = i)) as [->|?];
  [rewrite ?lookup_insert_eq, ?lookup_delete_eq in * |
   rewrite ?(lookup_insert_ne _ id i), ?(lookup_insert_ne _ i id), ?(lookup_delete_ne _ id i), ?(lookup_delete_ne _ i id) in * by done].

Lemma host_step_inv result w s f x :
  inv w → sup_step result (host w) (fs w) = Some (s, f, x) →
  inv (mk_world f s (sleepers w) (active w) (option_list x ++ executed w) (ended w)).
Proof.
  intros [Hnd Hinv] Hs. destruct (host w) as [|[|id rest]|id rest|id rest|id rest|id r rest|id rc rest|id rest] eqn:Hh;
    simpl in Hs; [done|..].
  - injection Hs as <- <- <-. split; [done|]. intros i. by destruct (Hinv i).
  - destruct (receipts (fs w) !! id) as [rc|] eqn:Hr; injection Hs as <- <- <-; (split; [done|]); intros i;
      destruct (Hinv i) as [H1 H2 H3 H4 H5]; constructor; simpl; try done; intros <-; [by rewrite Hr|done].
  - injection Hs as <- <- <-. split; [done|]. intros i. destruct (Hinv i) as [H1 H2 H3 H4 H5]. constructor; simpl; try done.
    + intros Hc. at_id id i; auto.
    + eapply agent_at_deletes; [|done]. split; simpl; [|done]. intros Hn. by at_id id i.
  - unfold claim_file in Hs. destruct (requests (fs w) !! id) as [r|] eqn:Hr; simpl in Hs.
    2:{ injection Hs as <- <- <-. split; [done|]. intros i. by destruct (Hinv i). }
    injection Hs as <- <- <-. split; [done|]. intros i. destruct (Hinv i) as [H1 H2 H3 H4 H5].
    rewrite Hh in H4. simpl in H4. constructor; simpl; try done.
    + intros Hc. at_id id i; auto.
    + intros Hex. at_id id i; [right; eauto|auto].
    + intros <-. rewrite lookup_insert_eq. split_and!; [auto|eauto|]. intros Hex.
      destruct (H2 Hex) as [[rc Hrc]|Hc]; [rewrite H4 in Hrc; done|]. specialize (H1 Hc). congruence.
    + eapply agent_at_deletes; [|done]. split; simpl; intros Hn.
      * by at_id id i.
      * intros Hc. destruct (decide (id = i)) as [->|]; [congruence|]. by rewrite lookup_insert_ne.
  - destruct (Hinv id) as [_ _ _ H4 _]. rewrite Hh in H4. destruct (H4 eq_refl) as (Hr&[r Hc]&Hex). rewrite Hc in Hs.
    destruct (read_request r id); injection Hs as <- <- <-; (split; [done|]); intros i;
      destruct (Hinv i) as [H1 H2 H3 H4' H5]; constructor; simpl; try done; intros <-; split_and!; eauto.
  - injection Hs as <- <- <-. destruct (Hinv id) as [_ _ _ H4 _]. rewrite Hh in H4.
    destruct (H4 eq_refl) as (Hr&Hc&Hex). split; [by constructor|]. intros i.
    destruct (Hinv i) as [H1 H2 H3 H4' H5]. constructor; simpl; try done.
    + intros [->|Hin]%elem_of_cons; auto.
    + intros rc Hrc. destruct (H3 rc Hrc) as [? [?|?]]; split; auto. right. by right.
    + intros <-. split_and!; [done..|]. right. by left.
  - injection Hs as <- <- <-. destruct (Hinv id) as [_ _ _ H4 _]. rewrite Hh in H4.
    destruct (H4 eq_refl) as (Hr&Hc&Hid&Hres). split; [done|]. intros i.
    destruct (Hinv i) as [H1 H2 H3 H4' H5]. constructor; simpl; try done.
    + intros Hex. at_id id i; [eauto|auto].
    + intros rc' Hrc. at_id id i; [|auto]. by injection Hrc as <-.
    + intros <-. rewrite lookup_insert_eq. eauto.
  - injection Hs as <- <- <-. destruct (Hinv id) as [_ _ _ H4 _]. rewrite Hh in H4. specialize (H4 eq_refl).
    split; [done|]. intros i. destruct (Hinv i) as [H1 H2 H3 H4' H5]. constructor; simpl; try done.
    + intros Hc. at_id id i; [by destruct Hc|auto].
    + intros Hex. at_id id i; [by left|auto].
    + eapply agent_at_deletes; [|done]. split; simpl; [done|]. intros _ Hc. by at_id id i.
Qed.


(** ** The agent's steps *)

(** A world whose host is where it was. *)
Lemma inv_agent_moves w f sl ac en :
  inv w → receipts f = receipts (fs w) → claims f = claims (fs w) →
  (∀ id, requests f !! id = requests (fs w) !! id ∨ requests f !! id = None ∨ claims f !! id = None) →
  (∀ id, agent_at id ac f) →
  inv (mk_world f (host w) sl ac (executed w) en).
Proof.
  intros [Hnd Hinv] Hr Hc Hq Ha. split; [done|]. intros id. destruct (Hinv id) as [H1 H2 H3 H4 H5].
  constructor; simpl; rewrite ?Hr, ?Hc; try done.
  - intros Hs. destruct (Hq id) as [->|[?|Hn]]; [auto|done|]. rewrite Hc in Hn. by destruct Hs as [? ?]; congruence.
  - destruct (host w); simpl in *; rewrite ?Hr, ?Hc; done.
Qed.

Lemma ask_step_inv a p t f w :
  inv w → active w = Some (a, p) → ask_step a p (fs w) = (t, f) → inv (take_turn a t f w).
Proof.
  intros Hi Ha Ht. assert (Hag : ∀ id, agent_at id (Some (a, p)) (fs w))
    by (intros id; rewrite <- Ha; apply (proj2 Hi id)).
  specialize (Hag (a_id a)). destruct p; simpl in Ht; repeat case_match; simplify_eq; repeat case_bool_decide;
    simplify_eq; rewrite <- ?eq_None_not_Some in *;
    apply inv_agent_moves; simpl; auto; intros i; try (intros <-; simpl in Hag; by auto); at_id i (a_id a); naive_solver.
Qed.

Lemma step_inv l w w' : step l w w' → inv w → inv w'.
Proof.
  intros Hs Hi. pose proof (proj2 Hi) as Hall. destruct Hs; try (by apply inv_agent_moves; auto).
  - apply inv_agent_moves; auto. intros id. by destruct H1 as [->| ->].
  - by eapply ask_step_inv.
  - apply inv_agent_moves; auto; simpl; [|done]. intros i. at_id i id; auto.
  - split; [apply Hi|]. intros id. by destruct (Hall id).
  - by eapply host_step_inv.
  - split; [apply Hi|]. intros id. by destruct (Hall id).
Qed.

Lemma reachable_inv w : reachable w → inv w.
Proof.
  apply (rtc_ind_r inv initial).
  - split; [constructor|]. intros id. constructor; simpl; try done. intros Hc%elem_of_nil; done.
  - intros w1 w2 _ [l Hs] Hi. by eapply step_inv.
Qed.

(** ** The refinement *)

(** What a step does to a request, by what it does to its files. *)
Lemma state_of_moves id w w' :
  (receipts (fs w') !! id = receipts (fs w) !! id ∧ claims (fs w') !! id = claims (fs w) !! id ∧
   requests (fs w') !! id = requests (fs w) !! id) ∨
  (is_Some (receipts (fs w) !! id) ∧ is_Some (receipts (fs w') !! id)) ∨
  (receipts (fs w) !! id = None ∧ is_Some (claims (fs w) !! id) ∧ is_Some (receipts (fs w') !! id)) ∨
  (receipts (fs w') !! id = receipts (fs w) !! id ∧ claims (fs w) !! id = None ∧
   is_Some (requests (fs w) !! id) ∧ is_Some (claims (fs w') !! id)) ∨
  (receipts (fs w') !! id = receipts (fs w) !! id ∧ claims (fs w') !! id = claims (fs w) !! id ∧
   (requests (fs w') !! id = None ∨ requests (fs w) !! id = None)) →
  state_of id w' = state_of id w ∨ progress (state_of id w) (state_of id w').
Proof.
  unfold state_of.
  destruct (receipts (fs w) !! id), (receipts (fs w') !! id), (claims (fs w) !! id), (claims (fs w') !! id),
    (requests (fs w) !! id), (requests (fs w') !! id); cbn; intros H;
    solve [by left | right; constructor | naive_solver].
Qed.

Lemma host_step_state id result w s f x :
  inv w → sup_step result (host w) (fs w) = Some (s, f, x) →
  ∀ w', fs w' = f → state_of id w' = state_of id w ∨ progress (state_of id w) (state_of id w').
Proof.
  intros [_ Hinv] Hs w' Hw. apply state_of_moves. rewrite Hw. clear Hw. destruct (Hinv id) as [H1 _ _ H4 _].
  destruct (host w) as [|[|i rest]|i rest|i rest|i rest|i r rest|i rc rest|i rest]; simpl in Hs, H4; repeat case_match;
    simplify_eq/=; auto.
  - at_id id i; naive_solver.
  - unfold claim_file in *. destruct (requests (fs w) !! i) as [r|] eqn:Hr; simplify_eq/=.
    destruct (decide (id = i)) as [->|]; [|rewrite lookup_insert_ne, lookup_delete_ne by done; auto].
    rewrite lookup_insert_eq, Hr. destruct (claims (fs w) !! i); naive_solver.
  - at_id id i; naive_solver.
  - at_id id i; naive_solver.
Qed.

Lemma ask_step_state id a p t f w :
  inv w → active w = Some (a, p) → ask_step a p (fs w) = (t, f) →
  ∀ w', fs w' = f → state_of id w' = state_of id w ∨ progress (state_of id w) (state_of id w').
Proof.
  intros [_ Hinv] Ha Ht w' Hw. apply state_of_moves. rewrite Hw. clear Hw. destruct (Hinv id) as [_ _ _ _ H5]. rewrite Ha in H5.
  destruct p; simpl in Ht, H5; repeat case_match; simplify_eq/=; auto; at_id id (a_id a); naive_solver.
Qed.

(** C34: an action request only ever moves forward: in every reachable interleaving
    of the agent, its crashes and restarts, and the supervisor, its crashes and
    restarts, a step leaves a request where it is or takes it from unasked to
    offered, from offered back (withdrawn) or to taken, or from taken to
    finished; it is executed only while taken, and only if it was not executed
    before.  (The protocol's abstract machine, which the file operations of the
    two processes refine.) *)
Theorem requests_go_one_way id w l w' :
  reachable w → step l w w' →
  (state_of id w' = state_of id w ∨ progress (state_of id w) (state_of id w')) ∧
  (∀ action, executed w' = (id, action) :: executed w →
    state_of id w = Taken ∧ state_of id w' = Taken ∧ id ∉ (executed w).*1).
Proof.
  intros Hi%reachable_inv Hs. split.
  - destruct Hs; try (by left).
    + eapply ask_step_state; [done..|by destruct t].
    + apply state_of_moves. simpl. at_id id id0; auto 10.
    + by eapply host_step_state.
  - intros action He. destruct (proj2 Hi id) as [_ _ _ H4 _].
    destruct Hs; simpl in He; try (by apply (f_equal length) in He; simpl in He; lia).
    + destruct t; simpl in He; by apply (f_equal length) in He; simpl in He; lia.
    + destruct (host w) as [|[|i rest]|i rest|i rest|i rest|i r rest|i rc rest|i rest]; simpl in H, H4; repeat case_match;
        simplify_eq/=; try (by apply (f_equal length) in He; simpl in He; lia).
      destruct (H4 eq_refl) as (Hr&Hc&Hn). unfold state_of. simpl. rewrite Hr.
      rewrite bool_decide_eq_false_2 by (by intros [? ?]). by rewrite bool_decide_eq_true_2.
Qed.

(** ** What an answer means *)

Definition asked (w : world) (a : ask) : Prop := a ∈ sleepers w ∨ fst <$> active w = Some a.

Record answers (w : world) : Prop := {
  ans_actions : ∀ a, asked w a → a_action a ∈ ACTIONS;
  ans_ended : ∀ a rc, (a, Answered rc) ∈ ended w →
    a_action a ∈ ACTIONS ∧ checked rc a = Answered rc ∧ receipts (fs w) !! a_id a = Some rc
}.

(** A receipt, once there, is there for good. *)
Lemma receipts_stay id w l w' rc :
  inv w → step l w w' → receipts (fs w) !! id = Some rc → receipts (fs w') !! id = Some rc.
Proof.
  intros [_ Hinv] Hs Hr. destruct (Hinv id) as [_ _ _ H4 _]. destruct Hs; try done.
  - destruct p; simpl in H0; repeat case_match; simplify_eq/=; done.
  - destruct (host w) as [|[|i rest]|i rest|i rest|i rest|i r rest|i rc' rest|i rest]; simpl in H, H4; repeat case_match;
      simplify_eq/=; try done.
    + unfold claim_file in *. by destruct (requests (fs w) !! i); simplify_eq/=.
    + rewrite lookup_insert_ne; [done|]. intros ->. destruct (H4 eq_refl) as [? _]. congruence.
Qed.

Lemma ask_answered a p t f fl rc :
  ask_step a p fl = (t, f) → t = Done (Answered rc) → checked rc a = Answered rc ∧ receipts f !! a_id a = Some rc.
Proof.
  assert (Hc : ∀ r, checked r a = Answered rc → r = rc) by (intros r; unfold checked; case_match; congruence).
  intros Ht ->. destruct p; simpl in Ht; repeat case_match; simplify_eq/=; try done;
    match goal with H : checked _ _ = _ |- _ => pose proof (Hc _ H) as ->; auto end.
Qed.

Lemma step_answers l w w' : step l w w' → inv w → answers w → answers w'.
Proof.
  intros Hs Hi [Ha He]. pose proof (λ id rc, receipts_stay id w l w' rc Hi Hs) as Hst.
  assert (Hold : ∀ a rc, (a, Answered rc) ∈ ended w → a_action a ∈ ACTIONS ∧ checked rc a = Answered rc ∧
    receipts (fs w') !! a_id a = Some rc) by (intros a rc Hin; destruct (He _ _ Hin) as (?&?&?); auto).
  unfold asked in Ha. destruct Hs; constructor; try exact Hold; try exact Ha; unfold asked in *; simpl in *.
  - intros b [Hb|[= <-]]; auto.
  - intros b [Hb|[= <-]]; apply Ha; left; rewrite H; set_solver.
  - intros b Hb. apply Ha. rewrite H. destruct t; simpl in *; set_solver.
  - destruct t as [?| |o]; try exact Hold. intros b rc [[= <- <-]|Hin]%elem_of_cons; [|by apply Hold].
    split; [apply Ha; right; by rewrite H|]. by eapply ask_answered.
  - intros b Hb. apply Ha. set_solver.
  - intros b rc [[=]|Hin]%elem_of_cons. by apply Hold.
  - intros b Hb. apply Ha. set_solver.
  - intros b rc [[=]|Hin]%elem_of_cons. by apply Hold.
  - intros b [Hb|[= <-]]; apply Ha; [by left|right; by rewrite H].
  - intros b Hb. apply Ha. set_solver.
  - intros b [Hb|Hb]; [by apply elem_of_nil in Hb|done].
Qed.

Lemma reachable_answers w : reachable w → answers w.
Proof.
  intros H. enough (inv w ∧ answers w) by naive_solver. revert H. apply (rtc_ind_r (λ w, inv w ∧ answers w) initial).
  - split; [by apply reachable_inv, rtc_refl|]. constructor; unfold asked; simpl.
    + intros a [Ha|Ha]; [by apply elem_of_nil in Ha|done].
    + by intros a rc Ha%elem_of_nil.
  - intros w1 w2 _ [l Hs] [Hi Ha]. split; [by eapply step_inv|by eapply step_answers].
Qed.

(** An answered action ran exactly once: whenever a call of the agent has been
    answered with a receipt, that receipt is the request's receipt on disk, names
    this request and this action, and the supervisor executed this action under
    this request exactly once - a rejected request never comes back as an
    answer. *)
Theorem answered_ran_once w a rc :
  reachable w → (a, Answered rc) ∈ ended w →
  receipt_of (a_id a) (fs w) = Some rc ∧ rc_request_id rc = a_id a ∧ rc_action rc = a_action a ∧
  (a_id a, a_action a) ∈ executed w ∧ NoDup (executed w).*1.
Proof.
  intros Hr Hin. destruct (reachable_inv w Hr) as [Hnd Hinv].
  destruct (ans_ended w (reachable_answers w Hr) a rc Hin) as (Hact&Hc&Hrc).
  destruct (inv_receipt _ _ (Hinv (a_id a)) rc Hrc) as [Hid Hex]. unfold receipt_of. split_and!; try done.
  all: unfold checked in Hc; case_bool_decide as Hids; case_bool_decide as Hacts; simplify_eq/=; try done.
  destruct Hex as [He|He]; [|congruence]. rewrite <- Hacts, He in Hact. by apply (bool_decide_eq_true_2 _) in Hact.
Qed.

(** ** Withdrawal *)

(** A step that is not a new call for this request. *)
Definition step_without (id : string) (w w' : world) : Prop := ∃ l, step l w w' ∧ l ≠ Some id.

(** No caller is about to write the request. *)
Definition no_writer (id : string) (p : option (ask * at_)) : Prop :=
  match p with
  | Some (a, (See_receipt | See_request | See_claim | Write)) => a_id a ≠ id
  | _ => True
  end.

(** No file of the request is left, and none is about to be written. *)
Definition gone (id : string) (w : world) : Prop :=
  requests (fs w) !! id = None ∧ claims (fs w) !! id = None ∧ no_writer id (active w).

Lemma gone_stays id w w' :
  inv w → gone id w → step_without id w w' → gone id w' ∧ (id ∈ (executed w').*1 → id ∈ (executed w).*1).
Proof.
  intros [_ Hinv] (Hr&Hc&Ha) (l&Hs&Hl). destruct (Hinv id) as [_ _ _ H4 _]. unfold gone in *.
  destruct Hs; simpl in *; try (by auto).
  - split; [|done]. split_and!; [done..|congruence].
  - destruct H1 as [->| ->]; auto.
  - rewrite H in Ha. destruct p; simpl in H0; repeat case_match; simplify_eq/=; auto;
      match goal with |- context [a_id ?b] => at_id id (a_id b); try done; auto end.
  - at_id id id0; auto.
  - destruct (host w) as [|[|i rest]|i rest|i rest|i rest|i r rest|i rc rest|i rest]; simpl in H, H4; repeat case_match;
      simplify_eq/=; auto.
    + at_id id i; auto.
    + unfold claim_file in *. destruct (requests (fs w) !! i) as [r|] eqn:Hi; simplify_eq/=.
      destruct (decide (id = i)) as [->|]; [congruence|]. rewrite lookup_insert_ne, lookup_delete_ne by done. auto.
    + split; [done|]. intros [->|?]%elem_of_cons; [|done]. destruct (H4 eq_refl) as (_&[? ?]&_). congruence.
    + at_id id i; auto.
Qed.

(** A withdrawn request never runs: once a call has found its request withdrawn,
    or has withdrawn it itself, or [withdraw] has removed it, then whatever the
    two processes do after that - crashes, restarts, other calls - the supervisor
    never executes the request, unless a new call asks for it again. *)
Theorem withdrawn_never_runs w id w1 w2 :
  reachable w →
  (∃ a p f o, a_id a = id ∧ active w = Some (a, p) ∧ ask_step a p (fs w) = (Done o, f) ∧
     (o = Withdrawn ∨ o = Withdrawn_by_another) ∧ w1 = take_turn a (Done o) f w) ∨
  (active w = None ∧ (withdraw id (fs w)).1 = true ∧
     w1 = mk_world (withdraw id (fs w)).2 (host w) (sleepers w) None (executed w) (ended w)) →
  rtc (step_without id) w1 w2 →
  id ∈ (executed w2).*1 → id ∈ (executed w).*1.
Proof.
  intros Hi%reachable_inv Hw Hrun.
  assert (H1 : gone id w1 ∧ inv w1 ∧ executed w1 = executed w).
  { destruct Hw as [(a&p&f&o&<-&Ha&Ht&Ho&->)|(Ha&Hw&->)]; (split; [|split; [|done]]).
    - pose proof (inv_agent _ _ (proj2 Hi (a_id a))) as Hag. pose proof (inv_one_file _ _ (proj2 Hi (a_id a))) as Hone.
      rewrite Ha in Hag. unfold gone. simpl. destruct p; simpl in Ht, Hag; repeat case_match; simplify_eq/=;
        try (by destruct Ho); try (unfold checked in *; destruct Ho; case_match; congruence).
      + by destruct (Hag eq_refl).
      + rewrite lookup_delete_eq. split_and!; [done| |done]. apply eq_None_not_Some. intros Hs. specialize (Hone Hs). congruence.
    - by eapply ask_step_inv.
    - unfold gone. simpl in *. apply bool_decide_eq_true in Hw. rewrite lookup_delete_eq. split_and!; [done| |done].
      apply eq_None_not_Some. intros Hs. rewrite (inv_one_file _ _ (proj2 Hi id) Hs) in Hw. by destruct Hw.
    - eapply step_inv; [by apply (withdraws id)|done]. }
  destruct H1 as (Hg&Hi1&<-). clear Hw Hi. induction Hrun as [|w1 w2 w3 Hs Hrun IH]; [done|].
  destruct (gone_stays id w1 w2 Hi1 Hg Hs) as [Hg2 Hex]. destruct Hs as (l&Hs&_). intros Hin.
  apply Hex, IH; [done| |done]. by eapply step_inv.
Qed.


(** ** Runs *)

Definition restart_ask : ask := mk_ask "0123" "restart" "maintenance".
Definition asked_world (p : at_) (f : files) : world := mk_world f Idle [] (Some (restart_ask, p)) [] [].
Definition offered_files : files := mk_files {["0123" := document restart_ask]} ∅ ∅.
Definition offered_world : world := asked_world Poll offered_files.

(** One step, by the constructor given. *)
Ltac go c := eapply rtc_l; [eexists; eapply c; cbn; eauto; vm_compute; reflexivity|cbn].

Lemma reachable_steps w w' : reachable w → rtc any_step w w' → reachable w'.
Proof. unfold reachable. intros H H'. by transitivity w. Qed.

Lemma offered_reachable : reachable offered_world.
Proof.
  unfold reachable. eapply rtc_l.
  { exists (Some "0123"). apply (calls restart_ask); [done|]. by apply (bool_decide_eq_true_1 _). }
  go proceeds. go proceeds. go proceeds. go proceeds. apply rtc_refl.
Qed.

(** The supervisor has taken the restart; the caller sleeps. *)
Definition taken_files : files := mk_files ∅ {["0123" := document restart_ask]} ∅.
Definition taken_world : world := mk_world taken_files (Execute "0123" (document restart_ask) []) [restart_ask] None [] [].

Lemma taken_reachable : reachable taken_world.
Proof.
  apply (reachable_steps _ _ offered_reachable). unfold offered_world, asked_world. go proceeds. go proceeds.
  eapply rtc_l.
  { eexists. apply (cycle ["0123"]); [done|repeat constructor; set_solver|]. intros id ->%list_elem_of_singleton. by eexists. }
  cbn. eapply rtc_l; [eexists; eapply (host_steps ""); vm_compute; reflexivity|cbn].
  eapply rtc_l; [eexists; eapply (host_steps ""); vm_compute; reflexivity|cbn].
  eapply rtc_l; [eexists; eapply (host_steps ""); vm_compute; reflexivity|cbn]. apply rtc_refl.
Qed.

(** It is executed, the receipt published, and the caller answered. *)
Definition ran_world : world :=
  mk_world taken_files (Publish "0123" (mk_receipt "0123" "restart" "ok") []) [restart_ask] None [("0123", "restart")] [].
Definition answered_world : world :=
  mk_world (mk_files ∅ (claims taken_files) {["0123" := mk_receipt "0123" "restart" "ok"]}) (Clear "0123" []) [] None
    [("0123", "restart")] [(restart_ask, Answered (mk_receipt "0123" "restart" "ok"))].

Lemma runs_ok : step None taken_world ran_world.
Proof. exact (host_steps "ok" taken_world _ _ _ eq_refl). Qed.

Lemma answered_reachable : reachable answered_world.
Proof.
  apply (reachable_steps _ _ taken_reachable). eapply rtc_l; [eexists; exact runs_ok|]. unfold ran_world.
  eapply rtc_l; [eexists; eapply (host_steps ""); vm_compute; reflexivity|cbn].
  eapply rtc_l; [eexists; apply (wakes restart_ask [] [] _ Poll); [done..|by left]|cbn].
  go proceeds. apply rtc_refl.
Qed.

Theorem requests_go_one_way_witness :
  reachable taken_world ∧ step None taken_world ran_world ∧
  state_of "0123" taken_world = Taken ∧ state_of "0123" ran_world = Taken ∧ "0123" ∉ (executed taken_world).*1.
Proof.
  split; [exact taken_reachable|]. split; [exact runs_ok|].
  apply (proj2 (requests_go_one_way "0123" taken_world None ran_world taken_reachable runs_ok) "restart"). reflexivity.
Defined.

Theorem answered_ran_once_witness :
  reachable answered_world ∧ (restart_ask, Answered (mk_receipt "0123" "restart" "ok")) ∈ ended answered_world ∧
  ("0123", "restart") ∈ executed answered_world ∧ NoDup (executed answered_world).*1.
Proof.
  assert (Hin : (restart_ask, Answered (mk_receipt "0123" "restart" "ok")) ∈ ended answered_world) by (by left).
  split; [exact answered_reachable|]. split; [exact Hin|].
  apply (answered_ran_once answered_world restart_ask _ answered_reachable Hin).
Defined.

(** The deadline comes before the supervisor. *)
Definition late_world : world := asked_world Deadline offered_files.
Definition withdrawn_world : world := take_turn restart_ask (Done Withdrawn) (mk_files ∅ ∅ ∅) late_world.

Lemma late_reachable : reachable late_world.
Proof.
  apply (reachable_steps _ _ offered_reachable). eapply rtc_l; [eexists; by apply (times_out restart_ask)|].
  apply rtc_refl.
Qed.

Theorem withdrawn_never_runs_witness :
  reachable late_world ∧ rtc (step_without "0123") withdrawn_world (mk_world (mk_files ∅ ∅ ∅) (Next []) [] None [] [(restart_ask, Withdrawn)]) ∧
  ("0123" ∈ (executed withdrawn_world).*1 → "0123" ∈ (executed late_world).*1).
Proof.
  assert (Hrun : rtc (step_without "0123") withdrawn_world (mk_world (mk_files ∅ ∅ ∅) (Next []) [] None [] [(restart_ask, Withdrawn)])).
  { eapply rtc_l; [|apply rtc_refl]. exists None. split; [|done]. apply (cycle []); [done|constructor|].
    intros id Hid. by apply elem_of_nil in Hid. }
  split; [exact late_reachable|]. split; [exact Hrun|].
  intros Hin. refine (withdrawn_never_runs late_world "0123" withdrawn_world _ late_reachable _ Hrun Hin).
  left. exists restart_ask, Deadline, (mk_files ∅ ∅ ∅), Withdrawn. split_and!; try done; by left.
Defined.

(** A deadline whose unlink fails is answered as a withdrawal, and the request
    runs all the same. *)
Theorem unremoved_request_runs :
  ∃ w w', reachable w ∧ (restart_ask, Withdrawn) ∈ ended w ∧ rtc (step_without "0123") w w' ∧
    ("0123", "restart") ∈ executed w'.
Proof.
  eexists (take_turn restart_ask (Done Withdrawn) offered_files late_world), _. split_and!.
  - eapply rtc_r; [exact late_reachable|]. eexists. by apply (cannot_unlink restart_ask).
  - by left.
  - eapply rtc_l.
    { exists None. split; [|done]. apply (cycle ["0123"]); [done|repeat constructor; set_solver|].
      intros id ->%list_elem_of_singleton. by eexists. }
    cbn. do 4 (eapply rtc_l; [exists None; split; [|done]; eapply (host_steps "ok"); vm_compute; reflexivity|cbn]). apply rtc_refl.
  - by left.
Qed.
