(* ===== verification/HostRuntime.v ===== *)
(** Stopping, starting and restarting the runtime on its host
    ([scripts/host/runtime_supervisor.py], from [Proc] to [execute]).

    What the supervisor does once a request is taken (see [Supervisor] for how
    one is taken).  A function is a program (see [Programs]) over [ps], [launchctl],
    [os.kill], [time.sleep] and the clocks, each of which may answer anything; its
    object is the receipt being filled in, with [start]'s local [daemon].  [ps]
    answers with its exit code and the rows [parse_ps] reads off its output; an
    error is the exception's kind and not the text it prints. *)

From S2P Require Export Programs Json.

(** * The host *)

Record Proc := mk_proc { pid : Z; ppid : Z; uid : Z; started : string; command : string }.

(** [Proc.identity]: a PID names a process only together with its birth. *)
Definition identity (p : Proc) : Z * string := (pid p, started p).

(** Seconds are milliseconds here. *)
Record Config := mk_config {
  label : string; plist : string; config_uid : Z; config_processes : list string;
  unload_timeout : Z; exit_timeout : Z; signal_timeout : Z; start_timeout : Z; poll : Z
}.

Definition is_slash (c : Ascii.ascii) : bool := (ascii_code c =? 47)%Z.

Fixpoint has_slash (s : string) : bool :=
  match s with
  | EmptyString => false
  | String c s => is_slash c || has_slash s
  end.

(** [os.path.basename] *)
Fixpoint basename (s : string) : string :=
  match s with
  | EmptyString => EmptyString
  | String c rest => if has_slash rest then basename rest else if is_slash c then rest else s
  end.

Inductive supervisor_error : Type :=
  | Ps_failed (code : Z)
  | Still_loaded
  | Survived (pids : list Z)
  | Loaded_again
  | Bootstrap_failed (code : Z)
  | No_daemon
  | Not_a_new_daemon (pid : Z).

(** [Out_of_fuel] is the model's: a loop was not given enough. *)
Inductive exn : Type :=
  | SupervisorError (e : supervisor_error)
  | Exception (type_name : string)
  | Out_of_fuel.

Inductive kill_answer : Type := Killed | ProcessLookupError | OSError.

Inductive call : Type → Type :=
  | Ps : call (Z * list Proc)
  | Launchctl_print : call (Z * option Z)
  | Bootout : call (Z * string)
  | Bootstrap : call (Z * string)
  | Kill (pid signum : Z) : call kill_answer
  | Sleep (d : Z) : call unit
  | Clock : call Z
  | Time : call Z.

Inductive event : Type :=
  | ps_was (code : Z) (rows : list Proc)
  | print_was (code : Z) (pid : option Z)
  | bootout_was (r : Z * string)
  | bootstrap_was (r : Z * string)
  | kill_was (pid signum : Z) (r : kill_answer)
  | slept (d : Z)
  | clock_was (t : Z)
  | time_was (t : Z).

Definition log R (q : call R) : R → event :=
  match q with
  | Ps => λ r, ps_was r.1 r.2
  | Launchctl_print => λ r, print_was r.1 r.2
  | Bootout => bootout_was
  | Bootstrap => bootstrap_was
  | Kill p s => kill_was p s
  | Sleep d => λ _, slept d
  | Clock => clock_was
  | Time => time_was
  end.

(** * The receipt *)

Record Step := mk_step { at_time : Z; step_name : string; detail : list (string * json) }.

Record Receipt := mk_receipt {
  action : string;
  result : string;
  error : option exn;
  job_before : option (bool * option Z);
  job_after : option (bool * option Z);
  before : list Proc;
  after : list Proc;
  steps : list Step;
  finished_at : option Z;
  daemon : list Proc
}.

(** A request's receipt as [cycle] hands it to [execute]. *)
Definition new_receipt (a : string) : Receipt := mk_receipt a "failed" None None None [] [] [] None [].

Definition set_result v r := mk_receipt (action r) v (error r) (job_before r) (job_after r) (before r) (after r) (steps r) (finished_at r) (daemon r).
Definition set_error v r := mk_receipt (action r) (result r) v (job_before r) (job_after r) (before r) (after r) (steps r) (finished_at r) (daemon r).
Definition set_job_before v r := mk_receipt (action r) (result r) (error r) v (job_after r) (before r) (after r) (steps r) (finished_at r) (daemon r).
Definition set_job_after v r := mk_receipt (action r) (result r) (error r) (job_before r) v (before r) (after r) (steps r) (finished_at r) (daemon r).
Definition set_before v r := mk_receipt (action r) (result r) (error r) (job_before r) (job_after r) v (after r) (steps r) (finished_at r) (daemon r).
Definition set_after v r := mk_receipt (action r) (result r) (error r) (job_before r) (job_after r) (before r) v (steps r) (finished_at r) (daemon r).
Definition add_step v r := mk_receipt (action r) (result r) (error r) (job_before r) (job_after r) (before r) (after r) (steps r ++ [v]) (finished_at r) (daemon r).
Definition set_finished v r := mk_receipt (action r) (result r) (error r) (job_before r) (job_after r) (before r) (after r) (steps r) v (daemon r).
Definition set_daemon v r := mk_receipt (action r) (result r) (error r) (job_before r) (job_after r) (before r) (after r) (steps r) (finished_at r) v.

Abbreviation method := (prog call exn Receipt).

Definition SIGTERM : Z := 15.
Definition SIGKILL : Z := 9.

Section Host.
Context (config : Config) (fuel : nat).

(** The runtime's processes: the configured account and process names. *)
Definition of_the_runtime (p : Proc) : bool :=
  (uid p =? config_uid config)%Z && bool_decide (basename (command p) ∈ config_processes config).

(** [Host.processes] *)
Definition processes : method (list Proc) :=
  let! r := ask Ps in
  if (r.1 =? 0)%Z then Pure (List.filter of_the_runtime r.2) else Throw (SupervisorError (Ps_failed r.1)).

(** [Host.job] *)
Definition job : method (bool * option Z) :=
  let! r := ask Launchctl_print in
  Pure (if (r.1 =? 0)%Z then (true, r.2) else (false, None)).

Definition has_identity (ids : list (Z * string)) (p : Proc) : bool := bool_decide (identity p ∈ ids).

(** [Host.signal] *)
Definition signal (target : Proc) (signum : Z) : method bool :=
  let! ps := processes in
  if negb (has_identity (identity <$> ps) target) then Pure false
  else
    let! r := ask (Kill (pid target) signum) in
    match r with
    | Killed => Pure true
    | ProcessLookupError => Pure false
    | OSError => Throw (Exception "OSError")
    end.

(** [Receipt.step] *)
Definition step (name : string) (d : list (string * json)) : method unit :=
  let! t := ask Time in update_self (add_step (mk_step t name d)).

(** [_alive] *)
Definition alive (wanted : list (Z * string)) : method (list Proc) :=
  let! ps := processes in Pure (List.filter (has_identity wanted) ps).

(** [_wait] *)
Fixpoint wait_loop (n : nat) (deadline : Z) (is_done : method bool) : method bool :=
  match n with
  | 0 => Throw Out_of_fuel
  | S n =>
      let! d := is_done in
      if d : bool then Pure true
      else
        let! t := ask Clock in
        if (deadline <=? t)%Z then Pure false
        else let! _ := ask (Sleep (poll config)) in wait_loop n deadline is_done
  end.

Definition wait (timeout : Z) (is_done : method bool) : method bool :=
  let! t := ask Clock in wait_loop fuel (t + timeout)%Z is_done.

Definition unloaded : method bool := let! j := job in Pure (negb j.1).
Definition exited (wanted : list (Z * string)) : method bool :=
  let! ps := alive wanted in Pure (bool_decide (ps = [])).

(** [[p.pid for p in remaining if host.signal(p, signum)]] *)
Fixpoint signal_all (remaining : list Proc) (signum : Z) : method (list Z) :=
  match remaining with
  | [] => Pure []
  | p :: rest =>
      let! sent := signal p signum in
      let! pids := signal_all rest signum in
      Pure (if sent : bool then pid p :: pids else pids)
  end.

(** One turn of the loop over the signals, which breaks when none is left. *)
Definition insist (wanted : list (Z * string)) (_ : unit) (s : Z * string) : method (unit + unit) :=
  let! remaining := alive wanted in
  match remaining with
  | [] => Pure (inl tt)
  | _ =>
      let! sent := signal_all remaining s.1 in
      let! _ := step s.2 [("pids", JArr (JInt <$> sent))] in
      let! _ := wait (signal_timeout config) (exited wanted) in
      Pure (inr tt)
  end.

(** [stop], from the bootout's answer on *)
Definition after_bootout (wanted : list (Z * string)) (r : Z * string) : method unit :=
  let! _ := step "bootout" [("code", JInt r.1); ("output", JStr (String.substring 0 500 (py_strip r.2)))] in
  let! off := wait (unload_timeout config) unloaded in
  if negb off then Throw (SupervisorError Still_loaded)
  else
    let! _ := step "unloaded" [] in
    let! gone := wait (exit_timeout config) (exited wanted) in
    let! _ := (if gone : bool then Pure (inr tt)
               else for_each (insist wanted) tt [(SIGTERM, "SIGTERM"); (SIGKILL, "SIGKILL")]) in
    let! survivors := processes in
    match survivors with
    | _ :: _ =>
        let! _ := update_self (set_after survivors) in
        Throw (SupervisorError (Survived (pid <$> survivors)))
    | [] =>
        let! j := job in
        if j.1 : bool then Throw (SupervisorError Loaded_again) else step "stopped" []
    end.

Definition stop : method unit :=
  let! procs := processes in
  let! r := ask Bootout in
  after_bootout (identity <$> procs) r.

(** [running], which leaves what it found in [daemon] *)
Definition running : method bool :=
  let! j := job in
  let! ps := processes in
  let found := List.filter (λ p, bool_decide (Some (pid p) = j.2)) ps in
  let! _ := update_self (set_daemon found) in
  Pure (negb (bool_decide (found = []))).

Definition start (not_one_of : list (Z * string)) : method unit :=
  let! j := job in
  let! _ := (if negb j.1 then
               let! r := ask Bootstrap in
               let! _ := step "bootstrap" [("code", JInt r.1); ("output", JStr (String.substring 0 500 (py_strip r.2)))] in
               if (r.1 =? 0)%Z then Pure tt else Throw (SupervisorError (Bootstrap_failed r.1))
             else step "already_loaded" [("pid", jopt_int j.2)]) in
  let! _ := update_self (set_daemon []) in
  let! up := wait (start_timeout config) running in
  if negb up then Throw (SupervisorError No_daemon)
  else
    let! self := get_self in
    match daemon self with
    | [] => Throw (Exception "IndexError")
    | d :: _ =>
        if has_identity not_one_of d then Throw (SupervisorError (Not_a_new_daemon (pid d)))
        else step "started" [("pid", JInt (pid d)); ("started", JStr (started d))]
    end.

(** The body of [execute]'s [try] *)
Definition perform : method unit :=
  let! j := job in
  let! _ := update_self (set_job_before (Some j)) in
  let! procs := processes in
  let! _ := update_self (set_before procs) in
  let! self := get_self in
  let! _ := (if bool_decide (action self ∈ ["stop"; "restart"]) then stop else Pure tt) in
  let! _ := (if bool_decide (action self ∈ ["start"; "restart"])
             then start (if bool_decide (action self = "restart") then identity <$> procs else [])
             else Pure tt) in
  let! procs := processes in
  let! _ := update_self (set_after procs) in
  let! j := job in
  let! _ := update_self (set_job_after (Some j)) in
  update_self (set_result "ok").

Definition execute : method unit :=
  finally
    (catch perform (λ e, match e with
                         | Out_of_fuel => Throw Out_of_fuel
                         | e => update_self (set_error (Some e))
                         end))
    (let! t := ask Time in update_self (set_finished (Some t))).

(** * Who is signalled *)

(** A runtime process of the scan [stop] began with, right before the bootout. *)
Definition targeted (i : Z * string) (tr : list event) : Prop :=
  ∃ l1 rows r l2 p, tr = l1 ++ ps_was 0 rows :: bootout_was r :: l2 ∧
    p ∈ rows ∧ of_the_runtime p = true ∧ identity p = i.

(** The event just before shows the PID with the same birth as in that scan. *)
Definition verified (pid_ : Z) (tr : list event) : Prop :=
  ∃ l rows p, tr = l ++ [ps_was 0 rows] ∧ p ∈ rows ∧ of_the_runtime p = true ∧ pid p = pid_ ∧ targeted (identity p) l.

Definition kills_verified (tr : list event) : Prop :=
  ∀ l1 p sig r l2, tr = l1 ++ kill_was p sig r :: l2 → verified p l1.

Lemma targeted_extends i tr tr' : targeted i tr → tr `prefix_of` tr' → targeted i tr'.
Proof.
  intros (l1&rows&r&l2&p&->&Hp) [l ->]. exists l1, rows, r, (l2 ++ l), p. by rewrite <- app_assoc.
Qed.

Lemma kills_snoc e tr :
  kills_verified tr → (∀ p sig r, e = kill_was p sig r → verified p tr) → kills_verified (tr ++ [e]).
Proof.
  intros Hk He l1 p sig r l2 Heq. destruct l2 as [|e' l2 _] using rev_ind.
  - apply app_inj_tail in Heq as [-> ->]. by eapply He.
  - rewrite app_comm_cons, app_assoc in Heq. apply app_inj_tail in Heq as [-> _]. by eapply Hk.
Qed.

Lemma kills_quiet tr evs :
  kills_verified tr → Forall (λ e, ∀ p sig r, e ≠ kill_was p sig r) evs → kills_verified (tr ++ evs).
Proof.
  intros Hk Hq. induction evs as [|e evs IH] using rev_ind; [by rewrite app_nil_r|].
  rewrite app_assoc. apply Forall_app in Hq as [Hq He]. apply kills_snoc; [by apply IH|].
  intros p sig r ->. apply Forall_cons in He as [He _]. by destruct (He p sig r).
Qed.

(** No call but [os.kill]. *)
Definition quiet R (q : call R) : Prop := match q with Kill _ _ => False | _ => True end.

Context (may : list event → ∀ R, call R → R → Prop).
Abbreviation wp p := (wp log may p).

(** [p] signals nobody unverified, after a stop that targeted [wanted]. *)
Definition careful (wanted : list (Z * string)) {A} (p : method A) : Prop :=
  ∀ s tr, Forall (λ i, targeted i tr) wanted → kills_verified tr →
    wp p (λ _ _ tr', kills_verified tr' ∧ tr `prefix_of` tr') s tr.

Lemma careful_quiet w {A} (p : method A) : only quiet p → careful w p.
Proof.
  intros Hp s tr _ Hk. eapply wp_mono; [|by apply (wp_only log may quiet)].
  intros o s' tr' (evs&->&Hevs). split; [|by exists evs]. apply kills_quiet; [done|].
  eapply Forall_impl; [exact Hevs|]. intros e (R&q&r&Hq&->) p0 sig r0. by destruct q.
Qed.

Lemma careful_bind w {A B} (p : method A) (f : A → method B) :
  careful w p → (∀ a, careful w (f a)) → careful w (let! x := p in f x).
Proof.
  intros Hp Hf s tr Hw Hk. apply wp_bind. eapply wp_mono; [|by apply Hp].
  intros [e|a] s' tr' [Hk' Hpre]; [done|]. eapply wp_mono; [|apply Hf; [|done]].
  - intros o s2 tr2 [? ?]. split; [done|by etransitivity].
  - eapply Forall_impl; [exact Hw|]. intros i Hi. by apply (targeted_extends i tr).
Qed.

Lemma careful_for_each w {A B P} (body : P → A → method (B + P)) l acc :
  (∀ acc x, careful w (body acc x)) → careful w (for_each body acc l).
Proof.
  intros Hb. revert acc. induction l as [|x l IH]; intros acc; simpl; [by apply careful_quiet|].
  apply careful_bind; [done|]. intros [?|?]; [by apply careful_quiet|done].
Qed.
(** The whole of [only] for the programs that do not signal. *)
Lemma quiet_processes : only quiet processes.
Proof. split; [done|]. intros r. cbn. by case_match. Qed.
Lemma quiet_job : only quiet job.
Proof. by split. Qed.
Lemma quiet_step n d : only quiet (step n d).
Proof. by split. Qed.
Lemma quiet_alive w : only quiet (alive w).
Proof. apply only_then; [apply quiet_processes|done]. Qed.
Lemma quiet_unloaded : only quiet unloaded.
Proof. apply only_then; [apply quiet_job|done]. Qed.
Lemma quiet_exited w : only quiet (exited w).
Proof. apply only_then; [apply quiet_alive|done]. Qed.
Lemma quiet_running : only quiet running.
Proof. apply only_then; [apply quiet_job|]. intros j. apply only_then; [apply quiet_processes|done]. Qed.

Lemma quiet_wait timeout p : only quiet p → only quiet (wait timeout p).
Proof.
  intros Hp. split; [done|]. intros t. change (only quiet (wait_loop fuel (t + timeout) p)).
  induction fuel as [|n IH]; simpl; [done|]. apply only_then; [done|]. intros [|]; [done|].
  split; [done|]. intros t'. cbn. by case_match.
Qed.

Lemma quiet_start ids : only quiet (start ids).
Proof.
  apply only_then; [apply quiet_job|]. intros j. apply only_then.
  - destruct (negb j.1); [|apply quiet_step]. split; [done|]. intros r.
    apply (only_then _ (step _ _)); [apply quiet_step|]. intros _. by case_match.
  - intros _. apply only_then; [done|]. intros _. apply only_then; [apply quiet_wait, quiet_running|].
    intros up. case_match; [done|]. cbn. intros s'. case_match; [done|]. case_match; [done|]. apply quiet_step.
Qed.

Lemma careful_signal w p sig : identity p ∈ w → careful w (signal p sig).
Proof.
  intros Hw s tr Hall Hk. rewrite Forall_forall in Hall. specialize (Hall _ Hw).
  unfold signal, processes. walk_calls. intros [code rows] _. walk_calls. cbn [fst snd log].
  assert (Hk1 : kills_verified (tr ++ [ps_was code rows])) by by apply kills_snoc.
  assert (Hpre : tr `prefix_of` tr ++ [ps_was code rows]) by by apply prefix_app_r.
  destruct (Z.eqb_spec code 0) as [->|]; walk_calls; [|done].
  destruct (has_identity _ p) eqn:Hid; walk_calls; [|done]. intros r _.
  assert (Hv : verified (pid p) (tr ++ [ps_was 0 rows])).
  { apply bool_decide_eq_true, list_elem_of_fmap in Hid as (q&Hq&[Hrt Hin]%elem_of_List_filter).
    exists tr, rows, q. rewrite <- Hq. split_and!; try done. unfold identity in Hq. congruence. }
  assert (Hk2 : kills_verified ((tr ++ [ps_was 0 rows]) ++ [kill_was (pid p) sig r])).
  { apply kills_snoc; [done|]. by intros p' sig' r' [= <- <- <-]. }
  assert (Hpre2 : tr `prefix_of` (tr ++ [ps_was 0 rows]) ++ [kill_was (pid p) sig r]).
  { etransitivity; [exact Hpre|]. by apply prefix_app_r. }
  by destruct r; walk_calls.
Qed.

Lemma careful_signal_all w ps sig : Forall (λ p, identity p ∈ w) ps → careful w (signal_all ps sig).
Proof.
  induction 1 as [|p ps Hp Hps IH]; simpl; [by apply careful_quiet|].
  apply careful_bind; [by apply careful_signal|]. intros sent. apply careful_bind; [done|].
  intros pids. by apply careful_quiet.
Qed.

Lemma alive_wanted w s tr :
  wp (alive w) (λ o _ _, match o with inr ps => Forall (λ p, identity p ∈ w) ps | inl _ => True end) s tr.
Proof.
  unfold alive, processes. walk_calls. intros [code rows] _. walk_calls. cbn [fst snd].
  destruct (code =? 0)%Z; walk_calls; [|done]. apply Forall_forall. intros p [Hid _]%elem_of_List_filter.
  by apply bool_decide_eq_true in Hid.
Qed.

Lemma careful_insist w u sg : careful w (insist w u sg).
Proof.
  intros s tr Hw Hk. apply wp_bind. eapply wp_mono; [|apply wp_and; [by apply (careful_quiet w _ (quiet_alive w))|apply alive_wanted]].
  intros [e|ps] s' tr' [[Hk' Hpre] Hps]; [done|]. destruct ps as [|p ps]; [done|].
  eapply wp_mono; [|apply (careful_bind w (signal_all (p :: ps) sg.1))].
  - intros o s2 tr2 [? ?]. split; [done|by etransitivity].
  - by apply careful_signal_all.
  - intros sent. apply careful_bind; [by apply careful_quiet, quiet_step|]. intros _.
    apply careful_bind; [by apply careful_quiet, quiet_wait, quiet_exited|]. intros _. by apply careful_quiet.
  - eapply Forall_impl; [exact Hw|]. intros i Hi. by apply (targeted_extends i tr).
  - done.
Qed.
Lemma careful_after_bootout w r : careful w (after_bootout w r).
Proof.
  apply careful_bind; [apply careful_quiet, quiet_step|]. intros _.
  apply careful_bind; [apply careful_quiet, quiet_wait, quiet_unloaded|]. intros off.
  destruct (negb off); [by apply careful_quiet|].
  apply careful_bind; [apply careful_quiet, quiet_step|]. intros _.
  apply careful_bind; [apply careful_quiet, quiet_wait, quiet_exited|]. intros gone. apply careful_bind.
  - destruct gone; [by apply careful_quiet|]. apply careful_for_each. apply careful_insist.
  - intros _. apply careful_bind; [apply careful_quiet, quiet_processes|]. intros [|p ps]; [|by apply careful_quiet].
    apply careful_bind; [apply careful_quiet, quiet_job|]. intros j.
    destruct j.1; [by apply careful_quiet|apply careful_quiet, quiet_step].
Qed.

Lemma careful_stop : careful [] stop.
Proof.
  intros s tr _ Hk. unfold stop, processes. walk_calls. intros [code rows] _. walk_calls. cbn [fst snd log].
  assert (Hk1 : kills_verified (tr ++ [ps_was code rows])) by by apply kills_snoc.
  destruct (Z.eqb_spec code 0) as [->|]; walk_calls; [|split; [done|by apply prefix_app_r]].
  intros r _. cbn [log]. set (w := identity <$> _).
  assert (Hpre : tr `prefix_of` (tr ++ [ps_was 0 rows]) ++ [bootout_was r]) by by rewrite <- app_assoc; apply prefix_app_r.
  assert (Hw : Forall (λ i, targeted i ((tr ++ [ps_was 0 rows]) ++ [bootout_was r])) w).
  { apply Forall_forall. intros i (p&->&[Hrt Hin]%elem_of_List_filter)%list_elem_of_fmap.
    exists tr, rows, r, [], p. by rewrite <- app_assoc. }
  eapply wp_mono; [|apply careful_after_bootout; [done|by apply kills_snoc]].
  intros o s' tr' [? ?]. split; [done|by etransitivity].
Qed.

Lemma careful_perform : careful [] perform.
Proof.
  apply careful_bind; [apply careful_quiet, quiet_job|]. intros j.
  apply careful_bind; [by apply careful_quiet|]. intros _.
  apply careful_bind; [apply careful_quiet, quiet_processes|]. intros procs.
  apply careful_bind; [by apply careful_quiet|]. intros _.
  apply careful_bind; [by apply careful_quiet|]. intros self.
  apply careful_bind; [case_bool_decide; [apply careful_stop|by apply careful_quiet]|]. intros _.
  apply careful_bind; [case_bool_decide; [apply careful_quiet, quiet_start|by apply careful_quiet]|]. intros _.
  apply careful_bind; [apply careful_quiet, quiet_processes|]. intros ps.
  apply careful_bind; [by apply careful_quiet|]. intros _.
  apply careful_bind; [apply careful_quiet, quiet_job|]. intros j'.
  apply careful_bind; [by apply careful_quiet|]. intros _. by apply careful_quiet.
Qed.

Lemma careful_attempt w {A} (p : method A) : careful w p → careful w (attempt p).
Proof. intros Hp s tr Hw Hk. by apply wp_attempt, Hp. Qed.

Lemma careful_execute : careful [] execute.
Proof.
  apply careful_bind.
  - apply careful_attempt, careful_bind; [by apply careful_attempt, careful_perform|].
    intros [[]|]; by apply careful_quiet.
  - intros o. apply careful_bind; [by apply careful_quiet|]. intros _. destruct o; by apply careful_quiet.
Qed.
(** * What a success shows *)

(** The rule of a sequence whose end alone matters. *)
Lemma wp_then_any {A B} (p : method A) (f : A → method B) Q s tr :
  (∀ e s' tr', tr `prefix_of` tr' → Q (inl e) s' tr') →
  (∀ a s' tr', tr `prefix_of` tr' → wp (f a) Q s' tr') → wp (let! x := p in f x) Q s tr.
Proof. intros He Ha. apply wp_bind. eapply wp_mono; [|apply wp_extends]. intros [e|a] s' tr' Hpre; auto. Qed.

(** The last scan of [stop] shows no runtime process, and then the job is not loaded. *)
Definition found_stopped (tr tr' : list event) : Prop :=
  ∃ l rows code p at_, tr' = l ++ [ps_was 0 rows; print_was code p; time_was at_] ∧ tr `prefix_of` l ∧
    List.filter of_the_runtime rows = [] ∧ code ≠ 0%Z.

Definition on_success {A} (P : A → list event → Prop) (o : exn + A) (_ : Receipt) (tr : list event) : Prop :=
  match o with inr a => P a tr | inl _ => True end.

Lemma after_bootout_stopped w r s tr : wp (after_bootout w r) (on_success (λ _, found_stopped tr)) s tr.
Proof.
  unfold after_bootout. apply wp_then_any; [done|]. intros _ s1 tr1 H1.
  apply wp_then_any; [done|]. intros off s2 tr2 H2. destruct (negb off); [done|].
  apply wp_then_any; [done|]. intros _ s3 tr3 H3. apply wp_then_any; [done|]. intros gone s4 tr4 H4.
  apply wp_then_any; [done|]. intros _ s5 tr5 H5. assert (Hpre : tr `prefix_of` tr5) by by repeat (etransitivity; [eassumption|]).
  unfold processes, job, step. walk_calls. intros [code rows] _. walk_calls. cbn [fst snd log].
  destruct (Z.eqb_spec code 0) as [->|]; walk_calls; [|done].
  destruct (List.filter of_the_runtime rows) as [|p ps] eqn:Hf; walk_calls; [|done].
  intros [code p] _. walk_calls. cbn [fst snd]. destruct (Z.eqb_spec code 0) as [|Hcode]; walk_calls; [done|].
  intros at_ _. cbn [log fst snd]. exists tr5, rows, code, p, at_. by rewrite <- !app_assoc.
Qed.

Lemma stop_stopped s tr : wp stop (on_success (λ _, found_stopped tr)) s tr.
Proof.
  unfold stop. apply wp_then_any; [done|]. intros procs s1 tr1 H1. apply wp_then_any; [done|]. intros r s2 tr2 H2.
  eapply wp_mono; [|apply after_bootout_stopped]. intros [e|[]] s' tr' H; [done|].
  destruct H as (l&rows&code&p&at_&->&Hl&H). exists l, rows, code, p, at_. split_and!; try done; [|apply H..].
  by repeat (etransitivity; [eassumption|]).
Qed.

(** The job has a PID, and the scan after that shows a runtime process of that PID
    that is not one of those excluded. *)
Definition found_started (ids : list (Z * string)) (tr tr' : list event) : Prop :=
  ∃ l pid_ rows at_ p, tr' = l ++ [print_was 0 (Some pid_); ps_was 0 rows; time_was at_] ∧ tr `prefix_of` l ∧
    p ∈ rows ∧ of_the_runtime p = true ∧ pid p = pid_ ∧ identity p ∉ ids.

(** What [running] leaves when it holds. *)
Definition found_daemon (tr : list event) (s : Receipt) (tr' : list event) : Prop :=
  ∃ l pid_ rows, tr' = l ++ [print_was 0 (Some pid_); ps_was 0 rows] ∧ tr `prefix_of` l ∧
    Forall (λ p, p ∈ rows ∧ of_the_runtime p = true ∧ pid p = pid_) (daemon s).

Lemma running_found s tr :
  wp running (λ o s' tr', match o with inr true => found_daemon tr s' tr' | _ => True end) s tr.
Proof.
  unfold running, job, processes. walk_calls. intros [code j] _. walk_calls. cbn [fst snd].
  intros [code' rows] _. walk_calls. cbn [fst snd]. destruct (Z.eqb_spec code' 0) as [->|]; walk_calls; [|done].
  cbn [log fst snd]. set (found := List.filter _ _). case_bool_decide as Hf; [done|]. cbn [negb].
  destruct found as [|d ds] eqn:Hd; [done|].
  assert (Hin : ∀ p, p ∈ d :: ds → Some (pid p) = (if (code =? 0)%Z then (true, j) else (false, None)).2 ∧
    of_the_runtime p = true ∧ p ∈ rows).
  { intros p. rewrite <- Hd. intros [Hp [Hrt Hr]%elem_of_List_filter]%elem_of_List_filter.
    by apply bool_decide_eq_true in Hp. }
  destruct (Hin d) as [Hj _]; [by left|]. destruct (Z.eqb_spec code 0) as [->|]; [|done]. simpl in Hj, Hin. subst j.
  exists tr, (pid d), rows. split_and!; [by rewrite <- app_assoc|done|]. apply Forall_forall. intros p Hp.
  destruct (Hin p Hp) as (?&?&?). by simplify_eq.
Qed.

Lemma wait_found timeout s tr :
  wp (wait timeout running) (λ o s' tr', match o with inr true => found_daemon tr s' tr' | _ => True end) s tr.
Proof.
  unfold wait. apply wp_then_any; [done|]. intros t s1 tr1. generalize (t + timeout)%Z as deadline. clear t.
  revert s1 tr1. induction fuel as [|n IH]; intros s1 tr1 deadline Hpre; [done|]. cbn [wait_loop].
  apply wp_bind. eapply wp_mono; [|apply wp_and; [apply running_found|apply wp_extends]].
  intros [e|[|]] s2 tr2 [H H2]; [done| |].
  - destruct H as (l&pid_&rows&->&Hl&H). exists l, pid_, rows. split_and!; [done| |done]. by etransitivity.
  - apply wp_then_any; [done|]. intros t' s3 tr3 H3. case_match; [done|]. apply wp_then_any; [done|].
    intros _ s4 tr4 H4. apply IH. by repeat (etransitivity; [eassumption|]).
Qed.

Lemma start_started ids s tr : wp (start ids) (on_success (λ _, found_started ids tr)) s tr.
Proof.
  unfold start. apply wp_then_any; [done|]. intros j s1 tr1 H1. apply wp_then_any; [done|]. intros _ s2 tr2 H2.
  apply wp_then_any; [done|]. intros _ s3 tr3 H3. apply wp_bind. eapply wp_mono; [|apply wait_found].
  intros [e|[|]] s4 tr4 H4; [done| |done]. cbn [negb]. walk_calls.
  destruct H4 as (l&pid_&rows&->&Hl&Hall). destruct (daemon s4) as [|d ds]; walk_calls; [done|].
  unfold has_identity. case_bool_decide as Hid; walk_calls; [done|]. unfold step. walk_calls. intros at_ _. cbn [log].
  inversion_clear Hall as [|?? (Hd1&Hd2&Hd3)]. exists l, pid_, rows, at_, d.
  rewrite <- app_assoc. split_and!; try done. by repeat (etransitivity; [eassumption|]).
Qed.
(** * What every step of the procedure does to the receipt and to the clock *)

(** A relation between how a program starts and how it ends, and the exception it
    ends with. *)
Abbreviation transition := (option exn → Receipt → list event → Receipt → list event → Prop).

Definition exn_of {A} (o : exn + A) : option exn := match o with inl e => Some e | inr _ => None end.

Definition obeys (R : transition) {A} (p : method A) : Prop :=
  ∀ s tr, wp p (λ o s' tr', R (exn_of o) s tr s' tr') s tr.

(** The fields [execute] alone sets. *)
Definition kept (s s' : Receipt) : Prop :=
  before s' = before s ∧ action s' = action s ∧ result s' = result s.

Definition timeouts : list Z := [unload_timeout config; exit_timeout config; signal_timeout config; start_timeout config].

(** The relations a procedure obeys when its calls, updates and waits do. *)
Class Procedural (R : transition) : Prop := {
  pr_refl s tr : R None s tr s tr;
  pr_trans x s1 tr1 s2 tr2 s3 tr3 : R None s1 tr1 s2 tr2 → R x s2 tr2 s3 tr3 → R x s1 tr1 s3 tr3;
  pr_throw e s tr : e ≠ Out_of_fuel → R (Some e) s tr s tr;
  pr_ask {A} (q : call A) r s tr : (∀ d, slept d ≠ log A q r) → may tr A q r → R None s tr s (tr ++ [log A q r]);
  pr_update s s' tr : kept s s' → R None s tr s' tr;
  pr_wait timeout p : timeout ∈ timeouts → obeys R p → obeys R (wait timeout p)
}.

Section Procedures.
Context (R : transition) `{!Procedural R}.

Lemma host_obeys_bind {A B} (p : method A) (f : A → method B) :
  obeys R p → (∀ a, obeys R (f a)) → obeys R (let! x := p in f x).
Proof.
  intros Hp Hf s tr. apply wp_bind. eapply wp_mono; [|apply Hp]. intros [e|a] s' tr' H; [done|].
  eapply wp_mono; [|apply Hf]. intros o s2 tr2 H2. by eapply pr_trans.
Qed.

Lemma obeys_pure {A} (a : A) : obeys R (Pure a).
Proof. intros s tr. apply pr_refl. Qed.

Lemma obeys_throw {A} e : e ≠ Out_of_fuel → obeys R (A:=A) (Throw e).
Proof. intros He s tr. by apply pr_throw. Qed.

Lemma obeys_ask {A} (q : call A) : (∀ d r, slept d ≠ log A q r) → obeys R (ask q).
Proof. intros Hq s tr r Hr. by apply pr_ask. Qed.

Lemma obeys_update f : (∀ s, kept s (f s)) → obeys R (update_self f).
Proof. intros Hf s tr. apply pr_update, Hf. Qed.

Lemma obeys_processes : obeys R processes.
Proof. apply host_obeys_bind; [by apply obeys_ask|]. intros r. case_match; [apply obeys_pure|by apply obeys_throw]. Qed.

Lemma obeys_job : obeys R job.
Proof. apply host_obeys_bind; [by apply obeys_ask|]. intros r. apply obeys_pure. Qed.

Lemma obeys_step n d : obeys R (step n d).
Proof. apply host_obeys_bind; [by apply obeys_ask|]. intros t. by apply obeys_update. Qed.

Lemma obeys_alive w : obeys R (alive w).
Proof. apply host_obeys_bind; [apply obeys_processes|]. intros ps. apply obeys_pure. Qed.

Lemma obeys_waits timeout p : timeout ∈ timeouts → obeys R p → obeys R (wait timeout p).
Proof. apply pr_wait. Qed.

Lemma obeys_exited w : obeys R (exited w).
Proof. apply host_obeys_bind; [apply obeys_alive|]. intros ps. apply obeys_pure. Qed.

Lemma obeys_unloaded : obeys R unloaded.
Proof. apply host_obeys_bind; [apply obeys_job|]. intros j. apply obeys_pure. Qed.

Lemma obeys_running : obeys R running.
Proof.
  apply host_obeys_bind; [apply obeys_job|]. intros j. apply host_obeys_bind; [apply obeys_processes|]. intros ps.
  apply host_obeys_bind; [by apply obeys_update|]. intros _. apply obeys_pure.
Qed.

Lemma obeys_signal_all ps sig : obeys R (signal_all ps sig).
Proof.
  induction ps as [|p ps IH]; simpl; [apply obeys_pure|]. apply host_obeys_bind.
  - apply host_obeys_bind; [apply obeys_processes|]. intros l. case_match; [apply obeys_pure|].
    apply host_obeys_bind; [by apply obeys_ask|]. intros []; [apply obeys_pure..|by apply obeys_throw].
  - intros sent. apply host_obeys_bind; [done|]. intros pids. apply obeys_pure.
Qed.

Lemma obeys_insist w u sg : obeys R (insist w u sg).
Proof.
  apply host_obeys_bind; [apply obeys_alive|]. intros [|p ps]; [apply obeys_pure|].
  apply host_obeys_bind; [apply obeys_signal_all|]. intros sent. apply host_obeys_bind; [apply obeys_step|]. intros _.
  apply host_obeys_bind; [|intros _; apply obeys_pure]. apply obeys_waits; [|apply obeys_exited]. unfold timeouts. set_solver.
Qed.

Lemma obeys_stop : obeys R stop.
Proof.
  apply host_obeys_bind; [apply obeys_processes|]. intros procs. apply host_obeys_bind; [by apply obeys_ask|]. intros r.
  apply host_obeys_bind; [apply obeys_step|]. intros _.
  apply host_obeys_bind; [apply obeys_waits; [unfold timeouts; set_solver|apply obeys_unloaded]|]. intros off.
  case_match; [by apply obeys_throw|]. apply host_obeys_bind; [apply obeys_step|]. intros _.
  apply host_obeys_bind; [apply obeys_waits; [unfold timeouts; set_solver|apply obeys_exited]|]. intros gone.
  apply host_obeys_bind.
  - case_match; [apply obeys_pure|]. simpl. apply host_obeys_bind; [apply obeys_insist|]. intros [?|?]; [apply obeys_pure|].
    apply host_obeys_bind; [apply obeys_insist|]. intros [?|?]; apply obeys_pure.
  - intros _. apply host_obeys_bind; [apply obeys_processes|]. intros [|p ps].
    + apply host_obeys_bind; [apply obeys_job|]. intros j. case_match; [by apply obeys_throw|apply obeys_step].
    + apply host_obeys_bind; [by apply obeys_update|]. intros _. by apply obeys_throw.
Qed.

Lemma obeys_start ids : obeys R (start ids).
Proof.
  apply host_obeys_bind; [apply obeys_job|]. intros j. apply host_obeys_bind.
  - case_match; [|apply obeys_step]. apply host_obeys_bind; [by apply obeys_ask|]. intros r.
    apply host_obeys_bind; [apply obeys_step|]. intros _. case_match; [apply obeys_pure|by apply obeys_throw].
  - intros _. apply host_obeys_bind; [by apply obeys_update|]. intros _.
    apply host_obeys_bind; [apply obeys_waits; [unfold timeouts; set_solver|apply obeys_running]|]. intros up.
    case_match; [by apply obeys_throw|]. intros s tr. walk_calls. destruct (daemon s) as [|d ds]; [by apply obeys_throw|].
    case_match; [by apply obeys_throw|apply obeys_step].
Qed.
End Procedures.
(** ** The receipt *)

Definition keeps : transition := λ _ s _ s' _, kept s s'.

#[local] Instance keeps_procedural : Procedural keeps.
Proof.
  assert (Htrans : ∀ s1 s2 s3, kept s1 s2 → kept s2 s3 → kept s1 s3) by (unfold kept; intuition congruence).
  unfold keeps. constructor; try done; [by intros; eapply Htrans|].
  intros timeout p _ Hp s tr t _. walk_calls. generalize (t + timeout)%Z (tr ++ [log Z Clock t]).
  induction fuel as [|n IH] in s |- *; intros deadline tr'; [done|]. cbn [wait_loop].
  apply wp_bind. eapply wp_mono; [|apply Hp]. intros [e|[|]] s2 tr2 H2; [done..|]. walk_calls.
  intros t' _. case_match; [done|]. walk_calls. intros [] _. eapply wp_mono; [|apply IH].
  intros o s3 tr3 H3. by eapply Htrans.
Qed.

(** What the trace of a successful request holds, in order: the scan of [before],
    the end of the stop, the end of the start. *)
Definition shown (a : string) (r : Receipt) (tr : list event) : Prop :=
  ∃ code0 pid0 rows0 t1 t2, [print_was code0 pid0; ps_was 0 rows0] `prefix_of` t1 ∧ t1 `prefix_of` t2 ∧ t2 `prefix_of` tr ∧
    before r = List.filter of_the_runtime rows0 ∧
    (a ∈ ["stop"; "restart"] → found_stopped [print_was code0 pid0; ps_was 0 rows0] t1) ∧
    (a ∈ ["start"; "restart"] →
       found_started (if bool_decide (a = "restart") then identity <$> before r else []) t1 t2).

Lemma wp_case {A B} (b : bool) (p : method A) (x : A) (f : A → method B) Q s tr :
  (b = true → wp (let! y := p in f y) Q s tr) → (b = false → wp (f x) Q s tr) →
  wp (let! y := (if b then p else Pure x) in f y) Q s tr.
Proof. destruct b; auto. Qed.

Lemma perform_shown s :
  wp perform (λ o s' tr', match o with
                          | inr _ => shown (action s) s' tr' ∧ result s' = "ok"
                          | inl _ => result s' = result s end) s [].
Proof.
  unfold perform, job, processes. walk_calls. intros [code0 pid0] _. walk_calls. intros [code rows0] _.
  walk_calls. cbn [fst snd log app]. destruct (Z.eqb_spec code 0) as [->|]; walk_calls; [|done].
  set (s0 := set_before _ _). change (action (set_job_before _ s)) with (action s).
  apply wp_bind. apply (wp_mono _ _ _ (λ o s1 t1, kept s0 s1 ∧ [print_was code0 pid0; ps_was 0 rows0] `prefix_of` t1 ∧
    on_success (λ _ t1, action s ∈ ["stop"; "restart"] → found_stopped [print_was code0 pid0; ps_was 0 rows0] t1) o s1 t1)).
  2:{ case_bool_decide as Ha; [|walk_calls; split_and!; [done|done|by intros ?]].
      eapply wp_mono; [|apply wp_and; [apply wp_and; [apply (obeys_stop keeps)|apply wp_extends]|apply stop_stopped]].
      intros o s1 t1 [[Hk Hpre] Hst]. split; [exact Hk|split; [exact Hpre|]]. destruct o; [done|]. intros _. assumption. }
  intros o s1 t1 (Hk1&Hpre1&Hst). destruct o as [e|[]]; [apply Hk1|]. simpl in Hst.
  apply wp_bind. set (ids := if bool_decide (action s = "restart") then identity <$> List.filter of_the_runtime rows0 else []).
  change (action s0) with (action s).
  apply (wp_mono _ _ _ (λ o s2 t2, kept s1 s2 ∧ t1 `prefix_of` t2 ∧
    on_success (λ _ t2, action s ∈ ["start"; "restart"] → found_started ids t1 t2) o s2 t2)).
  2:{ case_bool_decide as Ha; [|walk_calls; split_and!; [done|done|by intros ?]].
      eapply wp_mono; [|apply wp_and; [apply wp_and; [apply (obeys_start keeps)|apply wp_extends]|apply start_started]].
      intros o s2 t2 [[Hk Hpre] Hst2]. split; [exact Hk|split; [exact Hpre|]]. destruct o; [done|]. intros _. assumption. }
  intros o s2 t2 (Hk2&Hpre2&Hst2). destruct Hk1 as (Hb1&Ha1&Hr1), Hk2 as (Hb2&Ha2&Hr2).
  destruct o as [e|[]]; [by rewrite Hr2, Hr1|]. simpl in Hst2. walk_calls. intros [code2 rows2] _. walk_calls.
  cbn [fst snd]. destruct (code2 =? 0)%Z; walk_calls; [|by simpl; rewrite Hr2, Hr1]. intros [code3 pid3] _. walk_calls.
  split; [|done]. exists code0, pid0, rows0, t1, t2. simpl. rewrite Hb2, Hb1. split_and!; try done.
  rewrite <- app_assoc. by apply prefix_app_r.
Qed.

Lemma execute_shown s :
  result s ≠ "ok" → wp execute (λ _ s' tr', result s' = "ok" → shown (action s) s' tr') s [].
Proof.
  intros Hs. apply wp_finally, wp_catch. eapply wp_mono; [|apply perform_shown].
  intros [e|[]] s' tr' H; destruct e || idtac; walk_calls; try (intros t _; walk_calls; simpl; intros ?; congruence).
  intros t _. walk_calls. intros _. destruct H as [(code0&pid0&rows0&t1&t2&H1&H2&H3&H4&H5&H6) Hok].
  exists code0, pid0, rows0, t1, t2. split_and!; try done. etransitivity; [exact H3|]. by apply prefix_app_r.
Qed.

(** ** The clock *)

(** What the monotonic clock has reached, at least. *)
Definition clock_floor (tr : list event) : Z :=
  foldl (λ t e, match e with clock_was t' => t' | slept d => t + d | _ => t end)%Z 0%Z tr.

(** A clock that never goes back, and that a sleep moves. *)
Definition clock_advances : Prop := ∀ tr t, may tr Z Clock t → (clock_floor tr ≤ t)%Z.

Definition ends : transition := λ x _ tr _ tr', (clock_floor tr ≤ clock_floor tr')%Z ∧ x ≠ Some Out_of_fuel.

Lemma clock_floor_snoc tr e :
  clock_floor (tr ++ [e]) = match e with clock_was t => t | slept d => clock_floor tr + d | _ => clock_floor tr end%Z.
Proof. unfold clock_floor. by rewrite foldl_app. Qed.

Lemma wait_loop_ends n deadline p :
  clock_advances → (0 ≤ poll config)%Z → obeys ends p → ∀ s tr,
  0 < n → (deadline ≤ clock_floor tr + (Z.of_nat n - 1) * poll config)%Z →
  wp (wait_loop n deadline p) (λ o s' tr', ends (exn_of o) s tr s' tr') s tr.
Proof.
  intros Hclock Hpoll Hp. unfold ends in *. induction n as [|n IH]; intros s tr Hn Hd; [lia|]. cbn [wait_loop].
  apply wp_bind. eapply wp_mono; [|apply Hp]. intros [e|[|]] s2 tr2 [H2 He]; [done| |]; [by split|]. walk_calls.
  intros t Ht. apply Hclock in Ht. cbn [log].
  assert (Hf : clock_floor (tr2 ++ [clock_was t]) = t) by by rewrite clock_floor_snoc.
  destruct (Z.leb_spec deadline t); walk_calls; [rewrite Hf; split; [lia|done]|]. intros [] _.
  assert (Hf' : clock_floor ((tr2 ++ [clock_was t]) ++ [slept (poll config)]) = (t + poll config)%Z)
    by by rewrite clock_floor_snoc, Hf.
  eapply wp_mono; [|apply IH; cbn [log]; rewrite ?Hf'; nia]. intros o s3 tr3 [H3 Ho]. cbn [log] in H3.
  rewrite Hf' in H3. split; [lia|done].
Qed.

Lemma ends_procedural :
  clock_advances → (0 ≤ poll config)%Z →
  0 < fuel → Forall (λ t, t ≤ (Z.of_nat fuel - 1) * poll config)%Z timeouts → Procedural ends.
Proof.
  intros Hclock Hpoll Hfuel Hall. unfold ends. constructor; try (by intros; split).
  - intros x s1 tr1 s2 tr2 s3 tr3 [H1 _] [H2 Hx]. split; [lia|done].
  - intros e s tr He. split; [done|congruence].
  - intros A q r s tr Hq Hr. split; [|done]. rewrite clock_floor_snoc. destruct q; try done; simpl.
    + by destruct (Hq d).
    + by apply Hclock.
  - intros timeout p Hin Hp s tr t Ht. walk_calls. apply Hclock in Ht. rewrite Forall_forall in Hall.
    specialize (Hall _ Hin). cbn [log].
    assert (Hf : clock_floor (tr ++ [clock_was t]) = t) by by rewrite clock_floor_snoc.
    eapply wp_mono; [|apply wait_loop_ends; try done; rewrite Hf; lia].
    intros o s' tr' [H Ho]. rewrite Hf in H. split; [lia|done].
Qed.

Lemma perform_ends : Procedural ends → obeys ends perform.
Proof.
  intros HR.
  assert (Hup : ∀ f, obeys ends (update_self f)) by (by intros f s tr).
  apply host_obeys_bind; [done|by apply obeys_job|]. intros j. apply host_obeys_bind; [done|apply Hup|]. intros _.
  apply host_obeys_bind; [done|by apply obeys_processes|]. intros procs. apply host_obeys_bind; [done|apply Hup|]. intros _.
  apply host_obeys_bind; [done|by intros s tr|]. intros self.
  apply host_obeys_bind; [done|case_bool_decide; [by apply obeys_stop|by apply obeys_pure]|]. intros _.
  apply host_obeys_bind; [done|case_bool_decide; [by apply obeys_start|by apply obeys_pure]|]. intros _.
  apply host_obeys_bind; [done|by apply obeys_processes|]. intros ps. apply host_obeys_bind; [done|apply Hup|]. intros _.
  apply host_obeys_bind; [done|by apply obeys_job|]. intros j'. apply host_obeys_bind; [done|apply Hup|]. intros _. apply Hup.
Qed.

(** [finally] and the two handlers leave a result and a finishing time. *)
Lemma execute_finishes s tr :
  Procedural ends →
  wp execute (λ o s' _, o = inr tt ∧ is_Some (finished_at s') ∧ (result s' = "ok" ∨ is_Some (error s'))) s tr.
Proof.
  intros HR. apply wp_finally, wp_catch.
  assert (Hok : wp perform (λ o s' _, match o with inr _ => result s' = "ok" | inl _ => True end) s tr).
  { unfold perform. repeat (apply wp_then_any; [done|intros ????]). done. }
  eapply wp_mono; [|apply wp_and; [apply (perform_ends HR)|exact Hok]].
  intros [e|[]] s' tr' [[_ He] Hr]; [destruct e|]; try done; walk_calls; intros t _; walk_calls; simpl; eauto.
Qed.
End Host.

(** ** The theorems *)

(** The most hostile host: any answer at any call. *)
Definition any_host (tr : list event) R (q : call R) (r : R) : Prop := True.

(** Nothing but the runtime is ever signalled: whatever the host answers, every
    [kill] that executing a request makes directly follows a process scan that
    shows the PID as a process of the runtime's account and names, born when the
    process the stop set out to end was born - so a PID that was reused in the
    meantime is never signalled. *)
Theorem only_verified_processes_are_signalled config fuel r0 o r tr l1 p sig k l2 :
  exec log any_host (execute config fuel) r0 [] o r tr → tr = l1 ++ kill_was p sig k :: l2 →
  ∃ l rows q, l1 = l ++ [ps_was 0 rows] ∧ q ∈ rows ∧ of_the_runtime config q = true ∧ pid q = p ∧
    ∃ l0 rows0 b l3 q0, l = l0 ++ ps_was 0 rows0 :: bootout_was b :: l3 ∧
      q0 ∈ rows0 ∧ of_the_runtime config q0 = true ∧ identity q0 = identity q.
Proof.
  intros He Htr.
  assert (Hw : kills_verified config []) by (by intros [|??] ????).
  apply (careful_execute config fuel any_host r0 []) in Hw; [|done]. rewrite wp_exec in Hw.
  exact (proj1 (Hw _ _ _ He) l1 p sig k l2 Htr).
Qed.

(** A receipt that says ok is true: whatever the host answers, when a request
    comes back with the result ok, then for a stop or a restart some scan after
    the bootout showed no process of the runtime at all and the job was then not
    loaded; for a start or a restart the job had a PID and a scan after that
    showed a process of the runtime with it; and for a restart that process has
    an identity that no process scanned at the beginning had. *)
Theorem ok_is_what_was_seen config fuel a o r tr :
  exec log any_host (execute config fuel) (new_receipt a) [] o r tr → result r = "ok" →
  shown config a r tr.
Proof.
  intros He Hok. eapply wp_exec in He; [|by apply (execute_shown config fuel any_host)]. by apply He.
Qed.

(** C36: a request always gets its receipt: on a host whose clock never goes back and
    advances with every sleep, and with fuel for the longest timeout, executing a
    request ends, raises nothing whatever the host answers or fails with, and
    leaves a finishing time and either the result ok or the error. *)
Theorem execution_always_ends config fuel may r0 o r tr :
  clock_advances may → (0 ≤ poll config)%Z → 0 < fuel →
  Forall (λ t, t ≤ (Z.of_nat fuel - 1) * poll config)%Z (timeouts config) →
  exec log may (execute config fuel) r0 [] o r tr →
  o = inr tt ∧ is_Some (finished_at r) ∧ (result r = "ok" ∨ is_Some (error r)).
Proof.
  intros Hclock Hpoll Hfuel Hall He.
  pose proof (execute_finishes config fuel may r0 [] (ends_procedural _ _ _ Hclock Hpoll Hfuel Hall)) as H.
  rewrite wp_exec in H. exact (H _ _ _ He).
Qed.

(** ** A stubborn daemon restarted *)

Definition a_config : Config :=
  mk_config "online.rcsl.ollama" "/Library/LaunchDaemons/online.rcsl.ollama.plist" 501 ["ollama"; "llama-server"]
    1000 1000 500 1000 500.
Definition old_daemon : Proc := mk_proc 10 1 501 "Thu Oct  8 10:00:00 2026" "/usr/local/bin/ollama".
Definition new_daemon : Proc := mk_proc 20 1 501 "Thu Oct  8 11:00:00 2026" "/usr/local/bin/ollama".
Definition a_stranger : Proc := mk_proc 11 1 502 "Thu Oct  8 09:00:00 2026" "/usr/bin/ollama".

Definition booted_out (tr : list event) : bool := existsb (λ e, match e with bootout_was _ => true | _ => false end) tr.
Definition bootstrapped (tr : list event) : bool := existsb (λ e, match e with bootstrap_was _ => true | _ => false end) tr.
Definition killed (tr : list event) : bool :=
  existsb (λ e, match e with kill_was 10 9 _ => true | _ => false end) tr.

(** It ignores SIGTERM; SIGKILL ends it. *)
Definition a_host (tr : list event) R (q : call R) : R :=
  match q with
  | Ps => (0%Z, if bootstrapped tr then [new_daemon; a_stranger] else if killed tr then [a_stranger] else [old_daemon; a_stranger])
  | Launchctl_print =>
      if bootstrapped tr then (0%Z, Some 20%Z) else if booted_out tr then (113%Z, None) else (0%Z, Some 10%Z)
  | Bootout | Bootstrap => (0%Z, "")
  | Kill _ _ => Killed
  | Sleep _ => tt
  | Clock => clock_floor tr
  | Time => 1000%Z
  end.

Definition a_restart := run log a_host (execute a_config 4) (new_receipt "restart") [].

Lemma a_restart_exec may :
  (∀ tr R q, may tr R q (a_host tr R q)) →
  exec log may (execute a_config 4) (new_receipt "restart") [] a_restart.1.1 a_restart.1.2 a_restart.2.
Proof. apply exec_run. Qed.

Definition kill_position : nat := 19.

Theorem only_verified_processes_are_signalled_witness :
  killed a_restart.2 = true ∧ result a_restart.1.2 = "ok" ∧
  ∃ l rows q, take kill_position a_restart.2 = l ++ [ps_was 0 rows] ∧ q ∈ rows ∧ of_the_runtime a_config q = true ∧ pid q = 10%Z ∧
    ∃ l0 rows0 b l3 q0, l = l0 ++ ps_was 0 rows0 :: bootout_was b :: l3 ∧
      q0 ∈ rows0 ∧ of_the_runtime a_config q0 = true ∧ identity q0 = identity q.
Proof.
  split; [vm_compute; reflexivity|]. split; [vm_compute; reflexivity|].
  eapply (only_verified_processes_are_signalled a_config 4 (new_receipt "restart") _ _ a_restart.2 _ 10 SIGTERM Killed
    (drop (S kill_position) a_restart.2)).
  - by apply a_restart_exec.
  - vm_compute. reflexivity.
Defined.

Theorem ok_is_what_was_seen_witness : result a_restart.1.2 = "ok" ∧ shown a_config "restart" a_restart.1.2 a_restart.2.
Proof.
  assert (Hok : result a_restart.1.2 = "ok") by (vm_compute; reflexivity). split; [exact Hok|].
  eapply (ok_is_what_was_seen a_config 4); [by apply a_restart_exec|exact Hok].
Defined.

Definition steady_clock (tr : list event) R (q : call R) : R → Prop :=
  match q with Clock => λ t, (clock_floor tr ≤ t)%Z | _ => λ _, True end.

Theorem execution_always_ends_witness :
  is_Some (finished_at a_restart.1.2) ∧ (result a_restart.1.2 = "ok" ∨ is_Some (error a_restart.1.2)).
Proof.
  eapply (execution_always_ends a_config 4 steady_clock).
  - by intros tr t.
  - vm_compute. discriminate.
  - lia.
  - repeat constructor; vm_compute; discriminate.
  - apply a_restart_exec. intros tr R q. by destruct q; simpl.
Defined.
