(* ===== verification/LockDomain.v ===== *)
(** The host lock that proves an earlier sender of this host is gone
    ([node_agent/lock_domain.py]).

    Processes run [initialise] and then [HostLock.acquire] over one directory; every
    file operation is one step, and the steps of all processes interleave.  A
    process may die at any step, and an operator may unlink or replace either file
    at any time.  Of the kernel the model holds what the module relies on: an
    inode keeps its number while it has a name or an open description, [O_EXCL]
    creates or fails, [os.replace] is atomic, and an exclusive [flock] belongs to
    an open description and ends when that is closed, which a death does to all of
    a process's.

    The directory refines a mutex: of all the processes that hold the lock, at most
    one finds it still held. *)

From S2P Require Export Prelude.

(** * The directory *)

Record Domain := mk_domain { domain_id : string; lock_inode : Z }.

(** The text of the [domain] file. *)
Inductive text : Type := Valid (d : Domain) | Malformed.

Inductive error : Set := LockDomainError | Replaced | LockHeld | OSError.

(** Where a process is: in [initialise], in [acquire], or past them. *)
Inductive place : Type :=
  | Check_lock | Check_domain | Create
  | Created (fd : nat)
  | Write_domain (d : Domain)
  | Settle_lock | Settle_domain
  | Read_lock (acquiring : bool)
  | Read_text (acquiring : bool)
  | Open (d : Domain)
  | Opened (d : Domain) (fd : nat)
  | Holding (d : Domain) (fd : nat)
  | Refused (e : error).

Record world := mk_world {
  lock_path : option Z;
  links : gmap Z nat;
  domain_path : option text;
  descriptions : gmap nat (nat * Z);
  flocks : gmap Z nat;
  procs : gmap nat place
}.

Definition set_place (p : nat) (a : place) (w : world) : world :=
  mk_world (lock_path w) (links w) (domain_path w) (descriptions w) (flocks w) (<[p := a]> (procs w)).
Definition set_domain (t : option text) (w : world) : world :=
  mk_world (lock_path w) (links w) t (descriptions w) (flocks w) (procs w).
Definition set_lock (l : option Z) (n : gmap Z nat) (w : world) : world :=
  mk_world l n (domain_path w) (descriptions w) (flocks w) (procs w).
(** [os.open] of inode [i] *)
Definition open_fd (fd p : nat) (i : Z) (w : world) : world :=
  mk_world (lock_path w) (links w) (domain_path w) (<[fd := (p, i)]> (descriptions w)) (flocks w) (procs w).
(** [os.close]: the description's lock goes with it. *)
Definition close_fd (fd : nat) (w : world) : world :=
  mk_world (lock_path w) (links w) (domain_path w) (delete fd (descriptions w))
    (filter (λ x, x.2 ≠ fd) (flocks w)) (procs w).
Definition lock_fd (fd : nat) (i : Z) (w : world) : world :=
  mk_world (lock_path w) (links w) (domain_path w) (descriptions w) (<[i := fd]> (flocks w)) (procs w).
(** The kernel closes what a dead process had open. *)
Definition kill (p : nat) (w : world) : world :=
  mk_world (lock_path w) (links w) (domain_path w) (filter (λ x, x.2.1 ≠ p) (descriptions w))
    (filter (λ x, (fst <$> descriptions w !! x.2) ≠ Some p) (flocks w)) (delete p (procs w)).

Definition nlink (w : world) (i : Z) : nat := default 0 (links w !! i).

(** An inode whose number is not free. *)
Definition live (w : world) (i : Z) : Prop :=
  0 < nlink w i ∨ ∃ fd p, descriptions w !! fd = Some (p, i).

(** [HostLock.still_held], its two reads at one instant *)
Definition still_held (w : world) (d : Domain) (fd : nat) : bool :=
  match descriptions w !! fd, lock_path w with
  | Some (_, held), Some current =>
      bool_decide (0 < nlink w held) && (held =? current)%Z && (current =? lock_inode d)%Z
  | _, _ => false
  end.

(** * One step of a process *)

(** Past [read_domain], in [initialise] or in [acquire]. *)
Definition domain_read (acquiring : bool) (t : option text) : place :=
  match t with
  | Some (Valid d) => if acquiring then Open d else Read_lock true
  | _ => Refused LockDomainError
  end.

Inductive pstep (p : nat) : place → world → place → world → Prop :=
  | p_check_lock w :
      pstep p Check_lock w (if lock_path w is Some _ then Settle_lock else Check_domain) w
  | p_check_domain w :
      pstep p Check_domain w (if domain_path w is Some _ then Settle_lock else Create) w
  | p_create w i fd :
      lock_path w = None → ¬ live w i → descriptions w !! fd = None →
      pstep p Create w (Created fd) (open_fd fd p i (set_lock (Some i) (<[i := 1]> (links w)) w))
  | p_create_exists w :
      is_Some (lock_path w) → pstep p Create w Settle_lock w
  | p_created w fd i uuid :
      descriptions w !! fd = Some (p, i) →
      pstep p (Created fd) w (Write_domain (mk_domain uuid i)) (close_fd fd w)
  | p_write_domain w d : pstep p (Write_domain d) w Settle_lock (set_domain (Some (Valid d)) w)
  | p_settle_lock w : pstep p Settle_lock w (if lock_path w is Some _ then Settle_domain else Read_lock false) w
  | p_settle_domain w : pstep p Settle_domain w (if domain_path w is Some _ then Read_lock false else Settle_lock) w
  | p_settled w : pstep p Settle_domain w (Read_lock false) w
  | p_read_lock b w : pstep p (Read_lock b) w (if lock_path w is Some _ then Read_text b else Refused LockDomainError) w
  | p_read_text b w : pstep p (Read_text b) w (domain_read b (domain_path w)) w
  | p_open w d fd i :
      lock_path w = Some i → descriptions w !! fd = None → pstep p (Open d) w (Opened d fd) (open_fd fd p i w)
  | p_open_fails w d : lock_path w = None → pstep p (Open d) w (Refused OSError) w
  | p_replaced w d fd i :
      descriptions w !! fd = Some (p, i) → i ≠ lock_inode d →
      pstep p (Opened d fd) w (Refused Replaced) (close_fd fd w)
  | p_held w d fd i :
      descriptions w !! fd = Some (p, i) → i = lock_inode d → is_Some (flocks w !! i) →
      pstep p (Opened d fd) w (Refused LockHeld) (close_fd fd w)
  | p_lock w d fd i :
      descriptions w !! fd = Some (p, i) → i = lock_inode d → flocks w !! i = None →
      pstep p (Opened d fd) w (Holding d fd) (lock_fd fd i w).

(** What processes do by themselves. *)
Inductive step : world → world → Prop :=
  | starts p w : procs w !! p = None → step w (set_place p Check_lock w)
  | acts p a w a' w' : procs w !! p = Some a → pstep p a w a' w' → step w (set_place p a' w')
  | dies p w : step w (kill p w).

(** What an operator may do to the directory. *)
Inductive tampering : world → world → Prop :=
  | unlinks i w :
      lock_path w = Some i → tampering w (set_lock None (<[i := nlink w i - 1]> (links w)) w)
  | puts_back i w :
      lock_path w = None → tampering w (set_lock (Some i) (<[i := nlink w i + 1]> (links w)) w)
  | writes t w : tampering w (set_domain t w).

Definition any_step (w w' : world) : Prop := step w w' ∨ tampering w w'.

Definition initial : world := mk_world None ∅ None ∅ ∅ ∅.

(** * Exclusion *)

(** The description a process has open. *)
Definition fd_of (a : place) : option nat :=
  match a with Created fd | Opened _ fd | Holding _ fd => Some fd | _ => None end.

(** What holds of the kernel's tables and the processes, whatever happens to the
    directory. *)
Record locks_ok (w : world) : Prop := {
  lo_flock : ∀ i fd, flocks w !! i = Some fd →
    ∃ p d, procs w !! p = Some (Holding d fd) ∧ lock_inode d = i ∧ descriptions w !! fd = Some (p, i);
  lo_holding : ∀ p d fd, procs w !! p = Some (Holding d fd) → flocks w !! lock_inode d = Some fd;
  lo_open : ∀ p a fd, procs w !! p = Some a → fd_of a = Some fd → ∃ i, descriptions w !! fd = Some (p, i)
}.

Lemma locks_ok_tables w w' :
  locks_ok w → flocks w' = flocks w → descriptions w' = descriptions w → procs w' = procs w → locks_ok w'.
Proof. intros [H1 H2 H3] Hf Hd Hp. constructor; rewrite ?Hf, ?Hd, ?Hp; done. Qed.

(** A process that moves without touching descriptions, to where it has none. *)
Lemma locks_ok_move p a a' w :
  locks_ok w → procs w !! p = Some a → fd_of a = None → fd_of a' = None → locks_ok (set_place p a' w).
Proof.
  intros [H1 H2 H3] Ha Hn Hn'. constructor; simpl.
  - intros i fd Hf. destruct (H1 i fd Hf) as (q&d&Hq&Hd). exists q, d. rewrite lookup_insert_ne; [done|].
    intros ->. rewrite Hq in Ha. by injection Ha as <-.
  - intros q d fd. destruct (decide (p = q)) as [->|]; [rewrite lookup_insert_eq; by intros [= ->]|].
    rewrite lookup_insert_ne by done. apply H2.
  - intros q b fd. destruct (decide (p = q)) as [->|]; [rewrite lookup_insert_eq; intros [= ->]; congruence|].
    rewrite lookup_insert_ne by done. apply H3.
Qed.

(** Opening a description. *)
Lemma locks_ok_open p a a' fd i w :
  locks_ok w → procs w !! p = Some a → fd_of a = None → descriptions w !! fd = None →
  fd_of a' = Some fd → (∀ d fd, a' ≠ Holding d fd) → locks_ok (set_place p a' (open_fd fd p i w)).
Proof.
  intros [H1 H2 H3] Ha Hn Hfd Ha' Hnh. constructor; simpl.
  - intros j fd' Hf. destruct (H1 j fd' Hf) as (q&d&Hq&Hd&Hdesc). exists q, d.
    rewrite !lookup_insert_ne; [done| |].
    + intros ->. congruence.
    + intros ->. rewrite Hq in Ha. by injection Ha as <-.
  - intros q d fd'. destruct (decide (p = q)) as [->|].
    + rewrite lookup_insert_eq. intros [= ->]. by destruct (Hnh d fd').
    + rewrite lookup_insert_ne by done. apply H2.
  - intros q b fd'. destruct (decide (p = q)) as [->|].
    + rewrite lookup_insert_eq. intros [= <-] Hb. exists i. rewrite Ha' in Hb. injection Hb as ->. by rewrite lookup_insert_eq.
    + rewrite lookup_insert_ne by done. intros Hb Hbf. destruct (H3 q b fd' Hb Hbf) as [j Hj]. exists j.
      rewrite lookup_insert_ne; [done|]. intros ->. congruence.
Qed.

(** Closing the one a process has, which is not its lock. *)
Lemma locks_ok_close p a a' fd i w :
  locks_ok w → procs w !! p = Some a → fd_of a = Some fd → (∀ d, a ≠ Holding d fd) → fd_of a' = None →
  descriptions w !! fd = Some (p, i) → locks_ok (set_place p a' (close_fd fd w)).
Proof.
  intros [H1 H2 H3] Ha Hfd Hnh Hn Hdesc.
  assert (Hfree : ∀ j fd', flocks w !! j = Some fd' → fd' ≠ fd).
  { intros j fd' Hf ->. destruct (H1 j fd Hf) as (q&d&Hq&Hd&Hdq). rewrite Hdesc in Hdq. injection Hdq as <- <-.
    rewrite Hq in Ha. injection Ha as <-. by apply (Hnh d). }
  constructor; simpl.
  - intros j fd' [Hf _]%map_lookup_filter_Some. destruct (H1 j fd' Hf) as (q&d&Hq&Hd&Hdq). exists q, d.
    rewrite lookup_insert_ne, lookup_delete_ne; [done| |].
    + intros ->. by apply (Hfree j fd').
    + intros ->. rewrite Hq in Ha. injection Ha as <-. injection Hfd as ->. by apply (Hfree j fd).
  - intros q d fd'. destruct (decide (p = q)) as [->|]; [rewrite lookup_insert_eq; by intros [= ->]|].
    rewrite lookup_insert_ne by done. intros Hq. apply map_lookup_filter_Some. split; [by eapply H2|].
    by eapply Hfree, H2.
  - intros q b fd'. destruct (decide (p = q)) as [->|]; [rewrite lookup_insert_eq; intros [= ->]; congruence|].
    rewrite lookup_insert_ne by done. intros Hb Hbf. destruct (H3 q b fd' Hb Hbf) as [j Hj]. exists j.
    rewrite lookup_delete_ne; [done|]. intros ->. congruence.
Qed.

Lemma locks_ok_kill p w : locks_ok w → locks_ok (kill p w).
Proof.
  intros [H1 H2 H3]. constructor; simpl.
  - intros i fd [Hf Hp]%map_lookup_filter_Some. simpl in Hp. destruct (H1 i fd Hf) as (q&d&Hq&Hd&Hdq).
    exists q, d. assert (p ≠ q) by (intros ->; by rewrite Hdq in Hp).
    rewrite lookup_delete_ne by done. split_and!; [done..|]. apply map_lookup_filter_Some. split; [done|]. simpl. congruence.
  - intros q d fd [Hpq Hq]%lookup_delete_Some. apply map_lookup_filter_Some. split; [by eapply H2|]. simpl.
    destruct (H3 q _ fd Hq eq_refl) as [j ->]. simpl. congruence.
  - intros q b fd [Hpq Hq]%lookup_delete_Some Hb. destruct (H3 q b fd Hq Hb) as [j Hj]. exists j.
    apply map_lookup_filter_Some. split; [done|]. simpl. congruence.
Qed.

Lemma locks_ok_lock p d fd w :
  locks_ok w → procs w !! p = Some (Opened d fd) → descriptions w !! fd = Some (p, lock_inode d) →
  flocks w !! lock_inode d = None → locks_ok (set_place p (Holding d fd) (lock_fd fd (lock_inode d) w)).
Proof.
  intros [H1 H2 H3] Ha Hdesc Hfree. constructor; simpl.
  - intros j fd'. destruct (decide (lock_inode d = j)) as [<-|].
    + rewrite lookup_insert_eq. intros [= <-]. exists p, d. by rewrite lookup_insert_eq.
    + rewrite lookup_insert_ne by done. intros Hf. destruct (H1 j fd' Hf) as (q&d'&Hq&Hd&Hdq). exists q, d'.
      rewrite lookup_insert_ne; [done|]. intros ->. congruence.
  - intros q d' fd'. destruct (decide (p = q)) as [->|].
    + rewrite lookup_insert_eq. intros [= <- <-]. by rewrite lookup_insert_eq.
    + rewrite lookup_insert_ne by done. intros Hq. rewrite lookup_insert_ne; [by eapply H2|].
      intros Heq. specialize (H2 q d' fd' Hq). congruence.
  - intros q b fd'. destruct (decide (p = q)) as [->|].
    + rewrite lookup_insert_eq. intros [= <-] [= <-]. eauto.
    + rewrite lookup_insert_ne by done. apply H3.
Qed.

Lemma fd_of_domain_read b t : fd_of (domain_read b t) = None.
Proof. destruct t as [[]|]; [|done..]. by destruct b. Qed.

Lemma step_locks_ok w w' : any_step w w' → locks_ok w → locks_ok w'.
Proof.
  intros [[p w0 Hp|p a w0 a' w1 Ha Hs|p w0]|Ht] Hok.
  - destruct Hok as [H1 H2 H3]. constructor; simpl.
    + intros i fd Hf. destruct (H1 i fd Hf) as (q&d&Hq&Hd). exists q, d. rewrite lookup_insert_ne; [done|]. congruence.
    + intros q d fd. destruct (decide (p = q)) as [->|]; [by rewrite lookup_insert_eq|]. rewrite lookup_insert_ne by done. apply H2.
    + intros q b fd. destruct (decide (p = q)) as [->|]; [rewrite lookup_insert_eq; by intros [= <-]|]. rewrite lookup_insert_ne by done. apply H3.
  - destruct Hs; try (by eapply locks_ok_move; eauto; try (by case_match); apply fd_of_domain_read).
    + eapply locks_ok_open; [by eapply locks_ok_tables|done..].
    + by eapply locks_ok_close.
    + eapply locks_ok_move; [by eapply locks_ok_tables|done..].
    + by eapply locks_ok_open.
    + by eapply locks_ok_close.
    + by eapply locks_ok_close.
    + subst. by eapply locks_ok_lock.
  - by apply locks_ok_kill.
  - destruct Ht; by eapply locks_ok_tables.
Qed.

Lemma reachable_locks_ok w : rtc any_step initial w → locks_ok w.
Proof.
  apply (rtc_ind_r locks_ok initial); [|intros w1 w2 _ Hs; by apply step_locks_ok].
  constructor; simpl; intros *; by rewrite lookup_empty.
Qed.

(** At most one process finds the lock still held.  Whatever any number of
    processes do, wherever they die and whatever an operator does to the
    two files in the meantime: of two processes that hold the host lock and whose
    check before a send says it is still held, neither is another. *)
Theorem one_process_still_holds w p1 p2 d1 d2 fd1 fd2 :
  rtc any_step initial w →
  procs w !! p1 = Some (Holding d1 fd1) → still_held w d1 fd1 = true →
  procs w !! p2 = Some (Holding d2 fd2) → still_held w d2 fd2 = true →
  p1 = p2.
Proof.
  intros Hok%reachable_locks_ok Hp1 Hs1 Hp2 Hs2.
  pose proof (lo_holding _ Hok _ _ _ Hp1) as Hf1. pose proof (lo_holding _ Hok _ _ _ Hp2) as Hf2.
  assert (Hd : lock_inode d1 = lock_inode d2).
  { unfold still_held in *. repeat case_match; try done. unbool. congruence. }
  rewrite Hd, Hf2 in Hf1. injection Hf1 as ->.
  destruct (lo_open _ Hok _ _ _ Hp1 eq_refl) as [i Hi]. destruct (lo_open _ Hok _ _ _ Hp2 eq_refl) as [j Hj]. congruence.
Qed.

(** The lock is refused only while its holder lives.  An inode that cannot be
    locked, in any reachable state, is locked by a process that is alive and past
    [acquire]: a death at any step leaves no lock behind. *)
Theorem a_lock_has_a_living_holder w i :
  rtc any_step initial w → is_Some (flocks w !! i) →
  ∃ p d fd, procs w !! p = Some (Holding d fd) ∧ lock_inode d = i.
Proof.
  intros Hok%reachable_locks_ok [fd Hf]. destruct (lo_flock _ Hok _ _ Hf) as (p&d&Hp&Hd&_). by exists p, d, fd.
Qed.

(** * One domain, when nobody touches the directory *)

(** The process that created the lock file, until it has written the domain. *)
Definition creating (a : place) : bool :=
  match a with Created _ | Write_domain _ => true | _ => false end.

(** The domain a process has read. *)
Definition knows (a : place) : option Domain :=
  match a with Open d | Opened d _ | Holding d _ => Some d | _ => None end.

(** What a place says of the lock file it was reached over. *)
Definition over (p : nat) (a : place) (i : Z) (ds : gmap nat (nat * Z)) : Prop :=
  match a with
  | Created fd => ds !! fd = Some (p, i)
  | Write_domain d => lock_inode d = i
  | Opened d fd => ds !! fd = Some (p, i) ∧ lock_inode d = i
  | _ => True
  end.

Record agreed (w : world) : Prop := {
  ag_one : ∀ p q a b, procs w !! p = Some a → procs w !! q = Some b →
    creating a = true → creating b = true → p = q;
  ag_creating : ∀ p a, procs w !! p = Some a → creating a = true → domain_path w = None ∧ is_Some (lock_path w);
  ag_domain : ∀ t, domain_path w = Some t → ∃ d, t = Valid d ∧ lock_path w = Some (lock_inode d);
  ag_knows : ∀ p a d, procs w !! p = Some a → knows a = Some d → domain_path w = Some (Valid d);
  ag_over : ∀ p a i, procs w !! p = Some a → lock_path w = Some i → over p a i (descriptions w);
  ag_refused : ∀ p, procs w !! p ≠ Some (Refused Replaced)
}.

(** A process moves to where it creates nothing, and the descriptions of the
    others stay. *)
Lemma agreed_move p a' w w' :
  agreed w → lock_path w' = lock_path w → domain_path w' = domain_path w → procs w' = procs w →
  (∀ q b fd, q ≠ p → procs w !! q = Some b → fd_of b = Some fd → descriptions w' !! fd = descriptions w !! fd) →
  (creating a' = true → ∃ a, procs w !! p = Some a ∧ creating a = true) →
  (∀ d, knows a' = Some d → domain_path w = Some (Valid d)) →
  (∀ i, lock_path w = Some i → over p a' i (descriptions w')) → a' ≠ Refused Replaced →
  agreed (set_place p a' w').
Proof.
  intros [H1 H2 H3 H4 H5 H6] Hl Hd Hp Hds Hc Hk Ho Hr. constructor; simpl; rewrite ?Hl, ?Hd, ?Hp.
  - intros q r b c Hq Hr' Hb Hc'.
    assert (Hold : ∀ q b, <[p := a']> (procs w) !! q = Some b → creating b = true →
      ∃ b', procs w !! q = Some b' ∧ creating b' = true).
    { intros q0 b0. destruct (decide (p = q0)) as [->|]; [rewrite lookup_insert_eq; by intros [= <-]|].
      rewrite lookup_insert_ne by done. eauto. }
    destruct (Hold q b Hq Hb) as (b'&Hb'&?), (Hold r c Hr' Hc') as (c'&?&?). by eapply (H1 q r b' c').
  - intros q b. destruct (decide (p = q)) as [->|].
    + rewrite lookup_insert_eq. intros [= <-] (a&Ha&Hca)%Hc. by eapply H2.
    + rewrite lookup_insert_ne by done. apply H2.
  - done.
  - intros q b d. destruct (decide (p = q)) as [->|]; [rewrite lookup_insert_eq; intros [= <-]; apply Hk|].
    rewrite lookup_insert_ne by done. apply H4.
  - intros q b i. destruct (decide (p = q)) as [->|]; [rewrite lookup_insert_eq; intros [= <-]; apply Ho|].
    rewrite lookup_insert_ne by done. intros Hq Hi. specialize (H5 q b i Hq Hi).
    destruct b; simpl in *; try done; by rewrite (Hds q _ _ (not_eq_sym n) Hq eq_refl).
  - intros q. destruct (decide (p = q)) as [->|]; [rewrite lookup_insert_eq; by intros [= ->]|].
    by rewrite lookup_insert_ne.
Qed.

Lemma agreed_kill p w : agreed w → locks_ok w → agreed (kill p w).
Proof.
  intros [H1 H2 H3 H4 H5 H6] Hok. constructor; simpl.
  - intros q r b c [_ Hq]%lookup_delete_Some [_ Hr]%lookup_delete_Some. by eapply H1.
  - intros q b [_ Hq]%lookup_delete_Some. by eapply H2.
  - done.
  - intros q b d [_ Hq]%lookup_delete_Some. by eapply H4.
  - intros q b i [Hpq Hq]%lookup_delete_Some Hi. specialize (H5 q b i Hq Hi).
    destruct b; simpl in *; try done; rewrite map_lookup_filter_Some; simpl; naive_solver.
  - intros q Hq%lookup_delete_Some. naive_solver.
Qed.

(** The descriptions of two processes are not the same. *)
Lemma own_descriptions w p q b fd fd' i :
  locks_ok w → q ≠ p → procs w !! q = Some b → fd_of b = Some fd' → descriptions w !! fd = Some (p, i) → fd' ≠ fd.
Proof. intros Hok Hne Hq Hb Hd ->. destruct (lo_open _ Hok _ _ _ Hq Hb) as [j Hj]. congruence. Qed.

Lemma create_agreed p w i fd :
  agreed w → lock_path w = None → procs w !! p = Some Create →
  agreed (set_place p (Created fd) (open_fd fd p i (set_lock (Some i) (<[i := 1]> (links w)) w))).
Proof.
  intros [H1 H2 H3 H4 H5 H6] Hl Hp.
  assert (Hdom : domain_path w = None).
  { destruct (domain_path w) as [t|] eqn:Ht; [|done]. destruct (H3 t eq_refl) as (d&_&Hd). congruence. }
  assert (Hnone : ∀ q b, procs w !! q = Some b → creating b = false ∧ knows b = None).
  { intros q b Hq. split.
    - destruct (creating b) eqn:Hb; [|done]. destruct (H2 q b Hq Hb) as [_ [j Hj]]. congruence.
    - destruct (knows b) as [d|] eqn:Hb; [|done]. specialize (H4 q b d Hq Hb). congruence. }
  constructor; simpl.
  - assert (Honly : ∀ q b, <[p := Created fd]> (procs w) !! q = Some b → creating b = true → q = p).
    { intros q b. destruct (decide (p = q)) as [->|]; [done|]. rewrite lookup_insert_ne by done. intros Hq.
      destruct (Hnone _ _ Hq). congruence. }
    intros q r b c Hq Hr Hb Hc. by rewrite (Honly q b Hq Hb), (Honly r c Hr Hc).
  - intros q b _ _. split; [done|by eexists].
  - congruence.
  - intros q b d. destruct (decide (p = q)) as [->|]; [rewrite lookup_insert_eq; by intros [= <-]|].
    rewrite lookup_insert_ne by done. intros Hq. destruct (Hnone _ _ Hq). congruence.
  - intros q b j. destruct (decide (p = q)) as [->|].
    + rewrite lookup_insert_eq. intros [= <-] [= <-]. simpl. by rewrite lookup_insert_eq.
    + rewrite lookup_insert_ne by done. intros Hq _. destruct (Hnone _ _ Hq). by destruct b.
  - intros q. destruct (decide (p = q)) as [->|]; [by rewrite lookup_insert_eq|]. by rewrite lookup_insert_ne.
Qed.

Lemma write_agreed p w d :
  agreed w → procs w !! p = Some (Write_domain d) → agreed (set_place p Settle_lock (set_domain (Some (Valid d)) w)).
Proof.
  intros [H1 H2 H3 H4 H5 H6] Hp. destruct (H2 _ _ Hp eq_refl) as [Hdom [i Hl]]. pose proof (H5 _ _ _ Hp Hl) as Hi. simpl in Hi.
  constructor; simpl.
  - intros q r b c. destruct (decide (p = q)) as [->|]; [rewrite lookup_insert_eq; by intros [= <-]|].
    destruct (decide (p = r)) as [->|]; [rewrite (lookup_insert_eq _ r); by intros _ [= <-]|].
    rewrite !lookup_insert_ne by done. apply H1.
  - intros q b. destruct (decide (p = q)) as [->|]; [rewrite lookup_insert_eq; by intros [= <-]|].
    rewrite lookup_insert_ne by done. intros Hq Hb. by destruct (H1 p q _ b Hp Hq eq_refl Hb).
  - intros t [= <-]. exists d. by rewrite Hi.
  - intros q b d'. destruct (decide (p = q)) as [->|]; [rewrite lookup_insert_eq; by intros [= <-]|].
    rewrite lookup_insert_ne by done. intros Hq Hk. specialize (H4 q b d' Hq Hk). congruence.
  - intros q b j. destruct (decide (p = q)) as [->|]; [rewrite lookup_insert_eq; by intros [= <-]|].
    rewrite lookup_insert_ne by done. apply H5.
  - intros q. destruct (decide (p = q)) as [->|]; [by rewrite lookup_insert_eq|]. by rewrite lookup_insert_ne.
Qed.

Lemma step_agreed w w' : step w w' → locks_ok w → agreed w → agreed w'.
Proof.
  intros Hs Hok Hag. destruct Hs as [p w Hp|p a w a' w' Ha Hs|p w]; [by apply (agreed_move p Check_lock w w)| |by apply agreed_kill].
  assert (Hmove : ∀ a', creating a' = false → (∀ d, knows a' = Some d → domain_path w = Some (Valid d)) →
    (∀ i, lock_path w = Some i → over p a' i (descriptions w)) → a' ≠ Refused Replaced → agreed (set_place p a' w)).
  { intros b Hb. apply (agreed_move p b w w); try done. congruence. }
  destruct Hs; try (by apply Hmove; try case_match).
  - by apply create_agreed.
  - destruct (ag_creating _ Hag _ _ Ha eq_refl) as [_ [j Hj]]. pose proof (ag_over _ Hag _ _ _ Ha Hj) as Ho. simpl in Ho.
    apply (agreed_move p _ w _ Hag); simpl; try done.
    + intros q b fd' Hq Hb Hfd. apply lookup_delete_ne. apply not_eq_sym. by eapply own_descriptions.
    + intros _. by exists (Created fd).
    + intros i0. rewrite Hj. intros [= <-]. congruence.
  - by apply write_agreed.
  - apply Hmove; destruct (domain_path w) as [[]|]; try done; destruct b; try done; by intros ? [= <-].
  - pose proof (ag_knows _ Hag _ _ _ Ha eq_refl) as Hd. destruct (ag_domain _ Hag _ Hd) as (d'&[= <-]&Hl).
    apply (agreed_move p _ w _ Hag); simpl; try done.
    + intros q b fd' Hq Hb Hfd. apply lookup_insert_ne. intros <-.
      destruct (lo_open _ Hok _ _ _ Hb Hfd) as [j Hj]. congruence.
    + by intros ? [= <-].
    + intros j Hj. rewrite lookup_insert_eq. split; congruence.
  - pose proof (ag_knows _ Hag _ _ _ Ha eq_refl) as Hd. destruct (ag_domain _ Hag _ Hd) as (d'&[= <-]&Hl).
    destruct (ag_over _ Hag _ _ _ Ha Hl) as [Hfd _]. congruence.
  - apply (agreed_move p _ w _ Hag); simpl; try done.
    intros q b fd' Hq Hb Hfd. apply lookup_delete_ne. apply not_eq_sym. by eapply own_descriptions.
  - pose proof (ag_knows _ Hag _ _ _ Ha eq_refl) as Hd. apply (agreed_move p _ w _ Hag); simpl; try done. by intros ? [= <-].
Qed.

Lemma reachable_agreed w : rtc step initial w → locks_ok w ∧ agreed w.
Proof.
  apply (rtc_ind_r (λ w, locks_ok w ∧ agreed w) initial).
  - split; [by apply reachable_locks_ok, rtc_refl|]. constructor; simpl; intros *; try by rewrite lookup_empty. done.
  - intros w1 w2 _ Hs [Hok Hag]. split; [eapply step_locks_ok; [by left|done]|by eapply step_agreed].
Qed.

(** First starts race to one domain.  When nobody touches the directory, any
    number of processes that start, race and die over it agree: every one that has
    read a domain has the one in the file, whose recorded inode is the lock file's;
    the file never changes once it is there; and nobody is ever told that the
    lock file was replaced.  At most one process is ever creating the domain. *)
Theorem first_starts_agree w w' :
  rtc step initial w → step w w' →
  (∀ p a d, procs w !! p = Some a → knows a = Some d →
     domain_path w = Some (Valid d) ∧ lock_path w = Some (lock_inode d)) ∧
  (∀ t, domain_path w = Some t → domain_path w' = Some t) ∧
  (∀ p, procs w !! p ≠ Some (Refused Replaced)) ∧
  (∀ p q a b, procs w !! p = Some a → procs w !! q = Some b → creating a = true → creating b = true → p = q).
Proof.
  intros [Hok Hag]%reachable_agreed Hs. split_and!; [| |apply Hag|by apply Hag].
  - intros p a d Hp Hk. pose proof (ag_knows _ Hag _ _ _ Hp Hk) as Hd. split; [done|].
    by destruct (ag_domain _ Hag _ Hd) as (d'&[= <-]&Hl).
  - intros t Ht. destruct Hs as [| |]; [done| |done]. destruct H0; try done. simpl.
    destruct (ag_creating _ Hag _ _ H eq_refl). congruence.
Qed.

(** ** One process from a first start to the lock *)

Definition the_domain : Domain := mk_domain "d" 5.
Definition held_world : world :=
  mk_world (Some 5%Z) {[5%Z := 1]} (Some (Valid the_domain)) {[4 := (1, 5%Z)]} {[5%Z := 4]} {[1 := Holding the_domain 4]}.

(** One step of process 1. *)
Ltac go c := eapply rtc_l; [eapply (acts 1); [vm_compute; reflexivity|eapply c; try (vm_compute; reflexivity)]|cbn].

Lemma holds_reachable : rtc step initial held_world.
Proof.
  eapply rtc_l; [by apply (starts 1)|cbn]. go p_check_lock. go p_check_domain.
  eapply rtc_l; [eapply (acts 1); [vm_compute; reflexivity|apply (p_create 1 _ 5 3); [done| |done]]|cbn].
  { intros [Hl|(fd&p&Hl)]; [by vm_compute in Hl; inversion Hl|]. simpl in Hl. by rewrite lookup_empty in Hl. }
  eapply rtc_l; [eapply (acts 1); [vm_compute; reflexivity|eapply (p_created 1 _ 3 5 "d"); vm_compute; reflexivity]|cbn].
  go p_write_domain. go p_settle_lock. go p_settle_domain. go p_read_lock. go p_read_text. go p_read_lock. go p_read_text.
  eapply rtc_l; [eapply (acts 1); [vm_compute; reflexivity|apply (p_open 1 _ _ 4 5); vm_compute; reflexivity]|cbn].
  eapply rtc_l; [eapply (acts 1); [vm_compute; reflexivity|apply (p_lock 1 _ _ _ 5); vm_compute; reflexivity]|cbn].
  match goal with |- rtc _ ?w _ => replace w with held_world by (vm_compute; reflexivity) end. apply rtc_refl.
Qed.

Lemma holds_any : rtc any_step initial held_world.
Proof. eapply rtc_subrel; [|exact holds_reachable]. intros w w' Hs. by left. Qed.

Theorem one_process_still_holds_witness :
  procs held_world !! 1 = Some (Holding the_domain 4) ∧ still_held held_world the_domain 4 = true ∧ 1 = 1.
Proof.
  assert (Hp : procs held_world !! 1 = Some (Holding the_domain 4)) by (vm_compute; reflexivity).
  assert (Hs : still_held held_world the_domain 4 = true) by (vm_compute; reflexivity).
  split; [exact Hp|]. split; [exact Hs|].
  exact (one_process_still_holds held_world 1 1 the_domain the_domain 4 4 holds_any Hp Hs Hp Hs).
Defined.

Theorem a_lock_has_a_living_holder_witness :
  ∃ p d fd, procs held_world !! p = Some (Holding d fd) ∧ lock_inode d = 5%Z.
Proof.
  apply (a_lock_has_a_living_holder held_world 5 holds_any). exists 4. vm_compute. reflexivity.
Defined.

Theorem first_starts_agree_witness :
  domain_path held_world = Some (Valid the_domain) ∧ lock_path held_world = Some (lock_inode the_domain) ∧
  domain_path (kill 1 held_world) = Some (Valid the_domain).
Proof.
  destruct (first_starts_agree held_world (kill 1 held_world) holds_reachable (dies 1 held_world)) as (H1&H2&_).
  assert (Hp : procs held_world !! 1 = Some (Holding the_domain 4)) by (vm_compute; reflexivity).
  destruct (H1 1 _ the_domain Hp eq_refl) as [Hd Hl]. split; [exact Hd|]. split; [exact Hl|]. exact (H2 _ Hd).
Defined.
