(* ===== verification/Wire.v ===== *)
(** What crosses the wire between the gateway and a node agent
    ([src/backend/app/node_agent/wire.py], with the chat primitives of
    [domain/entities/chat.py]).

    Encoding is total; decoding is in [res], with the two exceptions the code
    raises: [WireError], which the agent answers with a 400, and Python's own
    [OverflowError].  Error messages are not modelled.  A Python [dict] of JSON
    values is a [Json.dict]; [float] of an integer rounds to the nearest binary64,
    ties to even, and overflows where Python does.  The theorems are the round
    trips, and that whatever decodes is valid. *)

From S2P Require Export Json.

(** * Data *)

Inductive MessageRole : Set := SYSTEM | USER | ASSISTANT | TOOL.
Inductive ToolChoiceMode : Set := AUTO | NONE | REQUIRED | FUNCTION.

Definition role_value (r : MessageRole) : string :=
  match r with SYSTEM => "system" | USER => "user" | ASSISTANT => "assistant" | TOOL => "tool" end.
Definition mode_value (m : ToolChoiceMode) : string :=
  match m with AUTO => "auto" | NONE => "none" | REQUIRED => "required" | FUNCTION => "function" end.

Record ToolCall := mk_tool_call { tc_id : string; tc_name : string; tc_arguments : string }.
Record ToolDefinition := mk_tool { tool_name : string; tool_description : string; tool_parameters : dict }.
Record ToolChoice := mk_choice { choice_mode : ToolChoiceMode; function_name : option string }.
Record SamplingOptions := mk_sampling {
  temperature : option spec_float; top_p : option spec_float; stop : list string; seed : option Z
}.
Record Message := mk_message {
  role : MessageRole; content : string; tool_calls : list ToolCall;
  tool_call_id : option string; msg_name : option string
}.

Record GenerationRequest := mk_generation {
  g_ref : string; messages : list Message; max_tokens : Z; thinking : bool;
  tools : list ToolDefinition; tool_choice : option ToolChoice;
  sampling : option SamplingOptions; context_length : Z
}.
Record EmbeddingRequest := mk_embedding {
  e_ref : string; texts : list string; expected_manifest : option string
}.
Record LifecycleRequest := mk_lifecycle {
  l_op_id : string; l_ref : string; l_context_length : option Z; manifest_digest : option string
}.
Record Envelope := mk_envelope {
  op_id : string; request_id : option string; payload_hash : option string; store_output : bool
}.

Inductive wire_exn : Set := WireError | OverflowError.
Abbreviation decoded := (res wire_exn).

Definition WIRE_VERSION : Z := 1.

(** * Encoding *)

Definition envelope_fields (e : Envelope) : dict :=
  [("op_id", JStr (op_id e)); ("request_id", jopt_str (request_id e));
   ("payload_hash", jopt_str (payload_hash e)); ("store_output", JBool (store_output e))].

Definition encode_tool_call (c : ToolCall) : json :=
  JObj [("id", JStr (tc_id c)); ("name", JStr (tc_name c)); ("arguments", JStr (tc_arguments c))].

Definition encode_message (m : Message) : json :=
  JObj [("role", JStr (role_value (role m)));
        ("content", JStr (content m));
        ("tool_calls", JArr (encode_tool_call <$> tool_calls m));
        ("tool_call_id", jopt_str (tool_call_id m));
        ("name", jopt_str (msg_name m))].

Definition encode_tool (t : ToolDefinition) : json :=
  JObj [("name", JStr (tool_name t)); ("description", JStr (tool_description t));
        ("parameters", JObj (tool_parameters t))].

Definition encode_tool_choice (c : ToolChoice) : json :=
  JObj [("mode", JStr (mode_value (choice_mode c))); ("function_name", jopt_str (function_name c))].

Definition encode_sampling (s : SamplingOptions) : json :=
  JObj [("temperature", from_option JFloat JNull (temperature s));
        ("top_p", from_option JFloat JNull (top_p s));
        ("stop", JArr (JStr <$> stop s));
        ("seed", jopt_int (seed s))].

Definition encode_generation (r : GenerationRequest) (e : Envelope) : json :=
  JObj ([("version", JInt WIRE_VERSION)] ++ envelope_fields e ++
    [("ref", JStr (g_ref r));
     ("messages", JArr (encode_message <$> messages r));
     ("max_tokens", JInt (max_tokens r));
     ("thinking", JBool (thinking r));
     ("tools", JArr (encode_tool <$> tools r));
     ("tool_choice", from_option encode_tool_choice JNull (tool_choice r));
     ("sampling", from_option encode_sampling JNull (sampling r));
     ("context_length", JInt (context_length r))]).

(** [{... if x else {}}]: an absent or empty optional string sends no field. *)
Definition optional_field (k : string) (v : option string) : dict :=
  match v with Some s => if String.eqb s "" then [] else [(k, JStr s)] | None => [] end.

Definition encode_embedding (r : EmbeddingRequest) (e : Envelope) : json :=
  JObj ([("version", JInt WIRE_VERSION)] ++ envelope_fields e ++
    [("ref", JStr (e_ref r)); ("texts", JArr (JStr <$> texts r))] ++
    optional_field "expected_manifest" (expected_manifest r)).

Definition encode_lifecycle (r : LifecycleRequest) : json :=
  JObj ([("version", JInt WIRE_VERSION); ("op_id", JStr (l_op_id r)); ("ref", JStr (l_ref r));
         ("context_length", jopt_int (l_context_length r))] ++
    optional_field "manifest_digest" (manifest_digest r)).

(** * Decoding *)

Definition get_object (raw : json) : decoded dict :=
  match raw with JObj d => Ret d | _ => Raise WireError end.

Definition get_list (d : dict) (k : string) : decoded (list json) :=
  match dict_get d k with JArr l => Ret l | _ => Raise WireError end.

Definition get_str (d : dict) (k : string) (empty : bool) : decoded string :=
  match dict_get d k with
  | JStr s => if negb empty && String.eqb s "" then Raise WireError else Ret s
  | _ => Raise WireError
  end.

Definition get_optional_str (d : dict) (k : string) : decoded (option string) :=
  match dict_get d k with JNull => Ret None | JStr s => Ret (Some s) | _ => Raise WireError end.

Definition get_bool (d : dict) (k : string) : decoded bool :=
  match dict_get d k with JBool b => Ret b | _ => Raise WireError end.

Definition get_positive_int (d : dict) (k : string) : decoded Z :=
  match dict_get d k with
  | JInt z => if (z <=? 0)%Z then Raise WireError else Ret z
  | _ => Raise WireError
  end.

Definition get_optional_int (d : dict) (k : string) : decoded (option Z) :=
  match dict_get d k with JNull => Ret None | JInt z => Ret (Some z) | _ => Raise WireError end.

(** [float(z)]: the nearest binary64, or [OverflowError]. *)
Definition float_of_int (z : Z) : decoded spec_float :=
  match binary_normalize 53 1024 z 0 false with
  | S754_infinity _ => Raise OverflowError
  | f => Ret f
  end.

Definition get_optional_number (d : dict) (k : string) : decoded (option spec_float) :=
  match dict_get d k with
  | JNull => Ret None
  | JFloat f => Ret (Some f)
  | JInt z => let! f := float_of_int z in Ret (Some f)
  | _ => Raise WireError
  end.

(** Python's [x == 1]: [True] and [1.0] are equal to [1]. *)
Definition equals_version (j : json) : bool :=
  match j with
  | JInt z => (z =? WIRE_VERSION)%Z
  | JBool b => b
  | JFloat f => SFeqb f (binary_normalize 53 1024 WIRE_VERSION 0 false)
  | _ => false
  end.

Definition check_version (d : dict) : decoded unit :=
  ensure (equals_version (dict_get d "version")) WireError.

Definition parse_role (s : string) : decoded MessageRole :=
  match first_match (λ r, String.eqb (role_value r) s) [SYSTEM; USER; ASSISTANT; TOOL] with
  | Some r => Ret r | None => Raise WireError
  end.

Definition parse_mode (s : string) : decoded ToolChoiceMode :=
  match first_match (λ m, String.eqb (mode_value m) s) [AUTO; NONE; REQUIRED; FUNCTION] with
  | Some m => Ret m | None => Raise WireError
  end.

Definition decode_tool_call (raw : json) : decoded ToolCall :=
  let! c := get_object raw in
  let! id := get_str c "id" false in
  let! name := get_str c "name" false in
  let! arguments := get_str c "arguments" false in
  Ret (mk_tool_call id name arguments).

Definition decode_message (raw : json) : decoded Message :=
  let! d := get_object raw in
  let! role_text := get_str d "role" false in
  let! role := parse_role role_text in
  let! raw_calls := get_list d "tool_calls" in
  let! calls := res_map decode_tool_call raw_calls in
  let! content := get_str d "content" true in
  let! tool_call_id := get_optional_str d "tool_call_id" in
  let! name := get_optional_str d "name" in
  Ret (mk_message role content calls tool_call_id name).

Definition decode_tool (raw : json) : decoded ToolDefinition :=
  let! d := get_object raw in
  let! parameters := get_object (dict_get d "parameters") in
  let! name := get_str d "name" false in
  let! description := get_str d "description" true in
  Ret (mk_tool name description parameters).

Definition decode_tool_choice (raw : json) : decoded (option ToolChoice) :=
  match raw with
  | JNull => Ret None
  | _ =>
      let! d := get_object raw in
      let! mode_text := get_str d "mode" false in
      let! mode := parse_mode mode_text in
      let! function := get_optional_str d "function_name" in
      Ret (Some (mk_choice mode function))
  end.

Definition string_item (j : json) : decoded string :=
  match j with JStr s => Ret s | _ => Raise WireError end.

(** [data.get("stop", [])]: an absent stop is the empty list, a null is not. *)
Definition decode_sampling (raw : json) : decoded (option SamplingOptions) :=
  match raw with
  | JNull => Ret None
  | _ =>
      let! d := get_object raw in
      let! stop :=
        match dict_lookup "stop" d with
        | None => Ret []
        | Some (JArr l) => res_map string_item l
        | Some _ => Raise WireError
        end in
      let! temperature := get_optional_number d "temperature" in
      let! top_p := get_optional_number d "top_p" in
      let! seed := get_optional_int d "seed" in
      Ret (Some (mk_sampling temperature top_p stop seed))
  end.

Definition MAX_OP_ID : nat := 36.
Definition MAX_REQUEST_ID : nat := 128.
Definition MAX_PAYLOAD_HASH : nat := 80.

Definition fits (limit : nat) (s : option string) : bool :=
  match s with Some s => (String.length s <=? limit)%nat | None => true end.

Definition decode_envelope (d : dict) : decoded Envelope :=
  let! op := get_str d "op_id" false in
  let! req := get_optional_str d "request_id" in
  let! hash := get_optional_str d "payload_hash" in
  let! keep := get_bool d "store_output" in
  let! _ := ensure (fits MAX_OP_ID (Some op) && fits MAX_REQUEST_ID req && fits MAX_PAYLOAD_HASH hash)
              WireError in
  Ret (mk_envelope op req hash keep).

Definition decode_generation (body : json) : decoded (GenerationRequest * Envelope) :=
  let! d := get_object body in
  let! _ := check_version d in
  let! ref := get_str d "ref" false in
  let! raw_messages := get_list d "messages" in
  let! messages := res_map decode_message raw_messages in
  let! max_tokens := get_positive_int d "max_tokens" in
  let! thinking := get_bool d "thinking" in
  let! raw_tools := get_list d "tools" in
  let! tools := res_map decode_tool raw_tools in
  let! tool_choice := decode_tool_choice (dict_get d "tool_choice") in
  let! sampling := decode_sampling (dict_get d "sampling") in
  let! context_length := get_positive_int d "context_length" in
  let! _ := ensure (negb (match messages with [] => true | _ => false end)) WireError in
  let! envelope := decode_envelope d in
  Ret (mk_generation ref messages max_tokens thinking tools tool_choice sampling context_length,
       envelope).

Definition decode_embedding (body : json) : decoded (EmbeddingRequest * Envelope) :=
  let! d := get_object body in
  let! _ := check_version d in
  let! raw := get_list d "texts" in
  let! _ := ensure (negb (match raw with [] => true | _ => false end)) WireError in
  let! texts := res_map string_item raw in
  let! expected := get_optional_str d "expected_manifest" in
  let! _ := ensure (match expected with
                    | Some s => negb (String.eqb s "") && fits 80 (Some s)
                    | None => true end) WireError in
  let! ref := get_str d "ref" false in
  let! envelope := decode_envelope d in
  Ret (mk_embedding ref texts expected, envelope).

(** [re.compile("[0-9a-f]{64}").fullmatch] *)
Definition is_hex_digit (a : Ascii.ascii) : bool :=
  let c := ascii_code a in ((48 <=? c) && (c <=? 57) || (97 <=? c) && (c <=? 102))%Z.
Definition is_digest (s : string) : bool :=
  (String.length s =? 64)%nat && forallb is_hex_digit (String.list_ascii_of_string s).

Definition decode_lifecycle (body : json) : decoded LifecycleRequest :=
  let! d := get_object body in
  let! _ := check_version d in
  let! op := get_str d "op_id" false in
  let! ref := get_str d "ref" false in
  let! context := get_optional_int d "context_length" in
  let! digest := get_optional_str d "manifest_digest" in
  let! _ := ensure (fits MAX_OP_ID (Some op)) WireError in
  let! _ := ensure (match context with Some z => negb (z <=? 0)%Z | None => true end) WireError in
  let! _ := ensure (match digest with Some s => is_digest s | None => true end) WireError in
  Ret (mk_lifecycle op ref context digest).

(** * What a valid request is *)

Definition nonempty (s : string) : bool := negb (String.eqb s "").

Definition valid_tool_call (c : ToolCall) : bool :=
  nonempty (tc_id c) && nonempty (tc_name c) && nonempty (tc_arguments c).

Definition valid_envelope (e : Envelope) : bool :=
  nonempty (op_id e) && fits MAX_OP_ID (Some (op_id e)) && fits MAX_REQUEST_ID (request_id e) &&
  fits MAX_PAYLOAD_HASH (payload_hash e).

Definition valid_generation (r : GenerationRequest) : bool :=
  nonempty (g_ref r) && negb (match messages r with [] => true | _ => false end) &&
  forallb (λ m, forallb valid_tool_call (tool_calls m)) (messages r) &&
  (0 <? max_tokens r)%Z && forallb (λ t, nonempty (tool_name t)) (tools r) &&
  (0 <? context_length r)%Z.

Definition valid_embedding (r : EmbeddingRequest) : bool :=
  nonempty (e_ref r) && negb (match texts r with [] => true | _ => false end) &&
  match expected_manifest r with Some s => nonempty s && fits 80 (Some s) | None => true end.

Definition valid_lifecycle (r : LifecycleRequest) : bool :=
  nonempty (l_op_id r) && fits MAX_OP_ID (Some (l_op_id r)) && nonempty (l_ref r) &&
  match l_context_length r with Some z => (0 <? z)%Z | None => true end &&
  match manifest_digest r with Some s => is_digest s | None => true end.

(** * Reading one field *)

Lemma get_str_ret d k empty s :
  get_str d k empty = Ret s ↔ dict_get d k = JStr s ∧ (empty = false → nonempty s = true).
Proof.
  unfold get_str, nonempty. destruct (dict_get d k) as [| | | |s'| |]; try (split; [done|by intros [? _]]).
  destruct empty; simpl; [split; [by intros [= <-]|by intros [[= <-] _]]|].
  destruct (String.eqb s' "") eqn:He; simpl.
  - split; [done|]. intros [[= <-] Hn]. rewrite He in Hn. by specialize (Hn eq_refl).
  - split; [intros [= <-]|by intros [[= <-] _]]. by rewrite He.
Qed.

Lemma get_positive_int_ret d k z :
  get_positive_int d k = Ret z ↔ dict_get d k = JInt z ∧ (0 < z)%Z.
Proof.
  unfold get_positive_int. destruct (dict_get d k) as [| |z'| | | |]; try (split; [done|by intros [? _]]).
  destruct (Z.leb_spec z' 0); split; try done.
  - intros [[= <-] ?]; lia.
  - by intros [= <-].
  - by intros [[= <-] ?].
Qed.

Lemma get_optional_str_ret d k o : get_optional_str d k = Ret o ↔ dict_get d k = jopt_str o.
Proof.
  unfold get_optional_str, jopt_str.
  destruct (dict_get d k), o; simpl; split; try done; intros [= <-]; done.
Qed.

Lemma get_optional_int_ret d k o : get_optional_int d k = Ret o ↔ dict_get d k = jopt_int o.
Proof.
  unfold get_optional_int, jopt_int.
  destruct (dict_get d k), o; simpl; split; try done; intros [= <-]; done.
Qed.

Lemma get_optional_number_float d k o :
  dict_get d k = from_option JFloat JNull o → get_optional_number d k = Ret o.
Proof. unfold get_optional_number. intros ->. by destruct o. Qed.

Lemma parse_role_value r : parse_role (role_value r) = Ret r.
Proof. by destruct r. Qed.

Lemma parse_mode_value m : parse_mode (mode_value m) = Ret m.
Proof. by destruct m. Qed.

Lemma string_items l : res_map string_item (JStr <$> l) = Ret l.
Proof. apply res_map_fmap. by apply Forall_true. Qed.

Lemma string_items_ret l ss : res_map string_item l = Ret ss ↔ l = JStr <$> ss.
Proof.
  rewrite res_map_ret. split.
  - induction 1 as [|j s l1 ss1 Hj _ IH]; simpl; [done|]. destruct j; simplify_eq/=. done.
  - intros ->. induction ss; simpl; by constructor.
Qed.

(** * Round trips, part by part *)

(** Read the fields of a literal object. *)
Ltac bound := cbn [and_then mbind res_bind get_object].
Ltac read_fields := repeat (bound; first
  [ rewrite (proj2 (get_str_ret _ _ _ _)) by (split; [reflexivity|done])
  | rewrite (proj2 (get_optional_str_ret _ _ _)) by reflexivity
  | rewrite (proj2 (get_optional_int_ret _ _ _)) by reflexivity
  | rewrite (proj2 (get_positive_int_ret _ _ _)) by (split; [reflexivity|lia]) ]); bound.

Lemma decode_tool_call_encode c :
  valid_tool_call c = true → decode_tool_call (encode_tool_call c) = Ret c.
Proof.
  unfold valid_tool_call. rewrite !andb_true_iff. intros [[Hi Hn] Ha].
  destruct c as [i n a]. simpl in *. unfold decode_tool_call, encode_tool_call. by read_fields.
Qed.

Lemma decode_message_encode m :
  forallb valid_tool_call (tool_calls m) = true → decode_message (encode_message m) = Ret m.
Proof.
  destruct m as [r c calls tid name]. simpl. intros Hc. unfold decode_message, encode_message.
  assert (nonempty (role_value r) = true) by (by destruct r).
  read_fields. rewrite parse_role_value. bound. cbn [get_list dict_get dict_lookup from_option].
  change (get_list _ "tool_calls") with (Ret (encode_tool_call <$> calls) : decoded _). bound.
  rewrite res_map_fmap; [by read_fields|].
  apply Forall_forall. intros x Hx.
  apply decode_tool_call_encode. by apply (proj1 (forallb_forall _ _) Hc), list_elem_of_In.
Qed.

Lemma decode_tool_encode t : nonempty (tool_name t) = true → decode_tool (encode_tool t) = Ret t.
Proof. destruct t as [n de p]. simpl. intros Hn. unfold decode_tool, encode_tool. read_fields.
  cbn. by read_fields. Qed.

Lemma decode_tool_choice_encode c :
  decode_tool_choice (from_option encode_tool_choice JNull c) = Ret c.
Proof.
  destruct c as [[m f]|]; [|done]. simpl. assert (nonempty (mode_value m) = true) by (by destruct m).
  read_fields. by rewrite parse_mode_value.
Qed.

Lemma decode_sampling_encode s : decode_sampling (from_option encode_sampling JNull s) = Ret s.
Proof.
  destruct s as [[te tp st se]|]; [|done]. unfold from_option, encode_sampling. cbn [decode_sampling temperature top_p stop seed]. bound.
  change (dict_lookup "stop" _) with (Some (JArr (JStr <$> st))). cbv beta iota.
  rewrite string_items. bound.
  rewrite (get_optional_number_float _ _ te) by reflexivity. bound.
  rewrite (get_optional_number_float _ _ tp) by reflexivity. by read_fields.
Qed.

Lemma decode_envelope_ret d e :
  decode_envelope d = Ret e ↔
  dict_get d "op_id" = JStr (op_id e) ∧ dict_get d "request_id" = jopt_str (request_id e) ∧
  dict_get d "payload_hash" = jopt_str (payload_hash e) ∧
  dict_get d "store_output" = JBool (store_output e) ∧ valid_envelope e = true.
Proof.
  unfold decode_envelope, valid_envelope. split.
  - intros H. apply res_bind_ret in H as (op&Hop&H). apply res_bind_ret in H as (req&Hreq&H).
    apply res_bind_ret in H as (hash&Hhash&H). apply res_bind_ret in H as (keep&Hkeep&H).
    apply res_bind_ret in H as (u&Hfit&[= <-]). simpl.
    apply get_str_ret in Hop as [? Hne]. apply get_optional_str_ret in Hreq, Hhash.
    apply ensure_ret in Hfit. rewrite !andb_true_iff in Hfit. destruct Hfit as [[H1 H2] H3].
    simpl in *. rewrite (Hne eq_refl), H1, H2, H3.
    unfold get_bool in Hkeep. destruct (dict_get d "store_output"); simplify_eq. by split_and!.
  - destruct e as [op req hash keep]. simpl. rewrite !andb_true_iff.
    intros (Hop&Hreq&Hhash&Hkeep&[[[Hne H1] H2] H3]).
    rewrite (proj2 (get_str_ret d "op_id" false op)) by done. bound.
    rewrite (proj2 (get_optional_str_ret _ _ _) Hreq). bound.
    rewrite (proj2 (get_optional_str_ret _ _ _) Hhash). bound.
    unfold get_bool. rewrite Hkeep. bound. unfold fits in *. by rewrite H1, H2, H3.
Qed.

(** * What decodes is valid *)

Lemma decode_tool_call_valid j c : decode_tool_call j = Ret c → valid_tool_call c = true.
Proof.
  unfold decode_tool_call. intros H. apply res_bind_ret in H as (d&_&H).
  apply res_bind_ret in H as (i&[_ Hi]%get_str_ret&H).
  apply res_bind_ret in H as (n&[_ Hn]%get_str_ret&H).
  apply res_bind_ret in H as (a&[_ Ha]%get_str_ret&[= <-]).
  unfold valid_tool_call. simpl. by rewrite Hi, Hn, Ha.
Qed.

Lemma res_map_forallb {A B E} (f : A → res E B) (p : B → bool) l ys :
  (∀ x y, f x = Ret y → p y = true) → res_map f l = Ret ys → forallb p ys = true.
Proof.
  intros Hp H%res_map_ret. induction H as [|x y l1 ys1 Hx _ IH]; simpl; [done|].
  by rewrite (Hp _ _ Hx), IH.
Qed.

Lemma decode_message_valid j m :
  decode_message j = Ret m → forallb valid_tool_call (tool_calls m) = true.
Proof.
  unfold decode_message. intros H. inv_res H. injection H as <-. simpl.
  eapply res_map_forallb; [apply decode_tool_call_valid|eassumption].
Qed.

Lemma decode_tool_valid j t : decode_tool j = Ret t → nonempty (tool_name t) = true.
Proof.
  unfold decode_tool. intros H. inv_res H. injection H as <-. simpl.
  match goal with Hn : get_str _ "name" false = _ |- _ => apply get_str_ret in Hn as [_ Hn] end.
  auto.
Qed.

Lemma decode_generation_valid body r e :
  decode_generation body = Ret (r, e) → valid_generation r = true ∧ valid_envelope e = true.
Proof.
  unfold decode_generation. intros H. inv_res H. injection H as <- <-.
  repeat match goal with
  | H : get_str _ "ref" false = _ |- _ => apply get_str_ret in H as [_ Href]
  | H : get_positive_int _ "max_tokens" = _ |- _ => apply get_positive_int_ret in H as [_ Hmax%Z.ltb_lt]
  | H : get_positive_int _ "context_length" = _ |- _ => apply get_positive_int_ret in H as [_ Hctx%Z.ltb_lt]
  | H : ensure _ _ = _ |- _ => apply ensure_ret in H
  | H : decode_envelope _ = _ |- _ => apply decode_envelope_ret in H as (_&_&_&_&?)
  | H : res_map decode_message _ = _ |- _ =>
      pose proof (res_map_forallb _ _ _ _ decode_message_valid H) as Hms; clear H
  | H : res_map decode_tool _ = _ |- _ =>
      pose proof (res_map_forallb _ _ _ _ decode_tool_valid H) as Hts; clear H
  end.
  split; [|done]. unfold valid_generation. simpl.
  specialize (Href eq_refl). by repeat (rewrite andb_true_iff; split).
Qed.

(** What decodes was in the body. *)
Lemma decode_generation_read body r e :
  decode_generation body = Ret (r, e) →
  ∃ d, body = JObj d ∧ dict_get d "ref" = JStr (g_ref r) ∧ dict_get d "max_tokens" = JInt (max_tokens r) ∧
    dict_get d "context_length" = JInt (context_length r) ∧ dict_get d "thinking" = JBool (thinking r) ∧
    dict_get d "op_id" = JStr (op_id e) ∧ dict_get d "request_id" = jopt_str (request_id e) ∧
    dict_get d "payload_hash" = jopt_str (payload_hash e) ∧ dict_get d "store_output" = JBool (store_output e).
Proof.
  unfold decode_generation. intros H. inv_res H. injection H as <- <-. simpl.
  repeat match goal with
  | H : get_str _ "ref" false = _ |- _ => apply get_str_ret in H as [? _]
  | H : get_positive_int _ _ = _ |- _ => apply get_positive_int_ret in H as [? _]
  | H : decode_envelope _ = _ |- _ => apply decode_envelope_ret in H as (?&?&?&?&_)
  | H : get_bool _ "thinking" = _ |- _ =>
      unfold get_bool in H; destruct (dict_get _ "thinking") eqn:?; simplify_eq
  | H : get_object body = _ |- _ => destruct body; simplify_eq/=
  end.
  by eexists.
Qed.

Lemma nonempty_true s : nonempty s = true → s ≠ "".
Proof. unfold nonempty. intros H ->. done. Qed.

Lemma encode_fields r e k :
  k ∉ ["version"; "op_id"; "request_id"; "payload_hash"; "store_output"] →
  dict_get ([("version", JInt WIRE_VERSION)] ++ envelope_fields e ++ r) k = dict_get r k.
Proof.
  intros Hk. unfold dict_get. simpl. rewrite !decide_False by set_solver. done.
Qed.

Lemma decode_envelope_encode rest e :
  valid_envelope e = true →
  decode_envelope ([("version", JInt WIRE_VERSION)] ++ envelope_fields e ++ rest) = Ret e.
Proof. intros Hv. by apply decode_envelope_ret. Qed.

Lemma decode_encode_generation r e :
  valid_generation r = true → valid_envelope e = true →
  decode_generation (encode_generation r e) = Ret (r, e).
Proof.
  intros Hr He.
  unfold valid_generation in Hr. rewrite !andb_true_iff in Hr.
  destruct Hr as [[[[[Href Hne] Hms] Hmax%Z.ltb_lt] Hts] Hctx%Z.ltb_lt].
  unfold decode_generation, encode_generation. bound.
  change (check_version _) with (Ret tt : decoded unit). bound.
  rewrite (proj2 (get_str_ret _ _ _ (g_ref r))) by (split; [reflexivity|done]). bound.
  change (get_list _ "messages") with (Ret (encode_message <$> messages r) : decoded _). bound.
  rewrite res_map_fmap by (apply Forall_forall; intros m Hm; apply decode_message_encode;
    by apply (proj1 (forallb_forall _ _) Hms), list_elem_of_In). bound.
  rewrite (proj2 (get_positive_int_ret _ _ (max_tokens r))) by (split; [reflexivity|done]). bound.
  change (get_bool _ "thinking") with (Ret (thinking r) : decoded _). bound.
  change (get_list _ "tools") with (Ret (encode_tool <$> tools r) : decoded _). bound.
  rewrite res_map_fmap by (apply Forall_forall; intros t Ht; apply decode_tool_encode;
    by apply (proj1 (forallb_forall _ _) Hts), list_elem_of_In). bound.
  change (dict_get _ "tool_choice") with (from_option encode_tool_choice JNull (tool_choice r)).
  rewrite decode_tool_choice_encode. bound.
  change (dict_get _ "sampling") with (from_option encode_sampling JNull (sampling r)).
  rewrite decode_sampling_encode. bound.
  rewrite (proj2 (get_positive_int_ret _ _ (context_length r))) by (split; [reflexivity|done]). bound.
  rewrite Hne. bound. rewrite decode_envelope_encode by done. by destruct r.
Qed.


Lemma decode_encode_embedding r e :
  valid_embedding r = true → valid_envelope e = true →
  decode_embedding (encode_embedding r e) = Ret (r, e).
Proof.
  destruct r as [ref ts ex]. unfold valid_embedding. simpl. rewrite !andb_true_iff.
  intros [[Href Hne] Hex] He. unfold decode_embedding, encode_embedding. bound.
  change (check_version _) with (Ret tt : decoded unit). bound.
  change (get_list _ "texts") with (Ret (JStr <$> ts) : decoded _). bound.
  assert (negb (match JStr <$> ts with [] => true | _ => false end) = true) as Hne'
    by (by destruct ts). rewrite Hne'. bound. rewrite string_items. bound.
  assert (∀ d1, dict_get (d1 ++ optional_field "expected_manifest" ex) "expected_manifest" =
            (if bool_decide (dict_lookup "expected_manifest" d1 = None) then jopt_str ex
             else dict_get d1 "expected_manifest")) as Hget.
  { intros d1. unfold dict_get. induction d1 as [|[k v] d1 IH]; simpl.
    - destruct ex as [s|]; [|done]. simpl. unfold nonempty in Hex. by destruct (String.eqb s "").
    - destruct (decide _); [done|]. exact IH. }
  rewrite (proj2 (get_optional_str_ret _ _ ex)) by exact (Hget
    ([("version", JInt WIRE_VERSION)] ++ envelope_fields e ++
     [("ref", JStr ref); ("texts", JArr (JStr <$> ts))])). bound.
  assert (match ex with Some s => negb (String.eqb s "") && fits 80 (Some s) | None => true end = true)
    as -> by done. bound.
  rewrite (proj2 (get_str_ret _ _ _ ref)) by (split; [reflexivity|done]). bound.
  by rewrite decode_envelope_encode.
Qed.

Lemma decode_embedding_valid body r e :
  decode_embedding body = Ret (r, e) → valid_embedding r = true ∧ valid_envelope e = true.
Proof.
  unfold decode_embedding. intros H. inv_res H. injection H as <- <-.
  repeat match goal with
  | H : get_str _ "ref" false = _ |- _ => apply get_str_ret in H as [_ Href]
  | H : ensure _ _ = _ |- _ => apply ensure_ret in H
  | H : decode_envelope _ = _ |- _ => apply decode_envelope_ret in H as (_&_&_&_&?)
  | H : res_map string_item _ = _ |- _ => apply string_items_ret in H; subst
  end.
  split; [|done]. unfold valid_embedding. simpl. rewrite (Href eq_refl).
  repeat (rewrite andb_true_iff; split); try done.
  match goal with H : negb (match JStr <$> ?l with _ => _ end) = true |- _ => by destruct l end.
Qed.

Lemma decode_encode_lifecycle r : valid_lifecycle r = true → decode_lifecycle (encode_lifecycle r) = Ret r.
Proof.
  destruct r as [op ref ctx dg]. unfold valid_lifecycle. simpl. rewrite !andb_true_iff.
  intros [[[[Hop Hfit] Href] Hctx] Hdg]. unfold decode_lifecycle, encode_lifecycle. bound.
  change (check_version _) with (Ret tt : decoded unit). bound.
  rewrite (proj2 (get_str_ret _ _ _ op)) by (split; [reflexivity|done]). bound.
  rewrite (proj2 (get_str_ret _ _ _ ref)) by (split; [reflexivity|done]). bound.
  rewrite (proj2 (get_optional_int_ret _ _ ctx)) by reflexivity. bound.
  rewrite (proj2 (get_optional_str_ret _ _ dg)).
  2: { destruct dg as [s|]; [|reflexivity]. unfold optional_field. cbn [manifest_digest].
       destruct (String.eqb_spec s ""); [by subst|reflexivity]. }
  bound. unfold fits. rewrite Hfit. bound.
  assert (match ctx with Some z => negb (z <=? 0)%Z | None => true end = true) as ->.
  { destruct ctx as [z|]; [|done]. unbool. rewrite negb_true_iff. by apply Z.leb_gt. }
  bound. by rewrite Hdg.
Qed.

Lemma decode_lifecycle_valid body r : decode_lifecycle body = Ret r → valid_lifecycle r = true.
Proof.
  unfold decode_lifecycle. intros H. inv_res H. injection H as <-.
  repeat match goal with
  | H : get_str _ _ false = _ |- _ => apply get_str_ret in H as [_ ?]
  | H : ensure _ _ = _ |- _ => apply ensure_ret in H
  end.
  unfold valid_lifecycle. simpl in *.
  repeat (rewrite andb_true_iff; split); auto.
  match goal with |- match ?o with _ => _ end = true => destruct o as [z|]; [|done] end.
  unbool. by apply Z.ltb_lt.
Qed.

(** * Guarantees *)

(** C37: A generation survives the wire.  Decoding what the gateway encoded
    gives back exactly the request and the envelope when they are valid, and
    an invalid one never comes through unchanged. *)
Theorem generation_round_trip r e :
  decode_generation (encode_generation r e) = Ret (r, e) ↔
  valid_generation r = true ∧ valid_envelope e = true.
Proof.
  split; [apply decode_generation_valid|]. intros [Hr He]. by apply decode_encode_generation.
Qed.

(** Embedding and lifecycle requests survive the wire the same way. *)
Theorem embedding_and_lifecycle_round_trip r e l :
  (decode_embedding (encode_embedding r e) = Ret (r, e) ↔
     valid_embedding r = true ∧ valid_envelope e = true) ∧
  (decode_lifecycle (encode_lifecycle l) = Ret l ↔ valid_lifecycle l = true).
Proof.
  split; split.
  - apply decode_embedding_valid.
  - intros [Hr He]. by apply decode_encode_embedding.
  - apply decode_lifecycle_valid.
  - apply decode_encode_lifecycle.
Qed.

(** C38: Whatever decodes is valid.  A request that decodes, from any body,
    satisfies every bound the agent relies on: a non-empty reference and at least
    one message, positive token and context figures, every tool call of every
    message with its id, its name and its arguments, every tool with its name, and
    an envelope that fits the columns it lands in.  Its figures, its reference and
    its envelope are the body's.  And encoding it again yields a body that decodes
    to the same request. *)
Theorem decoded_is_valid body r e :
  decode_generation body = Ret (r, e) →
  g_ref r ≠ "" ∧ messages r ≠ [] ∧ (0 < max_tokens r)%Z ∧ (0 < context_length r)%Z ∧
  (∀ m c, m ∈ messages r → c ∈ tool_calls m → tc_id c ≠ "" ∧ tc_name c ≠ "" ∧ tc_arguments c ≠ "") ∧
  (∀ t, t ∈ tools r → tool_name t ≠ "") ∧
  op_id e ≠ "" ∧ String.length (op_id e) ≤ 36 ∧
  (∀ s, request_id e = Some s → String.length s ≤ 128) ∧
  (∀ s, payload_hash e = Some s → String.length s ≤ 80) ∧
  (∃ d, body = JObj d ∧ dict_get d "ref" = JStr (g_ref r) ∧ dict_get d "max_tokens" = JInt (max_tokens r) ∧
    dict_get d "context_length" = JInt (context_length r) ∧ dict_get d "thinking" = JBool (thinking r) ∧
    dict_get d "op_id" = JStr (op_id e) ∧ dict_get d "request_id" = jopt_str (request_id e) ∧
    dict_get d "payload_hash" = jopt_str (payload_hash e) ∧ dict_get d "store_output" = JBool (store_output e)) ∧
  decode_generation (encode_generation r e) = Ret (r, e).
Proof.
  intros Hdec. pose proof (decode_generation_read body r e Hdec) as Hread.
  destruct (decode_generation_valid body r e Hdec) as [Hr He].
  pose proof (decode_encode_generation r e Hr He) as Hrt.
  unfold valid_generation, valid_envelope in *. rewrite !andb_true_iff in *.
  destruct Hr as [[[[[Href Hne] Hcalls] Hmax] Htools] Hctx], He as [[[Hop H1] H2] H3].
  unfold fits in *. split_and!; try done; try (by apply nonempty_true); try (by apply Z.ltb_lt).
  - by intros Hm; rewrite Hm in Hne.
  - intros m c Hm Hc. rewrite forallb_forall in Hcalls. specialize (Hcalls m (proj1 (list_elem_of_In _ _) Hm)).
    rewrite forallb_forall in Hcalls. specialize (Hcalls c (proj1 (list_elem_of_In _ _) Hc)).
    unfold valid_tool_call in Hcalls. rewrite !andb_true_iff in Hcalls. destruct Hcalls as [[? ?] ?].
    split_and!; by apply nonempty_true.
  - intros t Ht. rewrite forallb_forall in Htools. by apply nonempty_true, Htools, list_elem_of_In.
  - by apply Nat.leb_le.
  - intros s Hs. rewrite Hs in H2. by apply Nat.leb_le.
  - intros s Hs. rewrite Hs in H3. by apply Nat.leb_le.
Qed.

Definition demo_fields (version temperature : json) : dict :=
  [("version", version); ("op_id", JStr "op"); ("request_id", JNull); ("payload_hash", JNull);
   ("store_output", JBool false); ("ref", JStr "m");
   ("messages", JArr [JObj [("role", JStr "user"); ("content", JStr "hi"); ("tool_calls", JArr []);
                            ("tool_call_id", JNull); ("name", JNull)]]);
   ("max_tokens", JInt 1); ("thinking", JBool false); ("tools", JArr []); ("tool_choice", JNull);
   ("sampling", JObj [("temperature", temperature)]); ("context_length", JInt 4096)].

Definition demo_call : json :=
  JObj [("id", JStr "c1"); ("name", JStr "search"); ("arguments", JStr "{}")].
Definition demo_body : json :=
  JObj [("version", JInt 1); ("op_id", JStr "op"); ("request_id", JNull); ("payload_hash", JNull);
   ("store_output", JBool false); ("ref", JStr "m");
   ("messages", JArr [JObj [("role", JStr "assistant"); ("content", JStr ""); ("tool_calls", JArr [demo_call]);
                            ("tool_call_id", JNull); ("name", JNull)]]);
   ("max_tokens", JInt 1); ("thinking", JBool false); ("tools", JArr []); ("tool_choice", JNull);
   ("sampling", JNull); ("context_length", JInt 4096)].
Definition demo_request : GenerationRequest :=
  mk_generation "m" [mk_message ASSISTANT "" [mk_tool_call "c1" "search" "{}"] None None] 1 false [] None None 4096.
Definition demo_envelope : Envelope := mk_envelope "op" None None false.

Lemma decoded_is_valid_witness :
  (∀ m c, m ∈ messages demo_request → c ∈ tool_calls m → tc_id c ≠ "" ∧ tc_name c ≠ "" ∧ tc_arguments c ≠ "") ∧
  decode_generation (encode_generation demo_request demo_envelope) = Ret (demo_request, demo_envelope).
Proof.
  destruct (decoded_is_valid demo_body demo_request demo_envelope) as (_&_&_&_&Hc&_&_&_&_&_&_&Hr);
    [vm_compute; reflexivity|]. split; assumption.
Defined.

(** Two places where decoding is not strict.  A version of [true] (or
    [1.0]) decodes exactly like the integer 1, for every body; and an integer
    sampling figure too large for a float makes decoding raise
    [OverflowError], which is not the [WireError] that becomes a 400. *)
Theorem decoding_is_not_quite_strict fields :
  decode_generation (JObj (("version", JBool true) :: fields)) =
    decode_generation (JObj (("version", JInt 1) :: fields)) ∧
  decode_generation (JObj (demo_fields (JInt 1) (JInt (2 ^ 1024)))) = Raise OverflowError.
Proof. split; [reflexivity|vm_compute; reflexivity]. Qed.
