(* ===== verification/Guard.v ===== *)
(** The node agent's own admission check, and the catalogue that may widen it
    ([node_agent/guard.py], [domain/services/validated_profiles.py], the
    estimator of [application/use_cases/route_chat_request/estimates.py]).

    [check_generation] runs its checks in the order of the code and returns the
    refusal of the first that fails.  The estimator is computed in binary64, as
    Python computes it; a character of a [string] is a code point below 256.
    [dumps] is [json.dumps] of a tool's parameters; every theorem holds whatever
    text it writes. *)

From S2P Require Export Wire.

(** * Validated profiles *)

Record ProfileKey := mk_key {
  key_node : string; key_runtime : string; key_version : string; key_manifest : string;
  key_encoder : string; key_renderer : string; key_tools : bool; key_thinking : string
}.

Record ValidatedProfile := mk_validated {
  ref : string; for_node : string; for_runtime : string; for_version : string; manifest : string;
  encoders : list string; renderer : string; with_tools : bool; thinking_forms : list string;
  measured_on : string; cases : list string
}.

Definition covers (p : ValidatedProfile) (k : ProfileKey) : bool :=
  bool_decide (key_node k = for_node p) && bool_decide (key_runtime k = for_runtime p) &&
  bool_decide (key_version k = for_version p) && bool_decide (key_manifest k = manifest p) &&
  bool_decide (key_encoder k ∈ encoders p) && bool_decide (key_renderer k = renderer p) &&
  bool_decide (key_tools k = with_tools p) && bool_decide (key_thinking k ∈ thinking_forms p).

Definition VALIDATED : list ValidatedProfile :=
  [mk_validated "qwen2.5:7b" "local" "ollama" "0.40.8"
     "845dbda0ea48ed749caafd9e6037047aa19acfcfd82e704d7ca97d631a0b697e"
     ["native:7b26ae0075c9cf07"; "python:0ca0ada64166ed40"] "jinja:2c9abc88aee670e3"
     false ["false"; "omitted"] "2026-10-22"
     ["system_multiturn"; "thinking_gateway"; "repeat_short_words"; "repeat_arrows";
      "repeat_cjk_pairs"; "repeat_indent_runs"; "near_boundary_qwen_16k"; "near_boundary_qwen_32k"]].

Definition is_validated (k : ProfileKey) (profiles : option (list ValidatedProfile))
    : option ValidatedProfile :=
  first_match (λ p, covers p k) (default VALIDATED profiles).

Definition wire_thinking (thinking : bool) : string := if thinking then "omitted" else "false".

(** Times in microseconds. *)
Definition VERSION_FRESHNESS : Z := 5 * 60 * 1000000.

Definition fresh_version (version : option string) (observed_at : option Z) (now : Z) : option string :=
  match version, observed_at with
  | Some v, Some at_ => if (VERSION_FRESHNESS <? now - at_)%Z then None else Some v
  | _, _ => None
  end.

Definition servable (window output : Z) (widened : bool) : Z :=
  let full := (window - 1 - output)%Z in
  if widened then full else Z.min (window / 2) full.

(** * The estimator *)

Definition float_of (z : Z) : spec_float := binary_normalize 53 1024 z 0 false.
Definition ASCII_CHARS_PER_TOKEN : spec_float := float_of 3.
Definition WIDE_CHARS_PER_TOKEN : spec_float := S754_finite false 4953959590107546 (-52).

(** [math.ceil] of a finite float. *)
Definition ceil (f : spec_float) : Z :=
  match f with
  | S754_finite s m e =>
      let z := if s then Zneg m else Zpos m in
      if (0 <=? e)%Z then (z * 2 ^ e)%Z else (- ((- z) / 2 ^ (- e)))%Z
  | _ => 0%Z
  end.

Definition is_ascii (a : Ascii.ascii) : bool := (ascii_code a <? 128)%Z.

Definition estimated_tokens (text : string) : Z :=
  let chars := String.list_ascii_of_string text in
  let len := Z.of_nat (length chars) in
  if forallb is_ascii chars then ceil (SFdiv 53 1024 (float_of len) ASCII_CHARS_PER_TOKEN)
  else
    let ascii_chars := Z.of_nat (length (List.filter is_ascii chars)) in
    ceil (SFadd 53 1024 (SFdiv 53 1024 (float_of ascii_chars) ASCII_CHARS_PER_TOKEN)
                        (SFdiv 53 1024 (float_of (len - ascii_chars)) WIDE_CHARS_PER_TOKEN)).

Definition py_sum_int (l : list Z) : Z := foldl Z.add 0%Z l.

Section Guard.
Context (dumps : dict → string).

Definition estimated_tool_tokens (tools : list ToolDefinition) : Z :=
  py_sum_int ((λ t, estimated_tokens (tool_name t) + estimated_tokens (tool_description t) +
                    estimated_tokens (dumps (tool_parameters t)))%Z <$> tools).

Definition estimated_prompt_tokens (messages : list Message) (tools : list ToolDefinition) : Z * Z :=
  let total := py_sum_int ((λ m, estimated_tokens (content m)) <$> messages) in
  let total := foldl (λ acc m, (acc + py_sum_int
    ((λ c, estimated_tokens (tc_name c) + estimated_tokens (tc_arguments c))%Z <$> tool_calls m))%Z)
    total messages in
  let tool_tokens := estimated_tool_tokens tools in
  ((total + tool_tokens)%Z, tool_tokens).

(** * The guard *)

Record Registration := mk_registration {
  r_context : Z; r_manifest : option string; r_capabilities : list string
}.

Record Measurement := mk_measurement {
  identity : option string; counted : option Z; declared_context : option Z;
  m_encoder : option string; m_renderer : option string
}.

Inductive basis : Set := exact_counter | estimate.

Record Provenance := mk_provenance {
  p_manifest : option string; p_counted : Z; p_upper_bound : Z; p_basis : basis; p_window : Z;
  p_servable : Z; p_max_tokens : Z; p_profile : option string; p_version : option string
}.

Inductive GuardRefusal : Set :=
  | model_not_on_node | context_length_mismatch | revision_mismatch | capacity_unresolved
  | context_exceeded.

Definition check_pin (registered : Registration) (measured : option string) : option GuardRefusal :=
  match r_manifest registered with
  | Some pinned => if bool_decide (measured ≠ Some pinned) then Some revision_mismatch else None
  | None => None
  end.

Definition profile_of (request : GenerationRequest) (measured : Measurement) (node_id : string)
    (runtime_version : option string) (profiles : option (list ValidatedProfile))
    : option ValidatedProfile :=
  match runtime_version, identity measured, m_encoder measured, m_renderer measured with
  | Some version, Some id, Some enc, Some rend =>
      is_validated
        (mk_key node_id "ollama" version id enc rend (negb (bool_decide (tools request = [])))
           (wire_thinking (thinking request)))
        profiles
  | _, _, _, _ => None
  end.

Definition check_generation (request : GenerationRequest) (registered : option Registration)
    (measured : Measurement) (node_id : string) (runtime_version : option string)
    (profiles : option (list ValidatedProfile)) : GuardRefusal + Provenance :=
  match registered with
  | None => inl model_not_on_node
  | Some registered =>
      if (0 <? r_context registered)%Z && negb (context_length request =? r_context registered)%Z
      then inl context_length_mismatch
      else match check_pin registered (identity measured) with
      | Some refusal => inl refusal
      | None =>
          match declared_context measured with
          | None => inl capacity_unresolved
          | Some declared =>
              if (declared <=? 0)%Z then inl capacity_unresolved
              else
                let window := Z.min (context_length request) declared in
                let '(count, how) :=
                  match counted measured with
                  | Some n => (n, exact_counter)
                  | None => ((estimated_prompt_tokens (messages request) (tools request)).1, estimate)
                  end in
                let upper_bound := match how with estimate => (count * 3)%Z | _ => count end in
                let profile := profile_of request measured node_id runtime_version profiles in
                let limit := servable window (max_tokens request)
                  (match profile, how with Some _, exact_counter => true | _, _ => false end) in
                if (limit <=? 0)%Z || (limit <? upper_bound)%Z then inl context_exceeded
                else inr (mk_provenance (identity measured) count upper_bound how window limit
                            (max_tokens request) (ref <$> profile) runtime_version)
          end
      end
  end.
End Guard.

Example estimates :
  estimated_tokens "" = 0%Z ∧ estimated_tokens "abc" = 1%Z ∧ estimated_tokens "abcd" = 2%Z ∧
  estimated_tokens (String (Ascii.ascii_of_nat 233) "t") = 2%Z.
Proof. vm_compute. by split_and!. Qed.

(** * What a pass means *)

Section Passing.
Context (dumps : dict → string).
Abbreviation check := (check_generation dumps).

Lemma first_match_covers p key profiles :
  is_validated key profiles = Some p → p ∈ default VALIDATED profiles ∧ covers p key = true.
Proof.
  intros (l1&l2&Hl&Hc&_)%first_match_Some. split; [|done]. rewrite Hl. set_solver.
Qed.

Lemma covers_spec p k :
  covers p k = true ↔
  key_node k = for_node p ∧ key_runtime k = for_runtime p ∧ key_version k = for_version p ∧
  key_manifest k = manifest p ∧ key_encoder k ∈ encoders p ∧ key_renderer k = renderer p ∧
  key_tools k = with_tools p ∧ key_thinking k ∈ thinking_forms p.
Proof. unfold covers. rewrite !andb_true_iff, !bool_decide_eq_true. tauto. Qed.

Lemma check_generation_inr request registered measured node ver profiles prov :
  check request registered measured node ver profiles = inr prov →
  ∃ reg declared, registered = Some reg ∧
    ((0 < r_context reg)%Z → context_length request = r_context reg) ∧
    (∀ pinned, r_manifest reg = Some pinned → identity measured = Some pinned) ∧
    declared_context measured = Some declared ∧ (0 < declared)%Z ∧
    p_window prov = Z.min (context_length request) declared ∧
    p_max_tokens prov = max_tokens request ∧
    p_servable prov = servable (p_window prov) (max_tokens request)
      (match profile_of request measured node ver profiles, p_basis prov with
       | Some _, exact_counter => true | _, _ => false end) ∧
    (0 < p_servable prov)%Z ∧ (p_upper_bound prov ≤ p_servable prov)%Z ∧
    match counted measured with
    | Some n => p_basis prov = exact_counter ∧ p_counted prov = n ∧ p_upper_bound prov = n
    | None => p_basis prov = estimate ∧ p_upper_bound prov = (p_counted prov * 3)%Z ∧
        p_counted prov = (estimated_prompt_tokens dumps (messages request) (tools request)).1
    end.
Proof.
  unfold check_generation. intros H. destruct registered as [reg|]; [|done].
  destruct ((0 <? r_context reg)%Z && _) eqn:Hctx; [done|].
  destruct (check_pin reg _) eqn:Hpin; [done|].
  destruct (declared_context measured) as [declared|]; [|done].
  destruct (declared <=? 0)%Z eqn:Hd; [done|]. exists reg, declared.
  assert ((0 < r_context reg)%Z → context_length request = r_context reg) as Hc.
  { intros Hpos. apply andb_false_iff in Hctx as [Hctx|Hctx]; unbool; lia. }
  assert (∀ pinned, r_manifest reg = Some pinned → identity measured = Some pinned) as Hm.
  { intros pinned Hp. unfold check_pin in Hpin. rewrite Hp in Hpin.
    by case_bool_decide. }
  apply Z.leb_gt in Hd.
  destruct (counted measured) as [n|]; cbv beta iota zeta in H;
    destruct (_ || _) eqn:Hlim in H; try done; injection H as <-; unbool;
    cbn [p_window p_max_tokens p_servable p_upper_bound p_basis p_counted]; split_and!; auto.
Qed.

(** An admitted prompt fits, with its answer, in a window the weights
    declare.  When the guard passes a request, the model is registered here
    with that very context and its measured weights are the pinned ones; the
    prompt's bound plus the output it may generate is below the window,
    which exceeds neither the request nor the weights' own declaration; and the
    bound is the exact count, or three times the estimate when there is none. *)
Theorem admitted_prompt_fits request registered measured node ver profiles prov :
  check_generation dumps request registered measured node ver profiles = inr prov →
  ∃ reg declared, registered = Some reg ∧ declared_context measured = Some declared ∧
    ((0 < r_context reg)%Z → context_length request = r_context reg) ∧
    (∀ pinned, r_manifest reg = Some pinned → identity measured = Some pinned) ∧
    (p_upper_bound prov + max_tokens request < p_window prov)%Z ∧
    (p_window prov ≤ context_length request)%Z ∧ (p_window prov ≤ declared)%Z ∧
    p_upper_bound prov =
      match counted measured with
      | Some n => n
      | None => ((estimated_prompt_tokens dumps (messages request) (tools request)).1 * 3)%Z
      end.
Proof.
  intros (reg&declared&->&Hc&Hm&Hd&Hpos&Hw&_&Hs&Hs0&Hle&Hb)%check_generation_inr.
  exists reg, declared. split_and!; auto; [|lia|lia|].
  - unfold servable in Hs. destruct (match profile_of _ _ _ _ _ with Some _ => _ | None => _ end); lia.
  - destruct (counted measured); destruct Hb as (_&Hb1&Hb2); [done|by rewrite Hb1, Hb2].
Qed.

(** Only measured evidence widens admission.  A prompt whose bound is above
    half the window passes only if it was counted exactly and a profile of the
    catalogue was measured for this node, this runtime version, these weights,
    this counting code and this request's shape; a node whose runtime version
    was not read, or a count that is an estimate, keeps the half-window rule. *)
Theorem widening_needs_a_measured_profile request registered measured node ver profiles prov :
  check_generation dumps request registered measured node ver profiles = inr prov →
  (p_window prov / 2 < p_upper_bound prov)%Z →
  ∃ p version id enc rend n, p ∈ default VALIDATED profiles ∧
    ver = Some version ∧ identity measured = Some id ∧ m_encoder measured = Some enc ∧
    m_renderer measured = Some rend ∧ counted measured = Some n ∧
    for_node p = node ∧ for_runtime p = "ollama" ∧ for_version p = version ∧ manifest p = id ∧
    enc ∈ encoders p ∧ renderer p = rend ∧
    with_tools p = negb (bool_decide (tools request = [])) ∧
    wire_thinking (thinking request) ∈ thinking_forms p.
Proof.
  intros (reg&declared&_&_&_&_&_&_&_&Hs&_&Hle&Hb)%check_generation_inr Hhalf.
  destruct (profile_of _ _ _ _ _) as [p|] eqn:Hp in Hs; [|unfold servable in Hs; lia].
  destruct (counted measured) as [n|].
  2: { destruct Hb as [Hb _]. rewrite Hb in Hs. unfold servable in Hs. lia. }
  unfold profile_of in Hp.
  destruct ver as [version|]; [|done]. destruct (identity measured) as [id|]; [|done].
  destruct (m_encoder measured) as [enc|]; [|done]. destruct (m_renderer measured) as [rend|]; [|done].
  apply first_match_covers in Hp as [Hin Hcov]. apply covers_spec in Hcov. simpl in Hcov.
  destruct Hcov as (?&?&?&?&?&?&?&?).
  exists p, version, id, enc, rend, n. by split_and!.
Qed.
End Passing.

(** The catalogued model, asked for a prompt above half its window. *)
Definition demo_request : GenerationRequest :=
  mk_generation "qwen2.5:7b" [mk_message USER "hi" [] None None] 1000 true [] None None 32768.
Definition demo_digest : string := "845dbda0ea48ed749caafd9e6037047aa19acfcfd82e704d7ca97d631a0b697e".
Definition demo_measured : Measurement :=
  mk_measurement (Some demo_digest) (Some 20000%Z) (Some 32768%Z)
    (Some "native:7b26ae0075c9cf07") (Some "jinja:2c9abc88aee670e3").
Definition demo_registered : Registration := mk_registration 32768 (Some demo_digest) [].
Definition demo_pass : Provenance :=
  mk_provenance (Some demo_digest) 20000 20000 exact_counter 32768 31767 1000 (Some "qwen2.5:7b")
    (Some "0.40.8").

Lemma admitted_prompt_fits_witness :
  ∃ reg declared, Some demo_registered = Some reg ∧ Some 32768%Z = Some declared ∧
    ((0 < r_context reg)%Z → context_length demo_request = r_context reg) ∧
    (∀ pinned, r_manifest reg = Some pinned → Some demo_digest = Some pinned) ∧
    (p_upper_bound demo_pass + max_tokens demo_request < p_window demo_pass)%Z ∧
    (p_window demo_pass ≤ context_length demo_request)%Z ∧ (p_window demo_pass ≤ declared)%Z ∧
    p_upper_bound demo_pass = 20000%Z.
Proof.
  apply (admitted_prompt_fits (λ _, "") demo_request (Some demo_registered) demo_measured "local"
           (Some "0.40.8") None demo_pass).
  vm_compute. reflexivity.
Defined.

Lemma widening_needs_a_measured_profile_witness :
  ∃ p version id enc rend n, p ∈ VALIDATED ∧
    Some "0.40.8" = Some version ∧ Some demo_digest = Some id ∧
    Some "native:7b26ae0075c9cf07" = Some enc ∧ Some "jinja:2c9abc88aee670e3" = Some rend ∧
    Some 20000%Z = Some n ∧
    for_node p = "local" ∧ for_runtime p = "ollama" ∧ for_version p = version ∧ manifest p = id ∧
    enc ∈ encoders p ∧ renderer p = rend ∧ with_tools p = false ∧ "omitted" ∈ thinking_forms p.
Proof.
  apply (widening_needs_a_measured_profile (λ _, "") demo_request (Some demo_registered) demo_measured
           "local" (Some "0.40.8") None demo_pass); [vm_compute; reflexivity|reflexivity].
Defined.
