(* ===== verification/Routing.v ===== *)
(** The registry's entities and how a capability becomes a model
    ([domain/entities/model.py], [node.py], [routing_policy.py],
    [capability.py], [domain/services/routing_service.py]).

    Times are whole microseconds, the resolution of a Python [datetime]; a
    Python [float] is a [spec_float], compared as IEEE 754 does (a comparison
    with a NaN is false).  [select] is the loop over the candidates in the order
    Python's stable [sorted] leaves them.  The theorems say which candidate it
    picks, against a specification that does not sort, and that no stale belief
    about an Ollama model is ever routed to. *)

From S2P Require Export Prelude.
From Stdlib Require Export Floats.SpecFloat.

(** * Entities *)

Inductive ModelState : Set :=
  NOT_DOWNLOADED | DOWNLOADING | DOWNLOADED | LOADING | LOADED | UNLOADING | ERROR.
Inductive RuntimeKind : Set := OLLAMA | MLX | VLLM | LLAMACPP.
Inductive NodeStatus : Set := ONLINE | OFFLINE | DEGRADED.

#[export] Instance ModelState_eq_dec : EqDecision ModelState.
Proof. solve_decision. Defined.
#[export] Instance RuntimeKind_eq_dec : EqDecision RuntimeKind.
Proof. solve_decision. Defined.
#[export] Instance NodeStatus_eq_dec : EqDecision NodeStatus.
Proof. solve_decision. Defined.

Definition model_states : list ModelState :=
  [NOT_DOWNLOADED; DOWNLOADING; DOWNLOADED; LOADING; LOADED; UNLOADING; ERROR].
Definition node_statuses : list NodeStatus := [ONLINE; OFFLINE; DEGRADED].

#[export] Program Instance ModelState_finite : finite.Finite ModelState := {| finite.enum := model_states |}.
Next Obligation. by apply (bool_decide_unpack (NoDup model_states)). Qed.
Next Obligation. intros []; by apply (bool_decide_unpack (_ ∈ model_states)). Qed.
#[export] Program Instance NodeStatus_finite : finite.Finite NodeStatus := {| finite.enum := node_statuses |}.
Next Obligation. by apply (bool_decide_unpack (NoDup node_statuses)). Qed.
Next Obligation. intros []; by apply (bool_decide_unpack (_ ∈ node_statuses)). Qed.

Record ResourceProfile := mk_profile { memory_gb : spec_float; profile_context : Z }.

Record Model := mk_model {
  model_id : string; alias : string; model_ref : string; runtime : RuntimeKind; model_node : string;
  state : ModelState; capabilities : gset string; resource_profile : ResourceProfile;
  observed_state : option ModelState; observed_memory_gb : option spec_float;
  observed_at : option Z; capacity_validated : bool; model_digest : option string;
  desired_resident : bool; desired_version : Z
}.

Record Node := mk_node {
  node_id : string; node_name : string; node_address : string; status : NodeStatus;
  total_memory_gb : spec_float; runtimes : list RuntimeKind; agent_url : option string;
  runtime_version : option string; runtime_version_at : option Z
}.

(** A required set is a [frozenset]: empty means no requirement. *)
Record Requirement := mk_requirement {
  require_status : gset NodeStatus; require_state : gset ModelState;
  min_free_memory_gb : option spec_float
}.
Record RoutingCandidate := mk_candidate { candidate_alias : string; priority : Z; require : Requirement }.
Record RoutingPolicy := mk_policy {
  capability : string; candidates : list RoutingCandidate; policy_thinking : option bool
}.

Definition ISSUABLE_CAPABILITIES : gset string :=
  {["chat"; "code"; "vision"; "embedding"; "rerank"]}.
Definition ROUTABLE_CAPABILITIES : gset string := ISSUABLE_CAPABILITIES ∪ {["assist"]}.

(** * Routing *)

Definition microseconds (seconds : Z) : Z := (seconds * 1000000)%Z.
Definition RESIDENCY_MAX_AGE_SECONDS : Z := 90.

(** [0 <= age <= RESIDENCY_MAX_AGE_SECONDS] *)
Definition in_window (age : Z) : bool :=
  ((0 <=? age) && (age <=? microseconds RESIDENCY_MAX_AGE_SECONDS))%Z%bool.

Inductive reason : Set :=
  node_unhealthy | residency_unknown | residency_stale | model_not_resident
  | model_state_mismatch | insufficient_memory.

#[export] Instance reason_eq_dec : EqDecision reason.
Proof. solve_decision. Defined.

(** [model.observed_state or model.state] *)
Definition effective_state (m : Model) : ModelState := default (state m) (observed_state m).

Definition residency_rejection (m : Model) (now : Z) : option reason :=
  if bool_decide (runtime m = OLLAMA) then
    match observed_state m, observed_at m with
    | Some seen, Some at_ =>
        if negb (in_window (now - at_)) then Some residency_stale
        else if bool_decide (seen ≠ LOADED) then Some model_not_resident else None
    | _, _ => Some residency_unknown
    end
  else None.

Definition rejection (r : Requirement) (m : Model) (n : Node) (free_memory : option spec_float)
    (now : Z) : option reason :=
  if bool_decide (status n ≠ ONLINE) then Some node_unhealthy
  else if bool_decide (require_status r ≠ ∅) && bool_decide (status n ∉ require_status r)
  then Some node_unhealthy
  else match residency_rejection m now with
  | Some why => Some why
  | None =>
      if bool_decide (require_state r ≠ ∅) && bool_decide (effective_state m ∉ require_state r)
      then Some model_state_mismatch
      else match min_free_memory_gb r, free_memory with
      | None, _ => None
      | Some _, None => Some insufficient_memory
      | Some wanted, Some free => if SFltb free wanted then Some insufficient_memory else None
      end
  end.

Inductive routing_exn : Set := NoAvailableModelError (capability : string).

Section Select.
Context (models_by_alias : gmap string Model) (nodes_by_id : gmap string Node)
        (free_memory_gb : gmap string spec_float) (now : Z).

(** The body of the loop: the model a candidate resolves to, when nothing rejects it. *)
Definition admitted (c : RoutingCandidate) : option Model :=
  m ← models_by_alias !! candidate_alias c;
  n ← nodes_by_id !! model_node m;
  match rejection (require c) m n (free_memory_gb !! node_id n) now with
  | None => Some m
  | Some _ => None
  end.

(** [key=lambda c: -c.priority] *)
Definition priority_leb (c d : RoutingCandidate) : bool := (- priority c <=? - priority d)%Z.

Fixpoint first_admitted (cs : list RoutingCandidate) : option Model :=
  match cs with
  | [] => None
  | c :: rest => match admitted c with Some m => Some m | None => first_admitted rest end
  end.

Definition select (p : RoutingPolicy) : res routing_exn Model :=
  match first_admitted (py_sorted priority_leb (candidates p)) with
  | Some m => Ret m
  | None => Raise (NoAvailableModelError (capability p))
  end.

(** ** What the loop picks *)

Lemma priority_leb_total c d : priority_leb c d = false → priority_leb d c = true.
Proof. unfold priority_leb. rewrite Z.leb_gt, Z.leb_le. lia. Qed.

Lemma priority_leb_trans c d e :
  priority_leb c d = true → priority_leb d e = true → priority_leb c e = true.
Proof. unfold priority_leb. rewrite !Z.leb_le. lia. Qed.

Lemma first_admitted_first_match cs :
  first_admitted cs = first_match (λ c, bool_decide (is_Some (admitted c))) cs ≫= admitted.
Proof.
  induction cs as [|c cs IH]; simpl; [done|].
  destruct (admitted c) eqn:Hc; simpl.
  - by rewrite Hc.
  - exact IH.
Qed.
End Select.

Lemma rejection_None r m n free now :
  rejection r m n free now = None →
  status n = ONLINE ∧ (require_status r = ∅ ∨ status n ∈ require_status r) ∧
  residency_rejection m now = None ∧
  (require_state r = ∅ ∨ effective_state m ∈ require_state r) ∧
  (∀ wanted, min_free_memory_gb r = Some wanted →
     ∃ have, free = Some have ∧ SFltb have wanted = false).
Proof.
  unfold rejection. intros H. case_bool_decide as Hon; [done|].
  destruct (bool_decide (require_status r ≠ ∅) && _) eqn:Hst; [done|].
  destruct (residency_rejection m now) eqn:Hres; [done|].
  destruct (bool_decide (require_state r ≠ ∅) && _) eqn:Hms; [done|].
  apply andb_false_iff in Hst, Hms. rewrite !bool_decide_eq_false in Hst, Hms.
  split_and!; [by destruct (decide (status n = ONLINE))| | done | |].
  - destruct Hst as [?%dec_stable|?%dec_stable]; auto.
  - destruct Hms as [?%dec_stable|?%dec_stable]; auto.
  - intros wanted Hw. rewrite Hw in H. destruct free as [have|]; [|done].
    exists have. destruct (SFltb have wanted); done.
Qed.

Lemma residency_rejection_None m now :
  residency_rejection m now = None ↔
  (runtime m = OLLAMA → observed_state m = Some LOADED ∧
     ∃ at_, observed_at m = Some at_ ∧
       (0 ≤ now - at_ ≤ microseconds RESIDENCY_MAX_AGE_SECONDS)%Z).
Proof.
  unfold residency_rejection. case_bool_decide as Hr; [|done]. split.
  - intros H _. destruct (observed_state m) as [seen|], (observed_at m) as [at_|]; try done.
    destruct (in_window _) eqn:Hw; [|done]. simpl in H. case_bool_decide; [done|].
    destruct (decide (seen = LOADED)) as [->|]; [|done]. split; [done|].
    exists at_. split; [done|]. unfold in_window in Hw. unbool. lia.
  - intros H. destruct (H Hr) as (-> & at_ & -> & Hw). simpl.
    assert (in_window (now - at_) = true) as ->; [|done].
    unfold in_window. apply andb_true_iff. rewrite !Z.leb_le. lia.
Qed.

Section Guarantees.
Context (models_by_alias : gmap string Model) (nodes_by_id : gmap string Node)
        (free_memory_gb : gmap string spec_float) (now : Z).
Abbreviation admits c := (admitted models_by_alias nodes_by_id free_memory_gb now c).
Abbreviation selects p := (select models_by_alias nodes_by_id free_memory_gb now p).

Lemma admitted_Some c m :
  admits c = Some m ↔
  ∃ n, models_by_alias !! candidate_alias c = Some m ∧ nodes_by_id !! model_node m = Some n ∧
    rejection (require c) m n (free_memory_gb !! node_id n) now = None.
Proof.
  unfold admitted. rewrite bind_Some. setoid_rewrite bind_Some. split.
  - intros (m'&Hm&n&Hn&H). destruct (rejection _ _ _ _ _) eqn:Hr; [done|].
    injection H as <-. eauto.
  - intros (n&Hm&Hn&Hr). exists m. split; [done|]. exists n. by rewrite Hr.
Qed.

Lemma select_admitted p m :
  selects p = Ret m → ∃ c, c ∈ candidates p ∧ admits c = Some m.
Proof.
  unfold select. rewrite first_admitted_first_match.
  destruct (first_match _ _) as [c|] eqn:Hc; simpl; [|done].
  destruct (admits c) as [m'|] eqn:Hm; [|done]. intros [= ->]. exists c. split; [|done].
  apply first_match_Some in Hc as (l1&l2&Hl&_&_).
  rewrite <- (py_sorted_perm priority_leb), Hl. set_solver.
Qed.

(** Routing picks the highest-priority candidate that qualifies, and the
    earliest written one among equals.  Said without sorting: the model
    selected is that of a candidate that qualifies, every qualifying
    candidate written before it has a strictly lower priority and every one
    after it no higher one.  The error is raised exactly when no candidate
    qualifies, and names only the capability. *)
Theorem select_picks_the_best p :
  (∀ m, select models_by_alias nodes_by_id free_memory_gb now p = Ret m ↔
     ∃ l1 c l2, candidates p = l1 ++ c :: l2 ∧ admitted models_by_alias nodes_by_id free_memory_gb now c = Some m ∧
       (∀ d, d ∈ l1 → is_Some (admitted models_by_alias nodes_by_id free_memory_gb now d) → (priority d < priority c)%Z) ∧
       (∀ d, d ∈ l2 → is_Some (admitted models_by_alias nodes_by_id free_memory_gb now d) → (priority d ≤ priority c)%Z)) ∧
  (select models_by_alias nodes_by_id free_memory_gb now p = Raise (NoAvailableModelError (capability p)) ↔
     ∀ c, c ∈ candidates p → admitted models_by_alias nodes_by_id free_memory_gb now c = None).
Proof.
  pose proof (first_match_sorted priority_leb
    (λ c, bool_decide (is_Some (admits c))) priority_leb_total priority_leb_trans) as Hfm.
  unfold select. rewrite first_admitted_first_match. split.
  - intros m. split.
    + destruct (first_match _ _) as [c|] eqn:Hc; simpl; [|done].
      destruct (admits c) as [m'|] eqn:Hm; [|done]. intros [= ->].
      apply Hfm in Hc as (l1&l2&Hl&_&H1&H2). exists l1, c, l2. split_and!; [done..| |].
      * intros d Hd Hs. assert (priority_leb d c = false) as Hdc
          by (apply H1; [done|by apply bool_decide_eq_true]).
        unfold priority_leb in Hdc. unbool. lia.
      * intros d Hd Hs. assert (priority_leb c d = true) as Hdc
          by (apply H2; [done|by apply bool_decide_eq_true]).
        unfold priority_leb in Hdc. unbool. lia.
    + intros (l1&c&l2&Hl&Hm&H1&H2).
      rewrite (proj2 (Hfm (candidates p) c)); [simpl; by rewrite Hm|].
      exists l1, l2. split_and!; [done|by apply bool_decide_eq_true; eauto| |].
      * intros d Hd Hs%bool_decide_eq_true. specialize (H1 d Hd Hs).
        unfold priority_leb. apply Z.leb_gt. lia.
      * intros d Hd Hs%bool_decide_eq_true. specialize (H2 d Hd Hs).
        unfold priority_leb. apply Z.leb_le. lia.
  - split.
    + destruct (first_match _ _) as [c|] eqn:Hc; simpl.
      * destruct (admits c) eqn:Hm; [done|].
        apply first_match_Some in Hc as (?&?&_&Hs%bool_decide_eq_true&_).
        rewrite Hm in Hs. by destruct Hs.
      * intros _ d Hd. rewrite first_match_sorted_None in Hc. specialize (Hc d Hd).
        apply bool_decide_eq_false in Hc. by apply eq_None_not_Some.
    + intros Hall. rewrite (proj2 (first_match_sorted_None _ _ _)); [done|].
      intros d Hd. rewrite (Hall d Hd). by apply bool_decide_eq_false, is_Some_None.
Qed.

(** No stale belief is routed to.  The model a request is routed to is
    registered under the alias of a candidate of the policy, sits on a node
    that is online, and, when it is an Ollama model, was observed resident at
    most 90 seconds ago, and not in the future; the registry's intent
    never stands in for that observation.  The candidate's own requirements on
    state and free memory hold of it too. *)
Theorem routed_model_is_live p m :
  select models_by_alias nodes_by_id free_memory_gb now p = Ret m →
  ∃ c n, c ∈ candidates p ∧ models_by_alias !! candidate_alias c = Some m ∧
    nodes_by_id !! model_node m = Some n ∧ status n = ONLINE ∧
    (runtime m = OLLAMA → observed_state m = Some LOADED ∧
       ∃ at_, observed_at m = Some at_ ∧ (0 ≤ now - at_ ≤ 90 * 1000000)%Z) ∧
    (require_state (require c) = ∅ ∨ effective_state m ∈ require_state (require c)) ∧
    (∀ wanted, min_free_memory_gb (require c) = Some wanted →
       ∃ have, free_memory_gb !! node_id n = Some have ∧ SFltb have wanted = false).
Proof.
  intros (c&Hc&Hm)%select_admitted. apply admitted_Some in Hm as (n&Hm&Hn&Hr).
  apply rejection_None in Hr as (Hon&_&Hres&Hst&Hmem).
  rewrite residency_rejection_None in Hres.
  exists c, n. split_and!; auto.
Qed.
End Guarantees.

(** * A small registry *)

Definition gb (n : Z) : spec_float := binary_normalize 53 1024 n 0 false.

Definition demo_model (name : string) (seen : option ModelState) (at_ : option Z) : Model :=
  mk_model name name name OLLAMA "node" LOADED ∅ (mk_profile (gb 5) 4096) seen None at_ true None true 1.
Definition demo_node : Node :=
  mk_node "node" "node" "100.64.0.1" ONLINE (gb 64) [OLLAMA] None None None.
Definition demo_policy : RoutingPolicy :=
  mk_policy "chat"
    [mk_candidate "stale" 2 (mk_requirement ∅ ∅ None);
     mk_candidate "live" 1 (mk_requirement {[ONLINE]} {[LOADED]} (Some (gb 4)))] None.
Definition demo_models : gmap string Model :=
  <["stale" := demo_model "stale" (Some LOADED) (Some 0%Z)]>
  {["live" := demo_model "live" (Some LOADED) (Some 60000000%Z)]}.

Lemma routed_model_is_live_witness :
  ∃ c n, c ∈ candidates demo_policy ∧
    demo_models !! candidate_alias c = Some (demo_model "live" (Some LOADED) (Some 60000000%Z)) ∧
    ({["node" := demo_node]} : gmap string Node) !! "node" = Some n ∧ status n = ONLINE ∧
    (runtime (demo_model "live" (Some LOADED) (Some 60000000%Z)) = OLLAMA →
     Some LOADED = Some LOADED ∧
     ∃ at_, Some 60000000%Z = Some at_ ∧ (0 ≤ 100000000 - at_ ≤ 90 * 1000000)%Z) ∧
    (require_state (require c) = ∅ ∨ LOADED ∈ require_state (require c)) ∧
    (∀ wanted, min_free_memory_gb (require c) = Some wanted →
       ∃ have, ({["node" := gb 8]} : gmap string spec_float) !! node_id n = Some have ∧
         SFltb have wanted = false).
Proof.
  apply (routed_model_is_live demo_models {["node" := demo_node]} {["node" := gb 8]} 100000000
           demo_policy (demo_model "live" (Some LOADED) (Some 60000000%Z))).
  vm_compute. reflexivity.
Defined.
