(* ===== verification/Residency.v ===== *)
(** The rules the residency reconciler and the memory budget act on
    ([domain/services/residency_reconciliation.py],
    [domain/services/memory_budget_service.py]).

    Times are microseconds and floats are [spec_float], as in [Routing].  The
    theorems tie these rules to the router's: a model is a mismatch exactly when
    routing would not serve it, what routing serves is charged to the budget,
    and two separate observations stand behind every restore; the restore order
    is a function of the set of models. *)

From S2P Require Export Routing.

Definition REQUIRED_ABSENT_OBSERVATIONS : nat := 2.
Definition BACKOFF_BASE_SECONDS : Z := 30.
Definition BACKOFF_CAP_SECONDS : Z := 15 * 60.
Definition TRANSIENT_STATES : gset ModelState := {[DOWNLOADING; LOADING; UNLOADING]}.

(** Every figure is an integer below 2^53, so the floats are exact. *)
Definition backoff_seconds (failures : Z) : Z :=
  let n := Z.max (failures - 1) 0 in
  Z.min (BACKOFF_BASE_SECONDS * 2 ^ Z.min n 16) BACKOFF_CAP_SECONDS.

Definition fresh (m : Model) (now : Z) : bool :=
  match observed_state m, observed_at m with
  | Some _, Some at_ => in_window (now - at_)
  | _, _ => false
  end.

Definition observed_absent (m : Model) (now : Z) : bool :=
  fresh m now && bool_decide (observed_state m = Some DOWNLOADED).

Definition observed_resident (m : Model) (now : Z) : bool :=
  fresh m now && bool_decide (observed_state m = Some LOADED).

Definition residency_mismatch (m : Model) (now : Z) : bool :=
  if negb (desired_resident m) then false
  else if bool_decide (runtime m = OLLAMA) then negb (observed_resident m now)
  else negb (bool_decide (effective_state m = LOADED)).

Definition restorable (m : Model) (now : Z) : bool :=
  if negb (desired_resident m) || negb (bool_decide (runtime m = OLLAMA)) then false
  else negb (fresh m now && bool_decide (observed_state m = Some NOT_DOWNLOADED)).

Definition charges_memory (m : Model) (now : Z) : bool :=
  if bool_decide (state m = LOADING) then true
  else if bool_decide (runtime m = OLLAMA) && fresh m now
  then bool_decide (observed_state m = Some LOADED)
  else bool_decide (state m = LOADED) || bool_decide (observed_state m = Some LOADED).

(** ** The order models are restored in

    Python compares the key tuples [(-memory_gb, alias)]: the first components
    by [==], and by [<] when they differ; else the aliases, by code point. *)

Definition memory_key (m : Model) : spec_float := SFopp (memory_gb (resource_profile m)).

Definition key_ltb (m k : Model) : bool :=
  if SFeqb (memory_key m) (memory_key k) then String.ltb (alias m) (alias k)
  else SFltb (memory_key m) (memory_key k).

Definition restore_leb (m k : Model) : bool := negb (key_ltb k m).

Definition restore_order (models : list Model) : list Model := py_sorted restore_leb models.

(** ** Consecutive absences *)

Record AbsenceEvidence := mk_evidence { seen : gmap string (Z * nat) }.

Definition new_evidence : AbsenceEvidence := mk_evidence ∅.

Definition forget (id : string) (e : AbsenceEvidence) : AbsenceEvidence :=
  mk_evidence (delete id (seen e)).

Definition record (m : Model) (now : Z) (e : AbsenceEvidence) : nat * AbsenceEvidence :=
  match observed_absent m now, observed_at m with
  | true, Some at_ =>
      match seen e !! model_id m with
      | Some (last, n) =>
          if (last =? at_)%Z then (n, e)
          else
            let gap := (at_ - last)%Z in
            let count := if ((0 <? gap) && (gap <=? microseconds RESIDENCY_MAX_AGE_SECONDS))%Z%bool
                         then S n else 1 in
            (count, mk_evidence (<[model_id m := (at_, count)]> (seen e)))
      | None => (1, mk_evidence (<[model_id m := (at_, 1)]> (seen e)))
      end
  | _, _ => (0, forget (model_id m) e)
  end.

(** * The memory budget *)

Definition fadd := SFadd 53 1024.
Definition fsub := SFsub 53 1024.
Definition fmul := SFmul 53 1024.
Definition fzero : spec_float := S754_zero false.

(** [max(a, b)]: the first unless the second is greater. *)
Definition py_max (a b : spec_float) : spec_float := if SFltb a b then b else a.

(** [x or 0.0]: zero of either sign is falsy. *)
Definition or_zero (x : option spec_float) : spec_float :=
  match x with Some (S754_zero _) | None => fzero | Some f => f end.

(** [sum] over floats, compensated as CPython does it since 3.12: the total so
    far, and the low-order part its additions lost. *)
Definition sum_step (acc : spec_float * spec_float) (x : spec_float) : spec_float * spec_float :=
  let '(total, lost) := acc in
  let t := fadd total x in
  let carry := if SFleb (SFabs x) (SFabs total) then fadd (fsub total t) x else fadd (fsub x t) total in
  (t, fadd lost carry).

Definition is_finite (x : spec_float) : bool :=
  match x with S754_zero _ | S754_finite _ _ _ => true | _ => false end.

Definition py_sum (l : list spec_float) : spec_float :=
  match l with
  | [] => fzero
  | x :: rest =>
      let '(total, lost) := foldl sum_step (fadd fzero x, fzero) rest in
      if negb (SFeqb lost fzero) && is_finite lost then fadd total lost else total
  end.

Inductive budget_exn : Set := InsufficientMemoryError (required_gb available_gb : spec_float).

Definition resident_cost (m : Model) : spec_float :=
  py_max (memory_gb (resource_profile m)) (or_zero (observed_memory_gb m)).

Definition assert_can_load (headroom : spec_float) (target : Model) (node : Node)
    (already_loaded : list Model) (live_free_gb : option spec_float) : res budget_exn unit :=
  let budget := fmul (total_memory_gb node) headroom in
  let in_use := py_sum (resident_cost <$>
    filter (λ m, model_id m ≠ model_id target) already_loaded) in
  let available := fsub budget in_use in
  let required := memory_gb (resource_profile target) in
  let! _ := ensure (negb (SFltb available required))
              (InsufficientMemoryError required (py_max available fzero)) in
  match live_free_gb with
  | Some live =>
      ensure (negb (SFltb live required)) (InsufficientMemoryError required (py_max live fzero))
  | None => Ret tt
  end.

Example sums : py_sum (gb <$> [1; 2; 3]%Z) = gb 6 ∧ py_sum [] = fzero.
Proof. split; vm_compute; reflexivity. Qed.

Example fits_beside :
  assert_can_load (gb 1) (demo_model "a" None None) demo_node
    [demo_model "a" None None; demo_model "b" None None] (Some (gb 6)) = Ret tt.
Proof. vm_compute. reflexivity. Qed.

(** * The order of floats

    Every float but NaN has a rank, a triple of integers ordered
    lexicographically, and the comparisons are those of the ranks. *)

Definition rank (x : spec_float) : Z * Z * Z :=
  match x with
  | S754_infinity s => (if s then -2 else 2, 0, 0)%Z
  | S754_zero _ | S754_nan => (0, 0, 0)%Z
  | S754_finite true m e => (-1, -e, -Zpos m)%Z
  | S754_finite false m e => (1, e, Zpos m)%Z
  end.

Definition rank_compare (a b : Z * Z * Z) : comparison :=
  match Z.compare a.1.1 b.1.1 with
  | Eq => match Z.compare a.1.2 b.1.2 with Eq => Z.compare a.2 b.2 | c => c end
  | c => c
  end.

Definition is_nan (x : spec_float) : bool := match x with S754_nan => true | _ => false end.

Lemma SFcompare_rank x y :
  is_nan x = false → is_nan y = false → SFcompare x y = Some (rank_compare (rank x) (rank y)).
Proof.
  destruct x as [sx|sx| |sx mx ex], y as [sy|sy| |sy my ey]; try done; intros _ _;
    destruct sx, sy; try done; unfold rank_compare; simpl.
  rewrite Z.compare_opp, (Z.compare_antisym ex ey). by destruct (Z.compare ex ey).
Qed.

Lemma rank_compare_Lt a b :
  rank_compare a b = Lt ↔
  (a.1.1 < b.1.1 ∨ a.1.1 = b.1.1 ∧ (a.1.2 < b.1.2 ∨ a.1.2 = b.1.2 ∧ a.2 < b.2))%Z.
Proof.
  unfold rank_compare.
  destruct (Z.compare_spec a.1.1 b.1.1), (Z.compare_spec a.1.2 b.1.2), (Z.compare_spec a.2 b.2);
    split; try done; lia.
Qed.

Lemma rank_compare_Eq a b : rank_compare a b = Eq ↔ a = b.
Proof.
  unfold rank_compare. destruct a as [[a1 a2] a3], b as [[b1 b2] b3]. simpl.
  destruct (Z.compare_spec a1 b1), (Z.compare_spec a2 b2), (Z.compare_spec a3 b3);
    subst; split; try done; intros [=]; lia.
Qed.

Lemma SFltb_rank x y : is_nan x = false → is_nan y = false →
  SFltb x y = true ↔ rank_compare (rank x) (rank y) = Lt.
Proof. intros. unfold SFltb. rewrite SFcompare_rank by done. by destruct (rank_compare _ _). Qed.

Lemma SFeqb_rank x y : is_nan x = false → is_nan y = false →
  SFeqb x y = true ↔ rank x = rank y.
Proof.
  intros. unfold SFeqb. rewrite SFcompare_rank, <- rank_compare_Eq by done.
  by destruct (rank_compare _ _).
Qed.

Definition neg3 (a : Z * Z * Z) : Z * Z * Z := (- a.1.1, - a.1.2, - a.2)%Z.

Lemma rank_opp x : rank (SFopp x) = neg3 (rank x).
Proof. destruct x as [[]|[]| |[] m e]; try done; unfold neg3; simpl; by rewrite ?Z.opp_involutive. Qed.

Lemma is_nan_opp x : is_nan (SFopp x) = is_nan x.
Proof. by destruct x. Qed.

(** * The restore order is a function of the set of models *)

Definition restore_key (m : Model) : Z * Z * Z := rank (memory_gb (resource_profile m)).

(** [restore_leb], said of ranks: total and transitive on every model. *)
Definition ranked_leb (m k : Model) : bool :=
  match rank_compare (restore_key k) (restore_key m) with
  | Lt => true | Gt => false | Eq => String.leb (alias m) (alias k)
  end.

Definition known_size (m : Model) : Prop := is_nan (memory_gb (resource_profile m)) = false.

Lemma rank_compare_antisym a b : rank_compare b a = CompOpp (rank_compare a b).
Proof.
  unfold rank_compare. rewrite (Z.compare_antisym a.1.1), (Z.compare_antisym a.1.2), (Z.compare_antisym a.2).
  by destruct (Z.compare a.1.1 b.1.1), (Z.compare a.1.2 b.1.2), (Z.compare a.2 b.2).
Qed.

Lemma rank_compare_neg a b : rank_compare (neg3 a) (neg3 b) = rank_compare b a.
Proof. unfold rank_compare, neg3. cbn [fst snd]. by rewrite !Z.compare_opp. Qed.

Lemma ltb_negb_leb s t : String.ltb s t = negb (String.leb t s).
Proof.
  unfold String.ltb, String.leb. rewrite (String.compare_antisym t s).
  by destruct (String.compare s t).
Qed.

Lemma restore_leb_ranked m k : known_size m → known_size k → restore_leb m k = ranked_leb m k.
Proof.
  unfold known_size, restore_leb, key_ltb, ranked_leb, memory_key, restore_key.
  intros Hm Hk. unfold SFeqb, SFltb.
  rewrite SFcompare_rank by (by rewrite is_nan_opp).
  rewrite !rank_opp, rank_compare_neg, (rank_compare_antisym (rank (memory_gb (resource_profile k)))).
  rewrite ltb_negb_leb. destruct (rank_compare _ _); simpl; by rewrite ?negb_involutive.
Qed.

Lemma string_leb_trans s t u : String.leb s t = true → String.leb t u = true → String.leb s u = true.
Proof. intros H1 H2. apply Is_true_true. change (String.le s u).
  transitivity t; by apply Is_true_true. Qed.

Lemma ranked_leb_total m k : ranked_leb m k = false → ranked_leb k m = true.
Proof.
  unfold ranked_leb. rewrite (rank_compare_antisym (restore_key k)).
  destruct (rank_compare _ _); simpl; try done.
  destruct (String.leb_total (alias m) (alias k)); congruence.
Qed.

Lemma ranked_leb_cases m k :
  ranked_leb m k = true ↔
  rank_compare (restore_key k) (restore_key m) = Lt ∨
  restore_key k = restore_key m ∧ String.leb (alias m) (alias k) = true.
Proof.
  unfold ranked_leb. rewrite <- rank_compare_Eq. destruct (rank_compare _ _); naive_solver.
Qed.

Lemma ranked_leb_trans m k l :
  ranked_leb m k = true → ranked_leb k l = true → ranked_leb m l = true.
Proof.
  rewrite !ranked_leb_cases, !rank_compare_Lt.
  intros [Hmk|[Hmk Hs]] [Hkl|[Hkl Ht]].
  - left. lia.
  - left. by rewrite Hkl.
  - left. by rewrite <- Hmk.
  - right. split; [congruence|]. by eapply string_leb_trans.
Qed.

Lemma ranked_leb_antisym m k : ranked_leb m k = true → ranked_leb k m = true → alias m = alias k.
Proof.
  rewrite !ranked_leb_cases, !rank_compare_Lt.
  intros [H1|[H1 Hs]] [H2|[H2 Ht]]; [lia|rewrite H2 in H1; lia|rewrite H1 in H2; lia|].
  by apply String.leb_antisym.
Qed.

Lemma restore_order_ranked l : Forall known_size l → restore_order l = py_sorted ranked_leb l.
Proof. intros Hl. apply py_sorted_ext. intros m k Hm Hk. rewrite Forall_forall in Hl.
  by apply restore_leb_ranked; apply Hl. Qed.

Lemma ranked_leb_larger m k :
  known_size m → known_size k → ranked_leb m k = true →
  SFltb (memory_gb (resource_profile m)) (memory_gb (resource_profile k)) = false.
Proof.
  intros Hm Hk Hle. apply not_true_iff_false. rewrite SFltb_rank by done.
  change (rank_compare (restore_key m) (restore_key k) ≠ Lt).
  apply ranked_leb_cases in Hle as [Hle|[Hle _]]; rewrite rank_compare_Lt in *; [lia|].
  rewrite Hle. lia.
Qed.

(** The restore order is reproducible and puts the largest first.  For
    models with distinct aliases and known sizes it is a permutation of its
    input, no model comes before one it is smaller than, and any two
    arrangements of the same models are restored in the same order. *)
Theorem restore_order_reproducible l1 l2 :
  l1 ≡ₚ l2 → NoDup (alias <$> l1) →
  Forall (λ m, is_nan (memory_gb (resource_profile m)) = false) l1 →
  restore_order l1 = restore_order l2 ∧ restore_order l1 ≡ₚ l1 ∧
  StronglySorted (λ m k, SFltb (memory_gb (resource_profile m)) (memory_gb (resource_profile k)) = false)
    (restore_order l1).
Proof.
  intros Hp Hnd Hsz. assert (Forall known_size l2) as Hsz2 by (unfold known_size; by rewrite <- Hp).
  split_and!.
  - rewrite !restore_order_ranked by done.
    apply (py_sorted_unique _ alias); auto using ranked_leb_total, ranked_leb_antisym.
    exact ranked_leb_trans.
  - apply py_sorted_perm.
  - rewrite restore_order_ranked by done.
    pose proof (py_sorted_sorted ranked_leb ranked_leb_total ranked_leb_trans l1) as Hs.
    assert (Forall known_size (py_sorted ranked_leb l1)) as Hall by by rewrite py_sorted_perm.
    induction Hs as [|m l Hs IH Hm]; [constructor|]. inversion Hall; subst. constructor; [auto|].
    rewrite Forall_forall in *. intros k Hk. apply ranked_leb_larger; [done|..]; auto.
Qed.

Lemma restore_order_reproducible_witness :
  restore_order [demo_model "b" None None; demo_model "a" None None] =
    restore_order [demo_model "a" None None; demo_model "b" None None] ∧
  restore_order [demo_model "b" None None; demo_model "a" None None]
    ≡ₚ [demo_model "b" None None; demo_model "a" None None] ∧
  StronglySorted (λ m k, SFltb (memory_gb (resource_profile m)) (memory_gb (resource_profile k)) = false)
    (restore_order [demo_model "b" None None; demo_model "a" None None]).
Proof.
  apply (restore_order_reproducible [demo_model "b" None None; demo_model "a" None None]
           [demo_model "a" None None; demo_model "b" None None]).
  - apply Permutation_swap.
  - apply (bool_decide_unpack _). vm_compute. exact I.
  - repeat constructor.
Defined.

(** * One notion of evidence *)

Lemma in_window_spec age : in_window age = true ↔ (0 ≤ age ≤ 90 * 1000000)%Z.
Proof. unfold in_window, microseconds, RESIDENCY_MAX_AGE_SECONDS. rewrite andb_true_iff, !Z.leb_le. lia. Qed.

Lemma fresh_spec m now :
  fresh m now = true ↔
  is_Some (observed_state m) ∧ ∃ at_, observed_at m = Some at_ ∧ (0 ≤ now - at_ ≤ 90 * 1000000)%Z.
Proof.
  unfold fresh. destruct (observed_state m), (observed_at m); try naive_solver.
  rewrite in_window_spec. naive_solver.
Qed.

Lemma observed_resident_spec m now :
  runtime m = OLLAMA → observed_resident m now = true ↔ residency_rejection m now = None.
Proof.
  intros Hr. rewrite residency_rejection_None. unfold observed_resident.
  rewrite andb_true_iff, fresh_spec, bool_decide_eq_true. split.
  - intros [[_ Hat] Hs] _. done.
  - intros H. destruct (H Hr) as [Hs Hat]. rewrite Hs. eauto.
Qed.

(** The requirement of a policy that asks for a resident model. *)
Definition requires_loaded : Requirement := mk_requirement ∅ {[LOADED]} None.

Lemma rejection_requires_loaded m n free now :
  status n = ONLINE →
  rejection requires_loaded m n free now = None ↔
  residency_rejection m now = None ∧ effective_state m = LOADED.
Proof.
  intros Hon. unfold rejection. rewrite Hon. simpl.
  destruct (residency_rejection m now); [naive_solver|].
  change (require_state requires_loaded) with ({[LOADED]} : gset ModelState).
  rewrite (bool_decide_false (∅ ≠ ∅)) by auto.
  rewrite (bool_decide_true ({[LOADED]} ≠ ∅)) by apply non_empty_singleton_L. simpl.
  case_bool_decide as Hin.
  - split; [done|]. intros [_ Heff]. rewrite Heff in Hin. set_solver.
  - split; [|done]. intros _. set_solver.
Qed.

(** The reconciler and the router read the same evidence.  A model someone
    wants resident counts as a mismatch exactly when the router would
    refuse it, on an online node, under a policy that requires a loaded model;
    and any model the router would serve there is charged to the memory budget. *)
Theorem mismatch_is_a_routing_refusal m n free now :
  status n = ONLINE →
  (desired_resident m = true →
     residency_mismatch m now = true ↔ rejection requires_loaded m n free now ≠ None) ∧
  (rejection requires_loaded m n free now = None → charges_memory m now = true).
Proof.
  intros Hon. rewrite rejection_requires_loaded by done. split.
  - intros Hd. unfold residency_mismatch. rewrite Hd. simpl. case_bool_decide as Hr.
    + rewrite negb_true_iff, <- not_true_iff_false, observed_resident_spec by done.
      split; [naive_solver|]. intros H1 H2. apply H1. split; [done|].
      rewrite residency_rejection_None in H2. unfold effective_state.
      by destruct (H2 Hr) as [-> _].
    + rewrite negb_true_iff, bool_decide_eq_false.
      assert (residency_rejection m now = None) as Hres by by apply residency_rejection_None.
      naive_solver.
  - intros [Hres Heff]. unfold charges_memory. case_bool_decide; [done|].
    destruct (bool_decide (runtime m = OLLAMA) && fresh m now) eqn:Hf.
    + unbool. rewrite <- observed_resident_spec in Hres by done. unfold observed_resident in Hres.
      apply bool_decide_eq_true. unbool. done.
    + unfold effective_state in Heff. apply orb_true_iff. rewrite !bool_decide_eq_true.
      destruct (observed_state m); naive_solver.
Qed.

Lemma mismatch_is_a_routing_refusal_witness :
  (true = true →
     residency_mismatch (demo_model "m" (Some DOWNLOADED) (Some 0%Z)) 1 = true ↔
     rejection requires_loaded (demo_model "m" (Some DOWNLOADED) (Some 0%Z)) demo_node None 1 ≠ None) ∧
  (rejection requires_loaded (demo_model "m" (Some DOWNLOADED) (Some 0%Z)) demo_node None 1 = None →
   charges_memory (demo_model "m" (Some DOWNLOADED) (Some 0%Z)) 1 = true).
Proof.
  apply (mismatch_is_a_routing_refusal (demo_model "m" (Some DOWNLOADED) (Some 0%Z)) demo_node None 1).
  reflexivity.
Defined.

(** * Two absences stand behind a restore *)

Inductive evidence_call : Type :=
  | Record_absence (m : Model) (now : Z)
  | Forget (id : string).

Definition evidence_step (e : AbsenceEvidence) (c : evidence_call) : AbsenceEvidence :=
  match c with Record_absence m now => (record m now e).2 | Forget id => forget id e end.

Definition evidence_after (calls : list evidence_call) : AbsenceEvidence :=
  foldl evidence_step new_evidence calls.

(** A call that does not take back an absence of [id]. *)
Definition keeps (id : string) (c : evidence_call) : Prop :=
  match c with
  | Record_absence m now => model_id m = id → observed_absent m now = true
  | Forget id' => id' ≠ id
  end.

(** A positive absence of [id], captured at [at_], was recorded and nothing
    since has taken it back. *)
Definition stands (id : string) (at_ : Z) (calls : list evidence_call) : Prop :=
  ∃ pre m now post, calls = pre ++ Record_absence m now :: post ∧ model_id m = id ∧
    observed_absent m now = true ∧ observed_at m = Some at_ ∧ Forall (keeps id) post.

Lemma stands_snoc id at_ calls c : stands id at_ calls → keeps id c → stands id at_ (calls ++ [c]).
Proof.
  intros (pre&m&now&post&->&Hid&Habs&Hat&Hpost) Hc. exists pre, m, now, (post ++ [c]).
  split_and!; [by rewrite <- app_assoc|done..|]. apply Forall_app. by repeat constructor.
Qed.

Lemma stands_now m now at_ calls :
  observed_absent m now = true → observed_at m = Some at_ →
  stands (model_id m) at_ (calls ++ [Record_absence m now]).
Proof. intros. by exists calls, m, now, []. Qed.

Lemma record_other m now e id : model_id m ≠ id → seen (record m now e).2 !! id = seen e !! id.
Proof.
  intros Hne. unfold record. case_all; by rewrite ?lookup_insert_ne, ?lookup_delete_ne.
Qed.

(** What the stored count of a model means. *)
Definition counted (id : string) (calls : list evidence_call) (entry : Z * nat) : Prop :=
  1 ≤ entry.2 ∧ stands id entry.1 calls ∧
  (2 ≤ entry.2 → ∃ before, stands id before calls ∧ (0 < entry.1 - before ≤ 90 * 1000000)%Z).

Lemma counted_snoc id calls c entry :
  counted id calls entry → keeps id c → counted id (calls ++ [c]) entry.
Proof.
  intros (H1&Hs&H2) Hk. split_and!; [done|by apply stands_snoc|]. intros Hn.
  destruct (H2 Hn) as (b&Hb&Hgap). exists b. split; [by apply stands_snoc|done].
Qed.

Lemma record_counts m now calls e :
  (∀ entry, seen e !! model_id m = Some entry → counted (model_id m) calls entry) →
  ∀ at_ n, observed_at m = Some at_ → observed_absent m now = true → (record m now e).1 = n →
  counted (model_id m) (calls ++ [Record_absence m now]) (at_, n) ∧
  seen (record m now e).2 !! model_id m = Some (at_, n).
Proof.
  intros IH at_ n Hat Habs <-.
  assert (keeps (model_id m) (Record_absence m now)) as Hk by (intros _; exact Habs).
  pose proof (stands_now m now at_ calls Habs Hat) as Hnow.
  unfold record. rewrite Habs, Hat. destruct (seen e !! model_id m) as [[last n]|] eqn:Hlast; simpl.
  - destruct (IH _ eq_refl) as (H1&Hs&H2). destruct (last =? at_)%Z eqn:Hsame; simpl.
    + apply Z.eqb_eq in Hsame. subst. split; [|done]. by apply counted_snoc; [apply IH|].
    + rewrite lookup_insert_eq. split; [|done].
      destruct ((0 <? at_ - last)%Z && _) eqn:Hgap.
      * unfold counted. simpl. split_and!; [lia|done|]. intros _.
        exists last. split; [by apply stands_snoc|]. unbool.
        unfold microseconds, RESIDENCY_MAX_AGE_SECONDS in *. lia.
      * unfold counted. simpl. split_and!; [lia|done|lia].
  - rewrite lookup_insert_eq. split; [|done]. unfold counted. simpl. split_and!; [lia|done|lia].
Qed.

Lemma evidence_counted calls id entry :
  seen (evidence_after calls) !! id = Some entry → counted id calls entry.
Proof.
  revert id entry. induction calls as [|c calls IH] using rev_ind; intros id entry.
  { change ((∅ : gmap string (Z * nat)) !! id = Some entry → counted id [] entry).
    by rewrite lookup_empty. }
  unfold evidence_after. rewrite foldl_snoc. fold (evidence_after calls).
  destruct c as [m now|id']; simpl.
  - destruct (decide (model_id m = id)) as [<-|Hne].
    + destruct (observed_absent m now) eqn:Habs.
      * assert (∃ at_, observed_at m = Some at_) as [at_ Hat].
        { unfold observed_absent in Habs. apply andb_true_iff in Habs as [Hf _].
          apply fresh_spec in Hf as (_&at_&Hat&_). eauto. }
        destruct (record_counts m now calls (evidence_after calls) (λ en, IH (model_id m) en) at_ _ Hat Habs eq_refl)
          as [Hc Hl]. rewrite Hl. by intros [= <-].
      * unfold record. rewrite Habs. simpl. by rewrite lookup_delete_eq.
    + rewrite record_other by done. intros H. apply counted_snoc; [by apply IH|].
      by intros ?.
  - destruct (decide (id' = id)) as [->|Hne]; [by rewrite lookup_delete_eq|].
    rewrite lookup_delete_ne by done. intros H. apply counted_snoc; [by apply IH|done].
Qed.

(** Two separate absences stand behind every restore.  Whatever was
    recorded and forgotten before, a count of two or more means that the model
    is positively absent now and that an earlier positive absence, captured at
    a different time no more than 90 seconds before, was recorded and never
    taken back by another answer for that model or by a restore; reading one
    answer again never counts as a second. *)
Theorem two_absences_behind_a_restore calls m now :
  REQUIRED_ABSENT_OBSERVATIONS ≤ (record m now (evidence_after calls)).1 →
  observed_absent m now = true ∧
  ∃ at_ before, observed_at m = Some at_ ∧ (0 < at_ - before ≤ 90 * 1000000)%Z ∧
    stands (model_id m) before (calls ++ [Record_absence m now]).
Proof.
  intros Hn. destruct (observed_absent m now) eqn:Habs.
  2: { unfold record in Hn. rewrite Habs in Hn. unfold REQUIRED_ABSENT_OBSERVATIONS in Hn. simpl in Hn. lia. }
  split; [done|].
  assert (∃ at_, observed_at m = Some at_) as [at_ Hat].
  { unfold observed_absent in Habs. apply andb_true_iff in Habs as [Hf _].
    apply fresh_spec in Hf as (_&at_&Hat&_). eauto. }
  destruct (record_counts m now calls (evidence_after calls)
    (λ en, evidence_counted calls (model_id m) en) at_ _ Hat Habs eq_refl) as [(_&_&Hc) _].
  destruct (Hc Hn) as (b&Hb&Hgap). by exists at_, b.
Qed.

Lemma two_absences_behind_a_restore_witness :
  observed_absent (demo_model "m" (Some DOWNLOADED) (Some 60000000%Z)) 60000001 = true ∧
  ∃ at_ before, Some 60000000%Z = Some at_ ∧ (0 < at_ - before ≤ 90 * 1000000)%Z ∧
    stands "m" before
      ([Record_absence (demo_model "m" (Some DOWNLOADED) (Some 0%Z)) 1] ++
       [Record_absence (demo_model "m" (Some DOWNLOADED) (Some 60000000%Z)) 60000001]).
Proof.
  apply (two_absences_behind_a_restore
           [Record_absence (demo_model "m" (Some DOWNLOADED) (Some 0%Z)) 1]
           (demo_model "m" (Some DOWNLOADED) (Some 60000000%Z)) 60000001).
  vm_compute. repeat constructor.
Defined.

(** * The backoff *)

Lemma backoff_bounds n : (BACKOFF_BASE_SECONDS ≤ backoff_seconds n ≤ BACKOFF_CAP_SECONDS)%Z.
Proof.
  unfold backoff_seconds, BACKOFF_BASE_SECONDS, BACKOFF_CAP_SECONDS.
  pose proof (Z.pow_pos_nonneg 2 (Z.min (Z.max (n - 1) 0) 16)). lia.
Qed.

Lemma backoff_monotone n k : (n ≤ k)%Z → (backoff_seconds n ≤ backoff_seconds k)%Z.
Proof.
  intros Hnk. unfold backoff_seconds, BACKOFF_BASE_SECONDS, BACKOFF_CAP_SECONDS.
  pose proof (Z.pow_le_mono_r 2 (Z.min (Z.max (n - 1) 0) 16) (Z.min (Z.max (k - 1) 0) 16)). lia.
Qed.
