(* ===== verification/Reconciler.v ===== *)
(** The residency reconciler
    ([application/use_cases/reconcile_residency.py]).

    A pass is a program (see [Programs]) over the ports of the source: the
    committed state, the runtime observer, the restorer, the per-node lock and the
    suspension hook, each of which may raise, or be cancelled, at every call.  The
    object's fields are the absence evidence, the backoffs and the intents.  The
    rules it asks are those of [Residency]. *)

From S2P Require Export Programs Residency.

Definition MAX_REPAIR_ROUNDS : nat := 2.
Definition GIVE_UP_AFTER_WASTED_PASSES : Z := 4.

Inductive PassResult : Set :=
  IDLE | RESTORED | FAILED | BACKING_OFF | BLOCKED | BUSY | UNHEALTHY | SUSPENDED | GAVE_UP.

#[export] Instance PassResult_eq_dec : EqDecision PassResult.
Proof. solve_decision. Defined.

Record PassOutcome := mk_outcome {
  out_node : string; result : PassResult; out_restored : list string; out_released : list string;
  out_reason : option string
}.

Record Backoff := mk_backoff { failures : Z; until : option Z; wasted : Z; gave_up : bool }.
Definition new_backoff : Backoff := mk_backoff 0 None 0 false.

Record Progress := mk_progress { restored : list string; released : list string }.
Definition no_progress : Progress := mk_progress [] [].

(** ** The ports

    An exception is an [Exception], of which the type's name is recorded, or the
    [CancelledError] that no [except Exception] catches. *)

Inductive exn : Type := Error (type_name : string) | CancelledError.
Abbreviation answer := (sum exn).

Inductive port : Type → Type :=
  | Suspended : port (answer bool)
  | Nodes : port (answer (list Node))
  | Models_on (node : string) : port (answer (list Model))
  | Node_blocked (node : string) : port (answer bool)
  | Now : port (answer Z)
  | Observe (node : string) : port (answer unit)
  | Restore (id : string) : port (answer unit)
  | Release (id : string) : port (answer unit)
  | Hold (node : string) : port (answer bool)
  | Unhold (node : string) : port (answer unit).

(** A call with its answer. *)
Inductive event : Type :=
  | suspended_was (a : answer bool)
  | nodes_were (a : answer (list Node))
  | models_were (node : string) (a : answer (list Model))
  | blocked_was (node : string) (a : answer bool)
  | now_was (a : answer Z)
  | observed (node : string) (a : answer unit)
  | restored_model (id : string) (a : answer unit)
  | released_model (id : string) (a : answer unit)
  | held_was (node : string) (a : answer bool)
  | unheld (node : string) (a : answer unit).

Definition log {R} (q : port R) : R → event :=
  match q with
  | Suspended => suspended_was
  | Nodes => nodes_were
  | Models_on n => models_were n
  | Node_blocked n => blocked_was n
  | Now => now_was
  | Observe n => observed n
  | Restore id => restored_model id
  | Release id => released_model id
  | Hold n => held_was n
  | Unhold n => unheld n
  end.

(** ** The object *)

Record fields := mk_fields {
  evidence : AbsenceEvidence;
  backoffs : gmap string Backoff;
  intents : gmap string (gset (string * Z))
}.
Definition new_fields : fields := mk_fields new_evidence ∅ ∅.

Definition set_evidence (e : AbsenceEvidence) (s : fields) : fields := mk_fields e (backoffs s) (intents s).
Definition set_backoffs (b : gmap string Backoff) (s : fields) : fields := mk_fields (evidence s) b (intents s).
Definition set_intent (n : string) (i : gset (string * Z)) (s : fields) : fields :=
  mk_fields (evidence s) (backoffs s) (<[n := i]> (intents s)).
(** [self._backoff.pop(node_id, None)] *)
Definition pop_backoff (n : string) (s : fields) : fields := set_backoffs (delete n (backoffs s)) s.
Definition forget_all (ids : list string) (s : fields) : fields :=
  set_evidence (foldl (λ e id, forget id e) (evidence s) ids) s.

Abbreviation method := (prog port exn fields).

(** [except Exception] *)
Definition except {A} (p : method A) (h : string → method A) : method A :=
  catch p (λ e, match e with Error t => h t | CancelledError => Throw CancelledError end).

(** ** The rules of a pass *)

(** [_reconcilable] *)
Definition reconcilable (m : Model) : bool := bool_decide (runtime m = OLLAMA).

(** [_find] *)
Definition find (models : list Model) (id : string) : option Model :=
  List.find (λ m, bool_decide (model_id m = id)) models.

(** [_ended] *)
Definition ended (node : string) (r : PassResult) (p : Progress) (why : option string) : PassOutcome :=
  mk_outcome node r (restored p) (released p) why.

Definition intent_of (desired : list Model) : gset (string * Z) :=
  list_to_set ((λ m, (model_id m, desired_version m)) <$> desired).

(** The comprehension of [due], which records every desired model in turn. *)
Fixpoint due_models (desired : list Model) (now : Z) (e : AbsenceEvidence) : list Model * AbsenceEvidence :=
  match desired with
  | [] => ([], e)
  | m :: rest =>
      let '(n, e) := record m now e in
      let '(due, e) := due_models rest now e in
      ((if bool_decide (REQUIRED_ABSENT_OBSERVATIONS ≤ n) && bool_decide (state m ∉ TRANSIENT_STATES)
        then [m] else []) ++ due, e)
  end.

(** What [_fail] makes of the entry, before and after it has read the clock. *)
Definition one_more_failure (b : Backoff) : Backoff :=
  mk_backoff (failures b + 1) (until b) (wasted b) (gave_up b).

Definition back_off (now : Z) (p : Progress) (b : Backoff) : Backoff :=
  let w := if bool_decide (restored p = []) then wasted b else (wasted b + 1)%Z in
  mk_backoff (failures b) (Some (now + microseconds (backoff_seconds (failures b)))%Z) w
    (gave_up b || (GIVE_UP_AFTER_WASTED_PASSES <=? w)%Z).

Definition backoff_of (n : string) (s : fields) : Backoff := default new_backoff (backoffs s !! n).
Definition on_backoff (n : string) (f : Backoff → Backoff) (s : fields) : fields :=
  set_backoffs (<[n := f (backoff_of n s)]> (backoffs s)) s.

(** ** The methods *)

(** [_fail] *)
Definition fail (node why : string) (p : Progress) : method PassOutcome :=
  let! _ := update_self (on_backoff node one_more_failure) in
  let! now := invoke Now in
  let! _ := update_self (on_backoff node (back_off now p)) in
  let! models := invoke (Models_on node) in
  let! _ := update_self (forget_all (model_id <$> models)) in
  Pure (ended node FAILED p (Some why)).

(** [_restore_one]: [inl] ends the pass, [inr] goes on to the next model. *)
Definition restore_one (node : string) (p : Progress) (id : string) : method (PassOutcome + Progress) :=
  let stop r why := Pure (inl (ended node r p why)) in
  let! suspended := invoke Suspended in
  if (suspended : bool) then stop SUSPENDED None else
  let! blocked := invoke (Node_blocked node) in
  if (blocked : bool) then stop BLOCKED None else
  let! now := invoke Now in
  let! models := invoke (Models_on node) in
  match find models id with
  | None => Pure (inr p)
  | Some current =>
      if negb (desired_resident current) then Pure (inr p)
      else if observed_resident current now then Pure (inr p)
      else if bool_decide (state current ∈ TRANSIENT_STATES) then stop BUSY (Some "lifecycle_in_flight")
      else if negb (observed_absent current now) then
        let! o := fail node "residency_unobserved" p in Pure (inl o)
      else
        let! loaded :=
          except (let! _ := invoke (Restore (model_id current)) in Pure None)
            (λ t, let! o := fail node ("load_failed:" +:+ t) p in Pure (Some o)) in
        match loaded with
        | Some o => Pure (inl o)
        | None =>
            let p := mk_progress (restored p ++ [alias current]) (released p) in
            let! after := invoke (Models_on node) in
            let wanted := from_option desired_resident false (find after id) in
            let! r :=
              if wanted then Pure (inr p)
              else except
                (let! _ := invoke (Release id) in
                 Pure (inr (mk_progress (restored p) (released p ++ [alias current]))))
                (λ t, let! o := fail node ("release_failed:" +:+ t) p in Pure (inl o)) in
            match r with
            | inl o => Pure (inl o)
            | inr p => let! _ := invoke (Observe node) in Pure (inr p)
            end
        end
  end.

(** The rounds of [_restore], [fuel] of them. *)
Fixpoint restore_rounds (fuel : nat) (node : string) (p : Progress) (queue : list Model) : method PassOutcome :=
  match fuel with
  | O => fail node "repair_rounds_exhausted" p
  | S fuel =>
      let! r := for_each (restore_one node) p (model_id <$> queue) in
      match r with
      | inl stopped => Pure stopped
      | inr p =>
          let! now := invoke Now in
          let! models := invoke (Models_on node) in
          match List.filter (λ m, restorable m now && negb (observed_resident m now)) models with
          | [] =>
              let! _ := update_self (pop_backoff node) in
              Pure (ended node RESTORED p None)
          | missing => restore_rounds fuel node p (restore_order missing)
          end
      end
  end.

(** [_restore] *)
Definition restore (node : string) (queue : list Model) : method PassOutcome :=
  restore_rounds (1 + MAX_REPAIR_ROUNDS) node no_progress queue.

(** The bookkeeping of [_reconcile] on intents and backoffs. *)
Definition note_intent (n : string) (intent : gset (string * Z)) (s : fields) : fields :=
  let previous := intents s !! n in
  let s := set_intent n intent s in
  if bool_decide (previous ≠ None) && bool_decide (previous ≠ Some intent) then pop_backoff n s else s.

Definition all_resident (desired : list Model) (now : Z) : bool :=
  forallb (λ m, observed_resident m now) (List.filter (λ m, restorable m now) desired).

(** [_reconcile] *)
Definition reconcile (node : Node) : method PassOutcome :=
  let n := node_id node in
  let over r why := Pure (mk_outcome n r [] [] why) in
  let! suspended := invoke Suspended in
  if (suspended : bool) then over SUSPENDED None else
  let! now := invoke Now in
  let! registered := invoke (Models_on n) in
  let models := List.filter reconcilable registered in
  let desired := List.filter desired_resident models in
  let! _ := update_self (note_intent n (intent_of desired)) in
  let! _ := update_self (λ s, if all_resident desired now then pop_backoff n s else s) in
  let! s := get_self in
  let backoff := backoffs s !! n in
  if from_option gave_up false backoff then over GAVE_UP None
  else if from_option (λ t, now <? t)%Z false (b ← backoff; until b) then over BACKING_OFF None
  else
    let! _ := update_self (forget_all (model_id <$> List.filter (λ m, negb (desired_resident m)) models)) in
    let! s := get_self in
    let '(due, e) := due_models desired now (evidence s) in
    let! _ := update_self (set_evidence e) in
    match due with
    | [] => over IDLE None
    | _ :: _ =>
        if bool_decide (status node ≠ ONLINE) then over UNHEALTHY None
        else if existsb (λ m, bool_decide (state m ∈ TRANSIENT_STATES)) models
        then over BUSY (Some "lifecycle_in_flight")
        else
          let! blocked := invoke (Node_blocked n) in
          if (blocked : bool) then over BLOCKED None
          else
            let! held := invoke (Hold n) in
            finally (if (held : bool) then restore n (restore_order due) else over BUSY (Some "held_elsewhere"))
              (invoke (Unhold n))
    end.

(** [run_once] *)
Definition pass_over (node : Node) : method PassOutcome :=
  except (reconcile node) (λ t, fail (node_id node) ("error:" +:+ t) no_progress).

Fixpoint run_nodes (nodes : list Node) : method (list PassOutcome) :=
  match nodes with
  | [] => Pure []
  | node :: rest =>
      if bool_decide (OLLAMA ∈ runtimes node) then
        let! o := pass_over node in let! os := run_nodes rest in Pure (o :: os)
      else run_nodes rest
  end.

Definition run_once (enabled : bool) : method (list PassOutcome) :=
  if enabled then let! nodes := invoke Nodes in run_nodes nodes else Pure [].

(** * What a pass may do

    Nothing is assumed of the answers: every port may answer anything, or raise. *)

Definition any (_ : list event) (R : Type) (_ : port R) (_ : R) : Prop := True.
Abbreviation wp := (wp (@log) any).
Abbreviation exec := (exec (@log) any).

(** Whether the node's lock is held after a trace. *)
Definition holding_step (n : string) (b : bool) (e : event) : bool :=
  match e with
  | held_was m (inr true) => b || bool_decide (m = n)
  | unheld m _ => b && negb (bool_decide (m = n))
  | _ => b
  end.
Definition holding (n : string) (tr : list event) : bool := foldl (holding_step n) false tr.

Definition is_restore (e : event) : bool := match e with restored_model _ _ => true | _ => false end.
Definition restores (tr : list event) : nat := length (List.filter is_restore tr).

(** Neither a load nor a lock. *)
Definition harmless (e : event) : bool :=
  match e with restored_model _ _ | held_was _ _ | unheld _ _ => false | _ => true end.

Lemma holding_snoc n tr e : holding n (tr ++ [e]) = holding_step n (holding n tr) e.
Proof. unfold holding. by rewrite foldl_app. Qed.

Lemma holding_harmless n tr e : harmless e = true → holding n (tr ++ [e]) = holding n tr.
Proof. rewrite holding_snoc. by destruct e. Qed.

(** The load of [id] comes right after the answers that call for it. *)
Definition justified (tr : list event) (id : string) : Prop :=
  ∃ n pre t ms m,
    tr = pre ++ [suspended_was (inr false); blocked_was n (inr false); now_was (inr t); models_were n (inr ms)] ∧
    find ms id = Some m ∧ desired_resident m = true ∧ observed_absent m t = true ∧
    (state m ∉ TRANSIENT_STATES) ∧ holding n pre = true.

Definition safe (tr : list event) : Prop :=
  ∀ pre id r post, tr = pre ++ (restored_model id r :: post) → justified pre id.

Lemma safe_snoc tr e :
  safe tr → (∀ id r, e = restored_model id r → justified tr id) → safe (tr ++ [e]).
Proof.
  intros Hs He pre id r post Heq. destruct post as [|x post _] using rev_ind.
  - apply app_inj_tail in Heq as [<- ->]. by eapply He.
  - rewrite app_comm_cons, app_assoc in Heq. apply app_inj_tail in Heq as [-> _]. by eapply Hs.
Qed.

Lemma safe_harmless tr e : harmless e = true → safe tr → safe (tr ++ [e]).
Proof. intros He Hs. apply safe_snoc; [done|]. by intros id r ->. Qed.

#[local] Hint Resolve safe_harmless : core.

(** Walk to the next call and take its answer. *)
Ltac walk := walk_calls; cbn [log].
Ltac asked := walk; intros [?e|?x] _; walk.

(** What a method without loads or locks keeps. *)
Lemma wp_fail node why p (Inv : list event → Prop) (Q : exn + PassOutcome → fields → list event → Prop) s tr :
  (∀ tr e, harmless e = true → Inv tr → Inv (tr ++ [e])) →
  (∀ e s' tr', Inv tr' → Q (inl e) s' tr') →
  (∀ o s' tr', result o ≠ RESTORED → out_restored o = restored p → Inv tr' → Q (inr o) s' tr') →
  Inv tr → wp (fail node why p) Q s tr.
Proof. intros HI He Ho Hi. unfold fail. asked; [auto|]. asked; [auto|]. apply Ho; [done|done|auto]. Qed.

(** ** Weights that are no longer wanted

    A monitor of the trace: once a model is loaded the registry is read again, and
    a model it no longer wants resident is released next. *)
Inductive duty : Set := Nothing | Look (id : string) | Owe (id : string) | Broken.

Definition duty_step (d : duty) (e : event) : duty :=
  match d, e with
  | Nothing, restored_model id (inr _) => Look id
  | Nothing, _ => Nothing
  | Look id, models_were _ (inr ms) => if from_option desired_resident false (find ms id) then Nothing else Owe id
  | Look _, models_were _ (inl _) => Nothing
  | Owe id, released_model id' _ => if bool_decide (id = id') then Nothing else Broken
  | _, _ => Broken
  end.
Definition duty_after (tr : list event) : duty := foldl duty_step Nothing tr.

Lemma duty_snoc tr e : duty_after (tr ++ [e]) = duty_step (duty_after tr) e.
Proof. unfold duty_after. by rewrite foldl_app. Qed.

Lemma duty_harmless tr e : harmless e = true → duty_after tr = Nothing → duty_after (tr ++ [e]) = Nothing.
Proof. intros He Hd. rewrite duty_snoc, Hd. by destruct e. Qed.
#[local] Hint Resolve duty_harmless : core.

(** What holds between two loads of a pass that has made at most [k]. *)
Definition pass_ok (n : string) (k : nat) (tr : list event) : Prop :=
  safe tr ∧ holding n tr = true ∧ duty_after tr = Nothing ∧ restores tr ≤ k.

Lemma restores_app tr1 tr2 : restores (tr1 ++ tr2) = restores tr1 + restores tr2.
Proof. unfold restores. by rewrite List.filter_app, length_app. Qed.

Lemma restores_harmless tr e : harmless e = true → restores (tr ++ [e]) = restores tr.
Proof. intros He. rewrite restores_app. unfold restores. destruct e; simpl; done || lia. Qed.

Lemma pass_ok_harmless n k tr e : harmless e = true → pass_ok n k tr → pass_ok n k (tr ++ [e]).
Proof.
  intros He (Hs&Hh&Hd&Hk).
  split_and!; [auto|by rewrite holding_harmless|auto|by rewrite restores_harmless].
Qed.
#[local] Hint Resolve pass_ok_harmless : core.

Lemma pass_ok_le n k k' tr : k ≤ k' → pass_ok n k tr → pass_ok n k' tr.
Proof. intros Hk (?&?&?&?). split_and!; [done..|lia]. Qed.

Lemma find_inr ms id m : find ms id = Some m → m ∈ ms ∧ model_id m = id.
Proof.
  intros [Hin Heq]%find_some. split; [by apply list_elem_of_In|by apply bool_decide_eq_true in Heq].
Qed.

(** A stop is not a success. *)
Definition stopped {A} (o : exn + (PassOutcome + A)) : Prop := ∀ x, o = inr (inl x) → result x ≠ RESTORED.

Lemma stopped_raise {A} e : @stopped A (inl e).
Proof. by intros x. Qed.
Lemma stopped_next {A} p : @stopped A (inr (inr p)).
Proof. by intros x. Qed.
#[local] Hint Resolve stopped_raise stopped_next : core.

Lemma wp_stop {A} node k why p (Q : exn + (PassOutcome + A) → fields → list event → Prop) s tr :
  (∀ o s' tr', stopped o → pass_ok node k tr' → Q o s' tr') →
  pass_ok node k tr → wp (let! o := fail node why p in Pure (inl o)) Q s tr.
Proof.
  intros HQ Hok. apply wp_bind. apply (wp_fail _ _ _ (pass_ok node k)); [auto| | |done].
  - intros e s' tr' Hok'. by apply HQ.
  - intros o s' tr' Hr _ Hok'. apply HQ; [|done]. by intros x [= <-].
Qed.

Lemma restore_one_ok node k p id s tr :
  pass_ok node k tr →
  wp (restore_one node p id) (λ o _ tr', stopped o ∧ pass_ok node (S k) tr') s tr.
Proof.
  intros Hok. assert (∀ o tr', stopped o → pass_ok node k tr' →
    @stopped Progress o ∧ pass_ok node (S k) tr') as Hexit.
  { intros o tr' Ho Hok'. split; [done|]. apply (pass_ok_le _ k); auto. }
  assert (∀ r why, r ≠ RESTORED → @stopped Progress (inr (inl (ended node r p why)))) as Hstop.
  { intros r why H. by intros x [= <-]. }
  unfold restore_one. asked; [by apply Hexit; auto|]. destruct x; [walk; apply Hexit; [by apply Hstop|auto]|].
  asked; [by apply Hexit; auto|]. destruct x; [walk; apply Hexit; [by apply Hstop|auto]|]. asked; [by apply Hexit; auto|]. asked; [by apply Hexit; auto|].
  set (tr1 := (((tr ++ _) ++ _) ++ _) ++ _).
  assert (pass_ok node k tr1) as Hok1 by (unfold tr1; auto).
  destruct (find x0 id) as [m|] eqn:Hf; [|by apply Hexit].
  destruct (desired_resident m) eqn:Hd; [|by apply Hexit]. cbn [negb].
  destruct (observed_resident m x) eqn:Hr; [by apply Hexit|].
  case_bool_decide as Ht; [walk; apply Hexit; [by apply Hstop|done]|].
  destruct (observed_absent m x) eqn:Ha; cbn [negb]; [|apply (wp_stop node k); [intros; by apply Hexit|done]].
  pose proof (find_inr _ _ _ Hf) as [_ Hid]. rewrite Hid.
  assert (justified tr1 id) as Hj.
  { exists node, tr, x, x0, m. split_and!; try done; [|apply Hok]. unfold tr1. by rewrite <- !app_assoc. }
  clearbody tr1. destruct Hok1 as (Hs1&Hh1&Hd1&Hk1). clear Hexit Hstop Hok.
  assert (∀ r, safe (tr1 ++ [restored_model id r]) ∧ holding node (tr1 ++ [restored_model id r]) = true ∧
    restores (tr1 ++ [restored_model id r]) ≤ S k) as Hok2.
  { intros r. split_and!; [|by rewrite holding_snoc|rewrite restores_app; unfold restores at 2; simpl; lia].
    apply safe_snoc; [done|]. by intros id' r' [= <- <-]. }
  apply wp_bind, wp_catch. walk. intros [e|[]] _; walk.
  { assert (pass_ok node (S k) (tr1 ++ [restored_model id (inl e)])).
    { split_and!; [apply Hok2..|by rewrite duty_snoc, Hd1|apply Hok2]. }
    destruct e; [|done]. apply wp_bind, (wp_fail _ _ _ (pass_ok node (S k))); [auto|done| |done].
    intros o s' tr' Ho _ Hok'. by split; [intros x' [= <-]|]. }
  destruct (Hok2 (inr tt)) as (Hs2&Hh2&Hk2). intros a _.
  set (tr2 := (tr1 ++ _) ++ [models_were node a]).
  assert (duty_after tr2 = duty_step (Look id) (models_were node a)) as Hd2.
  { unfold tr2. by rewrite !duty_snoc, Hd1. }
  assert (safe tr2 ∧ holding node tr2 = true ∧ restores tr2 ≤ S k) as (Hs3&Hh3&Hk3).
  { split_and!; [apply safe_harmless; auto|unfold tr2; by rewrite holding_harmless|].
    unfold tr2. by rewrite restores_harmless. }
  clearbody tr2. destruct a as [e|ms]; walk; [by split_and!|]. simpl in Hd2.
  assert (∀ tr' p', pass_ok node (S k) tr' → wp (let! _ := invoke (Observe node) in Pure (@inr PassOutcome Progress p'))
    (λ o _ tr', stopped o ∧ pass_ok node (S k) tr') s tr') as Hobs by (intros; asked; split; done || auto).
  destruct (from_option _ _ _); walk; [by apply Hobs|].
  apply wp_then, wp_catch. walk. intros a _.
  assert (pass_ok node (S k) (tr2 ++ [released_model id a])) as Hok3.
  { split_and!; [auto|by rewrite holding_harmless| |by rewrite restores_harmless].
    rewrite duty_snoc, Hd2. simpl. by rewrite bool_decide_true. }
  destruct a as [e|[]]; walk; [|by apply Hobs]. destruct e; [|by split].
  apply wp_then, (wp_fail _ _ _ (pass_ok node (S k))); [auto|by split| |done].
  intros o s' tr' Ho _ Hok'. by split; [intros x' [= <-]|].
Qed.

(** The rounds of [_restore]: at most one load per model and round, and success
    only on a reading that shows everything restorable resident. *)
Definition longest (tr : list event) : nat :=
  foldr (λ e n, match e with models_were _ (inr ms) => length ms `max` n | _ => n end) 0 tr.

Lemma longest_app tr1 tr2 : longest (tr1 ++ tr2) = longest tr1 `max` longest tr2.
Proof.
  induction tr1 as [|e tr1 IH]; [done|]. simpl. rewrite IH. destruct e as [| |? []| | | | | | |]; lia.
Qed.

Lemma longest_prefix tr tr' : tr `prefix_of` tr' → longest tr ≤ longest tr'.
Proof. intros [evs ->]. rewrite longest_app. lia. Qed.

Definition all_back (node : string) (tr : list event) : Prop :=
  ∃ pre t ms, tr = pre ++ [now_was (inr t); models_were node (inr ms)] ∧
    ∀ m, m ∈ ms → restorable m t = true → observed_resident m t = true.

Definition ends (node : string) (o : exn + PassOutcome) (tr : list event) : Prop :=
  ∀ x, o = inr x → result x = RESTORED → all_back node tr.

Lemma restore_rounds_ok fuel node k p queue s tr :
  pass_ok node k tr → length queue ≤ longest tr →
  wp (restore_rounds fuel node p queue)
    (λ o _ tr', ends node o tr' ∧ pass_ok node (k + fuel * longest tr') tr') s tr.
Proof.
  revert k p queue s tr. induction fuel as [|fuel IH]; intros k p queue s tr Hok Hlen; cbn [restore_rounds].
  { apply (wp_fail _ _ _ (pass_ok node k)); [auto| | |done].
    - intros e s' tr' H. split; [done|]. by rewrite Nat.add_0_r.
    - intros o s' tr' Hr _ H. split; [by intros x [= <-]|]. by rewrite Nat.add_0_r. }
  assert (∀ o tr', ends node o tr' → pass_ok node (k + length queue) tr' → longest tr ≤ longest tr' →
    ends node o tr' ∧ pass_ok node (k + S fuel * longest tr') tr') as Hexit.
  { intros o tr' Ho Hok' Hl. split; [done|]. eapply pass_ok_le; [|done]. nia. }
  apply wp_bind.
  eapply wp_mono; [|apply (wp_and _ _ _ (λ o s' tr', match o with
    | inr (inr _) => pass_ok node (k + length queue) tr'
    | _ => @stopped Progress o ∧ pass_ok node (k + length queue) tr' end)); [|apply wp_extends]].
  2:{ rewrite <- (length_fmap model_id). generalize (model_id <$> queue). intros ids.
      clear IH Hexit Hlen. revert k p s tr Hok. induction ids as [|id ids IHids]; intros k p s tr Hok.
      { walk. by rewrite Nat.add_0_r. }
      cbn [for_each]. apply wp_bind. eapply wp_mono; [|by apply restore_one_ok].
      intros o s' tr' [Ho Hok']. assert (pass_ok node (k + S (length ids)) tr') as Hok2.
      { apply (pass_ok_le _ (S k)); [lia|done]. }
      destruct o as [e|[x|p']]; [done|done|]. cbn [length]. rewrite Nat.add_succ_r, <- Nat.add_succ_l.
      by apply IHids. }
  intros [e|[x|p']] s' tr' [Hok' Hp].
  - apply Hexit; [done|apply Hok'|by apply longest_prefix].
  - walk. destruct Hok' as [Hst Hok']. apply Hexit; [|done|by apply longest_prefix].
    intros y [= <-] Hy. by destruct (Hst _ eq_refl).
  - apply longest_prefix in Hp. asked; [apply Hexit; auto; [done|rewrite longest_app; lia]|].
    asked; [apply Hexit; auto; [done|rewrite !longest_app; lia]|].
    destruct (List.filter _ _) as [|m ms] eqn:Hf.
    + walk. apply Hexit; [|auto|rewrite !longest_app; lia]. intros y [= <-] _.
      exists tr', x, x0. split; [by rewrite <- app_assoc|]. intros m Hin Hr.
      destruct (observed_resident m x) eqn:Ho; [done|].
      assert (m ∈ []) as Hn; [|by apply not_elem_of_nil in Hn]. rewrite <- Hf.
      apply list_elem_of_In, filter_In. rewrite Hr, Ho. split; [by apply list_elem_of_In|done].
    + set (tr2 := (tr' ++ _) ++ _). assert (longest tr ≤ longest tr2) as Hl2.
      { unfold tr2. rewrite !longest_app. lia. }
      eapply wp_mono; [|apply wp_and; [apply (IH (k + length queue))|apply wp_extends]].
      * intros o s2 tr3 [[Ho Hok3] Hp3%longest_prefix]. split; [done|]. eapply pass_ok_le; [|done]. nia.
      * unfold tr2. auto.
      * unfold restore_order. rewrite (Permutation_length (py_sorted_perm _ _)), <- Hf.
        etransitivity; [apply List.filter_length_le|]. unfold tr2. rewrite longest_app. simpl. lia.
Qed.

(** ** Where a pass starts loading *)

Definition models_of (registered : list Model) : list Model := List.filter reconcilable registered.
Definition desired_of (registered : list Model) : list Model :=
  List.filter desired_resident (models_of registered).
Definition undesired_of (registered : list Model) : list Model :=
  List.filter (λ m, negb (desired_resident m)) (models_of registered).

(** The fields once the pass has noted the intent it read. *)
Definition noted (n : string) (registered : list Model) (t : Z) (s : fields) : fields :=
  let s := note_intent n (intent_of (desired_of registered)) s in
  if all_resident (desired_of registered) t then pop_backoff n s else s.

(** The pass that read [registered] at [t] has models [due], and no reason to wait. *)
Record loads (node : Node) (registered : list Model) (t : Z) (s : fields) (due : list Model) : Prop := {
  loads_intent : from_option gave_up false (backoffs (noted (node_id node) registered t s) !! node_id node) = false;
  loads_due : (due_models (desired_of registered) t
    (evidence (forget_all (model_id <$> undesired_of registered) (noted (node_id node) registered t s)))).1 = due;
  loads_some : due ≠ [];
  loads_online : status node = ONLINE;
  loads_quiet : ∀ m, m ∈ models_of registered → state m ∉ TRANSIENT_STATES
}.

Definition entered (node : Node) (registered : list Model) (t : Z) : list event :=
  let n := node_id node in
  [suspended_was (inr false); now_was (inr t); models_were n (inr registered);
   blocked_was n (inr false); held_was n (inr true)].

(** More of the same pass, without a load. *)
Definition quietly (tr tr' : list event) : Prop := ∃ evs, tr' = tr ++ evs ∧ restores evs = 0.

Lemma quietly_refl tr : quietly tr tr.
Proof. exists []. by rewrite app_nil_r. Qed.

Lemma quietly_snoc tr tr' e : is_restore e = false → quietly tr tr' → quietly tr (tr' ++ [e]).
Proof.
  intros He (evs&->&Hn). exists (evs ++ [e]). rewrite app_assoc, restores_app, Hn.
  split; [done|]. unfold restores. simpl. by rewrite He.
Qed.
#[local] Hint Resolve quietly_refl quietly_snoc : core.

(** A pass ends without a load, or starts loading as above with the lock held. *)
Lemma wp_reconcile node (Q : exn + PassOutcome → fields → list event → Prop) s tr :
  (∀ o s' tr', quietly tr tr' → (∀ x, o = inr x → result x ≠ RESTORED) → Q o s' tr') →
  (∀ registered t due s1,
     loads node registered t s due → backoffs s1 = backoffs (noted (node_id node) registered t s) →
     wp (restore (node_id node) (restore_order due))
       (λ o s' tr', ∀ r, Q (match r with inl e => inl e | inr _ => o end) s' (tr' ++ [unheld (node_id node) r]))
       s1 (tr ++ entered node registered t)) →
  wp (reconcile node) Q s tr.
Proof.
  intros Hend Hload. unfold reconcile.
  asked; [apply Hend; auto; done|].
  destruct x; [walk; apply Hend; [auto|by intros ? [= <-]]|].
  asked; [apply Hend; auto; done|]. rename x into t. asked; [apply Hend; auto; done|]. rename x into registered.
  fold (models_of registered).
  change (List.filter desired_resident (models_of registered)) with (desired_of registered).
  set (s0 := if all_resident _ _ then _ else _).
  assert (s0 = noted (node_id node) registered t s) as Hs0 by done. clearbody s0.
  set (b := backoffs s0 !! node_id node).
  destruct (from_option gave_up false b) eqn:Hg; [walk; apply Hend; [auto 10|by intros ? [= <-]]|].
  destruct (from_option _ false (b ≫= until)) eqn:Hu; [walk; apply Hend; [auto 10|by intros ? [= <-]]|].
  walk. change (List.filter (λ m, negb (desired_resident m)) (models_of registered)) with (undesired_of registered).
  destruct (due_models _ _ _) as [due e2] eqn:Hdue. walk.
  destruct due as [|m0 ms]; [apply Hend; [auto 10|by intros ? [= <-]]|].
  case_bool_decide as Hon; [walk; apply Hend; [auto 10|by intros ? [= <-]]|].
  destruct (existsb _ _) eqn:Hex; [walk; apply Hend; [auto 10|by intros ? [= <-]]|].
  asked; [apply Hend; auto 10; done|]. destruct x; [walk; apply Hend; [auto 10|by intros ? [= <-]]|].
  asked; [apply Hend; auto 10; done|]. apply wp_finally. destruct x.
  2:{ walk. intros r _. destruct r; walk; (apply Hend; [auto 10|done || by intros ? [= <-]]). }
  replace (_ ++ [held_was _ _]) with (tr ++ entered node registered t) by by rewrite <- !app_assoc.
  eapply wp_mono; [|apply (Hload registered t (m0 :: ms))].
  - intros o s' tr' H r _. destruct r as [e|[]]; walk; [apply (H (inl e))|apply (H (inr tt))].
  - constructor; [by rewrite <- Hs0|by rewrite <- Hs0, Hdue|done|exact Hon|].
    intros m Hin Ht. assert (existsb (λ m, bool_decide (state m ∈ TRANSIENT_STATES)) (models_of registered) = true);
      [|congruence].
    apply existsb_exists. exists m. split; [by apply list_elem_of_In|by apply bool_decide_eq_true].
  - by rewrite Hs0.
Qed.

(** ** Whole passes *)

Definition sound (tr : list event) : Prop := safe tr ∧ duty_after tr = Nothing.

Lemma sound_snoc tr e : is_restore e = false → sound tr → sound (tr ++ [e]).
Proof.
  intros He [Hs Hd]. split.
  - apply safe_snoc; [done|]. by intros id r ->.
  - rewrite duty_snoc, Hd. by destruct e.
Qed.
#[local] Hint Resolve sound_snoc : core.

Lemma quietly_sound tr tr' : quietly tr tr' → sound tr → sound tr'.
Proof.
  intros (evs&->&Hn). revert tr. induction evs as [|e evs IH]; intros tr Hs; [by rewrite app_nil_r|].
  rewrite cons_middle, app_assoc. unfold restores in Hn. simpl in Hn.
  destruct (is_restore e) eqn:He; [done|]. apply IH; auto.
Qed.

Lemma entered_ok node registered t tr :
  sound tr → pass_ok (node_id node) (restores tr) (tr ++ entered node registered t).
Proof.
  intros Hs. assert (sound (tr ++ entered node registered t)) as [??].
  { apply (quietly_sound tr); [|done]. by eexists. }
  split_and!; [done| |done|rewrite restores_app; unfold restores at 2; simpl; lia].
  unfold holding, entered. rewrite foldl_app. simpl. by rewrite bool_decide_true, orb_true_r.
Qed.

Lemma due_length l t e : length (due_models l t e).1 ≤ length l.
Proof.
  revert e. induction l as [|m l IH]; intros e; simpl; [done|].
  destruct (record m t e) as [n e1]. specialize (IH e1). destruct (due_models l t e1) as [due e2].
  simpl in *. rewrite length_app. destruct (_ && _); simpl; lia.
Qed.

(** The loading half of a pass. *)
Lemma restore_ok node registered t due s s1 tr :
  sound tr → loads node registered t s due →
  wp (restore (node_id node) (restore_order due))
    (λ o _ tr', ends (node_id node) o tr' ∧ sound tr' ∧ restores tr' ≤ restores tr + 3 * longest tr')
    s1 (tr ++ entered node registered t).
Proof.
  intros Hs [_ <- _ _ _].
  eapply wp_mono; [|apply restore_rounds_ok; [by apply entered_ok|]].
  - intros o s' tr' (He&Hsafe&_&Hd&Hk). by split_and!.
  - unfold restore_order. rewrite (Permutation_length (py_sorted_perm _ _)).
    etransitivity; [apply due_length|]. etransitivity; [apply List.filter_length_le|].
    etransitivity; [apply List.filter_length_le|]. rewrite longest_app. simpl. lia.
Qed.

Lemma reconcile_ok node s tr :
  sound tr →
  wp (reconcile node) (λ o _ tr', sound tr' ∧ restores tr' ≤ restores tr + 3 * longest tr' ∧
    ∀ x, o = inr x → result x = RESTORED →
      ∃ tr1, all_back (node_id node) tr1 ∧ tr' = tr1 ++ [unheld (node_id node) (inr tt)]) s tr.
Proof.
  intros Hs. apply wp_reconcile.
  - intros o s' tr' Hq Ho. split_and!; [by eapply quietly_sound| |intros x Hx Hr; by destruct (Ho x Hx)].
    destruct Hq as (evs&->&Hn). rewrite restores_app. lia.
  - intros registered t due s1 Hl _. eapply wp_mono; [|by eapply restore_ok].
    intros o s' tr' (He&Hs'&Hk) r. split_and!; [by apply sound_snoc| |].
    + rewrite restores_app, longest_app. unfold restores at 2. simpl. lia.
    + intros x Hx Hr. destruct r as [e|[]]; [done|]. exists tr'. split; [by eapply He|done].
Qed.

Lemma harmless_sound tr e : harmless e = true → sound tr → sound (tr ++ [e]).
Proof. intros He. apply sound_snoc. by destruct e. Qed.

Lemma run_nodes_sound nodes s tr : sound tr → wp (run_nodes nodes) (λ _ _ tr', sound tr') s tr.
Proof.
  revert s tr. induction nodes as [|node nodes IH]; intros s tr Hs; [done|]. cbn [run_nodes].
  case_bool_decide; [|by apply IH]. apply wp_bind, wp_catch.
  assert (∀ (o : PassOutcome) s tr, sound tr →
    wp (let! os := run_nodes nodes in Pure (o :: os)) (λ _ _ tr', sound tr') s tr) as IH2.
  { intros o s' tr' Hs'. apply wp_bind. eapply wp_mono; [|by apply IH]. by intros [?|?]. }
  eapply wp_mono; [|by apply reconcile_ok]. intros [[t|]|o] s' tr' (Hs'&_); [|done|by apply IH2].
  apply (wp_fail _ _ _ sound); [apply harmless_sound|done| |done]. intros. by apply IH2.
Qed.

(** C26: Every load of the reconciler is called for.  Whatever its ports answer and
    wherever they raise, each [restore] of a run comes right after the answers that
    reconciliation is not suspended, that nothing on the node is uncertain,
    and a reading of the registry at a clock time at which that model is wanted
    resident, freshly observed on disk and not held, and in no transition; and it is
    made under the node's lock.  A model loaded and then found no longer
    wanted is released next. *)
Theorem every_load_is_called_for enabled s o s' tr :
  exec (run_once enabled) s [] o s' tr →
  (∀ pre id r post, tr = pre ++ (restored_model id r :: post) → justified pre id) ∧
  duty_after tr = Nothing.
Proof.
  revert o s' tr. apply wp_exec. unfold run_once.
  assert (sound []) as Hs by (split; [intros [] ? ? ?; done|done]).
  destruct enabled; [|exact Hs]. asked; [by apply (sound_snoc [])|].
  apply run_nodes_sound. by apply (sound_snoc []).
Qed.

(** ** Two absences behind every pass that loads *)

Lemma record_same m t e e' :
  seen e !! model_id m = seen e' !! model_id m → (record m t e).1 = (record m t e').1.
Proof.
  intros He. unfold record. destruct (observed_absent m t), (observed_at m); simpl; try done.
  rewrite He. destruct (seen e' !! model_id m) as [[last n]|]; [|done]. by destruct (last =? z)%Z.
Qed.

Lemma forget_all_other ids id e :
  id ∉ ids → seen (foldl (λ e id, forget id e) e ids) !! id = seen e !! id.
Proof.
  revert e. induction ids as [|i ids IH]; intros e Hin; [done|]. simpl.
  rewrite IH by set_solver. unfold forget. simpl. rewrite lookup_delete_ne; [done|set_solver].
Qed.

Lemma due_inr l t e m :
  NoDup (model_id <$> l) → m ∈ (due_models l t e).1 →
  m ∈ l ∧ (state m ∉ TRANSIENT_STATES) ∧ REQUIRED_ABSENT_OBSERVATIONS ≤ (record m t e).1.
Proof.
  revert e. induction l as [|k l IH]; intros e Hnd Hin; [by apply not_elem_of_nil in Hin|].
  cbn [due_models] in Hin. inversion_clear Hnd as [|? ? Hk Hl].
  destruct (record k t e) as [n e1] eqn:Hr. destruct (due_models l t e1) as [due e2] eqn:Hd.
  cbn [fst] in Hin. apply elem_of_app in Hin as [Hin|Hin].
  - destruct (bool_decide _ && _) eqn:Hc; [|by apply not_elem_of_nil in Hin].
    apply list_elem_of_singleton in Hin as ->. unbool. rewrite Hr. split_and!; [by left|done|done].
  - specialize (IH e1 Hl). rewrite Hd in IH. destruct (IH Hin) as (H1&H2&H3).
    split_and!; [by right|done|]. rewrite <- (record_same m t e1); [done|].
    replace e1 with (record k t e).2 by by rewrite Hr. apply record_other.
    intros Heq. apply Hk. rewrite Heq. by apply list_elem_of_fmap_2.
Qed.

Lemma reconcile_loads node s o s' tr :
  exec (reconcile node) s [] o s' tr → restores tr ≠ 0 →
  ∃ registered t due, loads node registered t s due ∧ entered node registered t `prefix_of` tr.
Proof.
  revert o s' tr. refine (proj1 (wp_exec _ _ _ _ _ _) _). apply wp_reconcile; [by intros o s' tr' (evs&->&Hn) _|].
  intros registered t due s1 Hl _. eapply wp_mono; [|apply wp_extends].
  intros o s' tr' Hp r _. exists registered, t, due. split; [done|]. by apply prefix_app_r.
Qed.

Lemma evidence_noted n registered t s : evidence (noted n registered t s) = evidence s.
Proof. unfold noted, note_intent. by destruct (all_resident _ _), (_ && _). Qed.

(** A pass loads nothing without two absences in a row.  A pass of a node that
    loads anything read the registry first, and had for some model wanted
    resident, settled and observed absent, a second consecutive absence on
    record; the node was online, nothing uncertain or in transition on it, and
    its lock held by this pass. *)
Theorem loading_needs_two_absences node s o s' tr :
  exec (reconcile node) s [] o s' tr → restores tr ≠ 0 →
  ∃ registered t, entered node registered t `prefix_of` tr ∧
    status node = ONLINE ∧
    (∀ m, m ∈ registered → runtime m = OLLAMA → state m ∉ TRANSIENT_STATES) ∧
    (NoDup (model_id <$> registered) →
     ∃ m, m ∈ registered ∧ runtime m = OLLAMA ∧ desired_resident m = true ∧
       observed_absent m t = true ∧ 2 ≤ (record m t (evidence s)).1).
Proof.
  intros He Hn. destruct (reconcile_loads _ _ _ _ _ He Hn) as (registered&t&due&[_ Hdue Hsome Hon Hq]&Hp).
  exists registered, t. split_and!; [done..| |].
  - intros m Hin Hm. apply Hq, elem_of_List_filter. split; [by apply bool_decide_eq_true|done].
  - intros Hnd. destruct due as [|m due]; [done|].
    assert (m ∈ m :: due) as Hm by by left. rewrite <- Hdue in Hm.
    apply due_inr in Hm as (Hin&_&Hrec); [|by do 2 apply NoDup_fmap_filter].
    apply elem_of_List_filter in Hin as [Hd Hin]. apply elem_of_List_filter in Hin as [Hk Hin].
    rewrite (record_same m t _ (evidence s)) in Hrec.
    2:{ simpl. rewrite forget_all_other, evidence_noted; [done|].
        intros (k&Hid&[Hu [_ Hk']%elem_of_List_filter]%elem_of_List_filter)%list_elem_of_fmap.
        rewrite (NoDup_key_inj model_id registered k m) in Hu; [|done..]. by rewrite Hd in Hu. }
    exists m. split_and!; [done|by apply bool_decide_eq_true in Hk|done| |done].
    unfold record in Hrec. destruct (observed_absent m t); [done|]. simpl in Hrec. unfold REQUIRED_ABSENT_OBSERVATIONS in Hrec. lia.
Qed.

(** A pass is bounded, and restored means restored.  A pass of a node makes at
    most three loads per model it ever read on the node, and it reports
    [restored] only when the last thing it read, at the time it read the clock,
    was a registry in which every model it may restore is freshly observed
    resident. *)
Theorem passes_are_bounded_and_truthful node s o s' tr :
  exec (reconcile node) s [] o s' tr →
  restores tr ≤ (1 + MAX_REPAIR_ROUNDS) * longest tr ∧
  (∀ x, o = inr x → result x = RESTORED →
     ∃ pre t ms, tr = pre ++ [now_was (inr t); models_were (node_id node) (inr ms); unheld (node_id node) (inr tt)] ∧
       ∀ m, m ∈ ms → restorable m t = true → observed_resident m t = true).
Proof.
  intros He. assert (sound []) as Hs by (split; [intros [] ? ? ?; done|done]).
  destruct (proj1 (wp_exec _ _ _ _ _ _) (reconcile_ok node s [] Hs) _ _ _ He) as (_&Hb&Hr).
  split; [exact Hb|]. intros x Hx Hres. destruct (Hr x Hx Hres) as (tr1&(pre&t&ms&->&Hall)&->).
  exists pre, t, ms. split; [by rewrite <- app_assoc|done].
Qed.

(** ** Giving up *)

Lemma due_absent l t e m : m ∈ (due_models l t e).1 → m ∈ l ∧ observed_absent m t = true.
Proof.
  revert e. induction l as [|k l IH]; intros e Hin; [by apply not_elem_of_nil in Hin|].
  cbn [due_models] in Hin. destruct (record k t e) as [n e1] eqn:Hr.
  specialize (IH e1). destruct (due_models l t e1) as [due e2]. cbn [fst] in Hin, IH.
  apply elem_of_app in Hin as [Hin|Hin]; [|destruct (IH Hin); split; [by right|done]].
  destruct (bool_decide _ && _) eqn:Hc; [|by apply not_elem_of_nil in Hin].
  apply list_elem_of_singleton in Hin as ->. unbool. split; [by left|].
  unfold record in Hr. destruct (observed_absent k t); [done|]. simplify_eq.
  unfold REQUIRED_ABSENT_OBSERVATIONS in *. lia.
Qed.

Lemma absent_restorable m t :
  desired_resident m = true → runtime m = OLLAMA → observed_absent m t = true →
  restorable m t = true ∧ observed_resident m t = false.
Proof.
  intros Hd Hr Ha. unfold restorable, observed_absent, observed_resident in *.
  rewrite Hd, Hr. destruct (fresh m t); simpl in *; [|done]. by apply bool_decide_eq_true in Ha as ->.
Qed.

(** A node given up on stays so until someone asks for something new.  Once
    repeated restores of one intent were given up, a later pass of the node loads
    only if it read an intent other than the one recorded: whatever else the
    registry, the clock or the runtime say. *)
Theorem given_up_needs_a_new_intent node s o s' tr b :
  backoffs s !! node_id node = Some b → gave_up b = true →
  exec (reconcile node) s [] o s' tr → restores tr ≠ 0 →
  ∃ registered t i, entered node registered t `prefix_of` tr ∧
    intents s !! node_id node = Some i ∧ i ≠ intent_of (desired_of registered).
Proof.
  intros Hb Hg He Hn. destruct (reconcile_loads _ _ _ _ _ He Hn) as (registered&t&due&[Hi Hdue Hsome _ _]&Hp).
  exists registered, t. destruct due as [|m due]; [done|].
  assert (m ∈ m :: due) as Hm by by left. rewrite <- Hdue in Hm. apply due_absent in Hm as [Hin Ha].
  apply elem_of_List_filter in Hin as [Hd Hin]. apply elem_of_List_filter in Hin as [Hk Hin].
  apply bool_decide_eq_true in Hk. destruct (absent_restorable m t Hd Hk Ha) as [Hr Ho].
  assert (all_resident (desired_of registered) t = false) as Hall.
  { apply not_true_iff_false. intros Hall. unfold all_resident in Hall. rewrite forallb_forall in Hall.
    rewrite Hall in Ho; [done|]. apply list_elem_of_In, elem_of_List_filter. split; [done|].
    apply elem_of_List_filter. split; [done|]. apply elem_of_List_filter. split; [by apply bool_decide_eq_true|done]. }
  unfold noted in Hi. rewrite Hall in Hi. unfold note_intent in Hi.
  destruct (intents s !! node_id node) as [i|] eqn:Hint.
  - exists i. split_and!; [done..|]. intros ->. rewrite (bool_decide_false (Some _ ≠ Some _)) in Hi by tauto.
    rewrite andb_false_r in Hi. simpl in Hi. by rewrite Hb in Hi; simpl in Hi; rewrite Hg in Hi.
  - simpl in Hi. rewrite Hb in Hi. simpl in Hi. by rewrite Hg in Hi.
Qed.

(** * A node with one model, played *)

Module Demo.
Definition clock (minutes : Z) : Z := microseconds (60 * minutes).

(** The runtime holds the model once it was loaded; [observe] says what observing
    it answers. *)
Definition env (observe : answer unit) (t : Z) (tr : list event) (R : Type) (q : port R) : R :=
  match q with
  | Suspended => inr false
  | Nodes => inr [demo_node]
  | Models_on _ =>
      inr [demo_model "m" (Some (if existsb is_restore tr then LOADED else DOWNLOADED)) (Some t)]
  | Node_blocked _ => inr false
  | Now => inr t
  | Observe _ => observe
  | Restore _ => inr tt
  | Release _ => inr tt
  | Hold _ => inr true
  | Unhold _ => inr tt
  end.

Definition pass (observe : answer unit) (minutes : Z) (s : fields) :=
  run (@log) (env observe (clock minutes)) (run_once true) s [].
Definition fields_after (observe : answer unit) (minutes : list Z) (s : fields) : fields :=
  foldl (λ s t, (pass observe t s).1.2) s minutes.

Lemma plays {A} f t (p : method A) s :
  exec p s [] (run (@log) (env f t) p s []).1.1 (run (@log) (env f t) p s []).1.2 (run (@log) (env f t) p s []).2.
Proof. by apply exec_run. Qed.

(** One absence is on record; a second is read, and the model restored. *)
Definition once_absent : fields := fields_after (inr tt) [0%Z] new_fields.
Definition second := run (@log) (env (inr tt) (clock 1)) (reconcile demo_node) once_absent [].

Example second_restores :
  restores second.2 = 1 ∧ second.1.1 = inr (mk_outcome "node" RESTORED ["m"] [] None).
Proof. split; vm_compute; reflexivity. Qed.

(** The same, given up on for an older intent. *)
Definition given_up : fields :=
  mk_fields (evidence once_absent) {["node" := mk_backoff 4 None 4 true]} {["node" := {[("m", 0%Z)]}]}.
Definition retried := run (@log) (env (inr tt) (clock 1)) (reconcile demo_node) given_up [].
End Demo.

Lemma every_load_is_called_for_witness :
  (∀ pre id r post, (Demo.pass (inr tt) 1 Demo.once_absent).2 = pre ++ (restored_model id r :: post) →
     justified pre id) ∧
  duty_after (Demo.pass (inr tt) 1 Demo.once_absent).2 = Nothing.
Proof. apply (every_load_is_called_for true Demo.once_absent _ _ _ (Demo.plays _ _ _ _)). Defined.

Lemma loading_needs_two_absences_witness :
  ∃ registered t, entered demo_node registered t `prefix_of` Demo.second.2 ∧
    status demo_node = ONLINE ∧
    (∀ m, m ∈ registered → runtime m = OLLAMA → state m ∉ TRANSIENT_STATES) ∧
    (NoDup (model_id <$> registered) →
     ∃ m, m ∈ registered ∧ runtime m = OLLAMA ∧ desired_resident m = true ∧
       observed_absent m t = true ∧ 2 ≤ (record m t (evidence Demo.once_absent)).1).
Proof.
  apply (loading_needs_two_absences demo_node Demo.once_absent _ _ _ (Demo.plays _ _ _ _)).
  vm_compute. discriminate.
Defined.

Lemma passes_are_bounded_and_truthful_witness :
  restores Demo.second.2 ≤ (1 + MAX_REPAIR_ROUNDS) * longest Demo.second.2 ∧
  (∀ x, Demo.second.1.1 = inr x → result x = RESTORED →
     ∃ pre t ms, Demo.second.2 = pre ++ [now_was (inr t); models_were "node" (inr ms); unheld "node" (inr tt)] ∧
       ∀ m, m ∈ ms → restorable m t = true → observed_resident m t = true).
Proof. apply (passes_are_bounded_and_truthful demo_node Demo.once_absent _ _ _ (Demo.plays _ _ _ _)). Defined.

Lemma given_up_needs_a_new_intent_witness :
  ∃ registered t i, entered demo_node registered t `prefix_of` Demo.retried.2 ∧
    intents Demo.given_up !! "node" = Some i ∧ i ≠ intent_of (desired_of registered).
Proof.
  eapply (given_up_needs_a_new_intent demo_node Demo.given_up _ _ _ _ eq_refl eq_refl (Demo.plays _ _ _ _)).
  vm_compute. discriminate.
Defined.

(** ** Waste that is not counted

    An exception after a load, as from the observation that follows it, reaches
    [run_once], which fails the pass with a fresh [_Progress()]: the load it made is
    not counted towards giving up. *)

(** Two hours of passes, a minute apart, whose observations all raise. *)
Definition two_hours : list Z := Z.of_nat <$> seq 0 120.
Definition raising : answer unit := inl (Error "ConnectionError").
Definition loads_made (minutes : list Z) : fields * nat :=
  foldl (λ st t, let p := Demo.pass raising t st.1 in (p.1.2, st.2 + restores p.2)) (new_fields, 0) minutes.

Theorem uncounted_waste :
  (loads_made two_hours).2 = 12 ∧
  ∃ b, backoffs (loads_made two_hours).1 !! "node" = Some b ∧ (12 ≤ failures b)%Z ∧ wasted b = 0%Z ∧ gave_up b = false.
Proof.
  split; [vm_compute; reflexivity|].
  destruct (backoffs (loads_made two_hours).1 !! "node") as [b|] eqn:Hb; [|by vm_compute in Hb].
  exists b. split; [done|]. vm_compute in Hb. injection Hb as <-. by split_and!.
Qed.
