(* ===== verification/Actors.v ===== *)
(** Who may do what ([domain/entities/actor/], [adapters/authz/role_authorization.py],
    [domain/services/grantable_roles.py]).

    A role's scopes come from one table; an actor carries a set of scopes, and an
    API key's actor the capabilities it was issued for.  [frozenset(Scope)] is
    the list of every constructor.  The theorems: the roles' boundaries the
    catalogue's comments promise, that account creation is never an escalation,
    over any sequence of grants, and what a credential's default capability can
    reach. *)

From S2P Require Export Prelude.

Inductive Role : Set := ADMIN | TENANT_ADMIN | OPERATOR | CURATOR | AUDITOR | USER | SERVICE.

Inductive Scope : Set :=
  | CHAT_USE | MODEL_READ | MODEL_WRITE | ROUTING_READ | ROUTING_WRITE
  | API_KEY_READ_OWN | API_KEY_WRITE_OWN | API_KEY_WRITE_ANY | USER_READ | USER_WRITE
  | NODE_READ | NODE_WRITE | TENANT_READ | TENANT_WRITE | USAGE_READ_OWN | USAGE_READ_ALL
  | LOGS_READ | REFUSAL_READ_OWN | REFUSAL_READ_ALL | PROMPT_LOG_READ | MAINTENANCE_READ
  | MAINTENANCE_WRITE | KNOWLEDGE_READ | KNOWLEDGE_WRITE | PROMPT_READ | PROMPT_WRITE
  | RETENTION_WRITE.

#[export] Instance Role_eq_dec : EqDecision Role.
Proof. solve_decision. Defined.
#[export] Instance Scope_eq_dec : EqDecision Scope.
Proof. solve_decision. Defined.

Definition all_scopes : list Scope :=
  [CHAT_USE; MODEL_READ; MODEL_WRITE; ROUTING_READ; ROUTING_WRITE; API_KEY_READ_OWN;
   API_KEY_WRITE_OWN; API_KEY_WRITE_ANY; USER_READ; USER_WRITE; NODE_READ; NODE_WRITE; TENANT_READ;
   TENANT_WRITE; USAGE_READ_OWN; USAGE_READ_ALL; LOGS_READ; REFUSAL_READ_OWN; REFUSAL_READ_ALL;
   PROMPT_LOG_READ; MAINTENANCE_READ; MAINTENANCE_WRITE; KNOWLEDGE_READ; KNOWLEDGE_WRITE;
   PROMPT_READ; PROMPT_WRITE; RETENTION_WRITE].
Definition all_roles : list Role := [ADMIN; TENANT_ADMIN; OPERATOR; CURATOR; AUDITOR; USER; SERVICE].

#[export] Program Instance Scope_finite : finite.Finite Scope := {| finite.enum := all_scopes |}.
Next Obligation. by apply (bool_decide_unpack (NoDup all_scopes)). Qed.
Next Obligation. intros []; by apply (bool_decide_unpack (_ ∈ all_scopes)). Qed.
#[export] Program Instance Role_finite : finite.Finite Role := {| finite.enum := all_roles |}.
Next Obligation. by apply (bool_decide_unpack (NoDup all_roles)). Qed.
Next Obligation. intros []; by apply (bool_decide_unpack (_ ∈ all_roles)). Qed.

Definition scope_set (l : list Scope) : gset Scope := list_to_set l.

(** * The catalogue *)

Definition BASE_SCOPES : gset Scope :=
  scope_set [CHAT_USE; API_KEY_READ_OWN; API_KEY_WRITE_OWN; USAGE_READ_OWN; REFUSAL_READ_OWN; PROMPT_READ].
Definition ADMIN_SCOPES : gset Scope := scope_set all_scopes.
Definition TENANT_ADMIN_SCOPES : gset Scope :=
  BASE_SCOPES ∪ scope_set [USER_READ; USER_WRITE; API_KEY_WRITE_ANY; USAGE_READ_ALL; REFUSAL_READ_ALL;
    LOGS_READ; KNOWLEDGE_READ; KNOWLEDGE_WRITE; PROMPT_WRITE; TENANT_READ; MODEL_READ; ROUTING_READ; NODE_READ].
Definition OPERATOR_SCOPES : gset Scope :=
  BASE_SCOPES ∪ scope_set [MODEL_READ; MODEL_WRITE; NODE_READ; NODE_WRITE; ROUTING_READ; ROUTING_WRITE;
    LOGS_READ; USAGE_READ_ALL; REFUSAL_READ_ALL; KNOWLEDGE_READ; USER_READ; TENANT_READ].
Definition CURATOR_SCOPES : gset Scope :=
  BASE_SCOPES ∪ scope_set [KNOWLEDGE_READ; KNOWLEDGE_WRITE; PROMPT_WRITE].
Definition AUDITOR_SCOPES : gset Scope :=
  scope_set [CHAT_USE; API_KEY_READ_OWN; USAGE_READ_OWN; USAGE_READ_ALL; REFUSAL_READ_OWN;
    REFUSAL_READ_ALL; LOGS_READ; MODEL_READ; ROUTING_READ; NODE_READ; USER_READ; TENANT_READ;
    KNOWLEDGE_READ; PROMPT_READ].
Definition USER_SCOPES : gset Scope := BASE_SCOPES.
Definition SERVICE_SCOPES : gset Scope := scope_set [CHAT_USE; USAGE_READ_OWN].

Definition BY_ROLE (r : Role) : gset Scope :=
  match r with
  | ADMIN => ADMIN_SCOPES | TENANT_ADMIN => TENANT_ADMIN_SCOPES | OPERATOR => OPERATOR_SCOPES
  | CURATOR => CURATOR_SCOPES | AUDITOR => AUDITOR_SCOPES | USER => USER_SCOPES
  | SERVICE => SERVICE_SCOPES
  end.

Definition ADMIN_ONLY_SCOPES : gset Scope :=
  scope_set [TENANT_WRITE; RETENTION_WRITE; PROMPT_LOG_READ; MAINTENANCE_READ; MAINTENANCE_WRITE].
Definition ASSIGNABLE_ROLES : list Role := [ADMIN; TENANT_ADMIN; OPERATOR; CURATOR; AUDITOR; USER].

(** * Actors *)

Inductive ActorSource : Set := tailnet | local | api_key | dev.

Record Actor := mk_actor {
  actor_id : string; display : string; role : Role; source : ActorSource; scopes : gset Scope;
  tenant_id : string; actor_key_id : option string; allowed_capabilities : option (gset string);
  default_capability : option string; compaction_enabled : bool; debug_logging_until : option Z
}.

Definition has (a : Actor) (s : Scope) : bool := bool_decide (s ∈ scopes a).

Definition may_use (a : Actor) (capability : string) : bool :=
  match allowed_capabilities a with
  | None => true
  | Some allowed => bool_decide (capability ∈ allowed)
  end.

Definition capability_for (a : Actor) (requested : string) : option string :=
  if may_use a requested then Some requested
  else match default_capability a with
  | Some d => if may_use a d then Some d else None
  | None => None
  end.

Inductive auth_exn : Set := NotAuthorizedError.

(** [RoleAuthorization.require] and [scopes_for]. *)
Definition require (a : Actor) (s : Scope) : res auth_exn unit :=
  ensure (bool_decide (s ∈ scopes a)) NotAuthorizedError.

Definition scopes_for (r : Role) : gset Scope := BY_ROLE r.

Definition assert_may_grant (a : Actor) (r : Role) : res auth_exn unit :=
  ensure (bool_decide (scopes_for r ∖ scopes a = ∅)) NotAuthorizedError.

(** * Guarantees *)

Lemma assert_may_grant_ret a r u : assert_may_grant a r = Ret u ↔ scopes_for r ⊆ scopes a.
Proof.
  unfold assert_may_grant. rewrite ensure_ret, bool_decide_eq_true.
  split; [apply empty_difference_subseteq_L|apply subseteq_empty_difference_L].
Qed.

(** A scope that changes something: its name does not end in [:read]. *)
Definition changes_something (s : Scope) : bool :=
  match s with
  | MODEL_WRITE | ROUTING_WRITE | API_KEY_WRITE_OWN | API_KEY_WRITE_ANY | USER_WRITE | NODE_WRITE
  | TENANT_WRITE | MAINTENANCE_WRITE | KNOWLEDGE_WRITE | PROMPT_WRITE | RETENTION_WRITE => true
  | _ => false
  end.

(** An account created with a role holds that role's scopes. *)
Definition account (a : Actor) : Prop := scopes a = scopes_for (role a).

(** [creates a b]: the account [a] passes the checks to create an account of [b]'s role. *)
Definition creates (a b : Actor) : Prop :=
  require a USER_WRITE = Ret tt ∧ assert_may_grant a (role b) = Ret tt ∧ account b.

(** Membership in the catalogue, computed. *)
Definition holds (r : Role) (s : Scope) : bool := bool_decide (s ∈ BY_ROLE r).

Lemma holds_spec r s : holds r s = true ↔ s ∈ BY_ROLE r.
Proof. apply bool_decide_eq_true. Qed.

(** The catalogue, and the facts that are a matter of looking it up. *)
Lemma catalogue :
  forallb (holds ADMIN) all_scopes &&
  forallb (λ s, Bool.eqb (bool_decide (s ∈ ADMIN_ONLY_SCOPES))
                  (forallb (λ r, implb (holds r s) (bool_decide (r = ADMIN))) all_roles)) all_scopes &&
  forallb (λ s, implb (holds AUDITOR s) (negb (changes_something s))) all_scopes &&
  forallb (λ s, implb (holds SERVICE s) (bool_decide (s = CHAT_USE) || bool_decide (s = USAGE_READ_OWN)))
    all_scopes = true.
Proof. vm_compute. reflexivity. Qed.

Lemma in_all_scopes s : List.In s all_scopes.
Proof. destruct s; simpl; tauto. Qed.
Lemma in_all_roles r : List.In r all_roles.
Proof. destruct r; simpl; tauto. Qed.

Lemma holds_all s : s ∈ BY_ROLE ADMIN.
Proof.
  pose proof catalogue as H. rewrite !andb_true_iff, !forallb_forall in H.
  destruct H as [[[H _] _] _]. apply holds_spec, H, in_all_scopes.
Qed.

Lemma admin_only s : s ∈ ADMIN_ONLY_SCOPES ↔ ∀ r, s ∈ BY_ROLE r → r = ADMIN.
Proof.
  pose proof catalogue as H. rewrite !andb_true_iff, !forallb_forall in H.
  destruct H as [[[_ H] _] _]. specialize (H s (in_all_scopes s)). apply Bool.eqb_prop in H.
  rewrite <- (bool_decide_eq_true (s ∈ ADMIN_ONLY_SCOPES)), H, forallb_forall. split.
  - intros Hr r Hs. specialize (Hr r (in_all_roles r)). rewrite (proj2 (holds_spec r s) Hs) in Hr.
    by apply bool_decide_eq_true in Hr.
  - intros Hr r _. destruct (holds r s) eqn:Hs; [|done]. by apply bool_decide_eq_true, Hr, holds_spec.
Qed.

(** The roles keep the boundaries the catalogue states.  [admin] holds every
    scope, the admin-only scopes are exactly those no other role holds,
    an auditor holds nothing that changes anything, an API key's actor holds no
    control-plane scope, and an operator can neither write accounts, keys nor
    tenants. *)
Theorem roles_keep_their_boundaries :
  (∀ s, s ∈ BY_ROLE ADMIN) ∧
  (∀ s, s ∈ ADMIN_ONLY_SCOPES ↔ ∀ r, s ∈ BY_ROLE r → r = ADMIN) ∧
  (∀ s, s ∈ BY_ROLE AUDITOR → changes_something s = false) ∧
  (∀ s, s ∈ BY_ROLE SERVICE → s = CHAT_USE ∨ s = USAGE_READ_OWN) ∧
  (∀ r, creates (mk_actor "" "" OPERATOR local (BY_ROLE OPERATOR) "" None None None true None)
          (mk_actor "" "" r local (BY_ROLE r) "" None None None true None) → False).
Proof.
  pose proof catalogue as H. rewrite !andb_true_iff, !forallb_forall in H.
  destruct H as [[_ Ha] Hs]. split_and!; [exact holds_all|exact admin_only|..].
  - intros s Hin%holds_spec. specialize (Ha s (in_all_scopes s)). rewrite Hin in Ha.
    by apply negb_true_iff in Ha.
  - intros s Hin%holds_spec. specialize (Hs s (in_all_scopes s)). rewrite Hin in Hs.
    apply orb_true_iff in Hs. by rewrite !bool_decide_eq_true in Hs.
  - intros r [Hw _]. vm_compute in Hw. discriminate.
Qed.

(** Creating accounts is never an escalation.  However many accounts are
    created one from another, each by one allowed to write accounts and to grant
    the role, the last holds no scope the first did not; in particular only
    a platform administrator's line ever reaches a platform administrator. *)
Theorem granting_never_escalates a b :
  rtc creates a b → account a →
  account b ∧ scopes b ⊆ scopes a ∧ (role b = ADMIN → role a = ADMIN).
Proof.
  intros Hr Ha. assert (account b ∧ scopes b ⊆ scopes a) as [Hb Hsub].
  { induction Hr as [|a x b (_&Hg&Hx) _ IH]; [done|].
    destruct (IH Hx) as [Hb Hsub]. split; [done|]. apply assert_may_grant_ret in Hg.
    unfold account in Hx. rewrite Hx in Hsub. set_solver. }
  split_and!; [done..|]. intros Hadm. unfold account in *.
  assert (TENANT_WRITE ∈ scopes a) as Hin.
  { apply Hsub. rewrite Hb, Hadm. apply holds_all. }
  rewrite Ha in Hin. revert Hin.
  apply (proj1 (admin_only TENANT_WRITE)), (bool_decide_eq_true (_ ∈ _)). vm_compute. reflexivity.
Qed.

Definition demo_account (r : Role) : Actor :=
  mk_actor "id" "login" r local (BY_ROLE r) "default" None None None true None.

Lemma granting_never_escalates_witness :
  account (demo_account CURATOR) ∧ scopes (demo_account CURATOR) ⊆ scopes (demo_account ADMIN) ∧
  (role (demo_account CURATOR) = ADMIN → role (demo_account ADMIN) = ADMIN).
Proof.
  apply (granting_never_escalates (demo_account ADMIN) (demo_account CURATOR)); [|reflexivity].
  apply rtc_l with (demo_account TENANT_ADMIN).
  - split; [vm_compute; reflexivity|split; [vm_compute; reflexivity|reflexivity]].
  - apply rtc_once. split; [vm_compute; reflexivity|split; [vm_compute; reflexivity|reflexivity]].
Defined.

(** A key reaches only what it was issued for.  A request is served under
    the capability it named when the credential may use it; otherwise under the
    credential's default, and only if that too is one the credential may use,
    whatever the stored default says; otherwise it is refused.  So a key
    issued for nothing reaches nothing. *)
Theorem capability_for_stays_in_the_issued_set a requested :
  (∀ served, capability_for a requested = Some served →
     may_use a served = true ∧
     (served = requested ∨ may_use a requested = false ∧ default_capability a = Some served)) ∧
  (may_use a requested = true → capability_for a requested = Some requested) ∧
  (allowed_capabilities a = Some ∅ → capability_for a requested = None).
Proof.
  unfold capability_for. split_and!.
  - intros served. destruct (may_use a requested) eqn:Hm.
    + intros [= <-]. auto.
    + destruct (default_capability a) as [d|]; [|done]. destruct (may_use a d) eqn:Hd; [|done].
      intros [= <-]. auto.
  - by intros ->.
  - intros Hall. unfold may_use. rewrite Hall. rewrite bool_decide_false by set_solver.
    destruct (default_capability a); [|done]. by rewrite bool_decide_false by set_solver.
Qed.
