(* ===== verification/Maintenance.v ===== *)
(** The maintenance hold and the durable record of carrying it out
    ([domain/entities/maintenance.py], [domain/entities/maintenance_operation.py],
    [adapters/persistence/repositories/maintenance.py] and
    [maintenance_operations.py], [application/use_cases/manage_maintenance.py]).

    The database is one record: the singleton hold row and the two tables, keyed
    as in the migrations.  Each repository method is a transaction body over it,
    an [UPDATE ... WHERE] as a guarded change of the rows that match.  Times are
    microseconds; [now] is the transaction's clock.  Statements that take row or
    advisory locks are serial here; a row another transaction holds is an
    argument of [claim], which skips it. *)

From S2P Require Export Json Actors.

(** * Entities *)

Inductive MaintenancePhase : Set := NORMAL_PHASE | MAINTENANCE_PHASE.

Record MaintenanceState := mk_state {
  admission_closed : bool; hold_phase : MaintenancePhase; epoch : Z; revision : Z;
  message : option string; expected_return_at : option Z; changed_by : option string;
  changed_at : option Z
}.

Definition MAX_MESSAGE_LENGTH : nat := 500.

Definition NORMAL : MaintenanceState := mk_state false NORMAL_PHASE 0 0 None None None None.

Definition serving (s : MaintenanceState) : bool := negb (admission_closed s).

Definition session_valid (s : MaintenanceState) (session_epoch : Z) (platform_admin : bool) : bool :=
  platform_admin || (epoch s <=? session_epoch)%Z.

Inductive OperationKind : Set := ENTER | RESTORE.
Inductive OperationStatus : Set := OP_RUNNING | OP_FAILED | SUCCEEDED | ABANDONED.
Inductive StepPhase : Set := PENDING | INTERRUPTED | SNAPSHOTTED | RESET | LOADED | PROBED | VERIFIED.
Inductive StepStatus : Set := RUNNING | FAILED | DONE.

#[export] Instance OperationKind_eq_dec : EqDecision OperationKind.
Proof. solve_decision. Defined.
#[export] Instance OperationStatus_eq_dec : EqDecision OperationStatus.
Proof. solve_decision. Defined.
#[export] Instance StepPhase_eq_dec : EqDecision StepPhase.
Proof. solve_decision. Defined.
#[export] Instance StepStatus_eq_dec : EqDecision StepStatus.
Proof. solve_decision. Defined.

(** A row of [maintenance_node_steps], less its key. *)
Record step_row := mk_step_row {
  phase : StepPhase; step_status : StepStatus; attempts : Z; interrupt : option dict;
  snapshot : option (list dict); snapshot_at : option Z; snapshot_error : option string;
  reset_id : option string; reset : option dict; accounting : option string;
  verification : option dict; step_error : option string; step_updated_at : Z
}.

Record NodeStep := mk_step { operation_id : string; node_id : string; row :> step_row }.

(** The values of [StepPhase], and a failed step in an operation's error. *)
Definition phase_value (p : StepPhase) : string :=
  match p with
  | PENDING => "pending" | INTERRUPTED => "interrupted" | SNAPSHOTTED => "snapshotted" | RESET => "reset"
  | LOADED => "loaded" | PROBED => "probed" | VERIFIED => "verified"
  end.

Definition failure_text (s : NodeStep) : string :=
  node_id s +:+ " at " +:+ phase_value (phase s) +:+ ": " +:+ default "None" (step_error s).

Definition snapshot_taken (s : step_row) : bool :=
  bool_decide (is_Some (snapshot s)) || bool_decide (is_Some (snapshot_error s)).

(** A row of [maintenance_operations], less its key. *)
Record op_row := mk_op_row {
  kind : OperationKind; op_epoch : Z; op_status : OperationStatus; requested_by : string;
  owner : option string; lease_expires_at : option Z; op_error : option string; created_at : Z;
  updated_at : Z; finished_at : option Z
}.

Record MaintenanceOperation := mk_operation { op_id : string; op :> op_row; op_steps : list NodeStep }.

Definition SNAPSHOT_FIELDS : list string :=
  ["name"; "model"; "digest"; "size"; "size_vram"; "context_length"; "expires_at"; "details"].

(** The entries that are not objects are dropped; [entry[key]] is always there. *)
Definition snapshot_entry (entry : dict) : dict :=
  omap (λ key, (λ v, (key, v)) <$> dict_lookup key entry) SNAPSHOT_FIELDS.

Definition snapshot_of (resident : list json) : list dict :=
  omap (λ entry, match entry with JObj d => Some (snapshot_entry d) | _ => None end) resident.

(** * The tables *)

Record mdb := mk_mdb {
  hold : MaintenanceState;
  operations : gmap string op_row;
  steps : gmap (string * string) step_row
}.

Definition set_hold (h : MaintenanceState) (d : mdb) : mdb := mk_mdb h (operations d) (steps d).
Definition set_operations (o : gmap string op_row) (d : mdb) : mdb := mk_mdb (hold d) o (steps d).
Definition set_steps (s : gmap (string * string) step_row) (d : mdb) : mdb :=
  mk_mdb (hold d) (operations d) s.

Inductive mexn : Set :=
  | DatabaseError | MaintenanceDisabledError | MaintenanceUnsupportedError
  | MaintenanceStateConflictError | MaintenanceError | NotAuthorized.

Abbreviation mtx := (tx mdb mexn).

(** * The hold *)

Definition read : mtx MaintenanceState := gets hold.

(** The one conditional UPDATE of the singleton row. *)
Definition change (condition : MaintenanceState → bool) (f : MaintenanceState → MaintenanceState)
    (now : Z) : mtx (option MaintenanceState) :=
  let! h := gets hold in
  if condition h then
    let h' := f h in
    let h' := mk_state (admission_closed h') (hold_phase h') (epoch h') (revision h + 1)
      (message h') (expected_return_at h') (changed_by h') (Some now) in
    let! _ := modify (set_hold h') in commit (Some h')
  else commit None.

Definition close (changed_by : string) (message : option string) (expected_return_at : option Z)
    (now : Z) : mtx (option MaintenanceState) :=
  change (λ h, negb (admission_closed h))
    (λ h, mk_state true MAINTENANCE_PHASE (epoch h + 1) (revision h) message expected_return_at
            (Some changed_by) (changed_at h)) now.

Definition reopen_hold (changed_by : string) (now : Z) : mtx (option MaintenanceState) :=
  change admission_closed
    (λ h, mk_state false NORMAL_PHASE (epoch h) (revision h) (message h) (expected_return_at h)
            (Some changed_by) (changed_at h)) now.

Definition set_message_row (changed_by : string) (message : option string)
    (expected_return_at : option Z) (expected_revision now : Z) : mtx (option MaintenanceState) :=
  change (λ h, revision h =? expected_revision)%Z
    (λ h, mk_state (admission_closed h) (hold_phase h) (epoch h) (revision h) message
            expected_return_at (Some changed_by) (changed_at h)) now.

(** * Operations and steps *)

(** [ORDER BY node_id] *)
Definition node_leb (a b : NodeStep) : bool := String.leb (node_id a) (node_id b).

Definition steps_of (id : string) (d : mdb) : list NodeStep :=
  py_sorted node_leb
    (omap (λ kr, if bool_decide (kr.1.1 = id) then Some (mk_step kr.1.1 kr.1.2 kr.2) else None)
       (map_to_list (steps d))).

Definition get (id : string) : mtx (option MaintenanceOperation) :=
  gets (λ d, (λ o, mk_operation id o (steps_of id d)) <$> operations d !! id).

(** The unique constraint on (kind, epoch). *)
Definition taken (k : OperationKind) (e : Z) (d : mdb) : bool :=
  existsb (λ kr, bool_decide (kind kr.2 = k) && (op_epoch kr.2 =? e)%Z) (map_to_list (operations d)).

Definition insert_operation (id : string) (o : op_row) : mtx unit :=
  let! d := gets (λ d, d) in
  if bool_decide (is_Some (operations d !! id)) || taken (kind o) (op_epoch o) d then raise DatabaseError
  else modify (set_operations (<[id := o]> (operations d))).

Definition insert_step (id node : string) (s : step_row) : mtx unit :=
  let! d := gets (λ d, d) in
  if bool_decide (is_Some (steps d !! (id, node))) then raise DatabaseError
  else modify (set_steps (<[(id, node) := s]> (steps d))).

Fixpoint insert_steps (id : string) (rows : list (string * step_row)) : mtx unit :=
  match rows with
  | [] => commit tt
  | (node, s) :: rest => let! _ := insert_step id node s in insert_steps id rest
  end.

Definition new_operation (k : OperationKind) (e : Z) (requested_by : string) (now : Z) : op_row :=
  mk_op_row k e OP_RUNNING requested_by None None None now now None.

Definition new_step (snap : option (list dict)) (at_ : option Z) (now : Z) : step_row :=
  mk_step_row PENDING RUNNING 0 None snap at_ None None None None None None now.

(** [found]: the row just inserted, read back in the same transaction. *)
Definition found (id : string) : mtx MaintenanceOperation :=
  let! o := get id in match o with Some o => commit o | None => raise DatabaseError end.

Definition create_entry (id : string) (epoch : Z) (requested_by : string) (node_ids : list string)
    (now : Z) : mtx MaintenanceOperation :=
  let! _ := insert_operation id (new_operation ENTER epoch requested_by now) in
  let! _ := insert_steps id ((λ n, (n, new_step None None now)) <$> node_ids) in
  found id.

Definition create_restore (id : string) (epoch : Z) (requested_by : string)
    (snapshots : list (string * list dict)) (now : Z) : mtx MaintenanceOperation :=
  let! _ := insert_operation id (new_operation RESTORE epoch requested_by now) in
  let! _ := insert_steps id ((λ ns, (ns.1, new_step (Some ns.2) (Some now) now)) <$> snapshots) in
  found id.

Definition latest_of (k : OperationKind) (e : Z) : mtx (option MaintenanceOperation) :=
  let! d := gets (λ d, d) in
  match first_match (λ kr, bool_decide (kind kr.2 = k) && (op_epoch kr.2 =? e)%Z)
          (map_to_list (operations d)) with
  | Some (id, _) => get id
  | None => commit None
  end.

Definition created_leb (a b : string * op_row) : bool := (created_at a.2 <=? created_at b.2)%Z.

(** [ORDER BY created_at DESC LIMIT 1] *)
Definition latest : mtx (option MaintenanceOperation) :=
  let! d := gets (λ d, d) in
  match py_sorted (λ a b, created_leb b a) (map_to_list (operations d)) with
  | (id, _) :: _ => get id
  | [] => commit None
  end.

(** The rows [claim] may take: a null lease is not expired. *)
Definition claimable (me : string) (now : Z) (locked : list string) (kr : string * op_row) : bool :=
  bool_decide (op_status kr.2 = OP_RUNNING) &&
  (bool_decide (owner kr.2 = None) || bool_decide (owner kr.2 = Some me) ||
   match lease_expires_at kr.2 with Some t => (t <? now)%Z | None => false end) &&
  negb (bool_decide (kr.1 ∈ locked)).

Definition set_lease (me : option string) (until : option Z) (now : Z) (o : op_row) : op_row :=
  mk_op_row (kind o) (op_epoch o) (op_status o) (requested_by o) me until (op_error o) (created_at o)
    now (finished_at o).

Definition claim (me : string) (lease : Z) (locked : list string) (now : Z)
    : mtx (option MaintenanceOperation) :=
  let! d := gets (λ d, d) in
  match first_match (claimable me now locked) (py_sorted created_leb (map_to_list (operations d))) with
  | Some (id, o) =>
      let! _ := modify (set_operations
        (<[id := set_lease (Some me) (Some (now + lease)%Z) now o]> (operations d))) in
      get id
  | None => commit None
  end.

(** The fence of every step write: [o.owner = :owner AND o.status = 'running']. *)
Definition fenced (id me : string) (d : mdb) : bool :=
  match operations d !! id with
  | Some o => bool_decide (owner o = Some me) && bool_decide (op_status o = OP_RUNNING)
  | None => false
  end.

Definition renew (id me : string) (lease now : Z) : mtx bool :=
  let! d := gets (λ d, d) in
  match operations d !! id with
  | Some o =>
      if fenced id me d then
        let o' := mk_op_row (kind o) (op_epoch o) (op_status o) (requested_by o) (owner o)
          (Some (now + lease)%Z) (op_error o) (created_at o) (updated_at o) (finished_at o) in
        let! _ := modify (set_operations (<[id := o']> (operations d))) in commit true
      else commit false
  | None => commit false
  end.

(** Change the one step a fenced statement matches, if it matches. *)
Definition write_step (id node me : string) (matches : step_row → bool) (f : step_row → step_row)
    : mtx (option step_row) :=
  let! d := gets (λ d, d) in
  match steps d !! (id, node) with
  | Some s =>
      if matches s && fenced id me d then
        let! _ := modify (set_steps (<[(id, node) := f s]> (steps d))) in commit (Some (f s))
      else commit None
  | None => commit None
  end.

(** The columns [advance] may be given; the ones not given stay. *)
Record step_values := mk_values {
  v_interrupt : option dict; v_snapshot : option (list dict); v_reset : option dict;
  v_verification : option dict; v_snapshot_error : option string; v_accounting : option string
}.
Definition no_values : step_values := mk_values None None None None None None.

(** [COALESCE(given, column)] *)
Definition coalesce {A} (given column : option A) : option A :=
  match given with Some x => Some x | None => column end.

Definition advanced (p : StepPhase) (v : step_values) (now : Z) (s : step_row) : step_row :=
  let same := bool_decide (phase s = p) in
  let first := negb (snapshot_taken s) in
  mk_step_row p
    (if bool_decide (p = VERIFIED) then DONE else step_status s)
    (if same then attempts s else 0%Z)
    (coalesce (v_interrupt v) (interrupt s))
    (if first then v_snapshot v else snapshot s)
    (if first && (bool_decide (is_Some (v_snapshot v)) || bool_decide (is_Some (v_snapshot_error v)))
     then Some now else snapshot_at s)
    (if first then v_snapshot_error v else snapshot_error s)
    (reset_id s)
    (coalesce (v_reset v) (reset s))
    (coalesce (v_accounting v) (accounting s))
    (coalesce (v_verification v) (verification s))
    (if same then step_error s else None)
    now.

Definition is_running (s : step_row) : bool := bool_decide (step_status s = RUNNING).

(** [accounting IN ('resolved', 'unresolved')], or null. *)
Definition accounting_ok (a : option string) : bool :=
  match a with Some s => bool_decide (s = "resolved" ∨ s = "unresolved") | None => true end.

(** The check constraint is evaluated on the row the statement would write. *)
Definition advance (step : NodeStep) (me : string) (p : StepPhase) (v : step_values) (now : Z)
    : mtx bool :=
  let! written := write_step (operation_id step) (node_id step) me is_running (advanced p v now) in
  match written with
  | Some s => if accounting_ok (accounting s) then commit true else raise DatabaseError
  | None => commit false
  end.

Definition with_reset_id (id : option string) (now : Z) (s : step_row) : step_row :=
  mk_step_row (phase s) (step_status s) (attempts s) (interrupt s) (snapshot s) (snapshot_at s)
    (snapshot_error s) id (reset s) (accounting s) (verification s) (step_error s) now.

Definition set_reset_id (step : NodeStep) (me id : string) (now : Z) : mtx bool :=
  let! written := write_step (operation_id step) (node_id step) me
    (λ s, bool_decide (reset_id s = None)) (with_reset_id (Some id) now) in
  commit (bool_decide (is_Some written)).

Definition failed_row (error : string) (max_attempts : Z) (clear final : bool) (now : Z) (s : step_row)
    : step_row :=
  mk_step_row (phase s)
    (if final || (max_attempts <=? attempts s + 1)%Z then FAILED else step_status s)
    (attempts s + 1) (interrupt s) (snapshot s) (snapshot_at s) (snapshot_error s)
    (if clear then None else reset_id s) (reset s) (accounting s) (verification s)
    (Some (String.substring 0 2000 error)) now.

Definition attempt_failed (step : NodeStep) (me error : string) (max_attempts : Z)
    (clear final : bool) (now : Z) : mtx (option NodeStep) :=
  let! written := write_step (operation_id step) (node_id step) me is_running
    (failed_row error max_attempts clear final now) in
  commit (mk_step (operation_id step) (node_id step) <$> written).

Definition ended (s : OperationStatus) (error : option string) (now : Z) (o : op_row) : op_row :=
  mk_op_row (kind o) (op_epoch o) s (requested_by o) None None error (created_at o) now (Some now).

Definition finish (id me : string) (s : OperationStatus) (error : option string) (now : Z) : mtx bool :=
  let! d := gets (λ d, d) in
  match operations d !! id with
  | Some o =>
      if fenced id me d then
        let! _ := modify (set_operations (<[id := ended s error now o]> (operations d))) in commit true
      else commit false
  | None => commit false
  end.

Definition rewound (p : StepPhase) (now : Z) (s : step_row) : step_row :=
  mk_step_row p RUNNING 0 (interrupt s) (snapshot s) (snapshot_at s) (snapshot_error s) (reset_id s)
    (reset s) (accounting s) (verification s) (step_error s) now.

Definition rewind (step : NodeStep) (me : string) (p : StepPhase) (now : Z) : mtx bool :=
  let! written := write_step (operation_id step) (node_id step) me
    (λ s, bool_decide (step_status s = DONE)) (rewound p now) in
  commit (bool_decide (is_Some written)).

Definition abandon_running (reason : string) (now : Z) : mtx (list string) :=
  let! d := gets (λ d, d) in
  let! _ := modify (set_operations ((λ o, if bool_decide (op_status o = OP_RUNNING)
    then ended ABANDONED (Some reason) now o else o) <$> operations d)) in
  commit (map_to_list (filter (λ kr, op_status kr.2 = OP_RUNNING) (operations d))).*1.

Definition retried (now : Z) (o : op_row) : op_row :=
  mk_op_row (kind o) (op_epoch o) OP_RUNNING (requested_by o) None None None (created_at o) now None.

Definition retry_failed_step (now : Z) (s : step_row) : step_row :=
  mk_step_row (phase s) RUNNING 0 (interrupt s) (snapshot s) (snapshot_at s) (snapshot_error s)
    (reset_id s) (reset s) (accounting s) (verification s) (step_error s) now.

Definition retry (id : string) (now : Z) : mtx bool :=
  let! d := gets (λ d, d) in
  match operations d !! id with
  | Some o =>
      if bool_decide (op_status o = OP_FAILED) then
        let! _ := modify (set_operations (<[id := retried now o]> (operations d))) in
        let! _ := modify (λ d', set_steps (map_imap (λ k s,
          Some (if bool_decide (k.1 = id) && bool_decide (step_status s = FAILED)
                then retry_failed_step now s else s)) (steps d')) d') in
        commit true
      else commit false
  | None => commit false
  end.

(** The serving commit: both halves or neither, since a body that raises
    leaves the state it started from. *)
Definition MAINTENANCE_COORDINATOR_ID : string := "maintenance-coordinator".

Definition serving_commit (id me : string) (epoch_ now : Z) : mtx unit :=
  let! done := finish id me SUCCEEDED None now in
  if done then
    let! opened := reopen_hold MAINTENANCE_COORDINATOR_ID now in
    match opened with
    | Some h => if (epoch h =? epoch_)%Z then commit tt else raise DatabaseError
    | None => raise DatabaseError
    end
  else raise DatabaseError.

Definition reopen_after (id me : string) (epoch_ now : Z) : mtx bool := λ d,
  match serving_commit id me epoch_ now d with
  | inl _ => inr (false, d)
  | inr (_, d') => inr (true, d')
  end.

(** * What an administrator may do

    Each is one transaction.  The audit record each also writes goes to an
    append-only table on a connection of its own, whose failure is only logged;
    nothing here reads it. *)

Record Config := mk_config {
  enabled : bool; has_operations : bool; has_nodes : bool; agents_enabled : bool
}.

Definition clean (message : option string) : option string :=
  match message with
  | None => None
  | Some m =>
      let m := py_strip m in
      if String.eqb m "" then None else Some (String.substring 0 MAX_MESSAGE_LENGTH m)
  end.

(** [_require]: the scope, and the live role behind it. *)
Definition require_admin (a : Actor) (s : Scope) : mtx unit :=
  match require a s with
  | Raise _ => raise NotAuthorized
  | Ret _ => if bool_decide (role a = ADMIN) then commit tt else raise NotAuthorized
  end.

Definition public_status : mtx MaintenanceState := read.

Definition hold_status (a : Actor) : mtx MaintenanceState :=
  let! _ := require_admin a MAINTENANCE_READ in read.

Definition operation_status (cfg : Config) (a : Actor) : mtx (option MaintenanceOperation) :=
  let! _ := require_admin a MAINTENANCE_READ in
  if has_operations cfg then latest else commit None.

(** [if not n.agent_url]: absent or empty. *)
Definition direct (n : string * option string) : bool :=
  match n.2 with None => true | Some u => String.eqb u "" end.

(** [nodes] are the registered nodes, each with its agent's address. *)
Definition enter (cfg : Config) (a : Actor) (message : option string) (expected_return_at : option Z)
    (nodes : list (string * option string)) (new_id : string) (now : Z) : mtx MaintenanceState :=
  let! _ := require_admin a MAINTENANCE_WRITE in
  if negb (enabled cfg) then raise MaintenanceDisabledError
  else if negb (has_operations cfg) || negb (has_nodes cfg) || negb (agents_enabled cfg)
  then raise MaintenanceUnsupportedError
  else if existsb direct nodes then raise MaintenanceUnsupportedError
  else
    let! closed := close (actor_id a) (clean message) expected_return_at now in
    match closed with
    | None => read
    | Some closed =>
        let! _ := create_entry new_id (epoch closed) (actor_id a) nodes.*1 now in
        commit closed
    end.

Definition restore (cfg : Config) (a : Actor) (new_id : string) (now : Z) : mtx MaintenanceOperation :=
  let! _ := require_admin a MAINTENANCE_WRITE in
  let! state := read in
  if negb (has_operations cfg) || negb (admission_closed state) then raise MaintenanceStateConflictError
  else
    let! running := latest_of RESTORE (epoch state) in
    match running with
    | Some r => if bool_decide (op_status r = OP_RUNNING) then commit r
                else raise MaintenanceStateConflictError
    | None =>
        let! entry := latest_of ENTER (epoch state) in
        match entry with
        | None => raise MaintenanceStateConflictError
        | Some entry =>
            if bool_decide (op_status entry ≠ SUCCEEDED) then raise MaintenanceStateConflictError
            else if existsb (λ s : NodeStep, bool_decide (snapshot s = None)) (op_steps entry)
            then raise MaintenanceStateConflictError
            else if existsb (λ s : NodeStep, bool_decide (accounting s ≠ Some "resolved")) (op_steps entry)
            then raise MaintenanceStateConflictError
            else create_restore new_id (epoch state) (actor_id a)
                   ((λ s : NodeStep, (node_id s, default [] (snapshot s))) <$> op_steps entry) now
        end
    end.

Definition retry_operation (cfg : Config) (a : Actor) (now : Z) : mtx MaintenanceOperation :=
  let! _ := require_admin a MAINTENANCE_WRITE in
  if negb (has_operations cfg) then raise MaintenanceStateConflictError
  else
    let! o := latest in
    match o with
    | None => raise MaintenanceStateConflictError
    | Some o =>
        if bool_decide (op_status o ≠ OP_FAILED) then raise MaintenanceStateConflictError
        else
          let! state := read in
          if negb (admission_closed state) || negb (epoch state =? op_epoch o)%Z
          then raise MaintenanceStateConflictError
          else
            let! done := retry (op_id o) now in
            if done then let! again := get (op_id o) in commit (default o again)
            else raise MaintenanceStateConflictError
    end.

Definition reopen (cfg : Config) (a : Actor) (now : Z) : mtx MaintenanceState :=
  let! _ := require_admin a MAINTENANCE_WRITE in
  let! opened := reopen_hold (actor_id a) now in
  match opened with
  | None => read
  | Some opened =>
      let! _ := (if has_operations cfg then abandon_running "the platform was reopened" now
                 else commit []) in
      commit opened
  end.

Definition set_message (a : Actor) (message : option string) (expected_return_at : option Z)
    (expected_revision now : Z) : mtx MaintenanceState :=
  let! _ := require_admin a MAINTENANCE_WRITE in
  let! saved := set_message_row (actor_id a) (clean message) expected_return_at expected_revision now in
  match saved with
  | None => raise MaintenanceStateConflictError
  | Some s => commit s
  end.

Definition assert_serving : mtx unit :=
  let! state := read in
  if admission_closed state then raise MaintenanceError else commit tt.

(** * How the database evolves

    Every transaction of this file, by whoever, moves the tables forward. *)

Definition over (o : op_row) : Prop := op_status o = SUCCEEDED ∨ op_status o = ABANDONED.

Record op_evolves (o o' : op_row) : Prop := {
  oe_kind : kind o' = kind o;
  oe_epoch : op_epoch o' = op_epoch o;
  oe_by : requested_by o' = requested_by o;
  oe_created : created_at o' = created_at o;
  oe_over : over o → o' = o
}.

Record step_evolves (s s' : step_row) : Prop := {
  se_snapshot : snapshot_taken s = true →
    snapshot s' = snapshot s ∧ snapshot_error s' = snapshot_error s ∧ snapshot_at s' = snapshot_at s;
  se_interrupt : is_Some (interrupt s) → is_Some (interrupt s');
  se_reset : is_Some (reset s) → is_Some (reset s');
  se_verification : is_Some (verification s) → is_Some (verification s')
}.

Record evolves (d d' : mdb) : Prop := {
  ev_epoch : (epoch (hold d) ≤ epoch (hold d'))%Z;
  ev_revision : (revision (hold d) ≤ revision (hold d'))%Z;
  ev_operations : ∀ id o, operations d !! id = Some o →
    ∃ o', operations d' !! id = Some o' ∧ op_evolves o o';
  ev_steps : ∀ k s, steps d !! k = Some s → ∃ s', steps d' !! k = Some s' ∧ step_evolves s s'
}.

#[export] Instance op_evolves_preorder : PreOrder op_evolves.
Proof.
  split; [intros o; by constructor|]. intros o1 o2 o3 [? ? ? ? H1] [? ? ? ? H2].
  constructor; try congruence. intros Ho. specialize (H1 Ho). subst. auto.
Qed.

Lemma taken_same s s' :
  snapshot s' = snapshot s → snapshot_error s' = snapshot_error s → snapshot_taken s' = snapshot_taken s.
Proof. unfold snapshot_taken. by intros -> ->. Qed.

#[export] Instance step_evolves_preorder : PreOrder step_evolves.
Proof.
  split; [intros s; by constructor|]. intros s1 s2 s3 [H1 I1 R1 V1] [H2 I2 R2 V2].
  constructor; [|auto..]. intros Ht. destruct (H1 Ht) as (Ha&Hb&Hc).
  rewrite <- (taken_same s1 s2) in Ht by done. destruct (H2 Ht) as (->&->&->). auto.
Qed.

#[export] Instance evolves_preorder : PreOrder evolves.
Proof.
  split.
  - intros d. constructor; [done|done|..].
    + intros id o Ho. by exists o.
    + intros k s Hs. by exists s.
  - intros d1 d2 d3 [E1 R1 O1 S1] [E2 R2 O2 S2]. constructor; [lia|lia|..].
    + intros id o Ho. destruct (O1 id o Ho) as (o2&Ho2&?). destruct (O2 id o2 Ho2) as (o3&?&?).
      exists o3. split; [done|]. by transitivity o2.
    + intros k s Hs. destruct (S1 k s Hs) as (s2&Hs2&?). destruct (S2 k s2 Hs2) as (s3&?&?).
      exists s3. split; [done|]. by transitivity s2.
Qed.

Lemma evolves_hold d h :
  (epoch (hold d) ≤ epoch h)%Z → (revision (hold d) ≤ revision h)%Z → evolves d (set_hold h d).
Proof.
  intros He Hr. constructor; simpl; [done..| |].
  - intros id o Ho. by exists o.
  - intros k s Hs. by exists s.
Qed.

Lemma evolves_operation d id o o' :
  operations d !! id = Some o → op_evolves o o' → evolves d (set_operations (<[id := o']> (operations d)) d).
Proof.
  intros Ho He. constructor; simpl; [done..| |].
  - intros i x Hx. destruct (decide (i = id)) as [->|Hne].
    + exists o'. rewrite lookup_insert_eq. split; [done|]. by simplify_eq.
    + exists x. by rewrite lookup_insert_ne.
  - intros k s Hs. by exists s.
Qed.

Lemma evolves_new_operation d id o :
  operations d !! id = None → evolves d (set_operations (<[id := o]> (operations d)) d).
Proof.
  intros Ho. constructor; simpl; [done..| |].
  - intros i x Hx. exists x. rewrite lookup_insert_ne; [done|]. congruence.
  - intros k s Hs. by exists s.
Qed.

Lemma evolves_step d k s s' :
  steps d !! k = Some s → step_evolves s s' → evolves d (set_steps (<[k := s']> (steps d)) d).
Proof.
  intros Hs He. constructor; simpl; [done..| |].
  - intros id o Ho. by exists o.
  - intros i x Hx. destruct (decide (i = k)) as [->|Hne].
    + exists s'. rewrite lookup_insert_eq. split; [done|]. by simplify_eq.
    + exists x. by rewrite lookup_insert_ne.
Qed.

Lemma evolves_new_step d k s :
  steps d !! k = None → evolves d (set_steps (<[k := s]> (steps d)) d).
Proof.
  intros Hs. constructor; simpl; [done..| |].
  - intros id o Ho. by exists o.
  - intros i x Hx. exists x. rewrite lookup_insert_ne; [done|]. congruence.
Qed.

(** ** Every statement does *)

Lemma change_evolves cond f now d x d' :
  (∀ h, (epoch h ≤ epoch (f h))%Z) → change cond f now d = inr (x, d') → evolves d d'.
Proof.
  intros Hf H. unfold change in H. inv_tx. destruct (cond _); inv_tx; [|done].
  apply evolves_hold; simpl; [apply Hf|lia].
Qed.

Lemma set_lease_evolves me until now o : op_status o = OP_RUNNING → op_evolves o (set_lease me until now o).
Proof. intros Hr. constructor; try done. intros [Ho|Ho]; congruence. Qed.

Lemma ended_evolves st e now o : op_status o = OP_RUNNING → op_evolves o (ended st e now o).
Proof. intros Hr. constructor; try done. intros [Ho|Ho]; congruence. Qed.

Lemma fenced_spec id me d :
  fenced id me d = true ↔
  ∃ o, operations d !! id = Some o ∧ owner o = Some me ∧ op_status o = OP_RUNNING.
Proof.
  unfold fenced. destruct (operations d !! id) as [o|]; [|naive_solver].
  rewrite andb_true_iff, !bool_decide_eq_true. naive_solver.
Qed.

Lemma claim_inr me lease locked now d x d' :
  claim me lease locked now d = inr (x, d') →
  (x = None ∧ d' = d ∧ ∀ kr, kr ∈ map_to_list (operations d) → claimable me now locked kr = false) ∨
  (∃ id o, operations d !! id = Some o ∧ claimable me now locked (id, o) = true ∧
     (∀ kr, kr ∈ map_to_list (operations d) → claimable me now locked kr = true →
        (created_at o ≤ created_at kr.2)%Z) ∧
     d' = set_operations (<[id := set_lease (Some me) (Some (now + lease)%Z) now o]> (operations d)) d ∧
     x = Some (mk_operation id (set_lease (Some me) (Some (now + lease)%Z) now o) (steps_of id d))).
Proof.
  intros H. unfold claim in H. inv_tx.
  assert (∀ x y, created_leb x y = false → created_leb y x = true) as Ht
    by (unfold created_leb; intros; unbool; apply Z.leb_le; lia).
  assert (∀ x y z, created_leb x y = true → created_leb y z = true → created_leb x z = true) as Htr
    by (unfold created_leb; intros; unbool; apply Z.leb_le; lia).
  destruct (first_match _ _) as [[id o]|] eqn:Hm; inv_tx.
  - right. apply first_match_sorted in Hm as (l1&l2&Hl&Hc&H1&H2); [|done..].
    assert (operations d !! id = Some o) as Ho.
    { apply elem_of_map_to_list. rewrite Hl. set_solver. }
    match goal with Hg : get _ _ = _ |- _ => unfold get in Hg; apply tx_gets_inr in Hg as [-> ->] end.
    exists id, o. split_and!; [done..| |done|].
    + intros kr Hkr Hck. rewrite Hl in Hkr. unfold created_leb in *.
      apply elem_of_app in Hkr as [Hkr|[->|Hkr]%elem_of_cons]; [|done|].
      * specialize (H1 kr Hkr Hck). unbool. simpl in *. lia.
      * specialize (H2 kr Hkr Hck). unbool. done.
    + simpl. by rewrite lookup_insert_eq.
  - left. split_and!; [done..|]. intros kr Hkr.
    rewrite first_match_sorted_None in Hm. by apply Hm.
Qed.

Lemma claim_evolves me lease locked now d x d' :
  claim me lease locked now d = inr (x, d') → evolves d d'.
Proof.
  intros [(_&->&_)|(id&o&Ho&Hc&_&->&_)]%claim_inr; [done|].
  eapply evolves_operation; [done|]. apply set_lease_evolves.
  unfold claimable in Hc. unbool. done.
Qed.

Lemma renew_evolves id me lease now d x d' : renew id me lease now d = inr (x, d') → evolves d d'.
Proof.
  intros H. unfold renew in H. inv_tx. destruct (operations _ !! id) as [o|] eqn:Ho; inv_tx; [|done].
  destruct (fenced _ _ _) eqn:Hf; inv_tx; [|done]. eapply evolves_operation; [done|].
  apply fenced_spec in Hf as (o'&Ho'&_&Hr). constructor; try done. intros [?|?]; congruence.
Qed.

Lemma finish_inr id me st e now d x d' :
  finish id me st e now d = inr (x, d') →
  (x = false ∧ d' = d) ∨
  (x = true ∧ ∃ o, operations d !! id = Some o ∧ owner o = Some me ∧ op_status o = OP_RUNNING ∧
     d' = set_operations (<[id := ended st e now o]> (operations d)) d).
Proof.
  intros H. unfold finish in H. inv_tx. destruct (operations _ !! id) as [o|] eqn:Ho; inv_tx; [|auto].
  destruct (fenced _ _ _) eqn:Hf; inv_tx; [|auto]. right. split; [done|].
  apply fenced_spec in Hf as (o'&Ho'&Hw&Hr). exists o. rewrite Ho in Ho'. by injection Ho' as <-.
Qed.

Lemma finish_evolves id me st e now d x d' : finish id me st e now d = inr (x, d') → evolves d d'.
Proof.
  intros [[_ ->]|(_&o&Ho&_&Hr&->)]%finish_inr; [done|].
  eapply evolves_operation; [done|]. by apply ended_evolves.
Qed.

Lemma write_step_inr id node me matches f d x d' :
  write_step id node me matches f d = inr (x, d') →
  (x = None ∧ d' = d) ∨
  (∃ s, steps d !! (id, node) = Some s ∧ matches s = true ∧ fenced id me d = true ∧
     x = Some (f s) ∧ d' = set_steps (<[(id, node) := f s]> (steps d)) d).
Proof.
  intros H. unfold write_step in H. inv_tx.
  destruct (steps _ !! _) as [s|] eqn:Hs; inv_tx; [|auto].
  destruct (matches s && _) eqn:Hc; inv_tx; [|auto].
  apply andb_true_iff in Hc as [Hm Hf]. right. by exists s.
Qed.

Lemma write_step_evolves id node me matches f d x d' :
  (∀ s, step_evolves s (f s)) → write_step id node me matches f d = inr (x, d') → evolves d d'.
Proof.
  intros Hf [[_ ->]|(s&Hs&_&_&_&->)]%write_step_inr; [done|]. by eapply evolves_step.
Qed.

Lemma coalesce_is_Some {A} (v c : option A) : is_Some c → is_Some (coalesce v c).
Proof. destruct v; simpl; eauto. Qed.

Lemma advanced_evolves p v now s : step_evolves s (advanced p v now s).
Proof.
  constructor; simpl; [|apply coalesce_is_Some..]. intros ->. done.
Qed.

Lemma advance_inr step me p v now d x d' :
  advance step me p v now d = inr (x, d') →
  (x = false ∧ d' = d) ∨
  (∃ s, steps d !! (operation_id step, node_id step) = Some s ∧ step_status s = RUNNING ∧
     fenced (operation_id step) me d = true ∧ x = true ∧
     accounting_ok (accounting (advanced p v now s)) = true ∧
     d' = set_steps (<[(operation_id step, node_id step) := advanced p v now s]> (steps d)) d).
Proof.
  intros H. unfold advance in H. inv_tx.
  match goal with Hw : write_step _ _ _ _ _ _ = _ |- _ =>
    apply write_step_inr in Hw as [[-> ->]|(s&Hs&Hm&Hf&->&->)] end; inv_tx; [auto|].
  destruct (accounting_ok _) eqn:Ha; inv_tx. right. exists s. unfold is_running in Hm. unbool. done.
Qed.

Lemma with_reset_id_evolves id now s : step_evolves s (with_reset_id id now s).
Proof. by constructor. Qed.
Lemma failed_row_evolves e m c f now s : step_evolves s (failed_row e m c f now s).
Proof. by constructor. Qed.
Lemma rewound_evolves p now s : step_evolves s (rewound p now s).
Proof. by constructor. Qed.
Lemma retry_failed_step_evolves now s : step_evolves s (retry_failed_step now s).
Proof. by constructor. Qed.

Lemma advance_evolves step me p v now d x d' : advance step me p v now d = inr (x, d') → evolves d d'.
Proof.
  intros [[_ ->]|(s&Hs&_&_&_&_&->)]%advance_inr; [done|].
  eapply evolves_step; [done|apply advanced_evolves].
Qed.

Lemma insert_steps_evolves id rows d x d' : insert_steps id rows d = inr (x, d') → evolves d d'.
Proof.
  revert d. induction rows as [|[n s] rows IH]; intros d H; simpl in H; inv_tx; [done|].
  match goal with Hi : insert_step _ _ _ _ = _ |- _ => unfold insert_step in Hi; inv_tx end.
  destruct (bool_decide _) eqn:Hn; inv_tx. unbool.
  transitivity (set_steps (<[(id, n) := s]> (steps d)) d); [|by apply IH].
  apply evolves_new_step. by apply eq_None_not_Some.
Qed.

Lemma insert_operation_inr id o d x d' :
  insert_operation id o d = inr (x, d') →
  operations d !! id = None ∧ d' = set_operations (<[id := o]> (operations d)) d.
Proof.
  intros H. unfold insert_operation in H. inv_tx. destruct (_ || _) eqn:Hc; inv_tx. unbool.
  split; [by apply eq_None_not_Some|done].
Qed.

Lemma found_inr id d x d' :
  found id d = inr (x, d') → d' = d ∧ ∃ o, operations d !! id = Some o ∧ x = mk_operation id o (steps_of id d).
Proof.
  intros H. unfold found, get in H. inv_tx. destruct (operations _ !! id) as [o|] eqn:Ho; simpl in *; inv_tx.
  split; [done|]. by exists o.
Qed.

Lemma create_entry_evolves id e by_ nodes now d x d' :
  create_entry id e by_ nodes now d = inr (x, d') → evolves d d'.
Proof.
  intros H. unfold create_entry in H. inv_tx.
  match goal with Hi : insert_operation _ _ _ = _ |- _ => apply insert_operation_inr in Hi as [Hn ->] end.
  match goal with Hf : found _ _ = _ |- _ => apply found_inr in Hf as [-> _] end.
  etransitivity; [by apply evolves_new_operation|]. by eapply insert_steps_evolves.
Qed.

Lemma create_restore_evolves id e by_ snaps now d x d' :
  create_restore id e by_ snaps now d = inr (x, d') → evolves d d'.
Proof.
  intros H. unfold create_restore in H. inv_tx.
  match goal with Hi : insert_operation _ _ _ = _ |- _ => apply insert_operation_inr in Hi as [Hn ->] end.
  match goal with Hf : found _ _ = _ |- _ => apply found_inr in Hf as [-> _] end.
  etransitivity; [by apply evolves_new_operation|]. by eapply insert_steps_evolves.
Qed.

Lemma abandon_running_inr reason now d x d' :
  abandon_running reason now d = inr (x, d') →
  d' = set_operations ((λ o, if bool_decide (op_status o = OP_RUNNING)
    then ended ABANDONED (Some reason) now o else o) <$> operations d) d.
Proof. intros H. unfold abandon_running in H. by inv_tx. Qed.

Lemma abandon_running_evolves reason now d x d' :
  abandon_running reason now d = inr (x, d') → evolves d d'.
Proof.
  intros ->%abandon_running_inr. constructor; simpl; [done..| |].
  - intros id o Ho. rewrite lookup_fmap, Ho. simpl. eexists. split; [done|].
    case_bool_decide; [by apply ended_evolves|done].
  - intros k s Hs. by exists s.
Qed.

Lemma retry_inr id now d x d' :
  retry id now d = inr (x, d') →
  (x = false ∧ d' = d) ∨
  (x = true ∧ ∃ o, operations d !! id = Some o ∧ op_status o = OP_FAILED ∧
     operations d' = <[id := retried now o]> (operations d) ∧ hold d' = hold d ∧
     ∀ k, steps d' !! k =
       (λ s, if bool_decide (k.1 = id) && bool_decide (step_status s = FAILED)
             then retry_failed_step now s else s) <$> steps d !! k).
Proof.
  intros H. unfold retry in H. inv_tx. destruct (operations _ !! id) as [o|] eqn:Ho; inv_tx; [|auto].
  case_bool_decide as Hst; inv_tx; [|auto]. right. split; [done|]. exists o. split_and!; [done..|].
  intros k. cbn [steps set_operations set_steps]. rewrite map_lookup_imap.
  by destruct (steps d !! k).
Qed.

Lemma retry_evolves id now d x d' : retry id now d = inr (x, d') → evolves d d'.
Proof.
  intros [[_ ->]|(_&o&Ho&Hst&Hops&Hh&Hsteps)]%retry_inr; [done|]. constructor; rewrite ?Hh; [done..| |].
  - intros i p Hp. rewrite Hops. destruct (decide (i = id)) as [->|Hne].
    + rewrite lookup_insert_eq. eexists. split; [done|]. simplify_eq.
      constructor; try done. intros [?|?]; congruence.
    + rewrite lookup_insert_ne by done. by exists p.
  - intros k s Hs. rewrite (Hsteps k), Hs. eexists. split; [done|].
    destruct (_ && _); [apply retry_failed_step_evolves|done].
Qed.

Lemma reopen_hold_evolves by_ now d x d' : reopen_hold by_ now d = inr (x, d') → evolves d d'.
Proof. apply change_evolves. done. Qed.

Lemma reopen_after_inr id me e now d x d' :
  reopen_after id me e now d = inr (x, d') →
  (x = false ∧ d' = d) ∨
  (x = true ∧ ∃ o h, operations d !! id = Some o ∧ owner o = Some me ∧ op_status o = OP_RUNNING ∧
     admission_closed (hold d) = true ∧ epoch (hold d) = e ∧ admission_closed h = false ∧
     d' = set_hold h (set_operations (<[id := ended SUCCEEDED None now o]> (operations d)) d) ∧
     epoch h = e ∧ revision h = (revision (hold d) + 1)%Z).
Proof.
  unfold reopen_after. destruct (serving_commit id me e now d) as [e'|[u d1]] eqn:H;
    [intros [= <- <-]; auto|].
  intros [= <- <-]. right. split; [done|]. unfold serving_commit in H. inv_tx.
  match goal with Hf : finish _ _ _ _ _ _ = _ |- _ =>
    apply finish_inr in Hf as [[-> _]|(->&o&Ho&Hw&Hr&->)] end; inv_tx.
  match goal with Hf : reopen_hold _ _ _ = _ |- _ => unfold reopen_hold, change in Hf; inv_tx end.
  destruct (admission_closed _) eqn:Hc; inv_tx.
  match goal with Hf : (if (?a =? ?b)%Z then _ else _) _ = _ |- _ =>
    destruct (Z.eqb_spec a b) as [<-|]; inv_tx end.
  exists o, (mk_state false NORMAL_PHASE (epoch (hold d)) (revision (hold d) + 1) (message (hold d))
    (expected_return_at (hold d)) (Some MAINTENANCE_COORDINATOR_ID) (Some now)). by split_and!.
Qed.

Lemma reopen_after_evolves id me e now d x d' : reopen_after id me e now d = inr (x, d') → evolves d d'.
Proof.
  intros [[_ ->]|(_&o&h&Ho&_&Hr&_&He&_&->&Hh&Hrev)]%reopen_after_inr; [done|].
  etransitivity; [eapply evolves_operation; [done|by apply ended_evolves]|].
  apply evolves_hold; simpl; lia.
Qed.

(** ** Every transaction does *)

Lemma require_admin_inr a s d x d' :
  require_admin a s d = inr (x, d') → d' = d ∧ role a = ADMIN ∧ s ∈ scopes a.
Proof.
  unfold require_admin, require, ensure. case_bool_decide; simpl; [|done].
  case_bool_decide; [|done]. intros H'. inv_tx. done.
Qed.

Lemma latest_inr d x d' : latest d = inr (x, d') → d' = d.
Proof.
  unfold latest. intros H. inv_tx. destruct (py_sorted _ _) as [|[id o] l]; inv_tx; [done|].
  unfold get in *. by inv_tx.
Qed.

Lemma latest_of_inr k e d x d' :
  latest_of k e d = inr (x, d') →
  d' = d ∧ match x with
           | Some m => operations d !! op_id m = Some (op m) ∧ kind (op m) = k ∧ op_epoch (op m) = e ∧
               op_steps m = steps_of (op_id m) d
           | None => ∀ id o, operations d !! id = Some o → kind o = k → op_epoch o ≠ e
           end.
Proof.
  unfold latest_of. intros H. inv_tx. destruct (first_match _ _) as [[id o]|] eqn:Hm; inv_tx.
  - unfold get in H0. inv_tx. split; [done|].
    apply first_match_Some in Hm as (l1&l2&Hl&Hc&_). unbool. simpl in *.
    assert (operations d !! id = Some o) as Ho by (apply elem_of_map_to_list; rewrite Hl; set_solver).
    rewrite Ho. simpl. by split_and!.
  - split; [done|]. intros id o Ho Hk He. apply first_match_None in Hm. rewrite Forall_forall in Hm.
    apply elem_of_map_to_list in Ho. specialize (Hm _ Ho). simpl in Hm.
    rewrite bool_decide_true in Hm by done. by apply Z.eqb_neq in Hm.
Qed.

Ltac inv_admin :=
  repeat match goal with
  | H : require_admin _ _ _ = inr _ |- _ => apply require_admin_inr in H as (->&?&?)
  | H : read _ = inr _ |- _ => unfold read in H; inv_tx
  | H : latest _ = inr _ |- _ => apply latest_inr in H as ->
  | H : latest_of _ _ _ = inr _ |- _ => apply latest_of_inr in H as [-> ?]
  | H : get _ _ = inr _ |- _ => unfold get in H; inv_tx
  end.

Lemma close_inr by_ m at_ now d x d' :
  close by_ m at_ now d = inr (x, d') →
  (x = None ∧ d' = d ∧ admission_closed (hold d) = true) ∨
  (admission_closed (hold d) = false ∧ ∃ h, x = Some h ∧ d' = set_hold h d ∧
     admission_closed h = true ∧ epoch h = (epoch (hold d) + 1)%Z ∧ revision h = (revision (hold d) + 1)%Z).
Proof.
  intros H. unfold close, change in H. inv_tx.
  destruct (negb _) eqn:Hc; inv_tx; unbool; [right|by left]. split; [done|]. eexists. by split_and!.
Qed.

Lemma create_entry_hold id e by_ nodes now d x d' :
  create_entry id e by_ nodes now d = inr (x, d') → hold d' = hold d.
Proof.
  intros H. unfold create_entry in H. inv_tx.
  match goal with Hi : insert_operation _ _ _ = _ |- _ => apply insert_operation_inr in Hi as [Hn ->] end.
  match goal with Hf : found _ _ = _ |- _ => apply found_inr in Hf as [-> _] end.
  match goal with Hs : insert_steps _ ?r ?d0 = _ |- _ =>
    change (hold d) with (hold d0); revert Hs; generalize d0; generalize r end.
  intros r. induction r as [|[n s] r IH]; intros d0 Hs; simpl in Hs; inv_tx; [done|].
  match goal with Hi : insert_step _ _ _ _ = _ |- _ => unfold insert_step in Hi; inv_tx end.
  destruct (bool_decide _); inv_tx.
  match goal with Hs : insert_steps _ _ _ = _ |- _ => by apply IH in Hs end.
Qed.

Lemma enter_inr cfg a m at_ nodes id now d x d' :
  enter cfg a m at_ nodes id now d = inr (x, d') →
  role a = ADMIN ∧ existsb direct nodes = false ∧ enabled cfg = true ∧ agents_enabled cfg = true ∧
  ((admission_closed (hold d) = true ∧ d' = d ∧ x = hold d) ∨
   (admission_closed (hold d) = false ∧ admission_closed (hold d') = true ∧ x = hold d' ∧
    epoch (hold d') = (epoch (hold d) + 1)%Z ∧ evolves d d')).
Proof.
  intros H. unfold enter in H. inv_tx. inv_admin.
  destruct (enabled cfg); inv_tx. destruct (_ || _) eqn:Hcfg; inv_tx. unbool.
  destruct (existsb direct nodes); inv_tx. split_and!; [done..|].
  match goal with Hc : close _ _ _ _ _ = _ |- _ =>
    apply close_inr in Hc as [(->&->&Hc)|(Hc&h&->&->&Hc'&He&Hr)] end.
  - left. unfold read in *. inv_tx. done.
  - right. inv_tx.
    match goal with Hf : create_entry _ _ _ _ _ _ = _ |- _ =>
      pose proof (create_entry_hold _ _ _ _ _ _ _ _ Hf) as Hh; apply create_entry_evolves in Hf as Hev end.
    rewrite Hh. simpl. split_and!; [done..|]. etransitivity; [|exact Hev]. apply evolves_hold; lia.
Qed.

(** Every transaction of this file that changes the tables, with its caller's
    arguments and clock free. *)
Inductive store_step : mdb → mdb → Prop :=
  | by_enter cfg a m at_ nodes id now d x d' :
      enter cfg a m at_ nodes id now d = inr (x, d') → store_step d d'
  | by_restore cfg a id now d x d' : restore cfg a id now d = inr (x, d') → store_step d d'
  | by_retry cfg a now d x d' : retry_operation cfg a now d = inr (x, d') → store_step d d'
  | by_reopen cfg a now d x d' : reopen cfg a now d = inr (x, d') → store_step d d'
  | by_message a m at_ rev now d x d' : set_message a m at_ rev now d = inr (x, d') → store_step d d'
  | by_claim me lease locked now d x d' : claim me lease locked now d = inr (x, d') → store_step d d'
  | by_renew id me lease now d x d' : renew id me lease now d = inr (x, d') → store_step d d'
  | by_advance step me p v now d x d' : advance step me p v now d = inr (x, d') → store_step d d'
  | by_set_reset_id step me id now d x d' : set_reset_id step me id now d = inr (x, d') → store_step d d'
  | by_attempt_failed step me e m c f now d x d' :
      attempt_failed step me e m c f now d = inr (x, d') → store_step d d'
  | by_finish id me st e now d x d' : finish id me st e now d = inr (x, d') → store_step d d'
  | by_rewind step me p now d x d' : rewind step me p now d = inr (x, d') → store_step d d'
  | by_reopen_after id me e now d x d' : reopen_after id me e now d = inr (x, d') → store_step d d'.

Lemma restore_evolves cfg a id now d x d' : restore cfg a id now d = inr (x, d') → evolves d d'.
Proof.
  intros H. unfold restore in H. inv_tx. inv_admin. destruct (_ || _); inv_tx. inv_admin.
  match goal with Hx : match ?o with Some _ => _ | None => _ end _ = _ |- _ => destruct o end.
  - case_bool_decide; by inv_tx.
  - inv_tx. inv_admin.
    match goal with Hx : match ?o with Some _ => _ | None => _ end _ = _ |- _ => destruct o end; inv_tx.
    case_bool_decide; inv_tx. destruct (existsb _ _); inv_tx. destruct (existsb _ _); inv_tx.
    by eapply create_restore_evolves.
Qed.

Lemma retry_operation_evolves cfg a now d x d' : retry_operation cfg a now d = inr (x, d') → evolves d d'.
Proof.
  intros H. unfold retry_operation in H. inv_tx. inv_admin.
  destruct (has_operations cfg); simpl in *; inv_tx. inv_admin.
  match goal with Hx : match ?o with Some _ => _ | None => _ end _ = _ |- _ => destruct o end; inv_tx.
  case_bool_decide; inv_tx. inv_admin. destruct (_ || _); inv_tx.
  match goal with Hx : retry _ _ _ = inr (?b, _), Hy : (if ?b then _ else _) _ = _ |- _ =>
    apply retry_evolves in Hx; destruct b; inv_tx end.
  by inv_admin.
Qed.

Lemma reopen_evolves cfg a now d x d' : reopen cfg a now d = inr (x, d') → evolves d d'.
Proof.
  intros H. unfold reopen in H. inv_tx. inv_admin.
  match goal with Hx : reopen_hold _ _ _ = inr (?o, _) |- _ => apply reopen_hold_evolves in Hx; destruct o end.
  - inv_tx. destruct (has_operations cfg); inv_tx; [|done].
    etransitivity; [done|]. by eapply abandon_running_evolves.
  - by inv_admin.
Qed.

Lemma set_message_evolves a m at_ rev now d x d' : set_message a m at_ rev now d = inr (x, d') → evolves d d'.
Proof.
  intros H. unfold set_message in H. inv_tx. inv_admin.
  match goal with Hx : set_message_row _ _ _ _ _ _ = inr (?o, _) |- _ =>
    apply change_evolves in Hx; [|done]; destruct o; by inv_tx end.
Qed.

Lemma store_step_evolves d d' : store_step d d' → evolves d d'.
Proof.
  destruct 1 as [? ? ? ? ? ? ? ? ? ? H|? ? ? ? ? ? ? H|? ? ? ? ? ? H|? ? ? ? ? ? H|? ? ? ? ? ? ? ? H
    |? ? ? ? ? ? ? H|? ? ? ? ? ? ? H|? ? ? ? ? ? ? ? H|? ? ? ? ? ? ? H|? ? ? ? ? ? ? ? ? ? H|? ? ? ? ? ? ? ? H
    |? ? ? ? ? ? ? H|? ? ? ? ? ? ? H].
  - by apply enter_inr in H as (_&_&_&_&[(_&->&_)|(_&_&_&_&?)]).
  - by eapply restore_evolves.
  - by eapply retry_operation_evolves.
  - by eapply reopen_evolves.
  - by eapply set_message_evolves.
  - by eapply claim_evolves.
  - by eapply renew_evolves.
  - by eapply advance_evolves.
  - unfold set_reset_id in H. inv_tx. eapply write_step_evolves; [|done]. apply with_reset_id_evolves.
  - unfold attempt_failed in H. inv_tx. eapply write_step_evolves; [|done]. apply failed_row_evolves.
  - by eapply finish_evolves.
  - unfold rewind in H. inv_tx. eapply write_step_evolves; [|done]. apply rewound_evolves.
  - by eapply reopen_after_evolves.
Qed.

Lemma store_steps_evolve d d' : rtc store_step d d' → evolves d d'.
Proof. induction 1; [done|]. etransitivity; [by apply store_step_evolves|done]. Qed.

(** * Guarantees *)

(** What an entry saw is never rewritten.  Whatever administrators and
    coordinators do afterwards, in any order, a step that has its snapshot,
    or the reason it has none, keeps exactly that, with its time; what it
    recorded of the interrupt, the reset and the verification stays recorded;
    and an operation that succeeded or was abandoned never changes again. *)
Theorem snapshot_is_written_once d d' :
  rtc store_step d d' →
  (∀ k s, steps d !! k = Some s → snapshot_taken s = true →
     ∃ s', steps d' !! k = Some s' ∧ snapshot s' = snapshot s ∧
       snapshot_error s' = snapshot_error s ∧ snapshot_at s' = snapshot_at s ∧
       (is_Some (interrupt s) → is_Some (interrupt s')) ∧ (is_Some (reset s) → is_Some (reset s'))) ∧
  (∀ id o, operations d !! id = Some o → op_status o = SUCCEEDED ∨ op_status o = ABANDONED →
     operations d' !! id = Some o).
Proof.
  intros [_ _ Ho Hs]%store_steps_evolve. split.
  - intros k s Hk Ht. destruct (Hs k s Hk) as (s'&Hk'&[Hsn Hi Hr _]).
    destruct (Hsn Ht) as (?&?&?). by exists s'.
  - intros id o Hid Hov. destruct (Ho id o Hid) as (o'&Ho'&He). by rewrite Ho', (oe_over _ _ He Hov).
Qed.

(** A coordinator that no longer holds an operation cannot touch it.  When
    the operation is not running, or is owned by someone else, every write
    the coordinator can make on it, and the commit that reopens the platform,
    leaves the database exactly as it was and says so. *)
Theorem stale_coordinator_is_fenced d id me node s :
  fenced id me d = false →
  let step := mk_step id node s in
  (∀ lease now, renew id me lease now d = inr (false, d)) ∧
  (∀ p v now, advance step me p v now d = inr (false, d)) ∧
  (∀ rid now, set_reset_id step me rid now d = inr (false, d)) ∧
  (∀ e m c f now, attempt_failed step me e m c f now d = inr (None, d)) ∧
  (∀ st e now, finish id me st e now d = inr (false, d)) ∧
  (∀ p now, rewind step me p now d = inr (false, d)) ∧
  (∀ e now, reopen_after id me e now d = inr (false, d)).
Proof.
  intros Hf. assert (∀ matches f, write_step id node me matches f d = inr (None, d)) as Hw.
  { intros matches f. unfold write_step, and_then, mbind, tx_bind, gets, commit. simpl.
    rewrite Hf. destruct (steps d !! _) as [s'|]; [|done]. by rewrite andb_false_r. }
  assert (∀ st e now, finish id me st e now d = inr (false, d)) as Hfin.
  { intros. unfold finish, and_then, mbind, tx_bind, gets, commit. simpl. rewrite Hf.
    by destruct (operations d !! id). }
  simpl. split_and!; intros.
  - unfold renew, and_then, mbind, tx_bind, gets, commit. simpl. rewrite Hf.
    by destruct (operations d !! id).
  - unfold advance, and_then, mbind, tx_bind. simpl. by rewrite Hw.
  - unfold set_reset_id, and_then, mbind, tx_bind. simpl. by rewrite Hw.
  - unfold attempt_failed, and_then, mbind, tx_bind. simpl. by rewrite Hw.
  - apply Hfin.
  - unfold rewind, and_then, mbind, tx_bind. simpl. by rewrite Hw.
  - unfold reopen_after, serving_commit, and_then, mbind, tx_bind. by rewrite Hfin.
Qed.

(** One coordinator at a time.  A claim takes the oldest operation it may
    take, and only one that is running and free, already the claimant's, or
    whose lease has expired; from then on the claimant's writes land and no
    other coordinator's do. *)
Theorem claim_takes_one_free_operation me lease locked now d m d' :
  claim me lease locked now d = inr (Some m, d') →
  ∃ o, operations d !! op_id m = Some o ∧ op_status o = OP_RUNNING ∧
    (owner o = None ∨ owner o = Some me ∨ (∃ t, lease_expires_at o = Some t ∧ (t < now)%Z)) ∧
    (op_id m ∉ locked) ∧
    (∀ id' o', operations d !! id' = Some o' → claimable me now locked (id', o') = true →
       (created_at o ≤ created_at o')%Z) ∧
    (∀ other, fenced (op_id m) other d' = bool_decide (other = me)).
Proof.
  intros [(?&_)|(id&o&Ho&Hc&Hold&->&[= ->])]%claim_inr; [done|]. exists o. simpl.
  unfold claimable in Hc. unbool. simpl in *.
  assert (op_status o = OP_RUNNING) as Hr by done.
  split_and!; [done..| |done| |].
  - match goal with Hl : _ || _ || _ = true |- _ => rewrite !orb_true_iff, !bool_decide_eq_true in Hl;
      destruct Hl as [[Hl|Hl]|Hl] end; [by left|by right; left|].
    right; right. destruct (lease_expires_at o) as [t|]; [|done]. exists t. by unbool.
  - intros id' o' Ho' Hc'. apply (Hold (id', o')); [by apply elem_of_map_to_list|done].
  - intros other. unfold fenced. simpl. rewrite lookup_insert_eq. simpl.
    rewrite (bool_decide_true (op_status o = OP_RUNNING)) by done. rewrite andb_true_r.
    apply bool_decide_ext. naive_solver.
Qed.

(** Closing the platform ends every ordinary session for good.  A session
    issued before an administrator closed the platform is refused in every later
    state, reopened or not, unless it is a platform administrator's, which
    is never refused. *)
Theorem old_sessions_stay_dead cfg a m at_ nodes id now d x d1 d2 session :
  enter cfg a m at_ nodes id now d = inr (x, d1) → admission_closed (hold d) = false →
  rtc store_step d1 d2 → (session ≤ epoch (hold d))%Z →
  session_valid (hold d2) session false = false ∧ session_valid (hold d2) session true = true ∧
  admission_closed (hold d1) = true.
Proof.
  intros (_&_&_&_&[(Hc&_)|(_&Hc&_&He&_)])%enter_inr Hopen Hr Hs; [congruence|].
  apply store_steps_evolve in Hr as [Hep _ _ _]. split_and!; [|done..].
  unfold session_valid. simpl. apply Z.leb_gt. lia.
Qed.

(** Reopening the platform stops every operation in the same transaction.
    When an administrator lifts a hold, the platform serves, no operation is left
    running, and no write of any coordinator lands on any of them. *)
Theorem reopening_ends_every_operation cfg a now d x d' :
  reopen cfg a now d = inr (x, d') → has_operations cfg = true → admission_closed (hold d) = true →
  serving (hold d') = true ∧ x = hold d' ∧ epoch (hold d') = epoch (hold d) ∧
  (∀ id o, operations d' !! id = Some o → op_status o ≠ OP_RUNNING) ∧
  (∀ id me, fenced id me d' = false).
Proof.
  intros H Hops Hc. unfold reopen in H. inv_tx. inv_admin.
  match goal with Hx : reopen_hold _ _ _ = _ |- _ => unfold reopen_hold, change in Hx; inv_tx end.
  rewrite Hc in *. inv_tx. rewrite Hops in *. inv_tx.
  match goal with Hx : abandon_running _ _ _ = _ |- _ => apply abandon_running_inr in Hx as -> end.
  simpl. assert (∀ id o, ((λ o, if bool_decide (op_status o = OP_RUNNING)
      then ended ABANDONED (Some "the platform was reopened") now o else o) <$> operations d) !! id = Some o →
      op_status o ≠ OP_RUNNING) as Hnone.
  { intros id o. rewrite lookup_fmap. destruct (operations d !! id) as [o'|]; simpl; [|done].
    intros [= <-]. case_bool_decide; done. }
  split_and!; [done..|exact Hnone|]. intros id me. apply not_true_iff_false.
  rewrite fenced_spec. intros (o&Ho&_&Hr). by apply (Hnone id o).
Qed.

(** ** A restore starts only from a clean entry *)

Lemma insert_step_inr id n s d x d' :
  insert_step id n s d = inr (x, d') →
  steps d !! (id, n) = None ∧ d' = set_steps (<[(id, n) := s]> (steps d)) d.
Proof.
  intros H. unfold insert_step in H. inv_tx. destruct (bool_decide _) eqn:Hc; inv_tx. unbool.
  split; [by apply eq_None_not_Some|done].
Qed.

Lemma insert_steps_lookup id rows d x d' :
  insert_steps id rows d = inr (x, d') →
  (∀ k s, steps d !! k = Some s → steps d' !! k = Some s) ∧
  (∀ n s, (n, s) ∈ rows → steps d' !! (id, n) = Some s).
Proof.
  revert d. induction rows as [|[n s] rows IH]; intros d H; simpl in H; inv_tx; [split; [done|set_solver]|].
  match goal with Hi : insert_step _ _ _ _ = _ |- _ => apply insert_step_inr in Hi as [Hn ->] end.
  match goal with Hi : insert_steps _ _ _ = _ |- _ => apply IH in Hi as [Hkeep Hnew] end. simpl in *.
  split.
  - intros k s' Hk. apply Hkeep. rewrite lookup_insert_ne; [done|]. congruence.
  - intros n' s' [[= -> ->]|Hin]%elem_of_cons; [|by apply Hnew]. apply Hkeep. apply lookup_insert_eq.
Qed.

Lemma insert_steps_operations id rows d x d' :
  insert_steps id rows d = inr (x, d') → operations d' = operations d.
Proof.
  revert d. induction rows as [|[n s] rows IH]; intros d H; simpl in H; inv_tx; [done|].
  match goal with Hi : insert_step _ _ _ _ = _ |- _ => apply insert_step_inr in Hi as [Hn ->] end.
  match goal with Hi : insert_steps _ _ _ = _ |- _ => by apply IH in Hi end.
Qed.

Lemma create_restore_inr id e by_ snaps now d m d' :
  create_restore id e by_ snaps now d = inr (m, d') →
  op_id m = id ∧ op m = new_operation RESTORE e by_ now ∧
  ∀ n snap, (n, snap) ∈ snaps → steps d' !! (id, n) = Some (new_step (Some snap) (Some now) now).
Proof.
  intros H. unfold create_restore in H. inv_tx.
  match goal with Hi : insert_operation _ _ _ = _ |- _ => apply insert_operation_inr in Hi as [Hn ->] end.
  match goal with Hf : found _ _ = _ |- _ => apply found_inr in Hf as (->&o&Ho&->) end.
  match goal with Hi : insert_steps _ _ _ = _ |- _ =>
    pose proof (insert_steps_lookup _ _ _ _ _ Hi) as [_ Hnew]; apply insert_steps_operations in Hi as Hops end.
  rewrite Hops in Ho. simpl in Ho. rewrite lookup_insert_eq in Ho. injection Ho as <-.
  split_and!; [done..|]. intros n snap Hin. apply Hnew. apply list_elem_of_fmap. by exists (n, snap).
Qed.

(** A restore starts only from a clean entry.  It needs the platform closed;
    it returns a restore already running for this hold, or starts one from
    this hold's entry, which must have succeeded with every node's snapshot
    taken and every node's unknowns resolved; and each node's restore works
    from exactly the snapshot its entry saved. *)
Theorem restore_needs_a_clean_entry cfg a id now d m d' :
  restore cfg a id now d = inr (m, d') →
  admission_closed (hold d) = true ∧ kind (op m) = RESTORE ∧ op_epoch (op m) = epoch (hold d) ∧
  op_status (op m) = OP_RUNNING ∧
  (d' = d ∨ op_id m = id ∧ ∃ eid entry, operations d !! eid = Some entry ∧ kind entry = ENTER ∧
     op_epoch entry = epoch (hold d) ∧ op_status entry = SUCCEEDED ∧
     ∀ s : NodeStep, s ∈ steps_of eid d → ∃ snap, snapshot s = Some snap ∧ accounting s = Some "resolved" ∧
       steps d' !! (id, node_id s) = Some (new_step (Some snap) (Some now) now)).
Proof.
  intros H. unfold restore in H. inv_tx. inv_admin. destruct (_ || _) eqn:Hc; inv_tx. unbool. inv_admin.
  match goal with Hx : match ?o with Some _ => _ | None => _ end _ = _ |- _ => destruct o as [r|] end.
  - case_bool_decide; inv_tx.
    match goal with Hr : _ ∧ kind _ = RESTORE ∧ _ |- _ => destruct Hr as (_&?&?&_) end. auto 6.
  - inv_tx. inv_admin.
    match goal with Hx : match ?o with Some _ => _ | None => _ end _ = _ |- _ => destruct o as [en|] end; inv_tx.
    case_bool_decide as Hst; inv_tx. destruct (existsb _ _) eqn:Hsn; inv_tx.
    match goal with Hx : (if ?b then _ else _) _ = _ |- _ => destruct b eqn:Hac end; inv_tx.
    match goal with Hr : _ ∧ kind _ = ENTER ∧ _ |- _ => destruct Hr as (He&Hk&Hep&Hsteps) end.
    match goal with Hr : create_restore _ _ _ _ _ _ = _ |- _ =>
      apply create_restore_inr in Hr as (Hid&Hop&Hnew) end.
    rewrite Hop. split_and!; [done..|]. right. split; [done|]. exists (op_id en), (op en).
    split_and!; [done..|]. rewrite <- Hsteps. intros s Hs.
    apply existsb_false in Hsn, Hac. rewrite Forall_forall in Hsn, Hac.
    specialize (Hsn s Hs). specialize (Hac s Hs). unbool.
    destruct (snapshot s) as [snap|] eqn:Hss; [|done]. exists snap.
    split_and!; [done|by apply dec_stable|]. apply Hnew. apply list_elem_of_fmap.
    exists s. by rewrite Hss.
Qed.

(** * A small deployment *)

Module Demo.
Definition admin : Actor :=
  mk_actor "root" "root" ADMIN local (scope_set [MAINTENANCE_READ; MAINTENANCE_WRITE]) "default" None None None true None.
Definition config : Config := mk_config true true true true.
Definition d0 : mdb := mk_mdb NORMAL ∅ ∅.
Definition step1 : step_row :=
  mk_step_row VERIFIED DONE 0 (Some []) (Some []) (Some 1%Z) None (Some "r") (Some []) (Some "resolved")
    (Some []) None 1.
Definition entry1 : op_row := mk_op_row ENTER 1 SUCCEEDED "root" None None None 1 1 (Some 1%Z).
Definition running1 : op_row := mk_op_row ENTER 1 OP_RUNNING "root" (Some "a") (Some 30%Z) None 1 1 None.
Definition closed : MaintenanceState :=
  mk_state true MAINTENANCE_PHASE 1 1 None None (Some "root") (Some 1%Z).
(** A hold whose entry is running under coordinator [a], and one whose entry succeeded. *)
Definition d_running : mdb := mk_mdb closed {["op" := running1]} {[("op", "n") := step1]}.
Definition d_done : mdb := mk_mdb closed {["op" := entry1]} {[("op", "n") := step1]}.

Definition result {A} (r : mexn + A * mdb) : mdb := match r with inl _ => d0 | inr (_, d) => d end.
Definition value {A} (r : mexn + A * mdb) : option A := match r with inl _ => None | inr (x, _) => Some x end.

Definition d1 : mdb := result (enter config admin (Some " brb ") None [("n", Some "http://n")] "op" 1 d0).
Definition d_reopened : mdb := result (reopen config admin 2 d_running).
End Demo.

Lemma snapshot_is_written_once_witness :
  (∀ k s, steps Demo.d_running !! k = Some s → snapshot_taken s = true →
     ∃ s', steps Demo.d_reopened !! k = Some s' ∧ snapshot s' = snapshot s ∧
       snapshot_error s' = snapshot_error s ∧ snapshot_at s' = snapshot_at s ∧
       (is_Some (interrupt s) → is_Some (interrupt s')) ∧ (is_Some (reset s) → is_Some (reset s'))) ∧
  (∀ id o, operations Demo.d_running !! id = Some o → op_status o = SUCCEEDED ∨ op_status o = ABANDONED →
     operations Demo.d_reopened !! id = Some o).
Proof.
  apply (snapshot_is_written_once Demo.d_running Demo.d_reopened). apply rtc_once.
  eapply (by_reopen Demo.config Demo.admin 2). vm_compute. reflexivity.
Defined.

Definition stale_step : NodeStep := mk_step "op" "n" Demo.step1.

Lemma stale_coordinator_is_fenced_witness :
  (∀ lease now, renew "op" "b" lease now Demo.d_running = inr (false, Demo.d_running)) ∧
  (∀ p v now, advance stale_step "b" p v now Demo.d_running = inr (false, Demo.d_running)) ∧
  (∀ rid now, set_reset_id stale_step "b" rid now Demo.d_running = inr (false, Demo.d_running)) ∧
  (∀ e m c f now, attempt_failed stale_step "b" e m c f now Demo.d_running = inr (None, Demo.d_running)) ∧
  (∀ st e now, finish "op" "b" st e now Demo.d_running = inr (false, Demo.d_running)) ∧
  (∀ p now, rewind stale_step "b" p now Demo.d_running = inr (false, Demo.d_running)) ∧
  (∀ e now, reopen_after "op" "b" e now Demo.d_running = inr (false, Demo.d_running)).
Proof.
  apply (stale_coordinator_is_fenced Demo.d_running "op" "b" "n" Demo.step1). vm_compute. reflexivity.
Defined.

Definition claimed : MaintenanceOperation :=
  mk_operation "op" (set_lease (Some "b") (Some 61%Z) 31 Demo.running1)
    [mk_step "op" "n" Demo.step1].

Lemma claim_takes_one_free_operation_witness :
  ∃ o, operations Demo.d_running !! op_id claimed = Some o ∧ op_status o = OP_RUNNING ∧
    (owner o = None ∨ owner o = Some "b" ∨ (∃ t, lease_expires_at o = Some t ∧ (t < 31)%Z)) ∧
    (op_id claimed ∉ []) ∧
    (∀ id' o', operations Demo.d_running !! id' = Some o' → claimable "b" 31 [] (id', o') = true →
       (created_at o ≤ created_at o')%Z) ∧
    (∀ other, fenced (op_id claimed) other (Demo.result (claim "b" 30 [] 31 Demo.d_running)) =
       bool_decide (other = "b")).
Proof.
  apply (claim_takes_one_free_operation "b" 30 [] 31 Demo.d_running claimed).
  vm_compute. reflexivity.
Defined.

Lemma old_sessions_stay_dead_witness :
  session_valid (hold Demo.d1) 0 false = false ∧ session_valid (hold Demo.d1) 0 true = true ∧
  admission_closed (hold Demo.d1) = true.
Proof.
  eapply (old_sessions_stay_dead Demo.config Demo.admin (Some " brb ") None [("n", Some "http://n")] "op" 1
            Demo.d0 _ Demo.d1 Demo.d1 0); [vm_compute; reflexivity|reflexivity|reflexivity|done].
Defined.

Lemma reopening_ends_every_operation_witness :
  serving (hold Demo.d_reopened) = true ∧ hold Demo.d_reopened = hold Demo.d_reopened ∧
  epoch (hold Demo.d_reopened) = epoch (hold Demo.d_running) ∧
  (∀ id o, operations Demo.d_reopened !! id = Some o → op_status o ≠ OP_RUNNING) ∧
  (∀ id me, fenced id me Demo.d_reopened = false).
Proof.
  apply (reopening_ends_every_operation Demo.config Demo.admin 2 Demo.d_running);
    [vm_compute; reflexivity|reflexivity..].
Defined.

Definition restored : MaintenanceOperation :=
  mk_operation "r" (new_operation RESTORE 1 "root" 5) [mk_step "r" "n" (new_step (Some []) (Some 5%Z) 5)].

Lemma restore_needs_a_clean_entry_witness :
  admission_closed (hold Demo.d_done) = true ∧ kind (op restored) = RESTORE ∧
  op_epoch (op restored) = epoch (hold Demo.d_done) ∧ op_status (op restored) = OP_RUNNING ∧
  (Demo.result (restore Demo.config Demo.admin "r" 5 Demo.d_done) = Demo.d_done ∨
   op_id restored = "r" ∧ ∃ eid entry, operations Demo.d_done !! eid = Some entry ∧ kind entry = ENTER ∧
     op_epoch entry = epoch (hold Demo.d_done) ∧ op_status entry = SUCCEEDED ∧
     ∀ s : NodeStep, s ∈ steps_of eid Demo.d_done → ∃ snap, snapshot s = Some snap ∧
       accounting s = Some "resolved" ∧
       steps (Demo.result (restore Demo.config Demo.admin "r" 5 Demo.d_done)) !! ("r", node_id s) =
         Some (new_step (Some snap) (Some 5%Z) 5)).
Proof.
  apply (restore_needs_a_clean_entry Demo.config Demo.admin "r" 5 Demo.d_done restored).
  vm_compute. reflexivity.
Defined.
