(* ===== verification/Coordinator.v ===== *)
(** Carrying a maintenance entry out
    ([application/use_cases/maintenance_coordinator.py], [run_once] and the
    phases of an entry; the store of [infrastructure/maintenance_coordinator.py]).

    The coordinator is a program over two kinds of call: a transaction of
    [Maintenance], and a call to a node agent, which answers as it likes.  [prog]
    is that program, written with [let!] the way the source awaits; [next],
    [handle] and [close_entry] are the source's methods.  Any number of
    coordinators run any number of tasks, interleaved at every call, beside
    administrators and restores; a task keeps the step it last read while
    the tables move on.  The world keeps what each node was asked and answered, in
    order, so that what a row records can be held against it.  The phases of a
    restore are [Restoration]; here their writes are any writes to a restore's
    steps. *)

From S2P Require Export Maintenance.

Definition MAX_ATTEMPTS : Z := 5.
Definition SNAPSHOT_TRIES : Z := 3.
Definition FINAL_REFUSALS : list string := ["restart_failed"; "repairs_exhausted"; "unexpected_resident"].

(** [NodeControlError], less its message and body. *)
Record control_error := mk_error { err_status : option Z; refused : option string }.
Definition unconfirmed : control_error := mk_error None None.
Abbreviation answer := (sum control_error).

Inductive cexn : Type :=
  | Lost | Later | ControlError (e : control_error) | AssertionError | StoreError (e : mexn).

(** * Programs *)

Inductive prog (A : Type) : Type :=
  | Pure (a : A)
  | Throw (e : cexn)
  | Interrupt (epoch : Z) (k : answer dict → prog A)
  | Residency (k : answer (option (list json)) → prog A)
  | Reset_node (epoch : Z) (reset_id : string) (k : answer dict → prog A)
  | Token (k : string → prog A)
  | Store {X : Type} (m : Z → mtx X) (k : X → prog A).
Arguments Pure {A} a.
Arguments Throw {A} e.
Arguments Interrupt {A} epoch k.
Arguments Residency {A} k.
Arguments Reset_node {A} epoch reset_id k.
Arguments Token {A} k.
Arguments Store {A X} m k.

Fixpoint prog_then {A B} (f : A → prog B) (p : prog A) : prog B :=
  match p with
  | Pure a => f a
  | Throw e => Throw e
  | Interrupt e k => Interrupt e (λ x, prog_then f (k x))
  | Residency k => Residency (λ x, prog_then f (k x))
  | Reset_node e r k => Reset_node e r (λ x, prog_then f (k x))
  | Token k => Token (λ x, prog_then f (k x))
  | Store m k => Store m (λ x, prog_then f (k x))
  end.
#[export] Instance prog_bind : MBind prog := λ A B f p, prog_then f p.

Definition store {X} (m : Z → mtx X) : prog X := Store m Pure.

(** An error answer is raised. *)
Definition or_raise {A} (x : answer A) : prog A :=
  match x with inl e => Throw (ControlError e) | inr a => Pure a end.
Definition interrupt_node (epoch : Z) : prog dict := Interrupt epoch or_raise.
Definition residency : prog (option (list json)) := Residency or_raise.
Definition token_hex : prog string := Token Pure.

(** [str(x)].  The text of any other value is neither of the two the column it
    goes to accepts, which is all that is read of it. *)
Definition py_str (j : json) : string :=
  match j with
  | JStr s => s | JNull => "None" | JBool true => "True" | JBool false => "False" | _ => "?"
  end.

Definition with_interrupt (r : dict) : step_values := mk_values (Some r) None None None None None.
Definition with_snapshot (s : list dict) : step_values := mk_values None (Some s) None None None None.
Definition with_snapshot_error (e : string) : step_values := mk_values None None None None (Some e) None.
Definition with_reset (r : dict) : step_values :=
  mk_values None None (Some r) None None (Some (py_str (dict_get r "accounting"))).
Definition verified_empty : dict := [("resident", JArr []); ("fresh", JBool true)].
Definition with_verification (v : dict) : step_values := mk_values None None None (Some v) None None.

Section Coordinator.
Context (me : string).

(** [_advance]: write, then read the step back. *)
Definition advance_to (step : NodeStep) (p : StepPhase) (v : step_values) : prog NodeStep :=
  let! written := store (advance step me p v) in
  if (written : bool) then
    let! operation := store (λ _, get (operation_id step)) in
    match first_match (λ s : NodeStep, bool_decide (node_id s = node_id step))
            (from_option op_steps [] operation) with
    | Some s => Pure s
    | None => Throw Lost
    end
  else Throw Lost.

(** [_next] *)
Definition next (operation : MaintenanceOperation) (step : NodeStep) : prog NodeStep :=
  match phase step with
  | PENDING =>
      let! report := interrupt_node (op_epoch operation) in
      if negb (truthy (dict_get report "quiescent")) then Throw (ControlError unconfirmed)
      else advance_to step INTERRUPTED (with_interrupt report)
  | INTERRUPTED =>
      if snapshot_taken step then advance_to step SNAPSHOTTED no_values
      else
        let! resident := residency in
        match resident with
        | Some resident => advance_to step SNAPSHOTTED (with_snapshot (snapshot_of resident))
        | None =>
            if (attempts step + 1 <? SNAPSHOT_TRIES)%Z then Throw (ControlError unconfirmed)
            else advance_to step SNAPSHOTTED
              (with_snapshot_error "the runtime could not be observed before the reset; it cannot be restored automatically")
        end
  | SNAPSHOTTED =>
      let! reset_id :=
        match reset_id step with
        | Some id => Pure id
        | None =>
            let! id := token_hex in
            let! set := store (set_reset_id step me id) in
            if (set : bool) then Pure id else Throw Lost
        end in
      Reset_node (op_epoch operation) reset_id (λ x,
        match x with
        | inl e =>
            if bool_decide (refused e = Some "node_not_quiescent") then
              let! _ := advance_to step PENDING no_values in Throw Later
            else Throw (ControlError e)
        | inr report => advance_to step RESET (with_reset report)
        end)
  | RESET =>
      let! resident := residency in
      match resident with
      | None => Throw (ControlError unconfirmed)
      | Some [] => advance_to step VERIFIED (with_verification verified_empty)
      | Some _ => Throw (ControlError unconfirmed)
      end
  | LOADED | PROBED | VERIFIED => Throw AssertionError
  end.

(** [_failed]; the message is whatever the error says. *)
Definition failed (step : NodeStep) (error : string) (clear final : bool) : prog unit :=
  let! _ := store (attempt_failed step me error MAX_ATTEMPTS clear final) in Pure tt.

(** The [except] clauses of [_carry], where [step] is the step last read. *)
Definition handle (step : NodeStep) (error : string) (e : cexn) : prog unit :=
  match e with
  | Lost | Later => Pure tt
  | ControlError e =>
      failed step error (bool_decide (refused e = Some "restart_failed"))
        (from_option (λ r, bool_decide (r ∈ FINAL_REFUSALS)) false (refused e) || bool_decide (err_status e = Some 422%Z))
  | AssertionError | StoreError _ => Throw e
  end.

(** [_close], for an entry. *)
Definition close_entry (operation : MaintenanceOperation) : prog unit :=
  let failed := List.filter (λ s : NodeStep, bool_decide (step_status s = FAILED)) (op_steps operation) in
  match failed with
  | _ :: _ =>
      let! _ := store (finish (op_id operation) me OP_FAILED
        (Some (String.substring 0 2000 (String.concat "; " (failure_text <$> failed))))) in Pure tt
  | [] => let! _ := store (finish (op_id operation) me SUCCEEDED None) in Pure tt
  end.

(** [_abandon] *)
Definition abandon (operation : MaintenanceOperation) (reason : string) : prog unit :=
  let! _ := store (finish (op_id operation) me ABANDONED (Some reason)) in Pure tt.
End Coordinator.

(** * Tasks

    A pass that claimed an operation starts by reading the hold.  It then runs
    one [_carry] per running step and, when they are done, ends the operation. *)

Inductive task : Type :=
  | Starting (operation : MaintenanceOperation)
  | Carry (operation : MaintenanceOperation) (step : NodeStep) (p : prog NodeStep)
  | Ending (p : prog unit).

(** A call to a node agent and what it answered. *)
Inductive call : Type :=
  | CInterrupt (epoch : Z) (x : answer dict)
  | CResidency (x : answer (option (list json)))
  | CReset (epoch : Z) (reset_id : string) (x : answer dict).

(** One call of a program: a node answers anything, a transaction commits or
    raises at the database's clock. *)
Inductive prog_step {A} : mdb → prog A → option call → mdb → prog A → Prop :=
  | at_interrupt d e k x : prog_step d (Interrupt e k) (Some (CInterrupt e x)) d (k x)
  | at_residency d k x : prog_step d (Residency k) (Some (CResidency x)) d (k x)
  | at_reset d e r k x : prog_step d (Reset_node e r k) (Some (CReset e r x)) d (k x)
  | at_token d k x : prog_step d (Token k) None d (k x)
  | at_store d {X} (m : Z → mtx X) k now x d' :
      m now d = inr (x, d') → prog_step d (Store m k) None d' (k x)
  | at_store_error d {X} (m : Z → mtx X) k now e :
      m now d = inl e → prog_step d (Store m k) None d (Throw (StoreError e)).

(** What was said to the nodes: each call with the operation and the node of
    the step it was made for. *)
Abbreviation event := ((string * string) * call)%type.
Definition key (s : NodeStep) : string * string := (operation_id s, node_id s).
Definition said_of (s : NodeStep) (c : option call) : list event :=
  from_option (λ c, [(key s, c)]) [] c.

Definition running_steps (operation : MaintenanceOperation) : list NodeStep :=
  List.filter (λ s : NodeStep, bool_decide (step_status s = RUNNING)) (op_steps operation).

(** What [run_once] starts once it has read the hold: nothing for a restore,
    whose writes are among [other_step]. *)
Definition first_tasks (me : string) (operation : MaintenanceOperation) (h : MaintenanceState)
    : list task :=
  if negb (admission_closed h) || negb (epoch h =? op_epoch operation)%Z then
    [Ending (abandon me operation
       (if admission_closed h then "a later entry superseded this one"
        else "the hold was lifted before the entry finished"))]
  else if bool_decide (kind operation = RESTORE) then []
  else match running_steps operation with
  | [] => [Ending (close_entry me operation)]
  | running => (λ s, Carry operation s (next me operation s)) <$> running
  end.

(** A step of one task of coordinator [me]: [control_for] may find no agent, in
    which case the step fails for good. *)
Inductive task_step (me : string) : mdb → task → list event → mdb → list task → Prop :=
  | t_start d operation :
      task_step me d (Starting operation) [] d (first_tasks me operation (hold d))
  | t_call d operation step p c d' p' :
      prog_step d p c d' p' →
      task_step me d (Carry operation step p) (said_of step c) d' [Carry operation step p']
  | t_loop d operation step (step' : NodeStep) :
      step_status step' = RUNNING →
      task_step me d (Carry operation step (Pure step')) [] d
        [Carry operation step' (next me operation step')]
  | t_done d operation step (step' : NodeStep) :
      step_status step' ≠ RUNNING →
      task_step me d (Carry operation step (Pure step')) [] d []
  | t_raise d operation step e error :
      task_step me d (Carry operation step (Throw e)) [] d [Ending (handle me step error e)]
  | t_no_agent d operation step error :
      task_step me d (Carry operation step (next me operation step)) [] d
        [Ending (failed me step error false true)]
  | t_ending d p d' p' : prog_step d p None d' p' → task_step me d (Ending p) [] d' [Ending p']
  | t_ended d p : (p = Pure tt ∨ ∃ e, p = Throw e) → task_step me d (Ending p) [] d [].

(** The other writers.  An administrator's operations are those of
    [Maintenance]; a restore's coordinator may write anything to its own steps,
    end its operation and reopen the platform with it. *)
Inductive other_step : mdb → mdb → Prop :=
  | o_enter cfg a m at_ nodes id now d x d' :
      enter cfg a m at_ nodes id now d = inr (x, d') → other_step d d'
  | o_restore cfg a id now d x d' : restore cfg a id now d = inr (x, d') → other_step d d'
  | o_retry cfg a now d x d' : retry_operation cfg a now d = inr (x, d') → other_step d d'
  | o_reopen cfg a now d x d' : reopen cfg a now d = inr (x, d') → other_step d d'
  | o_message a m at_ rev now d x d' : set_message a m at_ rev now d = inr (x, d') → other_step d d'
  | o_renew id me lease now d x d' : renew id me lease now d = inr (x, d') → other_step d d'
  | o_restore_write id node me matches f o d x d' :
      operations d !! id = Some o → kind o = RESTORE → (∀ s, step_evolves s (f s)) →
      write_step id node me matches f d = inr (x, d') → other_step d d'
  | o_restore_finish id me st e now o d x d' :
      operations d !! id = Some o → kind o = RESTORE →
      finish id me st e now d = inr (x, d') → other_step d d'
  | o_reopen_after id me e now o d x d' :
      operations d !! id = Some o → kind o = RESTORE →
      reopen_after id me e now d = inr (x, d') → other_step d d'.

(** The database, the tasks in flight, each with its coordinator, and what the
    coordinators of entries have asked the nodes and heard, in order. *)
Record world := mk_world { db : mdb; tasks : list (string * task); said : list event }.

Inductive wstep : world → world → Prop :=
  | w_other d ts h d' : other_step d d' → wstep (mk_world d ts h) (mk_world d' ts h)
  | w_claim me lease locked now d ts h m d' :
      claim me lease locked now d = inr (Some m, d') →
      wstep (mk_world d ts h) (mk_world d' ((me, Starting m) :: ts) h)
  | w_gathered me id d ts h m :
      get id d = inr (Some m, d) → kind m = ENTER → running_steps m = [] →
      (owner m = None ∨ owner m = Some me) →
      wstep (mk_world d ts h) (mk_world d ((me, Ending (close_entry me m)) :: ts) h)
  | w_task me t d ts1 ts2 h new_events d' new :
      task_step me d t new_events d' new →
      wstep (mk_world d (ts1 ++ (me, t) :: ts2) h)
        (mk_world d' (ts1 ++ ((me,.) <$> new) ++ ts2) (h ++ new_events)).

(** Before anything was ever entered. *)
Definition initial (w : world) : Prop :=
  operations (db w) = ∅ ∧ steps (db w) = ∅ ∧ tasks w = [] ∧ said w = [].

(** * What was said to a node

    [h] is what was said, [k] the operation and the node of a step, [e] the
    operation's epoch.  Each answer comes after the one it stands on. *)

(** The node answered an interrupt at epoch [e] with [r]. *)
Definition interrupt_answered (h : list event) (k : string * string) (e : Z) (r : dict) : Prop :=
  (k, CInterrupt e (inr r)) ∈ h.

(** ... and said that it was quiescent. *)
Definition quieted (h : list event) (k : string * string) (e : Z) : Prop :=
  ∃ r, truthy (dict_get r "quiescent") = true ∧ interrupt_answered h k e r.

(** It was observed, once quiescent, and answered [x]. *)
Definition looked (h : list event) (k : string * string) (e : Z) (x : option (list json)) : Prop :=
  ∃ h1 h2, h = h1 ++ (k, CResidency (inr x)) :: h2 ∧ quieted h1 k e.

(** It reported a reset at epoch [e], asked after such an observation. *)
Definition reset_reported (h : list event) (k : string * string) (e : Z) (report : dict) : Prop :=
  ∃ h1 id h2 x, h = h1 ++ (k, CReset e id (inr report)) :: h2 ∧ looked h1 k e x.

(** It was observed empty, after such a report. *)
Definition seen_empty (h : list event) (k : string * string) (e : Z) : Prop :=
  ∃ h1 h2 report, h = h1 ++ (k, CResidency (inr (Some []))) :: h2 ∧ reset_reported h1 k e report.

(** * What the tables keep *)

(** The columns a phase of an entry stands on. *)
Definition reached (s : step_row) : Prop :=
  match phase s with
  | PENDING => True
  | INTERRUPTED => is_Some (interrupt s)
  | SNAPSHOTTED => is_Some (interrupt s) ∧ snapshot_taken s = true
  | RESET => is_Some (interrupt s) ∧ snapshot_taken s = true ∧ is_Some (reset s)
  | VERIFIED => is_Some (interrupt s) ∧ snapshot_taken s = true ∧ is_Some (reset s) ∧
      is_Some (verification s)
  | LOADED | PROBED => False
  end.

Record recorded (h : list event) (k : string * string) (e : Z) (s : step_row) : Prop := {
  rec_interrupt : ∀ r, interrupt s = Some r →
    truthy (dict_get r "quiescent") = true ∧ interrupt_answered h k e r;
  rec_snapshot : ∀ l, snapshot s = Some l →
    ∃ resident, l = snapshot_of resident ∧ looked h k e (Some resident);
  rec_snapshot_error : is_Some (snapshot_error s) → looked h k e None;
  rec_reset : ∀ r, reset s = Some r → reset_reported h k e r;
  rec_verification : ∀ v, verification s = Some v → v = verified_empty ∧ seen_empty h k e;
  rec_reached : reached s;
  rec_done : step_status s = DONE ↔ phase s = VERIFIED;
  rec_attempts : step_status s = RUNNING → (0 ≤ attempts s < MAX_ATTEMPTS)%Z
}.

Record ok (h : list event) (d : mdb) : Prop := {
  ok_owned : ∀ id n s, steps d !! (id, n) = Some s → is_Some (operations d !! id);
  ok_recorded : ∀ id o n s, operations d !! id = Some o → kind o = ENTER →
    steps d !! (id, n) = Some s → recorded h (id, n) (op_epoch o) s;
  ok_done : ∀ id o n s, operations d !! id = Some o → kind o = ENTER → op_status o = SUCCEEDED →
    steps d !! (id, n) = Some s → step_status s = DONE
}.

(** How the tables move while anyone holds a copy of a row. *)
Record advances (d d' : mdb) : Prop := {
  adv_evolves : evolves d d';
  adv_no_new : ∀ id n, is_Some (operations d !! id) → is_Some (steps d' !! (id, n)) →
    is_Some (steps d !! (id, n));
  adv_done : ∀ id o n s, operations d !! id = Some o → kind o = ENTER →
    steps d !! (id, n) = Some s → step_status s = DONE →
    ∃ s', steps d' !! (id, n) = Some s' ∧ step_status s' = DONE
}.

#[export] Instance advances_preorder : PreOrder advances.
Proof.
  split; [intros d; constructor; [done|auto|eauto]|].
  intros d1 d2 d3 [E1 N1 D1] [E2 N2 D2]. constructor; [by transitivity d2|..].
  - intros id n Ho Hs. apply N1; [done|]. apply N2; [|done].
    destruct Ho as [o Ho]. destruct (ev_operations _ _ E1 id o Ho) as (o'&->&_). eauto.
  - intros id o n s Ho Hk Hs Hd. destruct (D1 id o n s Ho Hk Hs Hd) as (s2&Hs2&Hd2).
    destruct (ev_operations _ _ E1 id o Ho) as (o2&Ho2&He). apply (D2 id o2 n s2); [done| |done..].
    by rewrite (oe_kind _ _ He).
Qed.

Section Tables.
Context (h : list event).
Abbreviation moves d d' := (ok h d' ∧ advances d d').

Lemma moves_trans d1 d2 d3 : moves d1 d2 → moves d2 d3 → moves d1 d3.
Proof. intros [_ H1] [H2 H3]. split; [done|by transitivity d2]. Qed.

Lemma ok_same_tables d hd : ok h d → ok h (set_hold hd d).
Proof. intros [? ? ?]. by constructor. Qed.

Lemma hold_moves d hd :
  ok h d → (epoch (hold d) ≤ epoch hd)%Z → (revision (hold d) ≤ revision hd)%Z → moves d (set_hold hd d).
Proof.
  intros Hok He Hr. split; [by apply ok_same_tables|]. constructor; [by apply evolves_hold|done|].
  intros id o n s _ _ Hs Hd. by exists s.
Qed.

Lemma step_moves d id n s s' :
  ok h d → steps d !! (id, n) = Some s → step_evolves s s' →
  (∀ o, operations d !! id = Some o → kind o = ENTER →
     recorded h (id, n) (op_epoch o) s' ∧ (step_status s = DONE → step_status s' = DONE)) →
  moves d (set_steps (<[(id, n) := s']> (steps d)) d).
Proof.
  intros [Hfk Hrec Hdone] Hs He Hnew. split; constructor; simpl.
  - intros i m x. destruct (decide ((id, n) = (i, m))) as [[= <- <-]|Hne]; [intros _; eauto|].
    rewrite lookup_insert_ne by done. eauto.
  - intros i o m x Ho Hk. destruct (decide ((id, n) = (i, m))) as [[= <- <-]|Hne].
    + rewrite lookup_insert_eq. intros [= <-]. exact (proj1 (Hnew _ Ho Hk)).
    + rewrite lookup_insert_ne by done. eauto.
  - intros i o m x Ho Hk Hsu. destruct (decide ((id, n) = (i, m))) as [[= <- <-]|Hne].
    + rewrite lookup_insert_eq. intros [= <-]. eapply Hnew; eauto.
    + rewrite lookup_insert_ne by done. eauto.
  - by eapply evolves_step.
  - intros i m _. destruct (decide ((id, n) = (i, m))) as [[= <- <-]|Hne]; [eauto|].
    by rewrite lookup_insert_ne.
  - intros i o m x Ho Hk Hx Hd. destruct (decide ((id, n) = (i, m))) as [[= <- <-]|Hne].
    + exists s'. rewrite lookup_insert_eq. split; [done|]. simplify_eq. eapply Hnew; eauto.
    + exists x. by rewrite lookup_insert_ne.
Qed.

Lemma operation_moves d id o o' :
  ok h d → operations d !! id = Some o → op_evolves o o' →
  (kind o = ENTER → op_status o' = SUCCEEDED →
     ∀ n s, steps d !! (id, n) = Some s → step_status s = DONE) →
  moves d (set_operations (<[id := o']> (operations d)) d).
Proof.
  intros [Hfk Hrec Hdone] Ho He Hnew. pose proof (oe_kind _ _ He) as Hkind. split; constructor; simpl.
  - intros i m x Hx. destruct (decide (id = i)) as [<-|Hne].
    + rewrite lookup_insert_eq. eauto.
    + rewrite lookup_insert_ne by done. eauto.
  - intros i p m x. destruct (decide (id = i)) as [<-|Hne].
    + rewrite lookup_insert_eq. intros [= <-]. rewrite Hkind, (oe_epoch _ _ He). eauto.
    + rewrite lookup_insert_ne by done. eauto.
  - intros i p m x. destruct (decide (id = i)) as [<-|Hne].
    + rewrite lookup_insert_eq. intros [= <-]. rewrite Hkind. eauto.
    + rewrite lookup_insert_ne by done. eauto.
  - by eapply evolves_operation.
  - auto.
  - intros i p m x _ _ Hx Hd. by exists x.
Qed.

(** ** Creating an operation *)

Lemma insert_steps_only id rows d x d' :
  insert_steps id rows d = inr (x, d') →
  hold d' = hold d ∧ ∀ k s, steps d' !! k = Some s → steps d !! k = Some s ∨ k.1 = id ∧ (k.2, s) ∈ rows.
Proof.
  revert d. induction rows as [|[n s] rows IH]; intros d H; simpl in H; inv_tx; [auto|].
  match goal with Hi : insert_step _ _ _ _ = _ |- _ => apply insert_step_inr in Hi as [Hn ->] end.
  match goal with Hi : insert_steps _ _ _ = _ |- _ => apply IH in Hi as [Hh Hall] end.
  split; [done|]. intros k s' Hk. destruct (Hall k s' Hk) as [Hk'|[Hid Hin]]; simpl in *; [|set_solver].
  destruct (decide ((id, n) = k)) as [<-|Hne].
  - rewrite lookup_insert_eq in Hk'. injection Hk' as <-. right. set_solver.
  - rewrite lookup_insert_ne in Hk' by done. by left.
Qed.

Lemma created_moves d id o rows x d' :
  ok h d → operations d !! id = None → op_status o ≠ SUCCEEDED →
  (kind o = ENTER → Forall (λ ns, recorded h (id, ns.1) (op_epoch o) ns.2) rows) →
  insert_steps id rows (set_operations (<[id := o]> (operations d)) d) = inr (x, d') → moves d d'.
Proof.
  intros [Hfk Hrec Hdone] Hn Hst Hrows Hi.
  pose proof (insert_steps_operations _ _ _ _ _ Hi) as Hops. simpl in Hops.
  pose proof (insert_steps_only _ _ _ _ _ Hi) as [_ Honly]. simpl in Honly.
  pose proof (insert_steps_lookup _ _ _ _ _ Hi) as [Hkeep _]. simpl in Hkeep.
  apply insert_steps_evolves in Hi.
  assert (∀ n s, steps d !! (id, n) = Some s → False) as Hnone.
  { intros n s Hs. destruct (Hfk _ _ _ Hs) as [o' Ho']. congruence. }
  split; constructor; rewrite ?Hops.
  - intros i n s Hs. destruct (decide (id = i)) as [<-|Hne]; [rewrite lookup_insert_eq; eauto|].
    rewrite lookup_insert_ne by done. destruct (Honly _ _ Hs) as [?|[? _]]; [eauto|by simpl in *; congruence].
  - intros i p n s. destruct (decide (id = i)) as [<-|Hne].
    + rewrite lookup_insert_eq. intros [= <-] Hk Hs. destruct (Honly _ _ Hs) as [Hs'|[_ Hin]].
      * by destruct (Hnone n s).
      * specialize (Hrows Hk). rewrite Forall_forall in Hrows. by apply (Hrows _ Hin).
    + rewrite lookup_insert_ne by done. intros Hp Hk Hs.
      destruct (Honly _ _ Hs) as [Hs'|[? _]]; [eauto|by simpl in *; congruence].
  - intros i p n s. destruct (decide (id = i)) as [<-|Hne].
    + rewrite lookup_insert_eq. by intros [= <-] _ ?.
    + rewrite lookup_insert_ne by done. intros Hp Hk Hsu Hs.
      destruct (Honly _ _ Hs) as [Hs'|[? _]]; [eauto|by simpl in *; congruence].
  - etransitivity; [by apply (evolves_new_operation d id o)|done].
  - intros i n [p Hp] [s Hs]. destruct (Honly _ _ Hs) as [Hs'|[Hi' _]]; [by exists s|].
    simpl in Hi'. congruence.
  - intros i p n s _ _ Hs Hd. exists s. split; [by apply Hkeep|done].
Qed.

Lemma new_step_recorded k e now : recorded h k e (new_step None None now).
Proof. by constructor; try by intros [? ?]. Qed.

(** ** The other writers *)

Lemma create_entry_moves id e by_ nodes now d x d' :
  ok h d → create_entry id e by_ nodes now d = inr (x, d') → moves d d'.
Proof.
  intros Hok H. unfold create_entry in H. inv_tx.
  match goal with Hi : insert_operation _ _ _ = _ |- _ => apply insert_operation_inr in Hi as [Hn ->] end.
  match goal with Hf : found _ _ = _ |- _ => apply found_inr in Hf as [-> _] end.
  match goal with Hi : insert_steps _ _ _ = _ |- _ =>
    apply (created_moves d id _ _ _ _ Hok Hn) in Hi; [exact Hi|done|] end.
  intros _. apply Forall_forall. intros [n s] (n'&[= -> ->]&_)%list_elem_of_fmap. apply new_step_recorded.
Qed.

Lemma create_restore_moves id e by_ snaps now d x d' :
  ok h d → create_restore id e by_ snaps now d = inr (x, d') → moves d d'.
Proof.
  intros Hok H. unfold create_restore in H. inv_tx.
  match goal with Hi : insert_operation _ _ _ = _ |- _ => apply insert_operation_inr in Hi as [Hn ->] end.
  match goal with Hf : found _ _ = _ |- _ => apply found_inr in Hf as [-> _] end.
  match goal with Hi : insert_steps _ _ _ = _ |- _ =>
    by apply (created_moves d id _ _ _ _ Hok Hn) in Hi end.
Qed.

Lemma change_moves cond f now d x d' :
  (∀ h, (epoch h ≤ epoch (f h))%Z) → ok h d → change cond f now d = inr (x, d') → moves d d'.
Proof.
  intros Hf Hok H. unfold change in H. inv_tx. destruct (cond _); inv_tx; [|done].
  apply hold_moves; simpl; [done|apply Hf|lia].
Qed.

Lemma enter_moves cfg a m at_ nodes id now d x d' :
  ok h d → enter cfg a m at_ nodes id now d = inr (x, d') → moves d d'.
Proof.
  intros Hok H. unfold enter in H. inv_tx. inv_admin.
  destruct (enabled cfg); inv_tx. destruct (_ || _); inv_tx. destruct (existsb direct nodes); inv_tx.
  match goal with Hc : close _ _ _ _ _ = inr (?o, _) |- _ =>
    apply change_moves in Hc as [Hok1 Ha1]; [|simpl; lia|done]; destruct o end.
  - inv_tx.
    match goal with Hf : create_entry _ _ _ _ _ _ = _ |- _ => apply create_entry_moves in Hf as [? ?]; [|done] end.
    split; [done|by etransitivity].
  - by inv_admin.
Qed.

Lemma restore_moves cfg a id now d x d' : ok h d → restore cfg a id now d = inr (x, d') → moves d d'.
Proof.
  intros Hok H. unfold restore in H. inv_tx. inv_admin. destruct (_ || _); inv_tx. inv_admin.
  match goal with Hx : match ?o with Some _ => _ | None => _ end _ = _ |- _ => destruct o end.
  - case_bool_decide; by inv_tx.
  - inv_tx. inv_admin.
    match goal with Hx : match ?o with Some _ => _ | None => _ end _ = _ |- _ => destruct o end; inv_tx.
    case_bool_decide; inv_tx. destruct (existsb _ _); inv_tx.
    match goal with Hx : (if ?b then _ else _) _ = _ |- _ => destruct b end; inv_tx.
    by eapply create_restore_moves.
Qed.

Lemma retry_failed_step_recorded k e now s :
  recorded h k e s → step_status s = FAILED → recorded h k e (retry_failed_step now s).
Proof.
  intros [? ? ? ? ? Hr Hd _] Hf. constructor; simpl; [done..| |done]. split; [done|]. intros Hp.
  apply Hd in Hp. congruence.
Qed.

Lemma retry_moves id now d x d' : ok h d → retry id now d = inr (x, d') → moves d d'.
Proof.
  intros [Hfk Hrec Hdone] H. pose proof (retry_evolves _ _ _ _ _ H) as Hev.
  apply retry_inr in H as [[_ ->]|(_&o&Ho&Hst&Hops&_&Hsteps)]; [done|].
  assert (∀ k s', steps d' !! k = Some s' → ∃ s, steps d !! k = Some s ∧
    s' = if bool_decide (k.1 = id) && bool_decide (step_status s = FAILED) then retry_failed_step now s else s)
    as Hback.
  { intros k s' Hk. rewrite (Hsteps k) in Hk. destruct (steps d !! k) as [s|]; [|done].
    exists s. split; [done|]. by injection Hk. }
  split; constructor; rewrite ?Hops.
  - intros i n s (s0&Hs0&_)%Hback. destruct (Hfk _ _ _ Hs0) as [p Hp].
    destruct (decide (id = i)) as [<-|Hne]; [rewrite lookup_insert_eq; eauto|].
    rewrite lookup_insert_ne by done. eauto.
  - intros i p n s Hp Hk (s0&Hs0&->)%Hback. simpl.
    assert (recorded h (i, n) (op_epoch p) s0) as Hr.
    { destruct (decide (id = i)) as [<-|Hne].
      - rewrite lookup_insert_eq in Hp. injection Hp as <-. exact (Hrec _ _ _ _ Ho Hk Hs0).
      - rewrite lookup_insert_ne in Hp by done. eauto. }
    destruct (bool_decide (i = id) && _) eqn:Hc; [|done]. unbool. by apply retry_failed_step_recorded.
  - intros i p n s Hp Hk Hsu (s0&Hs0&->)%Hback. simpl.
    destruct (decide (id = i)) as [<-|Hne].
    + rewrite lookup_insert_eq in Hp. injection Hp as <-. done.
    + rewrite lookup_insert_ne in Hp by done. rewrite bool_decide_false by done. eauto.
  - done.
  - intros i n _ [s' (s&Hs&_)%Hback]. by exists s.
  - intros i p n s Hp Hk Hs Hd. rewrite (Hsteps _), Hs. eexists. split; [done|].
    by rewrite Hd, (bool_decide_false (DONE = FAILED)), andb_false_r.
Qed.

Lemma retry_operation_moves cfg a now d x d' :
  ok h d → retry_operation cfg a now d = inr (x, d') → moves d d'.
Proof.
  intros Hok H. unfold retry_operation in H. inv_tx. inv_admin.
  destruct (has_operations cfg); simpl in *; inv_tx. inv_admin.
  match goal with Hx : match ?o with Some _ => _ | None => _ end _ = _ |- _ => destruct o end; inv_tx.
  case_bool_decide; inv_tx. inv_admin. destruct (_ || _); inv_tx.
  match goal with Hx : retry _ _ _ = inr (?b, _), Hy : (if ?b then _ else _) _ = _ |- _ =>
    apply retry_moves in Hx; [destruct b; inv_tx|done] end.
  by inv_admin.
Qed.

Lemma abandon_running_moves reason now d x d' :
  ok h d → abandon_running reason now d = inr (x, d') → moves d d'.
Proof.
  intros [Hfk Hrec Hdone] H. pose proof (abandon_running_evolves _ _ _ _ _ H) as Hev.
  apply abandon_running_inr in H as ->. split; constructor; simpl.
  - intros i n s Hs. destruct (Hfk _ _ _ Hs) as [o Ho]. rewrite lookup_fmap, Ho. by eexists.
  - intros i o n s. rewrite lookup_fmap. destruct (operations d !! i) as [o'|] eqn:Ho; [|done].
    intros [= <-]. intros Hk Hs. case_bool_decide; by apply (Hrec i o' n s Ho).
  - intros i o n s. rewrite lookup_fmap. destruct (operations d !! i) as [o'|] eqn:Ho; [|done].
    intros [= <-]. case_bool_decide; simpl; [done|]. eauto.
  - done.
  - auto.
  - intros i o n s _ _ Hs Hd. by exists s.
Qed.

Lemma reopen_moves cfg a now d x d' : ok h d → reopen cfg a now d = inr (x, d') → moves d d'.
Proof.
  intros Hok H. unfold reopen in H. inv_tx. inv_admin.
  match goal with Hx : reopen_hold _ _ _ = inr (?o, _) |- _ =>
    apply change_moves in Hx as [Hok1 Ha1]; [|simpl; lia|done]; destruct o end.
  - inv_tx. destruct (has_operations cfg); inv_tx; [|done].
    match goal with Hx : abandon_running _ _ _ = _ |- _ => apply abandon_running_moves in Hx as [? ?]; [|done] end.
    split; [done|by etransitivity].
  - by inv_admin.
Qed.

Lemma set_message_moves a m at_ rev now d x d' : ok h d → set_message a m at_ rev now d = inr (x, d') → moves d d'.
Proof.
  intros Hok H. unfold set_message in H. inv_tx. inv_admin.
  match goal with Hx : set_message_row _ _ _ _ _ _ = inr (?o, _) |- _ =>
    apply change_moves in Hx; [destruct o; by inv_tx|simpl; lia|done] end.
Qed.

Lemma claim_moves me lease locked now d x d' :
  ok h d → claim me lease locked now d = inr (x, d') → moves d d'.
Proof.
  intros Hok [(_&->&_)|(id&o&Ho&Hc&_&->&_)]%claim_inr; [done|].
  unfold claimable in Hc. unbool. simpl in *. eapply operation_moves; [done..| |].
  - by apply set_lease_evolves.
  - simpl. congruence.
Qed.

Lemma renew_moves id me lease now d x d' : ok h d → renew id me lease now d = inr (x, d') → moves d d'.
Proof.
  intros Hok H. unfold renew in H. inv_tx. destruct (operations _ !! id) as [o|] eqn:Ho; inv_tx; [|done].
  destruct (fenced _ _ _) eqn:Hf; inv_tx; [|done]. apply fenced_spec in Hf as (o'&Ho'&_&Hr).
  simplify_eq. eapply operation_moves; [done..| |].
  - constructor; try done. intros [?|?]; congruence.
  - simpl. congruence.
Qed.

(** Ending an operation: as succeeded only once every step of an entry is done. *)
Lemma finish_moves id me st e now d x d' :
  ok h d →
  (∀ o, operations d !! id = Some o → kind o = ENTER → st = SUCCEEDED →
     ∀ n s, steps d !! (id, n) = Some s → step_status s = DONE) →
  finish id me st e now d = inr (x, d') → moves d d'.
Proof.
  intros Hok Hst [[_ ->]|(_&o&Ho&_&Hr&->)]%finish_inr; [done|].
  eapply operation_moves; [done..| |].
  - by apply ended_evolves.
  - simpl. eauto.
Qed.

(** A write to a step of an entry keeps the record when its function does. *)
Lemma write_step_moves id n me matches f d x d' :
  ok h d → (∀ s, step_evolves s (f s)) →
  (∀ o s, operations d !! id = Some o → kind o = ENTER → steps d !! (id, n) = Some s → matches s = true →
     recorded h (id, n) (op_epoch o) s → recorded h (id, n) (op_epoch o) (f s) ∧ (step_status s = DONE → step_status (f s) = DONE)) →
  write_step id n me matches f d = inr (x, d') → moves d d'.
Proof.
  intros Hok Hev Hf [[_ ->]|(s&Hs&Hm&_&_&->)]%write_step_inr; [done|].
  eapply step_moves; [done..|]. intros o Ho Hk. eapply Hf; eauto. by eapply ok_recorded.
Qed.

Lemma other_step_moves d d' : ok h d → other_step d d' → moves d d'.
Proof.
  intros Hok. destruct 1 as [? ? ? ? ? ? ? ? ? ? H|? ? ? ? ? ? ? H|? ? ? ? ? ? H|? ? ? ? ? ? H|? ? ? ? ? ? ? ? H
    |? ? ? ? ? ? ? H|? ? ? ? ? ? ? ? ? Ho Hk Hf H|? ? ? ? ? ? ? ? ? Ho Hk H|? ? ? ? ? ? ? ? Ho Hk H].
  - by eapply enter_moves.
  - by eapply restore_moves.
  - by eapply retry_operation_moves.
  - by eapply reopen_moves.
  - by eapply set_message_moves.
  - by eapply renew_moves.
  - eapply write_step_moves; [done..| |done]. intros o' s Ho'. congruence.
  - eapply finish_moves; [done| |done]. intros o' Ho'. congruence.
  - apply reopen_after_inr in H as [[_ ->]|(_&o'&hd&Ho'&_&Hr&_&He&_&->&Hh&Hrev)]; [done|].
    rewrite Ho in Ho'. injection Ho' as <-. eapply moves_trans.
    + eapply operation_moves; [done..|by apply ended_evolves|congruence].
    + apply hold_moves; simpl; [|lia..].
      eapply operation_moves; [done..|by apply ended_evolves|congruence].
Qed.
End Tables.

Abbreviation moves h d d' := (ok h d' ∧ advances d d').

(** * Programs that keep the record

    [good sc Q h d p]: run from any later state of the database and of what was
    said, with anyone else's transactions and calls in between, every transaction
    of [p] keeps the record, and what it returns satisfies [Q] then.  [sc] is the
    step its calls are made for. *)

Section Programs.
Context (sc : string * string).

Fixpoint good {A} (Q : list event → mdb → A → Prop) (h : list event) (d : mdb) (p : prog A) : Prop :=
  match p with
  | Pure a => Q h d a
  | Throw _ => True
  | Interrupt e k => ∀ x h1, h `prefix_of` h1 → good Q (h1 ++ [(sc, CInterrupt e x)]) d (k x)
  | Residency k => ∀ x h1, h `prefix_of` h1 → good Q (h1 ++ [(sc, CResidency x)]) d (k x)
  | Reset_node e r k => ∀ x h1, h `prefix_of` h1 → good Q (h1 ++ [(sc, CReset e r x)]) d (k x)
  | Token k => ∀ x, good Q h d (k x)
  | Store m k => ∀ h1 d1 now x d2, h `prefix_of` h1 → advances d d1 → ok h1 d1 →
      m now d1 = inr (x, d2) → moves h1 d1 d2 ∧ good Q h1 d2 (k x)
  end.

Definition persistent {A} (Q : list event → mdb → A → Prop) : Prop :=
  ∀ h h' d d' a, h `prefix_of` h' → advances d d' → Q h d a → Q h' d' a.

Lemma good_later {A} (Q : list event → mdb → A → Prop) h h' d d' p :
  persistent Q → h `prefix_of` h' → advances d d' → good Q h d p → good Q h' d' p.
Proof.
  intros HQ Hh Hd. revert h h' Hh.
  induction p as [a|e|e k IH|k IH|e r k IH|k IH|X m k IH]; simpl; intros h h' Hh; eauto.
  - intros H x h1 Hh1. apply (IH x (h1 ++ [(sc, CInterrupt e x)])); [done|]. apply H. by etrans.
  - intros H x h1 Hh1. apply (IH x (h1 ++ [(sc, CResidency x)])); [done|]. apply H. by etrans.
  - intros H x h1 Hh1. apply (IH x (h1 ++ [(sc, CReset e r x)])); [done|]. apply H. by etrans.
  - intros H h1 d1 now x d2 Hh1 H1 H2 H3.
    apply (H h1 d1 now x d2); [by etrans|by transitivity d'|done..].
Qed.

Lemma good_then {A B} (Q : list event → mdb → A → Prop) (R : list event → mdb → B → Prop) h d p
    (f : A → prog B) :
  good Q h d p →
  (∀ h' d' a, h `prefix_of` h' → advances d d' → Q h' d' a → good R h' d' (f a)) →
  good R h d (prog_then f p).
Proof.
  revert h d. induction p as [a|e|e k IH|k IH|e r k IH|k IH|X m k IH]; simpl; intros h d Hp Hf; eauto.
  - by apply Hf.
  - intros x h1 Hh. eapply IH; [by apply Hp|]. intros h' d' a Hh'. apply Hf.
    etrans; [exact Hh|]. etrans; [by eexists|exact Hh'].
  - intros x h1 Hh. eapply IH; [by apply Hp|]. intros h' d' a Hh'. apply Hf.
    etrans; [exact Hh|]. etrans; [by eexists|exact Hh'].
  - intros x h1 Hh. eapply IH; [by apply Hp|]. intros h' d' a Hh'. apply Hf.
    etrans; [exact Hh|]. etrans; [by eexists|exact Hh'].
  - intros h1 d1 now x d2 H0 H1 H2 H3. destruct (Hp h1 d1 now x d2 H0 H1 H2 H3) as [[? Hm] ?].
    split; [done|]. apply (IH x); [done|]. intros h' d' a Hh' Hd. apply Hf; [by etrans|].
    transitivity d1; [done|]. by transitivity d2.
Qed.

(** A transaction that writes, whatever it answers. *)
Lemma good_write {X A} (Q : list event → mdb → A → Prop) h d (m : Z → mtx X) (a : A) :
  (∀ h1 d1 now x d2, advances d d1 → ok h1 d1 → m now d1 = inr (x, d2) → moves h1 d1 d2) →
  (∀ h' d', Q h' d' a) → good Q h d (let! _ := store m in Pure a).
Proof. simpl. intros Hm HQ h1 d1 now x d2 H0 H1 H2 H3. split; [by eapply Hm|done]. Qed.
End Programs.

(** ** What was said is never taken back *)

Lemma quieted_later h h' k e : h `prefix_of` h' → quieted h k e → quieted h' k e.
Proof. intros Hh (r&Hq&Hr). exists r. split; [done|]. by eapply elem_of_prefix. Qed.

Lemma looked_later h h' k e x : h `prefix_of` h' → looked h k e x → looked h' k e x.
Proof. intros [l ->] (h1&h2&->&Hq). exists h1, (h2 ++ l). by rewrite <- app_assoc. Qed.

Lemma reset_later h h' k e r : h `prefix_of` h' → reset_reported h k e r → reset_reported h' k e r.
Proof.
  intros [l ->] (h1&id&h2&x&->&Hl). exists h1, id, (h2 ++ l), x. by rewrite <- app_assoc.
Qed.

Lemma empty_later h h' k e : h `prefix_of` h' → seen_empty h k e → seen_empty h' k e.
Proof.
  intros [l ->] (h1&h2&r&->&Hr). exists h1, (h2 ++ l), r. by rewrite <- app_assoc.
Qed.

Lemma recorded_later h h' k e s : h `prefix_of` h' → recorded h k e s → recorded h' k e s.
Proof.
  intros Hh [H1 H2 H3 H4 H5 ? ? ?]. constructor; try done.
  - intros r [? ?]%H1. split; [done|]. by eapply elem_of_prefix.
  - intros l (x&?&?)%H2. exists x. eauto using looked_later.
  - eauto using looked_later.
  - eauto using reset_later.
  - intros v [? ?]%H5. eauto using empty_later.
Qed.

Lemma ok_later h h' d : h `prefix_of` h' → ok h d → ok h' d.
Proof. intros Hh [? Hr ?]. constructor; [done| |done]. eauto using recorded_later. Qed.

(** ** A copy of a step *)

(** [s] is a step of the entry of epoch [e] as the tables had it at some time
    before [d]. *)
Definition copy (e : Z) (h : list event) (d : mdb) (s : NodeStep) : Prop :=
  recorded h (key s) e s ∧ ∃ s1 o, steps d !! key s = Some s1 ∧ step_evolves s s1 ∧
    operations d !! operation_id s = Some o ∧ kind o = ENTER ∧ op_epoch o = e.

Lemma copy_persistent e : persistent (copy e).
Proof.
  intros h h' d d' s Hh Hd [Hr (s1&o&Hs1&He&Ho&Hk&Hep)]. split; [by eapply recorded_later|].
  destruct (ev_steps _ _ (adv_evolves _ _ Hd) _ _ Hs1) as (s2&Hs2&He2).
  destruct (ev_operations _ _ (adv_evolves _ _ Hd) _ _ Ho) as (o2&Ho2&Heo).
  exists s2, o2. split_and!; [done|by transitivity s1|done|..].
  - by rewrite (oe_kind _ _ Heo).
  - by rewrite (oe_epoch _ _ Heo).
Qed.

Lemma elem_of_steps_of (s : NodeStep) id d :
  s ∈ steps_of id d ↔ operation_id s = id ∧ steps d !! (id, node_id s) = Some (row s).
Proof.
  unfold steps_of. rewrite elem_of_py_sorted, list_elem_of_omap. split.
  - intros ([[i n] r]&Hin&Hs). simpl in Hs. case_bool_decide as Hi; [|done]. injection Hs as <-.
    simpl. subst. by apply elem_of_map_to_list in Hin.
  - destruct s as [i n r]. simpl. intros [-> Hs]. exists ((id, n), r). simpl.
    rewrite bool_decide_true by done. split; [by apply elem_of_map_to_list|done].
Qed.

Lemma current_copy h d id o (s : NodeStep) :
  ok h d → operations d !! id = Some o → kind o = ENTER → s ∈ steps_of id d → copy (op_epoch o) h d s.
Proof.
  intros Hok Ho Hk [Hid Hs]%elem_of_steps_of. subst. split; [by eapply ok_recorded|].
  exists (row s), o. by split_and!.
Qed.

(** Another copy of the same step. *)
Definition recopy (e : Z) (step : NodeStep) (h : list event) (d : mdb) (s : NodeStep) : Prop :=
  copy e h d s ∧ key s = key step.

Lemma recopy_persistent e step : persistent (recopy e step).
Proof. intros h h' d d' s Hh Hd [Hc Hk]. split; [by eapply copy_persistent|done]. Qed.

Section Next.
Context (me : string) (ep : Z).

(** [_advance] writes over whatever the row has become since it was read. *)
Lemma good_advance_to h d (step : NodeStep) p v :
  copy ep h d step →
  (∀ h1 now s1, h `prefix_of` h1 → step_evolves step s1 → recorded h1 (key step) ep s1 →
     step_status s1 = RUNNING → recorded h1 (key step) ep (advanced p v now s1)) →
  good (key step) (recopy ep step) h d (advance_to me step p v).
Proof.
  intros Hc Hnew. unfold advance_to. simpl. intros h1 d1 now x d2 Hh1 Hd1 Hok1 Hadv.
  destruct (copy_persistent _ _ _ _ _ _ Hh1 Hd1 Hc) as [_ (s0&o&Hs0&He0&Ho&Hk&Hep)].
  apply advance_inr in Hadv as [[-> ->]|(s1&Hs1&Hrun&_&->&_&->)]; [by split|].
  unfold key in Hs0. rewrite Hs0 in Hs1. injection Hs1 as <-.
  assert (recorded h1 (key step) ep s0) as Hr0 by (rewrite <- Hep; by eapply ok_recorded).
  split.
  - eapply step_moves; [done..|apply advanced_evolves|]. intros o' Ho' _. split; [|congruence].
    rewrite Ho in Ho'. injection Ho' as <-. rewrite Hep. by apply Hnew.
  - simpl. intros h3 d3 now3 x3 d4 Hh3 Hd3 Hok3 Hget. unfold get in Hget. apply tx_gets_inr in Hget as [-> ->].
    split; [done|]. destruct (operations d3 !! operation_id step) as [o3|] eqn:Ho3; simpl; [|done].
    destruct (first_match _ _) as [s|] eqn:Hm; simpl; [|done].
    apply first_match_Some in Hm as (l1&l2&Hl&Hn&_). apply bool_decide_eq_true in Hn.
    assert (s ∈ steps_of (operation_id step) d3) as Hin by (rewrite Hl; set_solver).
    destruct (ev_operations _ _ (adv_evolves _ _ Hd3) (operation_id step) o) as (o'&Ho'&Heo); [done|].
    rewrite Ho3 in Ho'. injection Ho' as <-. split.
    + rewrite <- Hep, <- (oe_epoch _ _ Heo). eapply current_copy; [done..| |exact Hin].
      by rewrite (oe_kind _ _ Heo).
    + unfold key. apply elem_of_steps_of in Hin as [-> _]. by rewrite Hn.
Qed.

Lemma coalesce_inv {A} (v c : option A) x : coalesce v c = Some x → v = Some x ∨ c = Some x.
Proof. destruct v; simpl; auto. Qed.

(** What is written is what was said. *)
Record backed (h : list event) (k : string * string) (v : step_values) : Prop := {
  bk_interrupt : ∀ r, v_interrupt v = Some r →
    truthy (dict_get r "quiescent") = true ∧ interrupt_answered h k ep r;
  bk_snapshot : ∀ l, v_snapshot v = Some l →
    ∃ resident, l = snapshot_of resident ∧ looked h k ep (Some resident);
  bk_snapshot_error : is_Some (v_snapshot_error v) → looked h k ep None;
  bk_reset : ∀ r, v_reset v = Some r → reset_reported h k ep r;
  bk_verification : ∀ r, v_verification v = Some r → r = verified_empty ∧ seen_empty h k ep
}.

Lemma backed_later h h' k v : h `prefix_of` h' → backed h k v → backed h' k v.
Proof.
  intros Hh [H1 H2 H3 H4 H5]. constructor.
  - intros r [? ?]%H1. split; [done|]. by eapply elem_of_prefix.
  - intros l (x&?&?)%H2. exists x. eauto using looked_later.
  - eauto using looked_later.
  - eauto using reset_later.
  - intros r [? ?]%H5. eauto using empty_later.
Qed.

Lemma backed_nothing h k : backed h k no_values.
Proof. constructor; try done. by intros [? ?]. Qed.

(** The record after an [_advance] that reaches [p] with what [p] needs. *)
Lemma advanced_recorded h k p v now s1 :
  backed h k v → recorded h k ep s1 → step_status s1 = RUNNING →
  reached (advanced p v now s1) → recorded h k ep (advanced p v now s1).
Proof.
  intros [V1 V2 V3 V4 V5] [H1 H2 H3 H4 H5 _ _ Ha] Hrun Hr. constructor; [..|done| |]; simpl.
  - intros r Hc. apply coalesce_inv in Hc as [Hc|Hc]; eauto.
  - intros l. destruct (snapshot_taken s1); simpl; eauto.
  - destruct (snapshot_taken s1); simpl; eauto.
  - intros r Hc. apply coalesce_inv in Hc as [Hc|Hc]; eauto.
  - intros r Hc. apply coalesce_inv in Hc as [Hc|Hc]; eauto.
  - rewrite Hrun. case_bool_decide; naive_solver.
  - intros _. specialize (Ha Hrun). unfold MAX_ATTEMPTS in *. destruct (bool_decide _); lia.
Qed.

Lemma evolves_taken s s1 : step_evolves s s1 → snapshot_taken s = true → snapshot_taken s1 = true.
Proof. intros [Hs _ _ _] Ht. destruct (Hs Ht) as (H1&H2&_). by rewrite (taken_same s s1). Qed.

Lemma advanced_taken p v now s : snapshot_taken s = true → snapshot_taken (advanced p v now s) = true.
Proof. intros Ht. unfold snapshot_taken at 1. simpl. rewrite Ht. exact Ht. Qed.

Lemma advanced_snapshot p v now s :
  is_Some (v_snapshot v) ∨ is_Some (v_snapshot_error v) → snapshot_taken (advanced p v now s) = true.
Proof.
  intros Hv. destruct (snapshot_taken s) eqn:Ht; [by apply advanced_taken|].
  unfold snapshot_taken at 1. simpl. rewrite Ht. simpl. apply orb_true_iff.
  by rewrite !bool_decide_eq_true.
Qed.

Lemma good_reach h d (step : NodeStep) p v :
  copy ep h d step → backed h (key step) v →
  (∀ now s1, step_evolves step s1 → reached (advanced p v now s1)) →
  good (key step) (recopy ep step) h d (advance_to me step p v).
Proof.
  intros Hc Hv Hr. apply good_advance_to; [done|]. intros h1 now s1 Hh He Hr1 Hrun.
  apply advanced_recorded; [by eapply backed_later|done..|by apply Hr].
Qed.

(** The last answer heard comes after all that was said before. *)
Lemma heard (h h1 c : list event) : h `prefix_of` h1 → h `prefix_of` h1 ++ c.
Proof. intros Hh. etrans; [exact Hh|by eexists]. Qed.

Lemma copy_heard (h h1 c : list event) d s : h `prefix_of` h1 → copy ep h d s → copy ep (h1 ++ c) d s.
Proof. intros Hh. apply copy_persistent; [by apply heard|done]. Qed.

Lemma copy_quieted h d (s : NodeStep) : copy ep h d s → is_Some (interrupt s) → quieted h (key s) ep.
Proof. intros [Hr _] [r Hi]. destruct (rec_interrupt _ _ _ _ Hr r Hi) as [? ?]. by exists r. Qed.

Lemma looks h k x : quieted h k ep → looked (h ++ [(k, CResidency (inr x))]) k ep x.
Proof. intros Hq. by exists h, []. Qed.

Lemma copy_looked h d (s : NodeStep) :
  copy ep h d s → snapshot_taken s = true → ∃ x, looked h (key s) ep x.
Proof.
  intros [Hr _] Ht. unfold snapshot_taken in Ht.
  apply orb_true_iff in Ht as [[l Hl]%bool_decide_eq_true|He%bool_decide_eq_true].
  - destruct (rec_snapshot _ _ _ _ Hr l Hl) as (x&_&?). by eexists.
  - eexists. by apply (rec_snapshot_error _ _ _ _ Hr).
Qed.

Lemma good_next h d (operation : MaintenanceOperation) (step : NodeStep) :
  op_epoch operation = ep → copy ep h d step →
  good (key step) (recopy ep step) h d (next me operation step).
Proof.
  intros He Hc. pose proof Hc as [[_ _ _ _ _ Hreach _ _] _]. unfold next. unfold reached in Hreach.
  destruct (phase step) eqn:Hp; try done.
  - intros [e|report] h1 Hh; [done|]. simpl. destruct (truthy _) eqn:Hq; [|done]. simpl.
    apply good_reach; [by eapply copy_heard| |].
    + constructor; try done; [|by intros [? ?]]. intros r [= <-]. split; [done|].
      unfold interrupt_answered. rewrite He. set_solver.
    + intros now s1 _. by eexists.
  - destruct (snapshot_taken step) eqn:Ht.
    + apply good_reach; [done|apply backed_nothing|]. intros now s1 Hev.
      split; [by apply coalesce_is_Some, (se_interrupt _ _ Hev)|].
      by apply advanced_taken, (evolves_taken step).
    + intros [e|[resident|]] h1 Hh; simpl; [done|..].
      all: assert (quieted h1 (key step) ep) as Hqt
        by (eapply quieted_later; [exact Hh|by eapply copy_quieted]).
      * apply good_reach; [by eapply copy_heard| |].
        -- constructor; try done; [|by intros [? ?]]. intros l [= <-]. exists resident.
           split; [done|]. by apply looks.
        -- intros now s1 Hev. split; [by apply coalesce_is_Some, (se_interrupt _ _ Hev)|].
           apply advanced_snapshot. left. by eexists.
      * destruct (_ <? _)%Z; [done|]. apply good_reach; [by eapply copy_heard| |].
        -- constructor; try done. intros _. by apply looks.
        -- intros now s1 Hev. split; [by apply coalesce_is_Some, (se_interrupt _ _ Hev)|].
           apply advanced_snapshot. right. by eexists.
  - destruct Hreach as [Hi Ht].
    apply (good_then _ (λ h d _, copy ep h d step)).
    + destruct (reset_id step) as [id|]; [done|]. simpl. intros id h1 d1 now x d2 Hh1 Hd1 Hok1 H.
      unfold set_reset_id in H. inv_tx.
      match goal with Hw : write_step _ _ _ _ _ _ = _ |- _ =>
        eapply write_step_moves in Hw as [Hok2 Hmv]; [|exact Hok1|apply with_reset_id_evolves|] end.
      * split; [done|]. case_bool_decide; simpl; [|done].
        eapply copy_persistent; [..|exact Hc]; [done|]. by transitivity d1.
      * intros o s _ _ _ _ [? ? ? ? ? ? ? ?]. split; [by constructor|done].
    + intros h' d' id Hh Hd Hc'. simpl. intros [e|report] h1 Hh1.
      * case_bool_decide; [|done]. apply (good_then _ (recopy ep step)); [|done].
        apply good_reach; [by eapply copy_heard|apply backed_nothing|done].
      * apply good_reach; [by eapply copy_heard| |].
        -- constructor; try done; [by intros [? ?]|]. intros r [= <-].
           destruct (copy_looked _ _ _ Hc' Ht) as [x Hl].
           exists h1, id, [], x. rewrite He. split; [done|]. by eapply looked_later.
        -- intros now s1 Hev. split_and!.
           ++ by apply coalesce_is_Some, (se_interrupt _ _ Hev).
           ++ by apply advanced_taken, (evolves_taken step).
           ++ by eexists.
  - destruct Hreach as (Hi&Ht&[rp Hrs]). intros [e|[[|m l]|]] h1 Hh; simpl; try done.
    apply good_reach; [by eapply copy_heard| |].
    + constructor; try done; [by intros [? ?]|]. intros r [= <-]. split; [done|].
      exists h1, [], rp. split; [done|]. eapply reset_later; [exact Hh|].
      destruct Hc as [Hr _]. by apply (rec_reset _ _ _ _ Hr).
    + intros now s1 Hev. split_and!.
      * by apply coalesce_is_Some, (se_interrupt _ _ Hev).
      * by apply advanced_taken, (evolves_taken step).
      * by apply coalesce_is_Some, (se_reset _ _ Hev).
      * by eexists.
Qed.
End Next.

(** ** Tasks *)

(** [m] is an operation as the tables had it at some time before [d]. *)
Record op_copy (h : list event) (d : mdb) (m : MaintenanceOperation) : Prop := {
  oc_kind : ∃ o, operations d !! op_id m = Some o ∧ kind o = kind m;
  oc_steps : kind m = ENTER → ∀ s : NodeStep, s ∈ op_steps m → copy (op_epoch m) h d s;
  oc_all : kind m = ENTER → ∀ n s1, steps d !! (op_id m, n) = Some s1 →
    ∃ s : NodeStep, s ∈ op_steps m ∧ (step_status s = DONE → step_status s1 = DONE)
}.

Lemma op_copy_persistent : persistent op_copy.
Proof.
  intros h h' d d' m Hh Hd [(o&Ho&Hk) Hs Hall].
  destruct (ev_operations _ _ (adv_evolves _ _ Hd) _ _ Ho) as (o'&Ho'&He). constructor.
  - exists o'. split; [done|]. by rewrite (oe_kind _ _ He).
  - intros Hm s Hin. eapply copy_persistent; [done..|]. by apply Hs.
  - intros Hm n s1 Hs1.
    destruct (adv_no_new _ _ Hd (op_id m) n) as [s0 Hs0]; [by eexists|by eexists|].
    destruct (Hall Hm n s0 Hs0) as (s&Hin&Hdone). exists s. split; [done|]. intros Hsd.
    destruct (adv_done _ _ Hd (op_id m) o n s0) as (s2&Hs2&?); [done|congruence|done|auto|].
    congruence.
Qed.

Lemma read_op_copy h d id o :
  ok h d → operations d !! id = Some o → op_copy h d (mk_operation id o (steps_of id d)).
Proof.
  intros Hok Ho. constructor; simpl.
  - by exists o.
  - intros Hk s Hs. by eapply current_copy.
  - intros Hk n s1 Hs1. exists (mk_step id n s1). split; [|done]. by apply elem_of_steps_of.
Qed.

Definition settled (h : list event) (d : mdb) (u : unit) : Prop := True.

(** Programs that end an operation or a step call no node. *)
Abbreviation ends := (good ("", "") settled).

Lemma good_ending h d m (id : string) me st e :
  (∀ d1, advances d d1 → ∀ o, operations d1 !! id = Some o → kind o = ENTER → st = SUCCEEDED →
     ∀ n s, steps d1 !! (id, n) = Some s → step_status s = DONE) →
  m = (let! _ := store (finish id me st e) in Pure tt) → ends h d m.
Proof.
  intros Hst ->. apply good_write; [|done]. intros h1 d1 now x d2 Hd1 Hok1 H.
  eapply finish_moves; [done| |done]. by apply Hst.
Qed.

Lemma good_close h d me m :
  op_copy h d m → kind m = ENTER → running_steps m = [] → ends h d (close_entry me m).
Proof.
  intros Hc Hk Hrun. unfold close_entry.
  destruct (List.filter _ (op_steps m)) as [|f l] eqn:Hf.
  - eapply good_ending; [|done]. intros d1 Hd1 o Ho _ _ n s Hs.
    destruct (op_copy_persistent h h _ _ _ (reflexivity h) Hd1 Hc) as [_ _ Hall].
    destruct (Hall Hk n s Hs) as (s0&Hin&Hd). apply Hd.
    apply list_elem_of_In in Hin.
    destruct (step_status s0) eqn:Hst; [exfalso|exfalso|done].
    + assert (List.In s0 (running_steps m)) as Hr by (apply filter_In; rewrite Hst; auto).
      by rewrite Hrun in Hr.
    + assert (List.In s0 []) as Hr by (rewrite <- Hf; apply filter_In; rewrite Hst; auto). done.
  - eapply good_ending; [|done]. done.
Qed.

Lemma good_failed h d me (step : NodeStep) error clear final : ends h d (failed me step error clear final).
Proof.
  apply good_write; [|done]. intros h1 d1 now x d2 Hd1 Hok1 H. unfold attempt_failed in H. inv_tx.
  eapply write_step_moves; [done|apply failed_row_evolves| |done].
  intros o s _ _ _ Hrun [? ? ? ? ? Hr Hd Ha]. unfold is_running in Hrun. unbool.
  specialize (Ha Hrun). split; [constructor; try done|simpl; congruence].
  - simpl. rewrite <- Hd, Hrun. by destruct (final || _).
  - simpl. destruct (final || _) eqn:Hf; [done|]. unbool. lia.
Qed.

Lemma good_handle h d me (step : NodeStep) error e : ends h d (handle me step error e).
Proof. destruct e; simpl; try done. apply good_failed. Qed.

Definition task_ok (h : list event) (d : mdb) (me : string) (t : task) : Prop :=
  match t with
  | Starting m => op_copy h d m
  | Carry m s p => copy (op_epoch m) h d s ∧ good (key s) (recopy (op_epoch m) s) h d p
  | Ending p => ends h d p
  end.

Lemma task_later h h' d d' me t :
  h `prefix_of` h' → advances d d' → task_ok h d me t → task_ok h' d' me t.
Proof.
  intros Hh Hd. destruct t as [m|m s p|p]; simpl.
  - by apply op_copy_persistent.
  - intros [Hc Hg]. split; [by eapply copy_persistent|].
    by eapply good_later; [apply recopy_persistent|..].
  - by eapply good_later.
Qed.

Lemma prog_step_good {A} sc (Q : list event → mdb → A → Prop) h d p c d' p' :
  ok h d → good sc Q h d p → prog_step d p c d' p' →
  let h' := h ++ from_option (λ c, [(sc, c)]) [] c in moves h' d d' ∧ good sc Q h' d' p'.
Proof.
  intros Hok Hg Hs h'. assert (ok h' d) as Hok' by (eapply ok_later; [by eexists|done]).
  destruct Hs as [d e k x|d k x|d e r k x|d k x|d X m k now x d' H|d X m k now e H]; simpl in Hg; subst h';
    simpl in *; try (split; [by split|]); try done; try by apply Hg.
  - rewrite app_nil_r. apply Hg.
  - rewrite app_nil_r. by apply (Hg h d now x d').
Qed.

Lemma first_tasks_ok h d me m hd : op_copy h d m → Forall (task_ok h d me) (first_tasks me m hd).
Proof.
  intros Hc. unfold first_tasks. destruct (_ || _).
  - apply Forall_singleton. eapply good_ending; [|reflexivity]. done.
  - case_bool_decide as Hk; [constructor|].
    assert (kind m = ENTER) as Hen by (destruct (kind m); done).
    destruct (running_steps m) as [|s l] eqn:Hr.
    + apply Forall_singleton. by apply good_close.
    + apply Forall_forall. intros t (s0&->&Hin)%list_elem_of_fmap. rewrite <- Hr in Hin. simpl.
      assert (copy (op_epoch m) h d s0) as Hs0; [|split; [done|by apply good_next]].
      apply (oc_steps _ _ _ Hc Hen). apply list_elem_of_In in Hin. apply filter_In in Hin as [Hin _].
      by apply list_elem_of_In.
Qed.

Lemma task_step_ok h me d t c d' new :
  ok h d → task_ok h d me t → task_step me d t c d' new →
  moves (h ++ c) d d' ∧ Forall (task_ok (h ++ c) d' me) new.
Proof.
  intros Hok Ht Hs.
  destruct Hs as [d m|d m s p c d' p' Hp|d m s s' Hrun|d m s s' Hrun|d m s e error|d m s error|d p d' p' Hp|d p Hp];
    simpl in Ht; rewrite ?app_nil_r.
  - split; [done|]. by apply first_tasks_ok.
  - destruct Ht as [Hc Hg]. destruct (prog_step_good _ _ _ _ _ _ _ _ Hok Hg Hp) as [Hm Hg'].
    split; [done|]. apply Forall_singleton. simpl. split; [|done].
    eapply copy_persistent; [..|exact Hc]; [by eexists|apply Hm].
  - destruct Ht as [_ [Hc _]]. split; [done|]. apply Forall_singleton. simpl. split; [done|]. by apply good_next.
  - split; [done|constructor].
  - split; [done|]. apply Forall_singleton. apply good_handle.
  - split; [done|]. apply Forall_singleton. apply good_failed.
  - destruct (prog_step_good _ _ _ _ _ _ _ _ Hok Ht Hp) as [Hm Hg']. simpl in *. rewrite app_nil_r in *.
    split; [done|]. by apply Forall_singleton.
  - split; [done|constructor].
Qed.

(** ** The world *)

Definition world_ok (w : world) : Prop :=
  ok (said w) (db w) ∧ Forall (λ mt, task_ok (said w) (db w) mt.1 mt.2) (tasks w).

Lemma tasks_later h h' d d' (ts : list (string * task)) :
  h `prefix_of` h' → advances d d' → Forall (λ mt, task_ok h d mt.1 mt.2) ts →
  Forall (λ mt, task_ok h' d' mt.1 mt.2) ts.
Proof.
  intros Hh Hd Hts. eapply Forall_impl; [exact Hts|]. intros [me t]. by apply task_later.
Qed.

Lemma wstep_ok w w' : world_ok w → wstep w w' → world_ok w'.
Proof.
  intros [Hok Hts] Hs.
  destruct Hs as [d ts h d' H|me lease locked now d ts h m d' H|me id d ts h m H Hk Hrun _
    |me t d ts1 ts2 h c d' new H]; simpl in Hok, Hts.
  - destruct (other_step_moves _ _ _ Hok H) as [? ?]. split; [done|]. by eapply tasks_later.
  - destruct (claim_moves _ _ _ _ _ _ _ _ Hok H) as [Hok' Hd]. split; [done|].
    constructor; [|by eapply tasks_later]. simpl.
    apply claim_inr in H as [(?&_)|(id&o&Ho&Hc&_&->&[= ->])]; [done|].
    change (steps_of id d) with (steps_of id
      (set_operations (<[id := set_lease (Some me) (Some (now + lease)%Z) now o]> (operations d)) d)).
    apply read_op_copy; [done|]. simpl. apply lookup_insert_eq.
  - split; [done|]. constructor; [|done]. simpl. unfold get in H. apply tx_gets_inr in H as [H _].
    destruct (operations d !! id) as [o|] eqn:Ho; [|done]. injection H as ->.
    apply good_close; [by apply read_op_copy|done..].
  - rewrite Forall_app, Forall_cons in Hts. destruct Hts as (H1&Ht&H2).
    destruct (task_step_ok _ _ _ _ _ _ _ Hok Ht H) as [[Hok' Hd] Hnew]. split; [done|]. simpl.
    assert (h `prefix_of` h ++ c) by by eexists.
    rewrite !Forall_app, Forall_fmap. split_and!; [by eapply tasks_later|done|by eapply tasks_later].
Qed.

Lemma initial_ok w : initial w → world_ok w.
Proof.
  intros (Ho&Hs&Ht&_). split; [|by rewrite Ht]. constructor; rewrite ?Ho, ?Hs.
  - intros id n s. by rewrite lookup_empty.
  - intros id o n s. by rewrite lookup_empty.
  - intros id o n s. by rewrite lookup_empty.
Qed.

Lemma reachable_ok w0 w : initial w0 → rtc wstep w0 w → world_ok w.
Proof. intros Hi%initial_ok. induction 1; [done|]. eauto using wstep_ok. Qed.

(** * Playing a pass

    A script of node answers, in the order they are asked for, drives the program
    at one clock; what it computes is a run of the world. *)

Inductive reply : Type :=
  | on_interrupt (x : answer dict)
  | on_residency (x : answer (option (list json)))
  | on_reset (x : answer dict)
  | on_token (x : string).

Fixpoint play {A} (now : Z) (p : prog A) (script : list reply) (d : mdb)
    : option (mdb * prog A * list reply) :=
  match p with
  | Pure _ | Throw _ => Some (d, p, script)
  | Interrupt _ k => match script with on_interrupt x :: r => play now (k x) r d | _ => None end
  | Residency k => match script with on_residency x :: r => play now (k x) r d | _ => None end
  | Reset_node _ _ k => match script with on_reset x :: r => play now (k x) r d | _ => None end
  | Token k => match script with on_token x :: r => play now (k x) r d | _ => None end
  | Store m k =>
      match m now d with
      | inl e => Some (d, Throw (StoreError e), script)
      | inr (x, d') => play now (k x) script d'
      end
  end.

(** The loop of [_carry] with its handlers, for at most [fuel] phases. *)
Fixpoint carry (me : string) (now : Z) (fuel : nat) (m : MaintenanceOperation) (s : NodeStep)
    (script : list reply) (d : mdb) : option mdb :=
  match fuel with
  | O => None
  | S fuel =>
      match play now (next me m s) script d with
      | Some (d', Pure s', r) =>
          if bool_decide (step_status s' = RUNNING) then carry me now fuel m s' r d' else Some d'
      | Some (d', Throw e, r) =>
          match play now (handle me s "error" e) [] d' with Some (d'', Pure _, _) => Some d'' | _ => None end
      | _ => None
      end
  end.

(** Some run of the world ends there, whatever was said on the way. *)
Definition runs (d : mdb) (ts : list (string * task)) (d' : mdb) (ts' : list (string * task)) : Prop :=
  ∀ h, ∃ h', rtc wstep (mk_world d ts h) (mk_world d' ts' h').

Lemma runs_refl d ts : runs d ts d ts.
Proof. intros h. by exists h. Qed.

Lemma runs_trans d ts d1 ts1 d2 ts2 : runs d ts d1 ts1 → runs d1 ts1 d2 ts2 → runs d ts d2 ts2.
Proof.
  intros H1 H2 h. destruct (H1 h) as [h1 Hr1]. destruct (H2 h1) as [h2 Hr2]. exists h2. by etrans.
Qed.

Lemma runs_task me t c d d' new :
  task_step me d t c d' new → runs d [(me, t)] d' ((me,.) <$> new).
Proof.
  intros H h. exists (h ++ c). apply rtc_once. pose proof (w_task me t d [] [] h c d' new H) as Hw.
  simpl in Hw. by rewrite app_nil_r in Hw.
Qed.

Lemma play_sound now me m s (p : prog NodeStep) script d d' p' r :
  play now p script d = Some (d', p', r) →
  runs d [(me, Carry m s p)] d' [(me, Carry m s p')] ∧ ((∃ a, p' = Pure a) ∨ (∃ e, p' = Throw e)).
Proof.
  revert script d.
  assert (∀ d q c d' q', prog_step d q c d' q' →
    runs d [(me, Carry m s q)] d' [(me, Carry m s q')]) as Hstep
    by (intros; by eapply (runs_task me _ _ _ _ [_]), t_call).
  induction p as [a|e|e k IH|k IH|e r0 k IH|k IH|X f k IH]; intros script d H; simpl in H.
  - simplify_eq. split; [apply runs_refl|]. left. by eexists.
  - simplify_eq. split; [apply runs_refl|]. right. by eexists.
  - destruct script as [|[x|x|x|x] script]; try done. destruct (IH _ _ _ H) as [Hr ?]. split; [|done].
    eapply runs_trans; [eapply Hstep, at_interrupt|exact Hr].
  - destruct script as [|[x|x|x|x] script]; try done. destruct (IH _ _ _ H) as [Hr ?]. split; [|done].
    eapply runs_trans; [eapply Hstep, at_residency|exact Hr].
  - destruct script as [|[x|x|x|x] script]; try done. destruct (IH _ _ _ H) as [Hr ?]. split; [|done].
    eapply runs_trans; [eapply Hstep, at_reset|exact Hr].
  - destruct script as [|[x|x|x|x] script]; try done. destruct (IH _ _ _ H) as [Hr ?]. split; [|done].
    eapply runs_trans; [eapply Hstep, at_token|exact Hr].
  - destruct (f now d) as [e|[x d1]] eqn:Hm.
    + simplify_eq. split; [|right; by eexists]. eapply Hstep. by eapply at_store_error.
    + destruct (IH _ _ _ H) as [Hr ?]. split; [|done].
      eapply runs_trans; [eapply Hstep; by eapply at_store|exact Hr].
Qed.

(** A program that ends without asking a node anything. *)
Lemma ending_sound me now (p : prog unit) d d' r :
  play now p [] d = Some (d', Pure tt, r) → runs d [(me, Ending p)] d' [].
Proof.
  revert d. induction p as [[]|e|e k IH|k IH|e r0 k IH|k IH|X f k IH]; intros d H; simpl in H; try done.
  - simplify_eq. apply (runs_task me _ [] d' d' []), t_ended. by left.
  - destruct (f now d) as [e|[x d1]] eqn:Hm; [done|]. eapply runs_trans; [|by eapply IH].
    apply (runs_task me _ [] d d1 [Ending (k x)]), t_ending. by eapply at_store.
Qed.

Lemma carry_sound me now fuel m s script d d' :
  carry me now fuel m s script d = Some d' → runs d [(me, Carry m s (next me m s))] d' [].
Proof.
  revert s script d. induction fuel as [|fuel IH]; intros s script d H; simpl in H; [done|].
  destruct (play now (next me m s) script d) as [[[d1 p'] r]|] eqn:Hp; [|done].
  destruct (play_sound now me m s _ script d d1 p' r Hp) as [Hr Hend].
  eapply runs_trans; [exact Hr|]. destruct Hend as [[s' ->]|[e ->]].
  - case_bool_decide as Hst.
    + eapply runs_trans; [|by eapply IH].
      apply (runs_task me _ [] d1 d1 [Carry m s' (next me m s')]). by apply t_loop.
    + injection H as <-. apply (runs_task me _ [] d1 d1 []). by apply t_done.
  - eapply runs_trans; [apply (runs_task me _ [] d1 d1 [Ending (handle me s "error" e)]), t_raise|].
    destruct (play now (handle me s "error" e) [] d1) as [[[d2 [[]|?|?|?|?|?|?]] r']|] eqn:Hh; try done.
    injection H as <-. by eapply ending_sound.
Qed.

(** * Guarantees *)

(** C24: A step of an entry stands where its evidence puts it.  In every reachable
    state, whatever coordinators, administrators and restores do and
    however their calls interleave, what the row of a step holds was said by its
    own node to a call made for this very entry, at the entry's epoch, and in
    order.  Past [pending] it holds an interrupt's answer in which the node said
    it was quiescent; a snapshot is that of the models a look at the node
    returned once it had been quieted, a recorded reason for having none follows
    a look that returned nothing, and past [interrupted] there is one or the
    other; at [reset] it holds the node's report of a reset asked after such a
    look; and it is [verified], the one phase that is done, only if a look after
    such a report found no model resident.  A running step has failed fewer than
    five times. *)
Theorem entry_phases_are_earned w0 w id o n s :
  initial w0 → rtc wstep w0 w →
  operations (db w) !! id = Some o → kind o = ENTER → steps (db w) !! (id, n) = Some s →
  let k := (id, n) in let e := op_epoch o in
  (phase s ≠ PENDING → ∃ r, interrupt s = Some r ∧ truthy (dict_get r "quiescent") = true ∧
     (k, CInterrupt e (inr r)) ∈ said w) ∧
  (∀ l, snapshot s = Some l → ∃ resident, l = snapshot_of resident ∧ looked (said w) k e (Some resident)) ∧
  (is_Some (snapshot_error s) → looked (said w) k e None) ∧
  (phase s ≠ PENDING → phase s ≠ INTERRUPTED → is_Some (snapshot s) ∨ is_Some (snapshot_error s)) ∧
  (phase s = RESET ∨ phase s = VERIFIED →
     ∃ report, reset s = Some report ∧ reset_reported (said w) k e report) ∧
  (phase s = VERIFIED →
     verification s = Some [("resident", JArr []); ("fresh", JBool true)] ∧ seen_empty (said w) k e) ∧
  (step_status s = DONE ↔ phase s = VERIFIED) ∧
  (step_status s = RUNNING → (0 ≤ attempts s < 5)%Z).
Proof.
  intros Hi Hr Ho Hk Hs k e. destruct (reachable_ok _ _ Hi Hr) as [Hok _].
  destruct (ok_recorded _ _ Hok id o n s Ho Hk Hs) as [Hint Hsn Hse Hrs Hver Hreach Hdone Hatt].
  unfold reached in Hreach.
  assert (phase s ≠ PENDING → phase s ≠ INTERRUPTED → snapshot_taken s = true) as Htaken
    by (destruct (phase s); tauto).
  split_and!; [| |exact Hse| | | |done|exact Hatt].
  - intros Hp. assert (is_Some (interrupt s)) as [r Hint'] by (destruct (phase s); tauto).
    exists r. destruct (Hint r Hint') as [? ?]. auto.
  - exact Hsn.
  - intros Hp1 Hp2. specialize (Htaken Hp1 Hp2). unfold snapshot_taken in Htaken.
    apply orb_true_iff in Htaken. by rewrite !bool_decide_eq_true in Htaken.
  - intros Hp. assert (is_Some (reset s)) as [rep Hrep]
      by (destruct Hp as [Hp|Hp]; rewrite Hp in Hreach; tauto).
    exists rep. auto.
  - intros Hp. rewrite Hp in Hreach. destruct Hreach as (_&_&_&[v Hv]).
    destruct (Hver v Hv) as [-> ?]. auto.
Qed.

(** The four answers behind an empty observation, in the order they came. *)
Lemma seen_empty_order h k e :
  seen_empty h k e →
  ∃ h1 r h2 x h3 rid report h4 h5,
    h = h1 ++ (k, CInterrupt e (inr r)) :: h2 ++ (k, CResidency (inr x)) :: h3 ++
        (k, CReset e rid (inr report)) :: h4 ++ (k, CResidency (inr (Some []))) :: h5 ∧
    truthy (dict_get r "quiescent") = true.
Proof.
  intros (l1&h5&rep&->&l2&rid&h4&x&->&l3&h3&->&r&Hq&(h1&h2&->)%list_elem_of_split).
  exists h1, r, h2, x, h3, rid, rep, h4, h5. split; [|done]. by simplify_list_eq.
Qed.

(** C4: An entry succeeds only when every runtime was released.  In every
    reachable state, an entry recorded as succeeded has every one of its node
    steps done, and of every such node the coordinators heard, in this order and
    each for this entry at its epoch: that it was quiescent, what was resident
    on it, that it had been reset, and, asked once more, that nothing was
    resident. *)
Theorem entry_succeeds_only_released w0 w id o :
  initial w0 → rtc wstep w0 w →
  operations (db w) !! id = Some o → kind o = ENTER → op_status o = SUCCEEDED →
  ∀ n s, steps (db w) !! (id, n) = Some s →
    let k := (id, n) in let e := op_epoch o in
    step_status s = DONE ∧ phase s = VERIFIED ∧ verification s = Some verified_empty ∧
    ∃ h1 r h2 x h3 rid report h4 h5,
      said w = h1 ++ (k, CInterrupt e (inr r)) :: h2 ++ (k, CResidency (inr x)) :: h3 ++
        (k, CReset e rid (inr report)) :: h4 ++ (k, CResidency (inr (Some []))) :: h5 ∧
      truthy (dict_get r "quiescent") = true.
Proof.
  intros Hi Hr Ho Hk Hst n s Hs k e. destruct (reachable_ok _ _ Hi Hr) as [Hok _].
  pose proof (ok_done _ _ Hok id o n s Ho Hk Hst Hs) as Hd.
  destruct (ok_recorded _ _ Hok id o n s Ho Hk Hs) as [_ _ _ _ Hver Hreach Hdone _].
  apply Hdone in Hd as Hp. unfold reached in Hreach. rewrite Hp in Hreach.
  destruct Hreach as (_&_&_&[v Hv]). destruct (Hver v Hv) as [-> Hempty].
  split_and!; [done..|]. by apply seen_empty_order.
Qed.

(** ** An entry of one node, carried out *)

Module Entry.
Definition script : list reply :=
  [on_interrupt (inr [("quiescent", JBool true)]); on_residency (inr (Some []));
   on_token "r1"; on_reset (inr [("accounting", JStr "resolved")]); on_residency (inr (Some []))].

Definition entered : mdb := Demo.d1.
Definition claimed_op : MaintenanceOperation :=
  default (mk_operation "" Demo.entry1 []) (default None (Demo.value (claim "a" 30 [] 2 entered))).
Definition after_claim : mdb := Demo.result (claim "a" 30 [] 2 entered).
Definition first_step : NodeStep := mk_step "op" "n" (new_step None None 1).
Definition carried : mdb := default Demo.d0 (carry "a" 3 6 claimed_op first_step script after_claim).
Definition gathered : MaintenanceOperation :=
  default (mk_operation "" Demo.entry1 []) (default None (Demo.value (get "op" carried))).
Definition finished : mdb := Demo.result (finish "op" "a" SUCCEEDED None 4 carried).

Lemma enters : runs Demo.d0 [] entered [].
Proof.
  intros h. exists h. apply rtc_once, w_other.
  apply (o_enter Demo.config Demo.admin (Some " brb ") None [("n", Some "http://n")] "op" 1 Demo.d0
    (hold entered) entered). vm_compute. reflexivity.
Qed.

Lemma claimed_run :
  runs Demo.d0 [] after_claim [("a", Carry claimed_op first_step (next "a" claimed_op first_step))].
Proof.
  eapply runs_trans; [apply enters|]. intros h. exists (h ++ []).
  eapply rtc_l.
  { apply (w_claim "a" 30 [] 2 entered [] h claimed_op after_claim). vm_compute. reflexivity. }
  apply rtc_once. apply (w_task "a" (Starting claimed_op) after_claim [] [] h [] after_claim
    [Carry claimed_op first_step (next "a" claimed_op first_step)]).
  assert (first_tasks "a" claimed_op (hold after_claim) =
          [Carry claimed_op first_step (next "a" claimed_op first_step)]) as <-; [|apply t_start].
  unfold first_tasks.
  assert (negb (admission_closed (hold after_claim)) ||
          negb (epoch (hold after_claim) =? op_epoch claimed_op)%Z = false) as -> by (vm_compute; reflexivity).
  assert (bool_decide (kind claimed_op = RESTORE) = false) as -> by (vm_compute; reflexivity).
  assert (running_steps claimed_op = [first_step]) as -> by (vm_compute; reflexivity). done.
Qed.

Lemma run : runs Demo.d0 [] finished [].
Proof.
  eapply runs_trans; [apply claimed_run|]. eapply runs_trans.
  { apply (carry_sound "a" 3 6 claimed_op first_step script after_claim carried). vm_compute. reflexivity. }
  eapply runs_trans.
  { intros h. exists h. apply rtc_once.
    apply (w_gathered "a" "op" carried [] h gathered); [vm_compute; reflexivity..|].
    right. vm_compute. reflexivity. }
  apply (ending_sound "a" 4 (close_entry "a" gathered) carried finished []).
  vm_compute. reflexivity.
Qed.

Lemma starts : initial (mk_world Demo.d0 [] []).
Proof. by split_and!. Qed.
End Entry.

Definition finished_entry : op_row := mk_op_row ENTER 1 SUCCEEDED "root" None None None 1 4 (Some 4%Z).
Definition finished_step : step_row :=
  mk_step_row VERIFIED DONE 0 (Some [("quiescent", JBool true)]) (Some []) (Some 3%Z) None (Some "r1")
    (Some [("accounting", JStr "resolved")]) (Some "resolved") (Some verified_empty) None 3.

Lemma entry_phases_are_earned_witness :
  ∃ h, rtc wstep (mk_world Demo.d0 [] []) (mk_world Entry.finished [] h) ∧
    (("op", "n"), CInterrupt 1 (inr [("quiescent", JBool true)])) ∈ h ∧
    reset_reported h ("op", "n") 1 [("accounting", JStr "resolved")] ∧ seen_empty h ("op", "n") 1.
Proof.
  destruct (Entry.run []) as [h Hrun]. exists h.
  destruct (entry_phases_are_earned (mk_world Demo.d0 [] []) (mk_world Entry.finished [] h) "op"
    finished_entry "n" finished_step Entry.starts Hrun) as (H1&_&_&_&H2&H3&_);
    [vm_compute; reflexivity..|].
  destruct H1 as (r&[= <-]&_&H1); [done|]. destruct H2 as (rep&[= <-]&H2); [by right|].
  destruct H3 as [_ H3]; [done|]. split_and!; assumption.
Defined.

Lemma entry_succeeds_only_released_witness :
  ∃ h h1 r h2 x h3 rid report h4 h5, rtc wstep (mk_world Demo.d0 [] []) (mk_world Entry.finished [] h) ∧
    h = h1 ++ (("op", "n"), CInterrupt 1 (inr r)) :: h2 ++ (("op", "n"), CResidency (inr x)) :: h3 ++
        (("op", "n"), CReset 1 rid (inr report)) :: h4 ++ (("op", "n"), CResidency (inr (Some []))) :: h5.
Proof.
  destruct (Entry.run []) as [h Hrun]. exists h.
  destruct (entry_succeeds_only_released (mk_world Demo.d0 [] []) (mk_world Entry.finished [] h) "op"
    finished_entry Entry.starts Hrun eq_refl eq_refl eq_refl "n" finished_step)
    as (_&_&_&h1&r&h2&x&h3&rid&rep&h4&h5&Hh&_); [vm_compute; reflexivity|].
  exists h1, r, h2, x, h3, rid, rep, h4, h5. split; [exact Hrun|exact Hh].
Defined.

(** ** A reset that is always refused *)

Module Stuck.
Definition not_quiescent : reply := on_reset (inl (mk_error (Some 409%Z) (Some "node_not_quiescent"))).
Definition quiescent : reply := on_interrupt (inr [("quiescent", JBool true)]).

(** One pass at clock 5: claim, start, carry the step. *)
Definition pass (script : list reply) (d : mdb) : option mdb :=
  match claim "a" 30 [] 5 d with
  | inr (Some m, d') =>
      match first_tasks "a" m (hold d') with
      | [Carry _ s _] => carry "a" 5 6 m s script d'
      | _ => None
      end
  | _ => None
  end.

Definition first_script : list reply :=
  [quiescent; on_residency (inr (Some [])); on_token "r1"; not_quiescent].
Definition stuck : mdb := default Demo.d0 (pass first_script Demo.d1).

(** Every later pass: the node says it is quiescent, then that it is not. *)
Definition refused_pass (d : mdb) : mdb := default Demo.d0 (pass [quiescent; not_quiescent] d).

Lemma first_tasks_carry me m h m' s p :
  first_tasks me m h = [Carry m' s p] → m' = m ∧ p = next me m s.
Proof.
  unfold first_tasks. destruct (_ || _); [done|]. case_bool_decide; [done|].
  destruct (running_steps m) as [|s0 [|]]; try done. by intros [= <- <- <-].
Qed.

Lemma pass_run script d d' : pass script d = Some d' → runs d [] d' [].
Proof.
  unfold pass. destruct (claim _ _ _ _ d) as [|[[m|] d1]] eqn:Hc; try done.
  destruct (first_tasks "a" m (hold d1)) as [|[|m' s p|] [|]] eqn:Hf; try done. intros Hcarry.
  pose proof (first_tasks_carry _ _ _ _ _ _ Hf) as [-> ->].
  eapply runs_trans; [intros h; exists h; apply rtc_once; by eapply w_claim|].
  eapply runs_trans; [|by eapply carry_sound].
  apply (runs_task "a" (Starting m) [] d1 d1 [Carry m s (next "a" m s)]). rewrite <- Hf. apply t_start.
Qed.

Lemma reaches : runs Demo.d0 [] stuck [].
Proof.
  eapply runs_trans; [apply Entry.enters|].
  apply (pass_run first_script Demo.d1 stuck). vm_compute. reflexivity.
Qed.

Lemma again : pass [quiescent; not_quiescent] stuck = Some stuck.
Proof. vm_compute. reflexivity. Qed.
End Stuck.

(** A reset refused as not quiescent is retried for ever.  A node that
    answers every interrupt as quiescent and every reset with
    [node_not_quiescent] is never counted as failing: after any number of passes
    its step is running, back at [pending] with no attempt counted, and nothing
    reports it. *)
Theorem refused_reset_is_retried_for_ever k :
  let d := Nat.iter k Stuck.refused_pass Stuck.stuck in
  (∃ h, rtc wstep (mk_world Demo.d0 [] []) (mk_world d [] h)) ∧
  ∃ s, steps d !! ("op", "n") = Some s ∧ step_status s = RUNNING ∧ phase s = PENDING ∧ attempts s = 0%Z.
Proof.
  assert (Nat.iter k Stuck.refused_pass Stuck.stuck = Stuck.stuck) as ->.
  { induction k as [|k IH]; simpl; [done|]. rewrite IH. unfold Stuck.refused_pass.
    rewrite Stuck.again. reflexivity. }
  split; [exact (Stuck.reaches [])|]. eexists. split; [vm_compute; reflexivity|]. by split_and!.
Qed.
