(* ===== verification/Restoration.v ===== *)
(** Putting the models back before the platform reopens
    ([application/use_cases/maintenance_coordinator.py], [_next_restore],
    [_still_whole] and [_close_restore]; [resident_matches] and [restore_order] of
    [domain/entities/maintenance_operation.py]).

    The other half of [Coordinator]: the phases of a restore, as programs (see
    [Programs]) over the coordinator's store and the nodes, each call of which may
    answer anything or raise.  A transaction is those of [Maintenance], seen from
    the program that asks for it.  Log lines and audit records are not
    modelled; [str] and [int] of a JSON value that is not already a string or an
    integer are parameters. *)

From S2P Require Export Programs Maintenance.
From stdpp Require Import pretty.

Definition MAX_REPAIR_ROUNDS : nat := 2.

(** ** The ports *)

(** [NodeControlError], less its message. *)
Record control_error := mk_error { err_status : option Z; refused : option string; body : dict }.
Definition unobserved : control_error := mk_error None None [].
Definition refusal (why : string) : control_error := mk_error None (Some why) [].

Inductive exn : Type :=
  | Lost
  | ControlError (e : control_error)
  | Raised (type_name : string).
Abbreviation answer := (sum exn).

Inductive action : Set := load | probe.

Inductive port : Type → Type :=
  | Control_for (node : string) : port (answer bool)
  | Residency (node : string) : port (answer (option (list dict)))
  | Restore (node : string) (epoch : Z) (op_id : string) (a : action) (name : string)
      (digest context_length : json) : port (answer dict)
  | Advance (s : NodeStep) (p : StepPhase) (v : step_values) : port (answer bool)
  | Get_operation (id : string) : port (answer (option MaintenanceOperation))
  | Finish (id : string) (status : OperationStatus) (error : option string) : port (answer bool)
  | Rewind (s : NodeStep) (p : StepPhase) : port (answer bool)
  | Reopen_after (id : string) (epoch : Z) : port (answer bool).

Inductive event : Type :=
  | control_was (node : string) (r : answer bool)
  | residency_was (node : string) (r : answer (option (list dict)))
  | restore_was (node : string) (epoch : Z) (op_id : string) (a : action) (name : string)
      (digest context_length : json) (r : answer dict)
  | advance_was (s : NodeStep) (p : StepPhase) (v : step_values) (r : answer bool)
  | operation_was (id : string) (r : answer (option MaintenanceOperation))
  | finish_was (id : string) (status : OperationStatus) (error : option string) (r : answer bool)
  | rewind_was (s : NodeStep) (p : StepPhase) (r : answer bool)
  | reopen_was (id : string) (epoch : Z) (r : answer bool).

Definition log R (q : port R) : R → event :=
  match q with
  | Control_for n => control_was n
  | Residency n => residency_was n
  | Restore n e id a name dg cx => restore_was n e id a name dg cx
  | Advance s p v => advance_was s p v
  | Get_operation id => operation_was id
  | Finish id st e => finish_was id st e
  | Rewind s p => rewind_was s p
  | Reopen_after id e => reopen_was id e
  end.

Abbreviation method := (prog port exn unit).

Definition is_str (j : json) (s : string) : bool :=
  match j with JStr t => String.eqb t s | _ => false end.

Section Restoration.
Context (to_str : json → string) (to_int : json → option Z).

(** [str(x)] and [int(x)], which leave strings and integers alone. *)
Definition py_str (j : json) : string := match j with JStr s => s | _ => to_str j end.
Definition py_int (j : json) : option Z := match j with JInt z => Some z | _ => to_int j end.
Definition or_default (j d : json) : json := if truthy j then j else d.

Definition name_of (m : dict) : string := py_str (dict_get m "name").

(** * Snapshots *)

(** [resident_matches] *)
Fixpoint resident_matches (saved : dict) (resident : list dict) : bool :=
  match resident with
  | [] => false
  | entry :: rest =>
      if negb (py_eq (dict_get entry "name") (dict_get saved "name")) then resident_matches saved rest
      else if truthy (dict_get saved "digest") && negb (py_eq (dict_get entry "digest") (dict_get saved "digest"))
      then false
      else negb (truthy (dict_get saved "context_length")) ||
           py_eq (dict_get entry "context_length") (dict_get saved "context_length")
  end.

(** [restore_order]: the sizes are read first, one of which may not be a number. *)
Definition size_of (m : dict) : option Z := py_int (or_default (dict_get m "size") (JInt 0)).

Definition size_leb (a b : Z * dict) : bool :=
  match Z.compare (- a.1) (- b.1) with Lt => true | Gt => false | Eq => String.leb (name_of a.2) (name_of b.2) end.

Fixpoint with_sizes (l : list dict) : option (list (Z * dict)) :=
  match l with
  | [] => Some []
  | m :: l => z ← size_of m; rest ← with_sizes l; Some ((z, m) :: rest)
  end.

Definition restore_order (l : list dict) : option (list dict) :=
  sized ← with_sizes l; Some (py_sorted size_leb sized).*2.

(** [_strangers]: [m.get("name") not in saved] *)
Definition is_stranger (snapshot : list dict) (m : dict) : bool :=
  negb (existsb (λ s, py_eq (dict_get m "name") (dict_get s "name")) snapshot).
Definition strangers (snapshot resident : list dict) : list string :=
  py_sorted String.leb (name_of <$> List.filter (is_stranger snapshot) resident).

(** [_names] *)
Definition names (resident : list dict) : list string := py_sorted String.leb (name_of <$> resident).

(** Every saved model is resident as recorded. *)
Definition all_match (snapshot resident : list dict) : bool :=
  forallb (λ m, resident_matches m resident) snapshot.

(** * One node *)

(** [_no_strangers] *)
Definition no_strangers (snapshot resident : list dict) : method unit :=
  match strangers snapshot resident with
  | [] => Pure tt
  | _ :: _ => Throw (ControlError (refusal "unexpected_resident"))
  end.

(** [_observe] *)
Definition observe (node : string) : method (list dict) :=
  let! resident := invoke (Residency node) in
  match resident with Some r => Pure r | None => Throw (ControlError unobserved) end.

(** [_advance]: write, then read the step back. *)
Definition advance (step : NodeStep) (p : StepPhase) (v : step_values) : method NodeStep :=
  let! written := invoke (Advance step p v) in
  if negb written then Throw Lost
  else
    let! operation := invoke (Get_operation (operation_id step)) in
    match first_match (λ s : NodeStep, bool_decide (node_id s = node_id step)) (from_option op_steps [] operation) with
    | Some s => Pure s
    | None => Throw Lost
    end.

Definition with_verification (v : dict) : step_values := mk_values None None None (Some v) None None.

(** [list(x or [])] and [dict(x or {})], which raise on anything else. *)
Definition as_list (j : json) : method (list json) :=
  if negb (truthy j) then Pure [] else match j with JArr l => Pure l | _ => Throw (Raised "TypeError") end.
Definition as_dict (j : json) : method dict :=
  if negb (truthy j) then Pure [] else match j with JObj d => Pure d | _ => Throw (Raised "TypeError") end.

(** [verification={"loads": loads}] *)
Definition loads_value (loads : list json) : step_values := with_verification [("loads", JArr loads)].

(** The last load, when it asked for [model] and was not answered: its op id. *)
Definition unanswered (loads : list json) (model : dict) : method (option string) :=
  match last loads with
  | None => Pure None
  | Some (JObj l) =>
      if py_eq (dict_get l "name") (dict_get model "name") && negb (truthy (dict_get l "state")) then
        match dict_lookup "op_id" l with
        | Some id => Pure (Some (py_str id))
        | None => Throw (Raised "KeyError")
        end
      else Pure None
  | Some _ => Throw (Raised "AttributeError")
  end.

(** [loads[-1]["state"] = state] *)
Definition answered (loads : list json) (state : json) : list json :=
  match rev loads with
  | JObj l :: rest => rev (JObj (dict_set "state" state l) :: rest)
  | _ => loads
  end.

(** [operation.id[:16]] *)
Definition short (operation : MaintenanceOperation) : string := String.substring 0 16 (op_id operation).

Definition load_id (operation : MaintenanceOperation) (n : nat) : string :=
  "restore-" +:+ short operation +:+ "-" +:+ pretty n.
Definition probe_id (operation : MaintenanceOperation) (n : nat) (attempt : Z) : string :=
  "probe-" +:+ short operation +:+ "-" +:+ pretty n +:+ "-" +:+ pretty attempt.

(** A call for one model, with what a stored failure is written as. *)
Definition restore_model (step : NodeStep) (epoch : Z) (id : string) (a : action) (model : dict)
    (on_failed : method unit) : method dict :=
  catch (invoke (Restore (node_id step) epoch id a (name_of model) (dict_get model "digest") (dict_get model "context_length")))
    (λ e, match e with
     | ControlError c =>
         if is_str (dict_get (body c) "state") "failed" then let! _ := on_failed in Throw e else Throw e
     | _ => Throw e
     end).

(** [pending]: load the first missing model *)
Definition load_missing (operation : MaintenanceOperation) (step : NodeStep) (snapshot : list dict)
    (loads : list json) (model : dict) : method NodeStep :=
  if bool_decide (length snapshot * (1 + MAX_REPAIR_ROUNDS) ≤ length loads)
  then Throw (ControlError (refusal "repairs_exhausted"))
  else
    let! before := unanswered loads model in
    let! asked :=
      match before with
      | Some id => Pure (id, loads, step)
      | None =>
          let id := load_id operation (length loads) in
          let loads := loads ++ [JObj [("op_id", JStr id); ("name", dict_get model "name")]] in
          let! step := advance step PENDING (loads_value loads) in
          Pure (id, loads, step)
      end in
    let '(id, loads, step) := asked in
    let! reply := restore_model step (op_epoch operation) id load model
      (let! _ := advance step PENDING (loads_value (answered loads (JStr "failed"))) in Pure tt) in
    advance step PENDING (loads_value (answered loads (dict_get reply "state"))).

(** [_still_whole] *)
Definition still_whole (step : NodeStep) (snapshot : list dict) (then_ : StepPhase) (progress : dict) : method NodeStep :=
  let! resident := observe (node_id step) in
  let! _ := no_strangers snapshot resident in
  if all_match snapshot resident then
    advance step then_ (with_verification (dict_union progress [("resident", JArr (JStr <$> names resident))]))
  else
    let loads := or_default (dict_get progress "loads") (JArr []) in
    advance step PENDING (with_verification [("loads", loads)]).

Definition entries_of (d : dict) : list (string * dict) :=
  omap (λ kv, match kv.2 with JObj e => Some (kv.1, e) | _ => None end) d.

Definition probes_value (progress : dict) (probes : list (string * dict)) (attempts : Z) : step_values :=
  with_verification (dict_union progress
    [("probes", JObj ((λ kv, (kv.1, JObj kv.2)) <$> probes)); ("probe_attempts", JInt attempts)]).

Definition completed (e : dict) : bool := is_str (dict_get e "state") "completed".

(** A probe asked and not answered is asked again under its id. *)
Definition is_null (j : json) : bool := match j with JNull => true | _ => false end.
Definition unanswered_probe (entry : option dict) : option dict :=
  e ← entry; if is_null (dict_get e "state") then Some e else None.

(** One turn of the loop over the models to probe. *)
Definition probe_one (operation : MaintenanceOperation) (loads : list json) (progress : dict)
    (acc : list (string * dict) * Z * NodeStep) (model : dict)
    : method (unit + (list (string * dict) * Z * NodeStep)) :=
  let '(probes, attempts, step) := acc in
  let name := name_of model in
  let entry := dict_lookup name probes in
  if from_option completed false entry then Pure (inr acc)
  else
    let! asked :=
      match unanswered_probe entry with
      | Some e => Pure (e, probes, attempts, step)
      | None =>
          let e := [("op_id", JStr (probe_id operation (length loads) (attempts + 1)))] in
          let probes := dict_set name e probes in
          let! step := advance step LOADED (probes_value progress probes (attempts + 1)) in
          Pure (e, probes, (attempts + 1)%Z, step)
      end in
    let '(e, probes, attempts, step) := asked in
    match dict_lookup "op_id" e with
    | None => Throw (Raised "KeyError")
    | Some id =>
        let! reply := restore_model step (op_epoch operation) (py_str id) probe model
          (let! _ := advance step LOADED
             (probes_value progress (dict_set name (dict_set "state" (JStr "failed") e) probes) attempts) in Pure tt) in
        let probes := dict_set name (dict_set "state" (dict_get reply "state") e) probes in
        let! step := advance step LOADED (probes_value progress probes attempts) in
        Pure (inr (probes, attempts, step))
    end.

(** [_next_restore] *)
Definition next_restore (operation : MaintenanceOperation) (step : NodeStep) : method NodeStep :=
  match restore_order (default [] (snapshot step)) with
  | None => Throw (Raised "ValueError")
  | Some snapshot =>
      let progress := default [] (verification step) in
      let! loads := as_list (dict_get progress "loads") in
      match phase step with
      | PENDING =>
          let! resident := observe (node_id step) in
          let! _ := no_strangers snapshot resident in
          match List.filter (λ m, negb (resident_matches m resident)) snapshot with
          | [] => advance step LOADED (with_verification (dict_union progress [("probes", JObj [])]))
          | model :: _ => load_missing operation step snapshot loads model
          end
      | LOADED =>
          let! found := as_dict (dict_get progress "probes") in
          match py_int (or_default (dict_get progress "probe_attempts") (JInt 0)) with
          | None => Throw (Raised "ValueError")
          | Some attempts =>
              let! probed := for_each (probe_one operation loads progress) (entries_of found, attempts, step) snapshot in
              match probed with
              | inl tt => Throw (Raised "AssertionError")
              | inr (_, _, step) => still_whole step snapshot PROBED (default [] (verification step))
              end
          end
      | PROBED => still_whole step snapshot VERIFIED progress
      | _ => Throw (Raised "AssertionError")
      end
  end.

(** * The end of a restore *)

(** [whole], and no stranger beside *)
Definition seen_whole (snapshot : list dict) (resident : option (list dict)) : bool :=
  match resident with
  | None => false
  | Some r => all_match snapshot r && bool_decide (strangers snapshot r = [])
  end.

(** One turn of the last observation: [inl] returns. *)
Definition look_again (_ : unit) (step : NodeStep) : method (unit + unit) :=
  let! found := invoke (Control_for (node_id step)) in
  let! resident := (if found : bool then invoke (Residency (node_id step)) else Pure None) in
  if seen_whole (default [] (snapshot step)) resident then Pure (inr tt)
  else let! _ := invoke (Rewind step PENDING) in Pure (inl tt).

(** [_close_restore] *)
Definition close_restore (operation : MaintenanceOperation) : method unit :=
  match List.filter (λ s : NodeStep, bool_decide (step_status s = FAILED)) (op_steps operation) with
  | (_ :: _) as failed =>
      let! _ := invoke (Finish (op_id operation) OP_FAILED
        (Some (String.substring 0 2000 (String.concat "; " (failure_text <$> failed))))) in Pure tt
  | [] =>
      let! all := for_each look_again tt (op_steps operation) in
      match all with
      | inl tt => Pure tt
      | inr tt => let! _ := invoke (Reopen_after (op_id operation) (op_epoch operation)) in Pure tt
      end
  end.

(** * What a restore does

    Nothing is assumed of the answers: every port may answer anything, or raise. *)

Definition any (_ : list event) (R : Type) (_ : port R) (_ : R) : Prop := True.
Abbreviation wp p := (wp log any p).

(** Every saved model is resident with what the snapshot knew of it, and nothing else is. *)
Definition whole (snapshot resident : list dict) : Prop :=
  (∀ m, m ∈ snapshot → resident_matches m resident = true) ∧
  (∀ m, m ∈ resident → ∃ saved, saved ∈ snapshot ∧ py_eq (dict_get m "name") (dict_get saved "name") = true).

Lemma restore_order_perm l l' : restore_order l = Some l' → l' ≡ₚ l.
Proof.
  unfold restore_order. destruct (with_sizes l) as [sized|] eqn:Hs; [|done]. simpl. intros [= <-].
  assert (sized.*2 = l) as <-.
  { revert sized Hs. induction l as [|m l IH]; intros sized Hs; simpl in Hs; [by injection Hs as <-|].
    destruct (size_of m) as [z|]; [|done]. destruct (with_sizes l) as [rest|]; [|done]. simpl in Hs.
    injection Hs as <-. simpl. f_equal. by apply IH. }
  apply fmap_Permutation, py_sorted_perm.
Qed.

Lemma all_match_spec snapshot resident :
  all_match snapshot resident = true ↔ ∀ m, m ∈ snapshot → resident_matches m resident = true.
Proof. unfold all_match. rewrite forallb_forall. setoid_rewrite list_elem_of_In. done. Qed.

Lemma strangers_nil snapshot resident :
  strangers snapshot resident = [] ↔
  ∀ m, m ∈ resident → ∃ saved, saved ∈ snapshot ∧ py_eq (dict_get m "name") (dict_get saved "name") = true.
Proof.
  unfold strangers. split.
  - intros H m Hm. destruct (is_stranger snapshot m) eqn:Hs.
    + exfalso. assert (name_of m ∈ py_sorted String.leb (name_of <$> List.filter (is_stranger snapshot) resident)) as Hin.
      { apply elem_of_py_sorted, list_elem_of_fmap. exists m. split; [done|]. by apply elem_of_List_filter. }
      rewrite H in Hin. by apply elem_of_nil in Hin.
    + unfold is_stranger in Hs. apply negb_false_iff, existsb_exists in Hs as (saved&Hin&Heq).
      exists saved. split; [by apply list_elem_of_In|done].
  - intros H. assert (List.filter (is_stranger snapshot) resident = []) as ->; [|done].
    destruct (List.filter _ resident) as [|m l] eqn:Hf; [done|]. exfalso.
    assert (m ∈ List.filter (is_stranger snapshot) resident) as [Hs Hin]%elem_of_List_filter by (rewrite Hf; by left).
    destruct (H m Hin) as (saved&Hsv&Heq). unfold is_stranger in Hs. apply negb_true_iff, existsb_false in Hs.
    rewrite Forall_forall in Hs. specialize (Hs _ Hsv). simpl in Hs. congruence.
Qed.

Lemma whole_spec snapshot resident :
  all_match snapshot resident = true → strangers snapshot resident = [] → whole snapshot resident.
Proof. intros Ha Hs. split; [by apply all_match_spec|by apply strangers_nil]. Qed.

Lemma whole_perm l l' r : l ≡ₚ l' → whole l r → whole l' r.
Proof.
  intros Hp [H1 H2]. split; intros m Hm; [apply H1; by rewrite Hp|].
  destruct (H2 m Hm) as (saved&Hin&?). exists saved. by rewrite <- Hp.
Qed.

(** ** Reopening *)

Definition seen (s : NodeStep) (tr : list event) : Prop :=
  ∃ resident, residency_was (node_id s) (inr (Some resident)) ∈ tr ∧ whole (default [] (snapshot s)) resident.

Lemma seen_app s tr l : seen s tr → seen s (tr ++ l).
Proof. intros (r&Hin&Hw). exists r. split; [set_solver|done]. Qed.

Definition reopens (e : event) : bool := match e with reopen_was _ _ _ => true | _ => false end.

Lemma look_again_seen u s tr :
  wp (look_again u s) (λ o _ tr', existsb reopens tr' = existsb reopens tr ∧ tr `prefix_of` tr' ∧
    (o = inr (inr tt) → seen s tr')) tt tr.
Proof.
  unfold look_again. walk_calls. intros [e|found] _; walk_calls.
  { rewrite existsb_app. simpl. rewrite orb_false_r. split_and!; [done|by apply prefix_app_r|done]. }
  apply wp_bind.
  apply (wp_mono _ _ _ (λ o _ tr', existsb reopens tr' = existsb reopens tr ∧ tr `prefix_of` tr' ∧
    match o with inr (Some r) => residency_was (node_id s) (inr (Some r)) ∈ tr' | _ => True end)).
  - intros [e|resident] u' tr' (Hr&Hp&Hin); [done|]. destruct (seen_whole _ resident) eqn:Hw; walk_calls.
    + split_and!; [done..|]. intros _. destruct resident as [r|]; [|done]. simpl in Hw. unbool.
      exists r. split; [done|]. by apply whole_spec.
    + destruct u'. intros [e|b] _; walk_calls; rewrite existsb_app; simpl; rewrite orb_false_r;
        (split_and!; [done|by apply prefix_app_r|done]).
  - destruct found; walk_calls.
    + intros [e|r] _; walk_calls; rewrite !existsb_app; simpl; rewrite !orb_false_r;
        (split_and!; [done|rewrite <- app_assoc; by apply prefix_app_r|]); [done|].
      destruct r; [|done]. cbn [log]. set_solver.
    + rewrite existsb_app. simpl. rewrite orb_false_r. split_and!; [done|by apply prefix_app_r|done].
Qed.

Lemma look_all l tr :
  wp (for_each look_again tt l) (λ o _ tr', existsb reopens tr' = existsb reopens tr ∧ tr `prefix_of` tr' ∧
    (o = inr (inr tt) → Forall (λ s, seen s tr') l)) tt tr.
Proof.
  revert tr. induction l as [|s l IH]; intros tr; [done|]. cbn [for_each].
  apply wp_bind. eapply wp_mono; [|apply look_again_seen]. intros [e|[u|u]] st tr1 (Hr1&Hp1&Hs1); walk_calls; [done..|].
  destruct u, st. eapply wp_mono; [|apply IH]. intros o st tr2 (Hr2&Hp2&Hall). split_and!; [congruence|by etransitivity|].
  intros Ho. constructor; [|by apply Hall]. destruct Hp2 as [k ->]. apply seen_app. by apply Hs1.
Qed.

(** A program whose last call alone reopens. *)
Lemma close_reopens operation :
  wp (close_restore operation) (λ _ _ tr, existsb reopens tr = true →
    ∃ pre r, tr = pre ++ [reopen_was (op_id operation) (op_epoch operation) r] ∧ existsb reopens pre = false ∧
      Forall (λ s : NodeStep, step_status s ≠ FAILED ∧ seen s pre) (op_steps operation)) tt [].
Proof.
  unfold close_restore. destruct (List.filter _ _) as [|s l] eqn:Hf; [|by walk_calls; intros [e|b] _; walk_calls].
  assert (Hok : Forall (λ s : NodeStep, step_status s ≠ FAILED) (op_steps operation)).
  { apply Forall_forall. intros s Hs Hst.
    assert (s ∈ List.filter (λ s : NodeStep, bool_decide (step_status s = FAILED)) (op_steps operation)) as Hin
      by (apply elem_of_List_filter; by rewrite bool_decide_eq_true).
    rewrite Hf in Hin. by apply elem_of_nil in Hin. }
  apply wp_bind. eapply wp_mono; [|apply look_all]. intros [e|[u|u]] st tr (Hr&_&Hall); walk_calls; simpl in Hr.
  - by rewrite Hr.
  - destruct u. walk_calls. by rewrite Hr.
  - destruct u. walk_calls. specialize (Hall eq_refl). intros r _. cbn [log].
    assert (H : ∃ pre r0, tr ++ [reopen_was (op_id operation) (op_epoch operation) r] =
      pre ++ [reopen_was (op_id operation) (op_epoch operation) r0] ∧ existsb reopens pre = false ∧
      Forall (λ s : NodeStep, step_status s ≠ FAILED ∧ seen s pre) (op_steps operation)).
    { exists tr, r. split_and!; [done..|]. by apply Forall_and. }
    by destruct r as [e|b]; walk_calls.
Qed.

(** ** Moving on *)

Definition probed (node name : string) (tr : list event) : Prop :=
  ∃ e id dg cx r, restore_was node e id probe name dg cx (inr r) ∈ tr.

Definition recorded_completed (probes : list (string * dict)) (name : string) : Prop :=
  ∃ e, dict_lookup name probes = Some e ∧ completed e = true.

(** The probes a step's row holds. *)
Definition probes_of (step : NodeStep) : list (string * dict) :=
  match dict_get (default [] (verification step)) "probes" with JObj d => entries_of d | _ => [] end.

(** Every saved model answered a probe, in this trace or as recorded before. *)
Definition all_probed (step : NodeStep) (tr : list event) : Prop :=
  ∀ m, m ∈ default [] (snapshot step) →
    probed (node_id step) (name_of m) tr ∨ recorded_completed (probes_of step) (name_of m).

(** Every phase the step is moved to, other than back to [pending], is the next
    one, and the call right before found the node whole. *)
Definition earned (step : NodeStep) (tr : list event) : Prop :=
  ∀ pre s p v r post, tr = pre ++ advance_was s p v r :: post → p ≠ phase step → p ≠ PENDING →
    (phase step, p) ∈ [(PENDING, LOADED); (LOADED, PROBED); (PROBED, VERIFIED)] ∧
    ∃ pre' resident, pre = pre' ++ [residency_was (node_id step) (inr (Some resident))] ∧
      whole (default [] (snapshot step)) resident ∧ (p = PROBED → all_probed step pre').

Lemma earned_snoc step tr e :
  earned step tr →
  (∀ s p v r, e = advance_was s p v r → p ≠ phase step → p ≠ PENDING →
    (phase step, p) ∈ [(PENDING, LOADED); (LOADED, PROBED); (PROBED, VERIFIED)] ∧
    ∃ pre' resident, tr = pre' ++ [residency_was (node_id step) (inr (Some resident))] ∧
      whole (default [] (snapshot step)) resident ∧ (p = PROBED → all_probed step pre')) →
  earned step (tr ++ [e]).
Proof.
  intros Ht He pre s p v r post Heq. destruct post as [|x post _] using rev_ind.
  - apply app_inj_tail in Heq as [-> ->]. by eapply He.
  - rewrite app_comm_cons, app_assoc in Heq. apply app_inj_tail in Heq as [-> _]. by eapply Ht.
Qed.

(** Advances in place, or back to [pending]. *)
Definition stays (step : NodeStep) R (q : port R) : Prop :=
  match q with Advance _ p _ => p = phase step ∨ p = PENDING | _ => True end.

(** The programs that move the step nowhere else. *)
Lemma earned_stays step {A} (p : method A) s tr :
  only (stays step) p → earned step tr → wp p (λ _ _ tr', earned step tr') s tr.
Proof.
  intros Hp Ht. eapply wp_mono; [|by apply (wp_only log any (stays step))]. intros o s' tr' (evs&->&Hevs).
  induction evs as [|e evs IH] using rev_ind; [by rewrite app_nil_r|]. rewrite app_assoc.
  apply Forall_app in Hevs as [Hevs He]. apply Forall_cons in He as [(R&q&r&Hq&->) _].
  apply earned_snoc; [by apply IH|]. intros s0 p0 v r0 Heq H1 H2. destruct q; simplify_eq/=. naive_solver.
Qed.

Lemma stays_advance (step : NodeStep) s p v : p = phase (step : NodeStep) ∨ p = PENDING → only (stays step) (advance s p v).
Proof.
  intros Hp. split; [done|]. intros [e|[|]]; try done. split; [done|]. intros [e|o]; [done|]. simpl. by case_match.
Qed.

Lemma stays_restore (step : NodeStep) s e id a m (f : method unit) :
  only (stays step) f → only (stays step) (restore_model s e id a m f).
Proof.
  intros Hf. apply only_catch; [split; [done|]; by intros [?|?]|]. intros [| |]; try done. case_match; [|done].
  by apply only_then.
Qed.

Lemma stays_load_missing operation (step : NodeStep) snap loads m :
  phase step = PENDING → only (stays step) (load_missing operation step snap loads m).
Proof.
  intros Hp. unfold load_missing. case_bool_decide; [done|]. apply only_then.
  - unfold unanswered. by repeat case_match.
  - intros before. apply only_then.
    + destruct before; [done|]. apply only_then; [|done]. by apply stays_advance; right.
    + intros [[id loads'] s]. apply only_then.
      * apply stays_restore, only_then; [|done]. by apply stays_advance; right.
      * intros reply. by apply stays_advance; right.
Qed.

Lemma stays_probe_one operation (step : NodeStep) loads progress acc m :
  phase step = LOADED → only (stays step) (probe_one operation loads progress acc m).
Proof.
  intros Hp. destruct acc as [[probes attempts] s]. unfold probe_one. case_match; [done|]. apply only_then.
  - destruct (unanswered_probe _); [done|]. apply only_then; [|done]. apply stays_advance. by left.
  - intros [[[e ps] n] s']. case_match; [|done]. apply only_then.
    + apply stays_restore, only_then; [|done]. apply stays_advance. by left.
    + intros reply. apply only_then; [|done]. apply stays_advance. by left.
Qed.

Lemma advance_node s p v st tr :
  wp (advance s p v) (λ o _ tr', tr `prefix_of` tr' ∧ (∀ s', o = inr s' → node_id s' = node_id s)) st tr.
Proof.
  unfold advance. walk_calls. intros [e|b] _; walk_calls; [by split; [apply prefix_app_r|]|].
  destruct b; walk_calls; [|by split; [apply prefix_app_r|]]. intros [e|o] _; walk_calls;
    [by split; [rewrite <- app_assoc; apply prefix_app_r|]|].
  assert (Hp : ∀ a b : list event, tr `prefix_of` (tr ++ a) ++ b) by (intros; rewrite <- app_assoc; by apply prefix_app_r).
  destruct (first_match _ _) as [s'|] eqn:Hm; walk_calls; [|by split].
  split; [done|]. intros s0 [= <-]. apply first_match_Some in Hm as (l1&l2&_&Hn&_). by unbool.
Qed.

Lemma earned_advance (step s : NodeStep) p v st tr resident :
  earned step (tr ++ [residency_was (node_id step) (inr (Some resident))]) →
  whole (default [] (snapshot step)) resident →
  (phase step, p) ∈ [(PENDING, LOADED); (LOADED, PROBED); (PROBED, VERIFIED)] →
  (p = PROBED → all_probed step tr) →
  wp (advance s p v) (λ _ _ tr', earned step tr') st (tr ++ [residency_was (node_id step) (inr (Some resident))]).
Proof.
  intros He Hw Hl Hpr. unfold advance. walk_calls. intros r _. cbn [log].
  assert (He' : earned step ((tr ++ [residency_was (node_id step) (inr (Some resident))]) ++ [advance_was s p v r])).
  { apply earned_snoc; [done|]. intros ? ? ? ? [= <- <- <- <-] _ _. split; [done|]. by exists tr, resident. }
  destruct r as [e|[|]]; walk_calls; [done| |done]. intros o _. cbn [log].
  assert (He2 : earned step (((tr ++ [residency_was (node_id step) (inr (Some resident))]) ++ [advance_was s p v (inr true)])
    ++ [operation_was (operation_id s) o])) by by apply earned_snoc.
  destruct o as [e|o]; walk_calls; [done|]. by destruct (first_match _ _).
Qed.

(** Observing, then going on with what was seen. *)
Lemma wp_observe {A} node snap (f : list dict → method A) Q st tr :
  (∀ r e, Q (inl e) st (tr ++ [residency_was node r])) →
  (∀ resident, strangers snap resident = [] → wp (f resident) Q st (tr ++ [residency_was node (inr (Some resident))])) →
  wp (let! resident := observe node in let! _ := no_strangers snap resident in f resident) Q st tr.
Proof.
  intros He Hf. unfold observe, no_strangers. walk_calls. intros [e|[r|]] _; walk_calls; [apply He| |apply He].
  destruct (strangers snap r) eqn:Hs; walk_calls; [by apply Hf|apply (He (inr (Some r)))].
Qed.

Lemma earned_still_whole (step s : NodeStep) snap then_ progress st tr :
  earned step tr → node_id s = node_id step → snap ≡ₚ default [] (snapshot step) →
  (phase step, then_) ∈ [(PENDING, LOADED); (LOADED, PROBED); (PROBED, VERIFIED)] →
  (then_ = PROBED → all_probed step tr) →
  wp (still_whole s snap then_ progress) (λ _ _ tr', earned step tr') st tr.
Proof.
  intros He Hn Hp Hl Hpr. unfold still_whole. rewrite Hn. apply wp_observe; [intros; by apply earned_snoc|].
  intros resident Hs. destruct (all_match snap resident) eqn:Ha.
  - apply earned_advance; [by apply earned_snoc| |done..]. eapply whole_perm; [exact Hp|]. by apply whole_spec.
  - apply earned_stays; [|by apply earned_snoc]. apply stays_advance. by right.
Qed.

(** ** Probing *)

(** Every entry that says completed was so when the loop began, or was probed since. *)
Definition probes_ok (node : string) (orig : list (string * dict)) (acc : list (string * dict) * Z * NodeStep)
    (tr : list event) : Prop :=
  node_id acc.2 = node ∧ ∀ n, recorded_completed acc.1.1 n → probed node n tr ∨ recorded_completed orig n.

Lemma probed_prefix node n tr tr' : tr `prefix_of` tr' → probed node n tr → probed node n tr'.
Proof. intros [l ->] (e&id&dg&cx&r&Hin). exists e, id, dg, cx, r. set_solver. Qed.

Lemma probes_ok_set node orig probes attempts s name e n0 s' tr tr' :
  probes_ok node orig (probes, attempts, s) tr → tr `prefix_of` tr' → node_id s' = node →
  (completed e = true → probed node name tr') →
  probes_ok node orig (dict_set name e probes, n0, s') tr'.
Proof.
  intros [_ Ho] Hp Hs He. split; [done|]. simpl. intros n (e'&Hl&Hc). rewrite dict_lookup_set in Hl.
  destruct (decide (n = name)) as [->|]; simplify_eq; [left; auto|].
  destruct (Ho n) as [H|H]; [by exists e'|left; by eapply probed_prefix|by right].
Qed.

Lemma restore_model_answers s e id a m (f : method unit) st tr :
  wp (restore_model s e id a m f) (λ o _ tr', tr `prefix_of` tr' ∧ ∀ r, o = inr r →
    restore_was (node_id s) e id a (name_of m) (dict_get m "digest") (dict_get m "context_length") (inr r) ∈ tr') st tr.
Proof.
  unfold restore_model. apply wp_catch. walk_calls. intros [x|r] _; walk_calls.
  - assert (Hp : tr `prefix_of` tr ++ [log _ (Restore (node_id s) e id a (name_of m) (dict_get m "digest") (dict_get m "context_length")) (inl x)])
      by by apply prefix_app_r.
    destruct x as [|c|]; walk_calls; [by split| |by split]. case_match; walk_calls; [|by split].
    apply wp_then. eapply wp_mono; [|apply wp_extends]. intros [?|?] ? tr' Hx; walk_calls; (split; [by etransitivity|done]).
  - split; [by apply prefix_app_r|]. intros r0 [= <-]. cbn [log]. set_solver.
Qed.

Lemma probe_one_ok operation loads progress node orig acc m st tr :
  probes_ok node orig acc tr →
  wp (probe_one operation loads progress acc m) (λ o _ tr', tr `prefix_of` tr' ∧ ∀ acc', o = inr (inr acc') →
    probes_ok node orig acc' tr' ∧ (probed node (name_of m) tr' ∨ recorded_completed orig (name_of m))) st tr.
Proof.
  destruct acc as [[probes attempts] s]. intros Hok. unfold probe_one.
  destruct (from_option completed false _) eqn:Hc.
  { destruct (dict_lookup (name_of m) probes) as [e|] eqn:Hl; [|done]. walk_calls. split; [done|].
    intros acc' [= <-]. split; [done|]. apply (proj2 Hok). by exists e. }
  apply wp_bind.
  apply (wp_mono _ _ _ (λ o _ tr1, tr `prefix_of` tr1 ∧ ∀ e probes1 n1 s1, o = inr (e, probes1, n1, s1) →
    probes_ok node orig (probes1, n1, s1) tr1)).
  2:{ destruct (unanswered_probe _) as [e|]; [by split; [|by intros ???? [= <- <- <- <-]]|].
      apply wp_bind. eapply wp_mono; [|apply advance_node]. intros [x|s1] ? tr1 [Hp Hn]; walk_calls; [by split|].
      split; [done|]. intros ???? [= <- <- <- <-]. eapply probes_ok_set; [exact Hok|done| |done].
      rewrite (Hn s1 eq_refl). apply Hok. }
  intros [x|[[[e probes1] n1] s1]] ? tr1 [Hp1 Hok1]; walk_calls; [by split|]. specialize (Hok1 _ _ _ _ eq_refl).
  destruct (dict_lookup "op_id" e) as [id|]; walk_calls; [|by split].
  apply wp_bind. eapply wp_mono; [|apply restore_model_answers]. intros [x|r] ? tr2 [Hp2 Hin]; walk_calls.
  { split; [by etransitivity|done]. }
  specialize (Hin r eq_refl). rewrite (proj1 Hok1 : node_id s1 = node) in Hin.
  assert (Hpr : probed node (name_of m) tr2) by by do 5 eexists.
  apply wp_bind. eapply wp_mono; [|apply advance_node]. intros [x|s2] ? tr3 [Hp3 Hn3]; walk_calls.
  { split; [by do 2 (etransitivity; [eassumption|])|done]. }
  split; [by do 2 (etransitivity; [eassumption|])|]. intros acc' [= <-].
  assert (Hpr3 : probed node (name_of m) tr3) by by eapply probed_prefix.
  split; [|by left]. eapply probes_ok_set; [exact Hok1|by etransitivity| |done].
  rewrite (Hn3 s2 eq_refl). apply Hok1.
Qed.

Lemma probe_all operation loads progress node orig l acc st tr :
  probes_ok node orig acc tr →
  wp (for_each (probe_one operation loads progress) acc l) (λ o _ tr', tr `prefix_of` tr' ∧ ∀ acc', o = inr (inr acc') →
    probes_ok node orig acc' tr' ∧ ∀ m, m ∈ l → probed node (name_of m) tr' ∨ recorded_completed orig (name_of m)) st tr.
Proof.
  revert acc st tr. induction l as [|m l IH]; intros acc st tr Hok; cbn [for_each].
  { split; [done|]. intros acc' [= <-]. split; [done|]. by intros m Hm%elem_of_nil. }
  apply wp_bind. eapply wp_mono; [|by apply probe_one_ok]. intros [x|[u|acc1]] ? tr1 [Hp1 Hok1]; walk_calls; [by split..|].
  destruct (Hok1 acc1 eq_refl) as [Hok2 Hm]. eapply wp_mono; [|by apply IH]. intros o ? tr2 [Hp2 H2].
  split; [by etransitivity|]. intros acc' Ho. destruct (H2 acc' Ho) as [Hok3 Hall]. split; [done|].
  intros m' [->|Hm']%elem_of_cons; [|by apply Hall]. destruct Hm; [left; by eapply probed_prefix|by right].
Qed.

Lemma entries_of_nil : entries_of [] = [].
Proof. done. Qed.

Lemma next_earned operation step : wp (next_restore operation step) (λ _ _ tr', earned step tr') tt [].
Proof.
  assert (He : earned step []) by (by intros [|] ??????).
  unfold next_restore. destruct (restore_order _) as [snap|] eqn:Hsnap; [|done].
  apply restore_order_perm in Hsnap. apply wp_bind.
  apply (wp_mono _ _ _ (λ _ _ tr', tr' = [])); [|by unfold as_list; repeat case_match].
  intros [x|loads] [] ? ->; [done|]. destruct (phase step) eqn:Hph; try done.
  - apply wp_observe; [intros; by apply earned_snoc|]. intros resident Hs.
    destruct (List.filter _ snap) as [|m missing] eqn:Hf.
    + apply (earned_advance step step LOADED); [by apply earned_snoc| |rewrite Hph; set_solver|done].
      eapply whole_perm; [exact Hsnap|]. apply whole_spec; [|done]. apply all_match_spec. intros m Hm.
      destruct (resident_matches m resident) eqn:Hr; [done|]. exfalso.
      assert (m ∈ List.filter (λ m, negb (resident_matches m resident)) snap) as Hin
        by (apply elem_of_List_filter; by rewrite Hr).
      rewrite Hf in Hin. by apply elem_of_nil in Hin.
    + apply earned_stays; [by apply stays_load_missing|by apply earned_snoc].
  - apply wp_bind. set (probes := dict_get _ "probes").
    apply (wp_mono _ _ _ (λ o _ tr', tr' = [] ∧ ∀ d, o = inr d → entries_of d = probes_of step)).
    2:{ unfold as_dict, probes_of. fold probes. destruct probes; simpl; repeat case_match; simpl; split; try done; by intros ? [= <-]. }
    intros [x|found] [] ? [-> Hd]; [done|]. specialize (Hd found eq_refl). case_match; [|done].
    apply wp_bind. eapply wp_mono; [|apply wp_and; [apply (earned_stays step); [|done]|apply (probe_all _ _ _ (node_id step) (probes_of step))]].
    + intros [x|[u|[[probes1 n1] s1]]] [] tr1 [He1 [_ H1]]; [done|by destruct u|]. destruct (H1 _ eq_refl) as [[Hn _] Hall].
      apply earned_still_whole; [done|done|done|rewrite Hph; set_solver|]. intros _ m Hm. apply Hall. by rewrite Hsnap.
    + clear -Hph. generalize (entries_of found, z, step). induction snap as [|m snap IH]; intros acc; cbn [for_each]; [done|].
      apply only_then; [by apply stays_probe_one|]. by intros [?|?].
    + split; [done|]. simpl. intros n Hc. right. by rewrite <- Hd.
  - apply earned_still_whole; [done|done|done|rewrite Hph; set_solver|done].
Qed.

(** ** How often a load is asked for *)

Section Bounded.
Context (operation : MaintenanceOperation) (saved : option (list dict)).

Definition max_loads : nat := length (default [] saved) * (1 + MAX_REPAIR_ROUNDS).

Definition in_range (id : string) : Prop := ∃ i, i < max_loads ∧ id = load_id operation i.

Definition good_loads (l : list json) : Prop :=
  length l ≤ max_loads ∧ Forall (λ j, ∃ e id, j = JObj e ∧ dict_lookup "op_id" e = Some (JStr id) ∧ in_range id) l.

Definition good (d : dict) : Prop :=
  dict_get d "loads" = JNull ∨ ∃ l, dict_get d "loads" = JArr l ∧ good_loads l.

(** Only the owner of the operation writes its steps, so a step that is read holds
    what the restore wrote, or nothing yet. *)
Definition from_rows (tr : list event) (s : NodeStep) : Prop :=
  snapshot s = saved ∧
  (verification s = None ∨ ∃ s0 p v r, advance_was s0 p v r ∈ tr ∧ is_Some (v_verification v) ∧
     verification s = v_verification v).

Definition own_rows (tr : list event) R (q : port R) : R → Prop :=
  match q with
  | Get_operation _ => λ r, match r with inr (Some o) => ∀ s, s ∈ op_steps o → from_rows tr s | _ => True end
  | _ => λ _, True
  end.

(** The life of one step of a restore, over any number of passes, owners and restarts. *)
Inductive turns : list event → Prop :=
  | no_turn : turns []
  | turn tr step o tr' :
      turns tr → from_rows tr step → exec log own_rows (next_restore operation step) tt tr o tt tr' → turns tr'.

Abbreviation wpo p := (Programs.wp log own_rows p).

Definition fine R (q : port R) : Prop :=
  match q with
  | Advance _ _ v => ∀ d, v_verification v = Some d → good d
  | Restore _ _ id load _ _ _ => in_range id
  | _ => True
  end.

Record bounded (tr : list event) : Prop := {
  b_written : ∀ s p v r d, advance_was s p v r ∈ tr → v_verification v = Some d → good d;
  b_asked : ∀ n e id m dg cx r, restore_was n e id load m dg cx r ∈ tr → in_range id
}.

Lemma bounded_snoc tr R (q : port R) r : bounded tr → fine R q → bounded (tr ++ [log R q r]).
Proof.
  intros [H1 H2] Hq. constructor; intros *; rewrite elem_of_app, list_elem_of_singleton; intros [Hin|Heq].
  - by eapply H1.
  - destruct q; simplify_eq/=. auto.
  - by eapply H2.
  - destruct q as [| |? ? ? []| | | | |]; try done. simpl in Heq, Hq. by injection Heq as -> -> -> -> -> -> ->.
Qed.

Lemma bounded_only {A} (p : method A) s tr :
  only fine p → bounded tr → wpo p (λ _ _ tr', bounded tr') s tr.
Proof.
  intros Hp Ht. eapply wp_mono; [|by apply (wp_only log own_rows fine)]. intros o s' tr' (evs&->&Hevs).
  induction evs as [|e evs IH] using rev_ind; [by rewrite app_nil_r|]. rewrite app_assoc.
  apply Forall_app in Hevs as [Hevs He]. apply Forall_cons in He as [(R&q&r&Hq&->) _].
  apply bounded_snoc; [by apply IH|done].
Qed.

Lemma from_rows_good tr s : bounded tr → from_rows tr s → good (default [] (verification s)).
Proof.
  intros [H1 _] [_ [->|(s0&p&v&r&Hin&[d Hd]&->)]]; [by left|]. rewrite Hd. by eapply H1.
Qed.

(** What [advance] returns was written too. *)
Lemma advance_bounded s p v st tr :
  (∀ d, v_verification v = Some d → good d) → bounded tr →
  wpo (advance s p v) (λ o _ tr', bounded tr' ∧ ∀ s', o = inr s' → good (default [] (verification s'))) st tr.
Proof.
  intros Hv Ht. unfold advance. walk_calls. intros r _. cbn [log].
  assert (Ht1 : bounded (tr ++ [log _ (Advance s p v) r])) by by apply bounded_snoc.
  destruct r as [e|[|]]; walk_calls; [by split| |by split]. intros o Ho. cbn [log] in *.
  assert (Ht2 : bounded ((tr ++ [advance_was s p v (inr true)]) ++ [log _ (Get_operation (operation_id s)) o])) by by apply bounded_snoc.
  destruct o as [e|o]; walk_calls; [by split|]. destruct (first_match _ _) as [s'|] eqn:Hm; walk_calls; [|by split].
  split; [done|]. intros s0 [= <-]. eapply from_rows_good; [exact Ht1|]. destruct o as [o|]; [|done].
  apply Ho. apply first_match_Some in Hm as (l1&l2&Hl&_). simpl in Hl. rewrite Hl. set_solver.
Qed.

Lemma good_loads_value loads d : good_loads loads → v_verification (loads_value loads) = Some d → good d.
Proof. intros Hl [= <-]. right. by exists loads. Qed.

Lemma answered_good loads state : good_loads loads → good_loads (answered loads state).
Proof.
  unfold answered. intros [Hlen Hall]. destruct (rev loads) as [|[| | | | | |l] rest] eqn:Hr; try done.
  assert (loads = rev rest ++ [JObj l]) as -> by (rewrite <- (rev_involutive loads), Hr; done). simpl.
  apply Forall_app in Hall as [Hall (e&id&[= <-]&Hid&Hrg)%Forall_singleton]. split.
  - by rewrite !length_app in *.
  - apply Forall_app. split; [done|]. apply Forall_singleton. exists (dict_set "state" state l), id.
    split_and!; [done| |done]. by rewrite dict_lookup_set.
Qed.

Lemma good_union d extra : "loads" ∉ extra.*1 → NoDup extra.*1 → good d → good (dict_union d extra).
Proof.
  intros Hn Hnd. unfold good, dict_get. rewrite dict_lookup_union by done.
  destruct (dict_lookup "loads" extra) as [v|] eqn:Hl; [|done]. exfalso. apply Hn. clear -Hl.
  induction extra as [|[k x] extra IH]; simpl in *; [done|]. case_decide as Hk; [rewrite Hk; left|right; auto].
Qed.

Lemma fine_advance s p v : (∀ d, v_verification v = Some d → good d) → only fine (advance s p v).
Proof.
  intros Hv. split; [done|]. intros [e|[|]]; try done. split; [done|]. intros [e|o]; [done|]. simpl. by case_match.
Qed.

Lemma fine_restore s e id a m (f : method unit) :
  (a = load → in_range id) → only fine f → only fine (restore_model s e id a m f).
Proof.
  intros Hid Hf. apply only_catch.
  - split; [destruct a; simpl; auto|]. by intros [?|?].
  - intros [| |]; try done. case_match; [|done]. by apply only_then.
Qed.

(** The load itself, and what is written after it. *)
Lemma fine_load s id model loads :
  in_range id → good_loads loads →
  only fine (let! reply := restore_model s (op_epoch operation) id load model
      (let! _ := advance s PENDING (loads_value (answered loads (JStr "failed"))) in Pure tt) in
    advance s PENDING (loads_value (answered loads (dict_get reply "state")))).
Proof.
  intros Hid Hl. apply only_then.
  - apply fine_restore; [done|]. apply only_then; [|done]. apply fine_advance. intros d.
    by apply good_loads_value, answered_good.
  - intros reply. apply fine_advance. intros d. by apply good_loads_value, answered_good.
Qed.

Lemma load_missing_bounded s snap loads model st tr :
  length snap = length (default [] saved) → good_loads loads → bounded tr →
  wpo (load_missing operation s snap loads model) (λ _ _ tr', bounded tr') st tr.
Proof.
  intros Hlen Hl Ht. unfold load_missing. rewrite Hlen. case_bool_decide as Hmax; [done|]. apply wp_bind.
  apply (wp_mono _ _ _ (λ o _ tr', tr' = tr ∧ ∀ id, o = inr (Some id) → in_range id)).
  2:{ unfold unanswered. destruct (last loads) as [j|] eqn:Hlast; [|by split].
      apply last_Some_elem_of in Hlast. destruct Hl as [_ Hall]. rewrite Forall_forall in Hall.
      destruct (Hall _ Hlast) as (e&id&->&Hid&Hrg). case_match; [|by split]. rewrite Hid. split; [done|]. by intros ? [= <-]. }
  intros [x|[id|]] st1 tr1 [-> Hid]; walk_calls; [done| |].
  - apply bounded_only; [|done]. apply fine_load; auto.
  - set (loads' := loads ++ _).
    assert (Hrg : in_range (load_id operation (length loads))) by (exists (length loads); split; [unfold max_loads; lia|done]).
    assert (Hl' : good_loads loads').
    { destruct Hl as [Hn Hall]. split; [unfold loads'; rewrite length_app; simpl; unfold max_loads in *; lia|].
      apply Forall_app. split; [done|]. apply Forall_singleton. by do 2 eexists. }
    change (wpo (let! asked := (let! s' := advance s PENDING (loads_value loads') in Pure (load_id operation (length loads), loads', s')) in
      let '(id, loads, s') := asked in
      let! reply := restore_model s' (op_epoch operation) id load model
        (let! _ := advance s' PENDING (loads_value (answered loads (JStr "failed"))) in Pure tt) in
      advance s' PENDING (loads_value (answered loads (dict_get reply "state")))) (λ _ _ tr', bounded tr') st1 tr).
    apply wp_bind, wp_bind. eapply wp_mono; [|apply advance_bounded; [|done]]; [|intros d; by apply good_loads_value].
    intros [x|s'] st2 tr2 [Ht2 _]; walk_calls; [done|]. apply bounded_only; [|done]. by apply fine_load.
Qed.

Lemma with_verification_inv v d : v_verification (with_verification v) = Some d → d = v.
Proof. by intros [= <-]. Qed.

Lemma fine_still_whole s snap p progress : good progress → only fine (still_whole s snap p progress).
Proof.
  intros Hg. unfold still_whole. apply only_then; [split; [done|]; intros [x|[r|]]; done|]. intros r.
  apply only_then; [unfold no_strangers; by case_match|]. intros _. case_match; apply fine_advance; intros d ->%with_verification_inv.
  - apply good_union; [|by repeat constructor; set_solver|done]. simpl. set_solver.
  - right. unfold or_default. destruct Hg as [Hn|(l&Hl&Hok)].
    + rewrite Hn. exists []. split; [done|]. split; [simpl; lia|done].
    + rewrite Hl. destruct (truthy (JArr l)); [by exists l|]. exists []. split; [done|]. split; [simpl; lia|done].
Qed.

Lemma good_probes_value progress probes n d : good progress → v_verification (probes_value progress probes n) = Some d → good d.
Proof.
  intros Hg ->%with_verification_inv. apply good_union; [|by repeat constructor; set_solver|done]. simpl. set_solver.
Qed.

Lemma probe_one_bounded loads progress (acc : list (string * dict) * Z * NodeStep) m st tr :
  good progress → good (default [] (verification acc.2)) → bounded tr →
  wpo (probe_one operation loads progress acc m) (λ o _ tr', bounded tr' ∧ ∀ acc', o = inr (inr acc') →
    good (default [] (verification acc'.2))) st tr.
Proof.
  destruct acc as [[probes n] s]. simpl. intros Hg Hs Ht. unfold probe_one.
  destruct (from_option completed false _); [split; [done|]; by intros acc' [= <-]|].
  apply wp_bind. apply (wp_mono _ _ _ (λ o _ tr1, bounded tr1 ∧ ∀ e p1 n1 (s1 : NodeStep), o = inr (e, p1, n1, s1) →
    good (default [] (verification s1)))).
  2:{ destruct (unanswered_probe _); [split; [done|]; by intros ???? [= <- <- <- <-]|].
      apply wp_bind. eapply wp_mono; [|apply advance_bounded; [|done]]; [|intros d; by apply good_probes_value].
      intros [x|s1] ? tr1 [Ht1 H1]; walk_calls; [by split|]. split; [done|]. intros ???? [= <- <- <- <-]. auto. }
  intros [x|[[[e p1] n1] s1]] ? tr1 [Ht1 H1]; walk_calls; [by split|]. specialize (H1 _ _ _ _ eq_refl).
  destruct (dict_lookup "op_id" e) as [id|]; walk_calls; [|by split].
  apply wp_bind. eapply wp_mono; [|apply bounded_only; [|exact Ht1]].
  - intros [x|r] ? tr2 Ht2; walk_calls; [by split|].
    apply wp_bind. eapply wp_mono; [|apply advance_bounded; [|done]]; [|intros d; by apply good_probes_value].
    intros [x|s2] ? tr3 [Ht3 H3]; walk_calls; [by split|]. split; [done|]. intros acc' [= <-]. auto.
  - apply fine_restore; [done|]. apply only_then; [|done]. apply fine_advance. intros d. by apply good_probes_value.
Qed.

Lemma next_bounded s tr :
  from_rows tr s → bounded tr → wpo (next_restore operation s) (λ _ _ tr', bounded tr') tt tr.
Proof.
  intros Hs Ht. pose proof (from_rows_good tr s Ht Hs) as Hg. destruct Hs as [Hsaved _]. unfold next_restore. rewrite Hsaved.
  destruct (restore_order _) as [snap|] eqn:Hsnap; [|done]. apply restore_order_perm, Permutation_length in Hsnap.
  apply wp_bind. apply (wp_mono _ _ _ (λ o _ tr', tr' = tr ∧ ∀ l, o = inr l → good_loads l)).
  { intros [x|loads] [] tr1 [-> Hl]; [done|]. specialize (Hl loads eq_refl). destruct (phase s) eqn:Hph; try done.
    - apply wp_bind. eapply wp_mono; [|apply bounded_only; [|exact Ht]]; [|split; [done|]; by intros [x|[r|]]].
      intros [x|resident] [] tr1 Ht1; [done|]. apply wp_bind. eapply wp_mono; [|apply bounded_only; [|exact Ht1]];
        [|unfold no_strangers; by case_match]. intros [x|[]] [] tr2 Ht2; [done|].
      destruct (List.filter _ _) as [|m l]; [|by apply load_missing_bounded]. apply bounded_only; [|done].
      apply fine_advance. intros d ->%with_verification_inv. apply good_union; [|by repeat constructor; set_solver|done]. simpl. set_solver.
    - apply wp_bind. eapply wp_mono; [|apply bounded_only; [|exact Ht]]; [|unfold as_dict; by repeat case_match].
      intros [x|found] [] tr1 Ht1; [done|]. case_match; [|done]. apply wp_bind.
      apply (wp_for_each _ _ _ (λ (acc : list (string * dict) * Z * NodeStep) _ tr, good (default [] (verification acc.2)) ∧ bounded tr)).
      + intros acc m [] tr2 _ [Ha Ht2]. eapply wp_mono; [|by apply probe_one_bounded].
        intros [x|[u|acc']] [] tr3 [Ht3 H3]; [done|by destruct u|]. split; [by apply H3|done].
      + intros [[p1 n1] s1] [] tr2 [Ha Ht2]. apply bounded_only; [|done]. by apply fine_still_whole.
      + done.
    - apply bounded_only; [|done]. by apply fine_still_whole. }
  unfold as_list. destruct Hg as [->|(l&->&Hl)]; simpl.
  - split; [done|]. intros l [= <-]. split; [simpl; lia|done].
  - destruct l; simpl; (split; [done|]; by intros l' [= <-]).
Qed.

Lemma turns_bounded tr : turns tr → bounded tr.
Proof.
  induction 1 as [|tr s o tr' Hturns IH Hs He]; [by constructor; intros * Hin%elem_of_nil|].
  pose proof (next_bounded s tr Hs IH) as Hw. rewrite wp_exec in Hw. exact (Hw _ _ _ He).
Qed.
End Bounded.
End Restoration.

(** * Guarantees *)

(** C35: The platform reopens after a restore only onto whole nodes.  Whatever the
    nodes and the store answer, ending a restore asks for the serving commit only
    as its last call, when no step of it failed, and after every node of it was
    observed in that very call: all its saved models resident with the weights and
    the context that were recorded, and no model beside them. *)
Theorem reopens_only_onto_whole_nodes to_str operation o tr id e r :
  exec log any (close_restore to_str operation) tt [] o tt tr → reopen_was id e r ∈ tr →
  id = op_id operation ∧ e = op_epoch operation ∧ ∃ pre, tr = pre ++ [reopen_was id e r] ∧
    ∀ s : NodeStep, s ∈ op_steps operation → step_status s ≠ FAILED ∧
      ∃ resident, residency_was (node_id s) (inr (Some resident)) ∈ pre ∧ whole (default [] (snapshot s)) resident.
Proof.
  intros He Hin. pose proof (close_reopens to_str operation) as Hw. rewrite wp_exec in Hw.
  destruct (Hw _ _ _ He) as (pre&r0&->&Hpre&Hall).
  { apply existsb_exists. exists (reopen_was id e r). split; [by apply list_elem_of_In|done]. }
  apply elem_of_app in Hin as [Hin|Hin%list_elem_of_singleton].
  { rewrite existsb_false, Forall_forall in Hpre. by apply Hpre in Hin. }
  injection Hin as -> -> ->. split_and!; [done..|]. exists pre. split; [done|].
  rewrite Forall_forall in Hall. intros s Hs. exact (Hall s Hs).
Qed.

(** A restore step moves on only over a node seen whole.  Whatever the node and
    the store answer, a turn of a restore that moves its step to another phase
    moves it to the next one - loaded, probed, verified, in that order - or back to
    pending; and it moves on directly after an observation of the node in
    which every saved model is resident as recorded and nothing else is.  It
    reaches probed only when each saved model answered a probe. *)
Theorem restored_only_when_seen_whole to_str to_int operation (step s : NodeStep) o tr pre p v r post :
  exec log any (next_restore to_str to_int operation step) tt [] o tt tr →
  tr = pre ++ advance_was s p v r :: post → p ≠ phase step → p ≠ PENDING →
  (phase step, p) ∈ [(PENDING, LOADED); (LOADED, PROBED); (PROBED, VERIFIED)] ∧
  ∃ pre' resident, pre = pre' ++ [residency_was (node_id step) (inr (Some resident))] ∧
    whole (default [] (snapshot step)) resident ∧ (p = PROBED → all_probed to_str step pre').
Proof.
  intros He Htr Hp1 Hp2. pose proof (next_earned to_str to_int operation step) as Hw. rewrite wp_exec in Hw.
  exact (Hw _ _ _ He _ _ _ _ _ _ Htr Hp1 Hp2).
Qed.

(** The ids of the loads a node was asked for. *)
Definition load_ids (tr : list event) : gset string :=
  list_to_set (omap (λ e, match e with restore_was _ _ id load _ _ _ _ => Some id | _ => None end) tr).

Lemma size_list_to_set_at_most (l : list string) : size (list_to_set l : gset string) ≤ length l.
Proof.
  induction l as [|x l IH]; simpl; [done|]. rewrite size_union_alt, size_singleton.
  assert (size ((list_to_set l : gset string) ∖ {[x]}) ≤ size (list_to_set l : gset string)) by (apply subseteq_size; set_solver).
  lia.
Qed.

(** A restore loads a bounded number of times.  Over the whole life of a
    restore step, across passes, timeouts, failures, restarts of the coordinator and
    evictions, the loads a node is asked for carry at most three ids per saved
    model: each is recorded before it is asked, and one not answered is asked
    again under the id it had.  (That a step read back holds what this
    restore wrote is what the fence of [Maintenance] is for.) *)
Theorem restore_loads_are_bounded to_str to_int operation saved tr :
  turns to_str to_int operation saved tr →
  size (load_ids tr) ≤ length (default [] saved) * (1 + MAX_REPAIR_ROUNDS).
Proof.
  intros [_ Hasked]%turns_bounded. fold (max_loads saved).
  transitivity (size (list_to_set (load_id operation <$> seq 0 (max_loads saved)) : gset string)).
  - apply subseteq_size. intros id Hid. unfold load_ids in Hid.
    apply elem_of_list_to_set, list_elem_of_omap in Hid as (ev&Hin&Hev).
    destruct ev as [| |n e i [] m dg cx r| | | | |]; try done. injection Hev as ->.
    destruct (Hasked _ _ _ _ _ _ _ Hin) as (i&Hi&->). apply elem_of_list_to_set, list_elem_of_fmap.
    exists i. split; [done|]. apply elem_of_seq. lia.
  - etransitivity; [apply size_list_to_set_at_most|]. by rewrite length_fmap, length_seq.
Qed.

(** ** One model put back *)

Module Demo.
Definition to_str (j : json) : string := "?".
Definition to_int (j : json) : option Z := None.
Definition model : dict := [("name", JStr "m"); ("digest", JStr "sha"); ("size", JInt 7); ("context_length", JInt 4096)].
Definition resident : dict := model ++ [("size_vram", JInt 7)].

(** The row as last written. *)
Definition last_written (tr : list event) : StepPhase * option dict :=
  foldl (λ pv e, match e with
                 | advance_was _ p v _ => (p, match v_verification v with Some d => Some d | None => pv.2 end)
                 | _ => pv end) (PENDING, None) tr.

Definition row_of (p : StepPhase) (v : option dict) : step_row :=
  mk_step_row p (if bool_decide (p = VERIFIED) then DONE else RUNNING) 0 None (Some [model]) None None None None None v None 0.
Definition step_at (tr : list event) : NodeStep :=
  mk_step "op" "n" (row_of (last_written tr).1 (last_written tr).2).
Definition operation_at (tr : list event) : MaintenanceOperation :=
  mk_operation "op" (mk_op_row RESTORE 4 OP_RUNNING "root" (Some "a") None None 1 1 None) [step_at tr].

Definition loaded (tr : list event) : bool :=
  existsb (λ e, match e with restore_was _ _ _ load _ _ _ (inr _) => true | _ => false end) tr.
Definition timed_out (tr : list event) : bool :=
  existsb (λ e, match e with restore_was _ _ _ load _ _ _ (inl _) => true | _ => false end) tr.

(** The first load times out. *)
Definition env (tr : list event) R (q : port R) : R :=
  match q with
  | Control_for _ => inr true
  | Residency _ => inr (Some (if loaded tr then [resident] else []))
  | Restore _ _ _ load _ _ _ => if timed_out tr then inr [("state", JStr "completed")] else inl (ControlError unobserved)
  | Restore _ _ _ probe _ _ _ => inr [("state", JStr "completed")]
  | Advance _ _ _ => inr true
  | Get_operation _ => inr (Some (operation_at tr))
  | Finish _ _ _ => inr true
  | Rewind _ _ => inr true
  | Reopen_after _ _ => inr true
  end.

Lemma last_written_own tr :
  (last_written tr).2 = None ∨ ∃ s p v r, advance_was s p v r ∈ tr ∧ is_Some (v_verification v) ∧
    (last_written tr).2 = v_verification v.
Proof.
  unfold last_written. induction tr as [|e tr IH] using rev_ind; [by left|]. rewrite foldl_app. simpl.
  destruct e as [| | |s p v r| | | |]; try (destruct IH as [IH|(s0&p0&v0&r0&Hin&?&?)]; [by left|right; exists s0, p0, v0, r0; rewrite elem_of_app; auto]).
  simpl. destruct (v_verification v) as [d|] eqn:Hv.
  - right. exists s, p, v, r. rewrite Hv. split; [set_solver|]. split; [by eexists|done].
  - destruct IH as [IH|(s0&p0&v0&r0&Hin&?&?)]; [by left|]. right. exists s0, p0, v0, r0. rewrite elem_of_app. auto.
Qed.

Lemma own tr : from_rows (Some [model]) tr (step_at tr).
Proof. split; [done|]. apply last_written_own. Qed.

Lemma env_owns tr R q : own_rows (Some [model]) tr R q (env tr R q).
Proof. destruct q; simpl; try done. intros s ->%list_elem_of_singleton. apply own. Qed.

Definition turn_of (tr : list event) : list event :=
  (run log env (next_restore to_str to_int (operation_at []) (step_at tr)) tt tr).2.

Lemma turns_on tr : turns to_str to_int (operation_at []) (Some [model]) tr →
  turns to_str to_int (operation_at []) (Some [model]) (turn_of tr).
Proof.
  intros H. eapply turn; [exact H|apply own|]. destruct (run log env (next_restore to_str to_int (operation_at []) (step_at tr)) tt tr).1.2 eqn:Hu.
  pose proof (exec_run log (own_rows (Some [model])) env (next_restore to_str to_int (operation_at []) (step_at tr)) tt tr env_owns) as He.
  rewrite Hu in He. exact He.
Qed.

Definition history : list event := Nat.iter 6 turn_of [].

Lemma history_turns : turns to_str to_int (operation_at []) (Some [model]) history.
Proof. unfold history. simpl. do 6 apply turns_on. constructor. Qed.
End Demo.

Lemma restore_loads_are_bounded_witness :
  phase (Demo.step_at Demo.history) = VERIFIED ∧ size (load_ids Demo.history) = 1 ∧
  size (load_ids Demo.history) ≤ length [Demo.model] * 3.
Proof.
  split; [vm_compute; reflexivity|]. split; [vm_compute; reflexivity|].
  exact (restore_loads_are_bounded Demo.to_str Demo.to_int (Demo.operation_at []) (Some [Demo.model]) Demo.history Demo.history_turns).
Defined.

(** The last turn, on a node seen whole. *)
Definition settled_env (tr : list event) R (q : port R) : R :=
  match q with
  | Residency _ => inr (Some [Demo.resident])
  | q => Demo.env tr _ q
  end.

Definition probed_step : NodeStep := mk_step "op" "n" (Demo.row_of PROBED (Some [("loads", JArr [])])).
Definition last_turn := run log settled_env (next_restore Demo.to_str Demo.to_int (Demo.operation_at []) probed_step) tt [].

Lemma restored_only_when_seen_whole_witness :
  (phase probed_step, VERIFIED) ∈ [(PENDING, LOADED); (LOADED, PROBED); (PROBED, VERIFIED)] ∧
  ∃ pre' resident, [residency_was "n" (inr (Some [Demo.resident]))] = pre' ++ [residency_was (node_id probed_step) (inr (Some resident))] ∧
    whole (default [] (snapshot probed_step)) resident ∧ (VERIFIED = PROBED → all_probed Demo.to_str probed_step pre').
Proof.
  assert (He : exec log any (next_restore Demo.to_str Demo.to_int (Demo.operation_at []) probed_step) tt [] last_turn.1.1 tt last_turn.2).
  { assert (H := exec_run log any settled_env (next_restore Demo.to_str Demo.to_int (Demo.operation_at []) probed_step) tt [] (λ _ _ _, I)).
    change (run log settled_env _ tt []) with last_turn in H. destruct last_turn.1.2. exact H. }
  assert (Htr : ∃ v r post, last_turn.2 = [residency_was "n" (inr (Some [Demo.resident]))] ++ advance_was probed_step VERIFIED v r :: post)
    by (do 3 eexists; vm_compute; reflexivity).
  destruct Htr as (v&r&post&Htr).
  by eapply (restored_only_when_seen_whole Demo.to_str Demo.to_int (Demo.operation_at []) probed_step probed_step).
Defined.

Definition closing := run log settled_env (close_restore Demo.to_str (Demo.operation_at [])) tt [].

Lemma reopens_only_onto_whole_nodes_witness :
  "op" = op_id (Demo.operation_at []) ∧ 4%Z = op_epoch (Demo.operation_at []) ∧
  ∃ pre, closing.2 = pre ++ [reopen_was "op" 4 (inr true)] ∧
    ∀ s : NodeStep, s ∈ op_steps (Demo.operation_at []) → step_status s ≠ FAILED ∧
      ∃ resident, residency_was (node_id s) (inr (Some resident)) ∈ pre ∧ whole (default [] (snapshot s)) resident.
Proof.
  apply (reopens_only_onto_whole_nodes Demo.to_str (Demo.operation_at []) closing.1.1).
  - assert (He := exec_run log any settled_env (close_restore Demo.to_str (Demo.operation_at [])) tt [] (λ _ _ _, I)).
    change (run log settled_env _ tt []) with closing in He. destruct closing.1.2. exact He.
  - vm_compute. set_solver.
Defined.
