(* ===== verification/Binding.v ===== *)
(** Binding a request to the one attempt that may run for it
    ([application/use_cases/route_chat_request/binding.py] and
    [adapters/persistence/repositories/request_bindings.py]).

    [ledger] holds the two tables, [request_bindings] and [request_attempts];
    [create_tx], [rebind_tx] and [lookup_row] are the statements of the
    repository.  [repeat] and [bind] are the methods of [RequestBinder] as
    programs over those statements and over calls to the node's agent.  [wstep]
    runs any number of them, interleaved at every call, beside the agents of
    [Election]: what an agent answers is what its database says. *)

From S2P Require Export Programs Election.
From stdpp Require Export gmap.

(** * The tables *)

Record binding_row := mk_binding_row {
  current_seq : Z;
  row_version : Z;
  row_hash : string;
  row_hash_version : string;
  row_key_supplied : bool;
  row_billing : dict
}.

Record attempt_row := mk_attempt {
  at_node : string;
  at_op : string;
  retry_of_seq : option Z;
  client_delivery_complete : option bool;
  created_at : Z;
  at_billing : option dict
}.

(** Keys: [(tenant_id, request_id)] and [(tenant_id, request_id, seq)]. *)
Record ledger := mk_ledger {
  bindings : gmap (string * string) binding_row;
  attempts : gmap (string * string * Z) attempt_row
}.

(** [domain/entities/attempt.py], [Binding]. *)
Record Binding := mk_binding {
  b_tenant : string;
  b_request : string;
  b_hash : string;
  b_hash_version : string;
  b_key_supplied : bool;
  b_version : Z;
  b_seq : Z;
  b_node : string;
  b_op : string;
  b_billing : dict
}.

Record RequestIdentity := mk_request_identity {
  id_key : option string; id_shape : string; id_body : json
}.
Record AttemptIdentity := mk_attempt_identity {
  ai_op : string; ai_request : option string; ai_hash : option string; ai_store : bool
}.
Record AttemptView := mk_view {
  v_op : string; v_state : string; v_reason : option string; v_result : option dict
}.

(** [SELECT ... FROM request_bindings b JOIN request_attempts a
     ON ... AND a.seq = b.current_seq], through [_binding]. *)
Definition lookup_row (t r : string) (l : ledger) : option Binding :=
  match bindings l !! (t, r) with
  | Some b =>
      match attempts l !! (t, r, current_seq b) with
      | Some a => Some (mk_binding t r (row_hash b) (row_hash_version b) (row_key_supplied b)
                          (row_version b) (current_seq b) (at_node a) (at_op a)
                          (default (row_billing b) (at_billing a)))
      | None => None
      end
  | None => None
  end.

(** [uq_request_attempts_op_id] *)
Definition op_taken (op : string) (l : ledger) : bool :=
  bool_decide (map_Exists (λ _ a, at_op a = op) (attempts l)).

(** An insert into [request_attempts]; [None] is an integrity error. *)
Definition insert_attempt (t r : string) (s : Z) (a : attempt_row) (l : ledger) : option ledger :=
  match attempts l !! (t, r, s) with
  | Some _ => None
  | None => if op_taken (at_op a) l then None
            else Some (mk_ledger (bindings l) (<[(t, r, s) := a]> (attempts l)))
  end.

(** The transaction of [create]: the binding and its first attempt, or nothing
    when the key is already bound. *)
Definition create_tx (t r hash hv : string) (keyed : bool) (bill : dict) (n op : string) (now : Z)
    (l : ledger) : option ledger :=
  match bindings l !! (t, r) with
  | Some _ => Some l
  | None =>
      insert_attempt t r 1 (mk_attempt n op None None now (Some bill))
        (mk_ledger (<[(t, r) := mk_binding_row 1 0 hash hv keyed bill]> (bindings l)) (attempts l))
  end.

(** The transaction of [rebind]: conditional on the version the caller saw. *)
Definition rebind_tx (b : Binding) (n op : string) (bill : dict) (now : Z) (l : ledger)
    : option ledger :=
  match bindings l !! (b_tenant b, b_request b) with
  | Some row =>
      if bool_decide (row_version row = b_version b) then
        let moved := mk_binding_row (current_seq row + 1) (row_version row + 1) (row_hash row)
                       (row_hash_version row) (row_key_supplied row) (row_billing row) in
        insert_attempt (b_tenant b) (b_request b) (current_seq row + 1)
          (mk_attempt n op (Some (b_seq b)) None now (Some bill))
          (mk_ledger (<[(b_tenant b, b_request b) := moved]> (bindings l)) (attempts l))
      else Some l
  | None => Some l
  end.

Definition set_delivery (c : bool) (a : attempt_row) : attempt_row :=
  mk_attempt (at_node a) (at_op a) (retry_of_seq a) (Some c) (created_at a) (at_billing a).

(** [UPDATE request_attempts SET client_delivery_complete = ...
     WHERE op_id = ... AND client_delivery_complete IS NULL] *)
Definition mark_delivery (op : string) (complete : bool) (l : ledger) : ledger :=
  mk_ledger (bindings l)
    ((λ a, if bool_decide (at_op a = op ∧ client_delivery_complete a = None)
           then set_delivery complete a else a) <$> attempts l).

(** * The binder *)

Inductive bexn : Type :=
  | NoAvailableModelError
  | IdempotencyInProgressError
  | IdempotencyKeyReusedError
  | IdempotencyAttemptFailedError
  | IdempotencyResultExpiredError
  | BindingVanished
  | BindingStoreError
  | AgentRefusal
  | NotJson.

Inductive beff : Type → Type :=
  | EMint : beff string
  | ERequestId : beff (option string)
  | ELookup (t r : string) : beff (bexn + option Binding)
  | ECreate (t r hash hv : string) (keyed : bool) (bill : dict) (n op : string) : beff (bexn + unit)
  | ERebind (b : Binding) (n op : string) (bill : dict) : beff (bexn + unit)
  | ELedger (n : string) : beff (bexn + bool)
  | EDescribe (n op : string) : beff (bexn + option AttemptView)
  | ECancel (n op : string) (k : op_kind) : beff (bexn + AttemptView).

Abbreviation bprog := (prog beff bexn unit).

(** What answers a request from an attempt that exists: [ledger.replay(ref, view)]. *)
Record replayed := mk_replayed { replay_ref : json; replay_view : AttemptView }.

Definition HASH_VERSION : string := "v1".
Definition UNFINISHED : list string := ["accepted"; "running"; "outcome_unknown"].

Definition keyed_request_id (key : string) : string := ("k:" ++ key)%string.
Definition INTERNAL : RequestIdentity := mk_request_identity None "internal" (JObj []).

(** [billing_snapshot]; [tier] and the two counts are the compaction's. *)
Definition billing_snapshot (actor_id : string) (api_key_id : option string) (tenant : string)
    (capability : string) (requested : option string) (model_alias model_ref node_id started_at : string)
    (tier before after : option Z) : dict :=
  [("actor_id", JStr actor_id); ("api_key_id", jopt_str api_key_id); ("tenant_id", JStr tenant);
   ("capability", JStr capability); ("requested_capability", jopt_str requested);
   ("model_alias", JStr model_alias); ("model_ref", JStr model_ref); ("node_id", JStr node_id);
   ("started_at", JStr started_at);
   ("compaction", JObj [("tier", jopt_int tier); ("tokens_before", jopt_int before);
                        ("tokens_after", jopt_int after)])].

Section Binder.
(** [json.dumps(..., sort_keys=True, allow_nan=False)] and [hashlib.sha256(...).hexdigest()]. *)
Context (dumps : json → option string) (sha256 : string → string).

Definition canonical_v1 (i : RequestIdentity) : option string :=
  dumps (JObj [("shape", JStr (id_shape i)); ("body", id_body i)]).

Definition payload_hash (i : RequestIdentity) (v : string) : bprog string :=
  if bool_decide (v = "v1") then
    match canonical_v1 i with
    | Some text => Pure (v ++ ":" ++ sha256 text)%string
    | None => Throw NotJson
    end
  else Throw NoAvailableModelError.

(** [PostgresRequestBindings.lookup], [create] and [rebind]. *)
Definition lookup_binding (t r : string) : bprog (option Binding) := invoke (ELookup t r).

Definition found_again (t r : string) : bprog Binding :=
  let! found := lookup_binding t r in
  match found with Some b => Pure b | None => Throw BindingVanished end.

Definition create (t r hash hv : string) (keyed : bool) (bill : dict) (n op : string)
    : bprog Binding :=
  let! _ := invoke (ECreate t r hash hv keyed bill n op) in found_again t r.

Definition rebind (b : Binding) (n op : string) (bill : dict) : bprog Binding :=
  let! _ := invoke (ERebind b n op bill) in found_again (b_tenant b) (b_request b).

Definition check_hash (b : Binding) (i : RequestIdentity) : bprog unit :=
  let! h := payload_hash i (b_hash_version b) in
  if bool_decide (h = b_hash b) then Pure tt else Throw IdempotencyKeyReusedError.

(** The end of [_existing], once the attempt has been seen. *)
Definition answered_by (b : Binding) (view : AttemptView) : bprog (option replayed) :=
  if bool_decide (v_state view = "cancelled_unsent") then Pure None
  else if bool_decide (v_state view = "completed") then
    match v_result view with
    | None => Throw IdempotencyResultExpiredError
    | Some _ => Pure (Some (mk_replayed (default (JStr "") (dict_lookup "model_ref" (b_billing b))) view))
    end
  else if bool_decide (v_state view = "failed") then Throw IdempotencyAttemptFailedError
  else if bool_decide (v_state view ∈ UNFINISHED) then Throw IdempotencyInProgressError
  else Throw IdempotencyInProgressError.

(** [None] only when the attempt provably never ran. *)
Definition existing (b : Binding) (may_cancel : bool) : bprog (option replayed) :=
  let! is_ledger := invoke (ELedger (b_node b)) in
  if negb is_ledger then Throw NoAvailableModelError else
  let! seen := invoke (EDescribe (b_node b) (b_op b)) in
  let! view :=
    match seen with
    | Some view => Pure view
    | None => if may_cancel then invoke (ECancel (b_node b) (b_op b) KInference)
              else Throw IdempotencyInProgressError
    end in
  answered_by b view.

(** The answer to a repeated key, or [None] when the request may proceed. *)
Definition repeat (tenant : string) (identity : option RequestIdentity) : bprog (option replayed) :=
  match identity with
  | None => Pure None
  | Some i =>
      match id_key i with
      | None => Pure None
      | Some key =>
          let! binding := lookup_binding tenant (keyed_request_id key) in
          match binding with
          | None => Pure None
          | Some b => let! _ := check_hash b i in existing b true
          end
      end
  end.

Definition unkeyed_request_id : bprog string :=
  let! ambient := ask ERequestId in
  match ambient with
  | Some x => if bool_decide (x = "") then let! u := ask EMint in Pure ("r:" ++ u)%string else Pure ("r:" ++ x)%string
  | None => let! u := ask EMint in Pure ("r:" ++ u)%string
  end.

(** The attempt to run on [n], or the answer of the one that won. *)
Definition bind (tenant : string) (identity : option RequestIdentity) (n : string) (bill : dict)
    : bprog (AttemptIdentity + replayed) :=
  let i := default INTERNAL identity in
  let keyed := bool_decide (is_Some (id_key i)) in
  let! rid := match id_key i with
              | Some key => Pure (keyed_request_id key)
              | None => unkeyed_request_id
              end in
  let! hashed := payload_hash i HASH_VERSION in
  let! op := ask EMint in
  let ours := inl (mk_attempt_identity op (Some rid) (Some hashed) keyed) in
  let! bound := create tenant rid hashed HASH_VERSION keyed bill n op in
  if bool_decide (b_op bound = op) then Pure ours else
  let! _ := check_hash bound i in
  let! won := existing bound false in
  match won with
  | Some answer => Pure (inr answer)
  | None =>
      let! bound := rebind bound n op bill in
      if bool_decide (b_op bound = op) then Pure ours else
      let! won := existing bound false in
      match won with
      | Some answer => Pure (inr answer)
      | None => Throw IdempotencyInProgressError
      end
  end.
End Binder.

(** * The world: gateways, agents, and everybody's answers *)

(** What an agent's adapter raises when it has no answer to give. *)
Definition no_answer (e : bexn) : Prop := e = NoAvailableModelError ∨ e = AgentRefusal.

(** What a gateway learnt, in order. *)
Inductive event : Type :=
  | EvMinted (x : string)
  | EvBinding (b : Binding)
  | EvUnbound (t r : string)
  | EvView (n op st : string)
  | EvNothing.

Definition log (R : Type) (q : beff R) : R → event :=
  match q in beff R return R → event with
  | EMint => EvMinted
  | ELookup t k => λ r, match r with
                         | inr (Some b) => EvBinding b
                         | inr None => EvUnbound t k
                         | inl _ => EvNothing
                         end
  | EDescribe n op => λ r, match r with inr (Some v) => EvView n op (v_state v) | _ => EvNothing end
  | ECancel n op _ => λ r, match r with inr v => EvView n op (v_state v) | inl _ => EvNothing end
  | _ => λ _, EvNothing
  end.

(** What a method of the binder ends with. *)
Inductive outcome : Type :=
  | Repeated (answer : option replayed)
  | Bound (result : AttemptIdentity + replayed).

Record task := mk_task { learnt : list event; program : prog beff bexn unit outcome }.

Record world := mk_world {
  cl : cluster;
  led : ledger;
  minted : gset string;
  tasks : list task
}.

Definition now (w : world) : Z := clock (cdb (cl w)).
Definition set_led (l : ledger) (w : world) : world := mk_world (cl w) l (minted w) (tasks w).
Definition set_cl (c : cluster) (w : world) : world := mk_world c (led w) (minted w) (tasks w).
Definition set_tasks (ts : list task) (w : world) : world := mk_world (cl w) (led w) (minted w) ts.

(** [_describe] of the agent and [_view] of the adapter: the row's state as it
    is; of the stored result only that it is there or not matters. *)
Definition view_of (v : AttemptView) (o : Operation) : Prop :=
  v_op v = o_op_id o ∧ v_state v = op_state_value (o_state o).

(** A statement commits and is acknowledged, commits and is not, or fails. *)
Definition writes (tx : option ledger) (w : world) (r : bexn + unit) (w' : world) : Prop :=
  (r = inl BindingStoreError ∧ w' = w) ∨
  ∃ l, tx = Some l ∧ w' = set_led l w ∧ (r = inr tt ∨ r = inl BindingStoreError).

Definition answers (w : world) {R} (q : beff R) : R → world → Prop :=
  match q in beff R return R → world → Prop with
  | EMint => λ x w', (x ∉ minted w) ∧ w' = mk_world (cl w) (led w) ({[x]} ∪ minted w) (tasks w)
  | ERequestId => λ _ w', w' = w
  | ELookup t r => λ a w', w' = w ∧ (a = inr (lookup_row t r (led w)) ∨ a = inl BindingStoreError)
  | ECreate t r hash hv keyed bill n op =>
      writes (create_tx t r hash hv keyed bill n op (now w) (led w)) w
  | ERebind b n op bill => writes (rebind_tx b n op bill (now w) (led w)) w
  | ELedger _ => λ a w', w' = w ∧ ∀ e, a = inl e → e = BindingStoreError
  | EDescribe n op => λ a w', w' = w ∧
      ((∃ e, a = inl e ∧ no_answer e) ∨
       (a = inr None ∧ ops (cdb (cl w)) !! (n, op) = None) ∨
       (∃ v x, a = inr (Some v) ∧ observe n op (cdb (cl w)) = Some x ∧ view_of v x))
  | ECancel n op k => λ a w',
      (∃ e, a = inl e ∧ no_answer e ∧ w' = w) ∨
      (∃ self x d, own_node_id self = n ∧
         perform self (QCancel op "cancel_requested" k) (cdb (cl w)) = (inr (ROperation (Some x)), d) ∧
         w' = set_cl (mk_cluster d (locks (cl w))) w ∧
         ((∃ v, a = inr v ∧ view_of v x) ∨ ∃ e, a = inl e ∧ no_answer e))
  end.

(** One call of one task. *)
Definition task_step (w : world) (t : task) (w' : world) (t' : task) : Prop :=
  match program t with
  | Ask q k => ∃ r, answers w q r w' ∧ t' = mk_task (learnt t ++ [log _ q r]) (k r)
  | _ => False
  end.

Section World.
Context (dumps : json → option string) (sha256 : string → string).

Definition repeat_task (tenant : string) (i : option RequestIdentity) : task :=
  mk_task [] (let! a := repeat dumps sha256 tenant i in Pure (Repeated a)).
Definition bind_task (tenant : string) (i : option RequestIdentity) (n : string) (bill : dict) : task :=
  mk_task [] (let! a := bind dumps sha256 tenant i n bill in Pure (Bound a)).

Inductive wstep : world → world → Prop :=
  | wstep_repeat tenant i w : wstep w (set_tasks (tasks w ++ [repeat_task tenant i]) w)
  | wstep_bind tenant i n bill w : wstep w (set_tasks (tasks w ++ [bind_task tenant i n bill]) w)
  | wstep_call j t t' w w' :
      tasks w !! j = Some t → task_step w t w' t' →
      wstep w (set_tasks (<[j := t']> (tasks w')) w')
  | wstep_delivery op complete w : wstep w (set_led (mark_delivery op complete (led w)) w)
  | wstep_agents c w : step (cl w) c → wstep w (set_cl c w).

(** Nothing bound yet, whatever the agents already hold. *)
Definition initial_world (w : world) : Prop :=
  reachable (cl w) ∧ led w = mk_ledger ∅ ∅ ∧ tasks w = [].

Definition reachable_world (w : world) : Prop := ∃ w0, initial_world w0 ∧ rtc wstep w0 w.

(** ** The invariant *)

Definition cancelled (c : cluster) (n op : string) : Prop :=
  ∃ x, ops (cdb c) !! (n, op) = Some x ∧ state x = CancelledUnsent.

(** The attempt [a] is the one the binding [b] names. *)
Definition names (b : Binding) (a : attempt_row) : Prop := at_node a = b_node b ∧ at_op a = b_op b.

(** A binding once read stays in the history. *)
Definition was_bound (l : ledger) (b : Binding) : Prop :=
  ∃ row a, bindings l !! (b_tenant b, b_request b) = Some row ∧
    attempts l !! (b_tenant b, b_request b, b_seq b) = Some a ∧ names b a ∧
    b_version b = (b_seq b - 1)%Z ∧ (1 ≤ b_seq b ≤ current_seq row)%Z ∧
    b_hash b = row_hash row ∧ b_hash_version b = row_hash_version row.

Definition viewed (c : cluster) (n op st : string) : Prop :=
  ∃ x s, ops (cdb c) !! (n, op) = Some x ∧ st = op_state_value s ∧ rtc op_step s (state x) ∧
    (terminal_state s = true → state x = s).

Definition holds (w : world) (e : event) : Prop :=
  match e with
  | EvMinted x => x ∈ minted w
  | EvBinding b => was_bound (led w) b
  | EvView n op st => viewed (cl w) n op st
  | EvUnbound _ _ | EvNothing => True
  end.

Record ledger_ok (c : cluster) (l : ledger) : Prop := {
  ok_version : ∀ k row, bindings l !! k = Some row →
    row_version row = (current_seq row - 1)%Z ∧ (1 ≤ current_seq row)%Z ∧
    is_Some (attempts l !! (k.1, k.2, current_seq row));
  ok_attempt : ∀ t r s a, attempts l !! (t, r, s) = Some a →
    ∃ row, bindings l !! (t, r) = Some row ∧ (1 ≤ s ≤ current_seq row)%Z ∧
      (s ≠ current_seq row → cancelled c (at_node a) (at_op a));
  ok_unique : ∀ k1 k2 a1 a2, attempts l !! k1 = Some a1 → attempts l !! k2 = Some a2 →
    at_op a1 = at_op a2 → k1 = k2
}.

(** A binding moves only from an attempt seen cancelled. *)
Definition must (tr : list event) (R : Type) (q : beff R) : Prop :=
  match q with
  | ERebind b _ _ _ => EvBinding b ∈ tr ∧ EvView (b_node b) (b_op b) "cancelled_unsent" ∈ tr
  | _ => True
  end.

(** What an outcome rests on. *)
Definition justified (o : bexn + outcome) (tr : list event) : Prop :=
  match o with
  | inr (Bound (inl ai)) => EvMinted (ai_op ai) ∈ tr ∧
      ∃ b, EvBinding b ∈ tr ∧ b_op b = ai_op ai ∧ ai_request ai = Some (b_request b)
  | _ => True
  end.

(** A lookup answers about the key it was asked; each call fails in its own way. *)
Definition plausible (_ : list event) (R : Type) (q : beff R) : R → Prop :=
  match q in beff R return R → Prop with
  | ELookup t r => λ a, match a with
                        | inr (Some b) => b_tenant b = t ∧ b_request b = r
                        | inr None => True
                        | inl e => e = BindingStoreError
                        end
  | EDescribe _ _ => λ a, ∀ e, a = inl e → no_answer e
  | ECancel _ _ _ => λ a, ∀ e, a = inl e → no_answer e
  | ELedger _ => λ a, ∀ e, a = inl e → e = BindingStoreError
  | _ => λ _, True
  end.

Definition obedient (t : task) : Prop :=
  obeys log plausible must (program t) (λ o _ tr, justified o tr) tt (learnt t).

(** No two tasks were handed the same fresh identity. *)
Definition minted_apart (ts : list task) : Prop :=
  apart (λ e x, e = EvMinted x) (learnt <$> ts).

Record world_ok (w : world) : Prop := {
  ok_cluster : reachable (cl w);
  ok_ledger : ledger_ok (cl w) (led w);
  ok_learnt : ∀ t, t ∈ tasks w → Forall (holds w) (learnt t);
  ok_minted : minted_apart (tasks w);
  ok_tasks : ∀ t, t ∈ tasks w → obedient t
}.
End World.

(** ** What the programs do, on their own *)

Section Programs.
Context (dumps : json → option string) (sha256 : string → string).
Abbreviation ok p Q tr := (obeys log plausible must p Q tt tr).

Lemma invoke_binds_ok {A} (q : beff (bexn + A)) (Q : bexn + A → unit → list event → Prop) tr :
  must tr _ q → (∀ r, plausible tr _ q r → Q r tt (tr ++ [log _ q r])) → ok (invoke q) Q tr.
Proof. intros Hm HQ. split; [done|]. intros [e|a]; apply HQ. Qed.

Lemma payload_hash_ok i v (Q : bexn + string → unit → list event → Prop) tr :
  (∀ o, Q o tt tr) → ok (payload_hash dumps sha256 i v) Q tr.
Proof. intros HQ. unfold payload_hash. case_bool_decide; [destruct (canonical_v1 _ _)|]; apply HQ. Qed.

Lemma check_hash_ok b i (Q : bexn + unit → unit → list event → Prop) tr :
  (∀ o, Q o tt tr) → ok (check_hash dumps sha256 b i) Q tr.
Proof.
  intros HQ. apply obeys_bind, payload_hash_ok. intros [e|h]; [apply HQ|]. case_bool_decide; apply HQ.
Qed.

Lemma found_again_ok t r tr more :
  ok (found_again t r)
     (λ o _ tr', tr `prefix_of` tr' ∧
        ∀ b, o = inr b → EvBinding b ∈ tr' ∧ b_tenant b = t ∧ b_request b = r) (tr ++ more).
Proof.
  apply obeys_bind, invoke_binds_ok; [done|].
  intros [e|[b|]] Hb; rewrite <- app_assoc; simpl; (split; [by apply prefix_app_r|]); [done| |done].
  intros b' [= <-]. split; [set_solver|exact Hb].
Qed.

(** What an answer of [existing] rests on; [None] lets the request proceed. *)
Definition explains (b : Binding) (may_cancel : bool) (o : bexn + option replayed) (tr : list event) : Prop :=
  match o with
  | inr None => EvView (b_node b) (b_op b) "cancelled_unsent" ∈ tr
  | inr (Some a) => EvView (b_node b) (b_op b) "completed" ∈ tr ∧
      v_state (replay_view a) = "completed" ∧ is_Some (v_result (replay_view a))
  | inl IdempotencyAttemptFailedError => EvView (b_node b) (b_op b) "failed" ∈ tr
  | inl IdempotencyResultExpiredError => EvView (b_node b) (b_op b) "completed" ∈ tr
  | inl IdempotencyInProgressError => may_cancel = true →
      ∃ st, EvView (b_node b) (b_op b) st ∈ tr ∧ st ∉ ["cancelled_unsent"; "completed"; "failed"]
  | inl e => no_answer e ∨ e = BindingStoreError
  end.

Abbreviation frees b c tr := (λ o _ tr', tr `prefix_of` tr' ∧ explains b c o tr').

Lemma answered_by_ok b c v tr more :
  EvView (b_node b) (b_op b) (v_state v) ∈ tr ++ more →
  ok (answered_by b v) (frees b c tr) (tr ++ more).
Proof.
  intros Hv. unfold answered_by. case_bool_decide as H1.
  { simpl. rewrite <- H1. split; [by apply prefix_app_r|done]. }
  case_bool_decide as H2.
  { rewrite H2 in Hv. destruct (v_result v) eqn:Hr; (split; [by apply prefix_app_r|]); [|done].
    simpl. rewrite Hr. eauto. }
  case_bool_decide as H3; [rewrite H3 in Hv; split; [by apply prefix_app_r|done]|].
  case_bool_decide; (split; [by apply prefix_app_r|]); intros _; exists (v_state v); (split; [done|set_solver]).
Qed.

Lemma raised_ok b c e (tr more : list event) :
  no_answer e ∨ e = BindingStoreError → tr `prefix_of` tr ++ more ∧ explains b c (inl e) (tr ++ more).
Proof. intros He. split; [by apply prefix_app_r|]. by destruct He as [[-> | ->]| ->]; simpl; unfold no_answer; auto. Qed.

Lemma existing_ok b c tr : ok (existing b c) (frees b c tr) tr.
Proof.
  apply obeys_bind, invoke_binds_ok; [done|].
  intros [e|[]] Hp; [apply raised_ok; auto| |apply raised_ok; left; by left].
  cbn [negb]. apply obeys_bind, invoke_binds_ok; [done|].
  intros [e|[v|]] Hp'; rewrite <- app_assoc; [apply raised_ok; left; auto| |].
  - apply answered_by_ok. set_solver.
  - destruct c; [|split; [by apply prefix_app_r|done]]. apply obeys_bind, invoke_binds_ok; [done|].
    intros [e|v] Hp2; rewrite <- app_assoc; [apply raised_ok; left; auto|].
    apply answered_by_ok. set_solver.
Qed.

Lemma create_ok t r hash hv keyed bill n op tr :
  ok (create t r hash hv keyed bill n op)
     (λ o _ tr', tr `prefix_of` tr' ∧
        ∀ b, o = inr b → EvBinding b ∈ tr' ∧ b_tenant b = t ∧ b_request b = r) tr.
Proof.
  apply obeys_bind, invoke_binds_ok; [done|]. intros [e|[]] _; [|apply found_again_ok].
  split; [by apply prefix_app_r|done].
Qed.

Lemma rebind_ok b n op bill tr :
  EvBinding b ∈ tr → EvView (b_node b) (b_op b) "cancelled_unsent" ∈ tr →
  ok (rebind b n op bill)
     (λ o _ tr', tr `prefix_of` tr' ∧
        ∀ b', o = inr b' → EvBinding b' ∈ tr' ∧ b_tenant b' = b_tenant b ∧ b_request b' = b_request b) tr.
Proof.
  intros Hb Hv. apply obeys_bind, invoke_binds_ok; [done|]. intros [e|[]] _; [|apply found_again_ok].
  split; [by apply prefix_app_r|done].
Qed.

Lemma repeat_ok tenant i : obedient (repeat_task dumps sha256 tenant i).
Proof.
  apply obeys_bind. destruct i as [i|]; [|done]. unfold repeat. destruct (id_key i) as [key|]; [|done].
  apply obeys_bind, invoke_binds_ok; [done|]. intros [e|[b|]] _; [done| |done].
  apply obeys_bind, check_hash_ok. intros [e|[]]; [done|].
  eapply obeys_mono; [|apply existing_ok]. by intros [e|a] [] tr'.
Qed.

(** What [bind] knows of the attempt [op] when it was bound as [rid]. *)
Definition own (t rid op : string) (tr : list event) (b : Binding) : Prop :=
  EvBinding b ∈ tr ∧ b_tenant b = t ∧ b_request b = rid.

Lemma own_justified t rid op hashed keyed b tr :
  own t rid op tr b → EvMinted op ∈ tr → b_op b = op →
  justified (inr (Bound (inl (mk_attempt_identity op (Some rid) (Some hashed) keyed)))) tr.
Proof. intros (Hb&_&Hr) Hm Ho. split; [done|]. exists b. split_and!; [done|done|by rewrite <- Hr]. Qed.

Lemma request_id_ok i (Q : bexn + string → unit → list event → Prop) tr :
  (∀ o tr', Q o tt tr') →
  ok (match id_key i with Some key => Pure (keyed_request_id key) | None => unkeyed_request_id end) Q tr.
Proof.
  intros HQ. destruct (id_key i); [apply HQ|]. apply obeys_bind. split; [done|].
  intros [x|] _; cbn; [case_bool_decide|]; try (split; [done|]; intros u _); apply HQ.
Qed.

Lemma bind_ok tenant i n bill : obedient (bind_task dumps sha256 tenant i n bill).
Proof.
  apply obeys_bind. unfold bind. apply obeys_bind, request_id_ok. intros [e|rid] tr; [done|].
  apply obeys_bind, payload_hash_ok. intros [e|hashed]; [done|].
  apply obeys_bind. split; [done|]. intros op _.
  set (tr0 := tr ++ [log string EMint op]). assert (EvMinted op ∈ tr0) as Hop by set_solver.
  clearbody tr0. apply obeys_bind. eapply obeys_mono; [|apply create_ok].
  intros [e|b] [] tr1 [Hp1 Hb1]; [done|]. specialize (Hb1 b eq_refl). cbn beta iota.
  case_bool_decide as Ho; [by eapply own_justified, Ho; [|by eapply elem_of_prefix]|].
  apply obeys_bind, check_hash_ok. intros [e|[]]; [done|].
  apply obeys_bind. eapply obeys_mono; [|apply existing_ok].
  intros [e|[a|]] [] tr2 [Hp2 Hv2]; [done|done|]. simpl in Hv2.
  destruct Hb1 as (Hb1&Ht&Hr). apply obeys_bind.
  eapply obeys_mono; [|apply rebind_ok; [by eapply elem_of_prefix|done]].
  intros [e|b'] [] tr3 [Hp3 Hb3]; [done|]. specialize (Hb3 b' eq_refl). rewrite Ht, Hr in Hb3. cbn beta iota.
  case_bool_decide as Ho'.
  { eapply own_justified, Ho'; [done|]. do 3 (eapply elem_of_prefix; [|done]). done. }
  apply obeys_bind. eapply obeys_mono; [|apply existing_ok]. by intros [e|[a|]] [] tr4 _.
Qed.
End Programs.

(** ** What every step keeps *)

Record ledger_grows (l l' : ledger) : Prop := {
  grows_bindings : ∀ k row, bindings l !! k = Some row → ∃ row', bindings l' !! k = Some row' ∧
    row_hash row' = row_hash row ∧ row_hash_version row' = row_hash_version row ∧
    row_billing row' = row_billing row ∧ (current_seq row ≤ current_seq row')%Z;
  grows_attempts : ∀ k a, attempts l !! k = Some a → ∃ a', attempts l' !! k = Some a' ∧
    at_node a' = at_node a ∧ at_op a' = at_op a ∧ at_billing a' = at_billing a ∧
    created_at a' = created_at a ∧
    (client_delivery_complete a ≠ None → client_delivery_complete a' = client_delivery_complete a)
}.

#[export] Instance ledger_grows_preorder : PreOrder ledger_grows.
Proof.
  split.
  - intros l. split; eauto 10 with lia.
  - intros l1 l2 l3 [B1 A1] [B2 A2]. split.
    + intros k row (r2&H2&?&?&?&?)%B1. apply B2 in H2 as (r3&?&?&?&?&?).
      exists r3. split_and!; [done|congruence..|lia].
    + intros k a (a2&H2&?&?&?&?&Hd)%A1. apply A2 in H2 as (a3&?&?&?&?&?&Hd').
      exists a3. split_and!; [done|congruence..|]. intros Hn. rewrite Hd'; rewrite Hd; done.
Qed.

Lemma insert_attempt_some t r s a l l' :
  insert_attempt t r s a l = Some l' →
  attempts l !! (t, r, s) = None ∧ (∀ k a0, attempts l !! k = Some a0 → at_op a0 ≠ at_op a) ∧
  l' = mk_ledger (bindings l) (<[(t, r, s) := a]> (attempts l)).
Proof.
  unfold insert_attempt, op_taken. destruct (attempts l !! _) eqn:Hf; [done|].
  case_bool_decide as Ht; [done|]. intros [= <-]. split_and!; [done| |done].
  intros k a0 Hk He. apply Ht. by exists k, a0.
Qed.

Lemma insert_attempt_grows t r s a l l' : insert_attempt t r s a l = Some l' → ledger_grows l l'.
Proof.
  intros (Hn&_&->)%insert_attempt_some. split; [eauto 10 with lia|]. simpl.
  intros k b Hk. exists b. rewrite lookup_insert_ne by congruence. eauto 10.
Qed.

Lemma set_binding_grows k row row' l :
  (∀ old, bindings l !! k = Some old → row_hash row' = row_hash old ∧
     row_hash_version row' = row_hash_version old ∧ row_billing row' = row_billing old ∧
     (current_seq old ≤ current_seq row')%Z) →
  row = row' → ledger_grows l (mk_ledger (<[k := row]> (bindings l)) (attempts l)).
Proof.
  intros Hold ->. split; [|eauto 10]. intros k' r Hr. simpl. destruct (decide (k' = k)) as [->|Hne].
  - rewrite lookup_insert_eq. eauto.
  - rewrite lookup_insert_ne by done. eauto 10 with lia.
Qed.

Lemma create_tx_grows t r hash hv keyed bill n op at_ l l' :
  create_tx t r hash hv keyed bill n op at_ l = Some l' → ledger_grows l l'.
Proof.
  unfold create_tx. destruct (bindings l !! _) eqn:Hb; [by intros [= <-]|].
  intros Hl%insert_attempt_grows. etrans; [|exact Hl]. eapply set_binding_grows; [|done]. congruence.
Qed.

Lemma rebind_tx_grows b n op bill at_ l l' :
  rebind_tx b n op bill at_ l = Some l' → ledger_grows l l'.
Proof.
  unfold rebind_tx. destruct (bindings l !! _) as [row|] eqn:Hb; [|by intros [= <-]].
  case_bool_decide; [|by intros [= <-]]. intros Hl%insert_attempt_grows. etrans; [|exact Hl].
  eapply set_binding_grows; [|done]. intros old Hold. simplify_eq. simpl. split_and!; [done..|lia].
Qed.

Lemma mark_delivery_lookup op c l k :
  attempts (mark_delivery op c l) !! k =
  (λ a, if bool_decide (at_op a = op ∧ client_delivery_complete a = None)
        then set_delivery c a else a) <$> attempts l !! k.
Proof. apply lookup_fmap. Qed.

Lemma mark_delivery_grows op c l : ledger_grows l (mark_delivery op c l).
Proof.
  split; [eauto 10 with lia|]. intros k a Ha. rewrite mark_delivery_lookup, Ha. simpl.
  eexists. split; [done|]. case_bool_decide as Hc; [|eauto 10]. split_and!; [done..|].
  by destruct Hc as [_ ->].
Qed.

Lemma grows_was_bound l l' b : ledger_grows l l' → was_bound l b → was_bound l' b.
Proof.
  intros [HB HA] (row&a&Hr&Ha&[Hn Ho]&?&?&?&?).
  apply HB in Hr as (row'&?&?&?&?&?). apply HA in Ha as (a'&?&?&?&?).
  exists row', a'. split_and!; [done|done| |done|lia|lia|congruence|congruence]. split; congruence.
Qed.

(** *** The agents' database only evolves *)

Lemma evolves_cancelled c c' n op :
  db_evolves (cdb c) (cdb c') → cancelled c n op → cancelled c' n op.
Proof.
  intros Hev (x&Hx&Hst). apply (evolves_ops _ _ Hev) in Hx as (x'&Hx'&He).
  rewrite (evolves_final _ _ He) in Hx' by (by rewrite Hst). by exists x.
Qed.

Lemma evolves_viewed c c' n op st :
  db_evolves (cdb c) (cdb c') → viewed c n op st → viewed c' n op st.
Proof.
  intros Hev (x&s&Hx&Hst&Hs&Hf). apply (evolves_ops _ _ Hev) in Hx as (x'&Hx'&He).
  exists x', s. split_and!; [done|done|by etrans; [|apply He]|]. intros Hterm.
  specialize (Hf Hterm). rewrite (evolves_final _ _ He); [done|by rewrite Hf].
Qed.

Lemma op_state_value_inj s s' : op_state_value s = op_state_value s' → s = s'.
Proof. by destruct s, s'. Qed.

Lemma viewed_cancelled c n op : viewed c n op "cancelled_unsent" → cancelled c n op.
Proof.
  intros (x&s&Hx&Hst&_&Hf). apply (op_state_value_inj CancelledUnsent) in Hst as <-.
  exists x. split; [done|]. by apply Hf.
Qed.

Lemma observed_viewed c n op x v :
  observe n op (cdb c) = Some x → view_of v x → viewed c n op (v_state v).
Proof.
  unfold observe. destruct (ops (cdb c) !! (n, op)) as [r|] eqn:Hr; [|done]. intros [= <-] [_ ->].
  exists r, (state r). by split_and!.
Qed.

(** A cancellation answers with the row it left. *)
Lemma cancel_observed self op why k d x d' :
  perform self (QCancel op why k) d = (inr (ROperation (Some x)), d') →
  observe (own_node_id self) op d' = Some x.
Proof.
  simpl. unfold reply_with. destruct (cancel_accepted self op why k d) as [out d2] eqn:Hc. simpl.
  destruct out as [e|o]; [done|]. intros [= -> ->].
  apply run_owned_cases in Hc as [(_&?&_)|[(_&?&_&?&_)|(_&o'&Hc&[= <-])]]; [done|done|].
  apply tx_bind_inr in Hc as (t&?&[-> ->]%tx_gets_inr&Hc).
  by apply tx_bind_inr in Hc as (u&d3&_&[Hobs ->]%tx_gets_inr).
Qed.

(** *** The ledger's invariant *)

Lemma ledger_ok_evolves c c' l :
  db_evolves (cdb c) (cdb c') → ledger_ok c l → ledger_ok c' l.
Proof.
  intros Hev [H1 H2 H3]. split; [done| |done]. intros t r s a (row&?&?&Hc)%H2.
  exists row. split; [done|]. split; [done|]. intros Hs. eapply evolves_cancelled; [done|by apply Hc].
Qed.

Lemma empty_ledger_ok c : ledger_ok c (mk_ledger ∅ ∅).
Proof. split; simpl; intros *; by rewrite ?lookup_empty. Qed.

(** The one way the ledger grows: a request's next attempt, once its current
    one is known never to have run. *)
Lemma next_attempt_ok c t r row a l l' :
  ledger_ok c l → row_version row = (current_seq row - 1)%Z →
  match bindings l !! (t, r) with
  | Some old => current_seq row = (current_seq old + 1)%Z ∧
      ∀ a0, attempts l !! (t, r, current_seq old) = Some a0 → cancelled c (at_node a0) (at_op a0)
  | None => current_seq row = 1%Z
  end →
  insert_attempt t r (current_seq row) a
    (mk_ledger (<[(t, r) := row]> (bindings l)) (attempts l)) = Some l' →
  ledger_ok c l'.
Proof.
  intros [H1 H2 H3] Hv Hrow (Hn&Hu&->)%insert_attempt_some. simpl in *.
  assert (1 ≤ current_seq row)%Z as Hpos.
  { destruct (bindings l !! (t, r)) as [old|] eqn:Hb; [|lia]. apply H1 in Hb as (_&?&_). lia. }
  split; simpl.
  - intros k row'. destruct (decide (k = (t, r))) as [->|Hk].
    + rewrite lookup_insert_eq. intros [= <-]. simpl. rewrite lookup_insert_eq. eauto.
    + rewrite lookup_insert_ne by done. intros (?&?&?)%H1. split_and!; [done|done|].
      rewrite lookup_insert_ne; [done|]. intros [= ? ? ?]. apply Hk. by destruct k; simplify_eq/=.
  - intros t' r' s a'. rewrite lookup_insert_Some. intros [[[= <- <- <-] <-]|[Hk Ha]].
    { exists row. rewrite lookup_insert_eq. by split_and!. }
    destruct (H2 _ _ _ _ Ha) as (old&Hold&Hs&Hc). destruct (decide ((t', r') = (t, r))) as [[= -> ->]|Hne].
    + exists row. rewrite lookup_insert_eq. rewrite Hold in Hrow. destruct Hrow as [Heq Hlast].
      split_and!; [done|lia|lia|]. intros _. destruct (decide (s = current_seq old)) as [->|]; eauto.
    + exists old. by rewrite lookup_insert_ne.
  - intros k1 k2 a1 a2 Ha1 Ha2 He. rewrite lookup_insert_Some in Ha1, Ha2.
    destruct Ha1 as [[? ?]|[_ Ha1]], Ha2 as [[? ?]|[_ Ha2]]; simplify_eq; [done| | |by eapply H3].
    + by destruct (Hu _ _ Ha2).
    + by destruct (Hu _ _ Ha1).
Qed.

Lemma create_tx_ok c t r hash hv keyed bill n op at_ l l' :
  ledger_ok c l → create_tx t r hash hv keyed bill n op at_ l = Some l' → ledger_ok c l'.
Proof.
  intros Hl. unfold create_tx. destruct (bindings l !! (t, r)) eqn:Hb; [by intros [= <-]|].
  apply (next_attempt_ok c t r (mk_binding_row 1 0 hash hv keyed bill)); [done|done|by rewrite Hb].
Qed.

Lemma rebind_tx_ok c b n op bill at_ l l' :
  ledger_ok c l → was_bound l b → cancelled c (b_node b) (b_op b) →
  rebind_tx b n op bill at_ l = Some l' → ledger_ok c l'.
Proof.
  intros Hl (row&a&Hr&Ha&[Hn Ho]&Hv&_&_&_) Hc. unfold rebind_tx. rewrite Hr.
  case_bool_decide as Hver; [|by intros [= <-]].
  destruct (ok_version _ _ Hl _ _ Hr) as (Hseq&_&_).
  eapply (next_attempt_ok c (b_tenant b) (b_request b)
    (mk_binding_row (current_seq row + 1) (row_version row + 1) (row_hash row)
       (row_hash_version row) (row_key_supplied row) (row_billing row))); [done|simpl; lia|].
  rewrite Hr. split; [done|]. intros a0 Ha0. assert (current_seq row = b_seq b) as Heq by lia.
  rewrite Heq, Ha in Ha0. simplify_eq. by rewrite Hn, Ho.
Qed.

Lemma mark_delivery_ok c op d l : ledger_ok c l → ledger_ok c (mark_delivery op d l).
Proof.
  intros [H1 H2 H3].
  assert (∀ k a, attempts (mark_delivery op d l) !! k = Some a → ∃ a0, attempts l !! k = Some a0 ∧
            at_node a = at_node a0 ∧ at_op a = at_op a0) as Hback.
  { intros k a. rewrite mark_delivery_lookup, fmap_Some. intros (a0&Ha0&->).
    exists a0. by case_bool_decide. }
  split.
  - intros k row (?&?&Hs)%H1. split_and!; [done|done|]. rewrite mark_delivery_lookup. by apply fmap_is_Some.
  - intros t r s a (a0&Ha0&->&->)%Hback. by apply H2.
  - intros k1 k2 a1 a2 (?&?&_&->)%Hback (?&?&_&->)%Hback. by apply H3.
Qed.

(** ** Every step keeps the invariant *)

(** One step of the world, as the others see it. *)
Record progresses (w w' : world) : Prop := {
  pr_reachable : reachable (cl w) → reachable (cl w');
  pr_evolves : reachable (cl w) → db_evolves (cdb (cl w)) (cdb (cl w'));
  pr_grows : ledger_grows (led w) (led w');
  pr_minted : minted w ⊆ minted w';
  pr_clock : (now w ≤ now w')%Z
}.

#[export] Instance progresses_preorder : PreOrder progresses.
Proof.
  split; [by split|]. intros w1 w2 w3 [R1 E1 G1 M1 C1] [R2 E2 G2 M2 C2].
  split; [auto|intros; etrans; eauto|by etrans|by etrans|lia].
Qed.

Lemma agents_progress c w : step (cl w) c → progresses w (set_cl c w).
Proof.
  intros Hs. split; [|intros Hr; by apply step_sound, reachable_wf|done|done|by apply step_clock].
  intros (c0&?&?). exists c0. split; [done|by eapply rtc_r].
Qed.

Lemma ledger_progress l w : ledger_grows (led w) l → progresses w (set_led l w).
Proof. intros. by split. Qed.

Lemma progress_holds w w' e : reachable (cl w) → progresses w w' → holds w e → holds w' e.
Proof.
  intros Hr [_ He Hg Hm _]. destruct e; simpl; [set_solver|by apply grows_was_bound|done| |done].
  by apply evolves_viewed, He.
Qed.

Lemma lookup_row_bound w t r b :
  ledger_ok (cl w) (led w) → lookup_row t r (led w) = Some b → was_bound (led w) b.
Proof.
  unfold lookup_row. destruct (bindings (led w) !! _) as [row|] eqn:Hr; [|done].
  destruct (attempts (led w) !! _) as [a|] eqn:Ha; [|done]. intros Hok [= <-].
  destruct (ok_version _ _ Hok _ _ Hr) as (?&?&_). exists row, a. simpl. by split_and!.
Qed.

(** What an answer is worth: the world moved on soundly and what was learnt is
    true of it. *)
Record answered (w w' : world) (R : Type) (q : beff R) (r : R) : Prop := {
  ans_progress : progresses w w';
  ans_ledger : ledger_ok (cl w') (led w');
  ans_tasks : tasks w' = tasks w;
  ans_holds : holds w' (log R q r);
  ans_plausible : ∀ tr, plausible tr R q r;
  ans_fresh : ∀ x, log R q r = EvMinted x → x ∉ minted w
}.

Lemma writes_answered tx w w' r R (q : beff R) (x : R) :
  ledger_ok (cl w) (led w) → writes tx w r w' → log R q x = EvNothing → (∀ tr, plausible tr R q x) →
  (∀ l, tx = Some l → ledger_grows (led w) l ∧ ledger_ok (cl w) l) → answered w w' R q x.
Proof.
  intros Hl [[_ ->]|(l&Htx&->&_)] Hlog Hp Hsound.
  - split; rewrite ?Hlog; done.
  - destruct (Hsound _ Htx). split; rewrite ?Hlog; [by apply ledger_progress|done..].
Qed.

Lemma answers_sound w w' (R : Type) (q : beff R) r tr :
  reachable (cl w) → ledger_ok (cl w) (led w) → Forall (holds w) tr → must tr R q →
  answers w q r w' → answered w w' R q r.
Proof.
  intros Hr Hl Htr Hm Ha. destruct q; simpl in Ha.
  - destruct Ha as [Hx ->]. split; [by split; set_solver|done|done|simpl; set_solver|done|].
    by intros x [= <-].
  - by subst w'; split.
  - destruct Ha as [-> [->| ->]]; [|by split]. split; [done|done|done| | |by destruct (lookup_row _ _ _)].
    + simpl. destruct (lookup_row t r0 (led w)) eqn:Hb; [|done]. by eapply lookup_row_bound.
    + intros tr0. simpl. unfold lookup_row. by repeat case_match; simplify_eq.
  - eapply writes_answered; [done|done|done|done|]. intros l Htx.
    split; [by eapply create_tx_grows|by eapply create_tx_ok].
  - eapply writes_answered; [done|done|done|done|]. intros l Htx. destruct Hm as [Hb Hv].
    rewrite Forall_forall in Htr. split; [by eapply rebind_tx_grows|].
    eapply rebind_tx_ok; [done|by apply (Htr _ Hb)|by apply viewed_cancelled, (Htr _ Hv)|done].
  - destruct Ha as [-> Ha]. by split.
  - destruct Ha as [-> [(e&->&He)|[[-> _]|(v&x&->&Ho&Hv)]]]; [split; naive_solver|by split|].
    split; try done. by eapply observed_viewed.
  - destruct Ha as [(e&->&He&->)|(self&x&d&<-&Hp&->&Hr')]; [split; naive_solver|].
    assert (progresses w (set_cl (mk_cluster d (locks (cl w))) w)) as Hpr.
    { apply agents_progress.
      exact (step_store self (QCancel op "cancel_requested" k) _ (inr (ROperation (Some x))) d Hp). }
    split; [done| |done| |intros _ e; naive_solver|by destruct Hr' as [(v&->&_)|(e&->&_)]].
    + eapply ledger_ok_evolves; [|done]. by apply Hpr.
    + destruct Hr' as [(v&->&Hv)|(e&->&_)]; [|done]. simpl.
      eapply observed_viewed, Hv. simpl. by eapply (cancel_observed self op "cancel_requested" k).
Qed.

Section Steps.
Context (dumps : json → option string) (sha256 : string → string).
Abbreviation wstep := (wstep dumps sha256).

Lemma spawned_ok w t :
  world_ok w → learnt t = [] → obedient t → world_ok (set_tasks (tasks w ++ [t]) w).
Proof.
  intros [Hc Hl He Hm Ht] Hnil Hob. split; simpl; [done|done| | |].
  - intros t'. rewrite elem_of_app, list_elem_of_singleton. intros [?| ->]; [by apply He|].
    by rewrite Hnil.
  - unfold minted_apart. rewrite fmap_app. simpl. rewrite Hnil. by apply apart_spawn.
  - intros t'. rewrite elem_of_app, list_elem_of_singleton. intros [?| ->]; [by apply Ht|done].
Qed.

(** A task that called and learnt. *)
Lemma called_ok w j t t' w' :
  world_ok w → tasks w !! j = Some t → task_step w t w' t' →
  world_ok (set_tasks (<[j := t']> (tasks w')) w') ∧ progresses w w'.
Proof.
  intros [Hc Hl He Hm Ht] Hj Hstep.
  assert (t ∈ tasks w) as Hin by by eapply list_elem_of_lookup_2.
  unfold task_step in Hstep. destruct (program t) as [|?|R q k| |] eqn:Hp; try done.
  destruct Hstep as (r&Ha&->). pose proof (Ht _ Hin) as Hob. unfold obedient in Hob.
  rewrite Hp in Hob. destruct Hob as [Hmust Hk].
  destruct (answers_sound w w' R q r (learnt t)) as [Hpr Hl' Hts Hh Hpl Hf]; [done|done|by apply He|done|done|].
  split; [|done].
  assert (∀ u, u ∈ <[j:=mk_task (learnt t ++ [log R q r]) (k r)]> (tasks w') →
            u = mk_task (learnt t ++ [log R q r]) (k r) ∨ u ∈ tasks w) as Hu.
  { intros u (i&Hi)%list_elem_of_lookup. rewrite Hts in Hi.
    apply list_lookup_insert_Some in Hi as [(->&<-&_)|[_ Hi]]; [by left|right].
    by eapply list_elem_of_lookup_2. }
  assert (∀ u, u ∈ tasks w → Forall (holds w') (learnt u)) as Hlearnt.
  { intros u Hu'. eapply Forall_impl; [by apply He|]. intros e. by apply progress_holds. }
  split; simpl; [by apply Hpr|done| | |].
  - intros u [->|?]%Hu; [|by apply Hlearnt]. simpl. apply Forall_app.
    split; [by apply Hlearnt|by constructor].
  - unfold minted_apart. rewrite Hts, list_fmap_insert.
    apply (apart_learn _ (λ x, x ∈ minted w)); [done| |by rewrite list_lookup_fmap, Hj|done].
    intros tr e x (u&->&Hin')%list_elem_of_fmap He' ->. apply He in Hin'. rewrite Forall_forall in Hin'.
    by apply (Hin' (EvMinted x)).
  - intros u [->|?]%Hu; [|by apply Ht]. apply Hk, Hpl.
Qed.

Lemma binding_step_ok w w' : wstep w w' → world_ok w → world_ok w' ∧ progresses w w'.
Proof.
  intros Hstep Hok. destruct Hstep as [tenant i w|tenant i n bill w|j t t' w w' Hj Ht|op c w|c w Hs].
  - split; [apply spawned_ok; [done|done|apply repeat_ok]|by split].
  - split; [apply spawned_ok; [done|done|apply bind_ok]|by split].
  - destruct (called_ok w j t t' w' Hok Hj Ht) as [? [? ? ? ? ?]]. split; [done|by split].
  - assert (progresses w (set_led (mark_delivery op c (led w)) w)) as Hpr
      by by apply ledger_progress, mark_delivery_grows.
    destruct Hok as [Hc Hl He Hm Ht]. split; [|done]. split; [done|by apply mark_delivery_ok| |done|done].
    intros u Hu. eapply Forall_impl; [by apply He|]. intros e. by apply progress_holds.
  - assert (progresses w (set_cl c w)) as Hpr by by apply agents_progress.
    destruct Hok as [Hc Hl He Hm Ht]. split; [|done]. split; [by apply Hpr| | |done|done].
    + eapply ledger_ok_evolves; [by apply Hpr|done].
    + intros u Hu. eapply Forall_impl; [by apply He|]. intros e. by apply progress_holds.
Qed.

Lemma wsteps_ok w w' : rtc wstep w w' → world_ok w → world_ok w' ∧ progresses w w'.
Proof.
  induction 1 as [w|w w1 w' Hs _ IH]; [by split|]. intros Hok.
  destruct (binding_step_ok _ _ Hs Hok) as [Hok1 ?]. destruct (IH Hok1). split; [done|by etrans].
Qed.

Lemma initial_world_ok w : initial_world w → world_ok w.
Proof.
  intros (Hc&Hl&Ht). split; rewrite ?Hl, ?Ht; [done|apply empty_ledger_ok|set_solver| |set_solver].
  apply apart_nil.
Qed.

Lemma reachable_binding_ok w : reachable_world dumps sha256 w → world_ok w.
Proof. intros (w0&Hi&Hs). by apply (wsteps_ok _ _ Hs), initial_world_ok. Qed.
End Steps.

(** * A gateway and an agent that always answer, for the examples *)

Module Play.
Definition agent := Election.Demo.alice.
Definition dumps (j : json) : option string := match j with JObj _ => Some "{}" | _ => None end.
Definition sha (s : string) : string := s.

Definition view (o : Operation) : AttemptView :=
  mk_view (o_op_id o) (op_state_value (o_state o)) (o_reason o) (Some []).

Definition committed (tx : option ledger) (w : world) : option ((bexn + unit) * world) :=
  match tx with Some l => Some (inr tt, set_led l w) | None => Some (inl BindingStoreError, w) end.

(** The answer with no fault; [fresh] is the identity to mint. *)
Definition respond (fresh : string) (w : world) {R} (q : beff R) : option (R * world) :=
  match q in beff R return option (R * world) with
  | EMint => if bool_decide (fresh ∈ minted w) then None
             else Some (fresh, mk_world (cl w) (led w) ({[fresh]} ∪ minted w) (tasks w))
  | ERequestId => Some (None, w)
  | ELookup t r => Some (inr (lookup_row t r (led w)), w)
  | ECreate t r hash hv keyed bill n op =>
      committed (create_tx t r hash hv keyed bill n op (now w) (led w)) w
  | ERebind b n op bill => committed (rebind_tx b n op bill (now w) (led w)) w
  | ELedger _ => Some (inr true, w)
  | EDescribe n op =>
      Some (inr (view <$> observe n op (cdb (cl w))), w)
  | ECancel n op k =>
      if bool_decide (own_node_id agent = n) then
        match perform agent (QCancel op "cancel_requested" k) (cdb (cl w)) with
        | (inr (ROperation (Some x)), d) => Some (inr (view x), set_cl (mk_cluster d (locks (cl w))) w)
        | _ => None
        end
      else None
  end.

Definition call (fresh : string) (j : nat) (w : world) : option world :=
  match tasks w !! j with
  | Some t =>
      match program t with
      | Ask q k =>
          match respond fresh w q with
          | Some (r, w') => Some (set_tasks (<[j := mk_task (learnt t ++ [log _ q r]) (k r)]> (tasks w')) w')
          | None => None
          end
      | _ => None
      end
  | None => None
  end.

Fixpoint calls (fresh : string) (j n : nat) (w : world) : option world :=
  match n with O => Some w | S n => match call fresh j w with Some w => calls fresh j n w | None => None end end.

Lemma view_view_of o : view_of (view o) o.
Proof. done. Qed.

Lemma committed_writes tx w r w' : committed tx w = Some (r, w') → writes tx w r w'.
Proof. destruct tx as [l|]; intros [= <- <-]; [right; by exists l; auto|by left]. Qed.

Lemma play_answers fresh w R (q : beff R) r w' : respond fresh w q = Some (r, w') → answers w q r w'.
Proof.
  destruct q; cbn [respond answers].
  - case_bool_decide; [done|]. by intros [= <- <-].
  - by intros [= <- <-].
  - intros [= <- <-]. auto.
  - apply committed_writes.
  - apply committed_writes.
  - intros [= <- <-]. by split.
  - intros [= <- <-]. split; [done|right]. unfold observe.
    destruct (ops (cdb (cl w)) !! (n, op)) as [x|]; [right|left]; [|done].
    by eexists _, _.
  - case_bool_decide as Hn; [|done].
    destruct (perform agent _ _) as [[e|[[x|]| | |]] d] eqn:Hp; try done. intros [= <- <-].
    right. exists agent, x, d. split_and!; [done|exact Hp|done|]. left. by eexists.
Qed.

Lemma calls_steps dm sh fresh j n w w' : calls fresh j n w = Some w' → rtc (wstep dm sh) w w'.
Proof.
  revert w. induction n as [|n IH]; intros w; simpl; [by intros [= <-]|].
  unfold call. destruct (tasks w !! j) as [t|] eqn:Hj; [|done].
  destruct (program t) as [|?|R q k| |] eqn:Hp; try done.
  destruct (respond fresh w q) as [[r w1]|] eqn:Hr; [|done].
  intros Hc%IH. eapply rtc_l; [|exact Hc]. eapply wstep_call; [exact Hj|].
  unfold task_step. rewrite Hp. exists r. split; [by apply play_answers in Hr|done].
Qed.

Definition key := Some (mk_request_identity (Some "K") "chat.completions" (JObj [])).
Definition bill := billing_snapshot "root" None "t" "chat" None "alias" "m" "n" "1970-01-01T00:00:00+00:00" None None None.
Definition w0 := mk_world Election.Demo.c2 (mk_ledger ∅ ∅) ∅ [].
Definition spawn (t : task) (w : world) : world := set_tasks (tasks w ++ [t]) w.
Definition bind_key := bind_task dumps sha "t" key "n" bill.
Definition repeat_key := repeat_task dumps sha "t" key.
(** The original binds, and its forward is late. *)
Definition w1 := default w0 (calls "op1" 0 3 (spawn bind_key w0)).
(** A copy finds nothing at the agent and cancels what is bound. *)
Definition w2 := default w0 (calls "" 1 4 (spawn repeat_key w1)).
(** It binds in its turn, and moves the request to its own attempt. *)
Definition w3 := default w0 (calls "op2" 2 7 (spawn bind_key w2)).
Definition bound (j : nat) (w : world) : option (string + bool) :=
  match tasks w !! j with
  | Some t => match program t with
              | Pure (Bound (inl ai)) => Some (inl (ai_op ai))
              | Pure (Repeated None) => Some (inr true)
              | _ => None
              end
  | None => None
  end.

Example play_outcomes : (bound 0 w3, bound 1 w3, bound 2 w3) = (Some (inl "op1"), Some (inr true), Some (inl "op2")).
Proof. vm_compute. reflexivity. Qed.

Lemma w0_initial : initial_world w0.
Proof.
  split; [|done]. exists Election.Demo.c1. split.
  - split_and!; vm_compute; reflexivity.
  - apply rtc_once, Election.Demo.claim_step.
Qed.

Lemma w0_to_w3 : rtc (wstep dumps sha) w0 w3.
Proof.
  eapply rtc_l; [apply (wstep_bind _ _ "t" key "n" bill)|].
  trans w1; [apply (calls_steps _ _ "op1" 0 3); vm_compute; reflexivity|].
  eapply rtc_l; [apply (wstep_repeat _ _ "t" key)|].
  trans w2; [apply (calls_steps _ _ "" 1 4); vm_compute; reflexivity|].
  eapply rtc_l; [apply (wstep_bind _ _ "t" key "n" bill)|].
  apply (calls_steps _ _ "op2" 2 7). vm_compute. reflexivity.
Qed.

Lemma w3_reachable : reachable_world dumps sha w3.
Proof. exists w0. split; [apply w0_initial|apply w0_to_w3]. Qed.
End Play.

(** * The theorems *)

(** Its operation was handed to the runtime, or may have been. *)
Definition may_have_run (c : cluster) (a : attempt_row) : Prop :=
  ∃ x, ops (cdb c) !! (at_node a, at_op a) = Some x ∧
    state x ∈ [Running; OutcomeUnknown; OpCompleted; OpFailed].

(** Every attempt its request moved on from was cancelled unsent. *)
Lemma superseded_cancelled w t r s1 s2 a1 a2 :
  world_ok w → attempts (led w) !! (t, r, s1) = Some a1 → attempts (led w) !! (t, r, s2) = Some a2 →
  (s1 < s2)%Z → cancelled (cl w) (at_node a1) (at_op a1).
Proof.
  intros [_ Hl _ _ _] Ha1 Ha2 Hlt.
  destruct (ok_attempt _ _ Hl _ _ _ _ Ha1) as (row&Hrow&_&Hcan).
  destruct (ok_attempt _ _ Hl _ _ _ _ Ha2) as (row'&Hrow'&Hs2&_). simplify_eq. apply Hcan. lia.
Qed.

Lemma cancelled_not_run c a : cancelled c (at_node a) (at_op a) → ¬ may_have_run c a.
Proof.
  intros (x&Hx&Hst) (x'&Hx'&Hin). simplify_eq. rewrite Hst in Hin. set_solver.
Qed.

(** C6: A request runs at most once.  However many copies of a keyed request
    arrive, at however many gateways, however their lookups, bindings,
    cancellations and rebindings interleave with one another and with the agents
    and their successors, and whichever of their calls fail after taking effect,
    at most one of the request's attempts may ever have run: every attempt the
    request moved on from is [cancelled_unsent], and no promotion of it is
    granted in any later state. *)
Theorem a_request_runs_at_most_once dumps sha256 w t r s1 s2 a1 a2 :
  reachable_world dumps sha256 w →
  attempts (led w) !! (t, r, s1) = Some a1 → attempts (led w) !! (t, r, s2) = Some a2 → (s1 < s2)%Z →
  ¬ may_have_run (cl w) a1 ∧
  ∀ c self prov epoch d, rtc step (cl w) c → own_node_id self = at_node a1 →
    promote self (at_op a1) prov epoch (cdb c) ≠ (inr true, d).
Proof.
  intros Hok%reachable_binding_ok Ha1 Ha2 Hlt.
  pose proof (superseded_cancelled _ _ _ _ _ _ _ Hok Ha1 Ha2 Hlt) as Hcan.
  split; [by apply cancelled_not_run|]. intros c self prov epoch d Hsteps Hn.
  destruct Hcan as (x&Hx&Hst). eapply (past_accepted_never_promoted (cl w));
    [by apply reachable_wf, Hok|by rewrite Hx|by rewrite Hst|done|done].
Qed.

Definition first_attempt : attempt_row :=
  mk_attempt "n" "op1" None None 0 (Some Play.bill).
Definition second_attempt : attempt_row :=
  mk_attempt "n" "op2" (Some 1%Z) None 0 (Some Play.bill).

Lemma a_request_runs_at_most_once_witness : ¬ may_have_run (cl Play.w3) first_attempt.
Proof.
  eapply (a_request_runs_at_most_once Play.dumps Play.sha Play.w3 "t" "k:K" 1 2 first_attempt second_attempt).
  - apply Play.w3_reachable.
  - vm_compute. reflexivity.
  - vm_compute. reflexivity.
  - reflexivity.
Defined.

(** What is forwarded was bound, and to one caller.  When [bind] has answered
    with an attempt to run, that attempt is in the history of the very request it
    was answered for, and no other call of [bind], whichever gateway ran it and
    however the calls interleaved, has answered or will answer with it. *)
Theorem an_attempt_has_one_caller dumps sha256 w i j ti tj x y :
  reachable_world dumps sha256 w →
  tasks w !! i = Some ti → program ti = Pure (Bound (inl x)) →
  tasks w !! j = Some tj → program tj = Pure (Bound (inl y)) →
  (ai_op x = ai_op y → i = j) ∧
  ∃ t r s a, ai_request x = Some r ∧ attempts (led w) !! (t, r, s) = Some a ∧ at_op a = ai_op x.
Proof.
  intros [Hc Hl He Hm Ht]%reachable_binding_ok Hi Hpi Hj Hpj.
  pose proof (Ht _ (list_elem_of_lookup_2 _ _ _ Hi)) as Hoi.
  pose proof (Ht _ (list_elem_of_lookup_2 _ _ _ Hj)) as Hoj.
  unfold obedient in Hoi, Hoj. rewrite Hpi in Hoi. rewrite Hpj in Hoj.
  destruct Hoi as [Hxi (b&Hb&Hop&Hreq)], Hoj as [Hxj _]. split.
  - intros Heq. rewrite <- Heq in Hxj.
    eapply (Hm i j _ _ (EvMinted (ai_op x)) (EvMinted (ai_op x)) (ai_op x)); [by rewrite list_lookup_fmap, Hi|by rewrite list_lookup_fmap, Hj|done..].
  - pose proof (He _ (list_elem_of_lookup_2 _ _ _ Hi)) as Hh. rewrite Forall_forall in Hh.
    destruct (Hh _ Hb) as (row&a&_&Ha&[_ Hao]&_).
    exists (b_tenant b), (b_request b), (b_seq b), a. split_and!; [done|done|congruence].
Qed.

Lemma an_attempt_has_one_caller_witness :
  ∃ t r s a, Some "k:K" = Some r ∧ attempts (led Play.w3) !! (t, r, s) = Some a ∧ at_op a = "op2".
Proof.
  eapply (an_attempt_has_one_caller Play.dumps Play.sha Play.w3 2 2 _ _
    (mk_attempt_identity "op2" (Some "k:K") (Some "v1:{}") true)
    (mk_attempt_identity "op2" (Some "k:K") (Some "v1:{}") true)).
  - apply Play.w3_reachable.
  - vm_compute. reflexivity.
  - reflexivity.
  - vm_compute. reflexivity.
  - reflexivity.
Defined.

(** The payload was the one its binding was made for. *)
Definition same_payload (dumps : json → option string) (sha256 : string → string) (b : Binding)
    (x : RequestIdentity) (same : bool) : Prop :=
  ∃ text, canonical_v1 dumps x = Some text ∧
    bool_decide (b_hash b = ("v1:" ++ sha256 text)%string) = same.

Lemma check_hash_tells dumps sha256 b i tr s :
  obeys log plausible must (check_hash dumps sha256 b i)
    (λ o _ tr', tr' = tr ∧ match o with
                          | inr _ => same_payload dumps sha256 b i true
                          | inl IdempotencyKeyReusedError => same_payload dumps sha256 b i false
                          | inl e => e = NoAvailableModelError ∨ e = NotJson
                          end) s tr.
Proof.
  apply obeys_bind. unfold payload_hash. case_bool_decide as Hv; [|simpl; auto]. rewrite Hv.
  destruct (canonical_v1 dumps i) as [text|] eqn:Hc; [|simpl; auto].
  simpl. case_bool_decide as Hh; (split; [done|exists text; split; [done|]]).
  - by apply bool_decide_eq_true_2.
  - apply bool_decide_eq_false_2. naive_solver.
Qed.

(** A binding read under the key [k] of [x], and the agent's word on its attempt. *)
Definition bound_under (t : string) (i : option RequestIdentity) (tr : list event)
    (P : RequestIdentity → Binding → Prop) : Prop :=
  ∃ x k b, i = Some x ∧ id_key x = Some k ∧ EvBinding b ∈ tr ∧ b_tenant b = t ∧
    b_request b = keyed_request_id k ∧ P x b.
Definition seen_as (b : Binding) (tr : list event) (st : string) : Prop :=
  EvView (b_node b) (b_op b) st ∈ tr.

(** What each answer to a repeated key rests on. *)
Definition rests_on (dumps : json → option string) (sha256 : string → string) (t : string)
    (i : option RequestIdentity) (o : bexn + option replayed) (tr : list event) : Prop :=
  match o with
  | inr None => (∀ x, i = Some x → id_key x = None) ∨
      (∃ x k, i = Some x ∧ id_key x = Some k ∧ EvUnbound t (keyed_request_id k) ∈ tr) ∨
      bound_under t i tr (λ x b, same_payload dumps sha256 b x true ∧ seen_as b tr "cancelled_unsent")
  | inr (Some a) => bound_under t i tr (λ x b, same_payload dumps sha256 b x true ∧
      seen_as b tr "completed" ∧ is_Some (v_result (replay_view a)))
  | inl IdempotencyKeyReusedError =>
      bound_under t i tr (λ x b, same_payload dumps sha256 b x false)
  | inl IdempotencyAttemptFailedError => bound_under t i tr (λ x b, seen_as b tr "failed")
  | inl IdempotencyResultExpiredError => bound_under t i tr (λ x b, seen_as b tr "completed")
  | inl IdempotencyInProgressError => bound_under t i tr (λ x b, ∃ st, seen_as b tr st ∧
      st ∉ ["cancelled_unsent"; "completed"; "failed"])
  | inl e => no_answer e ∨ e = BindingStoreError ∨ e = NotJson
  end.

(** A repeated key is answered from the attempt it is bound to, on every
    branch.  Whatever the database and the agent answer, [repeat] lets the request
    proceed only when it carries no key, when nothing is bound under its key, or
    when the agent said the bound attempt is [cancelled_unsent]; it replays only
    the stored result of a completed attempt bound under this very key for this
    very payload; and each refusal says what was seen: another payload, a failed
    attempt, a completed one whose result is gone, or one that has not ended. *)
Theorem a_repeat_is_answered_by_its_attempt dumps sha256 t i o s tr :
  exec log plausible (repeat dumps sha256 t i) tt [] o s tr → rests_on dumps sha256 t i o tr.
Proof.
  revert o s tr. apply wp_exec, (obeys_wp _ _ must).
  destruct i as [i|]; [|left; by intros]. unfold repeat.
  destruct (id_key i) as [k|] eqn:Hk; [|left; by intros ? [= <-]].
  apply obeys_bind, invoke_binds_ok; [done|]. intros [e|[b|]] Hb.
  - hnf in Hb. subst e. simpl. auto.
  - destruct Hb as [Ht Hr]. cbn [app log].
    assert (∀ P tr, EvBinding b ∈ tr → P i b → bound_under t (Some i) tr P) as Hunder
      by (intros P tr ? ?; exists i, k, b; by split_and!).
    apply obeys_bind. eapply obeys_mono; [|apply check_hash_tells].
    intros [e|[]] [] tr1 [-> Hh].
    { destruct e; try (destruct Hh as [[=]|[=]]; unfold rests_on, no_answer; by auto).
      apply Hunder; [set_solver|done]. }
    eapply obeys_mono; [|apply existing_ok]. intros o [] tr2 [Hp Hx].
    assert (EvBinding b ∈ tr2) as Hin by (eapply elem_of_prefix; [|done]; set_solver).
    destruct o as [e|[a|]].
    + destruct e; simpl in Hx |- *; try (destruct Hx as [[[=]|[=]]|[=]]; unfold no_answer; by auto);
        apply Hunder; try done. by apply Hx.
    + destruct Hx as (?&_&?). by apply Hunder.
    + right. right. by apply Hunder.
  - right. left. exists i, k. split_and!; [done|done|]. simpl. set_solver.
Qed.

Definition seen_binding : Binding :=
  mk_binding "t" "k:K" "v1:{}" "v1" true 0 1 "n" "op1" Play.bill.

Lemma a_repeat_is_answered_by_its_attempt_witness :
  rests_on Play.dumps Play.sha "t" Play.key (inl IdempotencyAttemptFailedError)
    [EvBinding seen_binding; EvNothing; EvView "n" "op1" "failed"].
Proof.
  apply (a_repeat_is_answered_by_its_attempt _ _ _ _ _ tt). cbn.
  exists (inr (Some seen_binding)). split; [done|]. cbn.
  exists (inr true). split; [by intros|]. cbn.
  exists (inr (Some (mk_view "op1" "failed" None None))). split; [by intros|]. by split_and!.
Defined.
