(* ===== verification/Retention.v ===== *)
(** How long records are kept ([domain/entities/retention.py],
    [application/use_cases/manage_retention.py] and, of
    [adapters/persistence/repositories/retention_templates.py], the purge and the
    policies).

    Four tables only ever grow; a policy per table says for how many days a row
    is kept.  A table is here the list of its rows, each with the [at] column a
    purge reads.  Times are microseconds since the epoch.  [timedelta] and
    [datetime] are the standard library's, with the range they have. *)

From S2P Require Export Actors.

Inductive RetentionDataset : Set := AUDIT_LOG | USAGE_RECORDS | PROMPT_LOGS | REFUSALS.
#[export] Instance RetentionDataset_eq_dec : EqDecision RetentionDataset.
Proof. solve_decision. Defined.
#[export] Instance RetentionDataset_countable : Countable RetentionDataset.
Proof.
  refine (inj_countable' (λ d, match d with AUDIT_LOG => 0 | USAGE_RECORDS => 1 | PROMPT_LOGS => 2 | REFUSALS => 3 end)
    (λ n, match n with 0 => AUDIT_LOG | 1 => USAGE_RECORDS | 2 => PROMPT_LOGS | _ => REFUSALS end) _).
  by intros [].
Defined.

(** [for dataset in RetentionDataset] *)
Definition DATASETS : list RetentionDataset := [AUDIT_LOG; USAGE_RECORDS; PROMPT_LOGS; REFUSALS].

Record RetentionBounds := mk_bounds {
  default_days : Z; minimum_days : Z; maximum_days : option Z
}.
Definition DEFAULT_RETENTION_DAYS : Z := 360.
Definition MINIMUM_RETENTION_DAYS : Z := 30.
Definition bounds_for (d : RetentionDataset) : RetentionBounds :=
  match d with
  | AUDIT_LOG | USAGE_RECORDS => mk_bounds DEFAULT_RETENTION_DAYS MINIMUM_RETENTION_DAYS None
  | PROMPT_LOGS => mk_bounds 7 1 (Some 30%Z)
  | REFUSALS => mk_bounds 30 7 (Some 180%Z)
  end.

Record RetentionPolicy := mk_policy {
  policy_dataset : RetentionDataset; days : Z;
  updated_at : option Z; updated_by : option string
}.
Record PurgeOutcome := mk_outcome { purged : RetentionDataset; cutoff_at : Z; deleted : nat }.
Record RetentionPreview := mk_preview { previewed : RetentionDataset; preview_days : Z; affected : nat }.

Inductive rexn : Type :=
  | NotAuthorized | RetentionWindowTooShortError | RetentionWindowTooLongError | OverflowError | DataError.

Inductive entry : Type :=
  | RETENTION_POLICY_SET (by_ : string) (d : RetentionDataset) (n : Z)
  | RETENTION_PURGED (by_ : string) (d : RetentionDataset) (n cutoff : Z) (count : nat).

(** A row: its identity and its [at]. *)
Abbreviation row := (string * Z)%type.

Record rdb := mk_rdb {
  rclock : Z;
  policies : gmap RetentionDataset RetentionPolicy;
  tables : RetentionDataset → list row;
  trail : list entry
}.
Abbreviation rtx := (tx rdb rexn).

Definition DAY : Z := 86400000000.
(** [timedelta.max.days], and the first and last [datetime] in UTC. *)
Definition TIMEDELTA_MAX_DAYS : Z := 999999999.
Definition DATETIME_MIN : Z := -62135596800000000.
Definition DATETIME_MAX : Z := 253402300799999999.
(** The [days] column is an [Integer]. *)
Definition INT_MAX : Z := 2147483647.

(** [self._clock.now() - timedelta(days=days)] *)
Definition cutoff (n : Z) : rtx Z :=
  let! now := gets rclock in
  if bool_decide (TIMEDELTA_MAX_DAYS < Z.abs n)%Z then raise OverflowError
  else if bool_decide (now - n * DAY < DATETIME_MIN ∨ DATETIME_MAX < now - n * DAY)%Z then raise OverflowError
  else commit (now - n * DAY)%Z.

Definition clamp (n : Z) (b : RetentionBounds) : Z :=
  let n := match maximum_days b with Some m => Z.min n m | None => n end in
  Z.max n (minimum_days b).

Definition assert_within_bounds (d : RetentionDataset) (n : Z) : rtx unit :=
  let b := bounds_for d in
  if bool_decide (n < minimum_days b)%Z then raise RetentionWindowTooShortError
  else match maximum_days b with
       | Some m => if bool_decide (m < n)%Z then raise RetentionWindowTooLongError else commit tt
       | None => commit tt
       end.

Definition authorise (a : Actor) : rtx unit :=
  match require a RETENTION_WRITE with Ret _ => commit tt | Raise _ => raise NotAuthorized end.

(** [PostgresRecordPurge] *)
Definition older (c : Z) (r : row) : Prop := (r.2 < c)%Z.
#[export] Instance older_dec c r : Decision (older c r).
Proof. unfold older. apply _. Defined.

Definition count_older_than (d : RetentionDataset) (c : Z) : rtx nat :=
  gets (λ s, length (filter (older c) (tables s d))).

Definition set_table (d : RetentionDataset) (rows : list row) (s : rdb) : rdb :=
  mk_rdb (rclock s) (policies s) (λ d', if decide (d' = d) then rows else tables s d') (trail s).

Definition delete_older_than (d : RetentionDataset) (c : Z) : rtx nat :=
  let! n := count_older_than d c in
  let! _ := modify (λ s, set_table d (filter (λ r, ¬ older c r) (tables s d)) s) in
  commit n.

Definition record (e : entry) : rtx unit :=
  modify (λ s, mk_rdb (rclock s) (policies s) (tables s) (trail s ++ [e])).

(** The number of days that governs a dataset. *)
Definition days_for (d : RetentionDataset) : rtx Z :=
  let! p := gets (λ s, policies s !! d) in
  match p with
  | None => commit (default_days (bounds_for d))
  | Some p => commit (clamp (days p) (bounds_for d))
  end.

Definition governing (d : RetentionDataset) (p : RetentionPolicy) : RetentionPolicy :=
  let n := clamp (days p) (bounds_for d) in
  if bool_decide (n = days p) then p else mk_policy (policy_dataset p) n (updated_at p) (updated_by p).

Definition list_policies (a : Actor) : rtx (list RetentionPolicy) :=
  let! _ := authorise a in
  let! stored := gets policies in
  commit (map (λ d, match stored !! d with
                    | None => mk_policy d (default_days (bounds_for d)) None None
                    | Some p => governing d p
                    end) DATASETS).

Definition set_policy (a : Actor) (d : RetentionDataset) (n : Z) : rtx RetentionPolicy :=
  let! _ := authorise a in
  let! _ := assert_within_bounds d n in
  let! now := gets rclock in
  let p := mk_policy d n (Some now) (Some (display a)) in
  let! _ := (if bool_decide (INT_MAX < n)%Z then raise DataError
             else modify (λ s, mk_rdb (rclock s) (<[d := p]> (policies s)) (tables s) (trail s))) in
  let! _ := record (RETENTION_POLICY_SET (actor_id a) d n) in
  commit p.

Definition effective (d : RetentionDataset) (asked : option Z) : rtx Z :=
  match asked with Some n => commit n | None => days_for d end.

Definition preview (a : Actor) (d : RetentionDataset) (asked : option Z) : rtx RetentionPreview :=
  let! _ := authorise a in
  let! n := effective d asked in
  let! c := cutoff n in
  let! count := count_older_than d c in
  commit (mk_preview d n count).

Definition purge (a : Actor) (d : RetentionDataset) (asked : option Z) : rtx PurgeOutcome :=
  let! _ := authorise a in
  let! n := effective d asked in
  let! _ := (if bool_decide (n < minimum_days (bounds_for d))%Z
             then raise RetentionWindowTooShortError else commit tt) in
  let! c := cutoff n in
  let! count := delete_older_than d c in
  let! _ := record (RETENTION_PURGED (actor_id a) d n c count) in
  commit (mk_outcome d c count).

Definition purge_one (d : RetentionDataset) : rtx PurgeOutcome :=
  let! n := days_for d in
  let! c := cutoff n in
  let! count := delete_older_than d c in
  commit (mk_outcome d c count).

Fixpoint purge_each (ds : list RetentionDataset) : rtx (list PurgeOutcome) :=
  match ds with
  | [] => commit []
  | d :: ds => let! o := purge_one d in let! os := purge_each ds in commit (o :: os)
  end.

(** The scheduled sweep, one transaction. *)
Definition purge_due : rtx (list PurgeOutcome) := purge_each DATASETS.

(** * Theory *)

(** Every operation, for statements about all of them. *)
Inductive retention_request : Type :=
  | QList (a : Actor)
  | QSet (a : Actor) (d : RetentionDataset) (n : Z)
  | QPreview (a : Actor) (d : RetentionDataset) (asked : option Z)
  | QPurge (a : Actor) (d : RetentionDataset) (asked : option Z)
  | QPurgeDue.

Definition perform (q : retention_request) : rtx unit :=
  match q with
  | QList a => let! _ := list_policies a in commit tt
  | QSet a d n => let! _ := set_policy a d n in commit tt
  | QPreview a d n => let! _ := preview a d n in commit tt
  | QPurge a d n => let! _ := purge a d n in commit tt
  | QPurgeDue => let! _ := purge_due in commit tt
  end.

Lemma cutoff_inr n s c s' :
  cutoff n s = inr (c, s') ↔
  s' = s ∧ c = (rclock s - n * DAY)%Z ∧ (Z.abs n ≤ TIMEDELTA_MAX_DAYS)%Z ∧ (DATETIME_MIN ≤ c ≤ DATETIME_MAX)%Z.
Proof.
  unfold cutoff. rewrite tx_bind_inr. split.
  - intros (now&s1&[-> ->]%tx_gets_inr&Hc). do 2 (case_bool_decide; [done|]).
    apply tx_commit_inr in Hc as [-> ->]. split_and!; [done|done|lia|lia|lia].
  - intros (->&->&?&?). exists (rclock s), s. split; [done|].
    rewrite !bool_decide_eq_false_2 by lia. done.
Qed.

Lemma cutoff_inl n s : (rclock s - n * DAY < DATETIME_MIN)%Z → cutoff n s = inl OverflowError.
Proof.
  intros Hn. unfold cutoff, and_then, mbind, tx_bind. simpl.
  case_bool_decide; [done|]. by rewrite bool_decide_eq_true_2 by (by left).
Qed.

Lemma days_for_inr d s n s' :
  days_for d s = inr (n, s') ↔
  s' = s ∧ n = match policies s !! d with
               | None => default_days (bounds_for d)
               | Some p => clamp (days p) (bounds_for d)
               end.
Proof.
  unfold days_for. rewrite tx_bind_inr. split.
  - intros (p&s1&[-> ->]%tx_gets_inr&H). destruct (policies s !! d); by apply tx_commit_inr in H as [-> ->].
  - intros [-> ->]. exists (policies s !! d), s. split; [done|]. by destruct (policies s !! d).
Qed.

Lemma delete_inr d c s n s' :
  delete_older_than d c s = inr (n, s') ↔
  n = length (filter (older c) (tables s d)) ∧ s' = set_table d (filter (λ r, ¬ older c r) (tables s d)) s.
Proof.
  unfold delete_older_than, count_older_than. split; [intros Hd; inv_tx; done|by intros [-> ->]].
Qed.

Lemma bounds_ordered d :
  (1 ≤ minimum_days (bounds_for d) ≤ default_days (bounds_for d))%Z ∧
  ∀ m, maximum_days (bounds_for d) = Some m → (default_days (bounds_for d) ≤ m)%Z.
Proof.
  destruct d; simpl; (split; [unfold DEFAULT_RETENTION_DAYS, MINIMUM_RETENTION_DAYS; lia|]);
    intros m [= <-]; lia.
Qed.

(** A window that governs lies within its dataset's bounds, whatever was stored. *)
Lemma clamp_within n d :
  (minimum_days (bounds_for d) ≤ clamp n (bounds_for d))%Z ∧
  ∀ m, maximum_days (bounds_for d) = Some m → (clamp n (bounds_for d) ≤ m)%Z.
Proof.
  destruct (bounds_ordered d) as [? Hm]. unfold clamp. split; [lia|].
  intros m He. specialize (Hm m He). rewrite He. lia.
Qed.

Lemma days_for_within d s n s' :
  days_for d s = inr (n, s') →
  s' = s ∧ (minimum_days (bounds_for d) ≤ n)%Z ∧ ∀ m, maximum_days (bounds_for d) = Some m → (n ≤ m)%Z.
Proof.
  intros [-> ->]%days_for_inr. split; [done|]. destruct (policies s !! d); [apply clamp_within|].
  destruct (bounds_ordered d). naive_solver lia.
Qed.

(** What a purge of one dataset leaves. *)
Definition pruned (d : RetentionDataset) (s s' : rdb) : Prop :=
  tables s' d = tables s d ∨
  ∃ c, (c ≤ rclock s - minimum_days (bounds_for d) * DAY)%Z ∧
    tables s' d = filter (λ r, ¬ older c r) (tables s d).

Lemma set_table_pruned d c s d' :
  (c ≤ rclock s - minimum_days (bounds_for d) * DAY)%Z →
  pruned d' s (set_table d (filter (λ r, ¬ older c r) (tables s d)) s).
Proof.
  intros Hc. unfold pruned, set_table. simpl. destruct (decide (d' = d)) as [->|]; [right; eauto|by left].
Qed.

Lemma purge_one_inr d s o s' :
  purge_one d s = inr (o, s') →
  ∃ n, days_for d s = inr (n, s) ∧
    s' = set_table d (filter (λ r, ¬ older (rclock s - n * DAY) r) (tables s d)) s.
Proof.
  intros (n&s1&Hn&Hc)%tx_bind_inr. pose proof Hn as [-> _]%days_for_inr.
  apply tx_bind_inr in Hc as (c&s2&(->&->&?&?)%cutoff_inr&Hd).
  apply tx_bind_inr in Hd as (k&s3&[_ ->]%delete_inr&[_ ->]%tx_commit_inr). eauto.
Qed.

(** A sweep of distinct datasets prunes each at its own governing window. *)
Lemma purge_each_inr ds s os s' :
  NoDup ds → purge_each ds s = inr (os, s') →
  rclock s' = rclock s ∧ policies s' = policies s ∧ trail s' = trail s ∧
  ∀ d, (d ∉ ds → tables s' d = tables s d) ∧
    (d ∈ ds → ∃ n, days_for d s = inr (n, s) ∧
       tables s' d = filter (λ r, ¬ older (rclock s - n * DAY) r) (tables s d)).
Proof.
  intros Hnd. revert s os s'. induction Hnd as [|d0 ds Hd _ IH]; intros s os s'; simpl.
  - intros [_ ->]%tx_commit_inr. split_and!; [done..|]. intros d. split; [done|set_solver].
  - intros (o&s1&Ho&Hs)%tx_bind_inr. apply tx_bind_inr in Hs as (os'&s2&Hs&[_ ->]%tx_commit_inr).
    apply purge_one_inr in Ho as (n&Hn&->).
    destruct (IH _ _ _ Hs) as (Hc&Hp&Ht&HT). simpl in *. split_and!; [done..|].
    intros d. destruct (HT d) as [Hout Hin]. split.
    + intros [Hne Hni]%not_elem_of_cons. rewrite Hout by done. by destruct (decide (d = d0)).
    + intros [->|Hd']%elem_of_cons.
      * exists n. split; [done|]. rewrite Hout by done. by destruct (decide (d0 = d0)).
      * destruct (Hin Hd') as (m&[_ Hm]%days_for_inr&Htab). simpl in Hm, Htab. exists m.
        split; [by apply days_for_inr|]. rewrite Htab. by destruct (decide (d = d0)) as [->|].
Qed.

Lemma DATASETS_nodup : NoDup DATASETS.
Proof. by apply (bool_decide_unpack _); vm_compute. Qed.

Lemma elem_of_DATASETS d : d ∈ DATASETS.
Proof. destruct d; set_solver. Qed.

(** What an operation that deletes nothing leaves. *)
Lemma untouched_pruned s s' : tables s' = tables s → ∀ d, pruned d s s'.
Proof. intros Ht d. left. by rewrite Ht. Qed.

Lemma authorise_inr a s u s' : authorise a s = inr (u, s') → s' = s ∧ RETENTION_WRITE ∈ scopes a.
Proof.
  unfold authorise, require, ensure. case_bool_decide; [|done]. by intros [_ ->]%tx_commit_inr.
Qed.

Lemma effective_inr d asked s n s' :
  effective d asked s = inr (n, s') → s' = s ∧ (asked = None → days_for d s = inr (n, s)).
Proof.
  destruct asked as [k|]; simpl; [by intros [-> ->]%tx_commit_inr|]. intros He.
  pose proof He as [-> _]%days_for_inr. done.
Qed.

Lemma purge_inr a d asked s o s' :
  purge a d asked s = inr (o, s') →
  RETENTION_WRITE ∈ scopes a ∧
  ∃ n, (minimum_days (bounds_for d) ≤ n)%Z ∧ cutoff_at o = (rclock s - n * DAY)%Z ∧
    policies s' = policies s ∧
    tables s' = tables (set_table d (filter (λ r, ¬ older (cutoff_at o) r) (tables s d)) s).
Proof.
  intros (u&s1&[-> ?]%authorise_inr&Hp)%tx_bind_inr.
  apply tx_bind_inr in Hp as (n&s2&[-> _]%effective_inr&Hp).
  apply tx_bind_inr in Hp as (v&s3&Hv&Hp). case_bool_decide; [done|]. apply tx_commit_inr in Hv as [_ ->].
  apply tx_bind_inr in Hp as (c&s4&(->&->&?&?)%cutoff_inr&Hp).
  apply tx_bind_inr in Hp as (k&s5&[_ ->]%delete_inr&Hp).
  apply tx_bind_inr in Hp as (w&s6&Hr&[-> ->]%tx_commit_inr). apply tx_modify_inr in Hr as ->.
  split; [done|]. exists n. split_and!; [lia|done..].
Qed.


(** The scheduled sweep does what the screen says.  When a sweep succeeds,
    every dataset has lost exactly the rows older than the window that
    [list_policies] reports for it, and that window lies within the dataset's
    bounds whatever row was stored, so no transcript outlives thirty days. *)
Theorem a_sweep_does_what_is_listed a s ps os s' :
  list_policies a s = inr (ps, s) → purge_due s = inr (os, s') →
  ∀ i d p, DATASETS !! i = Some d → ps !! i = Some p →
    tables s' d = filter (λ r, ¬ older (rclock s - days p * DAY) r) (tables s d) ∧
    (minimum_days (bounds_for d) ≤ days p)%Z ∧
    ∀ m, maximum_days (bounds_for d) = Some m → (days p ≤ m)%Z.
Proof.
  intros (u&s1&[-> _]%authorise_inr&Hl)%tx_bind_inr Hp i d p Hi Hps.
  apply tx_bind_inr in Hl as (st&s2&[-> ->]%tx_gets_inr&[-> _]%tx_commit_inr).
  apply purge_each_inr in Hp as (_&_&_&HT); [|apply DATASETS_nodup].
  destruct (HT d) as [_ (n&Hn&Ht)]; [apply elem_of_DATASETS|].
  assert (days p = n) as ->.
  { rewrite list_lookup_fmap, Hi in Hps. injection Hps as <-. apply days_for_inr in Hn as [_ ->].
    destruct (policies s !! d) as [q|]; [|done]. unfold governing. by case_bool_decide. }
  split; [done|]. apply days_for_within in Hn as (_&?&?). done.
Qed.

(** A window longer than the calendar stops every sweep.  The audit log and
    the usage records have no maximum, so an administrator may store any number of
    days the column holds for them; once the window reaches past the first representable day,
    computing its cutoff raises, the whole sweep is rolled back, and no dataset,
    the prompt transcripts included, is purged until somebody changes the policy
    or the calendar catches up. *)
Theorem a_window_beyond_the_calendar_stops_every_sweep a s n :
  RETENTION_WRITE ∈ scopes a → (30 ≤ n ≤ INT_MAX)%Z →
  ∃ p s1, set_policy a AUDIT_LOG n s = inr (p, s1) ∧
    ∀ s2, policies s2 = policies s1 → (rclock s2 - n * DAY < DATETIME_MIN)%Z →
      purge_due s2 = inl OverflowError.
Proof.
  intros Ha Hn. unfold set_policy, authorise, require, ensure. rewrite bool_decide_eq_true_2 by done.
  unfold and_then, mbind, tx_bind. simpl. unfold assert_within_bounds. simpl.
  rewrite bool_decide_eq_false_2 by (unfold MINIMUM_RETENTION_DAYS; lia). simpl.
  rewrite bool_decide_eq_false_2 by lia. simpl.
  do 2 eexists. split; [done|]. simpl. intros s2 Hp Hc.
  unfold purge_due. simpl. unfold and_then at 1, mbind, tx_bind, purge_one, and_then at 1, mbind, tx_bind.
  assert (days_for AUDIT_LOG s2 = inr (n, s2)) as ->.
  { apply days_for_inr. rewrite Hp, lookup_insert_eq. split; [done|]. unfold clamp. simpl.
    unfold MINIMUM_RETENTION_DAYS. lia. }
  unfold and_then at 1, mbind, tx_bind. by rewrite cutoff_inl.
Qed.

(** ** The theorems apply *)

Module Demo.
Definition admin : Actor := mk_actor "root" "Root" ADMIN tailnet ADMIN_SCOPES "default" None None None false None.
(** 2026, a transcript of forty days ago, one of yesterday, and an old usage row. *)
Definition today : Z := 1790000000000000.
Definition rows (d : RetentionDataset) : list row :=
  match d with
  | PROMPT_LOGS => [("old", today - 40 * DAY); ("new", today - DAY)]%Z
  | USAGE_RECORDS => [("u", today - 100 * DAY)]%Z
  | _ => []
  end.
Definition s0 : rdb := mk_rdb today ∅ rows [].
Definition swept : rdb :=
  match purge_due s0 with inr (_, s) => s | inl _ => s0 end.
Definition listed : list RetentionPolicy :=
  match list_policies admin s0 with inr (ps, _) => ps | inl _ => [] end.
Definition outcomes : list PurgeOutcome :=
  match purge_due s0 with inr (os, _) => os | inl _ => [] end.

Example swept_transcripts : (tables swept PROMPT_LOGS, tables swept USAGE_RECORDS)
  = ([("new", today - DAY)], [("u", today - 100 * DAY)])%Z.
Proof. vm_compute. reflexivity. Qed.
End Demo.


Lemma a_sweep_does_what_is_listed_witness : ∀ m, Some 30%Z = Some m → (7 ≤ m)%Z.
Proof.
  destruct (a_sweep_does_what_is_listed Demo.admin Demo.s0 Demo.listed Demo.outcomes Demo.swept)
    with (i := 2) (d := PROMPT_LOGS) (p := mk_policy PROMPT_LOGS 7 None None) as (_&_&Hmax).
  - vm_compute. reflexivity.
  - vm_compute. reflexivity.
  - reflexivity.
  - vm_compute. reflexivity.
  - exact Hmax.
Defined.

Lemma a_window_beyond_the_calendar_stops_every_sweep_witness :
  ∃ p s1, set_policy Demo.admin AUDIT_LOG 1000000 Demo.s0 = inr (p, s1) ∧
    purge_due s1 = inl OverflowError.
Proof.
  destruct (a_window_beyond_the_calendar_stops_every_sweep Demo.admin Demo.s0 1000000)
    as (p&s1&Hset&Hall).
  - vm_compute. reflexivity.
  - unfold INT_MAX. lia.
  - exists p, s1. split; [exact Hset|]. apply Hall; [reflexivity|].
    injection Hset as _ <-. vm_compute. reflexivity.
Defined.
