(* ===== verification/Settlement.v ===== *)
(** The one usage row an agent-backed attempt is billed by
    ([domain/services/usage_settlement.py] and
    [adapters/persistence/repositories/usage_settlement.py], with the snapshot of
    [route_chat_request/binding.py]).

    [settle] is cut where others can interleave: [settle_read] computes the row
    from the stored facts, [settle_write] inserts it unless one is there and
    reconciles delivery.  Gateways and sweepers run any number of settlements at
    once, beside the gateways and agents of [Binding] and the purges of
    [Retention]. *)

From S2P Require Export Binding.
From S2P Require Import Retention.

(** * Computing the row *)

Inductive settle_exn : Type :=
  | KeyError | TypeError | ValueError | AttributeError | OverflowError.

Definition BILLABLE_STATES : list op_state := [OpCompleted; OpFailed].
Definition PROMPT_BASES : list string := ["runtime_final"; "exact_counter"; "estimate"].

Definition int_of (v : json) : option Z :=
  match v with JInt z => if bool_decide (0 ≤ z)%Z then Some z else None | _ => None end.
Definition ms_of (v : json) : option Z := (λ z, z `div` 1000000)%Z <$> int_of v.

Record SettledUsage := mk_settled {
  tokens : Z; prompt_tokens : Z; totals_source : string; prompt_tokens_basis : string;
  runtime_completed : bool; latency_ms : Z; completed : bool; at_ : Z;
  prompt_eval_ms : option Z; eval_ms : option Z; load_ms : option Z
}.

(** [v in PROMPT_BASES]; a list or a dict has no hash. *)
Definition in_prompt_bases (v : json) : settle_exn + bool :=
  match v with
  | JStr s => inr (bool_decide (s ∈ PROMPT_BASES))
  | JArr _ | JObj _ => inl TypeError
  | _ => inr false
  end.

Definition basis_text (v : json) : string := match v with JStr s => s | _ => "" end.

Definition totals (state : op_state) (terminal observed : dict) : Z * string :=
  match state, int_of (dict_get terminal "eval_count") with
  | OpCompleted, Some n => (n, "runtime_final")
  | _, _ =>
      let chunks := match int_of (dict_get terminal "observed_chunk_count") with
                    | Some n => Some n
                    | None => int_of (dict_get observed "observed_chunk_count")
                    end in
      match chunks with Some n => (n, "estimated_from_chunks") | None => (0%Z, "unavailable") end
  end.

Definition prompt_basis (source : string) (terminal provenance : dict) : settle_exn + (Z * string) :=
  let reported := int_of (dict_get terminal "prompt_eval_count") in
  let counted := int_of (dict_get provenance "counted") in
  let otherwise : settle_exn + (Z * string) :=
    match counted with
    | None => inr (0%Z, "estimate")
    | Some n =>
        match in_prompt_bases (dict_get provenance "basis") with
        | inl e => inl e
        | inr true => inr (n, basis_text (dict_get provenance "basis"))
        | inr false => inr (0%Z, "estimate")
        end
    end in
  if bool_decide (source = "runtime_final") then
    match reported with Some n => inr (n, "runtime_final") | None => otherwise end
  else otherwise.

Definition latency (terminal observed : dict) : Z :=
  let elapsed := match int_of (dict_get terminal "observed_elapsed_ms") with
                 | Some n => Some n
                 | None => int_of (dict_get observed "observed_elapsed_ms")
                 end in
  match int_of (dict_get terminal "total_duration") with
  | Some ns => (ns `div` 1000000)%Z
  | None => default 0%Z elapsed
  end.

Definition settle_usage (state : op_state) (terminal observed provenance : dict)
    (started : Z) (delivered : option bool) : settle_exn + SettledUsage :=
  let '(n, source) := totals state terminal observed in
  match prompt_basis source terminal provenance with
  | inl e => inl e
  | inr (p, basis) =>
      let ms := latency terminal observed in
      if bool_decide (DATETIME_MAX < started + ms * 1000)%Z then inl OverflowError
      else inr (mk_settled n p source basis (bool_decide (state = OpCompleted)) ms
             (bool_decide (delivered = Some true)) (started + ms * 1000)
             (ms_of (dict_get terminal "prompt_eval_duration"))
             (ms_of (dict_get terminal "eval_duration"))
             (ms_of (dict_get terminal "load_duration")))
  end.

(** * The stored facts and the row *)

Record facts := mk_facts {
  f_delivered : option bool;
  f_billing : dict;
  f_tenant : string;
  f_state : op_state;
  f_terminal : option json;
  f_observed : option json;
  f_provenance : dict
}.

(** A row of [usage_records], the columns a settlement writes. *)
Record usage_row := mk_usage {
  u_id : string; u_attempt : string; u_actor : json; u_api_key : json; u_tenant : string;
  u_capability : json; u_requested : json; u_alias : json; u_usage : SettledUsage;
  u_tier : json; u_before : json; u_after : json
}.

Record books := mk_books {
  wd : Binding.world;
  usage : gmap string usage_row;
  inflight : list usage_row;
  window : option RetentionPolicy
}.

(** [_json] *)
Definition as_dict (v : option json) : dict := match v with Some (JObj d) => d | _ => [] end.

(** The attempt of an op id: [uq_request_attempts_op_id] allows one. *)
Definition attempt_by_op (op : string) (l : ledger) : option (string * string * Z * attempt_row) :=
  head (filter (λ ka, at_op ka.2 = op) (map_to_list (attempts l))).

(** [_FACTS], the three-way join. *)
Definition facts_of (op : string) (w : Binding.world) : option facts :=
  match attempt_by_op op (led w) with
  | Some (t, r, s, a) =>
      match bindings (led w) !! (t, r), ops (cdb (cl w)) !! (at_node a, op) with
      | Some b, Some x =>
          Some (mk_facts (client_delivery_complete a) (default (row_billing b) (at_billing a)) t
                  (state x) (terminal x) (observed x) (provenance x))
      | _, _ => None
      end
  | None => None
  end.

Section Settle.
(** [datetime.fromisoformat] *)
Context (fromisoformat : string → option Z).

Definition get_item (d : dict) (k : string) : settle_exn + json :=
  match dict_lookup k d with Some v => inr v | None => inl KeyError end.

Definition started_at (billing : dict) : settle_exn + Z :=
  match get_item billing "started_at" with
  | inl e => inl e
  | inr (JStr s) => match fromisoformat s with Some t => inr t | None => inl ValueError end
  | inr _ => inl TypeError
  end.

(** [billing.get("compaction") or {}], of which the row takes three entries. *)
Definition compaction_of (billing : dict) : settle_exn + dict :=
  let c := dict_get billing "compaction" in
  if truthy c then match c with JObj d => inr d | _ => inl AttributeError end else inr [].

Notation "'let?' x := m 'in' k" := (match m with inl e => inl e | inr x => k end)
  (at level 10, x pattern, k at level 200).

Definition row_of (id op : string) (f : facts) : settle_exn + usage_row :=
  let billing := f_billing f in
  let? started := started_at billing in
  let? u := settle_usage (f_state f) (as_dict (f_terminal f)) (as_dict (f_observed f))
              (f_provenance f) started (f_delivered f) in
  let? actor := get_item billing "actor_id" in
  let? capability := get_item billing "capability" in
  let? alias := get_item billing "model_alias" in
  let? comp := compaction_of billing in
  inr (mk_usage id op actor (dict_get billing "api_key_id") (f_tenant f) capability
         (dict_get billing "requested_capability") alias u
         (dict_get comp "tier") (dict_get comp "tokens_before") (dict_get comp "tokens_after")).

(** The first half of [settle]: [None] is its [return False]. *)
Definition settle_read (id op : string) (b : books) : settle_exn + option usage_row :=
  match facts_of op (wd b) with
  | None => inr None
  | Some f =>
      if bool_decide (f_state f ∈ BILLABLE_STATES) then
        let? r := row_of id op f in inr (Some r)
      else inr None
  end.

Definition with_completed (c : bool) (u : SettledUsage) : SettledUsage :=
  mk_settled (tokens u) (prompt_tokens u) (totals_source u) (prompt_tokens_basis u)
    (runtime_completed u) (latency_ms u) c (at_ u) (prompt_eval_ms u) (eval_ms u) (load_ms u).
Definition complete (r : usage_row) : usage_row :=
  mk_usage (u_id r) (u_attempt r) (u_actor r) (u_api_key r) (u_tenant r) (u_capability r)
    (u_requested r) (u_alias r) (with_completed true (u_usage r)) (u_tier r) (u_before r) (u_after r).

Definition delivered (op : string) (l : ledger) : bool :=
  match attempt_by_op op l with
  | Some (_, a) => bool_decide (client_delivery_complete a = Some true)
  | None => false
  end.

(** [_RECONCILE] *)
Definition reconcile (op : string) (b : books) : books :=
  match usage b !! op with
  | Some r => if negb (completed (u_usage r)) && delivered op (led (wd b))
              then mk_books (wd b) (<[op := complete r]> (usage b)) (inflight b) (window b)
              else b
  | None => b
  end.

(** [_INSERT] and [_RECONCILE]; true when this writer inserted the row. *)
Definition settle_write (r : usage_row) (b : books) : bool * books :=
  match usage b !! u_attempt r with
  | Some _ => (false, reconcile (u_attempt r) b)
  | None => (true, reconcile (u_attempt r)
                     (mk_books (wd b) (<[u_attempt r := r]> (usage b)) (inflight b) (window b)))
  end.

(** [settle] run without interference. *)
Definition settle (id op : string) (b : books) : settle_exn + (bool * books) :=
  let? r := settle_read id op b in
  match r with None => inr (false, b) | Some r => inr (true, (settle_write r b).2) end.
End Settle.

(** * The sweeper *)

Definition SWEEP_HORIZON_DAYS : Z := minimum_days (bounds_for USAGE_RECORDS) - 1.

(** An attempt the sweep may pick up: ended, young enough, and with no row. *)
Definition unsettled (b : books) (a : attempt_row) : bool :=
  match ops (cdb (cl (wd b))) !! (at_node a, at_op a) with
  | Some x => bool_decide (state x ∈ BILLABLE_STATES) &&
      bool_decide (now (wd b) - SWEEP_HORIZON_DAYS * DAY < created_at a)%Z &&
      bool_decide (usage b !! at_op a = None)
  | None => false
  end.

(** [ORDER BY a.op_id = ANY(:failing), a.created_at] *)
Definition sooner (failing : list string) (a a' : attempt_row) : bool :=
  match bool_decide (at_op a ∈ failing), bool_decide (at_op a' ∈ failing) with
  | false, true => true
  | true, false => false
  | _, _ => bool_decide (created_at a ≤ created_at a')%Z
  end.

Definition all_attempts (b : books) : list attempt_row := (map_to_list (attempts (led (wd b)))).*2.

(** [_candidates] *)
Definition pending (failing : list string) (limit : nat) (b : books) : list string :=
  at_op <$> take limit (py_sorted (sooner failing) (filter (λ a, unsettled b a = true) (all_attempts b))).
Definition undelivered (b : books) (op : string) : bool :=
  match usage b !! op with
  | Some r => negb (completed (u_usage r)) && delivered op (led (wd b))
  | None => false
  end.
Definition late (limit : nat) (b : books) : list string :=
  take limit (filter (λ op, undelivered b op = true) (at_op <$> all_attempts b)).

Section Sweep.
Context (fromisoformat : string → option Z).
(** The identities minted for the rows, and the calls the database fails. *)
Context (ids : string → string) (broken : string → bool).

(** One attempt, settled on its own: count, failing set and books. *)
Definition settle_next (acc : nat * list string * books) (op : string) : nat * list string * books :=
  let '(n, failing, b) := acc in
  if broken op then (n, if bool_decide (op ∈ failing) then failing else failing ++ [op], b)
  else match settle fromisoformat (ids op) op b with
       | inl _ => (n, if bool_decide (op ∈ failing) then failing else failing ++ [op], b)
       | inr (done, b) => (if done then S n else n, filter (λ x, x ≠ op) failing, b)
       end.

Definition reconcile_next (b : books) (op : string) : books := if broken op then b else reconcile op b.

Definition sweep (failing : list string) (limit : nat) (b : books) : nat * list string * books :=
  let '(n, failing', b') := foldl settle_next (0, failing, b) (pending failing limit b) in
  (n, failing', foldl reconcile_next b' (late limit b)).
End Sweep.

(** * Everybody at once *)

Definition set_wd (w : Binding.world) (b : books) : books := mk_books w (usage b) (inflight b) (window b).
Definition set_inflight (l : list usage_row) (b : books) : books := mk_books (wd b) (usage b) l (window b).

(** The days a purge of the usage records may be run with: asked for and at
    least the floor, or the governing ones. *)
Definition purge_days (n : Z) (b : books) : Prop :=
  (minimum_days (bounds_for USAGE_RECORDS) ≤ n)%Z ∨
  n = match window b with
      | None => default_days (bounds_for USAGE_RECORDS)
      | Some p => clamp (days p) (bounds_for USAGE_RECORDS)
      end.

Definition purged_at (c : Z) (b : books) : books :=
  mk_books (wd b) (filter (λ kr, ¬ (at_ (u_usage kr.2) < c)%Z) (usage b)) (inflight b) (window b).

Section Steps.
Context (dumps : json → option string) (sha256 : string → string) (fromisoformat : string → option Z).

Inductive sstep : books → books → Prop :=
  | sstep_world w b : wstep dumps sha256 (wd b) w → sstep b (set_wd w b)
  | sstep_read id op r b :
      settle_read fromisoformat id op b = inr (Some r) → sstep b (set_inflight (inflight b ++ [r]) b)
  | sstep_write i r b :
      inflight b !! i = Some r →
      sstep b (set_inflight (delete i (inflight b)) (settle_write r b).2)
  | sstep_rollback i b : sstep b (set_inflight (delete i (inflight b)) b)
  | sstep_reconcile op b : sstep b (reconcile op b)
  | sstep_policy p b : sstep b (mk_books (wd b) (usage b) (inflight b) p)
  | sstep_purge n b : purge_days n b → sstep b (purged_at (now (wd b) - n * DAY) b).

Definition initial_books (b : books) : Prop :=
  initial_world (wd b) ∧ usage b = ∅ ∧ inflight b = [].
Definition reachable_books (b : books) : Prop := ∃ b0, initial_books b0 ∧ rtc sstep b0 b.

(** Two rows bill alike: all but their identity and the delivery flag. *)
Definition bill (r : usage_row) : usage_row :=
  mk_usage "" (u_attempt r) (u_actor r) (u_api_key r) (u_tenant r) (u_capability r) (u_requested r)
    (u_alias r) (with_completed false (u_usage r)) (u_tier r) (u_before r) (u_after r).

(** A row is what the settled facts of its attempt say. *)
Definition billed_from (w : Binding.world) (r : usage_row) : Prop :=
  ∃ f r', facts_of (u_attempt r) w = Some f ∧ f_state f ∈ BILLABLE_STATES ∧
    row_of fromisoformat "" (u_attempt r) f = inr r' ∧ bill r' = bill r ∧
    (completed (u_usage r) = true → f_delivered f = Some true).

Record books_ok (b : books) : Prop := {
  ok_world : world_ok (wd b);
  ok_usage : ∀ op r, usage b !! op = Some r → u_attempt r = op ∧ billed_from (wd b) r;
  ok_inflight : ∀ r, r ∈ inflight b → billed_from (wd b) r
}.
End Steps.

(** * Theory *)

Lemma attempt_by_op_some c l op k a :
  ledger_ok c l → attempt_by_op op l = Some (k, a) ↔ attempts l !! k = Some a ∧ at_op a = op.
Proof.
  intros Hl. unfold attempt_by_op.
  assert (∀ k a, (k, a) ∈ filter (λ ka, at_op ka.2 = op) (map_to_list (attempts l)) ↔
            attempts l !! k = Some a ∧ at_op a = op) as Hin.
  { intros k' a'. by rewrite list_elem_of_filter, elem_of_map_to_list, (comm and). }
  split.
  - intros Hh. apply Hin. destruct (filter _ _); [done|]. injection Hh as ->. by left.
  - intros Ha. destruct (filter _ _) as [|[k' a'] rest] eqn:Hf.
    + apply Hin in Ha. by apply not_elem_of_nil in Ha.
    + destruct (Hin k' a') as [[Hk' Ho'] _]; [by left|]. simpl. destruct Ha as [Ha Ho].
      assert (k' = k) as -> by (eapply ok_unique; eauto; congruence). by simplify_eq.
Qed.

(** The facts of an attempt whose operation has ended, but for delivery. *)
Definition redeliver (d : option bool) (f : facts) : facts :=
  mk_facts d (f_billing f) (f_tenant f) (f_state f) (f_terminal f) (f_observed f) (f_provenance f).

Lemma facts_stable op w w' f :
  world_ok w → world_ok w' → progresses w w' → facts_of op w = Some f → f_state f ∈ BILLABLE_STATES →
  ∃ d, facts_of op w' = Some (redeliver d f) ∧ (f_delivered f ≠ None → d = f_delivered f).
Proof.
  intros Hok Hok' [_ Hev [HB HA] _ _] Hf Hst. unfold facts_of in *.
  destruct (attempt_by_op op (led w)) as [[[[t r] s] a]|] eqn:Ha; [|done].
  apply (attempt_by_op_some _ _ _ _ _ (ok_ledger _ Hok)) in Ha as [Ha Hop].
  destruct (bindings (led w) !! (t, r)) as [row|] eqn:Hrow; [|done].
  destruct (ops (cdb (cl w)) !! (at_node a, op)) as [x|] eqn:Hx; [|done]. injection Hf as <-. simpl in *.
  apply HA in Ha as (a'&Ha'&Hn&Ho&Hbill&_&Hd). apply HB in Hrow as (row'&Hrow'&_&_&Hrb&_).
  apply (evolves_ops _ _ (Hev (ok_cluster _ Hok))) in Hx as (x'&Hx'&He).
  rewrite (evolves_final _ _ He) in Hx'
    by (unfold BILLABLE_STATES in Hst; set_unfold in Hst; by destruct Hst as [->|[->|[]]]).
  assert (attempt_by_op op (led w') = Some (t, r, s, a')) as ->.
  { apply (attempt_by_op_some _ _ _ _ _ (ok_ledger _ Hok')). split; [done|congruence]. }
  exists (client_delivery_complete a'). rewrite Hrow', Hn, Hx', Hbill, Hrb. by split.
Qed.

Section Rows.
Context (dumps : json → option string) (sha256 : string → string) (fromisoformat : string → option Z).

(** The row of an attempt is fixed by its facts, up to its identity and delivery. *)
Lemma row_of_redeliver id id' op d f r :
  row_of fromisoformat id op f = inr r →
  ∃ r', row_of fromisoformat id' op (redeliver d f) = inr r' ∧ bill r' = bill r ∧
    u_id r' = id' ∧ completed (u_usage r') = bool_decide (d = Some true).
Proof.
  unfold row_of, settle_usage. simpl. intros Hr.
  repeat (case_match; simplify_eq/=); try done; eexists; by split_and!.
Qed.

Lemma row_of_own id op f r :
  row_of fromisoformat id op f = inr r →
  u_attempt r = op ∧ completed (u_usage r) = bool_decide (f_delivered f = Some true).
Proof.
  unfold row_of, settle_usage. intros Hr. by repeat (case_match; simplify_eq/=).
Qed.

Lemma billed_from_stable w w' r :
  world_ok w → world_ok w' → progresses w w' →
  billed_from fromisoformat w r → billed_from fromisoformat w' r.
Proof.
  intros Hok Hok' Hpr (f&r'&Hf&Hst&Hr'&Hb&Hd).
  destruct (facts_stable _ _ _ _ Hok Hok' Hpr Hf Hst) as (d&Hf'&Hd').
  destruct (row_of_redeliver "" "" _ d _ _ Hr') as (r2&Hr2&Hb2&_).
  exists (redeliver d f), r2. split_and!; [done|done|done|congruence|].
  intros Hc. simpl. rewrite Hd'; [by apply Hd|]. by rewrite Hd.
Qed.

Lemma read_billed id op b r :
  settle_read fromisoformat id op b = inr (Some r) → u_attempt r = op ∧ billed_from fromisoformat (wd b) r.
Proof.
  unfold settle_read. destruct (facts_of op (wd b)) as [f|] eqn:Hf; [|done].
  case_bool_decide as Hst; [|done]. destruct (row_of _ id op f) as [e|r0] eqn:Hr; [done|].
  intros [= ->]. destruct (row_of_own _ _ _ _ Hr) as [Ho Hc].
  destruct (row_of_redeliver _ "" _ (f_delivered f) _ _ Hr) as (r2&Hr2&Hb&_).
  split; [done|]. exists f, r2. rewrite Ho. split_and!; [done|done| |done|].
  - by destruct f.
  - rewrite Hc. by intros ?%bool_decide_eq_true.
Qed.

Lemma delivered_facts c l op k a :
  ledger_ok c l → attempts l !! k = Some a → at_op a = op → delivered op l = true →
  client_delivery_complete a = Some true.
Proof.
  intros Hl Ha Ho. unfold delivered.
  destruct (attempt_by_op op l) as [[k' a']|] eqn:Hby; [|done].
  apply (attempt_by_op_some _ _ _ _ _ Hl) in Hby as [Ha' Ho']. intros ?%bool_decide_eq_true.
  assert (k' = k) as -> by (eapply ok_unique; eauto; congruence). by simplify_eq.
Qed.

Lemma facts_delivered op w f :
  facts_of op w = Some f → delivered op (led w) = true → f_delivered f = Some true.
Proof.
  unfold facts_of, delivered. destruct (attempt_by_op op (led w)) as [[[[t r] s] a]|]; [|done].
  intros Hf ?%bool_decide_eq_true. by repeat (case_match; simplify_eq/=).
Qed.

Lemma complete_billed w r :
  billed_from fromisoformat w r → delivered (u_attempt r) (led w) = true →
  billed_from fromisoformat w (complete r).
Proof.
  intros (f&r'&Hf&Hst&Hr'&Hb&_) Hd. exists f, r'. split_and!; [done|done|done|done|].
  intros _. by eapply facts_delivered.
Qed.

(** *** Preservation *)

Abbreviation ok := (books_ok fromisoformat).

Lemma reconcile_books_ok op b : ok b → ok (reconcile op b).
Proof.
  intros [Hw Hu Hi]. unfold reconcile. destruct (usage b !! op) as [r|] eqn:Hr; [|done].
  destruct (negb _ && delivered op _) eqn:Hc; [|done]. apply andb_true_iff in Hc as [_ Hd].
  destruct (Hu _ _ Hr) as [Ho Hb]. split; simpl; [done| |done].
  intros op' r'. destruct (decide (op' = op)) as [->|].
  - rewrite lookup_insert_eq. intros [= <-]. split; [done|]. apply complete_billed; [done|by rewrite Ho].
  - rewrite lookup_insert_ne by done. apply Hu.
Qed.

Lemma settle_write_ok r b : ok b → billed_from fromisoformat (wd b) r → ok (settle_write r b).2.
Proof.
  intros Hok Hb. unfold settle_write. destruct (usage b !! u_attempt r) as [r0|] eqn:Hr; [by apply reconcile_books_ok|]. apply reconcile_books_ok.
  destruct Hok as [Hw Hu Hi]. split; simpl; [done| |done]. intros op' r'.
  destruct (decide (op' = u_attempt r)) as [->|].
  - rewrite lookup_insert_eq. by intros [= <-].
  - rewrite lookup_insert_ne by done. apply Hu.
Qed.

Lemma set_inflight_ok l b :
  ok b → (∀ r, r ∈ l → billed_from fromisoformat (wd b) r) → ok (set_inflight l b).
Proof. intros [Hw Hu Hi] Hl. by split. Qed.

Lemma reconcile_keeps op b : wd (reconcile op b) = wd b ∧ inflight (reconcile op b) = inflight b.
Proof. unfold reconcile. by repeat case_match. Qed.

Lemma settle_write_keeps r b :
  wd (settle_write r b).2 = wd b ∧ inflight (settle_write r b).2 = inflight b.
Proof.
  unfold settle_write. case_match; simpl; [apply reconcile_keeps|].
  by destruct (reconcile_keeps (u_attempt r)
    (mk_books (wd b) (<[u_attempt r:=r]> (usage b)) (inflight b) (window b))) as [-> ->].
Qed.

Lemma sstep_ok b b' : sstep dumps sha256 fromisoformat b b' → ok b → ok b'.
Proof.
  intros Hs Hok. pose proof Hok as [Hw Hu Hi].
  destruct Hs as [w b Hs|id op r b Hr|i r b Hr|i b|op b|p b|n b Hn].
  - destruct (binding_step_ok _ _ _ _ Hs Hw) as [Hw' Hpr]. split; simpl; [done| |].
    + intros op r Hr. destruct (Hu _ _ Hr). split; [done|by apply (billed_from_stable (wd b) w)].
    + intros r Hr. by apply (billed_from_stable (wd b) w), Hi.
  - apply set_inflight_ok; [done|]. intros r'. rewrite elem_of_app, list_elem_of_singleton.
    intros [?| ->]; [by apply Hi|]. by eapply read_billed.
  - destruct (settle_write_keeps r b) as [Hwd Hinf].
    assert (billed_from fromisoformat (wd b) r) as Hb by (eapply Hi, list_elem_of_lookup_2, Hr).
    apply set_inflight_ok; [by apply settle_write_ok|].
    rewrite Hwd. intros r' Hin. apply Hi. eapply elem_of_submseteq; [exact Hin|].
    apply sublist_submseteq, sublist_delete.
  - apply set_inflight_ok; [done|]. intros r' Hin. apply Hi. eapply elem_of_submseteq; [exact Hin|].
    apply sublist_submseteq, sublist_delete.
  - by apply reconcile_books_ok.
  - by split.
  - split; simpl; [done| |done]. intros op r. rewrite map_lookup_filter_Some. intros [? _]. by apply Hu.
Qed.

Lemma reachable_books_ok b : reachable_books dumps sha256 fromisoformat b → ok b.
Proof.
  intros (b0&(Hw&Hu&Hi)&Hs). assert (ok b0) as H0.
  { split; [by apply initial_world_ok|by rewrite Hu|rewrite Hi; set_solver]. }
  clear Hw Hu Hi. induction Hs as [b|b b1 b2 Hs _ IH]; [done|]. by eapply IH, sstep_ok.
Qed.
End Rows.

Section Theory.
Context (dumps : json → option string) (sha256 : string → string) (fromisoformat : string → option Z).
Abbreviation sstep := (sstep dumps sha256 fromisoformat).
Abbreviation billed_from := (billed_from fromisoformat).

(** Two rows that bill the same attempt bill alike. *)
Lemma billed_from_same w r1 r2 :
  billed_from w r1 → billed_from w r2 → u_attempt r1 = u_attempt r2 → bill r1 = bill r2.
Proof. intros (f1&x1&Hf1&_&Hx1&<-&_) (f2&x2&Hf2&_&Hx2&<-&_) He. rewrite He in *. congruence. Qed.

Lemma sstep_progress b b' :
  sstep b b' → books_ok fromisoformat b → progresses (wd b) (wd b').
Proof.
  intros Hs [Hw _ _].
  destruct Hs as [w b Hs|id op r b Hr|i r b Hr|i b|op b|p b|n b Hn]; simpl; try done.
  - by destruct (binding_step_ok _ _ _ _ Hs Hw) as [_ Hpr].
  - by destruct (settle_write_keeps r b) as [-> _].
  - by destruct (reconcile_keeps op b) as [-> _].
Qed.

Lemma ssteps_ok b b' :
  rtc sstep b b' → books_ok fromisoformat b →
  books_ok fromisoformat b' ∧ progresses (wd b) (wd b').
Proof.
  induction 1 as [b|b b1 b2 Hs _ IH]; [by split|]. intros Hok.
  destruct IH as [? Hpr]; [by eapply sstep_ok|]. split; [done|].
  etrans; [by apply sstep_progress|done].
Qed.

(** Whoever settles an attempt writes the row the others would have written.
    However gateways, sweepers, deliveries, agents and purges interleave, as long
    as an attempt has a usage row, every settlement of it computes a row that
    differs at most in its random identity and its delivery flag; so does every
    row already computed and not yet inserted, and every row the attempt will
    ever have.  The delivery flag is only true when the gateway committed that
    the client received everything. *)
Theorem whoever_settles_writes_the_same_row b op u :
  reachable_books dumps sha256 fromisoformat b → usage b !! op = Some u →
  (∀ id, ∃ r, settle_read fromisoformat id op b = inr (Some r) ∧ bill r = bill u) ∧
  (∀ r, r ∈ inflight b → u_attempt r = op → bill r = bill u) ∧
  (∀ b' u', rtc sstep b b' → usage b' !! op = Some u' → bill u' = bill u) ∧
  (completed (u_usage u) = true → delivered op (led (wd b)) = true).
Proof.
  intros Hok%reachable_books_ok Hu. destruct (ok_usage _ _ Hok _ _ Hu) as [Ho Hb].
  split_and!.
  - intros id. destruct Hb as (f&x&Hf&Hst&Hx&Hbx&_). rewrite Ho in *.
    destruct (row_of_redeliver fromisoformat "" id op (f_delivered f) f x Hx) as (r&Hr&Hbr&_).
    exists r. split; [|congruence]. unfold settle_read. rewrite Hf, bool_decide_eq_true_2 by done.
    replace f with (redeliver (f_delivered f) f) by by destruct f. by rewrite Hr.
  - intros r Hr Hro. eapply billed_from_same; [by apply Hok|done|congruence].
  - intros b' u' Hs Hu'. destruct (ssteps_ok _ _ Hs Hok) as [Hok' Hpr].
    destruct (ok_usage _ _ Hok' _ _ Hu') as [Ho' Hb'].
    eapply (billed_from_same (wd b')); [done| |congruence].
    eapply (billed_from_stable _ (wd b)); [by apply Hok|by apply Hok'|done|done].
  - destruct Hb as (f&x&Hf&_&_&_&Hd). intros Hc. specialize (Hd Hc). rewrite Ho in Hf.
    unfold facts_of in Hf. unfold delivered.
    destruct (attempt_by_op op (led (wd b))) as [[[[t r] s] a]|]; [|done].
    apply bool_decide_eq_true. by repeat (case_match; simplify_eq/=).
Qed.

(** A row is of an attempt that may have run. *)
Lemma billed_may_have_run w u k a :
  world_ok w → billed_from w u → attempts (led w) !! k = Some a → at_op a = u_attempt u →
  may_have_run (cl w) a.
Proof.
  intros Hok (f&_&Hf&Hst&_) Ha Hao. unfold facts_of in Hf.
  assert (attempt_by_op (u_attempt u) (led w) = Some (k, a)) as Hby
    by by apply (attempt_by_op_some _ _ _ _ _ (ok_ledger _ Hok)).
  rewrite Hby in Hf. destruct k as [[t r] s]. repeat (case_match; simplify_eq/=).
  eexists. rewrite Hao. split; [done|]. unfold BILLABLE_STATES in Hst. set_solver.
Qed.

(** C16: A request is billed at most once.  However many copies of a keyed request
    arrive and however everybody interleaves, of all the attempts the request ever
    had at most one is billed, now or later, even when its row was purged in
    between. *)
Theorem a_request_is_billed_at_most_once b b' t r s1 s2 a1 a2 u1 u2 :
  reachable_books dumps sha256 fromisoformat b → rtc sstep b b' →
  attempts (led (wd b)) !! (t, r, s1) = Some a1 → usage b !! at_op a1 = Some u1 →
  attempts (led (wd b')) !! (t, r, s2) = Some a2 → usage b' !! at_op a2 = Some u2 →
  s1 = s2.
Proof.
  intros Hok%reachable_books_ok Hs Ha1 Hu1 Ha2 Hu2.
  destruct (ssteps_ok _ _ Hs Hok) as [Hok' Hpr]. pose proof (ok_world _ _ Hok') as Hw'.
  destruct (ok_usage _ _ Hok _ _ Hu1) as [Ho1 Hb1], (ok_usage _ _ Hok' _ _ Hu2) as [Ho2 Hb2].
  apply (billed_from_stable _ _ (wd b')) in Hb1; [|by apply Hok|done|done].
  destruct (grows_attempts _ _ (pr_grows _ _ Hpr) _ _ Ha1) as (a1'&Ha1'&_&Hop&_).
  destruct (Z.lt_trichotomy s1 s2) as [Hlt|[?|Hlt]]; [exfalso|done|exfalso].
  - eapply cancelled_not_run; [exact (superseded_cancelled _ _ _ _ _ _ _ Hw' Ha1' Ha2 Hlt)|].
    eapply billed_may_have_run; [done|exact Hb1|exact Ha1'|congruence].
  - eapply cancelled_not_run; [exact (superseded_cancelled _ _ _ _ _ _ _ Hw' Ha2 Ha1' Hlt)|].
    eapply billed_may_have_run; [done|exact Hb2|exact Ha2|congruence].
Qed.

(** *** Purges *)

Lemma latency_pos terminal observed : (0 ≤ latency terminal observed)%Z.
Proof.
  assert (∀ v n, int_of v = Some n → (0 ≤ n)%Z) as Hint.
  { intros v n. unfold int_of. destruct v; try done. case_bool_decide; [|done]. by intros [= <-]. }
  unfold latency. destruct (int_of (dict_get terminal "total_duration")) as [ns|] eqn:Hn.
  - apply Hint in Hn. apply Z.div_pos; lia.
  - destruct (int_of (dict_get terminal "observed_elapsed_ms")) as [n|] eqn:He; [by eapply Hint|].
    destruct (int_of (dict_get observed "observed_elapsed_ms")) as [n|] eqn:Ho; [by eapply Hint|done].
Qed.

(** A row's [at] is not before the start its snapshot names. *)
Lemma row_at_after_start id op f r t0 :
  row_of fromisoformat id op f = inr r → started_at fromisoformat (f_billing f) = inr t0 →
  (t0 ≤ at_ (u_usage r))%Z.
Proof.
  unfold row_of, settle_usage. intros Hr Ht.
  pose proof (latency_pos (as_dict (f_terminal f)) (as_dict (f_observed f))).
  rewrite Ht in Hr. repeat (case_match; simplify_eq/=); lia.
Qed.

Lemma purge_days_floor n b : purge_days n b → (30 ≤ n)%Z.
Proof.
  intros [?| ->]; [done|]. destruct (window b); simpl; [|unfold DEFAULT_RETENTION_DAYS; lia].
  destruct (clamp_within (days r) USAGE_RECORDS) as [Hd _]. exact Hd.
Qed.

Lemma reconcile_usage op b op' :
  usage (reconcile op b) !! op' = usage b !! op' ∨
  ∃ r, usage b !! op' = Some r ∧ usage (reconcile op b) !! op' = Some (complete r).
Proof.
  unfold reconcile. destruct (usage b !! op) as [r|] eqn:Hr; [|by left].
  case_match; [|by left]. simpl. destruct (decide (op' = op)) as [->|].
  - rewrite lookup_insert_eq. eauto.
  - rewrite lookup_insert_ne by done. by left.
Qed.

(** A row stays, but for its delivery flag, unless it was old enough to purge. *)
Lemma sstep_row b b' op u :
  sstep b b' → usage b !! op = Some u →
  (∃ u', usage b' !! op = Some u' ∧ at_ (u_usage u') = at_ (u_usage u)) ∨
  (at_ (u_usage u) < now (wd b) - 30 * DAY)%Z.
Proof.
  intros Hs Hu. destruct Hs as [w b Hs|id op' r b Hr|i r b Hr|i b|op' b|p b|n b Hn]; simpl; eauto.
  - left. unfold settle_write. simpl. destruct (usage b !! u_attempt r) eqn:Hr'; simpl.
    + destruct (reconcile_usage (u_attempt r) b op) as [->|(r'&?&->)]; [by eauto|simplify_eq; eauto].
    + match goal with |- context [reconcile ?x ?b'] => destruct (reconcile_usage x b' op) as [->|(r'&Hr2&->)] end;
        simpl in *; rewrite lookup_insert_ne in * by congruence; [by eauto|simplify_eq; eauto].
  - left. destruct (reconcile_usage op' b op) as [->|(r'&?&->)]; [by eauto|simplify_eq; eauto].
  - apply purge_days_floor in Hn. destruct (decide (at_ (u_usage u) < now (wd b) - n * DAY)%Z) as [Hlt|Hge].
    + right. unfold DAY in *. lia.
    + left. exists u. split; [|done]. by apply map_lookup_filter_Some.
Qed.

Lemma ssteps_row b b' op u :
  rtc sstep b b' → books_ok fromisoformat b → usage b !! op = Some u →
  is_Some (usage b' !! op) ∨ (at_ (u_usage u) < now (wd b') - 30 * DAY)%Z.
Proof.
  intros Hs. revert u. induction Hs as [b|b b1 b2 H Hs IH]; intros u Hok Hu; [by left; eauto|].
  assert (books_ok fromisoformat b1) as Hok1 by by eapply sstep_ok.
  destruct (sstep_row _ _ _ _ H Hu) as [(u'&Hu'&Hat)|Hlt].
  - rewrite <- Hat. by apply IH.
  - right. pose proof (pr_clock _ _ (sstep_progress _ _ H Hok)).
    destruct (ssteps_ok _ _ Hs Hok1) as [_ Hpr]. pose proof (pr_clock _ _ Hpr). lia.
Qed.

(** What retention removed stays removed.  Once an attempt has had a usage row
    and has none any more, no sweep picks the attempt up again, so a purge is never
    undone by billing the attempt anew under its old date.  It is assumed that the
    attempt was bound within a day of the start its snapshot names: that day is
    the margin of the sweep's horizon. *)
Theorem a_purged_row_stays_removed b b' op u k a failing limit :
  reachable_books dumps sha256 fromisoformat b → usage b !! op = Some u → rtc sstep b b' →
  usage b' !! op = None →
  attempts (led (wd b)) !! k = Some a → at_op a = op →
  (∀ f t0, facts_of op (wd b) = Some f → started_at fromisoformat (f_billing f) = inr t0 →
     created_at a ≤ t0 + DAY)%Z →
  op ∉ pending failing limit b'.
Proof.
  intros Hok%reachable_books_ok Hu Hs Hnone Ha Hao Hprompt Hin.
  destruct (ssteps_row _ _ _ _ Hs Hok Hu) as [[x Hx]|Hold]; [congruence|].
  destruct (ssteps_ok _ _ Hs Hok) as [Hok' Hpr].
  destruct (ok_usage _ _ Hok _ _ Hu) as [Ho (f&r&Hf&_&Hr&Hb&_)]. rewrite Ho in *.
  assert (∃ t0, started_at fromisoformat (f_billing f) = inr t0) as [t0 Ht0].
  { unfold row_of in Hr. destruct (started_at _ _); [done|eauto]. }
  pose proof (row_at_after_start _ _ _ _ _ Hr Ht0) as Hat.
  assert (at_ (u_usage r) = at_ (u_usage u)) as Heq by exact (f_equal (λ x, at_ (u_usage x)) Hb).
  specialize (Hprompt _ _ Hf Ht0).
  unfold pending in Hin. apply list_elem_of_fmap in Hin as (a'&Hop'&Hin).
  apply elem_of_take in Hin as (i&Hin&_). apply list_elem_of_lookup_2 in Hin.
  apply elem_of_py_sorted, list_elem_of_filter in Hin as [Hun Hin].
  unfold all_attempts in Hin. apply list_elem_of_fmap in Hin as ([k' a2]&->&Hin). simpl in *.
  apply elem_of_map_to_list in Hin.
  destruct (grows_attempts _ _ (pr_grows _ _ Hpr) _ _ Ha) as (a3&Ha3&_&Ho3&_&Hc3&_).
  assert (k' = k) as -> by (eapply ok_unique; [apply (ok_world _ _ Hok')|done|done|congruence]).
  simplify_eq. unfold unsettled in Hun. case_match; [|done].
  apply andb_true_iff in Hun as [Hun _]. apply andb_true_iff in Hun as [_ Hyoung%bool_decide_eq_true].
  unfold SWEEP_HORIZON_DAYS, DAY in *. simpl in Hyoung. unfold MINIMUM_RETENTION_DAYS in Hyoung. lia.
Qed.

(** *** The sweep *)

(** A candidate is settled or its settlement raises: it is never put off. *)
Lemma pending_readable id b op failing limit :
  books_ok fromisoformat b → op ∈ pending failing limit b →
  ∃ f, facts_of op (wd b) = Some f ∧ f_state f ∈ BILLABLE_STATES ∧
    settle_read fromisoformat id op b =
      match row_of fromisoformat id op f with inl e => inl e | inr r => inr (Some r) end.
Proof.
  intros Hok Hin. pose proof (ok_ledger _ (ok_world _ _ Hok)) as Hl.
  unfold pending in Hin. apply list_elem_of_fmap in Hin as (a&->&Hin).
  apply elem_of_take in Hin as (i&Hin&_). apply list_elem_of_lookup_2 in Hin.
  apply elem_of_py_sorted, list_elem_of_filter in Hin as [Hun Hin].
  unfold all_attempts in Hin. apply list_elem_of_fmap in Hin as ([[[t r] s] a2]&->&Hin). simpl in *.
  apply elem_of_map_to_list in Hin. unfold settle_read, facts_of.
  assert (attempt_by_op (at_op a2) (led (wd b)) = Some (t, r, s, a2)) as -> by by apply (attempt_by_op_some _ _ _ _ _ Hl).
  destruct (ok_attempt _ _ Hl _ _ _ _ Hin) as (row&->&_). unfold unsettled in Hun.
  destruct (ops (cdb (cl (wd b))) !! (at_node a2, at_op a2)) as [x|]; [|done].
  apply andb_true_iff in Hun as [Hun _]. apply andb_true_iff in Hun as [Hst%bool_decide_eq_true _].
  eexists. split; [done|]. simpl. split; [done|]. by rewrite bool_decide_eq_true_2.
Qed.

Section Sweeping.
Context (ids : string → string) (broken : string → bool).
Abbreviation settle_next := (settle_next fromisoformat ids broken).
Abbreviation reconcile_next := (reconcile_next broken).

Lemma settle_write_usage r b op :
  is_Some (usage b !! op) ∨ op = u_attempt r → is_Some (usage (settle_write r b).2 !! op).
Proof.
  intros Hop. unfold settle_write. destruct (usage b !! u_attempt r) eqn:Hr; simpl.
  - destruct (reconcile_usage (u_attempt r) b op) as [->|(x&_&->)]; [|done].
    destruct Hop as [?| ->]; [done|by rewrite Hr].
  - match goal with |- context [reconcile ?x ?b'] => destruct (reconcile_usage x b' op) as [->|(y&_&->)] end; [|done].
    simpl. destruct (decide (op = u_attempt r)) as [->|]; [by rewrite lookup_insert_eq|].
    rewrite lookup_insert_ne by done. by destruct Hop.
Qed.

Lemma settle_next_keeps acc op :
  wd (settle_next acc op).2 = wd acc.2 ∧
  ∀ o, is_Some (usage acc.2 !! o) → is_Some (usage (settle_next acc op).2 !! o).
Proof.
  destruct acc as [[n failing] b]. unfold Settlement.settle_next, settle.
  destruct (broken op); [done|]. destruct (settle_read _ _ _ _) as [e|[r|]]; [done| |done]. simpl.
  split; [apply settle_write_keeps|]. intros o Ho. apply settle_write_usage. by left.
Qed.

Lemma settle_next_settles acc op b f :
  wd acc.2 = wd b → broken op = false → facts_of op (wd b) = Some f → f_state f ∈ BILLABLE_STATES →
  (∃ e, row_of fromisoformat (ids op) op f = inl e) ∨ is_Some (usage (settle_next acc op).2 !! op).
Proof.
  destruct acc as [[n failing] b0]. simpl. intros Hwd Hb Hf Hst. unfold Settlement.settle_next, settle, settle_read.
  rewrite Hb, Hwd, Hf, bool_decide_eq_true_2 by done.
  destruct (row_of _ _ _ _) as [e|r] eqn:Hr; [by left; eauto|right]. simpl.
  apply settle_write_usage. right. by destruct (row_of_own _ _ _ _ _ Hr).
Qed.

Lemma fold_keeps ops acc :
  wd (foldl settle_next acc ops).2 = wd acc.2 ∧
  ∀ o, is_Some (usage acc.2 !! o) → is_Some (usage (foldl settle_next acc ops).2 !! o).
Proof.
  revert acc. induction ops as [|op ops IH]; intros acc; simpl; [done|].
  destruct (settle_next_keeps acc op) as [Hw Hu], (IH (settle_next acc op)) as [Hw' Hu'].
  split; [congruence|auto].
Qed.

Lemma fold_settles b ops acc op f :
  wd acc.2 = wd b → broken op = false → facts_of op (wd b) = Some f → f_state f ∈ BILLABLE_STATES →
  op ∈ ops →
  (∃ e, row_of fromisoformat (ids op) op f = inl e) ∨ is_Some (usage (foldl settle_next acc ops).2 !! op).
Proof.
  intros Hwd Hb Hf Hst (l1&l2&->)%list_elem_of_split. rewrite foldl_app. simpl.
  destruct (fold_keeps l1 acc) as [Hw1 _].
  destruct (settle_next_settles (foldl settle_next acc l1) op b f) as [He|Hs];
    [congruence|done|done|done|by left|right].
  by apply fold_keeps.
Qed.

Lemma reconcile_fold_keeps ops b o :
  is_Some (usage b !! o) → is_Some (usage (foldl reconcile_next b ops) !! o).
Proof.
  revert b. induction ops as [|op ops IH]; intros b Ho; simpl; [done|]. apply IH.
  unfold Settlement.reconcile_next. destruct (broken op); [done|].
  by destruct (reconcile_usage op b o) as [->|(x&_&->)].
Qed.

(** One bad attempt stops nobody.  A sweep settles every candidate it picked
    up whose own settlement neither raises nor meets a failing database, whatever
    happens to the others before and after it. *)
Theorem a_sweep_settles_all_it_can b failing limit op :
  reachable_books dumps sha256 fromisoformat b →
  op ∈ pending failing limit b → broken op = false →
  (∃ e, settle_read fromisoformat (ids op) op b = inl e) ∨
  is_Some (usage (sweep fromisoformat ids broken failing limit b).2 !! op).
Proof.
  intros Hok%reachable_books_ok Hin Hb.
  destruct (pending_readable (ids op) b op failing limit Hok Hin) as (f&Hf&Hst&->).
  destruct (fold_settles b (pending failing limit b) (0, failing, b) op f) as [[e ->]|Hs]; [done..| |].
  - left. by exists e.
  - right. unfold sweep. destruct (foldl _ _ _) as [[n failing'] b'].
    by apply reconcile_fold_keeps.
Qed.
End Sweeping.
End Theory.

(** * The theorems apply *)

Module Demo.
Import Binding.Play.
(** Every snapshot starts at the epoch. *)
Definition iso (s : string) : option Z := Some 0%Z.

(** The agent runs the second attempt to its end. *)
Definition terminal : json := JObj [("eval_count", JInt 42); ("prompt_eval_count", JInt 7);
  ("total_duration", JInt 1500000000)].
Definition act (q : NodeStore.request) (w : Binding.world) : Binding.world :=
  set_cl (Election.Demo.after Election.Demo.alice q (cl w)) w.
Definition inserted := QInsert "op2" KInference (Some "k:K") (Some "v1:{}") true.
Definition promoted := QPromote "op2" [("counted", JInt 9); ("basis", JStr "estimate")] None.
Definition finished := QFinish "op2" OpCompleted terminal (Some (JObj [])) None false.
Definition ran : Binding.world := act finished (act promoted (act inserted w3)).
Definition w4 : Binding.world := set_led (mark_delivery "op2" true (led ran)) ran.

Definition row : usage_row :=
  match settle_read iso "u" "op2" (mk_books w4 ∅ [] None) with
  | inr (Some r) => r
  | _ => mk_usage "" "" JNull JNull "" JNull JNull JNull
           (mk_settled 0 0 "" "" false 0 false 0 None None None) JNull JNull JNull
  end.
Definition b0 : books := mk_books w0 ∅ [] None.
Definition b4 : books := mk_books w4 ∅ [] None.
Definition b5 : books := mk_books w4 {["op2" := row]} [] None.

Example row_figures :
  let u := u_usage row in
  (tokens u, prompt_tokens u, totals_source u, prompt_tokens_basis u, latency_ms u, completed u)
  = (42%Z, 7%Z, "runtime_final", "runtime_final", 1500%Z, true).
Proof. vm_compute. reflexivity. Qed.

Lemma world_steps b w :
  rtc (wstep dumps sha) (wd b) w → rtc (sstep dumps sha iso) b (set_wd w b).
Proof.
  remember (wd b) as w1 eqn:Hw. intros Hs. revert b Hw. induction Hs as [w1|w1 w2 w3 H _ IH]; intros b ->.
  - by destruct b.
  - eapply rtc_l; [by apply sstep_world|]. by apply (IH (set_wd w2 b)).
Qed.

Lemma act_step q w : wstep dumps sha w (act q w).
Proof. apply wstep_agents, Election.Demo.after_step. Qed.

Lemma w0_to_w4 : rtc (wstep dumps sha) w0 w4.
Proof.
  etrans; [apply w0_to_w3|]. eapply rtc_l; [apply (act_step inserted)|].
  eapply rtc_l; [apply (act_step promoted)|]. eapply rtc_l; [apply (act_step finished)|].
  apply rtc_once. apply (wstep_delivery _ _ "op2" true).
Qed.

Lemma b4_reachable : reachable_books dumps sha iso b4.
Proof. exists b0. split; [split; [apply w0_initial|done]|]. apply (world_steps b0), w0_to_w4. Qed.

Lemma b4_to_b5 : rtc (sstep dumps sha iso) b4 b5.
Proof.
  eapply rtc_l; [apply (sstep_read dumps sha iso "u" "op2" row); vm_compute; reflexivity|].
  apply rtc_once. assert (b5 = set_inflight [] (settle_write row (set_inflight ([] ++ [row]) b4)).2) as ->
    by (vm_compute; reflexivity).
  by apply (sstep_write dumps sha iso 0 row).
Qed.

Lemma b5_reachable : reachable_books dumps sha iso b5.
Proof. destruct b4_reachable as (b&Hb&Hs). exists b. split; [done|]. etrans; [exact Hs|apply b4_to_b5]. Qed.

(** Forty days later the row is purged. *)
Definition later (t : Z) (c : cluster) : cluster :=
  mk_cluster (mk_db t (nodes (cdb c)) (agents (cdb c)) (ops (cdb c)) (results (cdb c))
                    (audit_log (cdb c)) (hold (cdb c)) (models (cdb c))) (locks c).
Definition b6 : books := set_wd (set_cl (later (40 * DAY) (cl w4)) w4) b5.
Definition b7 : books := purged_at (now (wd b6) - 30 * DAY) b6.

Lemma b5_to_b7 : rtc (sstep dumps sha iso) b5 b7.
Proof.
  eapply rtc_l; [apply (sstep_world dumps sha iso (set_cl (later (40 * DAY) (cl w4)) w4) b5)|].
  - apply wstep_agents. apply (step_tick (40 * DAY)). vm_compute. congruence.
  - apply rtc_once. apply (sstep_purge dumps sha iso 30 b6). left. reflexivity.
Qed.
End Demo.

Lemma whoever_settles_writes_the_same_row_witness :
  ∃ r, settle_read Demo.iso "other" "op2" Demo.b5 = inr (Some r) ∧ bill r = bill Demo.row.
Proof.
  apply (whoever_settles_writes_the_same_row Play.dumps Play.sha Demo.iso Demo.b5 "op2" Demo.row).
  - apply Demo.b5_reachable.
  - vm_compute. reflexivity.
Defined.

Lemma a_request_is_billed_at_most_once_witness : (2 = 2)%Z ∧ usage Demo.b5 !! "op2" = Some Demo.row.
Proof.
  split; [|vm_compute; reflexivity].
  apply (a_request_is_billed_at_most_once Play.dumps Play.sha Demo.iso Demo.b5 Demo.b5 "t" "k:K" 2 2
    (set_delivery true second_attempt) (set_delivery true second_attempt) Demo.row Demo.row).
  - apply Demo.b5_reachable.
  - constructor.
  - vm_compute. reflexivity.
  - vm_compute. reflexivity.
  - vm_compute. reflexivity.
  - vm_compute. reflexivity.
Defined.

Lemma a_purged_row_stays_removed_witness : "op2" ∉ pending [] 100 Demo.b7.
Proof.
  apply (a_purged_row_stays_removed Play.dumps Play.sha Demo.iso Demo.b5 Demo.b7 "op2" Demo.row
    ("t", "k:K", 2%Z) (set_delivery true second_attempt)).
  - apply Demo.b5_reachable.
  - vm_compute. reflexivity.
  - apply Demo.b5_to_b7.
  - vm_compute. reflexivity.
  - vm_compute. reflexivity.
  - reflexivity.
  - intros f t0 _ Ht. unfold started_at, get_item in Ht.
    destruct (dict_lookup _ _) as [[| | | |x| |]|]; try discriminate. injection Ht as <-. vm_compute. congruence.
Defined.

Lemma a_sweep_settles_all_it_can_witness :
  (∃ e, settle_read Demo.iso "op2" "op2" Demo.b4 = inl e) ∨
  is_Some (usage (sweep Demo.iso (λ op, op) (λ _, false) [] 100 Demo.b4).2 !! "op2").
Proof.
  apply (a_sweep_settles_all_it_can Play.dumps Play.sha Demo.iso (λ op, op) (λ _, false) Demo.b4 [] 100 "op2").
  - apply Demo.b4_reachable.
  - assert (pending [] 100 Demo.b4 = ["op2"]) as -> by (vm_compute; reflexivity). by left.
  - reflexivity.
Defined.
