(* ===== verification/SignIn.v ===== *)
(** Signing in with a password and a second factor
    ([domain/services/login_throttle.py],
    [application/use_cases/authenticate_local/], [adapters/crypto/pyotp_totp.py], the
    three login routes of [interfaces/http/routers/auth.py], and the statements
    they make on the cache, the users and the recovery codes).

    Every method is a program over its awaited calls.  [Counters] judges the
    throttle as a function of the cache; the programs are judged by their traces,
    and, interleaved with one another, by what they can get out of the store. *)

From S2P Require Export Programs.
From S2P Require Import Actors.

(** * Data *)

(** [domain/entities/user.py], the fields a sign-in reads. *)
Record User := mk_user {
  user_id : string;
  user_login : string;
  user_role : Role;
  password_hash : option string;
  totp_secret : option string;
  totp_last_counter : option Z;
  disabled_at : option Z
}.
Definition can_use_public_entrance (u : User) : bool :=
  bool_decide (is_Some (password_hash u)) && bool_decide (is_Some (totp_secret u)).

Record RecoveryCode := mk_code { code_id : string; code_user : string; code_hash : string; used_at : option Z }.

(** Whom an audit row names ([audit_subject.py]). *)
Record subject := mk_subject { subject_id : string; subject_display : string }.
Definition subject_for (u : User) : subject := mk_subject (user_id u) (user_login u).

Inductive audit_action : Type :=
  | USER_SIGN_IN_THROTTLED (step : string)
  | USER_SIGN_IN_FAILED (reason : string)
  | USER_SIGNED_IN (factor : string)
  | USER_RECOVERY_CODE_USED.

Inductive aexn : Type :=
  | RateLimitedError (retry_after : Z)
  | InvalidCredentialsError | InvalidTotpError | TotpRequiredError | MaintenanceError
  | TypeError | BackendError.

(** The awaited calls.  A call that can fail answers [inl BackendError]. *)
Inductive aeff : Type → Type :=
  | ECounter (key : string) : aeff (aexn + Z)
  | EIncr (key : string) (ttl : Z) : aeff (aexn + Z)
  | EDelete (key : string) : aeff (aexn + unit)
  | EGetText (key : string) : aeff (aexn + option string)
  | ESetText (key value : string) (ttl : Z) : aeff (aexn + unit)
  | EByLogin (login : string) : aeff (aexn + option User)
  | EById (id : string) : aeff (aexn + option User)
  | EHash (password hash : string) : aeff (aexn + bool)
  | EDummyHash : aeff (aexn + unit)
  | EDecrypt (secret : string) : aeff (aexn + string)
  | ENow : aeff Z
  | EAdvance (id : string) (counter : Z) : aeff (aexn + bool)
  | ECodes (id : string) : aeff (aexn + list RecoveryCode)
  | EConsume (code : string) (at_ : Z) : aeff (aexn + bool)
  | EAudit (s : subject) (a : audit_action) (client_ip : string) : aeff unit
  | EHold : aeff (aexn + (bool * Z))
  | ESession (id : string) (epoch : Z) : aeff (aexn + unit)
  | EToken : aeff string.

Abbreviation aprog := (prog aeff aexn unit).

(** * The throttle *)

Definition FREE_ATTEMPTS : Z := 5.
Definition IP_FREE_ATTEMPTS : Z := 30.
Definition WINDOW_SECONDS : Z := 900.

Section SignIn.
(** [hashlib.sha256(s.encode()).hexdigest()] *)
Context (sha256 : string → string).
Definition digest (s : string) : string := String.substring 0 32 (sha256 s).

(** [str.lower], on the code points below 256. *)
Definition lower_char (a : Ascii.ascii) : Ascii.ascii :=
  let c := ascii_code a in
  if ((65 <=? c) && (c <=? 90) || (192 <=? c) && (c <=? 222) && negb (c =? 215))%Z
  then Ascii.ascii_of_nat (Ascii.nat_of_ascii a + 32) else a.
Definition lower (s : string) : string :=
  String.string_of_list_ascii (map lower_char (String.list_ascii_of_string s)).
(** The subject of the two counters of a login. *)
Definition login_digest (login : string) : string := digest (lower (py_strip login)).

(** [token_service.py]: separators and case do not matter. *)
Definition RECOVERY_ALPHABET : string := "abcdefghjkmnpqrstuvwxyz23456789".
Definition normalise_recovery_code (value : string) : string :=
  String.string_of_list_ascii
    (filter (λ c, c ∈ String.list_ascii_of_string RECOVERY_ALPHABET) (String.list_ascii_of_string (lower value))).
Definition hash_recovery_code (presented : string) : string := sha256 (normalise_recovery_code presented).

Definition ip_key (client_ip : string) : string := ("login_fail:ip:" ++ client_ip)%string.
Definition pair_key (login client_ip : string) : string :=
  ("login_fail:pair:" ++ client_ip ++ ":" ++ login_digest login)%string.
Definition account_key (login : string) : string := ("login_fail:account:" ++ login_digest login)%string.
Definition refusal_key (client_ip : string) : string := ("login_refused:ip:" ++ client_ip)%string.

Fixpoint assert_limits (limits : list (string * Z)) : aprog unit :=
  match limits with
  | [] => Pure tt
  | (key, ceiling) :: rest =>
      let! failures := invoke (ECounter key) in
      if bool_decide (ceiling < failures)%Z then Throw (RateLimitedError WINDOW_SECONDS)
      else assert_limits rest
  end.

Definition assert_allowed (login client_ip : string) : aprog unit :=
  assert_limits [(ip_key client_ip, IP_FREE_ATTEMPTS); (pair_key login client_ip, FREE_ATTEMPTS)].

(** The third counter is only ever logged. *)
Definition record_failure (login client_ip : string) : aprog unit :=
  let! _ := invoke (EIncr (ip_key client_ip) WINDOW_SECONDS) in
  let! _ := invoke (EIncr (pair_key login client_ip) WINDOW_SECONDS) in
  let! _ := invoke (EIncr (account_key login) WINDOW_SECONDS) in
  Pure tt.

Definition claim_refusal_record (client_ip : string) : aprog bool :=
  let! n := invoke (EIncr (refusal_key client_ip) WINDOW_SECONDS) in Pure (bool_decide (n = 1%Z)).

Definition clear (login client_ip : string) : aprog unit :=
  let! _ := invoke (EDelete (pair_key login client_ip)) in invoke (EDelete (account_key login)).

(** * The second factor *)

(** [_is_login_shaped]: [partition] at the first [@]. *)
Fixpoint before_at (s : string) : option (string * string) :=
  match s with
  | EmptyString => None
  | String c rest =>
      if bool_decide (ascii_code c = 64%Z) then Some (""%string, rest)
      else match before_at rest with Some (a, b) => Some (String c a, b) | None => None end
  end.
Definition is_login_shaped (presented : string) : bool :=
  match before_at presented with
  | Some (name, domain) => negb (bool_decide (name = "")) && bool_decide (is_Some (String.index 0 "." domain))
  | None => false
  end.
Definition unknown_subject (login : string) : subject :=
  mk_subject "unknown" (if is_login_shaped login then login else ("redacted:" ++ digest login)%string).

(** [str.isdigit] of a code point, and [pyotp.TOTP(secret).at(counter * 30)]. *)
Context (isdigit : Z → bool) (otp : string → Z → list Z).

Definition STEP_SECONDS : Z := 30.
Definition DIGITS : nat := 6.
Definition OFFSETS : list Z := [-1; 0; 1]%Z.

(** [hmac.compare_digest] of two strings refuses characters beyond ASCII. *)
Definition compare_digest (a b : list Z) : aexn + bool :=
  if bool_decide (Forall (λ c, c < 128)%Z (a ++ b)) then inr (bool_decide (a = b)) else inl TypeError.

Fixpoint match_offsets (secret : string) (candidate : list Z) (now_counter : Z) (offsets : list Z)
    (matched : option Z) : aexn + option Z :=
  match offsets with
  | [] => inr matched
  | o :: offsets =>
      let counter := (now_counter + o)%Z in
      match compare_digest (otp secret counter) candidate with
      | inl e => inl e
      | inr true => match_offsets secret candidate now_counter offsets (Some counter)
      | inr false => match_offsets secret candidate now_counter offsets matched
      end
  end.

(** [code.strip().replace(" ", "")], over code points. *)
Definition candidate_of (code : list Z) : list Z := filter (λ c, c ≠ 32%Z) (strip_with is_space code).

(** [PyotpTotp.verify] at time [now]: the accepted counter. *)
Definition totp_verify (now : Z) (secret : string) (code : list Z) (last_counter : option Z) : aexn + Z :=
  let candidate := candidate_of code in
  if negb (bool_decide (length candidate = DIGITS)) || negb (forallb isdigit candidate)
  then inl InvalidTotpError
  else match match_offsets secret candidate (now `div` STEP_SECONDS) OFFSETS None with
       | inl e => inl e
       | inr None => inl InvalidTotpError
       | inr (Some matched) =>
           match last_counter with
           | Some last => if bool_decide (matched ≤ last)%Z then inl InvalidTotpError else inr matched
           | None => inr matched
           end
       end.

(** * Authentication *)

Definition audit (s : subject) (a : audit_action) (client_ip : string) : aprog unit :=
  ask (EAudit s a client_ip).

Definition throttled (login client_ip step : string) : aprog unit :=
  let! first := claim_refusal_record client_ip in
  if negb first then Pure tt
  else
    let! user := invoke (EByLogin login) in
    audit (match user with Some u => subject_for u | None => unknown_subject login end)
      (USER_SIGN_IN_THROTTLED step) client_ip.

(** [try: assert_allowed except RateLimitedError: _throttled; raise] *)
Definition allowed_or_recorded (login client_ip step : string) : aprog unit :=
  catch (assert_allowed login client_ip)
    (λ e, match e with
          | RateLimitedError _ => let! _ := throttled login client_ip step in Throw e
          | _ => Throw e
          end).

Definition fail (s : subject) (client_ip reason : string) : aprog unit :=
  audit s (USER_SIGN_IN_FAILED reason) client_ip.
Definition signed_in (s : subject) (client_ip factor : string) : aprog unit :=
  audit s (USER_SIGNED_IN factor) client_ip.

Definition reject_password {A} (login client_ip : string) (s : subject) (reason : string) : aprog A :=
  let! _ := record_failure login client_ip in
  let! _ := fail s client_ip reason in
  Throw InvalidCredentialsError.

Definition verify_password (login password client_ip : string) : aprog string :=
  let! _ := allowed_or_recorded login client_ip "password" in
  let! found := invoke (EByLogin login) in
  match found with
  | None =>
      let! _ := invoke EDummyHash in
      reject_password login client_ip (unknown_subject login) "unknown_login"
  | Some user =>
      if bool_decide (is_Some (disabled_at user)) then
        let! _ := invoke EDummyHash in
        reject_password login client_ip (subject_for user) "account_disabled"
      else if negb (can_use_public_entrance user) then
        let! _ := invoke EDummyHash in
        reject_password login client_ip (subject_for user) "no_local_credentials"
      else
        let! ok := match password_hash user with
                   | None => Pure false
                   | Some h => invoke (EHash password h)
                   end in
        if negb ok then reject_password login client_ip (subject_for user) "bad_password"
        else Pure (user_id user)
  end.

Definition still_usable (user : User) : bool :=
  negb (bool_decide (is_Some (disabled_at user))) && can_use_public_entrance user.

Definition require_second_step_user (id client_ip : string) : aprog (User * string) :=
  let! found := invoke (EById id) in
  match found with
  | None => Throw TotpRequiredError
  | Some user =>
      match totp_secret user with
      | None => let! _ := fail (subject_for user) client_ip "totp_not_enrolled" in Throw TotpRequiredError
      | Some secret =>
          if still_usable user then Pure (user, secret)
          else let! _ := fail (subject_for user) client_ip "account_unusable" in Throw TotpRequiredError
      end
  end.

(** [self._totp.verify(self._secret_box.decrypt(...), ...)] *)
Definition check_totp (secret : string) (code : list Z) (last : option Z) : aprog Z :=
  let! plain := invoke (EDecrypt secret) in
  let! now := ask ENow in
  or_throw (totp_verify now plain code last).

Definition verify_totp (id : string) (code : list Z) (client_ip : string) : aprog User :=
  let! us := require_second_step_user id client_ip in
  let '(user, secret) := us in
  let! _ := allowed_or_recorded (user_login user) client_ip "totp" in
  let! counter := catch (check_totp secret code (totp_last_counter user))
    (λ e, match e with
          | InvalidTotpError =>
              let! _ := record_failure (user_login user) client_ip in
              let! _ := fail (subject_for user) client_ip "bad_totp_code" in
              Throw e
          | _ => Throw e
          end) in
  let! advanced := invoke (EAdvance (user_id user) counter) in
  if negb advanced then
    let! _ := record_failure (user_login user) client_ip in
    let! _ := fail (subject_for user) client_ip "totp_replay" in
    Throw InvalidTotpError
  else
    let! _ := clear (user_login user) client_ip in
    let! _ := signed_in (subject_for user) client_ip "totp" in
    Pure user.

(** The loop over the stored codes: the first unused one that matches is claimed. *)
Fixpoint claim_code (stored : list RecoveryCode) (d : string) : aprog bool :=
  match stored with
  | [] => Pure false
  | candidate :: rest =>
      if bool_decide (is_Some (used_at candidate)) then claim_code rest d
      else if negb (bool_decide (code_hash candidate = d)) then claim_code rest d
      else let! now := ask ENow in invoke (EConsume (code_id candidate) now)
  end.

Definition verify_recovery_code (id presented client_ip : string) : aprog User :=
  let! us := require_second_step_user id client_ip in
  let '(user, _) := us in
  let! _ := allowed_or_recorded (user_login user) client_ip "recovery_code" in
  let! stored := invoke (ECodes (user_id user)) in
  let! claimed := claim_code stored (hash_recovery_code presented) in
  if negb claimed then
    let! _ := record_failure (user_login user) client_ip in
    let! _ := fail (subject_for user) client_ip "no_recovery_code_matched" in
    Throw InvalidTotpError
  else
    let! _ := clear (user_login user) client_ip in
    let! _ := audit (subject_for user) USER_RECOVERY_CODE_USED client_ip in
    let! _ := signed_in (subject_for user) client_ip "recovery_code" in
    Pure user.

(** * The routes *)

Definition CHALLENGE_TTL_SECONDS : Z := 300.
Definition challenge_key (challenge : string) : string := ("login_challenge:" ++ challenge)%string.

Definition login (name password client_ip : string) : aprog string :=
  let! id := verify_password name password client_ip in
  let! challenge := ask EToken in
  let! _ := invoke (ESetText (challenge_key challenge) id CHALLENGE_TTL_SECONDS) in
  Pure challenge.

Definition consume_challenge (challenge : string) : aprog string :=
  let! id := invoke (EGetText (challenge_key challenge)) in
  let! _ := invoke (EDelete (challenge_key challenge)) in
  match id with
  | Some x => if bool_decide (x = "") then Throw InvalidCredentialsError else Pure x
  | None => Throw InvalidCredentialsError
  end.

Definition establish_session (user : User) : aprog unit :=
  let! state := invoke EHold in
  let '(closed, epoch) := state in
  if closed && negb (bool_decide (user_role user = ADMIN)) then Throw MaintenanceError
  else invoke (ESession (user_id user) epoch).

Definition login_totp (challenge : string) (code : list Z) (client_ip : string) : aprog unit :=
  let! id := consume_challenge challenge in
  let! user := verify_totp id code client_ip in
  establish_session user.

Definition login_recovery_code (challenge presented client_ip : string) : aprog unit :=
  let! id := consume_challenge challenge in
  let! user := verify_recovery_code id presented client_ip in
  establish_session user.
End SignIn.

(** * What a trace shows *)

Inductive event : Type :=
  | Hashed
  | Limit (key : string) (n : Z)
  | Counted (key : string)
  | Deleted (key : string)
  | Audited (s : subject) (a : audit_action)
  | Advanced (id : string) (counter : Z)
  | Listed (id : string) (codes : list string)
  | Consumed (code : string)
  | SessionFor (id : string)
  | Nothing.

Definition log (R : Type) (q : aeff R) : R → event :=
  match q in aeff R return R → event with
  | EHash _ _ => λ _, Hashed
  | EDummyHash => λ _, Hashed
  | ECounter key => λ r, match r with inr n => Limit key n | inl _ => Nothing end
  | EIncr key _ => λ _, Counted key
  | EDelete key => λ _, Deleted key
  | EAudit s a _ => λ _, Audited s a
  | EAdvance id c => λ r, match r with inr true => Advanced id c | _ => Nothing end
  | ECodes id => λ r, match r with inr l => Listed id (code_id <$> l) | inl _ => Nothing end
  | EConsume c _ => λ r, match r with inr true => Consumed c | _ => Nothing end
  | ESession id _ => λ r, match r with inr _ => SessionFor id | inl _ => Nothing end
  | _ => λ _, Nothing
  end.

Definition fails_as_backend {A} (r : aexn + A) : Prop :=
  match r with inl e => e = BackendError | inr _ => True end.

(** A call that fails fails as a backend does. *)
Definition plausible (_ : list event) (R : Type) (q : aeff R) : R → Prop :=
  match q in aeff R return R → Prop with
  | ENow => λ _, True
  | EToken => λ _, True
  | EAudit _ _ _ => λ _, True
  | EHold => fails_as_backend
  | EById _ => fails_as_backend
  | EByLogin _ => fails_as_backend
  | EHash _ _ => fails_as_backend
  | EDummyHash => fails_as_backend
  | EDecrypt _ => fails_as_backend
  | ECounter _ => fails_as_backend
  | EIncr _ _ => fails_as_backend
  | EDelete _ => fails_as_backend
  | EGetText _ => fails_as_backend
  | ESetText _ _ _ => fails_as_backend
  | EAdvance _ _ => fails_as_backend
  | ECodes _ => fails_as_backend
  | EConsume _ _ => fails_as_backend
  | ESession _ _ => fails_as_backend
  end.

(** What an observer of the server and of its records sees of a trace. *)
Definition shows (e : event) : bool :=
  match e with Hashed | Counted _ | Deleted _ | Audited _ _ => true | _ => false end.
Definition noted (tr : list event) : list event := List.filter shows tr.

(** A session is granted only on a claimed second factor of that account. *)
Inductive claim : Type := Code_counter (id : string) (counter : Z) | Recovery (code : string).
Definition owns (e : event) (k : claim) : Prop :=
  match e, k with
  | Advanced id c, Code_counter id' c' => id = id' ∧ c = c'
  | Consumed code, Recovery code' => code = code'
  | _, _ => False
  end.

Definition second_factor (tr : list event) (id : string) : Prop :=
  (∃ c, Advanced id c ∈ tr) ∨ ∃ code codes, Consumed code ∈ tr ∧ Listed id codes ∈ tr ∧ code ∈ codes.

Definition must (tr : list event) (R : Type) (q : aeff R) : Prop :=
  match q with ESession id _ => second_factor tr id | _ => True end.

(** * The store, and everybody at once *)

Inductive cached : Type := Counter (n : Z) | Text (s : string).

Record store := mk_store {
  clk : Z;
  cache : gmap string (cached * Z);
  users : gmap string User;
  codes : gmap string RecoveryCode;
  spent : gset string
}.

Definition live (st : store) (key : string) : option cached :=
  match cache st !! key with
  | Some (v, expires) => if bool_decide (clk st < expires)%Z then Some v else None
  | None => None
  end.

(** [int(await cache.get(key) or 0)] of a counter. *)
Definition count_of (st : store) (key : string) : Z :=
  match live st key with Some (Counter n) => n | _ => 0 end.

Definition set_cache (c : gmap string (cached * Z)) (st : store) : store :=
  mk_store (clk st) c (users st) (codes st) (spent st).

(** [INCR] with [EXPIRE ... NX]: the window runs from the first count. *)
Definition incr (key : string) (ttl : Z) (st : store) : Z * store :=
  match cache st !! key with
  | Some (Counter n, expires) =>
      if bool_decide (clk st < expires)%Z
      then ((n + 1)%Z, set_cache (<[key := (Counter (n + 1), expires)]> (cache st)) st)
      else (1%Z, set_cache (<[key := (Counter 1, clk st + ttl)%Z]> (cache st)) st)
  | _ => (1%Z, set_cache (<[key := (Counter 1, clk st + ttl)%Z]> (cache st)) st)
  end.

Definition advance (id : string) (c : Z) (st : store) : bool * store :=
  match users st !! id with
  | Some u =>
      if match totp_last_counter u with None => true | Some last => bool_decide (last < c)%Z end
      then (true, mk_store (clk st) (cache st)
                    (<[id := mk_user (user_id u) (user_login u) (user_role u) (password_hash u)
                               (totp_secret u) (Some c) (disabled_at u)]> (users st))
                    (codes st) (spent st))
      else (false, st)
  | None => (false, st)
  end.

Definition consume (code : string) (at_ : Z) (st : store) : bool * store :=
  match codes st !! code with
  | Some c =>
      match used_at c with
      | None => (true, mk_store (clk st) (cache st) (users st)
                         (<[code := mk_code (code_id c) (code_user c) (code_hash c) (Some at_)]> (codes st))
                         ({[code]} ∪ spent st))
      | Some _ => (false, st)
      end
  | None => (false, st)
  end.

(** A write answers, or fails before or after it took effect. *)
Definition may_fail {A} (st : store) (out : A * store) (r : aexn + A) (st' : store) : Prop :=
  (r = inr out.1 ∧ st' = out.2) ∨ (r = inl BackendError ∧ (st' = st ∨ st' = out.2)).

Definition reads {A} (st : store) (a : A) (r : aexn + A) (st' : store) : Prop :=
  st' = st ∧ (r = inr a ∨ r = inl BackendError).

Definition answers (st : store) {R} (q : aeff R) : R → store → Prop :=
  match q in aeff R return R → store → Prop with
  | ECounter key => reads st (count_of st key)
  | EIncr key ttl => may_fail st (incr key ttl st)
  | EDelete key => may_fail st (tt, set_cache (delete key (cache st)) st)
  | EGetText key => reads st (match live st key with Some (Text s) => Some s | _ => None end)
  | ESetText key value ttl =>
      may_fail st (tt, set_cache (<[key := (Text value, clk st + ttl)%Z]> (cache st)) st)
  | EByLogin name =>
      reads st (snd <$> head (filter (λ iu, user_login iu.2 = name) (map_to_list (users st))))
  | EById id => reads st (users st !! id)
  | EAdvance id c => may_fail st (advance id c st)
  | ECodes id => reads st (filter (λ c, code_user c = id) (map_to_list (codes st)).*2)
  | EConsume code at_ => may_fail st (consume code at_ st)
  | ENow => λ r st', st' = st
  | EToken => λ r st', st' = st
  | EAudit _ _ _ => λ r st', st' = st
  | EHold => λ r st', st' = st ∧ fails_as_backend r
  | EHash _ _ => λ r st', st' = st ∧ fails_as_backend r
  | EDummyHash => λ r st', st' = st ∧ fails_as_backend r
  | EDecrypt _ => λ r st', st' = st ∧ fails_as_backend r
  | ESession _ _ => λ r st', st' = st ∧ fails_as_backend r
  end.

Record task := mk_task { learnt : list event; program : aprog unit }.
Record world := mk_world { st : store; tasks : list task }.

Definition task_step (s : store) (t : task) (s' : store) (t' : task) : Prop :=
  match program t with
  | Ask q k => ∃ r, answers s q r s' ∧ t' = mk_task (learnt t ++ [log _ q r]) (k r)
  | _ => False
  end.

(** What the rest of the platform does: anything to the accounts, which are made, saved
    whole with the counter that was read earlier, and deleted; anything to the cache but
    the keys of the sign-in; and codes come and go, but no spent one is revived, since
    new codes have new identifiers. *)
Record minds (s s' : store) : Prop := {
  minds_clock : (clk s ≤ clk s')%Z;
  minds_cache : ∀ key, String.prefix "login_" key = true → cache s' !! key = cache s !! key;
  minds_spent : spent s' = spent s;
  minds_codes : ∀ id c, codes s' !! id = Some c → used_at c = None →
    codes s !! id = Some c ∨ id ∉ spent s
}.

(** The requests the three routes serve, each from an address. *)
Inductive login_request : Type :=
  | Login (name password : string)
  | LoginTotp (challenge : string) (code : list Z)
  | LoginRecovery (challenge presented : string).

Section World.
Context (sha256 : string → string) (isdigit : Z → bool) (otp : string → Z → list Z).

Definition serve (q : login_request) (client_ip : string) : aprog unit :=
  match q with
  | Login name password => let! _ := login sha256 name password client_ip in Pure tt
  | LoginTotp challenge code => login_totp sha256 isdigit otp challenge code client_ip
  | LoginRecovery challenge presented =>
      login_recovery_code sha256 challenge presented client_ip
  end.

(** [from] says which addresses send requests. *)
Inductive wstep (from : string → Prop) : world → world → Prop :=
  | wstep_request q client_ip w :
      from client_ip → wstep from w (mk_world (st w) (tasks w ++ [mk_task [] (serve q client_ip)]))
  | wstep_call j t t' s' w :
      tasks w !! j = Some t → task_step (st w) t s' t' →
      wstep from w (mk_world s' (<[j := t']> (tasks w)))
  | wstep_platform s' w : minds (st w) s' → wstep from w (mk_world s' (tasks w)).
End World.

(** * Theory *)

(** ** The calls each method can make *)

(** [P] is kept by every call that writes nothing shared. *)
Section Calls.
Context (sha256 : string → string) (isdigit : Z → bool) (otp : string → Z → list Z).
Context (P : ∀ R, aeff R → Prop).
Hypothesis Preads : ∀ R (q : aeff R),
  match q with
  | EIncr _ _ | EDelete _ | ESetText _ _ _ | EAdvance _ _ | EConsume _ _ | ESession _ _ => True
  | _ => P R q
  end.

Lemma only_reads R (q : aeff R) :
  match q with
  | EIncr _ _ | EDelete _ | ESetText _ _ _ | EAdvance _ _ | EConsume _ _ | ESession _ _ => False
  | _ => True
  end → P R q.
Proof. pose proof (Preads R q). by destruct q. Qed.

(** The writes of the throttle for one login and one address. *)
Definition throttle_writes (name ip : string) : Prop :=
  P _ (EIncr (ip_key ip) WINDOW_SECONDS) ∧ P _ (EIncr (pair_key sha256 name ip) WINDOW_SECONDS) ∧
  P _ (EIncr (account_key sha256 name) WINDOW_SECONDS) ∧ P _ (EIncr (refusal_key ip) WINDOW_SECONDS) ∧
  P _ (EDelete (pair_key sha256 name ip)) ∧ P _ (EDelete (account_key sha256 name)).

Ltac reads := first [apply only_invoke | apply only_ask]; by apply only_reads.

Section One.
Context (name ip : string) (Hw : throttle_writes name ip).

Lemma only_assert_allowed : only P (assert_allowed sha256 name ip).
Proof.
  apply only_bind; [reads|intros n]. case_bool_decide; [done|].
  apply only_bind; [reads|intros m]. by case_bool_decide.
Qed.

Lemma only_record_failure : only P (record_failure sha256 name ip).
Proof. destruct Hw as (?&?&?&_). do 3 (apply only_bind; [by apply only_invoke|intros _]). done. Qed.

Lemma only_clear : only P (clear sha256 name ip).
Proof. destruct Hw as (_&_&_&_&?&?). apply only_bind; [by apply only_invoke|intros _]. by apply only_invoke. Qed.

Lemma only_allowed step : only P (allowed_or_recorded sha256 name ip step).
Proof.
  apply only_catch; [apply only_assert_allowed|]. intros []; try done.
  apply only_bind; [|done]. apply only_bind.
  { apply only_bind; [apply only_invoke; by destruct Hw as (_&_&_&?&_)|done]. }
  intros []; [|done]. cbn [negb]. apply only_bind; [reads|intros u]. reads.
Qed.

Lemma only_reject {A} s reason : only P (reject_password sha256 (A:=A) name ip s reason).
Proof.
  apply only_bind; [apply only_record_failure|intros _]. apply only_bind; [reads|done].
Qed.

Lemma only_verify_password password : only P (verify_password sha256 name password ip).
Proof.
  apply only_bind; [apply only_allowed|intros _]. apply only_bind; [reads|intros [u|]].
  - case_bool_decide; [apply only_bind; [reads|intros _]; apply only_reject|].
    destruct (negb (can_use_public_entrance u)); [apply only_bind; [reads|intros _]; apply only_reject|].
    apply only_bind; [destruct (password_hash u); [reads|done]|].
    intros []; [done|]. apply only_reject.
  - apply only_bind; [reads|intros _]. apply only_reject.
Qed.
End One.

Lemma only_second_step id ip : only P (require_second_step_user id ip).
Proof.
  apply only_bind; [reads|intros [u|]; [|done]]. destruct (totp_secret u).
  - destruct (still_usable u); [done|]. apply only_bind; [reads|done].
  - apply only_bind; [reads|done].
Qed.

Lemma only_check_totp secret code last : only P (check_totp isdigit otp secret code last).
Proof.
  apply only_bind; [reads|intros plain]. apply only_bind; [reads|intros now].
  by destruct (totp_verify _ _ _ _ _ _).
Qed.

Lemma only_consume_challenge challenge :
  P _ (EDelete (challenge_key challenge)) → only P (consume_challenge challenge).
Proof.
  intros Hd. apply only_bind; [reads|intros id]. apply only_bind; [by apply only_invoke|intros _].
  destruct id; [by case_bool_decide|done].
Qed.
End Calls.

(** ** A session needs a claimed factor *)

Definition harmless (R : Type) (q : aeff R) : Prop :=
  match q with ESession _ _ => False | _ => True end.

Lemma harmless_must R (q : aeff R) tr : harmless R q → must tr R q.
Proof. by destruct q. Qed.

Abbreviation ok p Q tr := (obeys log plausible must p Q tt tr).

Lemma invoke_signs_ok {A} (q : aeff (aexn + A)) (Q : aexn + A → unit → list event → Prop) tr :
  must tr _ q → (∀ r, plausible tr _ q r → Q r tt (tr ++ [log _ q r])) → ok (invoke q) Q tr.
Proof. intros Hm HQ. split; [done|]. intros [e|a]; apply HQ. Qed.

(** A method that grants no session, then what follows it. *)
Lemma then_ok {A B} (p : aprog A) (f : A → aprog B) (Q : aexn + B → unit → list event → Prop) tr :
  only harmless p → (∀ e tr', Q (inl e) tt tr') →
  (∀ a tr', tr `prefix_of` tr' → ok (f a) Q tr') → ok (let! x := p in f x) Q tr.
Proof.
  intros Hp He Hf. apply obeys_bind. eapply obeys_mono; [|by apply (only_obeys _ _ _ harmless), Hp; apply harmless_must].
  intros [e|a] [] tr' Htr; [apply He|by apply Hf].
Qed.

Section Granting.
Context (sha256 : string → string) (isdigit : Z → bool) (otp : string → Z → list Z).

Lemma harmless_writes name ip : throttle_writes sha256 harmless name ip.
Proof. by split_and!. Qed.

Definition reads_are_harmless : ∀ R (q : aeff R),
  match q with
  | EIncr _ _ | EDelete _ | ESetText _ _ _ | EAdvance _ _ | EConsume _ _ | ESession _ _ => True
  | _ => harmless R q
  end := ltac:(by intros R []).

Ltac harmless_calls :=
  first [apply only_allowed | apply only_record_failure | apply only_clear | apply only_second_step
        | apply only_check_totp | apply only_consume_challenge | apply only_verify_password];
  first [exact reads_are_harmless | exact I | apply harmless_writes].

Definition granted (o : aexn + User) (tr : list event) : Prop :=
  ∀ u, o = inr u → second_factor tr (user_id u).

Lemma verify_totp_ok id code ip tr :
  ok (verify_totp sha256 isdigit otp id code ip) (λ o _ tr', granted o tr') tr.
Proof.
  apply then_ok; [harmless_calls|done|]. intros [user secret] tr1 _.
  apply then_ok; [harmless_calls|done|]. intros _ tr2 _.
  apply then_ok; [|done|].
  { apply only_catch; [harmless_calls|]. intros []; try done.
    apply only_bind; [harmless_calls|intros _]. by apply only_bind. }
  intros counter tr3 _. apply obeys_bind, invoke_signs_ok; [done|]. intros [e|[]] _; [done| |].
  - cbn [negb]. set (tr4 := tr3 ++ _). assert (Advanced (user_id user) counter ∈ tr4) as Hadv by set_solver.
    clearbody tr4. apply then_ok; [harmless_calls|done|]. intros _ tr5 H5.
    apply then_ok; [by apply only_ask|done|]. intros _ tr6 H6 u [= <-]. left. exists counter.
    by eapply elem_of_prefix, H6; eapply elem_of_prefix, H5.
  - cbn [negb]. apply then_ok; [harmless_calls|done|]. intros _ tr5 _. apply then_ok; [by apply only_ask|done|]. done.
Qed.

Lemma claim_code_ok stored d tr :
  ok (claim_code stored d)
     (λ o _ tr', tr `prefix_of` tr' ∧ (o = inr true → ∃ code, Consumed code ∈ tr' ∧ code ∈ code_id <$> stored)) tr.
Proof.
  induction stored as [|c rest IH]; simpl; [done|].
  assert (ok (claim_code rest d) (λ o _ tr', tr `prefix_of` tr' ∧
    (o = inr true → ∃ code, Consumed code ∈ tr' ∧ code ∈ code_id c :: (code_id <$> rest))) tr) as Hrest.
  { eapply obeys_mono; [|exact IH]. intros o [] tr' [Hp Ho]. split; [done|].
    intros (code&?&?)%Ho. exists code. split; [done|by right]. }
  case_bool_decide; [done|]. case_bool_decide; simpl; [|done].
  split; [done|]. intros now _. split; [done|].
  intros [e|[]] _; simpl; rewrite <- app_assoc; (split; [by apply prefix_app_r|]); [done| |done].
  intros _. exists (code_id c). split; [set_solver|by left].
Qed.

Lemma verify_recovery_ok id presented ip tr :
  ok (verify_recovery_code sha256 id presented ip) (λ o _ tr', granted o tr') tr.
Proof.
  apply then_ok; [harmless_calls|done|]. intros [user secret] tr1 _.
  apply then_ok; [harmless_calls|done|]. intros _ tr2 _.
  apply obeys_bind, invoke_signs_ok; [done|]. intros [e|stored] _; [done|]. cbn [log].
  set (tr3 := tr2 ++ _). assert (Listed (user_id user) (code_id <$> stored) ∈ tr3) as Hl by set_solver.
  clearbody tr3. apply obeys_bind. eapply obeys_mono; [|apply claim_code_ok].
  intros [e|[]] [] tr4 [H4 Hc]; [done| |]; cbn [negb].
  - destruct (Hc eq_refl) as (code&Hcode&Hin).
    apply then_ok; [harmless_calls|done|]. intros _ tr5 H5. apply then_ok; [by apply only_ask|done|]. intros _ tr6 H6.
    apply then_ok; [by apply only_ask|done|]. intros _ tr7 H7 u [= <-]. right.
    exists code, (code_id <$> stored). assert (tr4 `prefix_of` tr7) as H47 by (by do 2 (etrans; [done|])).
    split_and!; [by eapply elem_of_prefix|by eapply elem_of_prefix, H47; eapply elem_of_prefix|done].
  - apply then_ok; [harmless_calls|done|]. intros _ tr5 _. apply then_ok; [by apply only_ask|done|]. done.
Qed.

Lemma establish_ok u tr : second_factor tr (user_id u) → ok (establish_session u) (λ _ _ _, True) tr.
Proof.
  intros Hs. apply obeys_bind, invoke_signs_ok; [done|]. intros [e|[closed epoch]] _; [done|]. cbn beta iota.
  destruct (closed && _); [done|]. apply invoke_signs_ok; [|done]. cbn [must].
  destruct Hs as [(c&?)|(code&cs&?&?&?)]; [left; exists c; set_solver|right; exists code, cs; set_solver].
Qed.

Lemma serve_ok q ip : ok (serve sha256 isdigit otp q ip) (λ _ _ _, True) [].
Proof.
  destruct q as [name password|challenge code|challenge presented]; cbn [serve].
  - eapply obeys_mono; [by intros|]. apply (only_obeys _ _ _ harmless); [apply harmless_must|].
    apply only_bind; [|done]. apply only_bind; [harmless_calls|intros id]. apply only_bind; [by apply only_ask|intros ch].
    apply only_bind; [by apply only_invoke|done].
  - apply then_ok; [harmless_calls|done|]. intros id tr1 _. apply obeys_bind.
    eapply obeys_mono; [|apply verify_totp_ok]. intros [e|u] [] tr2 Hg; [done|]. by apply establish_ok, Hg.
  - apply then_ok; [harmless_calls|done|]. intros id tr1 _. apply obeys_bind.
    eapply obeys_mono; [|apply verify_recovery_ok]. intros [e|u] [] tr2 Hg; [done|]. by apply establish_ok, Hg.
Qed.
End Granting.

(** ** What nobody else can get *)

Section Claims.
Context (sha256 : string → string) (isdigit : Z → bool) (otp : string → Z → list Z).
Abbreviation wstep := (wstep sha256 isdigit otp).

Definition taken (s : store) (k : claim) : Prop :=
  match k with
  | Code_counter id c => ∃ u last, users s !! id = Some u ∧ totp_last_counter u = Some last ∧ (c ≤ last)%Z
  | Recovery code => code ∈ spent s
  end.

Definition spent_ok (s : store) : Prop :=
  ∀ id c, codes s !! id = Some c → used_at c = None → id ∉ spent s.

(** What a change of the store keeps. *)
Record keeps (s s' : store) : Prop := {
  keeps_taken : ∀ k, taken s k → taken s' k;
  keeps_spent : spent_ok s → spent_ok s'
}.

Lemma cache_keeps s c : keeps s (set_cache c s).
Proof. by split; [intros []|]. Qed.

Lemma advance_keeps s id c : keeps s (advance id c s).2.
Proof.
  unfold advance. destruct (users s !! id) as [u|] eqn:Hu; [|by split].
  case_match eqn:Hc; [|by split]. split; [|done]. intros [id' c'|code]; simpl; [|done].
  intros (u'&last&Hu'&Hl&Hle). destruct (decide (id' = id)) as [->|].
  - simplify_eq. rewrite Hl in Hc. apply bool_decide_eq_true in Hc.
    eexists _, c. rewrite lookup_insert_eq. split_and!; [done|done|lia].
  - exists u', last. by rewrite lookup_insert_ne.
Qed.

Lemma advance_true s id c : (advance id c s).1 = true →
  ¬ taken s (Code_counter id c) ∧ taken (advance id c s).2 (Code_counter id c).
Proof.
  unfold advance. destruct (users s !! id) as [u|] eqn:Hu; [|done]. case_match eqn:Hc; [|done].
  intros _. split; simpl.
  - intros (u'&last&Hu'&Hl&Hle). simplify_eq. rewrite Hl in Hc. apply bool_decide_eq_true in Hc. lia.
  - eexists _, c. rewrite lookup_insert_eq. split_and!; [done|done|lia].
Qed.

Lemma consume_keeps s code t : keeps s (consume code t s).2.
Proof.
  unfold consume. destruct (codes s !! code) as [c|] eqn:Hc; [|by split].
  destruct (used_at c) eqn:Hused; [by split|]. split; simpl.
  - intros [id c'|code']; simpl; [done|set_solver].
  - intros Hok id c'. simpl. destruct (decide (id = code)) as [->|Hne].
    + rewrite lookup_insert_eq. by intros [= <-].
    + rewrite lookup_insert_ne by done. intros Hid Hu. specialize (Hok _ _ Hid Hu). set_solver.
Qed.

Lemma consume_true s code t : spent_ok s → (consume code t s).1 = true →
  ¬ taken s (Recovery code) ∧ taken (consume code t s).2 (Recovery code).
Proof.
  unfold consume. destruct (codes s !! code) as [c|] eqn:Hc; [|done].
  destruct (used_at c) eqn:Hused; [done|]. intros Hok _. simpl. split; [by eapply Hok|set_solver].
Qed.

Lemma incr_keeps s key ttl : keeps s (incr key ttl s).2.
Proof. unfold incr. repeat case_match; apply cache_keeps. Qed.

Lemma may_fail_keeps {A} s (out : A * store) r s' : may_fail s out r s' → keeps s out.2 → keeps s s'.
Proof. by intros [[_ ->]|[_ [->| ->]]]. Qed.

Definition gives_fresh (s s' : store) (e : event) : Prop :=
  keeps s s' ∧ (spent_ok s → ∀ k, owns e k → ¬ taken s k ∧ taken s' k).

Lemma quiet s s' e : s' = s → (∀ k, ¬ owns e k) → gives_fresh s s' e.
Proof. intros -> Hno. split; [by split|]. intros _ k Hk. by destruct (Hno k). Qed.

Lemma written {A} s (out : A * store) r s' e :
  may_fail s out r s' → keeps s out.2 → (∀ k, ¬ owns e k) → gives_fresh s s' e.
Proof. intros Hm Hk Hno. split; [by eapply may_fail_keeps|]. intros _ k Hk'. by destruct (Hno k). Qed.

Ltac quietly r Ha := apply quiet; [first [exact Ha | by destruct Ha]|destruct r; intros [] []].

(** An answer keeps what was taken, and gives only what nobody had. *)
Lemma answers_keep s R (q : aeff R) r s' : answers s q r s' → gives_fresh s s' (log R q r).
Proof.
  destruct q; cbn [answers log]; intros Ha; try (quietly r Ha).
  - eapply written; [exact Ha|apply incr_keeps|by intros [] []].
  - eapply written; [exact Ha|apply cache_keeps|by intros [] []].
  - eapply written; [exact Ha|apply cache_keeps|by intros [] []].
  - split; [eapply may_fail_keeps; [exact Ha|apply advance_keeps]|]. intros _ k.
    destruct Ha as [[-> ->]|[-> _]]; [|by destruct k].
    destruct (advance id counter s).1 eqn:Hadv; [|by destruct k]. destruct k as [id' c'|]; [|done].
    intros [<- <-]. by apply advance_true.
  - split; [eapply may_fail_keeps; [exact Ha|apply consume_keeps]|]. intros Hok k.
    destruct Ha as [[-> ->]|[-> _]]; [|by destruct k].
    destruct (consume code at_ s).1 eqn:Hc; [|by destruct k]. destruct k as [|code']; [done|].
    intros <-. by apply consume_true.
Qed.

(** *** The invariant of the sign-ins under way *)

Definition obedient (t : task) : Prop :=
  obeys log plausible must (program t) (λ _ _ _, True) tt (learnt t).

Abbreviation step := (wstep (λ _, True)).

(** The i-th sign-in was let claim it. *)
Definition has (w : world) (i : nat) (k : claim) : Prop :=
  ∃ t e, tasks w !! i = Some t ∧ e ∈ learnt t ∧ owns e k.

(** The platform takes back what was taken: the account is deleted, or its counter
    cleared or set below the one that was accepted. *)
Record taken_back (k : claim) (u v : world) : Prop := {
  back_minds : minds (st u) (st v); back_tasks : tasks v = tasks u;
  back_was : taken (st u) k; back_gone : ¬ taken (st v) k
}.

(** Between two worlds it was taken back, after [i] claimed it; and before [j] did. *)
Definition back_after (w0 w : world) (i : nat) (k : claim) : Prop :=
  ∃ u v, rtc step w0 u ∧ taken_back k u v ∧ rtc step v w ∧ has u i k.
Definition back_between (w0 w : world) (i j : nat) (k : claim) : Prop :=
  ∃ u v, rtc step w0 u ∧ taken_back k u v ∧ rtc step v w ∧ has u i k ∧ ¬ has u j k.

Record world_ok (w0 w : world) : Prop := {
  ok_reached : rtc step w0 w;
  ok_tasks : ∀ t, t ∈ tasks w → obedient t;
  ok_claimed : ∀ i k, has w i k → taken (st w) k ∨ back_after w0 w i k;
  ok_apart : ∀ i j k, has w i k → has w j k → i = j ∨ back_between w0 w i j k ∨ back_between w0 w j i k;
  ok_spent : spent_ok (st w);
  ok_sessions : ∀ t id, t ∈ tasks w → SessionFor id ∈ learnt t → second_factor (learnt t) id
}.

Lemma answers_plausible s R (q : aeff R) r s' tr : answers s q r s' → plausible tr R q r.
Proof.
  destruct q; cbn [answers plausible]; intros Ha; try done; try (by destruct Ha).
  all: try (by destruct Ha as [_ [-> | ->]]).
  all: by destruct Ha as [[-> _]|[-> _]].
Qed.

Lemma second_factor_app tr more id : second_factor tr id → second_factor (tr ++ more) id.
Proof.
  intros [(c&?)|(code&cs&?&?&?)]; [left; exists c; set_solver|right; exists code, cs; set_solver].
Qed.

Lemma session_justified tr R (q : aeff R) r id :
  must tr R q → SessionFor id = log R q r → second_factor tr id.
Proof. destruct q; cbn [log must]; intros Hm He; repeat case_match; by simplify_eq. Qed.

(** What a sign-in has learnt it keeps. *)
Lemma step_learn from w w' i t :
  wstep from w w' → tasks w !! i = Some t → ∃ t', tasks w' !! i = Some t' ∧ learnt t `prefix_of` learnt t'.
Proof.
  intros Hs Hi. destruct Hs as [q ip w _|j u u' s' w Hj Hstep|s' w Hm]; simpl; [| |by exists t].
  - exists t. split; [by apply lookup_app_l_Some|done].
  - destruct (decide (i = j)) as [->|Hne].
    + exists u'. rewrite list_lookup_insert_eq by (by eapply lookup_lt_Some). split; [done|].
      rewrite Hi in Hj. injection Hj as <-. unfold task_step in Hstep. destruct (program t); try done.
      destruct Hstep as (r&_&->). by apply prefix_app_r.
    + exists t. by rewrite list_lookup_insert_ne.
Qed.

Lemma steps_learn from w w' i t :
  rtc (wstep from) w w' → tasks w !! i = Some t →
  ∃ t', tasks w' !! i = Some t' ∧ learnt t `prefix_of` learnt t'.
Proof.
  intros Hs. revert t. induction Hs as [w|w1 w2 w3 Hs _ IH]; intros t Hi; [by exists t|].
  destruct (step_learn _ _ _ _ _ Hs Hi) as (t1&H1&Hp1), (IH _ H1) as (t2&H2&Hp2).
  exists t2. split; [done|by etrans].
Qed.

Lemma has_later w w' i k : rtc step w w' → has w i k → has w' i k.
Proof.
  intros Hs (t&e&Hi&He&Ho). destruct (steps_learn _ _ _ _ _ Hs Hi) as (t'&Hi'&Hp).
  exists t', e. split_and!; [done|by eapply elem_of_prefix|done].
Qed.

Lemma back_after_later w0 w w' i k : step w w' → back_after w0 w i k → back_after w0 w' i k.
Proof. intros Hs (u&v&?&?&?&?). exists u, v. split_and!; [done..|by eapply rtc_r|done]. Qed.
Lemma back_between_later w0 w w' i j k : step w w' → back_between w0 w i j k → back_between w0 w' i j k.
Proof. intros Hs (u&v&?&?&?&?&?). exists u, v. split_and!; [done..|by eapply rtc_r|done|done]. Qed.

(** What is claimed anew was not claimed, unless it was taken back since. *)
Lemma back_is_between w0 w i j k : back_after w0 w i k → ¬ has w j k → back_between w0 w i j k.
Proof.
  intros (u&v&?&Hb&Hvw&?) Hno. exists u, v. split_and!; try done. intros Hj. apply Hno.
  apply (has_later v w); [done|]. destruct Hj as (t&e&Ht&?&?). exists t, e. by rewrite (back_tasks _ _ _ Hb).
Qed.

#[local] Instance owns_dec e k : Decision (owns e k).
Proof. destruct e, k; simpl; apply _. Defined.

Lemma taken_dec s k : Decision (taken s k).
Proof.
  destruct k as [id c|code]; simpl; [|apply _]. destruct (users s !! id) as [u|] eqn:Hu.
  - destruct (totp_last_counter u) as [last|] eqn:Hl; [|right; by intros (u'&l&?&?&_); simplify_eq].
    destruct (decide (c ≤ last)%Z); [left; by exists u, last|right; intros (u'&l&?&?&?); simplify_eq; lia].
  - right. by intros (u'&l&?&_).
Defined.

(** What a sign-in has claimed in a world with one more call, or one more change. *)
Lemma has_call w j t R (q : aeff R) r kont s' i k :
  tasks w !! j = Some t → has (mk_world s' (<[j := mk_task (learnt t ++ [log R q r]) (kont r)]> (tasks w))) i k →
  has w i k ∨ i = j ∧ owns (log R q r) k.
Proof.
  intros Hj (u&e&Hu&He&Ho). simpl in Hu. apply list_lookup_insert_Some in Hu as [(->&<-&_)|[_ Hu]]; [|left; by exists u, e].
  simpl in He. apply elem_of_app in He as [He| ->%list_elem_of_singleton]; [left; by exists t, e|by right].
Qed.

Lemma apart_after_call w0 w w' j k i1 i2 e :
  world_ok w0 w → step w w' → gives_fresh (st w) (st w') e →
  (∀ i, has w' i k → has w i k ∨ i = j ∧ owns e k) → has w' i1 k → has w' i2 k →
  i1 = i2 ∨ back_between w0 w' i1 i2 k ∨ back_between w0 w' i2 i1 k.
Proof.
  intros Hok Hs [_ Hf] Hcase H1 H2. specialize (Hf (ok_spent _ _ Hok) k).
  assert (∀ a, has w a k → has w j k ∨ owns e k → a = j ∨ back_between w0 w' a j k ∨ back_between w0 w' j a k) as Hnew.
  { intros a Ha Hj. assert (has w j k ∨ ¬ has w j k) as [Hhas|Hno].
    { unfold has. destruct (tasks w !! j) as [t|] eqn:Ht; [|right; by intros (?&?&?&_)].
      destruct (decide (Exists (λ x, owns x k) (learnt t))) as [Hx|Hx].
      - apply Exists_exists in Hx as (x&?&?). left. by exists t, x.
      - right. intros (t'&x&?&?&?). simplify_eq. apply Hx, Exists_exists. by exists x. }
    - destruct (ok_apart _ _ Hok _ _ _ Ha Hhas) as [?|[?|?]]; [by left|right; left|right; right]; by eapply back_between_later.
    - destruct Hj as [?|Ho]; [done|]. destruct (Hf Ho) as [Hfree _].
      destruct (ok_claimed _ _ Hok _ _ Ha) as [?|Hb]; [done|]. right. left.
      by eapply back_between_later, back_is_between. }
  destruct (Hcase _ H1) as [Ha|[-> Ho1]], (Hcase _ H2) as [Hb|[-> Ho2]].
  - destruct (ok_apart _ _ Hok _ _ _ Ha Hb) as [?|[?|?]]; [by left|right; left|right; right]; by eapply back_between_later.
  - apply Hnew; auto.
  - destruct (Hnew _ Hb (or_intror Ho1)) as [?|[?|?]]; auto.
  - by left.
Qed.

Lemma minds_spent_ok s s' : minds s s' → spent_ok s → spent_ok s'.
Proof.
  intros [_ _ Hs Hc] Hok id c Hid Hused. rewrite Hs. destruct (Hc _ _ Hid Hused) as [Hold|?]; [|done]. by eapply Hok.
Qed.

(** No recovery code that was claimed is taken back. *)
Lemma no_code_comes_back code u v : ¬ taken_back (Recovery code) u v.
Proof. intros [Hm _ Hwas Hgone]. apply Hgone. simpl in *. by rewrite (minds_spent _ _ Hm). Qed.

Lemma signin_step_ok w0 w w' : step w w' → world_ok w0 w → world_ok w0 w'.
Proof.
  intros Hs Hok. pose proof Hs as Hstep. pose proof Hok as [Hr Ht Hcl Hap Hsp Hse].
  destruct Hs as [q ip w _|j t t' s' w Hj Hcall|s' w Hm].
  - assert (∀ i k, has (mk_world (st w) (tasks w ++ [mk_task [] (serve sha256 isdigit otp q ip)])) i k → has w i k) as Hold.
    { intros i k (t&e&Hi&He&Ho). simpl in Hi. apply lookup_app_Some in Hi as [Hi|[_ Hi]]; [by exists t, e|].
      apply list_lookup_singleton_Some in Hi as [_ <-]. by apply not_elem_of_nil in He. }
    split; simpl; [by eapply rtc_r| | | |done|].
    + intros t. rewrite elem_of_app, list_elem_of_singleton. intros [?| ->]; [by apply Ht|apply serve_ok].
    + intros i k [?|?]%Hold%Hcl; [by left|right; by eapply back_after_later].
    + intros i j k H1%Hold H2%Hold. destruct (Hap _ _ _ H1 H2) as [?|[?|?]]; [by left|right; left|right; right]; by eapply back_between_later.
    + intros t id. rewrite elem_of_app, list_elem_of_singleton.
      intros [?| ->]; [by apply Hse|]. intros He. by apply not_elem_of_nil in He.
  - assert (t ∈ tasks w) as Hin by (eapply list_elem_of_lookup_2, Hj).
    unfold task_step in Hcall. destruct (program t) as [|?|R q kont| |] eqn:Hp; try done.
    destruct Hcall as (r&Ha&->). pose proof (Ht _ Hin) as Hob. unfold obedient in Hob. rewrite Hp in Hob.
    destruct Hob as [Hmust Hk]. pose proof (answers_keep _ _ _ _ _ Ha) as Hgive. pose proof Hgive as [[Hkeep Hspent] Hfresh].
    specialize (Hfresh Hsp).
    assert (∀ u, u ∈ <[j:=mk_task (learnt t ++ [log R q r]) (kont r)]> (tasks w) →
              u = mk_task (learnt t ++ [log R q r]) (kont r) ∨ u ∈ tasks w) as Hu.
    { intros u (i&Hi)%list_elem_of_lookup.
      apply list_lookup_insert_Some in Hi as [(->&<-&_)|[_ Hi]]; [by left|right].
      by eapply list_elem_of_lookup_2. }
    split; [by eapply rtc_r| | | |by apply Hspent|].
    + intros u [->|?]%Hu; [|by apply Ht]. apply Hk. by eapply answers_plausible.
    + intros i k Hi. apply (has_call _ _ _ _ _ _ _ _ _ _ Hj) in Hi as [Hi|[_ Ho]]; [|left; by apply Hfresh].
      destruct (Hcl _ _ Hi); [left; by apply Hkeep|right; by eapply back_after_later].
    + intros i1 i2 k. apply (apart_after_call w0 w _ j k i1 i2 (log R q r)); [done|done|done|].
      intros i. by apply has_call.
    + intros u id [->|?]%Hu He; [|by apply Hse]. simpl in *.
      apply second_factor_app. apply elem_of_app in He as [?|He%list_elem_of_singleton]; [by apply Hse|].
      by eapply session_justified.
  - split; simpl; [by eapply rtc_r|done| | |by eapply minds_spent_ok|done].
    + intros i k Hi. change (has w i k) in Hi. destruct (Hcl _ _ Hi) as [Hwas|?]; [|right; by eapply back_after_later].
      destruct (taken_dec s' k) as [|Hgone]; [by left|right].
      exists w, (mk_world s' (tasks w)). split_and!; [done|by split|by apply rtc_refl|done].
    + intros i j k H1 H2. destruct (Hap i j k H1 H2) as [?|[?|?]]; [by left|right; left|right; right]; by eapply back_between_later.
Qed.

(** Any accounts and counters, no code claimed twice yet, and nobody signing in. *)
Definition initial_world (w : world) : Prop := spent_ok (st w) ∧ tasks w = [].

Lemma reachable_signin_ok w0 w : initial_world w0 → rtc step w0 w → world_ok w0 w.
Proof.
  intros [Hsp Hnil] Hs. assert (∀ i k, ¬ has w0 i k) as Hno by (intros i k (t&e&Ht&_); by rewrite Hnil in Ht).
  assert (∀ t, t ∉ tasks w0) as Hnot by (intros t; rewrite Hnil; apply not_elem_of_nil).
  assert (world_ok w0 w0) as H0.
  { split; [apply rtc_refl| | | |done|]; [intros t Hin|intros i k Hi|intros i j k Hi|intros t ? Hin];
      first [by destruct (Hnot t)|by destruct (Hno i k)]. }
  clear Hsp Hnil Hno Hnot. assert (∀ x, rtc step x w → world_ok w0 x → world_ok w0 w) as Hall.
  { intros x Hx. induction Hx as [x|x y z Hxy _ IH]; intros H; [done|]. by eapply IH, signin_step_ok. }
  by apply (Hall w0).
Qed.

End Claims.

(** ** What another address cannot do *)

#[local] Arguments String.append !_ _ : simpl nomatch.

Lemma substring_length n m s : String.length (String.substring n m s) = Nat.min m (String.length s - n).
Proof.
  revert n m. induction s as [|c s IH]; intros [|n] [|m]; simpl; try done; rewrite ?IH; simpl; try done.
  by rewrite Nat.sub_0_r.
Qed.

(** Two texts with tails of one length are equal only piece by piece. *)
Lemma append_inj (a b x y : string) :
  String.length x = String.length y → (a ++ x = b ++ y)%string → a = b ∧ x = y.
Proof.
  intros Hl. assert (∀ (s t : string), String.length (s ++ t) = String.length s + String.length t) as Hlen.
  { intros s t. induction s as [|c s IH]; simpl; [done|]. by rewrite IH. }
  revert b. induction a as [|c a IH]; intros [|c' b]; simpl; intros He.
  - done.
  - subst x. simpl in Hl. rewrite Hlen in Hl. lia.
  - subst y. simpl in Hl. rewrite Hlen in Hl. lia.
  - injection He as -> He. by destruct (IH _ He) as [-> ->].
Qed.

Section Apartness.
Context (sha256 : string → string) (isdigit : Z → bool) (otp : string → Z → list Z).
(** Sixty-four hexadecimal digits. *)
Hypothesis sha256_length : ∀ l, String.length (sha256 l) = 64.
Abbreviation wstep := (wstep sha256 isdigit otp).

Lemma digest_size s : String.length (digest sha256 s) = 32.
Proof. unfold digest. by rewrite substring_length, sha256_length. Qed.

(** The counters that can refuse somebody at [ip]. *)
Definition refusing_key (ip key : string) : Prop := key = ip_key ip ∨ ∃ name, key = pair_key sha256 name ip.

Definition spares (ip : string) (R : Type) (q : aeff R) : Prop :=
  match q with
  | EIncr key _ => ¬ refusing_key ip key
  | EDelete key => ¬ refusing_key ip key
  | ESetText key _ _ => ¬ refusing_key ip key
  | _ => True
  end.

Ltac other_prefix := intros [He|[? He]]; unfold ip_key, pair_key, account_key, refusal_key, challenge_key in He;
  simpl in He; discriminate He.

Lemma challenge_spares ip ch : ¬ refusing_key ip (challenge_key ch).
Proof. other_prefix. Qed.
Lemma account_spares ip name : ¬ refusing_key ip (account_key sha256 name).
Proof. other_prefix. Qed.
Lemma refusal_spares ip x : ¬ refusing_key ip (refusal_key x).
Proof. other_prefix. Qed.
Lemma ip_spares ip x : x ≠ ip → ¬ refusing_key ip (ip_key x).
Proof.
  intros Hne [He|[? He]]; unfold ip_key, pair_key in He; simpl in He; [|discriminate He].
  by injection He as ->.
Qed.
Lemma pair_spares ip name x : x ≠ ip → ¬ refusing_key ip (pair_key sha256 name x).
Proof.
  intros Hne [He|[n He]]; unfold ip_key, pair_key in He; simpl in He; [discriminate He|].
  injection He as He. apply append_inj in He as [? _]; [done|]. cbn [String.append String.length]. unfold login_digest. by rewrite !digest_size.
Qed.

Lemma others_write_elsewhere ip name x : x ≠ ip → throttle_writes sha256 (spares ip) name x.
Proof.
  intros Hne. split_and!; cbn [spares];
    first [by apply ip_spares|by apply pair_spares|apply account_spares|apply refusal_spares].
Qed.

Lemma spares_reads ip : ∀ R (q : aeff R),
  match q with
  | EIncr _ _ | EDelete _ | ESetText _ _ _ | EAdvance _ _ | EConsume _ _ | ESession _ _ => True
  | _ => spares ip R q
  end.
Proof. by intros R []. Qed.

Ltac elsewhere Hne :=
  first [apply only_allowed | apply only_record_failure | apply only_clear | apply only_second_step
        | apply only_check_totp | apply only_consume_challenge | apply only_verify_password];
  first [exact (spares_reads _) | by apply others_write_elsewhere | apply challenge_spares].
Ltac call := first [by apply only_ask | by apply only_invoke].

Lemma only_establish ip u : only (spares ip) (establish_session u).
Proof.
  apply only_bind; [call|intros [closed epoch]]. cbn beta iota. destruct (closed && _); [done|call].
Qed.

Lemma only_claim_code ip stored d : only (spares ip) (claim_code stored d).
Proof.
  induction stored as [|c rest IH]; simpl; [done|]. case_bool_decide; [done|].
  case_bool_decide; simpl; [|done]. split; [done|]. intros now. split; [done|]. by intros [].
Qed.

Lemma only_verify_totp ip x id code : x ≠ ip → only (spares ip) (verify_totp sha256 isdigit otp id code x).
Proof.
  intros Hne. apply only_bind; [elsewhere Hne|intros [user secret]].
  apply only_bind; [elsewhere Hne|intros _]. apply only_bind.
  { apply only_catch; [elsewhere Hne|]. intros []; try done.
    apply only_bind; [elsewhere Hne|intros _]. by apply only_bind. }
  intros counter. apply only_bind; [call|intros []]; cbn [negb].
  - apply only_bind; [elsewhere Hne|intros _]. by apply only_bind.
  - apply only_bind; [elsewhere Hne|intros _]. by apply only_bind.
Qed.

Lemma only_verify_recovery ip x id presented :
  x ≠ ip → only (spares ip) (verify_recovery_code sha256 id presented x).
Proof.
  intros Hne. apply only_bind; [elsewhere Hne|intros [user secret]].
  apply only_bind; [elsewhere Hne|intros _]. apply only_bind; [call|intros stored].
  apply only_bind; [apply only_claim_code|intros []]; cbn [negb].
  - apply only_bind; [elsewhere Hne|intros _]. by apply only_bind.
  - apply only_bind; [elsewhere Hne|intros _]. by apply only_bind.
Qed.

(** Whatever a request from elsewhere does, it spares these counters. *)
Lemma only_serve ip x q : x ≠ ip → only (spares ip) (serve sha256 isdigit otp q x).
Proof.
  intros Hne. destruct q as [name password|challenge code|challenge presented]; cbn [serve].
  - apply only_bind; [|done]. apply only_bind; [elsewhere Hne|intros id].
    apply only_bind; [call|intros ch]. apply only_bind; [apply only_invoke, challenge_spares|done].
  - apply only_bind; [elsewhere Hne|intros id].
    apply only_bind; [by apply only_verify_totp|intros u]. apply only_establish.
  - apply only_bind; [elsewhere Hne|intros id].
    apply only_bind; [by apply only_verify_recovery|intros u]. apply only_establish.
Qed.

(** The store as [ip]'s counters see it: later, and otherwise the same. *)
Definition sees (ip : string) (s s' : store) : Prop :=
  (clk s ≤ clk s')%Z ∧ ∀ key, refusing_key ip key → cache s' !! key = cache s !! key.

Lemma sees_refl ip s : sees ip s s.
Proof. by split. Qed.
Lemma sees_trans ip s1 s2 s3 : sees ip s1 s2 → sees ip s2 s3 → sees ip s1 s3.
Proof. intros [? H1] [? H2]. split; [lia|]. intros key Hk. by rewrite H2, H1. Qed.

Lemma sees_may_fail {A} ip s (out : A * store) r s' : may_fail s out r s' → sees ip s out.2 → sees ip s s'.
Proof. intros [[_ ->]|[_ [->| ->]]] ?; [done|apply sees_refl|done]. Qed.

Lemma spared ip s R (q : aeff R) r s' : answers s q r s' → spares ip R q → sees ip s s'.
Proof.
  destruct q; cbn [answers spares]; intros Ha Hs;
    try (first [rewrite (proj1 Ha)|rewrite Ha]; apply sees_refl).
  all: eapply sees_may_fail; [exact Ha|].
  - unfold incr. repeat case_match; simpl; (split; simpl; [done|]);
      intros k Hk; rewrite lookup_insert_ne; congruence.
  - split; simpl; [done|]. intros k Hk. rewrite lookup_delete_ne; congruence.
  - split; simpl; [done|]. intros k Hk. rewrite lookup_insert_ne; congruence.
  - unfold advance. by repeat case_match.
  - unfold consume. by repeat case_match.
Qed.

(** A program run against the store with nobody else's call in between. *)
Fixpoint alone {A} (s : store) (p : aprog A) (o : aexn + A) (s' : store) : Prop :=
  match p with
  | Pure a => o = inr a ∧ s' = s
  | Throw e => o = inl e ∧ s' = s
  | Ask q k => ∃ r s1, answers s q r s1 ∧ alone s1 (k r) o s'
  | _ => False
  end.

Definition refuses (s : store) (name ip : string) : Prop :=
  (IP_FREE_ATTEMPTS < count_of s (ip_key ip) ∨ FREE_ATTEMPTS < count_of s (pair_key sha256 name ip))%Z.

(** The throttle refuses exactly on the two counters. *)
Lemma refused_alone s name ip r s' :
  alone s (assert_allowed sha256 name ip) (inl (RateLimitedError r)) s' →
  refuses s name ip ∧ r = WINDOW_SECONDS ∧ s' = s.
Proof.
  unfold refuses. cbn. intros (r1&s1&[-> [-> | ->]]&Hk); [|by destruct Hk as [[=] _]].
  cbn in Hk. case_bool_decide; [destruct Hk as [[= <-] ->]; auto|].
  destruct Hk as (r2&s2&[-> [-> | ->]]&Hk); [|by destruct Hk as [[=] _]].
  cbn in Hk. case_bool_decide; [destruct Hk as [[= <-] ->]; auto|]. by destruct Hk as [[=] _].
Qed.

Lemma refuses_alone s name ip :
  refuses s name ip → alone s (assert_allowed sha256 name ip) (inl (RateLimitedError WINDOW_SECONDS)) s.
Proof.
  intros Hr. cbn. exists (inr (count_of s (ip_key ip))), s. split; [by split; auto|]. cbn.
  case_bool_decide as H1; [done|]. exists (inr (count_of s (pair_key sha256 name ip))), s.
  split; [by split; auto|]. cbn. case_bool_decide as H2; [done|]. by destruct Hr.
Qed.

(** Later, the counters count what they did, or have run out. *)
Lemma sees_count ip s s' key :
  sees ip s s' → refusing_key ip key → count_of s' key = count_of s key ∨ count_of s' key = 0%Z.
Proof.
  intros [Hc Hk] Hkey. unfold count_of, live. rewrite (Hk _ Hkey).
  destruct (cache s !! key) as [[v e]|]; [|by left]. repeat case_bool_decide; [by left|lia|by right|by left].
Qed.

Definition all_spare (ip : string) (w : world) : Prop := ∀ t, t ∈ tasks w → only (spares ip) (program t).

Lemma step_spares ip w w' :
  wstep (λ x, x ≠ ip) w w' → all_spare ip w → all_spare ip w' ∧ sees ip (st w) (st w').
Proof.
  intros Hs Ho. destruct Hs as [q x w Hne|j t t' s' w Hj Hstep|s' w Hm]; simpl.
  - split; [|apply sees_refl]. intros t [?| ->%list_elem_of_singleton]%elem_of_app; [by apply Ho|].
    by apply only_serve.
  - pose proof (Ho _ (list_elem_of_lookup_2 _ _ _ Hj)) as Ht. unfold task_step in Hstep.
    destruct (program t) as [|?|R q k| |]; try done. destruct Hstep as (r&Ha&->), Ht as [Hq Hk].
    split; [|by eapply spared]. intros u (i&Hi)%list_elem_of_lookup.
    apply list_lookup_insert_Some in Hi as [(->&<-&_)|[_ Hi]]; [apply Hk|].
    by eapply Ho, list_elem_of_lookup_2.
  - split; [done|]. destruct Hm as [? Hc _ _]. split; [done|]. intros key Hk. apply Hc. by destruct Hk as [->|[? ->]].
Qed.

(** C33: Nobody can be locked out from elsewhere.  Whatever sign-in requests other
    addresses send, however many and however interleaved, and whatever the rest of the
    platform does meanwhile to the accounts, deleting them and taking counters back
    included, and to the cache but the keys of the sign-in: an attempt of this address
    that the throttle refuses after it all would have been refused before any of it. *)
Theorem others_cannot_lock_you_out ip w0 w1 w2 name r s' :
  tasks w0 = [] → rtc (wstep (λ x, x ≠ ip)) w0 w1 → rtc (wstep (λ x, x ≠ ip)) w1 w2 →
  alone (st w2) (assert_allowed sha256 name ip) (inl (RateLimitedError r)) s' →
  alone (st w1) (assert_allowed sha256 name ip) (inl (RateLimitedError r)) (st w1).
Proof.
  intros Hnil H01 H12 (Hr&->&_)%refused_alone. apply refuses_alone.
  assert (∀ w w', rtc (wstep (λ x, x ≠ ip)) w w' → all_spare ip w → all_spare ip w' ∧ sees ip (st w) (st w')) as Hall.
  { intros w w' Hs. induction Hs as [w|w u w' Hs _ IH]; intros Ho; [by split; [|apply sees_refl]|].
    destruct (step_spares _ _ _ Hs Ho) as [Ho' ?]. destruct (IH Ho'). split; [done|by eapply sees_trans]. }
  destruct (Hall _ _ H01) as [H1 _]; [intros t; rewrite Hnil; by intros ?%not_elem_of_nil|].
  destruct (Hall _ _ H12 H1) as [_ Hsees]. unfold refuses, IP_FREE_ATTEMPTS, FREE_ATTEMPTS in *.
  destruct Hr as [Hr|Hr]; [left|right].
  - destruct (sees_count ip _ _ (ip_key ip) Hsees) as [He|He]; [by left|lia|lia].
  - destruct (sees_count ip _ _ (pair_key sha256 name ip) Hsees) as [He|He]; [right; by exists name|lia|lia].
Qed.
End Apartness.

(** ** What a refusal shows, and what is counted *)

#[local] Arguments String.append : simpl never.

Section Refusals.
Context (sha256 : string → string) (isdigit : Z → bool) (otp : string → Z → list Z).

Abbreviation ends p Q tr := (wp log plausible p Q tt tr).

Lemma noted_app tr more : noted (tr ++ more) = noted tr ++ noted more.
Proof. apply List.filter_app. Qed.

Definition failure_keys (name ip : string) : list event :=
  [Counted (ip_key ip); Counted (pair_key sha256 name ip); Counted (account_key sha256 name)].

(** A refused attempt leaves one mark, and one row when it is the first. *)
Definition refusal_noted (ip step : string) (more : list event) : Prop :=
  more = [Counted (refusal_key ip)] ∨
  ∃ s, more = [Counted (refusal_key ip); Audited s (USER_SIGN_IN_THROTTLED step)].

(** How a method ends: by the backend failing, or as [Q] says of its mark on the trace. *)
Definition marks {A} (Q : aexn + A → list event → Prop) (tr : list event) (o : aexn + A) (_ : unit)
    (tr' : list event) : Prop :=
  o = inl BackendError ∨ ∃ more, noted tr' = noted tr ++ more ∧ Q o more.

Lemma marks_here {A} Q tr tr' (o : aexn + A) more :
  noted tr' = noted tr ++ more → Q o more → marks Q tr o tt tr'.
Proof. right. by exists more. Qed.

Ltac note := unfold noted; rewrite ?List.filter_app, <- ?app_assoc; reflexivity.
Ltac backend := left; by simplify_eq/=.
(** Over the calls of a method, to where it ends or branches. *)
Ltac walk :=
  repeat first
    [ progress (cbn [assert_limits attempt and_then mbind prog_bind prog_then wp invoke ask or_throw negb]; simpl log; simpl plausible)
    | let a := fresh "a" in intros [?|a] ?; [backend|]
    | match goal with |- ∀ _ : unit, _ => intros [] _ end
    | intros ? _ ].

Lemma assert_ends name ip tr :
  ends (assert_allowed sha256 name ip)
    (marks (λ o more, more = [] ∧ match o with inr _ => True | inl e => ∃ r, e = RateLimitedError r end) tr) tr.
Proof.
  unfold assert_allowed. walk. case_bool_decide; walk; [eapply marks_here; [note|eauto]|].
  case_bool_decide; walk; eapply marks_here; [note|eauto|note|eauto].
Qed.

Lemma throttled_ends name ip step tr :
  ends (throttled sha256 name ip step) (marks (λ o more, o = inr tt ∧ refusal_noted ip step more) tr) tr.
Proof.
  unfold throttled, claim_refusal_record, audit. walk. case_bool_decide; walk.
  - eapply marks_here; [note|]. split; [done|right; by eexists].
  - eapply marks_here; [note|]. split; [done|by left].
Qed.

Lemma allowed_ends name ip step tr :
  ends (allowed_or_recorded sha256 name ip step)
    (marks (λ o more, match o with
                      | inr _ => more = []
                      | inl e => (∃ r, e = RateLimitedError r) ∧ refusal_noted ip step more
                      end) tr) tr.
Proof.
  unfold allowed_or_recorded. apply wp_catch. eapply wp_mono; [|apply assert_ends].
  intros [e|[]] [] tr1 [Hb|(more&Ht&->&Ho)]; [simplify_eq; by left| |done|by eapply marks_here].
  destruct Ho as [r ->]. apply wp_bind. eapply wp_mono; [|apply throttled_ends].
  intros o [] tr2 [->|(more&Ht2&->&Hmore)]; [by left|]. cbn.
  apply marks_here with more; [by rewrite Ht2, Ht, app_nil_r|eauto].
Qed.

(** What an attempt at the password shows of how it ended. *)
Definition password_shown (name ip : string) (o : aexn + string) (more : list event) : Prop :=
  match o with
  | inr _ => more = [Hashed]
  | inl InvalidCredentialsError =>
      ∃ s reason, more = [Hashed] ++ failure_keys name ip ++ [Audited s (USER_SIGN_IN_FAILED reason)]
  | inl (RateLimitedError _) => refusal_noted ip "password" more
  | inl _ => False
  end.

Lemma verify_password_ends name password ip tr :
  ends (verify_password sha256 name password ip) (marks (password_shown name ip) tr) tr.
Proof.
  unfold verify_password. apply wp_bind. eapply wp_mono; [|apply allowed_ends].
  intros [e|[]] [] tr1 [Hb|(more&Ht&Ho)]; [simplify_eq; by left| |done|].
  { eapply marks_here; [done|]. by destruct Ho as [[r ->] ?]. }
  subst more. rewrite app_nil_r in Ht.
  assert (∀ more, noted (tr1 ++ more) = noted tr ++ noted more) as Hmore by (intros; by rewrite noted_app, Ht).
  assert (∀ o more, password_shown name ip o (noted more) → marks (password_shown name ip) tr o tt (tr1 ++ more)) as Hleaf.
  { intros o more ?. by eapply marks_here; [apply Hmore|]. }
  walk. destruct a as [u|]; [|walk; rewrite <- !app_assoc; apply Hleaf; by eexists _, _].
  case_bool_decide; [walk; rewrite <- !app_assoc; apply Hleaf; by eexists _, _|].
  destruct (can_use_public_entrance u) eqn:Hu; walk; [|rewrite <- !app_assoc; apply Hleaf; by eexists _, _].
  destruct (password_hash u) as [h|] eqn:Hh; [|by unfold can_use_public_entrance in Hu; rewrite Hh in Hu].
  walk. match goal with ok : bool |- _ => destruct ok end; walk; rewrite <- !app_assoc; apply Hleaf; [done|by eexists _, _].
Qed.

(** Every refusal looks alike.  A wrong password, an unknown login, a disabled
    account and an account without local credentials all cost one hash and leave
    the same three counters and one row, in the same order, so that neither the
    time nor the counters tell them apart; a correct password costs the same hash
    and is neither counted nor recorded; and a throttled attempt hashes nothing
    and leaves a row at most once. *)
Theorem every_refusal_looks_alike name password ip o tr :
  exec log plausible (verify_password sha256 name password ip) tt [] o tt tr →
  o ≠ inl BackendError → password_shown name ip o (noted tr).
Proof.
  intros He Hb. destruct (proj1 (wp_exec _ _ _ _ _ _) (verify_password_ends name password ip []) _ _ _ He)
    as [?|(more&->&?)]; [done|done].
Qed.

(** *** Six digits beyond ASCII *)

(** Six characters that [str.isdigit] accepts, one of them beyond ASCII, and no blank. *)
Definition wide (code : list Z) : Prop :=
  length code = DIGITS ∧ Forall (λ c, isdigit c = true ∧ is_space c = false) code ∧ Exists (λ c, 128 ≤ c)%Z code.

Lemma drop_while_none {A} (p : A → bool) l : Forall (λ x, p x = false) l → drop_while p l = l.
Proof. destruct 1 as [|x l Hx]; simpl; [done|by rewrite Hx]. Qed.

Lemma wide_candidate code : wide code → candidate_of code = code.
Proof.
  intros (_&Hall&_). assert (Forall (λ c, is_space c = false) code) as Hs by (eapply Forall_impl; [exact Hall|naive_solver]).
  unfold candidate_of, strip_with. rewrite (drop_while_none _ _ Hs).
  rewrite drop_while_none by (by apply Forall_reverse). rewrite reverse_involutive.
  clear Hall. induction Hs as [|c code Hc _ IH]; [done|]. rewrite filter_cons_True; [by rewrite IH|].
  intros ->. done.
Qed.

Lemma wide_verify now secret code last : wide code → totp_verify isdigit otp now secret code last = inl TypeError.
Proof.
  intros Hw. unfold totp_verify. rewrite wide_candidate by done. destruct Hw as (Hlen&Hall&Hex).
  rewrite bool_decide_true by done. assert (forallb isdigit code = true) as ->.
  { apply List.forallb_forall. intros c Hc%list_elem_of_In. rewrite Forall_forall in Hall. by destruct (Hall _ Hc). }
  cbn [negb orb]. unfold OFFSETS. cbn [match_offsets]. unfold compare_digest.
  rewrite bool_decide_false; [done|]. rewrite Forall_app. intros [_ Hall'].
  apply Exists_exists in Hex as (c&Hin&Hc). rewrite Forall_forall in Hall'. specialize (Hall' _ Hin). lia.
Qed.

Lemma second_step_ends id ip tr :
  ends (require_second_step_user id ip)
    (λ o _ tr', match o with
                | inr _ => noted tr' = noted tr
                | inl e => e = BackendError ∨ e = TotpRequiredError
                end) tr.
Proof.
  unfold require_second_step_user, fail, audit. cbn. intros [e|[u|]] Hr; cbn; [by left| |by right].
  destruct (totp_secret u); cbn; [|by right]. destruct (still_usable u); cbn; [|by right].
  unfold noted. rewrite List.filter_app. simpl. by rewrite app_nil_r.
Qed.

(** A code of six digits beyond ASCII is not counted.  Whenever such a code
    gets past the throttle for an account that can sign in, the comparison raises
    [TypeError], which nothing catches: no failure is counted, no row is written,
    and the error is not the one a wrong code gives. *)
Theorem a_wide_code_is_not_counted id code ip o tr :
  wide code → exec log plausible (verify_totp sha256 isdigit otp id code ip) tt [] o tt tr →
  (o = inl TypeError ∧ noted tr = []) ∨
  o = inl BackendError ∨ o = inl TotpRequiredError ∨ ∃ r, o = inl (RateLimitedError r).
Proof.
  intros Hw. revert o tr. pose (Q := λ (o : aexn + User) (_ : unit) tr, (o = inl TypeError ∧ noted tr = []) ∨
    o = inl BackendError ∨ o = inl TotpRequiredError ∨ ∃ r, o = inl (RateLimitedError r)).
  cut (ends (verify_totp sha256 isdigit otp id code ip) Q []); [intros H o tr; by apply (proj1 (wp_exec _ _ _ _ _ _) H)|].
  unfold verify_totp. apply wp_bind. eapply wp_mono; [|apply second_step_ends]. intros [e|[u secret]] [] tr1 H1.
  { destruct H1 as [-> | ->]; right; auto. }
  apply wp_bind. eapply wp_mono; [|apply allowed_ends].
  intros [e|[]] [] tr2 [He|(more&Ht&Hm)]; [simplify_eq; right; by left| |done|].
  { destruct Hm as [[r ->] _]. right. right. right. by exists r. }
  subst more. rewrite app_nil_r, H1 in Ht. apply wp_bind, wp_catch.
  unfold check_totp. walk_calls. intros [e|plain] Hp; [cbn in Hp; subst e; right; by left|walk_calls].
  intros now _. rewrite wide_verify by done. walk_calls. left. split; [done|].
  unfold noted. rewrite !List.filter_app. fold (noted tr2). by rewrite Ht.
Qed.
End Refusals.

(** * The theorems at work *)

Module Play.
Definition sha256 (_ : string) : string :=
  "0123456789abcdef0123456789abcdef0123456789abcdef0123456789abcdef".
(** The digits of ASCII and the Arabic-Indic ones. *)
Definition isdigit (c : Z) : bool := ((48 <=? c) && (c <=? 57) || (1632 <=? c) && (c <=? 1641))%Z%bool.
Definition otp (_ : string) (_ : Z) : list Z := [49; 50; 51; 52; 53; 54]%Z.

(** The answers with no fault: a hash matches the password it spells. *)
Definition respond (s : store) {R} (q : aeff R) : R * store :=
  match q in aeff R return R * store with
  | ECounter key => (inr (count_of s key), s)
  | EIncr key ttl => let out := incr key ttl s in (inr out.1, out.2)
  | EDelete key => (inr tt, set_cache (delete key (cache s)) s)
  | EGetText key => (inr (match live s key with Some (Text t) => Some t | _ => None end), s)
  | ESetText key value ttl => (inr tt, set_cache (<[key := (Text value, clk s + ttl)%Z]> (cache s)) s)
  | EByLogin name =>
      (inr (snd <$> head (filter (λ iu, user_login iu.2 = name) (map_to_list (users s)))), s)
  | EById id => (inr (users s !! id), s)
  | EAdvance id c => let out := advance id c s in (inr out.1, out.2)
  | ECodes id => (inr (filter (λ c, code_user c = id) (map_to_list (codes s)).*2), s)
  | EConsume code at_ => let out := consume code at_ s in (inr out.1, out.2)
  | EHash p h => (inr (bool_decide (p = h)), s)
  | EDummyHash => (inr tt, s)
  | EDecrypt x => (inr x, s)
  | ENow => (clk s, s)
  | EAudit _ _ _ => (tt, s)
  | EHold => (inr (false, 1%Z), s)
  | ESession _ _ => (inr tt, s)
  | EToken => ("challenge"%string, s)
  end.

Lemma respond_is_answer s R (q : aeff R) : answers s q (respond s q).1 (respond s q).2.
Proof. destruct q; cbn [answers respond fst snd]; unfold reads, may_fail; auto; by split. Qed.

Definition call (j : nat) (w : world) : option world :=
  match tasks w !! j with
  | Some t =>
      match program t with
      | Ask q k =>
          let out := respond (st w) q in
          Some (mk_world out.2 (<[j := mk_task (learnt t ++ [log _ q out.1]) (k out.1)]> (tasks w)))
      | _ => None
      end
  | None => None
  end.
(** Run one sign-in to its end. *)
Fixpoint finish (fuel j : nat) (w : world) : world :=
  match fuel with
  | O => w
  | S fuel => match call j w with Some w => finish fuel j w | None => w end
  end.

Lemma finish_steps from fuel j w : rtc (wstep sha256 isdigit otp from) w (finish fuel j w).
Proof.
  revert w. induction fuel as [|fuel IH]; intros w; simpl; [done|].
  unfold call. destruct (tasks w !! j) as [t|] eqn:Hj; [|done].
  destruct (program t) as [|?|R q k| |] eqn:Hp; try done.
  eapply rtc_l; [|apply IH]. eapply wstep_call; [exact Hj|].
  unfold task_step. rewrite Hp. eexists. split; [apply respond_is_answer|done].
Qed.

Definition spawn (q : login_request) (ip : string) (w : world) : world :=
  mk_world (st w) (tasks w ++ [mk_task [] (serve sha256 isdigit otp q ip)]).
Definition served (q : login_request) (ip : string) (w : world) : world :=
  finish 40 (length (tasks w)) (spawn q ip w).

Lemma served_steps (from : string → Prop) q ip w :
  from ip → rtc (wstep sha256 isdigit otp from) w (served q ip w).
Proof. intros Hip. eapply rtc_l; [by apply wstep_request|apply finish_steps]. Qed.

Definition alice := mk_user "alice" "alice" USER (Some "secret") (Some "seed") None None.
Definition home : string := "10.0.0.1".
Definition s0 := mk_store 60
  (<[challenge_key "c1" := (Text "alice", 300%Z)]> (<[challenge_key "c2" := (Text "alice", 300%Z)]>
    (<[ip_key home := (Counter 31, 900%Z)]> ∅)))
  {["alice" := alice]} ∅ ∅.
Definition w0 := mk_world s0 [].
Definition code : list Z := [49; 50; 51; 52; 53; 54]%Z.
(** The code signs in once; the second sign-in it is tried for is refused. *)
Definition w1 := served (LoginTotp "c1" code) "10.0.0.2" w0.
Definition w2 := served (LoginTotp "c2" code) "10.0.0.3" w1.
Definition trace (j : nat) (w : world) : list event := default [] (learnt <$> tasks w !! j).

(** One wrong password from the same address as the counter [s0] holds. *)
Definition w3 := served (Login "alice" "guess") "10.0.0.2" w1.

Definition env (s : store) : list event → ∀ R, aeff R → R := λ _ R q, (respond s q).1.
Lemma env_plausible s tr R (q : aeff R) : plausible tr R q (env s tr R q).
Proof. by destruct q. Qed.

Definition arabic : list Z := [1633; 1634; 1635; 1636; 1637; 1638]%Z.
End Play.


Lemma others_cannot_lock_you_out_witness :
  alone (st Play.w3) (assert_allowed Play.sha256 "bob" Play.home) (inl (RateLimitedError WINDOW_SECONDS)) (st Play.w3) ∧
  alone (st Play.w1) (assert_allowed Play.sha256 "bob" Play.home) (inl (RateLimitedError WINDOW_SECONDS)) (st Play.w1).
Proof.
  assert (alone (st Play.w3) (assert_allowed Play.sha256 "bob" Play.home) (inl (RateLimitedError WINDOW_SECONDS)) (st Play.w3))
    as H by (apply refuses_alone; left; vm_compute; reflexivity).
  split; [exact H|].
  apply (others_cannot_lock_you_out Play.sha256 Play.isdigit Play.otp (λ _, eq_refl) Play.home Play.w0 Play.w1 Play.w3
           "bob" WINDOW_SECONDS (st Play.w3)); [done|by apply Play.served_steps|by apply Play.served_steps|exact H].
Defined.

Lemma every_refusal_looks_alike_witness :
  password_shown Play.sha256 "alice" "10.0.0.2" (inl InvalidCredentialsError)
    (noted (run log (Play.env Play.s0) (verify_password Play.sha256 "alice" "guess" "10.0.0.2") tt []).2).
Proof.
  eapply (every_refusal_looks_alike Play.sha256 "alice" "guess" "10.0.0.2"); [|done].
  exact (exec_run log plausible (Play.env Play.s0) _ tt [] (Play.env_plausible Play.s0)).
Defined.

Lemma a_wide_code_is_not_counted_witness :
  let end_ := run log (Play.env Play.s0) (verify_totp Play.sha256 Play.isdigit Play.otp "alice" Play.arabic "10.0.0.2") tt [] in
  end_.1.1 = inl TypeError ∧ noted end_.2 = [].
Proof.
  intros end_. assert (end_.1.1 = inl TypeError) as He by (vm_compute; reflexivity). split; [exact He|].
  destruct (a_wide_code_is_not_counted Play.sha256 Play.isdigit Play.otp "alice" Play.arabic "10.0.0.2" end_.1.1 end_.2)
    as [[_ ?]|[H|[H|[r H]]]]; [| |done|rewrite He in H; discriminate H..].
  - split; [done|]. split; [by repeat constructor|]. apply Exists_cons_hd. done.
  - pose proof (exec_run log plausible (Play.env Play.s0)
      (verify_totp Play.sha256 Play.isdigit Play.otp "alice" Play.arabic "10.0.0.2") tt [] (Play.env_plausible Play.s0)) as H.
    change (exec log plausible (verify_totp Play.sha256 Play.isdigit Play.otp "alice" Play.arabic "10.0.0.2") tt []
              end_.1.1 end_.1.2 end_.2) in H. by destruct end_.1.2.
Defined.
