(* ===== verification/Compaction.v ===== *)
(** Context compaction ([route_chat_request/compaction.py], [compaction_cache.py],
    [compaction_tier2.py]).

    The tiers are programs over the counter, the summariser and the cache they are
    given.  The theorems say what each tier may lose and what it must keep, and that
    the boundary of a summary moves rarely enough for the cache to be hit.

    A character beyond code point 255 is not one of [string]'s; the two the texts
    write, an ellipsis and a dash, are arguments. *)

From S2P Require Export Programs Guard.
From stdpp Require Import pretty.

#[export] Instance MessageRole_eq_dec : EqDecision MessageRole.
Proof. solve_decision. Defined.

Definition TOOL_DESCRIPTION_CAP : nat := 200.
Definition RECENT_MESSAGE_WINDOW : nat := 10.

Record CompactionResult := mk_result {
  tier : Z; c_messages : list Message; c_tools : list ToolDefinition;
  tokens_before : Z; tokens_after : Z; disclosure : string
}.
Record CompactionDisclosure := mk_disclosure { d_tier : Z; d_before : Z; d_after : Z }.
Definition to_disclosure (r : CompactionResult) : CompactionDisclosure :=
  mk_disclosure (tier r) (tokens_before r) (tokens_after r).

Definition plural (n : nat) : string := if bool_decide (n = 1) then "" else "s".
Definition decimal (n : nat) : string := pretty (Z.of_nat n).

Section Tiers.
Context (ellipsis dash : Ascii.ascii).

(** * Tier 0: tool definitions *)

(** [seen[tool.name] = i] for every tool in turn. *)
Definition seen (tools : list ToolDefinition) : gmap string nat :=
  foldl (λ m it, <[tool_name it.2 := it.1]> m) ∅ (imap pair tools).

(** [[tools[i] for i in sorted(seen.values())]] *)
Definition deduplicated (tools : list ToolDefinition) : list ToolDefinition :=
  omap (tools !!.) (py_sorted Nat.leb (map_to_list (seen tools)).*2).

Definition long_description (t : ToolDefinition) : bool :=
  bool_decide (TOOL_DESCRIPTION_CAP < String.length (tool_description t)).

Definition trim (t : ToolDefinition) : ToolDefinition :=
  if long_description t
  then mk_tool (tool_name t)
         (String.substring 0 TOOL_DESCRIPTION_CAP (tool_description t) ++ String ellipsis "")
         (tool_parameters t)
  else t.

Definition compact_tool_definitions (tools : list ToolDefinition) : list ToolDefinition * string :=
  let unique := deduplicated tools in
  let cut := length (filter (λ t, long_description t = true) unique) in
  let removed := length tools - length unique in
  let parts :=
    (if bool_decide (removed = 0) then []
     else [decimal removed ++ " duplicate tool definition" ++ plural removed ++ " removed"]%string) ++
    (if bool_decide (cut = 0) then []
     else [decimal cut ++ " tool description" ++ plural cut ++ " trimmed to "
           ++ decimal TOOL_DESCRIPTION_CAP ++ " characters"]%string) in
  (trim <$> unique, if bool_decide (parts = []) then "" else "Tier 0: " ++ String.concat ", " parts)%string.

(** * Tier 1: old tool results *)

(** A multiple of the window, so that the block it ends stays as it is for ten turns. *)
Definition cutoff (total : nat) : nat :=
  (total - RECENT_MESSAGE_WINDOW) `div` RECENT_MESSAGE_WINDOW * RECENT_MESSAGE_WINDOW.

Definition prunable (m : Message) : bool :=
  bool_decide (role m = TOOL) && bool_decide (80 < String.length (content m)).

Definition marker (m : Message) : string :=
  ("[tool result removed " ++ String dash " was " ++ decimal (String.length (content m)) ++ " characters" ++
   match tool_call_id m with
   | Some id => if bool_decide (id = "") then "" else " from " ++ id
   | None => ""
   end ++ "]")%string.

Definition replaced (m : Message) : Message :=
  mk_message (role m) (marker m) [] (tool_call_id m) (msg_name m).

Definition prune (m : Message) : Message := if prunable m then replaced m else m.

Definition compact_tool_results (messages : list Message) : list Message * string :=
  let n := cutoff (length messages) in
  let old := filter (λ m, prunable m = true) (take n messages) in
  let saved := foldl (λ acc m, (acc + (Z.of_nat (String.length (content m)) - Z.of_nat (String.length (marker m))))%Z)
                 0%Z old in
  ((prune <$> take n messages) ++ drop n messages,
   if bool_decide (old = []) then ""
   else ("Tier 1: " ++ decimal (length old) ++ " old tool result" ++ plural (length old)
        ++ " replaced with markers (~" ++ pretty saved ++ " characters recovered)")%string).

(** * The mechanical tiers in turn *)

Section Programs.
Context {E : Type → Type} {X S : Type}.
Context (count_fn : list Message → list ToolDefinition → prog E X S (option Z)).

Definition fits (recount : option Z) (limit : Z) : option Z :=
  match recount with
  | Some c => if bool_decide (c ≤ limit)%Z then Some c else None
  | None => None
  end.

Definition try_tier1 (messages : list Message) (tools : list ToolDefinition) (disclosures : list string)
    (before limit : Z) : prog E X S (option CompactionResult) :=
  let '(compacted, t1) := compact_tool_results messages in
  if bool_decide (t1 = "") then Pure None
  else
    let! recount := count_fn compacted tools in
    match fits recount limit with
    | Some c => Pure (Some (mk_result 1 compacted tools before c (String.concat "; " (disclosures ++ [t1]))))
    | None => Pure None
    end.

Definition try_compact (messages : list Message) (tools : list ToolDefinition) (counted limit : Z)
    : prog E X S (option CompactionResult) :=
  let '(compacted, t0) := compact_tool_definitions tools in
  if bool_decide (t0 = "") then try_tier1 messages tools [] counted limit
  else
    let! recount := count_fn messages compacted in
    match fits recount limit with
    | Some c => Pure (Some (mk_result 0 messages compacted counted c t0))
    | None => try_tier1 messages compacted [t0] counted limit
    end.
End Programs.
End Tiers.

(** * The cache of summaries *)

Definition TTL : Z := 3600.
Definition CACHE_PREFIX : string := "compaction:".

Record CachedPrefix := mk_cached {
  k_messages : list Message; k_disclosure : string; k_tier : Z; k_before : Z; k_after : Z
}.

Inductive cache_exn : Type := KeyError | ValueError | TypeError.

Definition newline : string := String (Ascii.ascii_of_nat 10) "".

(** What [_hash_prefix] feeds the hash, in order. *)
Definition prefix_text (messages : list Message) (tools : list ToolDefinition) (tier : nat) : string :=
  ("tier=" ++ decimal tier ++ newline ++
   String.concat "" ((λ m,
     role_value (role m) ++ ":" ++ content m ++ newline ++
     String.concat "" ((λ c, "tc:" ++ tc_id c ++ ":" ++ tc_name c ++ ":" ++ tc_arguments c ++ newline)
       <$> tool_calls m) ++
     match tool_call_id m with
     | Some id => if bool_decide (id = "") then "" else "tcid:" ++ id ++ newline
     | None => ""
     end) <$> messages) ++
   String.concat "" ((λ t, "tool:" ++ tool_name t ++ ":" ++ tool_description t ++ newline) <$> tools))%string.

Definition optional_field (k : string) (o : option string) : dict :=
  match o with Some s => if bool_decide (s = "") then [] else [(k, JStr s)] | None => [] end.

Definition message_json (m : Message) : json :=
  JObj ([("role", JStr (role_value (role m))); ("content", JStr (content m))] ++
        optional_field "tool_call_id" (tool_call_id m) ++ optional_field "name" (msg_name m)).

(** The value [_result_to_json] writes. *)
Definition result_json (r : CachedPrefix) : json :=
  JObj [("messages", JArr (message_json <$> k_messages r)); ("disclosure", JStr (k_disclosure r));
        ("tier", JInt (k_tier r)); ("tokens_before", JInt (k_before r)); ("tokens_after", JInt (k_after r))].

(** [d[k]], and what the typed records take of it: a value of another type, which
    the code would carry on to the first use that fails, is refused here. *)
Definition item (k : string) (d : dict) : res cache_exn json :=
  match dict_lookup k d with Some v => Ret v | None => Raise KeyError end.
Definition as_str (j : json) : res cache_exn string := match j with JStr s => Ret s | _ => Raise TypeError end.
Definition as_int (j : json) : res cache_exn Z := match j with JInt z => Ret z | _ => Raise TypeError end.
Definition as_opt_str (j : json) : res cache_exn (option string) :=
  match j with JStr s => Ret (Some s) | JNull => Ret None | _ => Raise TypeError end.
Definition as_obj (j : json) : res cache_exn dict := match j with JObj d => Ret d | _ => Raise TypeError end.
Definition as_list (j : json) : res cache_exn (list json) := match j with JArr l => Ret l | _ => Raise TypeError end.
Definition as_role (j : json) : res cache_exn MessageRole :=
  match j with
  | JStr s => match first_match (λ r, String.eqb (role_value r) s) [SYSTEM; USER; ASSISTANT; TOOL] with
              | Some r => Ret r | None => Raise ValueError end
  | _ => Raise ValueError
  end.

Definition message_of (j : json) : res cache_exn Message :=
  let! d := as_obj j in
  let! r := item "role" d in let! r := as_role r in
  let! c := item "content" d in let! c := as_str c in
  let! i := as_opt_str (dict_get d "tool_call_id") in
  let! n := as_opt_str (dict_get d "name") in
  Ret (mk_message r c [] i n).

Definition result_of (j : json) : res cache_exn CachedPrefix :=
  let! d := as_obj j in
  let! ms := item "messages" d in let! ms := as_list ms in let! ms := res_map message_of ms in
  let! t := item "disclosure" d in let! t := as_str t in
  let! n := item "tier" d in let! n := as_int n in
  let! b := item "tokens_before" d in let! b := as_int b in
  let! a := item "tokens_after" d in let! a := as_int a in
  Ret (mk_cached ms t n b a).

(** [CompactionCache] over a key-value cache of texts. *)
Section Cache.
Context (dumps : json → string) (loads : string → option json) (sha256 : string → string).
Context {E : Type → Type} {X S : Type}.
Context (cache_get : string → prog E X S (option string)) (cache_set : string → string → Z → prog E X S unit).
Context (of_cache : cache_exn → X).

Definition hash_prefix (messages : list Message) (tools : list ToolDefinition) (tier : nat) : string :=
  (CACHE_PREFIX ++ sha256 (prefix_text messages tools tier))%string.

(** [_result_from_json]: bad JSON, a missing key and a bad role are misses. *)
Definition result_from_json (raw : string) : prog E X S (option CachedPrefix) :=
  match loads raw with
  | None => Pure None
  | Some j => match result_of j with
              | Ret r => Pure (Some r)
              | Raise TypeError => Throw (of_cache TypeError)
              | Raise _ => Pure None
              end
  end.

Definition get (messages : list Message) (tools : list ToolDefinition) (tier : nat)
    : prog E X S (option CachedPrefix) :=
  let! raw := cache_get (hash_prefix messages tools tier) in
  match raw with None => Pure None | Some raw => result_from_json raw end.

Definition put (messages : list Message) (tools : list ToolDefinition) (tier : nat) (r : CachedPrefix)
    : prog E X S unit :=
  cache_set (hash_prefix messages tools tier) (dumps (result_json r)) TTL.
End Cache.

(** * Tier 2: a summary of the oldest turns *)

Definition SUMMARY_HEADER : string :=
  ("[Compacted summary of the earliest turns in this conversation]" ++ newline ++ newline)%string.
Definition KEEP_RECENT : nat := 6.
Definition PREFIX_STEP : nat := 10.

(** How many of the oldest messages a summary replaces; zero is not worth one. *)
Definition to_summarise (n_messages : nat) : nat :=
  (n_messages - KEEP_RECENT) `div` PREFIX_STEP * PREFIX_STEP.

Definition summary_message (text : string) : Message :=
  mk_message SYSTEM (SUMMARY_HEADER ++ py_strip text)%string [] None None.

Section Tier2.
Context {E : Type → Type} {X S : Type}.
Context (count_fn : list Message → list ToolDefinition → prog E X S (option Z)).
Context (summarise_fn : list Message → prog E X S string).
Context (cached : option ((list Message → list ToolDefinition → nat → prog E X S (option CachedPrefix)) *
                          (list Message → list ToolDefinition → nat → CachedPrefix → prog E X S unit))).

(** A cached prefix that brings the prompt under the limit. *)
Definition from_cache (messages : list Message) (tools : list ToolDefinition) (counted limit : Z)
    : prog E X S (option CompactionResult) :=
  let n := to_summarise (length messages) in
  match cached with
  | None => Pure None
  | Some (get, _) =>
      let! hit := get (take n messages) tools 2 in
      match hit with
      | None => Pure None
      | Some p =>
          let compacted := k_messages p ++ drop n messages in
          let! recount := count_fn compacted tools in
          match fits recount limit with
          | Some c => Pure (Some (mk_result 2 compacted tools counted c (k_disclosure p)))
          | None => Pure None
          end
      end
  end.

Definition summarised (n : nat) (text : string) : string :=
  ("Tier 2: " ++ decimal n ++ " oldest messages summarised into "
   ++ decimal (String.length (content (summary_message text))) ++ " characters")%string.

Definition fresh_summary (messages : list Message) (tools : list ToolDefinition) (counted limit : Z)
    : prog E X S (option CompactionResult) :=
  let n := to_summarise (length messages) in
  let! text := summarise_fn (take n messages) in
  let compacted := summary_message text :: drop n messages in
  let! recount := count_fn compacted tools in
  match fits recount limit with
  | Some c =>
      let! _ := match cached with
                | None => Pure tt
                | Some (_, put) =>
                    put (take n messages) tools 2 (mk_cached [summary_message text] (summarised n text) 2 counted c)
                end in
      Pure (Some (mk_result 2 compacted tools counted c (summarised n text)))
  | None => Pure None
  end.

Definition try_tier2 (messages : list Message) (tools : list ToolDefinition) (counted limit : Z)
    : prog E X S (option CompactionResult) :=
  if bool_decide (length messages ≤ KEEP_RECENT) then Pure None
  else if bool_decide (to_summarise (length messages) = 0) then Pure None
  else
    let! hit := from_cache messages tools counted limit in
    match hit with
    | Some r => Pure (Some r)
    | None => fresh_summary messages tools counted limit
    end.
End Tier2.

(** * Theory *)

(** ** Tier 0 *)

Section Tier0.
Context (ellipsis : Ascii.ascii).
Implicit Types (tools : list ToolDefinition).

(** [i] is where a name is defined for the last time. *)
Definition last_at tools (i : nat) : Prop :=
  ∃ t, tools !! i = Some t ∧ ∀ j u, i < j → tools !! j = Some u → tool_name u ≠ tool_name t.

Lemma seen_snoc tools t : seen (tools ++ [t]) = <[tool_name t := length tools]> (seen tools).
Proof. unfold seen. rewrite imap_app, foldl_app. simpl. by rewrite Nat.add_0_r. Qed.

Lemma seen_spec tools name i :
  seen tools !! name = Some i ↔
  ∃ t, tools !! i = Some t ∧ tool_name t = name ∧ ∀ j u, i < j → tools !! j = Some u → tool_name u ≠ name.
Proof.
  revert i. induction tools as [|t tools IH] using rev_ind; intros i.
  - unfold seen. simpl. rewrite lookup_empty. split; [done|]. intros (t&Ht&_). by rewrite lookup_nil in Ht.
  - rewrite seen_snoc. destruct (decide (tool_name t = name)) as [Hn|Hn].
    + rewrite Hn, lookup_insert_eq. split.
      * intros [= <-]. exists t. rewrite list_lookup_middle by done. split_and!; [done|done|].
        intros j u Hj Hu. apply lookup_lt_Some in Hu. rewrite length_app in Hu. simpl in Hu. lia.
      * intros (u&Hu&Hun&Hlast). f_equal. apply lookup_lt_Some in Hu as Hl. rewrite length_app in Hl. simpl in Hl.
        destruct (decide (i = length tools)) as [->|]; [done|]. exfalso.
        apply (Hlast (length tools) t); [lia|by apply list_lookup_middle|done].
    + rewrite lookup_insert_ne by done. rewrite IH. split; intros (u&Hu&Hun&Hlast); exists u.
      * split_and!; [by apply lookup_app_l_Some|done|]. intros j v Hj Hv.
        apply lookup_app_Some in Hv as [Hv|[_ Hv]]; [by eapply Hlast|].
        apply list_lookup_singleton_Some in Hv as [_ <-]. done.
      * apply lookup_app_Some in Hu as [Hu|[_ Hu]].
        -- split_and!; [done|done|]. intros j v Hj Hv. eapply Hlast; [exact Hj|]. by apply lookup_app_l_Some.
        -- apply list_lookup_singleton_Some in Hu as [_ <-]. done.
Qed.

#[local] Instance last_at_dec tools i : Decision (last_at tools i).
Proof.
  destruct (tools !! i) as [t|] eqn:Ht; [|right; intros (t&?&_); congruence].
  destruct (decide (seen tools !! tool_name t = Some i)) as [Hs|Hs].
  - left. apply seen_spec in Hs as (u&Hu&_&Hl). exists t. split; [done|]. done.
  - right. intros (u&Hu&Hl). apply Hs, seen_spec. exists t. simplify_eq. by split_and!.
Qed.

Lemma sorted_filter {A} (R : relation A) (P : A → Prop) `{∀ x, Decision (P x)} l :
  StronglySorted R l → StronglySorted R (filter P l).
Proof.
  induction 1 as [|x l Hl IH Hx]; [constructor|]. rewrite filter_cons. case_decide; [|done].
  constructor; [done|]. rewrite Forall_forall in *. intros y [_ ?]%list_elem_of_filter. by apply Hx.
Qed.

(** The positions kept, in the order of the list. *)
Lemma sorted_values tools :
  py_sorted Nat.leb (map_to_list (seen tools)).*2 = filter (last_at tools) (seq 0 (length tools)).
Proof.
  assert (∀ a b c : nat, Nat.leb a b = true → Nat.leb b c = true → Nat.leb a c = true) as Htrans.
  { intros a b c. rewrite !Nat.leb_le. lia. }
  assert (∀ a b : nat, Nat.leb a b = false → Nat.leb b a = true) as Htot.
  { intros a b. rewrite Nat.leb_gt, Nat.leb_le. lia. }
  apply (StronglySorted_unique_strong (λ x y, Nat.leb x y = true)).
  - intros x y _ _. rewrite !Nat.leb_le. lia.
  - by apply py_sorted_sorted.
  - apply sorted_filter. apply (Sorted_StronglySorted); [intros x y z; apply Htrans|].
    generalize 0. induction (length tools) as [|n IH]; intros k; simpl; constructor; [apply IH|].
    destruct n; simpl; constructor. apply Nat.leb_le. lia.
  - rewrite py_sorted_perm. apply NoDup_Permutation.
    + apply (NoDup_fmap_2_strong snd); [|apply NoDup_map_to_list].
      intros [n i] [m j] Hn%elem_of_map_to_list Hm%elem_of_map_to_list. simpl. intros ->.
      apply seen_spec in Hn as (t&Ht&<-&_), Hm as (u&Hu&<-&_). by simplify_eq.
    + apply NoDup_filter, NoDup_seq.
    + intros i. rewrite list_elem_of_filter, elem_of_seq, list_elem_of_fmap. split.
      * intros ((n&j)&->&Hn%elem_of_map_to_list). simpl. apply seen_spec in Hn as (t&Ht&<-&Hl).
        split; [by exists t|]. apply lookup_lt_Some in Ht. lia.
      * intros [(t&Ht&Hl) _]. exists (tool_name t, i). split; [done|]. apply elem_of_map_to_list, seen_spec. eauto.
Qed.

Lemma deduplicated_eq tools : deduplicated tools = omap (tools !!.) (filter (last_at tools) (seq 0 (length tools))).
Proof. unfold deduplicated. by rewrite sorted_values. Qed.

Lemma omap_seq {A} (l : list A) k : omap (λ i, (l !! (i - k))) (seq k (length l)) = l.
Proof.
  revert k. induction l as [|x l IH]; intros k; simpl; [done|]. rewrite Nat.sub_diag. simpl. f_equal.
  etrans; [|apply (IH (S k))]. apply list_omap_ext, Forall_Forall2_diag, Forall_forall.
  intros i Hi%elem_of_seq. by replace (i - k) with (S (i - S k)) by lia.
Qed.

Lemma deduplicated_sublist tools : deduplicated tools `sublist_of` tools.
Proof.
  rewrite deduplicated_eq.
  assert (∀ l, omap (tools !!.) (filter (last_at tools) l) `sublist_of` omap (λ i, tools !! (i - 0)) l) as H.
  { induction l as [|i l IH]; [done|]. rewrite filter_cons. simpl. rewrite Nat.sub_0_r.
    destruct (decide _); simpl; destruct (tools !! i); [by apply sublist_skip|done|by apply sublist_cons|done]. }
  specialize (H (seq 0 (length tools))). by rewrite omap_seq in H.
Qed.

Lemma elem_of_deduplicated tools t :
  t ∈ deduplicated tools ↔ ∃ l1 l2, tools = l1 ++ t :: l2 ∧ ∀ u, u ∈ l2 → tool_name u ≠ tool_name t.
Proof.
  rewrite deduplicated_eq, list_elem_of_omap. split.
  - intros (i&Hi&Ht). apply list_elem_of_filter in Hi as [(t'&Ht'&Hl) _]. simplify_eq.
    exists (take i tools), (drop (S i) tools). split; [by rewrite take_drop_middle|].
    intros u (j&Hj)%list_elem_of_lookup. rewrite lookup_drop in Hj. eapply (Hl (S i + j)); [lia|done].
  - intros (l1&l2&->&Hl). exists (length l1). split; [|by apply list_lookup_middle].
    apply list_elem_of_filter. split; [|apply elem_of_seq; rewrite length_app; simpl; lia].
    exists t. split; [by apply list_lookup_middle|]. intros j u Hj Hu.
    rewrite lookup_app_r in Hu by lia. apply Hl. replace (j - length l1) with (S (j - S (length l1))) in Hu by lia.
    simpl in Hu. by eapply list_elem_of_lookup_2.
Qed.

Lemma trim_name t : tool_name (trim ellipsis t) = tool_name t.
Proof. unfold trim. by destruct (long_description t). Qed.

Lemma substring_prefix_length n s : String.length (String.substring 0 n s) = Nat.min n (String.length s).
Proof. revert n. induction s as [|c s IH]; intros [|n]; simpl; [done..|]. by rewrite IH. Qed.

Lemma append_length s t : String.length (s ++ t) = String.length s + String.length t.
Proof. induction s as [|c s IH]; [done|]. cbn. by rewrite <- IH. Qed.

Lemma trim_description t : String.length (tool_description (trim ellipsis t)) ≤ S TOOL_DESCRIPTION_CAP.
Proof.
  unfold trim, long_description. case_bool_decide; simpl tool_description; [|unfold TOOL_DESCRIPTION_CAP in *; lia].
  rewrite append_length, substring_prefix_length. simpl String.length. lia.
Qed.

Lemma deduplicated_nodup tools : NoDup (tool_name <$> deduplicated tools).
Proof.
  rewrite deduplicated_eq.
  assert (NoDup (filter (last_at tools) (seq 0 (length tools)))) as Hnd by apply NoDup_filter, NoDup_seq.
  assert (Forall (last_at tools) (filter (last_at tools) (seq 0 (length tools)))) as Hall
    by (apply Forall_forall; by intros i [? _]%list_elem_of_filter).
  induction Hnd as [|i l Hi Hnd IH]; [constructor|]. apply Forall_cons in Hall as [(t&Ht&Hlast) Hall]. simpl.
  rewrite Ht. simpl. constructor; [|by apply IH]. intros (u&Hu&Hin)%list_elem_of_fmap.
  apply list_elem_of_omap in Hin as (j&Hj&Hju). rewrite Forall_forall in Hall.
  destruct (Hall j Hj) as (u'&Hu'&Hlast'). simplify_eq.
  destruct (Nat.lt_trichotomy i j) as [Hlt|[->|Hlt]]; [by eapply Hlast|done|by eapply Hlast'].
Qed.

Lemma kept_elem tools t : t ∈ tools → ∃ u, tool_name t = tool_name u ∧ u ∈ deduplicated tools.
Proof.
  intros Ht. assert (is_Some (seen tools !! tool_name t)) as [i Hi].
  { induction tools as [|v l IH] using rev_ind; [by apply not_elem_of_nil in Ht|].
    rewrite seen_snoc. apply lookup_insert_is_Some'. apply elem_of_app in Ht as [?| ->%list_elem_of_singleton]; auto. }
  apply seen_spec in Hi as (u&Hu&Hn&Hl). exists u. split; [done|]. rewrite deduplicated_eq.
  apply list_elem_of_omap. exists i. split; [|done]. apply list_elem_of_filter.
  split; [exists u; split; [done|]; by rewrite Hn|]. apply lookup_lt_Some in Hu. apply elem_of_seq. lia.
Qed.

Lemma sublist_whole {A} (k l : list A) : k `sublist_of` l → length l ≤ length k → k = l.
Proof.
  induction 1 as [|x k l Hs IH|x k l Hs IH]; simpl; intros Hl; [done|f_equal; apply IH; lia|].
  apply sublist_length in Hs. lia.
Qed.

Lemma said_nothing (parts : list string) c text :
  (if bool_decide (parts = []) then "" else String c text)%string = "" → parts = [].
Proof. by case_bool_decide. Qed.

Lemma unless_nil {A} (x : A) (P : Prop) `{Decision P} : (if bool_decide P then [] else [x]) = [] → P.
Proof. by case_bool_decide. Qed.

(** What tier 0 loses.  The tools that are sent name exactly the functions the
    client named, each once, in the client's order; each is the client's last
    definition of that name with its parameters untouched, and with its description
    kept, or cut to the cap; and the tier says nothing only when it changed nothing. *)
Theorem tier0_keeps_the_last_definitions tools :
  let '(out, t0) := compact_tool_definitions ellipsis tools in
  NoDup (tool_name <$> out) ∧
  (∀ name, name ∈ tool_name <$> out ↔ name ∈ tool_name <$> tools) ∧
  (∃ kept, kept `sublist_of` tools ∧ out = trim ellipsis <$> kept ∧
     ∀ t, t ∈ kept → ∃ l1 l2, tools = l1 ++ t :: l2 ∧ tool_name t ∉ tool_name <$> l2) ∧
  (∀ t, t ∈ out → String.length (tool_description t) ≤ S TOOL_DESCRIPTION_CAP) ∧
  (t0 = "" → out = tools).
Proof.
  unfold compact_tool_definitions. pose proof (deduplicated_sublist tools) as Hsub.
  set (kept := deduplicated tools) in *.
  assert (∀ t, t ∈ kept ↔ ∃ l1 l2, tools = l1 ++ t :: l2 ∧ ∀ u, u ∈ l2 → tool_name u ≠ tool_name t) as Helem
    by apply elem_of_deduplicated.
  assert (tool_name <$> (trim ellipsis <$> kept) = tool_name <$> kept) as Hnames.
  { rewrite <- list_fmap_compose. apply list_fmap_ext. intros i t _. apply trim_name. }
  split_and!.
  - rewrite Hnames. apply deduplicated_nodup.
  - intros name. rewrite Hnames, !list_elem_of_fmap. split.
    + intros (t&->&Ht). exists t. split; [done|]. by eapply elem_of_sublist.
    + intros (t&->&Ht). destruct (kept_elem tools t Ht) as (u&Hu&Hn). by exists u.
  - exists kept. split_and!; [done|done|]. intros t (l1&l2&->&Hl)%Helem. exists l1, l2. split; [done|].
    intros (u&Hu&Hin)%list_elem_of_fmap. by eapply Hl.
  - intros t (u&->&_)%list_elem_of_fmap. apply trim_description.
  - intros Hp%said_nothing. apply app_nil in Hp as [Hr%unless_nil Hc%unless_nil].
    assert (kept = tools) as ->.
    { apply sublist_whole; [done|lia]. }
    apply nil_length_inv in Hc. rewrite <- (list_fmap_id tools) at 2. apply list_fmap_ext. intros i t Ht.
    unfold trim. destruct (long_description t) eqn:Hl; [|done]. exfalso.
    apply list_elem_of_lookup_2 in Ht. assert (t ∈ filter (λ t, long_description t = true) tools) as Hin
      by (by apply list_elem_of_filter). rewrite Hc in Hin. by apply not_elem_of_nil in Hin.
Qed.
End Tier0.

(** ** Tier 1 *)

Section Tier1.
Context (dash : Ascii.ascii).
Abbreviation tier1 messages := (compact_tool_results dash messages).1.

Lemma cutoff_spec n : ∃ k, cutoff n = 10 * k ∧ (n < 10 → k = 0) ∧ (10 ≤ n → cutoff n + 10 ≤ n < cutoff n + 20).
Proof.
  unfold cutoff, RECENT_MESSAGE_WINDOW. exists ((n - 10) `div` 10).
  pose proof (Nat.div_mod_eq (n - 10) 10). pose proof (Nat.mod_upper_bound (n - 10) 10). split_and!; [lia| |lia].
  intros ?. replace (n - 10) with 0 by lia. done.
Qed.

Lemma cutoff_mono n m : n ≤ m → cutoff n ≤ cutoff m.
Proof. intros. unfold cutoff. apply Nat.mul_le_mono_r, Nat.Div0.div_le_mono. lia. Qed.

Lemma cutoff_le n : cutoff n ≤ n - RECENT_MESSAGE_WINDOW.
Proof. destruct (cutoff_spec n) as (k&?&?&?). unfold RECENT_MESSAGE_WINDOW. lia. Qed.

Lemma tier1_lookup messages i :
  tier1 messages !! i =
  (if bool_decide (i < cutoff (length messages)) then prune dash else id) <$> messages !! i.
Proof.
  unfold compact_tool_results. cbn [fst]. pose proof (cutoff_le (length messages)).
  set (n := cutoff (length messages)) in *. case_bool_decide.
  - rewrite lookup_app_l by (rewrite length_fmap, length_take; lia).
    by rewrite list_lookup_fmap, lookup_take_lt by lia.
  - rewrite option_fmap_id, lookup_app_r; rewrite length_fmap, length_take; [|lia].
    rewrite lookup_drop. f_equal. lia.
Qed.

(** What tier 1 loses.  Every message stays where it was, with its role, the call
    it answers and its name; only the text of a long tool result is replaced, by a
    marker of its length, and never one of the last ten messages; and what it has
    replaced once it replaces in the same way in every continuation of the
    conversation, so that the text before the boundary, which moves only at every
    tenth message, stays the same to the byte. *)
Theorem tier1_keeps_the_conversation messages more :
  let out := (compact_tool_results dash messages).1 in
  length out = length messages ∧
  (∀ i m, messages !! i = Some m → ∃ m', out !! i = Some m' ∧
     role m' = role m ∧ tool_call_id m' = tool_call_id m ∧ msg_name m' = msg_name m ∧
     (m' = m ∨ i + RECENT_MESSAGE_WINDOW < length messages ∧ role m = TOOL ∧
        80 < String.length (content m) ∧ content m' = marker dash m)) ∧
  take (cutoff (length messages)) (compact_tool_results dash (messages ++ more)).1 =
    take (cutoff (length messages)) out ∧
  (∀ k r, cutoff (10 * k + r + 10) = 10 * k + 10 * (r `div` 10)).
Proof.
  intros out. split_and!.
  - unfold out, compact_tool_results. cbn [fst]. rewrite length_app, length_fmap, length_take, length_drop.
    pose proof (cutoff_le (length messages)). lia.
  - intros i m Hm. unfold out. rewrite tier1_lookup, Hm. pose proof (cutoff_le (length messages)).
    case_bool_decide; cbn; [|exists m; by split_and!; auto]. exists (prune dash m). split; [done|]. unfold prune.
    destruct (prunable m) eqn:Hp; [|by split_and!; auto]. apply andb_prop in Hp as [Hr Hl].
    apply bool_decide_eq_true in Hr, Hl. cbn. split_and!; [done..|]. right. split_and!; [lia|done..].
  - apply list_eq. intros i. destruct (decide (i < cutoff (length messages))) as [Hi|].
    + rewrite !lookup_take_lt by done. unfold out. rewrite !tier1_lookup.
      pose proof (cutoff_le (length messages)). rewrite lookup_app_l by lia.
      rewrite !bool_decide_eq_true_2; [done|done|].
      pose proof (cutoff_mono (length messages) (length (messages ++ more))) as Hmono. rewrite length_app in Hmono.
      rewrite length_app. lia.
    + rewrite !lookup_take_ge by lia. done.
  - intros k r. unfold cutoff, RECENT_MESSAGE_WINDOW. replace (10 * k + r + 10 - 10) with (r + k * 10) by lia.
    rewrite Nat.div_add by lia. lia.
Qed.

(** A marker is not always shorter than what it replaces. *)
Definition stubborn : Message :=
  mk_message TOOL (pretty (10 ^ 80)%Z) [] (Some (pretty (10 ^ 60)%Z)) None.
Example marker_may_grow :
  prunable stubborn = true ∧ String.length (content stubborn) < String.length (marker dash stubborn).
Proof. vm_compute. split; [done|lia]. Qed.
End Tier1.

(** ** Tier 2 *)

Lemma to_summarise_spec n : to_summarise n ≤ n - KEEP_RECENT.
Proof.
  unfold to_summarise, KEEP_RECENT, PREFIX_STEP. pose proof (Nat.div_mod_eq (n - 6) 10). lia.
Qed.

(** What [_result_to_json] carries of a message. *)
Definition plain (m : Message) : Prop :=
  tool_calls m = [] ∧ tool_call_id m ≠ Some "" ∧ msg_name m ≠ Some "".

Lemma message_of_json m : plain m → message_of (message_json m) = Ret m.
Proof.
  destruct m as [r c tc i n]. unfold plain. cbn [tool_calls tool_call_id msg_name]. intros (->&Hi&Hn).
  destruct r, i as [[|? ?]|], n as [[|? ?]|]; done.
Qed.

(** Written and read back, as far as a message without tool calls carries. *)
Lemma result_of_json r :
  Forall plain (k_messages r) →
  result_of (result_json r) = Ret r.
Proof.
  destruct r as [ms d t b a]. cbn [k_messages]. intros Hms.
  assert (res_map message_of (message_json <$> ms) = Ret ms) as Hmap.
  { induction Hms as [|m ms ? _ IH]; [done|]. rewrite fmap_cons. cbn [res_map].
    rewrite message_of_json by done. cbn [and_then mbind res_bind]. by rewrite IH. }
  unfold result_of, result_json. cbn [k_messages]. clear Hms. revert Hmap. generalize (message_json <$> ms). intros l Hmap.
  unfold and_then, mbind, res_bind. simpl. by rewrite Hmap.
Qed.

Section Reuse.
Context (dumps : json → string) (loads : string → option json) (sha256 : string → string).
(** What is written as JSON is read back. *)
Hypothesis loads_dumps : ∀ r, Forall plain (k_messages r) → loads (dumps (result_json r)) = Some (result_json r).

(** The counter and the summary model as calls, and the cache as the state. *)
Inductive teff : Type → Type :=
  | ECount (messages : list Message) (tools : list ToolDefinition) : teff (cache_exn + option Z)
  | ESummarise (messages : list Message) : teff (cache_exn + string).

Inductive tevent : Type :=
  | Counted (messages : list Message) (n : option Z)
  | Summarised (messages : list Message)
  | Failed.

Definition tlog (R : Type) (q : teff R) : R → tevent :=
  match q in teff R return R → tevent with
  | ECount m _ => λ r, match r with inr n => Counted m n | inl _ => Failed end
  | ESummarise m => λ _, Summarised m
  end.

Abbreviation tprog := (prog teff cache_exn (gmap string string)).
Definition cache_get (k : string) : tprog (option string) := let! s := get_self in Pure (s !! k).
Definition cache_set (k v : string) (_ : Z) : tprog unit := update_self (λ s, <[k := v]> s).

Definition tier2 (messages : list Message) (tools : list ToolDefinition) (counted limit : Z)
    : tprog (option CompactionResult) :=
  try_tier2 (λ m t, invoke (ECount m t)) (λ m, invoke (ESummarise m))
    (Some (get loads sha256 cache_get id, put dumps sha256 cache_set)) messages tools counted limit.

Abbreviation runs p s o s' tr := (exec tlog (λ _ _ _ _, True) p s [] o s' tr).

Definition summarises (tr : list tevent) : Prop := ∃ m, Summarised m ∈ tr.

Definition key (messages : list Message) (tools : list ToolDefinition) : string :=
  hash_prefix sha256 (take (to_summarise (length messages)) messages) tools 2.

(** What a fresh summary leaves in the cache, and in the prompt. *)
Definition stored_by (messages : list Message) (tools : list ToolDefinition) (r : CompactionResult)
    (s : gmap string string) : Prop :=
  ∃ text b a, c_messages r = summary_message text :: drop (to_summarise (length messages)) messages ∧
    s !! key messages tools = Some (dumps (result_json (mk_cached [summary_message text] (disclosure r) 2 b a))).

Ltac walk := cbn [wp and_then mbind prog_bind prog_then invoke ask or_throw update_self get_self negb tlog app].

Lemma not_summarised l n : ¬ summarises [Counted l n].
Proof. intros (m&Hm). by apply list_elem_of_singleton in Hm. Qed.

Lemma fresh_summary_stores messages tools counted limit s tr :
  wp tlog (λ _ _ _ _, True)
    (fresh_summary (λ m t, invoke (ECount m t)) (λ m, invoke (ESummarise m))
       (Some (get loads sha256 cache_get id, put dumps sha256 cache_set)) messages tools counted limit)
    (λ o s' _, match o with inr (Some r) => stored_by messages tools r s' | _ => True end) s tr.
Proof.
  unfold fresh_summary, put, cache_set. walk. intros [e|text] _; walk; [done|].
  intros [e|n] _; walk; [done|]. destruct (fits n limit) as [c|]; walk; [|done].
  exists text, counted, c. split; [done|]. cbn [disclosure]. by rewrite lookup_insert_eq.
Qed.

Lemma from_cache_hit messages tools counted limit s p :
  s !! key messages tools = Some (dumps (result_json p)) →
  Forall plain (k_messages p) →
  ∀ tr Q,
    (∀ n, let compacted := k_messages p ++ drop (to_summarise (length messages)) messages in
          match fits n limit with
          | Some c => Q (inr (Some (mk_result 2 compacted tools counted c (k_disclosure p))))
          | None => Q (inr None)
          end s (tr ++ [Counted compacted n])) →
    (∀ e, Q (inl e) s (tr ++ [Failed])) →
    wp tlog (λ _ _ _ _, True)
      (from_cache (λ m t, invoke (ECount m t)) (Some (get loads sha256 cache_get id, put dumps sha256 cache_set))
         messages tools counted limit) Q s tr.
Proof.
  intros Hs Hp tr Q HQ He. unfold from_cache, get, cache_get. walk. unfold key in Hs. rewrite Hs. walk.
  unfold result_from_json. rewrite loads_dumps by done. rewrite result_of_json by done. walk.
  intros [e|n] _; walk; [apply He|]. specialize (HQ n). cbn zeta in HQ. by destruct (fits n limit).
Qed.

Lemma tier2_stores messages tools counted limit s :
  wp tlog (λ _ _ _ _, True) (tier2 messages tools counted limit)
    (λ o s' tr, match o with inr (Some r) => summarises tr → stored_by messages tools r s' | _ => True end) s [].
Proof.
  unfold tier2, try_tier2. case_bool_decide; [done|]. case_bool_decide; [done|]. apply wp_bind.
  assert (∀ tr, wp tlog (λ _ _ _ _, True)
    (fresh_summary (λ m t, invoke (ECount m t)) (λ m, invoke (ESummarise m))
       (Some (get loads sha256 cache_get id, put dumps sha256 cache_set)) messages tools counted limit)
    (λ o s' tr, match o with inr (Some r) => summarises tr → stored_by messages tools r s' | _ => True end) s tr) as Hfresh.
  { intros tr. eapply wp_mono; [|apply fresh_summary_stores]. intros [e|[r|]] s' tr'; auto. }
  unfold from_cache, get, cache_get. walk.
  destruct (s !! _) as [raw|]; walk; [|apply Hfresh]. unfold result_from_json.
  destruct (loads raw) as [j|]; walk; [|apply Hfresh]. destruct (result_of j) as [[]|p]; walk; [apply Hfresh|apply Hfresh|done|].
  intros [e|n] _; walk; [done|]. destruct (fits n limit); walk; [|apply Hfresh].
  intros ?. by destruct (not_summarised (k_messages p ++ drop (to_summarise (length messages)) messages) n).
Qed.

(** The prefix a longer conversation summarises is the one that was summarised. *)
Lemma same_key messages more tools :
  to_summarise (length (messages ++ more)) = to_summarise (length messages) →
  key (messages ++ more) tools = key messages tools.
Proof.
  intros He. unfold key. rewrite He, take_app_le; [done|]. pose proof (to_summarise_spec (length messages)). lia.
Qed.

(** A conversation is summarised once.  When a turn had its oldest messages
    summarised and fitted, a later turn that replays it and whose boundary has not
    moved finds the summary in the cache, whatever else was written there meanwhile:
    its prompt is the same summary and the rest of the conversation verbatim, the
    last six messages among it, and when that fits the summary model is not called. *)
Theorem a_conversation_is_summarised_once messages more tools counted limit counted' limit' s s1 r tr s2 s3 o tr2 :
  runs (tier2 messages tools counted limit) s (inr (Some r)) s1 tr → summarises tr →
  to_summarise (length (messages ++ more)) = to_summarise (length messages) →
  s2 !! key messages tools = s1 !! key messages tools →
  runs (tier2 (messages ++ more) tools counted' limit') s2 o s3 tr2 →
  ∃ summary, c_messages r = summary :: drop (to_summarise (length messages)) messages ∧
    let again := summary :: drop (to_summarise (length messages)) (messages ++ more) in
    KEEP_RECENT < length again ∧
    (tr2 = [Failed] ∨ ∃ n rest, tr2 = Counted again n :: rest ∧
       ∀ c, fits n limit' = Some c → rest = [] ∧ o = inr (Some (mk_result 2 again tools counted' c (disclosure r)))).
Proof.
  intros H1 Hsum Hsame Hs2 H2.
  pose proof (proj1 (wp_exec _ _ _ _ _ _) (tier2_stores messages tools counted limit s) _ _ _ H1 Hsum)
    as (text&b&a&Hr&Hstored).
  exists (summary_message text). split; [done|]. intros again.
  assert (to_summarise (length messages) ≠ 0) as Hn.
  { intros Hn. unfold tier2, try_tier2 in H1. rewrite Hn in H1. case_bool_decide; destruct H1 as ([=]&_). }
  pose proof (to_summarise_spec (length messages)) as Hb. split.
  { unfold again, KEEP_RECENT in *. cbn [length]. rewrite length_drop, length_app. lia. }
  revert o s3 tr2 H2. apply wp_exec. unfold tier2, try_tier2. rewrite Hsame.
  assert (¬ (length (messages ++ more) ≤ KEEP_RECENT)) as Hlong by (rewrite length_app; unfold KEEP_RECENT in *; lia).
  rewrite (bool_decide_eq_false_2 _ Hlong), (bool_decide_eq_false_2 _ Hn). apply wp_bind.
  eapply (from_cache_hit _ _ _ _ _ (mk_cached [summary_message text] (disclosure r) 2 b a)).
  - by rewrite same_key, Hs2.
  - by repeat constructor.
  - rewrite Hsame. cbn [k_messages k_disclosure app]. fold again. intros n.
    destruct (fits n limit') as [c|] eqn:Hf; walk.
    + right. exists n, []. split; [done|]. intros c' Hc'. by simplify_eq.
    + eapply wp_mono; [|apply wp_extends]. intros o s' tr' [rest ->]. right. exists n, rest. split; [done|].
      intros c' Hc'. by rewrite Hf in Hc'.
  - intros e. walk. by left.
Qed.
End Reuse.

(** ** The cache key does not tell every two conversations apart *)

Definition said (text : string) : Message := mk_message USER text [] None None.
Example two_conversations_one_key :
  let m1 := [said ("a" ++ newline ++ "user:b"); said "c"] in
  let m2 := [said "a"; said ("b" ++ newline ++ "user:c")] in
  m1 ≠ m2 ∧ prefix_text m1 [] 2 = prefix_text m2 [] 2.
Proof. split; [done|vm_compute; reflexivity]. Qed.

Module Demo.
(** A text for every cached prefix: its code, in binary. *)
Fixpoint bits (p : positive) : string :=
  match p with xH => "" | xO p => String Ascii.zero (bits p) | xI p => String Ascii.one (bits p) end.
Fixpoint of_bits (s : string) : positive :=
  match s with
  | EmptyString => xH
  | String c s => if bool_decide (c = Ascii.zero) then xO (of_bits s) else xI (of_bits s)
  end.
Lemma of_bits_bits p : of_bits (bits p) = p.
Proof. induction p as [p IH|p IH|]; simpl; by rewrite ?IH. Qed.

Definition role_code (r : MessageRole) : nat := match r with SYSTEM => 0 | USER => 1 | ASSISTANT => 2 | TOOL => 3 end.
Definition code_role (n : nat) : MessageRole := match n with 0 => SYSTEM | 1 => USER | 2 => ASSISTANT | _ => TOOL end.
Definition parts (r : CachedPrefix) :=
  ((λ m, (role_code (role m), content m, tool_call_id m, msg_name m)) <$> k_messages r,
   k_disclosure r, k_tier r, k_before r, k_after r).
Definition of_parts (p : list (nat * string * option string * option string) * string * Z * Z * Z) : CachedPrefix :=
  let '(ms, d, t, b, a) := p in
  mk_cached ((λ m, let '(r, c, i, n) := m in mk_message (code_role r) c [] i n) <$> ms) d t b a.

Definition dumps (j : json) : string :=
  match result_of j with Ret r => bits (encode (parts r)) | Raise _ => "" end.
Definition loads (s : string) : option json := (λ p, result_json (of_parts p)) <$> decode (of_bits s).

Lemma loads_dumps r : Forall plain (k_messages r) → loads (dumps (result_json r)) = Some (result_json r).
Proof.
  intros Hr. unfold dumps, loads. rewrite result_of_json by done. rewrite of_bits_bits, decode_encode. cbn [fmap option_fmap option_map].
  do 2 f_equal. destruct r as [ms d t b a]. cbn [k_messages] in Hr. unfold parts, of_parts. cbn. f_equal.
  induction Hr as [|m ms (Htc&_&_) _ IH]; [done|]. cbn. cbn in IH. rewrite IH. f_equal.
  destruct m as [r c tc i n]. cbn in Htc. subst. by destruct r.
Qed.

Definition conversation (n : nat) : list Message := (λ i, said (decimal i)) <$> seq 0 n.
Definition answer (tr : list tevent) (R : Type) (q : teff R) : R :=
  match q in teff R return R with
  | ECount m _ => inr (Some (Z.of_nat (length m)))
  | ESummarise _ => inr "they counted"%string
  end.
Definition turn (n : nat) (s : gmap string string) :=
  run tlog answer (tier2 dumps loads id (conversation n) [] (Z.of_nat n) 12) s [].
Definition first := turn 16 ∅.
Definition second := turn 18 first.1.2.

Lemma turn_runs n s : exec tlog (λ _ _ _ _, True) (tier2 dumps loads id (conversation n) [] (Z.of_nat n) 12) s []
  (turn n s).1.1 (turn n s).1.2 (turn n s).2.
Proof. by apply exec_run. Qed.
End Demo.

Lemma a_conversation_is_summarised_once_witness :
  ∃ n, Demo.second.2 = [Counted (summary_message "they counted" :: drop 10 (Demo.conversation 18)) n] ∧
    Demo.second.1.1 = inr (Some (mk_result 2 (summary_message "they counted" :: drop 10 (Demo.conversation 18)) [] 18 9
      (summarised 10 "they counted"))).
Proof.
  destruct Demo.first.1.1 as [e|[r|]] eqn:Hr; [vm_compute in Hr; discriminate Hr| |vm_compute in Hr; discriminate Hr].
  pose proof (Demo.turn_runs 16 ∅) as H1. change (Demo.turn 16 ∅) with Demo.first in H1. rewrite Hr in H1.
  destruct (a_conversation_is_summarised_once Demo.dumps Demo.loads id Demo.loads_dumps (Demo.conversation 16)
    [said (decimal 16); said (decimal 17)] [] 16 12 18 12 ∅ Demo.first.1.2 r Demo.first.2 Demo.first.1.2 Demo.second.1.2
    Demo.second.1.1 Demo.second.2) as (m&_&Hlong&Hagain).
  - exact H1.
  - exists (take 10 (Demo.conversation 16)). vm_compute. left.
  - vm_compute. reflexivity.
  - reflexivity.
  - exact (Demo.turn_runs 18 Demo.first.1.2).
  - exists (Some 9%Z). split; vm_compute; reflexivity.
Defined.
