(* ===== verification/Generation.v ===== *)
(** One generation, from the first read of the runtime's stream to its record
    ([route_chat_request/generation_session.py], [finalization.py],
    [domain/services/prompt_capture.py]).

    The chat use case is a program over the calls of [ceff], each of which may
    answer or raise anything.  Its asynchronous generators are inlined: handing a
    chunk to the caller is the call [EYield], which raises when the caller has left,
    and an [aclosing] block ends in [EClose].  The answer to [EStart] bounds how often
    the stream will be read; each chunk is then asked for.  The reads of the monotonic
    clock are binary64 numbers, as in Python, and those of the other clock whole
    microseconds.

    The theorems: whatever fails, and wherever the caller leaves, the stream is closed
    once and the generation billed once, though a write may fail; and what is recorded is
    what was handed over, with at most eight chunks read past the ceiling. *)

From S2P Require Import Binding.
From S2P Require Export Actors Residency Compaction.

(** * What crosses the ports *)

Record CompletionChunk := mk_chunk {
  delta : string; chunk_finish : option string; token_count : Z; chunk_prompt_tokens : Z;
  reasoning : string; chunk_calls : list ToolCall
}.

Inductive count_basis : Set := COUNT_BY_TOKENIZER | COUNT_BY_ESTIMATE | COUNT_BY_LOWER_BOUND.
#[export] Instance count_basis_eq_dec : EqDecision count_basis.
Proof. solve_decision. Defined.

Record WidenedAdmission := mk_widened { w_profile : string; w_counted : Z; w_limit : Z }.

Record UsageRecord := mk_usage {
  usage_id : string; usage_actor : string; usage_key : option string; usage_capability : string;
  usage_requested : option string; usage_alias : string; usage_tokens : Z; usage_prompt_tokens : Z;
  usage_latency_ms : Z; usage_completed : bool; usage_at : Z; usage_tenant : string;
  usage_tier : option Z; usage_before : option Z; usage_after : option Z
}.

Record PromptLogEntry := mk_entry {
  e_id : string; e_at : Z; e_actor : string; e_key : option string; e_capability : string;
  e_alias : string; e_request : option string; e_messages : string; e_completion : string;
  e_reasoning : string; e_finish : option string; e_completed : bool; e_calls : nat;
  e_tenant : string; e_truncated : gset string; e_tier : option Z
}.

(** The arguments of [_generate]; [g_op] is the attempt it is bound to. *)
Record generation := mk_generation_args {
  g_actor : Actor; g_capability : string; g_requested : option string; g_target : Model;
  g_messages : list Message; g_max_tokens : option Z; g_thinking : bool;
  g_tools : list ToolDefinition; g_choice : option ToolChoice; g_sampling : option SamplingOptions;
  g_counted : Z; g_basis : count_basis; g_widened : option WidenedAdmission;
  g_tier : option Z; g_before : option Z; g_after : option Z; g_attempt : option AttemptIdentity
}.

(** What a request is refused with; [Cancelled] stands for [CancelledError] and
    [GeneratorExit], which [except Exception] does not catch, and [OtherError] for
    every other exception, a timeout included. *)
Inductive cexn : Type :=
  | NotAuthorized
  | CapabilityNotIssuedError (capability : string) (available : list string)
  | ContextTooLongError (estimated limit : Z) (composition : string) (basis : count_basis)
  | NoAvailableModel
  | ServerOverloadedError
  | OtherError
  | Cancelled.

Definition is_exception (e : cexn) : bool := match e with Cancelled => false | _ => true end.

(** How a context length is read: from the adapter by manifest, from the adapter,
    or from the counter beside the gateway. *)
Inductive capacity_read : Set := pinned_read | plain_read | colocated_read.

Inductive ceff : Type → Type :=
  | ENow : ceff Z
  | EMonotonic : ceff spec_float
  | ENewId : ceff string
  | ERequestId : ceff (option string)
  | EAcquire : ceff (cexn + unit)
  | ERelease : ceff unit
  | EIssuable (a : Actor) : ceff (cexn + list string)
  | EPolicy (capability : string) : ceff (cexn + option RoutingPolicy)
  | EModels : ceff (cexn + list Model)
  | ENodes : ceff (cexn + list Node)
  | ECount (r : string) (m : list Message) (t : list ToolDefinition) : ceff (cexn + option Z)
  | EParts (r : string) (parts : list string) : ceff (cexn + option (list Z))
  | EMeasure (r : string) (m : list Message) (t : list ToolDefinition) : ceff (cexn + Measurement)
  | ECapacity (how : capacity_read) (r : string) (manifest : option string) : ceff (cexn + json)
  | ESummarise (m : list Message) : ceff (cexn + string)
  | ECacheGet (k : string) : ceff (cexn + option string)
  | ECacheSet (k v : string) (ttl : Z) : ceff (cexn + unit)
  | EReport (d : CompactionDisclosure) : ceff unit
  | ERepeat (a : Actor) (i : RequestIdentity) : ceff (cexn + option (list CompletionChunk))
  | EBind (a : Actor) (i : option RequestIdentity) (n : string) (bill : dict)
      : ceff (cexn + (AttemptIdentity + list CompletionChunk))
  | EStart (g : generation) (ceiling context : Z) : ceff nat
  | EPull (current : option AttemptIdentity) : ceff (cexn + option CompletionChunk)
  | EClose : ceff (cexn + unit)
  | EYield (c : CompletionChunk) : ceff (cexn + unit)
  | ERecordUsage (r : UsageRecord) : ceff (cexn + unit)
  | EMarkDelivery (op : string) (completed : bool) : ceff (cexn + unit)
  | ESettle (op : string) : ceff (cexn + unit)
  | EPromptLog (e : PromptLogEntry) : ceff (cexn + unit).

(** What the theorems see of a call and its answer; of a write, also whether it succeeded. *)
Inductive cevent : Type :=
  | Listed
  | Acquired (ok : bool)
  | Released
  | Told (now : Z)
  | RoutedBy (p : RoutingPolicy)
  | SawModels (l : list Model)
  | SawNodes (l : list Node)
  | Counted (r : string) (m : list Message) (t : list ToolDefinition) (n : option Z)
  | Measured (r : string) (m : list Message) (t : list ToolDefinition) (d : Measurement)
  | SawCapacity (how : capacity_read) (r : string) (manifest : option string) (v : json)
  | Summarised (m : list Message)
  | Reported (d : CompactionDisclosure)
  | Bound (b : AttemptIdentity + list CompletionChunk)
  | Started (g : generation) (ceiling context : Z)
  | Pulled (current : option AttemptIdentity) (c : CompletionChunk)
  | Closed
  | Yielded (c : CompletionChunk)
  | Recorded (r : UsageRecord) (ok : bool)
  | Delivered (op : string) (completed ok : bool)
  | Settled (op : string)
  | Transcribed (e : PromptLogEntry) (ok : bool)
  | Other.

Definition is_ok {A B} (r : A + B) : bool := match r with inr _ => true | inl _ => false end.

Definition clog (R : Type) (q : ceff R) : R → cevent :=
  match q in ceff R return R → cevent with
  | ENow => Told
  | EAcquire => λ r, Acquired (match r with inl _ => false | inr _ => true end)
  | ERelease => λ _, Released
  | EIssuable _ => λ _, Listed
  | EPolicy _ => λ r, match r with inr (Some p) => RoutedBy p | _ => Other end
  | EModels => λ r, match r with inr l => SawModels l | _ => Other end
  | ENodes => λ r, match r with inr l => SawNodes l | _ => Other end
  | ECount r m t => λ o, match o with inr n => Counted r m t n | _ => Other end
  | EMeasure r m t => λ o, match o with inr d => Measured r m t d | _ => Other end
  | ECapacity how r w => λ o, match o with inr v => SawCapacity how r w v | _ => Other end
  | ESummarise m => λ _, Summarised m
  | EReport d => λ _, Reported d
  | ERepeat _ _ => λ _, Listed
  | EBind _ _ _ _ => λ r, match r with inr b => Bound b | _ => Other end
  | EStart g n c => λ _, Started g n c
  | EPull a => λ r, match r with inr (Some c) => Pulled a c | _ => Other end
  | EClose => λ _, Closed
  | EYield c => λ _, Yielded c
  | ERecordUsage r => λ o, Recorded r (is_ok o)
  | EMarkDelivery op b => λ o, Delivered op b (is_ok o)
  | ESettle op => λ _, Settled op
  | EPromptLog e => λ o, Transcribed e (is_ok o)
  | _ => λ _, Other
  end.

(** * The transcript of a debug window *)

Definition MAX_FIELD_CHARS : Z := 256 * 1024.

Definition should_capture (a : Actor) (now : Z) : bool :=
  match debug_logging_until a with Some until => bool_decide (now < until)%Z | None => false end.

Record TranscriptBuffer := mk_buffer { t_deltas : list string; t_reasoning : list string; t_calls : nat }.
Definition empty_buffer : TranscriptBuffer := mk_buffer [] [] 0.

Definition nonempty (s : string) : bool := negb (String.eqb s "").
Definition appended (l : list string) (s : string) : list string := if nonempty s then l ++ [s] else l.

Definition observe (t : TranscriptBuffer) (c : CompletionChunk) : TranscriptBuffer :=
  mk_buffer (appended (t_deltas t) (delta c)) (appended (t_reasoning t) (reasoning c))
    (t_calls t + length (chunk_calls c)).

Definition cap (value : string) : string * bool :=
  if bool_decide (Z.of_nat (String.length value) ≤ MAX_FIELD_CHARS)%Z then (value, false)
  else (String.substring 0 (Z.to_nat MAX_FIELD_CHARS) value, true).

(** The value [_render_messages] writes. *)
Definition messages_json (l : list Message) : json :=
  JArr ((λ m, JObj ([("role", JStr (role_value (role m))); ("content", JStr (content m))] ++
    match tool_calls m with [] => [] | calls => [("tool_calls", JArr (encode_tool_call <$> calls))] end ++
    optional_field "tool_call_id" (tool_call_id m) ++ optional_field "name" (msg_name m))) <$> l).

(** [json.dumps(..., ensure_ascii=False, separators=(",", ":"))] *)
Section Session.
Context (dumps : json → string).

Definition render_messages (l : list Message) : string := dumps (messages_json l).

Definition flag (name : string) (cut : bool) : gset string := if cut then {[name]} else ∅.

Definition build (t : TranscriptBuffer) (entry_id : string) (at_ : Z) (a : Actor) (cap_ alias_ : string)
    (request_id : option string) (messages : list Message) (finish : option string) (completed : bool)
    (tier_ : option Z) : PromptLogEntry :=
  let rendered := cap (render_messages messages) in
  let completion := cap (String.concat "" (t_deltas t)) in
  let reasons := cap (String.concat "" (t_reasoning t)) in
  mk_entry entry_id at_ (actor_id a) (actor_key_id a) cap_ alias_ request_id rendered.1 completion.1
    reasons.1 finish completed (t_calls t) (tenant_id a)
    (flag "messages" rendered.2 ∪ flag "completion" completion.2 ∪ flag "reasoning" reasons.2) tier_.
End Session.

(** * The generation *)

(** What the composition root wires in; an adapter is known here by how it tells the
    context its weights declare. *)
Record config := mk_config {
  cf_tokens : bool; cf_measures : bool; cf_prompt_logs : bool; cf_binder : bool; cf_settles : bool;
  cf_summarises : bool; cf_cached : bool;
  cf_max_tokens : Z; cf_max_context : Z; cf_deadline : Z; cf_thinking : bool; cf_payload : Z;
  cf_runtimes : option Node → RuntimeKind → option capacity_read
}.

(** The locals of [_generate] that outlive an exception. *)
Record session := mk_session {
  produced : Z; prompt_tokens : Z; drained : nat; forwarded_terminal : bool; s_completed : bool;
  s_truncated : bool; upstream_finished : bool; finish_reason : option string;
  generating_since : option spec_float; transcript : option TranscriptBuffer
}.

Definition new_session (t : option TranscriptBuffer) : session :=
  mk_session 0 0 0 false false false false None None t.

(** The fields of the use case in one task: the locals above, and [current_attempt]. *)
Record self := mk_self { s_gen : session; s_current : option AttemptIdentity }.
Abbreviation cprog := (prog ceff cexn self).

Definition gen_of : cprog session := let! s := get_self in Pure (s_gen s).
Definition update_gen (f : session → session) : cprog unit :=
  update_self (λ s, mk_self (f (s_gen s)) (s_current s)).

Definition TERMINAL_EVENT_DRAIN_LIMIT : nat := 8.

(** [if chunk.finish_reason] *)
Definition finished (c : CompletionChunk) : bool :=
  match chunk_finish c with Some r => nonempty r | None => false end.

Definition at_chunk (since : spec_float) (g : session) : session :=
  mk_session (produced g) (prompt_tokens g) (drained g) (forwarded_terminal g) (s_completed g)
    (s_truncated g) (upstream_finished g) (finish_reason g) (Some since) (transcript g).

Definition noted (c : CompletionChunk) (g : session) : session :=
  mk_session (produced g) (if (chunk_prompt_tokens c =? 0)%Z then prompt_tokens g else chunk_prompt_tokens c)
    (drained g) (forwarded_terminal g) (s_completed g) (s_truncated g) (upstream_finished g || finished c)
    (finish_reason g) (generating_since g) (transcript g).

Definition billed (c : CompletionChunk) (g : session) : session :=
  mk_session (produced g + token_count c) (prompt_tokens g) (drained g) (forwarded_terminal g)
    (s_completed g) (s_truncated g) (upstream_finished g) (finish_reason g) (generating_since g) (transcript g).

Definition drained_one (g : session) : session :=
  mk_session (produced g) (prompt_tokens g) (S (drained g)) (forwarded_terminal g) (s_completed g)
    (s_truncated g) (upstream_finished g) (finish_reason g) (generating_since g) (transcript g).

Definition forwarding (c : CompletionChunk) (g : session) : session :=
  mk_session (produced g + token_count c) (prompt_tokens g) (drained g)
    (forwarded_terminal g || finished c) (s_completed g) (s_truncated g) (upstream_finished g)
    (if finished c then chunk_finish c else finish_reason g) (generating_since g)
    ((λ t, observe t c) <$> transcript g).

Definition truncate (g : session) : session :=
  mk_session (produced g) (prompt_tokens g) (drained g) (forwarded_terminal g) (s_completed g)
    true (upstream_finished g) (finish_reason g) (generating_since g) (transcript g).

Definition ended_by_length (g : session) : session :=
  mk_session (produced g) (prompt_tokens g) (drained g) (forwarded_terminal g) (s_completed g)
    (s_truncated g) (upstream_finished g) (Some "length") (generating_since g) (transcript g).

Definition complete_if_whole (g : session) : session :=
  mk_session (produced g) (prompt_tokens g) (drained g) (forwarded_terminal g) (negb (s_truncated g))
    (s_truncated g) (upstream_finished g) (finish_reason g) (generating_since g) (transcript g).

(** [min(requested or ceiling, ceiling)] *)
Definition effective_max_tokens (requested : option Z) (ceiling : Z) : Z :=
  Z.min (match requested with Some n => if (n =? 0)%Z then ceiling else n | None => ceiling end) ceiling.

(** [int(f)] of a finite float. *)
Definition py_int (f : spec_float) : Z :=
  match f with
  | S754_finite s m e =>
      let z := if s then Zneg m else Zpos m in
      if (0 <=? e)%Z then (z * 2 ^ e)%Z else Z.quot z (2 ^ (- e))
  | _ => 0%Z
  end.

Definition elapsed_ms (now started : spec_float) : Z := py_int (fmul (fsub now started) (float_of 1000)).

Section Generate.
Context (dumps : json → string) (cfg : config) (a : generation).

Definition ceiling : Z := effective_max_tokens (g_max_tokens a) (cf_max_tokens cfg).

(** [self._monotonic() - generating_since > deadline] *)
Definition past_deadline : cprog bool :=
  if (cf_deadline cfg <=? 0)%Z then Pure false
  else
    let! now := ask EMonotonic in
    let! g := gen_of in
    Pure (match generating_since g with
          | Some since => SFltb (float_of (cf_deadline cfg)) (fsub now since)
          | None => false
          end).

(** A chunk past the ceiling: whether to go on reading. *)
Definition drain (c : CompletionChunk) : cprog bool :=
  let! g := gen_of in
  if upstream_finished g then let! _ := update_gen (billed c) in Pure false
  else
    let! _ := update_gen drained_one in
    Pure (negb (TERMINAL_EVENT_DRAIN_LIMIT <=? S (drained g))).

Definition forward (c : CompletionChunk) : cprog bool :=
  let! _ := update_gen (forwarding c) in
  let! _ := invoke (EYield c) in
  let! g := gen_of in
  if (ceiling <=? produced g)%Z then let! _ := update_gen truncate in Pure true
  else
    let! late := past_deadline in
    if (late : bool) then let! _ := update_gen truncate in Pure false else Pure true.

(** The body of [async for chunk in upstream]: whether to go on. *)
Definition on_chunk (c : CompletionChunk) : cprog bool :=
  let! g := gen_of in
  let! _ := match generating_since g with
            | None => let! now := ask EMonotonic in update_gen (at_chunk now)
            | Some _ => Pure tt
            end in
  let! _ := update_gen (noted c) in
  if s_truncated g then drain c else forward c.

Definition pull : cprog (option CompletionChunk) :=
  let! s := get_self in invoke (EPull (s_current s)).

Fixpoint pull_loop (reads : nat) : cprog unit :=
  match reads with
  | 0 => Pure tt
  | S reads =>
      let! r := pull in
      match r with
      | None => Pure tt
      | Some c => let! go := on_chunk c in if (go : bool) then pull_loop reads else Pure tt
      end
  end.

Definition length_chunk : CompletionChunk := mk_chunk "" (Some "length") 0 0 "" [].

Definition stream_out : cprog unit :=
  let! reads := ask (EStart a ceiling (profile_context (resource_profile (g_target a)))) in
  let! _ := finally (pull_loop reads) (invoke EClose) in
  let! g := gen_of in
  let! _ := (if s_truncated g && negb (forwarded_terminal g)
             then let! _ := invoke (EYield length_chunk) in update_gen ended_by_length
             else Pure tt) in
  update_gen complete_if_whole.

(** [try: p except Exception: log] *)
Definition logged (p : cprog unit) : cprog unit :=
  catch p (λ e, if is_exception e then Pure tt else Throw e).

Definition usage_record (id : string) (now : spec_float) (at_ : Z) (started : spec_float) (g : session) : UsageRecord :=
  mk_usage id (actor_id (g_actor a)) (actor_key_id (g_actor a)) (g_capability a) (g_requested a)
    (alias (g_target a)) (produced g) (prompt_tokens g) (elapsed_ms now started) (s_completed g) at_
    (tenant_id (g_actor a)) (g_tier a) (g_before a) (g_after a).

Definition record_usage (started : spec_float) : cprog unit :=
  let! id := ask ENewId in
  let! now := ask EMonotonic in
  let! at_ := ask ENow in
  let! g := gen_of in
  logged (invoke (ERecordUsage (usage_record id now at_ started g))).

Definition settle_attempt (op : string) : cprog unit :=
  let! g := gen_of in
  logged (let! _ := invoke (EMarkDelivery op (s_completed g)) in invoke (ESettle op)).

Definition log_transcript (t : TranscriptBuffer) : cprog unit :=
  logged
    (let! at_ := ask ENow in
     let! request_id := ask ERequestId in
     let! id := ask ENewId in
     let! g := gen_of in
     invoke (EPromptLog (build dumps t id at_ (g_actor a) (g_capability a) (alias (g_target a)) request_id
       (g_messages a) (finish_reason g) (s_completed g) (g_tier a)))).

Definition finalize_generation (started : spec_float) : cprog unit :=
  let! _ := match g_attempt a with
            | Some attempt => if cf_binder cfg && cf_settles cfg then settle_attempt (ai_op attempt)
                              else record_usage started
            | None => record_usage started
            end in
  let! g := gen_of in
  match transcript g with
  | Some t => if cf_prompt_logs cfg then log_transcript t else Pure tt
  | None => Pure tt
  end.

Definition open_transcript : cprog (option TranscriptBuffer) :=
  if cf_prompt_logs cfg then
    let! now := ask ENow in Pure (if should_capture (g_actor a) now then Some empty_buffer else None)
  else Pure None.

Definition generate : cprog unit :=
  let! t := open_transcript in
  let! _ := update_gen (λ _, new_session t) in
  let! started := ask EMonotonic in
  finally stream_out (finalize_generation started).
End Generate.

(** * One life of a generation *)

Inductive phase : Set :=
  | Waiting | Streaming | Shut | Billed (op : option string) | Done (op : option string) | Broken.
#[export] Instance phase_eq_dec : EqDecision phase.
Proof. solve_decision. Defined.

(** Started, read, closed, billed once by its own row or by its attempt, transcribed
    at most once, in that order; a chunk is handed over at any time before the bill. *)
Definition step_phase (p : phase) (e : cevent) : phase :=
  match e with
  | Started _ _ _ => match p with Waiting => Streaming | _ => Broken end
  | Pulled _ _ => match p with Streaming => Streaming | _ => Broken end
  | Yielded _ => match p with Waiting => Waiting | Streaming => Streaming | Shut => Shut | _ => Broken end
  | Closed => match p with Streaming => Shut | _ => Broken end
  | Recorded _ _ => match p with Shut => Billed None | _ => Broken end
  | Delivered op _ _ => match p with Shut => Billed (Some op) | _ => Broken end
  | Settled op => match p with Billed (Some op') => if decide (op = op') then p else Broken | _ => Broken end
  | Transcribed _ _ => match p with Billed how => Done how | _ => Broken end
  | _ => p
  end.
Definition phase_of (tr : list cevent) : phase := foldl step_phase Waiting tr.

Lemma phase_of_snoc tr e : phase_of (tr ++ [e]) = step_phase (phase_of tr) e.
Proof. unfold phase_of. by rewrite foldl_app. Qed.

(** Of one life, only one start. *)
Definition starts (tr : list cevent) : list generation :=
  omap (λ e, match e with Started a _ _ => Some a | _ => None end) tr.

Lemma starts_snoc tr e :
  starts (tr ++ [e]) = starts tr ++ match e with Started a _ _ => [a] | _ => [] end.
Proof. unfold starts. rewrite omap_app. by destruct e. Qed.

Lemma starts_once tr :
  match phase_of tr with Waiting => starts tr = [] | Broken => True | _ => length (starts tr) = 1 end.
Proof.
  induction tr as [|e tr IH] using rev_ind; [done|]. rewrite phase_of_snoc, starts_snoc.
  destruct (phase_of tr) eqn:Hp; destruct e; simpl; rewrite ?app_nil_r; try done;
    first [by rewrite IH|by repeat case_match].
Qed.

Lemma one_start tr a a' n n' x x' :
  phase_of tr ≠ Broken → Started a n x ∈ tr → Started a' n' x' ∈ tr → a = a'.
Proof.
  intros Hp Ha Ha'. assert (length (starts tr) ≤ 1) as Hs.
  { pose proof (starts_once tr) as Hs. destruct (phase_of tr); try done; rewrite Hs; simpl; lia. }
  assert (∀ b m y, Started b m y ∈ tr → b ∈ starts tr) as Hin.
  { intros b m y Hb. apply list_elem_of_omap. by exists (Started b m y). }
  apply Hin in Ha, Ha'. destruct (starts tr) as [|b [|]]; [by apply not_elem_of_nil in Ha| |simpl in Hs; lia].
  apply list_elem_of_singleton in Ha, Ha'. congruence.
Qed.

(** How the generation is billed: by its attempt when there is one and a settlement. *)
Definition billed_by (cfg : config) (a : generation) : option string :=
  match g_attempt a with
  | Some attempt => if cf_binder cfg && cf_settles cfg then Some (ai_op attempt) else None
  | None => None
  end.

(** What was written, or tried: usage records, delivery marks, transcripts, and how often
    a stream was closed. *)
Definition records (tr : list cevent) : list (UsageRecord * bool) :=
  omap (λ e, match e with Recorded r ok => Some (r, ok) | _ => None end) tr.
Definition marks (tr : list cevent) : list (string * bool) :=
  omap (λ e, match e with Delivered op _ ok => Some (op, ok) | _ => None end) tr.
Definition transcripts (tr : list cevent) : list PromptLogEntry :=
  omap (λ e, match e with Transcribed e _ => Some e | _ => None end) tr.
Definition closes (tr : list cevent) : nat :=
  length (omap (λ e, match e with Closed => Some tt | _ => None end) tr).

(** Billed once, by its own row or by the mark of its attempt, whether that succeeds or not. *)
Definition billed_once (how : option string) (tr : list cevent) : Prop :=
  match how with
  | None => (∃ r ok, records tr = [(r, ok)]) ∧ marks tr = []
  | Some op => (∃ ok, marks tr = [(op, ok)]) ∧ records tr = []
  end.

(** What a phase says of the writes before it. *)
Definition written (p : phase) (tr : list cevent) : Prop :=
  match p with
  | Waiting | Streaming => records tr = [] ∧ marks tr = [] ∧ transcripts tr = [] ∧ closes tr = 0
  | Shut => records tr = [] ∧ marks tr = [] ∧ transcripts tr = [] ∧ closes tr = 1
  | Billed how => billed_once how tr ∧ transcripts tr = [] ∧ closes tr = 1
  | Done how => billed_once how tr ∧ length (transcripts tr) = 1 ∧ closes tr = 1
  | Broken => True
  end.

Lemma phase_written tr : written (phase_of tr) tr.
Proof.
  induction tr as [|e tr IH] using rev_ind; [done|]. rewrite phase_of_snoc.
  unfold written, billed_once, records, marks, transcripts, closes in *. rewrite !omap_app.
  destruct (phase_of tr) as [| | |[op|]|[op|]|] eqn:Hp; destruct e; cbn [step_phase]; repeat case_match; simplify_eq; try done;
    cbn [omap list_omap]; rewrite ?app_nil_r; try done;
    repeat match goal with H : _ ∧ _ |- _ => destruct H | H : ∃ _, _ |- _ => destruct H end;
    rewrite ?length_app; repeat match goal with H : omap _ tr = _ |- _ => rewrite H | H : length (omap _ tr) = _ |- _ => rewrite H end;
    cbn; eauto 10.
Qed.

Definition is_over (how : option string) (p : phase) : Prop := p = Billed how ∨ p = Done how.

Abbreviation cwp := (wp clog (λ _ _ _ _, True)).

Section Life.
Context (dumps : json → string) (cfg : config) (a : generation).

Lemma past_deadline_wp s tr Q :
  (∀ b t, (t = tr ∨ t = tr ++ [Other]) → Q (inr b) s t) → cwp (past_deadline cfg) Q s tr.
Proof.
  intros HQ. unfold past_deadline, gen_of. destruct (_ <=? _)%Z; walk_calls; [by apply HQ; left|].
  intros now _. apply HQ. by right.
Qed.

Lemma on_chunk_phase c s tr :
  phase_of tr = Streaming → cwp (on_chunk cfg a c) (λ _ _ tr', phase_of tr' = Streaming) s tr.
Proof.
  intros H.
  assert (∀ s tr, phase_of tr = Streaming → cwp (drain c) (λ _ _ tr', phase_of tr' = Streaming) s tr) as Hd.
  { intros s0 tr0 H0. unfold drain, gen_of, update_gen. walk_calls. case_match; walk_calls; done. }
  assert (∀ s tr, phase_of tr = Streaming → cwp (forward cfg a c) (λ _ _ tr', phase_of tr' = Streaming) s tr) as Hf.
  { intros s0 tr0 H0. unfold forward, gen_of, update_gen. walk_calls. intros [e|[]] _; walk_calls;
      [by rewrite phase_of_snoc, H0|].
    assert (phase_of (tr0 ++ [clog _ (EYield c) (inr tt)]) = Streaming) as H1 by (rewrite phase_of_snoc, H0; done).
    case_match; walk_calls; [done|].
    apply wp_bind, past_deadline_wp. intros b t Ht.
    assert (phase_of t = Streaming) as Ht2 by (destruct Ht as [->| ->]; [done|by rewrite phase_of_snoc, H1]).
    destruct b; walk_calls; done. }
  unfold on_chunk, gen_of, update_gen. walk_calls.
  destruct (generating_since (s_gen s)); walk_calls.
  - destruct (s_truncated (s_gen s)); auto.
  - intros now _. walk_calls. assert (phase_of (tr ++ [clog _ EMonotonic now]) = Streaming) as H1 by (rewrite phase_of_snoc; done).
    destruct (s_truncated (s_gen s)); auto.
Qed.

Lemma pull_loop_phase reads s tr :
  phase_of tr = Streaming → cwp (pull_loop cfg a reads) (λ _ _ tr', phase_of tr' = Streaming) s tr.
Proof.
  revert s tr. induction reads as [|reads IH]; intros s tr H; [done|]. cbn [pull_loop].
  unfold pull. walk_calls. intros [e|[c|]] _; walk_calls; [by rewrite phase_of_snoc, H| |by rewrite phase_of_snoc, H].
  apply wp_bind. eapply wp_mono; [|apply on_chunk_phase; by rewrite phase_of_snoc, H].
  intros [e|go] s' tr' H'; [done|]. destruct go; walk_calls; [by apply IH|done].
Qed.

Lemma stream_out_phase s tr :
  phase_of tr = Waiting → cwp (stream_out cfg a) (λ _ _ tr', phase_of tr' = Shut) s tr.
Proof.
  intros H. unfold stream_out, gen_of, update_gen. walk_calls. intros reads _. apply wp_bind, wp_finally.
  eapply wp_mono; [|apply pull_loop_phase; by rewrite phase_of_snoc, H]. intros o s' tr' H'. walk_calls.
  assert (∀ r, phase_of (tr' ++ [clog _ EClose r]) = Shut) as Hc by (intros r; by rewrite phase_of_snoc, H').
  intros [e|[]] _; walk_calls; [done|]. destruct o as [e|[]]; [done|]. walk_calls.
  case_match; walk_calls; [|done]. intros [e|[]] _; walk_calls; by rewrite phase_of_snoc, Hc.
Qed.

Lemma logged_wp (p : cprog unit) Q s tr :
  cwp p (λ o s' tr', match o with
    | inr tt => Q (inr tt) s' tr'
    | inl e => if is_exception e then Q (inr tt) s' tr' else Q (inl e) s' tr' end) s tr →
  cwp (logged p) Q s tr.
Proof.
  intros H. apply wp_catch. eapply wp_mono; [|exact H]. intros [e|[]] s' tr' H'; [|done].
  by destruct (is_exception e).
Qed.

Lemma finalize_phase started s tr :
  phase_of tr = Shut →
  cwp (finalize_generation dumps cfg a started) (λ _ _ tr', is_over (billed_by cfg a) (phase_of tr')) s tr.
Proof.
  intros H. unfold finalize_generation, gen_of. set (how := billed_by cfg a).
  assert (cwp (match g_attempt a with
     | Some attempt => if cf_binder cfg && cf_settles cfg then settle_attempt (ai_op attempt) else record_usage a started
     | None => record_usage a started end) (λ o s' tr', phase_of tr' = Billed how) s tr) as Hbill.
  { assert (cwp (record_usage a started) (λ o s' tr', phase_of tr' = Billed None) s tr) as Hr.
    { unfold record_usage, gen_of. walk_calls. intros id _ now _ at_ _. walk_calls. apply logged_wp. walk_calls.
      assert (∀ e r, phase_of ((((tr ++ [clog _ ENewId id]) ++ [clog _ EMonotonic now]) ++ [clog _ ENow at_]) ++
        [clog _ (ERecordUsage e) r]) = Billed None) as Hp.
      { intros e r. rewrite !phase_of_snoc, H. done. }
      intros [e|[]] _; walk_calls; [destruct (is_exception e)|]; apply Hp. }
    unfold how, billed_by. destruct (g_attempt a) as [attempt|]; [|done].
    destruct (cf_binder cfg && cf_settles cfg); [|done].
    unfold settle_attempt, gen_of. walk_calls. apply logged_wp. walk_calls.
    assert (∀ b r, phase_of (tr ++ [clog _ (EMarkDelivery (ai_op attempt) b) r]) = Billed (Some (ai_op attempt))) as Hp
      by (intros b r; rewrite phase_of_snoc, H; done).
    intros [e|[]] _; walk_calls; [destruct (is_exception e); apply Hp|].
    intros [e|[]] _; walk_calls; [destruct (is_exception e)|]; rewrite phase_of_snoc, Hp; simpl; by rewrite decide_True. }
  apply wp_bind. eapply wp_mono; [|exact Hbill]. intros [e|[]] s' tr' H'; [by left|]. walk_calls.
  destruct (transcript (s_gen s')) as [t|]; [|by left]. destruct (cf_prompt_logs cfg); [|by left].
  unfold log_transcript, gen_of. apply logged_wp. walk_calls. intros at_ _ rid _ id _. walk_calls.
  intros [e|[]] _; walk_calls; [destruct (is_exception e)|]; right; rewrite !phase_of_snoc, H'; done.
Qed.

(** Whatever fails and wherever the caller leaves, one generation is one life. *)
Lemma generate_phase s tr :
  phase_of tr = Waiting →
  cwp (generate dumps cfg a) (λ _ _ tr', is_over (billed_by cfg a) (phase_of tr')) s tr.
Proof.
  intros H. unfold generate, open_transcript, update_gen.
  assert (∀ s tr, phase_of tr = Waiting → cwp (let! started := ask EMonotonic in
    finally (stream_out cfg a) (finalize_generation dumps cfg a started))
    (λ _ _ tr', is_over (billed_by cfg a) (phase_of tr')) s tr) as Hrest.
  { intros s0 tr0 H0. walk_calls. intros started _. apply wp_finally.
    eapply wp_mono; [|apply stream_out_phase; by rewrite phase_of_snoc, H0].
    intros o s' tr' H'. eapply wp_mono; [|by apply finalize_phase]. by intros [e|[]] s2 tr2. }
  destruct (cf_prompt_logs cfg); walk_calls; [intros now _; walk_calls|]; apply Hrest; [by rewrite phase_of_snoc|done].
Qed.
End Life.

(** * What a generation is billed for, and what is kept of it *)

Definition pulled (tr : list cevent) : list CompletionChunk :=
  omap (λ e, match e with Pulled _ c => Some c | _ => None end) tr.
Definition handed (tr : list cevent) : list CompletionChunk :=
  omap (λ e, match e with Yielded c => Some c | _ => None end) tr.

Definition tokens_of (l : list CompletionChunk) : Z := foldr (λ c n, (token_count c + n)%Z) 0%Z l.
Definition last_prompt (l : list CompletionChunk) : Z :=
  foldl (λ n c, if (chunk_prompt_tokens c =? 0)%Z then n else chunk_prompt_tokens c) 0%Z l.
Definition texts (l : list string) : string := String.concat "" l.

(** What is billed of the chunks withheld: the last one, when it or a chunk read before it
    was terminal. *)
Definition drained_terminal (read withheld : list CompletionChunk) : Z :=
  match last withheld with
  | Some c => if existsb finished read then token_count c else 0%Z
  | None => 0%Z
  end.

(** The chunks read are those [fw] handed over, up to the first that reaches the
    ceiling [n], then at most eight that are [withheld]. *)
Definition split_at_ceiling (n : Z) (read fw withheld : list CompletionChunk) : Prop :=
  read = fw ++ withheld ∧ length withheld ≤ TERMINAL_EVENT_DRAIN_LIMIT ∧
  (withheld ≠ [] → (n ≤ tokens_of fw)%Z) ∧ (∀ k, 0 < k < length fw → (tokens_of (take k fw) < n)%Z).

Definition accounted (n : Z) (read fw : list CompletionChunk) (tokens prompt : Z) : Prop :=
  ∃ withheld, split_at_ceiling n read fw withheld ∧
    tokens = (tokens_of fw + drained_terminal read withheld)%Z ∧ prompt = last_prompt read.

(** A transcript holds the text of the chunks handed over; what is written of it is cut. *)
Definition holds_text (t : TranscriptBuffer) (fw : list CompletionChunk) : Prop :=
  texts (t_deltas t) = texts (delta <$> fw) ∧ texts (t_reasoning t) = texts (reasoning <$> fw) ∧
  t_calls t = sum_list_with (length ∘ chunk_calls) fw.

Definition handed_over (tr : list cevent) (fw : list CompletionChunk) : Prop :=
  handed tr = fw ∨ handed tr = fw ++ [length_chunk].

(** Every chunk read was handed over, and none reached the ceiling. *)
Definition delivered_whole (n : Z) (tr : list cevent) : Prop :=
  handed tr = pulled tr ∧ (pulled tr = [] ∨ (tokens_of (pulled tr) < n)%Z).

Definition transcribes (dumps : json → string) (a : generation) (e : PromptLogEntry) (fw : list CompletionChunk) : Prop :=
  e_messages e = (cap (render_messages dumps (g_messages a))).1 ∧
  e_completion e = (cap (texts (delta <$> fw))).1 ∧ e_reasoning e = (cap (texts (reasoning <$> fw))).1 ∧
  e_calls e = sum_list_with (length ∘ chunk_calls) fw ∧ e_actor e = actor_id (g_actor a) ∧
  e_alias e = alias (g_target a) ∧
  e_truncated e = flag "messages" (cap (render_messages dumps (g_messages a))).2 ∪
    flag "completion" (cap (texts (delta <$> fw))).2 ∪ flag "reasoning" (cap (texts (reasoning <$> fw))).2.

(** What must be so when a record is written. *)
Definition due (dumps : json → string) (tr : list cevent) (e : cevent) : Prop :=
  match e with
  | Recorded r _ => ∃ a n x fw, Started a n x ∈ tr ∧ handed_over tr fw ∧
      accounted n (pulled tr) fw (usage_tokens r) (usage_prompt_tokens r) ∧
      (usage_completed r = true → delivered_whole n tr) ∧
      usage_actor r = actor_id (g_actor a) ∧ usage_alias r = alias (g_target a) ∧ usage_tier r = g_tier a
  | Delivered op b _ => ∃ a n x, Started a n x ∈ tr ∧ ai_op <$> g_attempt a = Some op ∧
      (b = true → delivered_whole n tr)
  | Transcribed e _ => ∃ a n x fw now, Started a n x ∈ tr ∧ handed_over tr fw ∧ Told now ∈ tr ∧
      should_capture (g_actor a) now = true ∧ transcribes dumps a e fw
  | _ => True
  end.

Lemma pulled_snoc tr e : pulled (tr ++ [e]) = pulled tr ++ match e with Pulled _ c => [c] | _ => [] end.
Proof. unfold pulled. rewrite omap_app. by destruct e. Qed.
Lemma handed_snoc tr e : handed (tr ++ [e]) = handed tr ++ match e with Yielded c => [c] | _ => [] end.
Proof. unfold handed. rewrite omap_app. by destruct e. Qed.

Lemma tokens_of_app l k : tokens_of (l ++ k) = (tokens_of l + tokens_of k)%Z.
Proof. unfold tokens_of. rewrite foldr_app. induction l as [|c l IH]; simpl; lia. Qed.

Lemma last_prompt_snoc l c :
  last_prompt (l ++ [c]) = if (chunk_prompt_tokens c =? 0)%Z then last_prompt l else chunk_prompt_tokens c.
Proof. unfold last_prompt. by rewrite foldl_app. Qed.

Lemma append_nil_r s : (s ++ "" = s)%string.
Proof. induction s as [|c s IH]; [done|]. exact (f_equal (String c) IH). Qed.
Lemma append_assoc s1 s2 s3 : ((s1 ++ s2) ++ s3 = s1 ++ s2 ++ s3)%string.
Proof. induction s1 as [|c s IH]; [done|]. exact (f_equal (String c) IH). Qed.

Lemma texts_cons s l : texts (s :: l) = (s ++ texts l)%string.
Proof. unfold texts. destruct l; [symmetry; apply append_nil_r|done]. Qed.

Lemma texts_app l k : texts (l ++ k) = (texts l ++ texts k)%string.
Proof. induction l as [|s l IH]; [done|]. cbn [app]. rewrite !texts_cons, IH. by rewrite append_assoc. Qed.

Lemma texts_appended l s : texts (appended l s) = (texts l ++ s)%string.
Proof.
  unfold appended, nonempty. destruct (String.eqb_spec s "") as [->|]; simpl.
  - by rewrite append_nil_r.
  - by rewrite texts_app.
Qed.

Lemma holds_text_snoc t fw c : holds_text t fw → holds_text (observe t c) (fw ++ [c]).
Proof.
  intros (Hd&Hr&Hn). unfold holds_text. rewrite !fmap_app, sum_list_with_app. simpl.
  rewrite !texts_appended, !texts_app, Hd, Hr, Hn, Nat.add_0_r. by rewrite !texts_cons, !append_nil_r.
Qed.

Lemma existsb_snoc {A} (f : A → bool) l x : existsb f (l ++ [x]) = existsb f l || f x.
Proof. rewrite existsb_app. simpl. by rewrite orb_false_r. Qed.

(** ** The invariant of the loop *)

Section Accounting.
Context (dumps : json → string) (cfg : config) (a : generation) (n x : Z).
Hypothesis Hn : n = ceiling cfg a.
Abbreviation cobeys := (obeys clog (λ _ _ _ _, True) (λ tr R q, ∀ r, due dumps tr (clog R q r))).

(** What the session says of the text kept, the window having been open at some time. *)
Definition kept (tr : list cevent) (g : session) (fw : list CompletionChunk) : Prop :=
  match transcript g with
  | Some t => holds_text t fw ∧ ∃ now, Told now ∈ tr ∧ should_capture (g_actor a) now = true
  | None => True
  end.

(** While the stream is read: the chunks withheld so far are not terminal. *)
Definition reading (tr : list cevent) (g : session) : Prop :=
  ∃ withheld, split_at_ceiling n (pulled tr) (handed tr) withheld ∧
    length withheld = drained g ∧ drained g < TERMINAL_EVENT_DRAIN_LIMIT ∧
    produced g = tokens_of (handed tr) ∧ prompt_tokens g = last_prompt (pulled tr) ∧
    upstream_finished g = existsb finished (pulled tr) ∧
    (withheld ≠ [] → existsb finished (pulled tr) = false) ∧
    s_completed g = false ∧ (withheld ≠ [] → s_truncated g = true) ∧
    (s_truncated g = true → (n ≤ tokens_of (handed tr))%Z) ∧
    (s_truncated g = false → handed tr = [] ∨ (tokens_of (handed tr) < n)%Z) ∧
    Started a n x ∈ tr ∧ kept tr g (handed tr).

(** After it, however it ended; [whole] when it ended of itself. *)
Definition read_out (whole : bool) (tr : list cevent) (g : session) : Prop :=
  accounted n (pulled tr) (handed tr) (produced g) (prompt_tokens g) ∧ s_completed g = false ∧
  (whole = true → s_truncated g = false → delivered_whole n tr) ∧
  Started a n x ∈ tr ∧ kept tr g (handed tr).

Lemma drained_terminal_none read withheld :
  (withheld ≠ [] → existsb finished read = false) → drained_terminal read withheld = 0%Z.
Proof. unfold drained_terminal. destruct withheld as [|c w]; [done|]. intros ->; [|done]. by case_match. Qed.

Lemma kept_mono tr e g g' fw :
  transcript g' = transcript g → kept tr g fw → kept (tr ++ [e]) g' fw.
Proof.
  unfold kept. intros ->. destruct (transcript g); [|done]. intros (?&now&?&?). split; [done|].
  exists now. split; [set_solver|done].
Qed.

(** A call that brings no chunk leaves all of it as it is. *)
Lemma reading_mono tr e g :
  pulled (tr ++ [e]) = pulled tr → handed (tr ++ [e]) = handed tr → reading tr g → reading (tr ++ [e]) g.
Proof.
  intros Hp Hh (w&H). exists w. rewrite Hp, Hh. destruct H as (?&?&?&?&?&?&?&?&?&?&?&?&?).
  split_and!; try done; [set_solver|by apply (kept_mono _ _ g)].
Qed.

Lemma read_out_mono whole tr e g :
  pulled (tr ++ [e]) = pulled tr → handed (tr ++ [e]) = handed tr → read_out whole tr g → read_out whole (tr ++ [e]) g.
Proof.
  unfold read_out, delivered_whole. intros -> -> (?&?&?&?&?).
  split_and!; try done; [set_solver|by apply (kept_mono _ _ g)].
Qed.

Lemma read_out_any whole tr g : read_out true tr g → read_out whole tr g.
Proof. intros (?&?&Hw&?&?). split_and!; try done. intros _. by apply Hw. Qed.

(** The stream may end at any read. *)
Lemma reading_ends tr g whole : reading tr g → read_out whole tr g.
Proof.
  intros (w&Hs&Hl&_&Hpr&Hpt&_&Hfin&Hc&Hw&_&Hst&Hin&Hk). split_and!; [|done| |done|done].
  - exists w. split_and!; [done| |done]. rewrite drained_terminal_none by done. lia.
  - intros _ Ht. destruct Hs as (Hr&_). destruct w as [|c w]; [|exfalso; by rewrite Hw in Ht].
    rewrite app_nil_r in Hr. unfold delivered_whole. rewrite Hr. split; [done|]. auto.
Qed.

Definition loop_post (o : cexn + bool) (s : self) (tr : list cevent) : Prop :=
  match o with
  | inr true => reading tr (s_gen s)
  | inr false => read_out true tr (s_gen s)
  | inl _ => read_out false tr (s_gen s)
  end.

(** A chunk has been read, and nothing done with it yet. *)
Definition holding (c : CompletionChunk) (tr : list cevent) (s : self) : Prop :=
  ∃ tr0 g, reading tr0 g ∧ s_gen s = noted c g ∧ pulled tr = pulled tr0 ++ [c] ∧ handed tr = handed tr0 ∧
    ∀ e, e ∈ tr0 → e ∈ tr.

Lemma kept_incl tr tr' g g' fw :
  (∀ e, e ∈ tr → e ∈ tr') → transcript g' = transcript g → kept tr g fw → kept tr' g' fw.
Proof.
  unfold kept. intros Hi ->. destruct (transcript g); [|done]. intros (?&now&?&?). split; [done|]. exists now. auto.
Qed.

Lemma drain_obeys c s tr :
  holding c tr s → s_truncated (s_gen s) = true → cobeys (drain c) loop_post s tr.
Proof.
  intros (tr0&g&(w&Hs&Hl&Hd&Hpr&Hpt&Hup&Hfin&Hc&Hw&Htr&Hst&Hin&Hk)&Hg&Hp&Hh&Hincl) Ht.
  destruct s as [g0 cur]. simpl in Hg, Ht. subst g0. simpl in Ht. unfold drain, gen_of, update_gen. walk_calls.
  destruct Hs as (Hr&Hlen&Hw'&Htake).
  assert (split_at_ceiling n (pulled tr) (handed tr) (w ++ [c])) as Hs'.
  { unfold split_at_ceiling. rewrite Hp, Hh, Hr, app_assoc, length_app. simpl. split_and!; [done|lia| |done]. intros _. by apply Htr. }
  assert (kept tr (noted c g) (handed tr)) as Hk' by (rewrite Hh; by apply (kept_incl tr0 _ g)).
  assert (existsb finished (pulled tr) = upstream_finished g || finished c) as Hup' by (rewrite Hp, existsb_snoc, Hup; done).
  assert (last_prompt (pulled tr) = prompt_tokens (noted c g)) as Hpt'.
  { rewrite Hp, last_prompt_snoc. simpl. by rewrite Hpt. }
  cbn [s_gen noted upstream_finished]. destruct (upstream_finished g || finished c) eqn:Hu; walk_calls.
  - unfold loop_post, read_out. simpl. split_and!; [|done|by rewrite Ht|by apply Hincl|done].
    exists (w ++ [c]). split_and!; [done| |done]. unfold drained_terminal.
    rewrite last_snoc, Hup', Hh, Hpr. done.
  - assert (∀ g', produced g' = produced g → prompt_tokens g' = prompt_tokens (noted c g) → s_completed g' = false →
      s_truncated g' = true → transcript g' = transcript g → read_out true tr g') as Hout.
    { intros g' H1 H2 H3 H4 H5. split_and!; [|done|by rewrite H4|by apply Hincl|by apply (kept_incl tr _ (noted c g))].
      exists (w ++ [c]). split_and!; [done| |by rewrite H2]. rewrite drained_terminal_none by done.
      rewrite H1, Hh, Hpr. lia. }
    cbn [s_gen noted drained]. destruct (TERMINAL_EVENT_DRAIN_LIMIT <=? S (drained g)) eqn:Hlim.
    + by apply Hout.
    + apply Nat.leb_gt in Hlim. exists (w ++ [c]). rewrite length_app. simpl. rewrite Hh in *.
      split_and!; auto; first [lia|by rewrite Hu|by rewrite Ht|done].
Qed.

Lemma past_deadline_obeys s tr Q :
  (∀ b t, (t = tr ∨ t = tr ++ [Other]) → Q (inr b) s t) → cobeys (past_deadline cfg) Q s tr.
Proof.
  intros HQ. unfold past_deadline, gen_of. destruct (_ <=? _)%Z; walk_calls; [by apply HQ; left|].
  split; [done|]. intros now _. apply HQ. by right.
Qed.

Lemma forward_obeys c s tr :
  holding c tr s → s_truncated (s_gen s) = false → cobeys (forward cfg a c) loop_post s tr.
Proof.
  intros (tr0&g&(w&Hs&Hl&Hd&Hpr&Hpt&Hup&Hfin&Hc&Hw&Htr&Hst&Hin&Hk)&Hg&Hp&Hh&Hincl) Ht.
  destruct s as [g0 cur]. simpl in Hg, Ht. subst g0. simpl in Ht. unfold forward, gen_of, update_gen. walk_calls.
  destruct w as [|c' w]; [|by rewrite Hw in Ht]. destruct Hs as (Hr&_&_&Htake). rewrite app_nil_r in Hr.
  split; [done|]. set (g1 := forwarding c (noted c g)).
  assert (∀ r, let tr' := tr ++ [clog _ (EYield c) r] in
    split_at_ceiling n (pulled tr') (handed tr') [] ∧ handed tr' = handed tr0 ++ [c] ∧ pulled tr' = handed tr0 ++ [c] ∧
    produced g1 = tokens_of (handed tr') ∧ prompt_tokens g1 = last_prompt (pulled tr') ∧
    Started a n x ∈ tr' ∧ kept tr' g1 (handed tr')) as Hnow.
  { intros r tr'. subst tr'. rewrite pulled_snoc, handed_snoc. cbn [clog]. rewrite app_nil_r, Hp, Hh, Hr.
    split_and!; try done.
    - unfold split_at_ceiling. rewrite app_nil_r. split_and!; [done|simpl; lia|done|].
      intros k Hk0. rewrite length_app in Hk0. simpl in Hk0. rewrite take_app_le by lia.
      destruct (decide (k = length (handed tr0))) as [->|]; [|apply Htake; lia].
      rewrite take_ge by done. destruct (Hst Ht) as [Hnil|]; [|done]. rewrite Hnil in Hk0. simpl in Hk0. lia.
    - simpl. rewrite tokens_of_app, Hpr. simpl. lia.
    - simpl. rewrite last_prompt_snoc, Hpt, Hr. done.
    - apply elem_of_app. left. by apply Hincl.
    - unfold kept in Hk |- *. simpl. destruct (transcript g); [|done]. simpl. destruct Hk as (Hk&now&Hnow&?).
      split; [by apply holds_text_snoc|]. exists now. split; [|done]. apply elem_of_app. left. by apply Hincl. }
  assert (∀ r g', produced g' = produced g1 → prompt_tokens g' = prompt_tokens g1 → transcript g' = transcript g1 →
    s_completed g' = false → ∀ whole, (whole = true → s_truncated g' = true) →
    read_out whole (tr ++ [clog _ (EYield c) r]) g') as Hout.
  { intros r g' H1 H2 H3 H4 whole Hwh. destruct (Hnow r) as (Hs'&_&_&Hp'&Hpt'&Hin'&Hk').
    split_and!; [|done| |done|by apply (kept_incl (tr ++ [clog _ (EYield c) r]) _ g1)].
    - exists []. split_and!; [done| |by rewrite H2]. rewrite drained_terminal_none by done. rewrite H1, Hp'. lia.
    - intros Hw1 Hw2. by rewrite Hwh in Hw2. }
  assert (∀ r g', produced g' = produced g1 → prompt_tokens g' = prompt_tokens g1 → transcript g' = transcript g1 →
    upstream_finished g' = upstream_finished g1 → drained g' = drained g1 →
    s_completed g' = false → (s_truncated g' = true → (n ≤ produced g1)%Z) → (s_truncated g' = false → (produced g1 < n)%Z) →
    reading (tr ++ [clog _ (EYield c) r]) g') as Hgo.
  { intros r g' H1 H2 H3 H4 H5 H6 H7 H8. destruct (Hnow r) as (Hs'&_&Hpu&Hp'&Hpt'&Hin'&Hk').
    exists []. rewrite H1, H2, H4, H5, <- Hp'. split_and!;
      first [done|by auto|by rewrite Hpu, existsb_snoc, <- Hr, <- Hup|by apply (kept_incl (tr ++ [clog _ (EYield c) r]) _ g1)]. }
  intros [e|[]] _; walk_calls; [by apply Hout|].
  cbn [s_gen s_current]. fold g1. rewrite <- Hn.
  destruct (n <=? produced g1)%Z eqn:Hce; walk_calls.
  - apply Z.leb_le in Hce. by apply Hgo.
  - apply Z.leb_gt in Hce. apply obeys_bind, past_deadline_obeys. intros b t Htl.
    destruct b; walk_calls; destruct Htl as [->| ->].
    + by apply Hout.
    + apply read_out_mono; [by rewrite pulled_snoc, app_nil_r|by rewrite handed_snoc, app_nil_r|]. by apply Hout.
    + apply Hgo; simpl; try done; by rewrite Ht.
    + apply reading_mono; [by rewrite pulled_snoc, app_nil_r|by rewrite handed_snoc, app_nil_r|].
      apply Hgo; simpl; try done; by rewrite Ht.
Qed.
Lemma on_chunk_obeys cur c s tr :
  reading tr (s_gen s) → cobeys (on_chunk cfg a c) loop_post s (tr ++ [Pulled cur c]).
Proof.
  intros H. destruct s as [g cu]. simpl in H.
  assert (∀ tr1 g1, reading tr g1 → pulled tr1 = pulled tr ++ [c] → handed tr1 = handed tr → (∀ e, e ∈ tr → e ∈ tr1) →
    s_truncated g1 = s_truncated g →
    cobeys (if s_truncated g then drain c else forward cfg a c) loop_post (mk_self (noted c g1) cu) tr1) as Hrest.
  { intros tr1 g1 H1 Hp Hh Hi Ht. assert (holding c tr1 (mk_self (noted c g1) cu)) as Hc by (exists tr, g1; by split_and!).
    destruct (s_truncated g) eqn:Hg; [apply drain_obeys|apply forward_obeys]; done. }
  unfold on_chunk, gen_of, update_gen. walk_calls. cbn [s_gen s_current].
  destruct (generating_since g); walk_calls; cbn [s_gen s_current].
  - apply Hrest; [done|by rewrite pulled_snoc|by rewrite handed_snoc, app_nil_r|set_solver|done].
  - split; [done|]. intros now _. apply (Hrest _ (at_chunk now g)); [done| | |set_solver|done].
    + by rewrite !pulled_snoc, app_nil_r.
    + by rewrite !handed_snoc, !app_nil_r.
Qed.

Lemma pull_loop_obeys reads s tr :
  reading tr (s_gen s) →
  cobeys (pull_loop cfg a reads)
    (λ o s' tr', read_out (match o with inr _ => true | inl _ => false end) tr' (s_gen s')) s tr.
Proof.
  revert s tr. induction reads as [|reads IH]; intros s tr H; [by apply reading_ends|]. cbn [pull_loop].
  unfold pull. walk_calls. split; [by intros [e|[c|]]|].
  assert (∀ e, pulled (tr ++ [e]) = pulled tr → handed (tr ++ [e]) = handed tr → ∀ w, read_out w (tr ++ [e]) (s_gen s)) as Hend
    by (intros e ? ? w; by apply reading_ends, reading_mono).
  intros [e|[c|]] _; walk_calls.
  - apply Hend; by rewrite ?pulled_snoc, ?handed_snoc, app_nil_r.
  - apply obeys_bind. eapply obeys_mono; [|by apply on_chunk_obeys].
    intros [e|[]] s' tr' H'; cbn [loop_post] in H'; walk_calls; [done|by apply IH|done].
  - apply Hend; by rewrite ?pulled_snoc, ?handed_snoc, app_nil_r.
Qed.

(** The stream is closed: what the records may say. *)
Definition closed_out (tr : list cevent) (g : session) : Prop :=
  ∃ fw, handed_over tr fw ∧ accounted n (pulled tr) fw (produced g) (prompt_tokens g) ∧
    (s_completed g = true → delivered_whole n tr) ∧ Started a n x ∈ tr ∧ kept tr g fw.

Lemma read_out_closed tr g : read_out false tr g → closed_out tr g.
Proof. intros (?&Hc&_&?&?). exists (handed tr). split_and!; try done; [by left|]. by rewrite Hc. Qed.

Lemma closed_out_mono tr e g :
  pulled (tr ++ [e]) = pulled tr → handed (tr ++ [e]) = handed tr → closed_out tr g → closed_out (tr ++ [e]) g.
Proof.
  intros Hp Hh (fw&?&?&?&?&?). exists fw. unfold handed_over, delivered_whole in *. rewrite Hp, Hh.
  split_and!; try done; [set_solver|by apply (kept_mono _ _ g)].
Qed.

Lemma stream_out_obeys t s tr :
  x = profile_context (resource_profile (g_target a)) →
  pulled tr = [] → handed tr = [] → s_gen s = new_session t → kept tr (new_session t) [] →
  cobeys (stream_out cfg a) (λ _ s' tr', closed_out tr' (s_gen s')) s tr.
Proof.
  intros Hx Hp Hh Hg Hk. unfold stream_out, gen_of, update_gen. walk_calls. split; [done|]. intros reads _.
  rewrite <- Hn, <- Hx. cbn [clog]. apply obeys_bind, obeys_finally.
  eapply obeys_mono; [|apply pull_loop_obeys]; [|].
  2: { rewrite Hg. exists []. unfold split_at_ceiling. rewrite pulled_snoc, handed_snoc, Hp, Hh. simpl.
       split_and!; first [done|unfold TERMINAL_EVENT_DRAIN_LIMIT; lia|intros; lia|by left|set_solver|by apply (kept_mono _ _ (new_session t))]. }
  intros o s' tr' H'. walk_calls. split; [done|]. intros r _.
  assert (∀ w, read_out w tr' (s_gen s') → read_out w (tr' ++ [Closed]) (s_gen s')) as Hc.
  { intros w. apply read_out_mono; [by rewrite pulled_snoc, app_nil_r|by rewrite handed_snoc, app_nil_r]. }
  assert (closed_out (tr' ++ [Closed]) (s_gen s')) as Hclosed.
  { apply read_out_closed, Hc. destruct o; [done|]. by apply read_out_any. }
  destruct r as [e|[]]; walk_calls; [done|]. destruct o as [e|[]]; [done|]. walk_calls. cbn [clog].
  destruct (Hc _ H') as (Hacc&_&Hwhole&Hin&Hkept).
  destruct (s_truncated (s_gen s') && negb (forwarded_terminal (s_gen s'))) eqn:Hb; walk_calls; cbn [s_gen].
  - apply andb_true_iff in Hb as [Ht _]. split; [done|]. intros r _. cbn [clog].
    set (tr2 := (tr' ++ [Closed]) ++ [Yielded length_chunk]).
    assert (handed tr2 = handed (tr' ++ [Closed]) ++ [length_chunk]) as Hh2 by (unfold tr2; by rewrite (handed_snoc _ (Yielded _))).
    assert (pulled tr2 = pulled (tr' ++ [Closed])) as Hp2 by (unfold tr2; by rewrite (pulled_snoc _ (Yielded _)), app_nil_r).
    assert (∀ g', produced g' = produced (s_gen s') → prompt_tokens g' = prompt_tokens (s_gen s') →
      s_completed g' = false → transcript g' = transcript (s_gen s') → closed_out tr2 g') as Hout.
    { intros g' H1 H2 H3 H4. exists (handed (tr' ++ [Closed])). rewrite Hp2, H1, H2, H3. split_and!; try done.
      - by right.
      - unfold tr2. set_solver.
      - by apply (kept_mono _ _ (s_gen s')). }
    destruct r as [e|[]]; walk_calls; cbn [s_gen]; apply Hout; try done; simpl; [|by rewrite Ht].
    by destruct H' as (_&->&_).
  - exists (handed (tr' ++ [Closed])). simpl. split_and!; try done; [by left|].
    intros Hcomp%negb_true_iff. by apply Hwhole.
Qed.
Lemma logged_obeys (p : cprog unit) (Q : cexn + unit → self → list cevent → Prop) s tr :
  cobeys p (λ o s' tr', Q o s' tr' ∧ Q (inr tt) s' tr') s tr → cobeys (logged p) Q s tr.
Proof.
  intros H. apply obeys_catch. eapply obeys_mono; [|exact H]. intros [e|[]] s' tr' [H1 H2]; [|done].
  by destruct (is_exception e).
Qed.

(** A call that is no record leaves the account as it is. *)
Ltac same_account := by rewrite ?pulled_snoc, ?handed_snoc, ?app_nil_r.

Lemma record_obeys started s tr :
  closed_out tr (s_gen s) →
  cobeys (match g_attempt a with
     | Some attempt => if cf_binder cfg && cf_settles cfg then settle_attempt (ai_op attempt) else record_usage a started
     | None => record_usage a started end)
    (λ _ s' tr', closed_out tr' (s_gen s')) s tr.
Proof.
  intros H.
  assert (cobeys (record_usage a started) (λ _ s' tr', closed_out tr' (s_gen s')) s tr) as Hr.
  { unfold record_usage, gen_of. walk_calls. split; [done|]. intros id _. split; [done|]. intros now _.
    split; [done|]. intros at_ _. walk_calls. apply logged_obeys. walk_calls. cbn [clog].
    set (tr3 := ((tr ++ [Other]) ++ [Other]) ++ [Told at_]).
    assert (closed_out tr3 (s_gen s)) as H3 by (unfold tr3; repeat (apply closed_out_mono; [same_account..|]); done).
    split.
    - intros r. destruct H3 as (fw&?&?&?&?&?). exists a, n, x, fw. by split_and!.
    - intros [e|[]] _; walk_calls; split; (apply closed_out_mono; [same_account..|done]). }
  destruct (g_attempt a) as [attempt|] eqn:Hat; [|done]. destruct (cf_binder cfg && cf_settles cfg); [|done].
  unfold settle_attempt, gen_of. walk_calls. apply logged_obeys. walk_calls. cbn [clog]. split.
  - intros r. destruct H as (fw&?&?&?&?&?). exists a, n, x. split_and!; [done|by rewrite Hat|done].
  - assert (∀ b ok, closed_out (tr ++ [Delivered (ai_op attempt) b ok]) (s_gen s)) as Hd
      by (intros b ok; apply closed_out_mono; [same_account..|done]).
    intros [e|[]] _; walk_calls; [by split|]. split; [done|].
    intros [e|[]] _; walk_calls; cbn [clog]; split; (apply closed_out_mono; [same_account..|apply Hd]).
Qed.

Lemma finalize_obeys started s tr :
  closed_out tr (s_gen s) → cobeys (finalize_generation dumps cfg a started) (λ _ _ _, True) s tr.
Proof.
  intros H. unfold finalize_generation, gen_of. apply obeys_bind.
  eapply obeys_mono; [|by apply record_obeys]. intros [e|[]] s' tr' H'; [done|]. walk_calls.
  destruct (transcript (s_gen s')) as [t|] eqn:Ht; [|done]. destruct (cf_prompt_logs cfg); [|done].
  unfold log_transcript, gen_of. apply logged_obeys. walk_calls. cbn [clog].
  split; [done|]. intros at_ _. split; [done|]. intros rid _. split; [done|]. intros id _. walk_calls.
  set (tr3 := ((tr' ++ [Told at_]) ++ [Other]) ++ [Other]).
  assert (closed_out tr3 (s_gen s')) as H3 by (unfold tr3; repeat (apply closed_out_mono; [same_account..|]); done).
  split; [|by intros [e|[]] _]. intros r0. destruct H3 as (fw&Hh&_&_&Hin&Hk). unfold kept in Hk. rewrite Ht in Hk.
  destruct Hk as ((Hd&Hr&Hc)&now&Hnow&Hcap). exists a, n, x, fw, now. split_and!; try done.
  unfold transcribes, build. cbn [e_messages e_completion e_reasoning e_calls e_actor e_alias].
  unfold texts in Hd, Hr. by rewrite Hd, Hr.
Qed.

Lemma generate_obeys s tr :
  x = profile_context (resource_profile (g_target a)) → pulled tr = [] → handed tr = [] →
  cobeys (generate dumps cfg a) (λ _ _ _, True) s tr.
Proof.
  intros Hx Hp Hh.
  assert (∀ t s tr, pulled tr = [] → handed tr = [] → kept tr (new_session t) [] →
    cobeys (let! _ := update_gen (λ _, new_session t) in let! started := ask EMonotonic in
      finally (stream_out cfg a) (finalize_generation dumps cfg a started)) (λ _ _ _, True) s tr) as Hrest.
  { intros t s0 tr0 Hp0 Hh0 Hk. unfold update_gen. walk_calls. split; [done|]. intros started _. apply obeys_finally.
    eapply obeys_mono; [|apply (stream_out_obeys t); try done].
    - intros o s' tr' H'. eapply obeys_mono; [|by apply finalize_obeys]. by intros [e|[]].
    - by rewrite pulled_snoc, app_nil_r.
    - by rewrite handed_snoc, app_nil_r.
    - by apply (kept_mono _ _ (new_session t)). }
  unfold generate, open_transcript. destruct (cf_prompt_logs cfg); [|by apply Hrest].
  walk_calls. split; [done|]. intros now _. walk_calls. apply Hrest.
  - by rewrite pulled_snoc, app_nil_r.
  - by rewrite handed_snoc, app_nil_r.
  - unfold kept. simpl. destruct (should_capture (g_actor a) now) eqn:Hc; [|done]. simpl. split; [done|].
    exists now. split; [apply elem_of_app; right; by left|done].
Qed.
End Accounting.
