(* ===== verification/ChatRoute.v ===== *)
(** The chat use case, from a request to its generation
    ([route_chat_request/orchestrator.py], [guardrails.py], [estimates.py],
    [compaction_admission.py], [domain/ports/model_runtime_port.py]).

    [execute] is the whole method: it authorises, refuses what no model could read,
    takes a slot, routes, counts, compacts when the key allows it, judges the prompt
    against the window of the model chosen, binds the request and runs the generation
    of [Generation].  The theorems: nothing is sent that was not counted and does not
    fit, with its answer, in a window the weights declare; nothing is compacted
    silently; the slot is held for all of it and given back; and every generation is
    billed once. *)

From S2P Require Import Binding.
From S2P Require Export Generation.
From stdpp Require Import pretty.

(** * The bound before a model is chosen, and the refusal's breakdown *)

Definition fdiv (x y : spec_float) : spec_float := SFdiv 53 1024 x y.
Definition FLOOR_ASCII_CHARS_PER_TOKEN : spec_float := float_of 8.
Definition FLOOR_WIDE_CHARS_PER_TOKEN : spec_float := binary_normalize 53 1024 7 (-1) false.

(** The length of the UTF-8 text: two bytes for a code point of 128 to 255. *)
Definition utf8_length (text : string) : Z :=
  foldl (λ n c, (n + if is_ascii c then 1 else 2)%Z) 0%Z (String.list_ascii_of_string text).

Definition floor_tokens (text : string) : spec_float :=
  let len := Z.of_nat (String.length text) in
  if forallb is_ascii (String.list_ascii_of_string text)
  then fdiv (float_of len) FLOOR_ASCII_CHARS_PER_TOKEN
  else
    let wide := fdiv (float_of (utf8_length text - len)) (float_of 3) in
    fadd (fdiv (fsub (float_of len) wide) FLOOR_ASCII_CHARS_PER_TOKEN) (fdiv wide FLOOR_WIDE_CHARS_PER_TOKEN).

Section Estimates.
Context (dumps : dict → string).

Definition floor_prompt_tokens (messages : list Message) (tools : list ToolDefinition) : Z :=
  let contents := py_sum ((λ m, floor_tokens (content m)) <$> messages) in
  let calls := py_sum ((λ c, fadd (floor_tokens (tc_name c)) (floor_tokens (tc_arguments c)))
                         <$> (messages ≫= tool_calls)) in
  let definitions := py_sum ((λ t, fadd (fadd (floor_tokens (tool_name t)) (floor_tokens (tool_description t)))
                                     (floor_tokens (dumps (tool_parameters t)))) <$> tools) in
  py_int (fadd (fadd contents calls) definitions).

Definition composition_parts (messages : list Message) (tools : list ToolDefinition) : list string :=
  (content <$> messages) ++
  ((λ m, String.concat "" ((λ c, tc_name c ++ tc_arguments c)%string <$> tool_calls m)) <$> messages) ++
  ((λ t, tool_name t ++ tool_description t ++ dumps (tool_parameters t))%string <$> tools).

(** [max(..., default=0)] *)
Definition py_max_int (l : list Z) : Z := match l with [] => 0%Z | x :: l => foldl Z.max x l end.

(** [None] where Python raises [IndexError]. *)
Definition describe_prompt_composition (messages : list Message) (tools : list ToolDefinition) (counts : list Z)
    : option string :=
  let turns := length messages in
  let message_tokens := py_sum_int (take turns counts) in
  let call_tokens := py_sum_int (take turns (drop turns counts)) in
  let tool_tokens := py_sum_int (drop (2 * turns) counts) in
  turn_tokens ← mapM (λ i, x ← counts !! i; y ← counts !! (turns + i); Some (x + y)%Z) (seq 0 turns);
  let largest := py_max_int turn_tokens in
  let total := (message_tokens + call_tokens + tool_tokens)%Z in
  let share := if (total =? 0)%Z then ""%string else (", " ++ pretty (100 * largest / total)%Z ++ "% of the whole")%string in
  Some ("~" ++ pretty message_tokens ++ " in " ++ decimal turns ++ " messages (largest turn ~" ++ pretty largest ++
        share ++ "), ~" ++ pretty call_tokens ++ " in prior tool calls, ~" ++ pretty tool_tokens ++ " in " ++
        decimal (length tools) ++ " tool definitions")%string.

Definition floor_composition (messages : list Message) (tools : list ToolDefinition) : option string :=
  describe_prompt_composition messages tools ((λ p, py_int (floor_tokens p)) <$> composition_parts messages tools).
End Estimates.

(** * The use case *)

(** The arguments of [execute]. *)
Record request := mk_request {
  q_actor : Actor; q_capability : string; q_messages : list Message; q_max_tokens : option Z;
  q_thinking : option bool; q_tools : list ToolDefinition; q_choice : option ToolChoice;
  q_sampling : option SamplingOptions; q_identity : option RequestIdentity
}.

(** What is sent to the model, and how it was counted. *)
Record prompt := mk_prompt {
  p_messages : list Message; p_tools : list ToolDefinition; p_count : Z; p_counted_by : count_basis;
  p_compaction : option CompactionResult
}.

Definition kind_value (k : RuntimeKind) : string :=
  match k with OLLAMA => "ollama" | MLX => "mlx" | VLLM => "vllm" | LLAMACPP => "llamacpp" end.

(** [{m.alias: m for m in models}]: the last of a key stays. *)
Definition by_alias (l : list Model) : gmap string Model := foldl (λ d m, <[alias m := m]> d) ∅ l.
Definition by_id (l : list Node) : gmap string Node := foldl (λ d n, <[node_id n := n]> d) ∅ l.

Definition or_index_error (o : option string) : cprog string :=
  match o with Some s => Pure s | None => Throw OtherError end.

Section Route.
(** [json.dumps] of a tool's parameters; with [ensure_ascii=False] and narrow
    separators; and with narrow separators alone, which [loads] reads. *)
Context (dumps_params : dict → string) (dumps_raw dumps_cache : json → string) (loads : string → option json).
Context (sha256 : string → string) (isoformat : Z → string) (ellipsis dash : Ascii.ascii) (cfg : config).

(** ** Counting and judging *)

Definition estimated_composition (messages : list Message) (tools : list ToolDefinition) : option string :=
  describe_prompt_composition messages tools (estimated_tokens <$> composition_parts dumps_params messages tools).

Definition count_prompt (target : Model) (messages : list Message) (tools : list ToolDefinition)
    : cprog (Z * count_basis) :=
  let! counted := (if cf_tokens cfg then invoke (ECount (model_ref target) messages tools) else Pure None) in
  match counted with
  | Some n => Pure (n, COUNT_BY_TOKENIZER)
  | None => Pure ((estimated_prompt_tokens dumps_params messages tools).1, COUNT_BY_ESTIMATE)
  end.

Definition prompt_composition (target : Model) (messages : list Message) (tools : list ToolDefinition)
    (basis : count_basis) : cprog string :=
  let! counts := (if bool_decide (basis = COUNT_BY_TOKENIZER) && cf_tokens cfg
                  then invoke (EParts (model_ref target) (composition_parts dumps_params messages tools))
                  else Pure None) in
  or_index_error match counts with
    | Some counts => describe_prompt_composition messages tools counts
    | None => estimated_composition messages tools
    end.

(** The port's methods an adapter has decide how its context is read. *)
Definition read_capacity (adapter : option capacity_read) (r : string) (manifest : option string) : cprog json :=
  match adapter with
  | Some pinned_read => invoke (ECapacity pinned_read r manifest)
  | Some plain_read => invoke (ECapacity plain_read r None)
  | _ => if cf_tokens cfg then invoke (ECapacity colocated_read r None) else Pure JNull
  end.

(** [value if isinstance(value, int) and not isinstance(value, bool) and value > 0 else None] *)
Definition positive_int (v : json) : option Z :=
  match v with JInt z => if (0 <? z)%Z then Some z else None | _ => None end.

Definition declared_context_for (adapter : option capacity_read) (r : string) (manifest : option string)
    : cprog (option Z) :=
  let! v := catch (read_capacity adapter r manifest)
              (λ e, if is_exception e then Pure JNull else Throw e) in
  Pure (positive_int v).

Definition effective_window (target : Model) (n : option Node) : cprog Z :=
  let registered := profile_context (resource_profile target) in
  let adapter := match n with Some n => cf_runtimes cfg (Some n) (runtime target) | None => None end in
  let! declared := declared_context_for adapter (model_ref target) (model_digest target) in
  match declared with
  | Some d => if (0 <? registered)%Z then Pure (Z.min registered d) else Throw NoAvailableModel
  | None => Throw NoAvailableModel
  end.

(** The catalogue's entry for what was measured. *)
Definition measured_profile (n : Node) (target : Model) (version : string) (tools : list ToolDefinition)
    (thinking : bool) (m : Measurement) : option (Z * ValidatedProfile) :=
  id ← Guard.identity m; count ← Guard.counted m; encoder ← Guard.m_encoder m; renderer ← Guard.m_renderer m;
  p ← is_validated (mk_key (node_id n) (kind_value (runtime target)) version id encoder renderer
        (negb (bool_decide (tools = []))) (wire_thinking thinking)) None;
  Some (count, p).

Definition widened_window (target : Model) (n : option Node) (messages : list Message)
    (tools : list ToolDefinition) (thinking : bool) : cprog (option (Z * Z * ValidatedProfile)) :=
  match n with
  | Some n =>
      if cf_tokens cfg && cf_measures cfg then
        let! now := ask ENow in
        match fresh_version (runtime_version n) (runtime_version_at n) now with
        | None => Pure None
        | Some version =>
            let! m := invoke (EMeasure (model_ref target) messages tools) in
            match measured_profile n target version tools thinking m, Guard.declared_context m with
            | Some (count, p), Some declared =>
                if (declared <=? 0)%Z then Pure None
                else
                  let registered := profile_context (resource_profile target) in
                  Pure (Some (if (0 <? registered)%Z then Z.min registered declared else declared, count, p))
            | _, _ => Pure None
            end
        end
      else Pure None
  | None => Pure None
  end.

Definition prompt_budget (counted : Z) (basis : count_basis) (target : Model) (messages : list Message)
    (tools : list ToolDefinition) (max_tokens : option Z) (n : option Node) (thinking : bool)
    : cprog (Z * Z * option string) :=
  let! window := effective_window target n in
  let output := effective_max_tokens max_tokens (cf_max_tokens cfg) in
  let limit := servable window output (negb (bool_decide (runtime target = OLLAMA))) in
  if negb (bool_decide (basis = COUNT_BY_TOKENIZER)) then Pure ((limit / 3)%Z, counted, None)
  else if (limit <? counted)%Z && bool_decide (runtime target = OLLAMA) then
    let! w := widened_window target n messages tools thinking in
    match w with
    | Some (window, count, p) => Pure (servable window output true, Z.max counted count, Some (Guard.ref p))
    | None => Pure (limit, counted, None)
    end
  else Pure (limit, counted, None).

Definition refuse_what_this_target_would_truncate (counted : Z) (basis : count_basis) (target : Model)
    (messages : list Message) (tools : list ToolDefinition) (max_tokens : option Z) (n : option Node) (thinking : bool)
    : cprog (option WidenedAdmission) :=
  let! b := prompt_budget counted basis target messages tools max_tokens n thinking in
  let '(limit, judged, profile) := b in
  if (judged <=? limit)%Z && (0 <? limit)%Z then
    Pure match profile with Some p => Some (mk_widened p judged limit) | None => None end
  else
    let! composition := prompt_composition target messages tools basis in
    Throw (ContextTooLongError judged limit composition basis).

(** ** Compaction within its bounds *)

Definition payload_exceeds (messages : list Message) (tools : list ToolDefinition) (limit : Z) : bool :=
  (limit <? utf8_length (dumps_raw (JObj [("messages", JArr (encode_message <$> messages));
                                          ("tools", JArr (encode_tool <$> tools))])))%Z.

Definition recount (target : Model) (messages : list Message) (tools : list ToolDefinition) : cprog (option Z) :=
  let! c := count_prompt target messages tools in Pure (Some c.1).

Definition cache_ports :=
  if cf_cached cfg then
    Some (Compaction.get loads sha256 (λ k, invoke (ECacheGet k) : cprog _) (λ _, OtherError),
          Compaction.put dumps_cache sha256 (λ k v ttl, invoke (ECacheSet k v ttl) : cprog _))
  else None.

(** The tiers, and the count of what they leave. *)
Definition compact (target : Model) (messages : list Message) (tools : list ToolDefinition) (counted limit : Z)
    : cprog (option (CompactionResult * Z * count_basis)) :=
  let! first := try_compact ellipsis dash (recount target) messages tools counted limit in
  let! result :=
    match first with
    | Some r => Pure (Some r)
    | None => if cf_summarises cfg
              then try_tier2 (recount target) (λ l, invoke (ESummarise l)) cache_ports messages tools counted limit
              else Pure None
    end in
  match result with
  | None => Pure None
  | Some r => let! c := count_prompt target (c_messages r) (c_tools r) in Pure (Some (r, c.1, c.2))
  end.

(** Any failure but a busy summary slot is a refusal. *)
Definition compact_or_refuse (target : Model) (messages : list Message) (tools : list ToolDefinition)
    (counted limit : Z) : cprog (option (CompactionResult * Z * count_basis)) :=
  catch (compact target messages tools counted limit)
    (λ e, match e with ServerOverloadedError => Throw e | Cancelled => Throw e | _ => Pure None end).

Section Request.
Context (q : request).

Definition resolve_thinking (p : RoutingPolicy) : bool :=
  match q_thinking q with
  | Some b => b
  | None => default (cf_thinking cfg) (policy_thinking p)
  end.

(** The limit the prompt is held against before compaction, and its count. *)
Definition judged_limit (counted : Z) (basis : count_basis) (target : Model) (n : option Node) (thinking : bool)
    : cprog (Z * Z) :=
  if compaction_enabled (q_actor q) then
    let! b := prompt_budget counted basis target (q_messages q) (q_tools q) (q_max_tokens q) n thinking in
    Pure (Z.min (cf_max_context cfg) b.1.1, Z.max counted b.1.2)
  else Pure (cf_max_context cfg, counted).

Definition fit_prompt (target : Model) (n : option Node) (thinking : bool) (floor : Z) : cprog prompt :=
  let! c := count_prompt target (q_messages q) (q_tools q) in
  let! l := judged_limit c.1 c.2 target n thinking in
  let limit := l.1 in let counted := l.2 in
  if (counted <=? limit)%Z then Pure (mk_prompt (q_messages q) (q_tools q) counted c.2 None)
  else
    let! r := (if compaction_enabled (q_actor q) && (0 <? limit)%Z
               then compact_or_refuse target (q_messages q) (q_tools q) counted limit
               else Pure None) in
    match r with
    | Some (r, counted, basis) =>
        let! _ := ask (EReport (to_disclosure r)) in
        Pure (mk_prompt (c_messages r) (c_tools r) counted basis (Some r))
    | None =>
        if (cf_max_context cfg <? floor)%Z then
          let! composition := or_index_error (floor_composition dumps_params (q_messages q) (q_tools q)) in
          Throw (ContextTooLongError floor (cf_max_context cfg) composition COUNT_BY_LOWER_BOUND)
        else
          let! composition := prompt_composition target (q_messages q) (q_tools q) c.2 in
          Throw (ContextTooLongError counted limit composition c.2)
    end.

(** The prompt as it will be sent, judged twice. *)
Definition admit_prompt (target : Model) (n : option Node) (thinking : bool) (floor : Z)
    : cprog (prompt * option WidenedAdmission) :=
  let! p := fit_prompt target n thinking floor in
  if (cf_max_context cfg <? p_count p)%Z then
    let! composition := prompt_composition target (p_messages p) (p_tools p) (p_counted_by p) in
    Throw (ContextTooLongError (p_count p) (cf_max_context cfg) composition (p_counted_by p))
  else
    let! w := refuse_what_this_target_would_truncate (p_count p) (p_counted_by p) target
                (p_messages p) (p_tools p) (q_max_tokens q) n thinking in
    Pure (p, w).

(** ** The route *)

Definition require_chat : cprog unit :=
  match Actors.require (q_actor q) CHAT_USE with Ret _ => Pure tt | Raise _ => Throw NotAuthorized end.

Definition authorise : cprog (string * option string) :=
  let! _ := require_chat in
  match capability_for (q_actor q) (q_capability q) with
  | None =>
      let! available := invoke (EIssuable (q_actor q)) in
      Throw (CapabilityNotIssuedError (q_capability q) available)
  | Some served =>
      Pure (served, if bool_decide (served = q_capability q) then None else Some (q_capability q))
  end.

Definition route (served : string) : cprog (RoutingPolicy * Model * option Node) :=
  let! policy := invoke (EPolicy served) in
  match policy with
  | None => Throw NoAvailableModel
  | Some policy =>
      let! models := invoke EModels in
      let! nodes := invoke ENodes in
      let! now := ask ENow in
      match select (by_alias models) (by_id nodes) ∅ now policy with
      | Raise _ => Throw NoAvailableModel
      | Ret target =>
          let n := by_id nodes !! model_node target in
          match cf_runtimes cfg n (runtime target) with
          | None => Throw NoAvailableModel
          | Some _ => Pure (policy, target, n)
          end
      end
  end.

Fixpoint replayed (chunks : list CompletionChunk) : cprog unit :=
  match chunks with
  | [] => Pure tt
  | c :: chunks => let! _ := invoke (EYield c) in replayed chunks
  end.

Definition generation_of (served : string) (requested : option string) (target : Model) (thinking : bool)
    (p : prompt) (w : option WidenedAdmission) (attempt : option AttemptIdentity) : generation :=
  mk_generation_args (q_actor q) served requested target (p_messages p) (q_max_tokens q) thinking (p_tools p)
    (q_choice q) (q_sampling q) (p_count p) (p_counted_by p) w (tier <$> p_compaction p)
    (tokens_before <$> p_compaction p) (tokens_after <$> p_compaction p) attempt.

Definition bind_request (served : string) (requested : option string) (target : Model) (p : prompt)
    : cprog (option (AttemptIdentity + list CompletionChunk)) :=
  if cf_binder cfg then
    let! now := ask ENow in
    let! bound := invoke (EBind (q_actor q) (q_identity q) (model_node target)
      (Binding.billing_snapshot (actor_id (q_actor q)) (actor_key_id (q_actor q)) (tenant_id (q_actor q)) served
        requested (alias target) (model_ref target) (model_node target) (isoformat now)
        (tier <$> p_compaction p) (tokens_before <$> p_compaction p) (tokens_after <$> p_compaction p))) in
    Pure (Some bound)
  else Pure None.

(** [current_attempt] is the attempt while its stream is read, and what it was before after. *)
Definition set_current (a : option AttemptIdentity) : cprog unit := update_self (λ s, mk_self (s_gen s) a).

Definition run_bound (attempt : option AttemptIdentity) (p : cprog unit) : cprog unit :=
  match attempt with
  | None => p
  | Some _ =>
      let! s := get_self in
      let! _ := set_current attempt in
      finally p (set_current (s_current s))
  end.

Definition serve (served : string) (requested : option string) (floor : Z) : cprog unit :=
  let! r := route served in
  let policy := r.1.1 in let target := r.1.2 in let n := r.2 in
  let thinking := resolve_thinking policy in
  let! a := admit_prompt target n thinking floor in
  let! bound := bind_request served requested target a.1 in
  match bound with
  | Some (inr chunks) => replayed chunks
  | Some (inl attempt) =>
      run_bound (Some attempt) (generate dumps_raw cfg (generation_of served requested target thinking a.1 a.2 (Some attempt)))
  | None => generate dumps_raw cfg (generation_of served requested target thinking a.1 a.2 None)
  end.

(** [async with self._concurrency.slot()] *)
Definition in_slot (p : cprog unit) : cprog unit :=
  let! _ := invoke EAcquire in finally p (ask ERelease).

Definition execute : cprog unit :=
  let! s := authorise in
  let floor := floor_prompt_tokens dumps_params (q_messages q) (q_tools q) in
  let over_bytes := compaction_enabled (q_actor q) && payload_exceeds (q_messages q) (q_tools q) (cf_payload cfg) in
  if over_bytes || ((cf_max_context cfg <? floor)%Z && negb (compaction_enabled (q_actor q))) then
    let! composition := or_index_error (floor_composition dumps_params (q_messages q) (q_tools q)) in
    Throw (ContextTooLongError floor (cf_max_context cfg) composition COUNT_BY_LOWER_BOUND)
  else in_slot (serve s.1 s.2 floor).

(** The answer to a repeated key, before any of it. *)
Definition repeat : cprog (option (list CompletionChunk)) :=
  match q_identity q with
  | Some i =>
      if cf_binder cfg && negb (bool_decide (id_key i = None)) then
        let! _ := require_chat in
        let! _ := authorise in
        invoke (ERepeat (q_actor q) i)
      else Pure None
  | None => Pure None
  end.
End Request.
End Route.

(** * What is known of a prompt that is sent *)

Definition weight (b : count_basis) : Z := match b with COUNT_BY_TOKENIZER => 1 | _ => 3 end.

(** What each tier may have done to a conversation. *)
Inductive compacts (ellipsis dash : Ascii.ascii) (messages : list Message) (tools : list ToolDefinition)
    : CompactionResult → Prop :=
  | by_tier0 before after text :
      compacts ellipsis dash messages tools
        (mk_result 0 messages (compact_tool_definitions ellipsis tools).1 before after text)
  | by_tier1 tools' before after text :
      tools' = tools ∨ tools' = (compact_tool_definitions ellipsis tools).1 →
      compacts ellipsis dash messages tools (mk_result 1 (compact_tool_results dash messages).1 tools' before after text)
  | by_tier2 summary before after text :
      to_summarise (length messages) ≠ 0 →
      compacts ellipsis dash messages tools
        (mk_result 2 (summary ++ drop (to_summarise (length messages)) messages) tools before after text).

Section Tiers.
Context (ellipsis dash : Ascii.ascii).
Context (count_fn : list Message → list ToolDefinition → cprog (option Z)).
Abbreviation clearns := (learns (Eff:=ceff) (X:=cexn) (S:=self) clog (λ _ _ _ _, True)).

Definition compacted (messages : list Message) (tools : list ToolDefinition) (o : option CompactionResult) : Prop :=
  match o with Some r => compacts ellipsis dash messages tools r | None => True end.

Lemma try_tier1_learns messages tools tools' texts before limit s tr :
  tools' = tools ∨ tools' = (compact_tool_definitions ellipsis tools).1 →
  clearns (try_tier1 dash count_fn messages tools' texts before limit) (λ o _, compacted messages tools o) s tr.
Proof.
  intros Ht. unfold try_tier1. destruct (compact_tool_results dash messages) as [m t1] eqn:Hm.
  case_bool_decide; [by apply learns_pure|]. eapply learns_bind; [apply learns_nothing|]. intros c s' tr' _ _.
  destruct (fits c limit); apply learns_pure; [|done]. simpl. replace m with (compact_tool_results dash messages).1 by (by rewrite Hm).
  by apply by_tier1.
Qed.

Lemma try_compact_learns messages tools counted limit s tr :
  clearns (try_compact ellipsis dash count_fn messages tools counted limit) (λ o _, compacted messages tools o) s tr.
Proof.
  unfold try_compact. destruct (compact_tool_definitions ellipsis tools) as [t' t0] eqn:Hc.
  case_bool_decide; [apply try_tier1_learns; by left|]. eapply learns_bind; [apply learns_nothing|]. intros c s' tr' _ _.
  destruct (fits c limit); [|apply try_tier1_learns; right; by rewrite Hc]. apply learns_pure. simpl.
  replace t' with (compact_tool_definitions ellipsis tools).1 by (by rewrite Hc). constructor.
Qed.

Lemma try_tier2_learns summarise_fn cached messages tools counted limit s tr :
  clearns (try_tier2 count_fn summarise_fn cached messages tools counted limit) (λ o _, compacted messages tools o) s tr.
Proof.
  unfold try_tier2. case_bool_decide; [by apply learns_pure|]. case_bool_decide as Hz; [by apply learns_pure|].
  apply (learns_bind _ _ _ _ (λ o _, compacted messages tools o)).
  - unfold from_cache. destruct cached as [[get put]|]; [|by apply learns_pure].
    eapply learns_bind; [apply learns_nothing|]. intros [p|] s' tr' _ _; [|by apply learns_pure].
    eapply learns_bind; [apply learns_nothing|]. intros c s2 tr2 _ _.
    destruct (fits c limit); apply learns_pure; [by apply by_tier2|done].
  - intros [r|] s' tr' _ Hr; [by apply learns_pure|]. unfold fresh_summary.
    eapply learns_bind; [apply learns_nothing|]. intros text s2 tr2 _ _.
    eapply learns_bind; [apply learns_nothing|]. intros c s3 tr3 _ _.
    destruct (fits c limit); [|by apply learns_pure]. eapply learns_bind; [apply learns_nothing|]. intros _ s4 tr4 _ _.
    apply learns_pure. by apply (by_tier2 _ _ _ _ [summary_message text]).
Qed.
End Tiers.

Section Routed.
Context (cfg : config).
Abbreviation clearns := (learns (Eff:=ceff) (X:=cexn) (S:=self) clog (λ _ _ _ _, True)).

(** How a model was chosen. *)
Definition routed (tr : list cevent) (policy : RoutingPolicy) (target : Model) (n : option Node) : Prop :=
  ∃ models nodes now, RoutedBy policy ∈ tr ∧ SawModels models ∈ tr ∧ SawNodes nodes ∈ tr ∧ Told now ∈ tr ∧
    select (by_alias models) (by_id nodes) ∅ now policy = Ret target ∧ n = by_id nodes !! model_node target.

Lemma routed_mono tr tr' policy target n : tr `prefix_of` tr' → routed tr policy target n → routed tr' policy target n.
Proof. intros [k ->] (m&ns&now&?&?&?&?&?&?). exists m, ns, now. split_and!; try done; apply elem_of_app; by left. Qed.

Lemma route_learns served s tr :
  clearns (route cfg served) (λ r tr', routed tr' r.1.1 r.1.2 r.2) s tr.
Proof.
  unfold route. eapply learns_bind; [by apply (learns_invoke _ _ _ (λ o tr', ∀ p, o = Some p → RoutedBy p ∈ tr')); intros o p ->; set_solver|].
  intros [policy|] s1 tr1 _ Hpol; [|apply learns_throw]. specialize (Hpol _ eq_refl).
  eapply learns_bind; [by apply (learns_invoke _ _ _ (λ l tr', SawModels l ∈ tr')); set_solver|]. intros models s2 tr2 [k2 ->] Hm.
  eapply learns_bind; [by apply (learns_invoke _ _ _ (λ l tr', SawNodes l ∈ tr')); set_solver|]. intros nodes s3 tr3 [k3 ->] Hns.
  eapply learns_bind; [by apply (learns_ask _ _ _ (λ l tr', Told l ∈ tr')); set_solver|]. intros now s4 tr4 [k4 ->] Hnow.
  destruct (select _ _ _ _ _) as [e|target] eqn:Hsel; [apply learns_throw|].
  destruct (cf_runtimes cfg _ _); [|apply learns_throw]. apply learns_pure.
  exists models, nodes, now. split_and!; try done; set_solver.
Qed.
End Routed.

Section Sending.
Context (dumps_params : dict → string) (ellipsis dash : Ascii.ascii) (cfg : config) (q : request).
Abbreviation clearns := (learns (Eff:=ceff) (X:=cexn) (S:=self) clog (λ _ _ _ _, True)).

(** [n] is what [messages] and [tools] were counted to be, on the basis [b]. *)
Definition counted_as (tr : list cevent) (target : Model) (messages : list Message) (tools : list ToolDefinition)
    (n : Z) (b : count_basis) : Prop :=
  match b with
  | COUNT_BY_TOKENIZER => Counted (model_ref target) messages tools (Some n) ∈ tr
  | COUNT_BY_ESTIMATE =>
      n = (estimated_prompt_tokens dumps_params messages tools).1 ∧
      (cf_tokens cfg = false ∨ Counted (model_ref target) messages tools None ∈ tr)
  | COUNT_BY_LOWER_BOUND => False
  end.

(** Which of the port's methods reads the context of a model on its node. *)
Definition how_read (n : option Node) (target : Model) : capacity_read * option string :=
  match n with
  | Some n => match cf_runtimes cfg (Some n) (runtime target) with
              | Some pinned_read => (pinned_read, model_digest target)
              | Some plain_read => (plain_read, None)
              | _ => (colocated_read, None)
              end
  | None => (colocated_read, None)
  end.
Definition declares (tr : list cevent) (n : option Node) (target : Model) (d : Z) : Prop :=
  SawCapacity (how_read n target).1 (model_ref target) (how_read n target).2 (JInt d) ∈ tr ∧ (0 < d)%Z.

Definition registered (target : Model) : Z := profile_context (resource_profile target).

(** The prompt and its answer fit below the window, which neither the registration nor
    the weights' declaration exceeds; on Ollama the prompt fills at most half of it. *)
Definition fits_window (tr : list cevent) (n : option Node) (target : Model) (count : Z) (b : count_basis) (out : Z) : Prop :=
  ∃ d, declares tr n target d ∧ (0 < registered target)%Z ∧
    let window := Z.min (registered target) d in
    (weight b * count + out < window)%Z ∧ (runtime target = OLLAMA → (weight b * count ≤ window / 2)%Z).

(** Or more than half, on an exact count, by an entry of the catalogue that was measured
    for this node, version and weights, and in the window that same measurement declares. *)
Definition fits_profile (tr : list cevent) (n : option Node) (target : Model) (messages : list Message)
    (tools : list ToolDefinition) (thinking : bool) (count : Z) (b : count_basis) (out : Z) (p : string) : Prop :=
  b = COUNT_BY_TOKENIZER ∧ runtime target = OLLAMA ∧ ∃ node now version m seen profile d,
    n = Some node ∧ Told now ∈ tr ∧ fresh_version (runtime_version node) (runtime_version_at node) now = Some version ∧
    Measured (model_ref target) messages tools m ∈ tr ∧
    measured_profile node target version tools thinking m = Some (seen, profile) ∧ p = Guard.ref profile ∧
    Guard.declared_context m = Some d ∧ (0 < d)%Z ∧ (0 < registered target)%Z ∧
    (Z.max count seen + out < Z.min (registered target) d)%Z.

Definition fits_model tr n target messages tools thinking count b out (profile : option string) : Prop :=
  match profile with
  | None => fits_window tr n target count b out
  | Some p => fits_profile tr n target messages tools thinking count b out p
  end.

Lemma declares_mono tr tr' n target d : tr `prefix_of` tr' → declares tr n target d → declares tr' n target d.
Proof. intros [? ->] [? ?]. split; [set_solver|done]. Qed.

Lemma counted_as_mono tr tr' target m t n b : tr `prefix_of` tr' → counted_as tr target m t n b → counted_as tr' target m t n b.
Proof. intros [k ->]. destruct b; simpl; set_solver. Qed.

Lemma fits_model_mono tr tr' n target m t th c b out p :
  tr `prefix_of` tr' → fits_model tr n target m t th c b out p → fits_model tr' n target m t th c b out p.
Proof.
  intros Hp. destruct p as [p|]; simpl.
  - intros (?&?&node&now&v&me&s&pr&d&?&?&?&?&?&?&?&?&?&?). destruct Hp as [k ->]. split_and!; [done..|].
    exists node, now, v, me, s, pr, d. split_and!; try done; apply elem_of_app; by left.
  - intros (d&?&?). exists d. split; [by eapply declares_mono|done].
Qed.

Lemma count_prompt_learns target m t s tr :
  clearns (count_prompt dumps_params cfg target m t) (λ c tr', counted_as tr' target m t c.1 c.2) s tr.
Proof.
  unfold count_prompt. destruct (cf_tokens cfg) eqn:Hc.
  - eapply learns_bind; [by apply (learns_invoke _ _ _ (λ o tr', Counted (model_ref target) m t o ∈ tr')); intros o; set_solver|].
    intros [n|] s' tr' _ H; apply learns_pure; simpl; [done|]. split; [done|by right].
  - apply learns_bind with (K := λ o _, o = None); [by apply learns_pure|]. intros o s' tr' _ ->.
    apply learns_pure. simpl. split; [done|by left].
Qed.

Lemma declared_context_learns n target s tr :
  clearns (declared_context_for cfg (match n with Some n => cf_runtimes cfg (Some n) (runtime target) | None => None end)
    (model_ref target) (model_digest target)) (λ o tr', ∀ d, o = Some d → declares tr' n target d) s tr.
Proof.
  unfold declared_context_for, declares, how_read.
  set (adapter := match n with Some n => cf_runtimes cfg (Some n) (runtime target) | None => None end).
  assert (clearns (read_capacity cfg adapter (model_ref target) (model_digest target))
    (λ v tr', v = JNull ∨ SawCapacity (how_read n target).1 (model_ref target) (how_read n target).2 v ∈ tr') s tr) as Hr.
  { assert (∀ how w, how_read n target = (how, w) → ∀ s tr, clearns (invoke (ECapacity how (model_ref target) w))
      (λ v tr', v = JNull ∨ SawCapacity (how_read n target).1 (model_ref target) (how_read n target).2 v ∈ tr') s tr) as Hi.
    { intros how w -> s0 tr0. apply learns_invoke. intros v. right. set_solver. }
    unfold read_capacity, adapter, how_read in *. destruct n as [n|]; [|destruct (cf_tokens cfg); [by apply Hi|by apply learns_pure; left]].
    destruct (cf_runtimes cfg (Some n) (runtime target)) as [[]|];
      first [by apply Hi|destruct (cf_tokens cfg); [by apply Hi|by apply learns_pure; left]]. }
  eapply learns_bind; [apply learns_catch; [exact Hr|]|].
  - intros e s' tr' _. destruct (is_exception e); [apply learns_pure; by left|apply learns_throw].
  - intros v s' tr' _ Hv. apply learns_pure. unfold positive_int. intros d.
    destruct v as [| |z| | | |]; try done. destruct (0 <? z)%Z eqn:Hz; [|done]. intros [= <-].
    destruct Hv as [?|Hv]; [done|]. split; [exact Hv|lia].
Qed.

Lemma effective_window_learns n target s tr :
  clearns (effective_window cfg target n)
    (λ w tr', ∃ d, declares tr' n target d ∧ (0 < registered target)%Z ∧ w = Z.min (registered target) d) s tr.
Proof.
  unfold effective_window. eapply learns_bind; [apply declared_context_learns|]. intros [d|] s' tr' _ Hd; [|apply learns_throw].
  fold (registered target). destruct (0 <? registered target)%Z eqn:Hr; [|apply learns_throw].
  apply learns_pure. exists d. split_and!; [by apply Hd|lia|done].
Qed.

(** A budget: whatever is judged to be within it fits. *)
Definition budgets tr n target messages tools thinking counted b out (r : Z * Z * option string) : Prop :=
  (counted ≤ r.1.2)%Z ∧
  ((r.1.2 ≤ r.1.1)%Z → fits_model tr n target messages tools thinking counted b out r.2).

Lemma servable_full window out widened c :
  (c ≤ servable window out widened)%Z → (c + out < window)%Z ∧ (widened = false → (c ≤ window / 2)%Z).
Proof. unfold servable. destruct widened; lia. Qed.

Lemma prompt_budget_learns counted b target messages tools max_tokens n thinking s tr :
  b ≠ COUNT_BY_LOWER_BOUND →
  clearns (prompt_budget cfg counted b target messages tools max_tokens n thinking)
    (λ r tr', budgets tr' n target messages tools thinking counted b (effective_max_tokens max_tokens (cf_max_tokens cfg)) r) s tr.
Proof.
  intros Hlb. unfold prompt_budget. eapply learns_bind; [apply effective_window_learns|]. intros w s' tr' _ (d&Hd&Hreg&->).
  set (out := effective_max_tokens _ _). set (lim := servable _ _ _).
  assert (∀ tr2, tr' `prefix_of` tr2 → (weight b * counted ≤ lim)%Z →
    fits_window tr2 n target counted b out) as Hplain.
  { intros tr2 Hp [H1 H2]%servable_full. exists d. split; [by eapply declares_mono|]. split; [done|].
    split; [done|]. intros Ho. apply H2. by rewrite bool_decide_eq_true_2. }
  destruct (negb (bool_decide (b = _))) eqn:Hb.
  - apply learns_pure. split; [simpl; lia|]. simpl. intros Hle. apply Hplain; [done|].
    apply negb_true_iff, bool_decide_eq_false in Hb. destruct b; simpl; [done| |done].
    pose proof (Z.mul_div_le lim 3 ltac:(lia)). lia.
  - apply negb_false_iff, bool_decide_eq_true in Hb as ->. simpl weight in Hplain.
    destruct ((lim <? counted)%Z && _) eqn:Hw.
    2: { apply learns_pure. split; [simpl; lia|]. simpl. intros Hle. apply Hplain; [done|lia]. }
    apply andb_true_iff in Hw as [Hlt Ho%bool_decide_eq_true]. apply Z.ltb_lt in Hlt.
    apply learns_bind with (K := λ o tr2, ∀ w c p, o = Some (w, c, p) →
      ∃ node now version m d, n = Some node ∧ Told now ∈ tr2 ∧
        fresh_version (runtime_version node) (runtime_version_at node) now = Some version ∧
        Measured (model_ref target) messages tools m ∈ tr2 ∧
        measured_profile node target version tools thinking m = Some (c, p) ∧
        Guard.declared_context m = Some d ∧ (0 < d)%Z ∧ w = Z.min (registered target) d).
    + unfold widened_window. destruct n as [node|]; [|by apply learns_pure]. destruct (_ && _); [|by apply learns_pure].
      eapply learns_bind; [by apply (learns_ask _ _ _ (λ now tr2, Told now ∈ tr2)); set_solver|]. intros now s2 tr2 _ Hnow.
      destruct (fresh_version _ _ _) as [version|] eqn:Hv; [|by apply learns_pure].
      eapply learns_bind; [by apply (learns_invoke _ _ _ (λ m tr3, Measured (model_ref target) messages tools m ∈ tr3)); set_solver|].
      intros m s3 tr3 [k ->] Hm. destruct (measured_profile _ _ _ _ _ m) as [[c p]|] eqn:Hp; [|by apply learns_pure].
      destruct (Guard.declared_context m) as [d'|] eqn:Hd'; [|by apply learns_pure].
      destruct (d' <=? 0)%Z eqn:Hpos; [by apply learns_pure|]. apply learns_pure. intros w c' p' [= <- <- <-].
      exists node, now, version, m, d'. split_and!; try done; [set_solver|lia|]. unfold registered in *. by destruct (0 <? _)%Z eqn:?; [|lia].
    + intros [[[w c] p]|] s2 tr2 Hpre Hk; apply learns_pure; simpl.
      2: { split; [simpl; lia|]. simpl. intros Hle. by apply Hplain; [|lia]. }
      split; [simpl; lia|]. simpl. intros Hle. destruct (Hk w c p eq_refl) as (node&now&v&m&d'&?&?&?&?&?&?&?&->).
      split_and!; [done..|]. exists node, now, v, m, c, p, d'. split_and!; try done. lia.
Qed.
Lemma refuse_learns counted b target messages tools max_tokens n thinking s tr :
  b ≠ COUNT_BY_LOWER_BOUND →
  clearns (refuse_what_this_target_would_truncate dumps_params cfg counted b target messages tools max_tokens n thinking)
    (λ w tr', fits_model tr' n target messages tools thinking counted b
       (effective_max_tokens max_tokens (cf_max_tokens cfg)) (w_profile <$> w)) s tr.
Proof.
  intros Hb. unfold refuse_what_this_target_would_truncate.
  eapply learns_bind; [by apply prompt_budget_learns|]. intros [[limit judged] profile] s' tr' _ [_ Hfit].
  destruct ((judged <=? limit)%Z && _) eqn:Hle.
  - apply learns_pure. apply andb_true_iff in Hle as [Hle _]. simpl in Hfit.
    replace (w_profile <$> _) with profile by (by destruct profile). apply Hfit. lia.
  - eapply learns_bind; [apply learns_nothing|]. intros c s2 tr2 _ _. apply learns_throw.
Qed.

Context (dumps_cache : json → string) (loads : string → option json) (sha256 : string → string).
Abbreviation compact_ := (compact dumps_params dumps_cache loads sha256 ellipsis dash cfg).
Abbreviation compact_or_refuse_ := (compact_or_refuse dumps_params dumps_cache loads sha256 ellipsis dash cfg).

Definition compacted_to (tr : list cevent) (target : Model) (messages : list Message) (tools : list ToolDefinition)
    (o : option (CompactionResult * Z * count_basis)) : Prop :=
  match o with
  | Some (r, c, b) => compacts ellipsis dash messages tools r ∧ counted_as tr target (c_messages r) (c_tools r) c b
  | None => True
  end.

Lemma compact_learns target messages tools counted limit s tr :
  clearns (compact_or_refuse_ target messages tools counted limit)
    (λ o tr', compacted_to tr' target messages tools o) s tr.
Proof.
  unfold compact_or_refuse. apply learns_catch.
  2: { intros e s' tr' _. destruct e; first [apply learns_throw|by apply learns_pure]. }
  unfold compact. eapply learns_bind; [apply try_compact_learns|]. intros first s' tr' _ Hfirst.
  apply (learns_bind _ _ _ _ (λ o _, compacted ellipsis dash messages tools o)).
  - destruct first as [r|]; [by apply learns_pure|]. destruct (cf_summarises cfg); [|by apply learns_pure].
    apply try_tier2_learns.
  - intros [r|] s2 tr2 _ Hr; [|by apply learns_pure]. eapply learns_bind; [apply count_prompt_learns|].
    intros [c b] s3 tr3 _ Hc. by apply learns_pure.
Qed.

(** What is known of a prompt before it is judged the last time. *)
Definition prompt_known (tr : list cevent) (target : Model) (p : prompt) : Prop :=
  (∃ c, counted_as tr target (p_messages p) (p_tools p) c (p_counted_by p) ∧ (c ≤ p_count p)%Z) ∧
  match p_compaction p with
  | None => p_messages p = q_messages q ∧ p_tools p = q_tools q
  | Some r => p_messages p = c_messages r ∧ p_tools p = c_tools r ∧ compacts ellipsis dash (q_messages q) (q_tools q) r ∧
      compaction_enabled (q_actor q) = true ∧ Reported (to_disclosure r) ∈ tr
  end.

Lemma prompt_known_mono tr tr' target p : tr `prefix_of` tr' → prompt_known tr target p → prompt_known tr' target p.
Proof.
  intros Hp [(c&?&?) Hrest]. split; [exists c; split; [by eapply counted_as_mono|done]|].
  destruct (p_compaction p); [|done]. destruct Hrest as (?&?&?&?&?). destruct Hp as [k ->]. split_and!; try done. set_solver.
Qed.

Abbreviation fit_prompt_ := (fit_prompt dumps_params dumps_cache loads sha256 ellipsis dash cfg q).
Abbreviation admit_ := (admit_prompt dumps_params dumps_cache loads sha256 ellipsis dash cfg q).

Lemma judged_limit_learns counted b target n thinking s tr :
  b ≠ COUNT_BY_LOWER_BOUND →
  clearns (judged_limit cfg q counted b target n thinking) (λ l _, (counted ≤ l.2)%Z) s tr.
Proof.
  intros Hb. unfold judged_limit. destruct (compaction_enabled _); [|by apply learns_pure].
  eapply learns_bind; [by apply prompt_budget_learns|]. intros r s' tr' _ [? _]. apply learns_pure. simpl. lia.
Qed.

Lemma counted_as_basis tr target m t c b : counted_as tr target m t c b → b ≠ COUNT_BY_LOWER_BOUND.
Proof. by destruct b. Qed.

Lemma fit_prompt_learns target n thinking floor s tr :
  clearns (fit_prompt_ target n thinking floor) (λ p tr', prompt_known tr' target p) s tr.
Proof.
  unfold fit_prompt. eapply learns_bind; [apply count_prompt_learns|]. intros [c b] s' tr' _ Hc. cbn [fst snd] in *.
  eapply learns_bind; [apply judged_limit_learns; by eapply counted_as_basis|]. intros [limit counted] s2 tr2 Hp2 Hle. cbn [fst snd] in *.
  destruct (counted <=? limit)%Z.
  { apply learns_pure. split; [exists c; split; [by eapply counted_as_mono|done]|done]. }
  apply (learns_bind _ _ _ _ (λ o tr', compaction_enabled (q_actor q) = true ∧
    compacted_to tr' target (q_messages q) (q_tools q) o ∨ o = None)).
  - destruct (compaction_enabled (q_actor q)); simpl; [|apply learns_pure; by right].
    destruct (0 <? limit)%Z; [|apply learns_pure; by right].
    eapply learns_weaken; [apply compact_learns|]. intros o tr3 _ ?. by left.
  - intros [[[r c2] b2]|] s3 tr3 _ Hr.
    + destruct Hr as [[Hen [Hco Hcount]]|]; [|done].
      eapply learns_bind; [by apply (learns_ask _ _ _ (λ _ tr', Reported (to_disclosure r) ∈ tr' ∧ tr3 `prefix_of` tr')); intros []; split; [set_solver|by apply prefix_app_r]|].
      intros [] s4 tr4 _ [Hrep Hp4]. apply learns_pure. split; [|by split_and!].
      exists c2. split; [by eapply counted_as_mono|done].
    + destruct (_ <? floor)%Z.
      * eapply learns_bind; [apply learns_nothing|]. intros x s4 tr4 _ _. apply learns_throw.
      * eapply learns_bind; [apply learns_nothing|]. intros x s4 tr4 _ _. apply learns_throw.
Qed.

Definition admitted_prompt (tr : list cevent) (target : Model) (n : option Node) (thinking : bool) (p : prompt)
    (w : option WidenedAdmission) : Prop :=
  prompt_known tr target p ∧ (p_count p ≤ cf_max_context cfg)%Z ∧
  fits_model tr n target (p_messages p) (p_tools p) thinking (p_count p) (p_counted_by p)
    (effective_max_tokens (q_max_tokens q) (cf_max_tokens cfg)) (w_profile <$> w).

Lemma admitted_prompt_mono tr tr' target n thinking p w :
  tr `prefix_of` tr' → admitted_prompt tr target n thinking p w → admitted_prompt tr' target n thinking p w.
Proof. intros Hp (?&?&?). split_and!; [by eapply prompt_known_mono|done|by eapply fits_model_mono]. Qed.

Lemma admit_learns target n thinking floor s tr :
  clearns (admit_ target n thinking floor) (λ a tr', admitted_prompt tr' target n thinking a.1 a.2) s tr.
Proof.
  unfold admit_prompt. eapply learns_bind; [apply fit_prompt_learns|]. intros p s' tr' _ Hp.
  destruct (_ <? p_count p)%Z eqn:Hlim.
  - eapply learns_bind; [apply learns_nothing|]. intros x s4 tr4 _ _. apply learns_throw.
  - eapply learns_bind; [apply refuse_learns; destruct Hp as [(c&Hc&_) _]; by eapply counted_as_basis|].
    intros w s2 tr2 Hp2 Hfit. apply learns_pure. split_and!; [by eapply prompt_known_mono|simpl; lia|done].
Qed.

End Sending.

(** * The calls before the generation, and those of it *)

(** Calls that neither touch the slot nor the generation. *)
Definition quiet (R : Type) (c : ceff R) : Prop :=
  match c with
  | EAcquire | ERelease | EStart _ _ _ | EPull _ | EClose | EYield _ | ERecordUsage _ | EMarkDelivery _ _
  | ESettle _ | EPromptLog _ => False
  | _ => True
  end.

Definition not_slot (R : Type) (c : ceff R) : Prop :=
  match c with EAcquire | ERelease => False | _ => True end.

Definition yields (R : Type) (c : ceff R) : Prop := match c with EYield _ => True | _ => False end.

Ltac only_calls :=
  repeat first
    [ done
    | lazymatch goal with |- only _ (catch _ _) => apply only_catch; [|intros ?] end
    | lazymatch goal with |- only _ (invoke _) => apply only_invoke; exact I end
    | lazymatch goal with |- only _ (ask _) => apply only_ask; exact I end
    | lazymatch goal with |- only _ (and_then _ _) => apply only_bind; [|intros ?] end
    | match goal with
      | |- only _ (if ?x then _ else _) => destruct x
      | |- only _ (match ?x with _ => _ end) => destruct x
      | |- only _ (let _ := ?x in _) => cbv zeta
      end ].

Section Calls.
Context (dumps_params : dict → string) (dumps_raw dumps_cache : json → string) (loads : string → option json).
Context (sha256 : string → string) (isoformat : Z → string) (ellipsis dash : Ascii.ascii) (cfg : config) (q : request).

Lemma count_prompt_quiet target m t : only quiet (count_prompt dumps_params cfg target m t).
Proof. unfold count_prompt. only_calls. Qed.

Lemma prompt_composition_quiet target m t b : only quiet (prompt_composition dumps_params cfg target m t b).
Proof. unfold prompt_composition, or_index_error. only_calls. Qed.

Lemma prompt_budget_quiet c b target m t mt n th : only quiet (prompt_budget cfg c b target m t mt n th).
Proof.
  unfold prompt_budget, effective_window, declared_context_for, read_capacity, widened_window. only_calls.
Qed.

Lemma recount_quiet target m t : only quiet (recount dumps_params cfg target m t).
Proof. unfold recount. apply only_bind; [apply count_prompt_quiet|done]. Qed.

Lemma try_tier1_quiet count_fn m t d c l :
  (∀ m t, only quiet (count_fn m t)) → only quiet (try_tier1 dash count_fn m t d c l : cprog _).
Proof. intros Hc. unfold try_tier1. destruct (compact_tool_results dash m). case_bool_decide; [done|]. apply only_bind; [apply Hc|]. intros o. only_calls. Qed.

Lemma try_compact_quiet count_fn m t c l :
  (∀ m t, only quiet (count_fn m t)) → only quiet (try_compact ellipsis dash count_fn m t c l : cprog _).
Proof.
  intros Hc. unfold try_compact. destruct (compact_tool_definitions ellipsis t).
  case_bool_decide; [by apply try_tier1_quiet|]. apply only_bind; [apply Hc|]. intros o.
  destruct (fits o l); [done|by apply try_tier1_quiet].
Qed.

Lemma try_tier2_quiet m t target c l :
  only quiet (try_tier2 (recount dumps_params cfg target) (λ l, invoke (ESummarise l) : cprog _)
    (cache_ports dumps_cache loads sha256 cfg) m t c l).
Proof.
  unfold try_tier2, from_cache, fresh_summary, cache_ports, Compaction.get, Compaction.put, result_from_json.
  destruct (cf_cached cfg); repeat first [apply recount_quiet|progress only_calls].
Qed.

Lemma admit_quiet target n th floor :
  only quiet (admit_prompt dumps_params dumps_cache loads sha256 ellipsis dash cfg q target n th floor).
Proof.
  unfold admit_prompt, fit_prompt, judged_limit, refuse_what_this_target_would_truncate, compact_or_refuse, compact, or_index_error.
  repeat first [apply count_prompt_quiet|apply prompt_composition_quiet|apply prompt_budget_quiet|apply try_tier2_quiet
    |apply try_compact_quiet; intros; apply recount_quiet|progress only_calls].
Qed.

Lemma route_quiet served : only quiet (route cfg served).
Proof. unfold route. only_calls. Qed.

Lemma bind_request_quiet served requested target p : only quiet (bind_request isoformat cfg q served requested target p).
Proof. unfold bind_request. only_calls. Qed.

Lemma authorise_quiet : only quiet (authorise q).
Proof. unfold authorise, require_chat. only_calls. Qed.

Lemma replayed_only l : only yields (replayed l).
Proof. induction l as [|c l IH]; [done|]. cbn [replayed]. only_calls. Qed.

(** A generation starts once, with its own arguments, and leaves the slot alone. *)
Definition of_generation (a : generation) (R : Type) (c : ceff R) : Prop :=
  match c with
  | EStart a' n x => a' = a ∧ n = ceiling cfg a ∧ x = profile_context (resource_profile (g_target a))
  | EAcquire | ERelease => False
  | _ => True
  end.

Lemma logged_only (P : ∀ R, ceff R → Prop) (p : cprog unit) : only P p → only P (logged p).
Proof. intros Hp. unfold logged. apply only_catch; [done|]. intros e. by destruct (is_exception e). Qed.

Lemma finally_only {A} (P : ∀ R, ceff R → Prop) (p : cprog A) f : only P p → only P f → only P (finally p f).
Proof. intros Hp Hf. apply only_bind; [by apply only_attempt|]. intros o. apply only_bind; [done|]. intros _. by destruct o. Qed.

Lemma run_bound_only (P : ∀ R, ceff R → Prop) at_ p : only P p → only P (run_bound at_ p).
Proof.
  intros Hp. unfold run_bound. destruct at_; [|done]. apply only_bind; [done|]. intros s.
  apply only_bind; [done|]. intros _. by apply finally_only.
Qed.

Lemma on_chunk_only a c : only (of_generation a) (on_chunk cfg a c).
Proof. unfold on_chunk, drain, forward, past_deadline, gen_of, update_gen. only_calls. Qed.

Lemma pull_loop_only a reads : only (of_generation a) (pull_loop cfg a reads).
Proof.
  induction reads as [|reads IH]; [done|]. cbn [pull_loop]. unfold pull. only_calls; apply on_chunk_only.
Qed.

Lemma generate_only a : only (of_generation a) (generate dumps_raw cfg a).
Proof.
  assert (only (of_generation a) (stream_out cfg a)) as Hs.
  { unfold stream_out, gen_of, update_gen. apply only_bind; [by split|]. intros reads. apply only_bind.
    - apply finally_only; [apply pull_loop_only|by only_calls].
    - intros _. only_calls. }
  assert (∀ started, only (of_generation a) (finalize_generation dumps_raw cfg a started)) as Hf.
  { intros started. unfold finalize_generation, settle_attempt, record_usage, log_transcript, gen_of.
    repeat first [apply logged_only|progress only_calls]. }
  unfold generate, open_transcript, update_gen. only_calls; by apply finally_only.
Qed.
End Calls.

(** * What holds of every request *)

Definition free (R : Type) (c : ceff R) : Prop := match c with EIssuable _ => True | _ => False end.

(** Whether the slot is held. *)
Definition held (tr : list cevent) : bool :=
  foldl (λ h e, match e with Acquired true => true | Released => false | _ => h end) false tr.

Definition slot_due (tr : list cevent) (e : cevent) : Prop :=
  match e with Listed => True | Acquired _ => held tr = false | _ => held tr = true end.

Lemma held_snoc tr e : held (tr ++ [e]) = match e with Acquired true => true | Released => false | _ => held tr end.
Proof. unfold held. rewrite foldl_app. simpl. done. Qed.

Section Execute.
Context (dumps_params : dict → string) (dumps_raw dumps_cache : json → string) (loads : string → option json).
Context (sha256 : string → string) (isoformat : Z → string) (ellipsis dash : Ascii.ascii) (cfg : config) (q : request).
Abbreviation execute_ := (execute dumps_params dumps_raw dumps_cache loads sha256 isoformat ellipsis dash cfg q).
Abbreviation serve_ := (serve dumps_params dumps_raw dumps_cache loads sha256 isoformat ellipsis dash cfg q).
Abbreviation admit_ := (admit_prompt dumps_params dumps_cache loads sha256 ellipsis dash cfg q).

(** What is known when a generation starts. *)
Definition sendable (tr : list cevent) (a : generation) (out x : Z) : Prop :=
  ∃ policy n p w served requested attempt, routed tr policy (g_target a) n ∧
    admitted_prompt dumps_params ellipsis dash cfg q tr (g_target a) n (g_thinking a) p w ∧
    a = generation_of q served requested (g_target a) (resolve_thinking cfg q policy) p w attempt ∧
    out = effective_max_tokens (q_max_tokens q) (cf_max_tokens cfg) ∧ x = registered (g_target a) ∧
    match attempt with Some at_ => Bound (inl at_) ∈ tr | None => cf_binder cfg = false end.

Definition send_due (tr : list cevent) (e : cevent) : Prop :=
  match e with Started a out x => sendable tr a out x | _ => True end.

Abbreviation cobeys due := (obeys (Eff:=ceff) (X:=cexn) (S:=self) clog (λ _ _ _ _, True) (λ tr R c, ∀ r, due tr (clog R c r))).

Lemma sendable_mono tr tr' a out x : tr `prefix_of` tr' → sendable tr a out x → sendable tr' a out x.
Proof.
  intros Hp (po&n&p&w&sv&rq&at_&?&?&?&?&?&Hb). exists po, n, p, w, sv, rq, at_.
  split_and!; try done; [by eapply routed_mono|by eapply admitted_prompt_mono|].
  destruct at_; [|done]. destruct Hp as [k ->]. set_solver.
Qed.

Lemma quiet_sends tr R (c : ceff R) : quiet R c → ∀ r, send_due tr (clog R c r).
Proof. intros Hc r. destruct c; try done; cbn [clog]; by repeat case_match. Qed.

Lemma generate_sends a s tr :
  sendable tr a (ceiling cfg a) (profile_context (resource_profile (g_target a))) →
  cobeys send_due (generate dumps_raw cfg a) (λ _ _ _, True) s tr.
Proof.
  intros H. eapply obeys_mono; [|apply (only_invariant _ _ _ (of_generation cfg a) (λ tr', tr `prefix_of` tr')); [|apply generate_only|done]]; [done|].
  intros tr' R c Hp Hc. split; [|intros r _; by apply prefix_app_r].
  destruct c; try done; try (intros ?; cbn [clog]; by repeat case_match).
  destruct Hc as (->&->&->). intros r. cbn [clog send_due]. by eapply sendable_mono.
Qed.

Lemma serve_sends served requested floor s tr :
  cobeys send_due (serve_ served requested floor) (λ _ _ _, True) s tr.
Proof.
  assert (∀ {A} (p : cprog A) K s tr, only quiet p → learns clog (λ _ _ _ _, True) p K s tr →
    cobeys send_due p (λ o _ tr', tr `prefix_of` tr' ∧ match o with inr a => K a tr' | inl _ => True end) s tr) as Hq.
  { intros A p K s0 tr0 Hp HK. apply (only_wp_obeys _ _ _ quiet); [|done|done]. intros. by apply quiet_sends. }
  unfold serve. apply obeys_bind. eapply obeys_mono; [|apply Hq; [apply route_quiet|apply route_learns]].
  intros [e|[[policy target] n]] s1 tr1 [_ Hr]; [done|]. cbn [fst snd] in *.
  apply obeys_bind. eapply obeys_mono; [|apply Hq; [apply admit_quiet|apply admit_learns]].
  intros [e|[p w]] s2 tr2 [Hp2 Ha]; [done|]. cbn [fst snd] in *.
  apply obeys_bind. eapply obeys_mono; [|apply (Hq _ _ (λ b tr', match b with
    | Some (inl at_) => Bound (inl at_) ∈ tr' | Some (inr _) => True | None => cf_binder cfg = false end)); [apply bind_request_quiet|]].
  2: { unfold bind_request. destruct (cf_binder cfg) eqn:Hb; [|by apply learns_pure].
       eapply learns_bind; [apply learns_nothing|]. intros now s3 tr3 _ _.
       eapply learns_bind; [by apply (learns_invoke _ _ _ (λ b tr', Bound b ∈ tr')); set_solver|].
       intros [at_|l] s4 tr4 _ Hat; by apply learns_pure. }
  intros [e|bound] s3 tr3 [Hp3 Hb]; [done|].
  assert (∀ at_, match at_ with Some at_ => Bound (inl at_) ∈ tr3 | None => cf_binder cfg = false end →
    ∀ s, cobeys send_due (generate dumps_raw cfg (generation_of q served requested target (resolve_thinking cfg q policy) p w at_))
      (λ _ _ _, True) s tr3) as Hgen.
  { intros at_ Hat s0. apply generate_sends. exists policy, n, p, w, served, requested, at_.
    split_and!; try done; [eapply routed_mono; [|exact Hr]; by etrans|by eapply admitted_prompt_mono]. }
  destruct bound as [[at_|chunks]|]; [| |by apply Hgen].
  - unfold run_bound, set_current. walk_calls. apply obeys_finally. eapply obeys_mono; [|by apply (Hgen (Some at_))].
    intros o s4 tr4 _. walk_calls. done.
  - eapply obeys_mono; [|apply (only_obeys _ _ _ yields); [|apply replayed_only]]; [done|].
    intros R c tr' Hc. by destruct c.
Qed.

Lemma refusal_sends (p : cprog unit) s tr : only quiet p → cobeys send_due p (λ _ _ _, True) s tr.
Proof.
  intros Hp. eapply obeys_mono; [|apply (only_obeys _ _ _ quiet); [|exact Hp]]; [done|]. intros. by apply quiet_sends.
Qed.

Lemma execute_sends s tr : cobeys send_due execute_ (λ _ _ _, True) s tr.
Proof.
  unfold execute. apply obeys_bind.
  eapply obeys_mono; [|apply (only_obeys _ _ _ quiet); [|apply authorise_quiet]]; [|intros; by apply quiet_sends].
  intros [e|[served requested]] s1 tr1 _; [done|]. cbn [fst snd]. cbv zeta. destruct (_ || _).
  - apply refusal_sends. unfold or_index_error. only_calls.
  - unfold in_slot. walk_calls. split; [done|]. intros [e|[]] _; [done|]. apply obeys_finally.
    eapply obeys_mono; [|apply serve_sends]. intros o s2 tr2 _. walk_calls. by split.
Qed.

(** ** The slot *)

Lemma not_slot_held tr R (c : ceff R) r : not_slot R c → held tr = true → slot_due tr (clog R c r) ∧ held (tr ++ [clog R c r]) = true.
Proof. intros Hc Ht. rewrite held_snoc. destruct c; try done; cbn [clog]; repeat case_match; done. Qed.

Lemma serve_not_slot served requested floor : only not_slot (serve_ served requested floor).
Proof.
  assert (∀ A (p : cprog A), only quiet p → only not_slot p) as Hq by (intros A p; apply only_mono; intros R []; done).
  assert (∀ a, only not_slot (generate dumps_raw cfg a)) as Hg by (intros a; eapply only_mono; [|apply generate_only]; intros R []; done).
  unfold serve. apply only_bind; [apply Hq, route_quiet|]. intros [[policy target] n]. apply only_bind; [apply Hq, admit_quiet|].
  intros [p w]. apply only_bind; [apply Hq, bind_request_quiet|]. intros [[at_|l]|]; [| |apply Hg].
  - apply run_bound_only, Hg.
  - eapply only_mono; [|apply replayed_only]. by intros R [].
Qed.

Lemma execute_slot s tr : held tr = false → cobeys slot_due execute_ (λ _ _ tr', held tr' = false) s tr.
Proof.
  intros Ht. unfold execute. apply obeys_bind.
  eapply obeys_mono; [|apply (only_invariant _ _ _ free (λ tr, held tr = false)); [|unfold authorise, require_chat; only_calls|done]].
  2: { intros tr' R c Hh Hc. destruct c; try done. split; [done|]. intros r _. by rewrite held_snoc. }
  intros [e|[served requested]] s1 tr1 Ht1; [done|]. cbn [fst snd]. cbv zeta. destruct (_ || _).
  - unfold or_index_error. by repeat case_match.
  - unfold in_slot. walk_calls. split; [by intros [e|[]]|]. intros [e|[]] _; [by cbn; rewrite held_snoc|]. apply obeys_finally.
    eapply obeys_mono; [|apply (only_invariant _ _ _ not_slot (λ tr, held tr = true)); [|apply serve_not_slot|by rewrite held_snoc]].
    + intros o s2 tr2 H2. walk_calls. split; [done|]. intros [] _. by rewrite held_snoc.
    + intros tr' R c Hh Hc. split; [intros r; by apply not_slot_held|]. intros r _. by apply not_slot_held.
Qed.
(** ** Lives and accounts *)

(** Calls before the generation move neither its phase nor its account. *)
Definition untouched (tr tr' : list cevent) : Prop :=
  tr `prefix_of` tr' ∧ phase_of tr' = phase_of tr ∧ pulled tr' = pulled tr ∧ handed tr' = handed tr.

Lemma quiet_untouched {A} (must : list cevent → ∀ R, ceff R → Prop) (p : cprog A) s tr :
  (∀ tr R c, quiet R c → must tr R c) → only quiet p →
  obeys clog (λ _ _ _ _, True) must p (λ _ _ tr', untouched tr tr') s tr.
Proof.
  intros Hm Hp. apply (only_invariant _ _ _ quiet (untouched tr)); [|done|by split_and!].
  intros tr' R c (?&Hph&Hpu&Hh) Hc. split; [by apply Hm|]. intros r _. unfold untouched.
  rewrite phase_of_snoc, pulled_snoc, handed_snoc, Hph, Hpu, Hh.
  destruct c; try done; cbn [clog]; repeat case_match; split_and!; rewrite ?app_nil_r; try done; by apply prefix_app_r.
Qed.

Lemma untouched_trans tr1 tr2 tr3 : untouched tr1 tr2 → untouched tr2 tr3 → untouched tr1 tr3.
Proof. intros (?&H1&H2&H3) (?&H4&H5&H6). split_and!; [by etrans|congruence..]. Qed.

(** The attempt a generation ran under, and how it is therefore billed. *)
Definition bound_to (tr : list cevent) (attempt : option AttemptIdentity) : Prop :=
  match attempt with Some at_ => Bound (inl at_) ∈ tr | None => cf_binder cfg = false end.
Definition bills (attempt : option AttemptIdentity) : option string :=
  at_ ← attempt; if cf_settles cfg then Some (ai_op at_) else None.

Definition lived (tr : list cevent) : Prop :=
  phase_of tr = Waiting ∨ ∃ attempt, bound_to tr attempt ∧ is_over (bills attempt) (phase_of tr).
Abbreviation cwp_ := (wp (Eff:=ceff) (X:=cexn) (S:=self) clog (λ _ _ _ _, True)).

Lemma quiet_wp {A} (p : cprog A) s tr : only quiet p → cwp_ p (λ _ _ tr', untouched tr tr') s tr.
Proof. intros Hp. by apply (obeys_wp _ _ (λ _ _ _, True)), quiet_untouched. Qed.

Lemma bind_request_learns served requested target p s tr :
  learns clog (λ _ _ _ _, True) (bind_request isoformat cfg q served requested target p) (λ b tr', match b with
    | Some (inl at_) => Bound (inl at_) ∈ tr' ∧ cf_binder cfg = true
    | Some (inr _) => True
    | None => cf_binder cfg = false end) s tr.
Proof.
  unfold bind_request. destruct (cf_binder cfg) eqn:Hb; [|by apply learns_pure].
  eapply learns_bind; [apply learns_nothing|]. intros now s3 tr3 _ _.
  eapply learns_bind; [by apply (learns_invoke _ _ _ (λ b tr', Bound b ∈ tr')); set_solver|].
  intros [at_|l] s4 tr4 _ Hat; by apply learns_pure.
Qed.

Lemma replayed_phase l s tr : phase_of tr = Waiting → cwp_ (replayed l) (λ _ _ tr', phase_of tr' = Waiting) s tr.
Proof.
  intros H. apply (obeys_wp _ _ (λ _ _ _, True)).
  apply (only_invariant _ _ _ yields (λ tr', phase_of tr' = Waiting)); [|apply replayed_only|done].
  intros tr' R c Ht Hc. destruct c; try done. split; [done|]. intros r _. by rewrite phase_of_snoc, Ht.
Qed.

Lemma generate_lives served requested target th p w attempt s tr :
  phase_of tr = Waiting → bound_to tr attempt → (is_Some attempt → cf_binder cfg = true) →
  cwp_ (run_bound attempt (generate dumps_raw cfg (generation_of q served requested target th p w attempt)))
    (λ _ _ tr', lived tr') s tr.
Proof.
  intros Ht Hb Hbind. set (a := generation_of q served requested target th p w attempt).
  assert (∀ s, cwp_ (generate dumps_raw cfg a) (λ _ _ tr', lived tr') s tr) as Hg.
  { intros s0. eapply wp_mono; [|apply wp_and; [by apply generate_phase|apply wp_extends]].
    intros o s' tr' [Hover [k ->]]. right. exists attempt. split.
    - destruct attempt; [|done]. simpl in *. set_solver.
    - unfold billed_by, bills in *. simpl in Hover. destruct attempt; [|done]. simpl in *. by rewrite Hbind in Hover. }
  destruct attempt; [|done]. unfold run_bound, set_current. walk_calls. apply wp_finally.
  eapply wp_mono; [|apply Hg]. done.
Qed.

Lemma serve_lives served requested floor s tr :
  phase_of tr = Waiting → cwp_ (serve_ served requested floor) (λ _ _ tr', lived tr') s tr.
Proof.
  intros Ht. unfold serve. apply wp_bind. eapply wp_mono; [|apply quiet_wp, route_quiet].
  intros [e|[[policy target] n]] s1 tr1 (_&H1&_); rewrite Ht in H1; [by left|]. cbn [fst snd].
  apply wp_bind. eapply wp_mono; [|apply quiet_wp, admit_quiet].
  intros [e|[p w]] s2 tr2 (_&H2&_); rewrite H1 in H2; [by left|]. cbn [fst snd].
  apply wp_bind. eapply wp_mono; [|apply wp_and; [apply quiet_wp, bind_request_quiet|apply bind_request_learns]].
  intros [e|bound] s3 tr3 [(_&H3&_) [_ Hb]]; rewrite H2 in H3; [by left|].
  destruct bound as [[at_|chunks]|].
  - destruct Hb as [Hb Hbind]. by apply generate_lives.
  - eapply wp_mono; [|by apply replayed_phase]. intros o s' tr' ?. by left.
  - apply (generate_lives _ _ _ _ _ _ None); [done|done|]. by intros [].
Qed.

Lemma execute_lives s : cwp_ execute_ (λ _ _ tr', lived tr') s [].
Proof.
  unfold execute. apply wp_bind. eapply wp_mono; [|apply quiet_wp, authorise_quiet].
  intros [e|[served requested]] s1 tr1 (_&H1&_); [by left|]. cbn [fst snd]. cbv zeta. destruct (_ || _).
  - eapply wp_mono; [|apply quiet_wp; unfold or_index_error; only_calls]. intros o s2 tr2 (_&H2&_). left. by rewrite H2.
  - assert (∀ e tr, phase_of (tr ++ [e]) = step_phase (phase_of tr) e) as Hs by (intros; apply phase_of_snoc).
    unfold in_slot. walk_calls. intros [e|[]] _; [left; by rewrite Hs, H1|]. apply wp_finally.
    eapply wp_mono; [|apply serve_lives; by rewrite Hs, H1]. intros o s2 tr2 H2. walk_calls. intros [] _.
    destruct H2 as [H2|(at_&Hb&Ho)]; [left; by rewrite Hs, H2|]. right. exists at_. split.
    + destruct at_; [|done]. simpl in *. set_solver.
    + destruct Ho as [Ho|Ho]; rewrite Hs, Ho; [by left|by right].
Qed.

Abbreviation account_due := (due dumps_raw).

Lemma quiet_accounts tr R (c : ceff R) : quiet R c → ∀ r, account_due tr (clog R c r).
Proof. intros Hc r. destruct c; try done; cbn [clog]; by repeat case_match. Qed.

Lemma serve_accounts served requested floor s tr :
  pulled tr = [] → handed tr = [] → cobeys account_due (serve_ served requested floor) (λ _ _ _, True) s tr.
Proof.
  intros Hp Hh. assert (∀ {A} (p : cprog A) s tr, only quiet p →
    cobeys account_due p (λ _ _ tr', untouched tr tr') s tr) as Hq.
  { intros A p s0 tr0. apply quiet_untouched. intros. by apply quiet_accounts. }
  unfold serve. apply obeys_bind. eapply obeys_mono; [|apply Hq, route_quiet].
  intros [e|[[policy target] n]] s1 tr1 U1; [done|]. cbn [fst snd].
  apply obeys_bind. eapply obeys_mono; [|apply Hq, admit_quiet]. intros [e|[p w]] s2 tr2 U2; [done|]. cbn [fst snd].
  apply obeys_bind. eapply obeys_mono; [|apply Hq, bind_request_quiet]. intros [e|bound] s3 tr3 U3; [done|].
  destruct (untouched_trans _ _ _ (untouched_trans _ _ _ U1 U2) U3) as (_&_&Hp3&Hh3). rewrite Hp in Hp3. rewrite Hh in Hh3.
  assert (∀ a s, cobeys account_due (generate dumps_raw cfg a) (λ _ _ _, True) s tr3) as Hg
    by (intros a s0; by eapply generate_obeys).
  destruct bound as [[at_|chunks]|]; [| |apply Hg].
  - unfold run_bound, set_current. walk_calls. apply obeys_finally. eapply obeys_mono; [|apply Hg]. done.
  - eapply obeys_mono; [|apply (only_obeys _ _ _ yields); [|apply replayed_only]]; [done|].
    intros R c tr' Hc. by destruct c.
Qed.

Lemma execute_accounts s : cobeys account_due execute_ (λ _ _ _, True) s [].
Proof.
  assert (∀ {A} (p : cprog A) s tr, only quiet p →
    cobeys account_due p (λ _ _ tr', untouched tr tr') s tr) as Hq.
  { intros A p s0 tr0. apply quiet_untouched. intros. by apply quiet_accounts. }
  unfold execute. apply obeys_bind. eapply obeys_mono; [|apply Hq, authorise_quiet].
  intros [e|[served requested]] s1 tr1 (_&_&Hp&Hh); [done|]. cbn [fst snd]. cbv zeta. destruct (_ || _).
  - eapply obeys_mono; [|apply Hq; unfold or_index_error; only_calls]. done.
  - unfold in_slot. walk_calls. split; [done|]. intros [e|[]] _; [done|]. apply obeys_finally.
    eapply obeys_mono; [|apply serve_accounts]; [|by rewrite pulled_snoc, Hp|by rewrite handed_snoc, Hh].
    intros o s2 tr2 _. walk_calls. by split.
Qed.
(** ** The properties *)

(** [execute] was played to its end with the trace [tr], whatever its calls answered. *)
Definition runs (s : self) (o : cexn + unit) (s' : self) (tr : list cevent) : Prop :=
  exec clog (λ _ _ _ _, True) execute_ s [] o s' tr.

Lemma runs_due (due : list cevent → cevent → Prop) Q s o s' tr :
  cobeys due execute_ Q s [] → runs s o s' tr →
  Q o s' tr ∧ ∀ pre e post, tr = pre ++ e :: post → due pre e.
Proof.
  intros Ho Hr. destruct (obeys_due clog (λ _ _ _ _, True) (λ tr R c, ∀ r, due tr (clog R c r)) due _ _ _ _ _ _ _
    ltac:(auto) Ho Hr) as [HQ Hd].
  split; [done|]. intros pre e post He. eapply Hd; [done|]. apply prefix_nil.
Qed.

Lemma runs_lived s o s' tr : runs s o s' tr → lived tr.
Proof. intros Hr. pose proof (execute_lives s) as Hw. rewrite wp_exec in Hw. by eapply Hw. Qed.

Lemma lived_not_broken tr : lived tr → phase_of tr ≠ Broken.
Proof. intros [->|(?&_&[->| ->])]; done. Qed.

(** What was due when an event happened names the generation of the whole run. *)
Lemma runs_one_start s o s' tr a a' n n' x x' :
  runs s o s' tr → Started a n x ∈ tr → Started a' n' x' ∈ tr → a = a'.
Proof. intros Hr. apply one_start, lived_not_broken. by eapply runs_lived. Qed.

(** C18: Nothing is sent that does not fit.  Whatever the calls answer, a generation starts
    only with messages and tools that were themselves counted, by the tokenizer of the
    model that will read them or else by the estimate; the count stays within the
    configured limit, and the count, tripled when it is an estimate, and the output
    that is asked for stay below the window, which exceeds neither the registration nor
    the context the weights declare on the node that routing selected.  On Ollama the
    prompt fills at most half of that window, unless the catalogue holds a measurement
    of this very node, version, weights and shape. *)
Theorem nothing_is_sent_that_does_not_fit s o s' pre a out x post :
  runs s o s' (pre ++ Started a out x :: post) →
  ∃ policy n c, routed pre policy (g_target a) n ∧
    counted_as dumps_params cfg pre (g_target a) (g_messages a) (g_tools a) c (g_basis a) ∧
    (c ≤ g_counted a ≤ cf_max_context cfg)%Z ∧
    out = effective_max_tokens (q_max_tokens q) (cf_max_tokens cfg) ∧ x = registered (g_target a) ∧
    fits_model cfg pre n (g_target a) (g_messages a) (g_tools a) (g_thinking a) (g_counted a) (g_basis a) out
      (w_profile <$> g_widened a).
Proof.
  intros Hr. destruct (runs_due send_due (λ _ _ _, True) _ _ _ _ (execute_sends s []) Hr) as [_ Hd].
  destruct (Hd pre _ post eq_refl) as (policy&n&p&w&sv&rq&at_&Hroute&([(c&Hc&Hle) _]&Hmax&Hfit)&Ha&Hout&Hx&_).
  exists policy, n, c. rewrite Ha in Hfit |- *. simpl in *. subst out. by split_and!.
Qed.

(** No compaction is silent.  What is sent is what the caller composed, or else what
    one of the three tiers makes of it: the tool definitions reduced to the last of each
    name, old tool results replaced, or the oldest turns replaced by a summary with the
    recent ones as they were.  Then the key allows it, its effect was reported before
    the generation started, and the usage record names the tier. *)
Theorem no_compaction_is_silent s o s' pre a out x post :
  runs s o s' (pre ++ Started a out x :: post) →
  ∃ r, g_tier a = tier <$> r ∧ g_before a = tokens_before <$> r ∧ g_after a = tokens_after <$> r ∧
    (∀ u ok, Recorded u ok ∈ post → usage_tier u = g_tier a) ∧
    match r with
    | None => g_messages a = q_messages q ∧ g_tools a = q_tools q
    | Some r => compaction_enabled (q_actor q) = true ∧ Reported (to_disclosure r) ∈ pre ∧
        compacts ellipsis dash (q_messages q) (q_tools q) r ∧ g_messages a = c_messages r ∧ g_tools a = c_tools r
    end.
Proof.
  intros Hr. destruct (runs_due send_due (λ _ _ _, True) _ _ _ _ (execute_sends s []) Hr) as [_ Hd].
  destruct (Hd pre _ post eq_refl) as (policy&n&p&w&sv&rq&at_&_&([_ Hp] & _)&Ha&_).
  assert (∀ u ok, Recorded u ok ∈ post → usage_tier u = g_tier a) as Hu.
  { intros u ok (k1&k2&->)%list_elem_of_split.
    destruct (runs_due account_due (λ _ _ _, True) _ _ _ _ (execute_accounts s) Hr) as [_ Hacc].
    destruct (Hacc (pre ++ Started a out x :: k1) (Recorded u ok) k2) as (a'&n'&x'&fw&Hin&_&_&_&_&_&Ht);
      [by rewrite <- app_assoc|].
    rewrite Ht. f_equal. apply (runs_one_start _ _ _ _ a' a n' out x' x Hr); [|set_solver].
    change (Started a out x :: k1 ++ Recorded u ok :: k2) with ((Started a out x :: k1) ++ Recorded u ok :: k2).
    rewrite app_assoc. apply elem_of_app. by left. }
  exists (p_compaction p). rewrite Ha at 1 2 3. split; [done|]. split; [done|]. split; [done|]. split; [done|].
  rewrite Ha. simpl. destruct (p_compaction p); [|done]. by destruct Hp as (?&?&?&?&?).
Qed.

(** The slot is given back.  Whatever fails and wherever the caller leaves, the slot is
    held while routing is read, prompts counted, a stream read or a record written; it
    is asked for only when it is not held, released only when it is, and free at the end. *)
Theorem the_slot_is_given_back s o s' tr :
  runs s o s' tr → held tr = false ∧ ∀ pre e post, tr = pre ++ e :: post → slot_due pre e.
Proof. intros Hr. exact (runs_due slot_due (λ _ _ tr', held tr' = false) _ _ _ _ (execute_slot s [] eq_refl) Hr). Qed.

(** C19: Every generation is closed and billed once.  Whatever fails and wherever the caller
    leaves, either no stream was started, or one was: it was read only while open, its
    close was called once, and then it was billed once: a usage record was given to the
    store once, or, when the generation is bound to an attempt and a settlement is wired,
    its attempt was marked once and no record was given.  A write that fails is not tried
    again, and then there is no record, or no mark.  Nothing was handed over after the
    bill, and a transcript was written at most once. *)
Theorem every_generation_is_closed_and_recorded_once s o s' tr :
  runs s o s' tr →
  (phase_of tr = Waiting ∧ starts tr = [] ∧ records tr = [] ∧ marks tr = [] ∧ transcripts tr = []) ∨
  (∃ attempt, bound_to tr attempt ∧ is_over (bills attempt) (phase_of tr) ∧ length (starts tr) = 1 ∧ closes tr = 1 ∧
     billed_once (bills attempt) tr ∧ length (transcripts tr) ≤ 1).
Proof.
  intros Hr. pose proof (starts_once tr) as Hs. pose proof (phase_written tr) as Hw.
  destruct (runs_lived _ _ _ _ Hr) as [Hp|(attempt&Hb&Ho)].
  - left. rewrite Hp in Hs, Hw. by destruct Hw as (?&?&?&_).
  - right. exists attempt. split; [done|split; [done|]].
    destruct Ho as [Ho|Ho]; rewrite Ho in Hs, Hw; destruct Hw as (?&Ht&?); rewrite Ht; by split_and!; auto.
Qed.

(** C20: The record says what was handed over.  The chunks read are those handed to the
    caller, up to the first at which the ceiling was reached, and then at most eight that
    were withheld.  The tokens of a usage record are those of the chunks handed over and,
    of those withheld, of the last alone, and of that one only when it, or a chunk read
    before it, was terminal.  The prompt's tokens are the last the runtime reported, and a
    record, or a delivery mark, says completed only when every chunk read was handed over
    and none reached the ceiling.  A transcript holds the text of the chunks handed over
    and the prompt that was sent, each cut at the length a field may have and flagged
    when it was cut, and exists only if the caller's debug window was open. *)
Theorem the_record_says_what_was_handed_over s o s' tr pre e post :
  runs s o s' tr → tr = pre ++ e :: post →
  match e with
  | Recorded r _ => ∃ a n x fw withheld, Started a n x ∈ pre ∧
      (handed pre = fw ∨ handed pre = fw ++ [length_chunk]) ∧
      pulled pre = fw ++ withheld ∧ length withheld ≤ 8 ∧
      (withheld ≠ [] → (n ≤ tokens_of fw)%Z) ∧ (∀ k, 0 < k < length fw → (tokens_of (take k fw) < n)%Z) ∧
      usage_tokens r = (tokens_of fw + drained_terminal (pulled pre) withheld)%Z ∧
      usage_prompt_tokens r = last_prompt (pulled pre) ∧
      (usage_completed r = true → delivered_whole n pre)
  | Delivered _ completed _ => completed = true → ∃ a n x, Started a n x ∈ pre ∧ delivered_whole n pre
  | Transcribed e _ => ∃ a n x fw now, Started a n x ∈ pre ∧ Told now ∈ pre ∧
      (handed pre = fw ∨ handed pre = fw ++ [length_chunk]) ∧
      should_capture (g_actor a) now = true ∧ transcribes dumps_raw a e fw
  | _ => True
  end.
Proof.
  intros Hr ->. destruct (runs_due account_due (λ _ _ _, True) _ _ _ _ (execute_accounts s) Hr) as [_ Hd].
  specialize (Hd pre e post eq_refl). destruct e; try done; simpl in Hd.
  - destruct Hd as (a&n&x&fw&Hin&Hh&(w&(?&?&?&?)&?&?)&?&_). exists a, n, x, fw, w. by split_and!.
  - destruct Hd as (a&n&x&?&_&?). intros Hc. exists a, n, x. auto.
  - destruct Hd as (a&n&x&fw&now&?&?&?&?&?). exists a, n, x, fw, now. by split_and!.
Qed.
End Execute.

(** * A conversation of sixteen turns, summarised to fit a small window *)

Module Demo.
Definition no_text {A} (_ : A) : string := "".
Definition actor : Actor :=
  mk_actor "root" "root" ADMIN local (scope_set [CHAT_USE]) "default" None None None true (Some 1000%Z).
Definition model : Model :=
  mk_model "m" "alias" "ref" OLLAMA "node" LOADED ∅ (mk_profile (gb 5) 20) (Some LOADED) None (Some 0%Z) true None true 1.
Definition policy : RoutingPolicy := mk_policy "chat" [mk_candidate "alias" 1 (mk_requirement ∅ ∅ None)] None.
Definition config : config := mk_config true false true false false true false 2 100 600 true 1000000 (λ _ _, Some plain_read).
Definition turns : list Message := (λ i, mk_message USER (decimal i) [] None None) <$> seq 0 16.
Definition asked : request := mk_request actor "chat" turns None None [] None None None.

(** Three chunks, the second of which reaches the ceiling. *)
Definition word (text : string) : CompletionChunk := mk_chunk text None 1 0 "" [].
Definition last_word : CompletionChunk := mk_chunk "" (Some "stop") 1 7 "" [].
Definition long_answer : list CompletionChunk := [word "one"; word "two"; last_word].

(** Every message counts one, the runtime sends [chunks], and the caller stays if [stays]. *)
Definition answer (chunks : list CompletionChunk) (stays : bool) (tr : list cevent) (R : Type) (c : ceff R) : R :=
  match c in ceff R return R with
  | ENow => 1%Z
  | EMonotonic => fzero
  | ENewId => "id"%string
  | ERequestId => None
  | EAcquire => inr tt
  | ERelease => tt
  | EIssuable _ => inr []
  | EPolicy _ => inr (Some policy)
  | EModels => inr [model]
  | ENodes => inr [demo_node]
  | ECount _ m _ => inr (Some (Z.of_nat (length m)))
  | EParts _ _ => inr None
  | EMeasure _ _ _ => inl OtherError
  | ECapacity _ _ _ => inr (JInt 20)
  | ESummarise _ => inr "they counted"%string
  | ECacheGet _ => inr None
  | ECacheSet _ _ _ => inr tt
  | EReport _ => tt
  | ERepeat _ _ => inr None
  | EBind _ _ _ _ => inl OtherError
  | EStart _ _ _ => 5
  | EPull _ => inr (chunks !! length (pulled tr))
  | EClose => inr tt
  | EYield _ => if stays then inr tt else inl Cancelled
  | ERecordUsage _ => inr tt
  | EMarkDelivery _ _ => inr tt
  | ESettle _ => inr tt
  | EPromptLog _ => inr tt
  end.

Definition idle : self := mk_self (new_session None) None.
Definition play (chunks : list CompletionChunk) (stays : bool) :=
  run clog (answer chunks stays) (execute no_text no_text no_text (λ _, None) id (λ _, ""%string) Ascii.zero Ascii.zero config asked) idle [].

Definition played : bool → (cexn + unit) * self * list cevent := play long_answer.

Abbreviation runs_ := (runs no_text no_text no_text (λ _, None) id (λ _, ""%string) Ascii.zero Ascii.zero config asked).

Lemma played_runs stays : runs_ idle (played stays).1.1 (played stays).1.2 (played stays).2.
Proof.
  unfold played, play, runs. generalize (execute no_text no_text no_text (λ _, None) id (λ _, ""%string) Ascii.zero Ascii.zero config asked).
  intros p. by apply exec_run.
Qed.

Definition sent : generation :=
  mk_generation_args actor "chat" None model (summary_message "they counted" :: drop 10 turns) None true [] None None 7
    COUNT_BY_TOKENIZER None (Some 2%Z) (Some 16%Z) (Some 7%Z) None.
Definition trace : list cevent := (played true).2.
Definition before : list cevent := take 14 trace.
Definition after : list cevent := drop 15 trace.
Definition bill : UsageRecord :=
  mk_usage "id" "root" None "chat" None "alias" 3 7 0 false 1 "default" (Some 2%Z) (Some 16%Z) (Some 7%Z).

Lemma trace_starts : trace = before ++ Started sent 2 20 :: after.
Proof. vm_compute. reflexivity. Qed.
Lemma trace_bills : trace = take 27 trace ++ Recorded bill true :: drop 28 trace.
Proof. vm_compute. reflexivity. Qed.

Lemma starts_runs : runs_ idle (played true).1.1 (played true).1.2 (before ++ Started sent 2 20 :: after).
Proof. rewrite <- trace_starts. apply played_runs. Qed.

Example played_records :
  (played true).1.1 = inr tt ∧ (played false).1.1 = inl Cancelled ∧ handed trace = [word "one"; word "two"; length_chunk].
Proof. by vm_compute. Qed.

(** An answer whose last chunk brings it to the ceiling was handed over whole, with its
    terminal chunk, and is recorded as not completed. *)
Definition whole_answer : list CompletionChunk := [word "one"; last_word].
Example a_whole_answer_may_not_be_completed :
  let tr := (play whole_answer true).2 in
  handed tr = whole_answer ∧
  omap (λ e, match e with Recorded r _ => Some (usage_tokens r, usage_completed r) | _ => None end) tr = [(2%Z, false)].
Proof. by vm_compute. Qed.

(** What the runtime sends after its terminal chunk, when that one was handed over and
    reached the ceiling, is withheld and billed all the same. *)
Example what_follows_the_end_is_billed :
  let tr := (play (whole_answer ++ [mk_chunk "more" None 5 0 "" []]) true).2 in
  handed tr = whole_answer ∧
  omap (λ e, match e with Recorded r _ => Some (usage_tokens r, usage_completed r) | _ => None end) tr = [(7%Z, false)].
Proof. by vm_compute. Qed.
End Demo.

Lemma nothing_is_sent_that_does_not_fit_witness :
  ∃ policy n c, routed Demo.before policy Demo.model n ∧
    counted_as Demo.no_text Demo.config Demo.before Demo.model (g_messages Demo.sent) [] c COUNT_BY_TOKENIZER ∧
    (c ≤ 7 ≤ 100)%Z ∧ 2%Z = effective_max_tokens None 2 ∧ 20%Z = registered Demo.model ∧
    fits_model Demo.config Demo.before n Demo.model (g_messages Demo.sent) [] true 7 COUNT_BY_TOKENIZER 2 None.
Proof. exact (nothing_is_sent_that_does_not_fit _ _ _ _ _ _ _ _ _ _ _ _ _ _ _ _ _ _ Demo.starts_runs). Defined.

Lemma no_compaction_is_silent_witness :
  ∃ r, Some 2%Z = tier <$> r ∧ Some 16%Z = tokens_before <$> r ∧ Some 7%Z = tokens_after <$> r ∧
    (∀ u ok, Recorded u ok ∈ Demo.after → usage_tier u = Some 2%Z) ∧
    match r with
    | None => g_messages Demo.sent = Demo.turns ∧ @nil ToolDefinition = []
    | Some r => compaction_enabled Demo.actor = true ∧ Reported (to_disclosure r) ∈ Demo.before ∧
        compacts Ascii.zero Ascii.zero Demo.turns [] r ∧ g_messages Demo.sent = c_messages r ∧ [] = c_tools r
    end.
Proof. exact (no_compaction_is_silent _ _ _ _ _ _ _ _ _ _ _ _ _ _ _ _ _ _ Demo.starts_runs). Defined.

Lemma the_slot_is_given_back_witness :
  held Demo.trace = false ∧ ∀ pre e post, Demo.trace = pre ++ e :: post → slot_due pre e.
Proof. exact (the_slot_is_given_back _ _ _ _ _ _ _ _ _ _ _ _ _ _ (Demo.played_runs true)). Defined.

(** The caller left at the first chunk. *)
Lemma every_generation_is_closed_and_recorded_once_witness :
  let tr := (Demo.played false).2 in
  (phase_of tr = Waiting ∧ starts tr = [] ∧ records tr = [] ∧ marks tr = [] ∧ transcripts tr = []) ∨
  (∃ attempt, bound_to Demo.config tr attempt ∧ is_over (bills Demo.config attempt) (phase_of tr) ∧
    length (starts tr) = 1 ∧ closes tr = 1 ∧ billed_once (bills Demo.config attempt) tr ∧ length (transcripts tr) ≤ 1).
Proof. exact (every_generation_is_closed_and_recorded_once _ _ _ _ _ _ _ _ _ _ _ _ _ _ (Demo.played_runs false)). Defined.

Lemma the_record_says_what_was_handed_over_witness :
  ∃ a n x fw withheld, Started a n x ∈ take 27 Demo.trace ∧
    (handed (take 27 Demo.trace) = fw ∨ handed (take 27 Demo.trace) = fw ++ [length_chunk]) ∧
    pulled (take 27 Demo.trace) = fw ++ withheld ∧ length withheld ≤ 8 ∧
    (withheld ≠ [] → (n ≤ tokens_of fw)%Z) ∧ (∀ k, 0 < k < length fw → (tokens_of (take k fw) < n)%Z) ∧
    3%Z = (tokens_of fw + drained_terminal (pulled (take 27 Demo.trace)) withheld)%Z ∧
    7%Z = last_prompt (pulled (take 27 Demo.trace)) ∧
    (false = true → delivered_whole n (take 27 Demo.trace)).
Proof.
  exact (the_record_says_what_was_handed_over _ _ _ _ _ _ _ _ _ _ _ _ _ _ _ _ _ (Demo.played_runs true) Demo.trace_bills).
Defined.
