(* ===== verification/Chunking.v ===== *)
(** Splitting a document's text into passages
    ([domain/services/chunking.py]).

    A text is the list of its code points.  [pieces] is what a scan for
    non-overlapping matches leaves between them: [re.split], and, joined again,
    [str.replace].  The theorems: what the split may lose, and that it cuts
    nothing it need not. *)

From S2P Require Export Prelude.

Abbreviation text := (list Z).

(** A literal of the source. *)
Definition codes (s : string) : text := map ascii_code (String.list_ascii_of_string s).

(** * Scanning *)

(** The parts of [l] between the leftmost non-overlapping matches, where [m l'] is
    the length of the match at the head of [l']; [skip] characters of a match
    are still to be passed over. *)
Fixpoint pieces (m : text → option nat) (skip : nat) (l : text) : list text :=
  match l with
  | [] => [[]]
  | x :: rest =>
      match skip with
      | S k => pieces m k rest
      | O =>
          match m l with
          | Some (S k) => [] :: pieces m k rest
          | _ => match pieces m 0 rest with p :: ps => (x :: p) :: ps | [] => [[x]] end
          end
      end
  end.

(** [sep.join(l)] *)
Fixpoint str_join (sep : text) (l : list text) : text :=
  match l with
  | [] => []
  | [x] => x
  | x :: rest => x ++ sep ++ str_join sep rest
  end.

Fixpoint starts_with (p l : text) : bool :=
  match p, l with
  | [], _ => true
  | x :: p, y :: l => (x =? y)%Z && starts_with p l
  | _, [] => false
  end.
Definition literal (p : text) (l : text) : option nat := if starts_with p l then Some (length p) else None.

(** [text.replace(old, new)], for a nonempty [old]. *)
Definition replace (old new l : text) : text := str_join new (pieces (literal old) 0 l).

Definition NL : Z := 10.
Definition CR : Z := 13.

(** The length of what [\s*\n] matches: the longest prefix of whitespace that ends
    in a newline. *)
Fixpoint to_newline (l : text) : option nat :=
  match l with
  | [] => None
  | x :: rest =>
      if is_space x then
        match to_newline rest with
        | Some n => Some (S n)
        | None => if (x =? NL)%Z then Some 1 else None
        end
      else None
  end.

(** [_PARAGRAPH], [\n\s*\n]. *)
Definition paragraph_break (l : text) : option nat :=
  match l with
  | x :: rest => if (x =? NL)%Z then S <$> to_newline rest else None
  | [] => None
  end.

Definition strip (l : text) : text := strip_with is_space l.

(** * The split *)

Definition DEFAULT_CHUNK_CHARS : nat := 1200.
Definition DEFAULT_OVERLAP_CHARS : nat := 150.
Definition MAX_CHUNKS_PER_DOCUMENT : Z := 5000.

Record Chunk := mk_chunk { index : Z; chunk_body : text }.

Inductive split_error : Type := ValueError.

(** [range(0, n, step)] *)
Definition starts (n step : nat) : list nat := map (λ k, k * step) (seq 0 ((n + step - 1) / step)).

Definition _hard_split (chunk_chars overlap_chars : nat) (paragraph : text) : list text :=
  let step := chunk_chars - overlap_chars in
  let windows := map (λ start, take chunk_chars (drop start paragraph)) (starts (length paragraph) step) in
  match last windows with
  | Some w => if bool_decide (1 < length windows) && bool_decide (length w ≤ overlap_chars)
              then take (length windows - 1) windows else windows
  | None => windows
  end.

(** The loop of [chunk_text]: [current] is the passage being filled. *)
Fixpoint pack (chunk_chars overlap_chars : nat) (current : text) (paragraphs : list text) : list text :=
  let flush rest := match current with [] => rest | _ => current :: rest end in
  match paragraphs with
  | [] => flush []
  | paragraph :: rest =>
      let paragraph := strip paragraph in
      match paragraph with
      | [] => pack chunk_chars overlap_chars current rest
      | _ =>
          if bool_decide (chunk_chars < length paragraph)
          then flush (_hard_split chunk_chars overlap_chars paragraph ++ pack chunk_chars overlap_chars [] rest)
          else
            let candidate := match current with [] => paragraph | _ => current ++ [NL; NL] ++ paragraph end in
            if bool_decide (chunk_chars < length candidate)
            then current :: pack chunk_chars overlap_chars paragraph rest
            else pack chunk_chars overlap_chars candidate rest
      end
  end.

Definition enumerate (l : list text) : list Chunk := imap (λ i piece, mk_chunk (Z.of_nat i) piece) l.

Definition normalise (t : text) : text := strip (replace [CR; NL] [NL] t).

(** The passages before they are counted. *)
Definition passages (chunk_chars overlap_chars : nat) (t : text) : list text :=
  pack chunk_chars overlap_chars [] (pieces paragraph_break 0 (normalise t)).

Definition chunk_text (chunk_chars overlap_chars : nat) (t : text) : res split_error (list Chunk) :=
  if bool_decide (chunk_chars ≤ overlap_chars) then Raise ValueError
  else match normalise t with
       | [] => Ret []
       | _ => Ret (enumerate (take (Z.to_nat MAX_CHUNKS_PER_DOCUMENT) (passages chunk_chars overlap_chars t)))
       end.

(** * What a split may lose *)

(** The characters that show, in order. *)
Definition visible (l : text) : text := List.filter (λ c, negb (is_space c)) l.

Lemma visible_app l k : visible (l ++ k) = visible l ++ visible k.
Proof. apply List.filter_app. Qed.

Lemma visible_cons x l : visible (x :: l) = visible [x] ++ visible l.
Proof. apply (visible_app [x]). Qed.
#[local] Arguments visible : simpl never.

Lemma visible_drop_while l : visible (drop_while is_space l) = visible l.
Proof.
  induction l as [|x l IH]; simpl; [done|]. destruct (is_space x) eqn:Hx; [|done].
  rewrite IH, (visible_cons x l). unfold visible. simpl. by rewrite Hx.
Qed.

Lemma visible_reverse l : visible (reverse l) = reverse (visible l).
Proof.
  induction l as [|x l IH]; [done|]. rewrite reverse_cons, visible_app, IH, (visible_cons x l), reverse_app.
  f_equal. unfold visible. simpl. by destruct (is_space x).
Qed.

Lemma visible_strip l : visible (strip l) = visible l.
Proof.
  unfold strip, strip_with. rewrite visible_reverse, visible_drop_while, visible_reverse, visible_drop_while.
  apply reverse_involutive.
Qed.

(** A scan whose matches are whitespace keeps what shows. *)
Lemma visible_pieces m skip l :
  (∀ l k, m l = Some k → visible (take k l) = []) →
  visible (concat (pieces m skip l)) = visible (drop skip l).
Proof.
  intros Hm. revert skip. induction l as [|x l IH]; intros skip; simpl; [by rewrite drop_nil|].
  destruct skip as [|skip]; [|apply IH]. simpl.
  destruct (m (x :: l)) as [[|k]|] eqn:Hx.
  2: { simpl. rewrite IH. pose proof (Hm _ _ Hx) as Hs. simpl in Hs.
       rewrite visible_cons in Hs. transitivity (visible [x] ++ visible (take k l ++ drop k l)).
       - by rewrite visible_app, app_assoc, Hs.
       - by rewrite take_drop, <- visible_cons. }
  all: specialize (IH 0); rewrite drop_0 in IH; destruct (pieces m 0 l) as [|p ps]; simpl in *.
  all: rewrite (visible_cons x l), <- IH; by rewrite <- ?(visible_cons x).
Qed.

Lemma visible_join sep ps : visible sep = [] → visible (str_join sep ps) = visible (concat ps).
Proof.
  intros Hs. induction ps as [|p ps IH]; simpl; [done|]. destruct ps as [|q ps]; [by rewrite app_nil_r|].
  rewrite !visible_app, Hs, IH. done.
Qed.

Lemma to_newline_blank l k : to_newline l = Some k → visible (take k l) = [].
Proof.
  revert k. induction l as [|x l IH]; intros k; simpl; [done|].
  destruct (is_space x) eqn:Hx; [|done]. assert (visible [x] = []) as Hb by (unfold visible; simpl; by rewrite Hx).
  destruct (to_newline l) as [n|].
  - intros [= <-]. simpl. rewrite visible_cons, Hb. by apply IH.
  - destruct (x =? NL)%Z; [|done]. by intros [= <-].
Qed.

Lemma paragraph_break_blank l k : paragraph_break l = Some k → visible (take k l) = [].
Proof.
  destruct l as [|x l]; simpl; [done|]. destruct (x =? NL)%Z eqn:Hx; [|done].
  apply Z.eqb_eq in Hx as ->. destruct (to_newline l) eqn:Hl; [|done]. intros [= <-]. simpl. by apply to_newline_blank.
Qed.

Lemma starts_with_take p l : starts_with p l = true → take (length p) l = p.
Proof.
  revert l. induction p as [|x p IH]; intros [|y l]; simpl; [done..|].
  rewrite andb_true_iff, Z.eqb_eq. intros [-> Hp]. by rewrite IH.
Qed.

Lemma literal_take p l k : literal p l = Some k → take k l = p.
Proof. unfold literal. destruct (starts_with p l) eqn:Hp; [|done]. intros [= <-]. by apply starts_with_take. Qed.

Lemma visible_normalise t : visible (normalise t) = visible t.
Proof.
  unfold normalise, replace. rewrite visible_strip, visible_join by done. rewrite visible_pieces; [by rewrite drop_0|].
  intros l k Hk. by rewrite (literal_take _ _ _ Hk).
Qed.

(** ** Windows *)

Section Windows.
Context (chunk_chars overlap_chars : nat) (Hsizes : overlap_chars < chunk_chars).
Let step := chunk_chars - overlap_chars.
Definition window (p : text) (k : nat) : text := take chunk_chars (drop (k * (chunk_chars - overlap_chars)) p).

(** The windows of a paragraph, after a last one that adds nothing is dropped. *)
Lemma hard_split_windows p : p ≠ [] →
  ∃ m, _hard_split chunk_chars overlap_chars p = map (window p) (seq 0 (S m)) ∧
       m * step < length p ≤ m * step + chunk_chars.
Proof.
  intros Hp. assert (0 < length p) as Hlen by (destruct p; [done|simpl; lia]).
  assert (step ≠ 0) as Hs by (unfold step; lia).
  pose proof (Nat.div_mod (length p + step - 1) step Hs) as Hdm.
  pose proof (Nat.mod_upper_bound (length p + step - 1) step Hs) as Hub.
  assert (map (λ start, take chunk_chars (drop start p)) (starts (length p) step) =
          map (window p) (seq 0 ((length p + step - 1) / step))) as Hwin by (unfold starts; by rewrite map_map).
  destruct ((length p + step - 1) / step) as [|m]; [lia|].
  assert (length p ≤ S m * step ∧ S m * step < length p + step) as [Hm1 Hm2] by lia.
  unfold _hard_split. fold step. rewrite Hwin.
  assert (last (map (window p) (seq 0 (S m))) = Some (window p m)) as -> by (rewrite seq_S, map_app; apply last_snoc).
  rewrite length_map, length_seq.
  destruct (bool_decide (1 < S m) && bool_decide _) eqn:Hpop.
  - apply andb_true_iff in Hpop as [Hm1'%bool_decide_eq_true Hshort%bool_decide_eq_true].
    destruct m as [|m]; [lia|]. exists m. split.
    + rewrite (seq_S (S m)), map_app. replace (S (S m) - 1) with (S m) by lia.
      apply take_app_length'. by rewrite length_map, length_seq.
    + unfold window in Hshort. rewrite length_take, length_drop in Hshort.
      change (0 + S m) with (S m) in Hshort. fold step in Hshort. unfold step in *. nia.
  - exists m. split; [done|]. unfold step in *. nia.
Qed.

Lemma window_size p k : k * step < length p → 0 < length (window p k) ≤ chunk_chars.
Proof. intros Hk. unfold window. fold step. rewrite length_take, length_drop. lia. Qed.

(** The windows put together again, each but the first without the overlap. *)
Lemma windows_reassemble p m :
  concat (window p 0 :: map (λ k, drop overlap_chars (window p k)) (seq 1 m)) = take (m * step + chunk_chars) p.
Proof.
  induction m as [|m IH]; [simpl; unfold window; by rewrite app_nil_r, drop_0|].
  rewrite seq_S, map_app. change (window p 0 :: ?a ++ ?b) with ((window p 0 :: a) ++ b).
  rewrite concat_app, IH. simpl. rewrite app_nil_r. unfold window. fold step.
  rewrite skipn_firstn_comm, drop_drop.
  replace (S m * step + overlap_chars) with (m * step + chunk_chars) by (unfold step; lia).
  replace (chunk_chars - overlap_chars) with step by done.
  rewrite take_take_drop. f_equal. lia.
Qed.

(** A part of a paragraph not longer than the overlap, and one more, is whole in a
    window. *)
Lemma window_holds p m l1 fact l2 :
  length p ≤ m * step + chunk_chars → p = l1 ++ fact ++ l2 → length fact ≤ S overlap_chars →
  ∃ k w1 w2, k ≤ m ∧ window p k = w1 ++ fact ++ w2.
Proof.
  intros Hm Hp Hfact. assert (step ≠ 0) as Hs by (unfold step; lia).
  pose proof (Nat.div_mod (length l1) step Hs). pose proof (Nat.mod_upper_bound (length l1) step Hs).
  assert (length p = length l1 + length fact + length l2) as Hl by (rewrite Hp, !length_app; lia).
  set (k := min (length l1 / step) m).
  assert (k * step ≤ length l1) as Hk1 by (unfold k; nia).
  assert (length l1 + length fact ≤ k * step + chunk_chars) as Hk2.
  { unfold k. destruct (decide (length l1 / step ≤ m)).
    - rewrite Nat.min_l by done. unfold step in *. lia.
    - rewrite Nat.min_r by lia. lia. }
  exists k, (drop (k * step) l1), (take (chunk_chars - (length l1 - k * step) - length fact) l2).
  split; [unfold k; lia|]. unfold window. fold step. rewrite Hp, drop_app_le by done.
  rewrite take_app_ge by (rewrite length_drop; lia). rewrite length_drop, take_app_ge by lia. done.
Qed.
End Windows.

(** What the windows of a paragraph are, without saying how they are cut: each is
    the part of the paragraph that starts one step after the one before and is as
    long as a passage may be, as far as there is any, none is empty, and put
    together without their overlaps they are the paragraph; the last reaches its end. *)
Definition windows_of (chunk_chars overlap_chars : nat) (p : text) (ws : list text) : Prop :=
  (∃ w rest, ws = w :: rest ∧ w ++ concat (map (drop overlap_chars) rest) = p) ∧
  length p ≤ (length ws - 1) * (chunk_chars - overlap_chars) + chunk_chars ∧
  ∀ i w, ws !! i = Some w →
    w = take chunk_chars (drop (i * (chunk_chars - overlap_chars)) p) ∧ w ≠ [].

Lemma hard_split_windows_of chunk_chars overlap_chars p :
  overlap_chars < chunk_chars < length p →
  windows_of chunk_chars overlap_chars p (_hard_split chunk_chars overlap_chars p).
Proof.
  intros [Hsizes Hlong].
  destruct (hard_split_windows chunk_chars overlap_chars Hsizes p) as (m&Hm&Hlow&Hhigh);
    [by destruct p; simpl in *; [lia|]|]. split_and!.
  - rewrite Hm. simpl. eexists _, _. split; [done|]. rewrite map_map.
    rewrite <- (firstn_all2 p (n := m * (chunk_chars - overlap_chars) + chunk_chars)) at 2 by lia.
    by rewrite <- windows_reassemble.
  - rewrite Hm, length_map, length_seq. by replace (S m - 1) with m by lia.
  - intros i w. rewrite Hm. change (map ?f ?l) with (f <$> l). rewrite list_lookup_fmap.
    destruct (seq 0 (S m) !! i) as [k|] eqn:Hk; [|done]. intros [= <-].
    apply lookup_seq in Hk as [-> Hk]. split; [done|].
    pose proof (window_size chunk_chars overlap_chars Hsizes p (0 + i)) as Hw.
    destruct (window chunk_chars overlap_chars p (0 + i)); [simpl in Hw; nia|done].
Qed.

(** ** What the paragraphs of a text are

    The same, for the paragraphs: how a text is laid out, without a word on how it
    is scanned. *)

Definition blank (w : text) : Prop := Forall (λ c, is_space c = true) w.

(** A blank line: newlines at both ends, and only whitespace between. *)
Definition blank_line (w : text) : Prop := ∃ mid, w = NL :: mid ++ [NL] ∧ blank mid.
Definition holds_blank_line (w : text) : Prop := ∃ l1 b l2, w = l1 ++ b ++ l2 ∧ blank_line b.

(** A paragraph shows something at both ends and holds no blank line. *)
Definition a_paragraph (p : text) : Prop :=
  (∃ c rest, p = c :: rest ∧ is_space c = false) ∧ (∃ rest c, p = rest ++ [c] ∧ is_space c = false) ∧
  ¬ holds_blank_line p.

(** [l] is whitespace and the paragraphs [ps] in turn, any two of them parted by a
    blank line; if [parted], what comes before is another paragraph. *)
Inductive laid_out : bool → text → list text → Prop :=
  | laid_end parted w : blank w → laid_out parted w []
  | laid_more parted w p l ps :
      blank w → (parted = true → holds_blank_line w) → a_paragraph p → laid_out true l ps →
      laid_out parted (w ++ p ++ l) (p :: ps).

Lemma to_newline_line l n :
  to_newline l = Some n → ∃ mid, take n l = mid ++ [NL] ∧ blank mid.
Proof.
  revert n. induction l as [|x l IH]; intros n; simpl; [done|]. destruct (is_space x) eqn:Hx; [|done].
  destruct (to_newline l) as [k|].
  - intros [= <-]. destruct (IH k eq_refl) as (mid&Ht&Hb). exists (x :: mid). simpl. rewrite Ht.
    split; [done|by constructor].
  - destruct (x =? NL)%Z eqn:Hn; [|done]. apply Z.eqb_eq in Hn as ->. intros [= <-].
    exists []. split; [done|constructor].
Qed.

Lemma paragraph_break_line l n : paragraph_break l = Some n → blank_line (take n l).
Proof.
  destruct l as [|x l]; simpl; [done|]. destruct (x =? NL)%Z eqn:Hx; [|done]. apply Z.eqb_eq in Hx as ->.
  destruct (to_newline l) as [k|] eqn:Hk; [|done]. intros [= <-].
  destruct (to_newline_line l k Hk) as (mid&Ht&Hb). exists mid. simpl. by rewrite Ht.
Qed.

Lemma to_newline_found mid l : blank mid → is_Some (to_newline (mid ++ NL :: l)).
Proof.
  induction 1 as [|x mid Hx _ IH]; simpl.
  - destruct (to_newline l); by eexists.
  - rewrite Hx. destruct IH as [k ->]. by eexists.
Qed.

Lemma paragraph_break_found b l : blank_line b → is_Some (paragraph_break (b ++ l)).
Proof.
  intros (mid&->&Hb). simpl. rewrite <- app_assoc. simpl.
  destruct (to_newline_found mid l Hb) as [k ->]. by eexists.
Qed.

(** A scan goes over a match in one step. *)
Lemma pieces_skip m k l : pieces m k l = pieces m 0 (drop k l).
Proof. revert l. induction k as [|k IH]; intros [|x l]; simpl; [done..|apply IH]. Qed.

Lemma to_newline_length l n : to_newline l = Some n → n ≤ length l.
Proof.
  revert n. induction l as [|x l IH]; intros n; simpl; [done|]. destruct (is_space x); [|done].
  destruct (to_newline l) as [k|]; [intros [= <-]; specialize (IH k eq_refl); lia|].
  destruct (x =? NL)%Z; [|done]. intros [= <-]. lia.
Qed.

Lemma paragraph_break_length x l n : paragraph_break (x :: l) = Some n → ∃ k, n = S k ∧ k ≤ length l.
Proof.
  simpl. destruct (x =? NL)%Z; [|done]. destruct (to_newline l) as [k|] eqn:Hk; [|done]. intros [= <-].
  exists k. split; [done|]. by apply to_newline_length.
Qed.

(** What a scan for blank lines leaves: pieces with none inside, parted by one. *)
Inductive woven : text → list text → Prop :=
  | woven_one p : ¬ holds_blank_line p → woven p [p]
  | woven_more p b l ps : ¬ holds_blank_line p → blank_line b → woven l ps → woven (p ++ b ++ l) (p :: ps).

(** A character before which no blank line begins joins the first piece. *)
Lemma no_line_cons x p l :
  paragraph_break (x :: p ++ l) = None → ¬ holds_blank_line p → ¬ holds_blank_line (x :: p).
Proof.
  intros Hx Hp (l1&b&l2&Heq&Hb). destruct l1 as [|y l1]; simpl in Heq.
  - destruct (paragraph_break_found b (l2 ++ l) Hb) as [k Hk].
    change (x :: p ++ l) with ((x :: p) ++ l) in Hx. rewrite Heq, <- app_assoc, Hk in Hx. done.
  - injection Heq as -> ->. apply Hp. by exists l1, b, l2.
Qed.

Lemma woven_pieces l : woven l (pieces paragraph_break 0 l).
Proof.
  remember (length l) as n eqn:Hn. revert l Hn. induction n as [n IH] using lt_wf_ind. intros l ->.
  assert (¬ holds_blank_line []) as Hnil.
  { intros (l1&b&l2&Heq&mid&->&_). by destruct l1. }
  destruct l as [|x l]; [by constructor|]. cbn [pieces].
  destruct (paragraph_break (x :: l)) as [k|] eqn:Hm.
  - destruct (paragraph_break_length x l k Hm) as (k'&->&Hk). rewrite pieces_skip.
    pose proof (paragraph_break_line _ _ Hm) as Hline. simpl in Hline.
    assert (woven ([] ++ (x :: take k' l) ++ drop k' l) ([] :: pieces paragraph_break 0 (drop k' l))) as Hw.
    { constructor; [done..|]. eapply IH; [|done]. simpl. rewrite length_drop. lia. }
    simpl in Hw. by rewrite take_drop in Hw.
  - specialize (IH (length l) ltac:(simpl; lia) l eq_refl).
    destruct IH as [p Hp|p b r ps Hp Hb Hr].
    + constructor. apply (no_line_cons x p []); [by rewrite app_nil_r|done].
    + apply (woven_more (x :: p)); [|done..]. by apply (no_line_cons x p (b ++ r)).
Qed.

(** Stripping takes only whitespace away, and all of it. *)
Lemma blank_drop_while p : ∃ w, p = w ++ drop_while is_space p ∧ blank w.
Proof.
  induction p as [|x p (w&Hw&Hb)]; [by exists []; split; [|constructor]|].
  simpl. destruct (is_space x) eqn:Hx; [|by exists []; split; [|constructor]].
  exists (x :: w). simpl. rewrite <- Hw. split; [done|by constructor].
Qed.

Lemma blank_app w1 w2 : blank w1 → blank w2 → blank (w1 ++ w2).
Proof. intros. by apply Forall_app. Qed.

Lemma strip_spec p :
  ∃ w1 w2, p = w1 ++ strip p ++ w2 ∧ blank w1 ∧ blank w2 ∧
    (strip p ≠ [] → ¬ holds_blank_line p → a_paragraph (strip p)).
Proof.
  destruct (blank_drop_while p) as (w1&H1&Hb1).
  destruct (blank_drop_while (reverse (drop_while is_space p))) as (w2&H2&Hb2).
  assert (drop_while is_space p = strip p ++ reverse w2) as H2'.
  { unfold strip, strip_with. by rewrite <- reverse_app, <- H2, reverse_involutive. }
  exists w1, (reverse w2). rewrite <- H2'. split_and!; [done|done|by apply Forall_reverse|].
  intros Hne Hno. split_and!.
  - destruct (strip p) as [|c rest] eqn:Hs; [done|]. exists c, rest. split; [done|].
    simpl in H2'. by eapply drop_while_head.
  - destruct (drop_while is_space (reverse (drop_while is_space p))) as [|c rest] eqn:Hr.
    { unfold strip, strip_with in Hne. by rewrite Hr in Hne. }
    exists (reverse rest), c. split; [|by eapply drop_while_head].
    unfold strip, strip_with. by rewrite Hr, reverse_cons.
  - intros (l1&b&l2&Heq&Hb). apply Hno. exists (w1 ++ l1), b, (l2 ++ reverse w2). split; [|done].
    rewrite H1 at 1. rewrite H2', Heq. by rewrite <- !app_assoc.
Qed.

Lemma laid_lead parted parted' w l ps :
  blank w → (parted' = true → parted = true ∨ holds_blank_line w) → laid_out parted l ps →
  laid_out parted' (w ++ l) ps.
Proof.
  intros Hw Hp Hl. destruct Hl as [parted w' Hw'|parted w' p l ps Hw' Hline Hpar Hl].
  - constructor. by apply blank_app.
  - rewrite app_assoc. constructor; [by apply blank_app| |done..].
    intros [->|(l1&b&l2&->&Hb)]%Hp.
    + destruct (Hline eq_refl) as (l1&b&l2&->&Hb). exists (w ++ l1), b, l2. by rewrite <- app_assoc.
    + exists l1, b, (l2 ++ w'). by rewrite <- !app_assoc.
Qed.

Lemma laid_trail parted l ps w : blank w → laid_out parted l ps → laid_out parted (l ++ w) ps.
Proof.
  intros Hw. induction 1 as [parted w' Hw'|parted w' p l ps Hw' Hline Hpar Hl IH].
  - constructor. by apply blank_app.
  - rewrite <- !app_assoc. by constructor.
Qed.

Lemma blank_line_blank b : blank_line b → blank b.
Proof. intros (mid&->&Hb). constructor; [done|]. apply blank_app; [done|by repeat constructor]. Qed.

(** The pieces, stripped, less the empty ones, are the paragraphs. *)
Lemma woven_laid l ps :
  woven l ps → laid_out false l (List.filter (λ p, negb (bool_decide (p = []))) (map strip ps)).
Proof.
  induction 1 as [p Hno|p b l ps Hno Hb _ IH]; simpl;
    destruct (strip_spec p) as (w1&w2&Hp&Hw1&Hw2&Hpar); case_bool_decide as Hs; simpl.
  - constructor. rewrite Hp, Hs. by apply blank_app.
  - rewrite Hp at 1. constructor; [done..|by apply Hpar|by constructor].
  - rewrite app_assoc. eapply laid_lead; [|by intros ?|exact IH].
    apply blank_app; [|by apply blank_line_blank]. rewrite Hp, Hs. by apply blank_app.
  - rewrite Hp at 1. rewrite <- !app_assoc. constructor; [done..|by apply Hpar|].
    rewrite app_assoc. eapply laid_lead; [| |exact IH].
    + apply blank_app; [done|by apply blank_line_blank].
    + intros _. right. exists w2, b, []. by rewrite app_nil_r.
Qed.

(** * How passages are made

    A passage is either a few paragraphs that were packed together, or a window
    of one too long for any passage. *)

Inductive group : Type :=
  | Packed (paragraphs : list text)
  | Cut (paragraph : text) (windows : list text).

Definition BLANK_LINE : text := [NL; NL].
Definition rendered (g : group) : list text :=
  match g with Packed ps => [str_join BLANK_LINE ps] | Cut _ ws => ws end.
Definition members (g : group) : list text := match g with Packed ps => ps | Cut p _ => [p] end.

(** What is packed fits, and what is cut does not. *)
Definition sized (chunk_chars overlap_chars : nat) (g : group) : Prop :=
  Forall (λ p, p ≠ []) (members g) ∧
  match g with
  | Packed ps => ps ≠ [] ∧ length (str_join BLANK_LINE ps) ≤ chunk_chars
  | Cut p ws => chunk_chars < length p ∧ windows_of chunk_chars overlap_chars p ws
  end.

(** Packing stops only where the next paragraph would not have fitted. *)
Fixpoint tight (chunk_chars : nat) (gs : list group) : Prop :=
  match gs with
  | [] => True
  | g :: rest =>
      match g, rest with
      | Packed ps, Packed (q :: _) :: _ => chunk_chars < length (str_join BLANK_LINE (ps ++ [q]))
      | _, _ => True
      end ∧ tight chunk_chars rest
  end.

(** The paragraphs of a text: what lies between blank lines, if anything shows. *)
Definition paragraphs (t : text) : list text :=
  List.filter (λ p, negb (bool_decide (p = []))) (map strip (pieces paragraph_break 0 (normalise t))).

Lemma paragraphs_laid_out t : laid_out false (replace [CR; NL] [NL] t) (paragraphs t).
Proof.
  destruct (strip_spec (replace [CR; NL] [NL] t)) as (w1&w2&Hr&Hw1&Hw2&_).
  rewrite Hr. apply (laid_lead false); [done|by intros ?|]. apply laid_trail; [done|].
  apply woven_laid, woven_pieces.
Qed.

Section Packing.
Context (chunk_chars overlap_chars : nat) (Hsizes : overlap_chars < chunk_chars).

Lemma join_snoc sep ps q : ps ≠ [] → str_join sep (ps ++ [q]) = str_join sep ps ++ sep ++ q.
Proof.
  induction ps as [|p [|p' ps] IH]; intros Hne; simpl in *; [done|done|].
  rewrite IH by done. by rewrite <- !app_assoc.
Qed.

Lemma join_nonempty sep ps : ps ≠ [] → Forall (λ p, p ≠ []) ps → str_join sep ps ≠ [].
Proof. intros Hne Hall. destruct Hall as [|p [|q ps] Hp]; simpl; [done|done|]. by destruct p. Qed.

(** What the loop is about to do with the paragraphs it has packed so far. *)
Definition pending (ps : list text) : Prop :=
  Forall (λ p, p ≠ []) ps ∧ length (str_join BLANK_LINE ps) ≤ chunk_chars.
Definition starts_group (ps : list text) (gs : list group) : Prop :=
  ps ≠ [] → ∃ more rest, gs = Packed (ps ++ more) :: rest.

Lemma flush_pending ps (l : list text) : pending ps →
  match str_join BLANK_LINE ps with [] => l | _ => str_join BLANK_LINE ps :: l end =
  match ps with [] => [] | _ => [str_join BLANK_LINE ps] end ++ l.
Proof.
  intros [Hall _]. destruct ps as [|p ps]; [done|].
  pose proof (join_nonempty BLANK_LINE (p :: ps) ltac:(done) Hall). by destruct (str_join BLANK_LINE (p :: ps)).
Qed.

Lemma candidate_join ps q : pending ps →
  match str_join BLANK_LINE ps with [] => q | _ => str_join BLANK_LINE ps ++ [NL; NL] ++ q end = str_join BLANK_LINE (ps ++ [q]).
Proof.
  intros [Hall _]. destruct ps as [|p ps]; [done|]. rewrite join_snoc by done.
  pose proof (join_nonempty BLANK_LINE (p :: ps) ltac:(done) Hall). by destruct (str_join BLANK_LINE (p :: ps)).
Qed.

Definition grouped (ps : list text) (made : list text) (sources : list text) : Prop :=
  ∃ gs, made = concat (map rendered gs) ∧ concat (map members gs) = ps ++ sources ∧
        Forall (sized chunk_chars overlap_chars) gs ∧ tight chunk_chars gs ∧ starts_group ps gs.

Lemma pending_sized ps : pending ps → ps ≠ [] → sized chunk_chars overlap_chars (Packed ps).
Proof. by intros [Hall Hfit] Hne. Qed.

Lemma grouped_end ps : pending ps → grouped ps (match ps with [] => [] | _ => [str_join BLANK_LINE ps] end) [].
Proof.
  intros Hps. destruct ps as [|p ps]; [by exists []; split_and!; try done; intros ?|].
  pose proof (pending_sized _ Hps ltac:(done)).
  exists [Packed (p :: ps)]. split_and!; simpl; [done|by rewrite app_nil_r|by constructor|done|].
  intros _. exists [], []. by rewrite app_nil_r.
Qed.

Lemma grouped_cut ps q made sources : pending ps → q ≠ [] → chunk_chars < length q → grouped [] made sources →
  grouped ps (match ps with [] => [] | _ => [str_join BLANK_LINE ps] end ++ _hard_split chunk_chars overlap_chars q ++ made)
    (q :: sources).
Proof.
  intros Hps Hq Hlong (gs&->&Hmem&Hsz&Ht&_). simpl in Hmem.
  set (ws := _hard_split chunk_chars overlap_chars q).
  assert (sized chunk_chars overlap_chars (Cut q ws))
    by (split; [by repeat constructor|split; [done|by apply hard_split_windows_of]]).
  destruct ps as [|p ps].
  - exists (Cut q ws :: gs). simpl. rewrite Hmem. split_and!; try done; [by constructor|intros ?; done].
  - pose proof (pending_sized _ Hps ltac:(done)).
    exists (Packed (p :: ps) :: Cut q ws :: gs). simpl. rewrite Hmem. split_and!; [done|done| |done..|].
    + by repeat (constructor; [done|]).
    + intros _. eexists [], _. by rewrite app_nil_r.
Qed.

Lemma grouped_flush ps q made sources : pending ps → ps ≠ [] → chunk_chars < length (str_join BLANK_LINE (ps ++ [q])) →
  grouped [q] made sources → grouped ps (str_join BLANK_LINE ps :: made) (q :: sources).
Proof.
  intros Hps Hne Hover (gs&->&Hmem&Hsz&Ht&Hst). pose proof (pending_sized _ Hps Hne).
  exists (Packed ps :: gs). simpl. rewrite Hmem.
  destruct Hst as (more&rest&->); [done|]. split_and!; [done|done|by constructor|done|done|].
  - intros _. eexists [], _. by rewrite app_nil_r.
Qed.

Lemma pack_groups l ps : pending ps →
  grouped ps (pack chunk_chars overlap_chars (str_join BLANK_LINE ps) l)
    (List.filter (λ p, negb (bool_decide (p = []))) (map strip l)).
Proof.
  revert ps. induction l as [|q l IH]; intros ps Hps.
  - simpl. rewrite flush_pending, app_nil_r by done. by apply grouped_end.
  - cbn [pack map List.filter]. generalize (strip q). clear q. intros q.
    destruct (decide (q = [])) as [->|Hne]; [by apply IH|].
    rewrite candidate_join, flush_pending, (bool_decide_eq_false_2 (q = [])) by done.
    assert (∀ B (a b : B), match q with [] => a | _ => b end = b) as -> by by destruct q.
    cbn [negb].
    case_bool_decide as Hlong; [|case_bool_decide as Hover].
    + apply grouped_cut; [done..|]. apply (IH []). split; [constructor|simpl; lia].
    + destruct ps as [|p ps]; [simpl in Hover; lia|].
      apply grouped_flush; [done..|]. apply (IH [q]). split; [by constructor|simpl; lia].
    + destruct (IH (ps ++ [q])) as (gs&Hmade&Hmem&Hsz&Ht&Hst).
      { destruct Hps as [Hall _]. split; [|lia]. by apply Forall_app; repeat constructor. }
      exists gs. rewrite <- app_assoc in Hmem. repeat split; [done..|]. intros _.
      destruct Hst as (more&rest&->); [by destruct ps|]. rewrite <- app_assoc. eauto.
Qed.

Lemma visible_members l :
  visible (concat (List.filter (λ p, negb (bool_decide (p = []))) (map strip l))) = visible (concat l).
Proof.
  induction l as [|q l IH]; simpl; [done|]. rewrite visible_app, <- IH, <- (visible_strip q).
  case_bool_decide as Hq; simpl; [by rewrite Hq|apply visible_app].
Qed.

(** [Packed] passages and windows are never empty, and never too long. *)
Lemma rendered_size g piece : sized chunk_chars overlap_chars g →
  piece ∈ rendered g → 0 < length piece ≤ chunk_chars.
Proof.
  intros [Hall Hsz]. destruct g as [ps|p ws]; simpl in *.
  - rewrite list_elem_of_singleton. intros ->. destruct Hsz as [Hne Hfit]. split; [|done].
    pose proof (join_nonempty BLANK_LINE ps Hne Hall). by destruct (str_join BLANK_LINE ps); [|simpl; lia].
  - destruct Hsz as [_ (_&_&Hws)]. intros [i Hi]%list_elem_of_lookup. destruct (Hws i piece Hi) as [Hp Hne].
    split; [destruct piece; [done|simpl; lia]|]. rewrite Hp, length_take. lia.
Qed.
End Packing.

Section Theorems.
Context (chunk_chars overlap_chars : nat) (Hsizes : overlap_chars < chunk_chars) (t : text).

(** The early return for a text that shows nothing changes nothing. *)
Lemma chunk_text_eq :
  chunk_text chunk_chars overlap_chars t =
  Ret (enumerate (take (Z.to_nat MAX_CHUNKS_PER_DOCUMENT) (passages chunk_chars overlap_chars t))).
Proof.
  unfold chunk_text, passages. rewrite bool_decide_eq_false_2 by lia. by destruct (normalise t).
Qed.

Lemma passages_grouped : ∃ gs,
  passages chunk_chars overlap_chars t = concat (map rendered gs) ∧
  concat (map members gs) = paragraphs t ∧ Forall (sized chunk_chars overlap_chars) gs ∧ tight chunk_chars gs.
Proof.
  destruct (pack_groups chunk_chars overlap_chars Hsizes (pieces paragraph_break 0 (normalise t)) [])
    as (gs&Hp&Hm&Hs&Ht&_); [split; [constructor|simpl; lia]|]. by exists gs.
Qed.

Lemma enumerate_bodies l : map chunk_body (enumerate l) = l.
Proof.
  apply list_eq. intros i. unfold enumerate. change (map chunk_body ?x) with (chunk_body <$> x).
  rewrite list_lookup_fmap, list_lookup_imap. by destruct (l !! i).
Qed.

Lemma whole_text cs :
  chunk_text chunk_chars overlap_chars t = Ret cs → (Z.of_nat (length cs) < MAX_CHUNKS_PER_DOCUMENT)%Z →
  map chunk_body cs = passages chunk_chars overlap_chars t.
Proof.
  intros Hcs Hfew. rewrite chunk_text_eq in Hcs. injection Hcs as <-. rewrite enumerate_bodies.
  unfold enumerate in Hfew. rewrite length_imap, length_take in Hfew. apply take_ge. lia.
Qed.
End Theorems.

Lemma elem_of_members gs p : p ∈ concat (map members gs) → ∃ g, g ∈ gs ∧ p ∈ members g.
Proof.
  intros (ps&Hps&Hp)%list_elem_of_In%in_concat. apply in_map_iff in Hps as (g&<-&Hg). exists g.
  by split; apply list_elem_of_In.
Qed.

Lemma join_infix sep ps p : p ∈ ps → ∃ w1 w2, str_join sep ps = w1 ++ p ++ w2.
Proof.
  induction ps as [|q ps IH]; [by intros ?%not_elem_of_nil|]. rewrite elem_of_cons. intros Hp.
  destruct ps as [|q' ps].
  - destruct Hp as [->|?%not_elem_of_nil]; [|done]. exists [], []. by rewrite app_nil_r.
  - change (str_join sep (q :: q' :: ps)) with (q ++ sep ++ str_join sep (q' :: ps)). destruct Hp as [->|Hp].
    + by exists [], (sep ++ str_join sep (q' :: ps)).
    + destruct (IH Hp) as (w1&w2&->). exists (q ++ sep ++ w1), w2. by rewrite <- !app_assoc.
Qed.

(** Whatever is uploaded costs a bounded number of passages, numbered from
    zero without a gap, and no passage is empty or longer than asked for. *)
Theorem passages_are_bounded chunk_chars overlap_chars t cs :
  chunk_text chunk_chars overlap_chars t = Ret cs →
  (Z.of_nat (length cs) ≤ MAX_CHUNKS_PER_DOCUMENT)%Z ∧
  ∀ i c, cs !! i = Some c → index c = Z.of_nat i ∧ 0 < length (chunk_body c) ≤ chunk_chars.
Proof.
  intros Hcs. assert (overlap_chars < chunk_chars) as Hsizes.
  { unfold chunk_text in Hcs. case_bool_decide; [done|lia]. }
  rewrite (chunk_text_eq _ _ Hsizes) in Hcs. injection Hcs as <-. unfold enumerate. split.
  - rewrite length_imap, length_take. pose proof (Nat.le_min_l (Z.to_nat MAX_CHUNKS_PER_DOCUMENT) (length (passages chunk_chars overlap_chars t))); unfold MAX_CHUNKS_PER_DOCUMENT in *; lia.
  - intros i c. rewrite list_lookup_imap. destruct (_ !! i) as [piece|] eqn:Hp; [|done]. intros [= <-].
    split; [done|]. simpl. apply lookup_take_Some in Hp as [Hp _].
    destruct (passages_grouped chunk_chars overlap_chars Hsizes t) as (gs&Hgs&_&Hsz&_). rewrite Hgs in Hp.
    apply list_elem_of_lookup_2 in Hp. apply list_elem_of_In, in_concat in Hp as (ps&Hps&Hpiece).
    apply in_map_iff in Hps as (g&<-&Hg). rewrite Forall_forall in Hsz.
    by eapply rendered_size; [exact Hsizes|apply Hsz, list_elem_of_In, Hg|apply list_elem_of_In].
Qed.

(** C21: Unless the document reached the bound, its passages are its paragraphs in
    order and nothing else.  The text, with its line ends made one character, is
    whitespace and these paragraphs in turn: each shows something at both ends and
    holds no blank line, and any two are parted by one.  Each passage or run of
    passages is either some whole paragraphs joined by empty lines, as many as fit, or
    the windows of one paragraph too long for any passage: each starts one step
    after the one before, none is empty, and put together without their overlaps
    they are that paragraph.  So of the text only whitespace is left out. *)
Theorem only_whitespace_is_lost chunk_chars overlap_chars t cs :
  chunk_text chunk_chars overlap_chars t = Ret cs → (Z.of_nat (length cs) < MAX_CHUNKS_PER_DOCUMENT)%Z →
  ∃ ps gs,
    laid_out false (replace [CR; NL] [NL] t) ps ∧
    map chunk_body cs = concat (map rendered gs) ∧ concat (map members gs) = ps ∧
    (∀ g, g ∈ gs → match g with
       | Packed qs => qs ≠ [] ∧ length (str_join [NL; NL] qs) ≤ chunk_chars
       | Cut p ws => chunk_chars < length p ∧
           (∃ w rest, ws = w :: rest ∧ w ++ concat (map (drop overlap_chars) rest) = p) ∧
           ∀ i w, ws !! i = Some w → w ≠ [] ∧
             w = take chunk_chars (drop (i * (chunk_chars - overlap_chars)) p)
       end) ∧
    tight chunk_chars gs ∧
    visible (concat ps) = visible t.
Proof.
  intros Hcs Hfew. assert (overlap_chars < chunk_chars) as Hsizes.
  { unfold chunk_text in Hcs. case_bool_decide; [done|lia]. }
  rewrite (whole_text chunk_chars overlap_chars Hsizes t cs) by done.
  destruct (passages_grouped chunk_chars overlap_chars Hsizes t) as (gs&?&?&Hsz&?).
  exists (paragraphs t), gs. split_and!; [apply paragraphs_laid_out|done|done| |done|].
  - intros g Hg. rewrite Forall_forall in Hsz. destruct (Hsz g Hg) as [_ Hgs].
    destruct g as [qs|p ws]; [done|]. destruct Hgs as (?&?&_&Hws). split_and!; [done..|].
    intros i w Hi. by destruct (Hws i w Hi).
  - unfold paragraphs. rewrite visible_members, visible_pieces by apply paragraph_break_blank.
    rewrite drop_0. apply visible_normalise.
Qed.

(** Unless the document reached the bound, any part of one paragraph that is
    not longer than the overlap and one more is whole in some passage, and so is
    a paragraph that fits; the windows of one that does not, put together without
    their overlaps, are the paragraph. *)
Theorem facts_survive_the_cut chunk_chars overlap_chars t cs p l1 fact l2 :
  chunk_text chunk_chars overlap_chars t = Ret cs → (Z.of_nat (length cs) < MAX_CHUNKS_PER_DOCUMENT)%Z →
  p ∈ paragraphs t → p = l1 ++ fact ++ l2 → length p ≤ chunk_chars ∨ length fact ≤ S overlap_chars →
  (∃ c w1 w2, c ∈ cs ∧ chunk_body c = w1 ++ fact ++ w2) ∧
  (chunk_chars < length p →
   ∃ w ws, _hard_split chunk_chars overlap_chars p = w :: ws ∧ w ++ concat (map (drop overlap_chars) ws) = p).
Proof.
  intros Hcs Hfew Hp Hfact Hshort. assert (overlap_chars < chunk_chars) as Hsizes.
  { unfold chunk_text in Hcs. case_bool_decide; [done|lia]. }
  destruct (passages_grouped chunk_chars overlap_chars Hsizes t) as (gs&Hgs&Hmem&Hsz&_).
  rewrite <- (whole_text _ _ Hsizes t cs) in Hgs by done. rewrite <- Hmem in Hp.
  destruct (elem_of_members gs p Hp) as (g&Hg&Hpg). rewrite Forall_forall in Hsz. specialize (Hsz g Hg).
  assert (∀ piece, piece ∈ rendered g → ∃ c, c ∈ cs ∧ chunk_body c = piece) as Hin.
  { intros piece Hpiece. assert (piece ∈ map chunk_body cs) as (c&->&Hc)%list_elem_of_fmap; [|by exists c].
    rewrite Hgs. apply list_elem_of_In, in_concat. eexists. split; [apply in_map, list_elem_of_In, Hg|].
    by apply list_elem_of_In. }
  destruct g as [ps|q ws].
  - destruct Hsz as (Hall&_&Hfit). split.
    + destruct (Hin (str_join BLANK_LINE ps)) as (c&Hc&Hb); [by apply list_elem_of_singleton|].
      destruct (join_infix BLANK_LINE ps p Hpg) as (w1&w2&Hj). exists c, (w1 ++ l1), (l2 ++ w2).
      by rewrite Hb, Hj, Hfact, <- !app_assoc.
    + destruct (join_infix BLANK_LINE ps p Hpg) as (w1&w2&Hj). rewrite Hj, !length_app in Hfit. lia.
  - apply list_elem_of_singleton in Hpg as ->. destruct Hsz as [Hall [Hlong (_&Hend&Hws)]]. simpl in Hlong, Hin.
    split; [|intros _; by apply hard_split_windows_of].
    destruct (window_holds _ _ Hsizes q (length ws - 1) l1 fact l2) as (k&w1&w2&Hk&Hw); [done..|lia|].
    destruct (lookup_lt_is_Some_2 ws k) as [w Hwk].
    { destruct ws; [|simpl in *; lia]. simpl in Hend. lia. }
    destruct (Hin w) as (c&Hc&Hb); [by eapply list_elem_of_lookup_2|]. exists c, w1, w2.
    split; [done|]. destruct (Hws k w Hwk) as [-> _]. by rewrite Hb.
Qed.

(** * On a document *)

Module Sample.
Definition CRLF : text := [CR; NL].
Definition document : text :=
  codes "one two" ++ CRLF ++ [32; 13; 10]%Z ++ codes "three" ++ BLANK_LINE ++ codes "abcdefghijklmnopqrstuvwxyz" ++ BLANK_LINE ++ codes "end".
Definition cut : list Chunk := match chunk_text 16 5 document with Ret cs => cs | Raise _ => [] end.

Example packed_then_cut :
  map chunk_body cut =
  [codes "one two" ++ BLANK_LINE ++ codes "three"; codes "abcdefghijklmnop"; codes "lmnopqrstuvwxyz"; codes "end"].
Proof. vm_compute. reflexivity. Qed.

Example nothing_to_cut : chunk_text 16 5 (codes "   " ++ BLANK_LINE) = Ret [] ∧ chunk_text 5 5 document = Raise ValueError.
Proof. split; reflexivity. Qed.

(** A window may hold nothing that shows, if a paragraph has a long run of spaces. *)
Example a_passage_may_be_blank :
  ∃ c, Ret [mk_chunk 0 (codes "a   "); c; mk_chunk 2 (codes "   b")] =
       chunk_text 4 1 (codes "a        b") ∧ visible (chunk_body c) = [].
Proof. eexists. split; vm_compute; reflexivity. Qed.

Lemma cut_is_a_split : chunk_text 16 5 document = Ret cut.
Proof. vm_compute. reflexivity. Qed.

Lemma passages_are_bounded_witness :
  chunk_text 16 5 document = Ret cut ∧ (Z.of_nat (length cut) ≤ MAX_CHUNKS_PER_DOCUMENT)%Z ∧ length cut = 4.
Proof.
  split; [vm_compute; reflexivity|]. split; [|reflexivity].
  apply (passages_are_bounded 16 5 document cut). vm_compute. reflexivity.
Defined.

Lemma only_whitespace_is_lost_witness :
  chunk_text 16 5 document = Ret cut ∧ length (paragraphs document) = 4 ∧
  ∃ ps gs, laid_out false (replace [CR; NL] [NL] document) ps ∧
    map chunk_body cut = concat (map rendered gs) ∧ concat (map members gs) = ps ∧
    visible (concat ps) = visible document.
Proof.
  split; [vm_compute; reflexivity|]. split; [vm_compute; reflexivity|].
  destruct (only_whitespace_is_lost 16 5 document cut) as (ps&gs&H1&H2&H3&_&_&H4);
    [vm_compute; reflexivity|vm_compute; reflexivity|].
  exists ps, gs. split_and!; assumption.
Defined.

Lemma facts_survive_the_cut_witness :
  (∃ c w1 w2, c ∈ cut ∧ chunk_body c = w1 ++ codes "nopqrs" ++ w2) ∧
  (16 < length (codes "abcdefghijklmnopqrstuvwxyz") →
   ∃ w ws, _hard_split 16 5 (codes "abcdefghijklmnopqrstuvwxyz") = w :: ws ∧
           w ++ concat (map (drop 5) ws) = codes "abcdefghijklmnopqrstuvwxyz").
Proof.
  apply (facts_survive_the_cut 16 5 document cut (codes "abcdefghijklmnopqrstuvwxyz")
           (codes "abcdefghijklm") (codes "nopqrs") (codes "tuvwxyz")).
  - vm_compute. reflexivity.
  - vm_compute. reflexivity.
  - apply list_elem_of_In. vm_compute. tauto.
  - vm_compute. reflexivity.
  - right. vm_compute. lia.
Defined.
End Sample.
