(* ===== verification/Knowledge.v ===== *)
(** The knowledge base: ingestion, the fence around its index, and retrieval
    ([application/use_cases/ingest_document/], [manage_knowledge/documents.py] and the
    deletion in [collections.py], [search_knowledge.py], [ground_chat.py];
    [adapters/persistence/knowledge_epochs.py]).

    Passages live in a vector store that knows no transactions.  A writer commits
    Begin to the database before it touches them and End after; a reader who finds
    the same clean fence before and after has read them at rest.  The use cases are
    programs (see [Programs]) over the calls of [keff]; [KnowledgeRuns] runs any
    number of them at once.

    A stored JSON text is the value it encodes.  Paging through the documents of a
    collection is one answer.  Each awaited call may fail. *)

From S2P Require Export Programs.
From S2P Require Import Grounding Json.
From S2P Require Actors.

(** * Data ([domain/entities/knowledge.py], [domain/ports/grounding_ports.py]) *)

Inductive DocumentStatus : Set := UPLOADED | EXTRACTING | EXTRACTED | INDEXING | INDEXED | ERROR.
#[export] Instance DocumentStatus_eq_dec : EqDecision DocumentStatus.
Proof. solve_decision. Defined.

Definition TRANSIENT_DOCUMENT_STATES : list DocumentStatus := [EXTRACTING; INDEXING].
Definition INGESTABLE_STATES : list DocumentStatus := [UPLOADED; ERROR].
Definition REINDEXABLE_STATES : list DocumentStatus := [EXTRACTED; INDEXED; ERROR].

Record KnowledgeDocument := mk_document {
  doc_id : string; doc_collection : string; media_type : string;
  status : DocumentStatus; chunk_count : Z; doc_error : option string
}.
Definition is_transient (d : KnowledgeDocument) : bool := bool_decide (status d ∈ TRANSIENT_DOCUMENT_STATES).

Definition vector := list spec_float.
Record DocumentChunk := mk_document_chunk {
  ck_document : string; ck_collection : string; ck_index : Z; ck_text : text; ck_vector : vector
}.

(** [embedding_identity]: the JSON of runtime, reference and digest. *)
Definition identity : Type := string * string * string.
Record Target := mk_target { t_runtime : string; t_ref : string; t_digest : option string }.
Definition embedding_identity (t : Target) : option identity :=
  match t_digest t with
  | Some d => if bool_decide (d = "") then None else Some (t_runtime t, t_ref t, d)
  | None => None
  end.

Record KnowledgeEpoch := mk_epoch {
  epoch : Z; mutations_in_progress : Z; space : option identity;
  index_requires_rebuild : bool; index_rebuilding : bool
}.
#[export] Instance KnowledgeEpoch_eq_dec : EqDecision KnowledgeEpoch.
Proof. solve_decision. Defined.
Definition clean (e : KnowledgeEpoch) : bool := bool_decide (mutations_in_progress e = 0%Z).

Inductive job_state : Set := queued | running | failed | succeeded.
Definition terminal (s : job_state) : bool := match s with failed | succeeded => true | _ => false end.

Inductive kexn : Set :=
  | NoAvailableModelError | VectorStoreError | DocumentStateConflictError | DocumentNotFoundError
  | CollectionNotFoundError | NotAuthorizedError | ValueError | IndexError | OtherError.

(** The detached work a request schedules ([infrastructure/jobs.py]). *)
Inductive detached : Set := Ingestion (document job : string) | Reindex (document job : string).

Inductive keff : Type → Type :=
  (* documents: committed rows, the committer's own transactions, a request's transaction *)
  | EDocument (id : string) : keff (kexn + option KnowledgeDocument)
  | EDocuments (collection : string) : keff (kexn + list KnowledgeDocument)
  | ECollection (collection : string) : keff (kexn + bool)
  | EStatus (id : string) (s : DocumentStatus) (chunks : option Z) (error : option string) : keff unit
  | ESetStatus (id : string) (s : DocumentStatus) : keff (kexn + unit)
  | EClaim (id : string) (expected : list DocumentStatus) (claimed : DocumentStatus) : keff (kexn + bool)
  | ERemoveRow (id : string) : keff (kexn + unit)
  | ERemoveCollection (collection : string) : keff (kexn + unit)
  | ECommit : keff (kexn + unit)
  | ESchedule (d : detached) : keff unit
  | EJob (job : string) (s : job_state) : keff (kexn + unit)
  | EAudit : keff unit
  (* files and the parser *)
  | EReadOriginal (id : string) : keff (kexn + list Z)
  | EParse (media : string) (data : list Z) : keff (kexn + text)
  | EPutText (id : string) (t : text) : keff (kexn + unit)
  | EReadText (id : string) : keff (kexn + text)
  | EDeleteFiles (id : string) : keff (kexn + unit)
  (* the fence *)
  | EFence (collection : option string) : keff (kexn + option KnowledgeEpoch)
  | EBegin (collection : string) : keff (kexn + bool)
  | EEnd (collection : string) (began : bool) : keff (kexn + unit)
  | EEndWith (collection : string) (began : bool) : keff (kexn + unit)
  | EBind (i : identity) : keff (kexn + unit)
  (* embedding and the index *)
  | EResolve (required : option identity) : keff (kexn + Target)
  | EEmbedWith (t : Target) (texts : list text) (expected : option identity) : keff (kexn + list vector)
  | EEmbed (texts : list text) : keff (kexn + list vector)
  | EReady (size : nat) : keff (kexn + unit)
  | EForget (id : string) : keff (kexn + unit)
  | EUpsert (chunks : list DocumentChunk) : keff (kexn + unit)
  | ESearch (v : vector) (limit : Z) (collection : option string) : keff (kexn + list RetrievedPassage)
  (* grounding records *)
  | EGetFirst (keys : list string) : keff (kexn + option (string * stored))
  | EGetRecord (key : string) : keff (kexn + option stored)
  | ERecord (bucket key : string) (chain : list GroundingAnchor) : keff (kexn + bool).

Abbreviation kprog := (prog keff kexn unit).

Definition require (a : Actors.Actor) (s : Actors.Scope) : kprog unit :=
  match Actors.require a s with Ret _ => Pure tt | Raise _ => Throw NotAuthorizedError end.

(** * The fence *)

(** [async with self._epochs.mutation(collection): body]: there is no [finally], so a
    body that fails leaves the fence dirty.  A request's End joins its transaction. *)
Definition mutation {A} (of_request : bool) (collection : string) (body : kprog A) : kprog A :=
  let! began := invoke (EBegin collection) in
  let! a := body in
  let! _ := if of_request then invoke (EEndWith collection began) else invoke (EEnd collection began) in
  Pure a.

(** * Ingestion, the detached half *)

Section Ingestion.
(** Whether a fence is configured. *)
Context (fenced : bool).

Definition under {A} (collection : string) (body : kprog A) : kprog A :=
  if fenced then mutation false collection body else body.

Definition _fail (job : string) : kprog unit := invoke (EJob job failed).

(** [zip(chunks, vectors, strict=True)] *)
Fixpoint zip_strict {A B} (l : list A) (k : list B) : option (list (A * B)) :=
  match l, k with
  | [], [] => Some []
  | x :: l, y :: k => cons (x, y) <$> zip_strict l k
  | _, _ => None
  end.

Definition document_chunk (d : KnowledgeDocument) (cv : Chunk * vector) : DocumentChunk :=
  mk_document_chunk (doc_id d) (doc_collection d) (index cv.1) (chunk_body cv.1) cv.2.

(** Which model embeds the document, and the vector space it must share. *)
Definition resolve_space : kprog (Target * option identity) :=
  if fenced then
    let! current := invoke (EFence None) in
    if match current with Some e => index_rebuilding e | None => false end
    then Throw NoAvailableModelError
    else
      let! target := invoke (EResolve (match current with Some e => space e | None => None end)) in
      match embedding_identity target with
      | None => Throw NoAvailableModelError
      | Some i => Pure (target, Some i)
      end
  else let! target := invoke (EResolve None) in Pure (target, None).

Definition publish (d : KnowledgeDocument) (chunks : list Chunk) (vectors : list vector) (i : option identity) : kprog unit :=
  let! _ := match i with Some i => invoke (EBind i) | None => Pure tt end in
  match vectors with
  | [] => Throw IndexError
  | v :: _ =>
      let! _ := invoke (EReady (length v)) in
      let! _ := invoke (EForget (doc_id d)) in
      match zip_strict chunks vectors with
      | None => Throw ValueError
      | Some pairs => invoke (EUpsert (map (document_chunk d) pairs))
      end
  end.

Definition _index (d : KnowledgeDocument) (t : text) (job : string) : kprog Z :=
  let! _ := ask (EStatus (doc_id d) INDEXING None None) in
  let! _ := invoke (EJob job running) in
  match chunk_text DEFAULT_CHUNK_CHARS DEFAULT_OVERLAP_CHARS t with
  | Raise _ => Throw ValueError
  | Ret [] => let! _ := under (doc_collection d) (invoke (EForget (doc_id d))) in Pure 0%Z
  | Ret chunks =>
      let! ti := resolve_space in
      let! vectors := invoke (EEmbedWith ti.1 (map chunk_body chunks) ti.2) in
      let! _ := under (doc_collection d) (publish d chunks vectors ti.2) in
      Pure (Z.of_nat (length chunks))
  end.

Definition _extract (d : KnowledgeDocument) (job : string) : kprog text :=
  let! _ := invoke (EJob job running) in
  let! data := invoke (EReadOriginal (doc_id d)) in
  invoke (EParse (media_type d) data).

(** [type(exc).__name__] *)
Definition exn_name (e : kexn) : string :=
  match e with
  | NoAvailableModelError => "NoAvailableModelError" | VectorStoreError => "VectorStoreError"
  | DocumentStateConflictError => "DocumentStateConflictError" | DocumentNotFoundError => "DocumentNotFoundError"
  | CollectionNotFoundError => "CollectionNotFoundError" | NotAuthorizedError => "NotAuthorizedError"
  | ValueError => "ValueError" | IndexError => "IndexError" | OtherError => "Exception"
  end.

(** What an [except Exception] does: the state, then the job. *)
Definition note_failure (id job : string) (e : kexn) : kprog unit :=
  let! _ := ask (EStatus id ERROR None (Some (exn_name e))) in _fail job.

Definition finish (id job : string) (chunks : Z) : kprog unit :=
  let! _ := ask (EStatus id INDEXED (Some chunks) None) in
  invoke (EJob job succeeded).

Definition run_reindex (id job : string) : kprog unit :=
  let! document := invoke (EDocument id) in
  match document with
  | None => _fail job
  | Some d =>
      let! t := attempt (invoke (EReadText id)) in
      match t with
      | inl e => note_failure id job e
      | inr t =>
          let! n := attempt (_index d t job) in
          match n with inl e => note_failure id job e | inr n => finish id job n end
      end
  end.

Definition run (id job : string) : kprog unit :=
  let! document := invoke (EDocument id) in
  match document with
  | None => _fail job
  | Some d =>
      let! t := attempt (_extract d job) in
      match t with
      | inl e => note_failure id job e
      | inr t =>
          let! n := attempt (
            let! _ := invoke (EPutText id t) in
            let! _ := ask (EStatus id EXTRACTED None None) in
            _index d t job) in
          match n with inl e => note_failure id job e | inr n => finish id job n end
      end
  end.
End Ingestion.

(** * Requests *)

Definition claim (d : KnowledgeDocument) (job : string) : kprog unit :=
  if bool_decide (status d ∈ INGESTABLE_STATES) then
    let! _ := invoke (ESetStatus (doc_id d) EXTRACTING) in
    invoke (EJob job queued)
  else Throw DocumentStateConflictError.

Definition claim_reindex (d : KnowledgeDocument) (job : string) : kprog unit :=
  if bool_decide (status d ∈ REINDEXABLE_STATES) then
    let! claimed := invoke (EClaim (doc_id d) REINDEXABLE_STATES INDEXING) in
    if claimed : bool then invoke (EJob job queued) else Throw DocumentStateConflictError
  else Throw DocumentStateConflictError.

Definition _require_document (id : string) : kprog KnowledgeDocument :=
  let! d := invoke (EDocument id) in
  match d with Some d => Pure d | None => Throw DocumentNotFoundError end.

(** The two routes of [routers/knowledge/documents.py]: the claim is committed before
    the work is scheduled.  The upload has inserted the row already. *)
Definition upload_route (d : KnowledgeDocument) (job : string) : kprog unit :=
  let! _ := claim d job in
  let! _ := invoke ECommit in
  ask (ESchedule (Ingestion (doc_id d) job)).

Definition reindex_route (a : Actors.Actor) (id job : string) : kprog unit :=
  let! _ := require a Actors.KNOWLEDGE_WRITE in
  let! d := _require_document id in
  let! _ := claim_reindex d job in
  let! _ := invoke ECommit in
  ask (ESchedule (Reindex id job)).

(** Passages, then bytes, then the row. *)
Definition _forget_document (d : KnowledgeDocument) : kprog unit :=
  let! _ := invoke (EForget (doc_id d)) in
  let! _ := invoke (EDeleteFiles (doc_id d)) in
  invoke (ERemoveRow (doc_id d)).

Fixpoint forget_all (l : list KnowledgeDocument) : kprog unit :=
  match l with
  | [] => Pure tt
  | d :: rest => let! _ := _forget_document d in forget_all rest
  end.

Definition delete_document (a : Actors.Actor) (id : string) : kprog unit :=
  let! _ := require a Actors.KNOWLEDGE_WRITE in
  let! d := _require_document id in
  if is_transient d then Throw DocumentStateConflictError
  else mutation true (doc_collection d) (let! _ := _forget_document d in ask EAudit).

Definition delete_collection (a : Actors.Actor) (collection : string) : kprog unit :=
  let! _ := require a Actors.KNOWLEDGE_WRITE in
  let! exists_ := invoke (ECollection collection) in
  if exists_ : bool then
    let! documents := invoke (EDocuments collection) in
    if existsb is_transient documents then Throw DocumentStateConflictError
    else mutation true collection (
      let! _ := forget_all documents in
      let! _ := invoke (ERemoveCollection collection) in
      ask EAudit)
  else Throw CollectionNotFoundError.

(** A request commits when its handler has returned. *)
Definition committed (p : kprog unit) : kprog unit := let! _ := p in invoke ECommit.

(** * Retrieval *)

Definition DEFAULT_TOP_K : Z := 5.
Definition MAX_TOP_K : Z := 20.
Definition MAX_QUERY_CHARS : nat := 2000.

(** The space a search must be made in, or no search at all. *)
Definition expected_space (fenced : bool) (collection : option string) (given : option identity)
    : kprog (option (option identity)) :=
  match given, fenced with
  | None, true =>
      let! e := invoke (EFence collection) in
      match e with
      | None => Pure None
      | Some e =>
          if index_rebuilding e then Throw NoAvailableModelError
          else match space e with
               | None => if index_requires_rebuild e then Pure (Some None) else Throw NoAvailableModelError
               | Some i => Pure (Some (Some i))
               end
      end
  | _, _ => Pure (Some given)
  end.

Definition search (fenced : bool) (a : Actors.Actor) (query : text) (scope : Actors.Scope) (collection : option string)
    (top_k : Z) (given : option identity) : kprog (list RetrievedPassage) :=
  let! _ := require a scope in
  let trimmed := take MAX_QUERY_CHARS (strip query) in
  match trimmed with
  | [] => Pure []
  | _ =>
      let! expected := expected_space fenced collection given in
      match expected with
      | None => Pure []
      | Some expected =>
          let! vectors :=
            match expected with
            | None => invoke (EEmbed [trimmed])
            | Some i =>
                let! target := invoke (EResolve (Some i)) in
                if bool_decide (embedding_identity target = Some i)
                then invoke (EEmbedWith target [trimmed] (Some i)) else Throw NoAvailableModelError
            end in
          match vectors with
          | [] => Pure []
          | v :: _ => invoke (ESearch v (Z.max 1 (Z.min top_k MAX_TOP_K)) collection)
          end
      end
  end.

Definition execute_or_empty (fenced : bool) (a : Actors.Actor) (query : text) (scope : Actors.Scope)
    (collection : option string) (top_k : Z) (given : option identity) : kprog (list RetrievedPassage) :=
  catch (search fenced a query scope collection top_k given)
    (λ e, match e with VectorStoreError | NoAvailableModelError => Pure [] | _ => Throw e end).

(** * Grounding a chat ([ground_chat.py]) *)

Definition GROUNDED : Type := list Message * list RetrievedPassage.
Definition RETRIEVAL_CONFIG_VERSION : string := "grounding-v1:query2000:passage4000".
Definition option_str (o : option string) : json := match o with Some s => JStr s | None => JNull end.

Section Grounding.
(** [secrets.token_hex]; the keyed HMAC with the server's key, over JSON; SHA-256 of
    the JSON of a prefix; and the bytes of a stored text.  [configured] says that
    records, fences and a server key are there. *)
Context (token : text) (keyed_digest : string → list json → string) (hash : list Message → string)
        (size : stored → Z) (fenced configured : bool).

Definition _fresh_ground (a : Actors.Actor) (messages : list Message) (collection : option string) (top_k : Z)
    : kprog GROUNDED :=
  let! passages := execute_or_empty fenced a (query_from messages) Actors.CHAT_USE collection top_k None in
  match passages with
  | [] => Pure (messages, [])
  | _ => Pure (ground token messages passages, passages)
  end.

Definition record_identity (a : Actors.Actor) (collection : option string) (top_k : Z) (e : KnowledgeEpoch) : string :=
  keyed_digest "grounding-record" [
    JStr (Actors.tenant_id a);
    JStr (match Actors.actor_key_id a with Some k => if bool_decide (k = "") then Actors.actor_id a else k
          | None => Actors.actor_id a end);
    JStr (match collection with Some _ => "collection" | None => "tenant" end);
    option_str collection; JInt top_k; JStr RETRIEVAL_CONFIG_VERSION;
    match space e with Some (r, m, d) => JArr [JStr r; JStr m; JStr d] | None => JNull end; JInt (epoch e)].

(** The last entries, newest first, as keys of the store. *)
Definition record_keys (id : string) (hashes : list (nat * string)) : list (string * nat) :=
  map (λ ih : nat * string, ("grounding:" ++ id ++ ":" ++ ih.2, ih.1)%string)
      (take MAX_GROUNDING_LOOKBACK (reverse hashes)).

(** The recorded chain, if it ends where its key says. *)
Definition recorded_anchors (messages : list Message) (keys : list (string * nat)) (found : option (string * stored))
    : list GroundingAnchor :=
  match found with
  | None => []
  | Some (key, raw) =>
      let candidate := decode_chain hash size raw messages in
      match last candidate, dict_lookup key keys with
      | Some a, Some i => if bool_decide (anchor_index a = Z.of_nat i) then candidate else []
      | _, _ => []
      end
  end.

Definition context_of (passages : list RetrievedPassage) (nonce : text) : text :=
  match build_context_message token passages (Some nonce) with Some m => content m | None => [] end.

Definition capped (p : RetrievedPassage) : RetrievedPassage :=
  mk_passage (document_id p) (collection_id p) (passage_index p) (take MAX_PASSAGE_CHARS (passage_text p)) (score p).

(** [while passages and too long: passages.pop()], for the first [n] passages. *)
Fixpoint shrink (anchors : list GroundingAnchor) (anchor : list RetrievedPassage → GroundingAnchor)
    (passages : list RetrievedPassage) (n : nat) : list GroundingAnchor :=
  let proposal := anchors ++ [anchor (take n passages)] in
  match n with
  | O => proposal
  | S m => if bool_decide (MAX_GROUNDING_RECORD_BYTES < size (encode_chain proposal))%Z
           then shrink anchors anchor passages m else proposal
  end.

(** A new anchor at the last thing the user said: what it is, and how it is recorded. *)
Definition new_anchor (id prefix : string) (last_index : nat) (passages : list RetrievedPassage) : GroundingAnchor :=
  let nonce := codes (String.substring 0 32 (keyed_digest "grounding-fence" [JStr id; JStr prefix])) in
  mk_anchor prefix (Z.of_nat last_index) (context_of passages nonce) passages.

Definition record_anchor (a : Actors.Actor) (messages : list Message) (id latest_key prefix : string) (last_index : nat)
    (anchors : list GroundingAnchor) (passages : list RetrievedPassage) : kprog (list GroundingAnchor) :=
  let passages := map capped passages in
  let anchor := new_anchor id prefix last_index in
  let proposal := shrink anchors anchor passages (length passages) in
  if bool_decide (size (encode_chain proposal) ≤ MAX_GROUNDING_RECORD_BYTES)%Z then
    let! won := invoke (ERecord (keyed_digest "grounding-tenant" [JStr (Actors.tenant_id a)]) latest_key proposal) in
    if won : bool then Pure proposal
    else
      let! winner := invoke (EGetRecord latest_key) in
      match winner with
      | Some raw => Pure (decode_chain hash size raw messages)
      | None => Pure (anchors ++ [anchor passages])
      end
  else Pure anchors.

Definition _stable_ground (a : Actors.Actor) (messages : list Message) (collection : option string) (top_k : Z)
    : kprog GROUNDED :=
  let! before := invoke (EFence collection) in
  match before with
  | None => Pure (messages, [])
  | Some before =>
      if bool_decide (space before = None) && negb (index_requires_rebuild before) then Pure (messages, [])
      else if negb (clean before) || index_requires_rebuild before || bool_decide (space before = None)
      then _fresh_ground a messages collection top_k
      else
        let top_k := Z.max 1 (Z.min top_k MAX_TOP_K) in
        let id := record_identity a collection top_k before in
        let hashes := anchor_hashes hash messages in
        match last hashes with
        | None => Throw IndexError
        | Some (last_index, prefix) =>
            let keys := record_keys id hashes in
            let latest_key := ("grounding:" ++ id ++ ":" ++ prefix)%string in
            let! found := invoke (EGetFirst (map fst keys)) in
            let anchors := recorded_anchors messages keys found in
            if bool_decide (length anchors = 0) && bool_decide (MAX_GROUNDING_LOOKBACK < length hashes)
            then _fresh_ground a messages collection top_k
            else
              let! anchors :=
                if bool_decide (anchor_index <$> last anchors = Some (Z.of_nat last_index)) then Pure (Some anchors)
                else
                  let! passages := execute_or_empty fenced a (query_from messages) Actors.CHAT_USE collection top_k
                                     (space before) in
                  let! again := invoke (EFence collection) in
                  if bool_decide (again = Some before)
                  then let! chain := record_anchor a messages id latest_key prefix last_index anchors passages in
                       Pure (Some chain)
                  else Pure None in
              match anchors with
              | None => Pure (messages, [])
              | Some anchors =>
                  let! again := invoke (EFence collection) in
                  if bool_decide (again = Some before) then Pure (replay messages anchors) else Pure (messages, [])
              end
        end
  end.

Definition ground_chat (a : Actors.Actor) (messages : list Message) (collection : option string) (top_k : Z)
    : kprog GROUNDED :=
  match query_from messages with
  | [] => Pure (messages, [])
  | _ =>
      if configured then
        let! _ := require a Actors.CHAT_USE in
        catch (_stable_ground a messages collection top_k) (λ _,
          catch (_fresh_ground a messages collection top_k) (λ _, Pure (messages, [])))
      else _fresh_ground a messages collection top_k
  end.
End Grounding.
