(* ===== verification/KnowledgeRuns.v ===== *)
(** Everybody at the knowledge base at once.

    What each use case of [Knowledge] owes before it touches the index ([must]), and
    that each keeps it ([run_ok] to [ground_chat_ok]); the database with its fence and
    the vector store beside it; and the steps of any number of ingestions, requests and
    chats interleaved at every call ([kstep]).  Any of them may fail or die at any
    call, and a write to the vector store that failed may still take effect later.
    How an ingestion ends, and a way to play schedules, follow; [KnowledgeFence] proves
    what holds of every world these steps reach. *)

From S2P Require Export Knowledge.
From S2P Require Import Grounding Json.
From S2P Require Actors.

(** * What a trace shows *)

Inductive vwrite : Type := WForget (id : string) | WUpsert (chunks : list DocumentChunk).

Inductive kevent : Type :=
  | VDocuments (l : list KnowledgeDocument)
  | VCollection (c : string)
  | VStatus (id : string) (s : DocumentStatus) (chunks : option Z)
  | VJob (job : string) (s : job_state)
  | VFence (c : option string) (e : KnowledgeEpoch)
  | VBegin (c : string) (began : option bool)
  | VEnd (c : string)
  | VWrote (w : vwrite) (ok : bool)
  | VSearched (c : option string) (l : list RetrievedPassage)
  | VRecorded (chain : list GroundingAnchor)
  | VOther.

Definition is_ok {A} (r : kexn + A) : bool := match r with inr _ => true | inl _ => false end.

Definition log (R : Type) (q : keff R) : R → kevent :=
  match q in keff R return R → kevent with
  | EDocument _ => λ r, match r with inr (Some d) => VDocuments [d] | _ => VOther end
  | EDocuments _ => λ r, match r with inr l => VDocuments l | _ => VOther end
  | ECollection c => λ r, match r with inr true => VCollection c | _ => VOther end
  | EStatus id s chunks _ => λ _, VStatus id s chunks
  | EJob job s => λ _, VJob job s
  | EFence c => λ r, match r with inr (Some e) => VFence c e | _ => VOther end
  | EBegin c => λ r, match r with inr b => VBegin c (Some b) | inl _ => VBegin c None end
  | EEnd c _ => λ _, VEnd c
  | EEndWith c _ => λ _, VEnd c
  | EForget id => λ r, VWrote (WForget id) (is_ok r)
  | EUpsert l => λ r, VWrote (WUpsert l) (is_ok r)
  | ESearch _ _ c => λ r, match r with inr l => VSearched c l | _ => VOther end
  | ERecord _ _ chain => λ _, VRecorded chain
  | _ => λ _, VOther
  end.

(** A listing of a collection lists documents of that collection. *)
Definition may (_ : list kevent) (R : Type) (q : keff R) : R → Prop :=
  match q in keff R return R → Prop with
  | EDocuments c => λ r, match r with inr l => Forall (λ d, doc_collection d = c) l | _ => True end
  | _ => λ _, True
  end.

(** ** The fence a task holds *)

(** The collection, whether Begin found it, and whether every write so far was
    acknowledged. *)
Definition hold_step (h : option (string * bool * bool)) (e : kevent) : option (string * bool * bool) :=
  match e with
  | VBegin c (Some b) => Some (c, b, true)
  | VBegin _ None => None
  | VEnd _ => None
  | VWrote _ false => match h with Some (c, b, _) => Some (c, b, false) | None => None end
  | _ => h
  end.
Definition held (tr : list kevent) : option (string * bool * bool) := foldl hold_step None tr.
Definition begun (tr : list kevent) : Prop := ∃ c b, VBegin c b ∈ tr.

Definition told (tr : list kevent) (d : KnowledgeDocument) : Prop := ∃ l, VDocuments l ∈ tr ∧ d ∈ l.
Definition known (tr : list kevent) (id c : string) : Prop := ∃ d, told tr d ∧ doc_id d = id ∧ doc_collection d = c.
Definition known_collection (tr : list kevent) (c : string) : Prop := VCollection c ∈ tr ∨ ∃ id, known tr id c.

(** Two equal clean readings, with a search between them, the second just now. *)
Definition settled (tr : list kevent) (c : option string) (e : KnowledgeEpoch) (l : list RetrievedPassage) : Prop :=
  ∃ pre mid1 mid2, tr = pre ++ VFence c e :: mid1 ++ VSearched c l :: mid2 ++ [VFence c e] ∧ clean e = true.

(** Passages are written inside the fence of their collection; a fence is ended only if
    every write was acknowledged; a chain is recorded only on a settled reading. *)
Definition must (tr : list kevent) (R : Type) (q : keff R) : Prop :=
  match q with
  | EBegin c => ¬ begun tr ∧ known_collection tr c
  | EEnd c b => held tr = Some (c, b, true)
  | EEndWith c b => held tr = Some (c, b, true)
  | EForget id => ∃ c b, held tr = Some (c, b, true) ∧ known tr id c
  | EUpsert l => ∃ c b, held tr = Some (c, b, true) ∧
      Forall (λ ch, ck_collection ch = c ∧ known tr (ck_document ch) c) l
  | ERecord _ _ chain => ∃ a, last chain = Some a ∧
      (citations a = [] ∨ ∃ c e l n, settled tr c e l ∧ citations a = take n (map capped l))
  | _ => True
  end.

Abbreviation kobeys p Q tr := (obeys log may must p (λ o (_ : unit) tr', Q o tr') tt tr).

(** ** Calls that owe nothing *)

Definition calm (e : kevent) : Prop :=
  match e with VBegin _ _ | VEnd _ | VWrote _ _ => False | _ => True end.
Definition quiet (R : Type) (q : keff R) : Prop :=
  match q with
  | EBegin _ | EEnd _ _ | EEndWith _ _ | EForget _ | EUpsert _ | ERecord _ _ _ => False
  | _ => True
  end.

Lemma held_app tr more : Forall calm more → held (tr ++ more) = held tr.
Proof.
  unfold held. rewrite foldl_app. generalize (foldl hold_step None tr). intros h Hm. revert h.
  induction Hm as [|e more He _ IH]; intros h; simpl; [done|]. rewrite IH. by destruct e as [| | | | |? [|]| |? [|]| | |].
Qed.

Lemma held_after tr e : held (tr ++ [e]) = hold_step (held tr) e.
Proof. unfold held. by rewrite foldl_app. Qed.

Lemma begun_calm tr more : Forall calm more → begun (tr ++ more) → begun tr.
Proof.
  intros Hm (c&b&[?|He]%elem_of_app); [by exists c, b|]. rewrite Forall_forall in Hm. destruct (Hm _ He).
Qed.

Lemma told_app tr more d : told tr d → told (tr ++ more) d.
Proof. intros (l&Hl&Hd). exists l. split; [|done]. apply elem_of_app. by left. Qed.
Lemma known_app tr more id c : known tr id c → known (tr ++ more) id c.
Proof. intros (d&Hd&?). exists d. split; [by apply told_app|done]. Qed.
Lemma known_collection_app tr more c : known_collection tr c → known_collection (tr ++ more) c.
Proof.
  intros [?|[id ?]]; [left; apply elem_of_app; by left|right; exists id; by apply known_app].
Qed.

Lemma quiet_log R (q : keff R) r : quiet R q → calm (log R q r).
Proof. destruct q; simpl; try done; intros _; repeat case_match; done. Qed.
Lemma quiet_must R (q : keff R) tr : quiet R q → must tr R q.
Proof. by destruct q. Qed.

(** What a program of such calls does to its trace. *)
Lemma quiet_obeys {A} (p : kprog A) tr :
  only quiet p → kobeys p (λ _ tr', ∃ more, tr' = tr ++ more ∧ Forall calm more) tr.
Proof.
  intros Hp. eapply obeys_mono; [|apply (only_invariant log may must quiet (λ tr', ∃ more, tr' = tr ++ more ∧ Forall calm more))].
  - done.
  - intros tr' R q (more&->&Hm) Hq. split; [by apply quiet_must|]. intros r _.
    exists (more ++ [log R q r]). rewrite app_assoc. split; [done|]. apply Forall_app. split; [done|].
    constructor; [by apply quiet_log|done].
  - done.
  - exists []. by rewrite app_nil_r.
Qed.

Ltac quiet_calls := repeat first
  [ done
  | apply only_bind; [|intros ?]
  | apply only_invoke; exact I
  | apply only_ask; exact I
  | apply only_catch; [|intros ?]
  | apply only_attempt
  | progress case_match ].

Lemma quiet_require a s : only quiet (require a s).
Proof. unfold require. quiet_calls. Qed.
Lemma quiet_note_failure id job e : only quiet (note_failure id job e).
Proof. unfold note_failure, _fail. quiet_calls. Qed.
Lemma quiet_finish id job n : only quiet (finish id job n).
Proof. unfold finish. quiet_calls. Qed.
Lemma quiet_resolve fenced : only quiet (resolve_space fenced).
Proof. unfold resolve_space. quiet_calls. Qed.
Lemma quiet_extract d job : only quiet (_extract d job).
Proof. unfold _extract. quiet_calls. Qed.
Lemma quiet_search fenced a query scope c k given : only quiet (execute_or_empty fenced a query scope c k given).
Proof.
  unfold execute_or_empty, search, expected_space. apply only_catch; [|intros []; quiet_calls].
  apply only_bind; [apply quiet_require|intros _]. quiet_calls.
Qed.
Lemma quiet_fresh token fenced a messages c k : only quiet (_fresh_ground token fenced a messages c k).
Proof. unfold _fresh_ground. apply only_bind; [apply quiet_search|intros ?]. quiet_calls. Qed.
Lemma quiet_claim_reindex d job : only quiet (claim_reindex d job).
Proof. unfold claim_reindex. quiet_calls. Qed.
Lemma quiet_upload d job : only quiet (upload_route d job).
Proof. unfold upload_route, claim. quiet_calls. Qed.
Lemma quiet_reindex_route a id job : only quiet (reindex_route a id job).
Proof.
  unfold reindex_route, _require_document. apply only_bind; [apply quiet_require|intros _].
  apply only_bind; [quiet_calls|intros d]. apply only_bind; [apply quiet_claim_reindex|intros _]. quiet_calls.
Qed.

(** A quiet start, and what is left to do on what it has learnt. *)
Lemma quiet_then {A B} (p : kprog A) (f : A → kprog B) Q tr :
  only quiet p →
  (∀ o more, Forall calm more → match o with inr a => kobeys (f a) Q (tr ++ more) | inl e => Q (inl e) (tr ++ more) end) →
  kobeys (let! x := p in f x) Q tr.
Proof.
  intros Hp Hf. apply obeys_bind. eapply obeys_mono; [|by apply quiet_obeys]. intros o [] tr' (more&->&Hm).
  destruct o as [e|a]; [by apply (Hf (inl e))|by apply (Hf (inr a))].
Qed.

(** * The use cases keep their duties *)

Lemma mutation_ok {A} of_request c (body : kprog A) tr :
  ¬ begun tr → known_collection tr c →
  (∀ b, kobeys body (λ o tr', match o with inr _ => held tr' = Some (c, b, true) | inl _ => True end)
          (tr ++ [VBegin c (Some b)])) →
  kobeys (mutation of_request c body) (λ _ _, True) tr.
Proof.
  intros Hb Hc Hbody. unfold mutation. walk_calls. split; [done|]. intros [e|b] _; walk_calls; [done|].
  apply obeys_bind. eapply obeys_mono; [|apply Hbody]. intros [e|a] [] tr' Hheld; [done|].
  destruct of_request; walk_calls; (split; [done|]); intros [e|[]] _; done.
Qed.

Lemma held_began tr c b : held (tr ++ [VBegin c (Some b)]) = Some (c, b, true).
Proof. by rewrite held_after. Qed.

Lemma forget_ok id c b tr :
  held tr = Some (c, b, true) → known tr id c →
  kobeys (invoke (EForget id)) (λ o tr', match o with inr _ => held tr' = Some (c, b, true) | inl _ => True end) tr.
Proof.
  intros Hh Hk. walk_calls. split; [by exists c, b|]. intros [e|[]] _; walk_calls; [done|]. by rewrite held_after.
Qed.

Lemma document_chunks_known d l tr :
  told tr d → Forall (λ ch, ck_collection ch = doc_collection d ∧ known tr (ck_document ch) (doc_collection d))
    (map (document_chunk d) l).
Proof. intros Hd. apply Forall_map, Forall_true. intros cv. simpl. split; [done|]. by exists d. Qed.

Lemma publish_ok d chunks vectors i b tr :
  told tr d → held tr = Some (doc_collection d, b, true) →
  kobeys (publish d chunks vectors i)
    (λ o tr', match o with inr _ => held tr' = Some (doc_collection d, b, true) | inl _ => True end) tr.
Proof.
  intros Ht Hh. unfold publish. apply quiet_then; [quiet_calls|]. intros [e|_] more Hm; [done|].
  destruct vectors as [|v vectors]; [done|]. apply quiet_then; [quiet_calls|]. intros [e|_] more2 Hm2; [done|].
  rewrite <- app_assoc. set (tr1 := tr ++ more ++ more2).
  assert (held tr1 = Some (doc_collection d, b, true)) as Hh1.
  { unfold tr1. rewrite held_app; [done|]. by apply Forall_app. }
  assert (told tr1 d) as Ht1 by by apply told_app.
  apply obeys_bind. eapply obeys_mono; [|apply obeys_extends, (forget_ok _ _ _ _ Hh1); by exists d].
  intros [e|[]] [] tr2 [Hh2 [evs ->]]; [done|]. destruct (zip_strict _ _) as [pairs|]; [|done].
  walk_calls. split; [eexists _, b; split; [exact Hh2|]; apply document_chunks_known; by apply told_app|].
  intros [e|[]] _; walk_calls; [done|]. by rewrite held_after.
Qed.

Lemma quiet_ok {A} (p : kprog A) tr : only quiet p → kobeys p (λ _ _, True) tr.
Proof. intros Hp. eapply obeys_mono; [|by apply quiet_obeys]. done. Qed.

Lemma then_quiet {A B} (p : kprog A) (f : A → kprog B) tr :
  kobeys p (λ _ _, True) tr → (∀ a, only quiet (f a)) → kobeys (let! x := p in f x) (λ _ _, True) tr.
Proof.
  intros Hp Hf. apply obeys_bind. eapply obeys_mono; [|exact Hp]. intros [e|a] [] tr' _; [done|]. by apply quiet_ok.
Qed.

Lemma attempt_ok {A} (p : kprog A) tr : kobeys p (λ _ _, True) tr → kobeys (attempt p) (λ _ _, True) tr.
Proof. intros Hp. by apply obeys_attempt. Qed.

Lemma not_begun tr more : Forall calm more → ¬ begun tr → ¬ begun (tr ++ more).
Proof. intros Hm Hb H. by apply Hb, (begun_calm _ more). Qed.

Lemma told_collection tr d : told tr d → known_collection tr (doc_collection d).
Proof. intros Hd. right. exists (doc_id d). by exists d. Qed.

Lemma index_ok d t job tr :
  ¬ begun tr → told tr d → kobeys (_index true d t job) (λ _ _, True) tr.
Proof.
  intros Hb Hd. unfold _index. apply quiet_then; [quiet_calls|]. intros [e|_] m1 Hm1; [done|].
  apply quiet_then; [quiet_calls|]. intros [e|_] m2 Hm2; [done|].
  pose proof (not_begun _ _ Hm2 (not_begun _ _ Hm1 Hb)) as Hb2. pose proof (told_app _ m2 _ (told_app _ m1 _ Hd)) as Hd2.
  destruct (chunk_text _ _ t) as [e|[|ch chunks]]; [done|..].
  - apply then_quiet; [|quiet_calls]. apply mutation_ok; [done|by apply told_collection|]. intros b.
    apply forget_ok; [by rewrite held_began|]. exists d. split; [by apply told_app|done].
  - apply quiet_then; [apply quiet_resolve|]. intros [e|ti] m3 Hm3; [done|].
    apply quiet_then; [quiet_calls|]. intros [e|vectors] m4 Hm4; [done|].
    apply then_quiet; [|quiet_calls]. apply mutation_ok.
    + by repeat apply not_begun.
    + by apply told_collection, told_app, told_app.
    + intros b. apply publish_ok; [by do 3 apply told_app|apply held_began].
Qed.

(** A document read, and what is done with it. *)
Lemma read_document_then {B} id (f : option KnowledgeDocument → kprog B) Q tr :
  (∀ e, Q (inl e) (tr ++ [VOther])) → kobeys (f None) Q (tr ++ [VOther]) →
  (∀ d, kobeys (f (Some d)) Q (tr ++ [VDocuments [d]])) →
  kobeys (let! d := invoke (EDocument id) in f d) Q tr.
Proof. intros He Hn Hd. walk_calls. split; [done|]. intros [e|[d|]] _; walk_calls; [apply He|apply Hd|apply Hn]. Qed.

Lemma told_now tr d : told (tr ++ [VDocuments [d]]) d.
Proof.
  exists [d]. split; [apply elem_of_app; right; by apply list_elem_of_singleton|by apply list_elem_of_singleton].
Qed.

Lemma begun_nil : ¬ begun [].
Proof. by intros (c&b&?%not_elem_of_nil). Qed.

(** After an attempt, whatever came of it, the rest is quiet. *)
Lemma attempt_then_quiet {A B} (p : kprog A) (f : kexn + A → kprog B) tr :
  kobeys p (λ _ _, True) tr → (∀ o, only quiet (f o)) → kobeys (let! o := attempt p in f o) (λ _ _, True) tr.
Proof. intros Hp Hf. apply then_quiet; [by apply attempt_ok|done]. Qed.

Lemma run_ok id job : kobeys (run true id job) (λ _ _, True) [].
Proof.
  unfold run. apply read_document_then; [done|apply quiet_ok; unfold _fail; quiet_calls|intros d].
  pose proof (told_now [] d) as Hd. assert (¬ begun ([] ++ [VDocuments [d]])) as Hb by (apply not_begun; [by repeat constructor|apply begun_nil]).
  apply quiet_then; [apply only_attempt, quiet_extract|]. intros [e|[e|t]] m1 Hm1; [done|apply quiet_ok, quiet_note_failure|].
  apply attempt_then_quiet; [|intros [e|n]; [apply quiet_note_failure|apply quiet_finish]].
  apply quiet_then; [quiet_calls|]. intros [e|_] m2 Hm2; [done|].
  apply quiet_then; [quiet_calls|]. intros [e|_] m3 Hm3; [done|].
  apply index_ok; [by do 3 (apply not_begun; [done|])|by do 3 apply told_app].
Qed.

Lemma run_reindex_ok id job : kobeys (run_reindex true id job) (λ _ _, True) [].
Proof.
  unfold run_reindex. apply read_document_then; [done|apply quiet_ok; unfold _fail; quiet_calls|intros d].
  pose proof (told_now [] d) as Hd. assert (¬ begun ([] ++ [VDocuments [d]])) as Hb by (apply not_begun; [by repeat constructor|apply begun_nil]).
  apply quiet_then; [quiet_calls|]. intros [e|[e|t]] m1 Hm1; [done|apply quiet_ok, quiet_note_failure|].
  apply attempt_then_quiet; [|intros [e|n]; [apply quiet_note_failure|apply quiet_finish]].
  apply index_ok; [by apply not_begun|by apply told_app].
Qed.

Lemma forget_document_ok d c b tr :
  held tr = Some (c, b, true) → told tr d → doc_collection d = c →
  kobeys (_forget_document d) (λ o tr', tr `prefix_of` tr' ∧
    match o with inr _ => held tr' = Some (c, b, true) | inl _ => True end) tr.
Proof.
  intros Hh Hd Hc. apply (obeys_mono _ _ _ _ (λ o _ tr', match o with inr _ => held tr' = Some (c, b, true) | inl _ => True end ∧ tr `prefix_of` tr')); [by intros o [] tr' [? ?]|].
  apply obeys_extends. unfold _forget_document. apply obeys_bind.
  eapply obeys_mono; [|apply (forget_ok _ _ _ _ Hh); by exists d]. intros [e|[]] [] tr1 Hh1; [done|].
  apply quiet_then; [quiet_calls|]. intros [e|_] m1 Hm1; [done|].
  eapply obeys_mono; [|apply quiet_obeys; quiet_calls]. intros [e|_] [] tr2 (m2&->&Hm2); [done|].
  by rewrite !held_app.
Qed.

Lemma forget_all_ok l c b tr :
  held tr = Some (c, b, true) → Forall (λ d, told tr d ∧ doc_collection d = c) l →
  kobeys (forget_all l) (λ o tr', match o with inr _ => held tr' = Some (c, b, true) | inl _ => True end) tr.
Proof.
  revert tr. induction l as [|d l IH]; intros tr Hh Hl; [done|]. apply Forall_cons in Hl as [[Hd Hc] Hl]. cbn [forget_all].
  apply obeys_bind. eapply obeys_mono; [|by apply (forget_document_ok d c b tr)].
  intros [e|[]] [] tr' [[more ->] Hh']; [done|]. apply IH; [done|].
  eapply Forall_impl; [exact Hl|]. intros d' [? ?]. split; [by apply told_app|done].
Qed.

Lemma delete_document_ok a id : kobeys (delete_document a id) (λ _ _, True) [].
Proof.
  unfold delete_document, _require_document. apply quiet_then; [apply quiet_require|]. intros [e|_] m1 Hm1; [done|].
  walk_calls. split; [done|]. intros [e|[d|]] _; walk_calls; [done| |done]. cbn [log].
  destruct (is_transient d); [done|]. apply mutation_ok.
  - apply not_begun; [by repeat constructor|]. apply not_begun; [done|apply begun_nil].
  - apply told_collection, told_now.
  - intros b. apply obeys_bind. eapply obeys_mono; [|apply (forget_document_ok d (doc_collection d) b); [apply held_began|apply told_app, told_now|done]].
    intros [e|[]] [] tr' [_ Hh]; [done|]. eapply obeys_mono; [|apply quiet_obeys; quiet_calls].
    intros [e|[]] [] tr2 (m2&->&Hm2); [done|]. by rewrite held_app.
Qed.

Lemma delete_collection_ok a c : kobeys (delete_collection a c) (λ _ _, True) [].
Proof.
  unfold delete_collection. apply quiet_then; [apply quiet_require|]. intros [e|_] m1 Hm1; [done|].
  walk_calls. split; [done|]. intros [e|[|]] _; walk_calls; [done| |done]. split; [done|].
  intros [e|documents] Hdocs; walk_calls; [done|]. simpl in Hdocs. destruct (existsb is_transient documents); [done|].
  set (tr := ([] ++ m1) ++ [_]). set (tr2 := tr ++ [_]).
  assert (Forall calm tr2) as Hcalm.
  { unfold tr2, tr. repeat apply Forall_app_2; try done; by repeat constructor. }
  apply mutation_ok.
  - rewrite <- (app_nil_l tr2). apply not_begun; [done|apply begun_nil].
  - left. unfold tr2, tr. apply elem_of_app. left. apply elem_of_app. right. by apply list_elem_of_singleton.
  - intros b. apply obeys_bind. eapply obeys_mono; [|apply (forget_all_ok documents c b)].
    + intros [e|[]] [] tr' Hh; [done|]. walk_calls. split; [done|]. intros [e|[]] _; walk_calls; [done|].
      split; [done|]. intros [] _; walk_calls. by rewrite !held_after.
    + apply held_began.
    + rewrite Forall_forall in Hdocs |- *. intros d Hd. split; [|by apply Hdocs]. exists documents.
      split; [|done]. unfold tr2. rewrite !elem_of_app. left. right. by apply list_elem_of_singleton.
Qed.

(** ** Grounding *)

(** What a search returns it has just been told, unless it returns nothing. *)
Definition searched (tr : list kevent) (c : option string) (l : list RetrievedPassage) (tr' : list kevent) : Prop :=
  l = [] ∨ ∃ more, tr' = tr ++ more ++ [VSearched c l].

Lemma search_learns fenced a query scope c k given tr :
  learns log may (execute_or_empty fenced a query scope c k given) (searched tr c) tt tr.
Proof.
  unfold execute_or_empty. apply learns_catch.
  2: { intros [] [] tr' _; try apply learns_throw; apply learns_pure; by left. }
  unfold search. eapply learns_bind; [apply learns_nothing|]. intros [] [] tr1 [m1 ->] _.
  destruct (take MAX_QUERY_CHARS _) as [|x q]; [apply learns_pure; by left|].
  eapply learns_bind; [apply learns_nothing|]. intros [expected|] [] tr2 [m2 ->] _; [|apply learns_pure; by left].
  eapply learns_bind; [apply learns_nothing|]. intros [|v vs] [] tr3 [m3 ->] _; [apply learns_pure; by left|].
  apply learns_invoke. intros l. right. exists (m1 ++ m2 ++ m3). by rewrite <- !app_assoc.
Qed.

Lemma search_obeys fenced a query scope c k given tr :
  kobeys (execute_or_empty fenced a query scope c k given)
    (λ o tr', match o with inr l => searched tr c l tr' | inl _ => True end) tr.
Proof.
  eapply only_wp_obeys; [|apply quiet_search|].
  - intros tr' R q. apply quiet_must.
  - eapply wp_mono; [|apply search_learns]. by intros [e|l] [] tr' [_ ?].
Qed.

Section Grounds.
Context (token : text) (keyed_digest : string → list json → string) (hash : list Message → string)
        (size : stored → Z) (fenced configured : bool).

Lemma shrink_last anchors anchor l n :
  ∃ m, last (shrink size anchors anchor l n) = Some (anchor (take m l)).
Proof.
  induction n as [|n IH]; simpl; [exists 0; by rewrite last_snoc|].
  case_bool_decide; [exact IH|]. eexists. by rewrite last_snoc.
Qed.

Lemma record_ok a messages id latest prefix last_index anchors c e l tr :
  clean e = true → l = [] ∨ settled tr c e l →
  kobeys (record_anchor token keyed_digest hash size a messages id latest prefix last_index anchors l) (λ _ _, True) tr.
Proof.
  intros Hclean Hl. unfold record_anchor. case_bool_decide; [|done]. walk_calls. split.
  - destruct (shrink_last anchors (new_anchor token keyed_digest id prefix last_index) (map capped l)
                (length (map capped l))) as [m Hm]. cbn [must]. rewrite Hm. eexists. split; [done|]. cbn [citations new_anchor].
    destruct Hl as [->|Hl]; [left; apply take_nil|right]. by exists c, e, l, m.
  - intros [x|[|]] _; walk_calls; [done|done|]. split; [done|]. intros [x|[raw|]] _; walk_calls; done.
Qed.

Lemma stable_ground_ok a messages c k tr :
  kobeys (_stable_ground token keyed_digest hash size fenced a messages c k) (λ _ _, True) tr.
Proof.
  unfold _stable_ground. walk_calls. split; [done|]. intros [e|[before|]] _; walk_calls; [done| |done]. cbn [log].
  destruct (bool_decide (space before = None) && negb (index_requires_rebuild before)); [done|].
  destruct (negb (clean before) || index_requires_rebuild before || bool_decide (space before = None)) eqn:Hb;
    [apply quiet_ok, quiet_fresh|].
  rewrite !orb_false_iff, negb_false_iff in Hb. destruct Hb as [[Hclean _] _].
  destruct (last (anchor_hashes hash messages)) as [[last_index prefix]|]; [|done].
  walk_calls. split; [done|]. intros [e|found] _; walk_calls; [done|]. cbn [log].
  set (anchors := recorded_anchors hash size messages _ found).
  destruct (bool_decide (length anchors = 0) && _); [apply quiet_ok, quiet_fresh|].
  apply then_quiet; [|intros [chain|]; [|done]; split; [done|]; by intros [x|again]; simpl; [|case_match]].
  destruct (bool_decide (anchor_index <$> last anchors = _)); [done|].
  apply obeys_bind. eapply obeys_mono; [|apply search_obeys]. intros [e|l] [] tr1 Hl; [done|].
  walk_calls. split; [done|]. intros [e|again] _; walk_calls; [done|].
  case_bool_decide as Hsame; [|done]. subst again. cbn [log].
  apply then_quiet; [|quiet_calls]. apply (record_ok _ _ _ _ _ _ _ c before); [done|].
  destruct Hl as [->|[more ->]]; [by left|right].
  exists tr, ([VOther] ++ more), []. split; [|done]. by rewrite <- !app_assoc.
Qed.

Lemma ground_chat_ok a messages c k :
  kobeys (ground_chat token keyed_digest hash size fenced configured a messages c k) (λ _ _, True) [].
Proof.
  unfold ground_chat. destruct (query_from messages); [done|]. destruct configured; [|apply quiet_ok, quiet_fresh].
  apply quiet_then; [apply quiet_require|]. intros [e|_] more Hm; [done|].
  apply obeys_catch. eapply obeys_mono; [|apply stable_ground_ok]. intros [e|r] [] tr' _; [|done].
  apply quiet_ok, only_catch; [apply quiet_fresh|done].
Qed.
End Grounds.

(** * The world *)

(** A row of the fence: how many mutations have begun or ended, and how many are open. *)
Record fence_row := mk_row { f_epoch : Z; f_open : Z }.

Record kworld := mk_kworld {
  docs : gmap string KnowledgeDocument;
  cols : gmap string fence_row;
  tenant : option (fence_row * (option identity * bool * bool));
  passages : gmap (string * Z) DocumentChunk;
  texts : gmap string text;
  homes : gmap string string;         (** the collection of every document there ever was *)
  ever : gset string;                 (** every collection there ever was *)
  late : list (nat * vwrite);         (** writes that failed and may still happen, and whose *)
  history : list (nat * kevent * gmap (string * Z) DocumentChunk)
}.

(** A request's own writes until it commits; what it has ended with them; and the fence
    it has begun and not been seen to end. *)
Record ktask := mk_ktask {
  learnt : list kevent; program : kprog unit;
  pend : gmap string (option KnowledgeDocument); gone : list string; ending : option (string * bool);
  owes : option (string * bool)
}.

Definition finished (p : kprog unit) : bool := match p with Pure _ | Throw _ => true | _ => false end.

(** ** What the database does *)

Definition fence (w : kworld) (c : option string) : option KnowledgeEpoch :=
  let '(row, (i, rebuild, rebuilding)) := default (mk_row 0 0, (None, false, false)) (tenant w) in
  match c with
  | None => Some (mk_epoch (f_epoch row) (f_open row) i rebuild rebuilding)
  | Some c => (λ r, mk_epoch (f_epoch r) (f_open r) i rebuild rebuilding) <$> cols w !! c
  end.

Definition set_fence (cs : gmap string fence_row) (t : option (fence_row * (option identity * bool * bool))) (w : kworld) :=
  mk_kworld (docs w) cs t (passages w) (texts w) (homes w) (ever w) (late w) (history w).
Definition set_docs (ds : gmap string KnowledgeDocument) (w : kworld) :=
  mk_kworld ds (cols w) (tenant w) (passages w) (texts w) (homes w) (ever w) (late w) (history w).
Definition set_texts (ts : gmap string text) (w : kworld) :=
  mk_kworld (docs w) (cols w) (tenant w) (passages w) ts (homes w) (ever w) (late w) (history w).
Definition set_passages (ps : gmap (string * Z) DocumentChunk) (l : list (nat * vwrite)) (w : kworld) :=
  mk_kworld (docs w) (cols w) (tenant w) ps (texts w) (homes w) (ever w) l (history w).
Definition add_history (i : nat) (e : kevent) (w : kworld) :=
  mk_kworld (docs w) (cols w) (tenant w) (passages w) (texts w) (homes w) (ever w) (late w) (history w ++ [(i, e, passages w)]).

Definition begin_ (c : string) (w : kworld) : kworld :=
  set_fence (alter (λ r, mk_row (f_epoch r + 1) (f_open r + 1)) c (cols w))
    (Some match tenant w with
          | Some (r, x) => (mk_row (f_epoch r + 1) (f_open r + 1), x)
          | None => (mk_row 1 1, (None, false, false))
          end) w.

Definition end_ (c : string) (began : bool) (w : kworld) : kworld :=
  set_fence (alter (λ r, mk_row (f_epoch r + 1) (if began then f_open r - 1 else f_open r)) c (cols w))
    ((λ rx : fence_row * (option identity * bool * bool),
        if bool_decide (0 < f_open rx.1)%Z then (mk_row (f_epoch rx.1 + 1) (f_open rx.1 - 1), rx.2) else rx) <$> tenant w) w.

(** [bind_embedding_identity]: the conditional update of the tenant's row. *)
Definition bind_ (i : identity) (w : kworld) : option kworld :=
  match tenant w with
  | Some (r, (known, rebuild, rebuilding)) =>
      if negb rebuilding && (bool_decide (known = None) || bool_decide (known = Some i))
      then Some (set_fence (cols w) (Some (r, (Some i, rebuild, rebuilding))) w) else None
  | None => None
  end.

Definition row_of (w : kworld) (t : ktask) (id : string) : option KnowledgeDocument :=
  match pend t !! id with Some r => r | None => docs w !! id end.

Definition with_status (s : DocumentStatus) (chunks : option Z) (error : option string) (d : KnowledgeDocument) :=
  mk_document (doc_id d) (doc_collection d) (media_type d) s (default (chunk_count d) chunks) error.

Definition set_pend (p : gmap string (option KnowledgeDocument)) (t : ktask) : ktask :=
  mk_ktask (learnt t) (program t) p (gone t) (ending t) (owes t).
Definition set_owes (o : option (string * bool)) (t : ktask) : ktask :=
  mk_ktask (learnt t) (program t) (pend t) (gone t) (ending t) o.

(** A request's transaction: its rows, its collections, and its End with them. *)
Definition commit_docs (p : gmap string (option KnowledgeDocument)) (ds : gmap string KnowledgeDocument) :=
  merge (λ o d, match o with Some r => r | None => d end) p ds.
Definition commit_ (t : ktask) (w : kworld) : kworld :=
  let w1 := match ending t with Some (c, b) => end_ c b w | None => w end in
  set_docs (commit_docs (pend t) (docs w1)) (set_fence (foldr delete (cols w1) (gone t)) (tenant w1) w1).
Definition commit_task (t : ktask) : ktask :=
  mk_ktask (learnt t) (program t) ∅ [] None (match ending t with Some _ => None | None => owes t end).

(** ** What the vector store does *)

Definition point (ch : DocumentChunk) : string * Z := (ck_document ch, ck_index ch).
Definition apply_write (v : vwrite) (ps : gmap (string * Z) DocumentChunk) : gmap (string * Z) DocumentChunk :=
  match v with
  | WForget id => filter (λ kc : (string * Z) * DocumentChunk, kc.1.1 ≠ id) ps
  | WUpsert l => foldl (λ ps ch, <[point ch := ch]> ps) ps l
  end.

(** The passages behind a fence. *)
Definition behind (c : option string) (ps : gmap (string * Z) DocumentChunk) : gmap (string * Z) DocumentChunk :=
  match c with
  | None => ps
  | Some c => filter (λ kc : (string * Z) * DocumentChunk, ck_collection kc.2 = c) ps
  end.

Definition retrieved (ps : gmap (string * Z) DocumentChunk) (c : option string) (p : RetrievedPassage) : Prop :=
  ∃ k ch, behind c ps !! k = Some ch ∧ document_id p = ck_document ch ∧ collection_id p = ck_collection ch ∧
    passage_index p = ck_index ch ∧ passage_text p = ck_text ch.

(** ** What each call may answer, and do *)

Section Answers.
(** The rows other requests have written and not committed. *)
Context (locked : gset string) (i : nat) (w : kworld) (t : ktask).

Definition may_fail {A} (a : A) (w1 : kworld) (t1 : ktask) (r : kexn + A) (w' : kworld) (t' : ktask) : Prop :=
  (r = inr a ∧ w' = w1 ∧ t' = t1) ∨ (∃ e, r = inl e ∧ (w' = w ∧ t' = t ∨ w' = w1 ∧ t' = t1)).
Definition reads {A} (a : A) (r : kexn + A) (w' : kworld) (t' : ktask) : Prop :=
  w' = w ∧ t' = t ∧ (r = inr a ∨ ∃ e, r = inl e).
Definition elsewhere (w' : kworld) (t' : ktask) : Prop := w' = w ∧ t' = t.

Definition writes (v : vwrite) (r : kexn + unit) (w' : kworld) (t' : ktask) : Prop :=
  t' = t ∧ ((r = inr tt ∧ w' = set_passages (apply_write v (passages w)) (late w) w) ∨
            ∃ e, r = inl e ∧ (w' = set_passages (passages w) ((i, v) :: late w) w ∨
                              w' = set_passages (apply_write v (passages w)) ((i, v) :: late w) w)).

Definition answers {R} (q : keff R) : R → kworld → ktask → Prop :=
  match q in keff R return R → kworld → ktask → Prop with
  | EDocument id => reads (row_of w t id)
  | EDocuments c => λ r w' t', w' = w ∧ t' = t ∧
      match r with
      | inr l => l ≡ₚ filter (λ d, doc_collection d = c) (map_to_list (docs w)).*2
      | inl _ => True
      end
  | ECollection c => reads (bool_decide (is_Some (cols w !! c)))
  | EStatus id s chunks error => λ _ w' t', t' = t ∧ (w' = w ∨
      (id ∉ locked) ∧ w' = set_docs (alter (with_status s chunks error) id (docs w)) w)
  | ESetStatus id s => λ r w' t', (id ∉ locked) ∧
      may_fail tt w (match row_of w t id with
                     | Some d => set_pend (<[id := Some (with_status s None None d)]> (pend t)) t
                     | None => t end) r w' t'
  | EClaim id expected claimed => λ r w' t', (id ∉ locked) ∧
      match row_of w t id with
      | Some d =>
          if bool_decide (status d ∈ expected)
          then may_fail true w (set_pend (<[id := Some (with_status claimed None None d)]> (pend t)) t) r w' t'
          else reads false r w' t'
      | None => reads false r w' t'
      end
  | ERemoveRow id => λ r w' t', (id ∉ locked) ∧ may_fail tt w (set_pend (<[id := None]> (pend t)) t) r w' t'
  | ERemoveCollection c =>
      may_fail tt w (mk_ktask (learnt t) (program t) (pend t) (c :: gone t) (ending t) (owes t))
  | ECommit => may_fail tt (commit_ t w) (commit_task t)
  | ESchedule _ => λ _, elsewhere
  | EJob _ _ => λ _, elsewhere
  | EAudit => λ _, elsewhere
  | EReadOriginal _ => λ _, elsewhere
  | EParse _ _ => λ _, elsewhere
  | EPutText id tx => may_fail tt (set_texts (<[id := tx]> (texts w)) w) t
  | EReadText id => λ r w' t', w' = w ∧ t' = t ∧
      match r with inr tx => texts w !! id = Some tx | inl _ => True end
  | EDeleteFiles id => may_fail tt (set_texts (delete id (texts w)) w) t
  | EFence c => reads (fence w c)
  | EBegin c => λ r w' t',
      let b := bool_decide (is_Some (cols w !! c)) in
      (r = inr b ∧ w' = begin_ c w ∧ t' = set_owes (Some (c, b)) t) ∨
      (∃ e, r = inl e ∧ t' = t ∧ (w' = w ∨ w' = begin_ c w))
  | EEnd c b => may_fail tt (end_ c b w) (set_owes None t)
  | EEndWith c b => may_fail tt w (mk_ktask (learnt t) (program t) (pend t) (gone t) (Some (c, b)) (owes t))
  | EBind j => λ r w' t', t' = t ∧
      match r with
      | inr _ => bind_ j w = Some w'
      | inl _ => w' = w ∨ bind_ j w = Some w'
      end
  | EResolve _ => λ _, elsewhere
  | EEmbedWith _ _ _ => λ _, elsewhere
  | EEmbed _ => λ _, elsewhere
  | EReady _ => λ _, elsewhere
  | EForget id => writes (WForget id)
  | EUpsert l => writes (WUpsert l)
  | ESearch _ limit c => λ r w' t', w' = w ∧ t' = t ∧
      match r with
      | inr l => (Z.of_nat (length l) ≤ limit)%Z ∧ Forall (retrieved (passages w) c) l
      | inl _ => True
      end
  | EGetFirst _ => λ _, elsewhere
  | EGetRecord _ => λ _, elsewhere
  | ERecord _ _ _ => λ _, elsewhere
  end.
End Answers.

(** ** Steps *)

Record world := mk_world { st : kworld; tasks : list ktask }.

Definition locked_by_others (i : nat) (ts : list ktask) : gset string :=
  ⋃ imap (λ j t, if bool_decide (i = j) then ∅ else dom (pend t)) ts.

(** A task goes on with what it was answered; when it ends, what it had not committed
    is rolled back. *)
Definition go_on (t : ktask) (e : kevent) (p : kprog unit) : ktask :=
  mk_ktask (learnt t ++ [e]) p (if finished p then ∅ else pend t) (gone t) (if finished p then None else ending t) (owes t).
Definition die (t : ktask) : ktask := mk_ktask (learnt t) (Throw OtherError) ∅ (gone t) None (owes t).
Definition new_task (p : kprog unit) : ktask := mk_ktask [] p ∅ [] None None.

(** What runs detached, and what a request asks. *)
Definition detached_program (d : detached) : kprog unit :=
  match d with Ingestion id job => run true id job | Reindex id job => run_reindex true id job end.
Definition scheduled {R} (q : keff R) : list ktask :=
  match q with ESchedule d => [new_task (detached_program d)] | _ => [] end.

Section World.
Context (token : text) (keyed_digest : string → list json → string) (hash : list Message → string) (size : stored → Z).

Inductive request : Type :=
  | RequestReindex (a : Actors.Actor) (id job : string)
  | DeleteDocument (a : Actors.Actor) (id : string)
  | DeleteCollection (a : Actors.Actor) (c : string)
  | GroundChat (configured : bool) (a : Actors.Actor) (messages : list Message) (c : option string) (top_k : Z)
  | Search (a : Actors.Actor) (query : text) (c : option string) (top_k : Z).

Definition served (q : request) : kprog unit :=
  match q with
  | RequestReindex a id job => reindex_route a id job
  | DeleteDocument a id => committed (delete_document a id)
  | DeleteCollection a c => committed (delete_collection a c)
  | GroundChat configured a messages c k =>
      let! _ := ground_chat token keyed_digest hash size true configured a messages c k in Pure tt
  | Search a query c k => let! _ := execute_or_empty true a query Actors.KNOWLEDGE_READ c k None in Pure tt
  end.

Definition add_home (id c : string) (w : kworld) : kworld :=
  mk_kworld (docs w) (cols w) (tenant w) (passages w) (texts w) (<[id := c]> (homes w)) (ever w) (late w) (history w).
Definition add_collection (c : string) (n : Z) (w : kworld) : kworld :=
  mk_kworld (docs w) (<[c := mk_row n 0]> (cols w)) (tenant w) (passages w) (texts w) (homes w) ({[c]} ∪ ever w) (late w) (history w).

(** [transition] of [infrastructure/recover_knowledge.py], when it recovers. *)
Definition recover_ (w : kworld) : kworld :=
  set_fence ((λ r, mk_row (f_epoch r + 1) 0) <$> cols w)
    ((λ rx : fence_row * (option identity * bool * bool), (mk_row (f_epoch rx.1 + 1) 0, rx.2)) <$> tenant w) w.

Inductive kstep : world → world → Prop :=
  | k_call i t R (q : keff R) k r w' t' w :
      tasks w !! i = Some t → program t = Ask q k →
      answers (locked_by_others i (tasks w)) i (st w) t q r w' t' →
      kstep w (mk_world (add_history i (log R q r) w') (<[i := go_on t' (log R q r) (k r)]> (tasks w) ++ scheduled q))
  | k_die i t w : tasks w !! i = Some t → kstep w (mk_world (st w) (<[i := die t]> (tasks w)))
  | k_request q w : kstep w (mk_world (st w) (tasks w ++ [new_task (served q)]))
  | k_upload d job w :
      homes (st w) !! doc_id d = None → doc_collection d ∈ ever (st w) →
      kstep w (mk_world (add_home (doc_id d) (doc_collection d) (st w))
                 (tasks w ++ [set_pend {[doc_id d := Some d]} (new_task (upload_route d job))]))
  | k_collection c n w : c ∉ ever (st w) → kstep w (mk_world (add_collection c n (st w)) (tasks w))
  | k_late i v w : (i, v) ∈ late (st w) →
      kstep w (mk_world (set_passages (apply_write v (passages (st w))) (late (st w)) (st w)) (tasks w))
  | k_lost w l : l ⊆ late (st w) → kstep w (mk_world (set_passages (passages (st w)) l (st w)) (tasks w))
  | k_recover w :
      late (st w) = [] → (∀ t, t ∈ tasks w → is_Some (owes t) → finished (program t) = true) →
      kstep w (mk_world (recover_ (st w)) (map (set_owes None) (tasks w))).

Definition start : world := mk_world (mk_kworld ∅ ∅ None ∅ ∅ ∅ ∅ [] []) [].
Definition reachable (w : world) : Prop := rtc kstep start w.

End World.

(** * How an ingestion ends *)

(** What a successful ingestion has published: it has forgotten the document's old
    passages and then stored the chunks of its text, all of them, in order. *)
Definition published (d : KnowledgeDocument) (n : Z) (tr : list kevent) : Prop :=
  ∃ t chunks pre post, chunk_text DEFAULT_CHUNK_CHARS DEFAULT_OVERLAP_CHARS t = Ret chunks ∧ n = Z.of_nat (length chunks) ∧
    (chunks = [] ∧ tr = pre ++ VWrote (WForget (doc_id d)) true :: post ∨
     ∃ l, tr = pre ++ VWrote (WForget (doc_id d)) true :: VWrote (WUpsert l) true :: post ∧
       map (λ ch, mk_chunk (ck_index ch) (ck_text ch)) l = chunks ∧
       Forall (λ ch, ck_document ch = doc_id d ∧ ck_collection ch = doc_collection d) l).

Section Ends.
Context (fenced : bool).

(** Any answer at all. *)
Definition free (_ : list kevent) (R : Type) (_ : keff R) (_ : R) : Prop := True.

Lemma published_extends d n tr tr' : tr `prefix_of` tr' → published d n tr → published d n tr'.
Proof.
  intros [more ->] (t&chunks&pre&post&Ht&Hn&[[Hc ->]|(l&->&Hl)]); exists t, chunks, pre, (post ++ more).
  - split_and!; [done..|]. left. by rewrite <- app_assoc.
  - split_and!; [done..|]. right. exists l. by rewrite <- app_assoc.
Qed.

Lemma under_learns {A} c (body : kprog A) (K : list kevent → Prop) tr :
  (∀ tr tr', tr `prefix_of` tr' → K tr → K tr') →
  (∀ tr, learns log free body (λ _, K) tt tr) → learns log free (under fenced c body) (λ _, K) tt tr.
Proof.
  intros HK Hb. unfold under, mutation. destruct fenced; [|apply Hb].
  eapply learns_bind; [apply learns_nothing|]. intros b [] tr1 _ _.
  eapply learns_bind; [apply Hb|]. intros a [] tr2 _ H2.
  eapply learns_bind; [apply learns_nothing|]. intros u [] tr3 H3 _. apply learns_pure. by eapply HK.
Qed.

Lemma zip_strict_fst {A B} (l : list A) (k : list B) pairs : zip_strict l k = Some pairs → map fst pairs = l.
Proof.
  revert k pairs. induction l as [|x l IH]; intros [|y k] pairs; simpl; try done; [by intros [= <-]|].
  destruct (zip_strict l k) as [p|] eqn:Hz; [|done]. intros [= <-]. simpl. by rewrite (IH _ _ Hz).
Qed.

Lemma document_chunks_of d (pairs : list (Chunk * vector)) :
  map (λ ch, mk_chunk (ck_index ch) (ck_text ch)) (map (document_chunk d) pairs) = map fst pairs ∧
  Forall (λ ch, ck_document ch = doc_id d ∧ ck_collection ch = doc_collection d) (map (document_chunk d) pairs).
Proof.
  split; [|by apply Forall_map, Forall_true]. rewrite map_map. apply map_ext. by intros [[] ?].
Qed.

Lemma publish_learns d t chunks vectors i tr : chunk_text DEFAULT_CHUNK_CHARS DEFAULT_OVERLAP_CHARS t = Ret chunks →
  learns log free (publish d chunks vectors i) (λ _, published d (Z.of_nat (length chunks))) tt tr.
Proof.
  intros Ht. unfold publish. eapply learns_bind; [apply learns_nothing|]. intros [] [] tr1 _ _.
  destruct vectors as [|v vs]; [apply learns_throw|].
  eapply learns_bind; [apply learns_nothing|]. intros [] [] tr2 _ _.
  eapply (learns_bind _ _ _ _ (λ _ tr', tr' = tr2 ++ [VWrote (WForget (doc_id d)) true])); [by apply learns_invoke; intros []|].
  intros [] [] tr3 _ ->. destruct (zip_strict chunks (v :: vs)) as [pairs|] eqn:Hz; [|apply learns_throw].
  apply learns_invoke. intros []. destruct (document_chunks_of d pairs) as [Hl Hd]. rewrite (zip_strict_fst _ _ _ Hz) in Hl.
  eexists t, chunks, tr2, []. split_and!; [done|done|]. right. eexists. split_and!; [|exact Hl|exact Hd]. by rewrite <- app_assoc.
Qed.

Lemma index_learns d t job tr : learns log free (_index fenced d t job) (published d) tt tr.
Proof.
  unfold _index. eapply learns_bind; [apply learns_nothing|]. intros [] [] tr1 _ _.
  eapply learns_bind; [apply learns_nothing|]. intros [] [] tr2 _ _.
  destruct (chunk_text _ _ t) as [e|[|c cs]] eqn:Ht; [apply learns_throw|..].
  - eapply learns_bind; [|intros a s' tr' _ H; apply learns_pure; exact H].
    apply under_learns; [intros ??; apply published_extends|]. intros tr3. apply learns_invoke. intros [].
    eexists t, [], tr3, []. split_and!; [done|done|]. by left.
  - eapply learns_bind; [apply learns_nothing|]. intros ti [] tr3 _ _.
    eapply learns_bind; [apply learns_nothing|]. intros vectors [] tr4 _ _.
    eapply learns_bind; [|intros a s' tr' _ H; apply learns_pure; exact H].
    apply under_learns; [intros ??; apply published_extends|]. intros tr5. by apply (publish_learns _ t).
Qed.

(** The two ways a job's end is told. *)
Definition told_end (id job : string) (d : KnowledgeDocument) (tr : list kevent) : Prop :=
  (∃ pre, tr = pre ++ [VStatus id ERROR None; VJob job failed]) ∨
  (∃ pre n, tr = pre ++ [VStatus id INDEXED (Some n); VJob job succeeded] ∧ published d n pre).

Lemma note_failure_told id job e d tr : wp log free (note_failure id job e) (λ _ _, told_end id job d) tt tr.
Proof.
  unfold note_failure, _fail. walk_calls. intros [] _ [x|[]] _; walk_calls; left; exists tr; by rewrite <- app_assoc.
Qed.

Lemma finish_told id job n d tr : published d n tr → wp log free (finish id job n) (λ _ _, told_end id job d) tt tr.
Proof.
  intros Hp. unfold finish. walk_calls. intros [] _ [x|[]] _; walk_calls; right; exists tr, n; by rewrite <- app_assoc.
Qed.

(** The part under the handlers. *)
Lemma handled_told id job d (p : kprog Z) tr : (∀ tr, learns log free p (published d) tt tr) →
  wp log free (let! n := attempt p in match n with inl e => note_failure id job e | inr n => finish id job n end)
    (λ _ _, told_end id job d) tt tr.
Proof.
  intros Hp. apply wp_bind, wp_attempt. eapply wp_mono; [|apply Hp]. intros [e|n] [] tr' [_ Hn]; [apply note_failure_told|by apply finish_told].
Qed.

Lemma ingestion_told (again : bool) id job :
  wp log free (if again then run_reindex fenced id job else Knowledge.run fenced id job)
    (λ o _ tr, (∃ e, o = inl e ∧ tr = [VOther]) ∨ tr = [VOther; VJob job failed] ∨
       ∃ d more, tr = VDocuments [d] :: more ∧ told_end id job d tr) tt [].
Proof.
  assert (∀ (rest : KnowledgeDocument → kprog unit),
    (∀ d, wp log free (rest d) (λ _ _, told_end id job d) tt [VDocuments [d]]) →
    wp log free (let! document := invoke (EDocument id) in match document with None => _fail job | Some d => rest d end)
    (λ o _ tr, (∃ e, o = inl e ∧ tr = [VOther]) ∨ tr = [VOther; VJob job failed] ∨
       ∃ d more, tr = VDocuments [d] :: more ∧ told_end id job d tr) tt []) as Hread.
  { intros rest Hrest. unfold _fail. walk_calls. intros [e|[d|]] _; walk_calls; [left; by exists e| |].
    - eapply wp_mono; [|apply (wp_and _ _ _ _ _ _ _ (Hrest d) (wp_extends _ _ _ _ _))]. intros o s tr [Ht [more ->]].
      right. right. by exists d, more.
    - intros [e|[]] _; walk_calls; right; by left. }
  destruct again; apply Hread; intros d; apply wp_bind.
  - apply wp_attempt. eapply wp_mono; [|apply wp_extends]. intros [e|t] [] tr _; [apply note_failure_told|].
    apply handled_told. intros tr'. apply index_learns.
  - apply wp_attempt. eapply wp_mono; [|apply wp_extends]. intros [e|t] [] tr _; [apply note_failure_told|].
    apply handled_told. intros tr'. eapply learns_bind; [apply learns_nothing|]. intros [] [] tr1 _ _.
    eapply learns_bind; [apply learns_nothing|]. intros [] [] tr2 _ _. apply index_learns.
Qed.
End Ends.

(** Whatever the database, the parser, the models and the vector store answer, an
    ingestion, first or repeated, returns, and once it has read its document it has told
    how it ended: the document is in ERROR and the job failed, or the document is INDEXED
    with a number of chunks and the job has succeeded.  It says INDEXED only after the
    old passages were forgotten and then, acknowledged in one write, exactly the chunks
    of a text stored under the document, in order, as many as it says.  Only a first
    read that raises escapes, and a document that is gone fails the job. *)
Theorem an_ingestion_reports_its_end (fenced again : bool) id job env :
  let '(o, _, tr) := Programs.run log env (if again then run_reindex fenced id job else Knowledge.run fenced id job) tt [] in
  (∃ e, o = inl e ∧ tr = [VOther]) ∨ tr = [VOther; VJob job failed] ∨
  ∃ d more, tr = VDocuments [d] :: more ∧ told_end id job d tr.
Proof.
  pose proof (ingestion_told fenced again id job) as Hw. rewrite wp_exec in Hw.
  pose proof (exec_run log free env (if again then run_reindex fenced id job else Knowledge.run fenced id job) tt [] ltac:(done)) as He.
  destruct (Programs.run _ _ _ _ _) as [[o []] tr]. apply (Hw _ _ _ He).
Qed.

(** * Playing a schedule *)

Section Play.
Context (token : text) (keyed_digest : string → list json → string) (hash : list Message → string) (size : stored → Z).
(** What the parser reads in any document, and the model that embeds it. *)
Context (parsed : text) (target : Target) (embedded : vector).

Definition found (ch : DocumentChunk) : RetrievedPassage :=
  mk_passage (ck_document ch) (ck_collection ch) (ck_index ch) (ck_text ch) (S754_zero false).

(** The answer of a service that works. *)
Definition reply (locked : gset string) (w : kworld) (t : ktask) {R} (q : keff R) : option (R * kworld * ktask) :=
  match q in keff R return option (R * kworld * ktask) with
  | EDocument id => Some (inr (row_of w t id), w, t)
  | EDocuments c => Some (inr (filter (λ d, doc_collection d = c) (map_to_list (docs w)).*2), w, t)
  | ECollection c => Some (inr (bool_decide (is_Some (cols w !! c))), w, t)
  | EStatus id s chunks error =>
      if bool_decide (id ∈ locked) then Some (tt, w, t)
      else Some (tt, set_docs (alter (with_status s chunks error) id (docs w)) w, t)
  | ESetStatus id s =>
      if bool_decide (id ∈ locked) then None
      else Some (inr tt, w, match row_of w t id with
                            | Some d => set_pend (<[id := Some (with_status s None None d)]> (pend t)) t
                            | None => t end)
  | EClaim id expected claimed =>
      if bool_decide (id ∈ locked) then None
      else match row_of w t id with
           | Some d => if bool_decide (status d ∈ expected)
                       then Some (inr true, w, set_pend (<[id := Some (with_status claimed None None d)]> (pend t)) t)
                       else Some (inr false, w, t)
           | None => Some (inr false, w, t)
           end
  | ERemoveRow id => if bool_decide (id ∈ locked) then None else Some (inr tt, w, set_pend (<[id := None]> (pend t)) t)
  | ERemoveCollection c => Some (inr tt, w, mk_ktask (learnt t) (program t) (pend t) (c :: gone t) (ending t) (owes t))
  | ECommit => Some (inr tt, commit_ t w, commit_task t)
  | ESchedule _ => Some (tt, w, t)
  | EJob _ _ => Some (inr tt, w, t)
  | EAudit => Some (tt, w, t)
  | EReadOriginal _ => Some (inr [], w, t)
  | EParse _ _ => Some (inr parsed, w, t)
  | EPutText id tx => Some (inr tt, set_texts (<[id := tx]> (texts w)) w, t)
  | EReadText id => Some (match texts w !! id with Some tx => inr tx | None => inl OtherError end, w, t)
  | EDeleteFiles id => Some (inr tt, set_texts (delete id (texts w)) w, t)
  | EFence c => Some (inr (fence w c), w, t)
  | EBegin c => let b := bool_decide (is_Some (cols w !! c)) in Some (inr b, begin_ c w, set_owes (Some (c, b)) t)
  | EEnd c b => Some (inr tt, end_ c b w, set_owes None t)
  | EEndWith c b => Some (inr tt, w, mk_ktask (learnt t) (program t) (pend t) (gone t) (Some (c, b)) (owes t))
  | EBind j => match bind_ j w with Some w' => Some (inr tt, w', t) | None => Some (inl OtherError, w, t) end
  | EResolve _ => Some (inr target, w, t)
  | EEmbedWith _ l _ => Some (inr (map (λ _, embedded) l), w, t)
  | EEmbed l => Some (inr (map (λ _, embedded) l), w, t)
  | EReady _ => Some (inr tt, w, t)
  | EForget id => Some (inr tt, set_passages (apply_write (WForget id) (passages w)) (late w) w, t)
  | EUpsert l => Some (inr tt, set_passages (apply_write (WUpsert l) (passages w)) (late w) w, t)
  | ESearch _ limit c =>
      Some (if bool_decide (0 ≤ limit)%Z
            then inr (take (Z.to_nat limit) (map found (map_to_list (behind c (passages w))).*2)) else inl OtherError, w, t)
  | EGetFirst _ => Some (inr None, w, t)
  | EGetRecord _ => Some (inr None, w, t)
  | ERecord _ _ _ => Some (inr true, w, t)
  end.

Lemma reply_answers L i w t {R} (q : keff R) r w' t' : reply L w t q = Some (r, w', t') → answers L i w t q r w' t'.
Proof.
  intros Hr. destruct q; simpl in *; repeat case_match; simplify_eq/=; unfold elsewhere, reads, may_fail, writes;
    rewrite ?bool_decide_eq_false, ?bool_decide_eq_true in *; try (by auto 10).
  - split; [done|split; [done|split; [rewrite length_take; lia|]]]. apply Forall_take, Forall_map, Forall_forall.
    intros ch Hch. apply list_elem_of_fmap in Hch as ([k ch']&->&Hk). apply elem_of_map_to_list in Hk.
    exists k, ch'. by split_and!.
Qed.

(** A write to the vector store that fails and may still land. *)
Definition lose (i : nat) (w : kworld) (t : ktask) {R} (q : keff R) : option (R * kworld * ktask) :=
  match q in keff R return option (R * kworld * ktask) with
  | EForget id => Some (inl VectorStoreError, set_passages (passages w) ((i, WForget id) :: late w) w, t)
  | EUpsert l => Some (inl VectorStoreError, set_passages (passages w) ((i, WUpsert l) :: late w) w, t)
  | _ => None
  end.

Lemma lose_answers L i w t {R} (q : keff R) r w' t' : lose i w t q = Some (r, w', t') → answers L i w t q r w' t'.
Proof. intros Hr. destruct q; simplify_eq/=; (split; [done|right]); eauto. Qed.

(** A task takes so many turns, or loses a write; a request arrives, a collection is opened. *)
Inductive move : Type := Go (i n : nat) | Lose (i : nat) | Serve (q : request) | Upload (d : KnowledgeDocument) (job : string) | Open (c : string).

Definition turn (works : bool) (w : world) (i : nat) : option world :=
  match tasks w !! i with
  | Some t =>
      match program t with
      | @Ask _ _ _ _ R q k =>
          match (if works then reply (locked_by_others i (tasks w)) (st w) t q else lose i (st w) t q) with
          | Some (r, w', t') =>
              Some (mk_world (add_history i (log R q r) w') (<[i := go_on t' (log R q r) (k r)]> (tasks w) ++ scheduled q))
          | None => None
          end
      | _ => None
      end
  | None => None
  end.

Definition play_move (w : world) (m : move) : option world :=
  match m with
  | Go i n => Nat.iter n (λ o, o ≫= λ w, turn true w i) (Some w)
  | Lose i => turn false w i
  | Serve q => Some (mk_world (st w) (tasks w ++ [new_task (served token keyed_digest hash size q)]))
  | Upload d job =>
      if bool_decide (homes (st w) !! doc_id d = None) && bool_decide (doc_collection d ∈ ever (st w))
      then Some (mk_world (add_home (doc_id d) (doc_collection d) (st w))
             (tasks w ++ [set_pend {[doc_id d := Some d]} (new_task (upload_route d job))]))
      else None
  | Open c => if bool_decide (c ∉ ever (st w)) then Some (mk_world (add_collection c 0 (st w)) (tasks w)) else None
  end.

Fixpoint play (w : world) (ms : list move) : option world :=
  match ms with
  | [] => Some w
  | m :: ms => match play_move w m with Some w' => play w' ms | None => None end
  end.

Abbreviation steps := (rtc (kstep token keyed_digest hash size)).

Lemma turn_steps works w i w' : turn works w i = Some w' → kstep token keyed_digest hash size w w'.
Proof.
  unfold turn. intros Ht. repeat case_match; simplify_eq; (eapply k_call; [done..|]); [by apply reply_answers|by apply lose_answers].
Qed.

Lemma play_move_steps w m w' : play_move w m = Some w' → steps w w'.
Proof.
  destruct m as [i n|i|q|d job|c]; simpl.
  - revert w'. induction n as [|n IH]; intros w'; simpl; [by intros [= <-]|].
    intros (w1&Hw1&Ht)%bind_Some. eapply rtc_r; [by apply IH|by eapply turn_steps].
  - intros Ht. by eapply rtc_once, turn_steps.
  - intros [= <-]. apply rtc_once, k_request.
  - case_match eqn:Hb; [|done]. intros [= <-]. apply andb_prop in Hb as [?%bool_decide_eq_true ?%bool_decide_eq_true].
    apply rtc_once. by apply k_upload.
  - case_bool_decide; [|done]. intros [= <-]. apply rtc_once. by apply k_collection.
Qed.

Lemma play_steps w ms w' : play w ms = Some w' → steps w w'.
Proof.
  revert w. induction ms as [|m ms IH]; intros w; simpl; [by intros [= ->]|].
  destruct (play_move w m) as [w1|] eqn:Hm; [|done]. intros Hp. etransitivity; [by eapply play_move_steps|by apply IH].
Qed.
End Play.
