(* ===== verification/KnowledgeFence.v ===== *)
(** What the knowledge fence guarantees.

    The invariant of [KnowledgeRuns]' worlds: rows and passages stay in their
    collection, every mutation begun and not ended is counted in the fence, and a
    write that may still land belongs to one of them.  The theorems: between two equal
    clean readings of a fence no passage behind it changed; what is recorded for a
    conversation was read so; a write that may land keeps its fence dirty; an
    ingestion reports how it ended; and a document deleted while it is indexed again
    stays searchable. *)

From S2P Require Import Grounding Json Interleaving.
From S2P Require Actors.
From S2P Require Export KnowledgeRuns.

(** * Theory *)

(** ** Writes and what lies behind a fence *)

Definition writes_to (hs : gmap string string) (v : vwrite) (c : string) : Prop :=
  match v with
  | WForget id => hs !! id = Some c
  | WUpsert l => Forall (λ ch, ck_collection ch = c ∧ hs !! ck_document ch = Some c) l
  end.

Definition points_ok (hs : gmap string string) (ps : gmap (string * Z) DocumentChunk) : Prop :=
  ∀ k ch, ps !! k = Some ch → hs !! k.1 = Some (ck_collection ch).

Lemma apply_write_points hs v c ps : writes_to hs v c → points_ok hs ps → points_ok hs (apply_write v ps).
Proof.
  intros Hv Hps. destruct v as [id|l]; simpl.
  - intros k ch [Hk _]%map_lookup_filter_Some. by apply Hps.
  - simpl in Hv. revert ps Hps. induction Hv as [|ch l [Hc Hh] _ IH]; intros ps Hps; simpl; [done|]. apply IH.
    intros k ch'. rewrite lookup_insert_Some. intros [[<- <-]|[_ ?]]; [by rewrite Hc|by apply Hps].
Qed.

(** A write behind one fence is not seen behind another. *)
Lemma apply_write_behind hs v c c' ps :
  writes_to hs v c → points_ok hs ps → c' ≠ c → behind (Some c') (apply_write v ps) = behind (Some c') ps.
Proof.
  intros Hv Hps Hne. destruct v as [id|l]; simpl in *.
  - apply map_eq. intros k. apply option_eq. intros ch. rewrite !map_lookup_filter_Some. simpl. split; [naive_solver|].
    intros [Hk Hc]. split_and!; [done| |done]. intros He. apply Hps in Hk. rewrite He, Hv in Hk. congruence.
  - revert ps Hps. induction Hv as [|ch l [Hc Hh] _ IH]; intros ps Hps; simpl; [done|]. rewrite IH.
    + unfold behind. rewrite map_filter_insert_not'; [done|simpl; congruence|].
      intros ch' Hch'. apply Hps in Hch'. simpl in *. congruence.
    + intros k ch'. rewrite lookup_insert_Some. intros [[<- <-]|[_ ?]]; [by rewrite Hc|by apply Hps].
Qed.

(** ** Counting *)

Definition count (P : ktask → bool) (ts : list ktask) : Z := Z.of_nat (length (List.filter P ts)).
Definition owes_on (c : string) (t : ktask) : bool := bool_decide (owes t = Some (c, true)).
Definition owes_any (t : ktask) : bool := bool_decide (is_Some (owes t)).

Lemma count_app P a b : count P (a ++ b) = (count P a + count P b)%Z.
Proof. unfold count. rewrite List.filter_app, length_app. lia. Qed.

Lemma count_cons P t a : count P (t :: a) = (Z.b2z (P t) + count P a)%Z.
Proof. unfold count. simpl. destruct (P t); simpl; lia. Qed.

Lemma count_insert P i t t' ts : ts !! i = Some t →
  (count P (<[i := t']> ts) + Z.b2z (P t) = count P ts + Z.b2z (P t'))%Z.
Proof.
  revert i. induction ts as [|u ts IH]; intros [|i] Hi; simplify_eq/=; rewrite !count_cons; [lia|].
  specialize (IH i Hi). lia.
Qed.

Lemma count_none P ts : Forall (λ t, P t = false) ts → count P ts = 0%Z.
Proof. induction 1 as [|t ts Ht _ IH]; [done|]. rewrite count_cons, Ht, IH. done. Qed.

Lemma count_pos P t ts : t ∈ ts → P t = true → (1 ≤ count P ts)%Z.
Proof.
  induction ts as [|u ts IH]; [by intros ?%not_elem_of_nil|]. rewrite elem_of_cons, count_cons.
  assert (0 ≤ count P ts)%Z by (unfold count; lia). intros [->|Ht] HP; [rewrite HP; simpl; lia|].
  specialize (IH Ht HP). destruct (P u); simpl; lia.
Qed.

Lemma count_nonneg P ts : (0 ≤ count P ts)%Z.
Proof. unfold count. lia. Qed.

(** ** The invariant *)

(** What can be read off a fence as numbers, and what a step may do to them. *)
Definition num (w : kworld) (c : option string) : option (Z * Z) :=
  (λ e, (epoch e, mutations_in_progress e)) <$> fence w c.

Definition moves (w w' : kworld) : Prop := ∀ c,
  (num w' c = num w c ∧ (∀ n, num w c = Some (n, 0%Z) → behind c (passages w') = behind c (passages w))) ∨
  (∃ n m n' m', num w c = Some (n, m) ∧ num w' c = Some (n', m') ∧ (n < n')%Z) ∨
  num w' c = None ∨
  ∃ c', c = Some c' ∧ c' ∉ ever w.

Definition open_of (w : kworld) : Z := default 0%Z ((λ rx : fence_row * (option identity * bool * bool), f_open rx.1) <$> tenant w).

Definition due_record (pre : list kevent) (chain : list GroundingAnchor) : Prop :=
  ∃ a, last chain = Some a ∧
    (citations a = [] ∨ ∃ c e l n, settled pre c e l ∧ citations a = take n (map capped l)).

(** Between equal clean readings nothing behind the fence changes. *)
Definition still (w : kworld) : Prop :=
  ∀ h1 i c e ps h2, history w = h1 ++ (i, VFence c e, ps) :: h2 → clean e = true →
    (∀ c', c = Some c' → c' ∈ ever w) ∧
    (∀ n m, num w c = Some (n, m) → (epoch e ≤ n)%Z ∧
       (n = epoch e → m = 0%Z ∧ behind c (passages w) = behind c ps ∧
         ∀ x, x ∈ h2 → behind c x.2 = behind c ps)) ∧
    (∀ mid j e2 ps2 post, h2 = mid ++ (j, VFence c e2, ps2) :: post → epoch e2 = epoch e →
       behind c ps2 = behind c ps ∧ ∀ x, x ∈ mid → behind c x.2 = behind c ps).

Record task_ok (w : kworld) (t : ktask) : Prop := {
  t_duty : kobeys (program t) (λ _ _, True) (learnt t);
  t_pend : ∀ id d, pend t !! id = Some (Some d) → doc_id d = id ∧ homes w !! id = Some (doc_collection d);
  t_told : ∀ d, told (learnt t) d → homes w !! doc_id d = Some (doc_collection d);
  t_seen : ∀ c, VCollection c ∈ learnt t → c ∈ ever w;
  t_held : ∀ c b f, held (learnt t) = Some (c, b, f) → finished (program t) = true ∨ owes t = Some (c, b) ∧ ending t = None;
  t_ending : ∀ c b, ending t = Some (c, b) → owes t = Some (c, b);
  t_begun : is_Some (owes t) → begun (learnt t);
  t_ended : finished (program t) = true → ending t = None;
  t_owes : ∀ c b, owes t = Some (c, b) → c ∈ ever w ∧ (b = false → cols w !! c = None);
  t_record : ∀ pre chain post, learnt t = pre ++ VRecorded chain :: post → due_record pre chain
}.

Record store_ok (w : kworld) : Prop := {
  s_rows : ∀ id d, docs w !! id = Some d → doc_id d = id ∧ homes w !! id = Some (doc_collection d);
  s_homes : ∀ id c, homes w !! id = Some c → c ∈ ever w;
  s_cols : ∀ c, is_Some (cols w !! c) → c ∈ ever w;
  s_points : points_ok (homes w) (passages w);
  s_found : ∀ i c l ps, (i, VSearched c l, ps) ∈ history w → Forall (retrieved ps c) l
}.

(** The open fences cover what the tasks owe. *)
Record covered (w : kworld) (ts : list ktask) : Prop := {
  c_open : ∀ c r, cols w !! c = Some r → (count (owes_on c) ts ≤ f_open r)%Z;
  c_tenant : (count owes_any ts ≤ open_of w)%Z
}.

Record kinv (w : world) : Prop := {
  i_store : store_ok (st w);
  i_tasks : ∀ t, t ∈ tasks w → task_ok (st w) t;
  i_covered : covered (st w) (tasks w);
  i_late : ∀ i v, (i, v) ∈ late (st w) → ∃ t c b, tasks w !! i = Some t ∧
    held (learnt t) = Some (c, b, false) ∧ owes t = Some (c, b) ∧ writes_to (homes (st w)) v c;
  i_log : ∀ i t, tasks w !! i = Some t → learnt t = events_of i (history (st w));
  i_who : ∀ i e ps, (i, e, ps) ∈ history (st w) → i < length (tasks w);
  i_still : still (st w)
}.

(** ** What each call leaves alone *)

Definition trow (w : kworld) : fence_row := default (mk_row 0 0) (fst <$> tenant w).

Lemma num_tenant w : num w None = Some (f_epoch (trow w), f_open (trow w)).
Proof. unfold num, fence, trow. by destruct (tenant w) as [[r [[i x] y]]|]. Qed.
Lemma num_collection w c : num w (Some c) = (λ r, (f_epoch r, f_open r)) <$> cols w !! c.
Proof. unfold num, fence. destruct (tenant w) as [[r [[i x] y]]|]; simpl; by destruct (cols w !! c). Qed.
Lemma open_of_trow w : open_of w = f_open (trow w).
Proof. unfold open_of, trow. by destruct (tenant w) as [[r x]|]. Qed.

Lemma moves_same w w' : trow w' = trow w → cols w' = cols w → passages w' = passages w → moves w w'.
Proof.
  intros Ht Hc Hp c. left. rewrite Hp. split; [|done].
  destruct c as [c|]; [by rewrite !num_collection, Hc|by rewrite !num_tenant, Ht].
Qed.

(** A fence row moves on, the others stay. *)
Lemma moves_fence w w' :
  (trow w' = trow w ∨ (f_epoch (trow w) < f_epoch (trow w'))%Z) →
  (∀ c, cols w' !! c = cols w !! c ∨ cols w' !! c = None ∨
        ∃ r r', cols w !! c = Some r ∧ cols w' !! c = Some r' ∧ (f_epoch r < f_epoch r')%Z) →
  passages w' = passages w → moves w w'.
Proof.
  intros Ht Hc Hp [c|].
  - rewrite !num_collection, Hp. destruct (Hc c) as [->|[->|(r&r'&->&->&?)]]; [by left|by right; right; left|].
    right. left. by eexists _, _, _, _.
  - rewrite !num_tenant, Hp. destruct Ht as [->|?]; [by left|]. right. left. by eexists _, _, _, _.
Qed.

Lemma alter_cases (f : fence_row → fence_row) c0 (cs : gmap string fence_row) c :
  (∀ r, (f_epoch r < f_epoch (f r))%Z) →
  alter f c0 cs !! c = cs !! c ∨ alter f c0 cs !! c = None ∨
  ∃ r r', cs !! c = Some r ∧ alter f c0 cs !! c = Some r' ∧ (f_epoch r < f_epoch r')%Z.
Proof.
  intros Hf. destruct (decide (c = c0)) as [->|Hne]; [|left; by rewrite lookup_alter_ne].
  rewrite lookup_alter_eq. destruct (cs !! c0) as [r|]; [|by left]. right. right. by exists r, (f r).
Qed.

Lemma moves_begin c w : moves w (begin_ c w).
Proof.
  apply moves_fence; [right|intros c'|done].
  - unfold trow. simpl. destruct (tenant w) as [[r x]|]; simpl; lia.
  - apply alter_cases. simpl. lia.
Qed.

Lemma trow_end c b w : (0 < f_open (trow w))%Z → trow (end_ c b w) = mk_row (f_epoch (trow w) + 1) (f_open (trow w) - 1).
Proof.
  unfold trow. simpl. destruct (tenant w) as [[r x]|]; simpl; [|lia]. intros Ho. by rewrite bool_decide_eq_true_2.
Qed.

Lemma moves_end c b w : (0 < f_open (trow w))%Z → moves w (end_ c b w).
Proof.
  intros Ho. apply moves_fence; [right; rewrite trow_end by done; simpl; lia|intros c'|done].
  apply alter_cases. simpl. lia.
Qed.

Lemma moves_trans_drop w w1 l :
  moves w w1 → moves w (set_fence (foldr delete (cols w1) l) (tenant w1) w1).
Proof.
  intros Hm c. destruct c as [c|].
  - assert (cols (set_fence (foldr delete (cols w1) l) (tenant w1) w1) !! c = cols w1 !! c ∨
            cols (set_fence (foldr delete (cols w1) l) (tenant w1) w1) !! c = None) as Hc.
    { simpl. clear Hm. induction l as [|x l IH]; simpl; [by left|].
      destruct (decide (c = x)) as [->|Hne]; [right; apply lookup_delete_eq|].
      rewrite lookup_delete_ne by done. exact IH. }
    destruct Hc as [Hc|Hc]; [|right; right; left; by rewrite num_collection, Hc].
    specialize (Hm (Some c)). rewrite !num_collection in *. by rewrite Hc.
  - specialize (Hm None). by rewrite !num_tenant in *.
Qed.

Record frame (w w' : kworld) : Prop := {
  f_homes : homes w' = homes w;
  f_ever : ever w' = ever w;
  f_history : history w' = history w;
  f_cols : ∀ c, is_Some (cols w' !! c) → is_Some (cols w !! c)
}.
Lemma frame_refl w : frame w w.
Proof. by split. Qed.

Lemma frame_begin c w : frame w (begin_ c w).
Proof. split; [done..|]. intros c' H. simpl in H. by apply lookup_alter_is_Some in H. Qed.
Lemma frame_end c b w : frame w (end_ c b w).
Proof. split; [done..|]. intros c' H. simpl in H. by apply lookup_alter_is_Some in H. Qed.
Lemma frame_commit t w : frame w (commit_ t w).
Proof.
  unfold commit_. assert (frame w (match ending t with Some (c, b) => end_ c b w | None => w end)) as [Hh He Hi Hc].
  { destruct (ending t) as [[c b]|]; [apply frame_end|apply frame_refl]. }
  split; [done..|]. intros c H. apply Hc. simpl in H. revert H. generalize (cols (match ending t with Some (c, b) => end_ c b w | None => w end)).
  intros cs. induction (gone t) as [|x l IH]; simpl; [done|]. intros H. apply IH.
  destruct (decide (c = x)) as [->|Hne]; [by rewrite lookup_delete_eq in H; destruct H|by rewrite lookup_delete_ne in H].
Qed.
Lemma frame_bind j w w' : bind_ j w = Some w' → frame w w'.
Proof.
  unfold bind_. intros H. repeat case_match; simplify_eq/=. by split.
Qed.

Ltac split_answers := repeat match goal with
  | H : answers _ _ _ _ _ _ _ _ |- _ => progress simpl in H
  | H : elsewhere _ _ _ _ |- _ => destruct H as [-> ->]
  | H : reads _ _ _ _ _ _ |- _ => destruct H as (->&->&_)
  | H : may_fail _ _ _ _ _ _ _ _ |- _ => destruct H as [(->&->&->)|(?&->&[[-> ->]|[-> ->]])]
  | H : writes _ _ _ _ _ _ _ |- _ => destruct H as [-> [[-> ->]|(?&->&[->| ->])]]
  | H : _ ∧ _ |- _ => destruct H
  | H : _ ∨ _ |- _ => destruct H
  | H : ∃ _, _ |- _ => destruct H
  end; simplify_eq/=.

#[local] Arguments apply_write : simpl never.
#[local] Arguments begin_ : simpl never.
#[local] Arguments end_ : simpl never.
#[local] Arguments commit_ : simpl never.

Lemma answers_frame {R} L i w t (q : keff R) r w' t' : answers L i w t q r w' t' →
  frame w w' ∧ learnt t' = learnt t ∧ program t' = program t.
Proof.
  intros Ha. destruct q; simpl in Ha;
    try (by destruct r; split_answers; (split; [first [by eapply frame_bind|by split]|done]));
    split_answers; try (split; [first [apply frame_begin|apply frame_end|apply frame_commit|by split]|done]).
  all: by repeat case_match; split_answers; (split; [by split|done]).
Qed.

(** ** The store stays well formed *)

Lemma known_home w t id c : task_ok w t → known (learnt t) id c → homes w !! id = Some c.
Proof. intros Hok (d&Hd&<-&<-). by apply (t_told _ _ Hok). Qed.

Lemma forget_due w t id : task_ok w t → must (learnt t) _ (EForget id) →
  ∃ c b, held (learnt t) = Some (c, b, true) ∧ writes_to (homes w) (WForget id) c.
Proof. intros Hok (c&b&Hh&Hk). exists c, b. split; [done|]. by eapply known_home. Qed.

Lemma upsert_due w t l : task_ok w t → must (learnt t) _ (EUpsert l) →
  ∃ c b, held (learnt t) = Some (c, b, true) ∧ writes_to (homes w) (WUpsert l) c.
Proof.
  intros Hok (c&b&Hh&Hk). exists c, b. split; [done|]. simpl. eapply Forall_impl; [exact Hk|].
  intros ch [? ?]. split; [done|]. by eapply known_home.
Qed.

(** A call that writes passages, and what it writes. *)
Definition wrote {R} (q : keff R) : option vwrite :=
  match q with EForget id => Some (WForget id) | EUpsert l => Some (WUpsert l) | _ => None end.

Lemma write_due {R} w t (q : keff R) v : task_ok w t → must (learnt t) R q → wrote q = Some v →
  ∃ c b, held (learnt t) = Some (c, b, true) ∧ writes_to (homes w) v c.
Proof.
  intros Hok Hm Hq. destruct q; simplify_eq/=; [by eapply forget_due|by eapply upsert_due].
Qed.

Lemma with_status_ok (hs : gmap string string) s ch er d (id : string) :
  doc_id d = id ∧ hs !! id = Some (doc_collection d) →
  doc_id (with_status s ch er d) = id ∧ hs !! id = Some (doc_collection (with_status s ch er d)).
Proof. done. Qed.

Lemma commit_docs_lookup p ds id d : commit_docs p ds !! id = Some d →
  p !! id = Some (Some d) ∨ ds !! id = Some d.
Proof.
  unfold commit_docs. rewrite lookup_merge. unfold diag_None.
  destruct (p !! id) as [[?|]|], (ds !! id); intros; simplify_eq/=; auto.
Qed.

Lemma commit_fields t w : docs (commit_ t w) = commit_docs (pend t) (docs w) ∧ passages (commit_ t w) = passages w ∧
  texts (commit_ t w) = texts w ∧ late (commit_ t w) = late w.
Proof. unfold commit_. by destruct (ending t) as [[c b]|]. Qed.

Lemma bind_fields j w w' : bind_ j w = Some w' →
  docs w' = docs w ∧ passages w' = passages w ∧ late w' = late w ∧ cols w' = cols w ∧ trow w' = trow w.
Proof. unfold bind_, trow. intros H. by repeat case_match; simplify_eq/=. Qed.

Lemma answers_docs {R} L i w t (q : keff R) r w' t' : answers L i w t q r w' t' →
  docs w' = docs w ∨ (∃ id s ch er, docs w' = alter (with_status s ch er) id (docs w)) ∨
  docs w' = commit_docs (pend t) (docs w).
Proof.
  intros Ha. destruct q; simpl in Ha; try (by left; split_answers); try (by left; repeat case_match; split_answers).
  - destruct Ha as [-> [->|[_ ->]]]; [by left|]. right. left. by eexists _, _, _, _.
  - assert (w' = w ∨ w' = commit_ t w) as [->| ->] by (split_answers; auto); [by left|]. right. right.
    apply commit_fields.
  - left. destruct Ha as [_ Ha]. assert (w' = w ∨ ∃ j, bind_ j w = Some w') as [->|[j Hb]] by (destruct r; naive_solver);
      [done|]. by destruct (bind_fields _ _ _ Hb) as (?&_).
Qed.

(** Rows keep their identity and their collection. *)
Lemma answers_rows {R} L i w t (q : keff R) r w' t' id d :
  store_ok w → task_ok w t → answers L i w t q r w' t' → docs w' !! id = Some d →
  doc_id d = id ∧ homes w !! id = Some (doc_collection d).
Proof.
  intros Hs Hok Ha. destruct (answers_docs _ _ _ _ _ _ _ _ Ha) as [->|[(id'&s&ch&er&->)| ->]]; [apply (s_rows _ Hs)|..].
  - intros [(<-&d'&Hd'&->)|[_ Hd]]%lookup_alter_Some; [apply with_status_ok|]; by apply (s_rows _ Hs).
  - intros [Hd|Hd]%commit_docs_lookup; [by apply (t_pend _ _ Hok)|by apply (s_rows _ Hs)].
Qed.

(** The passages a call leaves, and the writes it leaves behind. *)
Lemma answers_passages {R} L i w t (q : keff R) r w' t' :
  answers L i w t q r w' t' →
  passages w' = passages w ∧ late w' = late w ∨
  ∃ v, wrote q = Some v ∧ (passages w' = passages w ∨ passages w' = apply_write v (passages w)) ∧
    (late w' = late w ∧ log R q r = VWrote v true ∨ late w' = (i, v) :: late w ∧ log R q r = VWrote v false).
Proof.
  intros Ha. destruct q; simpl in Ha; try (by left; split_answers; auto); try (by left; repeat case_match; split_answers; auto).
  - left. assert (w' = w ∨ w' = commit_ t w) as [->| ->] by (split_answers; auto); [by auto|].
    destruct (commit_fields t w) as (_&?&_&?). auto.
  - left. destruct Ha as [_ Ha]. assert (w' = w ∨ ∃ j, bind_ j w = Some w') as [->|[j Hb]] by (destruct r; naive_solver);
      [by auto|]. destruct (bind_fields _ _ _ Hb) as (_&?&?&_). auto.
  - right. destruct Ha as [-> [[-> ->]|(e&->&[->| ->])]]; eexists; eauto 10.
  - right. destruct Ha as [-> [[-> ->]|(e&->&[->| ->])]]; eexists; eauto 10.
Qed.

Lemma answers_store {R} L i w t (q : keff R) r w' t' :
  store_ok w → task_ok w t → must (learnt t) R q → answers L i w t q r w' t' →
  store_ok (add_history i (log R q r) w').
Proof.
  intros Hs Hok Hm Ha. destruct (answers_frame _ _ _ _ _ _ _ _ Ha) as ([Hh He Hi Hc]&_&_).
  split; simpl; rewrite ?Hh, ?He.
  - intros id d. by eapply answers_rows.
  - apply (s_homes _ Hs).
  - intros c Hx. by apply (s_cols _ Hs), Hc.
  - destruct (answers_passages _ _ _ _ _ _ _ _ Ha) as [[-> _]|(v&Hv&[->| ->]&_)]; [apply (s_points _ Hs)..|].
    destruct (write_due _ _ _ _ Hok Hm Hv) as (c&b&_&Hw). eapply apply_write_points; [done|apply (s_points _ Hs)].
  - intros j c l ps. rewrite Hi. intros [Hx|Hx%list_elem_of_singleton]%elem_of_app; [by eapply (s_found _ Hs)|].
    injection Hx as -> Hlog ->. destruct q; simpl in Hlog; repeat case_match; simplify_eq.
    simpl in Ha. by destruct Ha as (->&_&_&?).
Qed.

(** ** The fence and the passages move together *)

Section Moves.
Context (w : kworld) (ts : list ktask) (i : nat) (t : ktask).
Context (Hs : store_ok w) (Ht : task_ok w t) (Hin : ts !! i = Some t) (Hcov : covered w ts).

Lemma holder_owes c b f : finished (program t) = false → held (learnt t) = Some (c, b, f) →
  owes t = Some (c, b) ∧ ending t = None.
Proof. intros Hf Hh. destruct (t_held _ _ Ht _ _ _ Hh) as [?|?]; [congruence|done]. Qed.

Lemma owing_tenant c b : owes t = Some (c, b) → (0 < f_open (trow w))%Z.
Proof.
  intros Ho. rewrite <- open_of_trow. pose proof (c_tenant _ _ Hcov).
  pose proof (count_pos owes_any t ts ltac:(by eapply list_elem_of_lookup_2)) as Hp.
  assert (owes_any t = true) as Hany by (apply bool_decide_eq_true; by rewrite Ho). specialize (Hp Hany). lia.
Qed.

Lemma owing_collection c b r : owes t = Some (c, b) → cols w !! c = Some r → (0 < f_open r)%Z.
Proof.
  intros Ho Hr. pose proof (c_open _ _ Hcov _ _ Hr). destruct (t_owes _ _ Ht _ _ Ho) as [_ Hnone].
  destruct b; [|by rewrite Hnone in Hr].
  pose proof (count_pos (owes_on c) t ts ltac:(by eapply list_elem_of_lookup_2)) as Hp.
  assert (owes_on c t = true) as Hon by by apply bool_decide_eq_true. specialize (Hp Hon). lia.
Qed.

(** Who writes owes the fence of what it writes, so that fence is not clean. *)
Lemma moves_write c b v w' : owes t = Some (c, b) → writes_to (homes w) v c →
  trow w' = trow w → cols w' = cols w →
  passages w' = passages w ∨ passages w' = apply_write v (passages w) → moves w w'.
Proof.
  intros Ho Hv Htr Hc [Hp|Hp]; [by apply moves_same|]. intros x. left. split.
  { destruct x as [x|]; [by rewrite !num_collection, Hc|by rewrite !num_tenant, Htr]. }
  intros n Hn. rewrite Hp. destruct x as [x|].
  - destruct (decide (x = c)) as [->|Hne]; [|by eapply apply_write_behind; [|apply (s_points _ Hs)|]].
    rewrite num_collection in Hn. destruct (cols w !! c) as [r|] eqn:Hr; [|done]. injection Hn as _ Hz.
    pose proof (owing_collection _ _ _ Ho Hr). lia.
  - rewrite num_tenant in Hn. injection Hn as _ Hz. pose proof (owing_tenant _ _ Ho). lia.
Qed.

Lemma answers_moves {R} L (q : keff R) r w' t' : finished (program t) = false → must (learnt t) R q →
  answers L i w t q r w' t' → moves w w'.
Proof.
  intros Hf Hm Ha. destruct (wrote q) as [v|] eqn:Hv.
  - destruct (write_due _ _ _ _ Ht Hm Hv) as (c&b&Hh&Hw). destruct (holder_owes _ _ _ Hf Hh) as [Ho _].
    assert (trow w' = trow w ∧ cols w' = cols w) as [? ?].
    { destruct q; simplify_eq/=; destruct Ha as [_ [[_ ->]|(e&_&[->| ->])]]; done. }
    eapply moves_write; [done..|]. destruct (answers_passages _ _ _ _ _ _ _ _ Ha) as [[? _]|(v'&?&?&_)]; [by left|].
    by simplify_eq.
  - destruct q; simplify_eq/=; try (by apply moves_same; split_answers); try (by apply moves_same; repeat case_match; split_answers).
    + assert (w' = w ∨ w' = commit_ t w) as [->| ->] by (split_answers; auto); [by apply moves_same|].
      unfold commit_. apply (moves_trans_drop w (match ending t with Some (c, b) => end_ c b w | None => w end) (gone t)).
      destruct (ending t) as [[c b]|] eqn:He; [|by apply moves_same].
      apply moves_end. eapply owing_tenant. by apply (t_ending _ _ Ht).
    + assert (w' = w ∨ w' = begin_ collection w) as [->| ->] by (split_answers; auto); [by apply moves_same|apply moves_begin].
    + assert (w' = w ∨ w' = end_ collection began w) as [->| ->] by (split_answers; auto); [by apply moves_same|].
      destruct (holder_owes _ _ _ Hf Hm) as [Ho _]. apply moves_end. by eapply owing_tenant.
    + destruct Ha as [_ Ha]. assert (w' = w ∨ ∃ j, bind_ j w = Some w') as [->|[j Hb]] by (destruct r; naive_solver);
        [by apply moves_same|]. destruct (bind_fields _ _ _ Hb) as (_&?&_&?&?). by apply moves_same.
Qed.
End Moves.

(** ** Every open mutation is counted *)

Section Covered.
Context (w : kworld) (ts : list ktask) (i : nat) (t : ktask).
Context (Ht : task_ok w t) (Hin : ts !! i = Some t) (Hcov : covered w ts).

(** The fence rows a call leaves, against those it found. *)
Lemma covered_step w' t' :
  (∀ c r', cols w' !! c = Some r' → ∃ r, cols w !! c = Some r ∧
     (f_open r + Z.b2z (owes_on c t') - Z.b2z (owes_on c t) ≤ f_open r')%Z) →
  (f_open (trow w) + Z.b2z (owes_any t') - Z.b2z (owes_any t) ≤ f_open (trow w'))%Z →
  covered w' (<[i := t']> ts).
Proof.
  intros Hc Htr. split.
  - intros c r' Hr'. destruct (Hc _ _ Hr') as (r&Hr&Hle). pose proof (c_open _ _ Hcov _ _ Hr).
    pose proof (count_insert (owes_on c) i t t' ts Hin). lia.
  - rewrite open_of_trow. pose proof (c_tenant _ _ Hcov) as H. rewrite open_of_trow in H.
    pose proof (count_insert owes_any i t t' ts Hin). lia.
Qed.

Lemma covered_same w' t' : trow w' = trow w → cols w' = cols w → owes t' = owes t → covered w' (<[i := t']> ts).
Proof.
  intros Htr Hc Ho. apply covered_step.
  - intros c r'. rewrite Hc. intros Hr. exists r'. split; [done|]. unfold owes_on. rewrite Ho. lia.
  - unfold owes_any. rewrite Htr, Ho. lia.
Qed.

Lemma covered_begin c t' : owes t' = owes t ∨ owes t' = Some (c, bool_decide (is_Some (cols w !! c))) →
  covered (begin_ c w) (<[i := t']> ts).
Proof.
  intros Ho. apply covered_step.
  - intros c' r'. simpl. destruct (decide (c' = c)) as [->|Hne].
    + unfold begin_. simpl. rewrite lookup_alter_eq. destruct (cols w !! c) as [r|]; [|done]. intros [= <-]. exists r. split; [done|].
      simpl. destruct (owes_on c t'), (owes_on c t); simpl; lia.
    + unfold begin_. simpl. rewrite lookup_alter_ne by done. intros Hr. exists r'. split; [done|].
      assert (owes_on c' t' = true → owes_on c' t = true) as Himp.
      { unfold owes_on. rewrite !bool_decide_eq_true. intros Hx. destruct Ho as [<-|Ho]; [done|]. congruence. }
      destruct (owes_on c' t'), (owes_on c' t); simpl; try lia; by specialize (Himp eq_refl).
  - unfold trow, begin_. simpl. destruct (tenant w) as [[r x]|]; simpl;
      destruct (owes_any t'), (owes_any t); simpl; lia.
Qed.

Lemma covered_end c b t' : owes t = Some (c, b) → (0 < f_open (trow w))%Z →
  owes t' = None → covered (end_ c b w) (<[i := t']> ts).
Proof.
  intros Ho Hpos Ho'. assert (∀ c', owes_on c' t' = false) as Hon' by (intros c'; apply bool_decide_eq_false; congruence).
  assert (owes_any t' = false) as Hany' by (apply bool_decide_eq_false; rewrite Ho'; by intros [? ?]).
  assert (owes_any t = true) as Hany by (apply bool_decide_eq_true; by rewrite Ho).
  apply covered_step; rewrite ?Hany, ?Hany'.
  - intros c' r'. unfold end_. simpl. rewrite Hon'. destruct (decide (c' = c)) as [->|Hne].
    + rewrite lookup_alter_eq. destruct (cols w !! c) as [r|]; [|done]. intros [= <-]. exists r. split; [done|].
      unfold owes_on. rewrite Ho. destruct b; simpl; [|rewrite bool_decide_eq_false_2 by congruence; simpl; lia].
      rewrite bool_decide_eq_true_2 by done. simpl. lia.
    + rewrite lookup_alter_ne by done. intros Hr. exists r'. split; [done|].
      unfold owes_on. rewrite bool_decide_eq_false_2 by congruence. simpl. lia.
  - rewrite trow_end by done. simpl. lia.
Qed.

(** A transaction may also remove collections. *)
Lemma covered_drop w1 ts1 l : covered w1 ts1 → covered (set_fence (foldr delete (cols w1) l) (tenant w1) w1) ts1.
Proof.
  intros [Ho Hc]. split; [|done]. intros c r Hr. apply Ho. simpl in Hr. clear Ho Hc.
  induction l as [|x l IH]; simpl in *; [done|]. apply lookup_delete_Some in Hr as [_ Hr]. by apply IH.
Qed.

Lemma covered_docs ds w1 ts1 : covered w1 ts1 → covered (set_docs ds w1) ts1.
Proof. by intros [Ho Hc]. Qed.

Lemma answers_covered {R} L (q : keff R) r w' t' : finished (program t) = false → must (learnt t) R q →
  answers L i w t q r w' t' → covered w' (<[i := t']> ts).
Proof.
  intros Hf Hm Ha. destruct (wrote q) as [v|] eqn:Hv.
  { destruct q; simplify_eq/=; destruct Ha as [-> [[_ ->]|(e&_&[->| ->])]]; by apply covered_same. }
  destruct q; simplify_eq/=; try (by split_answers; apply covered_same);
    try (by repeat case_match; split_answers; apply covered_same).
  - assert (w' = w ∧ t' = t ∨ w' = commit_ t w ∧ t' = commit_task t) as [[-> ->]|[-> ->]] by (split_answers; auto);
      [by apply covered_same|]. unfold commit_.
    apply covered_docs, (covered_drop (match ending t with Some (c, b) => end_ c b w | None => w end)).
    destruct (ending t) as [[c b]|] eqn:He.
    + pose proof (t_ending _ _ Ht _ _ He) as Ho. apply covered_end; [done|by eapply owing_tenant|]. simpl. by rewrite He.
    + apply covered_same; [done|done|]. simpl. by rewrite He.
  - destruct Ha as [(_&->&->)|(e&_&->&[->| ->])].
    + apply covered_begin. by right.
    + by apply covered_same.
    + apply covered_begin. by left.
  - destruct (holder_owes _ _ Ht _ _ _ Hf Hm) as [Ho _].
    assert (w' = w ∧ t' = t ∨ w' = end_ collection began w ∧ t' = set_owes None t) as [[-> ->]|[-> ->]] by (split_answers; auto);
      [by apply covered_same|]. apply covered_end; [done|by eapply owing_tenant|done].
  - destruct Ha as [-> Ha]. assert (w' = w ∨ ∃ j, bind_ j w = Some w') as [->|[j Hb]] by (destruct r; naive_solver);
      [by apply covered_same|]. destruct (bind_fields _ _ _ Hb) as (_&_&_&?&?). by apply covered_same.
Qed.
End Covered.

(** ** The tasks *)

Lemma task_grows w w' t : homes w ⊆ homes w' → ever w ⊆ ever w' →
  (∀ c, c ∈ ever w → is_Some (cols w' !! c) → is_Some (cols w !! c)) → task_ok w t → task_ok w' t.
Proof.
  intros Hh He Hc [Hd Hp Ht Hs Hheld Hend Hb Hed Ho Hr]. split; try done.
  - intros id d Hx. destruct (Hp _ _ Hx) as [? Hy]. split; [done|]. by eapply lookup_weaken.
  - intros d Hx. eapply lookup_weaken; [by apply Ht|done].
  - intros c Hx. by apply He, Hs.
  - intros c b Hcb. destruct (Ho _ _ Hcb) as [Hx Hnone]. split; [by apply He|]. intros ->. specialize (Hnone eq_refl).
    destruct (cols w' !! c) eqn:Hy; [|done]. destruct (Hc c Hx) as [? ?]; [by rewrite Hy|congruence].
Qed.

Lemma answers_may {R} L i w t (q : keff R) r w' t' tr : answers L i w t q r w' t' → may tr R q r.
Proof.
  destruct q; try done. simpl. intros (_&_&Hl). destruct r as [e|l]; [done|]. rewrite Hl. apply Forall_forall.
  intros d Hd. by apply list_elem_of_filter in Hd as [? _].
Qed.

Lemma row_of_ok w t id d : store_ok w → task_ok w t → row_of w t id = Some d →
  doc_id d = id ∧ homes w !! id = Some (doc_collection d).
Proof.
  intros Hs Ht. unfold row_of. destruct (pend t !! id) as [r|] eqn:Hp; [|apply (s_rows _ Hs)].
  intros ->. by apply (t_pend _ _ Ht).
Qed.

Section Acting.
Context (L : gset string) (w : kworld) (ts : list ktask) (i : nat) (t : ktask).
Context (Hs : store_ok w) (Ht : task_ok w t) (Hf : finished (program t) = false).

Lemma answers_pend {R} (q : keff R) r w' t' id d : answers L i w t q r w' t' → pend t' !! id = Some (Some d) →
  doc_id d = id ∧ homes w !! id = Some (doc_collection d).
Proof.
  assert (∀ id' s, pend (match row_of w t id' with Some d => set_pend (<[id' := Some (with_status s None None d)]> (pend t)) t
            | None => t end) !! id = Some (Some d) → doc_id d = id ∧ homes w !! id = Some (doc_collection d)) as Hset.
  { intros id' s. destruct (row_of w t id') as [d'|] eqn:Hr; [|apply (t_pend _ _ Ht)]. simpl.
    rewrite lookup_insert_Some. intros [[-> [= <-]]|[_ ?]]; [by apply with_status_ok, (row_of_ok w t)|by apply (t_pend _ _ Ht)]. }
  intros Ha. destruct q; simpl in Ha; try (split_answers; by apply (t_pend _ _ Ht)).
  - destruct Ha as [_ Ha]. assert (t' = t ∨ t' = match row_of w t id0 with
      | Some d => set_pend (<[id0 := Some (with_status s None None d)]> (pend t)) t | None => t end) as [->| ->]
      by (split_answers; auto); [apply (t_pend _ _ Ht)|apply Hset].
  - destruct Ha as [_ Ha]. destruct (row_of w t id0) as [d'|] eqn:Hr; [|split_answers; by apply (t_pend _ _ Ht)].
    specialize (Hset id0 claimed). rewrite Hr in Hset. case_bool_decide; split_answers; try (by apply (t_pend _ _ Ht)); by apply Hset.
  - destruct Ha as [_ Ha]. assert (t' = t ∨ t' = set_pend (<[id0 := None]> (pend t)) t) as [->| ->]
      by (split_answers; auto); [apply (t_pend _ _ Ht)|]. simpl. rewrite lookup_insert_Some.
    intros [[_ ?]|[_ ?]]; [done|by apply (t_pend _ _ Ht)].
  - assert (t' = t ∨ t' = commit_task t) as [->| ->] by (split_answers; auto); [apply (t_pend _ _ Ht)|done].
Qed.

Lemma answers_told {R} (q : keff R) r w' t' l d : answers L i w t q r w' t' → log R q r = VDocuments l → d ∈ l →
  homes w !! doc_id d = Some (doc_collection d).
Proof.
  intros Ha Hl Hd. destruct q; simpl in Hl; repeat case_match; simplify_eq; simpl in Ha.
  - apply list_elem_of_singleton in Hd as ->. destruct Ha as (_&_&[Hr|[e He]]); [|done]. injection Hr as Hr.
    by destruct (row_of_ok w t _ _ Hs Ht (eq_sym Hr)) as [-> ?].
  - destruct Ha as (_&_&Hl). rewrite Hl in Hd. apply list_elem_of_filter in Hd as [_ Hd].
    apply list_elem_of_fmap in Hd as ([id d']&->&Hd). apply elem_of_map_to_list in Hd. simpl.
    by destruct (s_rows _ Hs _ _ Hd) as [-> ?].
Qed.

Lemma answers_seen {R} (q : keff R) r w' t' c : answers L i w t q r w' t' → log R q r = VCollection c → c ∈ ever w.
Proof.
  intros Ha Hl. destruct q; simpl in Hl; repeat case_match; simplify_eq; simpl in Ha.
  destruct Ha as (_&_&[Hr|[e He]]); [|done]. injection Hr as Hr. symmetry in Hr. apply bool_decide_eq_true in Hr.
  by apply (s_cols _ Hs).
Qed.

Lemma held_begun tr c b f : held tr = Some (c, b, f) → begun tr.
Proof.
  revert c b f. induction tr as [|e tr IH] using rev_ind; intros c b f; [done|]. rewrite held_after.
  assert (begun tr → begun (tr ++ [e])) as Happ by (intros (c'&b'&?); exists c', b'; apply elem_of_app; by left).
  destruct e as [| | | | |c' [b'|]| |v [|]| | |]; simpl; try done; try (by intros H; eapply Happ, IH).
  - intros _. exists c', (Some b'). apply elem_of_app. right. by apply list_elem_of_singleton.
  - destruct (held tr) as [[[c1 b1] f1]|] eqn:Hh; [|done]. intros _. by eapply Happ, IH.
Qed.

Lemma ending_begun : is_Some (ending t) → begun (learnt t).
Proof. intros [[c b] He]. apply (t_begun _ _ Ht). by rewrite (t_ending _ _ Ht _ _ He). Qed.

(** What a task owes follows what its trace says it holds. *)
Lemma answers_held {R} (q : keff R) r w' t' c b f : must (learnt t) R q → answers L i w t q r w' t' →
  hold_step (held (learnt t)) (log R q r) = Some (c, b, f) → owes t' = Some (c, b) ∧ ending t' = None.
Proof.
  intros Hm Ha Hh.
  assert (∀ c b f, held (learnt t) = Some (c, b, f) → owes t = Some (c, b) ∧ ending t = None) as Hold.
  { intros c' b' f' Hx. by eapply holder_owes. }
  destruct q; cbn [log] in Hh;
    try (assert (held (learnt t) = Some (c, b, f)) as Hx by (repeat case_match; done); specialize (Hold _ _ _ Hx));
    simpl in Ha; try (by split_answers).
  - destruct Ha as [_ Ha]. destruct (row_of w t id); by split_answers.
  - destruct Ha as [_ Ha]. destruct (row_of w t id); [case_bool_decide|]; by split_answers.
  - destruct Hold as [Ho He]. split_answers; [|done|]; unfold commit_task; simpl; by rewrite He.
  - destruct Ha as [(->&_&->)|(e&->&->&_)]; [|done]. simpl in Hh. injection Hh as <- <- _. split; [done|].
    destruct (ending t) eqn:He; [|done]. destruct Hm as [Hm _]. destruct Hm. apply ending_begun. by rewrite He.
  - destruct Hm as (c'&b'&Hx&_). destruct (Hold _ _ _ Hx) as [Ho He]. destruct Ha as [-> Ha].
    rewrite Hx in Hh. destruct (is_ok r); simpl in Hh; by simplify_eq.
  - destruct Hm as (c'&b'&Hx&_). destruct (Hold _ _ _ Hx) as [Ho He]. destruct Ha as [-> Ha].
    rewrite Hx in Hh. destruct (is_ok r); simpl in Hh; by simplify_eq.
Qed.
End Acting.

(** How what a task owes and has ended changes. *)
Lemma answers_owes {R} L i w t (q : keff R) r w' t' : answers L i w t q r w' t' →
  (owes t' = owes t ∧ ending t' = ending t) ∨
  (owes t' = None ∨ owes t' = owes t) ∧ ending t' = None ∨
  (∃ c b, (∀ tr, must tr R q → held tr = Some (c, b, true)) ∧ owes t' = owes t ∧ ending t' = Some (c, b)) ∨
  (∃ c b, owes t' = Some (c, b) ∧ ending t' = ending t ∧ log R q r = VBegin c (Some b) ∧ w' = begin_ c w ∧
     b = bool_decide (is_Some (cols w !! c)) ∧ (∀ tr, must tr R q → ¬ begun tr ∧ known_collection tr c)) ∨
  (∃ c b, (∀ tr, must tr R q → held tr = Some (c, b, true)) ∧ owes t' = None ∧ ending t' = ending t).
Proof.
  intros Ha. destruct q; simpl in Ha; try (by left; split_answers).
  - left. destruct Ha as [_ Ha]. destruct (row_of w t id); by split_answers.
  - left. destruct Ha as [_ Ha]. destruct (row_of w t id); [case_bool_decide|]; by split_answers.
  - split_answers; [|by left|]; right; left; unfold commit_task; simpl; destruct (ending t); auto.
  - destruct Ha as [(->&->&->)|(e&->&->&_)]; [|by left]. right. right. right. left. eexists _, _. by split_and!.
  - split_answers; [|by left|]; right; right; right; right; by eexists _, _.
  - split_answers; [|by left|]; right; right; left; by eexists _, _.
Qed.

Lemma answers_task {R} L i w t (q : keff R) k r w' t' :
  store_ok w → task_ok w t → program t = Ask q k → answers L i w t q r w' t' →
  task_ok w' (go_on t' (log R q r) (k r)).
Proof.
  intros Hs Ht Hp Ha. pose proof (t_duty _ _ Ht) as Hd. rewrite Hp in Hd. destruct Hd as [Hm Hk].
  assert (finished (program t) = false) as Hf by by rewrite Hp.
  destruct (answers_frame _ _ _ _ _ _ _ _ Ha) as (Hfr&Hl&_). destruct Hfr as [Hh He _ Hc].
  pose proof (answers_owes _ _ _ _ _ _ _ _ Ha) as Howes.
  assert (begun (learnt t) → begun (learnt t ++ [log R q r])) as Happ
    by (intros (c&b&?); exists c, b; apply elem_of_app; by left).
  split; cbn [learnt program pend gone ending owes go_on]; rewrite ?Hh, ?He, ?Hl.
  - apply Hk. by eapply answers_may.
  - intros id d. destruct (finished (k r)); [done|]. by eapply answers_pend.
  - intros d (l&[Hin|Hin%list_elem_of_singleton]%elem_of_app&Hdl); [apply (t_told _ _ Ht); by exists l|].
    by eapply answers_told.
  - intros c [?|Hin%list_elem_of_singleton]%elem_of_app; [by apply (t_seen _ _ Ht)|]. by eapply answers_seen.
  - intros c b f Hheld. rewrite held_after in Hheld. destruct (finished (k r)); [by left|right].
    by eapply answers_held.
  - intros c b. destruct (finished (k r)); [done|].
    destruct Howes as [[-> ->]|[[_ ->]|[(c'&b'&Hm'&->&->)|[(c'&b'&_&->&_&_&_&Hm')|(c'&b'&Hm'&_&->)]]]]; [apply (t_ending _ _ Ht)|done|..].
    + intros [= <- <-]. by apply (holder_owes _ _ Ht _ _ _ Hf (Hm' _ Hm)).
    + intros Hend. destruct (proj1 (Hm' _ Hm)). apply (ending_begun _ _ Ht). by rewrite Hend.
    + intros Hend. destruct (holder_owes _ _ Ht _ _ _ Hf (Hm' _ Hm)). congruence.
  - intros Ho. destruct Howes as [[Ho' _]|[[[Ho'|Ho'] _]|[(c'&b'&_&Ho'&_)|[(c'&b'&_&_&->&_)|(c'&b'&_&Ho'&_)]]]];
      try rewrite Ho' in Ho; try (by destruct Ho); try (by apply Happ, (t_begun _ _ Ht)).
    exists c', (Some b'). apply elem_of_app. right. by apply list_elem_of_singleton.
  - by intros ->.
  - intros c b Ho. assert (owes t = Some (c, b) → c ∈ ever w ∧ (b = false → cols w' !! c = None)) as Hold.
    { intros Hcb. destruct (t_owes _ _ Ht _ _ Hcb) as [? Hn]. split; [done|]. intros ->. specialize (Hn eq_refl).
      destruct (cols w' !! c) eqn:Hx; [|done]. destruct (Hc c) as [? ?]; [by rewrite Hx|congruence]. }
    destruct Howes as [[Ho' _]|[[[Ho'|Ho'] _]|[(c'&b'&_&Ho'&_)|[(c'&b'&Ho'&_&_&->&->&Hm')|(c'&b'&_&Ho'&_)]]]];
      rewrite Ho' in Ho; try done; try (by apply Hold).
    injection Ho as <- <-. split.
    + destruct (proj2 (Hm' _ Hm)) as [?|[id Hid]]; [by apply (t_seen _ _ Ht)|].
      eapply (s_homes _ Hs). by eapply known_home.
    + unfold begin_. simpl. rewrite lookup_alter_eq.
      destruct (cols w !! c'); [rewrite bool_decide_eq_true_2 by done|]; done.
  - intros pre chain post Hsplit. destruct post as [|e post _] using rev_ind.
    + apply app_inj_tail in Hsplit as [<- Hlog]. destruct q; simpl in Hlog; repeat case_match; simplify_eq. exact Hm.
    + rewrite app_comm_cons, app_assoc in Hsplit. apply app_inj_tail in Hsplit as [Hsplit _].
      by eapply (t_record _ _ Ht).
Qed.

(** ** Readings *)

Lemma still_moves w w' : still w → moves w w' → history w' = history w → ever w ⊆ ever w' → still w'.
Proof.
  intros Hst Hm Hh He h1 i c e ps h2 Hw Hc. rewrite Hh in Hw. destruct (Hst _ _ _ _ _ _ Hw Hc) as (Hev&Hnow&Hthen).
  split_and!; [by intros c' Hx; apply He, Hev| |done]. intros n m Hn.
  destruct (Hm c) as [[Hsame Hrest]|[(n0&m0&n1&m1&Hn0&Hn1&Hlt)|[Hnone|(c'&->&Hnew)]]].
  - rewrite Hsame in Hn. destruct (Hnow _ _ Hn) as [Hle Heq]. split; [done|]. intros Hne.
    destruct (Heq Hne) as (->&Hb&?). split_and!; [done| |done]. by rewrite (Hrest _ Hn).
  - rewrite Hn in Hn1. simplify_eq. destruct (Hnow _ _ Hn0) as [Hle _]. split; [lia|]. intros ->. lia.
  - congruence.
  - destruct Hnew. by apply Hev.
Qed.

Lemma still_add i e w : still w → store_ok w → (∀ c f, e = VFence c f → fence w c = Some f) → still (add_history i e w).
Proof.
  intros Hst Hs Hf h1 j c f ps h2 Hw Hc. cbn [history add_history] in Hw.
  assert (∀ c, num (add_history i e w) c = num w c) as Hnum by done.
  destruct h2 as [|x h2 _] using rev_ind.
  - apply app_inj_tail in Hw as [_ [= <- -> <-]]. specialize (Hf _ _ eq_refl).
    split_and!; [|rewrite Hnum; unfold num; rewrite Hf; intros n m [= <- <-]|by intros [] ?????].
    + intros c' ->. apply (s_cols _ Hs). unfold fence in Hf. repeat case_match; by destruct (cols w !! c').
    + split; [done|]. intros _. split_and!; [by apply bool_decide_eq_true in Hc|done|]. by intros x ?%not_elem_of_nil.
  - rewrite app_comm_cons, app_assoc in Hw. apply app_inj_tail in Hw as [Hw <-].
    destruct (Hst _ _ _ _ _ _ Hw Hc) as (Hev&Hnow&Hthen). split_and!; [done|intros n m Hn|].
    + destruct (Hnow _ _ Hn) as [Hle Heq]. split; [done|]. intros Hne. destruct (Heq Hne) as (->&Hb&Hmid).
      split_and!; [done|done|]. intros x [?|Hx%list_elem_of_singleton]%elem_of_app; [by apply Hmid|by rewrite Hx].
    + intros mid k f2 ps2 post Hsplit Hne. destruct post as [|y post _] using rev_ind.
      * apply app_inj_tail in Hsplit as [<- [= <- -> <-]]. specialize (Hf _ _ eq_refl).
        destruct (Hnow (epoch f2) (mutations_in_progress f2)) as [_ Heq]; [unfold num; by rewrite Hf|].
        by destruct (Heq Hne) as (_&?&?).
      * rewrite app_comm_cons, app_assoc in Hsplit. apply app_inj_tail in Hsplit as [Hsplit _]. by eapply Hthen.
Qed.

(** ** Every step keeps the invariant *)

Lemma writes_to_grows hs hs' v c : hs ⊆ hs' → writes_to hs v c → writes_to hs' v c.
Proof.
  intros Hh. destruct v as [id|l]; simpl; intros Hl; [by eapply lookup_weaken|]. eapply Forall_impl; [exact Hl|].
  intros ch [? ?]. split; [done|]. by eapply lookup_weaken.
Qed.

(** A new task starts with nothing. *)
Lemma task_new w p : kobeys p (λ _ _, True) [] → task_ok w (new_task p).
Proof.
  intros Hp. split; simpl; try done.
  - by intros d (l&?%not_elem_of_nil&_).
  - by intros c ?%not_elem_of_nil.
  - by intros [].
Qed.

Lemma scheduled_ok {R} (q : keff R) w : Forall (λ t, task_ok w t ∧ owes t = None ∧ learnt t = []) (scheduled q).
Proof.
  destruct q; simpl; try done. constructor; [|done]. split; [|done]. apply task_new.
  destruct d; [apply run_ok|apply run_reindex_ok].
Qed.

Lemma covered_new w ts new : covered w ts → Forall (λ t, owes t = None) new → covered w (ts ++ new).
Proof.
  intros [Ho Hc] Hn. split; intros; rewrite count_app, (count_none _ new), Z.add_0_r; auto;
    (eapply Forall_impl; [exact Hn|]); intros t Ht; apply bool_decide_eq_false; rewrite Ht; [done|by intros []].
Qed.

(** Tasks may be added, and the store may grow. *)
Lemma kinv_grows w w' ts new :
  kinv (mk_world w ts) → store_ok w' → moves w w' → covered w' ts → homes w ⊆ homes w' → ever w ⊆ ever w' →
  (∀ c, c ∈ ever w → is_Some (cols w' !! c) → is_Some (cols w !! c)) →
  late w' ⊆ late w → history w' = history w →
  Forall (λ t, task_ok w' t ∧ owes t = None ∧ learnt t = []) new →
  kinv (mk_world w' (ts ++ new)).
Proof.
  intros [Hs Ht Hc Hl Hlog Hwho Hst] Hs' Hm Hc' Hh He Hcols Hlate Hhist Hnew. simpl in *. split; simpl.
  - done.
  - intros t [Hin|Hin]%elem_of_app; [|rewrite Forall_forall in Hnew; by apply Hnew].
    eapply task_grows; [done..|by apply Ht].
  - apply covered_new; [done|]. eapply Forall_impl; [exact Hnew|]. by intros t (_&?&_).
  - intros i v Hin. destruct (Hl _ _ (Hlate _ Hin)) as (t&c&b&Hti&?&?&?). exists t, c, b. split_and!; [|done|done|].
    + by apply lookup_app_l_Some.
    + by eapply writes_to_grows.
  - intros i t Hi. rewrite Hhist. apply lookup_app_Some in Hi as [Hi|[Hlen Hi]]; [by apply Hlog|].
    rewrite Forall_forall in Hnew. destruct (Hnew t) as (_&_&->); [by eapply list_elem_of_lookup_2|].
    symmetry. apply events_of_none. intros j e ps Hj. apply Hwho in Hj. lia.
  - intros i e ps. rewrite Hhist, length_app. intros Hi%Hwho. lia.
  - by eapply still_moves.
Qed.

Section Steps.
Context (token : text) (keyed_digest : string → list json → string) (hash : list Message → string) (size : stored → Z).

Lemma served_ok q : kobeys (served token keyed_digest hash size q) (λ _ _, True) [].
Proof.
  destruct q; simpl.
  - apply quiet_ok, quiet_reindex_route.
  - apply then_quiet; [apply delete_document_ok|intros ?; quiet_calls].
  - apply then_quiet; [apply delete_collection_ok|intros ?; quiet_calls].
  - apply then_quiet; [apply ground_chat_ok|done].
  - apply quiet_ok, only_bind; [apply quiet_search|done].
Qed.

(** A write of passages that failed holds its fence for good. *)
Lemma late_held {R} L i w t (q : keff R) r w' t' c b : task_ok w t → finished (program t) = false →
  must (learnt t) R q → answers L i w t q r w' t' → held (learnt t) = Some (c, b, false) →
  held (learnt t ++ [log R q r]) = Some (c, b, false) ∧ owes t' = Some (c, b).
Proof.
  intros Ht Hf Hm Ha Hh. assert (held (learnt t ++ [log R q r]) = Some (c, b, false)) as Hh'.
  { rewrite held_after, Hh. destruct q; simpl; repeat case_match; simplify_eq/=; try done; exfalso;
      first [destruct Hm as [Hm _]; by eapply Hm, held_begun|congruence]. }
  split; [done|]. rewrite held_after in Hh'. by destruct (answers_held L w i t Ht Hf q r w' t' c b false Hm Ha Hh').
Qed.

Lemma wrote_held {R} L i w t (q : keff R) r w' t' v : task_ok w t → finished (program t) = false →
  must (learnt t) R q → answers L i w t q r w' t' → wrote q = Some v → log R q r = VWrote v false →
  ∃ c b, held (learnt t ++ [log R q r]) = Some (c, b, false) ∧ owes t' = Some (c, b) ∧ writes_to (homes w) v c.
Proof.
  intros Ht Hf Hm Ha Hv Hlog. destruct (write_due _ _ _ _ Ht Hm Hv) as (c&b&Hh&Hw). exists c, b.
  assert (hold_step (held (learnt t)) (log R q r) = Some (c, b, false)) as Hh' by by rewrite Hh, Hlog.
  rewrite held_after. split; [done|]. by destruct (answers_held L w i t Ht Hf q r w' t' c b false Hm Ha Hh').
Qed.

Lemma fence_logged {R} L i w t (q : keff R) r w' t' c f : answers L i w t q r w' t' → log R q r = VFence c f →
  fence w' c = Some f.
Proof.
  intros Ha Hl. destruct q; simpl in Hl; repeat case_match; simplify_eq. simpl in Ha.
  destruct Ha as (->&_&[Hr|[e ?]]); [|done]. by injection Hr.
Qed.

Lemma answered {R} L i w ts t (q : keff R) k r w' t' :
  kinv (mk_world w ts) → ts !! i = Some t → program t = Ask q k → answers L i w t q r w' t' →
  kinv (mk_world (add_history i (log R q r) w') (<[i := go_on t' (log R q r) (k r)]> ts)).
Proof.
  intros [Hs Ht Hc Hl Hlog Hwho Hst] Hi Hp Ha. simpl in *.
  assert (t ∈ ts) as Hin by by eapply list_elem_of_lookup_2. pose proof (Ht _ Hin) as Hok.
  assert (finished (program t) = false) as Hf by by rewrite Hp.
  assert (must (learnt t) R q) as Hm by (pose proof (t_duty _ _ Hok) as Hd; rewrite Hp in Hd; apply Hd).
  destruct (answers_frame _ _ _ _ _ _ _ _ Ha) as ([Hh He Hhist Hcols]&Hle&_).
  assert (∀ u, task_ok w' u → task_ok (add_history i (log R q r) w') u) as Hadd by (intros u; by apply task_grows).
  assert (i < length ts) as Hlen by by eapply lookup_lt_Some. split; cbn [st tasks].
  - by eapply answers_store.
  - intros u [j Hj]%list_elem_of_lookup. apply Hadd. destruct (decide (j = i)) as [->|Hne].
    + rewrite list_lookup_insert_eq in Hj by done. injection Hj as <-. by eapply answers_task.
    + rewrite list_lookup_insert_ne in Hj by done. apply (task_grows w); [by rewrite Hh|by rewrite He|by intros c _; apply Hcols|].
      apply Ht. by eapply list_elem_of_lookup_2.
  - destruct (answers_covered _ _ _ _ Hok Hi Hc L q r w' t' Hf Hm Ha) as [Ho Hc']. split.
    + intros c x Hx. specialize (Ho c x Hx).
      pose proof (count_insert (owes_on c) i t t' ts Hi). pose proof (count_insert (owes_on c) i t (go_on t' (log R q r) (k r)) ts Hi).
      replace (owes_on c (go_on t' (log R q r) (k r))) with (owes_on c t') in * by done. lia.
    + pose proof (count_insert owes_any i t t' ts Hi). pose proof (count_insert owes_any i t (go_on t' (log R q r) (k r)) ts Hi).
      replace (owes_any (go_on t' (log R q r) (k r))) with (owes_any t') in * by done.
      replace (open_of (add_history i (log R q r) w')) with (open_of w') by done. lia.
  - cbn [late add_history homes]. rewrite Hh. intros j v Hjv.
    assert ((j, v) ∈ late w ∨ j = i ∧ wrote q = Some v ∧ log R q r = VWrote v false) as [Hold|(->&Hv&Hlv)].
    { destruct (answers_passages _ _ _ _ _ _ _ _ Ha) as [[_ Hx]|(v'&Hv&_&[[Hx _]|[Hx Hlv]])]; rewrite Hx in Hjv; [by left..|].
      apply elem_of_cons in Hjv as [[= -> ->]|?]; [by right|by left]. }
    + destruct (Hl _ _ Hold) as (u&c&b&Hj&Hheld&Ho&Hw). destruct (decide (j = i)) as [->|Hne].
      * rewrite Hi in Hj. injection Hj as <-. destruct (late_held L i w t q r w' t' c b Hok Hf Hm Ha Hheld).
        eexists _, c, b. rewrite list_lookup_insert_eq by done. split_and!; [done| |done|done]. cbn [learnt go_on]. by rewrite Hle.
      * exists u, c, b. by rewrite list_lookup_insert_ne by done.
    + destruct (wrote_held L i w t q r w' t' v Hok Hf Hm Ha Hv Hlv) as (c&b&?&?&?).
      eexists _, c, b. rewrite list_lookup_insert_eq by done. split_and!; [done| |done|done]. cbn [learnt go_on]. by rewrite Hle.
  - intros j u Hj. cbn [history add_history]. rewrite events_of_snoc, Hhist. destruct (decide (j = i)) as [->|Hne].
    + rewrite list_lookup_insert_eq in Hj by done. injection Hj as <-. rewrite bool_decide_eq_true_2 by done.
      cbn [learnt go_on]. by rewrite Hle, (Hlog _ _ Hi).
    + rewrite list_lookup_insert_ne in Hj by done. rewrite bool_decide_eq_false_2, app_nil_r by done. by apply Hlog.
  - intros j e ps. cbn [history add_history]. rewrite Hhist, length_insert.
    intros [?|Hx%list_elem_of_singleton]%elem_of_app; [by eapply Hwho|]. by injection Hx as -> _ _.
  - apply still_add.
    + eapply still_moves; [exact Hst| |done|by rewrite He]. by eapply answers_moves.
    + destruct (answers_store _ _ _ _ _ _ _ _ Hs Hok Hm Ha) as [? ? ? ? Hfound]. split; try done.
      intros j c l ps Hx. eapply (Hfound j c l ps), elem_of_app. by left.
    + intros c f. by eapply fence_logged.
Qed.

Lemma died w ts i t : kinv (mk_world w ts) → ts !! i = Some t → kinv (mk_world w (<[i := die t]> ts)).
Proof.
  intros [Hs Ht Hc Hl Hlog Hwho Hst] Hi. simpl in *. assert (i < length ts) as Hlen by by eapply lookup_lt_Some.
  assert (∀ j u, <[i := die t]> ts !! j = Some u → ∃ u0, ts !! j = Some u0 ∧ (u = u0 ∨ u = die u0)) as Hback.
  { intros j u Hj. destruct (decide (j = i)) as [->|Hne].
    - rewrite list_lookup_insert_eq in Hj by done. injection Hj as <-. exists t. auto.
    - rewrite list_lookup_insert_ne in Hj by done. exists u. auto. }
  split; simpl.
  - done.
  - intros u [j Hj]%list_elem_of_lookup. destruct (Hback _ _ Hj) as (u0&Hu0&Hu).
    assert (task_ok w u0) as [? ? ? ? ? ? ? ? ? ?] by (eapply Ht, list_elem_of_lookup_2; done).
    destruct Hu as [->| ->]; split; try done; try (by left).
  - eapply covered_same; done.
  - intros j v Hjv. destruct (Hl _ _ Hjv) as (u&c&b&Hj&?&?&?). destruct (decide (j = i)) as [->|Hne].
    + rewrite Hi in Hj. injection Hj as <-. exists (die t), c, b. by rewrite list_lookup_insert_eq by done.
    + exists u, c, b. by rewrite list_lookup_insert_ne by done.
  - intros j u Hj. destruct (Hback _ _ Hj) as (u0&Hu0&[->| ->]); exact (Hlog j _ Hu0).
  - intros j e ps. rewrite length_insert. apply Hwho.
  - done.
Qed.

Lemma late_landed w ts i v : kinv (mk_world w ts) → (i, v) ∈ late w →
  kinv (mk_world (set_passages (apply_write v (passages w)) (late w) w) ts).
Proof.
  intros Hinv Hin. pose proof Hinv as [Hs Ht Hc Hl Hlog Hwho Hst]. simpl in *.
  destruct (Hl _ _ Hin) as (t&c&b&Hi&_&Ho&Hw).
  rewrite <- (app_nil_r ts). apply (kinv_grows w); try done.
  - destruct Hs as [? ? ? Hpts ?]. split; try done. by eapply apply_write_points.
  - eapply (moves_write w ts i t); try done; [|by right]. eapply Ht, list_elem_of_lookup_2. done.
  - by destruct Hc.
Qed.

Lemma recovered w ts : kinv (mk_world w ts) → late w = [] →
  (∀ t, t ∈ ts → is_Some (owes t) → finished (program t) = true) →
  kinv (mk_world (recover_ w) (map (set_owes None) ts)).
Proof.
  intros [Hs Ht Hc Hl Hlog Hwho Hst] Hlate Hfin. simpl in *.
  assert (∀ c, is_Some (cols (recover_ w) !! c) → is_Some (cols w !! c)) as Hcols.
  { intros c. simpl. by rewrite lookup_fmap, fmap_is_Some. }
  assert (∀ P, (∀ t, P (set_owes None t) = false) → count P (map (set_owes None) ts) = 0%Z) as Hnone.
  { intros P HP. apply count_none, Forall_map, Forall_true. intros t. apply HP. }
  split; simpl.
  - destruct Hs as [? ? Hsc ? ?]. split; try done. intros c Hx. by apply Hsc, Hcols.
  - intros u (t&->&Hin)%list_elem_of_fmap. specialize (Hfin t Hin).
    destruct (task_grows w (recover_ w) t) as [? ? ? ? Hheld Hend ? Hended ? ?]; try done; [by intros c _; apply Hcols|by apply Ht|].
    split; simpl; try done.
    + intros c b f Hx. destruct (Hheld _ _ _ Hx) as [?|[Ho _]]; [by left|left]. apply Hfin. by rewrite Ho.
    + intros c b Hx. rewrite Hended in Hx; [done|]. apply Hfin. by rewrite (Hend _ _ Hx).
  - split.
    + intros c r Hr. rewrite Hnone by (intros t; by apply bool_decide_eq_false). cbn [cols recover_ set_fence] in Hr.
      rewrite lookup_fmap, fmap_Some in Hr. by destruct Hr as (?&_&->).
    + rewrite Hnone by (intros t; apply bool_decide_eq_false; by intros []). unfold open_of. simpl. by destruct (tenant w).
  - rewrite Hlate. by intros i v ?%not_elem_of_nil.
  - intros i u Hi. apply list_lookup_fmap_Some in Hi as (t&->&Hi). exact (Hlog i _ Hi).
  - intros i e ps. rewrite length_map. apply Hwho.
  - eapply still_moves; [exact Hst| |done|done]. apply moves_fence; [|intros c|done].
    + unfold trow. simpl. destruct (tenant w) as [[r x]|]; [right; simpl; lia|by left].
    + cbn [cols recover_ set_fence]. rewrite lookup_fmap. destruct (cols w !! c) as [r|]; [|by left]. right. right.
      eexists r, _. split_and!; [done|done|simpl; lia].
Qed.

Lemma kinv_start : kinv start.
Proof.
  split; simpl; try done.
  - split; simpl; try done; [by intros c []|by intros i c l ps ?%not_elem_of_nil].
  - by intros t ?%not_elem_of_nil.
  - by intros i v ?%not_elem_of_nil.
  - by intros i e ps ?%not_elem_of_nil.
  - by intros [|] ??????.
Qed.

Lemma kstep_inv w w' : kinv w → kstep token keyed_digest hash size w w' → kinv w'.
Proof.
  intros Hinv Hstep. destruct Hstep as [i t R q k r w' t' w Hi Hp Ha|i t w Hi|q w|d job w Hd Hc|c n w Hc|i v w Hin|w l Hl|w Hlate Hfin];
    destruct w as [w ts]; simpl in *; pose proof (i_store _ Hinv) as Hs; simpl in Hs.
  - pose proof (answered _ _ _ _ _ _ _ _ _ _ Hinv Hi Hp Ha) as Hnext.
    eapply (kinv_grows _ _ _ _ Hnext); try done; [by apply Hnext|by apply moves_same|by apply Hnext|apply scheduled_ok].
  - by apply died.
  - apply (kinv_grows w); try done; [by apply moves_same|apply Hinv|].
    constructor; [|done]. split; [|done]. apply task_new, served_ok.
  - assert (homes w ⊆ homes (add_home (doc_id d) (doc_collection d) w)) as Hh by by apply insert_subseteq.
    apply (kinv_grows w); try done; [|by apply moves_same|by destruct (i_covered _ Hinv)|].
    + destruct Hs as [Hrows Hhomes ? Hpts ?]. split; try done.
      * intros id d' Hx. destruct (Hrows _ _ Hx). split; [done|]. by eapply lookup_weaken.
      * intros id c. simpl. rewrite lookup_insert_Some. intros [[_ <-]|[_ ?]]; [done|by eapply Hhomes].
      * intros k ch Hx. eapply lookup_weaken; [by apply Hpts|done].
    + constructor; [|done]. split; [|done].
      destruct (task_new (add_home (doc_id d) (doc_collection d) w) (upload_route d job)) as [? ? ? ? ? ? ? ? ? ?];
        [apply quiet_ok, quiet_upload|]. split; try done.
      intros id d' Hx. simpl in Hx. apply lookup_singleton_Some in Hx as [<- [= <-]]. split; [done|]. simpl. by rewrite lookup_insert_eq.
  - rewrite <- (app_nil_r ts). apply (kinv_grows w); try done.
    + destruct Hs as [? Hhomes Hsc ? ?]. split; try done.
      * intros id c' Hx. apply elem_of_union. right. by eapply Hhomes.
      * intros c' [x Hx]. simpl in Hx. apply elem_of_union. rewrite lookup_insert_Some in Hx.
        destruct Hx as [[<- _]|[_ Hx]]; [left; by apply elem_of_singleton|right]. apply Hsc. by rewrite Hx.
    + intros [x|]; [|left; by rewrite !num_tenant]. destruct (decide (x = c)) as [->|Hne]; [right; right; right; by exists c|].
      left. rewrite !num_collection. simpl. by rewrite lookup_insert_ne.
    + destruct (i_covered _ Hinv) as [Ho Ht]. split; [|done]. intros x r. simpl. rewrite lookup_insert_Some.
      intros [[<- <-]|[_ Hr]]; [|by apply Ho]. rewrite count_none; [done|]. apply Forall_forall. intros t Ht'.
      apply bool_decide_eq_false. intros Hx. by destruct (t_owes _ _ (i_tasks _ Hinv _ Ht') _ _ Hx).
    + simpl. set_solver.
    + intros x Hx. simpl. rewrite lookup_insert_ne; [done|]. by intros ->.
  - by eapply late_landed.
  - rewrite <- (app_nil_r ts). apply (kinv_grows w); try done; [by destruct Hs|by apply moves_same|by destruct (i_covered _ Hinv)].
  - by apply recovered.
Qed.

Lemma reachable_kinv w : reachable token keyed_digest hash size w → kinv w.
Proof.
  assert (∀ x y, rtc (kstep token keyed_digest hash size) x y → kinv x → kinv y) as Hall.
  { induction 1; eauto using kstep_inv. }
  intros Hr. by eapply Hall; [exact Hr|apply kinv_start].
Qed.
End Steps.

(** * What the fence guarantees *)

Section Guarantees.
Context (token : text) (keyed_digest : string → list json → string) (hash : list Message → string) (size : stored → Z).

Lemma equal_at_rest w h1 i c e ps mid j e2 ps2 post :
  kinv w → history (st w) = h1 ++ (i, VFence c e, ps) :: mid ++ (j, VFence c e2, ps2) :: post →
  clean e = true → epoch e2 = epoch e →
  behind c ps2 = behind c ps ∧ ∀ x, x ∈ mid → behind c x.2 = behind c ps.
Proof.
  intros Hinv Hh Hc He. destruct (i_still _ Hinv _ _ _ _ _ _ Hh Hc) as (_&_&Hthen). by eapply Hthen.
Qed.

(** A reader who finds a clean fence, and later the same epoch behind it, has
    looked at passages nobody touched in between: whatever ingestions, deletions,
    crashes and belated writes were interleaved, the passages behind the fence were
    the same at every moment from the first reading to the second. *)
Theorem equal_readings_bracket_rest w h1 i c e ps mid j e2 ps2 post :
  reachable token keyed_digest hash size w → history (st w) = h1 ++ (i, VFence c e, ps) :: mid ++ (j, VFence c e2, ps2) :: post →
  clean e = true → epoch e2 = epoch e →
  behind c ps2 = behind c ps ∧ ∀ x, x ∈ mid → behind c x.2 = behind c ps.
Proof.
  intros Hr%reachable_kinv. by apply equal_at_rest.
Qed.

(** As long as a write to the vector store that failed may still take effect, the
    fences in front of what it would change count it as open, the tenant's and its
    collection's alike: no reading of them is clean, so nothing is recorded on it. *)
Theorem a_belated_write_keeps_its_fence_dirty w i v :
  reachable token keyed_digest hash size w → (i, v) ∈ late (st w) →
  ∃ c, writes_to (homes (st w)) v c ∧
    ∀ f e, f = None ∨ f = Some c → fence (st w) f = Some e → clean e = false.
Proof.
  intros Hr%reachable_kinv Hl. destruct (i_late _ Hr _ _ Hl) as (t&c&b&Hi&_&Ho&Hw). exists c. split; [done|].
  assert (task_ok (st w) t) as Ht by by eapply i_tasks, list_elem_of_lookup_2.
  intros f e Hf He. assert (num (st w) f = Some (epoch e, mutations_in_progress e)) as Hn by (unfold num; by rewrite He).
  apply bool_decide_eq_false. enough (0 < mutations_in_progress e)%Z by lia. destruct Hf as [->| ->].
  - rewrite num_tenant in Hn. injection Hn as _ <-. by eapply owing_tenant; [|apply Hr|].
  - rewrite num_collection in Hn. destruct (cols (st w) !! c) as [r|] eqn:Hc; [|done]. injection Hn as _ <-.
    by eapply owing_collection; [|done|apply Hr|..].
Qed.

(** C17: what a chat records for its conversation, and every later turn replays, was in
    the index: unless the recorded turn cites nothing, the task had searched between two
    equal clean readings of its fence, each passage it cites (cut to the size kept) is
    the text of a point then stored behind that fence, and the passages behind it did
    not change from the first of the two readings to the second. *)
Theorem recorded_passages_were_at_rest w i t pre chain post :
  reachable token keyed_digest hash size w → tasks w !! i = Some t → learnt t = pre ++ VRecorded chain :: post →
  ∃ a, last chain = Some a ∧ (citations a = [] ∨
    ∃ c e l n g1 ps1 mid ps2 g2,
      clean e = true ∧
      history (st w) = g1 ++ (i, VFence c e, ps1) :: mid ++ (i, VFence c e, ps2) :: g2 ∧
      citations a = take n (map capped l) ∧
      Forall (retrieved ps1 c) l ∧
      behind c ps2 = behind c ps1 ∧ ∀ x, x ∈ mid → behind c x.2 = behind c ps1).
Proof.
  intros Hr Hi Hl. pose proof (reachable_kinv _ _ _ _ _ Hr) as Hinv.
  assert (task_ok (st w) t) as Ht by by eapply i_tasks, list_elem_of_lookup_2.
  destruct (t_record _ _ Ht _ _ _ Hl) as (a&Ha&Hdue). exists a. split; [done|].
  destruct Hdue as [?|(c&e&l&n&(p&m1&m2&->&Hc)&Hcite)]; [by left|right].
  rewrite (i_log _ Hinv _ _ Hi) in Hl.
  assert (events_of i (history (st w)) = p ++ VFence c e :: (m1 ++ VSearched c l :: m2) ++ VFence c e :: VRecorded chain :: post)
    as Hev by (rewrite Hl, <- !app_assoc; simpl; by rewrite <- !app_assoc, <- ?app_comm_cons, <- ?app_assoc).
  apply events_of_split in Hev as (g1&ps1&h2&Hh&_&Hev). apply events_of_split in Hev as (mid&ps2&g2&->&Hmid&_).
  exists c, e, l, n, g1, ps1, mid, ps2, g2.
  destruct (equal_at_rest w g1 i c e ps1 mid i e ps2 g2 Hinv Hh Hc eq_refl) as [Hb Hall].
  split_and!; try done. apply events_of_split in Hmid as (k1&ps3&k2&->&_&_).
  assert ((i, VSearched c l, ps3) ∈ k1 ++ (i, VSearched c l, ps3) :: k2) as Hin by (apply elem_of_app; right; by left).
  assert ((i, VSearched c l, ps3) ∈ history (st w)) as Hin2.
  { rewrite Hh. apply elem_of_app. right. right. apply elem_of_app. by left. }
  eapply Forall_impl; [by eapply (s_found _ (i_store _ Hinv))|]. intros p' (k&ch&Hk&?). exists k, ch.
  split; [|done]. by rewrite <- (Hall _ Hin).
Qed.
End Guarantees.

(** * Runs *)

Module Demo.
Definition embedder : Target := mk_target "ollama" "embedder" (Some "sha").
Definition keyed (name : string) (_ : list json) : string := name.
Definition hash (messages : list Message) : string := "prefix".
Definition size (_ : stored) : Z := 100.
Definition token : text := codes "token".
Definition played := play token keyed hash size (codes "hello world") embedder [S754_zero false] start.
Definition curator : Actors.Actor := Actors.demo_account Actors.CURATOR.
Definition file : KnowledgeDocument := mk_document "d" "c" "text/plain" UPLOADED 0 None.
Definition question : list Message := [mk_message Wire.USER (codes "Is it there?") [] None None].

(** A document is uploaded and indexed; then a chat is grounded in it. *)
Definition ingested : list move := [Open "c"; Upload file "j1"; Go 0 4; Go 1 19].
Definition chatted : list move := ingested ++ [Serve (GroundChat true curator question (Some "c") 5); Go 2 8].

(** The document is deleted and indexed again at once: the deletion has read it while
    nobody was indexing it, the second request claims it, and what that request had
    read is published when the deletion is over.  Then somebody searches. *)
Definition deleted_while_reindexed : list move :=
  ingested ++ [Serve (DeleteDocument curator "d"); Go 2 1; Serve (RequestReindex curator "d" "j2"); Go 3 5;
               Go 4 7; Go 2 7; Go 4 8; Serve (Search curator (codes "hello") (Some "c") 5); Go 5 4].

(** The world at the end of a schedule. *)
Definition after (ms : list move) : world := default start (played ms).

Lemma after_reachable ms : bool_decide (is_Some (played ms)) = true → reachable token keyed hash size (after ms).
Proof.
  intros [w Hw]%bool_decide_eq_true. unfold after. rewrite Hw. by eapply play_steps.
Qed.

(** A write that is lost on its way. *)
Definition lost : list move := [Open "c"; Upload file "j1"; Go 0 4; Go 1 15; Lose 1].

Definition events (ms : list move) := history (st (after ms)).
Definition reading (n : nat) : gmap (string * Z) DocumentChunk :=
  from_option snd ∅ (events chatted !! n).
Definition at_rest : KnowledgeEpoch := mk_epoch 2 0 (Some ("ollama", "embedder", "sha")) false false.
Definition learnt_by (ms : list move) (i : nat) : list kevent := from_option learnt [] (tasks (after ms) !! i).

Lemma equal_readings_bracket_rest_witness :
  behind (Some "c") (reading 28) = behind (Some "c") (reading 23) ∧ stdpp.base.size (reading 28) = 1.
Proof.
  split; [|vm_compute; reflexivity].
  refine (proj1 (equal_readings_bracket_rest token keyed hash size (after chatted) (take 23 (events chatted)) 2 (Some "c")
    at_rest (reading 23) (take (28 - 23 - 1) (drop 24 (events chatted))) 2 at_rest (reading 28) (drop 29 (events chatted))
    _ (split_twice _ 23 28 _ _ _ _ _) eq_refl eq_refl)); [apply after_reachable|..]; [vm_compute; reflexivity..|lia].
Defined.

Definition the_lost_write : vwrite := match late (st (after lost)) with (_, v) :: _ => v | [] => WForget "" end.

Lemma a_belated_write_keeps_its_fence_dirty_witness :
  the_lost_write = WUpsert [mk_document_chunk "d" "c" 0 (codes "hello world") [S754_zero false]] ∧
  ∃ c, writes_to (homes (st (after lost))) the_lost_write c ∧
    ∀ f e, f = None ∨ f = Some c → fence (st (after lost)) f = Some e → clean e = false.
Proof.
  split; [vm_compute; reflexivity|].
  apply (a_belated_write_keeps_its_fence_dirty token keyed hash size (after lost) 1); [apply after_reachable; vm_compute; reflexivity|].
  vm_compute. left.
Defined.

Definition recorded_chain : list GroundingAnchor :=
  match learnt_by chatted 2 !! 6 with Some (VRecorded chain) => chain | _ => [] end.

Lemma recorded_passages_were_at_rest_witness :
  map (λ a, map passage_text (citations a)) recorded_chain = [[codes "hello world"]] ∧
  ∃ a, last recorded_chain = Some a ∧ (citations a = [] ∨
    ∃ c e l n g1 ps1 mid ps2 g2,
      clean e = true ∧
      history (st (after chatted)) = g1 ++ (2, VFence c e, ps1) :: mid ++ (2, VFence c e, ps2) :: g2 ∧
      citations a = take n (map capped l) ∧
      Forall (retrieved ps1 c) l ∧
      behind c ps2 = behind c ps1 ∧ ∀ x, x ∈ mid → behind c x.2 = behind c ps1).
Proof.
  split; [vm_compute; reflexivity|].
  eapply (recorded_passages_were_at_rest token keyed hash size (after chatted) 2 (default (new_task (Pure tt)) (tasks (after chatted) !! 2))
            (take 6 (learnt_by chatted 2)) recorded_chain (drop 7 (learnt_by chatted 2)));
    [apply after_reachable|..]; vm_compute; reflexivity.
Defined.

(** A deleted document keeps answering.  Deleting refuses a document that is being
    indexed, but looks at it once, before it begins; asked for in between, the document
    is claimed and indexed again, and what that has read is published after the
    deletion's End.  The deletion has succeeded and the document's row is gone, nothing
    is running or pending and the fence is clean, and a search of the collection still
    returns the deleted document's passage. *)
Theorem a_deleted_document_keeps_answering :
  ∃ w, reachable token keyed hash size w ∧
    program <$> tasks w !! 2 = Some (Pure tt) ∧ docs (st w) !! "d" = None ∧
    Forall (λ t, finished (program t) = true ∧ owes t = None) (tasks w) ∧ late (st w) = [] ∧
    clean <$> fence (st w) (Some "c") = Some true ∧
    ∃ i t p, tasks w !! i = Some t ∧ last (learnt t) = Some (VSearched (Some "c") [p]) ∧
      document_id p = "d" ∧ passage_text p = codes "hello world".
Proof.
  exists (after deleted_while_reindexed). split; [apply after_reachable; vm_compute; reflexivity|].
  split_and!; try (vm_compute; reflexivity); [vm_compute; repeat constructor|].
  exists 5. eexists _, _. split_and!; vm_compute; reflexivity.
Qed.
End Demo.
