(* ===== verification/Sessions.v ===== *)
(** Server-side sessions ([adapters/session/session_store.py]), the resolver that serves
    a request on one ([interfaces/http/middleware/identity.py]), and the routes that open
    and close them ([interfaces/http/routers/auth.py]).

    A session is a cache entry; invalidating all sessions of an account writes a
    watermark, an instant before which every session of it is dead.  The cache knows no
    transactions, so any number of requests interleave at every call.

    Instants are microseconds and one clock is read by everybody; a cached text is the
    value it encodes; the time to live of an entry runs on the same clock. *)

From stdpp Require Import pretty.
From S2P Require Maintenance.
From S2P Require Import SignIn Actors.
From S2P Require Export Interleaving.

(** * Data *)

Definition SECOND : Z := 1000000.

Record SessionData := mk_session {
  session_id : string; owner : string; created_at : Z; expires_at : Z; csrf_token : string; maintenance_epoch : Z
}.

(** What [_encode] writes; [None] where an entry is older than the field. *)
Record payload := mk_payload {
  p_user : string; p_created : Z; p_expires : Z; p_csrf : string; p_epoch : option Z
}.
Inductive entry : Type := Encoded (p : payload) | Instant (n : Z) | Garbage.

Definition _encode (d : SessionData) : entry :=
  Encoded (mk_payload (owner d) (created_at d) (expires_at d) (csrf_token d) (Some (maintenance_epoch d))).

Definition _decode (id : string) (raw : entry) : option SessionData :=
  match raw with
  | Encoded p => Some (mk_session id (p_user p) (p_created p) (p_expires p) (p_csrf p) (default 0%Z (p_epoch p)))
  | _ => None
  end.

Definition SESSION_KEY_PREFIX : string := "session:".
Definition WATERMARK_KEY_PREFIX : string := "sessions_valid_from:".
Definition _session_key (id : string) : string := (SESSION_KEY_PREFIX ++ id)%string.
Definition _watermark_key (user : string) : string := (WATERMARK_KEY_PREFIX ++ user)%string.

Inductive sexn : Set := NotAuthenticatedError | MaintenanceError | CsrfValidationError | BackendError.

Inductive seff : Type → Type :=
  | SGet (key : string) : seff (sexn + option entry)
  | SSet (key : string) (value : entry) (ttl_seconds : Z) : seff (sexn + unit)
  | SDelete (key : string) : seff (sexn + unit)
  | SToken : seff string
  | SNow : seff Z
  | SUser (id : string) : seff (sexn + option User)
  | SHold : seff (sexn + Maintenance.MaintenanceState)
  | SAudit (s : subject) : seff unit
  | SServe (d : SessionData) (u : User) (safe : bool) (presented : string) : seff unit.

Abbreviation sprog := (prog seff sexn unit).

(** * The store *)

Section Store.
(** The two lifetimes, in seconds. *)
Context (absolute_ttl idle_ttl : Z).

Definition _write (d : SessionData) (now : Z) : sprog unit :=
  let remaining := ((expires_at d - now) ÷ SECOND)%Z in
  let ttl := Z.min idle_ttl remaining in
  if bool_decide (ttl ≤ 0)%Z then invoke (SDelete (_session_key (session_id d)))
  else invoke (SSet (_session_key (session_id d)) (_encode d) ttl).

Definition create (user : string) (now epoch : Z) : sprog SessionData :=
  let! id := ask SToken in
  let! csrf := ask SToken in
  let d := mk_session id user now (now + absolute_ttl * SECOND) csrf epoch in
  let! _ := _write d now in
  Pure d.

Definition _superseded (d : SessionData) : sprog bool :=
  let! raw := invoke (SGet (_watermark_key (owner d))) in
  match raw with
  | None => Pure false
  | Some (Instant watermark) => Pure (bool_decide (created_at d < watermark)%Z)
  | Some _ => Pure true
  end.

Definition destroy (id : string) : sprog unit := invoke (SDelete (_session_key id)).

Definition read (id : string) (now : Z) : sprog (option SessionData) :=
  let! raw := invoke (SGet (_session_key id)) in
  match raw with
  | None => Pure None
  | Some raw =>
      match _decode id raw with
      | None => let! _ := destroy id in Pure None
      | Some d =>
          if bool_decide (expires_at d ≤ now)%Z then let! _ := destroy id in Pure None
          else
            let! dead := _superseded d in
            if dead : bool then let! _ := destroy id in Pure None
            else let! _ := _write d now in Pure (Some d)
      end
  end.

Definition _set_watermark (user : string) (now : Z) : sprog unit :=
  invoke (SSet (_watermark_key user) (Instant now) absolute_ttl).

Definition invalidate_all (user : string) (now : Z) : sprog unit := _set_watermark user now.

Definition invalidate_others (user keep : string) (now : Z) : sprog unit :=
  let! _ := _set_watermark user now in
  let! raw := invoke (SGet (_session_key keep)) in
  match raw with
  | None => Pure tt
  | Some raw =>
      match _decode keep raw with
      | Some kept =>
          if bool_decide (owner kept = user)
          then _write (mk_session (session_id kept) (owner kept) now (expires_at kept) (csrf_token kept)
                        (maintenance_epoch kept)) now
          else Pure tt
      | None => Pure tt
      end
  end.

(** * The requests *)

(** [resolve_session_actor], then what the route does with the actor. *)
Definition resolve_session_actor (cookie : option string) (safe : bool) (presented : string) : sprog unit :=
  match cookie with
  | None | Some "" => Throw NotAuthenticatedError
  | Some id =>
      let! now := ask SNow in
      let! data := read id now in
      match data with
      | None => Throw NotAuthenticatedError
      | Some d =>
          let! user := invoke (SUser (owner d)) in
          match user with
          | Some u =>
              if bool_decide (disabled_at u = None) then
                let! hold := invoke SHold in
                let platform_admin := bool_decide (user_role u = ADMIN) in
                if Maintenance.session_valid hold (maintenance_epoch d) platform_admin then
                  if Maintenance.admission_closed hold && negb platform_admin then Throw MaintenanceError
                  else if safe || bool_decide (presented = csrf_token d) then ask (SServe d u safe presented)
                  else Throw CsrfValidationError
                else
                  let! _ := destroy id in
                  if Maintenance.admission_closed hold then Throw MaintenanceError else Throw NotAuthenticatedError
              else let! _ := destroy id in Throw NotAuthenticatedError
          | None => let! _ := destroy id in Throw NotAuthenticatedError
          end
      end
  end.

Definition _who_is_signing_out (id : string) : sprog (option User) :=
  catch (let! now := ask SNow in
         let! data := read id now in
         match data with Some d => invoke (SUser (owner d)) | None => Pure None end)
        (λ _, Pure None).

Definition logout (cookie : option string) : sprog unit :=
  match cookie with
  | None | Some "" => Pure tt
  | Some id =>
      let! who := _who_is_signing_out id in
      let! _ := destroy id in
      match who with Some u => ask (SAudit (subject_for u)) | None => Pure tt end
  end.

Definition _establish_session (u : User) : sprog unit :=
  let! hold := invoke SHold in
  if Maintenance.admission_closed hold && negb (bool_decide (user_role u = ADMIN)) then Throw MaintenanceError
  else
    let! now := ask SNow in
    let! _ := create (user_id u) now (Maintenance.epoch hold) in
    Pure tt.

(** What the use cases of accounts do: an instant is read, and the watermark written when
    their own work is done; a password change keeps its own session. *)
Definition invalidation (user : string) (keep : option string) : sprog unit :=
  let! now := ask SNow in
  match keep with Some id => invalidate_others user id now | None => invalidate_all user now end.
End Store.

(** * What a trace shows *)

Inductive sevent : Type :=
  | VGot (key : string) (value : option entry)
  | VSet (key : string) (value : entry) (ttl : Z) (ok : bool)
  | VDeleted (key : string) (ok : bool)
  | VToken (s : string)
  | VNow (n : Z)
  | VUser (id : string) (u : option User)
  | VHold (m : Maintenance.MaintenanceState)
  | VServed (d : SessionData) (u : User) (safe : bool) (presented : string)
  | VOther.

Definition is_ok {A} (r : sexn + A) : bool := match r with inr _ => true | inl _ => false end.

Definition log (R : Type) (q : seff R) : R → sevent :=
  match q in seff R return R → sevent with
  | SGet key => λ r, match r with inr v => VGot key v | inl _ => VOther end
  | SSet key value ttl => λ r, VSet key value ttl (is_ok r)
  | SDelete key => λ r, VDeleted key (is_ok r)
  | SToken => VToken
  | SNow => VNow
  | SUser id => λ r, match r with inr u => VUser id u | inl _ => VOther end
  | SHold => λ r, match r with inr m => VHold m | inl _ => VOther end
  | SAudit _ => λ _, VOther
  | SServe d u safe presented => λ _, VServed d u safe presented
  end.

Definition may (_ : list sevent) (R : Type) (_ : seff R) (_ : R) : Prop := True.

(** The fields of a session that nothing changes. *)
Definition same (p p' : payload) : Prop :=
  p_user p = p_user p' ∧ p_expires p = p_expires p' ∧ p_csrf p = p_csrf p' ∧ default 0%Z (p_epoch p) = default 0%Z (p_epoch p').

Section Duties.
Context (absolute_ttl idle_ttl : Z).

(** A session is opened under a token just drawn, for the absolute lifetime. *)
Definition opens (tr : list sevent) (id : string) (p : payload) : Prop :=
  VToken id ∈ tr ∧ VNow (p_created p) ∈ tr ∧ p_expires p = (p_created p + absolute_ttl * SECOND)%Z.

Definition session_write (tr : list sevent) (key : string) (v : entry) (ttl : Z) : Prop :=
  ∃ id p now, key = _session_key id ∧ v = Encoded p ∧ VNow now ∈ tr ∧
    (0 < ttl ≤ idle_ttl ∧ now + ttl * SECOND ≤ p_expires p)%Z ∧
    (opens tr id p ∨ ∃ p', VGot key (Some (Encoded p')) ∈ tr ∧ same p p').

Definition watermark_write (tr : list sevent) (key : string) (v : entry) (ttl : Z) : Prop :=
  ∃ user n, key = _watermark_key user ∧ v = Instant n ∧ VNow n ∈ tr ∧ ttl = absolute_ttl.

(** What must have been seen before a request is served on a session. *)
Definition may_serve (tr : list sevent) (d : SessionData) (u : User) (safe : bool) (presented : string) : Prop :=
  (∃ raw now, VGot (_session_key (session_id d)) (Some raw) ∈ tr ∧ _decode (session_id d) raw = Some d ∧
     VNow now ∈ tr ∧ (now < expires_at d)%Z) ∧
  (∃ mark, VGot (_watermark_key (owner d)) mark ∈ tr ∧
     (mark = None ∨ ∃ n, mark = Some (Instant n) ∧ (n ≤ created_at d)%Z)) ∧
  VUser (owner d) (Some u) ∈ tr ∧ disabled_at u = None ∧
  (∃ m, VHold m ∈ tr ∧ Maintenance.session_valid m (maintenance_epoch d) (bool_decide (user_role u = ADMIN)) = true ∧
     (Maintenance.admission_closed m = true → user_role u = ADMIN)) ∧
  (safe = true ∨ presented = csrf_token d).

Definition must (tr : list sevent) (R : Type) (q : seff R) : Prop :=
  match q with
  | SSet key v ttl => session_write tr key v ttl ∨ watermark_write tr key v ttl
  | SDelete key => ∃ id, key = _session_key id
  | SServe d u safe presented => may_serve tr d u safe presented
  | _ => True
  end.

Abbreviation sobeys p Q tr := (obeys log may must p (λ o (_ : unit) tr', Q o tr') tt tr).

Lemma ttl_bound a ttl : (0 < ttl)%Z → (ttl ≤ a ÷ SECOND)%Z → (ttl * SECOND ≤ a)%Z.
Proof. unfold SECOND. intros. Z.to_euclidean_division_equations. lia. Qed.

(** The payload of a session. *)
Definition pay (d : SessionData) : payload :=
  mk_payload (owner d) (created_at d) (expires_at d) (csrf_token d) (Some (maintenance_epoch d)).

Lemma write_ok d now tr :
  VNow now ∈ tr →
  opens tr (session_id d) (pay d) ∨
    (∃ p', VGot (_session_key (session_id d)) (Some (Encoded p')) ∈ tr ∧ same (pay d) p') →
  sobeys (_write idle_ttl d now) (λ _ tr', tr `prefix_of` tr') tr.
Proof.
  intros Hn Hd. unfold _write. case_bool_decide as Httl; walk_calls.
  - split; [by eexists|]. intros [e|[]] _; walk_calls; by apply prefix_app_r.
  - split; [|intros [e|[]] _; walk_calls; by apply prefix_app_r]. left. eexists _, (pay d), now.
    pose proof (ttl_bound (expires_at d - now) (Z.min idle_ttl ((expires_at d - now) ÷ SECOND)) ltac:(lia) ltac:(lia)).
    split_and!; [done|done|done|lia|lia|simpl; lia|done].
Qed.

Lemma destroy_ok id tr : sobeys (destroy id) (λ _ tr', tr `prefix_of` tr') tr.
Proof. unfold destroy. walk_calls. split; [by eexists|]. intros [e|[]] _; walk_calls; by apply prefix_app_r. Qed.

Lemma elem_prefix {A} (x : A) l k : l `prefix_of` k → x ∈ l → x ∈ k.
Proof. intros [m ->] ?. apply elem_of_app. by left. Qed.

Lemma decode_same id raw d : _decode id raw = Some d →
  session_id d = id ∧ ∃ p', raw = Encoded p' ∧ same (pay d) p'.
Proof. destruct raw; simpl; try done. intros [= <-]. split; [done|]. eexists. by split_and!. Qed.

(** What a session that was read is known to be. *)
Definition was_read (tr : list sevent) (id : string) (now : Z) (d : SessionData) : Prop :=
  session_id d = id ∧ (now < expires_at d)%Z ∧
  (∃ raw, VGot (_session_key id) (Some raw) ∈ tr ∧ _decode id raw = Some d) ∧
  (∃ mark, VGot (_watermark_key (owner d)) mark ∈ tr ∧
     (mark = None ∨ ∃ n, mark = Some (Instant n) ∧ (n ≤ created_at d)%Z)).

Lemma read_ok id now tr :
  VNow now ∈ tr →
  sobeys (read idle_ttl id now)
    (λ o tr', tr `prefix_of` tr' ∧ match o with inr (Some d) => was_read tr' id now d | _ => True end) tr.
Proof.
  intros Hn. unfold read. walk_calls. split; [done|]. intros [e|[raw|]] _; walk_calls;
    [by split; [apply prefix_app_r|]| |by split; [apply prefix_app_r|]]. cbn [log].
  set (tr1 := tr ++ [_]). assert (tr `prefix_of` tr1) as Hp1 by by apply prefix_app_r.
  assert (sobeys (let! _ := destroy id in Pure None)
    (λ o tr', tr `prefix_of` tr' ∧ match o with inr (Some d) => was_read tr' id now d | _ => True end) tr1) as Hgone1.
  { apply obeys_bind. eapply obeys_mono; [|apply destroy_ok]. intros [e|[]] [] tr' Hp; (split; [by etrans|done]). }
  destruct (_decode id raw) as [d|] eqn:Hd; [|exact Hgone1]. case_bool_decide as Hexp; [exact Hgone1|].
  unfold _superseded. walk_calls. split; [done|]. intros [e|mark] _; walk_calls; [by split; [by do 2 apply prefix_app_r|]|].
  cbn [log]. set (tr2 := tr1 ++ [_]). assert (tr1 `prefix_of` tr2) as Hp12 by by apply prefix_app_r.
  assert (tr `prefix_of` tr2) as Hp2 by by etrans.
  assert (sobeys (let! _ := destroy id in Pure None)
    (λ o tr', tr `prefix_of` tr' ∧ match o with inr (Some d) => was_read tr' id now d | _ => True end) tr2) as Hgone2.
  { apply obeys_bind. eapply obeys_mono; [|apply destroy_ok]. intros [e|[]] [] tr' Hp; (split; [by etrans|done]). }
  destruct (decode_same _ _ _ Hd) as (Hid&p'&->&Hsame).
  assert (VGot (_session_key id) (Some (Encoded p')) ∈ tr1) as Hgot.
  { apply elem_of_app. right. by apply list_elem_of_singleton. }
  assert (mark = None ∨ (∃ n, mark = Some (Instant n) ∧ (n ≤ created_at d)%Z) →
    sobeys (let! _ := _write idle_ttl d now in Pure (Some d))
      (λ o tr', tr `prefix_of` tr' ∧ match o with inr (Some d) => was_read tr' id now d | _ => True end) tr2) as Hkeep.
  { intros Hmark. apply obeys_bind. eapply obeys_mono; [|apply write_ok].
    - intros [e|[]] [] tr' Hp; (split; [by etrans|]); [done|]. split_and!; [done|lia| |].
      + eexists. split; [|exact Hd]. apply (elem_prefix _ tr2); [exact Hp|]. by apply (elem_prefix _ tr1).
      + exists mark. split; [|done]. eapply elem_prefix; [exact Hp|]. apply elem_of_app. right. by apply list_elem_of_singleton.
    - by apply (elem_prefix _ tr).
    - right. exists p'. rewrite Hid. split; [|done]. by apply (elem_prefix _ tr1). }
  destruct mark as [[p|n|]|]; walk_calls; [exact Hgone2| |exact Hgone2|apply Hkeep; by left].
  case_bool_decide as Hlt; [exact Hgone2|]. apply Hkeep. right. exists n. split; [done|lia].
Qed.

(** A session is read, and then something is done with it. *)
Lemma read_then {B} id now (f : option SessionData → sprog B) Q tr :
  VNow now ∈ tr →
  (∀ o tr', tr `prefix_of` tr' →
     match o with
     | inl e => Q (inl e) tr'
     | inr None => sobeys (f None) Q tr'
     | inr (Some d) => was_read tr' id now d → sobeys (f (Some d)) Q tr'
     end) →
  sobeys (let! x := read idle_ttl id now in f x) Q tr.
Proof.
  intros Hn Hf. apply obeys_bind. eapply obeys_mono; [|by apply read_ok].
  intros [e|[d|]] [] tr' [Hp Hr]; [by apply (Hf (inl e))|by apply (Hf (inr (Some d)))|by apply (Hf (inr None))].
Qed.

Lemma destroyed_then {B} id (p : sprog B) tr :
  (∀ tr', sobeys p (λ _ _, True) tr') → sobeys (let! _ := destroy id in p) (λ _ _, True) tr.
Proof.
  intros Hp. apply obeys_bind. eapply obeys_mono; [|apply destroy_ok]. intros [e|[]] [] tr' _; [done|apply Hp].
Qed.

Lemma elem_snoc {A} (x : A) l : x ∈ l ++ [x].
Proof. apply elem_of_app. right. by apply list_elem_of_singleton. Qed.

Lemma was_read_prefix tr tr' id now d : tr `prefix_of` tr' → was_read tr id now d → was_read tr' id now d.
Proof.
  intros Hp (?&?&(raw&Hraw&?)&(mark&Hmark&?)). split_and!; [done|done|exists raw|exists mark];
    (split; [by apply (elem_prefix _ tr)|done]).
Qed.

Lemma resolve_ok cookie safe presented :
  sobeys (resolve_session_actor idle_ttl cookie safe presented) (λ _ _, True) [].
Proof.
  unfold resolve_session_actor. destruct cookie as [[|a s]|]; [done| |done]. set (id := String.String a s).
  walk_calls. split; [done|]. intros now _. cbn [log]. apply read_then; [apply elem_snoc|].
  intros [e|[d|]] tr Hp; [done| |done]. intros Hread. walk_calls. split; [done|].
  intros [e|[u|]] _; walk_calls; [done| |by apply destroyed_then]. cbn [log]. set (tr1 := tr ++ [_]).
  case_bool_decide as Hdis; [|by apply destroyed_then]. walk_calls. split; [done|].
  intros [e|m] _; walk_calls; [done|]. cbn [log]. set (tr2 := tr1 ++ [_]).
  destruct (Maintenance.session_valid _ _ _) eqn:Hv; [|apply destroyed_then; intros tr'; by case_match].
  destruct (Maintenance.admission_closed m && negb (bool_decide (user_role u = ADMIN))) eqn:Hcl; [done|].
  destruct (safe || bool_decide (presented = csrf_token d)) eqn:Hcsrf; [|done]. walk_calls. split; [|by intros [] _].
  assert (tr `prefix_of` tr2) as Hp2 by by do 2 apply prefix_app_r.
  pose proof (was_read_prefix _ _ _ _ _ Hp2 Hread) as (<-&Hlt&(raw&Hraw&Hdec)&Hmark).
  split_and!.
  - exists raw, now. split_and!; [done|done| |done]. apply (elem_prefix _ ([] ++ [VNow now])); [by etrans|apply elem_snoc].
  - exact Hmark.
  - apply (elem_prefix _ tr1); [by apply prefix_app_r|apply elem_snoc].
  - done.
  - exists m. split_and!; [apply elem_snoc|done|]. intros Hclosed. rewrite Hclosed in Hcl.
    by apply negb_false_iff, bool_decide_eq_true in Hcl.
  - apply orb_true_iff in Hcsrf as [?|?%bool_decide_eq_true]; auto.
Qed.

Lemma logout_ok cookie : sobeys (logout idle_ttl cookie) (λ _ _, True) [].
Proof.
  unfold logout. destruct cookie as [[|a s]|]; [done| |done]. set (id := String.String a s).
  apply obeys_bind. apply (obeys_mono _ _ _ _ (λ _ _ _, True)).
  - intros [e|who] [] tr _; [done|]. apply destroyed_then. intros tr'. by destruct who; walk_calls.
  - unfold _who_is_signing_out. apply obeys_catch. walk_calls. split; [done|]. intros now _. cbn [log].
    apply read_then; [apply elem_snoc|]. intros [e|[d|]] tr _; [done| |done]. intros _. walk_calls. split; [done|].
    by intros [e|u] _.
Qed.

Lemma opened_ok user now epoch tr : VNow now ∈ tr → sobeys (create absolute_ttl idle_ttl user now epoch) (λ _ _, True) tr.
Proof.
  intros Hn. unfold create. walk_calls. split; [done|]. intros id _. walk_calls. split; [done|]. intros csrf _.
  cbn [log]. set (tr1 := tr ++ [_]). set (tr2 := tr1 ++ [_]).
  assert (VToken id ∈ tr2) as Hid by (apply (elem_prefix _ tr1); [by apply prefix_app_r|apply elem_snoc]).
  assert (VNow now ∈ tr2) as Hn2 by (apply (elem_prefix _ tr); [by do 2 apply prefix_app_r|done]).
  apply obeys_bind. eapply obeys_mono; [|apply write_ok; [done|by left]]. by intros [e|[]] [] tr' _.
Qed.

Lemma login_ok u : sobeys (_establish_session absolute_ttl idle_ttl u) (λ _ _, True) [].
Proof.
  unfold _establish_session. walk_calls. split; [done|]. intros [e|m] _; walk_calls; [done|].
  destruct (_ && _); [done|]. walk_calls. split; [done|]. intros now _. cbn [log]. apply obeys_bind.
  eapply obeys_mono; [|apply opened_ok, elem_snoc]. by intros [e|d] [] tr _.
Qed.

Lemma invalidation_ok user keep : sobeys (invalidation absolute_ttl idle_ttl user keep) (λ _ _, True) [].
Proof.
  assert (∀ now tr, VNow now ∈ tr → must tr _ (SSet (_watermark_key user) (Instant now) absolute_ttl)) as Hmark.
  { intros now tr Hn. right. by exists user, now. }
  unfold invalidation. walk_calls. split; [done|]. intros now _. cbn [log]. set (tr := [] ++ [_]).
  assert (VNow now ∈ tr) as Hn by apply elem_snoc. destruct keep as [keep|].
  - unfold invalidate_others, _set_watermark. walk_calls. split; [by apply Hmark|]. intros [e|[]] _; walk_calls; [done|].
    split; [done|]. intros [e|[raw|]] _; walk_calls; [done| |done]. cbn [log is_ok].
    destruct (_decode keep raw) as [kept|] eqn:Hd; [|done]. case_bool_decide as Hu; [|done].
    destruct (decode_same _ _ _ Hd) as (Hid&p'&->&Hsame). eapply obeys_mono; [|apply write_ok]; [done|..].
    + apply (elem_prefix _ tr); [by do 2 apply prefix_app_r|done].
    + right. exists p'. cbn [session_id]. rewrite Hid. split; [apply elem_snoc|exact Hsame].
  - unfold invalidate_all, _set_watermark. walk_calls. split; [by apply Hmark|]. by intros [e|[]] _.
Qed.
End Duties.

(** * The world *)

Record kept := mk_kept {
  clk : Z; cache : gmap string (entry * Z); people : gmap string User;
  hold : Maintenance.MaintenanceState; tokens : gset string
}.

Definition live (s : kept) (key : string) : option entry :=
  match cache s !! key with
  | Some (v, expires) => if bool_decide (clk s < expires)%Z then Some v else None
  | None => None
  end.

Definition set_cache (c : gmap string (entry * Z)) (s : kept) : kept :=
  mk_kept (clk s) c (people s) (hold s) (tokens s).

(** A write that fails may have taken effect. *)
Definition may_fail (s s1 : kept) (r : sexn + unit) (s' : kept) : Prop :=
  (r = inr tt ∧ s' = s1) ∨ (r = inl BackendError ∧ (s' = s ∨ s' = s1)).
Definition reads {A} (s : kept) (a : A) (r : sexn + A) (s' : kept) : Prop :=
  s' = s ∧ (r = inr a ∨ r = inl BackendError).

Definition answers (_ : nat) (s : kept) (R : Type) (q : seff R) : R → kept → Prop :=
  match q in seff R return R → kept → Prop with
  | SGet key => reads s (live s key)
  | SSet key v ttl => may_fail s (set_cache (<[key := (v, clk s + ttl * SECOND)%Z]> (cache s)) s)
  | SDelete key => may_fail s (set_cache (delete key (cache s)) s)
  | SToken => λ r s', (r ∉ tokens s) ∧ s' = mk_kept (clk s) (cache s) (people s) (hold s) ({[r]} ∪ tokens s)
  | SNow => λ r s', r = clk s ∧ s' = s
  | SUser id => reads s (people s !! id)
  | SHold => reads s (hold s)
  | SAudit _ => λ _ s', s' = s
  | SServe _ _ _ _ => λ _ s', s' = s
  end.

Abbreviation sworld := (@world seff sexn sevent kept).

(** Time passes, and the accounts and the hold are whatever they become. *)
Record passes (s s' : kept) : Prop := {
  passes_clock : (clk s ≤ clk s')%Z;
  passes_cache : cache s' = cache s;
  passes_tokens : tokens s' = tokens s
}.

Section World.
Context (absolute_ttl idle_ttl : Z).

Inductive served : sprog unit → Prop :=
  | served_request cookie safe presented : served (resolve_session_actor idle_ttl cookie safe presented)
  | served_logout cookie : served (logout idle_ttl cookie)
  | served_login u : served (_establish_session absolute_ttl idle_ttl u)
  | served_invalidation user keep : served (invalidation absolute_ttl idle_ttl user keep).

Lemma session_requests_ok p : served p → obeys log may (must absolute_ttl idle_ttl) p (λ _ _ _, True) tt [].
Proof. intros [| | |]; [apply resolve_ok|apply logout_ok|apply login_ok|apply invalidation_ok]. Qed.

Definition sstep := step log answers (λ _ s, s) served passes.
(** Nobody signed in, at some time. *)
Definition closed (s : kept) : Prop := cache s = ∅.
Definition reachable (w : sworld) : Prop := ∃ s0, closed s0 ∧ rtc sstep (idle s0) w.
End World.

(** * Theory *)

Lemma session_not_watermark id u : _session_key id ≠ _watermark_key u.
Proof. done. Qed.
Lemma watermark_key_inj u u' : _watermark_key u = _watermark_key u' → u = u'.
Proof. apply (inj (String.append _)). Qed.
Lemma session_key_inj u u' : _session_key u = _session_key u' → u = u'.
Proof. apply (inj (String.append _)). Qed.

#[local] Arguments _session_key : simpl never.
#[local] Arguments _watermark_key : simpl never.

Section Theory.
Context (absolute_ttl idle_ttl : Z).
Abbreviation sstep := (sstep absolute_ttl idle_ttl).
Abbreviation must := (must absolute_ttl idle_ttl).
Abbreviation lifetime := (absolute_ttl * SECOND)%Z.

Lemma answers_possible i s R (q : seff R) r s' tr : answers i s R q r s' → may tr R q r.
Proof. done. Qed.

Lemma answers_clock i s R (q : seff R) r s' : answers i s R q r s' → clk s' = clk s.
Proof.
  destruct q; simpl; try (by intros [-> _]); try (by intros [_ ->]); try (by intros ->);
    by intros [[_ ->]|[_ [->| ->]]].
Qed.

(** What a call does to the watermark of an account. *)
Lemma call_watermark i s R (q : seff R) r s' tr u : must tr R q → answers i s R q r s' →
  cache s' !! _watermark_key u = cache s !! _watermark_key u ∨
  ∃ n ok, log R q r = VSet (_watermark_key u) (Instant n) absolute_ttl ok ∧
    cache s' !! _watermark_key u = Some (Instant n, clk s + lifetime)%Z.
Proof.
  intros Hm Ha. destruct q; simpl in Ha; try (by left; rewrite Ha); try (destruct Ha as [-> [_|_]]; by left);
    try (destruct Ha as [_ ->]; by left).
  - assert (s' = s ∨ s' = set_cache (<[key:=(value, clk s + ttl_seconds * SECOND)%Z]> (cache s)) s) as [->| ->]
      by (destruct Ha as [[_ ->]|[_ [->| ->]]]; auto); [by left|].
    destruct Hm as [(id&p&now&->&_)|(user&n&->&->&_&->)]; simpl.
    + left. by rewrite lookup_insert_ne by apply session_not_watermark.
    + destruct (decide (user = u)) as [->|Hne]; [right|left; rewrite lookup_insert_ne; [done|by intros ?%watermark_key_inj]].
      exists n, (is_ok r). by rewrite lookup_insert_eq.
  - destruct Hm as [id ->]. left. assert (s' = s ∨ s' = set_cache (delete (_session_key id) (cache s)) s) as [->| ->]
      by (destruct Ha as [[_ ->]|[_ [->| ->]]]; auto); [done|]. simpl. by rewrite lookup_delete_ne by apply session_not_watermark.
Qed.

Definition marked (s : kept) (u : string) (T until : Z) : Prop :=
  ∃ n e, cache s !! _watermark_key u = Some (Instant n, e) ∧ (T ≤ n ∧ until ≤ e)%Z.

Definition never_earlier (u : string) (T : Z) (h : list (nat * sevent * kept)) : Prop :=
  ∀ j n ttl ok s, (j, VSet (_watermark_key u) (Instant n) ttl ok, s) ∈ h → (T ≤ n)%Z.

Definition holds_back (w : sworld) : Prop := ∀ h1 i u T ttl s0 h2,
  history w = h1 ++ (i, VSet (_watermark_key u) (Instant T) ttl true, s0) :: h2 → never_earlier u T h2 →
  (clk s0 ≤ clk (state w))%Z ∧
  ((clk (state w) < clk s0 + lifetime)%Z → marked (state w) u T (clk s0 + lifetime)) ∧
  (∀ j r s, (j, VGot (_watermark_key u) r, s) ∈ h2 → (clk s < clk s0 + lifetime)%Z →
     ∃ n, r = Some (Instant n) ∧ (T ≤ n)%Z).

Lemma holds_back_call (w : sworld) i R (q : seff R) r s' tr tasks' :
  must tr R q → answers i (state w) R q r s' → holds_back w →
  holds_back (mk_world s' tasks' (history w ++ [(i, log R q r, s')])).
Proof.
  intros Hm Ha Hb h1 j u T ttl s0 h2 Hh Hnever. pose proof (answers_clock _ _ _ _ _ _ Ha) as Hclk. simpl in *.
  destruct h2 as [|x h2 _] using rev_ind.
  - apply app_inj_tail in Hh as [_ [= -> Hlog ->]]. split; [done|]. split; [|by intros ??? ?%not_elem_of_nil]. intros _.
    destruct q; simpl in Hlog; repeat case_match; simplify_eq. destruct r as [e|[]]; [done|]. simpl in Ha.
    assert (s0 = set_cache (<[_watermark_key u:=(Instant T, clk (state w) + ttl * SECOND)%Z]> (cache (state w))) (state w)) as ->
      by (destruct Ha as [[_ ->]|[? _]]; done).
    destruct Hm as [(id&p&now&Hk&_)|(user&n&Hk&_&_&->)]; [by destruct (session_not_watermark id u)|].
    eexists _, _. simpl. rewrite lookup_insert_eq. split; [done|lia].
  - rewrite app_comm_cons, app_assoc in Hh. apply app_inj_tail in Hh as [Hh <-].
    assert (never_earlier u T h2) as Hnever2.
    { intros k n ttl' ok s Hin. eapply (Hnever k n ttl' ok s), elem_of_app. by left. }
    destruct (Hb _ _ _ _ _ _ _ Hh Hnever2) as (Hle&Hnow&Hseen). split_and!; [lia|..].
    + rewrite Hclk. intros Hlt. destruct (Hnow Hlt) as (n&e&He&?&?).
      destruct (call_watermark _ _ _ _ _ _ _ u Hm Ha) as [Hsame|(n'&ok&Hlog&Hset)].
      * exists n, e. by rewrite Hsame.
      * exists n', (clk (state w) + lifetime)%Z. split; [done|]. split.
        -- eapply (Hnever i n' absolute_ttl ok s'), elem_of_app. right. rewrite Hlog. by apply list_elem_of_singleton.
        -- lia.
    + intros k r' s [Hin|Hin%list_elem_of_singleton]%elem_of_app Hlt; [by eapply Hseen|].
      injection Hin as -> Hlog ->. rewrite Hclk in Hlt. destruct (Hnow Hlt) as (n&e&He&?&?).
      destruct q; simpl in Hlog; repeat case_match; simplify_eq. simpl in Ha. destruct Ha as [-> [Hr|?]]; [|done].
      injection Hr as ->. exists n. unfold live. rewrite He. rewrite bool_decide_eq_true_2 by lia. done.
Qed.

(** The worlds that are reached. *)
Lemma reachable_ind (P : sworld → Prop) w :
  (∀ s, closed s → P (idle s)) →
  (∀ w i R (q : seff R) r s' tr tasks', orderly log may must w → must tr R q → answers i (state w) R q r s' → P w →
     tr = events_of i (history w) → P (mk_world s' tasks' (history w ++ [(i, log R q r, s')]))) →
  (∀ w tasks' s', passes (state w) s' → P w → P (mk_world s' tasks' (history w))) →
  reachable absolute_ttl idle_ttl w → orderly log may must w ∧ P w.
Proof.
  intros H0 Hcall Hother (s0&Hs0&Hr).
  apply (steps_ind log answers (λ _ s, s) (served absolute_ttl idle_ttl) passes may must answers_possible
           (session_requests_ok absolute_ttl idle_ttl) P s0 w (H0 _ Hs0)); [|exact Hr].
  clear w Hr. intros w w' _ Ho Hs HP. destruct Hs as [j t R q k r s' w Hi Hp Ha|j t e w Hi|p w Hp|s' w He].
  - assert (after_call (λ _ s, s) j (k r) s' = s') as -> by (unfold after_call; by case_match).
    eapply Hcall; [done| |done|done|]; [by eapply orderly_must|]. by apply (o_log _ _ _ _ Ho).
  - by apply Hother.
  - by apply Hother.
  - by apply Hother.
Qed.

Lemma passes_refl s : passes s s.
Proof. by split. Qed.

Lemma reachable_holds_back w : reachable absolute_ttl idle_ttl w → holds_back w.
Proof.
  intros Hr. refine (proj2 (reachable_ind holds_back w _ _ _ Hr)).
  - intros s _ h1 i u T ttl s0 h2 Hh. by destruct h1.
  - intros w1 i R q r s' tr ts _ Hm Ha Hb _. by eapply holds_back_call.
  - intros w1 ts s' [Hc Hcache _] Hb h1 i u T ttl s0 h2 Hh Hn. destruct (Hb _ _ _ _ _ _ _ Hh Hn) as (Hle&Hnow&Hseen).
    simpl. split_and!; [lia| |done]. intros Hlt. destruct Hnow as (n&e&?&?); [lia|]. exists n, e. by rewrite Hcache.
Qed.

Definition serve_due (tr : list sevent) (e : sevent) : Prop :=
  match e with VServed d u safe presented => may_serve tr d u safe presented | _ => True end.

Lemma reachable_due w h1 i d u safe presented s h2 : reachable absolute_ttl idle_ttl w →
  history w = h1 ++ (i, VServed d u safe presented, s) :: h2 → may_serve (events_of i h1) d u safe presented.
Proof.
  intros (s0&_&Hr) Hh. refine (history_due log answers (λ _ s, s) (served absolute_ttl idle_ttl) passes may must
    answers_possible (session_requests_ok absolute_ttl idle_ttl) serve_due s0 w _ Hr h1 i _ s h2 Hh).
  intros tr R q r0 Hm. destruct q; simpl; repeat case_match; done.
Qed.

Definition on_time (w : sworld) : Prop := ∀ j e s, (j, e, s) ∈ history w → (clk s ≤ clk (state w))%Z.
Lemma reachable_on_time w : reachable absolute_ttl idle_ttl w → on_time w.
Proof.
  intros Hr. refine (proj2 (reachable_ind on_time w _ _ _ Hr)).
  - by intros s _ j e s' ?%not_elem_of_nil.
  - intros w1 i R q r s' tr ts _ _ Ha Hb _ j e s Hin. simpl in *. rewrite (answers_clock _ _ _ _ _ _ Ha).
    apply elem_of_app in Hin as [Hin|Hin%list_elem_of_singleton]; [by eapply Hb|]. injection Hin as _ _ ->.
    by rewrite (answers_clock _ _ _ _ _ _ Ha).
  - intros w1 ts s' [Hc _ _] Hb j e s Hin. simpl. specialize (Hb _ _ _ Hin). lia.
Qed.

(** C10: an invalidated session serves nobody.  Once a watermark dated T has been written
    for an account, every request that begins afterwards, as long as that watermark
    lives, is served only on a session of the account created at T or later, whatever
    reads, sign-outs and other invalidations are interleaved with it, provided no
    invalidation that was already under way writes an earlier date over it. *)
Theorem an_invalidated_session_serves_nobody w h1 i u T ttl s0 h2 j d usr safe presented s :
  reachable absolute_ttl idle_ttl w →
  history w = h1 ++ (i, VSet (_watermark_key u) (Instant T) ttl true, s0) :: h2 →
  never_earlier u T h2 → (clk (state w) < clk s0 + lifetime)%Z →
  (j, VServed d usr safe presented, s) ∈ h2 → events_of j h1 = [] → owner d = u →
  (T ≤ created_at d)%Z.
Proof.
  intros Hr Hh Hn Hlt Hin Hnew Hu. destruct (reachable_holds_back _ Hr _ _ _ _ _ _ _ Hh Hn) as (_&_&Hseen).
  apply list_elem_of_split in Hin as (m1&m2&->). rewrite app_comm_cons, app_assoc in Hh.
  pose proof (reachable_due _ _ _ _ _ _ _ _ _ Hr Hh) as (_&(mark&Hmark&Hcases)&_).
  rewrite events_of_app, Hnew in Hmark. apply elem_of_events in Hmark as [sm Hmark].
  apply elem_of_cons in Hmark as [Hmark|Hmark]; [done|]. rewrite Hu in Hmark.
  destruct (Hseen j mark sm) as (n&->&Hle).
  - apply elem_of_app. by left.
  - assert (clk sm ≤ clk (state w))%Z; [|lia]. apply (reachable_on_time _ Hr j (VGot (_watermark_key u) mark)).
    rewrite Hh. apply elem_of_app. left. apply elem_of_app. right. apply elem_of_cons. by right.
  - destruct Hcases as [?|(n'&[= <-]&?)]; [done|lia].
Qed.

(** ** Where a session comes from *)

(** A login: somebody drew the identifier, and wrote the session under it. *)
Definition origin (h : list (nat * sevent * kept)) (id : string) (p : payload) : Prop :=
  ∃ h1 j p0 ttl ok s h2, h = h1 ++ (j, VSet (_session_key id) (Encoded p0) ttl ok, s) :: h2 ∧
    opens absolute_ttl (events_of j h1) id p0 ∧ same p p0.

Lemma origin_app h more id p : origin h id p → origin (h ++ more) id p.
Proof.
  intros (h1&j&p0&ttl&ok&s&h2&->&Ho&Hs). exists h1, j, p0, ttl, ok, s, (h2 ++ more). by rewrite <- app_assoc.
Qed.

Lemma same_trans p p1 p2 : same p p1 → same p1 p2 → same p p2.
Proof. intros (?&?&?&?) (?&?&?&?). split_and!; by etrans. Qed.

Record rooted (w : sworld) : Prop := {
  r_cache : ∀ id p e, cache (state w) !! _session_key id = Some (Encoded p, e) → origin (history w) id p;
  r_got : ∀ g1 j id p s g2, history w = g1 ++ (j, VGot (_session_key id) (Some (Encoded p)), s) :: g2 → origin g1 id p
}.

(** What a call does to the sessions. *)
Lemma call_session i s R (q : seff R) r s' tr id p e : must tr R q → answers i s R q r s' →
  cache s' !! _session_key id = Some (Encoded p, e) →
  (∃ e', cache s !! _session_key id = Some (Encoded p, e')) ∨
  ∃ ttl ok, log R q r = VSet (_session_key id) (Encoded p) ttl ok ∧ session_write absolute_ttl idle_ttl tr (_session_key id) (Encoded p) ttl.
Proof.
  intros Hm Ha Hp. destruct q; simpl in Ha; try (by left; rewrite Ha in Hp; eauto);
    try (destruct Ha as [-> [_|_]]; by left; eauto); try (destruct Ha as [_ ->]; by left; eauto).
  - assert (s' = s ∨ s' = set_cache (<[key:=(value, clk s + ttl_seconds * SECOND)%Z]> (cache s)) s) as [->| ->]
      by (destruct Ha as [[_ ->]|[_ [->| ->]]]; auto); [by left; eauto|]. simpl in Hp.
    apply lookup_insert_Some in Hp as [[-> [= -> _]]|[_ Hp]]; [right|by left; eauto].
    exists ttl_seconds, (is_ok r). split; [done|]. destruct Hm as [?|(user&n&Hk&_)]; [done|].
    by destruct (session_not_watermark id user).
  - assert (s' = s ∨ s' = set_cache (delete key (cache s)) s) as [->| ->]
      by (destruct Ha as [[_ ->]|[_ [->| ->]]]; auto); [by left; eauto|]. simpl in Hp.
    apply lookup_delete_Some in Hp as [_ Hp]. left. eauto.
Qed.

Lemma rooted_got w j id p : rooted w → VGot (_session_key id) (Some (Encoded p)) ∈ events_of j (history w) →
  origin (history w) id p.
Proof.
  intros Hr [s Hin]%elem_of_events. apply list_elem_of_split in Hin as (g1&g2&Hh). rewrite Hh.
  apply origin_app. by eapply (r_got _ Hr).
Qed.

Lemma reachable_rooted w : reachable absolute_ttl idle_ttl w → rooted w.
Proof.
  intros Hr. refine (proj2 (reachable_ind rooted w _ _ _ Hr)).
  - intros s Hs. split; simpl; [intros id p e; by rewrite Hs|by intros [] ?????].
  - intros w1 i R q r s' tr ts _ Hm Ha Hro ->. split; simpl.
    + intros id p e Hp. destruct (call_session _ _ _ _ _ _ _ _ _ _ Hm Ha Hp) as [[e' Hold]|(ttl&ok&->&Hw)].
      { apply origin_app. by eapply (r_cache _ Hro). }
      destruct Hw as (id'&p'&now&<-%session_key_inj&[= <-]&_&_&[Hopen|(p1&Hgot&Hsame)]).
      * exists (history w1), i, p, ttl, ok, s', []. by split_and!.
      * apply origin_app. destruct (rooted_got _ _ _ _ Hro Hgot) as (h1&j&p0&ttl0&ok0&s0&h2&->&Ho&Hs).
        exists h1, j, p0, ttl0, ok0, s0, h2. split_and!; [done|done|by eapply same_trans].
    + intros g1 j id p s g2 Hh. destruct g2 as [|x g2 _] using rev_ind.
      * apply app_inj_tail in Hh as [<- [= <- Hlog <-]]. destruct q; simpl in Hlog; repeat case_match; simplify_eq.
        simpl in Ha. destruct Ha as [-> [Ha|?]]; [|done]. injection Ha as Ha. symmetry in Ha. unfold live in Ha.
        repeat case_match; simplify_eq. by eapply (r_cache _ Hro).
      * rewrite app_comm_cons, app_assoc in Hh. apply app_inj_tail in Hh as [Hh _]. by eapply (r_got _ Hro).
  - intros w1 ts s' [_ Hc _] [Hcache Hgot]. split; simpl; [|done]. intros id p e. rewrite Hc. apply Hcache.
Qed.

(** C11: a session serves its account within its limits.  Behind every request that is
    served on a session there is a login: somebody drew the identifier and opened the
    session for that very account at an instant less than the absolute lifetime before
    the request read the clock, with the anti-forgery token and the epoch of maintenance
    the session still carries.  The account existed and was enabled when it was read, the
    hold let its session in, and a request that changes something presented the token. *)
Theorem a_session_serves_within_its_limits w h1 j d usr safe presented s h2 :
  reachable absolute_ttl idle_ttl w →
  history w = h1 ++ (j, VServed d usr safe presented, s) :: h2 →
  (∃ g1 k p0 ttl ok s' g2 now,
     h1 = g1 ++ (k, VSet (_session_key (session_id d)) (Encoded p0) ttl ok, s') :: g2 ∧
     opens absolute_ttl (events_of k g1) (session_id d) p0 ∧
     p_user p0 = owner d ∧ p_csrf p0 = csrf_token d ∧ default 0%Z (p_epoch p0) = maintenance_epoch d ∧
     VNow now ∈ events_of j h1 ∧ (now < p_created p0 + lifetime)%Z) ∧
  VUser (owner d) (Some usr) ∈ events_of j h1 ∧ disabled_at usr = None ∧
  (∃ m, VHold m ∈ events_of j h1 ∧
     Maintenance.session_valid m (maintenance_epoch d) (bool_decide (user_role usr = ADMIN)) = true ∧
     (Maintenance.admission_closed m = true → user_role usr = ADMIN)) ∧
  (safe = true ∨ presented = csrf_token d).
Proof.
  intros Hr Hh. destruct (reachable_due _ _ _ _ _ _ _ _ _ Hr Hh) as ((raw&now&Hgot&Hdec&Hnow&Hlt)&_&Huser&Hen&Hhold&Hcsrf).
  split; [|done]. destruct (decode_same _ _ _ Hdec) as (_&p&->&Hsame). apply elem_of_events in Hgot as [sg Hgot].
  apply list_elem_of_split in Hgot as (f1&f2&->). rewrite <- app_assoc in Hh. simpl in Hh.
  destruct (r_got _ (reachable_rooted _ Hr) _ _ _ _ _ _ Hh) as (g1&k&p0&ttl&ok&s'&g2&->&Hopen&Hp).
  destruct (same_trans _ _ _ Hsame Hp) as (Hu&He&Hc&Hm). simpl in *.
  exists g1, k, p0, ttl, ok, s', (g2 ++ (j, VGot (_session_key (session_id d)) (Some (Encoded p)), sg) :: f2), now.
  split_and!; try done; [by rewrite <- app_assoc|]. destruct Hopen as (_&_&Hexp). lia.
Qed.
End Theory.

(** * Runs *)

Module Demo.
Definition absolute : Z := 43200.
Definition idle_for : Z := 1800.
Definition alice : User := mk_user "alice" "alice" USER (Some "hash") (Some "secret") None None.
Definition morning : kept := mk_kept 0 ∅ {["alice" := alice]} Maintenance.NORMAL ∅.

Definition reply (_ : nat) (s : kept) (R : Type) (q : seff R) : option (R * kept) :=
  match q in seff R return option (R * kept) with
  | SGet key => Some (inr (live s key), s)
  | SSet key v ttl => Some (inr tt, set_cache (<[key := (v, clk s + ttl * SECOND)%Z]> (cache s)) s)
  | SDelete key => Some (inr tt, set_cache (delete key (cache s)) s)
  | SToken =>
      let t := ("t" ++ pretty (size (tokens s)))%string in
      if bool_decide (t ∈ tokens s) then None
      else Some (t, mk_kept (clk s) (cache s) (people s) (hold s) ({[t]} ∪ tokens s))
  | SNow => Some (clk s, s)
  | SUser id => Some (inr (people s !! id), s)
  | SHold => Some (inr (hold s), s)
  | SAudit _ => Some (tt, s)
  | SServe _ _ _ _ => Some (tt, s)
  end.

Lemma reply_possible i s R q r s' : reply i s R q = Some (r, s') → answers i s R q r s'.
Proof.
  intros Hr. destruct q; simpl in *; repeat case_match; simplify_eq; unfold reads, may_fail; auto.
  split; [by eapply bool_decide_eq_false_1|done].
Qed.

Abbreviation smove := (move seff sexn kept).
Definition wait (seconds : Z) : smove :=
  Change (λ s : kept, mk_kept (clk s + Z.max 0 seconds * SECOND) (cache s) (people s) (hold s) (tokens s)).
Definition login : smove := Serve (_establish_session absolute idle_for alice).
Definition request (id : string) : smove := Serve (resolve_session_actor idle_for (Some id) true "").
Definition sign_out (id : string) : smove := Serve (logout idle_for (Some id)).
Definition invalidate : smove := Serve (invalidation absolute idle_for "alice" None).

Lemma wait_allowed n : allowed (served absolute idle_for) passes (wait n).
Proof. intros s. split; simpl; [unfold SECOND; lia|done|done]. Qed.

(** A request on the session of "t0" has read it; its owner signs out; the request writes
    it back. *)
Definition signed_out : list smove :=
  [login; Go 0 5; request "t0"; Go 1 3; sign_out "t0"; Go 2 7; Go 1 4; request "t0"; Go 3 7].

(** Two invalidations: the one that read the clock first writes last. *)
Definition crossed : list smove :=
  [invalidate; Go 0 1; wait 10; login; Go 1 5; wait 10; invalidate; Go 2 2; Go 0 1; request "t0"; Go 3 7].

(** A session is invalidated, another opened, and a request served on that. *)
Definition signed_in_again : list smove :=
  [login; Go 0 5; wait 10; invalidate; Go 1 2; wait 10; login; Go 2 5; request "t2"; Go 3 7].

Definition played (ms : list smove) : option sworld := play log (λ _ s, s) reply (idle morning) ms.
Definition after (ms : list smove) : sworld := default (idle morning) (played ms).

(** The moves of these schedules are steps. *)
Definition simple (m : smove) : Prop := allowed (served absolute idle_for) passes m.

Lemma schedule_reachable ms : Forall simple ms → reachable absolute idle_for (after ms).
Proof.
  intros Hms. exists morning. split; [done|]. unfold after. destruct (played ms) as [w|] eqn:Hw; [|apply rtc_refl].
  by eapply (schedule_steps log answers (λ _ s, s) (served absolute idle_for) passes reply reply_possible).
Qed.

Lemma signed_out_allowed : Forall simple signed_out.
Proof. repeat constructor. Qed.
Lemma crossed_allowed : Forall simple crossed.
Proof. repeat (apply Forall_cons; split; [first [apply wait_allowed|exact I|constructor]|]). done. Qed.
Lemma signed_in_again_allowed : Forall simple signed_in_again.
Proof. repeat (apply Forall_cons; split; [first [apply wait_allowed|exact I|constructor]|]). done. Qed.

(** The n-th call of a run. *)
Definition call (ms : list smove) (n : nat) : nat * sevent * kept :=
  default (0, VOther, morning) (history (after ms) !! n).

Definition draws_token (x : nat * sevent * kept) : bool := match x.1.2 with VToken _ => true | _ => false end.

(** A session that was signed out comes back.  A request that has read the session
    when its owner signs out writes it back afterwards, and the next request with that
    cookie, begun after the sign-out has deleted the session and without anybody having
    logged in since, is served on it. *)
Theorem a_signed_out_session_comes_back :
  ∃ w h1 s h2 d, reachable absolute idle_for w ∧
    history w = h1 ++ (2, VDeleted (_session_key "t0") true, s) :: h2 ∧
    program <$> tasks w !! 2 = Some (Pure tt) ∧ events_of 3 h1 = [] ∧ existsb draws_token h2 = false ∧
    VServed d alice true "" ∈ events_of 3 h2 ∧ session_id d = "t0".
Proof.
  exists (after signed_out), (take 13 (history (after signed_out))), (call signed_out 13).2,
         (drop 14 (history (after signed_out))), (mk_session "t0" "alice" 0 (absolute * SECOND) "t1" 0).
  split; [apply schedule_reachable, signed_out_allowed|]. split.
  { symmetry. apply take_drop_middle. vm_compute. reflexivity. }
  split; [vm_compute; reflexivity|]. split; [vm_compute; reflexivity|]. split; [vm_compute; reflexivity|].
  split; [|reflexivity]. apply (list_elem_of_lookup_2 _ 6). vm_compute. reflexivity.
Qed.

Lemma never_earlier_check u T h :
  forallb (λ x : nat * sevent * kept, match x.1.2 with
                 | VSet key (Instant n) _ _ => negb (bool_decide (key = _watermark_key u)) || bool_decide (T ≤ n)%Z
                 | _ => true end) h = true → never_earlier u T h.
Proof.
  intros Hall j n ttl ok s Hin. rewrite forallb_forall in Hall. apply list_elem_of_In, Hall in Hin. cbn [fst snd] in Hin.
  rewrite bool_decide_eq_true_2 in Hin by done. by apply bool_decide_eq_true in Hin.
Qed.

Definition tomorrow : SessionData := mk_session "t2" "alice" (20 * SECOND) (20 * SECOND + absolute * SECOND) "t3" 0.

Lemma an_invalidated_session_serves_nobody_witness : (10 * SECOND ≤ created_at tomorrow)%Z.
Proof.
  apply (an_invalidated_session_serves_nobody absolute idle_for (after signed_in_again)
           (take 6 (history (after signed_in_again))) 1 "alice" (10 * SECOND) absolute (call signed_in_again 6).2
           (drop 7 (history (after signed_in_again))) 3 tomorrow alice true "" (call signed_in_again 18).2).
  - apply schedule_reachable, signed_in_again_allowed.
  - symmetry. apply take_drop_middle. vm_compute. reflexivity.
  - apply never_earlier_check. vm_compute. reflexivity.
  - vm_compute. reflexivity.
  - apply (list_elem_of_lookup_2 _ 11). vm_compute. reflexivity.
  - vm_compute. reflexivity.
  - reflexivity.
Defined.

Lemma a_session_serves_within_its_limits_witness :
  disabled_at alice = None ∧ (true = true ∨ "" = csrf_token tomorrow) ∧
  VUser (owner tomorrow) (Some alice) ∈ events_of 3 (take 18 (history (after signed_in_again))).
Proof.
  destruct (a_session_serves_within_its_limits absolute idle_for (after signed_in_again)
              (take 18 (history (after signed_in_again))) 3 tomorrow alice true "" (call signed_in_again 18).2
              (drop 19 (history (after signed_in_again)))) as (_&Hu&Hd&_&Hc).
  - apply schedule_reachable, signed_in_again_allowed.
  - symmetry. apply take_drop_middle. vm_compute. reflexivity.
  - split; [exact Hd|split; [exact Hc|exact Hu]].
Defined.

(** An older invalidation revives a session.  Two invalidations of one account are
    under way and the one that read the clock first writes last: it takes the watermark
    back, and a session the later one had killed, created before the later one's date, is
    served again. *)
Theorem an_older_invalidation_revives_sessions :
  ∃ w h1 s h2 d, reachable absolute idle_for w ∧
    history w = h1 ++ (2, VSet (_watermark_key "alice") (Instant (20 * SECOND)) absolute true, s) :: h2 ∧
    events_of 3 h1 = [] ∧ VServed d alice true "" ∈ events_of 3 h2 ∧
    owner d = "alice" ∧ (created_at d < 20 * SECOND)%Z.
Proof.
  exists (after crossed), (take 7 (history (after crossed))), (call crossed 7).2, (drop 8 (history (after crossed))),
         (mk_session "t0" "alice" (10 * SECOND) (10 * SECOND + absolute * SECOND) "t1" 0).
  split; [apply schedule_reachable, crossed_allowed|]. split.
  { symmetry. apply take_drop_middle. vm_compute. reflexivity. }
  split; [vm_compute; reflexivity|]. split; [|split; [reflexivity|vm_compute; reflexivity]].
  apply (list_elem_of_lookup_2 _ 6). vm_compute. reflexivity.
Qed.
End Demo.
