(* ===== verification/Accounts.v ===== *)
(** Accounts, invitations and credentials: the use cases [manage_users.py],
    [issue_invitation.py], [accept_invitation.py], [manage_own_account.py],
    [bootstrap_first_admin.py] and [manage_tenants.py] of [application/use_cases/], the
    repositories they share ([adapters/persistence/repositories/users.py],
    [invitations.py]) and the secret held between two steps of an enrolment
    ([pending_enrolment.py]).

    A repository method is a statement on three tables, by the rows its WHERE clause
    selects and what it writes to them; [affect] is also where the constraints of the
    tables are, and refuses a statement that violates one.  [save] is the full-row upsert
    its comment describes.  A use case is a program over those statements and over the
    ports it is given; [request] adds the commit of the session's scope.

    Instants are microseconds.  A hasher, the secret box, the one-time password and the
    password policy may answer anything; digests of tokens are an argument.  [created_at],
    which the database assigns and nothing reads, and provisioning URIs are left out. *)

From S2P Require SignIn.
From S2P Require Import Actors.
From S2P Require Export Interleaving.

(** * Data *)

Record User := mk_user {
  user_id : string; login : string; display_name : string; user_role : Role; user_tenant : string;
  tailscale_login : option string; password_hash : option string; totp_secret : option string;
  totp_last_counter : option Z; user_debug_until : option Z; disabled_at : option Z
}.

Definition can_use_public_entrance (u : User) : bool :=
  bool_decide (is_Some (password_hash u)) && bool_decide (is_Some (totp_secret u)).

Inductive InvitationPurpose : Set := ONBOARD | PASSWORD_RESET.
#[export] Instance InvitationPurpose_eq_dec : EqDecision InvitationPurpose.
Proof. solve_decision. Defined.

Record Invitation := mk_invitation {
  invitation_id : string; invited : string; token_hash : string; purpose : InvitationPurpose;
  expires_at : Z; consumed_at : option Z
}.

Definition is_usable (v : Invitation) (now : Z) : bool :=
  bool_decide (consumed_at v = None) && bool_decide (now < expires_at v)%Z.

Record RecoveryCode := mk_code { code_id : string; code_user : string; code_hash : string; used_at : option Z }.

#[export] Instance User_eq_dec : EqDecision User.
Proof. solve_decision. Defined.
#[export] Instance Invitation_eq_dec : EqDecision Invitation.
Proof. solve_decision. Defined.

(** [dataclasses.replace] of the fields some use case replaces. *)
Definition set_profile (name : string) (r : Role) (u : User) : User :=
  mk_user (user_id u) (login u) name r (user_tenant u) (tailscale_login u) (password_hash u) (totp_secret u)
    (totp_last_counter u) (user_debug_until u) (disabled_at u).
Definition set_password (h : string) (u : User) : User :=
  mk_user (user_id u) (login u) (display_name u) (user_role u) (user_tenant u) (tailscale_login u) (Some h)
    (totp_secret u) (totp_last_counter u) (user_debug_until u) (disabled_at u).
Definition set_totp (secret : string) (counter : Z) (u : User) : User :=
  mk_user (user_id u) (login u) (display_name u) (user_role u) (user_tenant u) (tailscale_login u) (password_hash u)
    (Some secret) (Some counter) (user_debug_until u) (disabled_at u).
Definition set_counter (counter : Z) (u : User) : User :=
  mk_user (user_id u) (login u) (display_name u) (user_role u) (user_tenant u) (tailscale_login u) (password_hash u)
    (totp_secret u) (Some counter) (user_debug_until u) (disabled_at u).
Definition set_debug (until : option Z) (u : User) : User :=
  mk_user (user_id u) (login u) (display_name u) (user_role u) (user_tenant u) (tailscale_login u) (password_hash u)
    (totp_secret u) (totp_last_counter u) until (disabled_at u).
Definition set_disabled_at (at_ : option Z) (u : User) : User :=
  mk_user (user_id u) (login u) (display_name u) (user_role u) (user_tenant u) (tailscale_login u) (password_hash u)
    (totp_secret u) (totp_last_counter u) (user_debug_until u) at_.
Definition set_tenant (t : string) (u : User) : User :=
  mk_user (user_id u) (login u) (display_name u) (user_role u) t (tailscale_login u) (password_hash u)
    (totp_secret u) (totp_last_counter u) (user_debug_until u) (disabled_at u).

(** * The tables, and what one transaction has written *)

Record tables := mk_tables {
  users : gmap string User; invitations : gmap string Invitation; codes : gmap string RecoveryCode
}.

(** Rows written, or deleted where there is no row; and the logins claimed. *)
Record writes := mk_writes {
  w_users : gmap string (option User); w_invitations : gmap string (option Invitation);
  w_codes : gmap string (option RecoveryCode); w_logins : gset string
}.

Definition nothing : writes := mk_writes ∅ ∅ ∅ ∅.
Definition write_users (m : gmap string (option User)) : writes := mk_writes m ∅ ∅ ∅.
Definition write_invitations (m : gmap string (option Invitation)) : writes := mk_writes ∅ m ∅ ∅.
Definition write_codes (m : gmap string (option RecoveryCode)) : writes := mk_writes ∅ ∅ m ∅.

(** The second writes come after the first. *)
Definition then_writes (d e : writes) : writes :=
  mk_writes (w_users e ∪ w_users d) (w_invitations e ∪ w_invitations d) (w_codes e ∪ w_codes d) (w_logins e ∪ w_logins d).

Definition over {A} (d : gmap string (option A)) (m : gmap string A) : gmap string A :=
  merge (λ o x, match o with Some o => o | None => x end) d m.

Definition apply_writes (d : writes) (t : tables) : tables :=
  mk_tables (over (w_users d) (users t)) (over (w_invitations d) (invitations t)) (over (w_codes d) (codes t)).

(** Two transactions write the same row, or claim the same login: one waits for the other. *)
Definition apart (d e : writes) : Prop :=
  dom (w_users d) ## dom (w_users e) ∧ dom (w_invitations d) ## dom (w_invitations e) ∧
  dom (w_codes d) ## dom (w_codes e) ∧ w_logins d ## w_logins e.
#[export] Instance apart_dec d e : Decision (apart d e).
Proof. unfold apart. apply _. Defined.

(** * Statements *)

(** [_TenantScoped._scope]. *)
Definition in_scope (scope : option string) (u : User) : bool :=
  match scope with Some t => bool_decide (user_tenant u = t) | None => true end.

Inductive stmt : Type :=
  | SaveUser (scope : option string) (u : User)
  | InsertUser (scope : option string) (u : User)
  | AdvanceCounter (scope : option string) (id : string) (counter : Z)
  | SetDisabled (scope : option string) (id : string) (at_ : option Z)
  | UpdateProfile (scope : option string) (id name : string) (r : Role)
  | SetDebug (scope : option string) (id : string) (until : option Z)
  | DeleteUser (scope : option string) (id : string)
  | SaveInvitation (v : Invitation)
  | ConsumeInvitation (id : string) (at_ : Z)
  | DeleteOutstanding (user : string) (p : InvitationPurpose)
  | DeleteInvitations (user : string)
  | SaveCodes (cs : list RecoveryCode)
  | DeleteCodes (user : string)
  | UseCode (id : string) (at_ : Z).

(** UPDATE and DELETE: the rows selected, and how many. *)
Definition hit {A} (sel : string → A → bool) (m : gmap string A) : gmap string A :=
  filter (λ x : string * A, sel x.1 x.2) m.
Definition update_users (t : tables) (sel : string → User → bool) (f : User → option User) : option (writes * nat) :=
  Some (write_users (f <$> hit sel (users t)), size (hit sel (users t))).
Definition update_invitations (t : tables) (sel : string → Invitation → bool) (f : Invitation → option Invitation)
    : option (writes * nat) :=
  Some (write_invitations (f <$> hit sel (invitations t)), size (hit sel (invitations t))).
Definition update_codes (t : tables) (sel : string → RecoveryCode → bool) (f : RecoveryCode → option RecoveryCode)
    : option (writes * nat) :=
  Some (write_codes (f <$> hit sel (codes t)), size (hit sel (codes t))).

(** Another account that has this one's login, or its tailnet login. *)
Definition same_login (u u' : User) : bool :=
  negb (bool_decide (user_id u = user_id u')) &&
  (bool_decide (login u = login u') || bool_decide (is_Some (tailscale_login u) ∧ tailscale_login u = tailscale_login u')).
Definition taken (t : tables) (u : User) : bool :=
  negb (bool_decide (hit (λ _, same_login u) (users t) = ∅)).

(** [ck_users_password_implies_totp] *)
Definition all_or_nothing (u : User) : bool :=
  Bool.eqb (bool_decide (is_Some (password_hash u))) (bool_decide (is_Some (totp_secret u))).

Definition stamped (scope : option string) (u : User) : User :=
  match scope with Some t => set_tenant t u | None => u end.

Definition referenced (t : tables) (id : string) : bool :=
  negb (bool_decide (hit (λ _ v, bool_decide (invited v = id)) (invitations t) = ∅)) ||
  negb (bool_decide (hit (λ _ c, bool_decide (code_user c = id)) (codes t) = ∅)).

(** What a statement writes and how many rows it affects; [None] where a constraint of
    the tables refuses it. *)
Definition affect (st : stmt) (t : tables) : option (writes * nat) :=
  match st with
  | SaveUser scope u =>
      let u := stamped scope u in
      if taken t u || negb (all_or_nothing u) then None
      else Some (mk_writes {[user_id u := Some u]} ∅ ∅ {[login u]}, 1)
  | InsertUser scope u =>
      let u := stamped scope u in
      if bool_decide (hit (λ _ v, bool_decide (login v = login u)) (users t) = ∅) then
        if taken t u || negb (all_or_nothing u) || bool_decide (is_Some (users t !! user_id u)) then None
        else Some (mk_writes {[user_id u := Some u]} ∅ ∅ {[login u]}, 1)
      else Some (nothing, 0)
  | AdvanceCounter scope id counter =>
      update_users t (λ k u, bool_decide (k = id) && in_scope scope u &&
          match totp_last_counter u with Some c => bool_decide (c < counter)%Z | None => true end)
        (λ u, Some (set_counter counter u))
  | SetDisabled scope id at_ =>
      update_users t (λ k u, bool_decide (k = id) && in_scope scope u) (λ u, Some (set_disabled_at at_ u))
  | UpdateProfile scope id name r =>
      update_users t (λ k u, bool_decide (k = id) && in_scope scope u) (λ u, Some (set_profile name r u))
  | SetDebug scope id until =>
      update_users t (λ k u, bool_decide (k = id) && in_scope scope u && bool_decide (disabled_at u = None))
        (λ u, Some (set_debug until u))
  | DeleteUser scope id =>
      if referenced t id then None
      else update_users t (λ k u, bool_decide (k = id) && in_scope scope u) (λ _, None)
  | SaveInvitation v =>
      if bool_decide (is_Some (users t !! invited v)) &&
         bool_decide (hit (λ k x, bool_decide (token_hash x = token_hash v ∧ k ≠ invitation_id v)) (invitations t) = ∅)
      then Some (write_invitations {[invitation_id v := Some v]}, 1) else None
  | ConsumeInvitation id at_ =>
      update_invitations t (λ k v, bool_decide (k = id) && bool_decide (consumed_at v = None))
        (λ v, Some (mk_invitation (invitation_id v) (invited v) (token_hash v) (purpose v) (expires_at v) (Some at_)))
  | DeleteOutstanding user p =>
      update_invitations t (λ _ v, bool_decide (invited v = user) && bool_decide (purpose v = p) &&
          bool_decide (consumed_at v = None)) (λ _, None)
  | DeleteInvitations user => update_invitations t (λ _ v, bool_decide (invited v = user)) (λ _, None)
  | SaveCodes cs =>
      if forallb (λ c, bool_decide (is_Some (users t !! code_user c)) && bool_decide (codes t !! code_id c = None)) cs
         && bool_decide (NoDup (map code_id cs))
      then Some (write_codes (list_to_map (map (λ c, (code_id c, Some c)) cs)), length cs) else None
  | DeleteCodes user => update_codes t (λ _ c, bool_decide (code_user c = user)) (λ _, None)
  | UseCode id at_ =>
      update_codes t (λ k c, bool_decide (k = id) && bool_decide (used_at c = None))
        (λ c, Some (mk_code (code_id c) (code_user c) (code_hash c) (Some at_)))
  end.

Definition enabled_admin (scope : option string) (u : User) : bool :=
  bool_decide (user_role u = ADMIN) && bool_decide (disabled_at u = None) && in_scope scope u.
Definition count_where (sel : User → bool) (t : tables) : nat := size (hit (λ _, sel) (users t)).

(** * Calls *)

Inductive AuditAction : Set :=
  | USER_ROLE_CHANGED | USER_UPDATED | USER_DISABLED | USER_ENABLED | USER_DEBUG_WINDOW_SET | USER_DELETED
  | USER_INVITED | USER_INVITATION_REISSUED | USER_PASSWORD_RESET_ISSUED | USER_INVITATION_ACCEPTED
  | USER_TOTP_ENROLLED | USER_PASSWORD_RESET_CONSUMED | USER_PASSWORD_CHANGED | USER_PASSWORD_VERIFIED
  | USER_TOTP_REENROLLED | BOOTSTRAP_FIRST_ADMIN | TENANT_CREATED.

Inductive aexn : Set :=
  | NotAuthorized | UserNotFoundError | UserAlreadyExistsError | UserStateConflictError | LastAdministratorError
  | DebugWindowError | InvitationInvalidError | TotpEnrolmentExpiredError | WeakPasswordError
  | InvalidCredentialsError | NoLocalCredentialsError | NotAuthenticated | TenantStateConflictError | RuntimeError
  | BackendError.

Inductive aeff : Type → Type :=
  | ARequire (a : Actor) (s : Scope) : aeff (aexn + unit)
  | AUser (scope : option string) (id : string) : aeff (aexn + option User)
  | ALogin (login : string) : aeff (aexn + option User)
  | AList (scope : option string) : aeff (aexn + gmap string User)
  | ACount (scope : option string) (admins : bool) : aeff (aexn + nat)
  | AToken (hash : string) : aeff (aexn + option Invitation)
  | AWrite (st : stmt) : aeff (aexn + nat)
  | ADeleteKeys (scope : option string) (owner : string) : aeff (aexn + unit)
  | ATenant (name : string) : aeff (aexn + bool)
  | ASaveTenant (id name : string) : aeff (aexn + unit)
  | ACommit : aeff (aexn + unit)
  | APendingSet (user sealed : string) : aeff (aexn + unit)
  | APendingGet (user : string) : aeff (aexn + option string)
  | APendingDelete (user : string) : aeff (aexn + unit)
  | AInvalidateAll (user : string) (now : Z) : aeff (aexn + unit)
  | AInvalidateOthers (user keep : string) (now : Z) : aeff (aexn + unit)
  | APolicy (password : string) : aeff (aexn + unit)
  | AHash (password : string) : aeff (aexn + string)
  | AVerify (presented stored : string) : aeff (aexn + bool)
  | ATotpSecret : aeff string
  | ATotpVerify (secret code : string) : aeff (aexn + Z)
  | ASeal (secret : string) : aeff (aexn + string)
  | AOpen (sealed : string) : aeff (aexn + string)
  | ADraw : aeff string
  | ANow : aeff Z
  | AAudit (a : AuditAction) (target : string) : aeff unit.

Abbreviation aprog := (prog aeff aexn unit).

(** A guard of the domain, which calls nothing. *)
Definition granted {E} (r : res E unit) : aprog unit :=
  match r with Ret _ => Pure tt | Raise _ => Throw NotAuthorized end.

(** ** Repositories *)

Definition save (scope : option string) (u : User) : aprog unit :=
  let! _ := invoke (AWrite (SaveUser scope u)) in Pure tt.

Definition insert_if_absent (scope : option string) (u : User) : aprog User :=
  let! _ := invoke (AWrite (InsertUser scope u)) in
  let! row := invoke (ALogin (login u)) in
  match row with Some u' => Pure u' | None => Throw RuntimeError end.

Definition one_row (st : stmt) : aprog bool :=
  let! n := invoke (AWrite st) in Pure (bool_decide (n = 1)).

Definition advance_totp_counter (scope : option string) (id : string) (counter : Z) : aprog bool :=
  one_row (AdvanceCounter scope id counter).
Definition set_disabled_row (scope : option string) (id : string) (at_ : option Z) : aprog unit :=
  let! _ := invoke (AWrite (SetDisabled scope id at_)) in Pure tt.
Definition update_profile (scope : option string) (id name : string) (r : Role) : aprog unit :=
  let! _ := invoke (AWrite (UpdateProfile scope id name r)) in Pure tt.
Definition set_debug_logging_until (scope : option string) (id : string) (until : option Z) : aprog bool :=
  one_row (SetDebug scope id until).
Definition delete_row (scope : option string) (id : string) : aprog unit :=
  let! _ := invoke (AWrite (DeleteUser scope id)) in Pure tt.

Definition save_invitation (v : Invitation) : aprog unit :=
  let! _ := invoke (AWrite (SaveInvitation v)) in Pure tt.
Definition consume (id : string) (at_ : Z) : aprog bool := one_row (ConsumeInvitation id at_).
Definition invalidate_outstanding (user : string) (p : InvitationPurpose) : aprog unit :=
  let! _ := invoke (AWrite (DeleteOutstanding user p)) in Pure tt.
Definition save_recovery_codes (cs : list RecoveryCode) : aprog unit :=
  let! _ := invoke (AWrite (SaveCodes cs)) in Pure tt.
Definition delete_recovery_codes (user : string) : aprog unit :=
  let! _ := invoke (AWrite (DeleteCodes user)) in Pure tt.
Definition delete_for_user (user : string) : aprog unit :=
  let! _ := invoke (AWrite (DeleteCodes user)) in
  let! _ := invoke (AWrite (DeleteInvitations user)) in Pure tt.
Definition consume_recovery_code (id : string) (at_ : Z) : aprog bool := one_row (UseCode id at_).

(** [session_scope]: a unit of work that ends is committed, one that raises is not. *)
Definition request {A} (p : aprog A) : aprog unit :=
  let! _ := p in invoke ACommit.

(** ** Administrators *)

Module ManageUsers.
Definition list_all (scope : option string) (actor : Actor) : aprog (gmap string User) :=
  let! _ := invoke (ARequire actor USER_READ) in invoke (AList scope).

Definition _require (scope : option string) (id : string) : aprog User :=
  let! user := invoke (AUser scope id) in
  match user with Some u => Pure u | None => Throw UserNotFoundError end.

Definition _assert_not_last_admin (scope : option string) (u : User) : aprog unit :=
  if bool_decide (is_Some (disabled_at u)) then Pure tt
  else
    let! n := invoke (ACount scope true) in
    if bool_decide (n ≤ 1) then Throw LastAdministratorError else Pure tt.

(** Is another role asked for? *)
Definition role_changes (u : User) (new_role : option Role) : bool :=
  match new_role with Some r => negb (bool_decide (r = user_role u)) | None => false end.

Definition update (scope : option string) (actor : Actor) (id : string) (name : option string)
    (new_role : option Role) : aprog User :=
  let! _ := invoke (ARequire actor USER_WRITE) in
  let! user := _require scope id in
  let! _ := (if role_changes user new_role then
               let! _ := granted (assert_may_grant actor (default (user_role user) new_role)) in
               if bool_decide (user_id user = actor_id actor) then Throw NotAuthorized
               else if bool_decide (user_role user = ADMIN) then _assert_not_last_admin scope user else Pure tt
             else Pure tt) in
  let updated := set_profile (match name with Some n => py_strip n | None => display_name user end)
                   (default (user_role user) new_role) user in
  let! _ := update_profile scope (user_id user) (display_name updated) (user_role updated) in
  if role_changes user new_role then
    let! now := ask ANow in
    let! _ := invoke (AInvalidateAll (user_id user) now) in
    let! _ := ask (AAudit USER_ROLE_CHANGED (user_id user)) in
    Pure updated
  else
    let! _ := ask (AAudit USER_UPDATED (user_id user)) in
    Pure updated.

Definition set_disabled (scope : option string) (actor : Actor) (id : string) (disabled : bool) : aprog User :=
  let! _ := invoke (ARequire actor USER_WRITE) in
  let! user := _require scope id in
  let! _ := (if disabled then
               if bool_decide (user_id user = actor_id actor) then Throw NotAuthorized
               else if bool_decide (user_role user = ADMIN) then _assert_not_last_admin scope user else Pure tt
             else Pure tt) in
  let! now := ask ANow in
  let! _ := set_disabled_row scope (user_id user) (if disabled then Some now else None) in
  let! _ := (if disabled then invoke (AInvalidateAll (user_id user) now) else Pure tt) in
  let! _ := ask (AAudit (if disabled then USER_DISABLED else USER_ENABLED) (user_id user)) in
  Pure (set_disabled_at (if disabled then Some now else None) user).

Definition MAX_DEBUG_WINDOW_MINUTES : Z := 24 * 60.
Definition debug_window_until (now minutes : Z) : res aexn (option Z) :=
  if bool_decide (0 ≤ minutes ≤ MAX_DEBUG_WINDOW_MINUTES)%Z
  then Ret (if bool_decide (minutes = 0)%Z then None else Some (now + minutes * 60000000)%Z)
  else Raise DebugWindowError.

Definition set_debug_window (scope : option string) (actor : Actor) (id : string) (minutes : Z) : aprog User :=
  let! _ := invoke (ARequire actor USER_WRITE) in
  let! now := ask ANow in
  match debug_window_until now minutes with
  | Raise e => Throw e
  | Ret until =>
      let! user := _require scope id in
      let! found := set_debug_logging_until scope (user_id user) until in
      if found : bool then
        let! _ := ask (AAudit USER_DEBUG_WINDOW_SET (user_id user)) in
        Pure (set_debug until user)
      else Throw UserStateConflictError
  end.

Definition delete (scope : option string) (actor : Actor) (id : string) : aprog unit :=
  let! _ := invoke (ARequire actor USER_WRITE) in
  let! user := _require scope id in
  if bool_decide (user_id user = actor_id actor) then Throw NotAuthorized
  else
    let! _ := (if bool_decide (user_role user = ADMIN) then _assert_not_last_admin scope user else Pure tt) in
    let! now := ask ANow in
    let! _ := invoke (AInvalidateAll (user_id user) now) in
    let! _ := invoke (ADeleteKeys scope (user_id user)) in
    let! _ := delete_for_user (user_id user) in
    let! _ := delete_row scope (user_id user) in
    ask (AAudit USER_DELETED (user_id user)).
End ManageUsers.

(** ** Links *)

Module IssueInvitation.
Section IssueInvitation.
(** [TokenService.hash_token]; [ttl_seconds] of an invitation, in microseconds. *)
Context (digest : string → string) (ttl : Z).

Definition _require_user (scope : option string) (id : string) : aprog User :=
  let! user := invoke (AUser scope id) in
  match user with Some u => Pure u | None => Throw UserNotFoundError end.

(** The plaintext of the token, which the caller is given once. *)
Definition _issue (u : User) (p : InvitationPurpose) : aprog string :=
  let! _ := invalidate_outstanding (user_id u) p in
  let! token := ask ADraw in
  let! now := ask ANow in
  let! id := ask ADraw in
  let! _ := save_invitation (mk_invitation id (user_id u) (digest token) p (now + ttl)%Z None) in
  Pure token.

Definition create_account (scope : option string) (actor : Actor) (new_login name : string) (r : Role)
    (tenant : option string) (DEFAULT_TENANT_ID : string) : aprog string :=
  let! _ := invoke (ARequire actor USER_WRITE) in
  let! _ := granted (assert_may_grant actor r) in
  let normalised := SignIn.lower (py_strip new_login) in
  let! existing := invoke (ALogin normalised) in
  match existing with
  | Some _ => Throw UserAlreadyExistsError
  | None =>
      let! id := ask ADraw in
      let shown := if bool_decide (py_strip name = "") then normalised else py_strip name in
      let user := mk_user id normalised shown r (default DEFAULT_TENANT_ID tenant) None None None None None None in
      let! _ := save scope user in
      let! stored := invoke (AUser scope id) in
      let! token := _issue (default user stored) ONBOARD in
      let! _ := ask (AAudit USER_INVITED id) in
      Pure token
  end.

Definition reissue_onboarding (scope : option string) (actor : Actor) (id : string) : aprog string :=
  let! _ := invoke (ARequire actor USER_WRITE) in
  let! user := _require_user scope id in
  if can_use_public_entrance user then Throw UserAlreadyExistsError
  else
    let! token := _issue user ONBOARD in
    let! _ := ask (AAudit USER_INVITATION_REISSUED (user_id user)) in
    Pure token.

Definition issue_password_reset (scope : option string) (actor : Actor) (id : string) : aprog string :=
  let! _ := invoke (ARequire actor USER_WRITE) in
  let! user := _require_user scope id in
  if negb (can_use_public_entrance user) then Throw UserNotFoundError
  else
    let! token := _issue user PASSWORD_RESET in
    let! _ := ask (AAudit USER_PASSWORD_RESET_ISSUED (user_id user)) in
    Pure token.
End IssueInvitation.
End IssueInvitation.

(** ** The secret between the two steps of an enrolment *)

Module PendingEnrolment.
Definition put (user secret : string) : aprog unit :=
  let! sealed := invoke (ASeal secret) in invoke (APendingSet user sealed).
Definition get (user : string) : aprog (option string) :=
  let! stored := invoke (APendingGet user) in
  match stored with
  | None => Pure None
  | Some sealed => let! secret := invoke (AOpen sealed) in Pure (Some secret)
  end.
Definition require (user : string) : aprog string :=
  let! secret := get user in
  match secret with Some s => Pure s | None => Throw TotpEnrolmentExpiredError end.
Definition clear (user : string) : aprog unit := invoke (APendingDelete user).
End PendingEnrolment.

(** [TokenService.hash_token], and the normal form of a recovery code before it. *)
Section Codes.
Context (digest normal : string → string).

Definition RECOVERY_CODE_COUNT : nat := 10.

Fixpoint draw (n : nat) : aprog (list string) :=
  match n with
  | 0 => Pure []
  | S n => let! x := ask ADraw in let! l := draw n in Pure (x :: l)
  end.

Definition reissue_recovery_codes (user : string) : aprog (list string) :=
  let! _ := delete_recovery_codes user in
  let! issued := draw RECOVERY_CODE_COUNT in
  let! ids := draw RECOVERY_CODE_COUNT in
  let! _ := save_recovery_codes (zip_with (λ id code, mk_code id user (digest (normal code)) None) ids issued) in
  Pure issued.
End Codes.

(** ** Whoever holds a link *)

Module AcceptInvitation.
Section AcceptInvitation.
Context (digest normal : string → string).

Definition _require_invitation (token : string) (p : InvitationPurpose) : aprog Invitation :=
  let! found := invoke (AToken (digest token)) in
  match found with
  | None => Throw InvitationInvalidError
  | Some v =>
      if bool_decide (purpose v = p) then
        let! now := ask ANow in
        if is_usable v now then Pure v else Throw InvitationInvalidError
      else Throw InvitationInvalidError
  end.

Definition _require_usable (id : string) : aprog User :=
  let! user := invoke (AUser None id) in
  match user with
  | Some u => if bool_decide (disabled_at u = None) then Pure u else Throw InvitationInvalidError
  | None => Throw InvitationInvalidError
  end.

Definition _require_pending_user (token : string) : aprog User :=
  let! v := _require_invitation token ONBOARD in
  let! user := _require_usable (invited v) in
  if can_use_public_entrance user then Throw InvitationInvalidError else Pure user.

(** The login and the secret to enrol. *)
Definition begin (token : string) : aprog (string * string) :=
  let! user := _require_pending_user token in
  let! held := PendingEnrolment.get (user_id user) in
  match held with
  | Some secret => Pure (login user, secret)
  | None =>
      let! secret := ask ATotpSecret in
      let! _ := PendingEnrolment.put (user_id user) secret in
      Pure (login user, secret)
  end.

Definition complete (token password totp_code : string) : aprog (list string) :=
  let! v := _require_invitation token ONBOARD in
  let! user := _require_usable (invited v) in
  if can_use_public_entrance user then Throw InvitationInvalidError
  else
    let! secret := PendingEnrolment.require (user_id user) in
    let! _ := invoke (APolicy password) in
    let! counter := invoke (ATotpVerify secret totp_code) in
    let! now := ask ANow in
    let! claimed := consume (invitation_id v) now in
    if claimed : bool then
      let! hashed := invoke (AHash password) in
      let! sealed := invoke (ASeal secret) in
      let! _ := save None (set_totp sealed counter (set_password hashed user)) in
      let! _ := PendingEnrolment.clear (user_id user) in
      let! codes := reissue_recovery_codes digest normal (user_id user) in
      let! _ := ask (AAudit USER_INVITATION_ACCEPTED (user_id user)) in
      let! _ := ask (AAudit USER_TOTP_ENROLLED (user_id user)) in
      Pure codes
    else Throw InvitationInvalidError.

Definition describe_reset (token : string) : aprog string :=
  let! v := _require_invitation token PASSWORD_RESET in
  let! user := _require_usable (invited v) in
  Pure (login user).

Definition consume_reset (token password : string) : aprog unit :=
  let! v := _require_invitation token PASSWORD_RESET in
  let! user := _require_usable (invited v) in
  let! _ := invoke (APolicy password) in
  let! now := ask ANow in
  let! claimed := consume (invitation_id v) now in
  if claimed : bool then
    let! hashed := invoke (AHash password) in
    let! _ := save None (set_password hashed user) in
    let! _ := invoke (AInvalidateAll (user_id user) now) in
    ask (AAudit USER_PASSWORD_RESET_CONSUMED (user_id user))
  else Throw InvitationInvalidError.
End AcceptInvitation.
End AcceptInvitation.

(** ** The owner of an account *)

Module ManageOwnAccount.
Section ManageOwnAccount.
Context (digest normal : string → string).

Definition _require_self (scope : option string) (actor : Actor) : aprog User :=
  let! user := invoke (AUser scope (actor_id actor)) in
  match user with
  | Some u => if bool_decide (disabled_at u = None) then Pure u else Throw NotAuthenticated
  | None => Throw NotAuthenticated
  end.

Definition _verify_current_password (u : User) (current : string) : aprog unit :=
  match password_hash u with
  | None => Throw NoLocalCredentialsError
  | Some stored =>
      let! ok := invoke (AVerify current stored) in
      if ok : bool then Pure tt
      else
        let! _ := ask (AAudit USER_PASSWORD_VERIFIED (user_id u)) in
        Throw InvalidCredentialsError
  end.

Definition change_password (scope : option string) (actor : Actor) (session current_password new_password : string)
    : aprog unit :=
  let! user := _require_self scope actor in
  let! _ := _verify_current_password user current_password in
  if bool_decide (current_password = new_password) then Throw WeakPasswordError
  else
    let! _ := invoke (APolicy new_password) in
    let! hashed := invoke (AHash new_password) in
    let! _ := save scope (set_password hashed user) in
    let! now := ask ANow in
    let! _ := invoke (AInvalidateOthers (user_id user) session now) in
    ask (AAudit USER_PASSWORD_CHANGED (user_id user)).

Definition begin_totp_reenrolment (scope : option string) (actor : Actor) (current_password : string)
    : aprog (string * string) :=
  let! user := _require_self scope actor in
  let! _ := _verify_current_password user current_password in
  let! secret := ask ATotpSecret in
  let! _ := PendingEnrolment.put (user_id user) secret in
  Pure (login user, secret).

Definition pending_provisioning_uri (scope : option string) (actor : Actor) : aprog (string * string) :=
  let! user := _require_self scope actor in
  let! secret := PendingEnrolment.require (user_id user) in
  Pure (login user, secret).

Definition confirm_totp_reenrolment (scope : option string) (actor : Actor) (session code : string)
    : aprog (list string) :=
  let! user := _require_self scope actor in
  let! secret := PendingEnrolment.require (user_id user) in
  let! counter := invoke (ATotpVerify secret code) in
  let! sealed := invoke (ASeal secret) in
  let! _ := save scope (set_totp sealed counter user) in
  let! _ := PendingEnrolment.clear (user_id user) in
  let! codes := reissue_recovery_codes digest normal (user_id user) in
  let! now := ask ANow in
  let! _ := invoke (AInvalidateOthers (user_id user) session now) in
  let! _ := ask (AAudit USER_TOTP_REENROLLED (user_id user)) in
  Pure codes.
End ManageOwnAccount.
End ManageOwnAccount.

(** ** The first administrators *)

Module BootstrapFirstAdmin.
Definition claim (bootstrap_login presented shown DEFAULT_TENANT_ID : string) : aprog (option User) :=
  let wanted := SignIn.lower (py_strip bootstrap_login) in
  if bool_decide (wanted = "") then Pure None
  else if negb (bool_decide (SignIn.lower (py_strip presented) = wanted)) then Pure None
  else
    let! n := invoke (ACount None false) in
    if bool_decide (0 < n) then Pure None
    else
      let! id := ask ADraw in
      let candidate := mk_user id presented (if bool_decide (shown = "") then presented else shown) ADMIN
                         DEFAULT_TENANT_ID (Some presented) None None None None None in
      let! created := insert_if_absent None candidate in
      let! _ := ask (AAudit BOOTSTRAP_FIRST_ADMIN (user_id created)) in
      Pure (Some created).
End BootstrapFirstAdmin.

Module ManageTenants.
Definition create (digest : string → string) (ttl : Z) (actor : Actor) (name first_login first_name DEFAULT_TENANT_ID : string) : aprog string :=
  let! _ := invoke (ARequire actor TENANT_WRITE) in
  let! exists_ := invoke (ATenant (py_strip name)) in
  if exists_ : bool then Throw TenantStateConflictError
  else
    let! id := ask ADraw in
    let! _ := invoke (ASaveTenant id (py_strip name)) in
    let! token := IssueInvitation.create_account digest ttl None actor first_login first_name ADMIN (Some id) DEFAULT_TENANT_ID in
    let! _ := ask (AAudit TENANT_CREATED id) in
    Pure token.
End ManageTenants.
