(* ===== verification/AccountRuns.v ===== *)
(** Requests about accounts, side by side.

    Each request is one transaction at the isolation level of the database (read
    committed): it sees the committed rows and what it wrote itself, and a statement that
    writes a row another transaction has written waits until that one ends.  What a
    request must have seen before it writes is its duty; the theorems speak of every
    interleaving of any number of requests, each of which may fail at any call. *)

From S2P Require Import Actors.
From S2P Require Export Accounts.

(** * What a trace shows *)

Inductive aevent : Type :=
  | VRequired (a : Actor) (s : Scope)
  | VUser (scope : option string) (id : string) (u : option User)
  | VCount (scope : option string) (admins : bool) (n : nat)
  | VFound (hash : string) (v : option Invitation)
  | VWrote (st : stmt) (n : nat)
  | VCommit (ok : bool)
  | VPending (user : string) (sealed : option string)
  | VInvalidated (user : string) (now : Z)
  | VHash (password hashed : string)
  | VVerified (presented stored : string) (ok : bool)
  | VTotp (secret code : string) (counter : Z)
  | VSealed (secret sealed : string)
  | VOpened (sealed secret : string)
  | VDraw (x : string)
  | VNow (n : Z)
  | VFree.

Definition log (R : Type) (q : aeff R) : R → aevent :=
  match q in aeff R return R → aevent with
  | ARequire a s => λ r, match r with inr _ => VRequired a s | inl _ => VFree end
  | AUser scope id => λ r, match r with inr u => VUser scope id u | inl _ => VFree end
  | ALogin _ => λ _, VFree
  | AList _ => λ _, VFree
  | ACount scope admins => λ r, match r with inr n => VCount scope admins n | inl _ => VFree end
  | AToken hash => λ r, match r with inr v => VFound hash v | inl _ => VFree end
  | AWrite st => λ r, match r with inr n => VWrote st n | inl _ => VFree end
  | ADeleteKeys _ _ => λ _, VFree
  | ATenant _ => λ _, VFree
  | ASaveTenant _ _ => λ _, VFree
  | ACommit => λ r, VCommit (match r with inr _ => true | inl _ => false end)
  | APendingSet _ _ => λ _, VFree
  | APendingGet user => λ r, match r with inr o => VPending user o | inl _ => VFree end
  | APendingDelete _ => λ _, VFree
  | AInvalidateAll user now => λ r, match r with inr _ => VInvalidated user now | inl _ => VFree end
  | AInvalidateOthers user _ now => λ r, match r with inr _ => VInvalidated user now | inl _ => VFree end
  | APolicy _ => λ _, VFree
  | AHash password => λ r, match r with inr h => VHash password h | inl _ => VFree end
  | AVerify presented stored => λ r, match r with inr ok => VVerified presented stored ok | inl _ => VFree end
  | ATotpSecret => λ _, VFree
  | ATotpVerify secret code => λ r, match r with inr c => VTotp secret code c | inl _ => VFree end
  | ASeal secret => λ r, match r with inr s => VSealed secret s | inl _ => VFree end
  | AOpen sealed => λ r, match r with inr s => VOpened sealed s | inl _ => VFree end
  | ADraw => VDraw
  | ANow => VNow
  | AAudit _ _ => λ _, VFree
  end.

(** ** Duties *)

Definition touches_users (st : stmt) : bool :=
  match st with
  | SaveUser _ _ | InsertUser _ _ | AdvanceCounter _ _ _ | SetDisabled _ _ _ | UpdateProfile _ _ _ _ | SetDebug _ _ _
  | DeleteUser _ _ => true
  | _ => false
  end.

(** No row of the accounts was written yet; and nothing was committed. *)
Definition quiet (tr : list aevent) : bool :=
  forallb (λ e, match e with VWrote st _ => negb (touches_users st) | _ => true end) tr.
Definition open (tr : list aevent) : bool := forallb (λ e, match e with VCommit _ => false | _ => true end) tr.

(** Nothing was drawn. *)
Definition undrawn (tr : list aevent) : bool := forallb (λ e, match e with VDraw _ => false | _ => true end) tr.

Section Duties.
Context (digest normal : string → string) (ttl : Z).

(** A link of the account, of that purpose, was found by its token, was usable, and was
    claimed. *)
Definition redeemed (tr : list aevent) (p : InvitationPurpose) (id : string) : Prop :=
  ∃ token v now at_, VFound (digest token) (Some v) ∈ tr ∧ purpose v = p ∧ invited v = id ∧
    VNow now ∈ tr ∧ is_usable v now = true ∧ VWrote (ConsumeInvitation (invitation_id v) at_) 1 ∈ tr.

(** A code was verified against the secret held for the account, and that secret sealed. *)
Definition showed_code (tr : list aevent) (id sealed : string) (counter : Z) : Prop :=
  ∃ stored secret code, VPending id (Some stored) ∈ tr ∧ VOpened stored secret ∈ tr ∧
    VTotp secret code counter ∈ tr ∧ VSealed secret sealed ∈ tr.

Definition knew_password (tr : list aevent) (old : User) : Prop :=
  ∃ presented stored, password_hash old = Some stored ∧ VVerified presented stored true ∈ tr.

(** How the credentials of an account may be replaced. *)
Definition proved (tr : list aevent) (id : string) (old u : User) : Prop :=
  (∃ password h sealed c, redeemed tr ONBOARD id ∧ can_use_public_entrance old = false ∧ VHash password h ∈ tr ∧
     showed_code tr id sealed c ∧ u = set_totp sealed c (set_password h old)) ∨
  (∃ password h, (redeemed tr PASSWORD_RESET id ∨ knew_password tr old) ∧ VHash password h ∈ tr ∧ u = set_password h old) ∨
  (∃ sealed c, showed_code tr id sealed c ∧ u = set_totp sealed c old).

Definition may_save (tr : list aevent) (scope : option string) (u : User) : Prop :=
  (VDraw (user_id u) ∈ tr ∧ password_hash u = None ∧ totp_secret u = None ∧
     ∃ a, VRequired a USER_WRITE ∈ tr ∧ scopes_for (user_role u) ⊆ scopes a) ∨
  (∃ id old, VUser scope id (Some old) ∈ tr ∧ disabled_at old = None ∧ proved tr id old u).

(** If an enabled administrator goes, another was counted. *)
Definition guarded (tr : list aevent) (scope : option string) (old : User) : Prop :=
  user_role old = ADMIN → disabled_at old = None → ∃ n, VCount scope true n ∈ tr ∧ 1 < n.

(** Somebody allowed to manage accounts has read the one he changes. *)
Definition manages (tr : list aevent) (scope : option string) (id : string) (P : Actor → User → Prop) : Prop :=
  is_Some scope ∧ ∃ a old, VRequired a USER_WRITE ∈ tr ∧ VUser scope id (Some old) ∈ tr ∧ P a old.

Definition may_write (tr : list aevent) (st : stmt) : Prop :=
  (touches_users st = true → quiet tr = true) ∧
  match st with
  | SaveUser scope u => may_save tr scope u
  | InsertUser scope u =>
      scope = None ∧ VCount None false 0 ∈ tr ∧ VDraw (user_id u) ∈ tr ∧ password_hash u = None ∧ totp_secret u = None
  | UpdateProfile scope id _ r =>
      manages tr scope id (λ a old, r = user_role old ∨
        scopes_for r ⊆ scopes a ∧ actor_id a ≠ id ∧ guarded tr scope old)
  | SetDisabled scope id at_ => manages tr scope id (λ a old, at_ = None ∨ actor_id a ≠ id ∧ guarded tr scope old)
  | DeleteUser scope id => manages tr scope id (λ a old, actor_id a ≠ id ∧ guarded tr scope old)
  | SetDebug scope id _ => manages tr scope id (λ _ _, True)
  | SaveInvitation v => VDraw (invitation_id v) ∈ tr ∧ consumed_at v = None ∧ ∃ a, VRequired a USER_WRITE ∈ tr
  | ConsumeInvitation id _ => undrawn tr = true ∧ ∃ hash v, VFound hash (Some v) ∈ tr ∧ invitation_id v = id
  | _ => True
  end.

Definition may (_ : list aevent) (R : Type) (q : aeff R) : R → Prop :=
  match q in aeff R return R → Prop with
  | ARequire a s => λ r, match r with inr _ => s ∈ scopes a | inl _ => True end
  | AUser scope id => λ r, match r with inr (Some u) => user_id u = id ∧ in_scope scope u = true | _ => True end
  | _ => λ _, True
  end.

Definition must (tr : list aevent) (R : Type) (q : aeff R) : Prop :=
  open tr = true ∧ match q with AWrite st => may_write tr st | _ => True end.

Abbreviation aobeys p Q tr := (obeys log may must p (λ o (_ : unit) tr', Q o tr') tt tr).

(** An event of a trace that is written out. *)
Ltac known :=
  solve [repeat first [apply list_elem_of_singleton; reflexivity
                      |apply elem_of_app; right; apply list_elem_of_singleton; reflexivity
                      |apply elem_of_app; left]].

(** One call of a program, answered in every way. *)
Ltac call_step :=
  match goal with
  | |- must _ _ _ ∧ _ => split; [split; [reflexivity|]|intros ?answer ?Hanswer]
  | x : (aexn + _)%type |- _ => destruct x
  | |- obeys _ _ _ ?p _ _ _ => match p with context [match ?x with _ => _ end] => destruct x eqn:? end
  end.
Ltac walk_account := repeat (walk_calls; cbn [log touches_users may] in *; try done; try call_step).

(** What a guard found out. *)
Ltac bools := repeat match goal with
  | H : bool_decide _ = true |- _ => apply bool_decide_eq_true in H
  | H : bool_decide _ = false |- _ => apply bool_decide_eq_false in H
  | H : is_Some _ |- _ => destruct H as [??]
  | H : _ ∧ _ |- _ => destruct H
  end.

Ltac managed a old :=
  split; [reflexivity|split; [eexists; reflexivity|exists a, old; split; [known|split; [bools; subst; known|]]]].
Ltac guarding := let Hadm := fresh in let Hon := fresh in
  intros Hadm Hon; bools; first [congruence|eexists; split; [known|lia]].

Lemma role_kept u r : ManageUsers.role_changes u r = false → default (user_role u) r = user_role u.
Proof. destruct r as [r|]; simpl; [|done]. by intros H%negb_false_iff%bool_decide_eq_true. Qed.

Lemma update_ok t a id name r : aobeys (request (ManageUsers.update (Some t) a id name r)) (λ _ _, True) [].
Proof.
  unfold request, ManageUsers.update, ManageUsers._require, ManageUsers._assert_not_last_admin, granted, update_profile.
  walk_account; managed a u0; cbn [user_role set_profile];
    try (left; by apply role_kept); right; (split; [by eapply assert_may_grant_ret|]; split; [by bools; subst|guarding]).
Qed.

Lemma set_disabled_ok t a id b : aobeys (request (ManageUsers.set_disabled (Some t) a id b)) (λ _ _, True) [].
Proof.
  unfold request, ManageUsers.set_disabled, ManageUsers._require, ManageUsers._assert_not_last_admin, set_disabled_row.
  walk_account; managed a u0; try (by left); right; (split; [by bools; subst|guarding]).
Qed.

Lemma set_debug_window_ok t a id n : aobeys (request (ManageUsers.set_debug_window (Some t) a id n)) (λ _ _, True) [].
Proof.
  unfold request, ManageUsers.set_debug_window, ManageUsers._require, set_debug_logging_until, one_row.
  walk_account; by managed a u0.
Qed.

Lemma delete_ok t a id : aobeys (request (ManageUsers.delete (Some t) a id)) (λ _ _, True) [].
Proof.
  unfold request, ManageUsers.delete, ManageUsers._require, ManageUsers._assert_not_last_admin, delete_for_user, delete_row.
  walk_account; try (by split); managed a u0; (split; [by bools; subst|guarding]).
Qed.

(** A statement that writes no account, with what it needs. *)
Ltac minor := split; [done|].

Lemma create_account_ok sc a l n r tenant d :
  aobeys (request (IssueInvitation.create_account digest ttl sc a l n r tenant d)) (λ _ _, True) [].
Proof.
  unfold request, IssueInvitation.create_account, IssueInvitation._issue, invalidate_outstanding, save_invitation, save, granted.
  walk_account.
  - split; [reflexivity|]. left. split_and!; [known|done|done|]. exists a. split; [known|by eapply assert_may_grant_ret].
  - minor. split_and!; [known|done|]. exists a. known.
Qed.

Lemma reissue_onboarding_ok sc a id :
  aobeys (request (IssueInvitation.reissue_onboarding digest ttl sc a id)) (λ _ _, True) [].
Proof.
  unfold request, IssueInvitation.reissue_onboarding, IssueInvitation._require_user, IssueInvitation._issue,
    invalidate_outstanding, save_invitation.
  walk_account. minor. split_and!; [known|done|]. exists a. known.
Qed.

Lemma issue_password_reset_ok sc a id :
  aobeys (request (IssueInvitation.issue_password_reset digest ttl sc a id)) (λ _ _, True) [].
Proof.
  unfold request, IssueInvitation.issue_password_reset, IssueInvitation._require_user, IssueInvitation._issue,
    invalidate_outstanding, save_invitation.
  walk_account. minor. split_and!; [known|done|]. exists a. known.
Qed.

Lemma create_tenant_ok a n l shown d :
  aobeys (request (ManageTenants.create digest ttl a n l shown d)) (λ _ _, True) [].
Proof.
  unfold request, ManageTenants.create, IssueInvitation.create_account, IssueInvitation._issue, invalidate_outstanding,
    save_invitation, save, granted.
  walk_account.
  - split; [reflexivity|]. left. split_and!; [known|done|done|]. exists a. split; [known|by eapply assert_may_grant_ret].
  - minor. split_and!; [known|done|]. exists a. known.
Qed.

Lemma claim_ok b l shown d : aobeys (request (BootstrapFirstAdmin.claim b l shown d)) (λ _ _, True) [].
Proof.
  unfold request, BootstrapFirstAdmin.claim, insert_if_absent. walk_account; split; [reflexivity|];
    (split_and!; [done| |known|done|done]); bools; replace n with 0 by lia; known.
Qed.

Lemma begin_ok token : aobeys (request (AcceptInvitation.begin digest token)) (λ _ _, True) [].
Proof.
  unfold request, AcceptInvitation.begin, AcceptInvitation._require_pending_user, AcceptInvitation._require_invitation,
    AcceptInvitation._require_usable, PendingEnrolment.get, PendingEnrolment.put.
  walk_account.
Qed.

Lemma describe_reset_ok token : aobeys (request (AcceptInvitation.describe_reset digest token)) (λ _ _, True) [].
Proof.
  unfold request, AcceptInvitation.describe_reset, AcceptInvitation._require_invitation, AcceptInvitation._require_usable.
  walk_account.
Qed.

(** An account that was read is saved with other credentials. *)
Ltac changes u := split; [reflexivity|]; right; exists (user_id u), u; bools;
  match goal with H : user_id u = _ |- _ => split; [rewrite H; known|split; [done|]] end.
Ltac redeems v now := eexists _, v, now, _; split_and!; [known|done|by symmetry|known|done|bools; subst; known].
Ltac shows := eexists _, _, _; split_and!; known.

Lemma consume_reset_ok token p : aobeys (request (AcceptInvitation.consume_reset digest token p)) (λ _ _, True) [].
Proof.
  unfold request, AcceptInvitation.consume_reset, AcceptInvitation._require_invitation, AcceptInvitation._require_usable,
    consume, one_row, save.
  walk_account.
  - minor. split; [done|]. eexists _, i. split; [known|done].
  - changes u. right. left. exists p, s. split; [left; redeems i answer|split; [known|done]].
Qed.

Lemma complete_ok token p c : aobeys (request (AcceptInvitation.complete digest normal token p c)) (λ _ _, True) [].
Proof.
  unfold request, AcceptInvitation.complete, AcceptInvitation._require_invitation, AcceptInvitation._require_usable,
    PendingEnrolment.require, PendingEnrolment.get, PendingEnrolment.clear, consume, one_row, save,
    reissue_recovery_codes, delete_recovery_codes, save_recovery_codes.
  unfold RECOVERY_CODE_COUNT. cbn [draw]. walk_account.
  - minor. split; [done|]. eexists _, i. split; [known|done].
  - changes u. left. exists p, s1, s2, z. split; [redeems i answer|]. split_and!; [done|known|shows|done].
Qed.

Lemma change_password_ok t a se c p :
  aobeys (request (ManageOwnAccount.change_password t a se c p)) (λ _ _, True) [].
Proof.
  unfold request, ManageOwnAccount.change_password, ManageOwnAccount._require_self,
    ManageOwnAccount._verify_current_password, save.
  walk_account. changes u. right. left. exists p, s0. split_and!; [right; eexists _, _; split; [done|known]|known|done].
Qed.

Lemma begin_totp_ok t a c : aobeys (request (ManageOwnAccount.begin_totp_reenrolment t a c)) (λ _ _, True) [].
Proof.
  unfold request, ManageOwnAccount.begin_totp_reenrolment, ManageOwnAccount._require_self,
    ManageOwnAccount._verify_current_password, PendingEnrolment.put.
  walk_account.
Qed.

Lemma provisioning_ok t a : aobeys (request (ManageOwnAccount.pending_provisioning_uri t a)) (λ _ _, True) [].
Proof.
  unfold request, ManageOwnAccount.pending_provisioning_uri, ManageOwnAccount._require_self, PendingEnrolment.require,
    PendingEnrolment.get.
  walk_account.
Qed.

Lemma confirm_totp_ok t a se c :
  aobeys (request (ManageOwnAccount.confirm_totp_reenrolment digest normal t a se c)) (λ _ _, True) [].
Proof.
  unfold request, ManageOwnAccount.confirm_totp_reenrolment, ManageOwnAccount._require_self, PendingEnrolment.require,
    PendingEnrolment.get, PendingEnrolment.clear, save, reissue_recovery_codes, delete_recovery_codes, save_recovery_codes.
  unfold RECOVERY_CODE_COUNT. cbn [draw]. walk_account.
  changes u. right. right. exists s1, z. split; [shows|done].
Qed.

Lemma second_step_ok st : (∃ sc id c, st = AdvanceCounter sc id c) ∨ (∃ id t, st = UseCode id t) →
  aobeys (request (one_row st)) (λ _ _, True) [].
Proof. unfold request, one_row. intros [(sc&id&c&->)|(id&t&->)]; walk_account; by split. Qed.

Lemma list_all_ok sc a : aobeys (request (ManageUsers.list_all sc a)) (λ _ _, True) [].
Proof. unfold request, ManageUsers.list_all. walk_account. Qed.

(** The requests. *)
Inductive served : aprog unit → Prop :=
  | serve_list sc a : served (request (ManageUsers.list_all sc a))
  | serve_update t a id name r : served (request (ManageUsers.update (Some t) a id name r))
  | serve_disable t a id b : served (request (ManageUsers.set_disabled (Some t) a id b))
  | serve_debug t a id n : served (request (ManageUsers.set_debug_window (Some t) a id n))
  | serve_delete t a id : served (request (ManageUsers.delete (Some t) a id))
  | serve_create t a l n r tenant d : served (request (IssueInvitation.create_account digest ttl (Some t) a l n r tenant d))
  | serve_reissue t a id : served (request (IssueInvitation.reissue_onboarding digest ttl (Some t) a id))
  | serve_reset t a id : served (request (IssueInvitation.issue_password_reset digest ttl (Some t) a id))
  | serve_tenant a n l shown d : served (request (ManageTenants.create digest ttl a n l shown d))
  | serve_claim b l shown d : served (request (BootstrapFirstAdmin.claim b l shown d))
  | serve_begin token : served (request (AcceptInvitation.begin digest token))
  | serve_complete token p c : served (request (AcceptInvitation.complete digest normal token p c))
  | serve_describe token : served (request (AcceptInvitation.describe_reset digest token))
  | serve_consume token p : served (request (AcceptInvitation.consume_reset digest token p))
  | serve_password t a se c p : served (request (ManageOwnAccount.change_password (Some t) a se c p))
  | serve_totp t a c : served (request (ManageOwnAccount.begin_totp_reenrolment (Some t) a c))
  | serve_uri t a : served (request (ManageOwnAccount.pending_provisioning_uri (Some t) a))
  | serve_confirm t a se c : served (request (ManageOwnAccount.confirm_totp_reenrolment digest normal (Some t) a se c))
  | serve_counter sc id c : served (request (advance_totp_counter sc id c))
  | serve_code id t : served (request (consume_recovery_code id t)).

Lemma account_requests_ok p : served p → aobeys p (λ _ _, True) [].
Proof.
  intros []; auto using list_all_ok, update_ok, set_disabled_ok, set_debug_window_ok, delete_ok, create_account_ok,
    reissue_onboarding_ok, issue_password_reset_ok, create_tenant_ok, claim_ok, begin_ok, complete_ok, describe_reset_ok,
    consume_reset_ok, change_password_ok, begin_totp_ok, provisioning_ok, confirm_totp_ok.
  - apply second_step_ok. left. by eexists _, _, _.
  - apply second_step_ok. right. by eexists _, _.
Qed.
End Duties.
