(* ===== verification/AccountWorlds.v ===== *)
(** Any number of requests about accounts over one database: what they may be answered,
    the invariants of every world they reach, and what is guaranteed of links, of
    credentials and of administrators. *)

From stdpp Require Import pretty.
From S2P Require Import Actors.
From S2P Require Export AccountRuns.

(** * Any number of requests *)

Record wstate := mk_state {
  clk : Z; db : tables; dirty : gmap nat writes; pending : gmap string string; drawn : gset string
}.

(** What one request has written and not committed, and what it sees. *)
Definition wrote (i : nat) (s : wstate) : writes := default nothing (dirty s !! i).
Definition view (i : nat) (s : wstate) : tables := apply_writes (wrote i s) (db s).

Definition set_dirty (d : gmap nat writes) (s : wstate) : wstate := mk_state (clk s) (db s) d (pending s) (drawn s).
Definition set_pending (p : gmap string string) (s : wstate) : wstate := mk_state (clk s) (db s) (dirty s) p (drawn s).
Definition add_drawn (x : string) (s : wstate) : wstate :=
  mk_state (clk s) (db s) (dirty s) (pending s) ({[x]} ∪ drawn s).
Definition commit (i : nat) (s : wstate) : wstate :=
  mk_state (clk s) (view i s) (delete i (dirty s)) (pending s) (drawn s).
Definition rollback (i : nat) (s : wstate) : wstate := set_dirty (delete i (dirty s)) s.
Definition write (i : nat) (d : writes) (s : wstate) : wstate :=
  set_dirty (<[i := then_writes (wrote i s) d]> (dirty s)) s.

(** Nobody else holds what is about to be written. *)
Definition unlocked (i : nat) (d : writes) (s : wstate) : bool :=
  bool_decide (map_Forall (λ j e, (j = i) ∨ apart d e) (dirty s)).

Definition find_user (t : tables) (scope : option string) (id : string) : option User :=
  match users t !! id with
  | Some u => if in_scope scope u && bool_decide (user_id u = id) then Some u else None
  | None => None
  end.

Definition found {A} (m : gmap string A) (P : A → bool) (o : option A) : Prop :=
  match o with Some x => P x = true ∧ ∃ k, m !! k = Some x | None => ∀ k x, m !! k = Some x → P x = false end.

Definition broken {A} (r : aexn + A) : Prop := r = inl BackendError.

Definition answers (i : nat) (s : wstate) (R : Type) (q : aeff R) : R → wstate → Prop :=
  match q in aeff R return R → wstate → Prop with
  | ARequire a sc => λ r s', s' = s ∧ r = (if bool_decide (sc ∈ scopes a) then inr tt else inl NotAuthorized)
  | AUser scope id => λ r s', s' = s ∧ (broken r ∨ r = inr (find_user (view i s) scope id))
  | ALogin l => λ r s', s' = s ∧ (broken r ∨ ∃ o, r = inr o ∧ found (users (view i s)) (λ u, bool_decide (login u = l)) o)
  | AList scope => λ r s', s' = s ∧ (broken r ∨ r = inr (hit (λ _, in_scope scope) (users (view i s))))
  | ACount scope admins => λ r s', s' = s ∧
      (broken r ∨ r = inr (count_where (if admins then enabled_admin scope else in_scope scope) (view i s)))
  | AToken hash => λ r s', s' = s ∧
      (broken r ∨ ∃ o, r = inr o ∧ found (invitations (view i s)) (λ v, bool_decide (token_hash v = hash)) o)
  | AWrite st => λ r s', (broken r ∧ s' = s) ∨
      ∃ d n, affect st (view i s) = Some (d, n) ∧ unlocked i d s = true ∧ r = inr n ∧ s' = write i d s
  | ACommit => λ r s', (r = inr tt ∧ s' = commit i s) ∨ (broken r ∧ (s' = rollback i s ∨ s' = commit i s))
  | APendingSet user sealed => λ r s', (r = inr tt ∧ s' = set_pending (<[user := sealed]> (pending s)) s) ∨
      (broken r ∧ (s' = s ∨ s' = set_pending (<[user := sealed]> (pending s)) s))
  | APendingGet user => λ r s', s' = s ∧ (broken r ∨ r = inr (pending s !! user))
  | APendingDelete user => λ r s', (r = inr tt ∧ s' = set_pending (delete user (pending s)) s) ∨
      (broken r ∧ (s' = s ∨ s' = set_pending (delete user (pending s)) s))
  | ADraw => λ r s', (r ∉ drawn s) ∧ s' = add_drawn r s
  | ANow => λ r s', r = clk s ∧ s' = s
  | _ => λ _ s', s' = s
  end.

(** Time passes, and what is held for an enrolment may expire. *)
Record passes (s s' : wstate) : Prop := {
  p_clk : (clk s ≤ clk s')%Z; p_db : db s' = db s; p_dirty : dirty s' = dirty s;
  p_pending : pending s' ⊆ pending s; p_drawn : drawn s' = drawn s
}.

(** Where it starts: nothing under way, and identifiers in use have been drawn. *)
Record starts (s : wstate) : Prop := {
  st_dirty : dirty s = ∅;
  st_users : ∀ id u, users (db s) !! id = Some u → id ∈ drawn s ∧ user_id u = id;
  st_invitations : ∀ id v, invitations (db s) !! id = Some v → id ∈ drawn s
}.

Abbreviation aworld := (world (Eff := aeff) (X := aexn) (Ev := aevent) (W := wstate)).

(** * What statements write *)

Lemma over_lookup {A} (d : gmap string (option A)) m k :
  over d m !! k = match d !! k with Some o => o | None => m !! k end.
Proof. unfold over. rewrite lookup_merge. by destruct (d !! k), (m !! k). Qed.

Lemma hit_Some {A} sel (m : gmap string A) k x : hit sel m !! k = Some x ↔ m !! k = Some x ∧ sel k x = true.
Proof. unfold hit. rewrite map_lookup_filter_Some. simpl. by rewrite Is_true_true. Qed.

(** Rows that an UPDATE or DELETE writes. *)
Lemma hit_written {A B} sel (f : A → B) (m : gmap string A) k y :
  (f <$> hit sel m) !! k = Some y → ∃ x, m !! k = Some x ∧ sel k x = true ∧ y = f x.
Proof. rewrite lookup_fmap. intros (x&Hx&->)%fmap_Some. apply hit_Some in Hx as [? ?]. eauto. Qed.

Definition same_credentials (u u' : User) : Prop :=
  password_hash u = password_hash u' ∧ totp_secret u = totp_secret u'.

(** A statement that was not refused, and what it wrote. *)
Ltac affected Ha :=
  cbn in Ha; unfold update_users, update_invitations, update_codes in Ha; repeat case_match; simplify_eq.

Lemma affect_invitations st t d n id o : affect st t = Some (d, n) → w_invitations d !! id = Some o →
  o = None ∨
  (∃ v v0, o = Some v ∧ consumed_at v ≠ None ∧ invitations t !! id = Some v0) ∨
  (∃ v, st = SaveInvitation v ∧ id = invitation_id v ∧ o = Some v).
Proof.
  intros Ha Ho. destruct st; affected Ha; cbn in Ho; try by rewrite lookup_empty in Ho.
  - apply lookup_singleton_Some in Ho as [<- <-]. right. right. by eexists.
  - apply hit_written in Ho as (v&?&_&->). right. left. eexists _, v. by split_and!.
  - apply hit_written in Ho as (v&?&_&->). by left.
  - apply hit_written in Ho as (v&?&_&->). by left.
Qed.

Lemma affect_users st t d n id u : affect st t = Some (d, n) → w_users d !! id = Some (Some u) →
  (∃ scope v, (st = SaveUser scope v ∨ st = InsertUser scope v) ∧ id = user_id v ∧ u = stamped scope v) ∨
  ∃ u0, users t !! id = Some u0 ∧ same_credentials u0 u.
Proof.
  intros Ha Ho. destruct st; affected Ha; cbn in Ho; try by rewrite lookup_empty in Ho.
  1,2: apply lookup_singleton_Some in Ho as [<- [= <-]]; left; eexists scope, _; split; [by eauto|];
    by destruct scope.
  all: apply hit_written in Ho as (v&?&_&Hv); simplify_eq; right; exists v; by split.
Qed.

Lemma consume_hits id at_ t d : affect (ConsumeInvitation id at_) t = Some (d, 1) →
  (∃ v, invitations t !! id = Some v ∧ consumed_at v = None) ∧
  ∃ v', w_invitations d !! id = Some (Some v') ∧ consumed_at v' ≠ None.
Proof.
  intros Ha. affected Ha. cbn. set (h := hit _ _) in *.
  destruct (map_choose h) as (k&v&Hk); [intros Hh; by rewrite Hh, map_size_empty in *|].
  pose proof Hk as Hk'. apply hit_Some in Hk' as (Hv&[Hid Hc]%andb_true_iff).
  apply bool_decide_eq_true in Hid as ->. apply bool_decide_eq_true in Hc. split; [by exists v|].
  eexists. rewrite lookup_fmap, Hk. by split.
Qed.

(** * What every world keeps *)

Section Sound.
Context (digest : string → string).

(** How a request may come to replace the credentials of an account. *)
Definition evidence (tr : list aevent) (id : string) : Prop :=
  redeemed digest tr ONBOARD id ∨ redeemed digest tr PASSWORD_RESET id ∨
  (∃ scope old, VUser scope id (Some old) ∈ tr ∧ knew_password tr old) ∨
  ∃ sealed c, showed_code tr id sealed c.

Abbreviation hist := (list (nat * aevent * wstate)).

(** An identifier in use: it has been drawn, and whoever drew it has ended. *)
Definition known (s : wstate) (h : hist) (id : string) : Prop :=
  id ∈ drawn s ∧ ∀ k, VDraw id ∈ events_of k h → open (events_of k h) = false.

Record sound (s : wstate) (h : hist) : Prop := {
  s_open : ∀ i d, dirty s !! i = Some d → open (events_of i h) = true;
  s_apart : ∀ i j d e, dirty s !! i = Some d → dirty s !! j = Some e → i ≠ j → apart d e;
  s_drawn : ∀ i x, VDraw x ∈ events_of i h → x ∈ drawn s;
  s_once : ∀ i j x, VDraw x ∈ events_of i h → VDraw x ∈ events_of j h → i = j;
  s_invitations : ∀ id v, invitations (db s) !! id = Some v → known s h id;
  s_users : ∀ id u, users (db s) !! id = Some u → known s h id;
  s_dirty_invitations : ∀ i d id v, dirty s !! i = Some d → w_invitations d !! id = Some (Some v) →
    VDraw id ∈ events_of i h ∨ (consumed_at v ≠ None ∧ known s h id);
  s_dirty_users : ∀ i d id u, dirty s !! i = Some d → w_users d !! id = Some (Some u) →
    VDraw id ∈ events_of i h ∨
    (known s h id ∧ (evidence (events_of i h) id ∨ ∃ u0, users (db s) !! id = Some u0 ∧ same_credentials u0 u));
  s_seen : ∀ i scope id u, VUser scope id (Some u) ∈ events_of i h →
    user_id u = id ∧ (VDraw id ∈ events_of i h ∨ known s h id)
}.

Lemma sound_start s : starts s → sound s [].
Proof.
  intros [Hd Hu Hi]. assert (∀ i e, e ∉ events_of i ([] : hist)) as Hno by (intros i e; apply not_elem_of_nil).
  split.
  - intros i d. by rewrite Hd.
  - intros i j d e. by rewrite Hd.
  - intros i x Hx. by apply Hno in Hx.
  - intros i j x Hx. by apply Hno in Hx.
  - intros id v Hv. split; [by eapply Hi|]. intros k Hk. by apply Hno in Hk.
  - intros id u Hv. split; [by eapply Hu|]. intros k Hk. by apply Hno in Hk.
  - intros i d. by rewrite Hd.
  - intros i d. by rewrite Hd.
  - intros i scope id u Hx. by apply Hno in Hx.
Qed.

Lemma evidence_app tr more id : evidence tr id → evidence (tr ++ more) id.
Proof.
  assert (∀ e, e ∈ tr → e ∈ tr ++ more) as Hin by (intros e He; apply elem_of_app; by left).
  intros [(token&v&now&at_&?&?&?&?&?&?)|[(token&v&now&at_&?&?&?&?&?&?)|[(sc&old&?&(p&st&?&?))|(sealed&c&st&se&co&?&?&?&?)]]].
  - left. exists token, v, now, at_. split_and!; auto.
  - right. left. exists token, v, now, at_. split_and!; auto.
  - right. right. left. exists sc, old. split; [auto|]. exists p, st. auto.
  - right. right. right. exists sealed, c, st, se, co. split_and!; auto.
Qed.

(** The events of one request, after one more event of some request. *)
Lemma in_snoc i j (e e' : aevent) (s : wstate) h :
  e' ∈ events_of i (h ++ [(j, e, s)]) ↔ e' ∈ events_of i h ∨ (i = j ∧ e' = e).
Proof.
  rewrite events_of_snoc, elem_of_app. case_bool_decide; [subst|].
  - rewrite list_elem_of_singleton. naive_solver.
  - split; [|naive_solver]. intros [?|H1%not_elem_of_nil]; [by left|done].
Qed.

Lemma open_snoc i j e (s : wstate) h : open (events_of i (h ++ [(j, e, s)])) = true →
  open (events_of i h) = true ∧ (i = j → ∀ ok, e ≠ VCommit ok).
Proof.
  rewrite events_of_snoc. unfold open. rewrite forallb_app. intros [Ho He]%andb_true_iff. split; [done|].
  intros ->. rewrite bool_decide_eq_true_2 in He by done. intros ok ->. done.
Qed.

Lemma open_closed i j e (s : wstate) h : open (events_of i h) = false → open (events_of i (h ++ [(j, e, s)])) = false.
Proof. rewrite events_of_snoc. unfold open. rewrite forallb_app. by intros ->. Qed.

(** Nobody draws a drawn identifier, so an identifier in use stays one. *)
Lemma known_snoc s h i e s' id : known s h id → drawn s ⊆ drawn s' → (∀ x, e = VDraw x → x ∉ drawn s) →
  known s' (h ++ [(i, e, s')]) id.
Proof.
  intros [Hd Hk] Hsub Hfresh. split; [by apply Hsub|]. intros k [Hin|[-> He]]%in_snoc.
  - by apply open_closed, Hk.
  - by destruct (Hfresh id).
Qed.
(** What one request sees of an account: its own, or one in use, with the credentials of
    the database unless it has written what it may. *)
Lemma view_user s h i id u : sound s h → users (view i s) !! id = Some u →
  VDraw id ∈ events_of i h ∨
  (known s h id ∧ (evidence (events_of i h) id ∨ ∃ u0, users (db s) !! id = Some u0 ∧ same_credentials u0 u)).
Proof.
  intros Hs. unfold view, wrote. cbn. rewrite over_lookup.
  destruct (dirty s !! i) as [d|] eqn:Hd; cbn; [destruct (w_users d !! id) as [o|] eqn:Ho|].
  - intros ->. by eapply (s_dirty_users _ _ Hs).
  - intros Hu. right. split; [by eapply (s_users _ _ Hs)|]. right. by exists u.
  - rewrite lookup_empty. intros Hu. right. split; [by eapply (s_users _ _ Hs)|]. right. by exists u.
Qed.

Lemma view_invitation s h i id v : sound s h → invitations (view i s) !! id = Some v →
  VDraw id ∈ events_of i h ∨ known s h id.
Proof.
  intros Hs. unfold view, wrote. cbn. rewrite over_lookup.
  destruct (dirty s !! i) as [d|] eqn:Hd; cbn; [destruct (w_invitations d !! id) as [o|] eqn:Ho|].
  - intros ->. destruct (s_dirty_invitations _ _ Hs _ _ _ _ Hd Ho) as [?|[_ ?]]; auto.
  - intros Hv. right. by eapply (s_invitations _ _ Hs).
  - rewrite lookup_empty. intros Hv. right. by eapply (s_invitations _ _ Hs).
Qed.

Definition draws (e : aevent) : Prop := match e with VDraw _ => True | _ => False end.
Definition ends (e : aevent) : Prop := match e with VCommit _ => True | _ => False end.

(** A call that leaves the database and everybody's writes alone. *)
Lemma sound_same s h i e s' :
  sound s h → db s' = db s → dirty s' ⊆ dirty s → drawn s ⊆ drawn s' → (ends e → dirty s' !! i = None) →
  (∀ x, e = VDraw x → (x ∉ drawn s) ∧ x ∈ drawn s') →
  (∀ scope id u, e = VUser scope id (Some u) → user_id u = id ∧ users (view i s) !! id = Some u) →
  sound s' (h ++ [(i, e, s')]).
Proof.
  intros Hs Hdb Hdirty Hdr He Hdraw Huser.
  assert (∀ id, known s h id → known s' (h ++ [(i, e, s')]) id) as Hkn.
  { intros id Hk. apply (known_snoc s); [done..|]. intros x Hx. by apply Hdraw. }
  assert (∀ j x, VDraw x ∈ events_of j h → VDraw x ∈ events_of j (h ++ [(i, e, s')])) as Hkeep.
  { intros j x Hx. apply in_snoc. by left. }
  assert (∀ j d, dirty s' !! j = Some d → dirty s !! j = Some d) as Hold by (intros j d ?; by eapply lookup_weaken).
  split; rewrite ?Hdb.
  - intros j d Hd. pose proof (s_open _ _ Hs _ _ (Hold _ _ Hd)) as Ho. rewrite events_of_snoc. unfold open in *.
    rewrite forallb_app, Ho. case_bool_decide; [|done]. subst. cbn. destruct e; try done. by rewrite He in Hd.
  - intros j k d d' Hd Hd'. apply (s_apart _ _ Hs); auto.
  - intros j x [Hx|[_ Hx]]%in_snoc; [by eapply Hdr, (s_drawn _ _ Hs)|]. by apply Hdraw.
  - intros j k x [Hj|[-> Hj]]%in_snoc [Hk|[-> Hk]]%in_snoc; [by eapply (s_once _ _ Hs)| | |done].
    + symmetry in Hk. destruct (Hdraw _ Hk) as [[] _]. by eapply (s_drawn _ _ Hs).
    + symmetry in Hj. destruct (Hdraw _ Hj) as [[] _]. by eapply (s_drawn _ _ Hs).
  - intros id v Hv. by eapply Hkn, (s_invitations _ _ Hs).
  - intros id u Hu. by eapply Hkn, (s_users _ _ Hs).
  - intros j d id v Hd Hv. destruct (s_dirty_invitations _ _ Hs _ _ _ _ (Hold _ _ Hd) Hv) as [?|[? ?]]; [left|right]; auto.
  - intros j d id u Hd Hu. destruct (s_dirty_users _ _ Hs _ _ _ _ (Hold _ _ Hd) Hu) as [?|[? Hev]]; [left; auto|right].
    split; [auto|]. destruct Hev as [Hev|?]; [left|by right]. rewrite events_of_snoc. by apply evidence_app.
  - intros j scope id u [Hx|[-> Hx]]%in_snoc.
    + destruct (s_seen _ _ Hs _ _ _ _ Hx) as [? [?|?]]; auto.
    + symmetry in Hx. destruct (Huser _ _ _ Hx) as [? Hv]. split; [done|].
      destruct (view_user _ _ _ _ _ Hs Hv) as [?|[? _]]; auto.
Qed.

(** Less under way, and nothing else. *)
Lemma sound_less s h s' : sound s h → db s' = db s → dirty s' ⊆ dirty s → drawn s' = drawn s → sound s' h.
Proof.
  intros Hs Hdb Hd Hdr. assert (∀ j d, dirty s' !! j = Some d → dirty s !! j = Some d) as Hold by (intros j d ?; by eapply lookup_weaken).
  assert (∀ id, known s h id → known s' h id) as Hkn by (intros id; unfold known; by rewrite Hdr).
  destruct Hs as [H1 H2 H3 H4 H5 H6 H7 H8 H9]. split; rewrite ?Hdb, ?Hdr.
  - intros j d ?. eapply H1; eauto.
  - intros j k d e ??. eapply H2; eauto.
  - done.
  - done.
  - intros id v ?. eapply Hkn, H5; eauto.
  - intros id u ?. eapply Hkn, H6; eauto.
  - intros j d id v Hj Hv. destruct (H7 j d id v (Hold _ _ Hj) Hv) as [?|[? ?]]; auto.
  - intros j d id u Hj Hv. destruct (H8 j d id u (Hold _ _ Hj) Hv) as [?|[? ?]]; auto.
  - intros j scope id u Hx. destruct (H9 _ _ _ _ Hx) as [? [?|?]]; auto.
Qed.

Lemma apart_sym d e : apart d e → apart e d.
Proof. intros (?&?&?&?). by split_and!. Qed.

Lemma apart_then d d' e : apart d e → apart d' e → apart (then_writes d d') e.
Proof. unfold apart, then_writes. cbn. rewrite !dom_union_L. set_solver. Qed.

Lemma apart_nothing e : apart nothing e.
Proof. unfold apart, nothing. cbn. rewrite !dom_empty_L. set_solver. Qed.

Lemma proved_evidence tr scope id old u : VUser scope id (Some old) ∈ tr → proved digest tr id old u →
  user_id u = user_id old ∧ evidence tr id.
Proof.
  intros Hu [(?&?&?&?&Hr&_&_&_&->)|[(?&?&[Hr|Hk]&_&->)|(sealed&c&Hs&->)]]; (split; [done|]).
  - by left.
  - right. by left.
  - right. right. left. by exists scope, old.
  - right. right. right. by exists sealed, c.
Qed.

Lemma stamped_id scope u : user_id (stamped scope u) = user_id u.
Proof. by destruct scope. Qed.

Lemma sound_write s h i st d n s' :
  sound s h → open (events_of i h) = true → may_write digest (events_of i h) st →
  affect st (view i s) = Some (d, n) → unlocked i d s = true → s' = write i d s →
  sound s' (h ++ [(i, VWrote st n, s')]).
Proof.
  intros Hs Ho [_ Hm] Ha Hun ->. apply bool_decide_eq_true in Hun. set (s' := write i d s). set (h' := h ++ _).
  assert (∀ id, known s h id → known s' h' id) as Hkn by (intros id Hk; by apply (known_snoc s)).
  assert (∀ j x, VDraw x ∈ events_of j h' ↔ VDraw x ∈ events_of j h) as Hdraw.
  { intros j x. unfold h'. rewrite in_snoc. naive_solver. }
  assert (∀ j e, dirty s' !! j = Some e → (j = i ∧ e = then_writes (wrote i s) d) ∨ (j ≠ i ∧ dirty s !! j = Some e)) as Hold.
  { intros j e. cbn. rewrite lookup_insert_Some. naive_solver. }
  assert (∀ j e, j ≠ i → dirty s !! j = Some e → apart (then_writes (wrote i s) d) e) as Hfree.
  { intros j e Hne Hj. apply apart_then; [|by destruct (Hun j e Hj)]. unfold wrote.
    destruct (dirty s !! i) as [di|] eqn:Hi; [by eapply (s_apart _ _ Hs)|apply apart_nothing]. }
  split.
  - intros j e Hj. unfold h'. rewrite events_of_snoc. unfold open in *. rewrite forallb_app.
    destruct (Hold _ _ Hj) as [[-> ->]|[Hne Hd]].
    + rewrite Ho. by rewrite bool_decide_eq_true_2.
    + rewrite bool_decide_eq_false_2 by done. pose proof (s_open _ _ Hs _ _ Hd) as Hop. unfold open in Hop. by rewrite Hop.
  - intros j k e f Hj Hk Hne. destruct (Hold _ _ Hj) as [[-> ->]|[? Hd]], (Hold _ _ Hk) as [[-> ->]|[? Hd']]; try done.
    + by eapply Hfree.
    + apply apart_sym. by eapply Hfree.
    + by eapply (s_apart _ _ Hs).
  - intros j x Hx%Hdraw. by eapply (s_drawn _ _ Hs).
  - intros j k x Hj%Hdraw Hk%Hdraw. by eapply (s_once _ _ Hs).
  - intros id v Hv. by eapply Hkn, (s_invitations _ _ Hs).
  - intros id u Hv. by eapply Hkn, (s_users _ _ Hs).
  - intros j e id v Hj Hv. rewrite Hdraw. destruct (Hold _ _ Hj) as [[-> ->]|[_ Hd]].
    + cbn in Hv. apply lookup_union_Some_raw in Hv as [Hv|[_ Hv]].
      * destruct (affect_invitations _ _ _ _ _ _ Ha Hv) as [?|[(v'&v0&[= <-]&Hc&Hv0)|(v'&->&->&[= <-])]]; [done| |].
        -- destruct (view_invitation _ _ _ _ _ Hs Hv0); auto.
        -- left. apply Hm.
      * unfold wrote in Hv. destruct (dirty s !! i) as [di|] eqn:Hi; cbn in Hv; [|by rewrite lookup_empty in Hv].
        destruct (s_dirty_invitations _ _ Hs _ _ _ _ Hi Hv) as [?|[? ?]]; auto.
    + destruct (s_dirty_invitations _ _ Hs _ _ _ _ Hd Hv) as [?|[? ?]]; auto.
  - assert (∀ j id u, VDraw id ∈ events_of j h ∨ (known s h id ∧ (evidence (events_of j h) id ∨
        ∃ u0, users (db s) !! id = Some u0 ∧ same_credentials u0 u)) →
      VDraw id ∈ events_of j h' ∨ (known s' h' id ∧ (evidence (events_of j h') id ∨
        ∃ u0, users (db s') !! id = Some u0 ∧ same_credentials u0 u))) as Hcarry.
    { intros j id u [?|[? [?|?]]]; rewrite Hdraw; auto. right. split; [auto|]. left. unfold h'. rewrite events_of_snoc.
      by apply evidence_app. }
    intros j e id u Hj Hu. apply Hcarry. destruct (Hold _ _ Hj) as [[-> ->]|[_ Hd]]; [|by eapply (s_dirty_users _ _ Hs)].
    cbn in Hu. apply lookup_union_Some_raw in Hu as [Hu|[_ Hu]].
    + destruct (affect_users _ _ _ _ _ _ Ha Hu) as [(scope&v&Hst&->&->)|(u0&Hu0&Hsame)].
      * destruct Hst as [-> | ->]; cbn in Hm; [|left; apply Hm].
        destruct Hm as [[? _]|(id0&old&Hsaw&_&Hp)]; [by left|].
        destruct (proved_evidence _ _ _ _ _ Hsaw Hp) as [-> Hev].
        destruct (s_seen _ _ Hs _ _ _ _ Hsaw) as [-> [?|?]]; [by left|right]. auto.
      * destruct (view_user _ _ _ _ _ Hs Hu0) as [?|[? [?|(u1&?&[? ?])]]]; [by left|right; auto|right].
        split; [done|]. right. exists u1. split; [done|]. destruct Hsame. split; by etrans.
    + unfold wrote in Hu. destruct (dirty s !! i) as [di|] eqn:Hi; cbn in Hu; [|by rewrite lookup_empty in Hu].
      by eapply (s_dirty_users _ _ Hs).
  - intros j scope id u [Hx|[_ ?]]%in_snoc; [|done]. destruct (s_seen _ _ Hs _ _ _ _ Hx) as [? [?|?]]; rewrite Hdraw; auto.
Qed.

Lemma sound_commit s h i ok s' : sound s h → open (events_of i h) = true → s' = commit i s →
  sound s' (h ++ [(i, VCommit ok, s')]).
Proof.
  intros Hs Ho ->. set (s' := commit i s). set (h' := h ++ _).
  assert (∀ id, known s h id → known s' h' id) as Hkn by (intros id Hk; by apply (known_snoc s)).
  assert (∀ j x, VDraw x ∈ events_of j h' ↔ VDraw x ∈ events_of j h) as Hdraw.
  { intros j x. unfold h'. rewrite in_snoc. naive_solver. }
  assert (∀ id, VDraw id ∈ events_of i h → known s' h' id) as Hmine.
  { intros id Hi. split; [by eapply (s_drawn _ _ Hs)|]. intros k Hk%Hdraw. rewrite (s_once _ _ Hs _ _ _ Hk Hi).
    unfold h'. rewrite events_of_snoc, bool_decide_eq_true_2 by done. unfold open. rewrite forallb_app.
    by rewrite andb_false_r. }
  assert (∀ j d, dirty s' !! j = Some d → j ≠ i ∧ dirty s !! j = Some d) as Hold.
  { intros j d Hj. cbn in Hj. apply lookup_delete_Some in Hj as [??]. auto. }
  split.
  - intros j d Hj. destruct (Hold _ _ Hj) as [Hne Hd]. unfold h'.
    rewrite events_of_snoc, bool_decide_eq_false_2, app_nil_r by done. by eapply (s_open _ _ Hs).
  - intros j k d e Hj Hk. destruct (Hold _ _ Hj), (Hold _ _ Hk). by eapply (s_apart _ _ Hs).
  - intros j x Hx%Hdraw. by eapply (s_drawn _ _ Hs).
  - intros j k x Hj%Hdraw Hk%Hdraw. by eapply (s_once _ _ Hs).
  - intros id v Hv. destruct (view_invitation _ _ _ _ _ Hs Hv); auto.
  - intros id u Hu. destruct (view_user _ _ _ _ _ Hs Hu) as [?|[? _]]; auto.
  - intros j d id v Hj Hv. rewrite Hdraw. destruct (Hold _ _ Hj) as [_ Hd].
    destruct (s_dirty_invitations _ _ Hs _ _ _ _ Hd Hv) as [?|[? ?]]; auto.
  - intros j d id u Hj Hu. rewrite Hdraw. destruct (Hold _ _ Hj) as [Hne Hd].
    destruct (s_dirty_users _ _ Hs _ _ _ _ Hd Hu) as [?|[? Hev]]; [by left|right]. split; [auto|].
    destruct Hev as [Hev|(u0&Hu0&?)].
    + left. unfold h'. rewrite events_of_snoc. by apply evidence_app.
    + right. exists u0. split; [|done]. unfold s', commit, view, wrote. cbn. rewrite over_lookup.
      destruct (dirty s !! i) as [di|] eqn:Hi; cbn; [|by rewrite lookup_empty].
      destruct (s_apart _ _ Hs _ _ _ _ Hd Hi Hne) as [Hap _].
      replace (w_users di !! id) with (None : option (option User)); [done|]. symmetry. apply not_elem_of_dom.
      intros Hin. apply (Hap id); [|done]. by apply elem_of_dom_2 in Hu.
  - intros j scope id u [Hx|[_ ?]]%in_snoc; [|done]. destruct (s_seen _ _ Hs _ _ _ _ Hx) as [? [?|?]]; rewrite Hdraw; auto.
Qed.

(** Events that say nothing of identifiers, accounts or the end. *)
Definition plain (e : aevent) : Prop :=
  match e with VDraw _ | VCommit _ | VUser _ _ (Some _) => False | _ => True end.

Lemma sound_plain s h i e s' : sound s h → plain e → db s' = db s → dirty s' = dirty s → drawn s' = drawn s →
  sound s' (h ++ [(i, e, s')]).
Proof.
  intros Hs He Hdb Hd Hdr. apply (sound_same s); [done|done|by rewrite Hd|by rewrite Hdr|by destruct e|..].
  - by intros x ->.
  - by intros scope id u ->.
Qed.

(** Every call keeps it. *)
Lemma sound_call s h i R (q : aeff R) r s' :
  sound s h → must digest (events_of i h) R q → answers i s R q r s' → sound s' (h ++ [(i, log R q r, s')]).
Proof.
  intros Hs [Ho Hm] Ha. destruct q; cbn [answers log] in *.
  all: try (apply (sound_plain s); [done|by destruct r| | |];
            by repeat match goal with H : _ ∧ _ |- _ => destruct H | H : _ ∨ _ |- _ => destruct H | H : ?x = _ |- _ => subst x end).
  - destruct Ha as [-> Hr]. destruct r as [|[u|]]; [by apply (sound_plain s)| |by apply (sound_plain s)].
    destruct Hr as [|[= Hu]]; [done|]. unfold find_user in Hu. symmetry in Hu.
    apply (sound_same s); [done|done|done|done|done|done|].
    intros scope' id' u' [= <- <- <-]. destruct (users _ !! id) as [v|] eqn:Hv; [|done].
    destruct (in_scope scope v); [|done]. cbn in Hu. case_bool_decide; [|done]. injection Hu as <-. by split.
  - destruct Ha as [[-> ->]|(d&n&Ha&Hun&->&->)]; [by apply (sound_plain s)|]. by eapply sound_write.
  - assert (s' = commit i s ∨ s' = rollback i s) as [-> | ->] by naive_solver; [by apply (sound_commit s)|].
    apply (sound_same s); [done|done|apply delete_subseteq|done| |done|done]. intros _. apply lookup_delete_eq.
  - destruct Ha as [Hr ->]. apply (sound_same s); [done|done|done| |done| |done].
    + cbn. set_solver.
    + intros x [= ->]. split; [done|]. cbn. set_solver.
Qed.
End Sound.

(** ** Links *)

Section Links.
Context (digest : string → string).
Abbreviation hist := (list (nat * aevent * wstate)).

Definition claimed (h : hist) (i : nat) (id : string) : Prop :=
  ∃ at_, VWrote (ConsumeInvitation id at_) 1 ∈ events_of i h.

Definition spent (o : option Invitation) : Prop := ∀ v, o = Some v → consumed_at v ≠ None.

(** A request that ended without a commit, or whose commit failed. *)
Definition gone (h : hist) (ended : nat → Prop) (i : nat) : Prop :=
  (VCommit true ∉ events_of i h) ∧ (ended i ∨ open (events_of i h) = false).

(** A claim is held by whoever made it until he is gone, or until the database shows it. *)
Record claims (s : wstate) (h : hist) (ended : nat → Prop) : Prop := {
  c_known : ∀ i id, claimed h i id → known s h id;
  c_held : ∀ i id, claimed h i id → gone h ended i ∨
    (∃ d o, dirty s !! i = Some d ∧ w_invitations d !! id = Some o ∧ spent o) ∨ spent (invitations (db s) !! id);
  c_once : ∀ i j id, claimed h i id → claimed h j id → ¬ gone h ended i → ¬ gone h ended j → i = j
}.

Lemma claims_ended s h (E E' : nat → Prop) : (∀ i, E i → E' i) → claims s h E → claims s h E'.
Proof.
  intros HE [H1 H2 H3]. assert (∀ i, gone h E i → gone h E' i) as Hg by (intros i [? [?|?]]; split; auto).
  split; [done| |].
  - intros i id Hc. destruct (H2 i id Hc) as [?|?]; auto.
  - intros i j id Hi Hj Hgi Hgj. eapply H3; eauto.
Qed.

Lemma claims_leave s h (E : nat → Prop) i : sound digest s h → E i → claims s h E → claims (rollback i s) h E.
Proof.
  intros Hs HE [H1 H2 H3]. split; [exact H1| |exact H3].
  intros j id Hc. destruct (H2 j id Hc) as [?|[(d&o&Hd&Ho&Hsp)|?]]; [by left| |by right; right].
  destruct (decide (j = i)) as [->|Hne].
  - left. split; [|by left]. intros Hin. pose proof (s_open _ _ _ Hs _ _ Hd) as Hop. unfold open in Hop.
    rewrite forallb_forall in Hop. by specialize (Hop _ (proj1 (list_elem_of_In _ _) Hin)).
  - right. left. exists d, o. split; [|done]. cbn. by rewrite lookup_delete_ne.
Qed.

(** What a request sees of a link in use is what the database holds, or is spent. *)
Lemma view_spent s h i id : sound digest s h → open (events_of i h) = true → known s h id →
  spent (invitations (db s) !! id) → spent (invitations (view i s) !! id).
Proof.
  intros Hs Ho Hk Hsp v. unfold view, wrote. cbn. rewrite over_lookup.
  destruct (dirty s !! i) as [d|] eqn:Hd; cbn; [destruct (w_invitations d !! id) as [o|] eqn:Hw|].
  - intros ->. destruct (s_dirty_invitations _ _ _ Hs _ _ _ _ Hd Hw) as [Hin|[? _]]; [|done].
    destruct Hk as [_ Hk]. rewrite (Hk _ Hin) in Ho. done.
  - apply Hsp.
  - rewrite lookup_empty. apply Hsp.
Qed.

Lemma open_no_commit tr ok : open tr = true → VCommit ok ∉ tr.
Proof.
  unfold open. rewrite forallb_forall. intros Ho Hin%list_elem_of_In. by specialize (Ho _ Hin).
Qed.

Lemma claims_plain s h E i e s' :
  claims s h E → db s' = db s → dirty s' = dirty s → drawn s ⊆ drawn s' → (∀ x, e = VDraw x → x ∉ drawn s) →
  (∀ st n, e ≠ VWrote st n) → (∀ ok, e ≠ VCommit ok) → claims s' (h ++ [(i, e, s')]) E.
Proof.
  intros [H1 H2 H3] Hdb Hd Hdr Hdraw Hw Hc. set (h' := h ++ _).
  assert (∀ j id, claimed h' j id → claimed h j id) as Hcl.
  { intros j id [at_ [?|[_ Hx]]%in_snoc]; [by exists at_|]. by destruct (Hw _ _ (eq_sym Hx)). }
  assert (∀ j, gone h' E j ↔ gone h E j) as Hg.
  { intros j. unfold gone, h'. rewrite in_snoc, events_of_snoc. unfold open. rewrite forallb_app.
    assert (open (if bool_decide (i = j) then [e] else []) = true) as Hop.
    { case_bool_decide; [|done]. destruct e; try done. by destruct (Hc ok). }
    unfold open in Hop. rewrite Hop, andb_true_r. specialize (Hc true). naive_solver. }
  split; rewrite ?Hdb, ?Hd.
  - intros j id Hj%Hcl. apply (known_snoc s); [by apply (H1 j)|done|done].
  - intros j id Hj%Hcl. rewrite Hg. by apply H2.
  - intros j k id Hj%Hcl Hk%Hcl. rewrite !Hg. by apply (H3 j k id).
Qed.

Definition mute (e : aevent) : Prop := match e with VDraw _ | VCommit _ | VWrote _ _ => False | _ => True end.

Lemma claims_mute s h E i e s' :
  claims s h E → mute e → db s' = db s → dirty s' = dirty s → drawn s' = drawn s → claims s' (h ++ [(i, e, s')]) E.
Proof.
  intros Hc He Hdb Hd Hdr. apply (claims_plain s); [done..|by rewrite Hdr| | |]; by intros * ->.
Qed.

Lemma consumed_row s h i id at_ d : sound digest s h → undrawn (events_of i h) = true →
  affect (ConsumeInvitation id at_) (view i s) = Some (d, 1) → known s h id ∧ ¬ spent (invitations (db s) !! id).
Proof.
  intros Hs Hun Ha. destruct (consume_hits _ _ _ _ Ha) as [(v&Hv&Hc) _].
  assert (VDraw id ∉ events_of i h) as Hno.
  { unfold undrawn in Hun. rewrite forallb_forall in Hun. intros Hin%list_elem_of_In. by specialize (Hun _ Hin). }
  destruct (view_invitation _ _ _ _ _ _ Hs Hv) as [?|Hk]; [done|]. split; [done|]. intros Hsp.
  unfold view, wrote in Hv. cbn in Hv. rewrite over_lookup in Hv.
  destruct (dirty s !! i) as [e|] eqn:Hd; cbn in Hv; [destruct (w_invitations e !! id) as [o|] eqn:Hw|].
  - subst o. by destruct (s_dirty_invitations _ _ _ Hs _ _ _ _ Hd Hw) as [?|[? _]].
  - by apply (Hsp v).
  - rewrite lookup_empty in Hv. by apply (Hsp v).
Qed.

Lemma claims_write s h E i st d n s' :
  sound digest s h → claims s h E → open (events_of i h) = true → may_write digest (events_of i h) st →
  affect st (view i s) = Some (d, n) → unlocked i d s = true → s' = write i d s →
  claims s' (h ++ [(i, VWrote st n, s')]) E.
Proof.
  intros Hs [H1 H2 H3] Ho [_ Hm] Ha Hun ->. apply bool_decide_eq_true in Hun. set (s' := write i d s). set (h' := h ++ _).
  assert (∀ j id, claimed h' j id → claimed h j id ∨ (j = i ∧ ∃ at_, st = ConsumeInvitation id at_ ∧ n = 1)) as Hcl.
  { intros j id [at_ [?|[-> Hx]]%in_snoc]; [left; by exists at_|]. right. injection Hx as Hst Hn. split; [done|]. exists at_. by split. }
  assert (∀ j, gone h' E j ↔ gone h E j) as Hg.
  { intros j. unfold gone, h'. rewrite in_snoc, events_of_snoc. unfold open. rewrite forallb_app.
    case_bool_decide; cbn; rewrite andb_true_r; naive_solver. }
  assert (∀ id, known s h id → known s' h' id) as Hkn by (intros id Hk; by apply (known_snoc s)).
  assert (∀ j id, j ≠ i → claimed h j id → ¬ gone h E j → spent (invitations (db s) !! id) ∨ w_invitations d !! id = None) as Hother.
  { intros j id Hne Hj Hgj. destruct (H2 j id Hj) as [?|[(e&o&He&Hw&_)|?]]; [done| |by left]. right.
    destruct (Hun j e He) as [?|(_&Hap&_)]; [done|]. apply not_elem_of_dom. intros Hin. apply (Hap id Hin).
    by apply elem_of_dom_2 in Hw. }
  split.
  - intros j id [Hj|[-> (at_&->&->)]]%Hcl; [by apply Hkn, (H1 j)|]. apply Hkn. by eapply consumed_row; [|apply Hm|].
  - intros j id Hj%Hcl. rewrite Hg. destruct Hj as [Hj|[-> (at_&->&->)]].
    + destruct (H2 j id Hj) as [?|[(e&o&He&Hw&Hsp)|?]]; [by left| |by right; right]. right.
      destruct (decide (j = i)) as [->|Hne]; [|left; exists e, o; split; [|done]; cbn; by rewrite lookup_insert_ne].
      left. exists (then_writes (wrote i s) d). unfold s', write, set_dirty. cbn [dirty]. rewrite lookup_insert_eq.
      unfold wrote. rewrite He. cbn [default from_option]. unfold then_writes. cbn [w_invitations].
      destruct (w_invitations d !! id) as [o'|] eqn:Hd.
      * exists o'. split; [done|]. split; [by apply lookup_union_Some_l|].
        destruct (affect_invitations _ _ _ _ _ _ Ha Hd) as [->|[(v&v0&->&Hc&_)|(v&->&->&->)]].
        -- by intros ?.
        -- by intros ? [= <-].
        -- destruct (H1 _ _ Hj) as [_ Hk]. cbn in Hm. rewrite (Hk i) in Ho; [done|]. apply Hm.
      * exists o. split; [done|]. split; [|done]. by rewrite lookup_union_r.
    + right. left. destruct (consume_hits _ _ _ _ Ha) as [_ (v&Hv&Hc)]. eexists _, (Some v).
      unfold s', write, set_dirty. cbn [dirty]. rewrite lookup_insert_eq. split; [done|]. cbn.
      split; [by apply lookup_union_Some_l|]. by intros ? [= <-].
  - assert (∀ j id at_, st = ConsumeInvitation id at_ → n = 1 → claimed h j id → ¬ gone h E j → j = i) as Hnew.
    { intros j id at_ -> -> Hj Hgj. destruct (decide (j = i)) as [|Hne]; [done|exfalso].
      destruct (consumed_row _ _ _ _ _ _ Hs (proj1 Hm) Ha) as [_ Hns]. destruct (consume_hits _ _ _ _ Ha) as [_ (v&Hv&_)].
      destruct (Hother j id Hne Hj Hgj) as [?|Hno]; [done|]. by rewrite Hno in Hv. }
    intros j k id Hj%Hcl Hk%Hcl. rewrite !Hg. intros Hgj Hgk.
    destruct Hj as [Hj|[-> (at_&?&?)]], Hk as [Hk|[-> (at2&?&?)]]; [by eapply H3|by eapply Hnew|symmetry; by eapply Hnew|done].
Qed.

Lemma claims_end s h E i ok s' :
  sound digest s h → claims s h E → open (events_of i h) = true → ¬ E i →
  (s' = commit i s ∨ (s' = rollback i s ∧ ok = false)) → claims s' (h ++ [(i, VCommit ok, s')]) E.
Proof.
  intros Hs [H1 H2 H3] Ho HE Hs'. set (h' := h ++ _).
  assert (∀ j id, claimed h' j id → claimed h j id) as Hcl.
  { intros j id [at_ [?|[_ Hx]]%in_snoc]; [by exists at_|done]. }
  assert (∀ j, j ≠ i → gone h' E j ↔ gone h E j) as Hg.
  { intros j Hne. unfold gone, h'. rewrite in_snoc, events_of_snoc, bool_decide_eq_false_2, app_nil_r by done. naive_solver. }
  assert (¬ gone h E i) as Hi by (intros [_ [?|Hop]]; [done|by rewrite Hop in Ho]).
  assert (ok = false → gone h' E i) as Hi'.
  { intros ->. split; [unfold h'; rewrite in_snoc; intros [?|[_ ?]]; [by eapply open_no_commit|done]|]. right.
    unfold h'. rewrite events_of_snoc, bool_decide_eq_true_2 by done. unfold open. rewrite forallb_app. apply andb_false_r. }
  assert (drawn s' = drawn s) as Hdr by (by destruct Hs' as [->|[-> _]]).
  assert (∀ j d, j ≠ i → dirty s !! j = Some d → dirty s' !! j = Some d) as Hdirty.
  { intros j d Hne Hd. destruct Hs' as [->|[-> _]]; cbn; by rewrite lookup_delete_ne. }
  assert (∀ id, known s h id → spent (invitations (db s) !! id) → spent (invitations (db s') !! id)) as Hsp.
  { intros id Hk Hsp. destruct Hs' as [->|[-> _]]; [by apply (view_spent s h)|done]. }
  split.
  - intros j id Hj%Hcl. apply (known_snoc s); [by apply (H1 j)|by rewrite Hdr|done].
  - intros j id Hj%Hcl. destruct (decide (j = i)) as [->|Hne].
    + destruct Hs' as [->|[-> ->]]; [|left; by apply Hi']. right. right.
      destruct (H2 i id Hj) as [?|[(d&o&Hd&Hw&Ho')|?]]; [done| |by apply Hsp; [apply (H1 i)|]].
      unfold commit, view, wrote. cbn. rewrite over_lookup, Hd. cbn. by rewrite Hw.
    + rewrite Hg by done. destruct (H2 j id Hj) as [?|[(d&o&Hd&Hw&Ho')|?]]; [by left| |].
      * right. left. exists d, o. split; [by apply Hdirty|done].
      * right. right. apply Hsp; [by apply (H1 j)|done].
  - intros j k id Hj%Hcl Hk%Hcl Hgj Hgk. apply (H3 j k id); [done|done| |].
    + destruct (decide (j = i)) as [->|Hne]; [done|by rewrite <- Hg].
    + destruct (decide (k = i)) as [->|Hne]; [done|by rewrite <- Hg].
Qed.
End Links.

Section Theory.
Context (digest normal : string → string) (ttl : Z).
Definition reachable (w : aworld) : Prop :=
  ∃ s, starts s ∧ rtc (step log answers rollback (served digest normal ttl) passes) (idle s) w.

Lemma answers_allowed i s R (q : aeff R) r s' tr : answers i s R q r s' → may tr R q r.
Proof.
  destruct q; simpl; try done.
  - intros [_ ->]. case_bool_decide; [done|done].
  - intros [_ [->| ->]]; [done|]. unfold find_user. destruct (users _ !! id) as [u|]; [|done].
    destruct (in_scope scope u) eqn:?; [|done]. by case_bool_decide.
Qed.

Lemma sound_rollback s h i : sound digest s h → sound digest (rollback i s) h.
Proof. intros Hs. apply (sound_less _ s); [done|done|apply delete_subseteq|done]. Qed.

Lemma sound_passes s s' h : passes s s' → sound digest s h → sound digest s' h.
Proof. intros [_ Hdb Hd _ Hdr] Hs. apply (sound_less _ s); [done|done|by rewrite Hd|done]. Qed.

Lemma reachable_sound w : reachable w → sound digest (state w) (history w).
Proof.
  intros (s&Hs&Hr). eapply (history_invariant log answers rollback (served digest normal ttl) passes may (must digest)
    answers_allowed (account_requests_ok digest normal ttl) (sound digest)); [by apply sound_start| | | |exact Hr].
  - intros. by eapply sound_call.
  - intros. by apply sound_rollback.
  - intros. by eapply sound_passes.
Qed.

Lemma reachable_orderly w : reachable w → orderly log may (must digest) w.
Proof.
  intros (s&Hs&Hr). by eapply (steps_orderly log answers rollback (served digest normal ttl) passes may (must digest)
    answers_allowed (account_requests_ok digest normal ttl)).
Qed.

(** Only a commit changes the database. *)
Lemma answers_db i s R (q : aeff R) r s' : answers i s R q r s' →
  db s' = db s ∨ ∃ ok, log R q r = VCommit ok ∧ s' = commit i s.
Proof.
  intros Ha. destruct q; cbn in Ha; repeat match goal with
    | H : _ ∧ _ |- _ => destruct H | H : _ ∨ _ |- _ => destruct H | H : ∃ _, _ |- _ => destruct H
    | H : ?x = _ |- _ => subst x end; try (by left); right; by eexists.
Qed.

(** C8: credentials change only by proof.  Whatever requests are under way, the password
    or the second factor of an account in the database changes only when a request
    commits that redeemed a link of that account which was usable, or verified the
    account's own password, or verified a one-time code against the secret held for that
    account. *)
Theorem credentials_change_only_by_proof w w' id u u' :
  reachable w → step log answers rollback (served digest normal ttl) passes w w' →
  users (db (state w)) !! id = Some u → users (db (state w')) !! id = Some u' → ¬ same_credentials u u' →
  ∃ i ok s, history w' = history w ++ [(i, VCommit ok, s)] ∧ evidence digest (events_of i (history w)) id.
Proof.
  intros Hr Hs Hu Hu' Hne. pose proof (reachable_sound _ Hr) as Hw. pose proof (reachable_orderly _ Hr) as Ho.
  assert (db (state w') = db (state w) → False) as Hsame.
  { intros Hdb. rewrite Hdb in Hu'. apply Hne. rewrite Hu in Hu'. injection Hu' as <-. by split. }
  destruct Hs as [i t R q k r s' w Hi Hp Ha|i t e w Hi|p w Hp|s' w He]; cbn [state history] in *.
  2,3: by destruct (Hsame eq_refl).
  2: by destruct Hsame; destruct He.
  assert (db (after_call rollback i (k r) s') = db s') as Hdb by (unfold after_call; by case_match).
  rewrite Hdb in Hu', Hsame. destruct (orderly_must _ _ _ _ _ _ _ _ _ Ho Hi Hp) as [[Hop _] _].
  rewrite (o_log _ _ _ _ Ho _ _ Hi) in Hop.
  destruct (answers_db _ _ _ _ _ _ Ha) as [?|(ok&->& ->)]; [done|].
  exists i, ok, (commit i (state w)). split; [done|].
  destruct (view_user _ _ _ i _ _ Hw Hu') as [Hd|[Hk [Hev|(u0&Hu0&Hs0)]]]; [|done|].
  - destruct (s_users _ _ _ Hw _ _ Hu) as [_ Hcl]. specialize (Hcl _ Hd). congruence.
  - destruct Hne. rewrite Hu in Hu0. by injection Hu0 as <-.
Qed.

(** ** Links *)

Definition ended (w : aworld) (i : nat) : Prop :=
  match tasks w !! i with Some t => finished (program t) = true | None => False end.

Lemma claims_call (w : aworld) i t R (q : aeff R) k r s' E :
  sound digest (state w) (history w) → claims (state w) (history w) E → orderly log may (must digest) w →
  tasks w !! i = Some t → program t = Ask q k → answers i (state w) R q r s' → ¬ E i →
  claims s' (history w ++ [(i, log R q r, s')]) E.
Proof.
  intros Hs Hc Ho Hi Hp Ha HE. destruct (orderly_must _ _ _ _ _ _ _ _ _ Ho Hi Hp) as [[Hop Hm] _].
  rewrite (o_log _ _ _ _ Ho _ _ Hi) in Hop, Hm. destruct q; cbn [answers log] in *.
  all: try (apply (claims_mute (state w)); [done|by destruct r| | |];
            by repeat match goal with H : _ ∧ _ |- _ => destruct H | H : _ ∨ _ |- _ => destruct H | H : ?x = _ |- _ => subst x end).
  - destruct Ha as [[-> ->]|(d&n&Ha&Hun&->&->)]; [by apply (claims_mute (state w))|]. by eapply claims_write.
  - apply (claims_end digest (state w)); [done|done|done|done|]. destruct Ha as [[-> ->]|[-> [->| ->]]]; auto.
  - destruct Ha as [Hr ->]. apply (claims_plain (state w)); [done|done|done|cbn; set_solver| |done|done].
    by intros x [= ->].
Qed.

Lemma reachable_claims w : reachable w → claims (state w) (history w) (ended w).
Proof.
  intros (s&Hs&Hr). refine (proj2 (steps_ind log answers rollback (served digest normal ttl) passes may (must digest)
    answers_allowed (account_requests_ok digest normal ttl) (λ w, claims (state w) (history w) (ended w)) s w _ _ Hr)).
  { assert (∀ i e, e ∉ events_of i ([] : list (nat * aevent * wstate))) as Hno by (intros i e; apply not_elem_of_nil).
    split; intros i; [intros id [at_ Hx%Hno]|intros id [at_ Hx%Hno]|intros j id [at_ Hx%Hno]]; done. }
  clear w Hr. intros w w' Hr Ho Hst Hc. assert (sound digest (state w) (history w)) as Hw by (apply reachable_sound; by exists s).
  destruct Hst as [i t R q k r s' w Hi Hp Ha|i t e w Hi|p w Hp|s' w He]; cbn [state history tasks].
  - assert (¬ ended w i) as HE by (unfold ended; by rewrite Hi, Hp).
    pose proof (claims_call w i t R q k r s' _ Hw Hc Ho Hi Hp Ha HE) as Hc'.
    assert (sound digest s' (history w ++ [(i, log R q r, s')])) as Hw'.
    { apply (sound_call _ (state w)); [done| |done]. rewrite <- (o_log _ _ _ _ Ho _ _ Hi). by eapply orderly_must. }
    assert (∀ j t', tasks w !! i = Some t → ended w j → ended (mk_world s' (<[i := t']> (tasks w)) []) j) as Hmono.
    { intros j t' _ Hj. unfold ended in *. cbn [tasks]. destruct (decide (j = i)) as [->|Hne]; [done|].
      by rewrite list_lookup_insert_ne. }
    apply (claims_ended _ _ _ (ended (mk_world s' (<[i := mk_task (learnt t ++ [log R q r]) (k r)]> (tasks w)) []))) in Hc';
      [|intros j; by apply Hmono].
    unfold after_call. destruct (finished (k r)) eqn:Hf; [|exact Hc'].
    apply (claims_leave digest); [done| |exact Hc']. unfold ended. cbn [tasks]. rewrite list_lookup_insert_eq; [done|by eapply lookup_lt_Some].
  - apply (claims_leave digest); [done| |].
    + unfold ended. cbn [tasks]. rewrite list_lookup_insert_eq; [done|by eapply lookup_lt_Some].
    + apply (claims_ended _ _ (ended w)); [|done]. intros j. unfold ended. cbn [tasks].
      destruct (decide (j = i)) as [->|Hne]; [|by rewrite list_lookup_insert_ne].
      rewrite list_lookup_insert_eq; [done|by eapply lookup_lt_Some].
  - apply (claims_ended _ _ (ended w)); [|done]. intros j. unfold ended. cbn [tasks].
    destruct (tasks w !! j) eqn:Hj; [|done]. by rewrite (lookup_app_l_Some _ _ _ _ Hj).
  - destruct He as [_ Hdb Hd _ Hdr]. destruct Hc as [H1 H2 H3]. split; rewrite ?Hdb, ?Hd; [|done|done].
    intros i id Hi. unfold known. rewrite Hdr. by apply (H1 i).
Qed.

(** C9: a link is redeemed at most once.  However many requests present one link, however
    they are interleaved with each other, with links being issued again and with accounts
    being deleted, at most one request that claimed it commits. *)
Theorem a_link_is_redeemed_at_most_once w i j id :
  reachable w → claimed (history w) i id → claimed (history w) j id →
  VCommit true ∈ events_of i (history w) → VCommit true ∈ events_of j (history w) → i = j.
Proof.
  intros Hr Hi Hj Hci Hcj. apply (c_once _ _ _ (reachable_claims _ Hr) i j id Hi Hj); by intros [? _].
Qed.
End Theory.

(** * Runs *)

Module Play.
Definition hashed (p : string) : string := ("#" ++ p)%string.

Definition first_of {A} (m : gmap string A) (P : A → bool) : option A :=
  match map_to_list (hit (λ _, P) m) with [] => None | (_, x) :: _ => Some x end.

Lemma first_of_found {A} (m : gmap string A) P : found m P (first_of m P).
Proof.
  unfold first_of. destruct (map_to_list (hit _ _)) as [|[k x] l] eqn:Hl; cbn.
  - intros k x Hx. apply map_to_list_empty_iff in Hl. destruct (P x) eqn:HP; [|done].
    assert (hit (λ _, P) m !! k = Some x) as Hh by by apply hit_Some. by rewrite Hl, lookup_empty in Hh.
  - assert ((k, x) ∈ map_to_list (hit (λ _, P) m)) as Hin by (rewrite Hl; by left).
    apply elem_of_map_to_list, hit_Some in Hin as [Hm HP]. split; [done|by exists k].
Qed.

Definition reply (i : nat) (s : wstate) (R : Type) (q : aeff R) : option (R * wstate) :=
  match q in aeff R return option (R * wstate) with
  | ARequire a sc => Some (if bool_decide (sc ∈ scopes a) then inr tt else inl NotAuthorized, s)
  | AUser scope id => Some (inr (find_user (view i s) scope id), s)
  | ALogin l => Some (inr (first_of (users (view i s)) (λ u, bool_decide (login u = l))), s)
  | AList scope => Some (inr (hit (λ _, in_scope scope) (users (view i s))), s)
  | ACount scope admins => Some (inr (count_where (if admins then enabled_admin scope else in_scope scope) (view i s)), s)
  | AToken hash => Some (inr (first_of (invitations (view i s)) (λ v, bool_decide (token_hash v = hash))), s)
  | AWrite st =>
      match affect st (view i s) with
      | Some (d, n) => if unlocked i d s then Some (inr n, write i d s) else None
      | None => Some (inl BackendError, s)
      end
  | ADeleteKeys _ _ => Some (inr tt, s)
  | ATenant _ => Some (inr false, s)
  | ASaveTenant _ _ => Some (inr tt, s)
  | ACommit => Some (inr tt, commit i s)
  | APendingSet user sealed => Some (inr tt, set_pending (<[user := sealed]> (pending s)) s)
  | APendingGet user => Some (inr (pending s !! user), s)
  | APendingDelete user => Some (inr tt, set_pending (delete user (pending s)) s)
  | AInvalidateAll _ _ => Some (inr tt, s)
  | AInvalidateOthers _ _ _ => Some (inr tt, s)
  | APolicy _ => Some (inr tt, s)
  | AHash p => Some (inr (hashed p), s)
  | AVerify presented stored => Some (inr (bool_decide (stored = hashed presented)), s)
  | ATotpSecret => Some ("seed", s)
  | ATotpVerify _ _ => Some (inr 7%Z, s)
  | ASeal secret => Some (inr secret, s)
  | AOpen sealed => Some (inr sealed, s)
  | ADraw =>
      let x := ("x" ++ pretty (size (drawn s)))%string in
      if bool_decide (x ∈ drawn s) then None else Some (x, add_drawn x s)
  | ANow => Some (clk s, s)
  | AAudit _ _ => Some (tt, s)
  end.

Lemma reply_allowed i s R q r s' : reply i s R q = Some (r, s') → answers i s R q r s'.
Proof.
  intros Hr. destruct q; cbn in *; repeat case_match; simplify_eq; eauto using first_of_found.
  - right. eexists _, _. by split_and!.
  - by left.
  - split; [by eapply bool_decide_eq_false_1|done].
Qed.

Abbreviation amove := (move aeff aexn wstate).
Definition same_hash (s : string) : string := s.
Definition acts (ms : list amove) (s : wstate) : option aworld := play log rollback reply (idle s) ms.
Definition runs (s : wstate) (ms : list amove) : aworld := default (idle s) (acts ms s).
Abbreviation allowed_here := (allowed (served same_hash same_hash 1000) passes).

Lemma runs_reachable s ms : starts s → Forall allowed_here ms → reachable same_hash same_hash 1000 (runs s ms).
Proof.
  intros Hs Hms. exists s. split; [done|]. unfold runs. destruct (acts ms s) as [w|] eqn:Hw; [|apply rtc_refl].
  by eapply (schedule_steps log answers rollback (served same_hash same_hash 1000) passes reply reply_allowed).
Qed.

(** Two administrators of one tenant, and somebody with a password. *)
Definition account (id : string) (r : Role) (secret : option string) : User :=
  mk_user id id id r "t" None (hashed <$> secret) secret None None None.
Definition actor (id : string) (r : Role) : Actor := mk_actor id id r local (scopes_for r) "t" None None None true None.
Definition team : wstate :=
  mk_state 0 (mk_tables (list_to_map [("ada", account "ada" ADMIN None); ("eve", account "eve" ADMIN None);
                                      ("bob", account "bob" USER (Some "old"))]) ∅ ∅)
    ∅ ∅ {["ada"; "eve"; "bob"]}.

Lemma team_starts : starts team.
Proof.
  split; [done| |].
  - intros id u Hu. apply elem_of_list_to_map_2 in Hu. repeat apply elem_of_cons in Hu as [Hu|Hu];
      [injection Hu as -> ->; split; [set_solver|done]..|by apply not_elem_of_nil in Hu].
  - intros id v Hv. cbn in Hv. by rewrite lookup_empty in Hv.
Qed.

(** The n-th call of a run. *)
Definition nth_call (w : aworld) (n : nat) : nat * aevent * wstate := default (0, VFree, team) (history w !! n).

Lemma split_nth w n : (n <? length (history w)) = true →
  history w = take n (history w) ++ nth_call w n :: drop (S n) (history w).
Proof.
  intros Hn%Nat.ltb_lt. destruct (lookup_lt_is_Some_2 _ _ Hn) as [x Hx]. symmetry. apply take_drop_middle.
  unfold nth_call. by rewrite Hx.
Qed.

(** A run of one request from its first call to its n-th. *)
Lemma split_run w n i e : (nth_call w 0).1.1 = i → (nth_call w (S n)).1 = (i, e) → (S n <? length (history w)) = true →
  history w = [] ++ (i, (nth_call w 0).1.2, (nth_call w 0).2) :: take n (drop 1 (history w)) ++
                (i, e, (nth_call w (S n)).2) :: drop (S (S n)) (history w).
Proof.
  intros <- He Hn. pose proof (split_nth w (S n) Hn) as Hl. unfold nth_call in *.
  destruct (history w) as [|[[j e0] s0] h]; [done|]. simpl in *. rewrite drop_0. rewrite Hl at 1. f_equal. f_equal.
  f_equal. destruct (default _ (h !! n)) as [y s]. simpl in *. by subst.
Qed.

Lemma split_call w n i e : (nth_call w n).1 = (i, e) → (n <? length (history w)) = true →
  history w = take n (history w) ++ (i, e, (nth_call w n).2) :: drop (S n) (history w).
Proof.
  intros <- Hn. rewrite (split_nth w n Hn) at 1. by destruct (nth_call w n).
Qed.

Definition changes_password (who old new : string) : amove :=
  Serve (request (ManageOwnAccount.change_password (Some "t") (actor who USER) "session" old new)).
Definition invites (who whom : string) : amove :=
  Serve (request (IssueInvitation.create_account same_hash 1000 (Some "t") (actor who ADMIN) whom whom USER None "t")).
Definition opens (token : string) : amove := Serve (request (AcceptInvitation.begin same_hash token)).
Definition accepts (token password : string) : amove :=
  Serve (request (AcceptInvitation.complete same_hash same_hash token password "123456")).

Lemma changes_allowed a o n : allowed_here (changes_password a o n).
Proof. apply serve_password. Qed.
Lemma invites_allowed a b : allowed_here (invites a b).
Proof. apply serve_create. Qed.
Lemma opens_allowed a : allowed_here (opens a).
Proof. apply serve_begin. Qed.
Lemma accepts_allowed a b : allowed_here (accepts a b).
Proof. apply serve_complete. Qed.

Definition own_change (n : nat) : list amove := [changes_password "bob" "old" "new"; Go 0 n].
Lemma own_change_allowed n : Forall allowed_here (own_change n).
Proof. apply Forall_cons; split; [apply changes_allowed|]. by apply Forall_singleton. Qed.

Lemma credentials_change_only_by_proof_witness :
  ∃ i ok s, history (runs team (own_change 9)) = history (runs team (own_change 8)) ++ [(i, VCommit ok, s)] ∧
    evidence same_hash (events_of i (history (runs team (own_change 8)))) "bob".
Proof.
  apply (credentials_change_only_by_proof same_hash same_hash 1000 (runs team (own_change 8)) (runs team (own_change 9))
           "bob" (account "bob" USER (Some "old")) (set_password (hashed "new") (account "bob" USER (Some "old")))).
  - apply runs_reachable; [exact team_starts|apply own_change_allowed].
  - apply (turn_step log answers rollback (served same_hash same_hash 1000) passes reply reply_allowed _ 0). vm_compute. reflexivity.
  - vm_compute. reflexivity.
  - vm_compute. reflexivity.
  - intros [Hp _]. vm_compute in Hp. discriminate.
Defined.
(** Two people hold one link; both pass every check before either claims it. *)
Definition race : list amove :=
  [invites "ada" "carol"; Go 0 12; opens "x4"; Go 1 8; accepts "x4" "mine"; accepts "x4" "yours"; Go 2 8; Go 3 8; Go 2 30; Go 3 1].
Lemma race_allowed : Forall allowed_here race.
Proof.
  repeat (apply Forall_cons; split; [first [exact I|apply invites_allowed|apply opens_allowed|apply accepts_allowed]|]). done.
Qed.

Definition is_claim (id : string) (e : aevent) : bool :=
  match e with VWrote (ConsumeInvitation id' _) n => bool_decide (id' = id) && bool_decide (n = 1) | _ => false end.
Definition is_commit (e : aevent) : bool := match e with VCommit true => true | _ => false end.

Lemma claimed_check (h : list (nat * aevent * wstate)) i id : existsb (is_claim id) (events_of i h) = true → claimed h i id.
Proof.
  intros (e&Hin&He)%existsb_exists. apply list_elem_of_In in Hin. destruct e as [| | | |st n| | | | | | | | | | |]; try done.
  destruct st; try done. cbn in He. apply andb_true_iff in He as [->%bool_decide_eq_true ->%bool_decide_eq_true]. by eexists.
Qed.

Lemma commit_check (h : list (nat * aevent * wstate)) i : existsb is_commit (events_of i h) = true → VCommit true ∈ events_of i h.
Proof. intros (e&Hin&He)%existsb_exists. apply list_elem_of_In in Hin. by destruct e as [| | | | |[]| | | | | | | | | |]. Qed.

(** The link of the race was claimed, its claim committed, and the other request has ended. *)
Lemma a_link_is_redeemed_at_most_once_witness : 2 = 2 ∧ existsb (is_claim "x5") (events_of 3 (history (runs team race))) = false.
Proof.
  split; [|vm_compute; reflexivity].
  apply (a_link_is_redeemed_at_most_once same_hash same_hash 1000 (runs team race) 2 2 "x5").
  - apply runs_reachable; [exact team_starts|exact race_allowed].
  - apply claimed_check. vm_compute. reflexivity.
  - apply claimed_check. vm_compute. reflexivity.
  - apply commit_check. vm_compute. reflexivity.
  - apply commit_check. vm_compute. reflexivity.
Defined.
End Play.
