(* ===== verification/Administrators.v ===== *)
(** Who manages the accounts: what protects the last enabled administrator of a tenant,
    what does not, and runs of the requests of [AccountWorlds]. *)

From S2P Require Import Actors.
From S2P Require Export AccountWorlds.

(** * Counting *)

Definition admins (t : string) (tb : tables) : nat := count_where (enabled_admin (Some t)) tb.

Lemma hit_dom {A} (P : A → bool) (m m' : gmap string A) (id : string) :
  (∀ k, k ≠ id → m' !! k = m !! k) → dom (hit (λ _, P) m) ⊆ {[id]} ∪ dom (hit (λ _, P) m').
Proof.
  intros Hsame k [u Hu]%elem_of_dom. apply hit_Some in Hu as [Hu HP]. destruct (decide (k = id)) as [->|Hne]; [set_solver|].
  apply elem_of_union. right. apply elem_of_dom. exists u. apply hit_Some. by rewrite Hsame.
Qed.

(** One row changes: at most one is lost, *)
Lemma count_drop P t t' id : (∀ k, k ≠ id → users t' !! k = users t !! k) → count_where P t ≤ S (count_where P t').
Proof.
  intros Hsame. unfold count_where. rewrite <- !(size_dom (D := gset string)).
  pose proof (subseteq_size _ _ (hit_dom P _ _ id Hsame)) as Hsub. rewrite size_union_alt, size_singleton in Hsub.
  assert (size (dom (hit (λ _, P) (users t')) ∖ {[id]} : gset string) ≤ size (dom (hit (λ _, P) (users t')) : gset string)) as Hle.
  { apply subseteq_size. set_solver. }
  lia.
Qed.

(** and none if the row counts afterwards as before. *)
Lemma count_keep P t t' id : (∀ k, k ≠ id → users t' !! k = users t !! k) →
  (∀ u, users t !! id = Some u → P u = true → ∃ u', users t' !! id = Some u' ∧ P u' = true) →
  count_where P t ≤ count_where P t'.
Proof.
  intros Hsame Hid. unfold count_where. rewrite <- !(size_dom (D := gset string)). apply subseteq_size.
  intros k [u Hu]%elem_of_dom. apply hit_Some in Hu as [Hu HP]. apply elem_of_dom.
  destruct (decide (k = id)) as [->|Hne].
  - destruct (Hid u Hu HP) as (u'&?&?). exists u'. by apply hit_Some.
  - exists u. apply hit_Some. by rewrite Hsame.
Qed.

(** The row a statement is about. *)
Definition target (st : stmt) : string :=
  match st with
  | SaveUser _ u | InsertUser _ u => user_id u
  | AdvanceCounter _ id _ | SetDisabled _ id _ | UpdateProfile _ id _ _ | SetDebug _ id _ | DeleteUser _ id => id
  | _ => ""
  end.

Lemma affect_one st t d n k : affect st t = Some (d, n) → k ≠ target st → w_users d !! k = None.
Proof.
  intros Ha Hk. destruct st; affected Ha; cbn in *; try apply lookup_empty.
  1,2: rewrite stamped_id; by apply lookup_singleton_ne.
  all: rewrite lookup_fmap; apply fmap_None; destruct (hit _ _ !! k) eqn:Hh; [|done];
    apply hit_Some in Hh as (_&Hh); repeat apply andb_true_iff in Hh as [Hh _]; by apply bool_decide_eq_true in Hh.
Qed.

Lemma affect_none st t d n : affect st t = Some (d, n) → touches_users st = false → w_users d = ∅.
Proof. intros Ha Ht. by destruct st; affected Ha. Qed.

(** What becomes of the row. *)
Definition becomes (st : stmt) (u : User) : option User :=
  match st with
  | SaveUser scope v => Some (stamped scope v)
  | InsertUser _ _ => Some u
  | AdvanceCounter scope _ c =>
      Some (if in_scope scope u && match totp_last_counter u with Some c' => bool_decide (c' < c)%Z | None => true end
            then set_counter c u else u)
  | SetDisabled scope _ at_ => Some (if in_scope scope u then set_disabled_at at_ u else u)
  | UpdateProfile scope _ name r => Some (if in_scope scope u then set_profile name r u else u)
  | SetDebug scope _ until => Some (if in_scope scope u && bool_decide (disabled_at u = None) then set_debug until u else u)
  | DeleteUser scope _ => if in_scope scope u then None else Some u
  | _ => Some u
  end.

Lemma row_of_hit (sel : string → User → bool) (f : User → option User) m id u : m !! id = Some u →
  over (f <$> hit sel m) m !! id = if sel id u then f u else Some u.
Proof.
  intros Hu. rewrite over_lookup, lookup_fmap. destruct (sel id u) eqn:Hs.
  - assert (hit sel m !! id = Some u) as -> by by apply hit_Some. done.
  - assert (hit sel m !! id = None) as ->; [|done]. destruct (hit sel m !! id) as [v|] eqn:Hv; [|done].
    apply hit_Some in Hv as [Hv ?]. rewrite Hu in Hv. injection Hv as <-. congruence.
Qed.

Lemma affect_row st t d n u : affect st t = Some (d, n) → users t !! target st = Some u → touches_users st = true →
  over (w_users d) (users t) !! target st = becomes st u.
Proof.
  intros Ha Hu Ht. destruct st; try done; affected Ha; cbn [w_users write_users target becomes] in *.
  - rewrite over_lookup, stamped_id, lookup_singleton_eq. done.
  - exfalso. rewrite stamped_id, Hu in *. match goal with H : _ || _ = false |- _ => apply orb_false_iff in H as [_ H] end.
    rewrite bool_decide_eq_false in *. eauto.
  - rewrite over_lookup. cbn. by rewrite lookup_empty.
  - rewrite (row_of_hit _ _ _ _ _ Hu), bool_decide_eq_true_2 by done. cbn. by case_match.
  - rewrite (row_of_hit _ _ _ _ _ Hu), bool_decide_eq_true_2 by done. cbn. by case_match.
  - rewrite (row_of_hit _ _ _ _ _ Hu), bool_decide_eq_true_2 by done. cbn. by case_match.
  - rewrite (row_of_hit _ _ _ _ _ Hu), bool_decide_eq_true_2 by done. cbn. by case_match.
  - rewrite (row_of_hit _ _ _ _ _ Hu), bool_decide_eq_true_2 by done. cbn. by case_match.
Qed.

(** * Alone *)

Lemma over_nothing {A} (m : gmap string A) : over ∅ m = m.
Proof. apply map_eq. intros k. by rewrite over_lookup, lookup_empty. Qed.

Lemma users_nothing tb : users (apply_writes (default nothing None) tb) = users tb.
Proof. apply over_nothing. Qed.

Section Alone.
Context (digest : string → string).
Abbreviation hist := (list (nat * aevent * wstate)).

(** Since its first call only this request has made any; the database was [b] then. *)
Definition alone (h : hist) (i : nat) (b : tables) : Prop :=
  ∃ h1 x h2, h = h1 ++ x :: h2 ∧ events_of i h1 = [] ∧ (∀ y, y ∈ x :: h2 → y.1.1 = i) ∧ b = db x.2.

(** What it has read is then still so, and what it has written leaves every tenant that
    had an enabled administrator one. *)
Record steady (s : wstate) (h : hist) (i : nat) (b : tables) : Prop := {
  y_db : db s = b;
  y_quiet : quiet (events_of i h) = true → w_users (wrote i s) = ∅;
  y_user : ∀ scope id u, quiet (events_of i h) = true → VUser scope id (Some u) ∈ events_of i h →
    find_user (db s) scope id = Some u;
  y_count : ∀ scope n, quiet (events_of i h) = true → VCount scope true n ∈ events_of i h →
    n = count_where (enabled_admin scope) (db s);
  y_admins : ∀ t, 0 < admins t (db s) → 0 < admins t (view i s)
}.

Record watched (s : wstate) (h : hist) : Prop := {
  a_dirty : ∀ i d, dirty s !! i = Some d → events_of i h ≠ [];
  a_alone : ∀ i b, alone h i b → open (events_of i h) = true → steady s h i b
}.

Lemma alone_snoc h j e s i b : alone (h ++ [(j, e, s)]) i b →
  j = i ∧ (alone h i b ∨ (events_of i h = [] ∧ b = db s)).
Proof.
  intros (h1&x&h2&Hh&Hnone&Hall&->). destruct h2 as [|y h2 _] using rev_ind.
  - apply app_inj_tail in Hh as [<- <-]. split; [by apply (Hall (j, e, s)), list_elem_of_singleton|right]. by split.
  - rewrite app_comm_cons, app_assoc in Hh. apply app_inj_tail in Hh as [-> <-]. split.
    + apply (Hall (j, e, s)). apply elem_of_cons. right. apply elem_of_app. right. by apply list_elem_of_singleton.
    + left. exists h1, x, h2. split_and!; [done|done| |done]. intros z Hz. apply Hall. rewrite app_comm_cons.
      apply elem_of_app. by left.
Qed.

Lemma alone_events h i b : alone h i b → events_of i h ≠ [].
Proof.
  intros (h1&[[j e] s]&h2&->&_&Hall&_). assert (j = i) as -> by (by apply (Hall (j, e, s)), elem_of_cons; left).
  rewrite events_of_app. intros [_ Hh]%app_eq_nil. unfold events_of in Hh. rewrite filter_cons in Hh. cbn in Hh.
  by rewrite decide_True in Hh.
Qed.

(** A request that has done nothing. *)
Lemma steady_none s h i : watched s h → events_of i h = [] → steady s h i (db s).
Proof.
  intros Hw Hn. assert (dirty s !! i = None) as Hd.
  { destruct (dirty s !! i) eqn:Hd; [|done]. by destruct (a_dirty _ _ Hw _ _ Hd). }
  split; [done| | | |]; rewrite ?Hn; unfold view, wrote; rewrite ?Hd.
  - done.
  - intros scope id u _ ?%not_elem_of_nil. done.
  - intros scope n _ ?%not_elem_of_nil. done.
  - intros t. unfold admins, count_where. by rewrite users_nothing.
Qed.

Lemma users_quiet s h i b : steady s h i b → quiet (events_of i h) = true → users (view i s) = users (db s).
Proof. intros Hy Hq. unfold view. cbn. by rewrite (y_quiet _ _ _ _ Hy Hq), over_nothing. Qed.

Definition writing (e : aevent) : bool := match e with VWrote st _ => touches_users st | _ => false end.

Lemma quiet_snoc i e (s : wstate) h : quiet (events_of i (h ++ [(i, e, s)])) = quiet (events_of i h) && negb (writing e).
Proof.
  rewrite events_of_snoc, bool_decide_eq_true_2 by done. unfold quiet. rewrite forallb_app. cbn. rewrite andb_true_r.
  f_equal. by destruct e.
Qed.

(** A call that changes nothing of the accounts. *)
Lemma steady_read s h i b e s' :
  steady s h i b → db s' = db s → w_users (wrote i s') = w_users (wrote i s) → writing e = false →
  (∀ scope id u, e = VUser scope id (Some u) → find_user (view i s) scope id = Some u) →
  (∀ scope n, e = VCount scope true n → n = count_where (enabled_admin scope) (view i s)) →
  steady s' (h ++ [(i, e, s')]) i b.
Proof.
  intros Hy Hdb Hw He Huser Hcount. pose proof Hy as [H1 H2 H3 H4 H5].
  assert (quiet (events_of i (h ++ [(i, e, s')])) = quiet (events_of i h)) as Hq by by rewrite quiet_snoc, He, andb_true_r.
  split; rewrite ?Hdb, ?Hq, ?Hw; [done|done| | |].
  - intros scope id u Hquiet [?|[_ Hx]]%in_snoc; [by apply H3|]. rewrite <- (Huser scope id u) by done.
    unfold find_user. by rewrite (users_quiet s h i b).
  - intros scope n Hquiet [?|[_ Hx]]%in_snoc; [by apply H4|]. rewrite (Hcount scope n) by done. unfold count_where.
    by rewrite (users_quiet s h i b).
  - intros t Ht. specialize (H5 t Ht). unfold admins, count_where, view in *. cbn in *. by rewrite Hw, Hdb.
Qed.

(** Replacing a row by one that counts no less. *)
Lemma admins_keep t tb d st n u : affect st tb = Some (d, n) → touches_users st = true → users tb !! target st = Some u →
  (∀ u', becomes st u = Some u' → enabled_admin (Some t) u = true → enabled_admin (Some t) u' = true) → is_Some (becomes st u) →
  0 < admins t tb → 0 < admins t (apply_writes d tb).
Proof.
  intros Ha Ht Hu Hsame [u' Hb] Hpos. enough (admins t tb ≤ admins t (apply_writes d tb)) by lia.
  apply (count_keep _ _ _ (target st)).
  - intros k Hk. cbn. rewrite over_lookup. by rewrite (affect_one _ _ _ _ _ Ha Hk).
  - intros v Hv Hp. rewrite Hu in Hv. injection Hv as <-. exists u'. cbn [users apply_writes].
    rewrite (affect_row _ _ _ _ _ Ha Hu Ht). split; [done|]. by apply Hsame.
Qed.

Lemma admins_new t tb d st n : affect st tb = Some (d, n) → users tb !! target st = None →
  0 < admins t tb → 0 < admins t (apply_writes d tb).
Proof.
  intros Ha Hu Hpos. enough (admins t tb ≤ admins t (apply_writes d tb)) by lia.
  apply (count_keep _ _ _ (target st)).
  - intros k Hk. cbn. rewrite over_lookup. by rewrite (affect_one _ _ _ _ _ Ha Hk).
  - intros v Hv. by rewrite Hu in Hv.
Qed.

(** Removing one of several. *)
Lemma admins_drop t tb d st n : affect st tb = Some (d, n) → 1 < admins t tb → 0 < admins t (apply_writes d tb).
Proof.
  intros Ha Hpos. enough (admins t tb ≤ S (admins t (apply_writes d tb))) by lia.
  apply (count_drop _ _ _ (target st)). intros k Hk. cbn. rewrite over_lookup. by rewrite (affect_one _ _ _ _ _ Ha Hk).
Qed.

(** Removing one that does not count. *)
Lemma admins_other t tb d st n u : affect st tb = Some (d, n) → users tb !! target st = Some u →
  enabled_admin (Some t) u = false → 0 < admins t tb → 0 < admins t (apply_writes d tb).
Proof.
  intros Ha Hu Hno Hpos. enough (admins t tb ≤ admins t (apply_writes d tb)) by lia.
  apply (count_keep _ _ _ (target st)).
  - intros k Hk. cbn. rewrite over_lookup. by rewrite (affect_one _ _ _ _ _ Ha Hk).
  - intros v Hv Hp. rewrite Hu in Hv. injection Hv as <-. congruence.
Qed.

(** The duties of a statement keep an administrator. *)
Lemma write_keeps s h i b st d n t :
  sound digest s h → steady s h i b → open (events_of i h) = true → may_write digest (events_of i h) st →
  touches_users st = true → affect st (view i s) = Some (d, n) →
  0 < admins t (view i s) → 0 < admins t (apply_writes d (view i s)).
Proof.
  intros Hs Hy Ho [Hq Hm] Ht Ha Hpos. specialize (Hq Ht). pose proof (users_quiet _ _ _ _ Hy Hq) as Hus.
  assert (∀ scope id u, VUser scope id (Some u) ∈ events_of i h → users (view i s) !! id = Some u ∧ in_scope scope u = true) as Hread.
  { intros scope id u Hin. pose proof (y_user _ _ _ _ Hy _ _ _ Hq Hin) as Hf. unfold find_user in Hf. rewrite Hus.
    destruct (users (db s) !! id) as [v|]; [|done]. destruct (in_scope scope v) eqn:Hsc; [|done]. cbn in Hf.
    case_bool_decide; [|done]. by injection Hf as <-. }
  assert (∀ id, VDraw id ∈ events_of i h → users (view i s) !! id = None) as Hnew.
  { intros id Hin. rewrite Hus. destruct (users (db s) !! id) as [u|] eqn:Hu; [|done].
    destruct (s_users _ _ _ Hs _ _ Hu) as [_ Hk]. rewrite (Hk _ Hin) in Ho. done. }
  assert (∀ scope id P, manages (events_of i h) scope id P →
    ∃ t0 a old, scope = Some t0 ∧ users (view i s) !! id = Some old ∧ user_tenant old = t0 ∧ P a old) as Hman.
  { intros scope id P ([t0 ->]&a&old&_&Hin&HP). destruct (Hread _ _ _ Hin) as [Hu Hsc]. exists t0, a, old.
    split_and!; [done|done| |done]. by apply bool_decide_eq_true in Hsc. }
  assert (∀ scope old, guarded (events_of i h) scope old → user_tenant old = default "" scope → is_Some scope →
    enabled_admin (Some t) old = false ∨ 1 < admins t (view i s)) as Hguard.
  { intros scope old Hg Hten [t0 ->]. cbn in Hten. unfold enabled_admin. cbn.
    destruct (bool_decide (user_role old = ADMIN)) eqn:Hr; [|by left]. destruct (bool_decide (disabled_at old = None)) eqn:Hd; [|by left].
    destruct (bool_decide (user_tenant old = t)) eqn:Ht0; [|by left]. right. apply bool_decide_eq_true in Hr, Hd, Ht0.
    destruct (Hg Hr Hd) as (m&Hin&Hm1). rewrite (y_count _ _ _ _ Hy _ _ Hq Hin) in Hm1.
    unfold admins, count_where in *. by rewrite Hus, <- Ht0, Hten. }
  destruct st; try done; cbn in Hm.
  - destruct Hm as [[Hin _]|(id&old&Hin&Hon&Hp)]; [by apply (admins_new _ _ _ _ _ Ha (Hnew _ Hin))|].
    destruct (proved_evidence _ _ _ _ _ _ Hin Hp) as [Hid _]. destruct (s_seen _ _ _ Hs _ _ _ _ Hin) as [Hid' _].
    destruct (Hread _ _ _ Hin) as [Hu Hsc]. rewrite <- Hid', <- Hid in Hu.
    apply (admins_keep _ _ _ _ _ _ Ha Ht Hu); [|by eexists|done]. cbn. intros u' [= <-].
    assert (user_role u = user_role old ∧ disabled_at u = disabled_at old ∧ user_tenant u = user_tenant old) as (Hr&Hd&Hten).
    { destruct Hp as [(?&?&?&?&_&_&_&_&->)|[(?&?&_&_&->)|(?&?&_&->)]]; done. }
    unfold enabled_admin. destruct scope as [t0|]; cbn; [|by rewrite Hr, Hd, Hten].
    apply bool_decide_eq_true in Hsc. by rewrite Hr, Hd, Hsc.
  - destruct Hm as (_&_&Hin&_). by apply (admins_new _ _ _ _ _ Ha (Hnew _ Hin)).
  - destruct (users (view i s) !! id) as [u|] eqn:Hu; [|by apply (admins_new _ _ _ _ _ Ha Hu)].
    apply (admins_keep _ _ _ _ _ _ Ha Ht Hu); [|by eexists|done]. cbn. intros u' [= <-]. by case_match.
  - destruct (Hman _ _ _ Hm) as (t0&a&old&->&Hu&Hten&[->|[_ Hg]]).
    + apply (admins_keep _ _ _ _ _ _ Ha Ht Hu); [|by eexists|done]. cbn. intros u' [= <-]. case_match; [|done].
      unfold enabled_admin. cbn. intros [[Hr _]%andb_true_iff Hsc]%andb_true_iff. by rewrite Hr, Hsc.
    + destruct (Hguard _ _ Hg Hten) as [?|?]; [done|by eapply (admins_other _ _ _ _ _ _ Ha Hu)|by apply (admins_drop _ _ _ _ _ Ha)].
  - destruct (Hman _ _ _ Hm) as (t0&a&old&->&Hu&Hten&[->|(_&_&Hg)]).
    + apply (admins_keep _ _ _ _ _ _ Ha Ht Hu); [|by eexists|done]. cbn. intros u' [= <-]. by case_match.
    + destruct (Hguard _ _ Hg Hten) as [?|?]; [done|by eapply (admins_other _ _ _ _ _ _ Ha Hu)|by apply (admins_drop _ _ _ _ _ Ha)].
  - destruct (Hman _ _ _ Hm) as (t0&a&old&->&Hu&Hten&_).
    apply (admins_keep _ _ _ _ _ _ Ha Ht Hu); [|by eexists|done]. cbn. intros u' [= <-]. by case_match.
  - destruct (Hman _ _ _ Hm) as (t0&a&old&->&Hu&Hten&[_ Hg]).
    destruct (Hguard _ _ Hg Hten) as [?|?]; [done|by eapply (admins_other _ _ _ _ _ _ Ha Hu)|by apply (admins_drop _ _ _ _ _ Ha)].
Qed.

Lemma steady_write s h i b st d n s' :
  sound digest s h → steady s h i b → open (events_of i h) = true → may_write digest (events_of i h) st →
  affect st (view i s) = Some (d, n) → s' = write i d s → steady s' (h ++ [(i, VWrote st n, s')]) i b.
Proof.
  intros Hs Hy Ho Hm Ha ->. assert (wrote i (write i d s) = then_writes (wrote i s) d) as Hw.
  { unfold wrote at 1. cbn [write set_dirty dirty]. by rewrite lookup_insert_eq. }
  destruct (touches_users st) eqn:Ht.
  - pose proof (proj1 Hm Ht) as Hq. assert (quiet (events_of i (h ++ [(i, VWrote st n, write i d s)])) = false) as Hnq.
    { rewrite quiet_snoc. cbn. rewrite Ht. apply andb_false_r. }
    split; rewrite ?Hnq; [apply (y_db _ _ _ _ Hy)|done|done|done|].
    intros t Hpos. apply (y_admins _ _ _ _ Hy) in Hpos.
    pose proof (write_keeps _ _ _ _ _ _ _ t Hs Hy Ho Hm Ht Ha Hpos) as Hk. unfold admins, count_where in *.
    replace (users (view i (write i d s))) with (users (apply_writes d (view i s))); [done|].
    unfold view. rewrite Hw. cbn. by rewrite (y_quiet _ _ _ _ Hy Hq), over_nothing, (right_id_L ∅ (∪)).
  - apply (steady_read s); [done|done| |done|done|done]. rewrite Hw. cbn. by rewrite (affect_none _ _ _ _ Ha Ht), (left_id_L ∅ (∪)).
Qed.

Lemma watched_call s h i R (q : aeff R) r s' :
  sound digest s h → must digest (events_of i h) R q → answers i s R q r s' → watched s h →
  watched s' (h ++ [(i, log R q r, s')]).
Proof.
  intros Hs [Ho Hm] Ha Hw. split.
  - intros j d Hd Hnil. rewrite events_of_snoc in Hnil. apply app_eq_nil in Hnil as [Hnil Hne]. case_bool_decide; [done|].
    assert (∀ d', dirty s !! j = Some d' → False) as Hno by (intros d' Hd'; by apply (a_dirty _ _ Hw _ _ Hd')).
    destruct q; cbn in Ha; repeat match goal with H : _ ∧ _ |- _ => destruct H | H : _ ∨ _ |- _ => destruct H
      | H : ∃ _, _ |- _ => destruct H | H : ?x = _ |- _ => subst x end; cbn in Hd;
      rewrite ?lookup_delete_ne, ?lookup_insert_ne in Hd by done; by eapply Hno.
  - intros j b Hal Hop. apply alone_snoc in Hal as [<- Hal].
    assert (steady s h i b) as Hy.
    { destruct Hal as [Hal|[Hnil ->]]; [by apply (a_alone _ _ Hw)|]. replace (db s') with (db s); [by apply steady_none|].
      symmetry. destruct (answers_db _ _ _ _ _ _ Ha) as [?|(ok&Hlog&_)]; [done|]. rewrite Hlog in Hop.
      destruct (open_snoc _ _ _ _ _ Hop) as [_ Hc]. by destruct (Hc eq_refl ok). }
    destruct q; cbn [answers log] in *.
    all: try (apply (steady_read s); [done|..];
              repeat match goal with H : _ ∧ _ |- _ => destruct H | H : _ ∨ _ |- _ => destruct H | H : ?x = _ |- _ => subst x end;
              by try destruct r).
    + destruct Ha as [-> ->]. case_bool_decide; by apply (steady_read s).
    + destruct Ha as [-> [->| ->]]; apply (steady_read s); try done. by intros ??? [= <- <- ->].
    + destruct Ha as [-> [->| ->]]; apply (steady_read s); try done. by intros ?? [= <- -> <-].
    + destruct Ha as [[-> ->]|(d&n&Ha&Hun&->&->)]; [by apply (steady_read s)|]. by apply (steady_write s h i b st d n).
    + destruct (open_snoc _ _ _ _ _ Hop) as [_ Hc]. by destruct (Hc eq_refl (match r with inr _ => true | inl _ => false end)).
Qed.

(** Between the first call of a request and its commit, if nobody else made one. *)
Definition kept (_ : wstate) (h : hist) : Prop := ∀ h1 i e1 s1 h2 s2 h3 t,
  h = h1 ++ (i, e1, s1) :: h2 ++ (i, VCommit true, s2) :: h3 → events_of i h1 = [] →
  (∀ x, x ∈ h2 → x.1.1 = i) → 0 < admins t (db s1) → 0 < admins t (db s2).

Lemma commit_answer i s R (q : aeff R) r s' : answers i s R q r s' → log R q r = VCommit true → s' = commit i s.
Proof. intros Ha. destruct q; cbn in *; try done; try (by destruct r). destruct Ha as [[-> ->]|[-> _]]; done. Qed.

Lemma kept_call s h i R (q : aeff R) r s' :
  must digest (events_of i h) R q → answers i s R q r s' → watched s h → kept s h → kept s' (h ++ [(i, log R q r, s')]).
Proof.
  intros [Ho _] Ha Hw Hk h1 j e1 s1 h2 s2 h3 t Hh Hnone Hall Hpos. destruct h3 as [|y h3 _] using rev_ind.
  - rewrite app_comm_cons, app_assoc in Hh. apply app_inj_tail in Hh as [-> [= -> Hlog <-]].
    rewrite (commit_answer _ _ _ _ _ _ Ha Hlog).
    assert (steady s (h1 ++ (j, e1, s1) :: h2) j (db s1)) as Hy.
    { apply (a_alone _ _ Hw); [|done]. exists h1, (j, e1, s1), h2. split_and!; [done|done| |done].
      by intros y [->|Hy]%elem_of_cons; [|apply Hall]. }
    rewrite <- (y_db _ _ _ _ Hy) in Hpos. by apply (y_admins _ _ _ _ Hy).
  - replace (h1 ++ (j, e1, s1) :: h2 ++ (j, VCommit true, s2) :: h3 ++ [y])
      with ((h1 ++ (j, e1, s1) :: h2 ++ (j, VCommit true, s2) :: h3) ++ [y]) in Hh.
    + apply app_inj_tail in Hh as [Hh _]. by eapply Hk.
    + rewrite <- app_assoc. cbn. by rewrite <- app_assoc.
Qed.

Lemma watched_less s h s' : watched s h → db s' = db s → (∀ i, dirty s' !! i = dirty s !! i ∨ dirty s' !! i = None) → watched s' h.
Proof.
  intros [H1 H2] Hdb Hd. split.
  - intros i d Hi. destruct (Hd i) as [Hs|Hs]; rewrite Hs in Hi; [by eapply H1|done].
  - intros i b Hal Ho. destruct (H2 i b Hal Ho) as [Y1 Y2 Y3 Y4 Y5].
    assert (wrote i s' = wrote i s ∨ wrote i s' = nothing) as Hw by (unfold wrote; destruct (Hd i) as [-> | ->]; auto).
    split; rewrite ?Hdb; [done| |done|done|].
    + intros Hq. destruct Hw as [-> | ->]; [by apply Y2|done].
    + intros t Ht. unfold view. rewrite Hdb. destruct Hw as [-> | ->]; [by apply Y5|].
      unfold admins, count_where. by rewrite users_nothing.
Qed.
End Alone.

Section Theory.
Context (digest normal : string → string) (ttl : Z).

Lemma reachable_kept w : reachable digest normal ttl w → kept (state w) (history w).
Proof.
  intros (s&Hs&Hr). enough (sound digest (state w) (history w) ∧ watched (state w) (history w) ∧ kept (state w) (history w)) by tauto.
  apply (history_invariant log answers rollback (served digest normal ttl) passes may (must digest)
    answers_allowed (account_requests_ok digest normal ttl) (λ s h, sound digest s h ∧ watched s h ∧ kept s h) s); [| | | |done].
  - split; [by apply sound_start|]. split; [split|].
    + intros i d. by rewrite (st_dirty _ Hs).
    + intros i b (h1&x&h2&Hh&_). by destruct h1.
    + intros h1 i e1 s1 h2 s2 h3 t Hh. by destruct h1.
  - intros i s1 h R q r s' Hm Ha (H1&H2&H3). split_and!; [by eapply sound_call|by eapply watched_call|by eapply kept_call].
  - intros i s1 h (H1&H2&H3). split_and!; [by apply sound_rollback| |done]. apply (watched_less s1); [done|done|].
    intros j. cbn. destruct (decide (j = i)) as [->|?]; [right; apply lookup_delete_eq|left; by apply lookup_delete_ne].
  - intros s1 s' h Hp (H1&H2&H3). split_and!; [by eapply sound_passes| |done]. destruct Hp as [_ Hdb Hd _ _].
    apply (watched_less s1); [done|done|]. intros j. left. by rewrite Hd.
Qed.

(** C15: a request alone keeps an administrator.  A request that demotes, disables or
    deletes an account, or saves one, leaves every tenant that had an enabled
    administrator with one, provided no other request made a call between its first and
    its commit. *)
Theorem a_request_alone_keeps_an_administrator w h1 i e1 s1 h2 s2 h3 t :
  reachable digest normal ttl w → history w = h1 ++ (i, e1, s1) :: h2 ++ (i, VCommit true, s2) :: h3 →
  events_of i h1 = [] → (∀ x, x ∈ h2 → x.1.1 = i) → 0 < admins t (db s1) → 0 < admins t (db s2).
Proof. intros Hr Hh. by apply (reachable_kept w Hr _ _ _ _ _ _ _ t Hh). Qed.
End Theory.

(** * Runs *)

Module Demo.
Import Play.

Definition disables (who whom : string) : amove :=
  Serve (request (ManageUsers.set_disabled (Some "t") (actor who ADMIN) whom true)).
Lemma disables_allowed a b : allowed_here (disables a b).
Proof. apply serve_disable. Qed.

(** Whether an account may sign in. *)
Definition enabled (who : string) (tb : tables) : option bool :=
  (λ u, bool_decide (disabled_at u = None)) <$> users tb !! who.

(** Each disables the other: both count two. *)
Definition each_other : list amove := [disables "ada" "eve"; disables "eve" "ada"; Go 0 3; Go 1 3; Go 0 5; Go 1 5].

(** Bob changes his password; between his reading of the row and his saving it, he is disabled. *)
Definition meanwhile : list amove := [changes_password "bob" "old" "new"; disables "ada" "bob"; Go 0 4; Go 1 7; Go 0 5].

Lemma each_other_allowed : Forall allowed_here each_other.
Proof. repeat (apply Forall_cons; split; [first [exact I|apply disables_allowed|apply changes_allowed]|]). done. Qed.
Lemma meanwhile_allowed : Forall allowed_here meanwhile.
Proof. repeat (apply Forall_cons; split; [first [exact I|apply disables_allowed|apply changes_allowed]|]). done. Qed.

Definition alone_run : list amove := [disables "ada" "eve"; Go 0 8].

Lemma alone_run_allowed : Forall allowed_here alone_run.
Proof. repeat (apply Forall_cons; split; [first [exact I|apply disables_allowed|apply changes_allowed]|]). done. Qed.

(** Two administrators disable each other.  Each counts two enabled administrators
    before the other's row is written, both requests commit, and the tenant that had two
    is left with none: what protects the last one is read before it is written, and
    nothing locks what was read. *)
Theorem two_administrators_disable_each_other :
  ∃ w x h, reachable same_hash same_hash 1000 w ∧ history w = x :: h ∧ admins "t" (db x.2) = 2 ∧
    VCommit true ∈ events_of 0 (history w) ∧ VCommit true ∈ events_of 1 (history w) ∧ admins "t" (db (state w)) = 0.
Proof.
  exists (runs team each_other), (nth_call (runs team each_other) 0),
    (drop 1 (history (runs team each_other))).
  split; [apply runs_reachable; [exact team_starts|exact each_other_allowed]|].
  split; [apply (split_nth _ 0); vm_compute; reflexivity|]. split; [vm_compute; reflexivity|].
  split; [apply (list_elem_of_lookup_2 _ 7); vm_compute; reflexivity|].
  split; [apply (list_elem_of_lookup_2 _ 7); vm_compute; reflexivity|]. vm_compute. reflexivity.
Qed.

(** A disabled account is enabled again.  A password change that read the account
    before it was disabled saves the whole row afterwards: once the disabling has
    committed, only calls of that change follow, and the account is enabled. *)
Theorem a_disabled_account_is_enabled_again :
  ∃ w h1 s h2, reachable same_hash same_hash 1000 w ∧ history w = h1 ++ (1, VCommit true, s) :: h2 ∧
    VWrote (SetDisabled (Some "t") "bob" (Some 0%Z)) 1 ∈ events_of 1 h1 ∧ enabled "bob" (db s) = Some false ∧
    forallb (λ x, bool_decide (x.1.1 = 0)) h2 = true ∧ enabled "bob" (db (state w)) = Some true.
Proof.
  exists (runs team meanwhile), (take 10 (history (runs team meanwhile))), (nth_call (runs team meanwhile) 10).2,
    (drop 11 (history (runs team meanwhile))).
  split; [apply runs_reachable; [exact team_starts|exact meanwhile_allowed]|].
  split; [apply (split_call _ 10); vm_compute; reflexivity|].
  split; [apply (list_elem_of_lookup_2 _ 3); vm_compute; reflexivity|].
  split; [vm_compute; reflexivity|]. split; vm_compute; reflexivity.
Qed.

Lemma a_request_alone_keeps_an_administrator_witness : 0 < admins "t" (db (nth_call (runs team alone_run) 7).2).
Proof.
  apply (a_request_alone_keeps_an_administrator same_hash same_hash 1000 (runs team alone_run) [] 0
           (nth_call (runs team alone_run) 0).1.2 (nth_call (runs team alone_run) 0).2
           (take 6 (drop 1 (history (runs team alone_run)))) (nth_call (runs team alone_run) 7).2
           (drop 8 (history (runs team alone_run))) "t").
  - apply runs_reachable; [exact team_starts|exact alone_run_allowed].
  - apply (split_run _ 6); vm_compute; reflexivity.
  - reflexivity.
  - intros x Hx. assert (forallb (λ x, bool_decide (x.1.1 = 0)) (take 6 (drop 1 (history (runs team alone_run)))) = true) as Hall
      by (vm_compute; reflexivity).
    rewrite forallb_forall in Hall. apply list_elem_of_In, Hall in Hx. by apply bool_decide_eq_true in Hx.
  - vm_compute. lia.
Defined.

End Demo.
