(* ===== verification/Lifecycle.v ===== *)
(** The life of a model's weights ([application/use_cases/manage_models/],
    [application/use_cases/download_model.py]), over the registry
    ([PostgresModelRepository] in [adapters/persistence/repositories/platform_runtime.py]),
    the states written in transactions of their own
    ([adapters/persistence/model_state.py]) and the lock of a node
    ([adapters/persistence/node_serialisation.py]).

    A use case is a program over those and over the node's runtime.  A write of the
    request's session is a statement on the table, [affect], which is also where its
    unique constraints are; [session_scope] commits or rolls back what it wrote.  What is
    accepted as a reference is an argument.  Log lines and the progress a download reports
    are left out. *)

From S2P Require Import Actors.
From S2P Require Export Interleaving Residency.

(** * Data *)

Abbreviation lifecycle := Routing.state.

(** [dataclasses.replace] of what some operation replaces. *)
Definition _with_state (s : ModelState) (m : Model) : Model :=
  mk_model (model_id m) (alias m) (model_ref m) (runtime m) (model_node m) s (capabilities m) (resource_profile m)
    None None None (capacity_validated m) (model_digest m) (desired_resident m) (desired_version m).
Definition with_capacity (b : bool) (m : Model) : Model :=
  mk_model (model_id m) (alias m) (model_ref m) (runtime m) (model_node m) (lifecycle m) (capabilities m)
    (resource_profile m) (observed_state m) (observed_memory_gb m) (observed_at m) b (model_digest m)
    (desired_resident m) (desired_version m).
Definition with_intent (b : bool) (v : Z) (m : Model) : Model :=
  mk_model (model_id m) (alias m) (model_ref m) (runtime m) (model_node m) (lifecycle m) (capabilities m)
    (resource_profile m) (observed_state m) (observed_memory_gb m) (observed_at m) (capacity_validated m)
    (model_digest m) b v.
Definition with_observation (o : option ModelState) (gb : option spec_float) (at_ : option Z) (m : Model) : Model :=
  mk_model (model_id m) (alias m) (model_ref m) (runtime m) (model_node m) (lifecycle m) (capabilities m)
    (resource_profile m) o gb at_ (capacity_validated m) (model_digest m) (desired_resident m) (desired_version m).
Definition with_pin (d : option string) (m : Model) : Model :=
  mk_model (model_id m) (alias m) (model_ref m) (runtime m) (model_node m) (lifecycle m) (capabilities m)
    (resource_profile m) (observed_state m) (observed_memory_gb m) (observed_at m) (capacity_validated m) d
    (desired_resident m) (desired_version m).

Inductive mexn : Set :=
  | NotAuthorized | ModelNotFoundError | NodeNotFoundError | ModelStateConflictError | RuntimeUnavailableError
  | InvalidModelReferenceError | InsufficientMemory | ManifestPinRefusedError | RuntimeFailure | BackendError.

Inductive action : Set :=
  | MODEL_REGISTERED | MODEL_UPDATED | MODEL_DELETED | MODEL_LOADED | MODEL_UNLOADED | MODEL_REPINNED
  | MODEL_RESIDENCY_INTENT_CHANGED | MODEL_DOWNLOAD_STARTED.

(** ** The table *)

Abbreviation table := (gmap string Model).
(** What a transaction has written: a row, or its absence. *)
Abbreviation delta := (gmap string (option Model)).

Definition over (d : delta) (t : table) : table := merge (λ o x, match o with Some o => o | None => x end) d t.

(** Statements of the request's session. *)
Inductive mstmt : Type :=
  | SetState (id : string) (s : ModelState)
  | SetCapacity (m : Model) (validated : bool)
  | SetDesired (id : string) (desired : bool)
  | SaveModel (m : Model)
  | DeleteModel (id : string).

Definition update_row (id : string) (f : Model → Model) (t : table) : delta :=
  match t !! id with Some m => {[id := Some (f m)]} | None => ∅ end.

(** [set_state] and [commit]: the observation goes with the state it predates. *)
Definition set_state (id : string) (s : ModelState) (t : table) : delta := update_row id (_with_state s) t.

Definition same_weights (m k : Model) : bool :=
  bool_decide (model_ref k = model_ref m ∧ model_node k = model_node m ∧ runtime k = runtime m ∧
    profile_context (resource_profile k) = profile_context (resource_profile m) ∧ model_digest k = model_digest m).
Definition set_capacity_validated (m : Model) (validated : bool) (t : table) : delta :=
  match t !! model_id m with
  | Some k => if same_weights m k then {[model_id m := Some (with_capacity validated k)]} else ∅
  | None => ∅
  end.

Definition bump (desired : bool) (m : Model) : Model := with_intent desired (desired_version m + 1) m.
Definition set_desired_residency_row (id : string) (desired : bool) (t : table) : delta := update_row id (bump desired) t.

(** [model_to_row] leaves the pin and the intent out, so a merge keeps those of the row,
    and a row that is inserted has the columns' defaults. *)
Definition model_to_row (m : Model) (old : option Model) : Model :=
  match old with
  | Some k => with_intent (desired_resident k) (desired_version k) (with_pin (model_digest k) m)
  | None => with_intent false 0 (with_pin None m)
  end.

(** The unique index on the alias, and the one on node, runtime and reference. *)
Definition clash (m k : Model) : bool :=
  bool_decide (model_id k ≠ model_id m) &&
  (bool_decide (alias k = alias m) ||
   bool_decide (model_node k = model_node m ∧ runtime k = runtime m ∧ model_ref k = model_ref m)).
Definition clashes (m : Model) (t : table) : bool := bool_decide (map_Exists (λ _ k, clash m k = true) t).

Definition save (m : Model) (t : table) : option delta :=
  if clashes m t then None else Some {[model_id m := Some (model_to_row m (t !! model_id m))]}.

Definition delete_row (id : string) (t : table) : delta := if bool_decide (is_Some (t !! id)) then {[id := None]} else ∅.

(** What a statement writes, unless a constraint refuses it. *)
Definition affect (st : mstmt) (t : table) : option delta :=
  match st with
  | SetState id s => Some (set_state id s t)
  | SetCapacity m b => Some (set_capacity_validated m b t)
  | SetDesired id b => Some (set_desired_residency_row id b t)
  | SaveModel m => save m t
  | DeleteModel id => Some (delete_row id t)
  end.

(** [list_occupying_memory] *)
Definition occupies (node : string) (m : Model) : bool :=
  bool_decide (model_node m = node) &&
  (bool_decide (lifecycle m = LOADED) || bool_decide (lifecycle m = LOADING) || bool_decide (observed_state m = Some LOADED)).
Definition occupying (node : string) (t : table) : table := filter (λ x, occupies node x.2 = true) t.

(** [reconcile_transient_states] with the mapping of [provision.py]: every statement of
    it moves the rows of one state. *)
Definition TRANSIENT_RECONCILIATION : list (ModelState * ModelState) :=
  [(DOWNLOADING, ERROR); (LOADING, ERROR); (UNLOADING, LOADED)].
Definition with_lifecycle (s : ModelState) (m : Model) : Model :=
  mk_model (model_id m) (alias m) (model_ref m) (runtime m) (model_node m) s (capabilities m) (resource_profile m)
    (observed_state m) (observed_memory_gb m) (observed_at m) (capacity_validated m) (model_digest m)
    (desired_resident m) (desired_version m).
Definition move_state (t : table) (p : ModelState * ModelState) : table :=
  (λ m, if bool_decide (lifecycle m = p.1) then with_lifecycle p.2 m else m) <$> t.
Definition reconcile_transient_states (mapping : list (ModelState * ModelState)) (t : table) : table :=
  foldl move_state t mapping.

(** ** The runtimes of a composition ([infrastructure/runtime_directory.py]) *)

Inductive target : Set := Direct (k : RuntimeKind) | Refusing (k : RuntimeKind) | Agent (url : string).

Definition AGENT_KINDS : list RuntimeKind := [OLLAMA].

Section Directory.
(** Whether there is an agent token, and the kinds that have a direct adapter. *)
Context (agents_enabled : bool) (direct : list RuntimeKind).

Definition by_kind (k : RuntimeKind) : option target :=
  if bool_decide (k ∈ direct) then Some (if agents_enabled then Refusing k else Direct k) else None.

Definition for_node (n : option Node) (k : RuntimeKind) : option target :=
  if negb agents_enabled then by_kind k
  else
    match n ≫= agent_url with
    | None | Some "" => None
    | Some url => if bool_decide (k ∈ AGENT_KINDS) then Some (Agent url) else None
    end.
End Directory.

(** [ManifestPinPort], which only the agent's adapter implements. *)
Definition pins (r : target) : bool := match r with Agent _ => true | _ => false end.

(** ** Calls *)

Inductive meff : Type → Type :=
  | MRequire (a : Actor) (s : Scope) : meff (mexn + unit)
  | MGet (id : string) : meff (mexn + option Model)
  | MList : meff (mexn + table)
  | MByAlias (name : string) : meff (mexn + option Model)
  | MNode (id : string) : meff (mexn + option Node)
  | MPolicies : meff (mexn + list RoutingPolicy)
  | MOccupying (node : string) : meff (mexn + list Model)
  | MWrite (st : mstmt) : meff (mexn + unit)
  | MSetDesired (id : string) (desired : bool) : meff (mexn + option Z)
  | MCommit : meff (mexn + unit)
  | MRollback : meff unit
  (** in a transaction of its own *)
  | MPeek (id : string) : meff (mexn + option Model)
  | MPeekNode (id : string) : meff (mexn + option Node)
  | MCommitState (id : string) (s : ModelState) : meff unit
  | MCommitIntent (id : string) (desired : bool) : meff (mexn + option Z)
  (** the lock of a node *)
  | MHold (node : string) : meff (mexn + bool)
  | MUnhold (node : string) : meff (mexn + unit)
  (** the node's runtime and what measures it *)
  | MDeclared (r : target) (ref : string) (manifest : option string) : meff (mexn + option Z)
  | MNative (ref : string) : meff (mexn + option Z)
  | MFreeMemory (node : string) : meff (mexn + option spec_float)
  | MDatabaseTime : meff (mexn + Z)
  | MLoad (r : target) (ref : string) (context_length : Z) : meff (mexn + unit)
  | MUnload (r : target) (ref : string) : meff (mexn + unit)
  | MRepin (r : target) (ref digest : string) : meff (mexn + unit)
  | MPull (r : target) (ref : string) : meff (mexn + unit)
  | MPrepare (ref : string) : meff (mexn + bool)
  (** bookkeeping *)
  | MFresh : meff string
  | MJob (id : string) (done : bool) : meff (mexn + unit)
  | MAudit (who : option Actor) (a : action) (target : string) (failed : bool) : meff unit.

Abbreviation mprog := (prog meff mexn unit).

(** [session_scope]: one transaction, committed when the body ends. *)
Definition session_scope {A} (p : mprog A) : mprog A :=
  catch (let! a := p in let! _ := invoke MCommit in Pure a) (λ e, let! _ := ask MRollback in Throw e).

(** * The use cases *)

Section UseCases.
(** The runtimes of the composition, the grammar of references and two settings. *)
Context (agents_enabled : bool) (direct : list RuntimeKind) (valid_ref : RuntimeKind → string → bool).
Context (observed_absence_frees_memory : bool) (headroom : spec_float).

Definition declared_context_for (r : target) (ref : string) (manifest : option string) : mprog (option Z) :=
  let! r := ask (MDeclared r ref manifest) in
  Pure (match r with inr (Some v) => if bool_decide (0 < v)%Z then Some v else None | _ => None end).

Definition _require (id : string) : mprog Model :=
  let! m := invoke (MGet id) in
  match m with Some m => Pure m | None => Throw ModelNotFoundError end.
Definition _require_node (id : string) : mprog Node :=
  let! n := invoke (MNode id) in
  match n with Some n => Pure n | None => Throw NodeNotFoundError end.
Definition _require_runtime (k : RuntimeKind) : mprog unit :=
  match by_kind agents_enabled direct k with Some _ => Pure tt | None => Throw RuntimeUnavailableError end.
Definition _runtime_on (n : Node) (k : RuntimeKind) : mprog target :=
  match for_node agents_enabled direct (Some n) k with Some r => Pure r | None => Throw RuntimeUnavailableError end.
Definition validate_ref (k : RuntimeKind) (ref : string) : mprog unit :=
  if valid_ref k ref then Pure tt else Throw InvalidModelReferenceError.

Definition _referenced_by_policy (name : string) : mprog bool :=
  let! ps := invoke MPolicies in
  Pure (existsb (λ p, existsb (λ c, bool_decide (candidate_alias c = name)) (candidates p)) ps).

(** ** The registry *)

Definition list_all (actor : Actor) : mprog table :=
  let! _ := invoke (MRequire actor MODEL_READ) in invoke MList.

Definition get (actor : Actor) (id : string) : mprog Model :=
  let! _ := invoke (MRequire actor MODEL_READ) in _require id.

Definition declared_context_length (actor : Actor) (ref : string) : mprog (option Z) :=
  let! _ := invoke (MRequire actor MODEL_WRITE) in
  let! r := ask (MNative ref) in
  Pure (match r with inr v => v | inl _ => None end).

Definition _assert_declared_capacity (p : ResourceProfile) (declared : option Z) : mprog unit :=
  match declared with
  | Some d => if bool_decide (d < profile_context p)%Z then Throw ModelStateConflictError else Pure tt
  | None => Pure tt
  end.

Definition register (actor : Actor) (name ref : string) (k : RuntimeKind) (node : string) (caps : gset string)
    (profile : ResourceProfile) : mprog Model :=
  let! _ := invoke (MRequire actor MODEL_WRITE) in
  let! n := _require_node node in
  let! _ := _require_runtime k in
  let! _ := validate_ref k ref in
  let! taken := invoke (MByAlias name) in
  match taken with
  | Some _ => Throw ModelStateConflictError
  | None =>
      let! r := _runtime_on n k in
      let! declared := declared_context_for r ref None in
      let! _ := _assert_declared_capacity profile declared in
      let! id := ask MFresh in
      let m := mk_model id name ref k node NOT_DOWNLOADED caps profile None None None
                 (bool_decide (is_Some declared)) None false 0 in
      let! _ := invoke (MWrite (SaveModel m)) in
      let! _ := ask (MAudit (Some actor) MODEL_REGISTERED id false) in
      Pure m
  end.

(** What an edit asks for; a field that is [None] is left as it is. *)
Record edit := mk_edit {
  e_alias : option string; e_ref : option string; e_runtime : option RuntimeKind; e_node : option string;
  e_capabilities : option (gset string); e_profile : option ResourceProfile
}.

Definition differs {A} `{EqDecision A} (o : option A) (x : A) : bool :=
  match o with Some y => bool_decide (y ≠ x) | None => false end.

(** What the runtime has on disk is named by these three. *)
Definition repoints (e : edit) (m : Model) : bool :=
  differs (e_ref e) (model_ref m) || differs (e_runtime e) (runtime m) || differs (e_node e) (model_node m).

Definition resizes (e : edit) (m : Model) : bool :=
  match e_profile e with
  | Some p => negb (SFeqb (memory_gb p) (memory_gb (resource_profile m)))
  | None => false
  end.

Definition edited (e : edit) (m : Model) : Model :=
  mk_model (model_id m) (default (alias m) (e_alias e)) (default (model_ref m) (e_ref e))
    (default (runtime m) (e_runtime e)) (default (model_node m) (e_node e)) (lifecycle m)
    (default (capabilities m) (e_capabilities e)) (default (resource_profile m) (e_profile e))
    (observed_state m) (observed_memory_gb m) (observed_at m) (capacity_validated m) (model_digest m)
    (desired_resident m) (desired_version m).

Definition update (actor : Actor) (id : string) (e : edit) : mprog Model :=
  let! _ := invoke (MRequire actor MODEL_WRITE) in
  let! m := _require id in
  let! _ := (match e_node e with Some n => let! _ := _require_node n in Pure tt | None => Pure tt end) in
  let! _ := (match e_ref e with
             | Some r =>
                 let k := default (runtime m) (e_runtime e) in
                 let! _ := _require_runtime k in validate_ref k r
             | None => match e_runtime e with Some k => _require_runtime k | None => Pure tt end
             end) in
  let! _ := (match e_alias e with
             | Some name =>
                 if bool_decide (name ≠ alias m) then
                   let! taken := invoke (MByAlias name) in
                   match taken with
                   | Some _ => Throw ModelStateConflictError
                   | None =>
                       let! bound := _referenced_by_policy (alias m) in
                       if bound : bool then Throw ModelStateConflictError else Pure tt
                   end
                 else Pure tt
             | None => Pure tt
             end) in
  if bool_decide (lifecycle m ≠ NOT_DOWNLOADED) && repoints e m then Throw ModelStateConflictError
  else if bool_decide (lifecycle m = LOADED) && resizes e m then Throw ModelStateConflictError
  else
    let updated := edited e m in
    let! n := _require_node (model_node updated) in
    let! r := _runtime_on n (runtime updated) in
    let! declared := declared_context_for r (model_ref updated) None in
    let! _ := _assert_declared_capacity (resource_profile updated) declared in
    let updated := with_capacity (bool_decide (is_Some declared)) updated in
    let! _ := invoke (MWrite (SaveModel updated)) in
    let! _ := ask (MAudit (Some actor) MODEL_UPDATED (model_id m) false) in
    Pure updated.

Definition DELETABLE_STATES : list ModelState := [NOT_DOWNLOADED; DOWNLOADED; ERROR].

Definition delete (actor : Actor) (id : string) : mprog unit :=
  let! _ := invoke (MRequire actor MODEL_WRITE) in
  let! m := _require id in
  if bool_decide (lifecycle m ∉ DELETABLE_STATES) then Throw ModelStateConflictError
  else
    let! bound := _referenced_by_policy (alias m) in
    if bound : bool then Throw ModelStateConflictError
    else
      let! _ := invoke (MWrite (DeleteModel (model_id m))) in
      ask (MAudit (Some actor) MODEL_DELETED (model_id m) false).

(** ** Loading and unloading *)

(** The lock of a node is tried, and released however the body ends. *)
Definition _hold_node {A} (node : string) (body : bool → mprog A) : mprog A :=
  let! held := invoke (MHold node) in
  finally (body held) (if held then invoke (MUnhold node) else Pure tt).

Definition _commit_intent (id : string) (desired : bool) : mprog unit :=
  let! v := invoke (MCommitIntent id desired) in
  match v with Some _ => Pure tt | None => Throw ModelNotFoundError end.

Definition _prepare_token_counter (m : Model) : mprog unit :=
  let! _ := ask (MPrepare (model_ref m)) in Pure tt.

(** Whom the budget charges. *)
Definition charged (now : option Z) (l : list Model) : list Model :=
  match now with Some t => filter (λ m, charges_memory m t = true) l | None => l end.

(** What the runtime is told, between a state claimed and the state that follows. *)
Definition call_runtime {A} (call : meff (mexn + A)) (id : string) (failed : ModelState) (who : option Actor) (a : action)
    : mprog A :=
  catch (invoke call)
    (λ e, let! _ := ask (MCommitState id failed) in
          let! _ := ask (MAudit who a id true) in
          Throw e).

Definition _load (who : option Actor) (id : string) (record_intent : bool) : mprog Model :=
  let! m := _require id in
  let! n := _require_node (model_node m) in
  let! r := _runtime_on n (runtime m) in
  let! declared := declared_context_for r (model_ref m) (model_digest m) in
  let validated := bool_decide (is_Some declared) in
  if bool_decide (effective_state m = LOADED) then
    let! _ := (if record_intent then _commit_intent (model_id m) true else Pure tt) in
    let! _ := invoke (MWrite (SetCapacity m validated)) in
    _require (model_id m)
  else if bool_decide (effective_state m ≠ DOWNLOADED) then Throw ModelStateConflictError
  else
    let! live := invoke (MFreeMemory (node_id n)) in
    let! l := invoke (MOccupying (node_id n)) in
    let! now := (if observed_absence_frees_memory then let! t := invoke MDatabaseTime in Pure (Some t) else Pure None) in
    match assert_can_load headroom m n (charged now l) live with
    | Raise _ => Throw InsufficientMemory
    | Ret _ =>
        let! _ := (if record_intent then _commit_intent (model_id m) true else Pure tt) in
        let! _ := ask (MCommitState (model_id m) LOADING) in
        let! _ := call_runtime (MLoad r (model_ref m) (profile_context (resource_profile m)))
                    (model_id m) ERROR who MODEL_LOADED in
        let! _ := invoke (MWrite (SetState (model_id m) LOADED)) in
        let! _ := invoke (MWrite (SetCapacity m validated)) in
        let! m := _require (model_id m) in
        let! _ := ask (MAudit who MODEL_LOADED (model_id m) false) in
        let! _ := _prepare_token_counter m in
        Pure m
    end.

Definition load (actor : Actor) (id : string) : mprog Model :=
  let! _ := invoke (MRequire actor MODEL_WRITE) in
  let! m := _require id in
  _hold_node (model_node m) (λ held,
    if held then _load (Some actor) id true else Throw ModelStateConflictError).

Definition restore (id : string) : mprog Model := _load None id false.

Definition _unload (who : option Actor) (id : string) (withdraw_intent : bool) : mprog Model :=
  let! m := _require id in
  if bool_decide (effective_state m ≠ LOADED) then Throw ModelStateConflictError
  else
    let! n := _require_node (model_node m) in
    let! r := _runtime_on n (runtime m) in
    let! _ := (if withdraw_intent then _commit_intent (model_id m) false else Pure tt) in
    let! _ := ask (MCommitState (model_id m) UNLOADING) in
    let! _ := call_runtime (MUnload r (model_ref m)) (model_id m) LOADED who MODEL_UNLOADED in
    let! _ := invoke (MWrite (SetState (model_id m) DOWNLOADED)) in
    let! _ := ask (MAudit who MODEL_UNLOADED (model_id m) false) in
    Pure (_with_state DOWNLOADED m).

Definition unload (actor : Actor) (id : string) : mprog Model :=
  let! _ := invoke (MRequire actor MODEL_WRITE) in
  let! _ := _require id in
  _unload (Some actor) id true.

Definition release (id : string) : mprog Model := _unload None id false.

Definition repin (actor : Actor) (id digest : string) : mprog Model :=
  let! _ := invoke (MRequire actor MODEL_WRITE) in
  let! m := _require id in
  let! n := _require_node (model_node m) in
  let! r := _runtime_on n (runtime m) in
  if negb (pins r) then Throw ModelStateConflictError
  else
    let! _ := _hold_node (model_node m) (λ held,
      if held then
        catch (invoke (MRepin r (model_ref m) digest))
          (λ e, let! _ := ask (MAudit (Some actor) MODEL_REPINNED (model_id m) true) in Throw e)
      else Throw ModelStateConflictError) in
    let! _ := ask (MAudit (Some actor) MODEL_REPINNED (model_id m) false) in
    _require (model_id m).

Definition set_desired_residency (actor : Actor) (id : string) (desired : bool) : mprog Model :=
  let! _ := invoke (MRequire actor MODEL_WRITE) in
  let! _ := _require id in
  let! v := invoke (MSetDesired id desired) in
  match v with
  | None => Throw ModelNotFoundError
  | Some _ =>
      let! _ := ask (MAudit (Some actor) MODEL_RESIDENCY_INTENT_CHANGED id false) in
      _require id
  end.

(** ** Downloading *)

Definition start (actor : Actor) (id : string) : mprog string :=
  let! _ := invoke (MRequire actor MODEL_WRITE) in
  let! m := _require id in
  if bool_decide (lifecycle m ∈ [DOWNLOADING; LOADING; UNLOADING]) then Throw ModelStateConflictError
  else if bool_decide (lifecycle m = LOADED) then Throw ModelStateConflictError
  else
    let! _ := invoke (MWrite (SetState (model_id m) DOWNLOADING)) in
    let! job := ask MFresh in
    let! _ := invoke (MJob job false) in
    let! _ := ask (MAudit (Some actor) MODEL_DOWNLOAD_STARTED (model_id m) false) in
    Pure job.

Definition _fail (job : string) : mprog unit := invoke (MJob job false).

(** The detached half, in no session. *)
Definition run (id job : string) : mprog unit :=
  let! found := invoke (MPeek id) in
  match found with
  | None => _fail job
  | Some m =>
      let! node := invoke (MPeekNode (model_node m)) in
      match for_node agents_enabled direct node (runtime m) with
      | Some r =>
          let! o := attempt (catch (let! _ := invoke (MPull r (model_ref m)) in Pure true)
                                   (λ _, let! _ := _fail job in Pure false)) in
          let! _ := ask (MCommitState (model_id m) (match o with inr true => DOWNLOADED | _ => ERROR end)) in
          let! succeeded := or_throw o in
          if succeeded : bool then invoke (MJob job true) else Pure tt
      | None => let! _ := _fail job in ask (MCommitState (model_id m) ERROR)
      end
  end.

(** ** The requests

    A request is one transaction; the reconciler holds the lock of a node for its pass
    and gives each restore and release a transaction ([ManageModelsRestorer]). *)

Inductive job : Set := Restore (id : string) | Release (id : string).

Definition restorer (j : job) : mprog unit :=
  match j with
  | Restore id => let! _ := session_scope (restore id) in Pure tt
  | Release id => let! _ := session_scope (release id) in Pure tt
  end.

Fixpoint jobs (l : list job) : mprog unit :=
  match l with [] => Pure tt | j :: l => let! _ := attempt (restorer j) in jobs l end.

Definition reconciler_pass (node : string) (l : list job) : mprog unit :=
  _hold_node node (λ held, if held then jobs l else Pure tt).

Definition request {A} (p : mprog A) : mprog unit := let! _ := session_scope p in Pure tt.
End UseCases.
