(* ===== verification/LifecycleRuns.v ===== *)
(** What the operations on a model must have seen before each thing they do.

    A trace is folded into what its operation knows ([watch]): the lock it holds, the row
    and the node it last read, what it counted against the node's memory, the state it
    last asked to be committed, the state it owes after the runtime failed, and whether its session
    has written anything.  What is known is known
    from events in this order, none of them repeated since.  Every request and every pass of the reconciler obeys the duties stated here ([lifecycle_requests_ok]),
    whatever it is answered. *)

From S2P Require Import Actors.
From S2P Require Export Lifecycle.

(** * What a trace shows *)

Inductive mevent : Type :=
  | VRequired (a : Actor) (s : Scope)
  | VGot (m : Model)
  | VNode (n : Node)
  | VLive (gb : option spec_float)
  | VTime (t : Z)
  | VOccupying (node : string) (l : list Model)
  | VWrote (st : mstmt)
  | VDesired (id : string) (desired : bool) (v : option Z)
  | VCommit (ok : bool)
  | VRolledBack
  | VState (id : string) (s : ModelState)
  | VIntent (id : string) (desired : bool)
  | VHeld (node : string)
  | VFreed (node : string)
  | VLoad (r : target) (ref : string) (context_length : Z) (ok : bool)
  | VUnload (r : target) (ref : string) (ok : bool)
  | VDrew (id : string)
  | VFree.

Definition is_inr {A B} (x : A + B) : bool := match x with inr _ => true | inl _ => false end.

Definition log (R : Type) (q : meff R) : R → mevent :=
  match q in meff R return R → mevent with
  | MRequire a s => λ r, match r with inr _ => VRequired a s | inl _ => VFree end
  | MGet _ | MPeek _ => λ r, match r with inr (Some m) => VGot m | _ => VFree end
  | MNode _ | MPeekNode _ => λ r, match r with inr (Some n) => VNode n | _ => VFree end
  | MFreeMemory _ => λ r, match r with inr gb => VLive gb | inl _ => VFree end
  | MDatabaseTime => λ r, match r with inr t => VTime t | inl _ => VFree end
  | MOccupying node => λ r, match r with inr l => VOccupying node l | inl _ => VFree end
  | MWrite st => λ r, match r with inr _ => VWrote st | inl _ => VFree end
  | MSetDesired id b => λ r, match r with inr v => VDesired id b v | inl _ => VFree end
  | MCommit => λ r, VCommit (is_inr r)
  | MRollback => λ _, VRolledBack
  | MCommitState id s => λ _, VState id s
  | MCommitIntent id b => λ _, VIntent id b
  | MHold node => λ r, match r with inr true => VHeld node | _ => VFree end
  | MUnhold node => λ _, VFreed node
  | MLoad r ref c => λ x, VLoad r ref c (is_inr x)
  | MUnload r ref => λ x, VUnload r ref (is_inr x)
  | MFresh => VDrew
  | MList => λ _, VFree
  | MByAlias _ => λ _, VFree
  | MPolicies => λ _, VFree
  | MDeclared _ _ _ => λ _, VFree
  | MNative _ => λ _, VFree
  | MRepin _ _ _ => λ _, VFree
  | MPull _ _ => λ _, VFree
  | MPrepare _ => λ _, VFree
  | MJob _ _ => λ _, VFree
  | MAudit _ _ _ _ => λ _, VFree
  end.

(** ** What an operation knows *)

Record watch := mk_watch {
  w_lock : option string; w_actor : option Actor; w_model : option Model; w_node : option Node;
  w_live : option (option spec_float); w_rows : option (string * list Model); w_now : option Z;
  w_stage : option (string * ModelState); w_owed : option ModelState; w_wrote : bool
}.
Definition unaware : watch := mk_watch None None None None None None None None None false.

Definition watch_step (w : watch) (e : mevent) : watch :=
  let '(mk_watch lock actor model node live rows now stage owed wrote) := w in
  match e with
  | VRequired a s =>
      mk_watch lock (if bool_decide (s = MODEL_WRITE) then Some a else actor) model node live rows now stage owed wrote
  | VGot m => mk_watch lock actor (Some m) None None None None None owed wrote
  | VNode n => mk_watch lock actor model (Some n) None None None None owed wrote
  | VLive gb => mk_watch lock actor model node (Some gb) None None None owed wrote
  | VTime t => mk_watch lock actor model node live rows (Some t) None owed wrote
  | VOccupying k l => mk_watch lock actor model node live (Some (k, l)) None None owed wrote
  | VWrote _ | VDesired _ _ _ => mk_watch lock actor model node live rows now stage owed true
  | VCommit _ | VRolledBack => mk_watch lock actor model node live rows now stage owed false
  | VState id s => mk_watch lock actor model node live rows now (Some (id, s)) None wrote
  | VHeld n => mk_watch (Some n) actor None None None None None None owed wrote
  | VFreed _ => mk_watch None actor None None None None None None owed wrote
  | VLoad _ _ _ ok => mk_watch lock actor model node live rows now stage (if ok then owed else Some ERROR) wrote
  | VUnload _ _ ok => mk_watch lock actor model node live rows now stage (if ok then owed else Some LOADED) wrote
  | VIntent _ _ | VDrew _ | VFree => w
  end.
Definition knows (tr : list mevent) : watch := foldl watch_step unaware tr.

Lemma knows_snoc tr e : knows (tr ++ [e]) = watch_step (knows tr) e.
Proof. apply foldl_snoc. Qed.

(** What is found out is found out in this order; whoever starts again at some point
    forgets what comes after it. *)
Definition level (e : mevent) : nat :=
  match e with
  | VHeld _ | VFreed _ => 1 | VGot _ => 2 | VNode _ => 3 | VLive _ => 4 | VOccupying _ _ => 5
  | _ => 6
  end.

(** One after the other, and none of them again. *)
Fixpoint one_by_one (es tr : list mevent) : Prop :=
  match es with
  | [] => True
  | e :: es => ∃ a b, tr = a ++ e :: b ∧ Forall (λ x, level e < level x) b ∧ one_by_one es b
  end.

Lemma one_by_one_snoc es e a b : one_by_one es a → Forall (λ x, level x < level e) es → Forall (λ x, level e < level x) b →
  one_by_one (es ++ [e]) (a ++ e :: b).
Proof.
  intros Ha Hes Hb. revert a Ha Hes. induction es as [|x es IH]; cbn; intros a.
  - intros _ _. by exists a, b.
  - intros (a1&b1&->&Hq&Hin) [Hx Hes]%Forall_cons. exists a1, (b1 ++ e :: b).
    split; [by rewrite <- app_assoc|split; [|by apply IH]].
    apply Forall_app. split; [done|]. apply Forall_cons. split; [done|]. eapply Forall_impl; [exact Hb|]. cbn. lia.
Qed.

(** What is known was found out by an event after which no earlier question was asked
    again, and what it was known with was known there. *)
Ltac found_last tr :=
  let x := fresh "x" in let tr' := fresh "tr" in let IH := fresh "IH" in let H := fresh in let Hk := fresh in
  induction tr as [|x tr' IH] using rev_ind; [done|]; rewrite knows_snoc; intros H;
  destruct (knows tr') eqn:Hk, x; cbn in *; simplify_eq; try done;
  lazymatch type of IH with
  | Some ?y = Some ?y → _ => let a := fresh "a" in let b := fresh "b" in let Hq := fresh in let Ha := fresh in
      destruct (IH eq_refl) as (a&b&->&Hq&Ha); eexists a, (b ++ [_]);
      split; [by rewrite <- app_assoc|split; [apply Forall_app; split; [exact Hq|apply Forall_singleton; cbn; lia]|]];
      repeat match type of Ha with _ ∧ _ => let Hx := fresh in destruct Ha as [Hx Ha]; split; [exact Hx|] end;
      first [exact Ha|set_solver]
  | _ => exists tr', []; rewrite ?Hk; by split_and!
  end.

Lemma lock_from tr k : w_lock (knows tr) = Some k → one_by_one [VHeld k] tr.
Proof. found_last tr. Qed.

Lemma model_from tr m : w_model (knows tr) = Some m → ∃ a b, tr = a ++ VGot m :: b ∧
  Forall (λ x, level (VGot m) < level x) b ∧ w_lock (knows a) = w_lock (knows tr).
Proof. found_last tr. Qed.

Lemma node_from tr n : w_node (knows tr) = Some n → ∃ a b, tr = a ++ VNode n :: b ∧
  Forall (λ x, level (VNode n) < level x) b ∧ w_lock (knows a) = w_lock (knows tr) ∧ w_model (knows a) = w_model (knows tr).
Proof. found_last tr. Qed.

Lemma live_from tr g : w_live (knows tr) = Some g → ∃ a b, tr = a ++ VLive g :: b ∧
  Forall (λ x, level (VLive g) < level x) b ∧
  w_lock (knows a) = w_lock (knows tr) ∧ w_model (knows a) = w_model (knows tr) ∧ w_node (knows a) = w_node (knows tr).
Proof. found_last tr. Qed.

Lemma rows_from tr k l : w_rows (knows tr) = Some (k, l) → ∃ a b, tr = a ++ VOccupying k l :: b ∧
  Forall (λ x, level (VOccupying k l) < level x) b ∧
  w_lock (knows a) = w_lock (knows tr) ∧ w_model (knows a) = w_model (knows tr) ∧ w_node (knows a) = w_node (knows tr) ∧
  w_live (knows a) = w_live (knows tr) ∧ (∀ t, w_now (knows tr) = Some t → VTime t ∈ b).
Proof. found_last tr. Qed.

Lemma stage_from tr id st : w_stage (knows tr) = Some (id, st) → ∃ a b, tr = a ++ VState id st :: b ∧
  Forall (λ x, 5 < level x) b ∧
  w_lock (knows a) = w_lock (knows tr) ∧ w_model (knows a) = w_model (knows tr) ∧ w_node (knows a) = w_node (knows tr) ∧
  w_live (knows a) = w_live (knows tr) ∧ w_rows (knows a) = w_rows (knows tr) ∧ w_now (knows a) = w_now (knows tr).
Proof. found_last tr. Qed.

(** Whoever knows all of it found it out one after the other, before the claim. *)
Lemma claimed_one_by_one tr k m n g l id st :
  w_lock (knows tr) = Some k → w_model (knows tr) = Some m → w_node (knows tr) = Some n → w_live (knows tr) = Some g →
  w_rows (knows tr) = Some l → w_stage (knows tr) = Some (id, st) →
  ∃ a b c, tr = a ++ VOccupying l.1 l.2 :: b ++ VState id st :: c ∧
    one_by_one [VHeld k; VGot m; VNode n; VLive g] a ∧ Forall (λ x, 5 < level x) (b ++ c) ∧
    (∀ t, w_now (knows tr) = Some t → VTime t ∈ b).
Proof.
  intros Hk Hm Hn Hg Hl Hst. destruct l as [node l]. cbn [fst snd].
  destruct (stage_from _ _ _ Hst) as (a1&c&->&Hc&E1&E2&E3&E4&E5&E6). rewrite <- E1, <- E2, <- E3, <- E4, <- E5, <- E6 in *.
  destruct (rows_from _ _ _ Hl) as (a2&b&->&Hb&F1&F2&F3&F4&F5). rewrite <- F1, <- F2, <- F3, <- F4 in *.
  destruct (live_from _ _ Hg) as (a3&b3&->&H3&G1&G2&G3). rewrite <- G1, <- G2, <- G3 in *.
  destruct (node_from _ _ Hn) as (a4&b4&->&H4&I1&I2). rewrite <- I1, <- I2 in *.
  destruct (model_from _ _ Hm) as (a5&b5&->&H5&J1). rewrite <- J1 in *.
  exists (((a5 ++ VGot m :: b5) ++ VNode n :: b4) ++ VLive g :: b3), b, c.
  split; [by rewrite <- (app_assoc (_ ++ VLive g :: b3))|]. split; [|split; [by apply Forall_app|done]].
  change [VHeld k; VGot m; VNode n; VLive g] with ((([VHeld k] ++ [VGot m]) ++ [VNode n]) ++ [VLive g]).
  apply one_by_one_snoc; [apply one_by_one_snoc; [apply one_by_one_snoc; [by apply lock_from|..]|..]|..]; try done;
    repeat (apply Forall_cons; split; [cbn; lia|]); by apply Forall_nil.
Qed.

(** ** Duties *)

Section Duties.
Context (agents_enabled : bool) (direct : list RuntimeKind) (valid_ref : RuntimeKind → string → bool).
Context (frees : bool) (headroom : spec_float).

(** Under a lock, the row was read as downloaded, its node's memory was counted, and the
    budget had room for it. *)
Definition admits (w : watch) (id : string) : Prop :=
  ∃ lock m n live l, w_lock w = Some lock ∧ w_model w = Some m ∧ model_id m = id ∧ effective_state m = DOWNLOADED ∧
    w_node w = Some n ∧ node_id n = model_node m ∧ w_live w = Some live ∧ w_rows w = Some (model_node m, l) ∧
    bool_decide (is_Some (w_now w)) = frees ∧ assert_can_load headroom m n (charged (w_now w) l) live = Ret tt.

(** The row was read, and the runtime of its node is this one. *)
Definition addressed (w : watch) (id : string) (r : target) (ref : string) : Prop :=
  ∃ m n, w_model w = Some m ∧ model_id m = id ∧ w_node w = Some n ∧ node_id n = model_node m ∧
    for_node agents_enabled direct (Some n) (runtime m) = Some r ∧ ref = model_ref m.

Definition resident (w : watch) (id : string) : Prop :=
  ∃ m, w_model w = Some m ∧ model_id m = id ∧ effective_state m = LOADED.

Definition saves (w : watch) (m : Model) : Prop :=
  lifecycle m = NOT_DOWNLOADED ∨ ∃ m0, w_model w = Some m0 ∧ model_id m = model_id m0 ∧ lifecycle m = lifecycle m0.

Definition may (_ : list mevent) (R : Type) (q : meff R) : R → Prop :=
  match q in meff R return R → Prop with
  | MRequire a s => λ r, match r with inr _ => s ∈ scopes a | inl _ => True end
  | MGet id | MPeek id => λ r, match r with inr (Some m) => model_id m = id | _ => True end
  | MNode id | MPeekNode id => λ r, match r with inr (Some n) => node_id n = id | _ => True end
  | _ => λ _, True
  end.

(** A state that is owed is the next thing committed. *)
Definition pays (w : watch) (R : Type) (q : meff R) : Prop :=
  match w_owed w with
  | None => True
  | Some s => match q with MCommitState id s' => s' = s ∧ fst <$> w_stage w = Some id | _ => False end
  end.

Definition due (w : watch) (R : Type) (q : meff R) : Prop :=
  match q with
  | MHold _ => w_lock w = None
  | MUnhold n => w_lock w = Some n
  | MOccupying _ => is_Some (w_lock w) ∧ w_wrote w = false
  | MCommitState id LOADING => admits w id
  | MCommitState id UNLOADING => resident w id
  | MLoad r ref c => ∃ id, w_stage w = Some (id, LOADING) ∧ admits w id ∧ addressed w id r ref
  | MUnload r ref => ∃ id, w_stage w = Some (id, UNLOADING) ∧ resident w id ∧ addressed w id r ref
  | MCommitIntent id b => is_Some (w_actor w) ∧ (resident w id ∨ b = true ∧ admits w id)
  | MSetDesired _ _ => is_Some (w_actor w)
  | MWrite (SetDesired _ _) => False
  | MWrite (SetState id LOADED) => w_stage w = Some (id, LOADING)
  | MWrite (SetState id DOWNLOADED) => w_stage w = Some (id, UNLOADING)
  | MWrite (SetState _ DOWNLOADING) => is_Some (w_actor w)
  | MWrite (SetState _ _) => False
  | MWrite (SaveModel m) => w_wrote w = false ∧ is_Some (w_actor w) ∧ saves w m
  | MWrite (DeleteModel _) => is_Some (w_actor w)
  | _ => True
  end.

Definition must (tr : list mevent) (R : Type) (q : meff R) : Prop := pays (knows tr) R q ∧ due (knows tr) R q.

Abbreviation mobeys p Q tr := (obeys log may must p (λ o (_ : unit) tr', Q o tr') tt tr).

(** An operation of a request ends where its transaction may: nothing is owed, and the
    lock is the one it started with. *)
Definition ready (lock : option string) (tr : list mevent) : Prop :=
  w_lock (knows tr) = lock ∧ w_owed (knows tr) = None.
(** Where it starts. *)
Definition begins (lock : option string) (tr : list mevent) : Prop := ready lock tr ∧ w_wrote (knows tr) = false.

Ltac see := unfold must, pays, due, begins, ready in *; cbn [log is_inr]; repeat rewrite knows_snoc; cbn [watch_step log is_inr
  w_lock w_actor w_model w_node w_live w_rows w_now w_stage w_owed w_wrote fst fmap option_fmap option_map] in *.
(** One call of a program, answered in every way. *)
Ltac call_step :=
  match goal with
  | |- must _ _ _ ∧ _ => split; [|intros ?answer ?Hanswer]
  | x : (mexn + _)%type |- _ => destruct x
  | |- obeys _ _ _ ?p _ _ _ => match p with context [match ?x with _ => _ end] => destruct x eqn:? end
  end.
Ltac walk_tries := cbn [obeys and_then mbind prog_bind prog_then invoke ask or_throw negb attempt catch finally].
Ltac walk := repeat (walk_tries; cbn [may] in *; try done; try call_step).

(** What a guard found out. *)
Ltac bools := repeat match goal with
  | H : bool_decide _ = true |- _ => apply bool_decide_eq_true in H
  | H : bool_decide _ = false |- _ => apply bool_decide_eq_false in H
  | H : ¬ ¬ _ |- _ => apply dec_stable in H
  | H : is_Some _ |- _ => destruct H as [??]
  | H : Some _ = Some _ |- _ => injection H as H
  end.
Ltac admitting := bools; subst; eexists _, _, _, _, _;
  split_and!; [reflexivity..|assumption|reflexivity|assumption|reflexivity|
    match goal with H : node_id _ = _ |- _ => rewrite H; reflexivity end|
    match goal with H : frees = _ |- _ => rewrite H; reflexivity end|
    match goal with H : assert_can_load _ _ _ _ _ = Ret ?a |- _ => destruct a; exact H end].
Ltac residing := bools; subst; eexists; split_and!; [reflexivity|reflexivity|assumption].
Ltac addressing := bools; subst; eexists _, _; split_and!; [reflexivity|reflexivity|reflexivity|congruence|assumption|reflexivity].

Ltac knowing := match goal with H : knows _ = _ |- _ => rewrite ?H end; cbn.
(** What a trace of a ready operation is known to show. *)
Ltac start tr := let Hl := fresh in let Ho := fresh in let Hw := fresh in
  first [intros [[Hl Ho] Hw]|intros [Hl Ho]];
  destruct (knows tr) as [?lock ?actor ?m0 ?n0 ?live0 ?rows0 ?now0 ?stage0 ?owed0 ?wrote0] eqn:?Hw; cbn [w_lock w_actor w_owed w_wrote] in *; subst.

Lemma load_ok who id record_intent lock tr :
  begins (Some lock) tr → (record_intent = true → is_Some (w_actor (knows tr))) →
  mobeys (_load agents_enabled direct frees headroom who id record_intent) (λ _ tr', ready (Some lock) tr') tr.
Proof.
  unfold begins, ready. start tr. intros Ha.
  unfold _load, _require, _require_node, _runtime_on, declared_context_for, _commit_intent, call_runtime, _prepare_token_counter, catch.
  walk.
  all: see; knowing; try (by split); (split; [exact I|]).
  all: try (split; [by apply Ha|]).
  all: first [left; residing | right; split; [done|admitting] | admitting
             | eexists; split; [reflexivity|split; [admitting|addressing]] | by split].
Qed.

Lemma unload_ok who id withdraw_intent lock tr :
  ready lock tr → (withdraw_intent = true → is_Some (w_actor (knows tr))) →
  mobeys (_unload agents_enabled direct who id withdraw_intent) (λ _ tr', ready lock tr') tr.
Proof.
  unfold ready. start tr. intros Ha.
  unfold _unload, _require, _require_node, _runtime_on, _commit_intent, call_runtime, catch.
  walk.
  all: see; knowing; try (by split); (split; [exact I|]).
  all: try (split; [by apply Ha|]).
  all: first [residing | left; residing | eexists; split; [reflexivity|split; [residing|addressing]] | by split].
Qed.

Lemma session_scope_ok {A} (p : mprog A) lock tr :
  mobeys p (λ _ tr', ready lock tr') tr → mobeys (session_scope p) (λ _ tr', begins lock tr') tr.
Proof.
  intros Hp. unfold session_scope. apply obeys_catch, obeys_bind. eapply obeys_mono; [|exact Hp].
  intros [e|a] [] tr'; start tr'; walk; see; knowing; by split_and!.
Qed.

Lemma hold_ok {A} node (body : bool → mprog A) tr :
  begins None tr → (∀ tr', begins (Some node) tr' → w_actor (knows tr') = w_actor (knows tr) →
    mobeys (body true) (λ _ tr2, ready (Some node) tr2) tr') →
  (∀ tr', ready None tr' → mobeys (body false) (λ _ tr2, ready None tr2) tr') →
  mobeys (_hold_node node body) (λ _ tr', ready None tr') tr.
Proof.
  unfold begins at 1, ready at 1. start tr. intros Hin Hout. unfold _hold_node.
  walk_calls. split; [see; by knowing|]. intros [e|[]] _; cbn.
  - see. by knowing.
  - apply obeys_finally. eapply obeys_mono; [|apply Hin; see; by knowing].
    intros o [] tr'. start tr'. walk; see; by knowing.
  - apply obeys_finally. eapply obeys_mono; [|apply Hout; see; by knowing].
    intros o [] tr'. start tr'. walk; see; by knowing.
Qed.

Abbreviation fine p lock := (∀ tr, begins lock tr → mobeys p (λ _ tr', ready lock tr') tr).

(** A program none of whose calls are due anything. *)
Ltac unwatched := unfold begins, ready; intros tr; start tr; walk; see; knowing; by split.

Lemma listing_ok a : fine (list_all a) None.
Proof. unfold list_all. unwatched. Qed.
Lemma get_ok a id : fine (get a id) None.
Proof. unfold get, _require. unwatched. Qed.
Lemma declared_context_length_ok a ref : fine (declared_context_length a ref) None.
Proof. unfold declared_context_length. unwatched. Qed.

Ltac authorised := see; knowing; try (by split); (split; [exact I|]); try (by eexists).

Lemma register_ok a name ref k node caps p : fine (register agents_enabled direct valid_ref a name ref k node caps p) None.
Proof.
  unfold begins, ready. intros tr. start tr.
  unfold register, _require_node, _require_runtime, _runtime_on, validate_ref, declared_context_for, _assert_declared_capacity.
  walk; authorised. all: split; [done|split; [by eexists|by left]].
Qed.

Lemma edit_ok a id e : fine (update agents_enabled direct valid_ref a id e) None.
Proof.
  unfold begins, ready. intros tr. start tr.
  unfold update, _require, _require_node, _require_runtime, _runtime_on, validate_ref, declared_context_for, _assert_declared_capacity,
    _referenced_by_policy.
  walk; authorised.
  all: split; [done|split; [by eexists|right; eexists; split_and!; reflexivity]].
Qed.

Lemma removal_ok a id : fine (delete a id) None.
Proof. unfold begins, ready. intros tr. start tr. unfold delete, _require, _referenced_by_policy. walk; authorised. Qed.

Lemma set_desired_residency_ok a id b : fine (set_desired_residency a id b) None.
Proof. unfold begins, ready. intros tr. start tr. unfold set_desired_residency, _require. walk; authorised. Qed.

Lemma start_ok a id : fine (start a id) None.
Proof. unfold begins, ready. intros tr. start tr. unfold start, _require. walk; authorised. Qed.

Lemma download_ok id job : fine (run agents_enabled direct id job) None.
Proof.
  unfold begins, ready. intros tr. start tr. unfold run, _fail, catch. walk.
  all: try match goal with o : option Node |- _ => destruct o end; see; knowing; by split.
Qed.

Ltac quits := walk_calls; see; knowing; by split.
(** The first two calls of an operator's request: allowed, and the row is there. *)
Ltac opening :=
  walk_calls; split; [quits|]; intros [?|[]] _; [quits|]; walk_calls; split; [quits|];
  intros [?|[?m|]] _; [quits| |quits]; walk_calls.

Lemma load_request_ok a id : fine (load agents_enabled direct frees headroom a id) None.
Proof.
  unfold begins at 1, ready at 1. intros tr. start tr. unfold load, _require. opening.
  apply hold_ok; [see; by knowing| |].
  - intros tr' Hr Ha. cbv beta iota. apply load_ok; [done|]. intros _. rewrite Ha. see. knowing. by eexists.
  - intros tr' Hr. by walk.
Qed.

Lemma unload_request_ok a id : fine (unload agents_enabled direct a id) None.
Proof.
  unfold begins at 1, ready at 1. intros tr. start tr. unfold unload, _require. opening.
  apply unload_ok; see; knowing; [done|]. intros _. by eexists.
Qed.

Lemma repin_ok a id digest : fine (repin agents_enabled direct a id digest) None.
Proof.
  unfold begins at 1, ready at 1. intros tr. start tr. unfold repin, _require, _require_node, _runtime_on.
  opening. split; [quits|]. intros [e|[n|]] _; [quits| |quits]. walk_calls.
  destruct (for_node _ _ _ _) as [r|]; [|quits]. walk_calls. destruct (pins r); [|quits]. walk_calls.
  apply obeys_bind. eapply obeys_mono; [|apply hold_ok; [quits| |]].
  - intros [e|a'] [] tr'; [done|]. start tr'. walk; see; knowing; by split.
  - intros tr'. start tr'. intros _. walk; see; knowing; by split.
  - intros tr'. start tr'. walk; see; knowing; by split.
Qed.

Lemma jobs_ok node l tr : begins (Some node) tr →
  mobeys (jobs agents_enabled direct frees headroom l) (λ _ tr', ready (Some node) tr') tr.
Proof.
  revert tr. induction l as [|j l IH]; intros tr Hr; [by destruct Hr|]. cbn [jobs]. apply obeys_bind, obeys_attempt.
  eapply obeys_mono with (Q := λ _ _ tr', begins (Some node) tr'); [intros [e|[]] [] tr' Hr'; by apply IH|].
  destruct j; cbn [restorer]; apply obeys_bind.
  - eapply obeys_mono; [|apply session_scope_ok, load_ok; [exact Hr|done]]. by intros [e|m] [] tr' Hr'.
  - eapply obeys_mono; [|apply session_scope_ok, unload_ok; [apply Hr|done]]. by intros [e|m] [] tr' Hr'.
Qed.

Lemma pass_ok node l : fine (reconciler_pass agents_enabled direct frees headroom node l) None.
Proof. intros tr Hr. apply hold_ok; [done| |]; intros tr' Hr'; [intros _; cbv beta iota; by apply jobs_ok|exact Hr']. Qed.

(** The requests, the detached downloads, and the passes of the reconciler. *)
Inductive served : mprog unit → Prop :=
  | serve_list a : served (request (list_all a))
  | serve_get a id : served (request (get a id))
  | serve_native a ref : served (request (declared_context_length a ref))
  | serve_register a name ref k node caps p :
      served (request (register agents_enabled direct valid_ref a name ref k node caps p))
  | serve_update a id e : served (request (update agents_enabled direct valid_ref a id e))
  | serve_delete a id : served (request (delete a id))
  | serve_load a id : served (request (load agents_enabled direct frees headroom a id))
  | serve_unload a id : served (request (unload agents_enabled direct a id))
  | serve_repin a id d : served (request (repin agents_enabled direct a id d))
  | serve_intent a id b : served (request (set_desired_residency a id b))
  | serve_start a id : served (request (start a id))
  | serve_run id job : served (run agents_enabled direct id job)
  | serve_pass node l : served (reconciler_pass agents_enabled direct frees headroom node l).

Lemma request_ok {A} (p : mprog A) : fine p None → mobeys (request p) (λ _ _, True) [].
Proof.
  intros Hp. unfold request. apply obeys_bind. eapply obeys_mono; [|apply session_scope_ok, Hp; by split].
  by intros [e|a] [] tr'.
Qed.

Lemma lifecycle_requests_ok p : served p → mobeys p (λ _ _, True) [].
Proof.
  intros []; try (apply request_ok;
    auto using listing_ok, get_ok, declared_context_length_ok, register_ok, edit_ok, removal_ok, load_request_ok, unload_request_ok,
      repin_ok, set_desired_residency_ok, start_ok).
  - eapply obeys_mono; [|apply download_ok; by split]. done.
  - eapply obeys_mono; [|apply pass_ok; by split]. done.
Qed.
End Duties.
