(* ===== verification/LifecycleWorlds.v ===== *)
(** Any number of operators' requests, downloads and passes of the reconciler over one
    registry: what they may be answered, what every world they reach keeps, and what is
    guaranteed of a node's memory and of the wish to keep a model resident.

    A request is one transaction that sees the committed rows and its own writes (read
    committed); a row it has written waits for it.  A state or an intent written in a
    transaction of its own needs the row free, and is visible at once.  The lock of a node
    is tried, never waited for, and goes with whoever holds it. *)

From stdpp Require Import pretty.
From S2P Require Import Actors.
From S2P Require Export LifecycleRuns.
From S2P Require Import Interleaving.

(** * The world *)

Record mstate := mk_mstate {
  rows : table; dirty : gmap nat delta; locks : gmap string nat; drawn : gset string; clk : Z
}.

Definition wrote (i : nat) (s : mstate) : delta := default ∅ (dirty s !! i).
Definition view (i : nat) (s : mstate) : table := over (wrote i s) (rows s).

Definition set_rows (t : table) (s : mstate) : mstate := mk_mstate t (dirty s) (locks s) (drawn s) (clk s).
Definition set_dirty (d : gmap nat delta) (s : mstate) : mstate := mk_mstate (rows s) d (locks s) (drawn s) (clk s).
Definition set_locks (l : gmap string nat) (s : mstate) : mstate := mk_mstate (rows s) (dirty s) l (drawn s) (clk s).
Definition add_drawn (x : string) (s : mstate) : mstate :=
  mk_mstate (rows s) (dirty s) (locks s) ({[x]} ∪ drawn s) (clk s).
Definition set_clk (t : Z) (s : mstate) : mstate := mk_mstate (rows s) (dirty s) (locks s) (drawn s) t.

Definition write (i : nat) (d : delta) (s : mstate) : mstate := set_dirty (<[i := d ∪ wrote i s]> (dirty s)) s.
Definition put (d : delta) (s : mstate) : mstate := set_rows (over d (rows s)) s.
Definition commit (i : nat) (s : mstate) : mstate := set_dirty (base.delete i (dirty s)) (put (wrote i s) s).
Definition rollback (i : nat) (s : mstate) : mstate := set_dirty (base.delete i (dirty s)) s.
Definition leave (i : nat) (s : mstate) : mstate := set_locks (filter (λ x, x.2 ≠ i) (locks s)) (rollback i s).

(** The rows that are written. *)
Abbreviation keys d := (dom (D:=gset string) d).

(** No transaction, or none but that of the i-th request, holds a row of [d]. *)
Definition unheld (d : delta) (s : mstate) : bool := bool_decide (map_Forall (λ _ e, keys d ## keys e) (dirty s)).
Definition unlocked (i : nat) (d : delta) (s : mstate) : bool :=
  bool_decide (map_Forall (λ j e, j = i ∨ keys d ## keys e) (dirty s)).

Definition row (t : table) (id : string) : option Model :=
  match t !! id with Some m => if bool_decide (model_id m = id) then Some m else None | None => None end.

Definition named (t : table) (name : string) (o : option Model) : Prop :=
  match o with
  | Some m => alias m = name ∧ ∃ k, t !! k = Some m
  | None => ∀ k m, t !! k = Some m → alias m ≠ name
  end.

Definition version_of (t : table) (id : string) : option Z := desired_version <$> t !! id.

Definition broken {A} (r : mexn + A) : Prop := r = inl BackendError.

Definition answers (i : nat) (s : mstate) (R : Type) (q : meff R) : R → mstate → Prop :=
  match q in meff R return R → mstate → Prop with
  | MRequire a sc => λ r s', s' = s ∧ r = (if bool_decide (sc ∈ scopes a) then inr tt else inl NotAuthorized)
  | MGet id => λ r s', s' = s ∧ (broken r ∨ r = inr (row (view i s) id))
  | MList => λ r s', s' = s ∧ (broken r ∨ r = inr (view i s))
  | MByAlias name => λ r s', s' = s ∧ (broken r ∨ ∃ o, r = inr o ∧ named (view i s) name o)
  | MNode id => λ r s', s' = s ∧ match r with inr (Some n) => node_id n = id | _ => True end
  | MPeekNode id => λ r s', s' = s ∧ match r with inr (Some n) => node_id n = id | _ => True end
  | MPeek id => λ r s', s' = s ∧ (broken r ∨ r = inr (row (rows s) id))
  | MOccupying node => λ r s', s' = s ∧
      (broken r ∨ ∃ l, r = inr l ∧ l ≡ₚ (map_to_list (occupying node (view i s))).*2)
  | MWrite st => λ r s', (broken r ∧ s' = s) ∨
      ∃ d, affect st (view i s) = Some d ∧ unlocked i d s = true ∧ r = inr tt ∧ s' = write i d s
  | MSetDesired id b => λ r s', (broken r ∧ s' = s) ∨
      ∃ d, affect (SetDesired id b) (view i s) = Some d ∧ unlocked i d s = true ∧
        r = inr (version_of (over d (view i s)) id) ∧ s' = write i d s
  | MCommit => λ r s', (r = inr tt ∧ s' = commit i s) ∨ (broken r ∧ (s' = rollback i s ∨ s' = commit i s))
  | MRollback => λ _ s', s' = rollback i s
  | MCommitState id st => λ _ s', s' = s ∨
      (unheld (set_state id st (rows s)) s = true ∧ s' = put (set_state id st (rows s)) s)
  | MCommitIntent id b => λ r s', (broken r ∧ s' = s) ∨
      (unheld (set_desired_residency_row id b (rows s)) s = true ∧
       s' = put (set_desired_residency_row id b (rows s)) s ∧ (broken r ∨ r = inr (version_of (rows s') id)))
  | MHold node => λ r s', (r ≠ inr true ∧ s' = s) ∨
      (locks s !! node = None ∧ s' = set_locks (<[node := i]> (locks s)) s ∧ (r = inr true ∨ broken r))
  | MUnhold node => λ r s', (broken r ∧ s' = s) ∨
      (locks s !! node = Some i ∧ s' = set_locks (base.delete node (locks s)) s ∧ (r = inr tt ∨ broken r))
  | MDatabaseTime => λ r s', s' = s ∧ (broken r ∨ r = inr (clk s))
  | MFresh => λ r s', (r ∉ drawn s) ∧ s' = add_drawn r s
  | _ => λ _ s', s' = s
  end.

(** Time passes; the heartbeat writes what a runtime reported, as of an instant before the
    write; an agent's pin is written. *)
Inductive passes (s : mstate) : mstate → Prop :=
  | pass_time t : (clk s ≤ t)%Z → passes s (set_clk t s)
  | pass_observed id o gb at_ :
      (o = None → at_ = None) → (∀ t, at_ = Some t → (t ≤ clk s)%Z) →
      unheld (update_row id (with_observation o gb at_) (rows s)) s = true →
      passes s (put (update_row id (with_observation o gb at_) (rows s)) s)
  | pass_pinned id d :
      unheld (update_row id (with_pin d) (rows s)) s = true → passes s (put (update_row id (with_pin d) (rows s)) s).

(** Where it starts: nothing under way, and identifiers in use have been drawn. *)
Record starts (s : mstate) : Prop := {
  st_dirty : dirty s = ∅; st_locks : locks s = ∅;
  st_rows : ∀ id m, rows s !! id = Some m → model_id m = id ∧ id ∈ drawn s
}.

Abbreviation mworld := (world (Eff := meff) (X := mexn) (Ev := mevent) (W := mstate)).
Abbreviation mhist := (list (nat * mevent * mstate)).

Section Theory.
Context (agents_enabled : bool) (direct : list RuntimeKind) (valid_ref : RuntimeKind → string → bool).
Context (frees : bool) (headroom : spec_float).
Abbreviation serves := (served agents_enabled direct valid_ref frees headroom).
Abbreviation duty := (must agents_enabled direct frees headroom).
Abbreviation mstep := (step log answers leave serves passes).

Definition reachable (w : mworld) : Prop := ∃ s, starts s ∧ rtc mstep (idle s) w.

Lemma lifecycle_answers_allowed i s R (q : meff R) r s' tr : answers i s R q r s' → may tr R q r.
Proof.
  destruct q; cbn; try done.
  - intros [_ ->]. by case_bool_decide.
  - intros [_ [->| ->]]; [done|]. unfold row. repeat case_match; try done. simplify_eq.
    match goal with H : bool_decide _ = true |- _ => by apply bool_decide_eq_true in H end.
  - by intros [_ ?].
  - intros [_ [->| ->]]; [done|]. unfold row. repeat case_match; try done. simplify_eq.
    match goal with H : bool_decide _ = true |- _ => by apply bool_decide_eq_true in H end.
  - by intros [_ ?].
Qed.

Lemma requests_ok p : serves p → obeys log may duty p (λ _ _ _, True) tt [].
Proof. apply lifecycle_requests_ok. Qed.

Lemma lifecycle_orderly w : reachable w → orderly log may duty w.
Proof.
  intros (s&_&Hr). by eapply (steps_orderly log answers leave serves passes may duty lifecycle_answers_allowed requests_ok).
Qed.

Lemma lifecycle_ind (P : mworld → Prop) :
  (∀ s, starts s → P (idle s)) → (∀ w w', reachable w → orderly log may duty w → mstep w w' → P w → P w') →
  ∀ w, reachable w → P w.
Proof.
  intros H0 Hs w (s&Hst&Hr).
  refine (proj2 (steps_ind log answers leave serves passes may duty lifecycle_answers_allowed requests_ok P s w (H0 s Hst) _ Hr)).
  intros w1 w2 Hr1 Ho Hstep HP. eapply (Hs w1); [by exists s|done..].
Qed.

(** ** The lock of a node *)

Abbreviation holds tr := (w_lock (knows tr)).

(** A call takes a lock that was free, gives its own back, or leaves the locks alone. *)
Lemma answers_locks i s R (q : meff R) r s' tr : duty tr R q → answers i s R q r s' →
  (locks s' = locks s ∧ ∀ n, log R q r ≠ VHeld n) ∨
  (∃ n, locks s !! n = None ∧ locks s' = <[n := i]> (locks s) ∧ holds tr = None ∧ (log R q r = VHeld n ∨ log R q r = VFree)) ∨
  (∃ n, locks s !! n = Some i ∧ locks s' = base.delete n (locks s) ∧ log R q r = VFreed n).
Proof.
  intros [_ Hd] Ha. destruct q; cbn [answers log due] in *.
  all: try (left; split; [repeat match goal with
      | H : _ ∧ _ |- _ => destruct H | H : _ ∨ _ |- _ => destruct H | H : ∃ _, _ |- _ => destruct H
      | H : ?x = _ |- _ => subst x end; done|intros n; by repeat case_match]).
  - destruct Ha as [[Hr ->]|(Hn&->&Hr)].
    + left. split; [done|]. intros n. destruct r as [|[]]; done.
    + right. left. exists node. split_and!; [done|done|done|]. destruct Hr as [->| ->]; auto.
  - destruct Ha as [[-> ->]|(Hn&->&Hr)]; [by left|]. right. right. by exists node.
Qed.

Lemma holds_step tr e n : holds (tr ++ [e]) = Some n → e = VHeld n ∨ holds tr = Some n ∧ ∀ k, e ≠ VFreed k.
Proof.
  rewrite knows_snoc. destruct (knows tr), e; cbn; try (by right); try done. intros [= ->]. by left.
Qed.

Definition alive (w : mworld) (i : nat) : Prop := ∃ t, tasks w !! i = Some t ∧ finished (program t) = false.

(** Whoever is known to hold a lock does. *)
Definition locked (w : mworld) : Prop :=
  ∀ i n, alive w i → holds (events_of i (history w)) = Some n → locks (state w) !! n = Some i.

Lemma call_locked w k R (q : meff R) r s' : locked w → alive w k → duty (events_of k (history w)) R q →
  answers k (state w) R q r s' → ∀ i n, i = k ∨ alive w i →
  holds (events_of i (history w ++ [(k, log R q r, s')])) = Some n → locks s' !! n = Some i.
Proof.
  intros Hw Hk Hd Ha i n Hi Hn. assert (alive w i) as Hal by (by destruct Hi as [->|?]).
  destruct (answers_locks _ _ _ _ _ _ _ Hd Ha) as [[-> He]|[(n'&Hfree&->&Hnone&He)|(n'&Hown&->&He)]].
  - rewrite events_of_snoc in Hn. case_bool_decide as Hik; [|rewrite app_nil_r in Hn; by apply Hw].
    subst k. apply holds_step in Hn as [Hn|[Hn _]]; [by destruct (He n)|by apply Hw].
  - rewrite events_of_snoc in Hn. case_bool_decide as Hik.
    + subst k. apply holds_step in Hn as [Hn|[Hn _]]; [|congruence].
      destruct He as [He|He]; rewrite He in Hn; [|done]. injection Hn as ->. apply lookup_insert_eq.
    + rewrite app_nil_r in Hn. rewrite lookup_insert_ne; [by apply Hw|]. intros ->.
      pose proof (Hw _ _ Hal Hn). congruence.
  - rewrite events_of_snoc in Hn. case_bool_decide as Hik.
    + subst k. apply holds_step in Hn as [Hn|[_ Hn]]; [congruence|]. by destruct (Hn n').
    + rewrite app_nil_r in Hn. pose proof (Hw _ _ Hal Hn). rewrite lookup_delete_ne; [done|]. intros ->. congruence.
Qed.

Lemma leave_locks i k s n : locks (leave k s) !! n = Some i → locks s !! n = Some i ∧ i ≠ k.
Proof. cbn. by rewrite map_lookup_filter_Some. Qed.
Lemma leave_keeps i k s n : i ≠ k → locks s !! n = Some i → locks (leave k s) !! n = Some i.
Proof. intros. cbn. by rewrite map_lookup_filter_Some. Qed.

Lemma passes_locks s s' : passes s s' → locks s' = locks s.
Proof. by intros []. Qed.

(** The same of every instant of the past, for who was alive then. *)
Definition locked_then (w : mworld) : Prop :=
  ∀ h1 j e s h2, history w = h1 ++ (j, e, s) :: h2 → ∀ i n, (i = j ∨ alive w i ∨ events_of i h2 ≠ []) →
    holds (events_of i (h1 ++ [(j, e, s)])) = Some n → locks s !! n = Some i.

Lemma reachable_locked w : reachable w → locked w ∧ locked_then w.
Proof.
  revert w. apply lifecycle_ind.
  { intros s _. split; [by intros i n|]. by intros [|] ????. }
  intros w w' Hr Ho Hs [Hl Ht]. destruct Hs as [k t R q kont r s' w Hk Hp Ha|k t e w Hk|p w Hp|s' w He].
  - assert (alive w k) as Hal by (exists t; by rewrite Hp).
    assert (duty (events_of k (history w)) R q) as Hd.
    { rewrite <- (o_log _ _ _ _ Ho _ _ Hk). by eapply orderly_must. }
    pose proof (call_locked _ _ _ _ _ _ Hl Hal Hd Ha) as Hc.
    assert (∀ i, alive (mk_world (after_call leave k (kont r) s') (<[k := mk_task (learnt t ++ [log R q r]) (kont r)]> (tasks w))
        (history w ++ [(k, log R q r, s')])) i → (i = k ∧ finished (kont r) = false) ∨ i ≠ k ∧ alive w i) as Hcase.
    { intros i (t'&Ht'&Hf). cbn in Ht'. apply lookup_changed in Ht' as [[-> ->]|[Hne Ht']]; [by left|right]. split; [done|]. by exists t'. }
    split.
    + intros i n Hi Hn. cbn [state history] in *. apply Hcase in Hi as [[-> Hf]|[Hne Hi]].
      * unfold after_call. rewrite Hf. eapply Hc; [by left|done].
      * assert (locks s' !! n = Some i) by (eapply Hc; [by right|done]). unfold after_call. case_match; [by apply leave_keeps|done].
    + intros h1 j e s h2 Hh i n Hi Hn. cbn [history] in Hh. destruct h2 as [|x h2 _] using rev_ind.
      * apply app_inj_tail in Hh as [<- [= <- <- <-]]. eapply Hc; [|exact Hn].
        destruct Hi as [->|[Hi|Hi]]; [by left| |done]. apply Hcase in Hi as [[-> _]|[_ Hi]]; [by left|by right].
      * rewrite app_comm_cons, app_assoc in Hh. apply app_inj_tail in Hh as [Hh <-].
        eapply Ht; [exact Hh| |exact Hn]. destruct Hi as [->|[Hi|Hi]]; [by left| |].
        -- right. left. apply Hcase in Hi as [[-> _]|[_ Hi]]; done.
        -- right. destruct (decide (i = k)) as [->|Hne]; [by left|right]. intros Hnil. apply Hi.
           rewrite events_of_snoc, bool_decide_eq_false_2, app_nil_r by done. done.
  - assert (∀ i, alive (mk_world (leave k (state w)) (<[k := mk_task (learnt t) (Throw e)]> (tasks w)) (history w)) i →
      i ≠ k ∧ alive w i) as Hcase.
    { intros i (t'&Ht'&Hf). cbn in Ht'. apply lookup_changed in Ht' as [[-> ->]|[Hne Ht']]; [done|]. split; [done|]. by exists t'. }
    split.
    + intros i n Hi Hn. apply Hcase in Hi as [Hne Hi]. cbn. apply leave_keeps; [done|]. by apply Hl.
    + intros h1 j e' s h2 Hh i n Hi Hn. eapply Ht; [exact Hh| |exact Hn].
      destruct Hi as [->|[Hi|Hi]]; [by left| |right; by right]. right. left. by apply Hcase.
  - assert (∀ i, alive (mk_world (state w) (tasks w ++ [mk_task [] p]) (history w)) i →
      alive w i ∨ events_of i (history w) = []) as Hcase.
    { intros i (t'&Ht'&Hf). cbn in Ht'. apply lookup_app_Some in Ht' as [Ht'|[Hge _]]; [left; by exists t'|right].
      apply events_of_none. intros j e s Hj. pose proof (o_who _ _ _ _ Ho _ _ _ Hj). lia. }
    split.
    + intros i n Hi Hn. cbn [state history] in *. apply Hcase in Hi as [Hi|Hi]; [by apply Hl|]. by rewrite Hi in Hn.
    + intros h1 j e s h2 Hh i n Hi Hn. cbn [history] in Hh. destruct Hi as [->|[Hi|Hi]]; [by eapply Ht; eauto| |by eapply Ht; eauto].
      apply Hcase in Hi as [Hi|Hi]; [by eapply Ht; eauto|].
      assert (events_of i (h1 ++ [(j, e, s)]) = []) as Hnil; [|by rewrite Hnil in Hn].
      rewrite Hh in Hi. replace (h1 ++ (j, e, s) :: h2) with ((h1 ++ [(j, e, s)]) ++ h2) in Hi by (by rewrite <- app_assoc).
      rewrite events_of_app in Hi. by apply app_eq_nil in Hi as [? _].
  - split; [|exact Ht]. intros i n Hi Hn. cbn [state history] in *. rewrite (passes_locks _ _ He). by apply Hl.
Qed.

(** ** One load at a time is counted *)

(** Until it is taken or freed again the lock is the same. *)
Lemma quiet_lock a b : Forall (λ x, 1 < level x) b → holds (a ++ b) = holds a.
Proof.
  induction b as [|e b IH] using rev_ind; [by rewrite app_nil_r|]. intros [Hb [He _]%Forall_cons]%Forall_app.
  rewrite app_assoc, knows_snoc, <- (IH Hb). destruct (knows (a ++ b)), e; cbn in *; try done; lia.
Qed.

Lemma history_duty w : reachable w → ∀ h1 i e s h2, history w = h1 ++ (i, e, s) :: h2 →
  ∃ R (q : meff R) r, duty (events_of i h1) R q ∧ log R q r = e ∧ ∃ s0, answers i s0 R q r s.
Proof.
  intros (s0&_&Hr). refine (history_call log answers leave serves passes may duty lifecycle_answers_allowed requests_ok
    (λ i tr e s, ∃ R (q : meff R) r, duty tr R q ∧ log R q r = e ∧ ∃ s0, answers i s0 R q r s) s0 w _ Hr).
  intros w1 i t R q kont r s' _ _ _ Hm Ha. eexists R, q, r. split_and!; [done|done|by eexists].
Qed.

(** Two requests are not known to hold one lock at one call. *)
Lemma one_holder w h1 i e s h2 j n : reachable w → history w = h1 ++ (i, e, s) :: h2 → events_of j h2 ≠ [] →
  holds (events_of i (h1 ++ [(i, e, s)])) = Some n → holds (events_of j (h1 ++ [(i, e, s)])) = Some n → i = j.
Proof.
  intros Hr Hh Hj Hi Hjn. destruct (reachable_locked _ Hr) as [_ Ht].
  pose proof (Ht _ _ _ _ _ Hh i n (or_introl eq_refl) Hi) as H1.
  pose proof (Ht _ _ _ _ _ Hh j n (or_intror (or_intror Hj)) Hjn) as H2. congruence.
Qed.

(** ** What every world keeps *)

(** The wish of a row: it is never changed without a new version. *)
Definition newer (m m' : Model) : Prop :=
  (desired_version m ≤ desired_version m')%Z ∧ (desired_version m = desired_version m' → desired_resident m = desired_resident m').

Lemma newer_refl m : newer m m.
Proof. by split. Qed.
Lemma newer_trans m1 m2 m3 : newer m1 m2 → newer m2 m3 → newer m1 m3.
Proof. intros [H1 H2] [H3 H4]. split; [lia|]. intros Heq. rewrite H2 by lia. apply H4. lia. Qed.

Lemma over_row (d : delta) t id : over d t !! id = match d !! id with Some o => o | None => t !! id end.
Proof. unfold over. rewrite lookup_merge. by destruct (d !! id), (t !! id). Qed.

Lemma update_row_Some id f t id' o : update_row id f t !! id' = Some o → id' = id ∧ ∃ m, t !! id = Some m ∧ o = Some (f m).
Proof.
  unfold update_row. destruct (t !! id) as [m|] eqn:Hm; [|by rewrite lookup_empty].
  intros [<- <-]%lookup_singleton_Some. split; [done|]. by exists m.
Qed.

(** A statement leaves the wish of a row as it was, or newer; only a save makes a row. *)
Lemma statement_row st t d id m' : affect st t = Some d → d !! id = Some (Some m') →
  (∃ m, t !! id = Some m ∧ newer m m') ∨ (t !! id = None ∧ ∃ m, st = SaveModel m).
Proof.
  intros Ha Hd. destruct st; cbn in Ha.
  - injection Ha as <-. apply update_row_Some in Hd as (->&m&Hm&[= ->]). left. exists m. by split.
  - injection Ha as <-. unfold set_capacity_validated in Hd. repeat case_match; try by rewrite lookup_empty in Hd.
    apply lookup_singleton_Some in Hd as [<- [= <-]]. left. eexists. by split.
  - injection Ha as <-. apply update_row_Some in Hd as (->&m&Hm&[= ->]). left. exists m. split; [done|].
    split; cbn; lia.
  - unfold save in Ha. case_match; [done|]. injection Ha as <-. apply lookup_singleton_Some in Hd as [<- [= <-]].
    destruct (t !! model_id m) as [k|] eqn:Hk; [left|right; by eauto]. exists k. by split.
  - injection Ha as <-. unfold delete_row in Hd. case_match; [|by rewrite lookup_empty in Hd].
    by apply lookup_singleton_Some in Hd as [_ ?].
Qed.

Record sound (s : mstate) (h : mhist) : Prop := {
  s_wrote : ∀ i d, dirty s !! i = Some d → w_wrote (knows (events_of i h)) = true;
  s_apart : ∀ i j d e, dirty s !! i = Some d → dirty s !! j = Some e → i ≠ j → keys d ## keys e;
  s_newer : ∀ i d id m m', dirty s !! i = Some d → d !! id = Some (Some m') → rows s !! id = Some m → newer m m'
}.

(** A call that writes nothing. *)
Lemma keeps_same s h i e s' : sound s h → rows s' = rows s → dirty s' = dirty s →
  (∀ ok, e ≠ VCommit ok) → e ≠ VRolledBack → sound s' (h ++ [(i, e, s')]).
Proof.
  intros [H1 H2 H3] Hr Hd Hc Hb. split; rewrite ?Hr, ?Hd; [|done|done].
  intros j d Hj. rewrite events_of_snoc. case_bool_decide; [|rewrite app_nil_r; by eapply H1].
  rewrite knows_snoc. pose proof (H1 _ _ Hj). destruct (knows _), e; cbn in *; try done. by destruct (Hc ok).
Qed.

Lemma keeps_less s h s' : sound s h → rows s' = rows s → dirty s' ⊆ dirty s → sound s' h.
Proof.
  intros [H1 H2 H3] Hr Hd. assert (∀ j d, dirty s' !! j = Some d → dirty s !! j = Some d) as Hold by (intros; by eapply lookup_weaken).
  split; rewrite ?Hr; [intros j d ?; eapply H1; eauto|intros j k d e ??; eapply H2; eauto|intros j d id m m' ?; eapply H3; eauto].
Qed.

(** What one request sees of a row is newer than the row. *)
Lemma view_newer s h i id m k : sound s h → rows s !! id = Some m → view i s !! id = Some k → newer m k.
Proof.
  intros Hs Hm. unfold view, wrote. rewrite over_row. destruct (dirty s !! i) as [d|] eqn:Hd; cbn.
  - destruct (d !! id) as [o|] eqn:Ho; [intros ->; by eapply (s_newer _ _ Hs)|]. rewrite Hm. intros [= <-]. apply newer_refl.
  - rewrite lookup_empty, Hm. intros [= <-]. apply newer_refl.
Qed.

Lemma clean_view s h i : sound s h → w_wrote (knows (events_of i h)) = false → dirty s !! i = None ∧ view i s = rows s.
Proof.
  intros Hs Hw. assert (dirty s !! i = None) as Hd.
  { destruct (dirty s !! i) as [d|] eqn:Hd; [|done]. pose proof (s_wrote _ _ Hs _ _ Hd). congruence. }
  split; [done|]. apply map_eq. intros id. unfold view, wrote. rewrite Hd. cbn. by rewrite over_row, lookup_empty.
Qed.

Lemma keeps_write s h i st d e : sound s h → affect st (view i s) = Some d → unlocked i d s = true →
  ((∃ m, st = SaveModel m) → w_wrote (knows (events_of i h)) = false) →
  e = VWrote st ∨ (∃ id b v, e = VDesired id b v) → sound (write i d s) (h ++ [(i, e, write i d s)]).
Proof.
  intros Hs Ha Hun Hsave He. apply bool_decide_eq_true in Hun.
  assert (∀ j x, dirty (write i d s) !! j = Some x → (j = i ∧ x = d ∪ wrote i s) ∨ (j ≠ i ∧ dirty s !! j = Some x)) as Hcase.
  { intros j x. cbn. rewrite lookup_insert_Some. naive_solver. }
  assert (∀ j x, j ≠ i → dirty s !! j = Some x → keys (d ∪ wrote i s) ## keys x) as Hfree.
  { intros j x Hne Hj. rewrite dom_union_L. destruct (Hun j x Hj) as [?|Hd]; [done|].
    assert (keys (wrote i s) ## keys x) as Hw.
    { unfold wrote. destruct (dirty s !! i) as [y|] eqn:Hi; cbn; [|rewrite dom_empty_L; apply disjoint_empty_l]. by apply (s_apart _ _ Hs i j). }
    apply disjoint_union_l. by split. }
  split.
  - intros j x Hj. rewrite events_of_snoc. apply Hcase in Hj as [[-> ->]|[Hne Hj]].
    + rewrite bool_decide_eq_true_2 by done. rewrite knows_snoc. destruct (knows _).
      by destruct He as [->|(?&?&?&->)].
    + rewrite bool_decide_eq_false_2, app_nil_r by done. by apply (s_wrote _ _ Hs) in Hj.
  - intros j k x y Hj Hk Hne. apply Hcase in Hj as [[-> ->]|[Hj' Hj]], Hk as [[-> ->]|[Hk' Hk]]; [done|by eapply Hfree| |].
    + symmetry. by eapply Hfree.
    + by apply (s_apart _ _ Hs j k).
  - intros j x id m m' Hj Hx Hm. cbn [rows write set_dirty] in Hm. apply Hcase in Hj as [[-> ->]|[Hne Hj]]; [|by eapply (s_newer _ _ Hs)].
    apply lookup_union_Some_raw in Hx as [Hx|[_ Hx]].
    + destruct (statement_row _ _ _ _ _ Ha Hx) as [(k&Hk&Hkm)|[Hnone Hst]].
      * eapply newer_trans; [by eapply view_newer|done].
      * destruct (clean_view _ _ _ Hs (Hsave Hst)) as [_ Hv]. rewrite Hv in Hnone. congruence.
    + unfold wrote in Hx. destruct (dirty s !! i) as [y|] eqn:Hy; cbn in Hx; [|by rewrite lookup_empty in Hx].
      by eapply (s_newer _ _ Hs).
Qed.

(** Rows are written that no transaction still under way holds. *)
Lemma keeps_put s h i d dd e : sound s h → dd ⊆ dirty s → (∀ j x, dd !! j = Some x → keys d ## keys x) →
  (∀ j, is_Some (dd !! j) → w_wrote (knows (events_of j (h ++ [(i, e, set_dirty dd (put d s))]))) = true) →
  sound (set_dirty dd (put d s)) (h ++ [(i, e, set_dirty dd (put d s))]).
Proof.
  intros Hs Hsub Hfree Hw. assert (∀ j x, dd !! j = Some x → dirty s !! j = Some x) as Hold by (intros; by eapply lookup_weaken).
  split; cbn [dirty set_dirty rows put set_rows].
  - intros j x Hj. by apply Hw.
  - intros j k x y ??. eapply (s_apart _ _ Hs); eauto.
  - intros j x id m m' Hj Hx Hm. rewrite over_row in Hm.
    assert (id ∉ keys d) as Hid by (pose proof (Hfree _ _ Hj); apply elem_of_dom_2 in Hx; set_solver).
    apply not_elem_of_dom in Hid. rewrite Hid in Hm. by eapply (s_newer _ _ Hs _ _ _ _ _ (Hold _ _ Hj)).
Qed.

Lemma keeps_rollback s h i e : sound s h → sound (rollback i s) (h ++ [(i, e, rollback i s)]).
Proof.
  intros [H1 H2 H3]. assert (∀ j x, dirty (rollback i s) !! j = Some x → j ≠ i ∧ dirty s !! j = Some x) as Hold.
  { intros j x. cbn. rewrite lookup_delete_Some. naive_solver. }
  split.
  - intros j x [Hne Hj]%Hold. rewrite events_of_snoc, bool_decide_eq_false_2, app_nil_r by done. by eapply H1.
  - intros j k x y [_ Hj]%Hold [_ Hk]%Hold. by eapply H2.
  - intros j x id m m' [_ Hj]%Hold. by eapply H3.
Qed.

Lemma keeps_commit s h i e : sound s h → sound (commit i s) (h ++ [(i, e, commit i s)]).
Proof.
  intros Hs. apply keeps_put; [done|apply delete_subseteq| |].
  - intros j x [Hne Hj]%lookup_delete_Some. unfold wrote. destruct (dirty s !! i) as [d|] eqn:Hd; cbn.
    + by apply (s_apart _ _ Hs i j).
    + rewrite dom_empty_L. apply disjoint_empty_l.
  - intros j [x [Hne Hj]%lookup_delete_Some]. rewrite events_of_snoc, bool_decide_eq_false_2, app_nil_r by done.
    by apply (s_wrote _ _ Hs) in Hj.
Qed.

Lemma keeps_put_unheld s h i d e : sound s h → unheld d s = true → (∀ ok, e ≠ VCommit ok) → e ≠ VRolledBack →
  sound (put d s) (h ++ [(i, e, put d s)]).
Proof.
  intros Hs Hun Hc Hb. apply bool_decide_eq_true in Hun. change (put d s) with (set_dirty (dirty s) (put d s)).
  apply keeps_put; [done..|]. intros j [x Hj]. pose proof (s_wrote _ _ Hs _ _ Hj) as Hw.
  rewrite events_of_snoc. case_bool_decide; [|by rewrite app_nil_r]. rewrite knows_snoc.
  destruct (knows _), e; cbn in *; try done. by destruct (Hc ok).
Qed.

Lemma keeps_call s h i R (q : meff R) r s' : sound s h → duty (events_of i h) R q → answers i s R q r s' →
  sound s' (h ++ [(i, log R q r, s')]).
Proof.
  intros Hs [_ Hd] Ha. destruct q; cbn [answers log due] in *.
  all: try (apply (keeps_same s); [done|..]; [
      repeat match goal with
      | H : _ ∧ _ |- _ => destruct H | H : _ ∨ _ |- _ => destruct H | H : ∃ _, _ |- _ => destruct H
      | H : ?x = _ |- _ => subst x end; done..|by repeat case_match|by repeat case_match]; fail).
  - destruct Ha as [[-> ->]|(d&Ha&Hun&->&->)]; [by apply (keeps_same s)|].
    eapply keeps_write; [done|done|done| |by left]. intros [m ->]. by apply Hd.
  - destruct Ha as [[-> ->]|(d&Ha&Hun&->&->)]; [by apply (keeps_same s)|].
    eapply keeps_write; [done|done|done|by intros [m ?]|right; by eauto].
  - destruct Ha as [[-> ->]|[-> [->| ->]]]; [by apply keeps_commit|by apply keeps_rollback|by apply keeps_commit].
  - subst. by apply keeps_rollback.
  - destruct Ha as [->|[Hun ->]]; [by apply (keeps_same s)|by apply keeps_put_unheld].
  - destruct Ha as [[-> ->]|(Hun&->&_)]; [by apply (keeps_same s)|by apply keeps_put_unheld].
Qed.

Lemma leave_sub i s : rows (leave i s) = rows s ∧ dirty (leave i s) ⊆ dirty s.
Proof. split; [done|]. cbn. apply delete_subseteq. Qed.

(** Only its transaction's end, or a transaction of its own, changes a row, and its wish
    only for a newer one. *)
Lemma calls_rows s h i R (q : meff R) r s' id m m' : sound s h → answers i s R q r s' →
  rows s !! id = Some m → rows s' !! id = Some m' → newer m m'.
Proof.
  intros Hs Ha Hm Hm'.
  assert (rows s' = rows s → newer m m') as Hsame by (intros Hr; rewrite Hr, Hm in Hm'; injection Hm' as <-; apply newer_refl).
  assert (∀ st d, affect st (rows s) = Some d → rows s' = over d (rows s) → newer m m') as Hput.
  { intros st d Had Hr. rewrite Hr, over_row in Hm'. destruct (d !! id) as [o|] eqn:Ho; [subst o|].
    - destruct (statement_row _ _ _ _ _ Had Ho) as [(k&Hk&Hn)|[Hno _]]; congruence.
    - rewrite Hm in Hm'. injection Hm' as <-. apply newer_refl. }
  assert (rows s' = view i s → newer m m') as Hview by (intros Hr; rewrite Hr in Hm'; by eapply view_newer).
  destruct q; cbn [answers] in Ha.
  all: try (apply Hsame; repeat match goal with
      | H : _ ∧ _ |- _ => destruct H | H : _ ∨ _ |- _ => destruct H | H : ∃ _, _ |- _ => destruct H
      | H : ?x = _ |- _ => subst x end; done).
  - destruct Ha as [[_ ->]|[_ [->| ->]]]; [by apply Hview|by apply Hsame|by apply Hview].
  - destruct Ha as [->|[_ ->]]; [by apply Hsame|]. by apply (Hput (SetState id0 s0) (set_state id0 s0 (rows s))).
  - destruct Ha as [[_ ->]|(_&->&_)]; [by apply Hsame|].
    by apply (Hput (SetDesired id0 desired) (set_desired_residency_row id0 desired (rows s))).
Qed.

Lemma passes_rows s s' id m : passes s s' → rows s !! id = Some m → ∃ m', rows s' !! id = Some m' ∧ newer m m'.
Proof.
  intros Hp Hm. assert (∀ id0 f, (∀ k, newer k (f k)) → ∃ m', over (update_row id0 f (rows s)) (rows s) !! id = Some m' ∧ newer m m') as Hup.
  { intros id0 f Hf. rewrite over_row. destruct (update_row id0 f (rows s) !! id) as [o|] eqn:Ho; [|exists m; by split].
    apply update_row_Some in Ho as (->&k&Hk&->). exists (f k). split; [done|]. rewrite Hk in Hm. injection Hm as ->. apply Hf. }
  destruct Hp; [exists m; by split|by apply Hup|by apply Hup].
Qed.

Lemma passes_dirty s s' : passes s s' → dirty s' = dirty s.
Proof. by intros []. Qed.
Lemma passes_sound s s' h : passes s s' → sound s h → sound s' h.
Proof.
  intros Hp [H1 H2 H3]. split; rewrite ?(passes_dirty _ _ Hp); [done|done|].
  intros i d id m m' Hd Hi Hm. destruct (rows s !! id) as [m0|] eqn:H0.
  - destruct (passes_rows _ _ _ _ Hp H0) as (m1&H4&H5). rewrite Hm in H4. injection H4 as <-.
    eapply newer_trans; [|by eapply H3]. destruct Hp as [|??????Hun|???Hun]; cbn in Hm.
    + rewrite H0 in Hm. injection Hm as ->. apply newer_refl.
    + rewrite over_row in Hm. case_match eqn:Hu; [apply update_row_Some in Hu as (->&k&Hk&->)|]; simplify_eq; by split.
    + rewrite over_row in Hm. case_match eqn:Hu; [apply update_row_Some in Hu as (->&k&Hk&->)|]; simplify_eq; by split.
  - exfalso. destruct Hp; cbn in Hm; rewrite ?over_row in Hm; [congruence|..];
      (case_match eqn:Hu; [apply update_row_Some in Hu as (->&k&Hk&->)|]); congruence.
Qed.

Lemma lifecycle_sound w : reachable w → sound (state w) (history w).
Proof.
  intros (s&Hs&Hr). eapply (history_invariant log answers leave serves passes may duty lifecycle_answers_allowed requests_ok sound);
    [| | | |exact Hr].
  - split; [intros i d|intros i j d e|intros i d id m m']; by rewrite (st_dirty _ Hs), lookup_empty.
  - intros. by eapply keeps_call.
  - intros i s' h Hh. destruct (leave_sub i s'). by apply (keeps_less s').
  - intros. by eapply passes_sound.
Qed.

(** *** The wish *)

(** From a recorded instant on, for as long as the row was there. *)
Definition watched (w : mworld) : Prop :=
  ∀ h1 i1 e1 s1 h2 id m1, history w = h1 ++ (i1, e1, s1) :: h2 → rows s1 !! id = Some m1 →
    (∀ x, x ∈ h2 → is_Some (rows x.2 !! id)) → ∃ m, rows (state w) !! id = Some m ∧ newer m1 m.

Definition watched_between (w : mworld) : Prop :=
  ∀ h1 i1 e1 s1 h2 i2 e2 s2 h3 id m1 m2, history w = h1 ++ (i1, e1, s1) :: h2 ++ (i2, e2, s2) :: h3 →
    (∀ x, x ∈ h2 → is_Some (rows x.2 !! id)) → rows s1 !! id = Some m1 → rows s2 !! id = Some m2 → newer m1 m2.

Lemma reachable_watched w : reachable w → watched w ∧ watched_between w.
Proof.
  revert w. apply lifecycle_ind.
  { intros s _. split; [by intros [|] ??????|by intros [|] ???????????]. }
  intros w w' Hr Ho Hs [Hw Hb]. pose proof (lifecycle_sound _ Hr) as Hsound. destruct Hs as [k t R q kont r s' w Hk Hp Ha|k t e w Hk|p w Hp|s' w He].
  - assert (rows (after_call leave k (kont r) s') = rows s') as Hrows by (unfold after_call; by case_match). split.
    + intros h1 i1 e1 s1 h2 id m1 Hh H1 Hin. cbn [state history] in *. rewrite Hrows. destruct h2 as [|x h2 _] using rev_ind.
      * apply app_inj_tail in Hh as [_ [= _ _ <-]]. exists m1. split; [done|apply newer_refl].
      * rewrite app_comm_cons, app_assoc in Hh. apply app_inj_tail in Hh as [Hh <-].
        destruct (Hin (k, log R q r, s')) as [m Hm]; [apply elem_of_app; right; apply list_elem_of_singleton; done|]. cbn in Hm.
        exists m. split; [done|]. destruct (Hw _ _ _ _ _ id m1 Hh H1) as (m0&Hm0&Hn).
        { intros x Hx. apply Hin, elem_of_app. by left. }
        eapply newer_trans; [exact Hn|]. by eapply calls_rows.
    + intros h1 i1 e1 s1 h2 i2 e2 s2 h3 id m1 m2 Hh Hin H1 H2. cbn [history] in Hh. destruct h3 as [|x h3 _] using rev_ind.
      * rewrite app_comm_cons, app_assoc in Hh. apply app_inj_tail in Hh as [Hh [= <- <- <-]].
        destruct (Hw _ _ _ _ _ id m1 Hh H1 Hin) as (m0&Hm0&Hn).
        eapply newer_trans; [exact Hn|]. by eapply calls_rows.
      * rewrite !app_comm_cons, !app_assoc in Hh. apply app_inj_tail in Hh as [Hh <-].
        rewrite <- app_assoc in Hh. by eapply Hb.
  - split; [|exact Hb]. exact Hw.
  - split; [exact Hw|exact Hb].
  - split; [|exact Hb]. intros h1 i1 e1 s1 h2 id m1 Hh H1 Hin. cbn [state history] in *.
    destruct (Hw _ _ _ _ _ id m1 Hh H1 Hin) as (m0&Hm0&Hn). destruct (passes_rows _ _ _ _ He Hm0) as (m'&Hm'&Hn').
    exists m'. split; [done|]. by eapply newer_trans.
Qed.

(** C28: a version tells what the operator wished.  However requests, edits of the
    registry, downloads and passes of the reconciler interleave, the wish to keep a model
    resident is never changed without a new version: while its row exists, its version
    never falls, and two instants with the same version show the same wish. *)
Theorem versions_tell_wishes_apart w h1 i1 e1 s1 h2 i2 e2 s2 h3 id m1 m2 :
  reachable w → history w = h1 ++ (i1, e1, s1) :: h2 ++ (i2, e2, s2) :: h3 →
  (∀ x, x ∈ h2 → is_Some (rows x.2 !! id)) → rows s1 !! id = Some m1 → rows s2 !! id = Some m2 →
  (desired_version m1 ≤ desired_version m2)%Z ∧
  (desired_version m1 = desired_version m2 → desired_resident m1 = desired_resident m2).
Proof. intros Hr Hh Hin H1 H2. exact (proj2 (reachable_watched _ Hr) _ _ _ _ _ _ _ _ _ _ _ _ Hh Hin H1 H2). Qed.

(** *** The memory of a node *)

(** What was got is what was there. *)
Lemma got_what_was_there w h1 i m s h2 : reachable w → history w = h1 ++ (i, VGot m, s) :: h2 →
  view i s !! model_id m = Some m ∨ rows s !! model_id m = Some m.
Proof.
  assert (∀ t id, row t id = Some m → t !! model_id m = Some m) as Hrow.
  { intros t id. unfold row. destruct (t !! id) as [k|] eqn:Hk; [|done]. case_bool_decide as Hid; [|done]. intros [= ->].
    by rewrite Hid. }
  intros Hr Hh. destruct (history_duty _ Hr _ _ _ _ _ Hh) as (R&q&r&_&He&s0&Ha).
  destruct q; cbn in He; repeat case_match; simplify_eq; destruct Ha as [-> [?|[= Ha]]]; try done; [left|right]; by eapply Hrow.
Qed.

(** What was counted are the committed rows of that instant. *)
Lemma readings w : reachable w → ∀ h1 i k l s h2, history w = h1 ++ (i, VOccupying k l, s) :: h2 →
  l ≡ₚ (map_to_list (occupying k (rows s))).*2.
Proof.
  intros (s0&Hs0&Hr) h1 i k l s h2 Hh.
  refine (history_call log answers leave serves passes may duty lifecycle_answers_allowed requests_ok
    (λ i _ e s, ∀ k l, e = VOccupying k l → l ≡ₚ (map_to_list (occupying k (rows s))).*2) s0 w _ Hr _ _ _ _ _ Hh _ _ eq_refl).
  clear k l Hh. intros w1 j t R q kont r s' Hr1 Hj _ [_ Hd] Ha k l He. destruct q; cbn in He; repeat case_match; simplify_eq.
  assert (reachable w1) as Hw1 by (by exists s0). destruct Hd as [_ Hd].
  rewrite (o_log _ _ _ _ (lifecycle_orderly _ Hw1) _ _ Hj) in Hd.
  destruct (clean_view _ _ _ (lifecycle_sound _ Hw1) Hd) as [_ Hv].
  cbn in Ha. rewrite Hv in Ha. by destruct Ha as [-> [?|(l'&[= <-]&Hl)]].
Qed.

Lemma holds_state tr id st : holds (tr ++ [VState id st]) = holds tr.
Proof. rewrite knows_snoc. by destruct (knows tr). Qed.

(** A row that is loading is among those counted, and is charged. *)
Lemma loading_charged t node l now id k : l ≡ₚ (map_to_list (occupying node t)).*2 →
  t !! id = Some k → model_node k = node → lifecycle k = LOADING → k ∈ charged now l.
Proof.
  intros Hl Hk Hn Hst. assert (k ∈ l) as Hin.
  { rewrite Hl. apply list_elem_of_fmap. exists (id, k). split; [done|]. apply elem_of_map_to_list. unfold occupying.
    apply map_lookup_filter_Some. split; [done|]. unfold occupies. cbn. rewrite Hn, Hst. by rewrite bool_decide_eq_true_2. }
  unfold charged. destruct now as [z|]; [|done]. apply list_elem_of_filter. split; [|done]. unfold charges_memory.
  by rewrite Hst.
Qed.

Lemma load_duty tr r ref c : (∃ R (q : meff R) x ok, duty tr R q ∧ log R q x = VLoad r ref c ok) →
  ∃ id, w_stage (knows tr) = Some (id, LOADING) ∧ admits frees headroom (knows tr) id ∧
    addressed agents_enabled direct (knows tr) id r ref.
Proof.
  intros (R&q&x&ok&[_ Hd]&He). destruct q; cbn in He; repeat case_match; simplify_eq. exact Hd.
Qed.

Lemma own_event j e x (h : mhist) : events_of j ((j, e, x) :: h) = e :: events_of j h.
Proof.
  change ((j, e, x) :: h) with ([(j, e, x)] ++ h). rewrite events_of_app.
  change [(j, e, x)] with ([] ++ [(j, e, x)]). by rewrite events_of_snoc, bool_decide_eq_true_2.
Qed.

(** Nobody else claims under a lock while somebody holds on to it. *)
Lemma one_claim w j lock k l sa ha hb rest hx i id x hy :
  reachable w → history w = ha ++ (j, VOccupying k l, sa) :: hb ++ rest → events_of j rest ≠ [] →
  holds (events_of j ha) = Some lock → Forall (λ e, 1 < level e) (events_of j hb) →
  hb = hx ++ (i, VState id LOADING, x) :: hy → i ≠ j → holds (events_of i (ha ++ (j, VOccupying k l, sa) :: hx)) ≠ Some lock.
Proof.
  intros Hr Hh Hrest Hl Hq -> Hne Hi. apply Hne.
  assert (history w = (ha ++ (j, VOccupying k l, sa) :: hx) ++ (i, VState id LOADING, x) :: hy ++ rest) as Hh'.
  { rewrite Hh. by repeat (rewrite <- app_assoc; cbn [app]). }
  eapply (one_holder w _ i _ _ _ j lock Hr Hh').
  - rewrite events_of_app. intros [_ ?]%app_eq_nil. done.
  - by rewrite events_of_snoc, bool_decide_eq_true_2, holds_state.
  - rewrite events_of_snoc, bool_decide_eq_false_2, app_nil_r by done.
    rewrite events_of_app, quiet_lock; [done|]. rewrite own_event.
    apply Forall_cons. split; [cbn; lia|]. rewrite events_of_app in Hq. by apply Forall_app in Hq as [? _].
Qed.

(** C27: a load counts every load before it.  Whatever requests and passes are under way,
    when a runtime is told to load a model, its request had taken the lock of a node and,
    holding it, had read the row of the model, then its node, then the node's free memory,
    and then counted the committed rows of that node, with none of these read again since.
    The row it read was in the registry and says the model is downloaded, and the budget
    has room, on that node and beside that free memory, for the model and all the counted
    rows that are charged, as of the clock it read after the count; a model whose row says
    it is loading is among them.  It then asked for the state LOADING in a transaction of
    its own (a failure of which is only logged), and between the count and that claim
    nobody else claims under the lock, so that of two loads under one lock whose claims
    are committed the later counts the earlier. *)
Theorem a_load_counts_the_loads_before_it w h1 j r ref c ok s h2 :
  reachable w → history w = h1 ++ (j, VLoad r ref c ok, s) :: h2 →
  ∃ lock m n l live now ha sa hb sb hc,
    h1 = ha ++ (j, VOccupying (model_node m) l, sa) :: hb ++ (j, VState (model_id m) LOADING, sb) :: hc ∧
    one_by_one [VHeld lock; VGot m; VNode n; VLive live] (events_of j ha) ∧
    Forall (λ e, level (VOccupying (model_node m) l) < level e) (events_of j (hb ++ hc)) ∧
    (∀ sg, (j, VGot m, sg) ∈ ha → view j sg !! model_id m = Some m ∨ rows sg !! model_id m = Some m) ∧
    ref = model_ref m ∧ for_node agents_enabled direct (Some n) (runtime m) = Some r ∧
    effective_state m = DOWNLOADED ∧ node_id n = model_node m ∧
    l ≡ₚ (map_to_list (occupying (model_node m) (rows sa))).*2 ∧
    (if frees then ∃ t, now = Some t ∧ VTime t ∈ events_of j hb else now = None) ∧
    assert_can_load headroom m n (charged now l) live = Ret tt ∧
    (∀ id k, rows sa !! id = Some k → model_node k = model_node m → lifecycle k = LOADING → k ∈ charged now l) ∧
    ∀ hx i id x hy, hb = hx ++ (i, VState id LOADING, x) :: hy → i ≠ j →
      holds (events_of i (ha ++ (j, VOccupying (model_node m) l, sa) :: hx)) ≠ Some lock.
Proof.
  intros Hr Hh. destruct (history_duty _ Hr _ _ _ _ _ Hh) as (R&q&x0&Hd&He&_).
  destruct (load_duty (events_of j h1) r ref c) as (id&Hst&Hadm&Hadr); [by exists R, q, x0, ok|]. clear R q x0 Hd He.
  destruct Hadm as (lock&m&n&live&l&Hl&Hm&<-&Heff&Hn&Hnid&Hlive&Hrows&Hnow&Hbud).
  destruct Hadr as (m'&n'&Hm'&_&Hn'&_&Hfor&->). rewrite Hm in Hm'. injection Hm' as <-. rewrite Hn in Hn'. injection Hn' as <-.
  destruct (claimed_one_by_one _ _ _ _ _ _ _ _ Hl Hm Hn Hlive Hrows Hst) as (a&b&d&Htr&Hin&Hlater&Htime). cbn [fst snd] in *.
  set (now := w_now (knows (events_of j h1))) in *. clearbody now.
  destruct (events_of_split _ _ _ _ _ Htr) as (ha&sa&hrest&->&<-&Hrest).
  destruct (events_of_split _ _ _ _ _ Hrest) as (hb&sb&hc&->&<-&<-).
  exists lock, m, n, l, live, now, ha, sa, hb, sb, hc. split; [done|]. split; [done|].
  split; [by rewrite events_of_app|]. split.
  { intros sg (hx&hy&->)%list_elem_of_split. rewrite <- !app_assoc, <- app_comm_cons in Hh. by eapply got_what_was_there. }
  do 4 (split; [done|]). split; [|split; [|split; [exact Hbud|split; [intros id k; apply loading_charged|]]]].
  - rewrite <- !app_assoc, <- app_comm_cons in Hh. by eapply readings.
  - rewrite <- Hnow. destruct now as [t|]; cbn; [|done]. exists t. split; [done|by apply Htime].
  - rewrite <- !app_assoc, <- app_comm_cons in Hh. by eapply readings.
  - intros hx i id x hy. rewrite <- app_assoc, <- app_comm_cons, <- app_assoc in Hh.
    eapply one_claim; [done|exact Hh| | |].
    + cbn [app]. rewrite own_event. by intros ?.
    + rewrite <- Hl, Htr, quiet_lock; [done|]. apply Forall_cons. split; [cbn; lia|]. apply Forall_app in Hlater as [Hq1 Hq2].
      apply Forall_app. split; [by apply (Forall_impl _ _ _ Hq1); cbn; lia|]. apply Forall_cons. split; [cbn; lia|].
      apply (Forall_impl _ _ _ Hq2). cbn. lia.
    + apply Forall_app in Hlater as [Hq1 _]. apply (Forall_impl _ _ _ Hq1). cbn. lia.
Qed.

(** *** Failures *)

(** What a runtime refused is written down first.  When a runtime fails to load a
    model, the very next thing its request does is to write the state ERROR in a
    transaction of its own, and when it fails to unload one, LOADED; only then does the
    failure go on, to be rolled back with the request. *)
Theorem a_failure_is_written_down_first w h1 i e s h2 st :
  reachable w → history w = h1 ++ (i, e, s) :: h2 →
  (∃ r ref c, e = VLoad r ref c false ∧ st = ERROR) ∨ (∃ r ref, e = VUnload r ref false ∧ st = LOADED) →
  ∃ id claim, w_stage (knows (events_of i h1)) = Some (id, claim) ∧
    match events_of i h2 with [] => True | next :: _ => next = VState id st end.
Proof.
  intros Hr Hh He. destruct (history_duty _ Hr _ _ _ _ _ Hh) as (R&q&x&[_ Hd]&Hlog&_).
  assert (∃ id claim, w_stage (knows (events_of i h1)) = Some (id, claim)) as (id&claim&Hst).
  { destruct He as [(r&ref&c&->&_)|(r&ref&->&_)]; destruct q; cbn in Hlog; repeat case_match; simplify_eq;
      destruct Hd as (id&Hid&_); by eexists _, _. }
  exists id, claim. split; [done|]. destruct (events_of i h2) as [|next rest] eqn:Hn; [done|].
  destruct (events_of_split i h2 [] next rest Hn) as (ha&s'&hb&->&Ha&_).
  rewrite app_comm_cons, app_assoc in Hh. destruct (history_duty _ Hr _ _ _ _ _ Hh) as (R'&q'&x'&[Hp _]&Hlog'&_).
  replace (events_of i (h1 ++ (i, e, s) :: ha)) with (events_of i h1 ++ [e]) in Hp.
  2: { replace (h1 ++ (i, e, s) :: ha) with ((h1 ++ [(i, e, s)]) ++ ha) by (by rewrite <- app_assoc).
       by rewrite events_of_app, Ha, app_nil_r, events_of_snoc, bool_decide_eq_true_2. }
  rewrite knows_snoc in Hp. unfold pays in Hp. destruct (knows (events_of i h1)) as [lock actor m0 n0 live0 rows0 now0 stage0 owed0 wrote0].
  cbn in Hst. subst stage0.
  destruct He as [(r&ref&c&->&->)|(r&ref&->&->)]; cbn in Hp; destruct q'; try done; destruct Hp as [-> [= <-]]; by rewrite <- Hlog'.
Qed.
End Theory.

(** * Runs *)

Module Play.
Definition first_named (t : table) (name : string) : option Model :=
  match map_to_list (filter (λ x, alias x.2 = name) t) with [] => None | (_, m) :: _ => Some m end.

Lemma first_named_ok t name : named t name (first_named t name).
Proof.
  unfold first_named. destruct (map_to_list _) as [|[k m] l] eqn:Hl; cbn.
  - intros k m Hk Hn. apply map_to_list_empty_iff in Hl. eapply map_filter_empty_not_lookup in Hl; [by apply Hl|done].
  - assert ((k, m) ∈ map_to_list (filter (λ x, alias x.2 = name) t)) as Hin by (rewrite Hl; by left).
    apply elem_of_map_to_list, map_lookup_filter_Some in Hin as [Hm Hn]. split; [done|by exists k].
Qed.

(** A node of 64 GB; its runtime cannot unload what is called ["stuck"], nor load what is
    called ["broken"]. *)
Definition host (id : string) : Node := mk_node id id "100.64.0.1" ONLINE (gb 64) [OLLAMA] None None None.

Definition reply (i : nat) (s : mstate) (R : Type) (q : meff R) : option (R * mstate) :=
  match q in meff R return option (R * mstate) with
  | MRequire a sc => Some (if bool_decide (sc ∈ scopes a) then inr tt else inl NotAuthorized, s)
  | MGet id => Some (inr (row (view i s) id), s)
  | MList => Some (inr (view i s), s)
  | MByAlias name => Some (inr (first_named (view i s) name), s)
  | MNode id | MPeekNode id => Some (inr (Some (host id)), s)
  | MPolicies => Some (inr [], s)
  | MOccupying node => Some (inr (map_to_list (occupying node (view i s))).*2, s)
  | MWrite st =>
      match affect st (view i s) with
      | Some d => if unlocked i d s then Some (inr tt, write i d s) else None
      | None => Some (inl BackendError, s)
      end
  | MSetDesired id b =>
      let d := set_desired_residency_row id b (view i s) in
      if unlocked i d s then Some (inr (version_of (over d (view i s)) id), write i d s) else None
  | MCommit => Some (inr tt, commit i s)
  | MRollback => Some (tt, rollback i s)
  | MPeek id => Some (inr (row (rows s) id), s)
  | MCommitState id st =>
      let d := set_state id st (rows s) in if unheld d s then Some (tt, put d s) else None
  | MCommitIntent id b =>
      let d := set_desired_residency_row id b (rows s) in
      if unheld d s then Some (inr (version_of (rows (put d s)) id), put d s) else None
  | MHold node =>
      match locks s !! node with
      | None => Some (inr true, set_locks (<[node := i]> (locks s)) s)
      | Some _ => Some (inr false, s)
      end
  | MUnhold node =>
      if bool_decide (locks s !! node = Some i) then Some (inr tt, set_locks (base.delete node (locks s)) s)
      else Some (inl BackendError, s)
  | MDeclared _ _ _ => Some (inr None, s)
  | MNative _ => Some (inr None, s)
  | MFreeMemory _ => Some (inr None, s)
  | MDatabaseTime => Some (inr (clk s), s)
  | MLoad _ ref _ => Some (if bool_decide (ref = "broken") then inl RuntimeFailure else inr tt, s)
  | MUnload _ ref => Some (if bool_decide (ref = "stuck") then inl RuntimeFailure else inr tt, s)
  | MRepin _ _ _ => Some (inr tt, s)
  | MPull _ _ => Some (inr tt, s)
  | MPrepare _ => Some (inr true, s)
  | MFresh =>
      let x := ("x" ++ pretty (size (drawn s)))%string in
      if bool_decide (x ∈ drawn s) then None else Some (x, add_drawn x s)
  | MJob _ _ => Some (inr tt, s)
  | MAudit _ _ _ _ => Some (tt, s)
  end.

Lemma lifecycle_reply_allowed i s R q r s' : reply i s R q = Some (r, s') → answers i s R q r s'.
Proof.
  intros Hr. destruct q; cbn in *; repeat case_match; simplify_eq; eauto 10 using first_named_ok.
  all: try (right; eexists; by split_and!).
  all: try (by left).
  - right. match goal with H : bool_decide _ = true |- _ => apply bool_decide_eq_true in H end. split_and!; auto.
  - split; [by eapply bool_decide_eq_false_1|done].
Qed.

Abbreviation mmove := (move meff mexn mstate).
Abbreviation served_here := (served false [OLLAMA] (λ _ _, true) true (gb 1)).
Abbreviation reachable_here := (reachable false [OLLAMA] (λ _ _, true) true (gb 1)).
Definition acts (ms : list mmove) (s : mstate) : option mworld := play log leave reply (idle s) ms.
Definition runs (s : mstate) (ms : list mmove) : mworld := default (idle s) (acts ms s).
Abbreviation allowed_here := (allowed served_here passes).

Lemma lifecycle_runs_reachable s ms : starts s → Forall allowed_here ms → reachable_here (runs s ms).
Proof.
  intros Hs Hms. exists s. split; [done|]. unfold runs. destruct (acts ms s) as [w|] eqn:Hw; [|apply rtc_refl].
  by eapply (schedule_steps log answers leave served_here passes reply lifecycle_reply_allowed).
Qed.

(** Models of 40 GB on that node. *)
Definition weights (id : string) (s : ModelState) : Model :=
  mk_model id id id OLLAMA "node" s ∅ (mk_profile (gb 40) 4096) None None None false None false 0.
Definition registry (l : list Model) : mstate :=
  mk_mstate (list_to_map ((λ m, (model_id m, m)) <$> l)) ∅ ∅ (list_to_set (model_id <$> l)) 0.

Lemma registry_starts l : starts (registry l).
Proof.
  split; [done|done|]. intros id m Hm. apply elem_of_list_to_map_2, list_elem_of_fmap in Hm as (k&[= -> ->]&Hk).
  split; [done|]. apply elem_of_list_to_set, list_elem_of_fmap. by exists k.
Qed.

Definition operator : Actor := mk_actor "ada" "ada" ADMIN local (scopes_for ADMIN) "t" None None None true None.
Definition loads (id : string) : mmove := Serve (request (load false [OLLAMA] true (gb 1) operator id)).
Definition unloads (id : string) : mmove := Serve (request (unload false [OLLAMA] operator id)).
Definition restores (l : list job) : mmove := Serve (reconciler_pass false [OLLAMA] true (gb 1) "node" l).
Definition renames (id name : string) : mmove :=
  Serve (request (update false [OLLAMA] (λ _ _, true) operator id (mk_edit (Some name) None None None None None))).
Definition downloads (id : string) : mmove := Serve (request (start operator id)).
Definition wishes (id : string) (b : bool) : mmove := Serve (request (set_desired_residency operator id b)).

Lemma loads_allowed id : allowed_here (loads id).
Proof. apply serve_load. Qed.
Lemma unloads_allowed id : allowed_here (unloads id).
Proof. apply serve_unload. Qed.
Lemma restores_allowed l : allowed_here (restores l).
Proof. apply serve_pass. Qed.
Lemma renames_allowed id name : allowed_here (renames id name).
Proof. apply serve_update. Qed.
Lemma downloads_allowed id : allowed_here (downloads id).
Proof. apply serve_start. Qed.
Lemma wishes_allowed id b : allowed_here (wishes id b).
Proof. apply serve_intent. Qed.

Ltac moves := repeat (apply Forall_cons; split; [lazymatch goal with
  | |- context [loads] => apply loads_allowed
  | |- context [unloads] => apply unloads_allowed
  | |- context [restores] => apply restores_allowed
  | |- context [renames] => apply renames_allowed
  | |- context [downloads] => apply downloads_allowed
  | |- context [wishes] => apply wishes_allowed
  | |- _ => exact I
  end|]); apply Forall_nil; exact I.

Definition nth_call (w : mworld) (n : nat) : nat * mevent * mstate := default (0, VFree, registry []) (history w !! n).
Lemma split_at_call w n i e : (nth_call w n).1 = (i, e) → (n <? length (history w)) = true →
  history w = take n (history w) ++ (i, e, (nth_call w n).2) :: drop (S n) (history w).
Proof.
  intros He Hn%Nat.ltb_lt. destruct (lookup_lt_is_Some_2 _ _ Hn) as [x Hx]. rewrite <- (take_drop_middle _ _ _ Hx) at 1.
  unfold nth_call in *. rewrite Hx in *. cbn in *. destruct x as [y s]. cbn in *. by subst.
Qed.

(** An operator loads a model and the reconciler restores another, 20 GB each. *)
Definition small (id : string) : Model :=
  mk_model id id id OLLAMA "node" DOWNLOADED ∅ (mk_profile (gb 20) 4096) None None None false None false 0.
Definition in_turn : list mmove := [loads "a"; restores [Restore "b"]; Go 0 19; Go 1 9].
Lemma in_turn_allowed : Forall allowed_here in_turn.
Proof. moves. Qed.

Lemma a_load_counts_the_loads_before_it_witness :
  ∃ lock m n l live t ha sa hb,
    take 27 (history (runs (registry [small "a"; small "b"]) in_turn)) = ha ++ (1, VOccupying (model_node m) l, sa) :: hb ∧
    one_by_one [VHeld lock; VGot m; VNode n; VLive live] (events_of 1 ha) ∧ "b" = model_ref m ∧
    effective_state m = DOWNLOADED ∧ l ≡ₚ (map_to_list (occupying (model_node m) (rows sa))).*2 ∧
    assert_can_load (gb 1) m n (charged (Some t) l) live = Ret tt.
Proof.
  set (w := runs (registry [small "a"; small "b"]) in_turn).
  destruct (a_load_counts_the_loads_before_it false [OLLAMA] (λ _ _, true) true (gb 1) w
              (take 27 (history w)) 1 (Direct OLLAMA) "b" 4096 true (nth_call w 27).2 (drop 28 (history w)))
    as (lock&m&n&l&live&now&ha&sa&hb&sb&hc&Hh&Hin&_&_&Href&_&Heff&_&Hl&(t&->&_)&Hb&_).
  - apply lifecycle_runs_reachable; [apply registry_starts|exact in_turn_allowed].
  - apply split_at_call; vm_compute; reflexivity.
  - exists lock, m, n, l, live, t, ha, sa, (hb ++ (1, VState (model_id m) LOADING, sb) :: hc).
    split; [exact Hh|]. split; [exact Hin|]. split; [exact Href|]. split; [exact Heff|]. split; [exact Hl|exact Hb].
Defined.

(** An operator wishes a model to stay, and then no longer. *)
Definition changes_mind : list mmove := [wishes "a" true; wishes "a" false; Go 0 6; Go 1 6].
Lemma changes_mind_allowed : Forall allowed_here changes_mind.
Proof. moves. Qed.

Definition wished (w : mworld) (n : nat) (id : string) : option (Z * bool) :=
  (λ m, (desired_version m, desired_resident m)) <$> rows (nth_call w n).2 !! id.

Lemma versions_tell_wishes_apart_witness :
  wished (runs (registry [small "a"]) changes_mind) 11 "a" = Some (2, false)%Z ∧ (1 ≤ 2)%Z ∧ (1%Z = 2%Z → true = false).
Proof.
  split; [vm_compute; reflexivity|]. set (w := runs (registry [small "a"]) changes_mind).
  apply (versions_tell_wishes_apart false [OLLAMA] (λ _ _, true) true (gb 1) w
           (take 5 (history w)) 0 (VCommit true) (nth_call w 5).2 (take 5 (drop 6 (history w))) 1 (VCommit true) (nth_call w 11).2
           (drop 12 (history w)) "a" (with_intent true 1 (small "a")) (with_intent false 2 (small "a"))).
  - apply lifecycle_runs_reachable; [apply registry_starts|exact changes_mind_allowed].
  - apply (split_twice (history w) 5 11); [vm_compute; reflexivity|vm_compute; reflexivity|lia].
  - intros x Hx. assert (forallb (λ x, bool_decide (is_Some (rows x.2 !! "a"))) (take 5 (drop 6 (history w))) = true) as Hall
      by (vm_compute; reflexivity).
    rewrite forallb_forall in Hall. apply list_elem_of_In, Hall in Hx. by apply bool_decide_eq_true in Hx.
  - vm_compute. reflexivity.
  - vm_compute. reflexivity.
Defined.

(** A load that fails. *)
Definition fails : list mmove := [loads "broken"; Go 0 16].
Lemma fails_allowed : Forall allowed_here fails.
Proof. moves. Qed.

Lemma a_failure_is_written_down_first_witness :
  ∃ id claim, w_stage (knows (events_of 0 (take 11 (history (runs (registry [small "broken"]) fails))))) = Some (id, claim) ∧
    match events_of 0 (drop 12 (history (runs (registry [small "broken"]) fails))) with [] => True | next :: _ => next = VState id ERROR end.
Proof.
  set (w := runs (registry [small "broken"]) fails).
  apply (a_failure_is_written_down_first false [OLLAMA] (λ _ _, true) true (gb 1) w (take 11 (history w)) 0
           (VLoad (Direct OLLAMA) "broken" 4096 false) (nth_call w 11).2 (drop 12 (history w)) ERROR).
  - apply lifecycle_runs_reachable; [apply registry_starts|exact fails_allowed].
  - apply split_at_call; vm_compute; reflexivity.
  - left. by eexists _, _, _.
Defined.
End Play.

(** * What goes wrong *)

Module Demo.
Import Play.

(** The rows that occupy a node add up to more than its budget. *)
Definition overcommitted (n : Node) (t : table) : bool :=
  SFltb (fmul (total_memory_gb n) (gb 1)) (py_sum (resident_cost <$> (map_to_list (occupying (node_id n) t)).*2)).

Definition state_of (t : table) (id : string) : option ModelState := lifecycle <$> t !! id.

Definition unload_in_flight : list mmove := [unloads "stuck"; loads "b"; Go 0 6; Go 1 19; Go 0 4].
Lemma unload_in_flight_allowed : Forall allowed_here unload_in_flight.
Proof. moves. Qed.

(** C40: an unload in flight is not counted.  A row that is being unloaded occupies no
    memory in the budget's count, and an unload takes no lock: a load is admitted beside
    weights that are still resident, the unload then fails and puts its row back to
    loaded, and the node holds more than its budget allows. *)
Theorem an_unload_in_flight_is_not_counted :
  ∃ w h1 s h2, reachable_here w ∧ history w = h1 ++ (1, VOccupying "node" [], s) :: h2 ∧
    state_of (rows s) "stuck" = Some UNLOADING ∧ VLoad (Direct OLLAMA) "b" 4096 true ∈ events_of 1 h2 ∧
    VUnload (Direct OLLAMA) "stuck" false ∈ events_of 0 h2 ∧ overcommitted (host "node") (rows (state w)) = true.
Proof.
  set (w := runs (registry [weights "stuck" LOADED; weights "b" DOWNLOADED]) unload_in_flight).
  exists w, (take 13 (history w)), (nth_call w 13).2, (drop 14 (history w)).
  split; [apply lifecycle_runs_reachable; [apply registry_starts|exact unload_in_flight_allowed]|].
  split; [apply split_at_call; vm_compute; reflexivity|]. split; [vm_compute; reflexivity|].
  split; [apply (list_elem_of_lookup_2 _ 3); vm_compute; reflexivity|].
  split; [apply (list_elem_of_lookup_2 _ 0); vm_compute; reflexivity|]. vm_compute. reflexivity.
Qed.

Definition after_a_failure : list mmove := [loads "broken"; loads "b"; Go 0 16; Go 1 19].
Lemma after_a_failure_allowed : Forall allowed_here after_a_failure.
Proof. moves. Qed.

(** A load that failed is not counted either, though what it left may be half resident. *)
Theorem a_failed_load_is_not_counted :
  ∃ w h1 s h2, reachable_here w ∧ history w = h1 ++ (1, VOccupying "node" [], s) :: h2 ∧
    VLoad (Direct OLLAMA) "broken" 4096 false ∈ events_of 0 h1 ∧ state_of (rows s) "broken" = Some ERROR ∧
    VLoad (Direct OLLAMA) "b" 4096 true ∈ events_of 1 h2.
Proof.
  set (w := runs (registry [weights "broken" DOWNLOADED; weights "b" DOWNLOADED]) after_a_failure).
  exists w, (take 23 (history w)), (nth_call w 23).2, (drop 24 (history w)).
  split; [apply lifecycle_runs_reachable; [apply registry_starts|exact after_a_failure_allowed]|].
  split; [apply split_at_call; vm_compute; reflexivity|].
  split; [apply (list_elem_of_lookup_2 _ 11); vm_compute; reflexivity|]. split; [vm_compute; reflexivity|].
  apply (list_elem_of_lookup_2 _ 3). vm_compute. reflexivity.
Qed.

Definition rename_across_a_load : list mmove := [renames "a" "z"; loads "a"; Go 0 6; Go 1 19; Go 0 3].
Lemma rename_across_a_load_allowed : Forall allowed_here rename_across_a_load.
Proof. moves. Qed.

(** An edit takes a load back.  A rename that read the row before a load saves the
    whole row after it: the model the runtime has loaded is downloaded again in the
    registry, and its memory is no longer counted. *)
Theorem an_edit_takes_a_load_back :
  ∃ w, reachable_here w ∧ VLoad (Direct OLLAMA) "a" 4096 true ∈ events_of 1 (history w) ∧
    VCommit true ∈ events_of 1 (history w) ∧ state_of (rows (state w)) "a" = Some DOWNLOADED ∧
    occupying "node" (rows (state w)) = ∅.
Proof.
  set (w := runs (registry [weights "a" DOWNLOADED]) rename_across_a_load). exists w.
  split; [apply lifecycle_runs_reachable; [apply registry_starts|exact rename_across_a_load_allowed]|].
  split; [apply (list_elem_of_lookup_2 _ 11); vm_compute; reflexivity|].
  split; [apply (list_elem_of_lookup_2 _ 18); vm_compute; reflexivity|]. split; vm_compute; reflexivity.
Qed.

Definition two_clicks : list mmove := [downloads "c"; downloads "c"; Go 0 2; Go 1 2; Go 0 5; Go 1 5].
Lemma two_clicks_allowed : Forall allowed_here two_clicks.
Proof. moves. Qed.

(** Two clicks start two downloads of one model: each reads it before the other claims it. *)
Theorem two_clicks_start_two_downloads :
  ∃ w j1 j2, reachable_here w ∧ VWrote (SetState "c" DOWNLOADING) ∈ events_of 0 (history w) ∧ VDrew j1 ∈ events_of 0 (history w) ∧
    VCommit true ∈ events_of 0 (history w) ∧ VWrote (SetState "c" DOWNLOADING) ∈ events_of 1 (history w) ∧
    VDrew j2 ∈ events_of 1 (history w) ∧ VCommit true ∈ events_of 1 (history w).
Proof.
  set (w := runs (registry [weights "c" NOT_DOWNLOADED]) two_clicks). exists w, "x1", "x2".
  split; [apply lifecycle_runs_reachable; [apply registry_starts|exact two_clicks_allowed]|].
  split_and!; [apply (list_elem_of_lookup_2 _ 2)|apply (list_elem_of_lookup_2 _ 3)|apply (list_elem_of_lookup_2 _ 6)
    |apply (list_elem_of_lookup_2 _ 2)|apply (list_elem_of_lookup_2 _ 3)|apply (list_elem_of_lookup_2 _ 6)]; vm_compute; reflexivity.
Qed.
End Demo.
