(* ===== verification/Limits.v ===== *)
(** What a key may spend: the rolling token budget and the request limit of a minute
    ([adapters/persistence/repositories/usage.py], [adapters/cache/redis_adapter.py],
    [interfaces/http/middleware/api_key_auth/enforcement.py]).

    Instants are microseconds.  The budget is read from the rows of [usage_records]: what
    a key spent within the last day, and when enough of it will have aged out.  The limit
    is a counter of the cache per key and minute, that lives for two.  A counter is found
    by its key and window: the name [ratelimit:<key>:<window>] tells both, since a window
    holds no colon.

    The theorems: the instant the repository computes is exact, and no minute, wherever it
    begins, holds more than twice the nominal rate. *)

From S2P Require Export Prelude.

Definition SECOND : Z := 1000000.
Definition DAY : Z := 24 * 60 * 60 * SECOND.

(** * The rolling budget *)

(** A row of [usage_records], as far as the budget reads it. *)
Record spend := mk_spend {
  spend_key : option string; spend_tenant : string; spend_at : Z; spend_tokens : Z; spend_prompt_tokens : Z
}.

Definition spent (r : spend) : Z := spend_tokens r + spend_prompt_tokens r.
Definition total (l : list spend) : Z := foldr Z.add 0%Z (spent <$> l).

(** [_scope], and the WHERE clause both statements share. *)
Definition within (scope : option string) (key : string) (since : Z) (r : spend) : bool :=
  bool_decide (spend_key r = Some key) && (since <=? spend_at r)%Z &&
  match scope with Some t => bool_decide (spend_tenant r = t) | None => true end.
Definition window (scope : option string) (rows : list spend) (key : string) (since : Z) : list spend :=
  List.filter (within scope key since) rows.

Definition tokens_used_today (scope : option string) (rows : list spend) (key : string) (now : Z) : Z :=
  total (window scope rows key (now - DAY)).

(** [sum(...) OVER (ORDER BY at)]: a row's frame holds every row that is not later. *)
Definition released (w : list spend) (r : spend) : Z :=
  total (List.filter (λ x, spend_at x <=? spend_at r)%Z w).

(** [func.min] *)
Definition least (l : list Z) : option Z :=
  foldr (λ x o, Some (match o with Some y => Z.min x y | None => x end)) None l.

Definition quota_recovers_at (scope : option string) (rows : list spend) (key : string) (tokens_to_release now : Z)
    : option Z :=
  let w := window scope rows key (now - DAY) in
  let oldest := least (spend_at <$> List.filter (λ r, tokens_to_release <=? released w r)%Z w) in
  (λ at_, at_ + DAY)%Z <$> oldest.

(** * The request limit *)

Definition MINUTE : Z := 60 * SECOND.

(** A counter and when it expires. *)
Abbreviation counters := (gmap (string * Z) (Z * Z)).

Definition incr (name : string * Z) (ttl_seconds now : Z) (c : counters) : Z * counters :=
  match c !! name with
  | Some (n, expires) =>
      if (now <? expires)%Z then (n + 1, <[name := (n + 1, expires)]> c)%Z
      else (1, <[name := (1, now + ttl_seconds * SECOND)]> c)%Z
  | None => (1, <[name := (1, now + ttl_seconds * SECOND)]> c)%Z
  end.

(** The cache's name of a key's counter at an instant. *)
Definition counter_name (key : string) (now : Z) : string * Z := (key, now / MINUTE)%Z.

(** [_assert_within_rate_limit], from the counter to the verdict. *)
Definition within_rate (rate_limit_rpm : Z) (key : string) (now : Z) (c : counters) : bool * counters :=
  if (rate_limit_rpm <=? 0)%Z then (true, c)
  else let '(count, c) := incr (counter_name key now) 120 now c in (count <=? rate_limit_rpm, c)%Z.

(** Requests, each with its key, the key's limit then and the instant. *)
Record knock := mk_knock { knock_key : string; knock_rpm : Z; knock_at : Z }.

(** The requests that are admitted, from a cache. *)
Fixpoint admitted (c : counters) (l : list knock) : list knock :=
  match l with
  | [] => []
  | k :: l =>
      let '(ok, c) := within_rate (knock_rpm k) (knock_key k) (knock_at k) c in
      (if ok : bool then [k] else []) ++ admitted c l
  end.

(** Those of a key within the minute that begins at an instant. *)
Definition in_minute (key : string) (from : Z) (l : list knock) : list knock :=
  List.filter (λ k, bool_decide (knock_key k = key) && (from <=? knock_at k)%Z && (knock_at k <? from + MINUTE)%Z) l.

(** * Sums over rows *)

Section Sums.
Implicit Types (p q : spend → bool) (l : list spend).

Definition never_negative l : Prop := Forall (λ r, 0 ≤ spent r)%Z l.

Lemma total_cons x l : total (x :: l) = (spent x + total l)%Z.
Proof. done. Qed.

Lemma never_negative_filter p l : never_negative l → never_negative (List.filter p l).
Proof.
  unfold never_negative. rewrite !Forall_forall. intros Hl x [_ Hx]%elem_of_List_filter. by apply Hl.
Qed.

Lemma total_nonneg l : never_negative l → (0 ≤ total l)%Z.
Proof. induction 1; rewrite ?total_cons; [done|]. lia. Qed.

Lemma total_split p l : (total (List.filter p l) + total (List.filter (λ x, negb (p x)) l))%Z = total l.
Proof. induction l as [|x l IH]; simpl; [done|]. destruct (p x); simpl; rewrite !total_cons; lia. Qed.

Lemma total_mono p q l : never_negative l → (∀ x, x ∈ l → p x = true → q x = true) →
  (total (List.filter p l) ≤ total (List.filter q l))%Z.
Proof.
  intros Hl Hpq. induction Hl as [|x l Hx Hl IH]; simpl; [done|].
  assert (total (List.filter p l) ≤ total (List.filter q l))%Z by (apply IH; intros; apply Hpq; [by right|done]).
  specialize (Hpq x (list_elem_of_here _ _)). destruct (p x), (q x); rewrite ?total_cons; try lia; by discriminate Hpq.
Qed.

Lemma filter_twice p q l : List.filter p (List.filter q l) = List.filter (λ x, q x && p x) l.
Proof. induction l as [|x l IH]; simpl; [done|]. destruct (q x); simpl; [|done]. destruct (p x); by rewrite IH. Qed.

Lemma filter_agree p q l : (∀ x, x ∈ l → p x = q x) → List.filter p l = List.filter q l.
Proof.
  induction l as [|x l IH]; intros H; simpl; [done|]. rewrite (H x) by left. rewrite IH; [done|].
  intros y Hy. apply H. by right.
Qed.

Lemma last_spend l : l ≠ [] → ∃ r, r ∈ l ∧ ∀ x, x ∈ l → (spend_at x ≤ spend_at r)%Z.
Proof.
  induction l as [|x l IH]; [done|]. intros _. destruct (decide (l = [])) as [->|Hl].
  - exists x. split; [by left|]. by intros y ->%list_elem_of_singleton.
  - destruct (IH Hl) as (r&Hr&Hmax). destruct (decide (spend_at x ≤ spend_at r)%Z).
    + exists r. split; [by right|]. by intros y [->|Hy]%elem_of_cons; auto.
    + exists x. split; [by left|]. intros y [->|Hy]%elem_of_cons; [done|]. specialize (Hmax y Hy). lia.
Qed.
End Sums.

Lemma least_spec l m : least l = Some m ↔ m ∈ l ∧ ∀ x, x ∈ l → (m ≤ x)%Z.
Proof.
  revert m. induction l as [|x l IH]; intros m; simpl; [by split; [|intros [?%not_elem_of_nil _]]|].
  destruct (least l) as [y|] eqn:Hy.
  - destruct (proj1 (IH y) eq_refl) as [Hin Hmin]. split.
    + intros [= <-]. split.
      * destruct (Z.min_spec x y) as [[_ ->]|[_ ->]]; [by left|by right].
      * intros z [->|Hz]%elem_of_cons; [lia|]. specialize (Hmin z Hz). lia.
    + intros [Hm Hle]. f_equal. apply Z.le_antisymm; [|pose proof (Hle x (list_elem_of_here _ _)); pose proof (Hle y ltac:(by right)); lia].
      apply elem_of_cons in Hm as [->|Hm]; [lia|]. specialize (Hmin m Hm). lia.
  - destruct l as [|z l]; [|done]. split; [intros [= ->]|intros [->%list_elem_of_singleton _]]; [|done].
    split; [by left|]. by intros y ->%list_elem_of_singleton.
Qed.

Lemma least_None l : least l = None ↔ l = [].
Proof. by destruct l. Qed.

(** The instant by which some amount has been spent is that of a row. *)
Lemma released_by w n a : never_negative w → (0 < n)%Z →
  least (spend_at <$> List.filter (λ r, n <=? released w r)%Z w) = Some a →
  ∀ b, (n ≤ total (List.filter (λ x, spend_at x <? b)%Z w) ↔ a < b)%Z.
Proof.
  intros Hw Hn [Hin Hmin]%least_spec b. apply list_elem_of_fmap in Hin as (r&->&Hr).
  apply elem_of_List_filter in Hr as [Hrel Hr]. apply Z.leb_le in Hrel. split.
  - intros Hle. destruct (last_spend (List.filter (λ x, spend_at x <? b)%Z w)) as (s&Hs&Hlast).
    { intros Hnil. rewrite Hnil in Hle. change (total []) with 0%Z in Hle. lia. }
    pose proof Hs as [Hb%Z.ltb_lt Hsw]%elem_of_List_filter. apply Z.le_lt_trans with (spend_at s); [|done].
    apply Hmin, list_elem_of_fmap. exists s. split; [done|]. apply elem_of_List_filter. split; [|done].
    apply Z.leb_le. etransitivity; [exact Hle|]. apply total_mono; [done|]. intros x Hx Hxb.
    apply Z.leb_le, Hlast, elem_of_List_filter. done.
  - intros Hab. etransitivity; [exact Hrel|]. apply total_mono; [done|]. intros x _ Hx%Z.leb_le.
    apply Z.ltb_lt. lia.
Qed.

(** What is left of a window later, if nothing is recorded. *)
Lemma used_later scope rows key now t : (now ≤ t)%Z →
  tokens_used_today scope rows key t =
    (tokens_used_today scope rows key now -
     total (List.filter (λ x, spend_at x <? t - DAY) (window scope rows key (now - DAY))))%Z.
Proof.
  intros Ht. unfold tokens_used_today. rewrite <- (total_split (λ x, spend_at x <? t - DAY)%Z (window _ _ _ (now - DAY))).
  match goal with |- _ = (?a + ?b - ?c)%Z => replace (a + b - c)%Z with b by lia end. f_equal.
  unfold window. rewrite filter_twice. apply filter_agree. intros x _. unfold within.
  destruct (bool_decide (spend_key x = Some key)), scope as [s|]; simpl; try done;
    try (destruct (bool_decide (spend_tenant x = s)));
    destruct (Z.leb_spec (t - DAY) (spend_at x)), (Z.leb_spec (now - DAY) (spend_at x)),
      (Z.ltb_spec (spend_at x) (t - DAY)); simpl; lia || done.
Qed.

(** What must go before a key is let in again has been spent. *)
Lemma quota_recovers scope rows key quota now : never_negative rows → (0 < quota)%Z →
  (quota ≤ tokens_used_today scope rows key now)%Z →
  is_Some (quota_recovers_at scope rows key (tokens_used_today scope rows key now - quota + 1) now).
Proof.
  intros Hrows Hq Hused. unfold quota_recovers_at. apply fmap_is_Some.
  destruct (least _) eqn:Hl; [done|]. exfalso. apply least_None, fmap_nil_inv in Hl.
  set (w := window scope rows key (now - DAY)) in *.
  destruct (last_spend w) as (r&Hr&Hlast).
  { intros Hw. unfold tokens_used_today in Hused. fold w in Hused. rewrite Hw in Hused. change (total []) with 0%Z in Hused. lia. }
  assert (released w r = total w) as Hall.
  { unfold released. f_equal. rewrite (filter_agree _ (λ _, true)); [clear; by induction w; simpl; f_equal|].
    intros x Hx. by apply Z.leb_le, Hlast. }
  eapply not_elem_of_nil. rewrite <- Hl. apply elem_of_List_filter. split; [|exact Hr].
  apply Z.leb_le. rewrite Hall. unfold tokens_used_today. fold w. lia.
Qed.

(** Before its instant a budget is exhausted, and after it there is some of it. *)
Lemma recovers_exactly scope rows key quota now recovers t : never_negative rows →
  (quota ≤ tokens_used_today scope rows key now)%Z → (now ≤ t)%Z →
  quota_recovers_at scope rows key (tokens_used_today scope rows key now - quota + 1) now = Some recovers →
  (tokens_used_today scope rows key t < quota ↔ recovers < t)%Z.
Proof.
  intros Hrows Hused Ht Hr. rewrite (used_later _ _ _ now t Ht).
  unfold quota_recovers_at in Hr. apply fmap_Some in Hr as (a&Ha&->).
  apply (λ Hn, released_by _ _ a (never_negative_filter _ _ Hrows) Hn) with (b := (t - DAY)%Z) in Ha as Hb; [|lia].
  change (List.filter (within scope key (now - DAY)) rows) with (window scope rows key (now - DAY)) in Hb. lia.
Qed.

(** C29: the instant a budget recovers is exact.  A key with a budget, refused because its
    last day holds that much or more, has an instant at which it recovers; while nothing
    more is recorded it is refused at every instant up to and at that one, and let in at
    every later one. *)
Theorem a_budget_recovers_exactly_when_told scope rows key quota now :
  never_negative rows → (0 < quota)%Z → (quota ≤ tokens_used_today scope rows key now)%Z →
  ∃ recovers, quota_recovers_at scope rows key (tokens_used_today scope rows key now - quota + 1) now = Some recovers ∧
    ∀ t, (now ≤ t)%Z → (tokens_used_today scope rows key t < quota ↔ recovers < t)%Z.
Proof.
  intros Hrows Hq Hused. destruct (quota_recovers scope rows key quota now Hrows Hq Hused) as [recovers Hr].
  exists recovers. split; [done|]. intros t Ht. by apply (recovers_exactly _ _ _ _ now).
Qed.

(** * Counters *)

Section Rates.
Context (key : string) (rate : Z).
Implicit Types (c : counters) (l : list knock).

(** Every request of the key is limited, and to no more than [rate]. *)
Definition limited l : Prop := Forall (λ k, knock_key k = key → 0 < knock_rpm k ≤ rate)%Z l.

Definition in_window (w : Z) l : list knock :=
  List.filter (λ k, bool_decide (knock_key k = key) && (knock_at k / MINUTE =? w)%Z) l.

(** How far the counter of a window is; one that has begun outlives its window. *)
Definition counted c (w n : Z) : Prop :=
  (n = 0 ∧ c !! (key, w) = None)%Z ∨ (∃ expires, c !! (key, w) = Some (n, expires) ∧ 0 < n ∧ (w + 1) * MINUTE ≤ expires)%Z.

Lemma in_its_window (at_ : Z) : (at_ < (at_ / MINUTE + 1) * MINUTE)%Z ∧ (at_ / MINUTE * MINUTE ≤ at_)%Z.
Proof. change MINUTE with 60000000%Z. Z.to_euclidean_division_equations. lia. Qed.

Lemma incr_counted c w n (at_ : Z) : counted c w n → (at_ / MINUTE = w)%Z →
  ∃ c', incr (counter_name key at_) 120 at_ c = ((n + 1)%Z, c') ∧ counted c' w (n + 1).
Proof.
  intros Hc Hw. unfold incr, counter_name. rewrite Hw. destruct (in_its_window at_) as [Hlt Hge]. rewrite Hw in Hlt, Hge.
  destruct Hc as [[-> ->]|(expires&->&Hn&He)].
  - eexists. split; [done|]. right. eexists. rewrite lookup_insert_eq. split; [done|].
    unfold MINUTE, SECOND in *. lia.
  - rewrite (proj2 (Z.ltb_lt at_ expires)) by lia. eexists. split; [done|]. right. eexists.
    rewrite lookup_insert_eq. split; [done|]. lia.
Qed.

Lemma incr_elsewhere c name now w n : name ≠ (key, w) → counted c w n → counted (incr name 120 now c).2 w n.
Proof.
  intros Hne Hc. assert ((incr name 120 now c).2 !! (key, w) = c !! (key, w)) as He.
  { unfold incr. repeat case_match; simpl; by rewrite lookup_insert_ne. }
  unfold counted. by rewrite He.
Qed.

Lemma admitted_in_window l c w n : limited l → counted c w n →
  (Z.of_nat (length (in_window w (admitted c l))) ≤ Z.max 0 (rate - n))%Z.
Proof.
  revert c n. induction l as [|k l IH]; intros c n Hl Hc; simpl; [lia|].
  apply Forall_cons in Hl as [Hk Hl]. unfold within_rate.
  destruct (decide (counter_name (knock_key k) (knock_at k) = (key, w))) as [Hname|Hname].
  - injection Hname as Hkey Hw. specialize (Hk Hkey). rewrite (proj2 (Z.leb_gt (knock_rpm k) 0)) by lia. rewrite Hkey.
    destruct (incr_counted c w n (knock_at k) Hc Hw) as (c'&->&Hc'). specialize (IH c' (n + 1)%Z Hl Hc').
    destruct (Z.leb_spec (n + 1) (knock_rpm k)); simpl; [|lia].
    rewrite bool_decide_eq_true_2, (proj2 (Z.eqb_eq (knock_at k / MINUTE) w)) by done. simpl length. lia.
  - assert (∀ ok : bool, in_window w (if ok then [k] else []) = []) as Hout.
    { intros []; [|done]. unfold in_window. simpl. case_bool_decide as Hkey; simpl; [|done].
      destruct (Z.eqb_spec (knock_at k / MINUTE) w); [|done]. exfalso. apply Hname. unfold counter_name. by f_equal. }
    assert (∀ (ok : bool) r, in_window w ((if ok then [k] else []) ++ r) = in_window w r) as Happ.
    { intros ok r. unfold in_window. rewrite List.filter_app. fold (in_window w (if ok then [k] else [])). by rewrite Hout. }
    destruct (knock_rpm k <=? 0)%Z; [rewrite (Happ true : ∀ r, in_window w ([k] ++ r) = _); by apply IH|].
    pose proof (incr_elsewhere c _ (knock_at k) w n Hname Hc) as Hc'.
    destruct (incr _ 120 (knock_at k) c) as [count c']. rewrite Happ. by apply IH.
Qed.

Lemma in_minute_windows from l :
  length (in_minute key from l) ≤ length (in_window (from / MINUTE) l) + length (in_window (from / MINUTE + 1) l).
Proof.
  induction l as [|k l IH]; simpl; [done|]. case_bool_decide; simpl; [|exact IH].
  destruct (Z.leb_spec from (knock_at k)), (Z.ltb_spec (knock_at k) (from + MINUTE)); simpl; try (repeat case_match; simpl; lia).
  assert (knock_at k / MINUTE = from / MINUTE ∨ knock_at k / MINUTE = from / MINUTE + 1)%Z as [->| ->].
  { change MINUTE with 60000000%Z in *. Z.to_euclidean_division_equations. lia. }
  - rewrite Z.eqb_refl. simpl. destruct (_ =? _)%Z; simpl; lia.
  - rewrite Z.eqb_refl. simpl. destruct (_ =? _)%Z; simpl; lia.
Qed.
End Rates.

(** No minute holds more than twice the rate.  However the requests of all keys are
    interleaved and however a key's limit is edited while it stays at most [rate], of any
    minute, wherever it begins, at most twice [rate] of the key's requests are admitted. *)
Theorem a_minute_admits_at_most_twice_the_rate key rate l from :
  (0 ≤ rate)%Z → limited key rate l →
  (Z.of_nat (length (in_minute key from (admitted ∅ l))) ≤ 2 * rate)%Z.
Proof.
  intros Hrate Hl. pose proof (in_minute_windows key from (admitted ∅ l)) as Hw.
  assert (∀ w, counted key ∅ w 0) as H0 by (intros w; left; by rewrite lookup_empty).
  pose proof (admitted_in_window key rate l ∅ (from / MINUTE) 0 Hl (H0 _)).
  pose proof (admitted_in_window key rate l ∅ (from / MINUTE + 1) 0 Hl (H0 _)). lia.
Qed.

(** * Witnesses *)

Module Demo.
Definition key : string := "0123456789abcdef".

(** Two requests, of 60 and of 50 tokens, ten hours apart. *)
Definition rows : list spend :=
  [mk_spend (Some key) "t1" (2 * DAY) 40 20; mk_spend (Some "another") "t1" (2 * DAY) 900 0;
   mk_spend (Some key) "t1" (2 * DAY + 36000 * SECOND) 50 0].
Definition now : Z := 2 * DAY + 36001 * SECOND.

Lemma a_budget_recovers_exactly_when_told_witness :
  never_negative rows ∧ tokens_used_today (Some "t1") rows key now = 110%Z ∧
  ∃ recovers, quota_recovers_at (Some "t1") rows key 11 now = Some recovers ∧
    ∀ t, (now ≤ t)%Z → (tokens_used_today (Some "t1") rows key t < 100 ↔ recovers < t)%Z.
Proof.
  assert (never_negative rows) as Hrows by (repeat constructor; vm_compute; discriminate).
  split; [exact Hrows|]. split; [vm_compute; reflexivity|].
  destruct (a_budget_recovers_exactly_when_told (Some "t1") rows key 100 now Hrows
    ltac:(lia) ltac:(vm_compute; discriminate)) as (recovers&Hr&Ht).
  exists recovers. split; [exact Hr|exact Ht].
Defined.

(** Twice the rate is reached, within two seconds that two windows share. *)
Definition burst : list knock :=
  [mk_knock key 2 (59 * SECOND); mk_knock key 2 (59 * SECOND); mk_knock key 2 (59 * SECOND);
   mk_knock key 2 (60 * SECOND); mk_knock key 2 (60 * SECOND); mk_knock key 2 (61 * SECOND)].

Lemma a_minute_admits_at_most_twice_the_rate_witness :
  (Z.of_nat (length (in_minute key (59 * SECOND) (admitted ∅ burst))) = 4)%Z ∧
  (Z.of_nat (length (in_minute key (59 * SECOND) (admitted ∅ burst))) ≤ 2 * 2)%Z.
Proof.
  split; [vm_compute; reflexivity|].
  apply a_minute_admits_at_most_twice_the_rate; [lia|]. unfold burst.
  repeat (apply Forall_cons; split; [simpl; intros _; lia|]). by apply Forall_nil.
Defined.
End Demo.
