(* ===== verification/Tokens.v ===== *)
(** Tokens of API keys ([domain/services/api_key_service.py], and the reading of the
    header in [interfaces/http/middleware/api_key_auth/authentication.py]).

    A [string] is a Python text whose code points are below 256, which is what a header
    decodes to.  [secrets.token_hex] and [secrets.token_urlsafe] are functions of the
    bytes they draw.  The HMAC is an argument: a digest of a pepper and a text.

    The theorems: what is issued is recognised, by the service that issued it and by any
    that still accepts its pepper, and what is recognised has the shape of a token. *)

From S2P Require SignIn.
From S2P Require Export Prelude.

(** * Text *)

(** [s.startswith(p)] and [s[len(p):]]. *)
Fixpoint after_prefix (p s : string) : option string :=
  match p, s with
  | EmptyString, _ => Some s
  | String x p, String y s => if Ascii.eqb x y then after_prefix p s else None
  | String _ _, EmptyString => None
  end.

(** [str.partition] at one character: what precedes it, and what follows it if it occurs. *)
Fixpoint partition (c : Ascii.ascii) (s : string) : string * option string :=
  match s with
  | EmptyString => (EmptyString, None)
  | String x s =>
      if Ascii.eqb x c then (EmptyString, Some s)
      else let '(before, after) := partition c s in (String x before, after)
  end.

(** [c in alphabet], and [all(c in alphabet for c in s)]. *)
Fixpoint occurs_in (c : Ascii.ascii) (alphabet : string) : bool :=
  match alphabet with EmptyString => false | String x a => Ascii.eqb c x || occurs_in c a end.
Fixpoint all_in (alphabet s : string) : bool :=
  match s with EmptyString => true | String c s => occurs_in c alphabet && all_in alphabet s end.

(** ** [secrets] *)

Definition HEX : string := "0123456789abcdef".
Definition URLSAFE : string := "ABCDEFGHIJKLMNOPQRSTUVWXYZabcdefghijklmnopqrstuvwxyz0123456789-_".
Definition digit_of (alphabet : string) (n : nat) : Ascii.ascii := default Ascii.zero (String.get n alphabet).

(** [token_hex], from the bytes drawn. *)
Fixpoint token_hex (bytes : list Byte.byte) : string :=
  match bytes with
  | [] => EmptyString
  | b :: rest =>
      let n := N.to_nat (Byte.to_N b) in
      String (digit_of HEX (n / 16)) (String (digit_of HEX (n mod 16)) (token_hex rest))
  end.

(** [token_urlsafe]: base64, in the alphabet that is safe in an address and without padding. *)
Fixpoint token_urlsafe (bytes : list Byte.byte) : string :=
  let v b := N.to_nat (Byte.to_N b) in
  let d n := digit_of URLSAFE (n mod 64) in
  match bytes with
  | [] => EmptyString
  | [a] => String (d (v a / 4)) (String (d (v a * 16)) EmptyString)
  | [a; b] => String (d (v a / 4)) (String (d (v a * 16 + v b / 16)) (String (d (v b * 4)) EmptyString))
  | a :: b :: c :: rest =>
      String (d (v a / 4)) (String (d (v a * 16 + v b / 16)) (String (d (v b * 4 + v c / 64))
        (String (d (v c)) (token_urlsafe rest))))
  end.

(** * The service *)

Definition KEY_PREFIX : string := "nx_live_".
(** The dot. *)
Definition SEPARATOR : Ascii.ascii := Ascii.ascii_of_nat 46.
Definition KEY_ID_BYTES : nat := 8.
Definition SECRET_BYTES : nat := 32.

Record IssuedKey := mk_issued { plaintext : string; issued_key_id : string; issued_digest : string }.

Definition parse_key_id (plaintext : string) : option string :=
  match after_prefix KEY_PREFIX plaintext with
  | None => None
  | Some remainder =>
      match partition SEPARATOR remainder with
      | (key_id, Some secret) =>
          if bool_decide (key_id = EmptyString) || bool_decide (secret = EmptyString) then None
          else if negb (String.length key_id =? KEY_ID_BYTES * 2)%nat || negb (all_in HEX key_id) then None
          else Some key_id
      | (_, None) => None
      end
  end.

Section ApiKeyService.
(** [hmac.new(pepper, plaintext.encode(), sha256).hexdigest()] *)
Context (hmac : string → string → string).

(** The peppers of a service, of which there is one at least. *)
Record service := mk_service { current : string; previous : list string }.
Definition _peppers (s : service) : list string := current s :: previous s.

Definition _digest (plaintext pepper : string) : string := hmac pepper plaintext.

Definition issue (s : service) (key_bytes secret_bytes : list Byte.byte) : IssuedKey :=
  let key_id := token_hex key_bytes in
  let secret := token_urlsafe secret_bytes in
  let plaintext := (KEY_PREFIX ++ key_id ++ String SEPARATOR secret)%string in
  mk_issued plaintext key_id (_digest plaintext (current s)).

Definition verify (s : service) (plaintext stored_digest : string) : bool :=
  existsb (λ pepper, bool_decide (_digest plaintext pepper = stored_digest)) (_peppers s).
End ApiKeyService.

(** [BEARER], and the token a header carries. *)
Definition BEARER : string := "bearer ".
Definition bearer_token (header : string) : option string :=
  match after_prefix BEARER (SignIn.lower header) with
  | Some _ => Some (py_strip (String.substring (String.length BEARER) (String.length header) header))
  | None => None
  end.

(** * Text, in general *)

#[local] Arguments String.append : simpl nomatch.

Lemma after_prefix_spec p s r : after_prefix p s = Some r ↔ s = (p ++ r)%string.
Proof.
  revert s. induction p as [|x p IH]; intros s; simpl; [split; [by intros [= ->]|by intros ->]|].
  destruct s as [|y s]; [done|]. destruct (Ascii.eqb_spec x y) as [->|Hne].
  - rewrite IH. split; [by intros ->|by intros [= ->]].
  - split; [done|intros [= -> _]; done].
Qed.

Lemma partition_spec c s a b : partition c s = (a, Some b) ↔ s = (a ++ String c b)%string ∧ occurs_in c a = false.
Proof.
  revert a. induction s as [|x s IH]; intros a; simpl.
  { split; [done|]. by intros [H _]; destruct a. }
  rewrite Ascii.eqb_sym. destruct (Ascii.eqb_spec c x) as [<-|Hne].
  - split; [intros [= <- <-]; done|]. intros [Heq Hin]. destruct a as [|y a]; injection Heq as ->; [by subst|].
    simpl in Hin. by rewrite Ascii.eqb_refl in Hin.
  - destruct (partition c s) as [a' [b'|]] eqn:Hp.
    + split.
      * intros [= <- <-]. destruct (proj1 (IH a') eq_refl) as [-> Hin]. split; [done|]. simpl.
        by rewrite (proj2 (Ascii.eqb_neq c x) Hne).
      * intros [Heq Hin]. destruct a as [|y a]; injection Heq as -> ->; [done|]. simpl in Hin.
        apply orb_false_iff in Hin as [_ Hin]. pose proof (proj2 (IH a) (conj eq_refl Hin)) as [= -> ->]. done.
    + split; [done|]. intros [Heq Hin]. destruct a as [|y a]; injection Heq as -> ->; [done|].
      simpl in Hin. apply orb_false_iff in Hin as [_ Hin]. by pose proof (proj2 (IH a) (conj eq_refl Hin)).
Qed.

Lemma all_in_occurs alphabet s c : all_in alphabet s = true → occurs_in c alphabet = false → occurs_in c s = false.
Proof.
  induction s as [|x s IH]; simpl; [done|]. intros [Hx Hs]%andb_true_iff Hc. rewrite (IH Hs Hc), orb_false_r.
  destruct (Ascii.eqb_spec c x) as [->|]; [congruence|done].
Qed.

Lemma all_in_app alphabet a b : all_in alphabet (a ++ b) = all_in alphabet a && all_in alphabet b.
Proof. induction a as [|x a IH]; simpl; [done|]. by rewrite IH, andb_assoc. Qed.

Lemma all_in_sub a a' s : (∀ c, occurs_in c a = true → occurs_in c a' = true) → all_in a s = true → all_in a' s = true.
Proof. intros Ha. induction s as [|x s IH]; simpl; [done|]. intros [Hx Hs]%andb_true_iff. by rewrite Ha, IH. Qed.

Lemma string_app_assoc (a b c : string) : (a ++ (b ++ c) = (a ++ b) ++ c)%string.
Proof. induction a as [|x a IH]; simpl; [done|]. by rewrite IH. Qed.

Lemma list_of_app (a b : string) :
  String.list_ascii_of_string (a ++ b) = String.list_ascii_of_string a ++ String.list_ascii_of_string b.
Proof. induction a as [|x a IH]; simpl; [done|]. by rewrite IH. Qed.

Lemma string_of_app a b :
  (String.string_of_list_ascii (a ++ b) = String.string_of_list_ascii a ++ String.string_of_list_ascii b)%string.
Proof. induction a as [|x a IH]; simpl; [done|]. by rewrite IH. Qed.

Lemma lower_app a b : (SignIn.lower (a ++ b) = SignIn.lower a ++ SignIn.lower b)%string.
Proof. unfold SignIn.lower. by rewrite list_of_app, map_app, string_of_app. Qed.

Lemma lower_length s : String.length (SignIn.lower s) = String.length s.
Proof. unfold SignIn.lower. induction s as [|x s IH]; simpl; [done|]. by f_equal. Qed.

Lemma substring_all s n : String.length s ≤ n → String.substring 0 n s = s.
Proof. revert n. induction s as [|x s IH]; intros [|n] Hn; simpl in *; try lia; try done. f_equal. apply IH. lia. Qed.

Lemma substring_app a b n : String.length b ≤ n → String.substring (String.length a) n (a ++ b) = b.
Proof. intros Hn. induction a as [|x a IH]; simpl; [by apply substring_all|]. by destruct n. Qed.

Lemma length_app_string (a b : string) : String.length (a ++ b) = String.length a + String.length b.
Proof. induction a as [|x a IH]; simpl; [done|]. by rewrite IH. Qed.

(** ** White space *)

Definition blank (s : string) : Prop := Forall (λ a, is_space (ascii_code a) = true) (String.list_ascii_of_string s).
Definition solid (s : string) : Prop := Forall (λ a, is_space (ascii_code a) = false) (String.list_ascii_of_string s).

Lemma drop_while_app {A} (p : A → bool) a b :
  Forall (λ x, p x = true) a → Forall (λ x, p x = false) b → drop_while p (a ++ b) = b.
Proof.
  intros Ha Hb. induction Ha as [|x a Hx Ha IH]; simpl; [|by rewrite Hx]. by destruct Hb as [|y b Hy Hb]; simpl; rewrite ?Hy.
Qed.

Lemma drop_while_stop {A} (p : A → bool) l r : l ≠ [] → Forall (λ x, p x = false) l → drop_while p (l ++ r) = l ++ r.
Proof. intros Hl Hp. destruct Hp as [|x l' Hx _]; [done|]. simpl. by rewrite Hx. Qed.

Lemma py_strip_padded left s right : blank left → blank right → solid s → py_strip (left ++ s ++ right) = s.
Proof.
  intros Hl Hr Hs. unfold py_strip, strip_with. rewrite !list_of_app.
  destruct (decide (s = EmptyString)) as [->|Hne].
  - simpl. rewrite <- (app_nil_r (_ ++ _)), drop_while_app; [done| |constructor]. by apply Forall_app_2.
  - assert (String.list_ascii_of_string s ≠ []) as Hls by (by destruct s).
    assert (drop_while (λ a, is_space (ascii_code a)) (String.list_ascii_of_string left ++ String.list_ascii_of_string s ++
      String.list_ascii_of_string right) = String.list_ascii_of_string s ++ String.list_ascii_of_string right) as ->.
    { clear -Hl Hs Hls. induction Hl as [|x l Hx Hl IH]; simpl; [by apply drop_while_stop|]. by rewrite Hx. }
    rewrite reverse_app, drop_while_app; [|by apply Forall_reverse..]. rewrite reverse_involutive.
    apply String.string_of_list_ascii_of_string.
Qed.

(** ** What is drawn *)

Definition is_key_id (k : string) : Prop := String.length k = KEY_ID_BYTES * 2 ∧ all_in HEX k = true.

Lemma token_hex_hex bytes : all_in HEX (token_hex bytes) = true.
Proof. induction bytes as [|b bytes IH]; simpl; [done|]. rewrite IH, !andb_true_r. by destruct b. Qed.

Lemma token_hex_length bytes : String.length (token_hex bytes) = length bytes * 2.
Proof. induction bytes as [|b bytes IH]; simpl; [done|]. by rewrite IH. Qed.

Lemma digit_urlsafe n : occurs_in (digit_of URLSAFE (n mod 64)) URLSAFE = true.
Proof.
  assert (n mod 64 < 64) as Hn by (apply Nat.mod_upper_bound; lia). revert Hn. generalize (n mod 64). clear n. intros n Hn.
  do 64 (destruct n as [|n]; [reflexivity|]). lia.
Qed.

Lemma token_urlsafe_safe bytes : all_in URLSAFE (token_urlsafe bytes) = true.
Proof.
  revert bytes. fix IH 1. intros [|a [|b [|c rest]]]; [done|..]; cbn [token_urlsafe all_in];
    rewrite !digit_urlsafe; [done..|]. simpl. apply IH.
Qed.

Lemma token_urlsafe_drawn bytes : bytes ≠ [] → token_urlsafe bytes ≠ EmptyString.
Proof. by destruct bytes as [|a [|b [|c rest]]]. Qed.

(** The characters of a token. *)
Definition TOKEN : string := (URLSAFE ++ String SEPARATOR "")%string.

Lemma occurs_in_spec c s : occurs_in c s = true ↔ c ∈ String.list_ascii_of_string s.
Proof.
  induction s as [|x s IH]; simpl; [by split; [|intros ?%not_elem_of_nil]|].
  rewrite orb_true_iff, IH, elem_of_cons, Ascii.eqb_eq. done.
Qed.

Lemma token_solid s : all_in TOKEN s = true → solid s.
Proof.
  unfold solid. induction s as [|x s IH]; [constructor|]. cbn [all_in]. intros [Hx Hs]%andb_true_iff.
  simpl. constructor; [|by apply IH]. destruct (is_space (ascii_code x)) eqn:Hsp; [|done].
  destruct x as [[] [] [] [] [] [] [] []]; vm_compute in Hx, Hsp; congruence.
Qed.

(** * Guarantees *)

(** A token is its prefix, its handle and its secret.  [parse_key_id] answers a handle
    for exactly the texts made of the prefix, sixteen hexadecimal digits, a dot and
    something after it, and it answers those digits; for every other text it answers
    nothing. *)
Theorem parse_answers_the_handle text k :
  parse_key_id text = Some k ↔
    ∃ secret, secret ≠ EmptyString ∧ is_key_id k ∧ text = (KEY_PREFIX ++ k ++ String SEPARATOR secret)%string.
Proof.
  unfold parse_key_id. split.
  - destruct (after_prefix KEY_PREFIX text) as [r|] eqn:Hp; [|done]. apply after_prefix_spec in Hp as ->.
    destruct (partition SEPARATOR r) as [k' [secret|]] eqn:Hr; [|done]. apply partition_spec in Hr as [-> _].
    destruct (bool_decide (k' = EmptyString)) eqn:?, (bool_decide (secret = EmptyString)) eqn:Hs; simpl; try done.
    destruct (_ =? _)%nat eqn:Hlen; simpl; [|done]. destruct (all_in HEX k') eqn:Hhex; simpl; [|done].
    intros [= <-]. exists secret. apply bool_decide_eq_false in Hs. apply Nat.eqb_eq in Hlen. done.
  - intros (secret&Hs&[Hlen Hhex]&->). rewrite (proj2 (after_prefix_spec _ _ _) eq_refl).
    rewrite (proj2 (partition_spec SEPARATOR _ k secret)).
    + rewrite (bool_decide_eq_false_2 (secret = _)) by done. rewrite bool_decide_eq_false_2 by (by intros ->).
      simpl. by rewrite Hlen, Nat.eqb_refl, Hhex.
    + split; [done|]. by apply (all_in_occurs HEX).
Qed.

(** What a service issues. *)
Lemma issued_shape hmac s kb sb : length kb = KEY_ID_BYTES →
  is_key_id (issued_key_id (issue hmac s kb sb)) ∧ solid (plaintext (issue hmac s kb sb)).
Proof.
  intros Hk. split.
  - split; simpl; [by rewrite token_hex_length, Hk|apply token_hex_hex].
  - apply token_solid. unfold issue. cbn [plaintext]. rewrite !all_in_app. apply andb_true_iff. split; [done|].
    apply andb_true_iff. split; [by eapply all_in_sub, token_hex_hex; intros c Hc; destruct c as [[] [] [] [] [] [] [] []]|].
    change (all_in TOKEN (token_urlsafe sb) = true). eapply all_in_sub, token_urlsafe_safe.
    intros c Hc. apply occurs_in_spec. unfold TOKEN. rewrite list_of_app. apply elem_of_app. left. by apply occurs_in_spec.
Qed.

(** C31: an issued token is recognised.  Whatever bytes are drawn, the token a service
    issues, presented as a bearer token with any white space around it, is read back, leads
    to the handle it was issued under, and verifies against the digest that was stored: by
    every service that still accepts the pepper it was issued with, whatever its current
    one is. *)
Theorem an_issued_token_is_recognised hmac s s' key_bytes secret_bytes scheme left right :
  length key_bytes = KEY_ID_BYTES → secret_bytes ≠ [] → current s ∈ _peppers s' →
  SignIn.lower scheme = BEARER → blank left → blank right →
  let k := issue hmac s key_bytes secret_bytes in
  bearer_token (scheme ++ left ++ plaintext k ++ right) = Some (plaintext k) ∧
  parse_key_id (plaintext k) = Some (issued_key_id k) ∧
  verify hmac s' (plaintext k) (issued_digest k) = true.
Proof.
  intros Hk Hs Hp Hscheme Hl Hr. cbv zeta.
  destruct (issued_shape hmac s key_bytes secret_bytes Hk) as [Hid Hsolid]. split; [|split].
  - unfold bearer_token. rewrite lower_app, Hscheme, (proj2 (after_prefix_spec _ _ _) eq_refl). f_equal.
    rewrite <- Hscheme, lower_length, substring_app by (rewrite !length_app_string; lia).
    by apply py_strip_padded.
  - apply parse_answers_the_handle. eexists. split; [by apply token_urlsafe_drawn|]. by split.
  - unfold verify. apply existsb_exists. exists (current s). split; [by apply list_elem_of_In|].
    by apply bool_decide_eq_true.
Qed.

(** * Witnesses *)

Module Demo.
(** A digest that tells peppers and texts apart. *)
Definition keyed (pepper text : string) : string := (pepper ++ ":" ++ text)%string.
Definition before : service := mk_service "first" [].
Definition rotated : service := mk_service "second" ["first"].
Definition key_bytes : list Byte.byte := repeat Byte.xa5 8.
Definition secret_bytes : list Byte.byte := repeat Byte.xff 32.

Lemma an_issued_token_is_recognised_witness :
  let k := issue keyed before key_bytes secret_bytes in
  plaintext k = "nx_live_a5a5a5a5a5a5a5a5.__________________________________________8" ∧
  bearer_token (("Bearer " ++ " " ++ plaintext k ++ "  "))%string = Some (plaintext k) ∧
  parse_key_id (plaintext k) = Some (issued_key_id k) ∧
  verify keyed rotated (plaintext k) (issued_digest k) = true.
Proof.
  split; [vm_compute; reflexivity|].
  refine (an_issued_token_is_recognised keyed before rotated key_bytes secret_bytes "Bearer " " " "  " _ _ _ _ _ _).
  - reflexivity.
  - discriminate.
  - right. left.
  - reflexivity.
  - repeat constructor.
  - repeat constructor.
Defined.
End Demo.
