(* ===== verification/Networks.v ===== *)
(** Addresses and networks: what the source uses of Python's [ipaddress], and the ranges a
    key is restricted to ([application/use_cases/manage_api_keys/policy.py]).

    An address is its version and an integer, a network its base and the length of its
    prefix; the scope of an IPv6 address is parsed and left out, since membership does not
    read it.  [None] is the [ValueError] of a text that is none. *)

From S2P Require Export Tokens.

Inductive version : Set := V4 | V6.
#[export] Instance version_eq_dec : EqDecision version.
Proof. solve_decision. Defined.

Record address := mk_address { address_version : version; ip : Z }.
Record network := mk_network { network_version : version; base : Z; prefixlen : Z }.
#[export] Instance address_eq_dec : EqDecision address.
Proof. solve_decision. Defined.
#[export] Instance network_eq_dec : EqDecision network.
Proof. solve_decision. Defined.

(** * Masks *)

Definition max_prefixlen (v : version) : Z := match v with V4 => 32 | V6 => 128 end.
Definition ALL_ONES (v : version) : Z := Z.ones (max_prefixlen v).

(** [_ip_int_from_prefix] *)
Definition netmask (v : version) (prefixlen : Z) : Z := Z.lxor (ALL_ONES v) (Z.shiftr (ALL_ONES v) prefixlen).

(** [_count_righthand_zero_bits] *)
Definition bit_length (n : Z) : Z := if (n =? 0)%Z then 0 else Z.log2 n + 1.
Definition righthand_zero_bits (n bits : Z) : Z :=
  if (n =? 0)%Z then bits else Z.min bits (bit_length (Z.land (Z.lnot n) (n - 1))).

Definition prefix_from_ip_int (v : version) (n : Z) : option Z :=
  let trailing_zeroes := righthand_zero_bits n (max_prefixlen v) in
  let prefixlen := (max_prefixlen v - trailing_zeroes)%Z in
  if (Z.shiftr n trailing_zeroes =? Z.ones prefixlen)%Z then Some prefixlen else None.

(** [address in network] *)
Definition contains (n : network) (a : address) : bool :=
  bool_decide (address_version a = network_version n) &&
  (Z.land (ip a) (netmask (network_version n) (prefixlen n)) =? base n)%Z.

(** * Texts *)

(** [str.split] at one character. *)
Fixpoint split (c : Ascii.ascii) (s : string) : list string :=
  match s with
  | EmptyString => [EmptyString]
  | String x s =>
      if Ascii.eqb x c then EmptyString :: split c s
      else match split c s with
           | [] => [String x EmptyString]
           | first :: rest => String x first :: rest
           end
  end.

Definition is_empty (s : string) : bool := bool_decide (s = EmptyString).
Definition DIGITS : string := "0123456789".
Definition HEX_DIGITS : string := "0123456789abcdefABCDEF".

(** The value of a digit, and of digits in a base. *)
Definition digit_value (c : Ascii.ascii) : Z :=
  let n := ascii_code c in if (n <? 58)%Z then n - 48 else if (n <? 97)%Z then n - 55 else n - 87.
Fixpoint digits_value (radix acc : Z) (s : string) : Z :=
  match s with EmptyString => acc | String c s => digits_value radix (acc * radix + digit_value c) s end.

Definition parse_octet (s : string) : option Z :=
  if is_empty s || negb (all_in DIGITS s) || (3 <? String.length s)%nat then None
  else if negb (bool_decide (s = "0")) && bool_decide (String.get 0 s = Some (Ascii.ascii_of_nat 48)) then None
  else let n := digits_value 10 0 s in if (255 <? n)%Z then None else Some n.

Definition DOT : Ascii.ascii := Ascii.ascii_of_nat 46.
Definition COLON : Ascii.ascii := Ascii.ascii_of_nat 58.
Definition SLASH : Ascii.ascii := Ascii.ascii_of_nat 47.
Definition PERCENT : Ascii.ascii := Ascii.ascii_of_nat 37.

(** [IPv4Address] *)
Definition ipv4 (s : string) : option Z :=
  match mapM parse_octet (split DOT s) with
  | Some [a; b; c; d] => Some (((a * 256 + b) * 256 + c) * 256 + d)%Z
  | _ => None
  end.

Definition parse_hextet (s : string) : option Z :=
  if negb (all_in HEX_DIGITS s) || (4 <? String.length s)%nat || is_empty s then None else Some (digits_value 16 0 s).

(** A part between colons: its text, or half of a trailing IPv4 address. *)
Inductive part : Set := Text (s : string) | Half (n : Z).
Definition blank_part (p : part) : bool := match p with Text s => is_empty s | Half _ => false end.
Definition hextet (p : part) : option Z := match p with Text s => parse_hextet s | Half n => Some n end.

Definition parts_of (s : string) : option (list part) :=
  let texts := split COLON s in
  if (length texts <? 3)%nat then None
  else
    let last := default EmptyString (list.last texts) in
    if occurs_in DOT last then
      match ipv4 last with
      | Some n => Some (map Text (take (length texts - 1) texts) ++ [Half (Z.shiftr n 16); Half (Z.land n 65535)])
      | None => None
      end
    else Some (map Text texts).

(** The blank parts strictly inside: where zeros are skipped. *)
Definition skips (parts : list part) : list nat :=
  List.filter (λ i, match parts !! i with Some p => blank_part p | None => false end) (seq 1 (length parts - 2)).

Definition joined (hextets : list Z) : Z := foldl (λ acc h, Z.lor (Z.shiftl acc 16) h) 0%Z hextets.

Definition skipping (parts : list part) (skip_index : nat) : option Z :=
  let hi := skip_index in
  let lo := (length parts - skip_index - 1)%nat in
  let leading := match head parts with Some p => blank_part p | None => false end in
  let trailing := match list.last parts with Some p => blank_part p | None => false end in
  let hi' := if leading then (hi - 1)%nat else hi in
  let lo' := if trailing then (lo - 1)%nat else lo in
  if leading && negb (hi' =? 0)%nat || trailing && negb (lo' =? 0)%nat || (8 <? hi' + lo' + 1)%nat then None
  else
    match mapM hextet (take hi' parts), mapM hextet (drop (length parts - lo') parts) with
    | Some h, Some l => Some (joined (h ++ repeat 0%Z (8 - (hi' + lo')) ++ l))
    | _, _ => None
    end.

(** [IPv6Address._ip_int_from_string]; a blank end without a skip is no hextet. *)
Definition ipv6_int (s : string) : option Z :=
  match parts_of s with
  | None => None
  | Some parts =>
      if (9 <? length parts)%nat then None
      else match skips parts with
      | [] => if (length parts =? 8)%nat then joined <$> mapM hextet parts else None
      | [i] => skipping parts i
      | _ => None
      end
  end.

(** [IPv6Address] *)
Definition ipv6 (s : string) : option Z :=
  if occurs_in SLASH s then None
  else match partition PERCENT s with
  | (addr, None) => ipv6_int addr
  | (addr, Some scope_id) => if is_empty scope_id || occurs_in PERCENT scope_id then None else ipv6_int addr
  end.

Definition ip_address (s : string) : option address :=
  match ipv4 s with
  | Some n => Some (mk_address V4 n)
  | None => mk_address V6 <$> ipv6 s
  end.

(** ** Networks *)

Definition prefix_from_prefix_string (v : version) (s : string) : option Z :=
  if is_empty s || negb (all_in DIGITS s) then None
  else let n := digits_value 10 0 s in if (n <=? max_prefixlen v)%Z then Some n else None.

(** [_prefix_from_ip_string]: a netmask, or else a hostmask. *)
Definition prefix_from_ip_string (s : string) : option Z :=
  match ipv4 s with
  | None => None
  | Some n =>
      match prefix_from_ip_int V4 n with
      | Some p => Some p
      | None => prefix_from_ip_int V4 (Z.lxor n (ALL_ONES V4))
      end
  end.

Definition make_netmask (v : version) (mask : option string) : option Z :=
  match mask with
  | None => Some (max_prefixlen v)
  | Some s =>
      match prefix_from_prefix_string v s, v with
      | Some p, _ => Some p
      | None, V4 => prefix_from_ip_string s
      | None, V6 => None
      end
  end.

Definition address_of (v : version) (s : string) : option Z := match v with V4 => ipv4 s | V6 => ipv6 s end.

(** [IPv4Network] and [IPv6Network]: [None] where the address or the mask is none, and
    inside, [None] where strictness refuses host bits. *)
Definition network_of (v : version) (strict : bool) (addr : string) (mask : option string) : option (option network) :=
  match address_of v addr, make_netmask v mask with
  | Some n, Some p =>
      let masked := Z.land n (netmask v p) in
      Some (if strict && negb (masked =? n)%Z then None else Some (mk_network v masked p))
  | _, _ => None
  end.

Definition ip_network (s : string) (strict : bool) : option network :=
  let parse addr mask :=
    match network_of V4 strict addr mask with
    | Some o => o
    | None => match network_of V6 strict addr mask with Some o => o | None => None end
    end in
  match split SLASH s with
  | [addr] => parse addr None
  | [addr; mask] => parse addr (Some mask)
  | _ => None
  end.

(** * The ranges of a key *)

(** [_parse_cidrs]; [None] is [InvalidCidrError]. *)
Fixpoint _parse_cidrs (values : list string) : option (list network) :=
  match values with
  | [] => Some []
  | value :: rest =>
      let candidate := py_strip value in
      if is_empty candidate then _parse_cidrs rest
      else match ip_network candidate false with
      | None => None
      | Some n => (λ ns, n :: ns) <$> _parse_cidrs rest
      end
  end.

(** * Values of texts *)

Lemma digit_value_bounds radix alphabet c : radix = 10%Z ∧ alphabet = DIGITS ∨ radix = 16%Z ∧ alphabet = HEX_DIGITS →
  occurs_in c alphabet = true → (0 ≤ digit_value c < radix)%Z.
Proof.
  intros [[-> ->]|[-> ->]]; destruct c as [[] [] [] [] [] [] [] []]; intros Hc; vm_compute in Hc; try discriminate Hc;
    vm_compute; split; congruence.
Qed.

Lemma digits_value_bounds radix alphabet s acc : radix = 10%Z ∧ alphabet = DIGITS ∨ radix = 16%Z ∧ alphabet = HEX_DIGITS →
  all_in alphabet s = true → (0 ≤ acc)%Z →
  (0 ≤ digits_value radix acc s < (acc + 1) * radix ^ Z.of_nat (String.length s))%Z.
Proof.
  intros Hr. assert (0 < radix)%Z as Hpos by (destruct Hr as [[-> _]|[-> _]]; lia).
  revert acc. induction s as [|c s IH]; intros acc Hs Ha; [change (String.length "") with 0; rewrite Z.pow_0_r; simpl; lia|].
  cbn [all_in] in Hs. apply andb_true_iff in Hs as [Hc Hs]. apply (digit_value_bounds radix alphabet c Hr) in Hc.
  cbn [digits_value String.length]. rewrite Nat2Z.inj_succ, Z.pow_succ_r by lia.
  specialize (IH (acc * radix + digit_value c)%Z Hs ltac:(nia)).
  split; [lia|]. eapply Z.lt_le_trans; [apply IH|]. rewrite Z.mul_assoc. apply Z.mul_le_mono_nonneg_r; [|nia].
  apply Z.pow_nonneg. lia.
Qed.

Lemma parse_octet_bounds s n : parse_octet s = Some n → (0 ≤ n < 256)%Z.
Proof.
  unfold parse_octet. destruct (all_in DIGITS s) eqn:Hs; [|rewrite orb_true_r; done]. repeat case_match; try done.
  intros [= <-]. unbool. pose proof (digits_value_bounds 10 DIGITS s 0 ltac:(by left) Hs ltac:(lia)). lia.
Qed.

Lemma ipv4_bounds s n : ipv4 s = Some n → (0 ≤ n < 2 ^ 32)%Z.
Proof.
  unfold ipv4. destruct (mapM parse_octet (split DOT s)) as [l|] eqn:Hm; [|done]. apply mapM_Some_1 in Hm.
  assert (Forall (λ n, 0 ≤ n < 256)%Z l) as Hl.
  { clear -Hm. induction Hm as [|x y lx ly Hxy _ IH]; constructor; [by eapply parse_octet_bounds|done]. }
  destruct l as [|a [|b [|c [|d []]]]]; try done. intros [= <-]. repeat (apply Forall_cons in Hl as [? Hl]). lia.
Qed.

Lemma hextet_bounds p n : hextet p = Some n → match p with Text _ => True | Half h => 0 ≤ h < 65536 end%Z →
  (0 ≤ n < 65536)%Z.
Proof.
  destruct p as [s|h]; simpl; [intros Hp _|by intros [= ->]]. unfold parse_hextet in Hp.
  destruct (all_in HEX_DIGITS s) eqn:Hs; [|done]. simpl in Hp. destruct (4 <? String.length s)%nat eqn:Hlen; [done|].
  simpl in Hp. destruct (is_empty s); [done|]. injection Hp as <-. apply Nat.ltb_ge in Hlen.
  pose proof (digits_value_bounds 16 HEX_DIGITS s 0 ltac:(by right) Hs ltac:(lia)) as [H0 H1].
  split; [done|]. eapply Z.lt_le_trans; [exact H1|]. change 65536%Z with (16 ^ 4)%Z. rewrite Z.mul_1_l.
  apply Z.pow_le_mono_r; lia.
Qed.

Definition sized (p : part) : Prop := match p with Text _ => True | Half h => (0 ≤ h < 65536)%Z end.

Lemma parts_sized s parts : parts_of s = Some parts → Forall sized parts.
Proof.
  unfold parts_of. destruct (_ <? 3)%nat; [done|]. destruct (occurs_in DOT _).
  - destruct (ipv4 _) as [n|] eqn:Hn; [|done]. intros [= <-]. apply ipv4_bounds in Hn. apply Forall_app. split.
    + apply Forall_forall. by intros x (t&->&_)%list_elem_of_fmap.
    + repeat constructor; simpl.
      * rewrite Z.shiftr_div_pow2 by lia. apply Z.div_pos; lia.
      * rewrite Z.shiftr_div_pow2 by lia. apply Z.div_lt_upper_bound; lia.
      * apply Z.land_nonneg. lia.
      * change 65535%Z with (Z.ones 16). rewrite Z.land_ones by lia. apply Z.mod_pos_bound. lia.
  - intros [= <-]. apply Forall_forall. by intros x (t&->&_)%list_elem_of_fmap.
Qed.

Lemma hextets_bounds parts l : Forall sized parts → mapM hextet parts = Some l →
  Forall (λ n, 0 ≤ n < 65536)%Z l ∧ length l = length parts.
Proof.
  intros Hs Hm. apply mapM_Some_1 in Hm. split; [|by symmetry; eapply Forall2_length].
  revert Hs. induction Hm as [|x y lx ly Hxy _ IH]; intros Hs; [constructor|]. apply Forall_cons in Hs as [Hx Hs].
  constructor; [by eapply hextet_bounds|by apply IH].
Qed.

Lemma append_hextet y x : (0 ≤ x < 65536)%Z → Z.lor (Z.shiftl y 16) x = (y * 65536 + x)%Z.
Proof.
  intros Hx. assert (Z.land (Z.shiftl y 16) x = 0%Z) as Hd.
  { apply Z.bits_inj'. intros n Hn. rewrite Z.land_spec, Z.bits_0, Z.shiftl_spec by lia.
    destruct (decide (n < 16)%Z); [by rewrite Z.testbit_neg_r by lia|].
    replace x with (x mod 2 ^ 16)%Z by (apply Z.mod_small; done). rewrite Z.mod_pow2_bits_high by lia. apply andb_false_r. }
  rewrite <- Z.lxor_lor, <- Z.add_nocarry_lxor by done. by rewrite Z.shiftl_mul_pow2.
Qed.

Lemma joined_bounds l : Forall (λ n, 0 ≤ n < 65536)%Z l → (0 ≤ joined l < 2 ^ (16 * Z.of_nat (length l)))%Z.
Proof.
  unfold joined. induction l as [|x l IH] using rev_ind; intros Hl; [simpl; lia|].
  apply Forall_app in Hl as [Hl Hx]. apply Forall_cons in Hx as [Hx _]. specialize (IH Hl).
  rewrite foldl_app. simpl. set (y := foldl _ _ l) in *. rewrite length_app. simpl.
  rewrite append_hextet by done.
  replace (16 * Z.of_nat (length l + 1))%Z with (16 * Z.of_nat (length l) + 16)%Z by lia.
  rewrite Z.pow_add_r by lia. change (2 ^ 16)%Z with 65536%Z. nia.
Qed.

Lemma joined_small l : Forall (λ n, 0 ≤ n < 65536)%Z l → length l ≤ 8 → (0 ≤ joined l < 2 ^ 128)%Z.
Proof.
  intros Hl Hlen. destruct (joined_bounds l Hl) as [H0 H1]. split; [done|]. eapply Z.lt_le_trans; [exact H1|].
  apply Z.pow_le_mono_r; lia.
Qed.

Lemma skipping_bounds parts i n : Forall sized parts → skipping parts i = Some n → (0 ≤ n < 2 ^ 128)%Z.
Proof.
  intros Hs. unfold skipping. cbv zeta.
  match goal with |- context [(8 <? ?x + ?y + 1)%nat] => set (hi := x); set (lo := y) end.
  destruct (_ || (8 <? hi + lo + 1)%nat) eqn:Hc; [done|]. apply orb_false_iff in Hc as [_ Hc]. apply Nat.ltb_ge in Hc.
  destruct (mapM hextet (take hi parts)) as [h|] eqn:Hh; [|done].
  destruct (mapM hextet (drop _ parts)) as [l|] eqn:Hl; [|done]. intros [= <-].
  apply hextets_bounds in Hh as [Hh Hlh]; [|by apply Forall_take]. apply hextets_bounds in Hl as [Hl Hll]; [|by apply Forall_drop].
  apply joined_small.
  - apply Forall_app. split; [done|]. apply Forall_app. split; [|done]. apply Forall_forall.
    intros x Hx%list_elem_of_In%repeat_spec. lia.
  - rewrite !length_app, repeat_length, Hlh, Hll, length_take, length_drop. lia.
Qed.

Lemma ipv6_bounds s n : ipv6 s = Some n → (0 ≤ n < 2 ^ 128)%Z.
Proof.
  unfold ipv6. destruct (occurs_in SLASH s); [done|].
  assert (∀ a, ipv6_int a = Some n → (0 ≤ n < 2 ^ 128)%Z) as Hint.
  { intros a. unfold ipv6_int. destruct (parts_of a) as [parts|] eqn:Hp; [|done]. apply parts_sized in Hp.
    destruct (9 <? _)%nat; [done|]. destruct (skips parts) as [|i []]; [|by apply skipping_bounds|done].
    destruct (_ =? 8)%nat eqn:H8; [|done]. intros (l&Hl&->)%fmap_Some. apply Nat.eqb_eq in H8.
    apply hextets_bounds in Hl as [Hl Hlen]; [|done]. apply joined_small; [done|lia]. }
  destruct (partition PERCENT s) as [addr [scope_id|]]; [|apply Hint]. destruct (_ || _); [done|apply Hint].
Qed.

Lemma address_bounds v s n : address_of v s = Some n → (0 ≤ n < 2 ^ max_prefixlen v)%Z.
Proof. destruct v; [apply ipv4_bounds|apply ipv6_bounds]. Qed.

Lemma ip_address_of s a : ip_address s = Some a → (0 ≤ ip a < 2 ^ max_prefixlen (address_version a))%Z.
Proof.
  unfold ip_address. destruct (ipv4 s) as [n|] eqn:H4; [intros [= <-]; by apply ipv4_bounds in H4|].
  intros (n&Hn&->)%fmap_Some. by apply ipv6_bounds in Hn.
Qed.

(** * Masks, as division *)

Lemma netmask_masks v p n : (0 ≤ p ≤ max_prefixlen v)%Z → (0 ≤ n < 2 ^ max_prefixlen v)%Z →
  Z.land n (netmask v p) = (n / 2 ^ (max_prefixlen v - p) * 2 ^ (max_prefixlen v - p))%Z.
Proof.
  intros Hp Hn. unfold netmask, ALL_ONES. set (m := max_prefixlen v) in *.
  rewrite <- Z.shiftr_div_pow2, <- Z.shiftl_mul_pow2 by lia.
  apply Z.bits_inj'. intros i Hi. rewrite Z.land_spec, Z.lxor_spec, Z.shiftl_spec, !(Z.shiftr_spec (Z.ones m)) by lia.
  destruct (decide (i < m - p)%Z).
  - rewrite (Z.ones_spec_low m i), (Z.ones_spec_low m (i + p)), (Z.testbit_neg_r _ (i - (m - p))) by lia.
    apply andb_false_r.
  - rewrite Z.shiftr_spec by lia. replace (i - (m - p) + (m - p))%Z with i by lia.
    rewrite (Z.ones_spec_high m (i + p)), xorb_false_r by lia. destruct (decide (i < m)%Z).
    + by rewrite Z.ones_spec_low, andb_true_r by lia.
    + rewrite Z.ones_spec_high, andb_false_r by lia. replace n with (n mod 2 ^ m)%Z by (apply Z.mod_small; lia).
      by rewrite Z.mod_pow2_bits_high by lia.
Qed.

Lemma righthand_bounds n bits : (0 ≤ bits)%Z → (0 ≤ righthand_zero_bits n bits ≤ bits)%Z.
Proof.
  intros Hb. unfold righthand_zero_bits, bit_length. destruct (n =? 0)%Z; [lia|].
  destruct (_ =? 0)%Z; [lia|]. pose proof (Z.log2_nonneg (Z.land (Z.lnot n) (n - 1))). lia.
Qed.

Lemma prefix_from_ip_int_bounds v n p : prefix_from_ip_int v n = Some p → (0 ≤ p ≤ max_prefixlen v)%Z.
Proof.
  unfold prefix_from_ip_int. destruct (_ =? _)%Z; [|done]. intros [= <-].
  pose proof (righthand_bounds n (max_prefixlen v) ltac:(by destruct v)). lia.
Qed.

Lemma make_netmask_bounds v m p : make_netmask v m = Some p → (0 ≤ p ≤ max_prefixlen v)%Z.
Proof.
  unfold make_netmask. destruct m as [s|]; [|intros [= <-]; by destruct v].
  destruct (prefix_from_prefix_string v s) as [p'|] eqn:Hp.
  - intros [= <-]. unfold prefix_from_prefix_string in Hp. destruct (all_in DIGITS s) eqn:Hs; [|by rewrite orb_true_r in Hp].
    destruct (is_empty s || negb true); [done|]. destruct (_ <=? _)%Z eqn:Hle; [|done]. injection Hp as <-. apply Z.leb_le in Hle.
    pose proof (digits_value_bounds 10 DIGITS s 0 ltac:(by left) Hs ltac:(lia)). lia.
  - destruct v; [|done]. unfold prefix_from_ip_string. destruct (ipv4 s); [|done].
    destruct (prefix_from_ip_int V4 _) as [q|] eqn:Hq; [intros [= <-]|]; by eapply prefix_from_ip_int_bounds.
Qed.

(** A network in its own range. *)
Definition proper (n : network) : Prop :=
  (0 ≤ prefixlen n ≤ max_prefixlen (network_version n) ∧ 0 ≤ base n < 2 ^ max_prefixlen (network_version n) ∧
   Z.land (base n) (netmask (network_version n) (prefixlen n)) = base n)%Z.

Lemma network_of_proper v strict addr m n : network_of v strict addr m = Some (Some n) →
  proper n ∧ network_version n = v ∧
  ∃ i, address_of v addr = Some i ∧ base n = Z.land i (netmask v (prefixlen n)) ∧ (strict = true → base n = i).
Proof.
  unfold network_of. destruct (address_of v addr) as [i|] eqn:Hi; [|done]. destruct (make_netmask v m) as [p|] eqn:Hp; [|done].
  apply make_netmask_bounds in Hp as Hpb. apply address_bounds in Hi as Hib.
  destruct (strict && _) eqn:Hs; [done|]. intros [= <-]. split_and!; [|done|]; cbn.
  - unfold proper. cbn. split; [done|]. split.
    + rewrite netmask_masks by done. set (d := (2 ^ (max_prefixlen v - p))%Z).
      assert (0 < d)%Z by (apply Z.pow_pos_nonneg; lia). pose proof (Z.div_mod i d ltac:(lia)).
      pose proof (Z.mod_pos_bound i d ltac:(lia)). pose proof (Z.div_pos i d ltac:(lia) ltac:(lia)). nia.
    + by rewrite <- Z.land_assoc, Z.land_diag.
  - exists i. split_and!; [done|done|]. intros ->. simpl in Hs. by apply negb_false_iff, Z.eqb_eq in Hs.
Qed.

Lemma ip_network_of s strict n : ip_network s strict = Some n →
  proper n ∧ ∃ addr rest i, split SLASH s = addr :: rest ∧ address_of (network_version n) addr = Some i ∧
    base n = Z.land i (netmask (network_version n) (prefixlen n)) ∧ (strict = true → base n = i).
Proof.
  unfold ip_network. intros H.
  assert (∃ addr rest m v, split SLASH s = addr :: rest ∧ network_of v strict addr m = Some (Some n)) as (addr&rest&m&v&Hs&Hn).
  { destruct (split SLASH s) as [|addr [|mask []]]; try done.
    - destruct (network_of V4 strict addr None) as [o|] eqn:H4; [subst; by exists addr, [], None, V4|].
      destruct (network_of V6 strict addr None) as [o|] eqn:H6; [subst; by exists addr, [], None, V6|done].
    - destruct (network_of V4 strict addr (Some mask)) as [o|] eqn:H4; [subst; by exists addr, [mask], (Some mask), V4|].
      destruct (network_of V6 strict addr (Some mask)) as [o|] eqn:H6; [subst; by exists addr, [mask], (Some mask), V6|done]. }
  apply network_of_proper in Hn as (Hp&<-&i&Hi). split; [done|]. by exists addr, rest, i.
Qed.

(** A range is the addresses that share its prefix.  A network that was parsed, in
    either notation and with or without host bits, contains exactly the addresses of its
    version that agree with its base on the bits of its prefix; and unless it was refused,
    the address it was written with is one of them. *)
Theorem a_range_is_its_prefix s strict n a :
  ip_network s strict = Some n → (0 ≤ ip a < 2 ^ max_prefixlen (address_version a))%Z →
  let host := (2 ^ (max_prefixlen (network_version n) - prefixlen n))%Z in
  (contains n a = true ↔ address_version a = network_version n ∧ ip a / host = base n / host)%Z ∧
  ∃ addr rest i, split SLASH s = addr :: rest ∧ address_of (network_version n) addr = Some i ∧
    contains n (mk_address (network_version n) i) = true.
Proof.
  intros (Hp&addr&rest&i&Hs&Hi&Hb&_)%ip_network_of Ha. cbv zeta. destruct Hp as (Hlen&Hrange&Hmask).
  split.
  - unfold contains. rewrite andb_true_iff, bool_decide_eq_true, Z.eqb_eq. rewrite netmask_masks in Hmask by done.
    set (host := (2 ^ _)%Z) in *. assert (0 < host)%Z by (apply Z.pow_pos_nonneg; lia).
    split; intros [Hv Hx]; (split; [done|]); rewrite Hv in Ha.
    + rewrite netmask_masks in Hx by done. fold host in Hx. by rewrite <- Hx, Z.div_mul by lia.
    + rewrite netmask_masks by done. fold host. by rewrite Hx.
  - exists addr, rest, i. split_and!; [done|done|]. unfold contains. cbn. by rewrite bool_decide_eq_true_2, Hb, Z.eqb_refl.
Qed.
