(* ===== verification/ApiKeys.v ===== *)
(** API keys: the entity ([domain/entities/api_key.py]), the statements of its repository
    ([adapters/persistence/repositories/api_keys.py]) and the use case that manages keys
    ([application/use_cases/manage_api_keys/]).

    The table is found by handle, which is unique in it.  An identifier is fresh, so the
    [merge] of [save] inserts, and is refused where the handle is taken.  Stored lists of
    scopes and of ranges are the set and the networks they are read back as; [created_at],
    which only orders a listing, and the texts of refusals are left out.

    The calls are also those of a request that presents a key, which [Gateway] models. *)

From S2P Require Import Actors.
From S2P Require Export Networks Limits Programs.

(** * The entity *)

Record ApiKey := mk_key {
  uuid : string; key_tenant : string; key_id : string; digest : string; key_name : string; owner_id : string;
  expires_at : Z; key_scopes : gset string; allowed_cidrs : list network; rate_limit_rpm : Z;
  quota_tokens_per_day : option Z; key_default : option string; key_compaction : bool;
  revoked_at : option Z; debug_until : option Z
}.
#[export] Instance ApiKey_eq_dec : EqDecision ApiKey.
Proof. solve_decision. Defined.

Definition is_active (k : ApiKey) (now : Z) : bool :=
  match revoked_at k with Some _ => false | None => (now <? expires_at k)%Z end.

Definition ISSUABLE_CAPABILITIES : gset string := list_to_set ["chat"; "code"; "vision"; "embedding"; "rerank"].
Definition DEFAULT_TENANT_ID : string := "default".

(** * Statements *)

(** The columns an edit names. *)
Inductive column : Set :=
  | CName (s : string) | CScopes (l : gset string) | CExpires (t : Z) | CRpm (n : Z) | CQuota (n : option Z)
  | CCidrs (l : list network) | CDefault (c : option string) | CCompaction (b : bool) | CDebug (t : option Z).

Definition set_column (c : column) (k : ApiKey) : ApiKey :=
  let '(mk_key uuid tenant kid dig name owner expires scopes cidrs rpm quota deflt compaction revoked debug) := k in
  match c with
  | CName s => mk_key uuid tenant kid dig s owner expires scopes cidrs rpm quota deflt compaction revoked debug
  | CScopes l => mk_key uuid tenant kid dig name owner expires l cidrs rpm quota deflt compaction revoked debug
  | CExpires t => mk_key uuid tenant kid dig name owner t scopes cidrs rpm quota deflt compaction revoked debug
  | CRpm n => mk_key uuid tenant kid dig name owner expires scopes cidrs n quota deflt compaction revoked debug
  | CQuota n => mk_key uuid tenant kid dig name owner expires scopes cidrs rpm n deflt compaction revoked debug
  | CCidrs l => mk_key uuid tenant kid dig name owner expires scopes l rpm quota deflt compaction revoked debug
  | CDefault c => mk_key uuid tenant kid dig name owner expires scopes cidrs rpm quota c compaction revoked debug
  | CCompaction b => mk_key uuid tenant kid dig name owner expires scopes cidrs rpm quota deflt b revoked debug
  | CDebug t => mk_key uuid tenant kid dig name owner expires scopes cidrs rpm quota deflt compaction revoked t
  end.
Definition set_columns (cs : list column) (k : ApiKey) : ApiKey := foldl (λ k c, set_column c k) k cs.

Definition set_revoked (at_ : Z) (k : ApiKey) : ApiKey :=
  mk_key (uuid k) (key_tenant k) (key_id k) (digest k) (key_name k) (owner_id k) (expires_at k) (key_scopes k)
    (allowed_cidrs k) (rate_limit_rpm k) (quota_tokens_per_day k) (key_default k) (key_compaction k) (Some at_) (debug_until k).
Definition set_key_tenant (t : string) (k : ApiKey) : ApiKey :=
  mk_key (uuid k) t (key_id k) (digest k) (key_name k) (owner_id k) (expires_at k) (key_scopes k)
    (allowed_cidrs k) (rate_limit_rpm k) (quota_tokens_per_day k) (key_default k) (key_compaction k) (revoked_at k) (debug_until k).

Abbreviation key_table := (gmap string ApiKey).
Abbreviation key_delta := (gmap string (option ApiKey)).

(** [_TenantScoped._scope], and the tenant [save] stamps. *)
Definition in_scope (scope : option string) (k : ApiKey) : bool :=
  match scope with Some t => bool_decide (key_tenant k = t) | None => true end.
Definition stamped (scope : option string) (k : ApiKey) : ApiKey :=
  match scope with Some t => set_key_tenant t k | None => k end.

Inductive kstmt : Type :=
  | SaveKey (scope : option string) (k : ApiKey)
  | RevokeKey (scope : option string) (kid : string) (at_ : Z)
  | UpdateSettings (scope : option string) (kid : string) (values : list column)
  | DeleteKeys (scope : option string) (owner : string).

(** UPDATE of the row of a handle that is not revoked. *)
Definition update_live (scope : option string) (kid : string) (f : ApiKey → ApiKey) (t : key_table) : key_delta * nat :=
  match t !! kid with
  | Some k => if in_scope scope k && bool_decide (revoked_at k = None) then ({[kid := Some (f k)]}, 1) else (∅, 0)
  | None => (∅, 0)
  end.

Definition owned (scope : option string) (owner : string) (t : key_table) : key_table :=
  filter (λ x : string * ApiKey, owner_id x.2 = owner ∧ in_scope scope x.2 = true) t.

(** What a statement writes and how many rows it affects; [None] where the handle is taken. *)
Definition affect (st : kstmt) (t : key_table) : option (key_delta * nat) :=
  match st with
  | SaveKey scope k =>
      match t !! key_id k with Some _ => None | None => Some ({[key_id k := Some (stamped scope k)]}, 1) end
  | RevokeKey scope kid at_ => Some (update_live scope kid (set_revoked at_) t)
  | UpdateSettings scope kid values => Some (update_live scope kid (set_columns values) t)
  | DeleteKeys scope owner => Some ((λ _, None) <$> owned scope owner t, size (owned scope owner t))
  end.

(** * Calls *)

Inductive kexn : Set :=
  | NotAuthorized | UserNotFoundError | ApiKeyStateConflictError | ApiKeyLifetimeError | InvalidCidrError
  | DebugWindowError | NotAuthenticatedError | MaintenanceError | UntrustedProxyError | CountryNotAllowedError
  | RateLimitedError | QuotaExceededError (retry_after_seconds : option Z) | TypeError | BackendError.

Inductive kaction : Set := API_KEY_ISSUED | API_KEY_UPDATED | API_KEY_REVOKED | API_KEY_DEBUG_WINDOW_SET.

Inductive keff : Type → Type :=
  | KRequire (a : Actor) (s : Scope) : keff (kexn + unit)
  | KOwner (id : string) : keff (kexn + bool)
  | KGet (scope : option string) (kid : string) : keff (kexn + option ApiKey)
  | KListAll (scope : option string) : keff (kexn + key_table)
  | KListOwner (scope : option string) (owner : string) : keff (kexn + key_table)
  | KLastUsed (scope : option string) : keff (kexn + gmap string Z)
  | KWrite (st : kstmt) : keff (kexn + nat)
  | KCommit : keff (kexn + unit)
  | KNow : keff Z
  | KUuid : keff string
  | KHandle : keff (list Byte.byte)                      (** [secrets.token_hex(KEY_ID_BYTES)], by its bytes *)
  | KSecret : keff (list Byte.byte)                      (** [secrets.token_urlsafe(SECRET_BYTES)] *)
  | KAudit (a : kaction) (target : string) : keff unit
  | KMaintenance : keff (kexn + bool)                    (** [state.admission_closed] *)
  | KCountry (a : address) : keff (kexn + option (option string))
  | KIncr (name : string * Z) (ttl_seconds : Z) : keff (kexn + Z)
  | KUsed (kid : string) : keff (kexn + Z)
  | KRecovers (kid : string) (tokens_to_release : Z) : keff (kexn + option Z)
  | KGrant (until : option Z) : keff unit                (** [grant_debug_detail] *)
  | KRemember (a : Actor) : keff unit.                   (** [remember_actor] *)

Abbreviation kprog := (prog keff kexn unit).

Definition refuse {A} (ok : bool) (e : kexn) (p : kprog A) : kprog A := if ok then p else Throw e.

(** [session_scope]: a unit of work that ends is committed, one that raises is not. *)
Definition request {A} (p : kprog A) : kprog unit := let! _ := p in invoke KCommit.

(** [update_settings] *)
Definition update_settings (scope : option string) (kid : string) (values : list column) : kprog bool :=
  let! n := invoke (KWrite (UpdateSettings scope kid values)) in Pure (bool_decide (n = 1)).
Definition save (scope : option string) (k : ApiKey) : kprog unit :=
  let! _ := invoke (KWrite (SaveKey scope k)) in Pure tt.
Definition revoke_row (scope : option string) (kid : string) (at_ : Z) : kprog unit :=
  let! _ := invoke (KWrite (RevokeKey scope kid at_)) in Pure tt.
Definition delete_for_owner (scope : option string) (owner : string) : kprog unit :=
  let! _ := invoke (KWrite (DeleteKeys scope owner)) in Pure tt.

(** * The use case *)

Definition MAX_DEBUG_WINDOW_MINUTES : Z := 24 * 60.

(** [debug_window_until] *)
Definition debug_window_until (now minutes : Z) : res kexn (option Z) :=
  if (0 <=? minutes)%Z && (minutes <=? MAX_DEBUG_WINDOW_MINUTES)%Z
  then Ret (if (minutes =? 0)%Z then None else Some (now + minutes * MINUTE)%Z)
  else Raise DebugWindowError.

(** The fields of an edit: absent, or present; a present default may be null. *)
Record edit := mk_edit {
  e_name : option string; e_scopes : option (list string); e_expires : option Z; e_rpm : option Z;
  e_quota : option Z; e_cidrs : option (list string); e_default : option (option string); e_compaction : option bool
}.

Section ManageApiKeys.
Context (hmac : string → string → string) (peppers : service) (max_lifetime : Z).

(** Is this expiry in the future, and within the maximum? *)
Definition _assert_expiry_sane (expires : Z) : kprog unit :=
  let! now := ask KNow in
  if (expires <=? now)%Z then Throw ApiKeyStateConflictError
  else if (now + max_lifetime <? expires)%Z then Throw ApiKeyLifetimeError
  else Pure tt.

Definition default_within (default : option string) (scopes : gset string) : bool :=
  match default with None => true | Some d => bool_decide (d ∈ scopes) end.
Definition _assert_default_capability (default : option string) (scopes : gset string) : kprog unit :=
  refuse (default_within default scopes) ApiKeyStateConflictError (Pure tt).

Definition known_capabilities (scopes : list string) : bool :=
  bool_decide (list_to_set scopes ∖ ISSUABLE_CAPABILITIES = (∅ : gset string)).

Definition _require_owner_permission (actor : Actor) (owner : string) : kprog unit :=
  invoke (KRequire actor (if bool_decide (owner = actor_id actor) then API_KEY_WRITE_OWN else API_KEY_WRITE_ANY)).

Definition _require (scope : option string) (kid : string) : kprog ApiKey :=
  let! key := invoke (KGet scope kid) in
  match key with Some k => Pure k | None => Throw NotAuthorized end.

Definition parsed (values : list string) : kprog (list network) :=
  match _parse_cidrs values with Some ns => Pure ns | None => Throw InvalidCidrError end.

Definition list_visible (scope : option string) (actor : Actor) : kprog (key_table * gmap string Z) :=
  let! _ := invoke (KRequire actor API_KEY_READ_OWN) in
  let! keys := (if has actor API_KEY_WRITE_ANY then invoke (KListAll scope)
                else invoke (KListOwner scope (actor_id actor))) in
  let! used := invoke (KLastUsed scope) in
  Pure (keys, used).

Definition create (scope : option string) (actor : Actor) (name owner : string) (scopes : list string) (expires : Z)
    (rpm : Z) (quota : option Z) (cidrs : list string) (default : option string) (compaction : bool)
    : kprog (ApiKey * string) :=
  let! _ := _require_owner_permission actor owner in
  let! exists_ := invoke (KOwner owner) in
  if negb exists_ then Throw UserNotFoundError
  else
    let! _ := _assert_expiry_sane expires in
    if negb (known_capabilities scopes) then Throw ApiKeyStateConflictError
    else
      let! _ := _assert_default_capability default (list_to_set scopes) in
      let! key_bytes := ask KHandle in
      let! secret_bytes := ask KSecret in
      let issued := issue hmac peppers key_bytes secret_bytes in
      let! id := ask KUuid in
      let! networks := parsed cidrs in
      let key := mk_key id DEFAULT_TENANT_ID (issued_key_id issued) (issued_digest issued) (py_strip name) owner
                   expires (list_to_set scopes) networks rpm quota default compaction None None in
      let! _ := save scope key in
      let! stored := invoke (KGet scope (key_id key)) in
      let! _ := ask (KAudit API_KEY_ISSUED (key_id key)) in
      Pure (match stored with Some k => k | None => key end, plaintext issued).

(** [replace(key, ...)]: what an edit makes of a key. *)
Definition edited (e : edit) (networks : option (list network)) (k : ApiKey) : ApiKey :=
  mk_key (uuid k) (key_tenant k) (key_id k) (digest k)
    (match e_name e with Some n => py_strip n | None => key_name k end) (owner_id k)
    (default (expires_at k) (e_expires e))
    (match e_scopes e with Some l => list_to_set l | None => key_scopes k end)
    (default (allowed_cidrs k) networks)
    (default (rate_limit_rpm k) (e_rpm e))
    (match e_quota e with Some n => Some n | None => quota_tokens_per_day k end)
    (default (key_default k) (e_default e))
    (default (key_compaction k) (e_compaction e)) (revoked_at k) (debug_until k).

(** The columns of an edit. *)
Definition settings_of (k : ApiKey) : list column :=
  [CName (key_name k); CScopes (key_scopes k); CExpires (expires_at k); CRpm (rate_limit_rpm k);
   CQuota (quota_tokens_per_day k); CCidrs (allowed_cidrs k); CDefault (key_default k); CCompaction (key_compaction k)].

Definition update (scope : option string) (actor : Actor) (kid : string) (e : edit) : kprog ApiKey :=
  let! key := _require scope kid in
  let! _ := _require_owner_permission actor (owner_id key) in
  if bool_decide (is_Some (revoked_at key)) then Throw ApiKeyStateConflictError
  else
    let! _ := (match e_expires e with Some t => _assert_expiry_sane t | None => Pure tt end) in
    if match e_scopes e with Some l => negb (known_capabilities l) | None => false end then Throw ApiKeyStateConflictError
    else
      let! _ := _assert_default_capability (default (key_default key) (e_default e))
                  (match e_scopes e with Some l => list_to_set l | None => key_scopes key end) in
      let! networks := (match e_cidrs e with Some l => let! ns := parsed l in Pure (Some ns) | None => Pure None end) in
      let updated := edited e networks key in
      let! written := update_settings scope (key_id key) (settings_of updated) in
      if negb written then Throw ApiKeyStateConflictError
      else
        let! _ := ask (KAudit API_KEY_UPDATED (key_id key)) in
        Pure updated.

Definition revoke (scope : option string) (actor : Actor) (kid : string) : kprog unit :=
  let! key := _require scope kid in
  let! _ := _require_owner_permission actor (owner_id key) in
  let! now := ask KNow in
  let! _ := revoke_row scope kid now in
  ask (KAudit API_KEY_REVOKED kid).

Definition set_debug_window (scope : option string) (actor : Actor) (kid : string) (minutes : Z) : kprog ApiKey :=
  let! now := ask KNow in
  match debug_window_until now minutes with
  | Raise e => Throw e
  | Ret until =>
      let! key := _require scope kid in
      let! _ := _require_owner_permission actor (owner_id key) in
      if bool_decide (is_Some (revoked_at key)) then Throw ApiKeyStateConflictError
      else
        let! written := update_settings scope (key_id key) [CDebug until] in
        if negb written then Throw ApiKeyStateConflictError
        else
          let! _ := ask (KAudit API_KEY_DEBUG_WINDOW_SET (key_id key)) in
          Pure (set_column (CDebug until) key)
  end.
End ManageApiKeys.
