(* ===== verification/Gateway.v ===== *)
(** A request that presents a key ([interfaces/http/middleware/api_key_auth/],
    [client_ip.py], the country filter of [geo_filter.py] and [assert_serving]).

    [_authenticate] is a program over the calls of [ApiKeys]; headers are texts, the
    settings and the country database arguments.  The theorems: an actor was made of a
    verified, active key and passed every check, and can do no more than its key; and what
    a refused caller is told about its budget, which is an instant too early. *)

From S2P Require Import Actors.
From S2P Require Export ApiKeys.

Record settings := mk_settings { dev_mode : bool; proxy_shared_secret : string; allowed_countries : option (gset string) }.

Record headers := mk_headers {
  authorization : option string; x_nexus_proxy : option string; x_forwarded_for : option string; peer : option string
}.

(** * The caller's address *)

Definition is_ascii (s : string) : bool := forallb (λ c, ascii_code c <? 128)%Z (String.list_ascii_of_string s).

Definition LOOPBACK : address := mk_address V4 2130706433.

Definition _peer_address_or_loopback (h : headers) : address :=
  match peer h with
  | None => LOOPBACK
  | Some host => default LOOPBACK (ip_address host)
  end.

(** [hmac.compare_digest] of two texts, which must be ASCII. *)
Definition compare_digest (a b : string) : res kexn bool :=
  if is_ascii a && is_ascii b then Ret (bool_decide (a = b)) else Raise TypeError.

Definition first_value (forwarded : string) : string := py_strip (Tokens.partition (Ascii.ascii_of_nat 44) forwarded).1.

Definition resolve_client_ip (cfg : settings) (h : headers) : res kexn address :=
  if dev_mode cfg then Ret (_peer_address_or_loopback h)
  else
    let! same := compare_digest (default EmptyString (x_nexus_proxy h)) (proxy_shared_secret cfg) in
    if negb same then Raise UntrustedProxyError
    else
      let forwarded := default EmptyString (x_forwarded_for h) in
      if is_empty forwarded then Raise UntrustedProxyError
      else match ip_address (first_value forwarded) with
      | Some a => Ret a
      | None => Raise UntrustedProxyError
      end.

(** * The checks *)

Definition or_raise {A} (r : res kexn A) : kprog A := match r with Ret x => Pure x | Raise e => Throw e end.

(** [GeoFilter.assert_allowed], or [NoGeoFilter]'s; an address the database does not know
    passes. *)
Definition assert_allowed (cfg : settings) (client : address) : kprog unit :=
  match allowed_countries cfg with
  | None => Pure tt
  | Some allowed =>
      let! found := invoke (KCountry client) in
      match found with
      | None => Pure tt
      | Some country =>
          refuse (match country with Some c => bool_decide (c ∈ allowed) | None => false end) CountryNotAllowedError (Pure tt)
      end
  end.

Definition assert_serving : kprog unit :=
  let! closed := invoke KMaintenance in if closed : bool then Throw MaintenanceError else Pure tt.

Definition source_allowed (k : ApiKey) (client : address) : bool :=
  match allowed_cidrs k with [] => true | ns => existsb (λ n, contains n client) ns end.
Definition _assert_source_allowed (k : ApiKey) (client : address) : kprog unit :=
  refuse (source_allowed k client) NotAuthenticatedError (Pure tt).

Definition _assert_within_rate_limit (k : ApiKey) : kprog unit :=
  if (rate_limit_rpm k <=? 0)%Z then Pure tt
  else
    let! now := ask KNow in
    let! count := invoke (KIncr (counter_name (key_id k) now) 120) in
    if (rate_limit_rpm k <? count)%Z then Throw RateLimitedError else Pure tt.

(** [max(1, int(total_seconds()))]: a day in microseconds is exact in binary64, and so is
    the truncation of its quotient. *)
Definition wait_until (recovers_at : option Z) (now : Z) : option Z :=
  (λ at_, Z.max 1 (Z.quot (at_ - now) SECOND)) <$> recovers_at.

Definition _assert_within_quota (k : ApiKey) : kprog unit :=
  match quota_tokens_per_day k with
  | None => Pure tt
  | Some quota =>
      let! used := invoke (KUsed (key_id k)) in
      if (used <? quota)%Z then Pure tt
      else
        let! recovers_at := invoke (KRecovers (key_id k) (used - quota + 1)%Z) in
        let! now := (match recovers_at with Some _ => ask KNow | None => Pure 0%Z end) in
        Throw (QuotaExceededError (wait_until recovers_at now))
  end.

(** * The actor *)

Definition _scopes_for (k : ApiKey) : gset Scope :=
  if bool_decide (key_scopes k ∩ ISSUABLE_CAPABILITIES = ∅) then ∅ else {[CHAT_USE]} ∪ {[USAGE_READ_OWN]}.

Definition _actor_for_key (k : ApiKey) : Actor :=
  mk_actor (owner_id k) (key_id k) SERVICE api_key (_scopes_for k) (key_tenant k) (Some (key_id k))
    (Some (key_scopes k ∩ ISSUABLE_CAPABILITIES)) (key_default k) (key_compaction k) (debug_until k).

Section Authenticate.
Context (hmac : string → string → string) (peppers : service) (cfg : settings).

Definition _authenticate (h : headers) (enforce_quota : bool) : kprog Actor :=
  match bearer_token (default EmptyString (authorization h)) with
  | None => Throw NotAuthenticatedError
  | Some plaintext =>
      match parse_key_id plaintext with
      | None => Throw NotAuthenticatedError
      | Some kid =>
          let! row := invoke (KGet None kid) in
          match row with
          | None => Throw NotAuthenticatedError
          | Some key =>
              if negb (verify hmac peppers plaintext (digest key)) then Throw NotAuthenticatedError
              else
                let! now := ask KNow in
                if negb (is_active key now) then Throw NotAuthenticatedError
                else
                  let! _ := ask (KGrant (debug_until key)) in
                  let actor := _actor_for_key key in
                  let! _ := ask (KRemember actor) in
                  let! _ := assert_serving in
                  let! client := or_raise (resolve_client_ip cfg h) in
                  let! _ := assert_allowed cfg client in
                  let! _ := _assert_source_allowed key client in
                  let! _ := _assert_within_rate_limit key in
                  let! _ := (if enforce_quota then _assert_within_quota key else Pure tt) in
                  Pure actor
          end
      end
  end.
End Authenticate.

(** * What a trace shows *)

Inductive kevent : Type :=
  | VRequired (a : Actor) (s : Scope)
  | VGot (scope : option string) (kid : string) (row : option ApiKey)
  | VWrote (st : kstmt) (n : nat)
  | VCommit (ok : bool)
  | VNow (t : Z)
  | VHandle (bytes : list Byte.byte)
  | VServing (closed : bool)
  | VCountry (a : address) (found : option (option string))
  | VCounted (name : string * Z) (n : Z)
  | VUsed (kid : string) (n : Z)
  | VRemembered (a : Actor)
  | VFree.

Definition log (R : Type) (q : keff R) : R → kevent :=
  match q in keff R return R → kevent with
  | KRequire a s => λ r, match r with inr _ => VRequired a s | inl _ => VFree end
  | KOwner _ => λ _, VFree
  | KGet scope kid => λ r, match r with inr o => VGot scope kid o | inl _ => VFree end
  | KListAll _ => λ _, VFree
  | KListOwner _ _ => λ _, VFree
  | KLastUsed _ => λ _, VFree
  | KWrite st => λ r, match r with inr n => VWrote st n | inl _ => VFree end
  | KCommit => λ r, VCommit (match r with inr _ => true | inl _ => false end)
  | KNow => VNow
  | KUuid => λ _, VFree
  | KHandle => VHandle
  | KSecret => λ _, VFree
  | KAudit _ _ => λ _, VFree
  | KMaintenance => λ r, match r with inr b => VServing b | inl _ => VFree end
  | KCountry a => λ r, match r with inr c => VCountry a c | inl _ => VFree end
  | KIncr name _ => λ r, match r with inr n => VCounted name n | inl _ => VFree end
  | KUsed kid => λ r, match r with inr n => VUsed kid n | inl _ => VFree end
  | KRecovers _ _ => λ _, VFree
  | KGrant _ => λ _, VFree
  | KRemember a => λ _, VRemembered a
  end.

(** An event of a trace that is written out. *)
Ltac known :=
  solve [repeat first [apply list_elem_of_singleton; reflexivity
                      |apply elem_of_app; right; apply list_elem_of_singleton; reflexivity
                      |apply elem_of_app; left]].

(** * Who is let in *)

(** The checks, as facts about a trace. *)
Definition country_passed (cfg : settings) (client : address) (tr : list kevent) : Prop :=
  match allowed_countries cfg with
  | None => True
  | Some allowed => ∃ found, VCountry client found ∈ tr ∧
      match found with None => True | Some c => ∃ name, c = Some name ∧ name ∈ allowed end
  end.
Definition rate_passed (k : ApiKey) (tr : list kevent) : Prop :=
  (rate_limit_rpm k ≤ 0)%Z ∨
  ∃ now n, VNow now ∈ tr ∧ VCounted (counter_name (key_id k) now) n ∈ tr ∧ (n ≤ rate_limit_rpm k)%Z.
Definition quota_passed (k : ApiKey) (tr : list kevent) : Prop :=
  match quota_tokens_per_day k with None => True | Some q => ∃ n, VUsed (key_id k) n ∈ tr ∧ (n < q)%Z end.

(** A trace that has read a verified key, active at an instant it then read. *)
Definition vouched (hmac : string → string → string) (peppers : service) (h : headers) (k : ApiKey) (tr : list kevent) : Prop :=
  ∃ plaintext kid now, bearer_token (default EmptyString (authorization h)) = Some plaintext ∧
    parse_key_id plaintext = Some kid ∧ VGot None kid (Some k) ∈ tr ∧ verify hmac peppers plaintext (digest k) = true ∧
    is_active k now = true ∧ VNow now ∈ tr.

Section LetIn.
Context (hmac : string → string → string) (peppers : service) (cfg : settings).
Context (may : list kevent → ∀ R, keff R → R → Prop).

Definition let_in (h : headers) (enforce_quota : bool) (actor : Actor) (tr : list kevent) : Prop :=
  ∃ k client, vouched hmac peppers h k tr ∧ actor = _actor_for_key k ∧ VRemembered actor ∈ tr ∧ VServing false ∈ tr ∧
    resolve_client_ip cfg h = Ret client ∧ country_passed cfg client tr ∧ source_allowed k client = true ∧
    rate_passed k tr ∧ (enforce_quota = true → quota_passed k tr).

(** One call, answered in every way. *)
Ltac gateway_step :=
  match goal with
  | |- forall _, _ => intros ?r ?Hr
  | x : (kexn + _)%type |- _ => destruct x
  | |- wp _ _ ?p _ _ _ => match p with context [match ?x with _ => _ end] => destruct x eqn:? end
  end.

Lemma authenticate_lets_in h enforce_quota :
  wp log may (_authenticate hmac peppers cfg h enforce_quota)
    (λ o _ tr, match o with inr actor => let_in h enforce_quota actor tr | inl _ => True end) tt [].
Proof.
  unfold _authenticate, or_raise, assert_serving, assert_allowed, _assert_source_allowed, _assert_within_rate_limit,
    _assert_within_quota, refuse.
  repeat (walk_calls; cbn [log] in *; try done; try gateway_step).
  all: eexists _, _; split_and!; [eexists _, _, _; split_and!; [done|done|known|by apply negb_false_iff|by apply negb_false_iff|known]
    |done|known|known|done| |done| |]; unbool; subst; unfold country_passed, rate_passed, quota_passed;
    repeat match goal with H : ?x = _ |- context [match ?x with _ => _ end] => rewrite H end; try done.
  all: try (intros _; eexists; split; [known|lia]).
  all: try (left; lia).
  all: try (right; eexists _, _; split_and!; [known|known|lia]).
  all: eexists; split; [known|]; try done.
  all: case_match; [eexists; split; [done|by apply (bool_decide_eq_true_1 (_ ∈ _))]|done].
Qed.

(** C13: a caller is let in only after every check.  A request becomes an actor only if the
    header carried a token whose handle is that of a key read from the table, the key's
    digest verified, the key was neither revoked nor expired at an instant it read,
    the platform was open, and each of the remaining checks let the caller pass.  The
    caller's address is the first value the proxy forwarded, under the shared secret; in
    development, with no proxy, it is the peer's, or loopback if that is not an address.
    The country filter passes an address that the database places in a permitted country,
    one the database does not know, and any address where no countries are configured.  The
    key's ranges hold the address, or the key has none.  The minute's counter is within the
    key's rate, or the rate is zero or less, which limits nothing.  Where tokens are spent,
    the day's use is below the key's budget, or the key has no budget.  The actor is then
    the key's: it may ask for capabilities the key was issued for and no others, it holds no
    scope but those of a service, and its default capability widens nothing. *)
Theorem a_caller_is_let_in_only_after_every_check h enforce_quota actor s tr :
  exec log may (_authenticate hmac peppers cfg h enforce_quota) tt [] (inr actor) s tr →
  let_in h enforce_quota actor tr ∧ role actor = SERVICE ∧ scopes actor ⊆ scopes_for SERVICE ∧
  (∀ requested served, capability_for actor requested = Some served → served ∈ ISSUABLE_CAPABILITIES) ∧
  (∀ k, actor = _actor_for_key k → ∀ requested served, capability_for actor requested = Some served → served ∈ key_scopes k).
Proof.
  intros He. pose proof (authenticate_lets_in h enforce_quota) as Hw. rewrite wp_exec in Hw. specialize (Hw _ _ _ He).
  simpl in Hw. split; [done|]. destruct Hw as (k&client&_&->&_).
  assert (∀ k requested served, capability_for (_actor_for_key k) requested = Some served →
    served ∈ key_scopes k ∩ ISSUABLE_CAPABILITIES) as Hcap.
  { clear. intros k requested served. unfold capability_for, may_use. cbn [allowed_capabilities default_capability _actor_for_key].
    repeat case_match; intros [= <-]; by apply (bool_decide_eq_true_1 (_ ∈ _)). }
  split_and!; [done| |intros r c Hc%Hcap; set_solver|intros k' -> r c Hc%Hcap; set_solver].
  cbn [scopes _actor_for_key]. unfold _scopes_for. case_bool_decide; [set_solver|].
  by apply (bool_decide_unpack ({[CHAT_USE]} ∪ {[USAGE_READ_OWN]} ⊆ scopes_for SERVICE)).
Qed.
End LetIn.

(** * What a refused caller is told *)

(** The calls of the budget, answered from the rows at an instant. *)
Definition from_rows (scope : option string) (rows : list spend) (now : Z) (_ : list kevent) (R : Type) (q : keff R) : R → Prop :=
  match q in keff R return R → Prop with
  | KUsed kid => λ r, r = inr (tokens_used_today scope rows kid now)
  | KRecovers kid n => λ r, r = inr (quota_recovers_at scope rows kid n now)
  | KNow => λ r, r = now
  | _ => λ _, True
  end.

Lemma recovers_later scope rows key n now r : quota_recovers_at scope rows key n now = Some r → (now ≤ r)%Z.
Proof.
  unfold quota_recovers_at. intros (a&Ha&->)%fmap_Some. apply least_spec in Ha as [Ha _].
  apply list_elem_of_fmap in Ha as (x&->&Hx). apply elem_of_List_filter in Hx as [_ Hx].
  apply elem_of_List_filter in Hx as [Hx _]. unfold within in Hx. unbool. lia.
Qed.

(** C30: a caller told to wait is refused again.  A key whose budget is exhausted is refused
    with a number of whole seconds.  If its budget recovers a second or more from now, a
    caller that comes back after exactly that number is refused again, though nothing was
    spent in between; one second more is always enough. *)
Theorem a_caller_told_to_wait_is_refused_again scope rows k quota now o s tr :
  never_negative rows → quota_tokens_per_day k = Some quota → (0 < quota)%Z →
  (quota ≤ tokens_used_today scope rows (key_id k) now)%Z →
  exec log (from_rows scope rows now) (_assert_within_quota k) tt [] o s tr →
  ∃ wait recovers, o = inl (QuotaExceededError (Some wait)) ∧ (1 ≤ wait)%Z ∧
    quota_recovers_at scope rows (key_id k) (tokens_used_today scope rows (key_id k) now - quota + 1) now = Some recovers ∧
    (now + SECOND ≤ recovers → quota ≤ tokens_used_today scope rows (key_id k) (now + wait * SECOND))%Z ∧
    (tokens_used_today scope rows (key_id k) (now + (wait + 1) * SECOND) < quota)%Z.
Proof.
  intros Hrows Hk Hq Hused He.
  destruct (quota_recovers scope rows (key_id k) quota now Hrows Hq Hused) as [recovers Hr].
  assert (∀ t, (now ≤ t)%Z → (tokens_used_today scope rows (key_id k) t < quota ↔ recovers < t)%Z) as Hexact.
  { intros t Ht. by apply (recovers_exactly _ _ _ _ now). }
  pose proof (recovers_later _ _ _ _ _ _ Hr) as Hlate.
  assert (o = inl (QuotaExceededError (wait_until (Some recovers) now))) as ->.
  { unfold _assert_within_quota in He. rewrite Hk in He. destruct He as (u&->&He). simpl in He.
    rewrite (proj2 (Z.ltb_ge _ _) Hused) in He. destruct He as (r&->&He). rewrite Hr in He.
    destruct He as (n&->&->&_). done. }
  eexists _, recovers. split; [done|]. split; [lia|]. split; [done|].
  rewrite Z.quot_div_nonneg by (unfold SECOND; lia).
  assert (0 ≤ (recovers - now) / SECOND ∧ (recovers - now) / SECOND * SECOND ≤ recovers - now <
    ((recovers - now) / SECOND + 1) * SECOND)%Z as (H0&H1&H2).
  { change SECOND with 1000000%Z. Z.to_euclidean_division_equations. lia. }
  set (d := ((recovers - now) / SECOND)%Z) in *. split.
  - intros Hfar. assert (1 ≤ d)%Z by (unfold SECOND in *; nia). rewrite Z.max_r by done.
    apply Z.nlt_ge. intros Hlt. apply Hexact in Hlt; [lia|]. unfold SECOND in *. lia.
  - apply Hexact; unfold SECOND in *; lia.
Qed.

(** * Witnesses *)

Module Demo.
Definition key_of (quota : option Z) : ApiKey :=
  let issued := issue Tokens.Demo.keyed Tokens.Demo.before Tokens.Demo.key_bytes Tokens.Demo.secret_bytes in
  mk_key "k1" "t1" (issued_key_id issued) (issued_digest issued) "ci" "u1" (10 * DAY) {["chat"; "assist"]}
    [mk_network V4 167772160 24] 60 quota (Some "assist") true None None.

Definition rows : list spend :=
  [mk_spend (Some (key_id (key_of None))) "t1" (2 * DAY) 40 20;
   mk_spend (Some (key_id (key_of None))) "t1" (2 * DAY + 36000 * SECOND) 50 0].
Definition now : Z := 2 * DAY + 36001 * SECOND.

(** Everything is in order, and the budget is what the rows say. *)
Definition reply (k : ApiKey) (_ : list kevent) (R : Type) (q : keff R) : R :=
  match q in keff R return R with
  | KRequire _ _ => inr tt
  | KOwner _ => inr true
  | KGet _ _ => inr (Some k)
  | KListAll _ => inr ∅
  | KListOwner _ _ => inr ∅
  | KLastUsed _ => inr ∅
  | KWrite _ => inr 0
  | KCommit => inr tt
  | KNow => now
  | KUuid => ""
  | KHandle => []
  | KSecret => []
  | KAudit _ _ => tt
  | KMaintenance => inr false
  | KCountry _ => inr (Some (Some "TW"))
  | KIncr _ _ => inr 7%Z
  | KUsed kid => inr (tokens_used_today (Some "t1") rows kid now)
  | KRecovers kid n => inr (quota_recovers_at (Some "t1") rows kid n now)
  | KGrant _ => tt
  | KRemember _ => tt
  end.

Definition cfg : settings := mk_settings false "s3cret" (Some {["TW"; "JP"]}).
Definition sent : headers :=
  mk_headers (Some ("Bearer " ++ plaintext (issue Tokens.Demo.keyed Tokens.Demo.before Tokens.Demo.key_bytes
      Tokens.Demo.secret_bytes))%string) (Some "s3cret") (Some "10.0.0.7, 1.1.1.1") None.

Definition caller : kprog Actor := _authenticate Tokens.Demo.keyed Tokens.Demo.rotated cfg sent true.
Definition seen : list kevent := (run log (reply (key_of (Some 200%Z))) caller tt []).2.

(** A stored capability that may not be issued reaches nothing, nor does the default that
    names it. *)
Lemma a_caller_is_let_in_only_after_every_check_witness :
  (run log (reply (key_of (Some 200%Z))) caller tt []).1.1 = inr (_actor_for_key (key_of (Some 200%Z))) ∧
  capability_for (_actor_for_key (key_of (Some 200%Z))) "chat" = Some "chat" ∧
  capability_for (_actor_for_key (key_of (Some 200%Z))) "assist" = None ∧
  let_in Tokens.Demo.keyed Tokens.Demo.rotated cfg sent true (_actor_for_key (key_of (Some 200%Z))) seen.
Proof.
  split; [vm_compute; reflexivity|]. split; [vm_compute; reflexivity|]. split; [vm_compute; reflexivity|].
  refine (proj1 (a_caller_is_let_in_only_after_every_check Tokens.Demo.keyed Tokens.Demo.rotated cfg (λ _ _ _ _, True) sent true
    (_actor_for_key (key_of (Some 200%Z))) tt seen _)).
  exact (exec_run log (λ _ _ _ _, True) (reply (key_of (Some 200%Z))) caller tt [] (λ _ _ _, I)).
Defined.

(** Refused with 50399 seconds; a day after the first request is one later. *)
Lemma a_caller_told_to_wait_is_refused_again_witness :
  (run log (reply (key_of (Some 100%Z))) (_assert_within_quota (key_of (Some 100%Z))) tt []).1.1 =
    inl (QuotaExceededError (Some 50399%Z)) ∧
  ∃ wait recovers, quota_recovers_at (Some "t1") rows (key_id (key_of None)) 11 now = Some recovers ∧
    (now + SECOND ≤ recovers → 100 ≤ tokens_used_today (Some "t1") rows (key_id (key_of None)) (now + wait * SECOND))%Z.
Proof.
  split; [vm_compute; reflexivity|].
  destruct (a_caller_told_to_wait_is_refused_again (Some "t1") rows (key_of (Some 100%Z)) 100 now
    (run log (reply (key_of (Some 100%Z))) (_assert_within_quota (key_of (Some 100%Z))) tt []).1.1
    tt (run log (reply (key_of (Some 100%Z))) (_assert_within_quota (key_of (Some 100%Z))) tt []).2)
    as (wait&recovers&_&_&Hr&Hagain&_).
  - unfold rows. repeat (apply Forall_cons; split; [vm_compute; discriminate|]). by apply Forall_nil.
  - reflexivity.
  - lia.
  - vm_compute. discriminate.
  - assert (∀ tr R (q : keff R), from_rows (Some "t1") rows now tr R q (reply (key_of (Some 100%Z)) tr R q)) as Henv
      by (intros tr R []; exact I || reflexivity).
    exact (exec_run log (from_rows (Some "t1") rows now) (reply (key_of (Some 100%Z)))
      (_assert_within_quota (key_of (Some 100%Z))) tt [] Henv).
  - exists wait, recovers. split; [exact Hr|exact Hagain].
Defined.
End Demo.
