(* ===== verification/ApiKeyRuns.v ===== *)
(** What each request about keys must have seen before it writes, and before its caller is
    remembered as the actor of a key.

    Every request obeys its duties whatever it is answered ([key_requests_ok]); the worlds
    of [ApiKeyWorlds] turn them into facts about every interleaving. *)

From S2P Require Import Actors.
From S2P Require Export Gateway Interleaving.

(** Nothing was committed. *)
Definition open (tr : list kevent) : bool := forallb (λ e, match e with VCommit _ => false | _ => true end) tr.

Section Duties.
Context (hmac : string → string → string) (peppers : service) (max_lifetime : Z) (cfg : settings).

(** Somebody was allowed to write the keys of this owner. *)
Definition permitted (tr : list kevent) (owner : string) : Prop :=
  ∃ a, VRequired a (if bool_decide (owner = actor_id a) then API_KEY_WRITE_OWN else API_KEY_WRITE_ANY) ∈ tr.

(** The expiry was in the future of an instant that was read, and within the maximum. *)
Definition dated (tr : list kevent) (expires : Z) : Prop :=
  ∃ now, VNow now ∈ tr ∧ (now < expires ≤ now + max_lifetime)%Z.

(** What a key may be made of another, in one edit. *)
Definition may_become (tr : list kevent) (k0 k : ApiKey) : Prop :=
  (key_scopes k = key_scopes k0 ∨ key_scopes k ⊆ ISSUABLE_CAPABILITIES) ∧
  default_within (key_default k) (key_scopes k) = true ∧ (expires_at k = expires_at k0 ∨ dated tr (expires_at k)).

Definition day_long (now : Z) (until : option Z) : Prop :=
  match until with Some t => (t ≤ now + MAX_DEBUG_WINDOW_MINUTES * MINUTE)%Z | None => True end.

Definition may_set (tr : list kevent) (k0 : ApiKey) (values : list column) : Prop :=
  (∃ k, values = settings_of k ∧ may_become tr k0 k) ∨
  (∃ now until, values = [CDebug until] ∧ VNow now ∈ tr ∧ day_long now until).

(** Somebody read the key of this handle in his tenant, and was allowed to write it. *)
Definition keeps (tr : list kevent) (scope : option string) (kid : string) (P : ApiKey → Prop) : Prop :=
  is_Some scope ∧ ∃ k0, VGot scope kid (Some k0) ∈ tr ∧ permitted tr (owner_id k0) ∧ P k0.

Definition issued_well (tr : list kevent) (k : ApiKey) : Prop :=
  (∃ bytes, VHandle bytes ∈ tr ∧ key_id k = token_hex bytes) ∧ permitted tr (owner_id k) ∧
  key_scopes k ⊆ ISSUABLE_CAPABILITIES ∧ default_within (key_default k) (key_scopes k) = true ∧
  dated tr (expires_at k) ∧ revoked_at k = None ∧ debug_until k = None.

Definition may_write (tr : list kevent) (st : kstmt) : Prop :=
  match st with
  | SaveKey scope k => is_Some scope ∧ issued_well tr k
  | UpdateSettings scope kid values => keeps tr scope kid (λ k0, may_set tr k0 values)
  | RevokeKey scope kid at_ => VNow at_ ∈ tr ∧ keeps tr scope kid (λ _, True)
  | DeleteKeys _ _ => True
  end.

Definition may (_ : list kevent) (R : Type) (q : keff R) : R → Prop :=
  match q in keff R return R → Prop with
  | KRequire a s => λ r, match r with inr _ => s ∈ scopes a | inl _ => True end
  | KGet scope kid => λ r, match r with inr (Some k) => key_id k = kid ∧ in_scope scope k = true | _ => True end
  | _ => λ _, True
  end.

Definition must (tr : list kevent) (R : Type) (q : keff R) : Prop :=
  open tr = true ∧
  match q with
  | KWrite st => may_write tr st
  | KRemember a => ∃ k h, vouched hmac peppers h k tr ∧ a = _actor_for_key k
  | _ => True
  end.

Abbreviation kobeys p := (obeys log may must p (λ _ _ _, True) tt []).

(** One call of a program, answered in every way. *)
Ltac call_step :=
  match goal with
  | |- must _ _ _ ∧ _ => split; [split; [reflexivity|]|intros ?answer ?Hanswer]
  | x : (kexn + _)%type |- _ => destruct x
  | |- obeys _ _ _ ?p _ _ _ => match p with context [match ?x with _ => _ end] => destruct x eqn:? end
  end.
Ltac walk_keys := repeat (walk_calls; cbn [log may refuse] in *; try done; try call_step).

Lemma known_issuable l : known_capabilities l = true → list_to_set l ⊆ ISSUABLE_CAPABILITIES.
Proof. intros H%bool_decide_eq_true_1. by apply empty_difference_subseteq_L. Qed.

Lemma key_create_ok t a name owner l expires rpm quota cidrs d c :
  kobeys (request (create hmac peppers max_lifetime (Some t) a name owner l expires rpm quota cidrs d c)).
Proof.
  unfold request, create, _require_owner_permission, _assert_expiry_sane, _assert_default_capability, parsed, save, refuse.
  walk_keys. cbn [may_write]. split; [by eexists|]. split; [eexists; split; [known|done]|].
  cbn [owner_id key_scopes key_default expires_at revoked_at debug_until].
  split; [eexists; known|]. split_and!; [by apply known_issuable, negb_false_iff|done| |done|done].
  eexists. split; [known|]. unbool. lia.
Qed.

(** The key that was read, in a trace that is written out. *)
Ltac kept k0 := split; [by eexists|exists k0; split; [known|split; [eexists; known|]]].

Lemma key_update_ok t a kid e : kobeys (request (update max_lifetime (Some t) a kid e)).
Proof.
  unfold request, update, _require, _require_owner_permission, _assert_expiry_sane, _assert_default_capability, parsed,
    update_settings, refuse.
  walk_keys.
  all: match goal with H : key_id ?k = _ ∧ _ |- _ => destruct H as [<- _]; kept k end.
  all: left; eexists; split; [reflexivity|]; unfold may_become, edited; cbn [key_scopes key_default expires_at];
    repeat match goal with H : ?x = _ |- context [?x] => rewrite H end; cbn [default].
  all: split_and!; [|done|]; try (by left); right; try (by apply known_issuable, negb_false_iff).
  all: eexists; split; [known|]; unfold id; unbool; lia.
Qed.

Lemma window_day_long now minutes until : debug_window_until now minutes = Ret until → day_long now until.
Proof.
  unfold debug_window_until. destruct (_ && _) eqn:Hm; [|done]. intros [= <-]. destruct (_ =? 0)%Z; [done|]. simpl.
  unbool. unfold MINUTE, SECOND in *. lia.
Qed.

Lemma revoke_ok t a kid : kobeys (request (revoke (Some t) a kid)).
Proof.
  unfold request, revoke, _require, _require_owner_permission, revoke_row. walk_keys.
  split; [known|]. by kept a0.
Qed.

Lemma key_set_debug_window_ok t a kid minutes : kobeys (request (set_debug_window (Some t) a kid minutes)).
Proof.
  unfold request, set_debug_window, _require, _require_owner_permission, update_settings. walk_keys.
  destruct Hanswer0 as [<- _]. kept a1. right. exists answer, a0. split; [done|]. split; [known|]. by eapply window_day_long.
Qed.

Lemma list_visible_ok t a : kobeys (request (list_visible (Some t) a)).
Proof. unfold request, list_visible. by walk_keys. Qed.

Lemma delete_for_owner_ok scope owner : kobeys (request (delete_for_owner scope owner)).
Proof. unfold request, delete_for_owner. by walk_keys. Qed.
Lemma authenticate_ok h enforce_quota : kobeys (request (_authenticate hmac peppers cfg h enforce_quota)).
Proof.
  unfold request, _authenticate, or_raise, assert_serving, assert_allowed, _assert_source_allowed,
    _assert_within_rate_limit, _assert_within_quota, refuse.
  walk_keys.
  eexists _, _. split; [|reflexivity]. eexists _, _, _.
  split_and!; [done|done|known|by apply negb_false_iff|by apply negb_false_iff|known].
Qed.

(** What is served: each operation of the use case in the caller's tenant, the deletion of
    an owner's keys, and requests that present a key. *)
Inductive served : kprog unit → Prop :=
  | serve_list t a : served (request (list_visible (Some t) a))
  | serve_create t a name owner l expires rpm quota cidrs d c :
      served (request (create hmac peppers max_lifetime (Some t) a name owner l expires rpm quota cidrs d c))
  | serve_update t a kid e : served (request (update max_lifetime (Some t) a kid e))
  | serve_revoke t a kid : served (request (revoke (Some t) a kid))
  | serve_debug t a kid minutes : served (request (set_debug_window (Some t) a kid minutes))
  | serve_delete scope owner : served (request (delete_for_owner scope owner))
  | serve_caller h enforce_quota : served (request (_authenticate hmac peppers cfg h enforce_quota)).

Lemma key_requests_ok p : served p → kobeys p.
Proof.
  intros []; auto using key_create_ok, key_update_ok, revoke_ok, key_set_debug_window_ok, list_visible_ok, delete_for_owner_ok,
    authenticate_ok.
Qed.
End Duties.
