(* ===== verification/ApiKeyWorlds.v ===== *)
(** Any number of requests over the keys, and of callers that present one: what they may be
    answered, the invariant of every world they reach, and what is guaranteed of keys.

    A request is one transaction at the database's isolation level (read committed); a row
    it has written waits for it.  A handle that is drawn is new: eight random bytes do not
    repeat. *)

From S2P Require Import Actors.
From S2P Require Export ApiKeyRuns.

(** * The world *)

Record kstate := mk_kstate { rows : key_table; dirty : gmap nat key_delta; drawn : gset string; clk : Z }.

Definition over (d : key_delta) (t : key_table) : key_table :=
  merge (λ o x, match o with Some o => o | None => x end) d t.

Definition wrote (i : nat) (s : kstate) : key_delta := default ∅ (dirty s !! i).
Definition view (i : nat) (s : kstate) : key_table := over (wrote i s) (rows s).

Definition set_dirty (d : gmap nat key_delta) (s : kstate) : kstate := mk_kstate (rows s) d (drawn s) (clk s).
Definition write (i : nat) (d : key_delta) (s : kstate) : kstate := set_dirty (<[i := d ∪ wrote i s]> (dirty s)) s.
Definition commit (i : nat) (s : kstate) : kstate :=
  mk_kstate (view i s) (base.delete i (dirty s)) (drawn s) (clk s).
Definition rollback (i : nat) (s : kstate) : kstate := set_dirty (base.delete i (dirty s)) s.
Definition add_drawn (x : string) (s : kstate) : kstate := mk_kstate (rows s) (dirty s) ({[x]} ∪ drawn s) (clk s).
Definition set_clk (t : Z) (s : kstate) : kstate := mk_kstate (rows s) (dirty s) (drawn s) t.

Abbreviation handles d := (dom (D:=gset string) d).

(** Nobody else holds what is about to be written. *)
Definition unlocked (i : nat) (d : key_delta) (s : kstate) : bool :=
  bool_decide (map_Forall (λ j e, j = i ∨ handles d ## handles e) (dirty s)).

Definition find_key (t : key_table) (scope : option string) (kid : string) : option ApiKey :=
  match t !! kid with
  | Some k => if in_scope scope k && bool_decide (key_id k = kid) then Some k else None
  | None => None
  end.

Definition broken {A} (r : kexn + A) : Prop := r = inl BackendError.

Definition answers (i : nat) (s : kstate) (R : Type) (q : keff R) : R → kstate → Prop :=
  match q in keff R return R → kstate → Prop with
  | KRequire a sc => λ r s', s' = s ∧ r = (if bool_decide (sc ∈ scopes a) then inr tt else inl NotAuthorized)
  | KGet scope kid => λ r s', s' = s ∧ (broken r ∨ r = inr (find_key (view i s) scope kid))
  | KWrite st => λ r s', (broken r ∧ s' = s) ∨
      ∃ d n, affect st (view i s) = Some (d, n) ∧ unlocked i d s = true ∧ r = inr n ∧ s' = write i d s
  | KCommit => λ r s', (r = inr tt ∧ s' = commit i s) ∨ (broken r ∧ (s' = rollback i s ∨ s' = commit i s))
  | KNow => λ r s', s' = s ∧ r = clk s
  | KHandle => λ r s', length r = KEY_ID_BYTES ∧ (token_hex r ∉ drawn s) ∧ s' = add_drawn (token_hex r) s
  | _ => λ _ s', s' = s
  end.

(** Time passes. *)
Inductive passes (s : kstate) : kstate → Prop :=
  | pass_time t : (clk s ≤ t)%Z → passes s (set_clk t s).

Abbreviation kworld := (world (Eff := keff) (X := kexn) (Ev := kevent) (W := kstate)).
Abbreviation khist := (list (nat * kevent * kstate)).

Section Theory.
Context (hmac : string → string → string) (peppers : service) (max_lifetime : Z) (cfg : settings).
Abbreviation serves := (served hmac peppers max_lifetime cfg).
Abbreviation duty := (must hmac peppers max_lifetime).
Abbreviation kstep := (step log answers rollback serves passes).

(** A key as it may be at an instant: issued for what may be issued, its default one of
    them, no longer alive than the maximum, its debug window no longer open than a day. *)
Definition fits (now : Z) (k : ApiKey) : Prop :=
  key_scopes k ⊆ ISSUABLE_CAPABILITIES ∧ default_within (key_default k) (key_scopes k) = true ∧
  (expires_at k ≤ now + max_lifetime)%Z ∧ day_long now (debug_until k).

(** Where it starts: nothing under way, handles in use have been drawn, and the keys fit. *)
Record starts (s : kstate) : Prop := {
  st_dirty : dirty s = ∅;
  st_rows : ∀ x k, rows s !! x = Some k → key_id k = x ∧ x ∈ drawn s ∧ fits (clk s) k
}.

Definition reachable (w : kworld) : Prop := ∃ s, starts s ∧ rtc kstep (idle s) w.

(** * What every world keeps *)

Definition drew (x : string) (tr : list kevent) : Prop := ∃ bytes, VHandle bytes ∈ tr ∧ token_hex bytes = x.

(** A handle in use: it has been drawn, and whoever drew it has ended. *)
Definition known (s : kstate) (h : khist) (x : string) : Prop :=
  x ∈ drawn s ∧ ∀ i, drew x (events_of i h) → open (events_of i h) = false.

Record sound (s : kstate) (h : khist) : Prop := {
  s_open : ∀ i d, dirty s !! i = Some d → open (events_of i h) = true;
  s_apart : ∀ i j d e, dirty s !! i = Some d → dirty s !! j = Some e → i ≠ j → handles d ## handles e;
  s_drawn : ∀ i x, drew x (events_of i h) → x ∈ drawn s;
  s_once : ∀ i j x, drew x (events_of i h) → drew x (events_of j h) → i = j;
  s_rows : ∀ x k, rows s !! x = Some k → key_id k = x ∧ known s h x ∧ fits (clk s) k;
  s_dirty : ∀ i d x k, dirty s !! i = Some d → d !! x = Some (Some k) →
    key_id k = x ∧ (drew x (events_of i h) ∨ known s h x) ∧ fits (clk s) k;
  s_seen : ∀ i scope x k, VGot scope x (Some k) ∈ events_of i h → key_id k = x ∧ fits (clk s) k;
  s_now : ∀ i t, VNow t ∈ events_of i h → (t ≤ clk s)%Z
}.

Lemma over_key d t x : over d t !! x = match d !! x with Some o => o | None => t !! x end.
Proof. unfold over. rewrite lookup_merge. by destruct (d !! x), (t !! x). Qed.

Lemma day_long_later t t' until : (t ≤ t')%Z → day_long t until → day_long t' until.
Proof. destruct until; simpl; [lia|done]. Qed.

Lemma fits_later t t' k : (t ≤ t')%Z → fits t k → fits t' k.
Proof. intros Ht (?&?&?&?). split_and!; [done|done|lia|by eapply day_long_later]. Qed.

Lemma key_in_snoc i j (e e' : kevent) (s : kstate) (h : khist) :
  e' ∈ events_of i (h ++ [(j, e, s)]) ↔ e' ∈ events_of i h ∨ (i = j ∧ e' = e).
Proof.
  rewrite events_of_snoc, elem_of_app. case_bool_decide; [subst|].
  - rewrite list_elem_of_singleton. naive_solver.
  - split; [|naive_solver]. intros [?|H1%not_elem_of_nil]; [by left|done].
Qed.

Lemma drew_snoc i j x e (s : kstate) (h : khist) :
  drew x (events_of i (h ++ [(j, e, s)])) ↔
    drew x (events_of i h) ∨ (i = j ∧ ∃ bytes, e = VHandle bytes ∧ token_hex bytes = x).
Proof. unfold drew. setoid_rewrite key_in_snoc. naive_solver. Qed.

Lemma key_open_snoc i j e (s : kstate) (h : khist) : open (events_of i (h ++ [(j, e, s)])) = true ↔
  open (events_of i h) = true ∧ (i = j → ∀ ok, e ≠ VCommit ok).
Proof.
  rewrite events_of_snoc. unfold open. rewrite forallb_app, andb_true_iff. case_bool_decide as Hij; simpl; [|naive_solver].
  destruct e; naive_solver.
Qed.

Lemma key_closed_snoc i j e (s : kstate) (h : khist) :
  open (events_of i h) = false → open (events_of i (h ++ [(j, e, s)])) = false.
Proof. intros Hf. apply not_true_iff_false. intros [Ht _]%key_open_snoc. congruence. Qed.

(** Nobody draws a drawn handle, so a handle in use stays one. *)
Lemma known_more s h i e s' x : known s h x → drawn s ⊆ drawn s' →
  (∀ bytes, e = VHandle bytes → token_hex bytes ∉ drawn s) → known s' (h ++ [(i, e, s')]) x.
Proof.
  intros [Hd Hk] Hsub Hfresh. split; [by apply Hsub|]. intros j [Hin|(->&bytes&He&Hx)]%drew_snoc.
  - by apply key_closed_snoc, Hk.
  - destruct (Hfresh bytes He). by rewrite Hx.
Qed.

(** A call that leaves rows and everybody else's writes alone. *)
Lemma key_sound_plain s h i e s' :
  sound s h → rows s' = rows s → dirty s' = dirty s → drawn s ⊆ drawn s' → clk s' = clk s →
  (∀ ok, e ≠ VCommit ok) → (∀ t, e = VNow t → t = clk s) →
  (∀ bytes, e = VHandle bytes → (token_hex bytes ∉ drawn s) ∧ token_hex bytes ∈ drawn s') →
  (∀ scope x k, e = VGot scope x (Some k) → key_id k = x ∧ fits (clk s) k) →
  sound s' (h ++ [(i, e, s')]).
Proof.
  intros Hs Hr Hd Hdr Hc He Hnow Hdraw Hgot.
  assert (∀ x, known s h x → known s' (h ++ [(i, e, s')]) x) as Hkn.
  { intros x Hk. apply (known_more s); [done..|]. intros b Hb. by apply Hdraw. }
  split; rewrite ?Hr, ?Hd, ?Hc.
  - intros j d Hj. apply key_open_snoc. split; [by eapply s_open|]. intros _. apply He.
  - apply (s_apart _ _ Hs).
  - intros j x [Hx|(->&b&Hb&<-)]%drew_snoc; [by eapply Hdr, s_drawn|by apply Hdraw].
  - intros j j' x [Hx|(->&b&Hb&Hbx)]%drew_snoc [Hx'|(->&b'&Hb'&Hbx')]%drew_snoc; [by eapply s_once| | |done].
    + destruct (proj1 (Hdraw _ Hb')). rewrite Hbx'. by eapply s_drawn.
    + destruct (proj1 (Hdraw _ Hb)). rewrite Hbx. by eapply s_drawn.
  - intros x k Hk. destruct (s_rows _ _ Hs _ _ Hk) as (?&?&?). auto.
  - intros j d x k Hj Hk. destruct (s_dirty _ _ Hs _ _ _ _ Hj Hk) as (?&[?|?]&?); split_and!; auto.
    left. apply drew_snoc. by left.
  - intros j scope x k [Hx|[-> Hx]]%key_in_snoc; [by eapply s_seen|by eapply Hgot].
  - intros j t [Hx|[-> Hx]]%key_in_snoc; [by eapply s_now|]. symmetry in Hx. rewrite (Hnow _ Hx). lia.
Qed.

(** What a request sees: its own rows, or those in use. *)
Lemma view_key s h i x k : sound s h → view i s !! x = Some k →
  key_id k = x ∧ (drew x (events_of i h) ∨ known s h x) ∧ fits (clk s) k.
Proof.
  intros Hs. unfold view, wrote. rewrite over_key. destruct (dirty s !! i) as [d|] eqn:Hd; simpl.
  - destruct (d !! x) as [o|] eqn:Ho; [intros ->; by eapply s_dirty|].
    intros Hk. destruct (s_rows _ _ Hs _ _ Hk) as (?&?&?). auto.
  - rewrite lookup_empty. intros Hk. destruct (s_rows _ _ Hs _ _ Hk) as (?&?&?). auto.
Qed.

(** The rows a statement writes. *)
Lemma affect_key st t d n x o : affect st t = Some (d, n) → d !! x = Some o →
  (o = None ∧ is_Some (t !! x)) ∨
  (∃ scope k, st = SaveKey scope k ∧ x = key_id k ∧ t !! x = None ∧ o = Some (stamped scope k)) ∨
  ∃ k, t !! x = Some k ∧ revoked_at k = None ∧
    ((∃ scope at_, st = RevokeKey scope x at_ ∧ o = Some (set_revoked at_ k)) ∨
     (∃ scope values, st = UpdateSettings scope x values ∧ in_scope scope k = true ∧ o = Some (set_columns values k))).
Proof.
  intros Ha Ho. destruct st as [scope k|scope kid at_|scope kid values|scope owner]; cbn in Ha.
  - destruct (t !! key_id k) eqn:Ht; [done|]. injection Ha as <- <-.
    apply lookup_singleton_Some in Ho as [<- <-]. right. left. by exists scope, k.
  - unfold update_live in Ha. destruct (t !! kid) as [k|] eqn:Hk; [|injection Ha as <- <-; by rewrite lookup_empty in Ho].
    destruct (in_scope scope k && _) eqn:Hc; injection Ha as <- <-; [|by rewrite lookup_empty in Ho].
    apply lookup_singleton_Some in Ho as [<- <-]. apply andb_true_iff in Hc as [_ Hc%bool_decide_eq_true].
    right. right. exists k. split_and!; [done|done|]. left. by exists scope, at_.
  - unfold update_live in Ha. destruct (t !! kid) as [k|] eqn:Hk; [|injection Ha as <- <-; by rewrite lookup_empty in Ho].
    destruct (in_scope scope k && _) eqn:Hc; injection Ha as <- <-; [|by rewrite lookup_empty in Ho].
    apply lookup_singleton_Some in Ho as [<- <-]. apply andb_true_iff in Hc as [Hsc Hc%bool_decide_eq_true].
    right. right. exists k. split_and!; [done|done|]. right. by exists scope, values.
  - injection Ha as <- <-. left. rewrite lookup_fmap in Ho. apply fmap_Some in Ho as (k&Hk&->).
    split; [done|]. unfold owned in Hk. apply map_lookup_filter_Some in Hk as [Hk _]. by exists k.
Qed.

Lemma set_columns_id values k : key_id (set_columns values k) = key_id k ∧ revoked_at (set_columns values k) = revoked_at k.
Proof.
  unfold set_columns. revert k. induction values as [|c values IH]; intros k; simpl; [done|].
  destruct (IH (set_column c k)) as [-> ->]. by destruct k, c.
Qed.

(** What a request may write fits. *)
Lemma edited_fits s h i scope x k values : sound s h → may_write max_lifetime (events_of i h) (UpdateSettings scope x values) →
  fits (clk s) k → fits (clk s) (set_columns values k).
Proof.
  intros Hs (_&k0&Hgot&_&Hset) Hk. destruct (s_seen _ _ Hs _ _ _ _ Hgot) as [_ (Hi0&_&He0&_)].
  destruct Hset as [(k'&->&Hsc&Hdef&Hexp)|(now&until&->&Hnow&Hday)].
  - destruct Hk as (_&_&_&Hd). destruct k. unfold fits. cbn in *. split_and!; [|done| |done].
    + destruct Hsc as [->|?]; done.
    + destruct Hexp as [->|(now&Hnow%(s_now _ _ Hs)&?)]; lia.
  - apply (s_now _ _ Hs) in Hnow. destruct Hk as (?&?&?&_). destruct k. unfold fits. cbn in *. split_and!; try done.
    by eapply day_long_later.
Qed.

Lemma written_fits s h i st t d n x k : sound s h → may_write max_lifetime (events_of i h) st →
  affect st t = Some (d, n) → d !! x = Some (Some k) →
  (∀ k0, t !! x = Some k0 → key_id k0 = x ∧ fits (clk s) k0) → key_id k = x ∧ fits (clk s) k.
Proof.
  intros Hs Hm Ha Ho Ht. destruct (affect_key _ _ _ _ _ _ Ha Ho) as [[? _]|[(scope&k'&->&->&_&Hk)|(k0&Hk0&_&Hk)]]; [done| |].
  - injection Hk as ->. destruct Hm as (_&_&_&Hsc&Hdef&(now&Hnow&He)&_&Hdb). apply (s_now _ _ Hs) in Hnow.
    assert (fits (clk s) k') as Hf by (unfold fits; rewrite Hdb; split_and!; [done|done|lia|done]).
    by destruct scope.
  - destruct (Ht _ Hk0) as [Hid Hf]. destruct Hk as [(scope&at_&->&[= ->])|(scope&values&->&_&[= ->])]; [done|].
    split; [by rewrite (proj1 (set_columns_id _ _))|]. by eapply edited_fits.
Qed.

Lemma key_sound_write s h i st d n : sound s h → open (events_of i h) = true →
  may_write max_lifetime (events_of i h) st → affect st (view i s) = Some (d, n) → unlocked i d s = true →
  sound (write i d s) (h ++ [(i, VWrote st n, write i d s)]).
Proof.
  intros Hs Hop Hm Ha Hu. apply bool_decide_eq_true in Hu.
  assert (∀ x, known s h x → known (write i d s) (h ++ [(i, VWrote st n, write i d s)]) x) as Hkn
    by (intros x Hk; by apply (known_more s)).
  assert (∀ j x, drew x (events_of j h) → drew x (events_of j (h ++ [(i, VWrote st n, write i d s)]))) as Hdr
    by (intros; apply drew_snoc; by left).
  split; cbn [rows dirty drawn clk write set_dirty].
  - intros j e [[<- _]|[_ Hj]]%lookup_insert_Some; apply key_open_snoc; (split; [|done]); [done|by eapply s_open].
  - assert (∀ j e, i ≠ j → dirty s !! j = Some e → handles (d ∪ wrote i s) ## handles e) as Hap.
    { intros j e Hne Hj. rewrite dom_union_L. apply disjoint_union_l. split.
      - destruct (Hu _ _ Hj) as [->|?]; done.
      - unfold wrote. destruct (dirty s !! i) as [di|] eqn:Hdi; simpl; [by eapply (s_apart _ _ Hs)|].
        rewrite dom_empty_L. apply disjoint_empty_l. }
    intros j j' e e' [[<- <-]|[Hne Hj]]%lookup_insert_Some [[<- <-]|[Hne' Hj']]%lookup_insert_Some Hjj; [done| | |].
    + by apply (Hap j').
    + symmetry. by apply (Hap j).
    + by eapply (s_apart _ _ Hs).
  - intros j x [Hx|(_&?&?&_)]%drew_snoc; [by eapply s_drawn|done].
  - intros j j' x [Hx|(_&?&?&_)]%drew_snoc [Hx'|(_&?&?&_)]%drew_snoc; [by eapply s_once|done..].
  - intros x k Hk. destruct (s_rows _ _ Hs _ _ Hk) as (?&?&?). auto.
  - intros j e x k [[<- <-]|[_ Hj]]%lookup_insert_Some Hk.
    + apply lookup_union_Some_raw in Hk as [Hk|[_ Hk]].
      * destruct (written_fits _ _ _ _ _ _ _ _ _ Hs Hm Ha Hk) as [Hid Hf].
        { intros k0 Hk0. destruct (view_key _ _ _ _ _ Hs Hk0) as (?&_&?). done. }
        split_and!; [done| |done]. destruct (affect_key _ _ _ _ _ _ Ha Hk) as [[? _]|[(scope&k'&->&->&_&_)|(k0&Hk0&_)]]; [done| |].
        -- destruct Hm as (_&(bytes&Hb&Hx)&_). left. apply Hdr. by exists bytes.
        -- destruct (view_key _ _ _ _ _ Hs Hk0) as (_&[?|?]&_); auto.
      * unfold wrote in Hk. destruct (dirty s !! i) as [di|] eqn:Hdi; simpl in Hk; [|by rewrite lookup_empty in Hk].
        destruct (s_dirty _ _ Hs _ _ _ _ Hdi Hk) as (?&[?|?]&?); auto.
    + destruct (s_dirty _ _ Hs _ _ _ _ Hj Hk) as (?&[?|?]&?); auto.
  - intros j scope x k [Hx|[_ ?]]%key_in_snoc; [by eapply s_seen|done].
  - intros j t [Hx|[_ ?]]%key_in_snoc; [by eapply s_now|done].
Qed.

(** Ends: with or without what was written. *)
Lemma key_sound_rollback s h i : sound s h → sound (rollback i s) h.
Proof.
  intros Hs. split; cbn [rows dirty drawn clk rollback set_dirty].
  - intros j d [_ Hj]%lookup_delete_Some. by eapply s_open.
  - intros j j' d e [_ Hj]%lookup_delete_Some [_ Hj']%lookup_delete_Some. by eapply (s_apart _ _ Hs).
  - apply (s_drawn _ _ Hs).
  - apply (s_once _ _ Hs).
  - apply (s_rows _ _ Hs).
  - intros j d x k [_ Hj]%lookup_delete_Some. by eapply (s_dirty _ _ Hs).
  - apply (s_seen _ _ Hs).
  - apply (s_now _ _ Hs).
Qed.

Lemma sound_end s h i ok s' : sound s h → s' = commit i s ∨ s' = rollback i s → sound s' (h ++ [(i, VCommit ok, s')]).
Proof.
  intros Hs Hs'.
  assert (dirty s' = base.delete i (dirty s) ∧ drawn s' = drawn s ∧ clk s' = clk s ∧
    (rows s' = rows s ∨ rows s' = view i s)) as (Hd&Hdr&Hc&Hr) by (destruct Hs' as [->| ->]; cbn; auto).
  assert (∀ x, known s h x → known s' (h ++ [(i, VCommit ok, s')]) x) as Hkn.
  { intros x Hk. apply (known_more s); [done|by rewrite Hdr|done]. }
  assert (∀ x, drew x (events_of i h) → known s' (h ++ [(i, VCommit ok, s')]) x) as Hown.
  { intros x Hx. split; [rewrite Hdr; by eapply s_drawn|]. intros j [Hj|(_&?&?&_)]%drew_snoc; [|done].
    rewrite (s_once _ _ Hs _ _ _ Hj Hx). apply not_true_iff_false. intros [_ Ho]%key_open_snoc. by eapply Ho. }
  split; rewrite ?Hd, ?Hdr, ?Hc.
  - intros j d [Hne Hj]%lookup_delete_Some. apply key_open_snoc. split; [by eapply s_open|]. by intros ->.
  - intros j j' d e [_ Hj]%lookup_delete_Some [_ Hj']%lookup_delete_Some. by eapply (s_apart _ _ Hs).
  - intros j x [Hx|(_&?&?&_)]%drew_snoc; [by eapply s_drawn|done].
  - intros j j' x [Hx|(_&?&?&_)]%drew_snoc [Hx'|(_&?&?&_)]%drew_snoc; [by eapply s_once|done..].
  - intros x k Hk. destruct Hr as [Hr|Hr]; rewrite Hr in Hk.
    + destruct (s_rows _ _ Hs _ _ Hk) as (?&?&?). auto.
    + destruct (view_key _ _ _ _ _ Hs Hk) as (?&[?|?]&?); auto.
  - intros j d x k [_ Hj]%lookup_delete_Some Hk. destruct (s_dirty _ _ Hs _ _ _ _ Hj Hk) as (?&[?|?]&?); [|auto].
    split_and!; [done| |done]. left. apply drew_snoc. by left.
  - intros j scope x k [Hx|[_ ?]]%key_in_snoc; [by eapply s_seen|done].
  - intros j t [Hx|[_ ?]]%key_in_snoc; [by eapply s_now|done].
Qed.

Lemma key_sound_passes s s' h : passes s s' → sound s h → sound s' h.
Proof.
  intros [t Ht] Hs. split; cbn [rows dirty drawn clk set_clk].
  - apply (s_open _ _ Hs).
  - apply (s_apart _ _ Hs).
  - apply (s_drawn _ _ Hs).
  - apply (s_once _ _ Hs).
  - intros x k Hk. destruct (s_rows _ _ Hs _ _ Hk) as (?&?&?). split_and!; [done..|]. by eapply fits_later.
  - intros i d x k Hd Hk. destruct (s_dirty _ _ Hs _ _ _ _ Hd Hk) as (?&?&?). split_and!; [done..|]. by eapply fits_later.
  - intros i scope x k Hx. destruct (s_seen _ _ Hs _ _ _ _ Hx). split; [done|]. by eapply fits_later.
  - intros i u Hu. apply (s_now _ _ Hs) in Hu. lia.
Qed.

Lemma sound_starts s : starts s → sound s [].
Proof.
  intros [Hd Hr]. assert (∀ i e, e ∉ events_of i ([] : khist)) as Hno by (intros i e; apply not_elem_of_nil).
  assert (∀ i x, ¬ drew x (events_of i ([] : khist))) as Hnd by (intros i x (b&Hb&_); by apply Hno in Hb).
  split.
  - intros i d. by rewrite Hd.
  - intros i j d e. by rewrite Hd.
  - intros i x Hx. by apply Hnd in Hx.
  - intros i j x Hx. by apply Hnd in Hx.
  - intros x k Hk. destruct (Hr _ _ Hk) as (?&?&?). split_and!; [done| |done]. split; [done|]. intros i Hx. by apply Hnd in Hx.
  - intros i d x k. by rewrite Hd.
  - intros i scope x k Hx. by apply Hno in Hx.
  - intros i t Hx. by apply Hno in Hx.
Qed.

Lemma find_key_Some t scope x k : find_key t scope x = Some k → t !! x = Some k ∧ key_id k = x ∧ in_scope scope k = true.
Proof. unfold find_key. repeat case_match; try done. intros [= <-]. unbool. done. Qed.

Lemma key_sound_call i s h R (q : keff R) r s' : duty (events_of i h) R q → answers i s R q r s' → sound s h →
  sound s' (h ++ [(i, log R q r, s')]).
Proof.
  intros [Hop Hm] Ha Hs.
  assert (∀ e, s' = s → (∀ ok, e ≠ VCommit ok) → (∀ t, e ≠ VNow t) → (∀ b, e ≠ VHandle b) →
    (∀ scope x k, e ≠ VGot scope x (Some k)) → sound s' (h ++ [(i, e, s')])) as Hplain.
  { intros e -> ? Ht Hb Hg. apply (key_sound_plain s); try done.
    - intros t ->. by destruct (Ht t).
    - intros b ->. by destruct (Hb b).
    - intros scope x k ->. by destruct (Hg scope x k). }
  destruct q; cbn [answers] in Ha; cbn [log].
  all: try (apply Hplain; [by first [done|destruct Ha]|by repeat case_match..]).
  - destruct Ha as [-> Hr]. destruct Hr as [->| ->]; [by apply Hplain|].
    apply (key_sound_plain s); try done. intros sc x k [= <- <- Hk]. apply find_key_Some in Hk as (Hk&Hid&_).
    by destruct (view_key _ _ _ _ _ Hs Hk) as (_&_&?).
  - destruct Ha as [[-> ->]|(d&n&Ha&Hu&->&->)]; [by apply Hplain|]. by apply key_sound_write.
  - destruct Ha as [[-> ->]|[-> [->| ->]]]; apply (sound_end s); auto.
  - destruct Ha as [-> ->]. apply (key_sound_plain s); try done. by intros t [= ->].
  - destruct Ha as (_&Hnew&->). apply (key_sound_plain s); try done; cbn; [set_solver|].
    intros bytes [= <-]. split; [done|set_solver].
Qed.

Lemma key_answers_allowed i s R (q : keff R) r s' tr : answers i s R q r s' → may tr R q r.
Proof.
  destruct q; cbn; try done.
  - intros [_ ->]. by case_bool_decide.
  - intros [_ [->| ->]]; [done|]. destruct (find_key _ _ _) eqn:Hk; [|done]. by apply find_key_Some in Hk as (_&?&?).
Qed.

Lemma requests_keep_duty p : serves p → obeys log may duty p (λ _ _ _, True) tt [].
Proof. apply key_requests_ok. Qed.

Lemma key_reachable_sound w : reachable w → sound (state w) (history w).
Proof.
  intros (s&Hst&Hr).
  refine (history_invariant log answers rollback serves passes may duty key_answers_allowed requests_keep_duty sound s w
    (sound_starts s Hst) _ _ _ Hr).
  - intros i s1 h R q r s2. apply key_sound_call.
  - intros i s1 h. apply key_sound_rollback.
  - intros s1 s2 h. apply key_sound_passes.
Qed.

(** C14: every key stays within its bounds.  However keys are issued, edited, revoked and
    used, at every moment every key of the table is issued only for capabilities that may
    be issued, its default capability is one of its own, it does not outlive the maximum
    lifetime counted from that moment, and its debug window closes within a day. *)
Theorem every_key_stays_within_its_bounds w x k :
  reachable w → rows (state w) !! x = Some k →
  key_scopes k ⊆ ISSUABLE_CAPABILITIES ∧ default_within (key_default k) (key_scopes k) = true ∧
  (expires_at k ≤ clk (state w) + max_lifetime)%Z ∧ day_long (clk (state w)) (debug_until k).
Proof. intros Hw Hk. by destruct (s_rows _ _ (key_reachable_sound w Hw) _ _ Hk) as (_&_&?). Qed.

(** * Revocation *)

(** A revoked key that no request may revive: its row is as it was, or gone, and whoever
    has written it has deleted it. *)
Record settled (k : ApiKey) (s : kstate) (h : khist) : Prop := {
  t_revoked : revoked_at k ≠ None;
  t_known : known s h (key_id k);
  t_row : rows s !! key_id k = None ∨ rows s !! key_id k = Some k;
  t_dirty : ∀ i d o, dirty s !! i = Some d → d !! key_id k = Some o → o = None
}.

Lemma settled_view k s h i : settled k s h → view i s !! key_id k = None ∨ view i s !! key_id k = Some k.
Proof.
  intros Ht. unfold view, wrote. rewrite over_key. destruct (dirty s !! i) as [d|] eqn:Hd; simpl.
  - destruct (d !! key_id k) as [o|] eqn:Ho; [left; by eapply t_dirty|by apply (t_row _ _ _ Ht)].
  - rewrite lookup_empty. by apply (t_row _ _ _ Ht).
Qed.

(** A statement of a request that is under way leaves a settled key alone, or deletes it. *)
Lemma settled_write k s h i st d n o : settled k s h → open (events_of i h) = true →
  may_write max_lifetime (events_of i h) st → affect st (view i s) = Some (d, n) → d !! key_id k = Some o → o = None.
Proof.
  intros Ht Hop Hm Ha Ho. destruct (affect_key _ _ _ _ _ _ Ha Ho) as [[-> _]|[(scope&k'&->&Hid&_&_)|(k0&Hk0&Hr&_)]]; [done| |].
  - destruct Hm as (_&(bytes&Hb&Hx)&_). destruct (t_known _ _ _ Ht) as [_ Hk].
    assert (drew (key_id k) (events_of i h)) as Hd by (exists bytes; split; [done|congruence]).
    specialize (Hk _ Hd). congruence.
  - destruct (settled_view _ _ _ i Ht) as [Hv|Hv]; rewrite Hv in Hk0; [done|]. injection Hk0 as <-.
    by destruct (t_revoked _ _ _ Ht).
Qed.

Lemma settled_plain k s h i e s' : settled k s h → rows s' = rows s → dirty s' = dirty s → drawn s ⊆ drawn s' →
  (∀ bytes, e = VHandle bytes → token_hex bytes ∉ drawn s) → settled k s' (h ++ [(i, e, s')]).
Proof.
  intros [Hr Hk Hrow Hd] Hrows Hdirty Hsub Hfresh. split; rewrite ?Hrows, ?Hdirty; [done| |done|done]. by apply (known_more s).
Qed.

Lemma settled_call k i s h R (q : keff R) r s' : duty (events_of i h) R q → answers i s R q r s' → sound s h →
  settled k s h → settled k s' (h ++ [(i, log R q r, s')]).
Proof.
  intros [Hop Hm] Ha Hs Ht.
  assert (∀ e, s' = s → (∀ b, e ≠ VHandle b) → settled k s' (h ++ [(i, e, s')])) as Hplain.
  { intros e -> Hb. apply (settled_plain k s); try done. intros b ->. by destruct (Hb b). }
  assert (∀ ok, s' = rollback i s ∨ s' = commit i s → settled k s' (h ++ [(i, VCommit ok, s')])) as Hend.
  { intros ok He. assert (drawn s' = drawn s ∧ dirty s' = base.delete i (dirty s) ∧
      (rows s' = rows s ∨ rows s' = view i s)) as (Hdr&Hd&Hr) by (destruct He as [->| ->]; auto).
    split; [by apply (t_revoked _ _ _ Ht)| | |].
    - apply (known_more s); [by apply (t_known _ _ _ Ht)|by rewrite Hdr|done].
    - destruct Hr as [->| ->]; [by apply (t_row _ _ _ Ht)|by eapply settled_view].
    - rewrite Hd. intros j d o [_ Hj]%lookup_delete_Some. by eapply t_dirty. }
  destruct q; cbn [answers] in Ha; cbn [log].
  all: try (apply Hplain; [by first [done|destruct Ha]|by repeat case_match..]).
  - destruct Ha as [[-> ->]|(d&n&Ha&_&->&->)]; [by apply Hplain|].
    split; cbn [rows dirty drawn write set_dirty]; [by apply (t_revoked _ _ _ Ht)| |by apply (t_row _ _ _ Ht)|].
    + apply (known_more s); [by apply (t_known _ _ _ Ht)|done|done].
    + intros j e o [[<- <-]|[_ Hj]]%lookup_insert_Some Ho; [|by eapply t_dirty].
      apply lookup_union_Some_raw in Ho as [Ho|[_ Ho]]; [by eapply settled_write|].
      unfold wrote in Ho. destruct (dirty s !! i) as [di|] eqn:Hdi; simpl in Ho; [by eapply t_dirty|by rewrite lookup_empty in Ho].
  - destruct Ha as [[-> ->]|[-> [->| ->]]]; apply Hend; auto.
  - destruct Ha as (_&Hnew&->). apply (settled_plain k s); try done; cbn; [set_solver|]. by intros bytes [= <-].
Qed.

(** A row that is there and revoked is settled. *)
Definition revoked_settled (s : kstate) (h : khist) : Prop :=
  ∀ x k, rows s !! x = Some k → revoked_at k ≠ None → settled k s h.

Lemma revoked_call i s h R (q : keff R) r s' : duty (events_of i h) R q → answers i s R q r s' → sound s h →
  revoked_settled s h → revoked_settled s' (h ++ [(i, log R q r, s')]).
Proof.
  intros Hm Ha Hs Hrs x k Hk Hrev.
  destruct (decide (rows s !! x = Some k)) as [Hold|Hnew]; [by eapply settled_call, Hrs|].
  pose proof (key_sound_call _ _ _ _ _ _ _ Hm Ha Hs) as Hs'. destruct (s_rows _ _ Hs' _ _ Hk) as (Hid&Hkn&_).
  assert (s' = commit i s) as Hc.
  { destruct q; cbn [answers] in Ha; try first [subst s'; done|destruct Ha as [Ha _]; subst s'; done].
    - destruct Ha as [[_ ->]|(d&n&_&_&_&->)]; done.
    - destruct Ha as [[_ ->]|[_ [->| ->]]]; done.
    - destruct Ha as (_&_&->). done. }
  subst s'. cbn [rows commit] in Hk. unfold view, wrote in Hk. rewrite over_key in Hk.
  destruct (dirty s !! i) as [d|] eqn:Hd; simpl in Hk; [|by rewrite lookup_empty in Hk].
  destruct (d !! x) as [o|] eqn:Ho; [|done].
  split; [done|by rewrite Hid| |].
  - right. cbn [rows commit]. unfold view, wrote. by rewrite over_key, Hd, Hid; simpl; rewrite Ho.
  - cbn [dirty commit]. intros j e o' [Hne Hj]%lookup_delete_Some Ho'. rewrite Hid in Ho'. exfalso.
    apply (s_apart _ _ Hs i j d e Hd Hj Hne x); apply elem_of_dom; by eexists.
Qed.

(** What has happened since a key was seen revoked. *)
Definition stays_revoked (s : kstate) (h : khist) : Prop :=
  ∀ h1 j e s1 h2 x k, h = h1 ++ (j, e, s1) :: h2 → rows s1 !! x = Some k → revoked_at k ≠ None →
  settled k s h ∧ key_id k = x ∧
  (∀ i e' s', (i, e', s') ∈ h2 → rows s' !! x = None ∨ rows s' !! x = Some k) ∧
  (∀ i scope k', VGot scope x (Some k') ∈ events_of i h2 → revoked_at k' ≠ None).

Lemma stays_revoked_call i s h R (q : keff R) r s' : duty (events_of i h) R q → answers i s R q r s' → sound s h →
  revoked_settled s h → stays_revoked s h → stays_revoked s' (h ++ [(i, log R q r, s')]).
Proof.
  intros Hm Ha Hs Hrs Hst h1 j e s1 h2 x k Hh Hk Hrev. destruct h2 as [|y h2 _] using rev_ind.
  - apply app_inj_tail in Hh as [_ [= <- <- <-]].
    pose proof (revoked_call _ _ _ _ _ _ _ Hm Ha Hs Hrs) as Hrs'. pose proof (key_sound_call _ _ _ _ _ _ _ Hm Ha Hs) as Hs'.
    split_and!; [by eapply Hrs'|by eapply s_rows|by intros ? ? ? ?%not_elem_of_nil|by intros ? ? ? ?%not_elem_of_nil].
  - rewrite app_comm_cons, app_assoc in Hh. apply app_inj_tail in Hh as [Hh <-].
    destruct (Hst _ _ _ _ _ _ _ Hh Hk Hrev) as (Ht&Hid&Hrows&Hgot).
    pose proof (settled_call _ _ _ _ _ _ _ _ Hm Ha Hs Ht) as Ht'. split_and!; [done|done| |].
    + intros i' e' s2 [Hin|Hin%list_elem_of_singleton]%elem_of_app; [by eapply Hrows|]. injection Hin as -> -> ->.
      rewrite <- Hid. by apply (t_row _ _ _ Ht').
    + intros i' scope k' [Hin|[-> Hin]]%key_in_snoc; [by eapply Hgot|].
      destruct q; cbn [log] in Hin; try (by repeat case_match).
      destruct r as [|row]; [done|]. injection Hin as <- <- <-. cbn [answers] in Ha. destruct Ha as [_ [Hb|Hr]]; [done|].
      injection Hr as Hr. symmetry in Hr. apply find_key_Some in Hr as (Hr&_&_). rewrite <- Hid in Hr.
      destruct (settled_view _ _ _ i Ht) as [Hv|Hv]; rewrite Hv in Hr; [done|]. by injection Hr as <-.
Qed.

Lemma revoked_leave s h s' : rows s' = rows s → drawn s' = drawn s → dirty s' ⊆ dirty s →
  (revoked_settled s h → revoked_settled s' h) ∧ (stays_revoked s h → stays_revoked s' h).
Proof.
  intros Hr Hdr Hd. assert (∀ k, settled k s h → settled k s' h) as Hset.
  { intros k [? [Hk1 Hk2] ? Hdi]. split; rewrite ?Hr; [done| |done|].
    - split; [by rewrite Hdr|done].
    - intros i d o Hi. eapply Hdi. by eapply lookup_weaken. }
  split.
  - intros Hrs x k Hk Hrev. rewrite Hr in Hk. by eapply Hset, Hrs.
  - intros Hst h1 j e s1 h2 x k Hh Hk Hrev. destruct (Hst _ _ _ _ _ _ _ Hh Hk Hrev) as (?&?&?&?). auto.
Qed.

Lemma starts_revoked s : starts s → revoked_settled s [] ∧ stays_revoked s [].
Proof.
  intros Hst. split; [|by intros []]. intros x k Hk Hrev. destruct (s_rows _ _ (sound_starts s Hst) _ _ Hk) as (Hid&Hkn&_).
  split; [done|by rewrite Hid|right; by rewrite Hid|]. intros i d o. by rewrite (st_dirty _ Hst).
Qed.

Lemma reachable_revoked w : reachable w →
  sound (state w) (history w) ∧ revoked_settled (state w) (history w) ∧ stays_revoked (state w) (history w).
Proof.
  intros (s&Hst&Hr).
  refine (history_invariant log answers rollback serves passes may duty key_answers_allowed requests_keep_duty
    (λ s h, sound s h ∧ revoked_settled s h ∧ stays_revoked s h) s w (conj (sound_starts s Hst) (starts_revoked s Hst)) _ _ _ Hr).
  - intros i s1 h R q r s2 Hm Ha (?&?&?). split_and!; [by eapply key_sound_call|by eapply revoked_call|by eapply stays_revoked_call].
  - intros i s1 h (?&?&?). destruct (revoked_leave s1 h (rollback i s1) eq_refl eq_refl (delete_subseteq _ _)) as [? ?].
    split; [by apply key_sound_rollback|auto].
  - intros s1 s2 h Hp (?&?&?). split; [by eapply key_sound_passes|]. destruct Hp as [t Ht].
    destruct (revoked_leave s1 h (set_clk t s1) eq_refl eq_refl ltac:(done)) as [? ?]. auto.
Qed.

(** Whoever is remembered presented a key that had been read while it was active. *)
Definition vouched_for (tr : list kevent) (e : kevent) : Prop :=
  match e with VRemembered a => ∃ k h, vouched hmac peppers h k tr ∧ a = _actor_for_key k | _ => True end.

Lemma reachable_vouched w : reachable w → ∀ h1 i e s h2, history w = h1 ++ (i, e, s) :: h2 → vouched_for (events_of i h1) e.
Proof.
  intros (s&_&Hr).
  refine (history_due log answers rollback serves passes may duty key_answers_allowed requests_keep_duty vouched_for s w _ Hr).
  intros tr R q r [_ Hm]. destruct q; try done; cbn [log]; by repeat case_match.
Qed.

(** C12: a revoked key serves nobody.  Whatever requests are under way, from the moment a
    revocation is in the table the row is what it was then, or gone: no edit, and no debug
    window, that had read the key before revives or changes it.  And whoever is remembered
    as its actor after that had read its row before. *)
Theorem a_revoked_key_serves_nobody w h1 j e s h2 x k :
  reachable w → history w = h1 ++ (j, e, s) :: h2 → rows s !! x = Some k → revoked_at k ≠ None →
  (∀ i e' s', (i, e', s') ∈ h2 → rows s' !! x = None ∨ rows s' !! x = Some k) ∧
  ∀ i a s' h3 h4, h2 = h3 ++ (i, VRemembered a, s') :: h4 → actor_key_id a = Some x →
    ∃ k0, VGot None x (Some k0) ∈ events_of i (h1 ++ [(j, e, s)]) ∧ revoked_at k0 = None.
Proof.
  intros Hw Hh Hk Hrev. destruct (reachable_revoked w Hw) as (Hs&_&Hst).
  destruct (Hst _ _ _ _ _ _ _ Hh Hk Hrev) as (_&_&Hrows&Hgot). split; [done|].
  intros i a s' h3 h4 -> Ha. rewrite app_comm_cons, app_assoc in Hh.
  destruct (reachable_vouched w Hw _ _ _ _ _ Hh) as (k0&hd&(plain&kid&now&_&_&Hin&_&Hact&_)&->).
  assert (revoked_at k0 = None) as Hlive by (unfold is_active in Hact; by destruct (revoked_at k0)).
  injection Ha as Ha.
  assert (key_id k0 = kid) as Hid.
  { refine (proj1 (s_seen _ _ Hs i None kid k0 _)). rewrite Hh, events_of_app. apply elem_of_app. by left. }
  subst kid. rewrite Ha in Hin.
  replace (h1 ++ (j, e, s) :: h3) with ((h1 ++ [(j, e, s)]) ++ h3) in Hin by (by rewrite <- app_assoc).
  rewrite events_of_app in Hin. apply elem_of_app in Hin as [Hin|Hin]; [by exists k0|].
  exfalso. refine (Hgot i None k0 _ Hlive). rewrite events_of_app. apply elem_of_app. by left.
Qed.

(** What a write of a row shows. *)
Definition kept_by (tr : list kevent) (e : kevent) : Prop :=
  match e with
  | VWrote (UpdateSettings scope kid values) _ => keeps tr scope kid (λ k0, may_set max_lifetime tr k0 values)
  | VWrote (RevokeKey scope kid _) _ => keeps tr scope kid (λ _, True)
  | VRequired a sc => sc ∈ scopes a
  | VGot scope _ (Some k) => in_scope scope k = true
  | _ => True
  end.

Lemma key_reachable_kept w : reachable w → ∀ h1 i e s h2, history w = h1 ++ (i, e, s) :: h2 → kept_by (events_of i h1) e.
Proof.
  intros (s0&_&Hr). intros h1 i e s h2 Hh.
  refine (history_call log answers rollback serves passes may duty key_answers_allowed requests_keep_duty
    (λ i tr e _, kept_by tr e) s0 w _ Hr h1 i e s h2 Hh).
  intros w1 i1 t R q k r s' _ _ _ [_ Hm] Ha. destruct q; try done; cbn [log answers] in *; try (by repeat case_match).
  - destruct Ha as [_ ->]. by case_bool_decide.
  - destruct r as [|row]; [done|]. destruct Ha as [_ [?|Hfound]]; [done|]. injection Hfound as ->.
    destruct (find_key _ _ _) eqn:Hf; [|done]. by apply find_key_Some in Hf as (_&_&?).
  - destruct r; [done|]. destruct st; try done; cbn [may_write kept_by] in *. by destruct Hm.
Qed.

(** A key is changed only by its keepers.  Whoever edits a key, revokes it or opens its
    debug window does so in a tenant, has read there the row of that handle, which is the
    tenant's, and holds the permission to write his own keys if the key is his, or
    anybody's if it is not. *)
Theorem a_key_is_changed_only_by_its_keepers w h1 i st n s h2 scope kid :
  reachable w → history w = h1 ++ (i, VWrote st n, s) :: h2 →
  (∃ values, st = UpdateSettings scope kid values) ∨ (∃ at_, st = RevokeKey scope kid at_) →
  ∃ tenant k a, scope = Some tenant ∧ VGot scope kid (Some k) ∈ events_of i h1 ∧ key_tenant k = tenant ∧
    (if bool_decide (owner_id k = actor_id a) then API_KEY_WRITE_OWN else API_KEY_WRITE_ANY) ∈ scopes a.
Proof.
  intros Hw Hh Hst. pose proof (key_reachable_kept w Hw) as Hkept.
  assert (∃ P, keeps (events_of i h1) scope kid P) as (P&[tenant ->]&k&Hgot&(a&Hreq)&_).
  { pose proof (Hkept _ _ _ _ _ Hh) as Hk. destruct Hst as [[values ->]|[at_ ->]]; by eexists. }
  assert (∀ e, e ∈ events_of i h1 → ∃ tr, kept_by tr e) as Hev.
  { intros e (s1&Hin)%elem_of_events. apply list_elem_of_split in Hin as (ha&hb&Hab).
    exists (events_of i ha). rewrite Hab, <- app_assoc in Hh. by apply (Hkept _ _ _ _ _ Hh). }
  exists tenant, k, a. destruct (Hev _ Hgot) as (?&Hin). destruct (Hev _ Hreq) as (?&Ha).
  split_and!; [done|done| |done]. by apply bool_decide_eq_true in Hin.
Qed.
End Theory.

(** * Runs *)

Module Play.
Definition hmac : string → string → string := Tokens.Demo.keyed.
Definition peppers : service := Tokens.Demo.before.
Definition YEAR : Z := 365 * DAY.

(** The eight bytes of the next handle. *)
Definition next_bytes (s : kstate) : list Byte.byte := repeat (default Byte.x00 (Byte.of_nat (size (drawn s)))) KEY_ID_BYTES.

Definition reply (i : nat) (s : kstate) (R : Type) (q : keff R) : option (R * kstate) :=
  match q in keff R return option (R * kstate) with
  | KRequire a sc => Some (if bool_decide (sc ∈ scopes a) then inr tt else inl NotAuthorized, s)
  | KOwner _ => Some (inr true, s)
  | KGet scope kid => Some (inr (find_key (view i s) scope kid), s)
  | KListAll _ => Some (inr (view i s), s)
  | KListOwner _ _ => Some (inr (view i s), s)
  | KLastUsed _ => Some (inr ∅, s)
  | KWrite st =>
      match affect st (view i s) with
      | Some (d, n) => if unlocked i d s then Some (inr n, write i d s) else None
      | None => Some (inl BackendError, s)
      end
  | KCommit => Some (inr tt, commit i s)
  | KNow => Some (clk s, s)
  | KUuid => Some ("uuid", s)
  | KHandle =>
      if bool_decide (token_hex (next_bytes s) ∈ drawn s) then None
      else Some (next_bytes s, add_drawn (token_hex (next_bytes s)) s)
  | KSecret => Some (repeat Byte.x07 SECRET_BYTES, s)
  | KAudit _ _ => Some (tt, s)
  | KMaintenance => Some (inr false, s)
  | KCountry _ => Some (inr None, s)
  | KIncr _ _ => Some (inr 1%Z, s)
  | KUsed _ => Some (inr 0%Z, s)
  | KRecovers _ _ => Some (inr None, s)
  | KGrant _ => Some (tt, s)
  | KRemember _ => Some (tt, s)
  end.

Lemma key_reply_allowed i s R q r s' : reply i s R q = Some (r, s') → answers i s R q r s'.
Proof.
  intros Hr. destruct q; cbn [reply answers] in *; try (injection Hr as <- <-; eauto; fail).
  - destruct (affect st (view i s)) as [[d n]|] eqn:Ha; [|injection Hr as <- <-; by left].
    destruct (unlocked i d s) eqn:Hu; [|done]. injection Hr as <- <-. right. exists d, n. by split_and!.
  - destruct (bool_decide _) eqn:Hd; [done|]. injection Hr as <- <-. apply bool_decide_eq_false in Hd.
    split_and!; [by unfold next_bytes; rewrite repeat_length|done|done].
Qed.

Abbreviation kmove := (move keff kexn kstate).
Abbreviation served_here := (served hmac peppers YEAR Gateway.Demo.cfg).
Abbreviation reachable_here := (reachable hmac peppers YEAR Gateway.Demo.cfg).
Abbreviation allowed_here := (allowed served_here passes).
Definition runs (s : kstate) (ms : list kmove) : kworld := default (idle s) (play log rollback reply (idle s) ms).

Lemma key_runs_reachable s ms : starts YEAR s → Forall allowed_here ms → reachable_here (runs s ms).
Proof.
  intros Hs Hms. exists s. split; [done|]. unfold runs. destruct (play _ _ _ _ _) as [w|] eqn:Hw; [|apply rtc_refl].
  by eapply (schedule_steps log answers rollback served_here passes reply key_reply_allowed).
Qed.

(** One key, of two capabilities. *)
Definition ci : ApiKey :=
  let issued := issue hmac peppers Tokens.Demo.key_bytes Tokens.Demo.secret_bytes in
  mk_key "k1" "t" (issued_key_id issued) (issued_digest issued) "ci" "ada" (10 * DAY) {["chat"; "code"]} [] 60 None
    (Some "chat") true None None.
Definition handle : string := key_id ci.
Definition one_key : kstate := mk_kstate {[handle := ci]} ∅ {[handle]} DAY.

Lemma one_key_starts : starts YEAR one_key.
Proof.
  split; [done|]. intros x k Hk. cbn [rows one_key] in Hk. apply lookup_singleton_Some in Hk as [<- <-].
  split; [done|]. split; [by apply (bool_decide_unpack (handle ∈ drawn one_key))|].
  split_and!; [by apply (bool_decide_unpack (key_scopes ci ⊆ ISSUABLE_CAPABILITIES))|done|by vm_compute|done].
Qed.

Definition admin : Actor := mk_actor "ada" "ada" ADMIN local (scopes_for ADMIN) "t" None None None true None.
Definition renames (name : string) : kmove :=
  Serve (request (update YEAR (Some "t") admin handle (mk_edit (Some name) None None None None None None None))).
Definition narrows (l : list string) : kmove :=
  Serve (request (update YEAR (Some "t") admin handle (mk_edit None (Some l) None None None None None None))).
Definition revokes : kmove := Serve (request (revoke (Some "t") admin handle)).
Definition issues : kmove :=
  Serve (request (create hmac peppers YEAR (Some "t") admin "new" "ada" ["chat"; "vision"] (100 * DAY) 60 None ["10.0.0.7/24"]
    (Some "vision") true)).
Definition calls : kmove := Serve (request (_authenticate hmac peppers Gateway.Demo.cfg Gateway.Demo.sent true)).

Lemma renames_served name : allowed_here (renames name).
Proof. apply serve_update. Qed.
Lemma narrows_served l : allowed_here (narrows l).
Proof. apply serve_update. Qed.
Lemma revokes_served : allowed_here revokes.
Proof. apply serve_revoke. Qed.
Lemma issues_served : allowed_here issues.
Proof. apply serve_create. Qed.
Lemma calls_served : allowed_here calls.
Proof. apply serve_caller. Qed.

Ltac moves := repeat (apply Forall_cons; split; [lazymatch goal with
  | |- context [renames] => apply renames_served
  | |- context [narrows] => apply narrows_served
  | |- context [revokes] => apply revokes_served
  | |- context [issues] => apply issues_served
  | |- context [calls] => apply calls_served
  | |- _ => exact I
  end|]); apply Forall_nil; exact I.

Definition nth_call (w : kworld) (n : nat) : nat * kevent * kstate := default (0, VFree, one_key) (history w !! n).
Lemma key_split_at w n i e : (nth_call w n).1 = (i, e) → (n <? length (history w)) = true →
  history w = take n (history w) ++ (i, e, (nth_call w n).2) :: drop (S n) (history w).
Proof.
  intros He Hn%Nat.ltb_lt. destruct (lookup_lt_is_Some_2 _ _ Hn) as [x Hx]. rewrite <- (take_drop_middle _ _ _ Hx) at 1.
  unfold nth_call in *. rewrite Hx in *. cbn in *. destruct x as [y s]. cbn in *. by subst.
Qed.

(** A key is issued. *)
Definition issuing : list kmove := [issues; Go 0 10].
Lemma issuing_allowed : Forall allowed_here issuing.
Proof. moves. Qed.

Definition new_key (w : kworld) : ApiKey := default ci (rows (state w) !! "0101010101010101").

Lemma every_key_stays_within_its_bounds_witness :
  expires_at (new_key (runs one_key issuing)) = (100 * DAY)%Z ∧
  key_default (new_key (runs one_key issuing)) = Some "vision" ∧
  (expires_at (new_key (runs one_key issuing)) ≤ clk (state (runs one_key issuing)) + YEAR)%Z.
Proof.
  split; [vm_compute; reflexivity|]. split; [vm_compute; reflexivity|].
  set (w := runs one_key issuing).
  destruct (every_key_stays_within_its_bounds hmac peppers YEAR Gateway.Demo.cfg w "0101010101010101" (new_key w)) as (_&_&Hle&_).
  - apply key_runs_reachable; [exact one_key_starts|exact issuing_allowed].
  - vm_compute. reflexivity.
  - exact Hle.
Defined.

(** A caller has read the key; it is revoked; the caller is remembered. *)
Definition crossing : list kmove := [calls; revokes; Go 0 1; Go 1 6; Go 0 3].
Lemma crossing_allowed : Forall allowed_here crossing.
Proof. moves. Qed.

Lemma a_revoked_key_serves_nobody_witness :
  ∃ k0, VGot None handle (Some k0) ∈ events_of 0 (take 7 (history (runs one_key crossing))) ∧ revoked_at k0 = None.
Proof.
  set (w := runs one_key crossing).
  destruct (a_revoked_key_serves_nobody hmac peppers YEAR Gateway.Demo.cfg w (take 6 (history w)) 1 (VCommit true) (nth_call w 6).2
    (drop 7 (history w)) handle (set_revoked DAY ci)) as [_ Hserved].
  - apply key_runs_reachable; [exact one_key_starts|exact crossing_allowed].
  - apply key_split_at; vm_compute; reflexivity.
  - vm_compute. reflexivity.
  - discriminate.
  - destruct (Hserved 0 (_actor_for_key ci) (nth_call w 9).2 (take 2 (drop 7 (history w))) []) as (k0&Hin&Hk0).
    + vm_compute. reflexivity.
    + reflexivity.
    + exists k0. split; [exact Hin|exact Hk0].
Defined.

Lemma a_key_is_changed_only_by_its_keepers_witness :
  ∃ tenant k a, Some "t" = Some tenant ∧ VGot (Some "t") handle (Some k) ∈ events_of 1 (take 4 (history (runs one_key crossing))) ∧
    key_tenant k = tenant ∧
    (if bool_decide (owner_id k = actor_id a) then API_KEY_WRITE_OWN else API_KEY_WRITE_ANY) ∈ scopes a.
Proof.
  set (w := runs one_key crossing).
  apply (a_key_is_changed_only_by_its_keepers hmac peppers YEAR Gateway.Demo.cfg w (take 4 (history w)) 1
    (RevokeKey (Some "t") handle DAY) 1 (nth_call w 4).2 (drop 5 (history w)) (Some "t") handle).
  - apply key_runs_reachable; [exact one_key_starts|exact crossing_allowed].
  - apply key_split_at; vm_compute; reflexivity.
  - right. exists DAY. reflexivity.
Defined.

(** A rename has read the key; its capabilities are narrowed; the rename goes on. *)
Definition across : list kmove := [renames "deploy"; narrows ["chat"]; Go 0 2; Go 1 5; Go 0 3].
Lemma across_allowed : Forall allowed_here across.
Proof. moves. Qed.

(** An edit undoes a narrowing.  An edit writes every editable column, those its
    request does not mention with what it read: a rename that read the key before its
    capabilities were narrowed widens them again, and both requests succeed. *)
Theorem an_edit_undoes_a_narrowing :
  ∃ w h1 s h2, reachable_here w ∧ history w = h1 ++ (1, VCommit true, s) :: h2 ∧
    key_scopes <$> rows s !! handle = Some {["chat"]} ∧ VCommit true ∈ events_of 0 h2 ∧
    (key_name <$> rows (state w) !! handle = Some "deploy") ∧
    key_scopes <$> rows (state w) !! handle = Some {["chat"; "code"]}.
Proof.
  set (w := runs one_key across).
  exists w, (take 6 (history w)), (nth_call w 6).2, (drop 7 (history w)).
  split; [apply key_runs_reachable; [exact one_key_starts|exact across_allowed]|].
  split; [apply key_split_at; vm_compute; reflexivity|]. split; [vm_compute; reflexivity|].
  split; [apply (list_elem_of_lookup_2 _ 2); vm_compute; reflexivity|]. split; vm_compute; reflexivity.
Qed.
End Play.
